(* ===== verification/_CoqProject ===== *)
-Q . S2P
Prelude.v
StateM.v
ParserCore.v
GrammarTypes.v
ParserLogic.v
GrammarTypesSafe.v
GrammarExprs.v
GrammarExprsSafe.v
GrammarItems.v
GrammarItemsSafe.v
GreenBuilder.v
Lexer.v
ParserTheorems.v
TyArena.v
Infer.v
Unify.v
TypesTheorems.v
Hir.v
BorrowState.v
BorrowFlow.v
BorrowTotal.v
BorrowWalkTotal.v
BorrowRun.v
BorrowMoves.v
BorrowReport.v
Polonius.v
BorrowTheorems.v
Semver.v
EffectRow.v
EffectInfer.v
EffectSound.v
EffectFix.v
EffectReport.v
EffectReturns.v
EffectTheorems.v
Taint.v
TaintSound.v
TaintTheorems.v
CapResolver.v
CapSweeps.v
CapTheorems.v
SlabPool.v
Mailbox.v
Supervisor.v
FixApply.v
Lockfile.v
Registry.v
Resolver.v
PkgTheorems.v
IrSyntax.v
IrValue.v
IrMethods.v
IrSwarm.v
IrInterp.v
IrValueSafe.v
IrMethodsSafe.v
IrInterpSafe.v
IrInterpTotal.v
IrTheorems.v
IrSwarmTheorems.v
MacroExpand.v
MacroProc.v
MacroTheorems.v
MacroFormat.v
ClusterTls.v
ClusterWire.v
ClusterMesh.v
ClusterSupervisor.v
ClusterMigration.v
ClusterTheorems.v
Replay.v
ReplayTheorems.v
Reload.v
ReloadTheorems.v
