(* ===== verification/Prelude.v ===== *)
(** * Mighty: a verification library for the Mighty compiler and runtime

    Mighty is a language with agents, capabilities and ownership.  Its
    toolchain is a pipeline of Rust crates under [src/crates/]: [mty-syntax]
    lexes and parses a source into a lossless tree, [mty-macros] expands its
    macros, [mty-hir] lowers the tree to a high-level IR, [mty-types] infers types and checks capabilities,
    [mty-borrow] checks moves and borrows, [mty-ir] lowers to a mid-level IR
    and interprets it, and [mty-runtime] runs agents: mailboxes over slab
    pools, supervised by restart policies, on the nodes of a cluster.
    [mty-diagnostics] carries the
    diagnostics of all phases and the fixes they suggest; [mty-pkg] resolves
    the packages a build depends on.

    ** The model

    Every file models the source files it names in its first comment, and
    keeps their names.  Code that may panic answers in [option] or a result
    type with a panic constructor; state is passed explicitly, in a record
    with the fields of the Rust struct, through a monad of the component
    ([ParserCore] for the parser, [IrInterp] for the interpreter, [StateM]
    for the borrow checker and the taint pass).  Code that other tasks
    interleave with is a step relation between its waits.  Integers are [Z]
    (or [N]) with their width written where it shows: wrapping, saturating, or a panic on overflow as
    the development profile has it; [OverflowChecks] is the choice between the
    profiles where the theorems hold of both.  Third-party code is a parameter with the
    documented behaviour it is used for as a class of laws ([LogosOk] of
    [Lexer], [GreenBuilderOk] of [GreenBuilder], [MpscOk] of [Mailbox],
    [RustStd] of [IrValue], [CborOk] of [ClusterWire]), and each class has an
    instance.  The order in which a hash table iterates is a parameter.

    - Syntax.  [ParserCore] (syntax_kind.rs, parser/mod.rs),
      [GrammarTypes], [GrammarExprs], [GrammarItems] (the other files of
      parser/), [GreenBuilder] (the interface of the tree builder), [Lexer]
      (lexer.rs, token_cache.rs).  [ParserLogic] is the
      program logic in which [GrammarTypesSafe], [GrammarExprsSafe],
      [GrammarItemsSafe] prove every production safe;
      [ParserTheorems] and the end of [Lexer] hold the properties: the parser
      is total, its tree spells the source, diagnostics and depth are bounded,
      operators group by the table, edits keep the token cache a partition.
    - Types.  [TyArena] (mty-types/src/ty.rs), [Infer] (infer.rs); [Unify]
      proves unification and instantiation right, [TypesTheorems]
      states it over every state a checker can reach.
    - HIR and borrow checking.  [Hir] (mty-hir/src/nodes.rs, effects.rs, the
      tables of mty-types the checker reads), [BorrowState] (place.rs,
      state.rs, copy.rs, sendable.rs, diag.rs) with the lemmas on places,
      ledgers and what is sendable, [BorrowFlow] (nll.rs, flow.rs), [Polonius] (polonius.rs, lib.rs)
      with the proof that the solver is exact.  [BorrowTotal], [BorrowWalkTotal],
      [BorrowRun] (everything returns), [BorrowMoves] (what
      a walk keeps) and [BorrowReport] (what it reports; the pre-pass is exact)
      lead to [BorrowTheorems].
    - Effects.  [EffectRow] (the module [row] of mty-types/src/effects.rs, the
      tables of defs.rs and the diagnostics of diag.rs the checks use, and
      that unification is sound), [EffectInfer] (the rest of effects.rs).
      [EffectSound] proves the walk of a body exact,
      [EffectFix] the rounds over the calls, [EffectReport] what the checks
      report, [EffectReturns] that the pass returns; [EffectTheorems] holds the
      properties.
    - Taint.  [Taint] (taint.rs) over the state monad, and what a flow from a
      source to a sink is; [TaintSound] proves that the pass reports exactly
      those; [TaintTheorems], that it returns, and the properties.
    - Capabilities.  [CapResolver] (mty-types/src/cap_resolver.rs: the scopes,
      with their lemmas; cap_check.rs and its diagnostics),
      [CapSweeps] (what the sweeps walk over and what they say of a method
      call); [CapTheorems] holds the properties: the pass returns, the
      sweeps report exactly the first bad use of each capability, scopes are
      left as they were entered.
    - Macros.  [MacroExpand] (mty-macros/src/token.rs, scopes.rs, hygiene.rs,
      expand.rs, registry.rs), [MacroProc] (proc.rs: the sandbox of procedural
      macros, and the proofs of its budgets), [MacroTheorems] (resolution
      by scopes, expansions, the sandbox, the registries), [MacroFormat] (stdlib/format.rs with the
      round trip of its templates).  The flag that cancels a body and the
      clock are arguments.
    - Interpreter.  [IrSyntax] (mty-ir/src/ir.rs), [IrValue] (interp/value.rs
      and the operators of interp/run.rs), [IrMethods] (the method table),
      [IrSwarm] (swarm consensus), [IrInterp] (the machine and its hosts).
      [IrValueSafe], [IrMethodsSafe], [IrInterpSafe] prove well-formedness and
      monotonicity in the fuel, [IrInterpTotal] termination of
      programs without recursion; [IrTheorems] and [IrSwarmTheorems] hold the
      properties.
    - Runtime.  [SlabPool] (slab_pool.rs) with its lock-by-lock interleavings,
      [Mailbox] (mailbox.rs) over it, [Supervisor] (supervisor.rs,
      supervisor_orchestrator.rs).
    - Cluster.  [ClusterTls] (cluster/tls.rs: the identity in a certificate,
      against a reference encoder of certificates), [ClusterWire] (address.rs,
      wire.rs, the reader and the handshake of peer.rs), [ClusterMesh]
      (correlation.rs, mesh.rs: routing, asks, the demux, the dialer; every
      access to a map of its own, and their interleavings in any number of
      tasks as [mesh_step]), [ClusterSupervisor] (placement.rs,
      supervisor.rs), [ClusterMigration] (migration.rs: calls, frames and their
      loss as [net_step]); [ClusterTheorems] holds the properties.
    - Replay.  [Replay] (replay/wire.rs, recorder.rs, mod.rs,
      replay_driver.rs: the trace of a run, its recorder, the check of its
      consistency and its comparison with a replayed run, over the values of
      [IrValue] and a runtime that is a record of operations);
      [ReplayTheorems] holds the properties and the interleavings of the
      recorder's calls.
    - Hot reload.  [Reload] (reload/swap.rs, resumable.rs, condvar_drain.rs,
      wasm_loader.rs: snapshots and their migrations, modules and program
      slots, the swap of a running agent over a codec and a wasm parser that
      are parameters); [ReloadTheorems] holds the properties.
    - Fixes.  [FixApply] (mty-diagnostics/src/apply.rs, fix.rs).
    - Packages.  [Semver] (mty-pkg/src/semver.rs), [Lockfile] (lockfile.rs),
      [Registry] (registry.rs), [Resolver] (resolver.rs and the dependencies
      of mty-driver/src/manifest.rs), over a file system and readers that are
      parameters; [Resolver] proves what the resolver's walk keeps and
      bounds its depth, [PkgTheorems] holds the properties.

    The components meet where the program's do: the parser consumes what the
    lexer produces ([ParserTheorems.parse_source]), the borrow checker and the
    unifier share the arena of types, the borrow checker reads the HIR, a
    mailbox owns the slots of a slab pool, format! re-lexes the text it expands
    to, an ask and a migration go through the mesh's routing.

    ** Fuel and bounds

    Recursion that is not structural has fuel.  The parser's is linear in the
    number of tokens and the theorems prove that it suffices; [resolve] and
    [unify] have some fuel that suffices in every reachable state, because no
    type is reachable from itself ([Infer.ev], [TypesTheorems]); the borrow
    checker's is the depth of the body, and [package_fits] bounds its counters:
    a walk costs two points for each expression, seventeen times that in a
    loop, whose body is walked at most seventeen times; the 32 rounds of the
    solver are the source's own and are proved enough for any [u32] loans; the
    32 rounds of the effect pass are the source's too, enough for 32 functions
    and too few for longer chains of calls ([deep_calls_lost]); its walks, and
    the taint pass, need the depth of the bodies, the capability sweeps the
    number of expressions; the interpreter's fuel stands for the Rust stack,
    and [stratified] programs need only a finite amount of it; the resolver's
    depth is at most the number of names the manifests mention; the sandbox of
    a procedural macro has the source's own step budget; a walk over bytes has
    their number; the search for migrations takes a turn for each edge and two
    more.

    ** Not modelled

    The typed view of the tree and the lowering passes (methods over the
    third-party [rowan] tree), the bidirectional checker (its tables of
    built-ins are most of it; what it asks of the arena, of inference and of
    the analyses is modelled), the lowering to the mid-level IR and its
    tooling, the code generators (calls of Cranelift, LLVM and wasm encoders,
    whose semantics is third party) with the ABI their code calls, the
    formatter, documentation, language server, driver and command line (text
    and file I/O), the catalogue of diagnostics (data), telemetry and the
    control socket (records around I/O), package transport (HTTP, git), the
    standard library's host (third-party engines); of the runtime the tasks
    themselves (tokio) and the loop of an agent, and of the cluster the
    sockets, TLS and the writer task; of the macros the lowering of a
    declaration from its syntax node and the macros that call tools. *)

From stdpp Require Import base list strings numbers.

(** Decidable equality through an injection. *)
Definition eq_dec_of_inj {A B} `{EqDecision B} (f : A → B) (inj : ∀ x y, f x = f y → x = y) :
  EqDecision A :=
  λ x y, match decide (f x = f y) with
         | left e => left (inj x y e)
         | right n => right (λ e, n (f_equal f e))
         end.

(** Split every conjunction and existential of the context. *)
Ltac destr_all :=
  repeat match goal with
         | H : _ ∧ _ |- _ => destruct H
         | H : ∃ _, _ |- _ => destruct H
         end.

(** Whether the build checks arithmetic for overflow: the development profile
    of the workspace does, the release profiles do not. *)
Class OverflowChecks := overflow_checks : bool.

Lemma string_cons_app a (s1 s2 : string) : (String a s1 +:+ s2 = String a (s1 +:+ s2))%string.
Proof. reflexivity. Qed.

Lemma string_app_assoc (s1 s2 s3 : string) :
  ((s1 +:+ s2) +:+ s3 = s1 +:+ (s2 +:+ s3))%string.
Proof. induction s1 as [|a s1 IH]; [done|]. by rewrite !string_cons_app, IH. Qed.

Lemma string_app_nil_r (s : string) : (s +:+ "" = s)%string.
Proof. induction s as [|a s IH]; [done|]. by rewrite string_cons_app, IH. Qed.
