(* ===== verification/StateM.v ===== *)
(** * A state monad whose actions may fail

    [ST S A] is an action on a state [S] that answers an [A] or panics
    ([None]; running out of fuel counts as a panic, and totality theorems rule
    out both).  [ensures] and [leads] are its partial and its total
    correctness triples. *)

From stdpp Require Import base list.
From S2P Require Import Prelude.

Definition ST (S A : Type) : Type := S → option (A * S).

#[export] Instance ST_ret {S} : MRet (ST S) := λ A a s, Some (a, s).
#[export] Instance ST_bind {S} : MBind (ST S) := λ A B k m s,
  match m s with Some (a, s') => k a s' | None => None end.

Section Actions.
Context {S : Type}.

Definition stuck {A} : ST S A := λ _, None.
Definition gets {A} (f : S → A) : ST S A := λ s, Some (f s, s).
Definition modify (f : S → S) : ST S unit := λ s, Some ((), f s).
Definition lift {A} (o : option A) : ST S A := λ s, match o with Some a => Some (a, s) | None => None end.

(** [if let Some(x) = o { f(x) }] *)
Definition when_some {A} (o : option A) (f : A → ST S unit) : ST S unit :=
  match o with Some a => f a | None => mret () end.

(** [for x in xs { f(x) }] *)
Fixpoint each {A} (f : A → ST S unit) (xs : list A) : ST S unit :=
  match xs with [] => mret () | x :: xs => f x ≫= λ _, each f xs end.

(** [for (i, x) in xs.iter().enumerate() { f(i, x) }], from the index [i]. *)
Fixpoint each_from {A} (f : nat → A → ST S unit) (i : nat) (xs : list A) : ST S unit :=
  match xs with [] => mret () | x :: xs => f i x ≫= λ _, each_from f (1 + i) xs end.

Definition void {A} (m : ST S A) : ST S unit := m ≫= λ _, mret ().

(** ** Triples *)

(** Whenever [m] returns from [s], it returns in [Q]. *)
Definition ensures {A} (m : ST S A) (s : S) (Q : A → S → Prop) : Prop :=
  ∀ a s', m s = Some (a, s') → Q a s'.

(** [m] returns from [s], in [Q]. *)
Definition leads {A} (m : ST S A) (s : S) (Q : A → S → Prop) : Prop :=
  match m s with Some (a, s') => Q a s' | None => False end.

Lemma leads_ensures {A} (m : ST S A) s Q : leads m s Q → ensures m s Q.
Proof. unfold leads, ensures. intros H a s' E. by rewrite E in H. Qed.

Lemma ensures_ret {A} (a : A) s (Q : A → S → Prop) : Q a s → ensures (mret a) s Q.
Proof. by intros H ?? [= <- <-]. Qed.

Lemma ensures_bind {A B} (m : ST S A) (k : A → ST S B) s Q :
  ensures m s (λ a s', ensures (k a) s' Q) → ensures (m ≫= k) s Q.
Proof.
  intros H b s'' E. unfold mbind, ST_bind in E. destruct (m s) as [[a s']|] eqn:Em; [|done].
  by eapply H.
Qed.

Lemma ensures_mono {A} (m : ST S A) s (Q R : A → S → Prop) :
  ensures m s Q → (∀ a s', Q a s' → R a s') → ensures m s R.
Proof. intros H HQ a s' E. by apply HQ, H. Qed.

Lemma leads_ret {A} (a : A) s (Q : A → S → Prop) : Q a s → leads (mret a) s Q.
Proof. done. Qed.

Lemma leads_bind {A B} (m : ST S A) (k : A → ST S B) s Q :
  leads m s (λ a s', leads (k a) s' Q) → leads (m ≫= k) s Q.
Proof. unfold leads at 1 3. unfold mbind, ST_bind. by destruct (m s) as [[a s']|]. Qed.

Lemma leads_mono {A} (m : ST S A) s (Q R : A → S → Prop) :
  leads m s Q → (∀ a s', Q a s' → R a s') → leads m s R.
Proof. unfold leads. destruct (m s) as [[a s']|]; [auto|done]. Qed.

Lemma leads_modify {B} (f : S → S) (k : unit → ST S B) s Q : leads (k ()) (f s) Q → leads (modify f ≫= k) s Q.
Proof. done. Qed.

Lemma leads_gets {A B} (f : S → A) (k : A → ST S B) s Q : leads (k (f s)) s Q → leads (gets f ≫= k) s Q.
Proof. done. Qed.

Lemma leads_lift {A B} (o : option A) a (k : A → ST S B) s Q :
  o = Some a → leads (k a) s Q → leads (lift o ≫= k) s Q.
Proof. by intros ->. Qed.

Lemma bind_run {A B} (m : ST S A) (k : A → ST S B) s a s' : m s = Some (a, s') → (m ≫= k) s = k a s'.
Proof. intros E. unfold mbind, ST_bind. by rewrite E. Qed.

Lemma leads_run {A} (m : ST S A) s Q : leads m s Q → ∃ a s', m s = Some (a, s') ∧ Q a s'.
Proof. unfold leads. destruct (m s) as [[a s']|]; [eauto|done]. Qed.

End Actions.
