(* ===== verification/ParserCore.v ===== *)
(** * The tags of the Mighty syntax tree and the parser's cursor

    [SyntaxKind] is [crates/mty-syntax/src/syntax_kind.rs]: one enum for the
    tokens the lexer produces and the nodes the parser opens, in declaration
    order, because [is_keyword] compares discriminants.  The regular
    expressions attached to the token variants are compiled by the [logos]
    derive macro, which is third-party code and not modelled.  The parser's state
    and its cursor primitives follow. *)

From stdpp Require Import list base strings numbers.
From S2P Require Import Prelude.

Inductive SyntaxKind : Set :=
  | WHITESPACE | LINE_COMMENT | BLOCK_COMMENT | DOC_COMMENT | HEX_INT_LITERAL
  | BIN_INT_LITERAL | OCT_INT_LITERAL | INT_LITERAL | FLOAT_LITERAL | DURATION_LITERAL
  | SIZE_LITERAL | STRING_LITERAL | CHAR_LITERAL | HTML_LITERAL | TRUE_KW | FALSE_KW
  | AGENT_KW | ARENA_KW | AS_KW | ASYNC_KW | AWAIT_KW | BUDGET_KW | CAP_KW | CONST_KW
  | EFFECT_KW | ELSE_KW | ENUM_KW | EXTERN_KW | FN_KW | FOR_KW | IF_KW | IMPL_KW
  | IMPORT_KW | IN_KW | LET_KW | LOOP_KW | MATCH_KW | MOD_KW | MOVE_KW | MUT_KW | ON_KW
  | PACKAGE_KW | PROTOCOL_KW | PUB_KW | REF_KW | RETURN_KW | SELF_KW | SPAWN_KW | STATE_KW
  | STRUCT_KW | TASK_KW | TRAIT_KW | TYPE_KW | UNSAFE_KW | USE_KW | WHERE_KW | WHILE_KW
  | WITH_KW | YIELD_KW | EXPORT_KW | SUP_KW | SANDBOX_KW | CHILD_KW | ON_FAIL_KW
  | RESTART_KW | BACKOFF_KW | BREAK_KW | CONTINUE_KW | UP_TO_KW | DETACH_KW | REQUIRES_KW
  | MACRO_KW | RUN_KW | JOIN_KW | SCOPE_KW | DYN_KW | DERIVE_KW | IDENT | L_PAREN | R_PAREN
  | L_BRACE | R_BRACE | L_BRACK | R_BRACK | COMMA | SEMI | COLON | COLON_COLON | DOT
  | DOT_DOT | DOT_DOT_EQ | DOT_DOT_DOT | FAT_ARROW | THIN_ARROW | AT | QUESTION | BANG
  | AMP | AMP_AMP | PIPE | PIPE_PIPE | CARET | EQ | EQ_EQ | BANG_EQ | LT | LT_EQ | GT
  | GT_EQ | SHL | SHR | PLUS | MINUS | STAR | SLASH | PERCENT | PLUS_EQ | MINUS_EQ
  | STAR_EQ | SLASH_EQ | PERCENT_EQ | AMP_EQ | PIPE_EQ | CARET_EQ | SHL_EQ | SHR_EQ | HASH
  | ERROR | EOF | FILE | USE_DECL | MOD_DECL | PACKAGE_DECL | FN_DECL | FN_PARAM
  | FN_PARAM_LIST | RET_TYPE | EFFECT_CLAUSE | EFFECT_SET | EFFECT_NAME | EFFECT_ROW_TAIL
  | EFFECT_ROW_VAR | STRUCT_DECL | STRUCT_FIELD | STRUCT_FIELD_LIST | ENUM_DECL
  | ENUM_VARIANT | ENUM_VARIANT_LIST | TYPE_ALIAS | IMPL_BLOCK | TRAIT_DECL | TRAIT_METHOD
  | AGENT_DECL | AGENT_CTOR_PARAMS | AGENT_PROTOCOL_LIST | AGENT_STATE_DECL | ON_HANDLER
  | PROTOCOL_DECL | PROTOCOL_MSG | SUPERVISOR_DECL | SUP_CHILD | ON_FAIL_CLAUSE
  | BUDGET_BLOCK | BUDGET_ENTRY | SANDBOX_BLOCK | SANDBOX_ENTRY | ARENA_BLOCK | TASK_SCOPE
  | TASK_SPAWN | DETACH_EXPR | JOIN_EXPR | EXTERN_BLOCK | EXTERN_FN | VARIADIC_MARKER
  | EXPORT_DECL | MACRO_DECL | UNSAFE_BLOCK | GENERIC_PARAM_LIST | GENERIC_PARAM
  | GENERIC_ARG_LIST | GENERIC_ARG | WHERE_CLAUSE | PATH | PATH_SEGMENT | NAME | NAME_REF
  | TYPE_PATH | TYPE_REF | TYPE_BORROW | TYPE_TUPLE | TYPE_ARRAY | TYPE_FN | TYPE_DYN
  | TYPE_RESULT_SUGAR | TYPE_UNION | BLOCK | LET_STMT | EXPR_STMT | LITERAL_EXPR
  | PATH_EXPR | BINARY_EXPR | UNARY_EXPR | POSTFIX_EXPR | CALL_EXPR | METHOD_CALL_EXPR
  | INDEX_EXPR | FIELD_EXPR | CAST_EXPR | IF_EXPR | MATCH_EXPR | MATCH_ARM | MATCH_GUARD
  | FOR_EXPR | WHILE_EXPR | LOOP_EXPR | RETURN_EXPR | BREAK_EXPR | CONTINUE_EXPR
  | YIELD_EXPR | TUPLE_EXPR | ARRAY_EXPR | STRUCT_EXPR | STRUCT_FIELD_EXPR | MAP_EXPR
  | MAP_ENTRY | LAMBDA_EXPR | SEND_EXPR | ASK_EXPR | DEADLINE_EXPR | QUESTION_EXPR
  | HTML_EXPR | MOVE_EXPR | BORROW_EXPR | SPAWN_EXPR | RUN_EXPR | LITERAL_PAT | IDENT_PAT
  | WILDCARD_PAT | TUPLE_PAT | STRUCT_PAT | ENUM_PAT | RANGE_PAT | BINDING_PAT | REF_PAT
  | ARG_LIST | ARG | NAMED_ARG | ATTR | VISIBILITY | CONST_DECL | MACRO_CALL | TOKEN_TREE
  | PROC_MACRO_DECL | TOOL_ATTR | TOOL_ATTR_ARGS | TOOL_ATTR_CAP_ARG.

(** [kind as u16]: the position in the declaration. *)
Definition kind_to_raw (k : SyntaxKind) : N :=
  match k with
  | WHITESPACE => 0 | LINE_COMMENT => 1 | BLOCK_COMMENT => 2 | DOC_COMMENT => 3
  | HEX_INT_LITERAL => 4 | BIN_INT_LITERAL => 5 | OCT_INT_LITERAL => 6 | INT_LITERAL => 7
  | FLOAT_LITERAL => 8 | DURATION_LITERAL => 9 | SIZE_LITERAL => 10 | STRING_LITERAL => 11
  | CHAR_LITERAL => 12 | HTML_LITERAL => 13 | TRUE_KW => 14 | FALSE_KW => 15
  | AGENT_KW => 16 | ARENA_KW => 17 | AS_KW => 18 | ASYNC_KW => 19 | AWAIT_KW => 20
  | BUDGET_KW => 21 | CAP_KW => 22 | CONST_KW => 23 | EFFECT_KW => 24 | ELSE_KW => 25
  | ENUM_KW => 26 | EXTERN_KW => 27 | FN_KW => 28 | FOR_KW => 29 | IF_KW => 30
  | IMPL_KW => 31 | IMPORT_KW => 32 | IN_KW => 33 | LET_KW => 34 | LOOP_KW => 35
  | MATCH_KW => 36 | MOD_KW => 37 | MOVE_KW => 38 | MUT_KW => 39 | ON_KW => 40
  | PACKAGE_KW => 41 | PROTOCOL_KW => 42 | PUB_KW => 43 | REF_KW => 44 | RETURN_KW => 45
  | SELF_KW => 46 | SPAWN_KW => 47 | STATE_KW => 48 | STRUCT_KW => 49 | TASK_KW => 50
  | TRAIT_KW => 51 | TYPE_KW => 52 | UNSAFE_KW => 53 | USE_KW => 54 | WHERE_KW => 55
  | WHILE_KW => 56 | WITH_KW => 57 | YIELD_KW => 58 | EXPORT_KW => 59 | SUP_KW => 60
  | SANDBOX_KW => 61 | CHILD_KW => 62 | ON_FAIL_KW => 63 | RESTART_KW => 64
  | BACKOFF_KW => 65 | BREAK_KW => 66 | CONTINUE_KW => 67 | UP_TO_KW => 68
  | DETACH_KW => 69 | REQUIRES_KW => 70 | MACRO_KW => 71 | RUN_KW => 72 | JOIN_KW => 73
  | SCOPE_KW => 74 | DYN_KW => 75 | DERIVE_KW => 76 | IDENT => 77 | L_PAREN => 78
  | R_PAREN => 79 | L_BRACE => 80 | R_BRACE => 81 | L_BRACK => 82 | R_BRACK => 83
  | COMMA => 84 | SEMI => 85 | COLON => 86 | COLON_COLON => 87 | DOT => 88 | DOT_DOT => 89
  | DOT_DOT_EQ => 90 | DOT_DOT_DOT => 91 | FAT_ARROW => 92 | THIN_ARROW => 93 | AT => 94
  | QUESTION => 95 | BANG => 96 | AMP => 97 | AMP_AMP => 98 | PIPE => 99 | PIPE_PIPE => 100
  | CARET => 101 | EQ => 102 | EQ_EQ => 103 | BANG_EQ => 104 | LT => 105 | LT_EQ => 106
  | GT => 107 | GT_EQ => 108 | SHL => 109 | SHR => 110 | PLUS => 111 | MINUS => 112
  | STAR => 113 | SLASH => 114 | PERCENT => 115 | PLUS_EQ => 116 | MINUS_EQ => 117
  | STAR_EQ => 118 | SLASH_EQ => 119 | PERCENT_EQ => 120 | AMP_EQ => 121 | PIPE_EQ => 122
  | CARET_EQ => 123 | SHL_EQ => 124 | SHR_EQ => 125 | HASH => 126 | ERROR => 127
  | EOF => 128 | FILE => 129 | USE_DECL => 130 | MOD_DECL => 131 | PACKAGE_DECL => 132
  | FN_DECL => 133 | FN_PARAM => 134 | FN_PARAM_LIST => 135 | RET_TYPE => 136
  | EFFECT_CLAUSE => 137 | EFFECT_SET => 138 | EFFECT_NAME => 139 | EFFECT_ROW_TAIL => 140
  | EFFECT_ROW_VAR => 141 | STRUCT_DECL => 142 | STRUCT_FIELD => 143
  | STRUCT_FIELD_LIST => 144 | ENUM_DECL => 145 | ENUM_VARIANT => 146
  | ENUM_VARIANT_LIST => 147 | TYPE_ALIAS => 148 | IMPL_BLOCK => 149 | TRAIT_DECL => 150
  | TRAIT_METHOD => 151 | AGENT_DECL => 152 | AGENT_CTOR_PARAMS => 153
  | AGENT_PROTOCOL_LIST => 154 | AGENT_STATE_DECL => 155 | ON_HANDLER => 156
  | PROTOCOL_DECL => 157 | PROTOCOL_MSG => 158 | SUPERVISOR_DECL => 159 | SUP_CHILD => 160
  | ON_FAIL_CLAUSE => 161 | BUDGET_BLOCK => 162 | BUDGET_ENTRY => 163
  | SANDBOX_BLOCK => 164 | SANDBOX_ENTRY => 165 | ARENA_BLOCK => 166 | TASK_SCOPE => 167
  | TASK_SPAWN => 168 | DETACH_EXPR => 169 | JOIN_EXPR => 170 | EXTERN_BLOCK => 171
  | EXTERN_FN => 172 | VARIADIC_MARKER => 173 | EXPORT_DECL => 174 | MACRO_DECL => 175
  | UNSAFE_BLOCK => 176 | GENERIC_PARAM_LIST => 177 | GENERIC_PARAM => 178
  | GENERIC_ARG_LIST => 179 | GENERIC_ARG => 180 | WHERE_CLAUSE => 181 | PATH => 182
  | PATH_SEGMENT => 183 | NAME => 184 | NAME_REF => 185 | TYPE_PATH => 186
  | TYPE_REF => 187 | TYPE_BORROW => 188 | TYPE_TUPLE => 189 | TYPE_ARRAY => 190
  | TYPE_FN => 191 | TYPE_DYN => 192 | TYPE_RESULT_SUGAR => 193 | TYPE_UNION => 194
  | BLOCK => 195 | LET_STMT => 196 | EXPR_STMT => 197 | LITERAL_EXPR => 198
  | PATH_EXPR => 199 | BINARY_EXPR => 200 | UNARY_EXPR => 201 | POSTFIX_EXPR => 202
  | CALL_EXPR => 203 | METHOD_CALL_EXPR => 204 | INDEX_EXPR => 205 | FIELD_EXPR => 206
  | CAST_EXPR => 207 | IF_EXPR => 208 | MATCH_EXPR => 209 | MATCH_ARM => 210
  | MATCH_GUARD => 211 | FOR_EXPR => 212 | WHILE_EXPR => 213 | LOOP_EXPR => 214
  | RETURN_EXPR => 215 | BREAK_EXPR => 216 | CONTINUE_EXPR => 217 | YIELD_EXPR => 218
  | TUPLE_EXPR => 219 | ARRAY_EXPR => 220 | STRUCT_EXPR => 221 | STRUCT_FIELD_EXPR => 222
  | MAP_EXPR => 223 | MAP_ENTRY => 224 | LAMBDA_EXPR => 225 | SEND_EXPR => 226
  | ASK_EXPR => 227 | DEADLINE_EXPR => 228 | QUESTION_EXPR => 229 | HTML_EXPR => 230
  | MOVE_EXPR => 231 | BORROW_EXPR => 232 | SPAWN_EXPR => 233 | RUN_EXPR => 234
  | LITERAL_PAT => 235 | IDENT_PAT => 236 | WILDCARD_PAT => 237 | TUPLE_PAT => 238
  | STRUCT_PAT => 239 | ENUM_PAT => 240 | RANGE_PAT => 241 | BINDING_PAT => 242
  | REF_PAT => 243 | ARG_LIST => 244 | ARG => 245 | NAMED_ARG => 246 | ATTR => 247
  | VISIBILITY => 248 | CONST_DECL => 249 | MACRO_CALL => 250 | TOKEN_TREE => 251
  | PROC_MACRO_DECL => 252 | TOOL_ATTR => 253 | TOOL_ATTR_ARGS => 254
  | TOOL_ATTR_CAP_ARG => 255
  end%N.

Definition all_kinds : list SyntaxKind :=
  [WHITESPACE; LINE_COMMENT; BLOCK_COMMENT; DOC_COMMENT; HEX_INT_LITERAL; BIN_INT_LITERAL;
  OCT_INT_LITERAL; INT_LITERAL; FLOAT_LITERAL; DURATION_LITERAL; SIZE_LITERAL;
  STRING_LITERAL; CHAR_LITERAL; HTML_LITERAL; TRUE_KW; FALSE_KW; AGENT_KW; ARENA_KW; AS_KW;
  ASYNC_KW; AWAIT_KW; BUDGET_KW; CAP_KW; CONST_KW; EFFECT_KW; ELSE_KW; ENUM_KW; EXTERN_KW;
  FN_KW; FOR_KW; IF_KW; IMPL_KW; IMPORT_KW; IN_KW; LET_KW; LOOP_KW; MATCH_KW; MOD_KW;
  MOVE_KW; MUT_KW; ON_KW; PACKAGE_KW; PROTOCOL_KW; PUB_KW; REF_KW; RETURN_KW; SELF_KW;
  SPAWN_KW; STATE_KW; STRUCT_KW; TASK_KW; TRAIT_KW; TYPE_KW; UNSAFE_KW; USE_KW; WHERE_KW;
  WHILE_KW; WITH_KW; YIELD_KW; EXPORT_KW; SUP_KW; SANDBOX_KW; CHILD_KW; ON_FAIL_KW;
  RESTART_KW; BACKOFF_KW; BREAK_KW; CONTINUE_KW; UP_TO_KW; DETACH_KW; REQUIRES_KW;
  MACRO_KW; RUN_KW; JOIN_KW; SCOPE_KW; DYN_KW; DERIVE_KW; IDENT; L_PAREN; R_PAREN; L_BRACE;
  R_BRACE; L_BRACK; R_BRACK; COMMA; SEMI; COLON; COLON_COLON; DOT; DOT_DOT; DOT_DOT_EQ;
  DOT_DOT_DOT; FAT_ARROW; THIN_ARROW; AT; QUESTION; BANG; AMP; AMP_AMP; PIPE; PIPE_PIPE;
  CARET; EQ; EQ_EQ; BANG_EQ; LT; LT_EQ; GT; GT_EQ; SHL; SHR; PLUS; MINUS; STAR; SLASH;
  PERCENT; PLUS_EQ; MINUS_EQ; STAR_EQ; SLASH_EQ; PERCENT_EQ; AMP_EQ; PIPE_EQ; CARET_EQ;
  SHL_EQ; SHR_EQ; HASH; ERROR; EOF; FILE; USE_DECL; MOD_DECL; PACKAGE_DECL; FN_DECL;
  FN_PARAM; FN_PARAM_LIST; RET_TYPE; EFFECT_CLAUSE; EFFECT_SET; EFFECT_NAME;
  EFFECT_ROW_TAIL; EFFECT_ROW_VAR; STRUCT_DECL; STRUCT_FIELD; STRUCT_FIELD_LIST; ENUM_DECL;
  ENUM_VARIANT; ENUM_VARIANT_LIST; TYPE_ALIAS; IMPL_BLOCK; TRAIT_DECL; TRAIT_METHOD;
  AGENT_DECL; AGENT_CTOR_PARAMS; AGENT_PROTOCOL_LIST; AGENT_STATE_DECL; ON_HANDLER;
  PROTOCOL_DECL; PROTOCOL_MSG; SUPERVISOR_DECL; SUP_CHILD; ON_FAIL_CLAUSE; BUDGET_BLOCK;
  BUDGET_ENTRY; SANDBOX_BLOCK; SANDBOX_ENTRY; ARENA_BLOCK; TASK_SCOPE; TASK_SPAWN;
  DETACH_EXPR; JOIN_EXPR; EXTERN_BLOCK; EXTERN_FN; VARIADIC_MARKER; EXPORT_DECL;
  MACRO_DECL; UNSAFE_BLOCK; GENERIC_PARAM_LIST; GENERIC_PARAM; GENERIC_ARG_LIST;
  GENERIC_ARG; WHERE_CLAUSE; PATH; PATH_SEGMENT; NAME; NAME_REF; TYPE_PATH; TYPE_REF;
  TYPE_BORROW; TYPE_TUPLE; TYPE_ARRAY; TYPE_FN; TYPE_DYN; TYPE_RESULT_SUGAR; TYPE_UNION;
  BLOCK; LET_STMT; EXPR_STMT; LITERAL_EXPR; PATH_EXPR; BINARY_EXPR; UNARY_EXPR;
  POSTFIX_EXPR; CALL_EXPR; METHOD_CALL_EXPR; INDEX_EXPR; FIELD_EXPR; CAST_EXPR; IF_EXPR;
  MATCH_EXPR; MATCH_ARM; MATCH_GUARD; FOR_EXPR; WHILE_EXPR; LOOP_EXPR; RETURN_EXPR;
  BREAK_EXPR; CONTINUE_EXPR; YIELD_EXPR; TUPLE_EXPR; ARRAY_EXPR; STRUCT_EXPR;
  STRUCT_FIELD_EXPR; MAP_EXPR; MAP_ENTRY; LAMBDA_EXPR; SEND_EXPR; ASK_EXPR; DEADLINE_EXPR;
  QUESTION_EXPR; HTML_EXPR; MOVE_EXPR; BORROW_EXPR; SPAWN_EXPR; RUN_EXPR; LITERAL_PAT;
  IDENT_PAT; WILDCARD_PAT; TUPLE_PAT; STRUCT_PAT; ENUM_PAT; RANGE_PAT; BINDING_PAT;
  REF_PAT; ARG_LIST; ARG; NAMED_ARG; ATTR; VISIBILITY; CONST_DECL; MACRO_CALL; TOKEN_TREE;
  PROC_MACRO_DECL; TOOL_ATTR; TOOL_ATTR_ARGS; TOOL_ATTR_CAP_ARG].

Lemma kind_to_raw_lookup k : all_kinds !! N.to_nat (kind_to_raw k) = Some k.
Proof. destruct k; reflexivity. Qed.

Lemma kind_to_raw_inj k1 k2 : kind_to_raw k1 = kind_to_raw k2 → k1 = k2.
Proof.
  intros E. apply Some_inj. rewrite <- (kind_to_raw_lookup k1), <- (kind_to_raw_lookup k2).
  by rewrite E.
Qed.

#[export] Instance SyntaxKind_eq_dec : EqDecision SyntaxKind :=
  eq_dec_of_inj kind_to_raw kind_to_raw_inj.

(** [==] on kinds, as the parser uses it. *)
Definition kind_eqb (a b : SyntaxKind) : bool := N.eqb (kind_to_raw a) (kind_to_raw b).

Lemma kind_eqb_eq a b : kind_eqb a b = true ↔ a = b.
Proof.
  unfold kind_eqb. rewrite N.eqb_eq. split; [apply kind_to_raw_inj | by intros ->].
Qed.

Lemma kind_eqb_refl a : kind_eqb a a = true.
Proof. by apply kind_eqb_eq. Qed.

Lemma kind_eqb_neq a b : kind_eqb a b = false ↔ a ≠ b.
Proof. rewrite <- not_true_iff_false. by rewrite kind_eqb_eq. Qed.

(** [slice.contains(&kind)] *)
Definition kind_in (k : SyntaxKind) (set : list SyntaxKind) : bool := existsb (kind_eqb k) set.

Definition is_trivia (k : SyntaxKind) : bool :=
  match k with
  | WHITESPACE | LINE_COMMENT | BLOCK_COMMENT | DOC_COMMENT => true
  | _ => false
  end.

Definition is_keyword (k : SyntaxKind) : bool :=
  (kind_to_raw AGENT_KW <=? kind_to_raw k)%N && (kind_to_raw k <=? kind_to_raw DERIVE_KW)%N.

(** ** The parser state and its cursor primitives

    [crates/mty-syntax/src/parser/mod.rs].  A [Parser] owns the lexed tokens,
    a cursor, a [rowan::GreenNodeBuilder], the diagnostics and two settings.
    The builder is third-party code: the model keeps the sequence of calls the
    parser makes on it (newest first) and nothing else, and [rowan::Checkpoint]
    is the number of calls made when it was taken.  The protocol those calls
    have to follow is stated in [ParserLogic].

    A parser action is a state transformer with two failures: [Panic] is a
    Rust panic (an index out of range, a failed [assert_eq!] in [bump]) and
    [OutOfFuel] marks a loop or a recursion that the model cut off.  The
    theorems show neither is ever reached. *)

(** [LexedToken] of [lexer.rs]; [text] is [&src[start..end]]. *)
Record Token := mkToken {
  t_kind : SyntaxKind;
  t_text : string;
  t_start : nat;
  t_end : nat
}.

(** The diagnostics' texts: one constructor per [format!] of the parser. *)
Inductive Msg : Set :=
  | MText (text : string)
  | MExpected (kind : SyntaxKind) (got : string)
  | MUnexpected (text : string)
  | MDepthLimit (levels : Z)
  | MUnknownUnit (unit_ : string)
  | MAttrTarget (name : string)
  | MUnknownAttr (name : string).

Record ParseError := mkErr {
  e_message : Msg;
  e_start : nat;
  e_end : nat;
  e_code : N
}.

Definition Checkpoint := nat.

(** The calls of [rowan::GreenNodeBuilder] the parser makes. *)
Inductive BuilderCall : Set :=
  | CStartNode (k : SyntaxKind)
  | CStartNodeAt (cp : Checkpoint) (k : SyntaxKind)
  | CFinishNode
  | CToken (k : SyntaxKind) (text : string).

Record PState := mkP {
  tokens : list Token;
  pos : nat;
  calls : list BuilderCall;
  errors : list ParseError;
  no_struct_literal : bool;
  max_diagnostics : N
}.

Inductive Res (A : Type) : Type :=
  | Done (a : A) (s : PState)
  | Panic
  | OutOfFuel.
Arguments Done {A} _ _.
Arguments Panic {A}.
Arguments OutOfFuel {A}.

Definition P (A : Type) : Type := PState → Res A.

#[export] Instance P_ret : MRet P := λ A a s, Done a s.
#[export] Instance P_bind : MBind P := λ A B k m s,
  match m s with
  | Done a s' => k a s'
  | Panic => Panic
  | OutOfFuel => OutOfFuel
  end.

Definition panic {A} : P A := λ _, Panic.
Definition out_of_fuel {A} : P A := λ _, OutOfFuel.
Definition gets {A} (f : PState → A) : P A := λ s, Done (f s) s.
Definition modify (f : PState → PState) : P unit := λ s, Done tt (f s).

(** A Rust loop whose body carries [A] and breaks with [B].  The fuel is the
    number of tokens plus one: every loop of the parser consumes at least one
    token per iteration, which is what the termination theorem shows. *)
Fixpoint loop_fuel {A B} (n : nat) (body : A → P (A + B)) (a : A) : P B :=
  match n with
  | 0 => out_of_fuel
  | S n => r ← body a; match r with inl a' => loop_fuel n body a' | inr b => mret b end
  end.

Definition loop_ {A B} (body : A → P (A + B)) (a : A) : P B :=
  λ s, loop_fuel (S (length (tokens s))) body a s.

(** [while]-style loop: the body says whether to go round again. *)
Definition while_ (body : P bool) : P unit :=
  loop_ (λ _ : unit, b ← body; mret (if b : bool then inl tt else inr tt)) tt.

(** ** Setters *)

Definition set_pos (n : nat) (s : PState) : PState :=
  mkP (tokens s) n (calls s) (errors s) (no_struct_literal s) (max_diagnostics s).
Definition add_call (c : BuilderCall) (s : PState) : PState :=
  mkP (tokens s) (pos s) (c :: calls s) (errors s) (no_struct_literal s) (max_diagnostics s).
Definition add_error (e : ParseError) (s : PState) : PState :=
  mkP (tokens s) (pos s) (calls s) (e :: errors s) (no_struct_literal s) (max_diagnostics s).
Definition set_nsl (b : bool) (s : PState) : PState :=
  mkP (tokens s) (pos s) (calls s) (errors s) b (max_diagnostics s).

(** ** Cursor primitives *)

(** [self.tokens[self.pos]], a bounds-checked index. *)
Definition cur : P Token := λ s,
  match tokens s !! pos s with Some t => Done t s | None => Panic end.

Definition peek : P SyntaxKind := t ← cur; mret (t_kind t).

Definition kind_at (toks : list Token) (i : nat) : SyntaxKind :=
  match toks !! i with Some t => t_kind t | None => EOF end.

Definition peek_n (n : nat) : P SyntaxKind := gets (λ s, kind_at (tokens s) (pos s + n)).

Definition at_kind (k : SyntaxKind) : P bool := k' ← peek; mret (kind_eqb k' k).

Definition bump_any : P unit :=
  t ← cur;
  if kind_eqb (t_kind t) EOF then mret tt
  else modify (λ s, set_pos (S (pos s)) (add_call (CToken (t_kind t) (t_text t)) s)).

Definition bump (kind : SyntaxKind) : P unit :=
  k ← peek;
  if kind_eqb k kind then bump_any else panic.

Definition bump_remap (kind : SyntaxKind) : P unit :=
  t ← cur;
  if kind_eqb (t_kind t) EOF then mret tt
  else modify (λ s, set_pos (S (pos s)) (add_call (CToken kind (t_text t)) s)).

Definition skip_trivia : P unit :=
  while_ (k ← peek; if is_trivia k then bump_any;; mret true else mret false).

Definition eat (kind : SyntaxKind) : P bool :=
  b ← at_kind kind;
  if b : bool then bump_any;; skip_trivia;; mret true else mret false.

(** [self.errors.len() >= self.max_diagnostics] drops the diagnostic. *)
Definition error_at_code (code : N) (m : Msg) (start end_ : nat) : P unit := λ s,
  if (max_diagnostics s <=? N.of_nat (length (errors s)))%N then Done tt s
  else Done tt (add_error (mkErr m start end_ code) s).

Definition error_at (m : Msg) (start end_ : nat) : P unit := error_at_code 1 m start end_.

Definition error (m : string) : P unit :=
  t ← cur; error_at (MText m) (t_start t) (t_end t).

Definition expect (kind : SyntaxKind) : P bool :=
  b ← eat kind;
  if b : bool then mret true
  else t ← cur; error_at (MExpected kind (t_text t)) (t_start t) (t_end t);; mret false.

Definition start_node (k : SyntaxKind) : P unit := modify (add_call (CStartNode k)).
Definition finish_node : P unit := modify (add_call CFinishNode).
Definition checkpoint : P Checkpoint := gets (λ s, length (calls s)).
Definition start_node_at (cp : Checkpoint) (k : SyntaxKind) : P unit :=
  modify (add_call (CStartNodeAt cp k)).

(** [with_no_struct_literal] / [with_struct_literal]: run with the flag set,
    then restore the previous value. *)
Definition with_nsl {R} (b : bool) (f : P R) : P R :=
  prev ← gets no_struct_literal;
  modify (set_nsl b);;
  r ← f;
  modify (set_nsl prev);;
  mret r.
Definition with_no_struct_literal {R} (f : P R) : P R := with_nsl true f.
Definition with_struct_literal {R} (f : P R) : P R := with_nsl false f.

(** ** Lookahead past trivia *)

Fixpoint count_trivia (l : list Token) : nat :=
  match l with
  | t :: l' => if is_trivia (t_kind t) then S (count_trivia l') else 0
  | [] => 0
  end.

Definition nontrivia_index (toks : list Token) (from : nat) : nat :=
  from + count_trivia (drop from toks).

Definition nontrivia_kind (toks : list Token) (from : nat) : SyntaxKind :=
  kind_at toks (nontrivia_index toks from).

(** Index and kind of the next non-trivia token at or after [pos + off]. *)
Definition next_nontrivia_index (off : nat) : P nat :=
  gets (λ s, nontrivia_index (tokens s) (pos s + off)).
Definition next_nontrivia_kind (off : nat) : P SyntaxKind :=
  gets (λ s, nontrivia_kind (tokens s) (pos s + off)).
Definition next_nontrivia_from (from : nat) : P SyntaxKind :=
  gets (λ s, nontrivia_kind (tokens s) from).

Fixpoint string_has (c : Ascii.ascii) (s : string) : bool :=
  match s with
  | EmptyString => false
  | String a s' => Ascii.eqb a c || string_has c s'
  end.

Definition newline : Ascii.ascii := Ascii.ascii_of_nat 10.

(** [next_nontrivia_kind_same_line]: [EOF] if the trivia holds a newline. *)
Fixpoint same_line_kind (l : list Token) : SyntaxKind :=
  match l with
  | [] => EOF
  | t :: l' =>
      if is_trivia (t_kind t) then
        if string_has newline (t_text t) then EOF else same_line_kind l'
      else t_kind t
  end.

Definition next_nontrivia_kind_same_line (off : nat) : P SyntaxKind :=
  gets (λ s, same_line_kind (drop (pos s + off) (tokens s))).

(** [p.tokens[p.pos].text] *)
Definition cur_text : P string := t ← cur; mret (t_text t).

(** ** [pre_lex_scan] *)

Definition is_ascii_digit (c : Ascii.ascii) : bool :=
  let n := Ascii.nat_of_ascii c in (48 <=? n) && (n <=? 57).
Definition is_ascii_lowercase (c : Ascii.ascii) : bool :=
  let n := Ascii.nat_of_ascii c in (97 <=? n) && (n <=? 122).

Fixpoint string_forallb (f : Ascii.ascii → bool) (s : string) : bool :=
  match s with
  | EmptyString => true
  | String a s' => f a && string_forallb f s'
  end.

Fixpoint skip_while (f : Ascii.ascii → bool) (s : string) : string :=
  match s with
  | String a s' => if f a then skip_while f s' else s
  | EmptyString => EmptyString
  end.

Definition duration_unit_mistakes : list string :=
  ["sec"; "secs"; "second"; "seconds"; "min"; "mins"; "minute"; "minutes"; "hour"; "hours";
   "day"; "days"; "msec"; "msecs"; "usec"; "usecs"; "nsec"; "nsecs"; "millis"; "millisecond";
   "milliseconds"; "microsecond"; "microseconds"; "nanosecond"; "nanoseconds"]%string.

Definition is_duration_unit_like (text : string) : bool :=
  if (String.length text =? 0) || (12 <? String.length text) then false
  else if negb (string_forallb is_ascii_lowercase text) then false
  else existsb (String.eqb text) duration_unit_mistakes.

Definition DEPTH_LIMIT : Z := 256.

(** [depth += d] on an [i32]: past its range a panic ([None]), or the sum
    wrapped around in a build without checks. *)
Definition i32_add `{OverflowChecks} (depth d : Z) : option Z :=
  let sum := (depth + d)%Z in
  let wrapped := ((sum + 2 ^ 31) mod 2 ^ 32 - 2 ^ 31)%Z in
  if overflow_checks && negb (wrapped =? sum)%Z then None else Some wrapped.

(** One pass over the tokens. *)
Fixpoint pre_lex_sites `{OverflowChecks} (l : list Token) (depth : Z) (depth_exceeded : bool) :
    option (list (N * Msg * nat * nat)) :=
  match l with
  | [] => Some []
  | t :: l' =>
      match t_kind t with
      | L_PAREN | L_BRACK | L_BRACE =>
          depth ← i32_add depth 1;
          if (DEPTH_LIMIT <? depth)%Z && negb depth_exceeded then
            rest ← pre_lex_sites l' depth true;
            Some ((30%N, MDepthLimit DEPTH_LIMIT, t_start t, t_end t) :: rest)
          else pre_lex_sites l' depth depth_exceeded
      | R_PAREN | R_BRACK | R_BRACE =>
          depth ← i32_add depth (-1);
          pre_lex_sites l' depth depth_exceeded
      | INT_LITERAL | DURATION_LITERAL =>
          match l' with
          | next :: _ =>
              if kind_eqb (t_kind next) IDENT && (t_start next =? t_end t)
                 && (if kind_eqb (t_kind t) DURATION_LITERAL then true
                     else is_duration_unit_like (t_text next))
              then
                let full_unit :=
                  if kind_eqb (t_kind t) DURATION_LITERAL
                  then (skip_while is_ascii_digit (t_text t) +:+ t_text next)%string
                  else t_text next in
                rest ← pre_lex_sites l' depth depth_exceeded;
                Some ((4%N, MUnknownUnit full_unit, t_start t, t_end next) :: rest)
              else pre_lex_sites l' depth depth_exceeded
          | [] => pre_lex_sites l' depth depth_exceeded
          end
      | _ => pre_lex_sites l' depth depth_exceeded
      end
  end.

Fixpoint emit_all (sites : list (N * Msg * nat * nat)) : P unit :=
  match sites with
  | [] => mret tt
  | (code, m, s, e) :: rest => error_at_code code m s e;; emit_all rest
  end.

Definition pre_lex_scan `{OverflowChecks} : P unit :=
  toks ← gets tokens;
  match pre_lex_sites toks 0 false with Some sites => emit_all sites | None => panic end.

(** [ITEM_START] / [STMT_START] and [sync_to] of [recovery.rs]. *)
Definition ITEM_START : list SyntaxKind :=
  [FN_KW; AGENT_KW; PROTOCOL_KW; STRUCT_KW; ENUM_KW; TYPE_KW; IMPL_KW; TRAIT_KW; USE_KW; MOD_KW;
   PACKAGE_KW; PUB_KW; CONST_KW; EXTERN_KW; EXPORT_KW; MACRO_KW; SUP_KW; UNSAFE_KW].
Definition STMT_START : list SyntaxKind :=
  [LET_KW; RETURN_KW; IF_KW; MATCH_KW; FOR_KW; WHILE_KW; LOOP_KW; UNSAFE_KW].

Definition sync_to (set : list SyntaxKind) : P unit :=
  while_ (k ← peek;
          if negb (kind_eqb k EOF) && negb (kind_in k set) && negb (kind_eqb k R_BRACE)
          then bump_any;; mret true else mret false);;
  skip_trivia.
