(* ===== verification/GrammarTypes.v ===== *)
(** * Paths, types and patterns

    [paths.rs], [types.rs] and [patterns.rs] of [crates/mty-syntax/src/parser/].
    The productions of the grammar call each other; the record [Calls] holds
    the five productions through which every cycle goes.  A production takes
    a [Calls] and calls those five through it, and [GrammarExprs.grammar] ties
    the knot with fuel. *)

From stdpp Require Import base list strings numbers.
From S2P Require Import Prelude ParserCore.

(** [PrimaryShape] of [exprs.rs]: may a postfix [(args)] follow? *)
Inductive PrimaryShape : Set := Callable | NonCallable.

#[export] Instance PrimaryShape_eq_dec : EqDecision PrimaryShape.
Proof. solve_decision. Defined.

Record Calls := mkCalls {
  type_expr : P bool;
  expr_bp : nat → P (option PrimaryShape);
  unary_or_primary : P (option PrimaryShape);
  pattern : P bool;
  block : P unit
}.

(** [can_start_expr] of [exprs.rs] *)
Definition can_start_expr (k : SyntaxKind) : bool :=
  match k with
  | INT_LITERAL | HEX_INT_LITERAL | BIN_INT_LITERAL | OCT_INT_LITERAL | FLOAT_LITERAL
  | STRING_LITERAL | CHAR_LITERAL | TRUE_KW | FALSE_KW | DURATION_LITERAL | SIZE_LITERAL
  | HTML_LITERAL | IDENT | SELF_KW | L_PAREN | L_BRACK | L_BRACE | MINUS | BANG | STAR | AMP
  | MOVE_KW | SPAWN_KW | IF_KW | MATCH_KW | FOR_KW | WHILE_KW | LOOP_KW | RETURN_KW | BREAK_KW
  | CONTINUE_KW | UNSAFE_KW | ARENA_KW | TASK_KW | SANDBOX_KW | DETACH_KW | JOIN_KW | FN_KW
  | RUN_KW => true
  | _ => false
  end.

(** [while p.eat(sep) { if p.at(close) { break; } elem(p); }] *)
Definition sep_list {A} (sep close : SyntaxKind) (elem : P A) : P unit :=
  while_ (b ← eat sep;
          if b : bool then
            r ← at_kind close;
            if r : bool then mret false else elem;; mret true
          else mret false).

(** [while p.eat(sep) { elem(p); }] *)
Definition sep_list1 {A} (sep : SyntaxKind) (elem : P A) : P unit :=
  while_ (b ← eat sep; if b : bool then elem;; mret true else mret false).

(** [if !p.at(close) { elem(p); while p.eat(COMMA) { ... } }] *)
Definition comma_list {A} (close : SyntaxKind) (elem : P A) : P unit :=
  b ← at_kind close;
  if b : bool then mret tt else elem;; sep_list COMMA close elem.

(** The non-progress guard that ends many loop bodies:
    [if p.pos == before { p.error(msg); p.bump_any(); p.skip_trivia(); }] *)
Definition progress_guard (before : nat) (msg : string) : P unit :=
  now ← gets pos;
  if now =? before then error msg;; bump_any;; skip_trivia else mret tt.

(** [while !p.at(close) && !p.at(EOF) { body }] *)
Definition until_ (close : SyntaxKind) (body : P unit) : P unit :=
  while_ (a ← at_kind close; e ← at_kind EOF;
          if negb a && negb e then body;; mret true else mret false).

Module Paths.
Section paths.
Context (c : Calls).

(** [types::generic_args] *)
Definition generic_arg : P unit :=
  start_node GENERIC_ARG;; type_expr c;; finish_node.

Definition generic_args : P unit :=
  start_node GENERIC_ARG_LIST;;
  bump L_BRACK;;
  skip_trivia;;
  comma_list R_BRACK generic_arg;;
  expect R_BRACK;;
  finish_node;;
  skip_trivia.

Definition segment : P unit :=
  start_node PATH_SEGMENT;;
  start_node NAME_REF;;
  bump IDENT;;
  finish_node;;
  (b ← at_kind COLON_COLON;
   k ← peek_n 1;
   if b && kind_eqb k L_BRACK then bump COLON_COLON;; generic_args else mret tt);;
  finish_node.

Definition path : P bool :=
  b ← at_kind IDENT;
  if negb b then mret false else
  start_node PATH;;
  segment;;
  skip_trivia;;
  while_ (d ← at_kind DOT;
          k ← peek_n 1;
          if d && kind_eqb k IDENT
          then bump DOT;; skip_trivia;; segment;; skip_trivia;; mret true
          else mret false);;
  finish_node;;
  mret true.

Definition name : P bool :=
  b ← at_kind IDENT;
  if negb b then mret false else
  start_node NAME;; bump IDENT;; finish_node;; skip_trivia;; mret true.

Definition name_or_keyword : P bool :=
  k ← peek;
  if negb (kind_eqb k IDENT) && negb (is_keyword k) then mret false else
  start_node NAME;; bump_any;; finish_node;; skip_trivia;; mret true.

End paths.
End Paths.

Module Types.
Import Paths.
Section types.
Context (c : Calls).

Definition dyn_type : P unit :=
  start_node TYPE_DYN;;
  bump DYN_KW;;
  skip_trivia;;
  (b ← at_kind IDENT;
   if b : bool then path c;; mret tt else error "expected trait name after `dyn`");;
  finish_node;;
  skip_trivia.

Definition ptr : P unit :=
  start_node TYPE_BORROW;; bump STAR;; skip_trivia;; type_expr c;; finish_node;; skip_trivia.

Definition borrow : P unit :=
  start_node TYPE_BORROW;;
  bump AMP;;
  skip_trivia;;
  eat MUT_KW;;
  type_expr c;;
  finish_node;;
  skip_trivia.

Definition tuple_type : P unit :=
  start_node TYPE_TUPLE;;
  bump L_PAREN;;
  skip_trivia;;
  comma_list R_PAREN (type_expr c);;
  expect R_PAREN;;
  finish_node;;
  skip_trivia.

Definition expr : P bool := r ← expr_bp c 0; mret (bool_decide (is_Some r)).

Definition array : P unit :=
  start_node TYPE_ARRAY;;
  bump L_BRACK;;
  skip_trivia;;
  type_expr c;;
  (b ← eat SEMI; if b : bool then expr;; mret tt else mret tt);;
  expect R_BRACK;;
  finish_node;;
  skip_trivia.

Definition fn_type : P unit :=
  start_node TYPE_FN;;
  bump FN_KW;;
  skip_trivia;;
  expect L_PAREN;;
  comma_list R_PAREN (type_expr c);;
  expect R_PAREN;;
  (b ← eat THIN_ARROW; if b : bool then type_expr c;; mret tt else mret tt);;
  finish_node;;
  skip_trivia.

(** [char::is_lowercase] or an underscore; [IDENT] tokens are ASCII. *)
Definition first_lower (text : string) : bool :=
  match text with
  | String a _ => is_ascii_lowercase a || Ascii.eqb a (Ascii.ascii_of_nat 95)
  | EmptyString => false
  end.

(** The walk over the brace body in [peeks_as_effect_row_clause]. *)
Fixpoint effect_row_walk (l : list Token) (depth : Z) (first_ident_lower : option bool) : bool :=
  match l with
  | [] => default false first_ident_lower
  | t :: l' =>
      let next d f :=
        if kind_eqb (t_kind t) EOF then default false f else effect_row_walk l' d f in
      let keyword_or_skip :=
        if (depth =? 0)%Z && bool_decide (first_ident_lower = None) && is_keyword (t_kind t)
        then next depth (Some true) else next depth first_ident_lower in
      match t_kind t with
      | L_BRACE | L_PAREN | L_BRACK => next (depth + 1)%Z first_ident_lower
      | R_BRACE =>
          if (depth =? 0)%Z then default false first_ident_lower
          else next (depth - 1)%Z first_ident_lower
      | R_PAREN | R_BRACK => next (depth - 1)%Z first_ident_lower
      | PIPE => if (depth =? 0)%Z then true else keyword_or_skip
      | IDENT =>
          if (depth =? 0)%Z && bool_decide (first_ident_lower = None)
          then next depth (Some (first_lower (t_text t))) else keyword_or_skip
      | _ => keyword_or_skip
      end
  end.

Definition peeks_as_effect_row_clause : P bool :=
  gets (λ s,
    let i := nontrivia_index (tokens s) (pos s + 1) in
    match tokens s !! i with
    | Some t => if kind_eqb (t_kind t) L_BRACE
                then effect_row_walk (drop (S i) (tokens s)) 0 None else false
    | None => false
    end).

Definition path_type : P unit :=
  cp ← checkpoint;
  start_node TYPE_PATH;;
  path c;;
  (b ← at_kind L_BRACK; if b : bool then generic_args c else mret tt);;
  finish_node;;
  b ← at_kind BANG;
  e ← peeks_as_effect_row_clause;
  if b && e then skip_trivia else
  (b ← at_kind BANG;
   if b : bool then
     start_node_at cp TYPE_RESULT_SUGAR;;
     bump BANG;;
     skip_trivia;;
     (l ← eat L_BRACE;
      if l : bool then
        start_node TYPE_UNION;;
        type_expr c;;
        sep_list COMMA R_BRACE (type_expr c);;
        expect R_BRACE;;
        finish_node
      else type_expr c;; mret tt);;
     finish_node
   else mret tt);;
  skip_trivia.

Definition type_expr_body : P bool :=
  skip_trivia;;
  k ← peek;
  match k with
  | AMP => borrow;; mret true
  | STAR => ptr;; mret true
  | L_PAREN => tuple_type;; mret true
  | L_BRACK => array;; mret true
  | FN_KW => fn_type;; mret true
  | DYN_KW => dyn_type;; mret true
  | IDENT => path_type;; mret true
  | _ => mret false
  end.

(** The inner [fn param] of [generic_params]. *)
Definition generic_param : P unit :=
  start_node GENERIC_PARAM;;
  name;;
  (b ← eat COLON;
   if b : bool then type_expr c;; sep_list1 PLUS (type_expr c) else mret tt);;
  finish_node;;
  skip_trivia.

Definition generic_params : P unit :=
  b ← at_kind L_BRACK;
  if negb b then mret tt else
  start_node GENERIC_PARAM_LIST;;
  bump L_BRACK;;
  skip_trivia;;
  comma_list R_BRACK generic_param;;
  expect R_BRACK;;
  finish_node;;
  skip_trivia.

Definition parse_one_row_var : P unit :=
  k ← peek;
  if kind_eqb k IDENT || is_keyword k then
    start_node EFFECT_ROW_VAR;; name_or_keyword;; finish_node;; skip_trivia
  else error "expected row variable identifier after `|`".

Definition effect_row_tail : P unit :=
  start_node EFFECT_ROW_TAIL;;
  bump PIPE;;
  skip_trivia;;
  parse_one_row_var;;
  sep_list1 COMMA (skip_trivia;; parse_one_row_var);;
  finish_node;;
  skip_trivia.

Definition effect_name : P unit :=
  start_node EFFECT_NAME;; name_or_keyword;; finish_node;; skip_trivia.

Definition effect_clause_keyword : P unit :=
  start_node EFFECT_CLAUSE;;
  bump EFFECT_KW;;
  skip_trivia;;
  comma_list PIPE name_or_keyword;;
  (b ← at_kind PIPE; if b : bool then effect_row_tail else mret tt);;
  finish_node;;
  skip_trivia.

Definition effect_clause_bang : P unit :=
  start_node EFFECT_CLAUSE;;
  bump BANG;;
  skip_trivia;;
  (k ← peek;
   if kind_eqb k L_BRACE then
     start_node EFFECT_SET;;
     bump L_BRACE;;
     skip_trivia;;
     (k ← peek;
      if negb (kind_eqb k R_BRACE) && negb (kind_eqb k PIPE) then
        effect_name;;
        while_ (b ← eat COMMA;
                if b : bool then
                  k ← peek;
                  if kind_eqb k R_BRACE || kind_eqb k PIPE then mret false
                  else effect_name;; mret true
                else mret false)
      else mret tt);;
     (b ← at_kind PIPE; if b : bool then effect_row_tail else mret tt);;
     expect R_BRACE;;
     finish_node
   else if kind_eqb k IDENT || is_keyword k then
     start_node EFFECT_ROW_VAR;; name_or_keyword;; finish_node;; skip_trivia
   else error "expected `{` or row variable after `!` in effect clause");;
  finish_node;;
  skip_trivia.

Definition effect_clause : P unit :=
  b ← at_kind EFFECT_KW;
  if b : bool then effect_clause_keyword else
  b ← at_kind BANG;
  if b : bool then effect_clause_bang else mret tt.

End types.
End Types.

Module Patterns.
Import Paths.
Section patterns.
Context (c : Calls).

Definition literal : P unit :=
  start_node LITERAL_PAT;; bump_any;; finish_node;; skip_trivia.

Definition binding : P unit :=
  start_node BINDING_PAT;;
  name;;
  (b ← eat AT; if b : bool then pattern c;; mret tt else mret tt);;
  finish_node;;
  skip_trivia.

Definition wildcard : P unit :=
  start_node WILDCARD_PAT;; bump IDENT;; finish_node;; skip_trivia.

Definition ref_pat : P unit :=
  start_node REF_PAT;;
  bump AMP;;
  skip_trivia;;
  eat MUT_KW;;
  pattern c;;
  finish_node;;
  skip_trivia.

Definition tuple_pat : P unit :=
  start_node TUPLE_PAT;;
  bump L_PAREN;;
  skip_trivia;;
  comma_list R_PAREN (pattern c);;
  expect R_PAREN;;
  finish_node;;
  skip_trivia.

Definition field_pat : P unit :=
  skip_trivia;;
  name;;
  (b ← eat COLON; if b : bool then pattern c;; mret tt else mret tt).

Definition path_headed : P unit :=
  cp ← checkpoint;
  path c;;
  skip_trivia;;
  (b ← eat L_PAREN;
   if b : bool then
     start_node_at cp ENUM_PAT;;
     comma_list R_PAREN (pattern c);;
     expect R_PAREN;;
     finish_node
   else
     b ← eat L_BRACE;
     if b : bool then
       start_node_at cp STRUCT_PAT;;
       comma_list R_BRACE field_pat;;
       expect R_BRACE;;
       finish_node
     else start_node_at cp ENUM_PAT;; finish_node);;
  skip_trivia.

Definition pattern_body : P bool :=
  skip_trivia;;
  cp ← checkpoint;
  k ← peek;
  ok ← match k with
       | IDENT =>
           text ← cur_text;
           if String.eqb text "_" then wildcard;; mret true else
           n ← next_nontrivia_kind 1;
           if kind_in n [L_PAREN; L_BRACE; DOT] then path_headed;; mret true
           else binding;; mret true
       | INT_LITERAL | HEX_INT_LITERAL | BIN_INT_LITERAL | OCT_INT_LITERAL | FLOAT_LITERAL
       | STRING_LITERAL | CHAR_LITERAL | TRUE_KW | FALSE_KW => literal;; mret true
       | AMP => ref_pat;; mret true
       | L_PAREN => tuple_pat;; mret true
       | _ => mret false
       end;
  if negb ok then mret false else
  k ← peek;
  (if kind_eqb k DOT_DOT || kind_eqb k DOT_DOT_EQ then
     start_node_at cp RANGE_PAT;;
     bump_any;;
     skip_trivia;;
     pattern c;;
     finish_node
   else mret tt);;
  mret true.

End patterns.
End Patterns.
