(* ===== verification/ParserLogic.v ===== *)
(** * A program logic for the parser

    [wp m Q s]: [m] run from [s] neither panics nor runs out of fuel and ends
    in a result and a state that satisfy [Q].  [St] is the invariant every
    production keeps: the cursor is inside the token vector, the calls made
    on the tree builder follow its protocol ([frames_of]), the text handed to
    the builder is the text of the tokens consumed, and the diagnostics stay
    under the cap.  [safe] and [safe_at] are the specifications of the
    productions; [solve_prod], at the end, proves them. *)

From stdpp Require Import base list strings numbers sets.
From S2P Require Import Prelude ParserCore GrammarTypes.

(** ** The builder protocol

    Each open node has the list of the positions (call counts) that lie
    between two of its children.  [start_node_at cp] is legal only when [cp]
    is such a position of the innermost open node, and it moves the later
    positions into the new node; [finish_node] needs an open node.  The
    outermost frame stands for the builder before any node is opened. *)
Definition frames := list (list nat).

Definition frames_step (c : BuilderCall) (n : nat) (F : frames) : option frames :=
  match c, F with
  | CStartNode _, F => Some ([S n] :: F)
  | CToken _ _, m :: F => Some ((S n :: m) :: F)
  | CFinishNode, _ :: m :: F => Some ((S n :: m) :: F)
  | CStartNodeAt cp _, m :: F =>
      if decide (cp ∈ m)
      then Some ((S n :: filter (λ i, cp ≤ i) m) :: filter (λ i, i ≤ cp) m :: F)
      else None
  | _, _ => None
  end.

Fixpoint frames_of (l : list BuilderCall) : option frames :=
  match l with
  | [] => Some [[0]]
  | c :: l' => frames_of l' ≫= frames_step c (length l')
  end.

(** The text of the tokens given to the builder, oldest first. *)
Fixpoint calls_text (l : list BuilderCall) : string :=
  match l with
  | [] => ""
  | CToken _ t :: l' => calls_text l' +:+ t
  | _ :: l' => calls_text l'
  end%string.

Fixpoint tokens_text (l : list Token) : string :=
  match l with [] => "" | t :: l' => t_text t +:+ tokens_text l' end%string.

(** What [lex] guarantees: one [EOF] token with no text, at the end. *)
Definition wf_tokens (T : list Token) : Prop :=
  ∃ l e, T = l ++ [e] ∧ t_kind e = EOF ∧ t_text e = ""%string
         ∧ Forall (λ t, t_kind t ≠ EOF) l.

Definition wp {A} (m : P A) (Q : A → PState → Prop) (s : PState) : Prop :=
  match m s with Done a s' => Q a s' | _ => False end.

Lemma wp_ret {A} (a : A) Q s : Q a s → wp (mret a) Q s.
Proof. done. Qed.

Lemma wp_bind {A B} (m : P A) (k : A → P B) Q s :
  wp m (λ a s', wp (k a) Q s') s → wp (m ≫= k) Q s.
Proof. unfold wp, mbind, P_bind. by destruct (m s). Qed.

Lemma wp_mono {A} (m : P A) (Q Q' : A → PState → Prop) s :
  wp m Q s → (∀ a s', Q a s' → Q' a s') → wp m Q' s.
Proof. unfold wp. destruct (m s); naive_solver. Qed.

Lemma wp_gets {A} (f : PState → A) Q s : Q (f s) s → wp (gets f) Q s.
Proof. done. Qed.

Lemma wp_modify f (Q : unit → PState → Prop) s : Q tt (f s) → wp (modify f) Q s.
Proof. done. Qed.

(** ** Facts about token vectors *)

Lemma tokens_text_app l1 l2 :
  tokens_text (l1 ++ l2) = (tokens_text l1 +:+ tokens_text l2)%string.
Proof. induction l1 as [|t l1 IH]; [done|]. simpl. by rewrite IH, string_app_assoc. Qed.

Lemma kind_at_lookup T i t : T !! i = Some t → kind_at T i = t_kind t.
Proof. unfold kind_at. by intros ->. Qed.

Lemma count_trivia_le l : count_trivia l ≤ length l.
Proof. induction l as [|t l IH]; simpl; [lia|]. destruct (is_trivia _); lia. Qed.

Lemma nontrivia_index_ge T i : i ≤ nontrivia_index T i.
Proof. unfold nontrivia_index. lia. Qed.

Lemma nontrivia_index_trivia T i :
  is_trivia (kind_at T i) = true → nontrivia_index T i = nontrivia_index T (S i).
Proof.
  unfold nontrivia_index, kind_at. intros H.
  destruct (T !! i) as [t|] eqn:E; [|done].
  rewrite (drop_S _ t) by done. simpl. rewrite H. lia.
Qed.

Lemma nontrivia_index_stop T i :
  is_trivia (kind_at T i) = false → nontrivia_index T i = i.
Proof.
  unfold nontrivia_index, kind_at. intros H.
  destruct (T !! i) as [t|] eqn:E.
  - rewrite (drop_S _ t) by done. simpl. rewrite H. lia.
  - rewrite drop_ge by (by apply lookup_ge_None). simpl. lia.
Qed.

Lemma nontrivia_kind_not_trivia T i : is_trivia (kind_at T (nontrivia_index T i)) = false.
Proof.
  remember (length T - i) as d eqn:Hd. revert i Hd. induction d as [d IH] using lt_wf_ind.
  intros i Hd. destruct (is_trivia (kind_at T i)) eqn:E.
  - rewrite nontrivia_index_trivia by done.
    assert (i < length T).
    { apply not_ge. intros Hge. unfold kind_at in E.
      by rewrite lookup_ge_None_2 in E by lia. }
    by apply (IH (length T - S i)); [lia|].
  - by rewrite nontrivia_index_stop.
Qed.

Section logic.
Context (T : list Token) (cap : N).
Context (wfT : wf_tokens T).

Lemma wf_nonempty : 0 < length T.
Proof. destruct wfT as (l & e & -> & _). rewrite length_app. simpl. lia. Qed.

Lemma kind_at_EOF_iff i : i < length T → kind_at T i = EOF ↔ S i = length T.
Proof.
  destruct wfT as (l & e & -> & He & _ & Hl). rewrite length_app. simpl. intros Hi.
  unfold kind_at. destruct (decide (i < length l)) as [Hlt|Hge].
  - rewrite lookup_app_l by done. destruct (lookup_lt_is_Some_2 l i Hlt) as [t Ht].
    rewrite Ht. split; [|lia]. intros E.
    by destruct (Forall_lookup_1 _ _ _ _ Hl Ht).
  - assert (i = length l) as -> by lia. rewrite lookup_app_r by lia.
    replace (length l - length l) with 0 by lia. simpl. split; [lia|done].
Qed.

Lemma last_text_empty i t : T !! i = Some t → t_kind t = EOF → t_text t = ""%string.
Proof.
  intros Ht Hk. assert (i < length T) by (by apply lookup_lt_Some in Ht).
  assert (S i = length T) as Hi.
  { apply kind_at_EOF_iff; [done|]. by rewrite (kind_at_lookup _ _ _ Ht). }
  destruct wfT as (l & e & -> & _ & Hte & _). rewrite length_app in Hi. simpl in Hi.
  rewrite lookup_app_r in Ht by lia. replace (i - length l) with 0 in Ht by lia.
  simpl in Ht. congruence.
Qed.

(** ** The invariant *)

(** [known] are positions known to lie between the children of each open
    node; the builder may have more.  At least one node is open, and nothing
    has been put beside the outermost one. *)
Definition frames_ok (known : frames) (l : list BuilderCall) : Prop :=
  known ≠ [] ∧
  ∃ F, frames_of l = Some (F ++ [[0]])
       ∧ Forall2 (λ k m, k ⊆ m) known F
       ∧ Forall (λ m, Forall (λ i, i ≤ length l) m) F
       ∧ (∃ m F', F = m :: F' ∧ length l ∈ m).

Record St (b : bool) (known : frames) (p : nat) (s : PState) : Prop := mkSt {
  st_tokens : tokens s = T;
  st_pos : pos s = p;
  st_lt : p < length T;
  st_nsl : no_struct_literal s = b;
  st_frames : frames_ok known (calls s);
  st_text : calls_text (calls s) = tokens_text (take p T);
  st_cap : max_diagnostics s = cap;
  st_errs : (N.of_nat (length (errors s)) ≤ cap)%N
}.

(** ** The builder calls *)

Lemma frames_ok_start known l k : frames_ok known l → frames_ok ([] :: known) (CStartNode k :: l).
Proof.
  intros (Hne & F & HF & Hk & Hb & Ht). split; [done|]. exists ([S (length l)] :: F). simpl. rewrite HF. simpl.
  split_and!; [done| | |].
  - constructor; [set_solver|done].
  - constructor; [repeat constructor; lia|].
    eapply Forall_impl; [exact Hb|]. intros m Hm. eapply Forall_impl; [exact Hm|]. simpl. lia.
  - eexists _, _. split; [done|]. set_solver.
Qed.

Lemma frames_ok_finish k1 k2 known l :
  frames_ok (k1 :: k2 :: known) l → frames_ok (k2 :: known) (CFinishNode :: l).
Proof.
  intros (Hne & F & HF & Hk & Hb & Ht).
  inversion Hk as [|? m1 ? F1 H1 Hk1]; subst. inversion Hk1 as [|? m2 ? F2 H2 Hk2]; subst.
  split; [done|]. exists ((S (length l) :: m2) :: F2). simpl. rewrite HF. simpl. split_and!; [done| | |].
  - constructor; [set_solver|done].
  - apply Forall_cons in Hb as [_ Hb]. apply Forall_cons in Hb as [Hm2 Hb].
    constructor.
    + constructor; [lia|]. eapply Forall_impl; [exact Hm2|]. simpl. lia.
    + eapply Forall_impl; [exact Hb|]. intros m Hm. eapply Forall_impl; [exact Hm|]. simpl. lia.
  - eexists _, _. split; [done|]. set_solver.
Qed.

Lemma frames_ok_token known l k t : frames_ok known l → frames_ok known (CToken k t :: l).
Proof.
  intros (Hne & F & HF & Hk & Hb & m & F' & -> & Hm).
  split; [done|]. exists ((S (length l) :: m) :: F'). simpl. rewrite HF. simpl. split_and!; [done| | |].
  - inversion Hk; subst. constructor; [set_solver|done].
  - apply Forall_cons in Hb as [Hm' Hb]. constructor.
    + constructor; [lia|]. eapply Forall_impl; [exact Hm'|]. simpl. lia.
    + eapply Forall_impl; [exact Hb|]. intros ? Hx. eapply Forall_impl; [exact Hx|]. simpl. lia.
  - eexists _, _. split; [done|]. set_solver.
Qed.

(** A checkpoint is usable when it is a known position of the innermost node
    and none of the known positions is later. *)
Definition cp_ok (cp : Checkpoint) (m : list nat) : Prop := cp ∈ m ∧ Forall (λ i, i ≤ cp) m.

Lemma cp_ok_single cp : cp_ok cp [cp].
Proof. split; [set_solver|]. repeat constructor. Qed.

Lemma frames_ok_checkpoint m known l :
  frames_ok (m :: known) l → frames_ok ((length l :: m) :: known) l ∧ cp_ok (length l) (length l :: m).
Proof.
  intros (Hne & F & HF & Hk & Hb & m' & F' & -> & Hm).
  inversion Hk; subst. apply Forall_cons in Hb as [Hm' Hb'].
  split.
  - split; [done|]. exists (m' :: F'). split_and!; [done| |by constructor|eauto].
    constructor; [set_solver|done].
  - split; [set_solver|]. constructor; [lia|].
    apply Forall_forall. intros i Hi. rewrite Forall_forall in Hm'. apply Hm'. set_solver.
Qed.

Lemma frames_ok_forget m x known l : frames_ok ((x :: m) :: known) l → frames_ok (m :: known) l.
Proof.
  intros (Hne & F & HF & Hk & Hb & Ht). split; [done|]. exists F. split_and!; try done.
  inversion Hk; subst. constructor; [set_solver|done].
Qed.

Lemma frames_ok_start_at cp m known l k :
  cp_ok cp m → frames_ok (m :: known) l → frames_ok ([cp] :: m :: known) (CStartNodeAt cp k :: l).
Proof.
  intros [Hin Hle] (Hne & F & HF & Hk & Hb & m' & F' & -> & Hm').
  inversion Hk as [|? ? ? ? Hsub Hk']; subst. apply Forall_cons in Hb as [Hb Hb'].
  split; [done|]. exists ((S (length l) :: filter (λ i, cp ≤ i) m') :: filter (λ i, i ≤ cp) m' :: F').
  simpl. rewrite HF. simpl. rewrite decide_True by set_solver. split_and!; [done| | |].
  - constructor; [|constructor; [|done]].
    + intros x Hx. assert (x = cp) as -> by set_solver. apply list_elem_of_further.
      apply list_elem_of_filter. split; [lia|set_solver].
    + intros x Hx. apply list_elem_of_filter. rewrite Forall_forall in Hle. set_solver.
  - constructor; [|constructor].
    + constructor; [simpl; lia|]. apply Forall_forall. intros x Hx%list_elem_of_filter.
      rewrite Forall_forall in Hb. simpl. destruct Hx as [_ Hx%Hb]. lia.
    + apply Forall_forall. intros x Hx%list_elem_of_filter. rewrite Forall_forall in Hb.
      simpl. destruct Hx as [_ Hx%Hb]. lia.
    + eapply Forall_impl; [exact Hb'|]. intros ? Hx. eapply Forall_impl; [exact Hx|]. simpl. lia.
  - eexists _, _. split; [done|]. set_solver.
Qed.

Lemma St_forget b m x K p s : St b ((x :: m) :: K) p s → St b (m :: K) p s.
Proof. intros [? ? ? ? Hf ? ? ?]. split; try done. by eapply frames_ok_forget. Qed.

(** ** Primitives *)

Section primitives.
Context (b : bool) (K : frames) (p : nat) (s : PState).
Context (HS : St b K p s).

Lemma St_cur : ∃ t, T !! p = Some t ∧ tokens s !! pos s = Some t.
Proof.
  destruct (lookup_lt_is_Some_2 T p) as [t Ht]; [apply (st_lt _ _ _ _ HS)|].
  exists t. split; [done|]. by rewrite (st_tokens _ _ _ _ HS), (st_pos _ _ _ _ HS).
Qed.

Lemma wp_cur Q : (∀ t, T !! p = Some t → Q t s) → wp cur Q s.
Proof.
  intros HQ. destruct St_cur as (t & Ht & Hs). unfold wp, cur. rewrite Hs. by apply HQ.
Qed.

Lemma wp_peek (Q : SyntaxKind → PState → Prop) : Q (kind_at T p) s → wp peek Q s.
Proof.
  intros HQ. apply wp_bind, wp_cur. intros t Ht. apply wp_ret.
  by rewrite <- (kind_at_lookup _ _ _ Ht).
Qed.

Lemma wp_cur_text (Q : string → PState → Prop) :
  (∀ t, T !! p = Some t → Q (t_text t) s) → wp cur_text Q s.
Proof. intros HQ. apply wp_bind, wp_cur. intros t Ht. by apply wp_ret, HQ. Qed.

Lemma wp_at_kind k (Q : bool → PState → Prop) :
  Q (kind_eqb (kind_at T p) k) s → wp (at_kind k) Q s.
Proof. intros HQ. by apply wp_bind, wp_peek, wp_ret. Qed.

Lemma wp_peek_n n (Q : SyntaxKind → PState → Prop) : Q (kind_at T (p + n)) s → wp (peek_n n) Q s.
Proof. unfold peek_n. intros HQ. apply wp_gets. by rewrite (st_tokens _ _ _ _ HS), (st_pos _ _ _ _ HS). Qed.

Lemma wp_nontrivia_kind n (Q : SyntaxKind → PState → Prop) :
  Q (nontrivia_kind T (p + n)) s → wp (next_nontrivia_kind n) Q s.
Proof.
  unfold next_nontrivia_kind. intros HQ. apply wp_gets.
  by rewrite (st_tokens _ _ _ _ HS), (st_pos _ _ _ _ HS).
Qed.

Lemma wp_nontrivia_index n (Q : nat → PState → Prop) :
  Q (nontrivia_index T (p + n)) s → wp (next_nontrivia_index n) Q s.
Proof.
  unfold next_nontrivia_index. intros HQ. apply wp_gets.
  by rewrite (st_tokens _ _ _ _ HS), (st_pos _ _ _ _ HS).
Qed.

Lemma wp_nontrivia_from n (Q : SyntaxKind → PState → Prop) :
  Q (nontrivia_kind T n) s → wp (next_nontrivia_from n) Q s.
Proof. unfold next_nontrivia_from. intros HQ. apply wp_gets. by rewrite (st_tokens _ _ _ _ HS). Qed.

Lemma wp_pos (Q : nat → PState → Prop) : Q p s → wp (gets pos) Q s.
Proof. intros HQ. apply wp_gets. by rewrite (st_pos _ _ _ _ HS). Qed.

Lemma wp_start_node k Q : (∀ s', St b ([] :: K) p s' → Q tt s') → wp (start_node k) Q s.
Proof.
  intros HQ. apply wp_modify, HQ. destruct HS as [? ? ? ? Hf ? ? ?]. split; try done.
  by apply frames_ok_start.
Qed.

Lemma wp_token k t Q :
  T !! p = Some t → t_kind t ≠ EOF →
  (∀ s', St b K (S p) s' → Q tt s') →
  wp (modify (λ s, set_pos (S (pos s)) (add_call (CToken k (t_text t)) s))) Q s.
Proof.
  intros Ht Hk HQ. apply wp_modify, HQ. destruct HS as [? Hp Hlt ? Hf Htx ? ?].
  split; simpl; try done; try lia.
  - assert (S p ≠ length T); [|lia]. intros E%kind_at_EOF_iff; [|done].
    by rewrite (kind_at_lookup _ _ _ Ht) in E.
  - by apply frames_ok_token.
  - rewrite (take_S_r _ _ _ Ht), tokens_text_app, Htx. simpl. by rewrite string_app_nil_r.
Qed.

Lemma wp_bump_any Q :
  (kind_at T p = EOF → Q tt s) →
  (kind_at T p ≠ EOF → ∀ s', St b K (S p) s' → Q tt s') → wp bump_any Q s.
Proof.
  intros HE HQ. apply wp_bind, wp_cur. intros t Ht.
  rewrite (kind_at_lookup _ _ _ Ht) in HE, HQ.
  destruct (kind_eqb _ _) eqn:E.
  - apply wp_ret, HE. by apply kind_eqb_eq.
  - apply kind_eqb_neq in E. by apply wp_token; [| |apply HQ].
Qed.

Lemma wp_bump_remap k Q :
  kind_at T p ≠ EOF → (∀ s', St b K (S p) s' → Q tt s') → wp (bump_remap k) Q s.
Proof.
  intros HE HQ. apply wp_bind, wp_cur. intros t Ht.
  rewrite (kind_at_lookup _ _ _ Ht) in HE.
  destruct (kind_eqb _ _) eqn:E; [by apply kind_eqb_eq in E|]. by apply wp_token.
Qed.

Lemma wp_bump k Q :
  kind_at T p = k → k ≠ EOF → (∀ s', St b K (S p) s' → Q tt s') → wp (bump k) Q s.
Proof.
  intros Hk HE HQ. apply wp_bind, wp_peek. rewrite Hk, kind_eqb_refl.
  apply wp_bump_any; [congruence|]. intros _. apply HQ.
Qed.

Lemma wp_error_at_code code m x y Q :
  (∀ s', St b K p s' → Q tt s') → wp (error_at_code code m x y) Q s.
Proof.
  intros HQ. unfold wp, error_at_code. destruct (_ <=? _)%N eqn:E; [by apply HQ|].
  apply HQ. destruct HS as [? ? ? ? ? ? Hc ?]. split; simpl; try done.
  apply N.leb_gt in E. rewrite Hc in E. lia.
Qed.

Lemma wp_error m Q : (∀ s', St b K p s' → Q tt s') → wp (error m) Q s.
Proof. intros HQ. apply wp_bind, wp_cur. intros t _. by apply wp_error_at_code. Qed.

Lemma wp_with_nsl {A} x (f : P A) Q (R : A → PState → Prop) :
  (∀ s', St x K p s' → wp f R s') →
  (∀ a s', R a s' → ∃ p', St x K p' s' ∧ ∀ s'', St b K p' s'' → Q a s'') →
  wp (with_nsl x f) Q s.
Proof.
  intros Hf HR. unfold with_nsl. apply wp_bind, wp_gets.
  apply wp_bind, wp_modify, wp_bind. eapply wp_mono.
  - apply Hf. destruct HS. split; done.
  - intros a s' (p' & HS' & HQ)%HR. apply wp_bind, wp_modify, wp_ret, HQ.
    destruct HS' as [? ? ? ? ? ? ? ?]. destruct HS as [? ? ? Hb ? ? ? ?]. split; done.
Qed.

End primitives.

Lemma wp_finish_node b k1 k2 K p s Q :
  St b (k1 :: k2 :: K) p s → (∀ s', St b (k2 :: K) p s' → Q tt s') → wp finish_node Q s.
Proof.
  intros HS HQ. apply wp_modify, HQ. destruct HS as [? ? ? ? Hf ? ? ?]. split; try done.
  by eapply frames_ok_finish.
Qed.

Lemma wp_checkpoint b m K p s Q :
  St b (m :: K) p s →
  (∀ cp, cp_ok cp (cp :: m) → St b ((cp :: m) :: K) p s → Q cp s) → wp checkpoint Q s.
Proof.
  intros HS HQ. apply wp_gets.
  destruct (frames_ok_checkpoint _ _ _ (st_frames _ _ _ _ HS)) as [Hf Hc].
  apply HQ; [done|]. destruct HS. split; done.
Qed.

Lemma wp_start_node_at b cp k m K p s Q :
  St b (m :: K) p s → cp_ok cp m →
  (∀ s', St b ([cp] :: m :: K) p s' → Q tt s') → wp (start_node_at cp k) Q s.
Proof.
  intros HS Hc HQ. apply wp_modify, HQ. destruct HS as [? ? ? ? Hf ? ? ?]. split; try done.
  by apply frames_ok_start_at.
Qed.

(** ** Loops *)

Lemma wp_loop_fuel {A B} (body : A → P (A + B)) (I : A → nat → PState → Prop)
    (Q : B → PState → Prop) :
  (∀ a p s, I a p s → p < length T) →
  (∀ a p s, I a p s →
     wp (body a) (λ r s', match r with
                          | inl a' => ∃ p', p < p' ∧ I a' p' s'
                          | inr b => Q b s' end) s) →
  ∀ n a p s, I a p s → length T < n + p → wp (loop_fuel n body a) Q s.
Proof.
  intros Hlt Hstep n. induction n as [|n IH]; intros a p s HI Hn.
  - apply Hlt in HI. lia.
  - simpl. apply wp_bind. eapply wp_mono; [by eapply Hstep|].
    intros [a'|b] s'; [|done]. intros (p' & Hp & HI'). eapply IH; [done|lia].
Qed.

Lemma wp_loop {A B} (body : A → P (A + B)) (I : A → nat → PState → Prop)
    (Q : B → PState → Prop) a p s :
  (∀ a p s, I a p s → p < length T) →
  tokens s = T → I a p s →
  (∀ a p s, I a p s →
     wp (body a) (λ r s', match r with
                          | inl a' => ∃ p', p < p' ∧ I a' p' s'
                          | inr b => Q b s' end) s) →
  wp (loop_ body a) Q s.
Proof.
  intros Hlt Ht HI Hstep. unfold wp, loop_. rewrite Ht.
  eapply (wp_loop_fuel body I Q Hlt Hstep _ _ _ _ HI). lia.
Qed.

Lemma wp_while b K body p0 s (Q : unit → PState → Prop) :
  St b K p0 s →
  (∀ p s, p0 ≤ p → St b K p s →
     wp body (λ r s', ∃ p', p ≤ p' ∧ St b K p' s' ∧ (r = true → p < p')) s) →
  (∀ p s, p0 ≤ p → St b K p s → Q tt s) →
  wp (while_ body) Q s.
Proof.
  intros HS Hb HQ. unfold while_.
  eapply (wp_loop _ (λ _ p s, p0 ≤ p ∧ St b K p s)).
  - intros _ p s' [_ HS']. apply (st_lt _ _ _ _ HS').
  - apply (st_tokens _ _ _ _ HS).
  - split; [done|exact HS].
  - intros [] p s' [Hp HS']. apply wp_bind. eapply wp_mono; [by apply Hb|].
    intros r s'' (p' & Hp' & HS'' & Hr). apply wp_ret. destruct r.
    + exists p'. split; [by apply Hr|]. split; [lia|done].
    + eapply HQ; [|done]. lia.
Qed.

Lemma wp_skip_trivia b K p s (Q : unit → PState → Prop) :
  St b K p s → (∀ s', St b K (nontrivia_index T p) s' → Q tt s') → wp skip_trivia Q s.
Proof.
  intros HS HQ. unfold skip_trivia, while_.
  eapply (wp_loop _ (λ _ q s, nontrivia_index T q = nontrivia_index T p ∧ St b K q s)).
  - intros _ q s' [_ HS']. apply (st_lt _ _ _ _ HS').
  - apply (st_tokens _ _ _ _ HS).
  - split; [done|exact HS].
  - intros [] q s' [Hq HS']. apply wp_bind, wp_bind. eapply wp_peek; [done|].
    destruct (is_trivia _) eqn:E.
    + apply wp_bind. eapply wp_bump_any; [done|by intros Hk; rewrite Hk in E|].
      intros _ s'' HS''. do 2 apply wp_ret. exists (S q). split; [lia|]. split; [|done].
      by rewrite <- Hq, (nontrivia_index_trivia T q).
    + do 2 apply wp_ret. apply HQ. rewrite <- Hq. by rewrite nontrivia_index_stop.
Qed.

Lemma wp_skip_trivia_neutral b K p s (Q : unit → PState → Prop) :
  St b K p s → (∀ p' s', p ≤ p' → St b K p' s' → Q tt s') → wp skip_trivia Q s.
Proof.
  intros HS HQ. eapply wp_skip_trivia; [done|]. intros s' HS'. eapply HQ; [|done].
  apply nontrivia_index_ge.
Qed.

Lemma wp_eat b K p s k (Q : bool → PState → Prop) :
  St b K p s → k ≠ EOF →
  (kind_at T p = k → ∀ s', St b K (nontrivia_index T (S p)) s' → Q true s') →
  (kind_at T p ≠ k → Q false s) → wp (eat k) Q s.
Proof.
  intros HS Hk Ht Hf. unfold eat. apply wp_bind. eapply wp_at_kind; [done|].
  destruct (kind_eqb _ _) eqn:E.
  - apply kind_eqb_eq in E. apply wp_bind. eapply wp_bump_any; [done|congruence|].
    intros _ s' HS'. apply wp_bind. eapply wp_skip_trivia; [done|]. intros s'' HS''.
    by apply wp_ret, Ht.
  - apply wp_ret, Hf. by apply kind_eqb_neq.
Qed.

Lemma wp_eat_neutral b K p s k (Q : bool → PState → Prop) :
  St b K p s → k ≠ EOF →
  (∀ r p' s', p ≤ p' → (r = true → p < p') → (r = false → p' = p) →
              (kind_at T p = k → p < p') →
              St b K p' s' → Q r s') → wp (eat k) Q s.
Proof.
  intros HS Hk HQ. pose proof (nontrivia_index_ge T (S p)).
  eapply wp_eat; [done|done| |]; intros E.
  - intros s' HS'. eapply HQ; [| | | |done]; intros; (lia || done).
  - eapply HQ; [| | | |done]; [lia|done|done|done].
Qed.

Lemma wp_expect_neutral b K p s k (Q : bool → PState → Prop) :
  St b K p s → k ≠ EOF →
  (∀ r p' s', p ≤ p' → (r = true → p < p') → (r = false → p' = p) →
              (kind_at T p = k → p < p') →
              St b K p' s' → Q r s') → wp (expect k) Q s.
Proof.
  intros HS Hk HQ. pose proof (nontrivia_index_ge T (S p)).
  unfold expect. apply wp_bind. eapply wp_eat; [done|done| |]; intros E.
  - intros s' HS'. apply wp_ret. eapply HQ; [| | | |done]; intros; (lia || done).
  - apply wp_bind. eapply wp_cur; [done|]. intros t _. apply wp_bind.
    eapply wp_error_at_code; [done|]. intros s' HS'. apply wp_ret.
    eapply HQ; [| | | |done]; [lia|done|done|done].
Qed.

(** ** Specifications of productions *)

(** [safe pre n need gain m]: from a state whose current kind satisfies [pre]
    and with [3 * remaining + need <= n], [m] ends well; it leaves the
    builder's open nodes and the struct-literal flag as they were, and it has
    consumed a token whenever [gain] holds of the first kind and the result. *)
Definition safe {A} (pre : SyntaxKind → Prop) (n need : nat)
    (gain : SyntaxKind → A → Prop) (m : P A) : Prop :=
  ∀ b m0 K p s, St b (m0 :: K) p s → pre (kind_at T p) → 3 * (length T - p) + need ≤ n →
    wp m (λ a s', ∃ p', p ≤ p' ∧ St b (m0 :: K) p' s' ∧ (gain (kind_at T p) a → p < p')) s.

(** The same for a production that wraps everything since a checkpoint. *)
Definition safe_at (pre : SyntaxKind → Prop) (n need : nat) (gain : SyntaxKind → Prop)
    (m : Checkpoint → P unit) : Prop :=
  ∀ cp b m0 K p s, cp_ok cp m0 → St b (m0 :: K) p s → pre (kind_at T p) →
    3 * (length T - p) + need ≤ n →
    wp (m cp) (λ a s', ∃ p', p ≤ p' ∧ St b (m0 :: K) p' s' ∧ (gain (kind_at T p) → p < p')) s.

Definition any_kind (k : SyntaxKind) : Prop := True.
Definition no_gain {A} (k : SyntaxKind) (a : A) : Prop := False.
Definition gain_true (k : SyntaxKind) (a : bool) : Prop := a = true.
Definition gain_always {A} (k : SyntaxKind) (a : A) : Prop := True.

Lemma wp_safe {A} pre n need gain (m : P A) b m0 K p s (Q : A → PState → Prop) :
  safe pre n need gain m → St b (m0 :: K) p s → pre (kind_at T p) →
  3 * (length T - p) + need ≤ n →
  (∀ a p' s', p ≤ p' → (gain (kind_at T p) a → p < p') → St b (m0 :: K) p' s' → Q a s') →
  wp m Q s.
Proof.
  intros Hm HS Hpre Hn HQ. eapply wp_mono; [by eapply Hm|].
  intros a s' (p' & Hp & HS' & Hg). by eapply HQ.
Qed.

Lemma wp_safe_at pre n need gain m cp b m0 K p s (Q : unit → PState → Prop) :
  safe_at pre n need gain m → cp_ok cp m0 → St b (m0 :: K) p s → pre (kind_at T p) →
  3 * (length T - p) + need ≤ n →
  (∀ a p' s', p ≤ p' → (gain (kind_at T p) → p < p') → St b (m0 :: K) p' s' → Q a s') →
  wp (m cp) Q s.
Proof.
  intros Hm Hc HS Hpre Hn HQ. eapply wp_mono; [by eapply Hm|].
  intros a s' (p' & Hp & HS' & Hg). by eapply HQ.
Qed.

(** A join point: a block whose own branches are explored once. *)
Lemma wp_block {A B} (m : P A) (k : A → P B) Q b m0 K p s :
  wp m (λ _ s', ∃ p', p ≤ p' ∧ St b (m0 :: K) p' s') s →
  (∀ a p' s', p ≤ p' → St b (m0 :: K) p' s' → wp (k a) Q s') →
  wp (m ≫= k) Q s.
Proof.
  intros Hm Hk. apply wp_bind. eapply wp_mono; [exact Hm|].
  intros a s' (p' & Hp & HS). by eapply Hk.
Qed.

(** A join point that also records when the block consumed a token. *)
Lemma wp_block_gain {A B} (g : A → Prop) (m : P A) (k : A → P B) Q b m0 K p s :
  wp m (λ a s', ∃ p', p ≤ p' ∧ St b (m0 :: K) p' s' ∧ (g a → p < p')) s →
  (∀ a p' s', p ≤ p' → (g a → p < p') → St b (m0 :: K) p' s' → wp (k a) Q s') →
  wp (m ≫= k) Q s.
Proof.
  intros Hm Hk. apply wp_bind. eapply wp_mono; [exact Hm|].
  intros a s' (p' & Hp & HS & Hg). by eapply Hk.
Qed.

End logic.

(** ** Proof automation for the parser's specifications

    [pstep] runs one action of a production symbolically; [solve_prod] repeats
    it to the end.  The specifications of the productions proved so far live
    in the hint database [prod]. *)

Import Types.

(** ** Two rules for the idioms of [GrammarTypes] *)

Lemma wp_progress_guard T cap (wfT : wf_tokens T) b K p s before msg (Q : unit → PState → Prop) :
  St T cap b K p s → before ≤ p → kind_at T before ≠ EOF →
  (∀ p' s', before < p' → p ≤ p' → St T cap b K p' s' → Q tt s') →
  wp (progress_guard before msg) Q s.
Proof.
  intros HS Hp Hk HQ. unfold progress_guard. apply wp_bind. eapply wp_pos; [done|].
  destruct (Nat.eqb_spec p before) as [->|Hne].
  - apply wp_bind. eapply wp_error; [exact HS|]. clear HS. intros s1 HS.
    apply wp_bind. eapply wp_bump_any; [done|exact HS|done|]. clear HS. intros _ s2 HS.
    eapply wp_skip_trivia_neutral; [done|exact HS|]. intros. eapply HQ; [| |done]; lia.
  - apply wp_ret. eapply HQ; [| |done]; lia.
Qed.

Lemma wp_until T cap (wfT : wf_tokens T) b K p0 s close body (Q : unit → PState → Prop) :
  St T cap b K p0 s →
  (∀ p s, p0 ≤ p → St T cap b K p s → kind_at T p ≠ close → kind_at T p ≠ EOF →
     wp body (λ _ s', ∃ p', p < p' ∧ St T cap b K p' s') s) →
  (∀ p s, p0 ≤ p → St T cap b K p s → Q tt s) →
  wp (until_ close body) Q s.
Proof.
  intros HS Hb HQ. unfold until_. eapply wp_while; [exact HS| |exact HQ].
  clear HS s. intros p s Hp HS. apply wp_bind. eapply wp_at_kind; [try exact wfT; exact HS..|].
  apply wp_bind. eapply wp_at_kind; [try exact wfT; exact HS..|].
  destruct (kind_eqb (kind_at T p) close) eqn:E1; simpl; [apply wp_ret; eauto with lia|].
  destruct (kind_eqb (kind_at T p) EOF) eqn:E2; simpl; [apply wp_ret; eauto with lia|].
  apply kind_eqb_neq in E1, E2. apply wp_bind. eapply wp_mono; [by apply Hb|].
  intros _ s' (p' & Hlt & HS'). apply wp_ret. exists p'. split; [lia|]. split; [done|]. done.
Qed.

Create HintDb gains.
#[export] Hint Unfold gain_true no_gain gain_always any_kind : gains.
Create HintDb prod discriminated.
#[export] Hint Constants Opaque : prod.
#[export] Hint Variables Opaque : prod.
#[export] Hint Extern 1 (_ ≠ EOF) => discriminate : prod.

(** ** Kinds *)

Ltac kind_hyps :=
  repeat match goal with
  | H : context [kind_at _ (_ + 1)] |- _ => rewrite Nat.add_1_r in H
  | H : kind_eqb _ _ = true |- _ => apply kind_eqb_eq in H
  | H : kind_eqb _ _ = false |- _ => apply kind_eqb_neq in H
  | H : _ && _ = true |- _ => apply andb_true_iff in H as [? ?]
  | H : negb _ = true |- _ => apply negb_true_iff in H
  | H : negb _ = false |- _ => apply negb_false_iff in H
  | H : _ || _ = false |- _ => apply orb_false_iff in H as [? ?]
  | H : _ || _ = true |- _ => apply orb_true_iff in H
  | H : _ && _ = false |- _ => apply andb_false_iff in H
  | H : ?x = ?x → _ |- _ => specialize (H eq_refl)
  | H : ?P → _, H' : ?P |- _ => let T := type of P in unify T Prop; specialize (H H')
  | H : true = false → _ |- _ => clear H
  | H : false = true → _ |- _ => clear H
  | H : ?p' = ?p |- _ => is_var p'; is_var p; let T := type of p in unify T nat; subst p'
  | H : _ ∨ _ → _ |- _ => specialize (H ltac:(first [tauto|left; done]))
  end.

(** Evaluate the tests on kinds that are already known. *)
Ltac kind_eval :=
  repeat match goal with
  | H : kind_at ?T ?p = ?k |- wp ?m _ _ =>
      match m with context [kind_at T p] => rewrite H end
  | |- context [kind_eqb ?a ?b] =>
      is_constructor a; is_constructor b;
      let r := eval vm_compute in (kind_eqb a b) in change (kind_eqb a b) with r
  end; cbn [negb andb orb].

Ltac psplit :=
  kind_eval;
  lazymatch goal with
  | |- wp (if true then _ else _) _ _ => cbv iota
  | |- wp (if false then _ else _) _ _ => cbv iota
  | |- wp (if ?b then _ else _) _ _ => let E := fresh "Eb" in destruct b eqn:E; kind_hyps
  | |- wp (match ?x with _ => _ end) _ _ =>
      tryif is_constructor x then cbv iota else (let E := fresh "Ek" in destruct x eqn:E; kind_hyps)
  | |- _ => idtac
  end.

(** The final obligation of a [safe] goal. *)
Ltac find_st :=
  first
    [ eassumption
    | eapply St_forget; eassumption
    | eapply St_forget; eapply St_forget; eassumption ].

(** The token-consumption condition of a [safe] goal. *)
Ltac gain_side :=
  try solve [intros; lia];
  autounfold with gains in *; intros;
  repeat match goal with
         | H : _ ∨ _ |- _ => destruct H
         | H : is_Some None |- _ => by destruct H
         end; subst; kind_hyps;
  repeat match goal with
         | H : bool_decide _ = true |- _ => apply bool_decide_eq_true in H
         | H : true = false → _ |- _ => clear H
  | H : false = true → _ |- _ => clear H
  | H : ?p' = ?p |- _ => is_var p'; is_var p; let T := type of p in unify T nat; subst p'
  | H : _ ∨ _ → _ |- _ => specialize (H ltac:(tauto))
         end;
  first [ contradiction | congruence | lia
        | repeat match goal with
                 | r : bool, H : ?r = true → _ |- _ => is_var r; destruct r; kind_hyps
                 end; first [congruence | lia] ].

Ltac pfinish :=
  kind_hyps;
  first
    [ lia
    | eexists; split; [|split; [find_st|]];
      [ lia
      | gain_side ]
    | eexists; split; [|find_st]; lia ].

Ltac st_of s k := match goal with H : St _ _ _ _ _ s |- _ => k H end.

Ltac after_step :=
  let p' := fresh "p" in let s' := fresh "s" in
  intros ? p' s'; intros; kind_hyps.

(** The current kind is not [EOF]. *)
Ltac not_eof :=
  let HE := fresh in intros HE; exfalso; autounfold with gains in *;
  try rewrite HE in *;
  repeat match goal with H : _ ∨ _ |- _ => destruct H end; kind_hyps;
  first
    [ congruence
    | match goal with H : _ = true |- _ => vm_compute in H; discriminate H end
    | match goal with H : _ = false |- _ => vm_compute in H; discriminate H end ].

(** Close a goal about [f (kind_at T p)] from the known kind at [p]. *)
Ltac by_kind := match goal with H : kind_at _ _ = _ |- _ => solve [rewrite H; reflexivity] end.

(** Apply the rule of a primitive to the state [HS] describes. *)
Ltac prim lem HS :=
  first [ eapply lem; [eassumption|exact HS|..] | eapply lem; [exact HS|..] ].

(** The precondition of a production on the current kind. *)
Ltac pre_side :=
  try solve [cbv beta; autounfold with gains; first [done | eassumption | congruence | by_kind | left; assumption | right; assumption]].

Ltac with_fuel k :=
  match goal with H : 3 * (length _ - _) + _ ≤ ?fuel |- _ => k fuel end.

Ltac phead :=
  lazymatch goal with
  | |- wp ?m ?Q ?s =>
    st_of s ltac:(fun HS =>
    lazymatch m with
    | start_node _ => prim wp_start_node HS; clear HS; intros ? HS
    | finish_node => prim wp_finish_node HS; clear HS; intros ? HS
    | checkpoint =>
        prim wp_checkpoint HS; clear HS;
        let cp := fresh "cp" in let Hc := fresh "Hcp" in intros cp Hc HS
    | start_node_at _ _ =>
        prim wp_start_node_at HS; [eassumption|]; clear HS; intros ? HS
    | peek => prim wp_peek HS
    | at_kind _ => prim wp_at_kind HS
    | peek_n _ => prim wp_peek_n HS
    | cur_text => prim wp_cur_text HS; intros ? ?
    | cur => prim wp_cur HS; intros ? ?
    | gets pos => prim wp_pos HS
    | gets _ => eapply wp_gets
    | next_nontrivia_kind _ => prim wp_nontrivia_kind HS
    | next_nontrivia_index _ => prim wp_nontrivia_index HS
    | next_nontrivia_from _ => prim wp_nontrivia_from HS
    | next_nontrivia_kind_same_line _ =>
        unfold next_nontrivia_kind_same_line; eapply wp_gets
    | bump _ =>
        eapply wp_bump; [eassumption|exact HS|first [eassumption|reflexivity]|first [discriminate|assumption]|];
        clear HS; intros ? HS
    | bump_any =>
        eapply wp_bump_any;
        [eassumption|exact HS|first [solve [not_eof]|intros ?]|clear HS; intros ? ? HS]
    | bump_remap _ =>
        eapply wp_bump_remap; [eassumption|exact HS|congruence|]; clear HS; intros ? HS
    | until_ _ _ =>
        prim wp_until HS; clear HS; [intros ? ? ? HS ? ?|intros ? ? ? HS]
    | progress_guard _ _ =>
        eapply wp_progress_guard; [eassumption|exact HS|lia|eassumption|];
        clear HS; intros ? ? ? ? HS
    | while_ _ =>
        prim wp_while HS; clear HS; [intros ? ? ? HS|intros ? ? ? HS]
    | skip_trivia =>
        eapply wp_skip_trivia_neutral; [eassumption|exact HS|]; clear HS; intros ? ? ? HS
    | eat _ =>
        eapply wp_eat_neutral; [eassumption|exact HS|discriminate|];
        clear HS; intros ? ? ? ? ? ? ? HS; kind_hyps
    | expect _ =>
        eapply wp_expect_neutral; [eassumption|exact HS|discriminate|];
        clear HS; intros ? ? ? ? ? ? ? HS; kind_hyps
    | error _ => prim wp_error HS; clear HS; intros ? HS
    | error_at_code _ _ _ _ =>
        prim wp_error_at_code HS; clear HS; intros ? HS
    | error_at _ _ _ =>
        prim wp_error_at_code HS; clear HS; intros ? HS
    | peeks_as_effect_row_clause => unfold peeks_as_effect_row_clause; eapply wp_gets
    | ?f ?cp =>
        first
          [ with_fuel ltac:(fun fuel => eapply wp_safe_at with (n := fuel)); [solve [eauto with prod nocore]|eassumption|exact HS|..];
            [pre_side|pose proof (st_lt _ _ _ _ _ _ HS); lia|clear HS; intros ? ? ? ? ? HS; autounfold with gains in *; kind_hyps]
          | with_fuel ltac:(fun fuel => eapply wp_safe with (n := fuel)); [solve [eauto with prod nocore]|exact HS|..];
            [pre_side|pose proof (st_lt _ _ _ _ _ _ HS); lia|clear HS; intros ? ? ? ? ? HS; autounfold with gains in *; kind_hyps] ]
    | _ =>
        with_fuel ltac:(fun fuel => eapply wp_safe with (n := fuel)); [solve [eauto with prod nocore]|exact HS|..];
        [pre_side|pose proof (st_lt _ _ _ _ _ _ HS); lia|clear HS; intros ? ? ? ? ? HS; autounfold with gains in *; kind_hyps]
    end)
  end.


(** Explore a block once and join its branches. *)
Ltac pblock :=
  lazymatch goal with
  | |- wp _ _ ?s =>
    st_of s ltac:(fun HS =>
      lazymatch type of HS with
      | St ?T ?cap ?b (?m0 :: ?K) ?p _ =>
          eapply (wp_block T cap _ _ _ b m0 K p);
          [|clear HS; intros ? ? ? ? HS; kind_hyps]
      end)
  end.

Ltac pblock_gain g :=
  lazymatch goal with
  | |- wp _ _ ?s =>
    st_of s ltac:(fun HS =>
      lazymatch type of HS with
      | St ?T ?cap ?b (?m0 :: ?K) ?p _ =>
          eapply (wp_block_gain T cap g _ _ _ b m0 K p);
          [|clear HS; intros ? ? ? ? ? HS; kind_hyps]
      end)
  end.

Ltac pstep :=
  lazymatch goal with
  | |- wp (mbind _ ?m) _ _ =>
      lazymatch m with
      | mbind _ _ => pblock
      | match _ with _ => _ end => pblock
      | _ => apply wp_bind; phead
      end
  | |- wp (mret _) _ _ => apply wp_ret
  | |- wp (match _ with _ => _ end) _ _ => psplit
  | |- wp _ _ _ => phead
  end.


Ltac solve_prod := repeat pstep; try pfinish.

(** [match kind with ... | _ => default end]: solve the default branch once,
    then each listed kind. *)
Ltac solve_match :=
  lazymatch goal with
  | |- wp (match kind_at ?T ?q with _ => _ end) ?Q ?s =>
      let D := fresh "D" in
      first
        [ assert (D : wp (mret false) Q s) by solve_prod
        | assert (D : wp (mret None) Q s) by solve_prod ];
      destruct (kind_at T q) eqn:?; first [exact D | clear D; solve_prod]
  end.
