(* ===== verification/GrammarTypesSafe.v ===== *)
(** * The productions of [GrammarTypes] are safe *)

From stdpp Require Import base list strings numbers sets.
From S2P Require Import Prelude ParserCore ParserLogic GrammarTypes.

Definition gain_some {A} (k : SyntaxKind) (a : option A) : Prop :=
  is_Some a ∨ can_start_expr k = true.
Definition gain_kind {A} (k0 k : SyntaxKind) (a : A) : Prop := k = k0.

(** What the five recursive productions owe each other at fuel [n]. *)
Record CallsOk (T : list Token) (cap : N) (n : nat) (c : Calls) : Prop := {
  ok_type_expr : safe T cap any_kind n 2 gain_true (type_expr c);
  ok_expr_bp bp : safe T cap any_kind n 2 gain_some (expr_bp c bp);
  ok_unary : safe T cap any_kind n 2 gain_some (unary_or_primary c);
  ok_pattern : safe T cap any_kind n 2 gain_true (pattern c);
  ok_block : safe T cap any_kind n 3 (gain_kind L_BRACE) (block c);
  ok_block_brace : safe T cap (λ k, k = L_BRACE) n 1 gain_always (block c)
}.

#[export] Hint Resolve ok_type_expr ok_expr_bp ok_unary ok_pattern : prod.

Section lists.
Context (T : list Token) (cap : N) (wfT : wf_tokens T) (n : nat).

Lemma sep_list_safe {A} sep close (elem : P A) need g :
  sep ≠ EOF → safe T cap any_kind n need g elem →
  safe T cap any_kind n (need - 3) no_gain (sep_list sep close elem).
Proof.
  intros Hsep He b m0 K p s HS _ Hn.
  eapply wp_while; [exact HS| |intros; pfinish].
  clear HS s. intros q s Hq HS. apply wp_bind.
  eapply wp_eat_neutral; [eassumption|exact HS|done|].
  clear HS; intros ? ? ? ? ? ? ? HS; kind_hyps. solve_prod.
Qed.

Lemma sep_list1_safe {A} sep (elem : P A) need g :
  sep ≠ EOF → safe T cap any_kind n need g elem →
  safe T cap any_kind n (need - 3) no_gain (sep_list1 sep elem).
Proof.
  intros Hsep He b m0 K p s HS _ Hn.
  eapply wp_while; [exact HS| |intros; pfinish].
  clear HS s. intros q s Hq HS. apply wp_bind.
  eapply wp_eat_neutral; [eassumption|exact HS|done|].
  clear HS; intros ? ? ? ? ? ? ? HS; kind_hyps. solve_prod.
Qed.

Hint Resolve sep_list_safe : prod.

Lemma comma_list_safe {A} close (elem : P A) need g :
  safe T cap any_kind n need g elem →
  safe T cap any_kind n need no_gain (comma_list close elem).
Proof.
  intros He b m0 K p s HS _ Hn. unfold comma_list.
  solve_prod.
Qed.
End lists.

#[export] Hint Resolve sep_list_safe sep_list1_safe comma_list_safe : prod.

Definition kind_is (k0 k : SyntaxKind) : Prop := k = k0.

(** A production that consumes its first token when that token is a name. *)
Definition gain_name (k : SyntaxKind) (a : bool) : Prop := a = true ∨ k = IDENT.
Definition gain_word (k : SyntaxKind) (a : bool) : Prop :=
  a = true ∨ k = IDENT ∨ is_keyword k = true.

#[export] Hint Unfold kind_is gain_name gain_word gain_some gain_kind : gains.

Ltac prod_intro := intros b m0 K p s HS Hpre Hn; cbv [kind_is any_kind] in Hpre.
Ltac by_prod f := prod_intro; unfold f; solve_prod.

Section prods.
Context (T : list Token) (cap : N) (wfT : wf_tokens T) (n : nat) (c : Calls).
Context (ok : CallsOk T cap n c).
Import Paths Types Patterns.

Lemma generic_arg_safe : safe T cap any_kind n 2 no_gain (generic_arg c).
Proof. by_prod generic_arg. Qed.
Hint Resolve generic_arg_safe : prod.

Lemma generic_args_safe : safe T cap (kind_is L_BRACK) n 0 gain_always (generic_args c).
Proof. by_prod generic_args. Qed.
Hint Resolve generic_args_safe : prod.

Lemma segment_safe : safe T cap (kind_is IDENT) n 0 gain_always (segment c).
Proof. by_prod segment. Qed.
Hint Resolve segment_safe : prod.

Lemma name_safe : safe T cap any_kind n 0 gain_name name.
Proof. by_prod name. Qed.

Lemma name_or_keyword_safe : safe T cap any_kind n 0 gain_word name_or_keyword.
Proof. by_prod name_or_keyword. Qed.
Hint Resolve name_safe name_or_keyword_safe : prod.

Lemma path_safe : safe T cap any_kind n 0 gain_name (path c).
Proof.
  prod_intro. unfold path. pstep. psplit; [solve_prod|].
  do 3 pstep. apply wp_bind. eapply wp_while; [exact HS| |].
  - clear HS. intros q x Hq HS. pstep. pstep. psplit; [|solve_prod].
    pstep. apply wp_bind. eapply wp_skip_trivia; [done|exact HS|]. clear HS; intros ? HS.
    rewrite nontrivia_index_stop in HS by by_kind.
    solve_prod.
  - clear HS. intros q x Hq HS. solve_prod.
Qed.
Hint Resolve path_safe : prod.

Lemma dyn_type_safe : safe T cap (kind_is DYN_KW) n 0 gain_always (dyn_type c).
Proof. by_prod dyn_type. Qed.

Lemma ptr_safe : safe T cap (kind_is STAR) n 0 gain_always (ptr c).
Proof. by_prod ptr. Qed.

Lemma borrow_safe : safe T cap (kind_is AMP) n 0 gain_always (borrow c).
Proof. by_prod borrow. Qed.

Lemma tuple_type_safe : safe T cap (kind_is L_PAREN) n 0 gain_always (tuple_type c).
Proof. by_prod tuple_type. Qed.

Lemma expr_safe : safe T cap any_kind n 2 gain_true (expr c).
Proof. by_prod expr. Qed.
Hint Resolve expr_safe : prod.

Lemma array_safe : safe T cap (kind_is L_BRACK) n 0 gain_always (array c).
Proof. by_prod array. Qed.

Lemma fn_type_safe : safe T cap (kind_is FN_KW) n 0 gain_always (fn_type c).
Proof. by_prod fn_type. Qed.

Lemma path_type_safe : safe T cap (kind_is IDENT) n 0 gain_always (path_type c).
Proof. by_prod path_type. Qed.
Hint Resolve dyn_type_safe ptr_safe borrow_safe tuple_type_safe array_safe fn_type_safe
  path_type_safe : prod.

Lemma type_expr_body_safe : safe T cap any_kind n 1 gain_true (type_expr_body c).
Proof.
  prod_intro. unfold type_expr_body. pstep. pstep.
  solve_match.
Qed.

Lemma generic_param_safe : safe T cap any_kind n 2 (gain_kind IDENT) (generic_param c).
Proof. by_prod generic_param. Qed.
Hint Resolve generic_param_safe : prod.

Lemma generic_params_safe : safe T cap any_kind n 0 no_gain (generic_params c).
Proof. by_prod generic_params. Qed.

Lemma parse_one_row_var_safe : safe T cap any_kind n 0 no_gain parse_one_row_var.
Proof. by_prod parse_one_row_var. Qed.
Hint Resolve parse_one_row_var_safe : prod.

Lemma trivia_row_var_safe : safe T cap any_kind n 0 no_gain (skip_trivia;; parse_one_row_var).
Proof. prod_intro. solve_prod. Qed.
Hint Resolve trivia_row_var_safe : prod.

Lemma effect_row_tail_safe : safe T cap (kind_is PIPE) n 0 gain_always effect_row_tail.
Proof. by_prod effect_row_tail. Qed.
Hint Resolve effect_row_tail_safe : prod.

Lemma effect_name_safe : safe T cap any_kind n 0 no_gain effect_name.
Proof. by_prod effect_name. Qed.
Hint Resolve effect_name_safe : prod.

Lemma effect_clause_keyword_safe :
  safe T cap (kind_is EFFECT_KW) n 0 gain_always effect_clause_keyword.
Proof. by_prod effect_clause_keyword. Qed.

Lemma effect_clause_bang_safe : safe T cap (kind_is BANG) n 0 gain_always effect_clause_bang.
Proof. by_prod effect_clause_bang. Qed.
Hint Resolve effect_clause_keyword_safe effect_clause_bang_safe : prod.

Lemma effect_clause_safe : safe T cap any_kind n 0 no_gain effect_clause.
Proof. by_prod effect_clause. Qed.

Lemma literal_safe : safe T cap (λ k, k ≠ EOF) n 0 gain_always literal.
Proof. by_prod literal. Qed.

Lemma binding_safe : safe T cap (kind_is IDENT) n 0 gain_always (binding c).
Proof. by_prod binding. Qed.

Lemma wildcard_safe : safe T cap (kind_is IDENT) n 0 gain_always wildcard.
Proof. by_prod wildcard. Qed.

Lemma ref_pat_safe : safe T cap (kind_is AMP) n 0 gain_always (ref_pat c).
Proof. by_prod ref_pat. Qed.

Lemma tuple_pat_safe : safe T cap (kind_is L_PAREN) n 0 gain_always (tuple_pat c).
Proof. by_prod tuple_pat. Qed.

Lemma field_pat_safe : safe T cap any_kind n 0 no_gain (field_pat c).
Proof. by_prod field_pat. Qed.
Hint Resolve literal_safe binding_safe wildcard_safe ref_pat_safe tuple_pat_safe field_pat_safe
  : prod.

Lemma path_headed_safe : safe T cap (kind_is IDENT) n 0 gain_always (path_headed c).
Proof. by_prod path_headed. Qed.
Hint Resolve path_headed_safe : prod.

Lemma pattern_body_safe : safe T cap any_kind n 1 gain_true (pattern_body c).
Proof.
  prod_intro. unfold pattern_body. do 3 pstep. pblock_gain (eq true); [solve_match|].
  solve_prod.
Qed.
End prods.

#[export] Hint Resolve generic_args_safe name_safe name_or_keyword_safe path_safe expr_safe
  generic_params_safe effect_clause_safe : prod.
