(* ===== verification/GrammarExprs.v ===== *)
(** * Parameters, statements, concurrency blocks and expressions

    [stmts.rs], [concurrency.rs], [unsafe_.rs], [exprs.rs] of
    [crates/mty-syntax/src/parser/], and the parts of [items.rs] that
    expressions use (attributes and function parameters).  The end of the file
    ties the recursive knot: [grammar n] is the grammar with [n] levels of
    recursion left. *)

From stdpp Require Import base list strings numbers.
From S2P Require Import Prelude ParserCore GrammarTypes.

Module Params.
Import Paths Types.
Section params.
Context (c : Calls).

(** [attribute] of [items.rs] *)
Definition attribute : P unit :=
  start_node ATTR;;
  (h ← eat HASH;
   if h : bool then
     expect L_BRACK;;
     name_or_keyword;;
     (l ← eat L_PAREN;
      if l : bool then
        while_ (r ← at_kind R_PAREN; e ← at_kind EOF;
                if negb r && negb e then
                  before ← gets pos;
                  name_or_keyword;;
                  (m ← eat COMMA;
                   if negb m then mret false else
                   now ← gets pos;
                   if now =? before then mret false else mret true)
                else mret false);;
        expect R_PAREN;;
        mret tt
      else mret tt);;
     expect R_BRACK;;
     mret tt
   else
     d ← at_kind DERIVE_KW;
     if d : bool then
       start_node NAME;; bump_any;; finish_node;; skip_trivia;;
       name_or_keyword;;
       sep_list1 COMMA name_or_keyword
     else mret tt);;
  finish_node;;
  skip_trivia.

(** [items::param] *)
Definition param : P unit :=
  start_node FN_PARAM;;
  while_ (h ← at_kind HASH;
          if h : bool then attribute;; skip_trivia;; mret true else mret false);;
  eat MUT_KW;;
  skip_trivia;;
  (b ← at_kind SELF_KW;
   if b : bool then
     bump SELF_KW;;
     skip_trivia;;
     (k ← eat COLON; if k : bool then type_expr c;; mret tt else mret tt)
   else
     name;;
     (k ← eat COLON; if k : bool then type_expr c;; mret tt else mret tt));;
  finish_node;;
  skip_trivia.

(** [items::fn_params] *)
Definition fn_params : P unit :=
  start_node FN_PARAM_LIST;;
  expect L_PAREN;;
  skip_trivia;;
  comma_list R_PAREN param;;
  expect R_PAREN;;
  finish_node;;
  skip_trivia.

End params.
End Params.

Fixpoint finish_nodes (n : nat) : P unit :=
  match n with 0 => mret tt | S n => finish_node;; finish_nodes n end.

Module Stmts.
Import Paths Types.
Section stmts.
Context (c : Calls).

Definition let_stmt : P unit :=
  start_node LET_STMT;;
  bump LET_KW;;
  skip_trivia;;
  eat MUT_KW;;
  skip_trivia;;
  (b ← pattern c;
   if negb b then error "expected binding pattern after `let`" else mret tt);;
  (b ← eat COLON; if b : bool then type_expr c;; mret tt else mret tt);;
  (b ← eat EQ; if b : bool then expr c;; mret tt else mret tt);;
  eat SEMI;;
  finish_node;;
  skip_trivia.

Definition block_body : P unit :=
  start_node BLOCK;;
  expect L_BRACE;;
  skip_trivia;;
  until_ R_BRACE
    ((k ← peek;
      if kind_eqb k LET_KW then let_stmt
      else if negb (can_start_expr k) then
        error "expected statement or expression";; bump_any
      else
        start_node EXPR_STMT;;
        expr c;;
        eat SEMI;;
        finish_node);;
     skip_trivia);;
  expect R_BRACE;;
  finish_node;;
  skip_trivia.

(** The optional [let pattern =] of [if] and [while]. *)
Definition let_head : P unit :=
  b ← at_kind LET_KW;
  if b : bool then
    bump LET_KW;; skip_trivia;; pattern c;; expect EQ;; skip_trivia
  else mret tt.

Definition if_expr : P bool :=
  open_ifs ← loop_ (λ open_ifs : nat,
    start_node IF_EXPR;;
    bump IF_KW;;
    skip_trivia;;
    let_head;;
    with_no_struct_literal (expr c);;
    block c;;
    e ← eat ELSE_KW;
    if negb e then mret (inr (S open_ifs)) else
    i ← at_kind IF_KW;
    if negb i then block c;; mret (inr (S open_ifs))
    else mret (inl (S open_ifs))) 0;
  finish_nodes open_ifs;;
  mret true.

Definition match_arm : P unit :=
  start_node MATCH_ARM;;
  pattern c;;
  (b ← eat IF_KW;
   if b : bool then start_node MATCH_GUARD;; expr c;; finish_node else mret tt);;
  expect FAT_ARROW;;
  skip_trivia;;
  (b ← at_kind L_BRACE;
   if b : bool then block c else expr c;; eat COMMA;; mret tt);;
  finish_node;;
  skip_trivia.

Definition match_expr : P bool :=
  start_node MATCH_EXPR;;
  bump MATCH_KW;;
  skip_trivia;;
  with_no_struct_literal (expr c);;
  expect L_BRACE;;
  skip_trivia;;
  until_ R_BRACE
    (before ← gets pos;
     match_arm;;
     skip_trivia;;
     progress_guard before "unexpected token in match body");;
  expect R_BRACE;;
  finish_node;;
  mret true.

Definition for_expr : P bool :=
  start_node FOR_EXPR;;
  bump FOR_KW;;
  skip_trivia;;
  pattern c;;
  expect IN_KW;;
  skip_trivia;;
  with_no_struct_literal (expr c);;
  block c;;
  finish_node;;
  mret true.

Definition while_expr : P bool :=
  start_node WHILE_EXPR;;
  bump WHILE_KW;;
  skip_trivia;;
  let_head;;
  with_no_struct_literal (expr c);;
  block c;;
  finish_node;;
  mret true.

Definition loop_expr : P bool :=
  start_node LOOP_EXPR;;
  bump LOOP_KW;;
  skip_trivia;;
  block c;;
  finish_node;;
  mret true.

End stmts.
End Stmts.

Module Concurrency.
Import Paths Types.
Section concurrency.
Context (c : Calls).

(** [unsafe_::unsafe_block] *)
Definition unsafe_block : P bool :=
  b ← at_kind UNSAFE_KW;
  if negb b then mret false else
  start_node UNSAFE_BLOCK;;
  bump UNSAFE_KW;;
  skip_trivia;;
  (b ← at_kind L_BRACE;
   if b : bool then block c else error "expected `{` after `unsafe`");;
  finish_node;;
  skip_trivia;;
  mret true.

Definition arena_block : P bool :=
  start_node ARENA_BLOCK;;
  bump ARENA_KW;;
  skip_trivia;;
  name;;
  skip_trivia;;
  (b ← eat COLON;
   if b : bool then expr c;; mret tt else
   b ← at_kind L_BRACE;
   if b : bool then block c else error "expected ':' or '{' after arena name");;
  finish_node;;
  mret true.

Definition task_scope_or_call : P bool :=
  k ← next_nontrivia_kind 1;
  if kind_eqb k DOT then
    start_node PATH_EXPR;;
    start_node PATH;;
    start_node PATH_SEGMENT;;
    start_node NAME_REF;;
    bump TASK_KW;;
    finish_node;;
    finish_node;;
    finish_node;;
    finish_node;;
    mret true
  else
    start_node TASK_SCOPE;;
    bump TASK_KW;;
    skip_trivia;;
    eat SCOPE_KW;;
    skip_trivia;;
    (b ← eat AT; if b : bool then expr c;; mret tt else mret tt);;
    (b ← at_kind L_BRACE;
     if b : bool then block c else error "expected '{' to start task scope body");;
    finish_node;;
    mret true.

Definition budget_block : P bool :=
  start_node BUDGET_BLOCK;;
  bump_remap BUDGET_KW;;
  skip_trivia;;
  expect L_BRACE;;
  skip_trivia;;
  until_ R_BRACE
    (b ← at_kind IDENT;
     if negb b then
       error "expected budget entry name";; bump_any;; skip_trivia
     else
       start_node BUDGET_ENTRY;;
       name;;
       skip_trivia;;
       expr c;;
       eat SEMI;;
       finish_node;;
       skip_trivia);;
  expect R_BRACE;;
  skip_trivia;;
  expect RUN_KW;;
  skip_trivia;;
  (b ← at_kind L_BRACE;
   if b : bool then block c else expr c;; mret tt);;
  finish_node;;
  mret true.

Definition sandbox_block : P bool :=
  start_node SANDBOX_BLOCK;;
  bump SANDBOX_KW;;
  skip_trivia;;
  name;;
  skip_trivia;;
  expect WITH_KW;;
  skip_trivia;;
  expect L_BRACE;;
  skip_trivia;;
  until_ R_BRACE
    (b ← at_kind IDENT;
     if negb b then
       error "expected sandbox entry path";; bump_any;; skip_trivia
     else
       start_node SANDBOX_ENTRY;;
       path c;;
       skip_trivia;;
       expect EQ;;
       skip_trivia;;
       expr c;;
       (m ← eat COMMA; if negb m then eat SEMI;; mret tt else mret tt);;
       finish_node;;
       skip_trivia);;
  expect R_BRACE;;
  skip_trivia;;
  (b ← at_kind L_BRACE;
   if b : bool then block c else error "expected '{' to start sandbox body");;
  finish_node;;
  mret true.

End concurrency.
End Concurrency.

Module Exprs.
Import Paths Types Params Stmts Concurrency.

Definition infix_right_assoc (k : SyntaxKind) : bool :=
  match k with
  | EQ | PLUS_EQ | MINUS_EQ | STAR_EQ | SLASH_EQ | PERCENT_EQ | AMP_EQ | PIPE_EQ | CARET_EQ
  | SHL_EQ | SHR_EQ => true
  | _ => false
  end.

(** The match of [infix_bp]; binding powers are [u8]s between 1 and 12. *)
Definition infix_bp_of (k : SyntaxKind) : option nat :=
  match k with
  | DOT_DOT | DOT_DOT_EQ => Some 1
  | EQ | PLUS_EQ | MINUS_EQ | STAR_EQ | SLASH_EQ | PERCENT_EQ | AMP_EQ | PIPE_EQ | CARET_EQ
  | SHL_EQ | SHR_EQ => Some 2
  | PIPE_PIPE => Some 3
  | AMP_AMP => Some 4
  | EQ_EQ | BANG_EQ | LT | LT_EQ | GT | GT_EQ => Some 5
  | PIPE => Some 6
  | CARET => Some 7
  | AMP => Some 8
  | SHL | SHR => Some 9
  | PLUS | MINUS => Some 10
  | STAR | SLASH | PERCENT => Some 11
  | AS_KW => Some 12
  | _ => None
  end.

Definition infix_bp : P (option nat) := k ← peek; mret (infix_bp_of k).

Definition PREFIX_BP : nat := 13.

(** [lookahead_is_budget_block] *)
Definition lookahead_is_budget_block : P bool :=
  after_budget ← next_nontrivia_index 1;
  toks ← gets tokens;
  mret (if negb (kind_eqb (kind_at toks after_budget) L_BRACE) then false else
        let after_brace := nontrivia_index toks (after_budget + 1) in
        let first := kind_at toks after_brace in
        if kind_eqb first R_BRACE then true
        else if negb (kind_eqb first IDENT) then false
        else
          let second := kind_at toks (nontrivia_index toks (after_brace + 1)) in
          negb (kind_in second [COLON; COMMA; R_BRACE])).

Definition lookahead_is_struct_literal : P bool :=
  after_brace ← next_nontrivia_index 1;
  first ← next_nontrivia_kind 1;
  second ← next_nontrivia_from (after_brace + 1);
  mret (if kind_eqb first R_BRACE then true
        else if kind_eqb first IDENT then kind_in second [COLON; COMMA; R_BRACE]
        else false).

(** The opaque argument tokens of a macro call; [depth] is an [i32]. *)
Definition token_tree : P unit :=
  start_node TOKEN_TREE;;
  b ← at_kind L_PAREN;
  if negb b then
    error "expected '(' to start macro argument token tree";; finish_node
  else
    bump L_PAREN;;
    depth ← loop_ (λ depth : Z,
      e ← at_kind EOF;
      if (0 <? depth)%Z && negb e then
        k ← peek;
        match k with
        | L_PAREN | L_BRACK | L_BRACE => bump_any;; mret (inl (depth + 1)%Z)
        | R_PAREN =>
            (if (depth - 1 =? 0)%Z then bump R_PAREN else bump_any);; mret (inl (depth - 1)%Z)
        | R_BRACK | R_BRACE => bump_any;; mret (inl (depth - 1)%Z)
        | _ => bump_any;; mret (inl depth)
        end
      else mret (inr depth)) 1%Z;
    (if (0 <? depth)%Z
     then error "unterminated macro argument token tree (missing ')')" else mret tt);;
    finish_node.

Section exprs.
Context (c : Calls).

Definition arg : P unit :=
  b ← at_kind IDENT;
  k ← next_nontrivia_kind 1;
  if b && kind_eqb k COLON then
    start_node NAMED_ARG;;
    name;;
    bump COLON;;
    skip_trivia;;
    expr c;;
    finish_node
  else
    start_node ARG;; expr c;; finish_node.

Definition args : P unit :=
  start_node ARG_LIST;;
  bump L_PAREN;;
  skip_trivia;;
  (b ← at_kind R_PAREN;
   if b : bool then mret tt else
   arg;;
   skip_trivia;;
   while_ (m ← eat COMMA;
           if m : bool then
             r ← at_kind R_PAREN;
             if r : bool then mret false else arg;; skip_trivia;; mret true
           else mret false));;
  expect R_PAREN;;
  finish_node.

Definition paren_or_tuple : P PrimaryShape :=
  cp ← checkpoint;
  bump L_PAREN;;
  skip_trivia;;
  b ← at_kind R_PAREN;
  if b : bool then
    start_node_at cp TUPLE_EXPR;; bump R_PAREN;; finish_node;; mret NonCallable
  else
    with_struct_literal
      (r ← expr_bp c 0;
       skip_trivia;;
       m ← at_kind COMMA;
       if m : bool then
         start_node_at cp TUPLE_EXPR;;
         bump COMMA;;
         skip_trivia;;
         while_ (q ← at_kind R_PAREN; e ← at_kind EOF;
                 if negb q && negb e then
                   expr c;; skip_trivia;; eat COMMA
                 else mret false);;
         expect R_PAREN;;
         finish_node;;
         mret NonCallable
       else expect R_PAREN;; mret (default NonCallable r)).

Definition array_lit : P PrimaryShape :=
  start_node ARRAY_EXPR;;
  bump L_BRACK;;
  skip_trivia;;
  (b ← at_kind R_BRACK;
   if b : bool then mret tt else
   expr c;;
   skip_trivia;;
   while_ (m ← eat COMMA;
           if m : bool then
             r ← at_kind R_BRACK;
             if r : bool then mret false else expr c;; skip_trivia;; mret true
           else mret false));;
  expect R_BRACK;;
  finish_node;;
  mret NonCallable.

Definition block_or_map_or_struct : P PrimaryShape :=
  cp ← checkpoint;
  after_brace ← next_nontrivia_index 1;
  first_kind ← next_nontrivia_kind 1;
  k2 ← next_nontrivia_from (after_brace + 1);
  let second_kind := if kind_eqb first_kind EOF then EOF else k2 in
  let looks_like_map := kind_eqb first_kind IDENT && kind_eqb second_kind COLON in
  if looks_like_map then
    start_node_at cp MAP_EXPR;;
    bump L_BRACE;;
    skip_trivia;;
    while_ (q ← at_kind R_BRACE; e ← at_kind EOF;
            if negb q && negb e then
              start_node MAP_ENTRY;;
              name;;
              expect COLON;;
              expr c;;
              skip_trivia;;
              finish_node;;
              eat COMMA
            else mret false);;
    expect R_BRACE;;
    finish_node;;
    mret NonCallable
  else block c;; mret NonCallable.

Definition path_expr_or_call : P PrimaryShape :=
  cp ← checkpoint;
  start_node PATH_EXPR;;
  path c;;
  finish_node;;
  skip_trivia;;
  b ← at_kind BANG;
  k ← next_nontrivia_kind 1;
  if b && kind_eqb k L_PAREN then
    start_node_at cp MACRO_CALL;;
    bump BANG;;
    skip_trivia;;
    token_tree;;
    finish_node;;
    mret NonCallable
  else
    nsl ← gets no_struct_literal;
    l ← at_kind L_BRACE;
    sl ← lookahead_is_struct_literal;
    if negb nsl && l && sl then
      start_node_at cp STRUCT_EXPR;;
      bump L_BRACE;;
      skip_trivia;;
      while_ (q ← at_kind R_BRACE; e ← at_kind EOF;
              if negb q && negb e then
                start_node STRUCT_FIELD_EXPR;;
                name;;
                (d ← eat COLON; if d : bool then expr c;; skip_trivia else mret tt);;
                finish_node;;
                eat COMMA
              else mret false);;
      expect R_BRACE;;
      finish_node;;
      mret NonCallable
    else mret Callable.

Definition lambda_expr : P bool :=
  start_node LAMBDA_EXPR;;
  bump FN_KW;;
  skip_trivia;;
  fn_params c;;
  skip_trivia;;
  (b ← eat THIN_ARROW;
   if b : bool then
     start_node RET_TYPE;; type_expr c;; finish_node;; skip_trivia
   else mret tt);;
  (b ← at_kind L_BRACE;
   if b : bool then block c else error "expected '{' to start lambda body");;
  finish_node;;
  mret true.

Definition run_expr : P bool :=
  start_node RUN_EXPR;; bump RUN_KW;; skip_trivia;; expr c;; finish_node;; mret true.

(** [return] and [break]: the keyword and an optional operand. *)
Definition jump_expr (node kw : SyntaxKind) : P (option PrimaryShape) :=
  start_node node;;
  bump kw;;
  skip_trivia;;
  (k ← peek; if can_start_expr k then expr c;; mret tt else mret tt);;
  finish_node;;
  mret (Some NonCallable).

(** [detach] and [join]: the keyword and an operand. *)
Definition keyword_expr (node kw : SyntaxKind) : P (option PrimaryShape) :=
  start_node node;; bump kw;; skip_trivia;; expr c;; finish_node;; mret (Some NonCallable).

Definition primary : P (option PrimaryShape) :=
  skip_trivia;;
  k ← peek;
  match k with
  | INT_LITERAL | HEX_INT_LITERAL | BIN_INT_LITERAL | OCT_INT_LITERAL | FLOAT_LITERAL
  | STRING_LITERAL | CHAR_LITERAL | TRUE_KW | FALSE_KW | DURATION_LITERAL | SIZE_LITERAL =>
      start_node LITERAL_EXPR;; bump_any;; finish_node;; mret (Some NonCallable)
  | HTML_LITERAL =>
      start_node HTML_EXPR;; bump HTML_LITERAL;; finish_node;; mret (Some NonCallable)
  | L_PAREN => r ← paren_or_tuple; mret (Some r)
  | L_BRACK => r ← array_lit; mret (Some r)
  | L_BRACE => r ← block_or_map_or_struct; mret (Some r)
  | IF_KW => if_expr c;; mret (Some NonCallable)
  | MATCH_KW => match_expr c;; mret (Some NonCallable)
  | FOR_KW => for_expr c;; mret (Some NonCallable)
  | WHILE_KW => while_expr c;; mret (Some NonCallable)
  | LOOP_KW => loop_expr c;; mret (Some NonCallable)
  | RETURN_KW => jump_expr RETURN_EXPR RETURN_KW
  | BREAK_KW => jump_expr BREAK_EXPR BREAK_KW
  | CONTINUE_KW =>
      start_node CONTINUE_EXPR;; bump CONTINUE_KW;; finish_node;; mret (Some NonCallable)
  | UNSAFE_KW => unsafe_block c;; mret (Some NonCallable)
  | ARENA_KW => arena_block c;; mret (Some NonCallable)
  | TASK_KW =>
      k' ← next_nontrivia_kind 1;
      task_scope_or_call c;;
      mret (Some (if kind_eqb k' DOT then Callable else NonCallable))
  | SANDBOX_KW => sandbox_block c;; mret (Some NonCallable)
  | DETACH_KW => keyword_expr DETACH_EXPR DETACH_KW
  | JOIN_KW => keyword_expr JOIN_EXPR JOIN_KW
  | FN_KW => lambda_expr;; mret (Some Callable)
  | RUN_KW => run_expr;; mret (Some NonCallable)
  | IDENT =>
      text ← cur_text;
      la ← lookahead_is_budget_block;
      if String.eqb text "budget" && la then
        budget_block c;; mret (Some NonCallable)
      else r ← path_expr_or_call; mret (Some r)
  | SELF_KW =>
      start_node PATH_EXPR;;
      start_node PATH;;
      start_node PATH_SEGMENT;;
      start_node NAME_REF;;
      bump SELF_KW;;
      finish_node;;
      finish_node;;
      finish_node;;
      finish_node;;
      skip_trivia;;
      mret (Some Callable)
  | _ => mret None
  end.

Definition unary_or_primary_body : P (option PrimaryShape) :=
  skip_trivia;;
  k ← peek;
  match k with
  | MINUS | BANG | STAR =>
      start_node UNARY_EXPR;;
      bump_any;;
      skip_trivia;;
      expr_bp c PREFIX_BP;;
      finish_node;;
      mret (Some NonCallable)
  | AMP =>
      start_node BORROW_EXPR;;
      bump AMP;;
      skip_trivia;;
      eat MUT_KW;;
      unary_or_primary c;;
      finish_node;;
      mret (Some NonCallable)
  | MOVE_KW =>
      start_node MOVE_EXPR;;
      bump MOVE_KW;;
      skip_trivia;;
      unary_or_primary c;;
      finish_node;;
      mret (Some Callable)
  | SPAWN_KW =>
      start_node SPAWN_EXPR;;
      bump SPAWN_KW;;
      skip_trivia;;
      eat TASK_KW;;
      expr c;;
      finish_node;;
      mret (Some NonCallable)
  | _ => primary
  end.

Definition not_callable_msg : string :=
  "expected operator before `(` — to call an arithmetic or boolean expression, bind it to a `let` first (Mighty does not auto-apply parens to non-callable values)".

(** The tail of [?Msg(args)] and [!Msg(args)]. *)
Definition message_tail (tok : SyntaxKind) : P unit :=
  bump tok;;
  skip_trivia;;
  name;;
  (b ← at_kind L_PAREN; if b : bool then args else mret tt);;
  finish_node.

Definition try_postfix (cp : Checkpoint) (prev : PrimaryShape) : P (option PrimaryShape) :=
  skip_trivia;;
  k ← peek;
  match k with
  | DOT =>
      after_dot ← next_nontrivia_index 1;
      name_kind ← next_nontrivia_kind 1;
      if negb (kind_eqb name_kind IDENT || is_keyword name_kind) then mret None else
      m ← next_nontrivia_from (after_dot + 1);
      if kind_eqb m L_PAREN then
        start_node_at cp METHOD_CALL_EXPR;;
        bump DOT;;
        skip_trivia;;
        name_or_keyword;;
        args;;
        finish_node;;
        mret (Some Callable)
      else
        start_node_at cp FIELD_EXPR;;
        bump DOT;;
        skip_trivia;;
        name_or_keyword;;
        finish_node;;
        mret (Some Callable)
  | L_PAREN =>
      if negb (bool_decide (prev = Callable)) then error not_callable_msg;; mret None else
      start_node_at cp CALL_EXPR;;
      args;;
      finish_node;;
      mret (Some Callable)
  | L_BRACK =>
      start_node_at cp INDEX_EXPR;;
      bump L_BRACK;;
      skip_trivia;;
      expr c;;
      skip_trivia;;
      expect R_BRACK;;
      finish_node;;
      mret (Some Callable)
  | QUESTION =>
      next ← next_nontrivia_kind_same_line 1;
      if kind_eqb next IDENT then
        start_node_at cp ASK_EXPR;;
        message_tail QUESTION;;
        mret (Some Callable)
      else
        start_node_at cp QUESTION_EXPR;;
        bump QUESTION;;
        finish_node;;
        mret (Some Callable)
  | BANG =>
      next ← next_nontrivia_kind_same_line 1;
      if kind_eqb next IDENT then
        start_node_at cp SEND_EXPR;;
        message_tail BANG;;
        mret (Some NonCallable)
      else mret None
  | AT =>
      start_node_at cp DEADLINE_EXPR;;
      bump AT;;
      skip_trivia;;
      (b ← at_kind DURATION_LITERAL;
       if b : bool then
         start_node LITERAL_EXPR;; bump DURATION_LITERAL;; finish_node
       else expr c;; mret tt);;
      finish_node;;
      mret (Some prev)
  | _ => mret None
  end.

(** One round of the operator loop of [expr_bp]. *)
Definition expr_round (cp : Checkpoint) (min_bp : nat) (shape : PrimaryShape) :
    P (PrimaryShape + PrimaryShape) :=
  skip_trivia;;
  next ← try_postfix cp shape;
  match next with
  | Some next_shape => mret (inl next_shape)
  | None =>
      op ← infix_bp;
      match op with
      | None => mret (inr shape)
      | Some op_bp =>
          if op_bp <? min_bp then mret (inr shape) else
          k ← peek;
          if kind_eqb k AS_KW then
            start_node_at cp CAST_EXPR;;
            bump AS_KW;;
            skip_trivia;;
            (t ← type_expr c;
             if negb t then error "expected type after `as`" else mret tt);;
            finish_node;;
            mret (inl Callable)
          else
            let right_bp := if infix_right_assoc k then op_bp else op_bp + 1 in
            start_node_at cp BINARY_EXPR;;
            bump_any;;
            skip_trivia;;
            expr_bp c right_bp;;
            finish_node;;
            mret (inl NonCallable)
      end
  end.

Definition expr_bp_body (min_bp : nat) : P (option PrimaryShape) :=
  skip_trivia;;
  cp ← checkpoint;
  first ← unary_or_primary_body;
  match first with
  | None => mret None
  | Some shape => r ← loop_ (expr_round cp min_bp) shape; mret (Some r)
  end.

End exprs.
End Exprs.

(** ** The knot *)

Definition no_calls : Calls :=
  mkCalls out_of_fuel (λ _, out_of_fuel) out_of_fuel out_of_fuel out_of_fuel.

Fixpoint grammar (n : nat) : Calls :=
  match n with
  | 0 => no_calls
  | S n =>
      let c := grammar n in
      mkCalls (Types.type_expr_body c) (Exprs.expr_bp_body c) (Exprs.unary_or_primary_body c)
        (Patterns.pattern_body c) (Stmts.block_body c)
  end.
