(* ===== verification/GrammarExprsSafe.v ===== *)
(** * The productions of [GrammarExprs] are safe *)

From stdpp Require Import base list strings numbers sets.
From S2P Require Import Prelude ParserCore GrammarTypes ParserLogic.
From S2P Require Import GrammarTypesSafe GrammarExprs.

Definition gain_attr {A} (k : SyntaxKind) (a : A) : Prop := k = HASH ∨ k = DERIVE_KW.
#[export] Hint Unfold gain_attr : gains.

Section prods.
Context (T : list Token) (cap : N) (wfT : wf_tokens T) (n : nat) (c : Calls).
Context (ok : CallsOk T cap n c).
Import Paths Types Params Stmts Concurrency Exprs.

Lemma attribute_safe : safe T cap any_kind n 0 gain_attr attribute.
Proof.
  prod_intro. unfold attribute. pstep.
  pblock_gain (λ _ : unit, kind_at T p = HASH ∨ kind_at T p = DERIVE_KW); solve_prod.
Qed.
Hint Resolve attribute_safe : prod.

Lemma param_safe : safe T cap any_kind n 2 no_gain (param c).
Proof. by_prod param. Qed.
Hint Resolve param_safe : prod.

Lemma fn_params_safe : safe T cap any_kind n 2 (gain_kind L_PAREN) (fn_params c).
Proof. by_prod fn_params. Qed.
Hint Resolve fn_params_safe : prod.

Lemma let_stmt_safe : safe T cap (kind_is LET_KW) n 0 gain_always (let_stmt c).
Proof. by_prod let_stmt. Qed.
Hint Resolve let_stmt_safe : prod.

Lemma expr_start_safe : safe T cap (λ k, can_start_expr k = true) n 2 gain_always (expr c).
Proof. by_prod expr. Qed.

Lemma let_head_safe : safe T cap any_kind n 0 no_gain (let_head c).
Proof. by_prod let_head. Qed.
Hint Resolve let_head_safe : prod.

Lemma block_item_gain b m0 K p s :
  St T cap b (m0 :: K) p s → kind_at T p ≠ EOF → 3 * (length T - p) + 2 ≤ n →
  wp (k ← peek;
      if kind_eqb k LET_KW then let_stmt c
      else if negb (can_start_expr k) then
        error "expected statement or expression";; bump_any
      else start_node EXPR_STMT;; expr c;; eat SEMI;; finish_node)
    (λ _ s', ∃ p', p ≤ p' ∧ St T cap b (m0 :: K) p' s' ∧ (True → p < p')) s.
Proof.
  intros HS Hk Hn. pstep. psplit; [solve_prod|]. psplit; [solve_prod|].
  pstep. apply wp_bind. eapply wp_safe; [by eapply expr_start_safe|exact HS|done|lia|].
  clear HS. intros ? ? ? ? ? HS. solve_prod.
Qed.

Lemma block_body_safe b m0 K p s :
  St T cap b (m0 :: K) p s → 
  (kind_at T p = L_BRACE → 3 * (length T - p) ≤ n) →
  (kind_at T p ≠ L_BRACE → 3 * (length T - p) + 2 ≤ n) →
  wp (block_body c) (λ _ s', ∃ p', p ≤ p' ∧ St T cap b (m0 :: K) p' s'
                                   ∧ (kind_at T p = L_BRACE → p < p')) s.
Proof.
  intros HS Hb Hn. unfold block_body. pstep. pstep.
  assert (3 * (length T - p') + 2 ≤ n) as Hn'.
  { destruct (decide (kind_at T p = L_BRACE)) as [E|E]; [|specialize (Hn E); lia].
    specialize (Hb E). pose proof (st_lt _ _ _ _ _ _ HS). specialize (H2 E). lia. }
  pstep. pstep; cycle 1; [solve_prod|].
  pblock_gain (λ _ : unit, True); [|solve_prod]. apply block_item_gain; [done..|lia].
Qed.

Lemma with_nsl_safe {A} pre need g x (f : P A) :
  safe T cap pre n need g f → safe T cap pre n need g (with_nsl x f).
Proof.
  intros Hf b m0 K p s HS Hpre Hn.
  eapply (wp_with_nsl T cap b _ p s HS x f _
            (λ a s', ∃ p', p ≤ p' ∧ St T cap x (m0 :: K) p' s' ∧ (g (kind_at T p) a → p < p'))).
  - intros s' HS'. by apply Hf.
  - intros a s' (p' & Hp & HS' & Hg). exists p'. split; [done|]. intros s'' HS''.
    exists p'. by split_and!.
Qed.

Lemma no_struct_expr_safe :
  safe T cap any_kind n 2 gain_true (with_no_struct_literal (expr c)).
Proof. apply with_nsl_safe. by apply expr_safe. Qed.
Hint Resolve no_struct_expr_safe : prod.

Lemma ok_block' : safe T cap any_kind n 3 (gain_kind L_BRACE) (block c).
Proof. apply ok. Qed.
Hint Resolve ok_block' : prod.

Lemma finish_nodes_wp k b K p s :
  St T cap b (replicate k [] ++ K) p s → K ≠ [] →
  wp (finish_nodes k) (λ _ s', St T cap b K p s') s.
Proof.
  intros HS HK. revert s HS. induction k as [|k IH]; intros s HS; [done|].
  simpl. apply wp_bind. destruct K as [|m0 K]; [done|].
  destruct k as [|k]; simpl in HS;
    (eapply wp_finish_node; [exact wfT|exact HS|]); intros s' HS'; [done|by apply IH].
Qed.

(** The chain [if .. else if .. else] opens one node per [if] and closes
    them all at the end. *)
Lemma if_expr_safe : safe T cap (kind_is IF_KW) n 0 gain_always (if_expr c).
Proof.
  prod_intro. unfold if_expr. apply wp_bind.
  eapply (wp_loop T _ (λ k q s, p ≤ q ∧ kind_at T q = IF_KW
                               ∧ St T cap b (replicate k [] ++ m0 :: K) q s)).
  - intros k q s' (_ & _ & HS'). apply (st_lt _ _ _ _ _ _ HS').
  - apply (st_tokens _ _ _ _ _ _ HS).
  - by split_and!.
  - clear HS s. intros k q s (Hq & Hif & HS).
    assert (∀ q' s', p < q' → St T cap b (replicate (S k) [] ++ m0 :: K) q' s' →
      wp (finish_nodes (S k);; mret true)
        (λ (a : bool) s', ∃ p', p ≤ p' ∧ St T cap b (m0 :: K) p' s'
           ∧ (gain_always (kind_at T p) a → p < p')) s') as Hend.
    { intros q' s' Hlt HS'. apply wp_bind. eapply wp_mono; [by apply finish_nodes_wp|].
      intros [] s'' HS''. apply wp_ret. exists q'. split; [lia|]. by split. }
    simpl in Hend. remember (replicate k [] ++ m0 :: K) as F eqn:HF.
    destruct F as [|m1 F]; [by destruct k|].
    do 8 pstep.
    { apply wp_ret. eapply Hend; [|exact HS]. lia. }
    do 2 pstep; [pstep; apply wp_ret; eapply Hend; [|exact HS]; lia|].
    apply wp_ret. eexists. split; [|split; [|split; [eassumption|]]]; [| |].
    3: { simpl. rewrite <- HF. exact HS. } all: lia.
Qed.
Hint Resolve if_expr_safe : prod.

Lemma match_arm_safe : safe T cap any_kind n 3 no_gain (match_arm c).
Proof. by_prod match_arm. Qed.
Hint Resolve match_arm_safe : prod.

Lemma match_expr_safe : safe T cap (kind_is MATCH_KW) n 0 gain_always (match_expr c).
Proof. by_prod match_expr. Qed.

Lemma for_expr_safe : safe T cap (kind_is FOR_KW) n 0 gain_always (for_expr c).
Proof. by_prod for_expr. Qed.

Lemma while_expr_safe : safe T cap (kind_is WHILE_KW) n 0 gain_always (while_expr c).
Proof. by_prod while_expr. Qed.

Lemma loop_expr_safe : safe T cap (kind_is LOOP_KW) n 0 gain_always (loop_expr c).
Proof. by_prod loop_expr. Qed.

Lemma unsafe_block_safe : safe T cap (kind_is UNSAFE_KW) n 0 gain_always (unsafe_block c).
Proof. by_prod unsafe_block. Qed.

Lemma arena_block_safe : safe T cap (kind_is ARENA_KW) n 0 gain_always (arena_block c).
Proof. by_prod arena_block. Qed.

Lemma task_scope_or_call_safe :
  safe T cap (kind_is TASK_KW) n 0 gain_always (task_scope_or_call c).
Proof. by_prod task_scope_or_call. Qed.

Lemma budget_block_safe : safe T cap (kind_is IDENT) n 0 gain_always (budget_block c).
Proof. by_prod budget_block. Qed.

Lemma sandbox_block_safe : safe T cap (kind_is SANDBOX_KW) n 0 gain_always (sandbox_block c).
Proof. by_prod sandbox_block. Qed.
Hint Resolve match_expr_safe for_expr_safe while_expr_safe loop_expr_safe unsafe_block_safe
  arena_block_safe task_scope_or_call_safe budget_block_safe sandbox_block_safe : prod.

(** ** Productions whose next token is known from a lookahead *)

Lemma wp_name b m0 K p s (Q : bool → PState → Prop) :
  St T cap b (m0 :: K) p s → kind_at T p = IDENT →
  (∀ s', St T cap b (m0 :: K) (nontrivia_index T (S p)) s' → Q true s') → wp name Q s.
Proof.
  intros HS Hk HQ. unfold name. do 5 pstep.
  apply wp_bind. eapply wp_skip_trivia; [exact wfT|exact HS|]. intros s'' HS'. by apply HQ.
Qed.

Lemma wp_name_or_keyword b m0 K p s (Q : bool → PState → Prop) :
  St T cap b (m0 :: K) p s → kind_eqb (kind_at T p) IDENT || is_keyword (kind_at T p) = true →
  (∀ s', St T cap b (m0 :: K) (nontrivia_index T (S p)) s' → Q true s') →
  wp name_or_keyword Q s.
Proof.
  intros HS Hk HQ. unfold name_or_keyword. pstep.
  rewrite <- negb_orb, Hk. cbn [negb]. pstep. apply wp_bind. prim wp_bump_any HS.
  { intros E. by rewrite E in Hk. }
  clear HS. intros _ ? HS. pstep.
  apply wp_bind. eapply wp_skip_trivia; [exact wfT|exact HS|]. intros s'' HS'. by apply HQ.
Qed.

Lemma token_tree_safe : safe T cap (kind_is L_PAREN) n 0 gain_always token_tree.
Proof.
  prod_intro. unfold token_tree. do 4 pstep. apply wp_bind.
  eapply (wp_loop T _ (λ _ q s, S p ≤ q ∧ St T cap b ([] :: m0 :: K) q s)).
  - intros ? ? ? (_ & HS'). apply (st_lt _ _ _ _ _ _ HS').
  - apply (st_tokens _ _ _ _ _ _ HS).
  - by split_and!.
  - clear HS. intros d q s1 (Hq & HS).
    do 2 pstep; [pstep|solve_prod].
    match goal with |- wp _ ?Q _ => assert (D : ∀ d' : Z, wp (bump_any;; mret (inl d')) Q s1) end.
    { intros d'. do 2 pstep. exists (S q). split; [lia|]. split; [lia|done]. }
    destruct (kind_at T q) eqn:Ek; try apply D.
    clear D. pblock_gain (λ _ : unit, True); [solve_prod|].
    pstep. eexists. split; [|split; [|exact HS]]; lia.
Qed.
Hint Resolve token_tree_safe : prod.

Lemma arg_safe : safe T cap any_kind n 2 no_gain (arg c).
Proof.
  prod_intro. unfold arg. do 3 pstep; [|solve_prod].
  pstep. apply wp_bind. eapply wp_name; [exact HS|done|]. clear HS. intros ? HS.
  pose proof (nontrivia_index_ge T (S p)).
  assert (kind_at T (nontrivia_index T (S p)) = COLON) by (rewrite <- Nat.add_1_r; done).
  solve_prod.
Qed.
Hint Resolve arg_safe : prod.

Lemma args_safe : safe T cap (kind_is L_PAREN) n 0 gain_always (args c).
Proof. by_prod args. Qed.
Hint Resolve args_safe : prod.

Lemma array_lit_safe : safe T cap (kind_is L_BRACK) n 0 gain_always (array_lit c).
Proof. by_prod array_lit. Qed.
Hint Resolve array_lit_safe : prod.

Lemma paren_or_tuple_safe : safe T cap (kind_is L_PAREN) n 0 gain_always (paren_or_tuple c).
Proof.
  prod_intro. unfold paren_or_tuple. do 5 pstep; [solve_prod|].
  eapply (wp_with_nsl T cap b _ _ _ HS false _ _
            (λ a s', ∃ q, p < q ∧ St T cap false ((cp :: m0) :: K) q s')).
  - clear HS. intros ? HS. solve_prod.
  - clear HS. intros ? ? (q & Hq & HS). exists q. split; [exact HS|].
    clear HS. intros ? HS. solve_prod.
Qed.
Hint Resolve paren_or_tuple_safe : prod.

Lemma block_or_map_or_struct_safe :
  safe T cap (kind_is L_BRACE) n 1 gain_always (block_or_map_or_struct c).
Proof.
  prod_intro. unfold block_or_map_or_struct. do 5 pstep; [solve_prod|].
  apply wp_bind. eapply wp_safe; [by apply (ok_block_brace _ _ _ _ ok)|exact HS|done|lia|].
  clear HS. intros ? ? ? ? Hg HS. specialize (Hg I). solve_prod.
Qed.
Hint Resolve block_or_map_or_struct_safe : prod.

(** The lookaheads only read the state. *)
Lemma wp_lookahead_struct (Q : bool → PState → Prop) s :
  (∀ r, Q r s) → wp lookahead_is_struct_literal Q s.
Proof. intros HQ. apply HQ. Qed.

Lemma wp_lookahead_budget (Q : bool → PState → Prop) s :
  (∀ r, Q r s) → wp lookahead_is_budget_block Q s.
Proof. intros HQ. apply HQ. Qed.

Lemma path_expr_or_call_safe :
  safe T cap (kind_is IDENT) n 0 gain_always (path_expr_or_call c).
Proof.
  prod_intro. unfold path_expr_or_call. do 9 pstep.
  - (* a macro call *)
    pstep. apply wp_bind. eapply wp_skip_trivia; [exact wfT|exact HS|].
    clear HS. intros ? HS. pose proof (nontrivia_index_ge T (S p'0)).
    assert (kind_at T (nontrivia_index T (S p'0)) = L_PAREN) by (rewrite <- Nat.add_1_r; done).
    solve_prod.
  - pstep. apply wp_bind, wp_lookahead_struct. intros sl. solve_prod.
Qed.
Hint Resolve path_expr_or_call_safe : prod.

Lemma lambda_expr_safe : safe T cap (kind_is FN_KW) n 0 gain_always (lambda_expr c).
Proof. by_prod lambda_expr. Qed.

Lemma run_expr_safe : safe T cap (kind_is RUN_KW) n 0 gain_always (run_expr c).
Proof. by_prod run_expr. Qed.

Lemma jump_expr_safe node kw :
  kw ≠ EOF → safe T cap (kind_is kw) n 0 gain_always (jump_expr c node kw).
Proof. intros Hkw. by_prod jump_expr. Qed.

Lemma keyword_expr_safe node kw :
  kw ≠ EOF → safe T cap (kind_is kw) n 0 gain_always (keyword_expr c node kw).
Proof. intros Hkw. by_prod keyword_expr. Qed.
Hint Resolve lambda_expr_safe run_expr_safe jump_expr_safe keyword_expr_safe : prod.

Definition starts_primary (k : SyntaxKind) : bool :=
  can_start_expr k && negb (kind_in k [MINUS; BANG; STAR; AMP; MOVE_KW; SPAWN_KW]).

Definition gain_primary {A} (k : SyntaxKind) (a : option A) : Prop :=
  is_Some a ∨ starts_primary k = true.

(** The default branch of [primary] and [unary_or_primary]. *)
Lemma no_primary {A} (f : SyntaxKind → bool) b m0 K p q s :
  p ≤ q → St T cap b (m0 :: K) q s → f (kind_at T q) = false →
  wp (mret None) (λ (a : option A) s', ∃ p', p ≤ p' ∧ St T cap b (m0 :: K) p' s'
        ∧ (is_Some a ∨ f (kind_at T p) = true → p < p')) s.
Proof.
  intros Hq HS Hf. apply wp_ret. exists q. split; [done|]. split; [done|].
  intros [[? [=]]|Hp]. destruct (decide (p = q)) as [->|]; [congruence|lia].
Qed.

Ltac solve_kinds f :=
  lazymatch goal with |- wp (match kind_at ?T ?q with _ => _ end) ?Q ?s =>
    let D := fresh "D" in
    assert (D : f (kind_at T q) = false → wp (mret None) Q s)
      by (eapply (no_primary f); eassumption);
    revert D; destruct (kind_at T q) eqn:?; intros D;
    first [exact (D eq_refl) | clear D; solve_prod]
  end.

Lemma primary_safe : safe T cap any_kind n 1 gain_primary (primary c).
Proof.
  prod_intro. unfold primary. do 2 pstep. solve_kinds starts_primary.
  apply wp_bind, wp_lookahead_budget. intros la. solve_prod.
Qed.
Hint Resolve primary_safe : prod.

Lemma unary_or_primary_body_safe :
  safe T cap any_kind n 1 gain_some (unary_or_primary_body c).
Proof.
  prod_intro. unfold unary_or_primary_body. do 2 pstep.
  assert (D : kind_in (kind_at T p') [MINUS; BANG; STAR; AMP; MOVE_KW; SPAWN_KW] = false →
    wp (primary c) (λ a s', ∃ q, p ≤ q ∧ St T cap b (m0 :: K) q s'
          ∧ (gain_some (kind_at T p) a → p < q)) s').
  { intros Hk. eapply wp_safe; [exact primary_safe|exact HS|done|lia|].
    intros a q s1 Hq Hg HS1. exists q. split; [lia|]. split; [done|].
    intros Ha. destruct (decide (p = p')) as [->|]; [|lia]. apply Hg.
    destruct Ha as [Ha|Ha]; [by left|right]. unfold starts_primary. by rewrite Ha, Hk. }
  revert D. destruct (kind_at T p') eqn:?; intros D;
    first [exact (D eq_refl) | clear D; solve_prod].
Qed.

Lemma message_tail_wp tok b m1 m0 K p s :
  tok ≠ EOF → St T cap b (m1 :: m0 :: K) p s → kind_at T p = tok →
  3 * (length T - p) + 0 ≤ n →
  wp (message_tail c tok) (λ _ s', ∃ q, p < q ∧ St T cap b (m0 :: K) q s') s.
Proof. intros Ht HS Hk Hn. unfold message_tail. solve_prod. Qed.

(** [.name(args)] after the lookaheads of [try_postfix]. *)
Lemma method_tail_wp b m1 m0 K p s :
  St T cap b (m1 :: m0 :: K) p s → kind_at T p = DOT →
  kind_eqb (nontrivia_kind T (p + 1)) IDENT || is_keyword (nontrivia_kind T (p + 1)) = true →
  nontrivia_kind T (nontrivia_index T (p + 1) + 1) = L_PAREN →
  3 * (length T - p) + 0 ≤ n →
  wp (bump DOT;; skip_trivia;; name_or_keyword;; args c;; finish_node;; mret (Some Callable))
    (λ _ s', ∃ q, p < q ∧ St T cap b (m0 :: K) q s') s.
Proof.
  rewrite !Nat.add_1_r. intros HS Hk Hname Hparen Hn. pstep.
  apply wp_bind. eapply wp_skip_trivia; [exact wfT|exact HS|]. clear HS. intros ? HS.
  apply wp_bind. eapply wp_name_or_keyword; [exact HS|exact Hname|]. clear HS. intros ? HS.
  pose proof (nontrivia_index_ge T (S p)).
  pose proof (nontrivia_index_ge T (S (nontrivia_index T (S p)))).
  assert (kind_at T (nontrivia_index T (S (nontrivia_index T (S p)))) = L_PAREN)
    by exact Hparen.
  solve_prod.
Qed.

(** A postfix operator that is taken consumes at least one token. *)
Lemma try_postfix_wp cp b m0 K p s prev :
  cp_ok cp m0 → St T cap b (m0 :: K) p s → 3 * (length T - p) + 0 ≤ n →
  wp (try_postfix c cp prev) (λ r s', ∃ q, p ≤ q ∧ St T cap b (m0 :: K) q s'
        ∧ (is_Some r → p < q)) s.
Proof.
  intros Hcp HS Hn. unfold try_postfix. do 2 pstep.
  match goal with |- wp _ ?Q ?s => assert (D : wp (mret None) Q s) end.
  { pstep. exists p'. split; [done|]. split; [done|]. by intros []. }
  destruct (kind_at T p') eqn:Ek; first [exact D | clear D; lazymatch type of Ek with
    | _ = DOT => idtac
    | _ => repeat pstep; try pfinish
    end].
  2-3: apply wp_bind; eapply wp_mono;
    [eapply message_tail_wp; [discriminate|eassumption|eassumption|lia]|];
    intros ? ? (q & ? & ?); pstep; pfinish.
  do 3 pstep; [pstep; pfinish|]. do 2 pstep; [pstep|solve_prod].
  eapply wp_mono; [eapply method_tail_wp; try eassumption; [by apply orb_true_iff|lia]|].
  intros ? ? (q & ? & ?). pfinish.
Qed.

(** ** The operator loop *)

Lemma infix_not_eof k bp : infix_bp_of k = Some bp → k ≠ EOF.
Proof. by intros H ->. Qed.

Lemma expr_round_wp cp min_bp shape b m0 K p s :
  cp_ok cp m0 → St T cap b (m0 :: K) p s → 3 * (length T - p) + 0 ≤ n →
  wp (expr_round c cp min_bp shape) (λ r s', ∃ q, p ≤ q ∧ St T cap b (m0 :: K) q s'
        ∧ match r with inl _ => p < q | inr _ => True end) s.
Proof.
  intros Hcp HS Hn. unfold expr_round. pstep. apply wp_bind.
  eapply wp_mono; [eapply try_postfix_wp; [exact Hcp|exact HS|lia]|].
  clear HS. intros next s1 (q & Hq & HS & Hg).
  destruct next as [next|]; cbv beta iota.
  { pstep. exists q. specialize (Hg ltac:(done)). split; [lia|]. by split; [|lia]. }
  clear Hg. apply wp_bind. unfold infix_bp. do 2 pstep.
  destruct (infix_bp_of (kind_at T q)) as [op_bp|] eqn:Hop; [|solve_prod].
  apply infix_not_eof in Hop.
  pstep; [solve_prod|]. do 2 pstep; solve_prod.
Qed.

Lemma expr_bp_body_safe min_bp : safe T cap any_kind n 1 gain_some (expr_bp_body c min_bp).
Proof.
  prod_intro. unfold expr_bp_body. do 2 pstep.
  apply wp_bind. eapply wp_safe; [exact unary_or_primary_body_safe|exact HS|done|lia|].
  clear HS. intros first q s1 Hq Hg HS.
  assert (is_Some first ∨ can_start_expr (kind_at T p) = true → p < q) as Hlt.
  { intros Ha. destruct (decide (p = p')) as [->|]; [by apply Hg|lia]. }
  destruct first as [shape|]; cbv beta iota; [|solve_prod].
  specialize (Hlt ltac:(by left)). apply wp_bind.
  eapply (wp_loop T _ (λ _ q' s, q ≤ q' ∧ St T cap b ((cp :: m0) :: K) q' s)).
  - intros ? ? ? (_ & HS'). apply (st_lt _ _ _ _ _ _ HS').
  - apply (st_tokens _ _ _ _ _ _ HS).
  - by split.
  - clear HS. intros shape' q' s2 [Hq' HS]. eapply wp_mono.
    { eapply (expr_round_wp cp); [exact Hcp|exact HS|lia]. }
    intros [shape2|shape2] s3 (q2 & ? & HS2 & ?).
    + exists q2. by split_and!; [|lia|].
    + pstep. exists q2. split; [lia|]. split; [by eapply St_forget|lia].
Qed.
End prods.

(** ** The knot *)

Theorem grammar_ok T cap n : wf_tokens T → CallsOk T cap n (grammar n).
Proof.
  intros wfT. induction n as [|n IH].
  - split; intros; intros b m0 K p s HS; pose proof (st_lt _ _ _ _ _ _ HS); lia.
  - assert (forall A pre need g (m : P A), safe T cap pre n need g m →
                      safe T cap pre (S n) (S need) g m) as Hsafe.
    { intros A pre need g m Hm b m0 K p s HS Hpre Hn. apply Hm; [done|done|lia]. }
    split; simpl.
    + by apply Hsafe, type_expr_body_safe.
    + intros bp. by apply Hsafe, expr_bp_body_safe.
    + by apply Hsafe, unary_or_primary_body_safe.
    + by apply Hsafe, pattern_body_safe.
    + intros b m0 K p s HS _ Hn. eapply wp_mono; [eapply (block_body_safe T cap wfT n); done || lia|].
      done.
    + intros b m0 K p s HS Hk Hn. eapply wp_mono; [eapply (block_body_safe T cap wfT n); try done; lia|].
      intros ? ? (q & ? & ? & ?). exists q. by split_and!; auto.
Qed.
