(* ===== verification/GrammarItems.v ===== *)
(** * Items, agents, extern blocks, macros and the entry points

    [items.rs], [agents.rs], [extern_.rs] and [macros.rs] of
    [crates/mty-syntax/src/parser/], and [parse_file], [parse_type],
    [parse_pattern] and [parse_expr] of [mod.rs].  A production that wraps
    everything since a checkpoint takes it as its first argument. *)

From stdpp Require Import base list strings numbers.
From S2P Require Import Prelude ParserCore GrammarTypes GrammarExprs.

(** [names_list]: [if !p.at(R_PAREN) { name; while p.eat(COMMA) { .. name } }] *)
Definition names_list : P unit := comma_list R_PAREN Paths.name.

Module Items.
Import Paths Types Params Exprs.
Section items.
Context (c : Calls).

(** [requires <expr>] clauses before a function body. *)
Definition requires_clauses : P unit :=
  while_ (r ← eat REQUIRES_KW;
          if r : bool then expr c;; skip_trivia;; mret true else mret false).

Definition ret_type : P unit :=
  r ← eat THIN_ARROW;
  if r : bool then
    start_node RET_TYPE;; type_expr c;; finish_node;; skip_trivia
  else mret tt.

Definition fn_decl_pub (cp : Checkpoint) : P unit :=
  start_node_at cp FN_DECL;;
  eat UNSAFE_KW;;
  expect FN_KW;;
  skip_trivia;;
  name;;
  generic_params c;;
  fn_params c;;
  ret_type;;
  effect_clause;;
  requires_clauses;;
  skip_trivia;;
  (e ← eat EQ;
   if e : bool then expr c;; eat SEMI;; mret tt else
   l ← at_kind L_BRACE;
   if l : bool then block c else eat SEMI;; mret tt);;
  finish_node;;
  skip_trivia.

(** [tool_attr_prefix_ahead] *)
Definition tool_attr_prefix_ahead : P bool :=
  gets (λ s,
    let i := nontrivia_index (tokens s) (pos s + 1) in
    let j := nontrivia_index (tokens s) (i + 1) in
    kind_eqb (kind_at (tokens s) i) IDENT && kind_eqb (kind_at (tokens s) j) L_PAREN).

(** One argument of a [@name(..)] attribute. *)
Definition attr_arg : P unit :=
  a ← at_kind CAP_KW;
  i ← at_kind IDENT;
  text ← cur_text;
  k ← next_nontrivia_kind 1;
  if (a || (i && String.eqb text "cap")) && kind_eqb k COLON then
    start_node TOOL_ATTR_CAP_ARG;;
    start_node NAME;;
    bump_any;;
    finish_node;;
    skip_trivia;;
    bump COLON;;
    skip_trivia;;
    expr c;;
    finish_node
  else if i && kind_eqb k COLON then
    start_node NAMED_ARG;;
    name;;
    skip_trivia;;
    bump COLON;;
    skip_trivia;;
    expr c;;
    finish_node
  else start_node ARG;; expr c;; finish_node.

Definition attr_args : P unit :=
  start_node TOOL_ATTR_ARGS;;
  expect L_PAREN;;
  skip_trivia;;
  while_ (r ← at_kind R_PAREN; e ← at_kind EOF;
          if negb r && negb e then
            before ← gets pos;
            attr_arg;;
            skip_trivia;;
            (m ← eat COMMA;
             if negb m then mret false else
             skip_trivia;;
             progress_guard before "unexpected token in @attribute arguments";;
             mret true)
          else mret false);;
  expect R_PAREN;;
  finish_node.

(** Returns the span and the name of the attribute. *)
Definition attr_at : P (nat * nat * string) :=
  t ← cur;
  start_node TOOL_ATTR;;
  bump AT;;
  skip_trivia;;
  i ← at_kind IDENT;
  text ← cur_text;
  let attr_name := if i : bool then text else EmptyString in
  name;;
  skip_trivia;;
  attr_args;;
  attr_end ← gets (λ s, match tokens s !! pos s with
                        | Some e => t_start e
                        | None => t_start t
                        end);
  finish_node;;
  skip_trivia;;
  (if negb (String.eqb attr_name "tool") && negb (String.eqb attr_name "computer_use")
      && negb (String.eqb attr_name "")
   then error_at_code 1003 (MUnknownAttr attr_name) (t_start t) attr_end
   else mret tt);;
  mret (t_start t, attr_end, attr_name).

Definition sandbox_decl (cp : Checkpoint) : P unit :=
  start_node_at cp SANDBOX_BLOCK;;
  bump SANDBOX_KW;;
  skip_trivia;;
  (b ← at_kind IDENT; if b : bool then name;; mret tt else mret tt);;
  (b ← at_kind WITH_KW; if b : bool then bump WITH_KW;; skip_trivia else mret tt);;
  expect L_BRACE;;
  skip_trivia;;
  until_ R_BRACE
    (before ← gets pos;
     start_node SANDBOX_ENTRY;;
     path c;;
     (b ← eat EQ; if b : bool then expr c;; mret tt else mret tt);;
     finish_node;;
     eat COMMA;;
     skip_trivia;;
     progress_guard before "unexpected token in sandbox body");;
  expect R_BRACE;;
  skip_trivia;;
  (b ← at_kind L_BRACE; if b : bool then block c else mret tt);;
  finish_node;;
  skip_trivia.

(** The [{a, b as c}] of a [use] declaration: the source's [loop]. *)
Definition use_names : P unit :=
  while_ (r ← at_kind R_BRACE;
          if r : bool then mret false else
          name;;
          (a ← eat AS_KW; if a : bool then name;; mret tt else mret tt);;
          eat COMMA).

Definition use_decl (cp : Checkpoint) : P unit :=
  start_node_at cp USE_DECL;;
  bump USE_KW;;
  skip_trivia;;
  path c;;
  (d ← at_kind DOT;
   k ← peek_n 1;
   if d && kind_eqb k L_BRACE then
     bump DOT;;
     bump L_BRACE;;
     skip_trivia;;
     use_names;;
     expect R_BRACE;;
     mret tt
   else
     a ← eat AS_KW;
     if a : bool then name;; mret tt else mret tt);;
  eat SEMI;;
  finish_node;;
  skip_trivia.

(** [mod_decl] and [package_decl]: a keyword and a path. *)
Definition path_decl (node kw : SyntaxKind) (cp : Checkpoint) : P unit :=
  start_node_at cp node;;
  bump kw;;
  skip_trivia;;
  path c;;
  eat SEMI;;
  finish_node;;
  skip_trivia.

Definition mod_decl : Checkpoint → P unit := path_decl MOD_DECL MOD_KW.
Definition package_decl : Checkpoint → P unit := path_decl PACKAGE_DECL PACKAGE_KW.

Definition struct_decl (cp : Checkpoint) : P unit :=
  start_node_at cp STRUCT_DECL;;
  bump STRUCT_KW;;
  skip_trivia;;
  name;;
  generic_params c;;
  expect L_BRACE;;
  skip_trivia;;
  start_node STRUCT_FIELD_LIST;;
  until_ R_BRACE
    (before ← gets pos;
     start_node STRUCT_FIELD;;
     name;;
     (b ← eat COLON; if b : bool then type_expr c;; mret tt else mret tt);;
     finish_node;;
     eat COMMA;;
     skip_trivia;;
     progress_guard before "unexpected token in struct body");;
  finish_node;;
  expect R_BRACE;;
  finish_node;;
  skip_trivia.

Definition enum_decl (cp : Checkpoint) : P unit :=
  start_node_at cp ENUM_DECL;;
  bump ENUM_KW;;
  skip_trivia;;
  name;;
  generic_params c;;
  expect L_BRACE;;
  skip_trivia;;
  start_node ENUM_VARIANT_LIST;;
  until_ R_BRACE
    (before ← gets pos;
     start_node ENUM_VARIANT;;
     name;;
     (b ← eat L_PAREN;
      if b : bool then
        type_expr c;;
        sep_list COMMA R_PAREN (type_expr c);;
        expect R_PAREN;;
        mret tt
      else mret tt);;
     finish_node;;
     eat COMMA;;
     skip_trivia;;
     progress_guard before "unexpected token in enum body");;
  finish_node;;
  expect R_BRACE;;
  finish_node;;
  skip_trivia.

Definition type_alias (cp : Checkpoint) : P unit :=
  start_node_at cp TYPE_ALIAS;;
  bump TYPE_KW;;
  skip_trivia;;
  name;;
  generic_params c;;
  expect EQ;;
  type_expr c;;
  eat SEMI;;
  finish_node;;
  skip_trivia.

(** [if p.at(PUB_KW) { VISIBILITY }] *)
Definition visibility : P unit :=
  b ← at_kind PUB_KW;
  if b : bool then
    start_node VISIBILITY;; bump PUB_KW;; finish_node;; skip_trivia
  else mret tt.

(** [p.at(FN_KW) || (p.at(UNSAFE_KW) && next_nontrivia_after(p, p.pos + 1) == FN_KW)] *)
Definition at_fn : P bool :=
  f ← at_kind FN_KW;
  u ← at_kind UNSAFE_KW;
  k ← next_nontrivia_kind 1;
  mret (f || (u && kind_eqb k FN_KW)).

Definition impl_member : P unit :=
  before ← gets pos;
  icp ← checkpoint;
  visibility;;
  (f ← at_fn;
   if f : bool then fn_decl_pub icp else
   t ← at_kind TYPE_KW;
   if t : bool then type_alias icp else
   error "expected fn or type alias in impl";; bump_any;; skip_trivia);;
  progress_guard before "unexpected token in impl body".

Definition impl_block (cp : Checkpoint) : P unit :=
  start_node_at cp IMPL_BLOCK;;
  bump IMPL_KW;;
  skip_trivia;;
  generic_params c;;
  type_expr c;;
  (b ← eat FOR_KW; if b : bool then type_expr c;; mret tt else mret tt);;
  expect L_BRACE;;
  skip_trivia;;
  until_ R_BRACE impl_member;;
  expect R_BRACE;;
  finish_node;;
  skip_trivia.

Definition trait_member : P unit :=
  before ← gets pos;
  cp2 ← checkpoint;
  visibility;;
  (f ← at_fn;
   if f : bool then
     start_node_at cp2 TRAIT_METHOD;; fn_decl_pub cp2;; finish_node
   else error "expected fn in trait";; bump_any;; skip_trivia);;
  progress_guard before "unexpected token in trait body".

Definition trait_decl (cp : Checkpoint) : P unit :=
  start_node_at cp TRAIT_DECL;;
  bump TRAIT_KW;;
  skip_trivia;;
  name;;
  generic_params c;;
  expect L_BRACE;;
  skip_trivia;;
  until_ R_BRACE trait_member;;
  expect R_BRACE;;
  finish_node;;
  skip_trivia.

Definition const_decl (cp : Checkpoint) : P unit :=
  start_node_at cp CONST_DECL;;
  bump CONST_KW;;
  skip_trivia;;
  name;;
  expect COLON;;
  type_expr c;;
  expect EQ;;
  expr c;;
  eat SEMI;;
  finish_node;;
  skip_trivia.

End items.
End Items.

Module Agents.
Import Paths Types Exprs Items.
Section agents.
Context (c : Calls).

(** [type_expr] separated by [+]: protocol lists and compositions. *)
Definition plus_types : P unit := type_expr c;; sep_list1 PLUS (type_expr c).

Definition ctor_params : P unit :=
  start_node AGENT_CTOR_PARAMS;;
  bump L_PAREN;;
  skip_trivia;;
  names_list;;
  expect R_PAREN;;
  finish_node;;
  skip_trivia.

Definition on_handler (cp : Checkpoint) : P unit :=
  start_node_at cp ON_HANDLER;;
  bump ON_KW;;
  skip_trivia;;
  name;;
  (b ← eat L_PAREN; if b : bool then names_list;; expect R_PAREN;; mret tt else mret tt);;
  skip_trivia;;
  (a ← eat THIN_ARROW;
   if a : bool then expr c;; mret tt else
   l ← at_kind L_BRACE;
   if l : bool then block c else mret tt);;
  finish_node;;
  skip_trivia.

Definition state_decl (cp : Checkpoint) : P unit :=
  start_node_at cp AGENT_STATE_DECL;;
  eat STATE_KW;;
  name;;
  (b ← eat COLON; if b : bool then type_expr c;; mret tt else mret tt);;
  (b ← eat EQ; if b : bool then expr c;; mret tt else mret tt);;
  eat SEMI;;
  finish_node;;
  skip_trivia.

Definition agent_member : P unit :=
  cp ← checkpoint;
  o ← at_kind ON_KW;
  if o : bool then on_handler cp else
  f ← at_fn;
  if f : bool then fn_decl_pub c cp else
  st ← at_kind STATE_KW;
  i ← at_kind IDENT;
  k ← next_nontrivia_kind 1;
  if st || (i && (kind_eqb k EQ || kind_eqb k COLON)) then state_decl cp else
  error "expected agent member (`on`, `fn`, or state field)";;
  bump_any.

Definition agent_decl (cp : Checkpoint) : P unit :=
  start_node_at cp AGENT_DECL;;
  bump AGENT_KW;;
  skip_trivia;;
  name;;
  (b ← at_kind L_PAREN; if b : bool then ctor_params else mret tt);;
  (b ← eat COLON;
   if b : bool then start_node AGENT_PROTOCOL_LIST;; plus_types;; finish_node else mret tt);;
  expect L_BRACE;;
  skip_trivia;;
  until_ R_BRACE (agent_member;; skip_trivia);;
  expect R_BRACE;;
  finish_node;;
  skip_trivia.

Definition proto_param : P unit :=
  start_node FN_PARAM;;
  name;;
  (b ← eat COLON; if b : bool then type_expr c;; mret tt else mret tt);;
  finish_node;;
  skip_trivia.

Definition protocol_msg : P unit :=
  start_node PROTOCOL_MSG;;
  name;;
  expect L_PAREN;;
  comma_list R_PAREN proto_param;;
  expect R_PAREN;;
  (b ← eat THIN_ARROW; if b : bool then type_expr c;; mret tt else mret tt);;
  finish_node;;
  skip_trivia.

(** The contextual version tag [v<digits>]. *)
Definition is_version_tag (text : string) : bool :=
  match text with
  | String a rest =>
      Ascii.eqb a (Ascii.ascii_of_nat 118) && negb (String.eqb rest "") && string_forallb is_ascii_digit rest
  | EmptyString => false
  end.

Definition protocol_decl (cp : Checkpoint) : P unit :=
  start_node_at cp PROTOCOL_DECL;;
  bump PROTOCOL_KW;;
  skip_trivia;;
  name;;
  generic_params c;;
  (i ← at_kind IDENT;
   if i : bool then
     text ← cur_text;
     if is_version_tag text then name;; mret tt else mret tt
   else mret tt);;
  (e ← eat EQ;
   if e : bool then plus_types else
   l ← at_kind L_BRACE;
   if l : bool then
     bump L_BRACE;;
     skip_trivia;;
     until_ R_BRACE
       (before ← gets pos;
        protocol_msg;;
        skip_trivia;;
        progress_guard before "unexpected token in protocol body");;
     expect R_BRACE;;
     mret tt
   else mret tt);;
  finish_node;;
  skip_trivia.

Definition sup_arg : P unit :=
  i ← at_kind IDENT;
  k ← next_nontrivia_kind 1;
  (if i && kind_eqb k COLON then
     start_node NAMED_ARG;; name;; bump COLON;; skip_trivia;; expr c;; finish_node
   else start_node ARG;; expr c;; finish_node);;
  skip_trivia.

Definition sup_action : P unit :=
  r ← eat RESTART_KW;
  if r : bool then
    u ← eat UP_TO_KW;
    if u : bool then expr c;; expect IN_KW;; expr c;; mret tt else mret tt
  else
    b ← eat BACKOFF_KW;
    if b : bool then expr c;; mret tt else
    error "expected restart or backoff";; bump_any.

Definition sup_body : P unit :=
  o ← at_kind ON_FAIL_KW;
  if o : bool then
    start_node ON_FAIL_CLAUSE;;
    bump ON_FAIL_KW;;
    skip_trivia;;
    expect L_PAREN;;
    name;;
    expect R_PAREN;;
    expect L_BRACE;;
    skip_trivia;;
    until_ R_BRACE (sup_action;; eat SEMI;; skip_trivia);;
    expect R_BRACE;;
    finish_node;;
    skip_trivia
  else
    start_node SUP_CHILD;;
    eat CHILD_KW;;
    name;;
    expect EQ;;
    expr c;;
    eat SEMI;;
    finish_node;;
    skip_trivia.

Definition supervisor_decl (cp : Checkpoint) : P unit :=
  start_node_at cp SUPERVISOR_DECL;;
  (b ← at_kind SUP_KW; if b : bool then bump SUP_KW else bump_any);;
  skip_trivia;;
  name;;
  (b ← eat L_PAREN;
   if b : bool then comma_list R_PAREN sup_arg;; expect R_PAREN;; mret tt else
   i ← at_kind IDENT;
   if i : bool then name;; mret tt else mret tt);;
  expect L_BRACE;;
  skip_trivia;;
  until_ R_BRACE
    (before ← gets pos;
     sup_body;;
     skip_trivia;;
     progress_guard before "unexpected token in supervisor body");;
  expect R_BRACE;;
  finish_node;;
  skip_trivia.

End agents.
End Agents.

Module Extern.
Import Paths Types Params Exprs Items.
Section extern.
Context (c : Calls).

(** [consume_brace_balanced]; [depth] is a [usize] that never underflows. *)
Definition consume_brace_balanced : P unit :=
  b ← at_kind L_BRACE;
  if negb b then mret tt else
  bump L_BRACE;;
  loop_ (λ depth : nat,
    e ← at_kind EOF;
    if (0 <? depth) && negb e then
      k ← peek;
      match k with
      | L_BRACE => bump_any;; mret (inl (depth + 1))
      | R_BRACE => bump_any;; mret (inl (depth - 1))
      | _ => bump_any;; mret (inl depth)
      end
    else mret (inr tt)) 1;;
  skip_trivia.

Definition variadic_marker : P unit :=
  start_node VARIADIC_MARKER;; bump DOT_DOT_DOT;; finish_node;; skip_trivia.

Definition fn_params_with_variadic : P unit :=
  start_node FN_PARAM_LIST;;
  expect L_PAREN;;
  skip_trivia;;
  (r ← at_kind R_PAREN;
   if r : bool then mret tt else
   v ← at_kind DOT_DOT_DOT;
   if v : bool then variadic_marker else
   param c;;
   while_ (m ← eat COMMA;
           if negb m then mret false else
           skip_trivia;;
           (r ← at_kind R_PAREN;
            if r : bool then mret false else
            v ← at_kind DOT_DOT_DOT;
            if v : bool then variadic_marker;; mret false else param c;; mret true)));;
  expect R_PAREN;;
  finish_node;;
  skip_trivia.

Definition extern_fn : P unit :=
  start_node EXTERN_FN;;
  expect FN_KW;;
  skip_trivia;;
  name;;
  fn_params_with_variadic;;
  ret_type c;;
  effect_clause;;
  eat SEMI;;
  finish_node;;
  skip_trivia.

Definition extern_block (cp : Checkpoint) : P unit :=
  start_node_at cp EXTERN_BLOCK;;
  bump EXTERN_KW;;
  skip_trivia;;
  (i ← at_kind IDENT; if i : bool then name;; mret tt else mret tt);;
  expect L_BRACE;;
  skip_trivia;;
  until_ R_BRACE
    (before ← gets pos;
     extern_fn;;
     skip_trivia;;
     progress_guard before "unexpected token in extern block");;
  expect R_BRACE;;
  finish_node;;
  skip_trivia.

Definition component_decl : P unit :=
  bump_any;;
  skip_trivia;;
  (i ← at_kind IDENT; if i : bool then name;; mret tt else mret tt);;
  (l ← at_kind L_BRACE; if l : bool then consume_brace_balanced else mret tt).

Definition export_decl (cp : Checkpoint) : P unit :=
  start_node_at cp EXPORT_DECL;;
  bump EXPORT_KW;;
  skip_trivia;;
  (i ← at_kind IDENT;
   text ← cur_text;
   if i && negb (String.eqb text "component") then name;; mret tt else mret tt);;
  (f ← at_fn;
   if f : bool then icp ← checkpoint; fn_decl_pub c icp else
   i ← at_kind IDENT;
   text ← cur_text;
   if i && String.eqb text "component" then component_decl
   else error "expected `fn` or `component` after `export`");;
  finish_node;;
  skip_trivia.

(** [macros::macro_decl] *)
Definition macro_decl (cp : Checkpoint) : P unit :=
  start_node_at cp MACRO_DECL;;
  bump MACRO_KW;;
  skip_trivia;;
  name;;
  expect L_PAREN;;
  skip_trivia;;
  names_list;;
  expect R_PAREN;;
  skip_trivia;;
  expect FAT_ARROW;;
  skip_trivia;;
  consume_brace_balanced;;
  finish_node;;
  skip_trivia.

(** [macros::proc_macro_decl] *)
Definition proc_macro_decl (cp : Checkpoint) : P unit :=
  start_node_at cp PROC_MACRO_DECL;;
  bump_any;;
  skip_trivia;;
  expect MACRO_KW;;
  skip_trivia;;
  name;;
  skip_trivia;;
  expect L_PAREN;;
  skip_trivia;;
  (r ← at_kind R_PAREN;
   if r : bool then mret tt else
   name;;
   skip_trivia;;
   (k ← eat COLON;
    if k : bool then skip_trivia;; type_expr c;; skip_trivia else mret tt);;
   eat COMMA;;
   skip_trivia);;
  expect R_PAREN;;
  skip_trivia;;
  (a ← eat THIN_ARROW;
   if a : bool then
     start_node RET_TYPE;; skip_trivia;; type_expr c;; finish_node;; skip_trivia
   else mret tt);;
  consume_brace_balanced;;
  finish_node;;
  skip_trivia.

End extern.
End Extern.

Module Entry.
Import Params Items Agents Extern.
Section entry.
Context (c : Calls).

Definition AttrSpan : Set := nat * nat * string.

(** The [@name(..)] prefixes; the result is the last one's span, if any. *)
Definition attr_prefixes : P (option AttrSpan) :=
  loop_ (λ span : option AttrSpan,
    a ← at_kind AT;
    t ← tool_attr_prefix_ahead;
    if a && t then r ← attr_at c; skip_trivia;; mret (inl (Some r))
    else mret (inr span)) None.

(** MT1004: the attribute precedes something other than [fn], [agent] or
    [protocol]. *)
Definition check_attr_target (span : option AttrSpan) : P unit :=
  match span with
  | None => mret tt
  | Some (s, e, name) =>
      k ← peek;
      k' ← next_nontrivia_kind 1;
      if kind_in k [FN_KW; AGENT_KW; PROTOCOL_KW] || (kind_eqb k UNSAFE_KW && kind_eqb k' FN_KW)
      then mret tt
      else error_at_code 1004
             (MAttrTarget (if String.eqb name "" then "<unknown>" else name)) s e
  end.

(** The dispatch on the first kind of an item. *)
Definition item_decl (cp : Checkpoint) : P bool :=
  k ← peek;
  match k with
  | USE_KW => use_decl c cp;; mret true
  | MOD_KW => mod_decl c cp;; mret true
  | PACKAGE_KW => package_decl c cp;; mret true
  | FN_KW => fn_decl_pub c cp;; mret true
  | UNSAFE_KW =>
      k' ← next_nontrivia_kind 1;
      if kind_eqb k' FN_KW then fn_decl_pub c cp;; mret true else mret false
  | STRUCT_KW => struct_decl c cp;; mret true
  | ENUM_KW => enum_decl c cp;; mret true
  | TYPE_KW => type_alias c cp;; mret true
  | IMPL_KW => impl_block c cp;; mret true
  | TRAIT_KW => trait_decl c cp;; mret true
  | CONST_KW => const_decl c cp;; mret true
  | AGENT_KW => agent_decl c cp;; mret true
  | PROTOCOL_KW => protocol_decl c cp;; mret true
  | SUP_KW => supervisor_decl c cp;; mret true
  | IDENT =>
      text ← cur_text;
      k' ← next_nontrivia_kind 1;
      if String.eqb text "supervisor" then supervisor_decl c cp;; mret true
      else if String.eqb text "proc" && kind_eqb k' MACRO_KW
      then proc_macro_decl c cp;; mret true
      else mret false
  | EXTERN_KW => extern_block c cp;; mret true
  | EXPORT_KW => export_decl c cp;; mret true
  | MACRO_KW => macro_decl cp;; mret true
  | SANDBOX_KW => sandbox_decl c cp;; mret true
  | _ => mret false
  end.

(** [items::item] *)
Definition item : P bool :=
  skip_trivia;;
  cp ← checkpoint;
  while_ (h ← at_kind HASH;
          d ← at_kind DERIVE_KW;
          if h || d then attribute;; skip_trivia;; mret true else mret false);;
  span ← attr_prefixes;
  visibility;;
  check_attr_target span;;
  item_decl cp.

(** The loop of [Parser::parse_file]. *)
Definition file_items : P unit :=
  while_ (e ← at_kind EOF;
          if e : bool then mret false else
          i ← item;
          (if i : bool then mret tt else
           t ← cur;
           error_at (MUnexpected (t_text t)) (t_start t) (t_end t);;
           bump_any;;
           skip_trivia);;
          mret true).

Definition parse_file_body `{OverflowChecks} : P unit :=
  pre_lex_scan;;
  start_node FILE;;
  skip_trivia;;
  file_items;;
  finish_node.

(** The shape of [parse_type], [parse_pattern] and [parse_expr]. *)
Definition parse_one {A} (m : P A) : P unit :=
  start_node FILE;; skip_trivia;; m;; finish_node.

End entry.
End Entry.

(** ** Entry points

    [ParseResult] keeps the builder's calls in place of the green tree that
    [GreenNodeBuilder::finish] makes of them.  [parse_fuel] levels of recursion
    are enough for [toks]; the theorems of [ParserTheorems] prove it. *)

Record ParseResult := mkResult {
  green : list BuilderCall;
  r_errors : list ParseError;
  r_no_struct_literal : bool
}.

(** [Parser::with_opts] on the lexed tokens. *)
Definition new_parser (toks : list Token) (max : N) : PState :=
  mkP toks 0 [] [] false max.

Definition parse_fuel (toks : list Token) : nat := 3 * length toks + 3.

Definition run_parser {A} (m : Calls → P A) (toks : list Token) (max : N) : Res ParseResult :=
  match m (grammar (parse_fuel toks)) (new_parser toks max) with
  | Done _ s => Done (mkResult (rev (calls s)) (rev (errors s)) (no_struct_literal s)) s
  | Panic => Panic
  | OutOfFuel => OutOfFuel
  end.

(** [usize::MAX], the default of [ParseOpts]. *)
Definition usize_max : N := 2 ^ 64 - 1.

Definition parse_with_opts `{OverflowChecks} (toks : list Token) (max : N) : Res ParseResult :=
  run_parser (λ c, Entry.parse_file_body c) toks max.
Definition parse `{OverflowChecks} (toks : list Token) : Res ParseResult := parse_with_opts toks usize_max.
Definition parse_type (toks : list Token) : Res ParseResult :=
  run_parser (λ c, Entry.parse_one (type_expr c)) toks usize_max.
Definition parse_pattern (toks : list Token) : Res ParseResult :=
  run_parser (λ c, Entry.parse_one (pattern c)) toks usize_max.
Definition parse_expr (toks : list Token) : Res ParseResult :=
  run_parser (λ c, Entry.parse_one (Types.expr c)) toks usize_max.
