(* ===== verification/GrammarItemsSafe.v ===== *)
(** * The productions of [GrammarItems] and the parser's entry points are safe *)

From stdpp Require Import base list strings numbers sets.
From S2P Require Import Prelude ParserCore GrammarTypes ParserLogic GrammarTypesSafe GrammarExprs GrammarExprsSafe GrammarItems.

#[export] Hint Resolve attribute_safe fn_params_safe param_safe ok_block' : prod.

Ltac prod_at_intro := intros cp b m0 K p s Hcp HS Hpre Hn; cbv [kind_is any_kind] in Hpre.
Ltac by_prod_at f := prod_at_intro; unfold f; solve_prod.

(** The kinds a function declaration starts with. *)
Definition fn_start (k : SyntaxKind) : Prop := k = FN_KW ∨ k = UNSAFE_KW.
(** The kinds a body member can start with: the loop stops at the others. *)
Definition in_body (k : SyntaxKind) : Prop := k ≠ R_BRACE ∧ k ≠ EOF.
#[export] Hint Unfold fn_start in_body : gains.

Section prods.
Context (T : list Token) (cap : N) (wfT : wf_tokens T) (n : nat) (c : Calls).
Context (ok : CallsOk T cap n c).
Import Paths Types Params Exprs Items Agents Extern.

Lemma names_list_safe : safe T cap any_kind n 0 no_gain names_list.
Proof. by_prod names_list. Qed.
Hint Resolve names_list_safe : prod.

Lemma requires_clauses_safe : safe T cap any_kind n 0 no_gain (requires_clauses c).
Proof. by_prod requires_clauses. Qed.

Lemma ret_type_safe : safe T cap any_kind n 0 no_gain (ret_type c).
Proof. by_prod ret_type. Qed.
Hint Resolve requires_clauses_safe ret_type_safe : prod.

Lemma fn_decl_pub_safe : safe_at T cap any_kind n 3 fn_start (fn_decl_pub c).
Proof. by_prod_at fn_decl_pub. Qed.
Hint Resolve fn_decl_pub_safe : prod.

(** [bump] of a token that a lookahead has seen behind the trivia. *)
Lemma wp_skip_bump {A} (m : P A) k k' b m0 K p s Q :
  St T cap b (m0 :: K) (S p) s → nontrivia_kind T (p + 1) = k' → k' ≠ EOF →
  (∀ s', St T cap b (m0 :: K) (S (nontrivia_index T (S p))) s' → wp m Q s') →
  k = k' →
  wp (skip_trivia;; bump k;; m) Q s.
Proof.
  rewrite Nat.add_1_r. intros HS Hk Hne HQ ->.
  apply wp_bind. eapply wp_skip_trivia; [exact wfT|exact HS|]. clear HS. intros ? HS.
  apply wp_bind. eapply wp_bump; [exact wfT|exact HS|done|done|]. exact HQ.
Qed.

Lemma attr_arg_safe : safe T cap any_kind n 2 no_gain (attr_arg c).
Proof.
  prod_intro. unfold attr_arg. do 4 pstep.
  destruct ((_ || _) && _) eqn:E1.
  { assert (kind_at T p ≠ EOF) by (intros Hk; rewrite Hk in E1; done).
    apply andb_true_iff in E1 as [_ E1%kind_eqb_eq].
    pstep. pstep. apply wp_bind. prim wp_bump_any HS; [done|]. clear HS. intros _ ? HS.
    pstep. eapply wp_skip_bump; [exact HS|exact E1|done| |done].
    clear HS. intros ? HS. pose proof (nontrivia_index_ge T (S p)). solve_prod. }
  pstep; [|solve_prod].
  pstep. apply wp_bind. eapply (wp_name T cap wfT); [exact HS|done|]. clear HS. intros ? HS.
  pose proof (nontrivia_index_ge T (S p)).
  assert (is_trivia (kind_at T (nontrivia_index T (S p))) = false)
    by apply nontrivia_kind_not_trivia.
  apply wp_bind. eapply wp_skip_trivia; [exact wfT|exact HS|].
  rewrite nontrivia_index_stop by done. clear HS. intros ? HS.
  assert (kind_at T (nontrivia_index T (S p)) = COLON) by (rewrite <- Nat.add_1_r; done).
  solve_prod.
Qed.
Hint Resolve attr_arg_safe : prod.

Lemma attr_args_safe : safe T cap any_kind n 2 no_gain (attr_args c).
Proof. by_prod attr_args. Qed.
Hint Resolve attr_args_safe : prod.

Lemma attr_at_safe : safe T cap (kind_is AT) n 0 gain_always (attr_at c).
Proof. by_prod attr_at. Qed.

Lemma sandbox_decl_safe : safe_at T cap (kind_is SANDBOX_KW) n 0 any_kind (sandbox_decl c).
Proof. by_prod_at sandbox_decl. Qed.

Lemma use_names_safe : safe T cap any_kind n 0 no_gain use_names.
Proof. by_prod use_names. Qed.
Hint Resolve use_names_safe : prod.

Lemma use_decl_safe : safe_at T cap (kind_is USE_KW) n 0 any_kind (use_decl c).
Proof. by_prod_at use_decl. Qed.

Lemma path_decl_safe node kw :
  kw ≠ EOF → safe_at T cap (kind_is kw) n 0 any_kind (path_decl c node kw).
Proof. intros Hkw. by_prod_at path_decl. Qed.

Lemma struct_decl_safe : safe_at T cap (kind_is STRUCT_KW) n 0 any_kind (struct_decl c).
Proof. by_prod_at struct_decl. Qed.

Lemma enum_decl_safe : safe_at T cap (kind_is ENUM_KW) n 0 any_kind (enum_decl c).
Proof. by_prod_at enum_decl. Qed.

Lemma type_alias_safe : safe_at T cap (kind_is TYPE_KW) n 0 any_kind (type_alias c).
Proof. by_prod_at type_alias. Qed.

Lemma const_decl_safe : safe_at T cap (kind_is CONST_KW) n 0 any_kind (const_decl c).
Proof. by_prod_at const_decl. Qed.
Hint Resolve type_alias_safe : prod.

Lemma visibility_safe : safe T cap any_kind n 0 (gain_kind PUB_KW) visibility.
Proof. by_prod visibility. Qed.
Hint Resolve visibility_safe : prod.

(** [at_fn] reads the state; a [true] tells what the current kind is. *)
Lemma wp_at_fn b K p s (Q : bool → PState → Prop) :
  St T cap b K p s → (∀ r, (r = true → fn_start (kind_at T p)) → Q r s) → wp at_fn Q s.
Proof.
  intros HS HQ. unfold at_fn. repeat (apply wp_bind; phead). apply wp_ret, HQ.
  intros [Hk%kind_eqb_eq|[Hk%kind_eqb_eq _]%andb_true_iff]%orb_true_iff; [by left|by right].
Qed.


Lemma impl_member_safe : safe T cap in_body n 3 gain_always (impl_member c).
Proof.
  prod_intro. destruct Hpre as [_ Hpre]. unfold impl_member. do 3 pstep.
  pblock; [|solve_prod].
  apply wp_bind. eapply wp_at_fn; [exact HS|]. intros f Hf. solve_prod.
Qed.

Lemma trait_member_safe : safe T cap in_body n 3 gain_always (trait_member c).
Proof.
  prod_intro. destruct Hpre as [_ Hpre]. unfold trait_member. do 3 pstep.
  pblock; [|solve_prod].
  apply wp_bind. eapply wp_at_fn; [exact HS|]. intros f Hf. pstep; [|solve_prod].
  pstep. eapply (wp_bind (fn_decl_pub c cp)).
  eapply (wp_safe_at T cap _ n); [apply fn_decl_pub_safe|apply (cp_ok_single T wfT)|exact HS|done|lia|].
  clear HS. intros ? ? ? ? ? HS. solve_prod.
Qed.
Hint Resolve impl_member_safe trait_member_safe : prod.

Lemma impl_block_safe : safe_at T cap (kind_is IMPL_KW) n 0 any_kind (impl_block c).
Proof. by_prod_at impl_block. Qed.

Lemma trait_decl_safe : safe_at T cap (kind_is TRAIT_KW) n 0 any_kind (trait_decl c).
Proof. by_prod_at trait_decl. Qed.

(** ** Agents and supervisors *)

Lemma plus_types_safe : safe T cap any_kind n 2 no_gain (plus_types c).
Proof. by_prod plus_types. Qed.

Lemma ctor_params_safe : safe T cap (kind_is L_PAREN) n 0 gain_always ctor_params.
Proof. by_prod ctor_params. Qed.
Hint Resolve plus_types_safe ctor_params_safe : prod.

Lemma on_handler_safe : safe_at T cap (kind_is ON_KW) n 0 any_kind (on_handler c).
Proof. by_prod_at on_handler. Qed.

Definition state_start (k : SyntaxKind) : Prop := k = STATE_KW ∨ k = IDENT.
Hint Unfold state_start : gains.

Lemma state_decl_safe : safe_at T cap state_start n 2 any_kind (state_decl c).
Proof. by_prod_at state_decl. Qed.
Hint Resolve on_handler_safe state_decl_safe : prod.

Lemma agent_member_safe : safe T cap (λ k, k ≠ EOF) n 3 gain_always (agent_member c).
Proof.
  prod_intro. unfold agent_member. do 3 pstep; [solve_prod|].
  apply wp_bind. eapply wp_at_fn; [exact HS|]. intros f Hf.
  pstep; [solve_prod|]. do 4 pstep; [|solve_prod].
  assert (state_start (kind_at T p)).
  { destruct Eb1 as [?%kind_eqb_eq|[?%kind_eqb_eq _]%andb_true_iff]; [by left|by right]. }
  solve_prod.
Qed.
Hint Resolve agent_member_safe : prod.

Lemma agent_decl_safe : safe_at T cap (kind_is AGENT_KW) n 0 any_kind (agent_decl c).
Proof. by_prod_at agent_decl. Qed.

Lemma proto_param_safe : safe T cap any_kind n 2 no_gain (proto_param c).
Proof. by_prod proto_param. Qed.
Hint Resolve proto_param_safe : prod.

Lemma protocol_msg_safe : safe T cap any_kind n 2 no_gain (protocol_msg c).
Proof. by_prod protocol_msg. Qed.
Hint Resolve protocol_msg_safe : prod.

Lemma protocol_decl_safe : safe_at T cap (kind_is PROTOCOL_KW) n 0 any_kind (protocol_decl c).
Proof. by_prod_at protocol_decl. Qed.

Lemma sup_arg_safe : safe T cap any_kind n 2 no_gain (sup_arg c).
Proof.
  prod_intro. unfold sup_arg. do 2 pstep. pblock; [|solve_prod]. pstep; [|solve_prod].
  pstep. apply wp_bind. eapply (wp_name T cap wfT); [exact HS|done|]. clear HS. intros ? HS.
  pose proof (nontrivia_index_ge T (S p)).
  assert (kind_at T (nontrivia_index T (S p)) = COLON) by (rewrite <- Nat.add_1_r; done).
  solve_prod.
Qed.
Hint Resolve sup_arg_safe : prod.

Lemma sup_action_safe : safe T cap (λ k, k ≠ EOF) n 2 gain_always (sup_action c).
Proof. by_prod sup_action. Qed.
Hint Resolve sup_action_safe : prod.

Lemma sup_body_safe : safe T cap any_kind n 2 no_gain (sup_body c).
Proof. by_prod sup_body. Qed.
Hint Resolve sup_body_safe : prod.

Definition sup_start (k : SyntaxKind) : Prop := k = SUP_KW ∨ k = IDENT.
Hint Unfold sup_start : gains.

Lemma supervisor_decl_safe : safe_at T cap sup_start n 0 any_kind (supervisor_decl c).
Proof.
  prod_at_intro. unfold supervisor_decl. pstep.
  pblock_gain (λ _ : unit, True); [solve_prod|]. solve_prod.
Qed.

(** ** Extern blocks and macros *)

Lemma consume_brace_balanced_safe :
  safe T cap any_kind n 0 (gain_kind L_BRACE) consume_brace_balanced.
Proof.
  prod_intro. unfold consume_brace_balanced. do 2 pstep; [solve_prod|]. pstep. apply wp_bind.
  eapply (wp_loop T _ (λ _ q s, S p ≤ q ∧ St T cap b (m0 :: K) q s)).
  - intros ? ? ? (_ & HS'). apply (st_lt _ _ _ _ _ _ HS').
  - apply (st_tokens _ _ _ _ _ _ HS).
  - by split.
  - clear HS. intros d q s1 (Hq & HS).
    do 2 pstep; [pstep|solve_prod].
    match goal with |- wp _ ?Q _ => assert (D : ∀ d', wp (bump_any;; mret (inl d')) Q s1) end.
    { intros d'. do 2 pstep. exists (S q). split; [lia|]. split; [lia|done]. }
    destruct (kind_at T q) eqn:Ek; apply D.
Qed.
Hint Resolve consume_brace_balanced_safe : prod.

Lemma variadic_marker_safe : safe T cap (kind_is DOT_DOT_DOT) n 0 gain_always variadic_marker.
Proof. by_prod variadic_marker. Qed.
Hint Resolve variadic_marker_safe : prod.

Lemma fn_params_with_variadic_safe :
  safe T cap any_kind n 2 no_gain (fn_params_with_variadic c).
Proof. by_prod fn_params_with_variadic. Qed.
Hint Resolve fn_params_with_variadic_safe : prod.

Lemma extern_fn_safe : safe T cap any_kind n 2 no_gain (extern_fn c).
Proof. by_prod extern_fn. Qed.
Hint Resolve extern_fn_safe : prod.

Lemma extern_block_safe : safe_at T cap (kind_is EXTERN_KW) n 0 any_kind (extern_block c).
Proof. by_prod_at extern_block. Qed.

Lemma component_decl_safe : safe T cap (kind_is IDENT) n 0 gain_always component_decl.
Proof. by_prod component_decl. Qed.
Hint Resolve component_decl_safe : prod.

Lemma export_decl_safe : safe_at T cap (kind_is EXPORT_KW) n 0 any_kind (export_decl c).
Proof.
  prod_at_intro. unfold export_decl. do 3 pstep. pblock; [solve_prod|]. pblock; [|solve_prod].
  apply wp_bind. eapply wp_at_fn; [exact HS|]. intros f Hf. solve_prod.
Qed.

Lemma macro_decl_safe : safe_at T cap (kind_is MACRO_KW) n 0 any_kind macro_decl.
Proof. by_prod_at macro_decl. Qed.

Lemma proc_macro_decl_safe : safe_at T cap (kind_is IDENT) n 0 any_kind (proc_macro_decl c).
Proof. by_prod_at proc_macro_decl. Qed.

(** ** Items *)

Lemma mod_decl_safe : safe_at T cap (kind_is MOD_KW) n 0 any_kind (mod_decl c).
Proof. apply (path_decl_safe MOD_DECL MOD_KW). discriminate. Qed.

Lemma package_decl_safe : safe_at T cap (kind_is PACKAGE_KW) n 0 any_kind (package_decl c).
Proof. apply (path_decl_safe PACKAGE_DECL PACKAGE_KW). discriminate. Qed.

Hint Resolve sandbox_decl_safe use_decl_safe struct_decl_safe enum_decl_safe const_decl_safe
  impl_block_safe trait_decl_safe agent_decl_safe protocol_decl_safe supervisor_decl_safe
  extern_block_safe export_decl_safe macro_decl_safe proc_macro_decl_safe mod_decl_safe
  package_decl_safe attr_at_safe : prod.

Import Entry.

Lemma attr_prefixes_safe : safe T cap any_kind n 0 no_gain (attr_prefixes c).
Proof.
  prod_intro. unfold attr_prefixes.
  eapply (wp_loop T _ (λ _ q s, p ≤ q ∧ St T cap b (m0 :: K) q s)).
  - intros ? ? ? (_ & HS'). apply (st_lt _ _ _ _ _ _ HS').
  - apply (st_tokens _ _ _ _ _ _ HS).
  - by split.
  - clear HS. intros span q s1 [Hq HS]. pstep. apply wp_bind, wp_gets.
    pstep; [|solve_prod]. do 3 pstep. eexists. split; [|split; [|exact HS]]; lia.
Qed.

Lemma check_attr_target_safe span : safe T cap any_kind n 0 no_gain (check_attr_target span).
Proof. prod_intro. destruct span as [[[s0 e0] name]|]; unfold check_attr_target; solve_prod. Qed.
Hint Resolve attr_prefixes_safe check_attr_target_safe : prod.

Lemma item_decl_wp cp b m0 K p s :
  cp_ok cp m0 → St T cap b (m0 :: K) p s → 3 * (length T - p) + 3 ≤ n →
  wp (item_decl c cp) (λ r s', ∃ p', p ≤ p' ∧ St T cap b (m0 :: K) p' s'
                                     ∧ (r = true → p < p')) s.
Proof.
  intros Hcp HS Hn. unfold item_decl. pstep. solve_match.
Qed.

Lemma item_safe : safe T cap any_kind n 3 gain_true (item c).
Proof.
  prod_intro. unfold item. do 3 pstep.
  { do 3 pstep; [|solve_prod]. rewrite !kind_eqb_eq in Eb. solve_prod. }
  do 3 pstep. eapply wp_mono; [eapply item_decl_wp; [exact Hcp|exact HS|lia]|].
  clear HS. intros r ? (q & Hq & HS & Hr). solve_prod.
Qed.
Hint Resolve item_safe : prod.

(** Every round of the file loop consumes a token, and it stops at [EOF]. *)
Lemma file_items_wp b m0 K p s :
  St T cap b (m0 :: K) p s → 3 * (length T - p) + 3 ≤ n →
  wp (file_items c) (λ _ s', ∃ p', St T cap b (m0 :: K) p' s' ∧ kind_at T p' = EOF) s.
Proof.
  intros HS Hn. unfold file_items, while_.
  eapply (wp_loop T _ (λ _ q s, p ≤ q ∧ St T cap b (m0 :: K) q s)).
  - intros ? ? ? (_ & HS'). apply (st_lt _ _ _ _ _ _ HS').
  - apply (st_tokens _ _ _ _ _ _ HS).
  - by split.
  - clear HS. intros _ q s1 [Hq HS]. apply wp_bind, wp_bind. phead.
    destruct (kind_eqb _ _) eqn:E; kind_hyps; [pstep; apply wp_ret; eauto|].
    pstep. pblock_gain (λ _ : unit, q = p').
    + destruct a; solve_prod; eexists; (split; [|split; [exact HS|]]); intros; subst; lia || done.
    + do 2 apply wp_ret. assert (q < p'0) by lia. exists p'0. split_and!; [lia|lia|done].
Qed.
End prods.

(** ** The parser's entry points

    What a run of [parse_with_opts], [parse_type], [parse_pattern] or
    [parse_expr] ends in: the shared lemmas behind [ParserTheorems]. *)

(** The builder's log (oldest call first) follows the protocol, its last call
    closes a node, and that node is the only thing beside the outermost
    position: it describes exactly one finished tree. *)
Definition single_root (log : list BuilderCall) : Prop :=
  ∃ l, rev log = CFinishNode :: l ∧ frames_of (rev log) = Some [[length log; 0]].

(** The text of the leaves the builder was given. *)
Definition green_text (log : list BuilderCall) : string := calls_text (rev log).

(** The number of diagnostics is within the cap. *)
Definition errs_ok (s : PState) : Prop :=
  (N.of_nat (length (errors s)) ≤ max_diagnostics s)%N.

Lemma emit_all_wp sites s (Q : unit → PState → Prop) :
  errs_ok s →
  (∀ es, (N.of_nat (length es) ≤ max_diagnostics s)%N →
     Q tt (mkP (tokens s) (pos s) (calls s) es (no_struct_literal s) (max_diagnostics s))) →
  wp (emit_all sites) Q s.
Proof.
  revert s. induction sites as [|[[[code m] x] y] sites IH]; intros s Hs HQ.
  - destruct s. by apply HQ.
  - simpl. apply wp_bind. unfold wp at 1, error_at_code.
    destruct (_ <=? _)%N eqn:E; [by apply IH|]. apply N.leb_gt in E.
    apply IH; [|exact HQ]. unfold errs_ok in *. simpl. lia.
Qed.

Section entry.
Context (T : list Token) (cap : N) (wfT : wf_tokens T).

(** The state after [FILE] is opened. *)
Lemma wp_start_file s (Q : unit → PState → Prop) :
  tokens s = T → pos s = 0 → calls s = [] → max_diagnostics s = cap → errs_ok s →
  (∀ s', St T cap (no_struct_literal s) [[]] 0 s' → Q tt s') →
  wp (start_node FILE) Q s.
Proof.
  intros Ht Hp Hc Hm He HQ. apply wp_modify, HQ. split; simpl; try done.
  - by apply wf_nonempty.
  - rewrite Hc. split; [done|]. exists [[1]]. split_and!; [done| | |].
    + constructor; [set_solver|done].
    + repeat constructor.
    + eexists _, _. split; [done|]. simpl. set_solver.
  - by rewrite Hc.
  - unfold errs_ok in He. by rewrite Hm in He.
Qed.

(** Closing [FILE] leaves one tree. *)
Lemma wp_finish_file b m0 p s (Q : unit → PState → Prop) :
  St T cap b [m0] p s →
  (∀ s', tokens s' = T → (∃ l, calls s' = CFinishNode :: l ∧ frames_of (calls s') = Some [[length (calls s'); 0]]) →
         calls_text (calls s') = tokens_text (take p T) →
         (N.of_nat (length (errors s')) ≤ cap)%N → no_struct_literal s' = b → Q tt s') →
  wp finish_node Q s.
Proof.
  intros [Ht Hp Hlt Hb Hf Htx Hc He] HQ. apply wp_modify, HQ; simpl; try done.
  destruct Hf as (_ & F & HF & Hk & _). eexists. split; [done|]. rewrite HF. simpl.
  inversion Hk as [|? m ? F' _ Hk']; subst. by inversion Hk'; subst.
Qed.

Lemma take_to_EOF p :
  p < length T → kind_at T p = EOF → tokens_text (take p T) = tokens_text T.
Proof.
  intros Hp Hk. apply (kind_at_EOF_iff T wfT) in Hk as E; [|done].
  destruct (lookup_lt_is_Some_2 T p Hp) as [t Ht].
  rewrite <- (take_ge T (S p)) at 2 by lia. rewrite (take_S_r _ _ _ Ht), tokens_text_app.
  simpl. rewrite (last_text_empty T wfT p t Ht); [by rewrite !string_app_nil_r|].
  by rewrite <- (kind_at_lookup _ _ _ Ht).
Qed.

End entry.

(** What a finished run guarantees; [text] is what its leaves spell. *)
Definition run_ok (max : N) (text : string) (r : ParseResult) : Prop :=
  single_root (green r) ∧ green_text (green r) = text
  ∧ (N.of_nat (length (r_errors r)) ≤ max)%N ∧ r_no_struct_literal r = false.

Lemma run_parser_ok {A} (m : Calls → P A) toks max (R : nat → Prop) :
  wp (m (grammar (parse_fuel toks)))
    (λ _ s, ∃ p, R p
       ∧ (∃ l, calls s = CFinishNode :: l ∧ frames_of (calls s) = Some [[length (calls s); 0]])
       ∧ calls_text (calls s) = tokens_text (take p toks)
       ∧ (N.of_nat (length (errors s)) ≤ max)%N ∧ no_struct_literal s = false)
    (new_parser toks max) →
  ∃ r s p, run_parser m toks max = Done r s ∧ R p ∧ run_ok max (tokens_text (take p toks)) r.
Proof.
  unfold wp, run_parser. destruct (m _ _) as [a s| |]; [|done..].
  intros (p & HR & Hf & Ht & He & Hb). eexists _, s, p. split; [done|]. split; [done|].
  unfold run_ok, single_root, green_text. simpl.
  by rewrite !rev_involutive, !length_rev.
Qed.

(** A file of fewer than 2^31 tokens keeps the depth within an [i32]. *)
Lemma i32_add_in `{OverflowChecks} d e : (- 2 ^ 31 <= d + e < 2 ^ 31)%Z → i32_add d e = Some (d + e)%Z.
Proof.
  intros Hr. unfold i32_add. rewrite Z.mod_small by lia. replace (d + e + 2 ^ 31 - 2 ^ 31)%Z with (d + e)%Z by lia.
  by rewrite Z.eqb_refl, andb_false_r.
Qed.

Lemma i32_add_release d e : is_Some (@i32_add false d e).
Proof. by eexists. Qed.

Lemma pre_lex_total `{OverflowChecks} l d ex :
  (overflow_checks = true → (Z.abs d + Z.of_nat (length l) < 2 ^ 31)%Z) → is_Some (pre_lex_sites l d ex).
Proof.
  revert d ex. induction l as [|t l IH]; intros d ex Hl; [by eexists|].
  assert (∀ e, (Z.abs e <= 1)%Z → ∃ d', i32_add d e = Some d' ∧ ∀ ex', is_Some (pre_lex_sites l d' ex')) as Hadd.
  { intros e He. unfold overflow_checks in *. destruct H.
    - specialize (Hl eq_refl). cbn [length] in Hl. exists (d + e)%Z. split; [apply i32_add_in; lia|].
      intros ex'. apply IH. intros _. lia.
    - destruct (i32_add_release d e) as [d' Hd']. exists d'. split; [done|]. intros ex'. by apply IH. }
  assert (∀ ex', is_Some (pre_lex_sites l d ex')) as Hsame.
  { intros ex'. apply IH. intros Ho. specialize (Hl Ho). cbn [length] in Hl. lia. }
  cbn [pre_lex_sites].
  destruct (Hadd 1%Z) as (d1 & -> & H1); [lia|]. destruct (Hadd (-1)%Z) as (d2 & -> & H2); [lia|]. cbn [mbind option_bind].
  destruct (H1 true) as [r1 ->]. destruct (Hsame ex) as [r Hr].
  destruct (t_kind t); try (by eexists); try (by apply H2);
    try (destruct (_ && _); [by eexists|apply H1]);
    (destruct l as [|next l]; [by eexists|]); rewrite Hr; destruct (_ && _); by eexists.
Qed.

Lemma parse_with_opts_ok `{OverflowChecks} toks max :
  wf_tokens toks → (overflow_checks = true → (Z.of_nat (length toks) < 2 ^ 31)%Z) →
  ∃ r s, parse_with_opts toks max = Done r s ∧ run_ok max (tokens_text toks) r.
Proof.
  intros wfT Hlen.
  destruct (run_parser_ok (λ c, Entry.parse_file_body c) toks max
    (λ p, tokens_text (take p toks) = tokens_text toks)) as (r & s & p & Hr & Hp & Hok).
  - cbv beta. unfold Entry.parse_file_body. apply wp_bind. unfold pre_lex_scan.
    apply wp_bind, wp_gets. change (tokens (new_parser toks max)) with toks. destruct (pre_lex_total toks 0 false) as [sites ->]; [exact Hlen|].
    apply emit_all_wp; [unfold errs_ok; simpl; lia|]. intros es Hes.
    apply wp_bind. eapply wp_start_file; [exact wfT|done..|]. intros s1 HS. simpl in HS.
    apply wp_bind. eapply wp_skip_trivia_neutral; [exact wfT|exact HS|]. clear HS.
    intros p s2 _ HS. apply wp_bind. eapply wp_mono.
    { eapply file_items_wp; [exact wfT|by apply grammar_ok|exact HS|]. unfold parse_fuel. lia. }
    clear HS. intros _ s3 (q & HS & Hq). pose proof (st_lt _ _ _ _ _ _ HS).
    eapply wp_finish_file; [exact wfT|exact HS|]. intros s4 _ Hf Ht He Hb.
    exists q. split; [by apply take_to_EOF|]. by split_and!.
  - eexists r, s. split; [done|]. by rewrite <- Hp.
Qed.

Lemma parse_one_ok {A} (m : Calls → P A) toks max g :
  wf_tokens toks →
  (∀ c n, CallsOk toks max n c → safe toks max any_kind n 2 g (m c)) →
  ∃ r s p, run_parser (λ c, Entry.parse_one (m c)) toks max = Done r s ∧ True
           ∧ run_ok max (tokens_text (take p toks)) r.
Proof.
  intros wfT Hm. apply (run_parser_ok (λ c, Entry.parse_one (m c)) toks max (λ _, True)).
  unfold Entry.parse_one.
  apply wp_bind. eapply wp_start_file; [exact wfT|try done..|].
  { unfold errs_ok. simpl. lia. } intros s1 HS. simpl in HS.
  apply wp_bind. eapply wp_skip_trivia_neutral; [exact wfT|exact HS|]. clear HS.
  intros p s2 _ HS. apply wp_bind. eapply wp_safe.
  { by apply Hm, grammar_ok. } { exact HS. } { done. } { unfold parse_fuel. lia. }
  clear HS. intros a q s3 _ _ HS. eapply wp_finish_file; [exact wfT|exact HS|].
  intros s4 _ Hf Ht He Hb. exists q. by split_and!.
Qed.
