(* ===== verification/GreenBuilder.v ===== *)
(** * The tree builder the parser drives

    [rowan::GreenNodeBuilder] is third-party code.  [GreenBuilder] is the
    interface the parser uses of it, and [GreenBuilderOk] what its
    documentation promises: a sequence of calls that follows the protocol of
    [frames_of] does not panic, and finishing a single root gives a tree whose
    text is the tokens' text.  [TreeBuilder] is an implementation, a stack of
    open nodes over a list of finished children, which shows the interface can
    be implemented and evaluates the examples. *)

From Stdlib Require Import Sorting.Sorted.
From stdpp Require Import base list strings numbers sets.
From S2P Require Import Prelude ParserCore ParserLogic.

Record GreenBuilder := {
  builder : Type;
  gb_green : Type;
  gb_checkpoint : Type;
  gb_new : builder;
  gb_start_node : SyntaxKind → builder → builder;
  gb_token : SyntaxKind → string → builder → builder;
  gb_finish_node : builder → option builder;
  gb_take_checkpoint : builder → gb_checkpoint;
  gb_start_node_at : gb_checkpoint → SyntaxKind → builder → option builder;
  gb_finish : builder → option gb_green;
  gb_text : gb_green → string
}.

Section replay.
Context (G : GreenBuilder).

(** The builder after each call, newest first; the state after [i] calls is
    the one whose checkpoint the parser took there. *)
Definition state_at {A} (bs : list A) (i : nat) : option A := bs !! (length bs - S i).

Definition call_builder (bs : list (builder G)) (c : BuilderCall) (b : builder G) :
    option (builder G) :=
  match c with
  | CStartNode k => Some (gb_start_node G k b)
  | CToken k t => Some (gb_token G k t b)
  | CFinishNode => gb_finish_node G b
  | CStartNodeAt cp k =>
      b0 ← state_at bs cp; gb_start_node_at G (gb_take_checkpoint G b0) k b
  end.

Fixpoint replay (l : list BuilderCall) : option (list (builder G)) :=
  match l with
  | [] => Some [gb_new G]
  | c :: l' =>
      bs ← replay l';
      b ← head bs;
      b' ← call_builder bs c b;
      Some (b' :: bs)
  end.

(** The tree of a finished log, given newest call first. *)
Definition built (l : list BuilderCall) : option (gb_green G) :=
  bs ← replay l; b ← head bs; gb_finish G b.
End replay.

(** What the parser relies on. *)
Class GreenBuilderOk (G : GreenBuilder) : Prop := {
  gb_no_panic l F : frames_of l = Some F → is_Some (replay G l);
  gb_finish_ok l : frames_of (CFinishNode :: l) = Some [[S (length l); 0]] →
    ∃ g, built G (CFinishNode :: l) = Some g ∧ gb_text G g = calls_text (CFinishNode :: l)
}.

(** ** An implementation *)

Inductive Tree : Type :=
  | Leaf (k : SyntaxKind) (text : string)
  | Node (k : SyntaxKind) (children : list Tree).

Fixpoint tree_text (t : Tree) : string :=
  match t with
  | Leaf _ s => s
  | Node _ ts => (fix go ts := match ts with [] => "" | t :: ts => tree_text t +:+ go ts end) ts
  end%string.

Fixpoint trees_text (ts : list Tree) : string :=
  match ts with [] => "" | t :: ts => tree_text t +:+ trees_text ts end%string.

(** Open nodes with the index of their first child, innermost first, and the
    finished children, newest first. *)
Record TB := mkTB { tb_parents : list (SyntaxKind * nat); tb_children : list Tree }.

Definition tb_len (b : TB) : nat := length (tb_children b).

Definition tb_finish_node (b : TB) : option TB :=
  match tb_parents b with
  | [] => None
  | (k, first) :: ps =>
      let n := tb_len b - first in
      Some (mkTB ps (Node k (rev (take n (tb_children b))) :: drop n (tb_children b)))
  end.

Definition tb_start_node_at (cp : nat) (k : SyntaxKind) (b : TB) : option TB :=
  if tb_len b <? cp then None
  else match tb_parents b with
       | (_, first) :: _ => if cp <? first then None
                            else Some (mkTB ((k, cp) :: tb_parents b) (tb_children b))
       | [] => Some (mkTB ((k, cp) :: tb_parents b) (tb_children b))
       end.

Definition tb_finish (b : TB) : option Tree :=
  match tb_children b with [Node k ts] => Some (Node k ts) | _ => None end.

Definition TreeBuilder : GreenBuilder := {|
  gb_new := mkTB [] [];
  gb_start_node k b := mkTB ((k, tb_len b) :: tb_parents b) (tb_children b);
  gb_token k t b := mkTB (tb_parents b) (Leaf k t :: tb_children b);
  gb_finish_node := tb_finish_node;
  gb_take_checkpoint := tb_len;
  gb_start_node_at := tb_start_node_at;
  gb_finish := tb_finish;
  gb_text := tree_text
|}.

Lemma tree_text_node k ts : tree_text (Node k ts) = trees_text ts.
Proof. simpl. induction ts as [|t ts IH]; [done|]. simpl. by rewrite IH. Qed.

Lemma trees_text_app ts1 ts2 :
  trees_text (ts1 ++ ts2) = (trees_text ts1 +:+ trees_text ts2)%string.
Proof. induction ts1 as [|t ts1 IH]; [done|]. simpl. by rewrite IH, string_app_assoc. Qed.

(** Children before the call counted [i]. *)
Definition ck (bs : list TB) (i : nat) : nat := from_option tb_len 0 (state_at bs i).

(** The positions of one node: the latest one is the end [hi], all lie at or
    after the first child [lo], and later ones are further right. *)
Record frame_ok (bs : list TB) (lo hi : nat) (m : list nat) : Prop := {
  fo_head : ∃ i m', m = i :: m' ∧ ck bs i = hi;
  fo_range : Forall (λ i, i < length bs ∧ lo ≤ ck bs i) m;
  fo_sorted : StronglySorted (λ i j, j < i ∧ ck bs j ≤ ck bs i) m
}.

(** How the protocol's frames describe the builder; a node ends where the
    first child of the next open node begins. *)
Inductive sim (bs : list TB) : nat → frames → list (SyntaxKind * nat) → Prop :=
  | sim_root hi m : frame_ok bs 0 hi m → sim bs hi [m] []
  | sim_node hi m F k first ps :
      frame_ok bs first hi m → sim bs first F ps → sim bs hi (m :: F) ((k, first) :: ps).

Lemma state_at_ext {A} (b : A) bs i : i < length bs → state_at (b :: bs) i = state_at bs i.
Proof.
  intros Hi. unfold state_at. simpl length.
  by replace (S (length bs) - S i) with (S (length bs - S i)) by lia.
Qed.

Lemma ck_ext b bs i : i < length bs → ck (b :: bs) i = ck bs i.
Proof. intros Hi. unfold ck. by rewrite state_at_ext. Qed.

Lemma ck_new b bs : ck (b :: bs) (length bs) = tb_len b.
Proof. unfold ck, state_at. simpl. by rewrite Nat.sub_diag. Qed.

Lemma Sorted_weaken {A} (R R' : A → A → Prop) (Pr : A → Prop) l :
  (∀ x y, Pr x → Pr y → R x y → R' x y) → Forall Pr l → StronglySorted R l → StronglySorted R' l.
Proof.
  intros HR. induction l as [|x l IH]; intros HP HS; [constructor|].
  apply Forall_cons in HP as [Hx HP]. inversion HS as [|? ? HS' Hall]; subst.
  constructor; [by apply IH|]. rewrite Forall_forall in *. eauto.
Qed.

Lemma frame_ok_ext b bs lo hi m : frame_ok bs lo hi m → frame_ok (b :: bs) lo hi m.
Proof.
  intros [(i & m' & -> & Hi) Hr Hs]. split.
  - exists i, m'. split; [done|]. rewrite ck_ext; [done|]. by apply Forall_cons in Hr as [[? _] _].
  - eapply Forall_impl; [exact Hr|]. simpl. intros j [Hj Hl]. rewrite ck_ext by done. lia.
  - eapply Sorted_weaken; [|exact Hr|exact Hs]. simpl. intros x y [Hx _] [Hy _].
    by rewrite !ck_ext.
Qed.

Lemma sim_ext b bs hi F ps : sim bs hi F ps → sim (b :: bs) hi F ps.
Proof. induction 1; constructor; by try apply frame_ok_ext. Qed.

Lemma frame_ok_le bs lo hi m i : frame_ok bs lo hi m → i ∈ m → lo ≤ ck bs i ≤ hi.
Proof.
  intros [(i0 & m' & -> & Hi) Hr Hs] Hin. rewrite Forall_forall in Hr.
  split; [by apply Hr|]. inversion Hs as [|? ? _ Hall]; subst. rewrite Forall_forall in Hall.
  apply elem_of_cons in Hin as [->|Hin]; [done|by apply Hall].
Qed.

Lemma frame_ok_new b bs lo m hi :
  frame_ok bs lo hi m → hi ≤ tb_len b → frame_ok (b :: bs) lo (tb_len b) (length bs :: m).
Proof.
  intros Hm Hle. pose proof (frame_ok_ext b _ _ _ _ Hm) as [_ Hr Hs].
  assert (∀ i, i ∈ m → i < length bs) as Hlt.
  { intros i Hi. destruct Hm as [_ Hr' _]. rewrite Forall_forall in Hr'. by apply Hr'. }
  assert (∀ i, i ∈ m → lo ≤ ck (b :: bs) i ≤ tb_len b) as Hck.
  { intros i Hi. rewrite ck_ext by eauto. pose proof (frame_ok_le _ _ _ _ _ Hm Hi). lia. }
  split.
  - eexists _, _. split; [done|]. apply ck_new.
  - constructor; [|done]. split; [simpl; lia|]. rewrite ck_new.
    destruct Hm as [(i & m' & -> & Hi) _ _]. specialize (Hck i). set_solver by lia.
  - constructor; [done|]. apply Forall_forall. intros i Hi. rewrite ck_new.
    split; [by apply Hlt|by apply Hck].
Qed.

(** The part of a frame a checkpoint leaves behind, and the part it takes. *)
Lemma frame_ok_before bs lo hi m cp :
  frame_ok bs lo hi m → cp ∈ m → frame_ok bs lo (ck bs cp) (filter (λ i, i ≤ cp) m).
Proof.
  intros [_ Hr Hs] Hcp. split.
  - clear Hr. induction Hs as [|i m Hs IH Hall]; [by apply not_elem_of_nil in Hcp|].
    rewrite filter_cons. apply elem_of_cons in Hcp as [<-|Hcp].
    + rewrite decide_True by done. by eexists _, _.
    + rewrite Forall_forall in Hall. rewrite decide_False by (apply Hall in Hcp; lia). by apply IH.
  - apply Forall_forall. intros i [_ Hi]%list_elem_of_filter. rewrite Forall_forall in Hr. by apply Hr.
  - clear Hr Hcp. induction Hs as [|i m Hs IH Hall]; [constructor|]. rewrite filter_cons.
    destruct (decide _); [|done]. constructor; [done|].
    apply Forall_forall. intros j [_ Hj]%list_elem_of_filter. rewrite Forall_forall in Hall. by apply Hall.
Qed.

Lemma frame_ok_after bs lo hi m cp :
  frame_ok bs lo hi m → cp ∈ m → frame_ok bs (ck bs cp) hi (filter (λ i, cp ≤ i) m).
Proof.
  intros [(i0 & m' & -> & Hi) Hr Hs] Hcp.
  assert (∀ i, i ∈ i0 :: m' → cp ≤ i → ck bs cp ≤ ck bs i) as Hmono.
  { clear Hi Hr. induction Hs as [|j m Hs IH Hall]; [by apply not_elem_of_nil in Hcp|].
    rewrite Forall_forall in Hall. intros i Hin Hle.
    apply elem_of_cons in Hcp as [<-|Hcp]; apply elem_of_cons in Hin as [->|Hin].
    - done.
    - apply Hall in Hin. lia.
    - by apply Hall.
    - by apply IH. }
  assert (cp ≤ i0) as Hle0.
  { inversion Hs as [|? ? _ Hall]; subst. rewrite Forall_forall in Hall.
    apply elem_of_cons in Hcp as [<-|Hcp%Hall]; lia. }
  split.
  - rewrite filter_cons, decide_True by done. by eexists _, _.
  - apply Forall_forall. intros i [Hc Hin]%list_elem_of_filter. rewrite Forall_forall in Hr.
    split; [by apply Hr|by apply Hmono].
  - clear Hi Hr Hcp Hmono Hle0. induction Hs as [|i m Hs IH Hall]; [constructor|]. rewrite filter_cons.
    destruct (decide _); [|done]. constructor; [done|].
    apply Forall_forall. intros j [_ Hj]%list_elem_of_filter. rewrite Forall_forall in Hall. by apply Hall.
Qed.

(** The state [bs] (newest first) after the log [l]. *)
Record sim_ok (l : list BuilderCall) (F : frames) (b : TB) (bs : list TB) : Prop := {
  so_replay : replay TreeBuilder l = Some (b :: bs);
  so_len : length bs = length l;
  so_sim : sim (b :: bs) (tb_len b) F (tb_parents b);
  so_text : trees_text (rev (tb_children b)) = calls_text l
}.

Lemma sim_ok_step l c b b' bs F :
  sim_ok l F b bs → call_builder TreeBuilder (b :: bs) c b = Some b' →
  replay TreeBuilder (c :: l) = Some (b' :: b :: bs).
Proof. intros [Hr _ _ _] Hc. simpl. rewrite Hr. simpl. by rewrite Hc. Qed.

Lemma sim_ok_start l F b bs k :
  sim_ok l F b bs →
  sim_ok (CStartNode k :: l) ([S (length l)] :: F)
    (mkTB ((k, tb_len b) :: tb_parents b) (tb_children b)) (b :: bs).
Proof.
  intros Hs. split; [by eapply sim_ok_step| | |by apply Hs].
  - simpl. by rewrite (so_len _ _ _ _ Hs).
  - constructor; [|by apply sim_ext, Hs]. rewrite <- (so_len _ _ _ _ Hs).
    assert (ck (mkTB ((k, tb_len b) :: tb_parents b) (tb_children b) :: b :: bs) (S (length bs))
            = tb_len b) as E by (etransitivity; [apply (ck_new _ (b :: bs))|done]).
    split; [by eexists _, _| |by repeat constructor].
    constructor; [|done]. rewrite E. simpl. lia.
Qed.

Lemma sim_ok_token l m F b bs k t :
  sim_ok l (m :: F) b bs →
  sim_ok (CToken k t :: l) ((S (length l) :: m) :: F)
    (mkTB (tb_parents b) (Leaf k t :: tb_children b)) (b :: bs).
Proof.
  intros Hs. split; [by eapply sim_ok_step| | |].
  - simpl. by rewrite (so_len _ _ _ _ Hs).
  - rewrite <- (so_len _ _ _ _ Hs). change (S (length bs)) with (length (b :: bs)).
    pose proof (so_sim _ _ _ _ Hs) as Hsim.
    inversion Hsim as [? ? Hm Hp Hq|? ? ? ? ? ? Hm HF Hp Hq]; subst; simpl tb_parents;
      rewrite <- ?H2, <- ?H1, <- ?H; constructor;
      solve [eapply frame_ok_new; [exact Hm|unfold tb_len; simpl; lia] | by apply sim_ext].
  - simpl. rewrite trees_text_app, (so_text _ _ _ _ Hs). simpl. by rewrite string_app_nil_r.
Qed.

Lemma sim_le bs hi F k first ps : sim bs hi F ((k, first) :: ps) → first ≤ hi.
Proof.
  inversion 1 as [|? m ? ? ? ? Hm]; subst.
  destruct Hm as [(i & m' & -> & <-) Hr _]. apply Forall_cons in Hr as [[_ Hr] _]. done.
Qed.

Lemma sim_node_inv bs hi m0 m F pars :
  sim bs hi (m0 :: m :: F) pars →
  ∃ k first ps, pars = (k, first) :: ps ∧ sim bs first (m :: F) ps ∧ first ≤ hi.
Proof.
  intros H. pose proof H as Hs. inversion Hs as [|? ? ? k first ps Hm HF]; subst.
  exists k, first, ps. split_and!; [done|done|]. by eapply sim_le.
Qed.

Lemma trees_text_rev_app l1 l2 :
  trees_text (rev (l1 ++ l2)) = (trees_text (rev l2) +:+ trees_text (rev l1))%string.
Proof. by rewrite rev_app_distr, trees_text_app. Qed.

Lemma sim_ok_finish l m0 m F b bs :
  sim_ok l (m0 :: m :: F) b bs →
  ∃ b', sim_ok (CFinishNode :: l) ((S (length l) :: m) :: F) b' (b :: bs).
Proof.
  intros Hs. pose proof (so_sim _ _ _ _ Hs) as Hsim.
  apply sim_node_inv in Hsim as (k & first & ps & Hp & HF & Hle). unfold tb_len in Hle.
  exists (mkTB ps (Node k (rev (take (tb_len b - first) (tb_children b)))
                     :: drop (tb_len b - first) (tb_children b))).
  assert (tb_len (mkTB ps (Node k (rev (take (tb_len b - first) (tb_children b)))
                     :: drop (tb_len b - first) (tb_children b))) = S first) as Hlen.
  { unfold tb_len. simpl. rewrite length_drop. lia. }
  split.
  - eapply sim_ok_step; [exact Hs|]. simpl. unfold tb_finish_node. by rewrite Hp.
  - simpl. by rewrite (so_len _ _ _ _ Hs).
  - rewrite <- (so_len _ _ _ _ Hs). change (S (length bs)) with (length (b :: bs)).
    simpl tb_parents.
    inversion HF as [? ? Hm|? ? ? ? ? ? Hm HF']; subst; constructor;
      solve [eapply frame_ok_new; [exact Hm|lia] | by apply sim_ext].
  - simpl tb_children. cbn [rev]. rewrite trees_text_app. cbn [trees_text].
    rewrite tree_text_node, string_app_nil_r, <- trees_text_rev_app, take_drop.
    apply Hs.
Qed.

Lemma sim_ok_start_at l m F b bs cp k :
  sim_ok l (m :: F) b bs → cp ∈ m →
  ∃ b', sim_ok (CStartNodeAt cp k :: l)
          ((S (length l) :: filter (λ i, cp ≤ i) m) :: filter (λ i, i ≤ cp) m :: F) b' (b :: bs).
Proof.
  intros Hs Hcp. pose proof (so_sim _ _ _ _ Hs) as Hsim.
  set (c := ck (b :: bs) cp). exists (mkTB ((k, c) :: tb_parents b) (tb_children b)).
  assert (∃ lo, frame_ok (b :: bs) lo (tb_len b) m
            ∧ match tb_parents b with [] => lo = 0 | (_, first) :: _ => lo = first end) as (lo & Hm & Hlo).
  { inversion Hsim; subst; eauto. }
  pose proof (frame_ok_le _ _ _ _ _ Hm Hcp) as Hc. fold c in Hc.
  assert (cp < length (b :: bs)) as Hlt.
  { destruct Hm as [_ Hr _]. rewrite Forall_forall in Hr. by apply Hr. }
  split.
  - eapply sim_ok_step; [exact Hs|]. simpl.
    destruct (state_at (b :: bs) cp) as [b0|] eqn:E.
    2:{ unfold state_at in E. apply lookup_ge_None in E. simpl in *. lia. }
    assert (tb_len b0 = c) as Hb0 by (unfold c, ck; by rewrite E).
    simpl. unfold tb_start_node_at. rewrite Hb0.
    replace (tb_len b <? c) with false by (symmetry; apply Nat.ltb_ge; lia).
    destruct (tb_parents b) as [|[k' first] ps]; [done|].
    by replace (c <? first) with false by (symmetry; apply Nat.ltb_ge; lia).
  - simpl. by rewrite (so_len _ _ _ _ Hs).
  - rewrite <- (so_len _ _ _ _ Hs). change (S (length bs)) with (length (b :: bs)).
    simpl tb_parents. constructor.
    + eapply frame_ok_new; [by eapply frame_ok_after|done].
    + apply sim_ext. inversion Hsim as [? ? Hm' Hp Hq|? ? ? ? ? ? Hm' HF Hp Hq]; subst;
        constructor; try done; by eapply frame_ok_before.
  - apply Hs.
Qed.

Lemma sim_ok_frames l F : frames_of l = Some F → ∃ b bs, sim_ok l F b bs.
Proof.
  revert F. induction l as [|c l IH]; intros F HF.
  - injection HF as <-. exists (mkTB [] []), []. split; try done. constructor.
    split; [by exists 0, []| |]; repeat constructor.
  - simpl in HF. destruct (frames_of l) as [F0|] eqn:E; [|done]. simpl in HF.
    destruct (IH F0 eq_refl) as (b & bs & Hs). clear IH.
    destruct c as [k|cp k| |k t]; simpl in HF.
    + injection HF as <-. eexists _, _. by apply sim_ok_start.
    + destruct F0 as [|m F0]; [done|]. destruct (decide (cp ∈ m)) as [Hin|]; [|done].
      injection HF as <-. destruct (sim_ok_start_at _ _ _ _ _ cp k Hs Hin) as [b' Hb']. eauto.
    + destruct F0 as [|m0 [|m F0]]; [done|done|]. injection HF as <-.
      destruct (sim_ok_finish _ _ _ _ _ _ Hs) as [b' Hb']. eauto.
    + destruct F0 as [|m F0]; [done|]. injection HF as <-. eexists _, _. by apply sim_ok_token.
Qed.

#[export] Instance TreeBuilder_ok : GreenBuilderOk TreeBuilder.
Proof.
  split.
  - intros l F (b & bs & Hs)%sim_ok_frames. rewrite (so_replay _ _ _ _ Hs). done.
  - intros l HF. pose proof HF as HF'. simpl in HF.
    destruct (frames_of l) as [F0|] eqn:E; [|done]. simpl in HF.
    destruct F0 as [|m0 [|m F0]]; [done|done|]. injection HF as -> ->.
    destruct (sim_ok_frames _ _ E) as (b & bs & Hs).
    pose proof (so_sim _ _ _ _ Hs) as Hsim.
    apply sim_node_inv in Hsim as (k & first & ps & Hp & HF & Hle).
    inversion HF as [? ? Hm|? ? ? ? ? ? ? Habs]; subst; [|by inversion Habs].
    assert (first = 0) as ->.
    { destruct Hm as [(i & m' & [= <- <-] & Hi) _ _]. rewrite <- Hi.
      pose proof (so_replay _ _ _ _ Hs) as Hr. unfold ck, state_at.
      simpl length. rewrite Nat.sub_succ, Nat.sub_0_r.
      assert (∀ l bs, replay TreeBuilder l = Some bs → last bs = Some (mkTB [] [])) as Hlast.
      { clear. induction l as [|c l IH]; intros bs; simpl; [by intros [= <-]|].
        destruct (replay TreeBuilder l) as [bs'|]; [|done]. simpl. destruct bs' as [|b bs']; [done|].
        simpl. destruct (call_builder _ _ _ _) as [b'|]; [|done]. simpl. intros [= <-].
        rewrite <- (IH _ eq_refl). done. }
      specialize (Hlast _ _ Hr). rewrite last_lookup in Hlast. simpl in Hlast.
      rewrite Hlast. done. }
    pose proof (so_text _ _ _ _ Hs) as Ht. unfold built. simpl.
    rewrite (so_replay _ _ _ _ Hs). simpl. unfold tb_finish_node. rewrite Hp. simpl.
    unfold tb_finish. simpl. rewrite Nat.sub_0_r. unfold tb_len.
    rewrite drop_ge, take_ge by done. eexists. split; [done|].
    rewrite tree_text_node. exact Ht.
Qed.
