(* ===== verification/Lexer.v ===== *)
(** * The lexer driver and the incremental token cache

    [crates/mty-syntax/src/lexer.rs] and [token_cache.rs].  The token rules are
    compiled by [logos], a third-party macro: the model takes the lexer it
    generates as a parameter [logos] that maps a source to the successive
    results of [Lexer::next] with their spans, and [LogosOk] states what the
    callers rely on.  Strings are byte strings, spans are byte offsets. *)

From stdpp Require Import base list strings numbers sets.
From S2P Require Import Prelude ParserCore ParserLogic.

(** One [lex.next()]: [Ok kind] or [Err], and [lex.span()]. *)
Definition LogosItem : Set := option SyntaxKind * nat * nat.

(** Spans follow each other without gap or overlap, from [a] to [b], and none
    is empty. *)
Fixpoint tiles {A} (sp : A → nat * nat) (a b : nat) (l : list A) : Prop :=
  match l with
  | [] => a = b
  | x :: l' => (sp x).1 = a ∧ a < (sp x).2 ∧ tiles sp (sp x).2 b l'
  end.

Definition item_span (x : LogosItem) : nat * nat := (x.1.2, x.2).

(** A continuation byte of UTF-8. *)
Definition is_continuation (a : Ascii.ascii) : bool :=
  (128 <=? Ascii.nat_of_ascii a) && (Ascii.nat_of_ascii a <? 192).

(** [str::is_char_boundary]; a [str] is UTF-8, so its first byte, if any, is no
    continuation byte, and the offset 0 needs no case of its own. *)
Definition is_char_boundary (s : string) (i : nat) : bool :=
  match String.get i s with Some a => negb (is_continuation a) | None => i =? String.length s end.

(** The bytes from [a] to [b]. *)
Definition slice (src : string) (a b : nat) : string := String.substring a (b - a) src.

(** [&src[a..b]], which panics past the end and off a character boundary. *)
Definition str_index (src : string) (a b : nat) : option string :=
  if (a <=? b) && is_char_boundary src a && is_char_boundary src b then Some (slice src a b) else None.

(** [logos] covers the whole input, errors included, has no rule that yields
    [EOF], the driver's own end marker, and on a [str] its spans are of whole
    characters. *)
Class LogosOk (logos : string → list LogosItem) : Prop := {
  logos_tiles src : tiles item_span 0 (String.length src) (logos src);
  logos_no_eof src : Forall (λ x, x.1.1 ≠ Some EOF) (logos src);
  logos_chars src : is_char_boundary src 0 = true →
    Forall (λ x, is_char_boundary src x.1.2 = true ∧ is_char_boundary src x.2 = true) (logos src)
}.

Record CachedToken := mkCached { c_kind : SyntaxKind; c_start : nat; c_end : nat }.

#[export] Instance CachedToken_eq_dec : EqDecision CachedToken.
Proof. solve_decision. Defined.

Definition c_span (t : CachedToken) : nat * nat := (c_start t, c_end t).

Record TokenCache := mkCache { c_src : string; c_tokens : list CachedToken }.

Section lexer.
Context (logos : string → list LogosItem).

(** The text of a token is a slice at a span of [logos], which never panics
    ([lex_slices]). *)
Definition lex_one (src : string) (x : LogosItem) : Token :=
  mkToken (default ERROR x.1.1) (slice src x.1.2 x.2) x.1.2 x.2.

Definition lex (src : string) : list Token :=
  map (lex_one src) (logos src)
    ++ [mkToken EOF "" (String.length src) (String.length src)].

(** The tokens of [lex] without [EOF], shifted by [base]. *)
Definition lex_cached (base : nat) (src : string) : list CachedToken :=
  map (λ t, mkCached (t_kind t) (base + t_start t) (base + t_end t))
    (filter (λ t, t_kind t ≠ EOF) (lex src)).

(** [TokenCache::lex] *)
Definition cache_lex (src : string) : TokenCache := mkCache src (lex_cached 0 src).

(** [iter().position(p).unwrap_or(len)] *)
Fixpoint position {A} (p : A → bool) (l : list A) : nat :=
  match l with [] => 0 | x :: l' => if p x then 0 else S (position p l') end.

(** [(x as isize + delta).max(0) as usize] with [delta = ins - del] *)
Definition shift (ins del x : nat) : nat := Z.to_nat (Z.max (Z.of_nat x + (Z.of_nat ins - Z.of_nat del)) 0).

(** [TokenCache::apply_edit]; [None] is a panic, of one of its two [assert!]s
    or of an index into a string. *)
Definition apply_edit (c : TokenCache) (start end_ : nat) (replacement : string) :
    option (TokenCache * nat) :=
  let src := c_src c in
  let toks := c_tokens c in
  let len := String.length src in
  if negb (start <=? end_) || negb (end_ <=? len) then None else
  before ← str_index src 0 start;
  after ← str_index src end_ len;
  let new_src := (before +:+ replacement +:+ after)%string in
  let new_len := String.length new_src in
  let ins := String.length replacement in
  let del := end_ - start in
  let left_idx := position (λ t, start <? c_end t) toks - 1 in
  let lex_start := Nat.min (from_option c_start len (toks !! left_idx)) start in
  let right0 := position (λ t, end_ <? c_start t) toks in
  let right_idx := if right0 <? length toks then right0 + 1 else right0 in
  let widen_end_old := from_option c_start len (toks !! right_idx) in
  let widen_end_new :=
    Nat.min (if end_ <=? widen_end_old then shift ins del widen_end_old else widen_end_old)
      new_len in
  relex_src ← str_index new_src lex_start widen_end_new;
  let relexed := lex_cached lex_start relex_src in
  let tail := map (λ t, mkCached (c_kind t) (shift ins del (c_start t)) (shift ins del (c_end t)))
                (drop right_idx toks) in
  Some (mkCache new_src (take left_idx toks ++ relexed ++ tail), length relexed).

End lexer.

(** ** The lexer *)

Lemma substring_full s : String.substring 0 (String.length s) s = s.
Proof. induction s as [|a s IH]; simpl; [done|]. by rewrite IH. Qed.

Lemma substring_0_0 s n : String.substring n 0 s = ""%string.
Proof. revert n. induction s as [|a s IH]; intros [|n]; simpl; done. Qed.

Lemma substring_split s a m n :
  (String.substring a m s +:+ String.substring (a + m) n s)%string = String.substring a (m + n) s.
Proof.
  revert a m n. induction s as [|c s IH]; intros [|a] [|m] n; simpl; try done.
  rewrite string_cons_app. f_equal. apply (IH 0 m n).
Qed.

Lemma slice_app s a b c : a ≤ b → b ≤ c → (slice s a b +:+ slice s b c)%string = slice s a c.
Proof.
  intros H1 H2. unfold slice. pose proof (substring_split s a (b - a) (c - b)) as H.
  by replace (a + (b - a)) with b in H by lia; replace (b - a + (c - b)) with (c - a) in H by lia.
Qed.

Lemma tiles_le {A} (sp : A → nat * nat) a b l : tiles sp a b l → a ≤ b.
Proof.
  revert a. induction l as [|x l IH]; intros a; simpl; [lia|]. intros (<- & H & Hl).
  apply IH in Hl. lia.
Qed.

Lemma tiles_app {A} (sp : A → nat * nat) a b l1 l2 :
  tiles sp a b (l1 ++ l2) ↔ ∃ m, tiles sp a m l1 ∧ tiles sp m b l2.
Proof.
  revert a. induction l1 as [|x l1 IH]; intros a; simpl.
  - split; [by exists a|]. by intros (m & <- & H).
  - rewrite IH. naive_solver.
Qed.

Lemma length_substring s : ∀ a n, a + n ≤ String.length s → String.length (String.substring a n s) = n.
Proof.
  induction s as [|c s IH]; intros [|a] [|n]; simpl; intros H; try lia.
  - by rewrite (IH 0 n) by lia.
  - apply (IH a 0). lia.
  - apply (IH a (S n)). lia.
Qed.

Lemma length_slice s a b : a ≤ b → b ≤ String.length s → String.length (slice s a b) = b - a.
Proof. intros Ha Hb. apply length_substring. lia. Qed.

(** ** Character boundaries *)

Lemma length_string_app (s1 s2 : string) :
  String.length (s1 +:+ s2) = String.length s1 + String.length s2.
Proof. induction s1 as [|a s1 IH]; [done|]. rewrite string_cons_app. simpl. by rewrite IH. Qed.

Lemma boundary_app_r p s i : is_char_boundary (p +:+ s) (String.length p + i) = is_char_boundary s i.
Proof. induction p as [|a p IH]; [done|]. exact IH. Qed.

Lemma boundary_app_l s1 s2 i :
  is_char_boundary s2 0 = true → i ≤ String.length s1 → is_char_boundary (s1 +:+ s2) i = is_char_boundary s1 i.
Proof.
  intros H2. revert i. induction s1 as [|a s1 IH]; intros [|i] Hi; simpl in Hi; try lia; try done. apply (IH i). lia.
Qed.

Lemma boundary_length s : is_char_boundary s (String.length s) = true.
Proof. induction s as [|a s IH]; [done|]. exact IH. Qed.

Lemma boundary_le s i : is_char_boundary s i = true → i ≤ String.length s.
Proof.
  revert i. induction s as [|a s IH]; intros [|i]; try done; [simpl; lia|].
  intros H. simpl. apply le_n_S, (IH i), H.
Qed.

Lemma slice_shift s a b i : a ≤ i → i ≤ b → b ≤ String.length s → is_char_boundary s b = true →
  is_char_boundary (slice s a b) (i - a) = is_char_boundary s i.
Proof.
  unfold slice. intros Ha Hi Hb Hbb. revert a b i Ha Hi Hb Hbb.
  induction s as [|c s IH]; intros a b i Ha Hi Hb Hbb; simpl in Hb.
  - by replace a with 0 by lia; replace b with 0 by lia; replace i with 0 by lia.
  - destruct a as [|a].
    + destruct b as [|b]; [by replace i with 0 by lia|]. destruct i as [|i]; [done|].
      simpl. pose proof (IH 0 b i ltac:(lia) ltac:(lia) ltac:(lia) Hbb) as H.
      rewrite !Nat.sub_0_r in H. exact H.
    + destruct b as [|b]; [lia|]. destruct i as [|i]; [lia|]. simpl. apply (IH a b i); [lia..|exact Hbb].
Qed.

Lemma slice_boundary_0 s a b : a ≤ b → is_char_boundary s a = true → is_char_boundary s b = true →
  is_char_boundary (slice s a b) 0 = true.
Proof.
  intros Hab Ha Hb. rewrite <-(Nat.sub_diag a), slice_shift; [done|lia|lia|by apply boundary_le|done].
Qed.

Lemma str_index_some s a b r : str_index s a b = Some r ↔
  a ≤ b ∧ is_char_boundary s a = true ∧ is_char_boundary s b = true ∧ r = slice s a b.
Proof.
  unfold str_index. destruct (Nat.leb_spec a b), (is_char_boundary s a), (is_char_boundary s b); simpl; try (split; [done|naive_solver lia]).
  split; [intros [= <-]; tauto|]. by intros (_ & _ & _ & ->).
Qed.

Lemma tiles_in {A} (sp : A → nat * nat) a b l x : tiles sp a b l → x ∈ l → a ≤ (sp x).1 ∧ (sp x).1 < (sp x).2 ∧ (sp x).2 ≤ b.
Proof.
  revert a. induction l as [|y l IH]; intros a; simpl; [by intros _ ?%not_elem_of_nil|]. intros (<- & H & Hl).
  pose proof (tiles_le _ _ _ _ Hl). intros [->|Hx]%elem_of_cons; [lia|]. specialize (IH _ Hl Hx). lia.
Qed.

Section laws.
Context (logos : string → list LogosItem) `{!LogosOk logos}.

Lemma lex_wf' src : wf_tokens (lex logos src).
Proof.
  eexists (map (lex_one src) (logos src)), _. split; [reflexivity|]. split_and!; [done|done|].
  apply Forall_fmap. eapply Forall_impl; [exact (logos_no_eof src)|].
  intros [[[k|] a] b] Hk; simpl in *; [congruence|done].
Qed.

Lemma lex_items_text src l a :
  tiles item_span a (String.length src) l →
  tokens_text (map (lex_one src) l) = slice src a (String.length src).
Proof.
  revert a. induction l as [|x l IH]; intros a; simpl.
  - intros ->. unfold slice. by rewrite Nat.sub_diag, substring_0_0.
  - intros (<- & Hlt & Hl). rewrite (IH _ Hl). apply slice_app; [simpl in *; lia|].
    by eapply tiles_le.
Qed.

Lemma lex_text' src : tokens_text (lex logos src) = src.
Proof.
  unfold lex. rewrite tokens_text_app. simpl. rewrite string_app_nil_r.
  rewrite (lex_items_text src _ 0) by apply logos_tiles.
  unfold slice. rewrite Nat.sub_0_r. apply substring_full.
Qed.

(** The slices of the lexer are in range and at character boundaries. *)
Lemma lex_slices src : is_char_boundary src 0 = true →
  Forall (λ x, str_index src x.1.2 x.2 = Some (t_text (lex_one src x))) (logos src).
Proof.
  intros Hs. pose proof (logos_chars src Hs) as Hc. pose proof (logos_tiles src) as Ht. revert Hc Ht. generalize 0.
  induction (logos src) as [|x l IH]; intros a Hc Ht; constructor; inversion Hc as [|? ? [H1 H2] Hl]; subst; destruct Ht as (Ha & Hlt & Ht).
  - apply str_index_some. split_and!; [simpl in *; lia|done..].
  - by eapply IH.
Qed.

Lemma lex_cached_eq base src :
  lex_cached logos base src
  = map (λ x, mkCached (default ERROR x.1.1) (base + x.1.2) (base + x.2)) (logos src).
Proof.
  unfold lex_cached, lex. rewrite filter_app. simpl.
  rewrite filter_cons_False by (intros H; by apply H). rewrite filter_nil, app_nil_r.
  pose proof (logos_no_eof src) as H. induction H as [|[[k a] b] l Hk Hl IH]; [done|].
  simpl. rewrite filter_cons_True by (destruct k; simpl in *; congruence). simpl. by rewrite IH.
Qed.

(** The tokens of a piece of a source are of whole characters of it. *)
Definition chars_ok (src : string) (t : CachedToken) : Prop :=
  is_char_boundary src (c_start t) = true ∧ is_char_boundary src (c_end t) = true.

Lemma lex_cached_chars src a b :
  a ≤ b → is_char_boundary src a = true → is_char_boundary src b = true →
  Forall (chars_ok src) (lex_cached logos a (slice src a b)).
Proof.
  intros Hab Ha Hb. rewrite lex_cached_eq. apply Forall_fmap.
  pose proof (boundary_le _ _ Hb) as Hl.
  eapply Forall_impl; [apply logos_chars; by apply slice_boundary_0|].
  assert (∀ i, is_char_boundary (slice src a b) i = true → is_char_boundary src (a + i) = true) as H.
  { intros i Hi. pose proof (boundary_le _ _ Hi) as Hle. unfold slice in Hle. rewrite length_substring in Hle by lia.
    rewrite <-Hi, <-(slice_shift src a b (a + i)) by (done || lia). f_equal. lia. }
  intros x [H1 H2]. split; simpl; by apply H.
Qed.

Lemma lex_cached_tiles base src :
  tiles c_span base (base + String.length src) (lex_cached logos base src).
Proof.
  rewrite lex_cached_eq. pose proof (logos_tiles src) as H. revert H.
  replace base with (base + 0) at 1 by lia. generalize 0.
  induction (logos src) as [|[[k a] b] l IH]; intros a0; simpl; [lia|].
  intros (-> & Hlt & Hl). split_and!; [done|simpl in *; lia|]. by apply IH.
Qed.
End laws.

(** ** The token cache *)

(** The spans tile the source and are of whole characters. *)
Definition cache_ok (c : TokenCache) : Prop :=
  tiles c_span 0 (String.length (c_src c)) (c_tokens c) ∧ is_char_boundary (c_src c) 0 = true ∧
  Forall (chars_ok (c_src c)) (c_tokens c).

Lemma position_le {A} (p : A → bool) l : position p l ≤ length l.
Proof. induction l as [|x l IH]; simpl; [lia|]. destruct (p x); lia. Qed.

Lemma position_lookup {A} (p : A → bool) l x : l !! position p l = Some x → p x = true.
Proof.
  induction l as [|y l IH]; simpl; [done|]. destruct (p y) eqn:E; simpl; [by intros [= <-]|done].
Qed.

Lemma position_before {A} (p : A → bool) l i x :
  i < position p l → l !! i = Some x → p x = false.
Proof.
  revert i. induction l as [|y l IH]; intros i; simpl; [lia|].
  destruct (p y) eqn:E; [lia|]. destruct i as [|i]; simpl; [by intros _ [= <-]|].
  intros Hi. apply IH. lia.
Qed.

(** Where the token [i] starts, or the end of the source past the last. *)
Definition start_of (len : nat) (toks : list CachedToken) (i : nat) : nat :=
  from_option c_start len (toks !! i).

Lemma tiles_at len toks a i :
  tiles c_span a len toks → i ≤ length toks →
  tiles c_span a (start_of len toks i) (take i toks)
  ∧ tiles c_span (start_of len toks i) len (drop i toks).
Proof.
  revert a i. induction toks as [|t toks IH]; intros a i; simpl.
  - intros -> Hi. by replace i with 0 by lia.
  - intros (<- & Hlt & Ht) Hi. destruct i as [|i]; simpl; [by split_and!|].
    destruct (IH _ i Ht) as [H1 H2]; [lia|]. by split_and!.
Qed.

Lemma start_of_mono len toks a i j :
  tiles c_span a len toks → i ≤ j → j ≤ length toks → start_of len toks i ≤ start_of len toks j.
Proof.
  intros Ht Hij Hj. destruct (tiles_at len toks a j Ht Hj) as [H1 _].
  destruct (decide (i = j)) as [->|]; [done|].
  assert (i ≤ length (take j toks)) as Hi by (rewrite length_take; lia).
  destruct (tiles_at _ _ _ i H1 Hi) as [_ H2].
  apply tiles_le in H2. unfold start_of in *. rewrite lookup_take_lt in H2 by lia.
  by destruct (lookup_lt_is_Some_2 toks i ltac:(lia)) as [t Hti]; rewrite Hti in *.
Qed.

(** The left edge starts at or before the edit. *)
Lemma left_edge len toks start :
  tiles c_span 0 len toks → start ≤ len →
  start_of len toks (position (λ t, start <? c_end t) toks - 1) ≤ start.
Proof.
  intros Ht Hs. set (p := λ t, start <? c_end t).
  destruct (position p toks) as [|i] eqn:E.
  - unfold start_of, c_span in *. destruct toks as [|t toks]; simpl in *; [lia|].
    destruct Ht as [H0 _]. lia.
  - simpl. rewrite Nat.sub_0_r. pose proof (position_le p toks) as Hle. rewrite E in Hle.
    destruct (lookup_lt_is_Some_2 toks i) as [t Hl]; [lia|].
    assert (p t = false) as Hp.
    { apply (position_before p toks i); [rewrite E; lia|done]. }
    apply Nat.ltb_ge in Hp. unfold start_of. rewrite Hl. simpl.
    destruct (tiles_at len toks 0 i Ht) as [_ H2]; [lia|].
    rewrite (drop_S _ t) in H2 by done. destruct H2 as [_ [H2 _]].
    unfold start_of in H2. rewrite Hl in H2. unfold c_span in H2. simpl in H2. lia.
Qed.

(** The right edge starts at or after the end of the edit. *)
Lemma right_edge len toks end_ i :
  tiles c_span 0 len toks → end_ ≤ len → position (λ t, end_ <? c_start t) toks ≤ i →
  i ≤ length toks → end_ ≤ start_of len toks i.
Proof.
  intros Ht He Hi Hl. etransitivity; [|by eapply start_of_mono].
  unfold start_of. destruct (toks !! _) as [t|] eqn:E; simpl; [|done].
  apply position_lookup, Nat.ltb_lt in E. lia.
Qed.

Lemma shift_eq ins del x : del ≤ x → shift ins del x = x - del + ins.
Proof. unfold shift. lia. Qed.

Lemma tiles_shift ins del a b l :
  del ≤ a → tiles c_span a b l →
  tiles c_span (shift ins del a) (shift ins del b)
    (map (λ t, mkCached (c_kind t) (shift ins del (c_start t)) (shift ins del (c_end t))) l).
Proof.
  revert a. induction l as [|t l IH]; intros a Ha; simpl; [by intros ->|].
  unfold c_span at 1 2. simpl. intros (<- & Hlt & Hl). split; [done|].
  split; [rewrite !shift_eq by lia; lia|]. apply IH; [lia|done].
Qed.

Section cache.
Context (logos : string → list LogosItem) `{!LogosOk logos}.

Lemma cache_lex_ok src : is_char_boundary src 0 = true → cache_ok (cache_lex logos src).
Proof.
  intros Hs. split_and!; simpl; [apply (lex_cached_tiles logos 0)|done|].
  pose proof (lex_cached_chars logos src 0 (String.length src) ltac:(lia) Hs (boundary_length src)) as H.
  unfold slice in H. by rewrite Nat.sub_0_r, substring_full in H.
Qed.

(** An edit of a cached source: where it may be. *)
Definition editable (src : string) (start end_ : nat) : Prop :=
  start ≤ end_ ∧ end_ ≤ String.length src ∧ is_char_boundary src start = true ∧ is_char_boundary src end_ = true.

(** A boundary before the edit stays one, and one after it moves with the text. *)
Lemma edited_boundaries src start end_ repl :
  editable src start end_ → is_char_boundary repl 0 = true → is_char_boundary src 0 = true →
  let new_src := (slice src 0 start +:+ repl +:+ slice src end_ (String.length src))%string in
  (∀ i, i ≤ start → is_char_boundary src i = true → is_char_boundary new_src i = true) ∧
  (∀ i, end_ ≤ i → i ≤ String.length src → is_char_boundary src i = true →
     is_char_boundary new_src (shift (String.length repl) (end_ - start) i) = true).
Proof.
  intros (H1 & H2 & Hs & He) Hr H0. cbv zeta. set (a := slice src 0 start). set (b := slice src end_ (String.length src)).
  assert (String.length a = start) as La by (unfold a; rewrite length_slice; lia).
  assert (is_char_boundary b 0 = true) as Hb by (apply slice_boundary_0; [lia|done|apply boundary_length]).
  assert (is_char_boundary (repl +:+ b) 0 = true) as Hrb by (rewrite boundary_app_l; [done|done|lia]).
  split.
  - intros i Hi Hbi. rewrite boundary_app_l by (done || lia). unfold a.
    rewrite <-(Nat.sub_0_r i), slice_shift by (done || lia). done.
  - intros i Hi Hl Hbi. rewrite shift_eq by lia.
    replace (i - (end_ - start) + String.length repl) with (String.length a + (String.length repl + (i - end_))) by lia.
    rewrite !boundary_app_r. unfold b. rewrite slice_shift; [done|lia|lia|done|apply boundary_length].
Qed.

Lemma apply_edit_panics c start end_ repl : ¬ editable (c_src c) start end_ → apply_edit logos c start end_ repl = None.
Proof.
  intros Hn. unfold apply_edit. destruct (Nat.leb_spec start end_); [|done].
  destruct (Nat.leb_spec end_ (String.length (c_src c))); [|done]. simpl.
  destruct (str_index (c_src c) 0 start) as [l|] eqn:E1; [|done].
  destruct (str_index (c_src c) end_ (String.length (c_src c))) as [r|] eqn:E2; [|done].
  apply str_index_some in E1 as (_ & _ & ? & _), E2 as (_ & ? & _ & _). by destruct Hn.
Qed.

Lemma apply_edit_ok c start end_ repl :
  cache_ok c → is_char_boundary repl 0 = true → editable (c_src c) start end_ →
  ∃ c' n, apply_edit logos c start end_ repl = Some (c', n) ∧ cache_ok c'
    ∧ c_src c' = (slice (c_src c) 0 start +:+ repl
                    +:+ slice (c_src c) end_ (String.length (c_src c)))%string.
Proof.
  intros (Hc & H0 & Hch) Hrepl Hedit. destruct c as [src toks]. simpl in *.
  pose proof (edited_boundaries src start end_ repl Hedit Hrepl H0) as [Hbef Haft].
  destruct Hedit as (Hse & He & Hbs & Hbe).
  set (len := String.length src) in *. unfold apply_edit. simpl. fold len.
  assert (str_index src 0 start = Some (slice src 0 start)) as -> by (apply str_index_some; split_and!; [lia|done..]).
  assert (str_index src end_ len = Some (slice src end_ len)) as ->
    by (apply str_index_some; split_and!; [lia|done|apply boundary_length|done]).
  cbn [mbind option_bind].
  set (new_src := (slice src 0 start +:+ repl +:+ slice src end_ len)%string) in *.
  assert (String.length new_src = start + String.length repl + (len - end_)) as Hnew.
  { unfold new_src. rewrite !length_string_app, !length_slice by lia. lia. }
  replace (start <=? end_) with true by (symmetry; apply Nat.leb_le; lia).
  replace (end_ <=? len) with true by (symmetry; apply Nat.leb_le; lia). cbn [negb orb].
  set (li := position _ toks - 1). set (r0 := position _ toks).
  set (ri := if r0 <? length toks then r0 + 1 else r0).
  fold (start_of len toks li) (start_of len toks ri).
  pose proof (left_edge len toks start Hc ltac:(lia)) as Hl. fold li in Hl.
  assert (r0 ≤ ri ∧ ri ≤ length toks) as [Hri1 Hri2].
  { pose proof (position_le (λ t, end_ <? c_start t) toks) as Hp. fold r0 in Hp.
    unfold ri. destruct (Nat.ltb_spec r0 (length toks)); lia. }
  pose proof (right_edge len toks end_ ri Hc He Hri1 Hri2) as Hr.
  assert (li ≤ length toks) as Hli.
  { pose proof (position_le (λ t, start <? c_end t) toks). unfold li. lia. }
  destruct (tiles_at len toks 0 li Hc Hli) as [Hpre _].
  destruct (tiles_at len toks 0 ri Hc Hri2) as [_ Hpost].
  pose proof (tiles_le _ _ _ _ Hpost) as Hrl.
  rewrite (Nat.min_l (start_of len toks li)) by done.
  replace (end_ <=? start_of len toks ri) with true by (symmetry; apply Nat.leb_le; lia).
  set (ins := String.length repl) in *.
  pose proof (shift_eq ins (end_ - start) (start_of len toks ri) ltac:(lia)) as Hsh.
  pose proof (shift_eq ins (end_ - start) len ltac:(lia)) as Hlen.
  rewrite Nat.min_l by lia.
  assert (∀ i, is_char_boundary src (start_of len toks i) = true) as Hst.
  { intros i. unfold start_of. destruct (toks !! i) as [t|] eqn:E; [|apply boundary_length].
    rewrite Forall_forall in Hch. apply (Hch t). by eapply list_elem_of_lookup_2. }
  pose proof (Hbef _ Hl (Hst li)) as Hb1. pose proof (Haft _ Hr Hrl (Hst ri)) as Hb2. fold ins in Hb2.
  set (ls := start_of len toks li) in *. set (we := shift ins (end_ - start) (start_of len toks ri)) in *.
  assert (str_index new_src ls we = Some (slice new_src ls we)) as -> by (apply str_index_some; split_and!; [lia|done..]).
  cbn [mbind option_bind]. eexists _, _. split; [done|]. split; [|done]. unfold cache_ok. simpl. split_and!.
  - apply tiles_app. exists ls. split; [done|]. apply tiles_app. exists we. split.
    + pose proof (lex_cached_tiles logos ls (slice new_src ls we)) as Ht.
      rewrite length_slice in Ht by lia. by replace (ls + (we - ls)) with we in Ht by lia.
    + rewrite Hnew. replace (start + ins + (len - end_)) with (shift ins (end_ - start) len) by lia.
      apply tiles_shift; [lia|done].
  - apply Hbef; [lia|done].
  - rewrite !Forall_app. split_and!.
    + apply Forall_forall. intros t Ht. rewrite Forall_forall in Hch.
      assert (t ∈ toks) as Hin by (eapply (subseteq_take li); exact Ht). destruct (Hch t Hin) as [Hcs Hce].
      destruct (tiles_in _ _ _ _ _ Hpre Ht) as (_ & ? & ?). split; apply Hbef; (done || (simpl in *; lia)).
    + assert (ls ≤ we) by lia. apply lex_cached_chars; assumption.
    + apply Forall_fmap, Forall_forall. intros t Ht. rewrite Forall_forall in Hch.
      assert (t ∈ toks) as Hin by (eapply (subseteq_drop ri); exact Ht). destruct (Hch t Hin) as [Hcs Hce].
      destruct (tiles_in _ _ _ _ _ Hpost Ht) as (? & ? & ?). split; simpl; apply Haft; (done || (simpl in *; lia)).
Qed.
End cache.

(** ** A lexer for examples

    The string rule of [syntax_kind.rs] on inputs without backslashes; every
    other byte is a token of its own. *)
Module MiniLexer.

Definition quote : Ascii.ascii := Ascii.ascii_of_nat 34.

(** The continuation bytes a string starts with. *)
Fixpoint cont_run (s : string) : nat :=
  match s with EmptyString => 0 | String a s' => if is_continuation a then S (cont_run s') else 0 end.

(** The bytes up to and with the next quote. *)
Fixpoint find_quote (s : string) : option nat :=
  match s with
  | EmptyString => None
  | String a s' => if Ascii.eqb a quote then Some (S (cont_run s')) else S <$> find_quote s'
  end.

Definition byte_kind (a : Ascii.ascii) : option SyntaxKind :=
  if Ascii.eqb a (Ascii.ascii_of_nat 32) then Some WHITESPACE
  else if is_ascii_lowercase a then Some IDENT
  else if is_ascii_digit a then Some INT_LITERAL
  else None.

(** [skip] bytes belong to the token already emitted. *)
Fixpoint scan (s : string) (pos skip : nat) : list LogosItem :=
  match s with
  | EmptyString => []
  | String a s' =>
      match skip with
      | S k => scan s' (S pos) k
      | 0 =>
          match (if Ascii.eqb a quote then find_quote s' else None) with
          | Some n => (Some STRING_LITERAL, pos, pos + S n) :: scan s' (S pos) n
          | None => (byte_kind a, pos, pos + S (cont_run s')) :: scan s' (S pos) (cont_run s')
          end
      end
  end.

Definition mini_logos (s : string) : list LogosItem := scan s 0 0.

Lemma cont_run_le s : cont_run s ≤ String.length s.
Proof. induction s as [|a s IH]; simpl; [lia|]. destruct (is_continuation a); lia. Qed.

Lemma cont_run_boundary s : is_char_boundary s (cont_run s) = true.
Proof.
  induction s as [|a s IH]; [done|]. simpl. destruct (is_continuation a) eqn:E; [exact IH|].
  unfold is_char_boundary. simpl. by rewrite E.
Qed.

Lemma find_quote_ok s n : find_quote s = Some n → n ≤ String.length s ∧ is_char_boundary s n = true.
Proof.
  revert n. induction s as [|a s IH]; intros n; simpl; [done|]. destruct (Ascii.eqb a quote).
  - intros [= <-]. split; [pose proof (cont_run_le s); lia|apply cont_run_boundary].
  - destruct (find_quote s) as [m|]; [|done]. intros [= <-]. destruct (IH m eq_refl). split; [lia|done].
Qed.

(** How far a token that starts with [a] goes into the rest. *)
Lemma token_ok a s :
  let m := match (if Ascii.eqb a quote then find_quote s else None) with Some n => n | None => cont_run s end in
  m ≤ String.length s ∧ is_char_boundary s m = true.
Proof.
  cbv zeta. destruct (if Ascii.eqb a quote then find_quote s else None) as [n|] eqn:E.
  - destruct (Ascii.eqb a quote); [|done]. by apply find_quote_ok.
  - split; [apply cont_run_le|apply cont_run_boundary].
Qed.

Lemma scan_tiles s pos skip :
  skip ≤ String.length s →
  tiles item_span (pos + skip) (pos + String.length s) (scan s pos skip).
Proof.
  revert pos skip. induction s as [|a s IH]; intros pos skip Hs; simpl in *; [lia|].
  rewrite <- Nat.add_succ_comm. destruct skip as [|k].
  - pose proof (token_ok a s) as [Hm _].
    destruct (if Ascii.eqb a quote then find_quote s else None) as [n|]; simpl.
    + split_and!; [lia|lia|]. replace (pos + S n) with (S pos + n) by lia. by apply IH.
    + split_and!; [lia|lia|]. replace (pos + S (cont_run s)) with (S pos + cont_run s) by lia. by apply IH.
  - rewrite <- Nat.add_succ_comm. apply IH. lia.
Qed.

Lemma scan_chars p s skip :
  is_char_boundary s skip = true →
  Forall (λ x, is_char_boundary (p +:+ s) x.1.2 = true ∧ is_char_boundary (p +:+ s) x.2 = true)
    (scan s (String.length p) skip).
Proof.
  revert p skip. induction s as [|a s IH]; intros p skip Hs; [done|]. simpl.
  assert (∀ k, is_char_boundary s k = true →
    Forall (λ x, is_char_boundary (p +:+ String a s) x.1.2 = true ∧ is_char_boundary (p +:+ String a s) x.2 = true)
      (scan s (S (String.length p)) k)) as Hrest.
  { intros k Hk. specialize (IH (p +:+ String a EmptyString)%string k Hk).
    rewrite length_string_app, string_app_assoc in IH. simpl in IH. by rewrite Nat.add_1_r in IH. }
  assert (∀ m, is_char_boundary s m = true → is_char_boundary (p +:+ String a s) (String.length p + S m) = true) as Hend
    by (intros m Hm; by rewrite boundary_app_r).
  destruct skip as [|k]; [|by apply Hrest]. pose proof (token_ok a s) as [_ Hm].
  assert (is_char_boundary (p +:+ String a s) (String.length p) = true) as Hstart
    by (rewrite <-(Nat.add_0_r (String.length p)), boundary_app_r; exact Hs).
  destruct (if Ascii.eqb a quote then find_quote s else None) as [n|]; constructor; simpl; auto.
Qed.

#[export] Instance mini_logos_ok : LogosOk mini_logos.
Proof.
  split; intros src.
  - apply (scan_tiles src 0 0). lia.
  - assert (∀ pos skip, Forall (λ x, x.1.1 ≠ Some EOF) (scan src pos skip)) as H; [|apply H].
    induction src as [|a s IH]; intros pos skip; simpl; [done|].
    destruct skip as [|k]; [|done].
    destruct (if Ascii.eqb a quote then find_quote s else None); constructor; simpl; try done.
    unfold byte_kind. by repeat case_match.
  - intros H. by apply (scan_chars EmptyString src 0).
Qed.

(** A source with one string, and an edit that opens another one before it. *)
Definition sample : string :=
  String.append "a b c d e f " (String quote (String.append "x" (String quote EmptyString))).
(** The UTF-8 of U+00E9. *)
Definition two_bytes : string := String (Ascii.ascii_of_nat 195) (String (Ascii.ascii_of_nat 169) EmptyString).
Definition open_quote : string := String quote EmptyString.

End MiniLexer.

(** ** Properties *)

(** C38. An edit of the token cache panics exactly when it is out of the source
    or splits a character; else it replaces exactly the edited bytes of the
    source, and keeps the token spans a partition of it into whole characters:
    no gap, no overlap, no empty token. *)
Theorem apply_edit_partitions logos (Hl : LogosOk logos) c start end_ repl :
  cache_ok c → is_char_boundary repl 0 = true →
  match apply_edit logos c start end_ repl with
  | Some (c', _) => editable (c_src c) start end_ ∧ cache_ok c'
      ∧ c_src c' = (slice (c_src c) 0 start +:+ repl +:+ slice (c_src c) end_ (String.length (c_src c)))%string
  | None => ¬ editable (c_src c) start end_
  end.
Proof.
  intros Hc Hr. assert (editable (c_src c) start end_ ∨ ¬ editable (c_src c) start end_) as [He|Hn].
  { unfold editable. destruct (decide (start ≤ end_)), (decide (end_ ≤ String.length (c_src c))),
      (is_char_boundary (c_src c) start), (is_char_boundary (c_src c) end_); (by left) || (right; naive_solver). }
  - destruct (apply_edit_ok logos c start end_ repl Hc Hr He) as (c' & n & -> & ? & ?). done.
  - by rewrite apply_edit_panics.
Qed.

(** An edit of a source with a two-byte character, and one that splits it. *)
Lemma apply_edit_partitions_witness :
  let c := cache_lex MiniLexer.mini_logos (String.append MiniLexer.two_bytes MiniLexer.sample) in
  cache_ok c ∧ (∃ c' n, apply_edit MiniLexer.mini_logos c 4 6 "xyz" = Some (c', n) ∧ cache_ok c') ∧
  apply_edit MiniLexer.mini_logos c 1 6 "xyz" = None ∧ ¬ editable (c_src c) 1 6.
Proof.
  intros c. assert (cache_ok c) as Hc by (apply cache_lex_ok; [apply MiniLexer.mini_logos_ok|reflexivity]).
  pose proof (apply_edit_partitions MiniLexer.mini_logos MiniLexer.mini_logos_ok c 4 6 "xyz" Hc eq_refl) as H1.
  pose proof (apply_edit_partitions MiniLexer.mini_logos MiniLexer.mini_logos_ok c 1 6 "xyz" Hc eq_refl) as H2.
  split; [exact Hc|]. split; [|split; [reflexivity|]].
  - destruct (apply_edit MiniLexer.mini_logos c 4 6 "xyz") as [[c' n]|] eqn:E; [|vm_compute in E; discriminate].
    exists c', n. split; [reflexivity|apply H1].
  - destruct (apply_edit MiniLexer.mini_logos c 1 6 "xyz") as [[c' n]|] eqn:E; [vm_compute in E; discriminate|exact H2].
Defined.

(** The cache is not a full re-lex: there is a lexer that covers its input
    and an edit (opening a string before another one) after which the cached
    tokens differ from those of lexing the new source, although the module's
    documentation says they must be the same. *)
Theorem incremental_differs_from_fresh :
  ∃ logos, LogosOk logos ∧ ∃ src start end_ repl c' n,
    apply_edit logos (cache_lex logos src) start end_ repl = Some (c', n)
    ∧ c_tokens c' ≠ c_tokens (cache_lex logos (c_src c')).
Proof.
  exists MiniLexer.mini_logos. split; [exact MiniLexer.mini_logos_ok|].
  exists MiniLexer.sample, 0, 0, MiniLexer.open_quote.
  eexists _, _. split; [vm_compute; reflexivity|]. vm_compute. discriminate.
Qed.
