(* ===== verification/ParserTheorems.v ===== *)
(** * What the parser guarantees

    The properties of the [mty-syntax] development: the parser is total and
    never panics, its tree spells the source, it respects the builder's
    protocol and the diagnostics cap, and operators group by the precedence
    table.  [parse_source] is [lex] followed by [parse_with_opts] and the tree
    builder, as [crate::parse] runs them. *)

From stdpp Require Import base list strings numbers sets.
From S2P Require Import Prelude ParserCore GrammarTypes ParserLogic.
From S2P Require Import GrammarTypesSafe GrammarExprs GrammarExprsSafe GrammarItems.
From S2P Require Import GrammarItemsSafe GreenBuilder Lexer.

(** ** Definitions *)

(** [parser::parse_with_opts] on a source; [None] is a panic. *)
Definition parse_source `{OverflowChecks} (logos : string → list LogosItem) (G : GreenBuilder) (src : string)
    (max : N) : option (gb_green G * list ParseError) :=
  match parse_with_opts (lex logos src) max with
  | Done r _ => g ← built G (rev (green r)); Some (g, r_errors r)
  | _ => None
  end.

(** The tree of a log, for the examples. *)
Definition tree_of (r : Res ParseResult) : option Tree :=
  match r with Done r _ => built TreeBuilder (rev (green r)) | _ => None end.

Definition tok (k : SyntaxKind) (text : string) : Token := mkToken k text 0 0.
Definition eof : Token := tok EOF "".

(** The parse of [x op1 y op2 z]. *)
Definition two_operators (op1 op2 : SyntaxKind) : list Token :=
  [tok IDENT "x"; tok op1 "o"; tok IDENT "y"; tok op2 "p"; tok IDENT "z"; eof].

Definition var (x : string) : Tree :=
  Node PATH_EXPR [Node PATH [Node PATH_SEGMENT [Node NAME_REF [Leaf IDENT x]]]].
Definition binary (l : Tree) (op : SyntaxKind) (text : string) (r : Tree) : Tree :=
  Node BINARY_EXPR [l; Leaf op text; r].

(** The rows of the binary operators in the normative table of
    [docs/spec/v1.0-rc.md] §11.1.1, loosest first; the assignments are the
    only right-associative row. *)
Definition spec_rows : list (list SyntaxKind) :=
  [[DOT_DOT; DOT_DOT_EQ];
   [EQ; PLUS_EQ; MINUS_EQ; STAR_EQ; SLASH_EQ; PERCENT_EQ; AMP_EQ; PIPE_EQ; CARET_EQ; SHL_EQ;
    SHR_EQ];
   [PIPE_PIPE]; [AMP_AMP]; [EQ_EQ; BANG_EQ; LT; LT_EQ; GT; GT_EQ]; [PIPE]; [CARET]; [AMP];
   [SHL; SHR]; [PLUS; MINUS]; [STAR; SLASH; PERCENT]].

Definition spec_binary_ops : list SyntaxKind := concat spec_rows.

Fixpoint spec_level (rows : list (list SyntaxKind)) (op : SyntaxKind) : nat :=
  match rows with
  | [] => 0
  | row :: rows => if kind_in op row then 1 else S (spec_level rows op)
  end.

(** The first operator takes the middle operand when it binds tighter, or as
    tightly and to the left. *)
Definition groups_left (op1 op2 : SyntaxKind) : bool :=
  let l1 := spec_level spec_rows op1 in
  let l2 := spec_level spec_rows op2 in
  (l2 <? l1) || ((l1 =? l2) && negb (l1 =? 2)).

Definition expected_grouping (op1 op2 : SyntaxKind) : Tree :=
  if groups_left op1 op2
  then Node FILE [binary (binary (var "x") op1 "o" (var "y")) op2 "p" (var "z")]
  else Node FILE [binary (var "x") op1 "o" (binary (var "y") op2 "p" (var "z"))].

(** The nesting depth after a prefix of the tokens. *)
Fixpoint depth_after (l : list Token) : Z :=
  match l with
  | [] => 0
  | t :: l' =>
      (match t_kind t with
       | L_PAREN | L_BRACK | L_BRACE => 1
       | R_PAREN | R_BRACK | R_BRACE => -1
       | _ => 0
       end + depth_after l')%Z
  end.

Definition depth_site (x : N * Msg * nat * nat) : bool := (x.1.1.1 =? 30)%N.

(** The parse of [op1 x op2 y]. *)
Definition prefix_then_infix (op1 op2 : SyntaxKind) : list Token :=
  [tok op1 "o"; tok IDENT "x"; tok op2 "p"; tok IDENT "y"; eof].
(** The parses of [op x[y]] and [op f(y)]. *)
Definition indexed (op : SyntaxKind) : list Token :=
  [tok op "o"; tok IDENT "x"; tok L_BRACK "["; tok IDENT "y"; tok R_BRACK "]"; eof].
Definition called (op : SyntaxKind) : list Token :=
  [tok op "o"; tok IDENT "f"; tok L_PAREN "("; tok IDENT "y"; tok R_PAREN ")"; eof].

Definition prefix_ops : list SyntaxKind := [MINUS; BANG; STAR].

(** ** Helper lemmas *)

(** Two functions that agree on a list, checked by evaluation. *)
Lemma map_eq_in {A B} (f g : A → B) l x : map f l = map g l → x ∈ l → f x = g x.
Proof.
  induction l as [|y l IH]; simpl; intros H Hx; [by apply not_elem_of_nil in Hx|].
  injection H as H1 H2. apply elem_of_cons in Hx as [->|Hx]; auto.
Qed.

Lemma map_eq_in2 {A B C} (f g : A → B → C) l1 l2 x y :
  map (λ x, map (f x) l2) l1 = map (λ x, map (g x) l2) l1 → x ∈ l1 → y ∈ l2 → f x y = g x y.
Proof. intros H Hx Hy. eapply map_eq_in; [|exact Hy]. by apply (map_eq_in _ _ l1 x H). Qed.

Definition opens (k : SyntaxKind) : bool := kind_in k [L_PAREN; L_BRACK; L_BRACE].
Definition closes (k : SyntaxKind) : bool := kind_in k [R_PAREN; R_BRACK; R_BRACE].

Lemma depth_after_cons t l :
  depth_after (t :: l)
  = ((if opens (t_kind t) then 1 else if closes (t_kind t) then -1 else 0) + depth_after l)%Z.
Proof. simpl. destruct (t_kind t); reflexivity. Qed.

(** One token of the pre-lex scan; [site] is its MT0004 diagnostic, if any. *)
Lemma pre_lex_cons `{OverflowChecks} t l d ex :
  (Z.abs d + Z.of_nat (length (t :: l)) < 2 ^ 31)%Z →
  ∃ site, Forall (λ x, depth_site x = false) site ∧
  pre_lex_sites (t :: l) d ex =
    if opens (t_kind t) then
      if (DEPTH_LIMIT <? d + 1)%Z && negb ex
      then cons (30%N, MDepthLimit DEPTH_LIMIT, t_start t, t_end t) <$> pre_lex_sites l (d + 1) true
      else pre_lex_sites l (d + 1) ex
    else if closes (t_kind t) then pre_lex_sites l (d - 1) ex
    else app site <$> pre_lex_sites l d ex.
Proof.
  cbn [length]. intros Hl. assert (∀ o : option (list (N * Msg * nat * nat)), o = app [] <$> o) as Hnil by by intros [].
  pose proof (i32_add_in d 1 ltac:(lia)) as E1. pose proof (i32_add_in d (-1) ltac:(lia)) as E2.
  destruct (kind_in (t_kind t) [INT_LITERAL; DURATION_LITERAL]) eqn:E.
  - assert (∀ k, (k = INT_LITERAL ∨ k = DURATION_LITERAL) → opens k = false ∧ closes k = false) as Hk'.
    { by intros k [-> | ->]. }
    assert (t_kind t = INT_LITERAL ∨ t_kind t = DURATION_LITERAL) as Hk.
    { unfold kind_in in E. simpl in E. rewrite !orb_true_iff, !kind_eqb_eq in E. naive_solver. }
    destruct (Hk' _ Hk) as [-> ->]. destruct l as [|next l].
    { exists []. split; [done|]. simpl. by destruct Hk as [-> | ->]. }
    remember (next :: l) as l' eqn:Hl'.
    destruct (kind_eqb (t_kind next) IDENT && (t_start next =? t_end t)
      && (if kind_eqb (t_kind t) DURATION_LITERAL then true
          else is_duration_unit_like (t_text next))) eqn:Ec.
    + destruct Hk as [Hk|Hk]; (eexists [_]; split; cycle 1;
        [simpl; rewrite Hk in *; rewrite Hl', Ec; reflexivity|by constructor]).
    + exists []. split; [done|]. rewrite <- Hnil. simpl.
      destruct Hk as [Hk|Hk]; rewrite Hk in *; rewrite Hl', Ec; reflexivity.
  - exists []. split; [done|]. rewrite <- Hnil. cbn [pre_lex_sites]. rewrite E1, E2. cbn [mbind option_bind].
    destruct (t_kind t); first [reflexivity|discriminate E].
Qed.

Lemma filter_no_sites site l :
  Forall (λ x, depth_site x = false) site →
  filter (λ x, depth_site x = true) (site ++ l) = filter (λ x, depth_site x = true) l.
Proof.
  intros H. induction H as [|x site Hx H IH]; [done|]. simpl.
  rewrite filter_cons_False by congruence. done.
Qed.

Notation depth_sites := (filter (λ x, depth_site x = true)).

Lemma sites_after_exceeded `{OverflowChecks} l d :
  (Z.abs d + Z.of_nat (length l) < 2 ^ 31)%Z → ∃ found, pre_lex_sites l d true = Some found ∧ depth_sites found = [].
Proof.
  revert d. induction l as [|t l IH]; intros d Hl; [by exists []|].
  destruct (pre_lex_cons t l d true Hl) as (site & Hs & ->). rewrite andb_false_r. cbn [length] in Hl.
  destruct (opens _); [apply IH; lia|]. destruct (closes _); [apply IH; lia|].
  destruct (IH d) as (found & -> & Hf); [lia|]. exists (site ++ found). by rewrite filter_no_sites.
Qed.

(** Below the limit, the scan reports a depth site exactly when some later
    prefix goes over it. *)
Lemma depth_sites_spec `{OverflowChecks} l d :
  (d ≤ DEPTH_LIMIT)%Z → (Z.abs d + Z.of_nat (length l) < 2 ^ 31)%Z →
  ∃ found, pre_lex_sites l d false = Some found ∧
    length (depth_sites found) ≤ 1 ∧ (depth_sites found ≠ [] ↔ ∃ i, (DEPTH_LIMIT < d + depth_after (take i l))%Z).
Proof.
  revert d. induction l as [|t l IH]; intros d Hd Hl.
  - exists []. split; [done|]. simpl. split; [lia|]. split; [done|]. intros [i Hi]. rewrite take_nil in Hi. simpl in Hi. lia.
  - destruct (pre_lex_cons t l d false Hl) as (site & Hs & ->). rewrite andb_true_r. cbn [length] in Hl.
    assert (∀ d', (d' ≤ DEPTH_LIMIT)%Z → d' = (d + (if opens (t_kind t) then 1
              else if closes (t_kind t) then -1 else 0))%Z →
      (∃ i, (DEPTH_LIMIT < d + depth_after (take i (t :: l)))%Z)
      ↔ ∃ i, (DEPTH_LIMIT < d' + depth_after (take i l))%Z) as Hstep.
    { intros d' Hd' ->. split.
      - intros [[|i] Hi]; [simpl in Hi; lia|]. exists i. cbn [take] in Hi.
        rewrite depth_after_cons in Hi. lia.
      - intros [i Hi]. exists (S i). cbn [take]. rewrite depth_after_cons. lia. }
    destruct (opens (t_kind t)) eqn:Ho.
    + destruct (Z.ltb_spec DEPTH_LIMIT (d + 1)).
      * destruct (sites_after_exceeded l (d + 1)) as (found & -> & Hf); [lia|]. eexists. split; [done|].
        rewrite filter_cons_True by done. rewrite Hf. simpl.
        split; [lia|]. split; [|done]. intros _. exists 1. cbn [take].
        rewrite depth_after_cons, Ho. simpl. lia.
      * destruct (IH (d + 1)%Z) as (found & -> & H1 & H2); [lia..|]. exists found. split; [done|]. split; [done|].
        by rewrite H2, <- (Hstep (d + 1)%Z) by (done || lia).
    + destruct (closes (t_kind t)) eqn:Hc.
      * destruct (IH (d - 1)%Z) as (found & -> & H1 & H2); [lia..|]. exists found. split; [done|]. split; [done|].
        by rewrite H2, <- (Hstep (d - 1)%Z) by (done || lia).
      * destruct (IH d) as (found & -> & H1 & H2); [lia..|]. exists (site ++ found). split; [done|].
        rewrite filter_no_sites by done. split; [done|]. by rewrite H2, <- (Hstep d) by (done || lia).
Qed.

(** The well-formedness of the sample token vectors. *)
Lemma two_operators_wf op1 op2 : op1 ≠ EOF → op2 ≠ EOF → wf_tokens (two_operators op1 op2).
Proof.
  intros H1 H2. exists (take 5 (two_operators op1 op2)), eof. split_and!; try reflexivity.
  by repeat constructor.
Qed.

(** ** Properties *)

(** C1. Parsing a source never panics and always finishes: the result is a
    tree whose text is the source, byte for byte, and at most [max]
    diagnostics.  This holds of every lexer that covers its input and every
    builder that keeps its documented protocol, and of every source; only in a
    build that checks arithmetic for overflow must the source have fewer than
    2^31 tokens, as the scan counts its brackets in an [i32]. *)
Theorem parse_source_round_trip `{OverflowChecks} logos G (Hl : LogosOk logos) (Hg : GreenBuilderOk G) src max :
  (overflow_checks = true → (Z.of_nat (length (lex logos src)) < 2 ^ 31)%Z) →
  ∃ g errs, parse_source logos G src max = Some (g, errs) ∧ gb_text G g = src
            ∧ (N.of_nat (length errs) ≤ max)%N.
Proof.
  intros Hlen. destruct (parse_with_opts_ok (lex logos src) max) as (r & s & Hr & (l & El & Hf) & Ht & He & _).
  { by apply lex_wf'. }
  { exact Hlen. }
  unfold parse_source. rewrite Hr.
  assert (length (green r) = S (length l)) as Hlog by (by rewrite <- length_rev, El).
  rewrite El, Hlog in Hf. destruct (gb_finish_ok l Hf) as (g & Hg' & Hgt).
  rewrite El, Hg'. simpl. exists g, (r_errors r). split; [done|]. split; [|done].
  rewrite Hgt, <- El. unfold green_text in Ht. rewrite Ht. by apply lex_text'.
Qed.

Lemma parse_source_round_trip_witness :
  ∃ g errs, @parse_source true MiniLexer.mini_logos TreeBuilder MiniLexer.sample 3 = Some (g, errs)
            ∧ gb_text TreeBuilder g = MiniLexer.sample ∧ (N.of_nat (length errs) ≤ 3)%N.
Proof.
  apply (@parse_source_round_trip true MiniLexer.mini_logos TreeBuilder MiniLexer.mini_logos_ok
           TreeBuilder_ok MiniLexer.sample 3).
  intros _. vm_compute. reflexivity.
Defined.

(** The entry points for a single type, pattern or expression finish
    without a panic on every token vector; their tree has a single root and
    spells a prefix of the source. *)
Theorem parse_one_total toks :
  wf_tokens toks →
  Forall (λ entry, ∃ r s p, entry toks = Done r s ∧ run_ok usize_max (tokens_text (take p toks)) r)
    [parse_type; parse_pattern; parse_expr].
Proof.
  intros wfT. repeat constructor.
  - destruct (parse_one_ok type_expr toks usize_max gain_true wfT) as (r & s & p & Hr & _ & Hok);
      [intros c n ok; apply ok|eauto].
  - destruct (parse_one_ok pattern toks usize_max gain_true wfT) as (r & s & p & Hr & _ & Hok);
      [intros c n ok; apply ok|eauto].
  - destruct (parse_one_ok Types.expr toks usize_max gain_true wfT) as (r & s & p & Hr & _ & Hok).
    + intros c n ok. by eapply expr_safe.
    + eauto.
Qed.

Lemma parse_one_total_witness :
  wf_tokens (two_operators PLUS STAR) ∧
  Forall (λ entry, ∃ r s p, entry (two_operators PLUS STAR) = Done r s
            ∧ run_ok usize_max (tokens_text (take p (two_operators PLUS STAR))) r)
    [parse_type; parse_pattern; parse_expr].
Proof.
  assert (wf_tokens (two_operators PLUS STAR)) as H by (apply two_operators_wf; discriminate).
  split; [exact H|exact (parse_one_total _ H)].
Defined.

(** Wherever the parser stands with enough recursion left, parsing an
    expression returns, leaves the builder's open nodes and the struct-literal
    flag as they were, and consumes a token if the current one can start an
    expression: no caller's loop can spin on it. *)
Theorem expr_keeps_invariant toks max b m K p n s :
  wf_tokens toks → St toks max b (m :: K) p s → 3 * (length toks - p) + 2 ≤ n →
  ∃ r s' p', Types.expr (grammar n) s = Done r s' ∧ St toks max b (m :: K) p' s' ∧ p ≤ p'
             ∧ (can_start_expr (kind_at toks p) = true → p < p').
Proof.
  intros wfT HS Hn.
  assert (wp (Types.expr (grammar n)) (λ _ s', ∃ p', p ≤ p' ∧ St toks max b (m :: K) p' s'
            ∧ (can_start_expr (kind_at toks p) = true → p < p')) s) as H.
  { unfold Types.expr. apply wp_bind.
    eapply wp_safe; [by apply (ok_expr_bp _ _ _ _ (grammar_ok toks max n wfT))|exact HS|done|done|].
    intros a p' s' Hp Hg HS'. apply wp_ret. exists p'. split_and!; [done|done|].
    intros Hc. apply Hg. by right. }
  unfold wp in H. destruct (Types.expr (grammar n) s) as [r s'| |]; [|done..].
  destruct H as (p' & Hp & HS' & Hg). by exists r, s', p'.
Qed.

Lemma expr_keeps_invariant_witness :
  ∃ s, St (two_operators PLUS STAR) 9 true [[]] 0 s ∧
    ∃ r s' p', Types.expr (grammar 20) s = Done r s'
      ∧ St (two_operators PLUS STAR) 9 true [[]] p' s' ∧ 0 ≤ p'
      ∧ (can_start_expr (kind_at (two_operators PLUS STAR) 0) = true → 0 < p').
Proof.
  assert (wf_tokens (two_operators PLUS STAR)) as H by (apply two_operators_wf; discriminate).
  set (s := mkP (two_operators PLUS STAR) 0 [CStartNode FILE] [] true 9).
  assert (St (two_operators PLUS STAR) 9 true [[]] 0 s) as HS.
  { split; try reflexivity; try (simpl; lia). split; [discriminate|]. exists [[1]].
    split; [reflexivity|]. split.
    - constructor; [intros x Hx; inversion Hx|constructor].
    - split; [repeat constructor|]. exists [1], []. split; [reflexivity|]. simpl. constructor. }
  exists s. split; [exact HS|].
  apply (expr_keeps_invariant _ 9 true [] [] 0 20 s H HS). simpl. lia.
Defined.

(** C3. Two binary operators group as the normative precedence table of the
    language specification says, over every pair of them: [x op1 y op2 z] is
    [(x op1 y) op2 z] when [op1] binds tighter, or as tightly without being an
    assignment, and [x op1 (y op2 z)] otherwise. *)
Theorem operators_group_by_precedence op1 op2 :
  op1 ∈ spec_binary_ops → op2 ∈ spec_binary_ops →
  tree_of (parse_expr (two_operators op1 op2)) = Some (expected_grouping op1 op2).
Proof.
  apply (map_eq_in2 (λ op1 op2, tree_of (parse_expr (two_operators op1 op2)))
           (λ op1 op2, Some (expected_grouping op1 op2))).
  vm_compute. reflexivity.
Qed.

Lemma operators_group_by_precedence_witness :
  MINUS ∈ spec_binary_ops ∧
  tree_of (parse_expr (two_operators MINUS MINUS)) = Some (expected_grouping MINUS MINUS).
Proof.
  assert (MINUS ∈ spec_binary_ops) as H by (apply (bool_decide_unpack _); vm_compute; exact I).
  split; [exact H|]. exact (operators_group_by_precedence MINUS MINUS H H).
Defined.

(** A prefix operator [-], [!] or [*] takes only the next operand, whatever
    binary operator follows: [-x op y] is [(-x) op y]. *)
Theorem prefix_binds_tightest op1 op2 :
  op1 ∈ prefix_ops → op2 ∈ spec_binary_ops →
  tree_of (parse_expr (prefix_then_infix op1 op2))
  = Some (Node FILE [binary (Node UNARY_EXPR [Leaf op1 "o"; var "x"]) op2 "p" (var "y")]).
Proof.
  apply (map_eq_in2 (λ op1 op2, tree_of (parse_expr (prefix_then_infix op1 op2)))
           (λ op1 op2, Some (Node FILE
              [binary (Node UNARY_EXPR [Leaf op1 "o"; var "x"]) op2 "p" (var "y")]))).
  vm_compute. reflexivity.
Qed.

Lemma prefix_binds_tightest_witness :
  tree_of (parse_expr (prefix_then_infix MINUS STAR))
  = Some (Node FILE [binary (Node UNARY_EXPR [Leaf MINUS "o"; var "x"]) STAR "p" (var "y")]).
Proof.
  apply (prefix_binds_tightest MINUS STAR); apply (bool_decide_unpack _); vm_compute; exact I.
Defined.

(** A borrow takes its operand before any postfix operator, unlike the
    other prefix operators and unlike the precedence table, which puts the
    postfix operators above every prefix one: [&x[y]] is [(&x)[y]] where [-x[y]]
    is [-(x[y])], and [&f(y)] is rejected with a diagnostic. *)
Theorem borrow_binds_tighter_than_postfix :
  tree_of (parse_expr (indexed AMP))
    = Some (Node FILE [Node INDEX_EXPR [Node BORROW_EXPR [Leaf AMP "o"; var "x"];
                                        Leaf L_BRACK "["; var "y"; Leaf R_BRACK "]"]])
  ∧ tree_of (parse_expr (indexed MINUS))
    = Some (Node FILE [Node UNARY_EXPR [Leaf MINUS "o";
                         Node INDEX_EXPR [var "x"; Leaf L_BRACK "["; var "y"; Leaf R_BRACK "]"]]])
  ∧ ∃ r s e, parse_expr (called AMP) = Done r s ∧ r_errors r = [e]
             ∧ e_message e = MText Exprs.not_callable_msg.
Proof.
  split; [vm_compute; reflexivity|]. split; [vm_compute; reflexivity|].
  eexists _, _, _. split; [vm_compute; reflexivity|]. split; reflexivity.
Qed.

(** The pre-lex scan reports MT0030 at most once, and does so exactly when
    the nesting of brackets goes over 256 somewhere in the file. *)
Theorem depth_limit_exact `{OverflowChecks} toks :
  (Z.of_nat (length toks) < 2 ^ 31)%Z →
  ∃ found, pre_lex_sites toks 0 false = Some found ∧
    length (depth_sites found) ≤ 1 ∧ (depth_sites found ≠ [] ↔ ∃ i, (256 < depth_after (take i toks))%Z).
Proof. intros Hl. apply (depth_sites_spec toks 0); unfold DEPTH_LIMIT; lia. Qed.
