(* ===== verification/TyArena.v ===== *)
(** * Types, the type arena and capability constraints

    [crates/mty-types/src/ty.rs].  A [TyId] is an index into the arena's
    storage; [TyArena::intern] shares equal types, so that two interned types
    are equal exactly when their ids are.  [CapConstraint::is_narrower_or_eq]
    decides whether a capability may be passed where another is expected. *)

From stdpp Require Import base list strings numbers sets.
From S2P Require Import Prelude.

Notation TyId := nat (only parsing).
Notation TyVarId := nat (only parsing).
Notation EffectId := nat (only parsing).
Notation ParamId := nat (only parsing).
Notation AdtId := nat (only parsing).

Inductive IntKind : Set :=
  | I8 | I16 | I32 | I64 | I128 | U8 | U16 | U32 | U64 | U128 | USize | ISize | IntInfer.

Inductive FloatKind : Set := F32 | F64 | FloatInfer.

Inductive CapFamily : Set :=
  | Net | Fs | Clock | Dom | Model | Custom (name : string).

Inductive CapConstraint : Set :=
  | CAny
  | CReadOnly
  | CPath (p : string)
  | CHost (hosts : list string)
  | CAnd (cs : list CapConstraint).

Inductive TyData : Set :=
  | TBool | TInt (k : IntKind) | TFloat (k : FloatKind) | TChar | TStr | TString | TBytes
  | TUnit | TNever | TDuration | TSize
  | TTuple (xs : list TyId)
  | TArray (elem : TyId) (len : option Z)
  | TRef (mutable : bool) (inner : TyId)
  | TFn (params : list TyId) (ret : TyId) (effects : list EffectId)
  | TAdt (d : AdtId) (args : list TyId)
  | TVar (v : TyVarId)
  | TParam (p : ParamId)
  | TRawPtr (inner : TyId)
  | TModule (name : string)
  | TCap (family : CapFamily) (constraint : CapConstraint)
  | TDyn (trait_name : string)
  | TError.

#[export] Instance IntKind_eq_dec : EqDecision IntKind.
Proof. solve_decision. Defined.
#[export] Instance FloatKind_eq_dec : EqDecision FloatKind.
Proof. solve_decision. Defined.
#[export] Instance CapFamily_eq_dec : EqDecision CapFamily.
Proof. solve_decision. Defined.

(** The derived [PartialEq] of [CapConstraint]. *)
Fixpoint cap_eqb (a b : CapConstraint) {struct a} : bool :=
  match a, b with
  | CAny, CAny | CReadOnly, CReadOnly => true
  | CPath p, CPath q => bool_decide (p = q)
  | CHost hs, CHost gs => bool_decide (hs = gs)
  | CAnd xs, CAnd ys =>
      (fix go xs ys :=
         match xs, ys with
         | [], [] => true
         | x :: xs, y :: ys => cap_eqb x y && go xs ys
         | _, _ => false
         end) xs ys
  | _, _ => false
  end.

(** Induction with a hypothesis for every member of a conjunction. *)
Lemma cap_ind (Q : CapConstraint → Prop) :
  Q CAny → Q CReadOnly → (∀ p, Q (CPath p)) → (∀ hs, Q (CHost hs)) →
  (∀ cs, Forall Q cs → Q (CAnd cs)) → ∀ c, Q c.
Proof.
  intros H1 H2 H3 H4 H5. fix IH 1. intros [| |p|hs|cs]; [done|done|done|done|].
  apply H5. induction cs as [|c cs IHcs]; constructor; [apply IH|exact IHcs].
Qed.

Lemma cap_eqb_eq a b : cap_eqb a b = true ↔ a = b.
Proof.
  revert b. induction a as [| |p|hs|xs IH] using cap_ind; intros b; destruct b as [| |q|gs|ys];
    simpl; rewrite ?bool_decide_eq_true; try (split; congruence).
  revert ys. induction IH as [|x xs Hx _ IH]; intros [|y ys]; simpl; try (split; congruence).
  rewrite andb_true_iff, Hx, IH. split; [by intros [-> [= ->]]|by intros [= -> ->]].
Qed.

#[export] Instance CapConstraint_eq_dec : EqDecision CapConstraint.
Proof.
  intros a b. destruct (cap_eqb a b) eqn:E; [left|right].
  - by apply cap_eqb_eq.
  - intros H. apply cap_eqb_eq in H. congruence.
Defined.

#[export] Instance TyData_eq_dec : EqDecision TyData.
Proof. solve_decision. Defined.

(** ** Capability constraints *)

(** [str::starts_with] *)
Definition starts_with (s p : string) : bool := String.prefix p s.

(** [self.is_narrower_or_eq(other)] *)
Fixpoint is_narrower_or_eq (self other : CapConstraint) {struct self} : bool :=
  if cap_eqb other CAny then true
  else if cap_eqb self other then true
  else match self with
       | CAnd xs => existsb (λ x, is_narrower_or_eq x other) xs
       | _ =>
           match self, other with
           | CPath a, CPath b => starts_with a b
           | CHost a, CHost b => forallb (λ h, bool_decide (h ∈ b)) a
           | CReadOnly, CReadOnly => true
           | _, _ => false
           end
       end.

Lemma prefix_trans p q s : String.prefix p q = true → String.prefix q s = true → String.prefix p s = true.
Proof.
  revert q s. induction p as [|a p IH]; intros [|b q] [|c s]; simpl; try done.
  destruct (Ascii.ascii_dec a b) as [->|]; [|done].
  destruct (Ascii.ascii_dec b c) as [->|]; [|done]. apply IH.
Qed.

(** The cases of a successful narrowing test. *)
Lemma is_narrower_inv a b :
  is_narrower_or_eq a b = true →
  b = CAny ∨ a = b ∨ (∃ xs x, a = CAnd xs ∧ x ∈ xs ∧ is_narrower_or_eq x b = true)
  ∨ (∃ p q, a = CPath p ∧ b = CPath q ∧ starts_with p q = true)
  ∨ (∃ hs gs, a = CHost hs ∧ b = CHost gs ∧ hs ⊆ gs).
Proof.
  intros H. destruct a; simpl in H;
    (destruct (cap_eqb b CAny) eqn:E1; [left; by apply cap_eqb_eq|]);
    (match type of H with (if ?c then _ else _) = _ => destruct c eqn:E2 end;
       [right; left; by apply cap_eqb_eq|]);
    try (destruct b; naive_solver).
  - destruct b as [| | |gs|]; try done. do 4 right. exists hosts, gs. split_and!; [done|done|].
    intros h Hh. rewrite forallb_forall in H. apply list_elem_of_In, H in Hh.
    by apply bool_decide_eq_true in Hh.
  - apply existsb_exists in H as (x & Hx & H). do 2 right. left. exists cs, x.
    split_and!; [done|by apply list_elem_of_In|done].
Qed.

Lemma is_narrower_intro_and xs x b :
  x ∈ xs → is_narrower_or_eq x b = true → is_narrower_or_eq (CAnd xs) b = true.
Proof.
  intros Hx H. cbn [is_narrower_or_eq]. destruct (cap_eqb b CAny); [done|].
  destruct (cap_eqb _ b); [done|]. apply existsb_exists. exists x. by rewrite <- list_elem_of_In.
Qed.

Lemma is_narrower_eq a b : a = b → is_narrower_or_eq a b = true.
Proof.
  intros ->. assert (cap_eqb b b = true) as H by (by apply cap_eqb_eq).
  destruct b; cbn [is_narrower_or_eq]; rewrite H; by destruct (cap_eqb _ CAny).
Qed.

Lemma is_narrower_top a : is_narrower_or_eq a CAny = true.
Proof. by destruct a. Qed.

Lemma is_narrower_any c : is_narrower_or_eq CAny c = true → c = CAny.
Proof. intros [?|[?|[?|[?|?]]]]%is_narrower_inv; naive_solver. Qed.

Lemma is_narrower_path p q : starts_with p q = true → is_narrower_or_eq (CPath p) (CPath q) = true.
Proof. intros H. simpl. by case_bool_decide. Qed.

Lemma is_narrower_host hs gs : hs ⊆ gs → is_narrower_or_eq (CHost hs) (CHost gs) = true.
Proof.
  intros H. simpl. case_bool_decide; [done|]. apply forallb_forall. intros h Hh.
  apply bool_decide_eq_true. by apply H, list_elem_of_In.
Qed.

Lemma is_narrower_trans' a b c :
  is_narrower_or_eq a b = true → is_narrower_or_eq b c = true → is_narrower_or_eq a c = true.
Proof.
  revert b c. induction a as [| |p|hs|xs IH] using cap_ind; intros b c Hab Hbc;
    apply is_narrower_inv in Hab as
      [->|[<-|[(xs' & x & [= <-] & Hx & Hxb)|[(p' & q & [= <-] & -> & Hpq)
                                              |(hs' & gs & [= <-] & -> & Hsub)]]]];
    try done; try (apply is_narrower_any in Hbc as ->; apply is_narrower_top).
  - apply is_narrower_inv in Hbc as
      [->|[<-|[(xs' & x & [=] & _)|[(p' & q' & [= <-] & -> & Hpq')|(? & ? & [=] & _)]]]].
    + apply is_narrower_top.
    + by apply is_narrower_path.
    + apply is_narrower_path. by eapply prefix_trans.
  - apply is_narrower_inv in Hbc as
      [->|[<-|[(xs' & x & [=] & _)|[(? & ? & [=] & _)|(hs' & gs' & [= <-] & -> & Hsub')]]]].
    + apply is_narrower_top.
    + by apply is_narrower_host.
    + apply is_narrower_host. set_solver.
  - eapply is_narrower_intro_and; [exact Hx|]. rewrite Forall_forall in IH. by eapply IH.
Qed.

(** ** The arena *)

(** The ids of the pre-interned primitives: public fields of the source's
    [TyArena], set by [new] and never written again. *)
Record Prims := mkPrims {
  bool_ : TyId; unit_ : TyId; never : TyId; char_ : TyId; str_ : TyId; string_ : TyId;
  bytes : TyId; error_ : TyId; duration : TyId; size_ : TyId; int_infer : TyId;
  float_infer : TyId; i8 : TyId; i16 : TyId; i32 : TyId; i64 : TyId; i128 : TyId; u8 : TyId;
  u16 : TyId; u32 : TyId; u64 : TyId; u128 : TyId; usize : TyId; isize : TyId; f32 : TyId;
  f64 : TyId
}.

(** [storage] is the [la_arena] vector; [interned] is the [HashMap], which is
    only inserted into when the key is absent. *)
Record TyArena := mkArena {
  storage : list TyData;
  interned : list (TyData * TyId);
  prims : Prims
}.

Fixpoint map_get (m : list (TyData * TyId)) (ty : TyData) : option TyId :=
  match m with
  | [] => None
  | (k, id) :: m' => if decide (k = ty) then Some id else map_get m' ty
  end.

(** [intern] on the storage and the map, shared with [TyArena::new]. *)
Definition alloc (st : list TyData * list (TyData * TyId)) (ty : TyData) :
    (list TyData * list (TyData * TyId)) * TyId :=
  match map_get st.2 ty with
  | Some id => (st, id)
  | None => ((st.1 ++ [ty], (ty, length st.1) :: st.2), length st.1)
  end.

Definition intern (A : TyArena) (ty : TyData) : TyArena * TyId :=
  let '(st, id) := alloc (storage A, interned A) ty in
  (mkArena st.1 st.2 (prims A), id).

(** [TyArena::get]; indexing past the storage panics. *)
Definition get (A : TyArena) (id : TyId) : option TyData := storage A !! id.

Definition prim_data : list TyData :=
  [TBool; TUnit; TNever; TChar; TStr; TString; TBytes; TError; TDuration; TSize; TInt IntInfer;
   TFloat FloatInfer; TInt I8; TInt I16; TInt I32; TInt I64; TInt I128; TInt U8; TInt U16;
   TInt U32; TInt U64; TInt U128; TInt USize; TInt ISize; TFloat F32; TFloat F64].

(** [TyArena::new]: allocate the primitives in order. *)
Definition alloc_step (acc : (list TyData * list (TyData * TyId)) * list TyId) (ty : TyData) :=
  let '(st', id) := alloc acc.1 ty in (st', acc.2 ++ [id]).

Definition new : TyArena :=
  let '(st, ids) := fold_left alloc_step prim_data (([], []), []) in
  let p i := nth i ids 0 in
  mkArena st.1 st.2
    (mkPrims (p 0) (p 1) (p 2) (p 3) (p 4) (p 5) (p 6) (p 7) (p 8) (p 9) (p 10) (p 11) (p 12)
       (p 13) (p 14) (p 15) (p 16) (p 17) (p 18) (p 19) (p 20) (p 21) (p 22) (p 23) (p 24) (p 25)).

Definition int (A : TyArena) (k : IntKind) : TyId :=
  let P := prims A in
  match k with
  | I8 => i8 P | I16 => i16 P | I32 => i32 P | I64 => i64 P | I128 => i128 P
  | U8 => u8 P | U16 => u16 P | U32 => u32 P | U64 => u64 P | U128 => u128 P
  | USize => usize P | ISize => isize P | IntInfer => int_infer P
  end.

Definition float (A : TyArena) (k : FloatKind) : TyId :=
  match k with
  | F32 => f32 (prims A) | F64 => f64 (prims A) | FloatInfer => float_infer (prims A)
  end.

Definition ref_to (A : TyArena) (mutable : bool) (inner : TyId) := intern A (TRef mutable inner).
Definition tuple (A : TyArena) (xs : list TyId) : TyArena * TyId :=
  match xs with [] => (A, unit_ (prims A)) | _ => intern A (TTuple xs) end.
Definition array (A : TyArena) (elem : TyId) (len : option Z) := intern A (TArray elem len).
Definition adt (A : TyArena) (d : AdtId) (args : list TyId) := intern A (TAdt d args).
Definition fn_ty (A : TyArena) (params : list TyId) (ret : TyId) (effects : list EffectId) :=
  intern A (TFn params ret effects).
Definition var (A : TyArena) (v : TyVarId) := intern A (TVar v).
Definition param (A : TyArena) (p : ParamId) := intern A (TParam p).
Definition raw_ptr (A : TyArena) (inner : TyId) := intern A (TRawPtr inner).
Definition module (A : TyArena) (name : string) := intern A (TModule name).
Definition cap (A : TyArena) (f : CapFamily) (c : CapConstraint) := intern A (TCap f c).
Definition dyn_trait (A : TyArena) (name : string) := intern A (TDyn name).

(** The types a type is built from. *)
Definition children (d : TyData) : list TyId :=
  match d with
  | TTuple xs => xs
  | TArray e _ => [e]
  | TRef _ i => [i]
  | TFn ps r _ => ps ++ [r]
  | TAdt _ args => args
  | TRawPtr i => [i]
  | _ => []
  end.

(** The map mirrors the storage, no type is stored twice, and a type is built
    from earlier ones. *)
Record arena_ok (A : TyArena) : Prop := {
  ao_map ty id : map_get (interned A) ty = Some id ↔ storage A !! id = Some ty;
  ao_children id d c : storage A !! id = Some d → c ∈ children d → c < id
}.

Lemma arena_no_dup A i j ty :
  arena_ok A → storage A !! i = Some ty → storage A !! j = Some ty → i = j.
Proof. intros H Hi%(ao_map _ H) Hj%(ao_map _ H). congruence. Qed.

(** The arena only grows. *)
Definition arena_le (A A' : TyArena) : Prop :=
  storage A `prefix_of` storage A' ∧ prims A = prims A'.

Lemma arena_le_get A A' id d : arena_le A A' → get A id = Some d → get A' id = Some d.
Proof. intros [Hp _] H. unfold get in *. by eapply prefix_lookup_Some. Qed.

#[export] Instance arena_le_preorder : PreOrder arena_le.
Proof.
  split; [by split|]. intros A B C [H1 P1] [H2 P2]. split; [by etrans|congruence].
Qed.

Definition mirrors (st : list TyData * list (TyData * TyId)) : Prop :=
  ∀ ty id, map_get st.2 ty = Some id ↔ st.1 !! id = Some ty.

Lemma alloc_mirrors st ty :
  mirrors st → mirrors (alloc st ty).1 ∧ (alloc st ty).1.1 !! (alloc st ty).2 = Some ty
  ∧ st.1 `prefix_of` (alloc st ty).1.1.
Proof.
  intros HA. unfold alloc. destruct (map_get st.2 ty) as [id|] eqn:E; simpl.
  - split_and!; [done|by apply HA|done].
  - split_and!.
    + intros ty' id. simpl. destruct (decide (ty = ty')) as [<-|Hne].
      * split.
        -- intros [= <-]. rewrite lookup_app_r by lia. by rewrite Nat.sub_diag.
        -- intros H. apply lookup_app_Some in H as [H|[Hle H]].
           ++ apply HA in H. congruence.
           ++ apply lookup_lt_Some in H as Hl. simpl in Hl. f_equal. lia.
      * rewrite (HA ty' id). split; [by apply lookup_app_l_Some|].
        intros H. apply lookup_app_Some in H as [H|[Hle H]]; [done|].
        destruct (id - length st.1) as [|n]; simpl in H; [congruence|done].
    + rewrite lookup_app_r by lia. by rewrite Nat.sub_diag.
    + by apply prefix_app_r.
Qed.

Lemma alloc_steps_mirror tys acc : mirrors acc.1 → mirrors (fold_left alloc_step tys acc).1.
Proof.
  revert acc. induction tys as [|ty tys IH]; intros acc H; [done|]. apply IH.
  unfold alloc_step. pose proof (alloc_mirrors acc.1 ty H) as [H' _].
  by destruct (alloc acc.1 ty).
Qed.

Lemma storage_new : storage new = prim_data.
Proof. vm_compute. reflexivity. Qed.

Lemma new_ok : arena_ok new.
Proof.
  split.
  - unfold new. pose proof (alloc_steps_mirror prim_data (([], []), [])) as H.
    destruct (fold_left alloc_step prim_data ([], [], [])) as [st ids]. apply H. by intros ty id.
  - intros id d c H Hc. rewrite storage_new in H.
    apply list_elem_of_lookup_2 in H as Hd.
    assert (Forall (λ d, children d = []) prim_data) as Hall by (repeat constructor).
    rewrite Forall_forall in Hall. rewrite (Hall d Hd) in Hc. by apply not_elem_of_nil in Hc.
Qed.

Lemma intern_ok A ty :
  arena_ok A → Forall (λ c, c < length (storage A)) (children ty) →
  arena_ok (intern A ty).1 ∧ get (intern A ty).1 (intern A ty).2 = Some ty
  ∧ arena_le A (intern A ty).1.
Proof.
  intros HA Hc. unfold intern.
  pose proof (alloc_mirrors (storage A, interned A) ty (ao_map _ HA)) as (Hm & Hg & Hp).
  destruct (alloc (storage A, interned A) ty) as [st id] eqn:E. simpl in *.
  split_and!; [|done|by split]. split; [done|]. simpl. intros id' d c H Hin.
  unfold alloc in E. simpl in E. destruct (map_get (interned A) ty); injection E as <- <-; simpl in *.
  - by eapply (ao_children _ HA).
  - apply lookup_app_Some in H as [H|[Hle H]]; [by eapply (ao_children _ HA)|].
    destruct (id' - length (storage A)) as [|n] eqn:En; simpl in H; [|done].
    injection H as <-. rewrite Forall_forall in Hc. apply Hc in Hin. lia.
Qed.
