(* ===== verification/Infer.v ===== *)
(** * Substitutions and unification

    [crates/mty-types/src/infer.rs].  [resolve] and [unify] are recursive
    without a structural measure (a chain of bindings, types under bindings),
    so the model gives them fuel; [None] is a panic on an index out of range
    or running out of fuel, and [ev f x] says that [f] returns [x] whenever it
    has enough fuel.  The invariant [subst_ok] that makes them terminate is
    that no type is reachable from itself through bindings, which is what the
    occurs check maintains. *)

From stdpp Require Import base list strings numbers sets gmap.
From stdpp Require Import well_founded.
From S2P Require Import Prelude TyArena.

(** ** Definitions *)

(** [Substitution]: [slots], one per variable. *)
Notation Substitution := (list (option TyId)) (only parsing).

Definition fresh_var (s : Substitution) : Substitution * TyVarId := (s ++ [None], length s).

(** [slots.resize(idx + 1, None)] when the index is past the end. *)
Definition bind (s : Substitution) (v : TyVarId) (ty : TyId) : Substitution :=
  <[v := Some ty]> (s ++ replicate (S v - length s) None).

(** [slots.get(var).copied().flatten()] *)
Definition sget (s : Substitution) (v : TyVarId) : option TyId := mjoin (s !! v).

Fixpoint resolve (n : nat) (s : Substitution) (A : TyArena) (cur : TyId) : option TyId :=
  match n with
  | 0 => None
  | S n =>
      d ← get A cur;
      match d with
      | TVar v =>
          match sget s v with
          | Some next => if next =? cur then Some cur else resolve n s A next
          | None => Some cur
          end
      | _ => Some cur
      end
  end.

Inductive UnifyError : Set := Mismatch | Occurs | ArityMismatch.
Inductive Outcome : Set := Ok | Err (e : UnifyError).

(** [iter().any(f)]: stops at the first [true]. *)
Fixpoint any_opt {X} (f : X → option bool) (l : list X) : option bool :=
  match l with
  | [] => Some false
  | x :: l => b ← f x; if b : bool then Some true else any_opt f l
  end.

Fixpoint occurs_check (n : nat) (v : TyVarId) (ty : TyId) (s : Substitution) (A : TyArena) :
    option bool :=
  match n with
  | 0 => None
  | S n =>
      ty ← resolve n s A ty;
      d ← get A ty;
      match d with
      | TVar w => Some (w =? v)
      | TTuple xs => any_opt (λ t, occurs_check n v t s A) xs
      | TArray e _ => occurs_check n v e s A
      | TRef _ i => occurs_check n v i s A
      | TFn ps r _ =>
          b ← any_opt (λ t, occurs_check n v t s A) ps;
          if b : bool then Some true else occurs_check n v r s A
      | TAdt _ args => any_opt (λ t, occurs_check n v t s A) args
      | TRawPtr i => occurs_check n v i s A
      | _ => Some false
      end
  end.

Definition unify_int (k1 k2 : IntKind) : Outcome :=
  if bool_decide (k1 = k2) then Ok
  else match k1, k2 with IntInfer, _ | _, IntInfer => Ok | _, _ => Err Mismatch end.

Definition unify_float (k1 k2 : FloatKind) : Outcome :=
  if bool_decide (k1 = k2) then Ok
  else match k1, k2 with FloatInfer, _ | _, FloatInfer => Ok | _, _ => Err Mismatch end.

(** [for (x, y) in xs.zip(ys) { f(x, y)?; } Ok(())] *)
Fixpoint unify_zip (f : TyId → TyId → Substitution → option (Outcome * Substitution))
    (xs ys : list TyId) (s : Substitution) : option (Outcome * Substitution) :=
  match xs, ys with
  | x :: xs, y :: ys =>
      r ← f x y s;
      match r with (Ok, s') => unify_zip f xs ys s' | (Err e, s') => Some (Err e, s') end
  | _, _ => Some (Ok, s)
  end.

(** [m?; k] *)
Definition and_then (m : option (Outcome * Substitution))
    (k : Substitution → option (Outcome * Substitution)) : option (Outcome * Substitution) :=
  r ← m; match r with (Ok, s') => k s' | (Err e, s') => Some (Err e, s') end.

Definition bind_checked (n : nat) (A : TyArena) (v : TyVarId) (t : TyId) (s : Substitution) :
    option (Outcome * Substitution) :=
  o ← occurs_check n v t s A;
  if o : bool then Some (Err Occurs, s) else Some (Ok, bind s v t).

Fixpoint unify (n : nat) (A : TyArena) (a b : TyId) (s : Substitution) {struct n} :
    option (Outcome * Substitution) :=
  match n with
  | 0 => None
  | S n =>
      a ← resolve n s A a;
      b ← resolve n s A b;
      if a =? b then Some (Ok, s) else
      av ← get A a;
      bv ← get A b;
      match av, bv with
      | TError, _ | _, TError => Some (Ok, s)
      | TNever, _ | _, TNever => Some (Ok, s)
      | TVar v, _ => bind_checked n A v b s
      | _, TVar v => bind_checked n A v a s
      | TInt k1, TInt k2 => Some (unify_int k1 k2, s)
      | TFloat k1, TFloat k2 => Some (unify_float k1 k2, s)
      | TTuple xs, TTuple ys =>
          if negb (length xs =? length ys) then Some (Err ArityMismatch, s)
          else unify_zip (unify n A) xs ys s
      | TArray e1 l1, TArray e2 l2 =>
          and_then (unify n A e1 e2 s) (λ s,
            match l1, l2 with
            | Some x, Some y => Some (if (x =? y)%Z then Ok else Err Mismatch, s)
            | _, _ => Some (Ok, s)
            end)
      | TRef m1 i1, TRef m2 i2 =>
          if negb (eqb m1 m2) then Some (Err Mismatch, s) else unify n A i1 i2 s
      | TFn p1 r1 _, TFn p2 r2 _ =>
          if negb (length p1 =? length p2) then Some (Err ArityMismatch, s)
          else and_then (unify_zip (unify n A) p1 p2 s) (unify n A r1 r2)
      | TAdt d1 args1, TAdt d2 args2 =>
          if negb (d1 =? d2) || negb (length args1 =? length args2) then Some (Err Mismatch, s)
          else unify_zip (unify n A) args1 args2 s
      | TRawPtr i1, TRawPtr i2 => unify n A i1 i2 s
      | TParam p1, TParam p2 => Some (if p1 =? p2 then Ok else Err Mismatch, s)
      | TCap f1 _, TCap f2 _ => Some (if bool_decide (f1 = f2) then Ok else Err Mismatch, s)
      | TDyn x, TDyn y => Some (if bool_decide (x = y) then Ok else Err Mismatch, s)
      | TModule x, TModule y => Some (if bool_decide (x = y) then Ok else Err Mismatch, s)
      | TBool, TBool | TChar, TChar | TStr, TStr | TString, TString | TBytes, TBytes
      | TUnit, TUnit | TDuration, TDuration | TSize, TSize => Some (Ok, s)
      | _, _ => Some (Err Mismatch, s)
      end
  end.

(** [into_iter().map(f).collect()], with the arena threaded through. *)
Fixpoint map_arena (f : TyId → TyArena → option (TyArena * TyId)) (xs : list TyId) (A : TyArena) :
    option (TyArena * list TyId) :=
  match xs with
  | [] => Some (A, [])
  | x :: xs =>
      r ← f x A;
      let '(A1, y) := r in
      rs ← map_arena f xs A1;
      let '(A2, ys) := rs in
      Some (A2, y :: ys)
  end.

Fixpoint substitute_params (n : nat) (replacement : gmap ParamId TyId) (ty : TyId) (A : TyArena) :
    option (TyArena * TyId) :=
  match n with
  | 0 => None
  | S n =>
      d ← get A ty;
      match d with
      | TParam p => Some (A, default ty (replacement !! p))
      | TTuple xs =>
          r ← map_arena (substitute_params n replacement) xs A;
          Some (tuple r.1 r.2)
      | TArray e len =>
          r ← substitute_params n replacement e A;
          Some (array r.1 r.2 len)
      | TRef m i =>
          r ← substitute_params n replacement i A;
          Some (ref_to r.1 m r.2)
      | TFn ps ret effects =>
          r ← map_arena (substitute_params n replacement) ps A;
          r' ← substitute_params n replacement ret r.1;
          Some (fn_ty r'.1 r.2 r'.2 effects)
      | TAdt d args =>
          r ← map_arena (substitute_params n replacement) args A;
          Some (adt r.1 d r.2)
      | TRawPtr i =>
          r ← substitute_params n replacement i A;
          Some (raw_ptr r.1 r.2)
      | _ => Some (A, ty)
      end
  end.

(** ** Enough fuel *)

Definition ev {X} (f : nat → option X) (x : X) : Prop := ∃ n0, ∀ n, n0 ≤ n → f n = Some x.

Lemma ev_ret {X} (x : X) : ev (λ _, Some x) x.
Proof. by exists 0. Qed.

Lemma ev_bind {X Y} (f : nat → option X) (g : nat → X → option Y) x y :
  ev f x → ev (λ n, g n x) y → ev (λ n, f n ≫= g n) y.
Proof.
  intros [n1 H1] [n2 H2]. exists (n1 `max` n2). intros n Hn. rewrite H1 by lia. simpl. apply H2. lia.
Qed.

Lemma ev_S {X} (f : nat → option X) (g : nat → option X) x :
  g 0 = None → (∀ n, g (S n) = f n) → ev f x → ev g x.
Proof. intros _ Hg [n0 H]. exists (S n0). intros [|n] Hn; [lia|]. rewrite Hg. apply H. lia. Qed.

Lemma ev_ext {X} (f g : nat → option X) x : (∀ n, f n = g n) → ev f x → ev g x.
Proof. intros H [n0 Hf]. exists n0. intros n Hn. rewrite <- H. by apply Hf. Qed.

Lemma ev_det {X} (f : nat → option X) x y : ev f x → ev f y → x = y.
Proof.
  intros [n1 H1] [n2 H2]. specialize (H1 (n1 `max` n2) ltac:(lia)).
  specialize (H2 (n1 `max` n2) ltac:(lia)). congruence.
Qed.

(** ** Bindings *)

Lemma lookup_fresh s v : sget (fst (fresh_var s)) v = sget s v.
Proof.
  unfold sget. simpl. destruct (decide (v < length s)).
  - by rewrite (lookup_app_l s) by done.
  - rewrite (lookup_app_r s) by lia. rewrite (lookup_ge_None_2 s) by lia.
    by destruct (v - length s) as [|m].
Qed.

Lemma sget_bind s v t w : sget (bind s v t) w = if decide (w = v) then Some t else sget s w.
Proof.
  unfold sget, bind. destruct (decide (w = v)) as [->|Hne].
  - rewrite list_lookup_insert_eq; [done|]. rewrite length_app, length_replicate. lia.
  - rewrite list_lookup_insert_ne by done. destruct (decide (w < length s)).
    + by rewrite (lookup_app_l s) by done.
    + rewrite (lookup_app_r s) by lia. rewrite (lookup_ge_None_2 s) by lia.
      destruct (replicate _ _ !! _) as [x|] eqn:E; [|done].
      by apply lookup_replicate in E as [-> _].
Qed.

(** [s'] binds what [s] binds, and maybe more. *)
Definition subst_le (s s' : Substitution) : Prop := ∀ v t, sget s v = Some t → sget s' v = Some t.

#[export] Instance subst_le_preorder : PreOrder subst_le.
Proof. split; [by intros s v t|]. intros s1 s2 s3 H1 H2 v t H. by apply H2, H1. Qed.

Lemma subst_le_bind s v t : sget s v = None → subst_le s (bind s v t).
Proof. intros Hv w u Hw. rewrite sget_bind. destruct (decide (w = v)); [congruence|done]. Qed.

Lemma Acc_irrefl {X} (R : X → X → Prop) x : Acc R x → ¬ R x x.
Proof. induction 1 as [x _ IH]. intros H. by apply (IH x). Qed.

Section subst.
Context (A : TyArena) (HA : arena_ok A).

(** [y] is one step below [x]: a child of it, or what it is bound to. *)
Definition below (s : Substitution) (y x : TyId) : Prop :=
  ∃ d, get A x = Some d ∧ (y ∈ children d ∨ ∃ v, d = TVar v ∧ sget s v = Some y).

Record subst_ok (s : Substitution) : Prop := {
  so_wf : well_founded (below s);
  so_range v t : sget s v = Some t → is_Some (get A t)
}.

(** What [resolve] computes: the end of a chain of bindings. *)
Inductive resolves (s : Substitution) : TyId → TyId → Prop :=
  | res_head x d : get A x = Some d → (∀ v, d = TVar v → sget s v = None) → resolves s x x
  | res_step x v t y : get A x = Some (TVar v) → sget s v = Some t → resolves s t y →
      resolves s x y.

(** [v] occurs, unbound, in [x] or under its bindings. *)
Inductive occurs (s : Substitution) (v : TyVarId) : TyId → Prop :=
  | oc_here x : get A x = Some (TVar v) → sget s v = None → occurs s v x
  | oc_below x y : below s y x → occurs s v y → occurs s v x.

(** Heads: what [resolve] stops at. *)
Definition head (s : Substitution) (x : TyId) (d : TyData) : Prop :=
  get A x = Some d ∧ ∀ v, d = TVar v → sget s v = None.

Lemma resolves_head s x y : resolves s x y → ∃ d, head s y d.
Proof. induction 1; [by eexists|done]. Qed.

Lemma resolves_id s x d : head s x d → resolves s x x.
Proof. intros [H1 H2]. by econstructor. Qed.

Lemma resolves_det s x y z : resolves s x y → resolves s x z → y = z.
Proof.
  intros H. revert z. induction H as [x d Hd Hv|x v t y Hx Hs Hy IH]; intros z Hz;
    inversion Hz as [? d' Hd' Hv'|? v' t' ? Hx' Hs']; subst; try done.
  - rewrite Hd in Hx'. injection Hx' as ->. rewrite (Hv v') in Hs' by done. done.
  - rewrite Hx in Hd'. injection Hd' as <-. rewrite (Hv' v) in Hs by done. done.
  - rewrite Hx in Hx'. injection Hx' as <-. rewrite Hs in Hs'. injection Hs' as <-. by apply IH.
Qed.

Lemma child_some x d c : get A x = Some d → c ∈ children d → is_Some (get A c).
Proof.
  intros Hx Hc. pose proof (ao_children A HA x d c Hx Hc). apply lookup_lt_Some in Hx.
  apply lookup_lt_is_Some. lia.
Qed.

Lemma below_some s x y : subst_ok s → below s y x → is_Some (get A y).
Proof.
  intros Hs (d & Hd & [Hc|(v & -> & Hv)]); [by eapply child_some|by eapply so_range].
Qed.

Lemma resolves_total s x : subst_ok s → is_Some (get A x) → ∃ y, resolves s x y.
Proof.
  intros Hs. induction (so_wf s Hs x) as [x _ IH]. intros [d Hd].
  destruct d; try (exists x; by econstructor).
  destruct (sget s v) as [t|] eqn:E.
  - destruct (IH t) as [y Hy]; [exists (TVar v); eauto|by eapply so_range|].
    exists y. by econstructor.
  - exists x. econstructor; [done|]. by intros w [= <-].
Qed.

(** Induction over heads: a head's children come first. *)
Lemma head_ind s (T : TyId → Prop) :
  subst_ok s →
  (∀ x d, head s x d → (∀ c c', c ∈ children d → resolves s c c' → T c') → T x) →
  ∀ x x', resolves s x x' → T x'.
Proof.
  intros Hs HT x. induction (so_wf s Hs x) as [x _ IH]. intros x' Hx.
  inversion Hx as [? d Hd Hv|? v t ? Hv Ht Hy]; subst.
  - eapply HT; [by split|]. intros c c' Hc. apply IH. exists d. eauto.
  - eapply IH; [|exact Hy]. exists (TVar v). eauto.
Qed.

Lemma resolve_ok s x y : subst_ok s → resolves s x y → ev (λ n, resolve n s A x) y.
Proof.
  intros Hs H. induction H as [x d Hd Hv|x v t y Hx Ht Hy IH].
  - exists 1. intros [|n] Hn; [lia|]. simpl. rewrite Hd. simpl.
    destruct d; try done. by rewrite (Hv v eq_refl).
  - eapply ev_S; [done| |exact IH]. intros n. simpl. rewrite Hx. simpl. rewrite Ht.
    destruct (Nat.eqb_spec t x) as [->|]; [|done].
    exfalso. eapply (Acc_irrefl _ x); [apply (so_wf s Hs)|]. exists (TVar v). eauto.
Qed.

(** ** The occurs check *)

Lemma any_opt_app {X} (f : X → option bool) l k :
  any_opt f (l ++ k) = (b ← any_opt f l; if b : bool then Some true else any_opt f k).
Proof.
  induction l as [|x l IH]; simpl; [done|]. destruct (f x) as [[]|]; simpl; [done|apply IH|done].
Qed.

Lemma any_opt_one {X} (f : X → option bool) x : any_opt f [x] = f x.
Proof. simpl. by destruct (f x) as [[]|]. Qed.

(** Every arm of the occurs check looks at the children in order. *)
Lemma occurs_check_S n v x s :
  occurs_check (S n) v x s A =
  (y ← resolve n s A x;
   d ← get A y;
   match d with
   | TVar w => Some (w =? v)
   | _ => any_opt (λ t, occurs_check n v t s A) (children d)
   end).
Proof.
  cbn [occurs_check]. destruct (resolve n s A x) as [y|]; simpl; [|done].
  destruct (get A y) as [[]|]; simpl mbind; simpl children; try done;
    try (symmetry; exact (any_opt_one _ _)).
  symmetry. etransitivity; [exact (any_opt_app _ _ _)|].
  destruct (any_opt _ params) as [[]|]; simpl mbind; try done. exact (any_opt_one _ _).
Qed.

Lemma ev_any {X} (f : nat → X → option bool) (Q : X → Prop) l :
  (∀ x, x ∈ l → ∃ b, ev (λ n, f n x) b ∧ (b = true ↔ Q x)) →
  ∃ b, ev (λ n, any_opt (f n) l) b ∧ (b = true ↔ ∃ x, x ∈ l ∧ Q x).
Proof.
  induction l as [|x l IH]; intros H.
  - exists false. split; [apply ev_ret|]. split; [done|]. intros (x & Hx & _). by apply not_elem_of_nil in Hx.
  - destruct (H x) as (b & Hb & HQ); [by left|].
    destruct IH as (b' & Hb' & HQ'); [intros y Hy; apply H; by right|].
    exists (if b then true else b'). split.
    + simpl. eapply ev_bind; [exact Hb|]. destruct b; [apply ev_ret|done].
    + destruct b.
      * split; [|done]. intros _. exists x. split; [by left|by apply HQ].
      * rewrite HQ'. split.
        -- intros (y & Hy & HQy). exists y. split; [by right|done].
        -- intros (y & [->|Hy]%elem_of_cons & HQy); [|by exists y]. apply HQ in HQy. done.
Qed.

Lemma occurs_resolves s v x y :
  sget s v = None → resolves s x y → occurs s v x ↔ occurs s v y.
Proof.
  intros Hv. induction 1 as [x d Hd Hh|x w t y Hx Hw Hy IH]; [done|]. rewrite <- IH. split.
  - inversion 1 as [? Hx' Hv'|? z (d & Hd & [Hc|(w' & -> & Hw')]) Hz]; subst.
    + rewrite Hx in Hx'. injection Hx' as ->. congruence.
    + rewrite Hx in Hd. injection Hd as <-. by apply not_elem_of_nil in Hc.
    + congruence.
  - intros H. eapply oc_below; [|exact H]. exists (TVar w). eauto.
Qed.

Lemma occurs_head s v x d :
  sget s v = None → head s x d →
  occurs s v x ↔ d = TVar v ∨ ∃ c, c ∈ children d ∧ occurs s v c.
Proof.
  intros Hv [Hd Hh]. split.
  - inversion 1 as [? Hx' Hv'|? z (d' & Hd' & [Hc|(w' & -> & Hw')]) Hz]; subst.
    + left. congruence.
    + right. exists z. split; [congruence|done].
    + rewrite Hd in Hd'. injection Hd' as ->. rewrite (Hh w') in Hw' by done. done.
  - intros [->|(c & Hc & Ho)]; [by constructor|]. eapply oc_below; [|exact Ho]. exists d. eauto.
Qed.

Lemma occurs_check_ok s v x :
  subst_ok s → sget s v = None → is_Some (get A x) →
  ∃ b, ev (λ n, occurs_check n v x s A) b ∧ (b = true ↔ occurs s v x).
Proof.
  intros Hs Hv Hx. destruct (resolves_total s x Hs Hx) as [y Hy]. clear Hx.
  revert x y Hy. refine (λ x y Hy, head_ind s (λ y, ∀ x, resolves s x y → _) Hs _ x y Hy x Hy).
  clear x y Hy. intros y d Hd IH x Hxy.
  assert (∀ c, c ∈ children d →
    ∃ b, ev (λ n, occurs_check n v c s A) b ∧ (b = true ↔ occurs s v c)) as IHc.
  { intros c Hc. destruct (resolves_total s c Hs) as [c' Hc'].
    - eapply child_some; [apply Hd|done].
    - by eapply IH. }
  destruct (ev_any (λ n t, occurs_check n v t s A) _ _ IHc) as (b & Hb & HQ).
  exists (match d with TVar w => w =? v | _ => b end). split.
  - eapply ev_S; [done|intros n; apply occurs_check_S|].
    eapply ev_bind; [by apply resolve_ok|]. destruct Hd as [Hd _]. rewrite Hd. simpl.
    destruct d; try exact Hb. apply ev_ret.
  - rewrite (occurs_resolves _ _ _ _ Hv Hxy), (occurs_head _ _ _ _ Hv Hd), <- HQ.
    destruct d; try (split; [by right|by intros [[=]|]]).
    rewrite Nat.eqb_eq. split; [left; congruence|]. intros [[=]|H]; [done|].
    apply HQ in H as (c & Hc & _). by apply not_elem_of_nil in Hc.
Qed.

(** ** Binding a variable keeps the substitution acyclic *)

Lemma below_bind s v t y x :
  sget s v = None → below (bind s v t) y x ↔ below s y x ∨ (get A x = Some (TVar v) ∧ y = t).
Proof.
  intros Hv. unfold below. split.
  - intros (d & Hd & [Hc|(w & -> & Hw)]); [left; eauto|]. rewrite sget_bind in Hw.
    destruct (decide (w = v)) as [->|]; [right; naive_solver|left; eauto 6].
  - intros [(d & Hd & [Hc|(w & -> & Hw)])|[Hx ->]].
    + eauto.
    + exists (TVar w). split; [done|]. right. exists w. split; [done|]. by apply subst_le_bind.
    + exists (TVar v). split; [done|]. right. exists v. split; [done|]. rewrite sget_bind.
      by rewrite decide_True.
Qed.

Lemma bind_ok s v t :
  subst_ok s → sget s v = None → is_Some (get A t) → ¬ occurs s v t → subst_ok (bind s v t).
Proof.
  intros Hs Hv Ht Hno. split.
  - assert (∀ x, ¬ occurs s v x → Acc (below (bind s v t)) x) as Hfree.
    { intros x. induction (so_wf s Hs x) as [x _ IH]. intros Hx. constructor. intros y Hy.
      apply (below_bind s v t y x Hv) in Hy as [Hy|[Hxv ->]].
      - apply IH; [done|]. intros Ho. apply Hx. by eapply oc_below.
      - destruct Hx. by constructor. }
    intros x. induction (so_wf s Hs x) as [x _ IH]. constructor. intros y Hy.
    apply (below_bind s v t y x Hv) in Hy as [Hy|[Hxv ->]]; [by apply IH|by apply Hfree].
  - intros w u. rewrite sget_bind. destruct (decide (w = v)); [naive_solver|apply (so_range s Hs)].
Qed.

Lemma fresh_var_ok s : subst_ok s → subst_ok (fst (fresh_var s)).
Proof.
  intros Hs. assert (∀ y x, below (fst (fresh_var s)) y x ↔ below s y x) as Hb.
  { intros y x. unfold below. by setoid_rewrite lookup_fresh. }
  split.
  - intros x. induction (so_wf s Hs x) as [x _ IH]. constructor. intros y Hy%Hb. by apply IH.
  - intros v t. rewrite lookup_fresh. apply (so_range s Hs).
Qed.

Lemma empty_ok : subst_ok [].
Proof.
  split; [|by intros v t]. intros x. induction (lt_wf x) as [x _ IH]. constructor.
  intros y (d & Hd & [Hc|(v & _ & Hv)]); [|done]. apply IH. by eapply (ao_children A HA).
Qed.

End subst.
