(* ===== verification/Unify.v ===== *)
(** * Unification terminates and is right; generic types

    The arms of [Infer.unify] are all one arm ([unify_S]): check the two heads,
    then unify the children pairwise.  Termination is by the number of unbound
    variables in the arena, then by the structure of the first type; an [Ok]
    leaves the types agreeing under the new bindings ([compat]), and a mismatch
    is final: no further binding can make them agree.  The instantiation of type parameters
    is at the end. *)

From stdpp Require Import base list strings numbers sets gmap.
From S2P Require Import Prelude TyArena Infer.

(** ** What it is for two types to agree *)

(** The part of two heads that is compared before their children. *)
Definition same_shape (d e : TyData) : bool :=
  match d, e with
  | TInt k1, TInt k2 => bool_decide (k1 = k2 ∨ k1 = IntInfer ∨ k2 = IntInfer)
  | TFloat k1, TFloat k2 => bool_decide (k1 = k2 ∨ k1 = FloatInfer ∨ k2 = FloatInfer)
  | TTuple _, TTuple _ | TFn _ _ _, TFn _ _ _ | TRawPtr _, TRawPtr _ => true
  | TArray _ (Some n), TArray _ (Some m) => bool_decide (n = m)
  | TArray _ _, TArray _ _ => true
  | TRef m1 _, TRef m2 _ => eqb m1 m2
  | TAdt d1 _, TAdt d2 _ => bool_decide (d1 = d2)
  | TParam p, TParam q => bool_decide (p = q)
  | TCap f _, TCap g _ => bool_decide (f = g)
  | TDyn x, TDyn y | TModule x, TModule y => bool_decide (x = y)
  | TBool, TBool | TChar, TChar | TStr, TStr | TString, TString | TBytes, TBytes
  | TUnit, TUnit | TDuration, TDuration | TSize, TSize => true
  | _, _ => false
  end.

Definition poison (d : TyData) : bool := match d with TError | TNever => true | _ => false end.

Inductive compat (A : TyArena) (s : Substitution) : TyId → TyId → Prop :=
  | co_same x y a : resolves A s x a → resolves A s y a → compat A s x y
  | co_poison x y a b d e : resolves A s x a → resolves A s y b → get A a = Some d →
      get A b = Some e → poison d = true ∨ poison e = true → compat A s x y
  | co_shape x y a b d e : resolves A s x a → resolves A s y b → get A a = Some d →
      get A b = Some e → same_shape d e = true →
      Forall2 (compat A s) (children d) (children e) → compat A s x y.

(** ** One arm for all *)

Definition pre_check (d e : TyData) : Outcome :=
  match d, e with
  | TTuple xs, TTuple ys => if length xs =? length ys then Ok else Err ArityMismatch
  | TFn p1 _ _, TFn p2 _ _ => if length p1 =? length p2 then Ok else Err ArityMismatch
  | TAdt d1 args1, TAdt d2 args2 =>
      if negb (d1 =? d2) || negb (length args1 =? length args2) then Err Mismatch else Ok
  | TArray _ _, TArray _ _ => Ok
  | _, _ => if same_shape d e then Ok else Err Mismatch
  end.

Definition post_check (d e : TyData) : Outcome :=
  match d, e with
  | TArray _ (Some x), TArray _ (Some y) => if (x =? y)%Z then Ok else Err Mismatch
  | _, _ => Ok
  end.

Lemma unify_int_shape k1 k2 :
  unify_int k1 k2 = if same_shape (TInt k1) (TInt k2) then Ok else Err Mismatch.
Proof. by destruct k1, k2. Qed.

Lemma unify_float_shape k1 k2 :
  unify_float k1 k2 = if same_shape (TFloat k1) (TFloat k2) then Ok else Err Mismatch.
Proof. by destruct k1, k2. Qed.

Lemma unify_zip_app f xs ys xs' ys' s :
  length xs = length ys →
  unify_zip f (xs ++ xs') (ys ++ ys') s = and_then (unify_zip f xs ys s) (unify_zip f xs' ys').
Proof.
  revert ys s. induction xs as [|x xs IH]; intros [|y ys] s Hl; try done.
  simpl. destruct (f x y s) as [[[|] s']|]; simpl; try done. apply IH. simpl in Hl. lia.
Qed.

Lemma unify_zip_one f x y s : unify_zip f [x] [y] s = f x y s.
Proof. simpl. by destruct (f x y s) as [[[|] s']|]. Qed.

Lemma and_then_ret m : and_then m (λ s, Some (Ok, s)) = m.
Proof. by destruct m as [[[|] s]|]. Qed.

(** The heads, past the variables and the poisoned ones. *)
Definition unify_heads (n : nat) (A : TyArena) (a b : TyId) (d e : TyData) (s : Substitution) :
    option (Outcome * Substitution) :=
  if poison d || poison e then Some (Ok, s)
  else match d, e with
       | TVar v, _ => bind_checked n A v b s
       | _, TVar v => bind_checked n A v a s
       | _, _ =>
           match pre_check d e with
           | Ok => and_then (unify_zip (unify n A) (children d) (children e) s)
                     (λ s, Some (post_check d e, s))
           | err => Some (err, s)
           end
       end.

Lemma var_or_not (d : TyData) : {v | d = TVar v} + {∀ v, d ≠ TVar v}.
Proof. destruct d; try (by right); left; by eexists. Defined.

Lemma unify_heads_plain n A a b d e s :
  poison d = false → poison e = false → (∀ v, d ≠ TVar v) → (∀ v, e ≠ TVar v) →
  unify_heads n A a b d e s =
  match pre_check d e with
  | Ok => and_then (unify_zip (unify n A) (children d) (children e) s)
            (λ s, Some (post_check d e, s))
  | err => Some (err, s)
  end.
Proof.
  intros Hd He Hvd Hve. unfold unify_heads. rewrite Hd, He. simpl orb. cbv iota.
  destruct (var_or_not d) as [[v ->]|_]; [by destruct (Hvd v)|].
  destruct d; try by destruct (Hvd v).
  all: destruct e; try reflexivity; by destruct (Hve v).
Qed.

Lemma unify_S n A x y s :
  unify (S n) A x y s =
  (a ← resolve n s A x;
   b ← resolve n s A y;
   if a =? b then Some (Ok, s)
   else d ← get A a; e ← get A b; unify_heads n A a b d e s).
Proof.
  cbn [unify]. destruct (resolve n s A x) as [a|]; simpl mbind; [|done].
  destruct (resolve n s A y) as [b|]; simpl mbind; [|done].
  destruct (a =? b); [done|].
  destruct (get A a) as [d|]; simpl mbind; [|done]. destruct (get A b) as [e|]; simpl mbind; [|done].
  unfold unify_heads. destruct d, e; try reflexivity; try (by destruct len);
    cbn [poison orb pre_check children post_check]; rewrite ?unify_zip_one, ?unify_int_shape,
      ?unify_float_shape; change (λ s0, Some (Ok, s0)) with (λ s0 : Substitution, Some (Ok, s0)).
  all: try (by destruct (same_shape _ _)).
  - rewrite and_then_ret. by destruct (length xs =? length xs0).
  - destruct (unify n A elem elem0 s) as [[[|] s']|]; simpl; try done.
    by destruct len, len0.
  - simpl. rewrite and_then_ret. by destruct (eqb _ _).
  - destruct (Nat.eqb_spec (length params) (length params0)); simpl; [|done].
    rewrite unify_zip_app by done. rewrite and_then_ret.
    destruct (unify_zip _ _ _ _) as [[[|] s']|]; simpl; try done.
    by destruct (unify n A ret ret0 _) as [[[|] s'']|].
  - rewrite and_then_ret. by destruct (_ || _).
  - simpl. destruct (Nat.eqb_spec p p0); by case_bool_decide.
  - simpl. by rewrite and_then_ret.
  - simpl. by case_bool_decide.
  - simpl. by case_bool_decide.
  - simpl. by case_bool_decide.
Qed.

Lemma pre_check_err d e r : pre_check d e = Err r → same_shape d e = false ∨ length (children d) ≠ length (children e).
Proof.
  intros H. destruct d, e; simpl in H |- *; try done; try (left; done);
    try (left; by destruct len); try (left; case_match; done); revert H.
  - destruct (Nat.eqb_spec (length xs) (length xs0)); [done|by right].
  - destruct (Nat.eqb_spec (length params) (length params0)); [done|].
    rewrite !length_app. right. simpl. lia.
  - destruct (Nat.eqb_spec d d0); simpl.
    + destruct (Nat.eqb_spec (length args) (length args0)); [done|by right].
    + intros _. left. by apply bool_decide_eq_false.
Qed.

Lemma checks_shape d e :
  pre_check d e = Ok → post_check d e = Ok → same_shape d e = true.
Proof.
  destruct d, e; simpl; try done; try (by destruct len); try (case_match; done).
  - destruct len, len0; try done. destruct (Z.eqb_spec z z0) as [->|]; [|done].
    by rewrite bool_decide_true.
  - destruct (Nat.eqb_spec d d0) as [->|]; [|done]. by rewrite bool_decide_true.
Qed.

Lemma post_check_err d e r : post_check d e = Err r → same_shape d e = false.
Proof.
  destruct d, e; simpl; try done; destruct len; try done; destruct len0; try done.
  destruct (Z.eqb_spec z z0); [done|]. intros _. by apply bool_decide_eq_false.
Qed.

Lemma pre_check_length d e : pre_check d e = Ok → length (children d) = length (children e).
Proof.
  destruct d, e; simpl; try done; try (by destruct len); try (case_match; done).
  - destruct (Nat.eqb_spec (length xs) (length xs0)); done.
  - destruct (Nat.eqb_spec (length params) (length params0)); [|done]. rewrite !length_app. simpl. lia.
  - destruct (Nat.eqb_spec d d0); simpl; [|done].
    destruct (Nat.eqb_spec (length args) (length args0)); done.
Qed.

Section unify.
Context (A : TyArena) (HA : arena_ok A).

Local Abbreviation subst_ok := (subst_ok A).
Local Abbreviation resolves := (resolves A).
Local Abbreviation compat := (compat A).

(** ** Agreement is stable under more bindings *)

Lemma head_mono s s' x d :
  head A s x d → subst_le s s' → (∀ v, d ≠ TVar v) → head A s' x d.
Proof. intros [Hd _] _ Hv. split; [done|]. intros v ->. by destruct (Hv v). Qed.

Lemma resolves_mono s s' x a z :
  subst_le s s' → resolves s x a → resolves s' a z → resolves s' x z.
Proof.
  intros Hle. induction 1 as [|x v t y Hx Ht _ IH]; intros Hz; [done|].
  eapply res_step; [done|by apply Hle|by apply IH].
Qed.

Lemma resolves_nonvar s s' x a d :
  subst_le s s' → resolves s x a → get A a = Some d → (∀ v, d ≠ TVar v) → resolves s' x a.
Proof.
  intros Hle Hx Hd Hv. eapply resolves_mono; [done..|]. econstructor; [done|].
  intros v ->. by destruct (Hv v).
Qed.

Lemma same_shape_nonvar d e :
  same_shape d e = true → (∀ v, d ≠ TVar v) ∧ (∀ v, e ≠ TVar v).
Proof. intros H. split; intros v ->; [done|]; destruct d; try done; by destruct len. Qed.

Lemma poison_nonvar d : poison d = true → ∀ v, d ≠ TVar v.
Proof. by intros H v ->. Qed.

Lemma compat_mono s s' x y :
  subst_ok s → subst_ok s' → subst_le s s' → compat s x y → compat s' x y.
Proof.
  intros Hs Hs' Hle H.
  assert (∃ a, resolves s x a) as [a Ha] by (inversion H; eauto).
  revert y H. revert x a Ha.
  refine (λ x a Ha, head_ind A s (λ a, ∀ x, resolves s x a → _) Hs _ x a Ha x Ha).
  clear x a Ha. intros a0 d0 Hd0 IH x Ha0 y H.
  assert (∀ z b e, resolves s z b → get A b = Some e → ∃ b', resolves s' z b') as Htot.
  { intros z b e Hz He. destruct (resolves_total A s' b Hs') as [b' Hb']; [by eexists|].
    exists b'. by eapply resolves_mono. }
  inversion H as [? ? a Hx Hy|? ? a b d e Hx Hy Hd He Hp|? ? a b d e Hx Hy Hd He Hsh Hc]; subst.
  - destruct (resolves_head A s x a Hx) as [d [Hd _]].
    destruct (resolves_total A s' a Hs') as [a' Ha']; [by eexists|].
    apply (co_same A s' x y a'); by eapply resolves_mono.
  - destruct (Htot x a d) as [a' Ha']; [done..|]. destruct (Htot y b e) as [b' Hb']; [done..|].
    destruct (resolves_head A s' x a' Ha') as [d' [Hd' _]].
    destruct (resolves_head A s' y b' Hb') as [e' [He' _]].
    apply (co_poison A s' x y a' b' d' e'); try done.
    destruct Hp as [Hp|Hp]; [left|right].
    + assert (a' = a) as ->; [|congruence]. eapply resolves_det; [exact Ha'|].
      by eapply resolves_nonvar, poison_nonvar.
    + assert (b' = b) as ->; [|congruence]. eapply resolves_det; [exact Hb'|].
      by eapply resolves_nonvar, poison_nonvar.
  - destruct (same_shape_nonvar d e Hsh) as [Hvd Hve].
    assert (a0 = a) as -> by (by eapply resolves_det).
    destruct Hd0 as [Hd0 _]. assert (d0 = d) as -> by congruence.
    apply (co_shape A s' x y a b d e); try done; try (by eapply resolves_nonvar).
    apply Forall2_same_length_lookup_2; [by eapply Forall2_length|].
    intros i c c' Hi Hi'. pose proof (Forall2_lookup_lr _ _ _ _ _ _ Hc Hi Hi') as Hcc.
    assert (∃ w, resolves s c w) as [w Hw] by (inversion Hcc; eauto).
    eapply IH; [|exact Hw|exact Hw|done]. by eapply list_elem_of_lookup_2.
Qed.

(** Two heads that can never agree. *)
Lemma compat_apart s x y a b d e :
  resolves s x a → resolves s y b → a ≠ b → get A a = Some d → get A b = Some e →
  poison d = false → poison e = false → (∀ v, d ≠ TVar v) → (∀ v, e ≠ TVar v) →
  ∀ s', subst_le s s' → compat s' x y →
  same_shape d e = true ∧ Forall2 (compat s') (children d) (children e).
Proof.
  intros Ha Hb Hab Hd He Hpd Hpe Hvd Hve s' Hle H.
  assert (resolves s' x a) as Ha' by (by eapply resolves_nonvar).
  assert (resolves s' y b) as Hb' by (by eapply resolves_nonvar).
  inversion H as [? ? a1 Hx Hy|? ? a1 b1 d1 e1 Hx Hy Hd1 He1 Hp|? ? a1 b1 d1 e1 Hx Hy Hd1 He1 Hsh Hc]; subst.
  - destruct Hab. transitivity a1; by eapply resolves_det.
  - assert (a1 = a) as -> by (by eapply resolves_det).
    assert (b1 = b) as -> by (by eapply resolves_det). destruct Hp; congruence.
  - assert (a1 = a) as -> by (by eapply resolves_det).
    assert (b1 = b) as -> by (by eapply resolves_det). split; congruence.
Qed.

(** ** Termination measure *)

Definition unbound (s : Substitution) (d : TyData) : bool :=
  match d with TVar v => bool_decide (sget s v = None) | _ => false end.

Definition room (s : Substitution) : nat := length (List.filter (unbound s) (storage A)).

Lemma filter_length_lt {X} (f g : X → bool) l x :
  (∀ y, f y = true → g y = true) → x ∈ l → f x = false → g x = true →
  length (List.filter f l) < length (List.filter g l).
Proof.
  intros Hfg Hx Hf Hg.
  assert (∀ l, length (List.filter f l) ≤ length (List.filter g l)) as Hle.
  { intros k. induction k as [|y k IH]; simpl; [done|]. destruct (f y) eqn:E.
    - rewrite (Hfg y E). simpl. lia.
    - destruct (g y); simpl; lia. }
  induction l as [|y l IH]; [by apply not_elem_of_nil in Hx|].
  apply elem_of_cons in Hx as [<-|Hx]; simpl.
  - rewrite Hf, Hg. simpl. pose proof (Hle l). lia.
  - specialize (IH Hx). destruct (f y) eqn:E; [rewrite (Hfg y E)|destruct (g y)]; simpl; lia.
Qed.

Lemma room_bind s v t x :
  get A x = Some (TVar v) → sget s v = None → room (bind s v t) < room s.
Proof.
  intros Hx Hv. unfold room. eapply filter_length_lt; [|by eapply list_elem_of_lookup_2| |].
  - intros d. destruct d; try done. simpl. rewrite !bool_decide_eq_true, sget_bind.
    by destruct (decide _).
  - simpl. apply bool_decide_eq_false. rewrite sget_bind. by rewrite decide_True.
  - simpl. by apply bool_decide_eq_true.
Qed.

(** ** Every call returns, with the right verdict *)

(** What an outcome says of a claim [P] about bindings. *)
Definition verdict (r : Outcome) (s' : Substitution) (P : Substitution → Prop) : Prop :=
  match r with
  | Ok => P s'
  | Err Occurs => True
  | Err _ => ∀ s'', subst_ok s'' → subst_le s' s'' → ¬ P s''
  end.

Record grows (s s' : Substitution) : Prop := {
  gr_ok : subst_ok s'; gr_le : subst_le s s'; gr_room : s' = s ∨ room s' < room s
}.

Definition unifies (s : Substitution) (x y : TyId) : Prop :=
  ∃ r s', ev (λ n, unify n A x y s) (r, s') ∧ grows s s' ∧ verdict r s' (λ s, compat s x y).

Lemma grows_refl s : subst_ok s → grows s s.
Proof. split; [done|done|by left]. Qed.

Lemma grows_trans s1 s2 s3 : grows s1 s2 → grows s2 s3 → grows s1 s3.
Proof.
  intros [_ L1 R1] [O2 L2 R2]. split; [done|by etrans|].
  destruct R1 as [->|R1], R2 as [->|R2]; auto; right; lia.
Qed.

Lemma verdict_iff r s P Q :
  (∀ s', subst_ok s' → subst_le s s' → P s' ↔ Q s') → subst_ok s → verdict r s P → verdict r s Q.
Proof.
  intros H Hs HP. destruct r as [|[]]; simpl in *; try done; [by apply H|..];
    intros s' Hs' Hle HQ; by eapply HP, H.
Qed.

Lemma zip_unifies s0 xs ys s :
  length xs = length ys → grows s0 s →
  (∀ x y s', x ∈ xs → y ∈ ys → grows s0 s' → unifies s' x y) →
  ∃ r s', ev (λ n, unify_zip (unify n A) xs ys s) (r, s') ∧ grows s s'
    ∧ verdict r s' (λ s, Forall2 (compat s) xs ys).
Proof.
  revert ys s. induction xs as [|x xs IH]; intros [|y ys] s Hl Hs H; try done.
  - exists Ok, s. split_and!; [apply ev_ret|apply grows_refl, Hs|constructor].
  - destruct (H x y s) as (r & s1 & He & Hg & Hv); [by left|by left|done|].
    destruct r as [|e].
    + destruct (IH ys s1) as (r & s2 & He2 & Hg2 & Hv2); [by injection Hl|by eapply grows_trans|
        intros; apply H; [by right|by right|done]|].
      exists r, s2. split_and!; [|by eapply grows_trans|].
      * simpl. eapply ev_bind; [exact He|exact He2].
      * eapply verdict_iff; [|apply Hg2|exact Hv2]. intros s' Hs' Hle. rewrite Forall2_cons.
        split; [|by intros [_ ?]]. intros HF. split; [|done].
        eapply (compat_mono s1); [apply Hg|done| |exact Hv]. etrans; [apply Hg2|done].
    + exists (Err e), s1. split_and!; [|done|].
      * simpl. eapply ev_bind; [exact He|apply ev_ret].
      * destruct e; simpl in *; try done; intros s' Hs' Hle HF; inversion HF; subst; by eapply Hv.
Qed.

(** Binding the variable of one head to the other head. *)
Lemma var_unifies s x y a b v e :
  subst_ok s → resolves s x a → resolves s y b → a ≠ b → get A a = Some (TVar v) →
  head A s b e →
  ∃ r s', ev (λ n, bind_checked n A v b s) (r, s') ∧ grows s s'
    ∧ (r = Err Occurs ∨ r = Ok ∧ ∃ z, resolves s' x z ∧ resolves s' y z).
Proof.
  intros Hs Hx Hy Hab Ha Hb.
  assert (sget s v = None) as Hv.
  { destruct (resolves_head A s x a Hx) as (d & Hd & Hh). apply Hh. congruence. }
  assert (is_Some (get A b)) as Hsome by (eexists; apply Hb).
  destruct (occurs_check_ok A HA s v b Hs Hv Hsome) as ([] & Hev & Ho).
  - exists (Err Occurs), s. split_and!; [|by apply grows_refl|by left].
    unfold bind_checked. eapply ev_bind; [exact Hev|apply ev_ret].
  - exists Ok, (bind s v b). split_and!.
    + unfold bind_checked. eapply ev_bind; [exact Hev|apply ev_ret].
    + split.
      * apply bind_ok; [done|done|done|]. intros Hoc%Ho. done.
      * by apply subst_le_bind.
      * right. by eapply room_bind.
    + assert (resolves (bind s v b) b b) as Hbb.
      { destruct Hb as [Hb Hh]. econstructor; [done|]. intros w ->. rewrite sget_bind.
        rewrite decide_False; [by apply Hh|]. intros ->. destruct Hab.
        by eapply (arena_no_dup A). }
      right. split; [done|]. exists b. split.
      * eapply resolves_mono; [by apply subst_le_bind|exact Hx|].
        eapply res_step; [done| |done]. rewrite sget_bind. by rewrite decide_True.
      * eapply resolves_mono; [by apply subst_le_bind|exact Hy|done].
Qed.

(** Two heads, given that their children unify. *)
Lemma heads_unify s x y a b d e :
  subst_ok s → resolves s x a → resolves s y b → a ≠ b → head A s a d → head A s b e →
  (∀ c c' s', c ∈ children d → c' ∈ children e → grows s s' → unifies s' c c') →
  ∃ r s', ev (λ n, unify_heads n A a b d e s) (r, s') ∧ grows s s'
    ∧ verdict r s' (λ s, compat s x y).
Proof.
  intros Hs Hx Hy Hab [Ha Hha] [Hb Hhb] IH.
  destruct (poison d || poison e) eqn:Ep.
  { exists Ok, s. split_and!; [unfold unify_heads; rewrite Ep; apply ev_ret|by apply grows_refl|].
    eapply co_poison; try done. by apply orb_true_iff in Ep. }
  apply orb_false_iff in Ep as [Epd Epe].
  assert (∀ s', (∃ z, resolves s' x z ∧ resolves s' y z) → compat s' x y) as Hsame.
  { intros s' (z & Hz1 & Hz2). by econstructor. }
  destruct (var_or_not d) as [[v ->]|Hvd].
  { destruct (var_unifies s x y a b v e) as (r & s' & Hev & Hg & Hr); [done..|].
    exists r, s'. split_and!; [unfold unify_heads; rewrite Epd, Epe; by destruct e|done|].
    destruct Hr as [->|[-> Hz]]; [done|by apply Hsame]. }
  destruct (var_or_not e) as [[v ->]|Hve].
  { destruct (var_unifies s y x b a v d) as (r & s' & Hev & Hg & Hr); [done..|].
    exists r, s'. split_and!; [unfold unify_heads; rewrite Epd, Epe; destruct d; try done; by destruct (Hvd v0)|done|].
    destruct Hr as [->|[-> (z & Hz1 & Hz2)]]; [done|by apply Hsame; exists z]. }
  assert (∀ s', subst_le s s' → compat s' x y →
    same_shape d e = true ∧ Forall2 (compat s') (children d) (children e)) as Hapart.
  { by apply (compat_apart s x y a b d e). }
  destruct (pre_check d e) as [|er] eqn:Epre.
  - destruct (zip_unifies s (children d) (children e) s) as (r & s' & Hev & Hg & Hr);
      [by apply pre_check_length|by apply grows_refl|done|].
    exists (match r with Ok => post_check d e | _ => r end), s'. split_and!; [|done|].
    + eapply ev_ext; [intros n; symmetry; by apply unify_heads_plain|]. rewrite Epre.
      unfold and_then. eapply ev_bind; [exact Hev|]. destruct r; apply ev_ret.
    + destruct r as [|er].
      * destruct (post_check d e) as [|er] eqn:Epost.
        -- apply (co_shape A s' x y a b d e); try done; [| |by apply checks_shape].
           ++ by eapply (resolves_nonvar s), Hvd; [apply Hg|..].
           ++ by eapply (resolves_nonvar s), Hve; [apply Hg|..].
        -- assert (∀ s'', subst_ok s'' → subst_le s' s'' → ¬ compat s'' x y) as Hn.
           { intros s'' Hs'' Hle Hc. apply Hapart in Hc as [Hc _]; [|by etrans; [apply Hg|]].
             apply post_check_err in Epost. congruence. }
           by destruct er.
      * assert (∀ s'', subst_le s' s'' → compat s'' x y →
          Forall2 (compat s'') (children d) (children e)) as Hn.
        { intros s'' Hle Hc. apply Hapart in Hc as [_ Hc]; [done|]. by etrans; [apply Hg|]. }
        destruct er; simpl in *; try done; intros s'' Hs'' Hle Hc; by eapply Hr, Hn.
  - exists (Err er), s. split_and!; [|by apply grows_refl|].
    + eapply ev_ext; [intros n; symmetry; by apply unify_heads_plain|]. rewrite Epre. apply ev_ret.
    + assert (∀ s'', subst_ok s'' → subst_le s s'' → ¬ compat s'' x y) as Hn.
      { intros s'' Hs'' Hle Hc. apply Hapart in Hc as [Hc HF]; [|done].
        apply Forall2_length in HF. apply pre_check_err in Epre as [Hp|Hp]; congruence. }
      by destruct er.
Qed.

Lemma unifies_all s x y :
  subst_ok s → is_Some (get A x) → is_Some (get A y) → unifies s x y.
Proof.
  remember (room s) as m eqn:Em. revert s Em x y.
  induction (lt_wf m) as [m _ IHm]. intros s -> x y Hs Hx.
  destruct (resolves_total A s x Hs Hx) as [a Ha]. clear Hx. revert x a Ha y.
  refine (λ x a Ha, head_ind A s (λ a, ∀ x, resolves s x a → _) Hs _ x a Ha x Ha).
  clear x a Ha. intros a d Hd IH x Hx y Hy.
  destruct (resolves_total A s y Hs Hy) as [b Hb].
  destruct (resolves_head A s y b Hb) as [e He].
  destruct (decide (a = b)) as [<-|Hab].
  - exists Ok, s. split_and!; [|by apply grows_refl|by eapply co_same].
    eapply ev_S; [done|intros n; apply unify_S|].
    eapply ev_bind; [by apply resolve_ok|]. eapply ev_bind; [by apply resolve_ok|].
    rewrite Nat.eqb_refl. apply ev_ret.
  - destruct (heads_unify s x y a b d e) as (r & s' & Hev & Hg & Hr); try done.
    { intros c c' s' Hc Hc' Hg.
      assert (is_Some (get A c)) as Hsc by (eapply child_some; [done|apply Hd|done]).
      assert (is_Some (get A c')) as Hsc' by (eapply child_some; [done|apply He|done]).
      destruct (gr_room _ _ Hg) as [->|Hr].
      - destruct (resolves_total A s c Hs Hsc) as [w Hw]. by eapply IH.
      - eapply (IHm (room s')); [done..|apply Hg|done|done]. }
    exists r, s'. split_and!; [|done|done].
    eapply ev_S; [done|intros n; apply unify_S|].
    eapply ev_bind; [by apply resolve_ok|]. eapply ev_bind; [by apply resolve_ok|].
    destruct (Nat.eqb_spec a b); [done|]. destruct Hd as [Hd _]. destruct He as [He _].
    by rewrite Hd, He.
Qed.

End unify.

(** ** Instantiating generic types

    [substitute_params] (crates/mty-types/src/infer.rs) rebuilds a type with
    its parameters replaced, interning as it goes.  [psubst] says what the
    result is, node by node, in the arena it ends with. *)

(** A type without its children. *)
Definition blank (d : TyData) : TyData :=
  match d with
  | TTuple _ => TTuple []
  | TArray _ n => TArray 0 n
  | TRef m _ => TRef m 0
  | TFn _ _ e => TFn [] 0 e
  | TAdt d _ => TAdt d []
  | TRawPtr _ => TRawPtr 0
  | _ => d
  end.

Lemma blank_children d e : blank d = blank e → children d = children e → d = e.
Proof.
  destruct d, e; simpl; intros H1 H2; try congruence.
  apply app_inj_tail in H2 as [-> ->]. congruence.
Qed.

(** [y] is [x] with its parameters replaced. *)
Inductive psubst (A : TyArena) (rep : gmap ParamId TyId) : TyId → TyId → Prop :=
  | ps_param x p : get A x = Some (TParam p) → psubst A rep x (default x (rep !! p))
  | ps_empty x : get A x = Some (TTuple []) → psubst A rep x (unit_ (prims A))
  | ps_node x y d e : get A x = Some d → (∀ p, d ≠ TParam p) → d ≠ TTuple [] →
      get A y = Some e → blank d = blank e → Forall2 (psubst A rep) (children d) (children e) →
      psubst A rep x y.

(** [x] is built from the parameter [p]. *)
Inductive mentions (A : TyArena) (p : ParamId) : TyId → Prop :=
  | me_here x : get A x = Some (TParam p) → mentions A p x
  | me_child x d c : get A x = Some d → c ∈ children d → mentions A p c → mentions A p x.

(** What [substitute_params] needs of the arena and the replacement. *)
Record ready (rep : gmap ParamId TyId) (A : TyArena) : Prop := {
  rd_ok : arena_ok A;
  rd_unit : is_Some (get A (unit_ (prims A)));
  rd_rep p t : rep !! p = Some t → is_Some (get A t)
}.

Lemma is_Some_le A A' x : arena_le A A' → is_Some (get A x) → is_Some (get A' x).
Proof. intros H [d Hd]. exists d. by eapply arena_le_get. Qed.

Lemma ready_le rep A A' : ready rep A → arena_le A A' → arena_ok A' → ready rep A'.
Proof.
  intros HR Hle HA'. split; [done| |].
  - destruct Hle as [Hp Hq]. rewrite <- Hq. eapply is_Some_le; [by split|apply HR].
  - intros p t Ht. eapply is_Some_le; [done|by eapply rd_rep].
Qed.

Lemma psubst_le A A' rep x y : arena_ok A → arena_le A A' → psubst A rep x y → psubst A' rep x y.
Proof.
  intros HA Hle. revert y. induction (lt_wf x) as [x _ IH]. intros y H.
  inversion H as [? p Hx|? Hx|? ? d e Hx Hp Ht Hy Hb HF]; subst.
  - apply ps_param. by eapply arena_le_get.
  - destruct Hle as [Hpre Hq]. rewrite Hq. apply ps_empty. eapply arena_le_get; [|done]. by split.
  - apply (ps_node A' rep x y d e); try done; try (by eapply arena_le_get).
    apply Forall2_same_length_lookup_2; [by eapply Forall2_length|].
    intros i c c' Hi Hi'. pose proof (Forall2_lookup_lr _ _ _ _ _ _ HF Hi Hi') as Hcc.
    apply IH; [|done]. eapply (ao_children A HA); [exact Hx|by eapply list_elem_of_lookup_2].
Qed.

Definition rebuilds (rep : gmap ParamId TyId) (A : TyArena) (x : TyId) (A' : TyArena) (y : TyId) : Prop :=
  arena_ok A' ∧ arena_le A A' ∧ is_Some (get A' y) ∧ psubst A' rep x y.

Lemma map_rebuilds rep (f : nat → TyId → TyArena → option (TyArena * TyId)) xs A :
  ready rep A → (∀ x, x ∈ xs → is_Some (get A x)) →
  (∀ x A', x ∈ xs → ready rep A' → is_Some (get A' x) →
     ∃ A'' y, ev (λ n, f n x A') (A'', y) ∧ rebuilds rep A' x A'' y) →
  ∃ A' ys, ev (λ n, map_arena (f n) xs A) (A', ys) ∧ arena_ok A' ∧ arena_le A A'
    ∧ Forall (λ y, is_Some (get A' y)) ys ∧ Forall2 (psubst A' rep) xs ys.
Proof.
  revert A. induction xs as [|x xs IH]; intros A HR Hv Hf.
  - exists A, []. split_and!; [apply ev_ret|apply HR|done|constructor|constructor].
  - destruct (Hf x A) as (A1 & y & He & Hok & Hle & Hy & Hp); [by left|done|apply Hv; by left|].
    destruct (IH A1) as (A2 & ys & He2 & Hok2 & Hle2 & Hys & HF).
    + by eapply ready_le.
    + intros z Hz. eapply is_Some_le; [done|]. apply Hv. by right.
    + intros z A' Hz. apply Hf. by right.
    + exists A2, (y :: ys). split_and!; [|done|by etrans| |].
      * simpl. eapply ev_bind; [exact He|]. eapply ev_bind; [exact He2|apply ev_ret].
      * constructor; [by eapply is_Some_le|done].
      * constructor; [by eapply (psubst_le A1)|done].
Qed.

(** Interning a node whose children are in place. *)
Lemma intern_rebuilds rep A x d e :
  arena_ok A → get A x = Some d → (∀ p, d ≠ TParam p) → d ≠ TTuple [] → blank d = blank e →
  Forall (λ c, is_Some (get A c)) (children e) → Forall2 (psubst A rep) (children d) (children e) →
  rebuilds rep A x (intern A e).1 (intern A e).2.
Proof.
  intros HA Hx Hp Ht Hb Hv HF. destruct (intern_ok A e HA) as (Hok & Hg & Hle).
  { eapply Forall_impl; [exact Hv|]. intros c [dc Hc]. by eapply lookup_lt_Some. }
  split_and!; [done|done|by eexists|].
  apply (ps_node _ rep x _ d e); try done; [by eapply arena_le_get|].
  eapply Forall2_impl; [exact HF|]. intros. by eapply (psubst_le A).
Qed.

Lemma rebuilds_trans rep A A1 x A2 y :
  arena_le A A1 → rebuilds rep A1 x A2 y → rebuilds rep A x A2 y.
Proof. intros Hle (H1 & H2 & H3 & H4). split_and!; try done. by etrans. Qed.

Lemma ev_pair {X Y} (f : nat → option X) (g : X → Y) x : ev f x → ev (λ n, r ← f n; Some (g r)) (g x).
Proof. intros H. eapply ev_bind; [exact H|apply ev_ret]. Qed.

Lemma substitute_params_rebuilds rep x A :
  ready rep A → is_Some (get A x) →
  ∃ A' y, ev (λ n, substitute_params n rep x A) (A', y) ∧ rebuilds rep A x A' y.
Proof.
  revert A. induction (lt_wf x) as [x _ IH]. intros A HR [d Hd].
  pose proof (rd_ok _ _ HR) as HA.
  assert (∀ c, c ∈ children d → is_Some (get A c)) as Hch.
  { intros c Hc. by eapply child_some. }
  assert (∀ c A', c ∈ children d → ready rep A' → is_Some (get A' c) →
     ∃ A'' y, ev (λ n, substitute_params n rep c A') (A'', y) ∧ rebuilds rep A' c A'' y) as IHc.
  { intros c A' Hc. apply IH. by eapply (ao_children A HA). }
  assert (children d = [] → (∀ p, d ≠ TParam p) → d ≠ TTuple [] → rebuilds rep A x A x) as Hleaf.
  { intros Hn Hp Ht. split_and!; [done|done|by eexists|].
    apply (ps_node A rep x x d d); try done. rewrite Hn. constructor. }
  assert (∀ A1 e, arena_ok A1 → arena_le A A1 → (∀ p, d ≠ TParam p) → d ≠ TTuple [] →
    blank d = blank e → Forall (λ c, is_Some (get A1 c)) (children e) →
    Forall2 (psubst A1 rep) (children d) (children e) →
    rebuilds rep A x (intern A1 e).1 (intern A1 e).2) as Hnode.
  { intros. eapply rebuilds_trans; [done|]. apply (intern_rebuilds rep A1 x d e); try done.
    by eapply arena_le_get. }
  assert (∀ c, children d = [c] → ∃ A1 y, ev (λ n, substitute_params n rep c A) (A1, y) ∧ arena_ok A1
    ∧ arena_le A A1 ∧ is_Some (get A1 y) ∧ psubst A1 rep c y) as Hone.
  { intros c Hc. rewrite Hc in *. apply IHc; [by left|done|]. apply Hch. by left. }
  assert (∀ cs, cs ⊆ children d → ∃ A1 ys, ev (λ n, map_arena (substitute_params n rep) cs A) (A1, ys)
    ∧ arena_ok A1 ∧ arena_le A A1 ∧ Forall (λ y, is_Some (get A1 y)) ys
    ∧ Forall2 (psubst A1 rep) cs ys) as Hall.
  { intros cs Hcs. apply map_rebuilds; [done|intros c Hc; by apply Hch, Hcs|].
    intros c A' Hc. by apply IHc, Hcs. }
  destruct d as [| | | | | | | | | | |xs|e len|m i|ps r eff|ad args|v|p|i| | | |];
    try (exists A, x; split; [|by apply Hleaf];
         eapply ev_S; [done|intros n; cbn [substitute_params]; rewrite Hd; reflexivity|apply ev_ret]).
  - destruct (Hall xs) as (A1 & ys & He & Hok & Hle & Hv & HF); [done|].
    exists (tuple A1 ys).1, (tuple A1 ys).2. split.
    + eapply ev_S; [done|intros n; cbn [substitute_params]; rewrite Hd; reflexivity|].
      rewrite <- surjective_pairing. apply (ev_pair _ (λ r, tuple r.1 r.2) (A1, ys)), He.
    + destruct HF as [|c y xs ys Hc HF]; [|by apply Hnode; [..|by constructor]].
      split_and!; simpl; [done|done|by apply (ready_le rep A A1)|]. apply ps_empty. by eapply arena_le_get.
  - destruct (Hone e) as (A1 & y & He & Hok & Hle & Hv & HF); [done|].
    exists (array A1 y len).1, (array A1 y len).2. split; [|apply Hnode; try done; by repeat constructor].
    eapply ev_S; [done|intros n; cbn [substitute_params]; rewrite Hd; reflexivity|].
    rewrite <- surjective_pairing. apply (ev_pair _ (λ r, array r.1 r.2 len) (A1, y)), He.
  - destruct (Hone i) as (A1 & y & He & Hok & Hle & Hv & HF); [done|].
    exists (ref_to A1 m y).1, (ref_to A1 m y).2. split; [|apply Hnode; try done; by repeat constructor].
    eapply ev_S; [done|intros n; cbn [substitute_params]; rewrite Hd; reflexivity|].
    rewrite <- surjective_pairing. apply (ev_pair _ (λ r, ref_to r.1 m r.2) (A1, y)), He.
  - destruct (Hall ps) as (A1 & ys & He & Hok & Hle & Hv & HF);
      [intros c Hc; simpl; apply elem_of_app; by left|].
    destruct (IHc r A1) as (A2 & y & He2 & Hok2 & Hle2 & Hv2 & HF2);
      [simpl; apply elem_of_app; right; by left|by eapply ready_le|
       eapply is_Some_le; [done|]; apply Hch; simpl; apply elem_of_app; right; by left|].
    exists (fn_ty A2 ys y eff).1, (fn_ty A2 ys y eff).2. split.
    + eapply ev_S; [done|intros n; cbn [substitute_params]; rewrite Hd; reflexivity|].
      simpl mbind. eapply ev_bind; [exact He|]. simpl.
      rewrite <- surjective_pairing. apply (ev_pair _ (λ r', fn_ty r'.1 ys r'.2 eff) (A2, y)), He2.
    + apply Hnode; try done; [by etrans| |].
      * apply Forall_app. split; [|by repeat constructor]. eapply Forall_impl; [exact Hv|].
        intros z. by apply is_Some_le.
      * apply Forall2_app; [|by repeat constructor]. eapply Forall2_impl; [exact HF|].
        intros. by eapply (psubst_le A1).
  - destruct (Hall args) as (A1 & ys & He & Hok & Hle & Hv & HF); [done|].
    exists (adt A1 ad ys).1, (adt A1 ad ys).2. split; [|by apply Hnode].
    eapply ev_S; [done|intros n; cbn [substitute_params]; rewrite Hd; reflexivity|].
    rewrite <- surjective_pairing. apply (ev_pair _ (λ r, adt r.1 ad r.2) (A1, ys)), He.
  - exists A, (default x (rep !! p)). split.
    + eapply ev_S; [done|intros n; cbn [substitute_params]; rewrite Hd; reflexivity|apply ev_ret].
    + split_and!; [done|done| |by apply ps_param].
      destruct (rep !! p) eqn:Ep; simpl; [by eapply rd_rep|by eexists].
  - destruct (Hone i) as (A1 & y & He & Hok & Hle & Hv & HF); [done|].
    exists (raw_ptr A1 y).1, (raw_ptr A1 y).2. split; [|apply Hnode; try done; by repeat constructor].
    eapply ev_S; [done|intros n; cbn [substitute_params]; rewrite Hd; reflexivity|].
    rewrite <- surjective_pairing. apply (ev_pair _ (λ r, raw_ptr r.1 r.2) (A1, y)), He.
Qed.

(** Where no parameter is replaced the result is the type itself. *)
Lemma intern_present A x d : arena_ok A → get A x = Some d → intern A d = (A, x).
Proof.
  intros HA Hx%(ao_map A HA). unfold intern, alloc. simpl. rewrite Hx. by destruct A.
Qed.

Lemma map_arena_same (f : nat → TyId → TyArena → option (TyArena * TyId)) A xs :
  (∀ x, x ∈ xs → ev (λ n, f n x A) (A, x)) → ev (λ n, map_arena (f n) xs A) (A, xs).
Proof.
  induction xs as [|x xs IH]; intros H; [apply ev_ret|].
  simpl. eapply ev_bind; [apply H; by left|]. simpl.
  eapply ev_bind; [apply IH; intros y Hy; apply H; by right|apply ev_ret].
Qed.

Lemma substitute_params_same A rep x :
  arena_ok A → (∀ id, get A id ≠ Some (TTuple [])) → is_Some (get A x) →
  (∀ p, mentions A p x → rep !! p = None) →
  ev (λ n, substitute_params n rep x A) (A, x).
Proof.
  intros HA Ht. induction (lt_wf x) as [x _ IH]. intros [d Hd] Hm.
  assert (∀ c, c ∈ children d → ev (λ n, substitute_params n rep c A) (A, c)) as IHc.
  { intros c Hc. apply IH; [by eapply (ao_children A HA)|by eapply child_some|].
    intros p Hp. apply Hm. by eapply me_child. }
  pose proof (intern_present A x d HA Hd) as Hi.
  assert (∀ cs, cs ⊆ children d →
    ev (λ n, map_arena (substitute_params n rep) cs A) (A, cs)) as Hall.
  { intros cs Hcs. apply map_arena_same. intros c Hc. by apply IHc, Hcs. }
  eapply ev_S; [done|intros n; cbn [substitute_params]; rewrite Hd; reflexivity|]. simpl mbind.
  destruct d as [| | | | | | | | | | |xs|e len|m i|ps r eff|ad args|v|p|i| | | |]; try apply ev_ret.
  - eapply ev_bind; [by apply Hall|]. simpl. unfold tuple.
    destruct xs; [by destruct (Ht x)|]. rewrite Hi. apply ev_ret.
  - eapply ev_bind; [apply IHc; by left|]. simpl. unfold array. rewrite Hi. apply ev_ret.
  - eapply ev_bind; [apply IHc; by left|]. simpl. unfold ref_to. rewrite Hi. apply ev_ret.
  - eapply ev_bind; [apply Hall; intros c Hc; apply elem_of_app; by left|]. simpl.
    eapply ev_bind; [apply IHc, elem_of_app; right; by left|]. simpl. unfold fn_ty.
    rewrite Hi. apply ev_ret.
  - eapply ev_bind; [by apply Hall|]. simpl. unfold adt. rewrite Hi. apply ev_ret.
  - rewrite (Hm p); [apply ev_ret|by constructor].
  - eapply ev_bind; [apply IHc; by left|]. simpl. unfold raw_ptr. rewrite Hi. apply ev_ret.
Qed.
