(* ===== verification/TypesTheorems.v ===== *)
(** * What the type arena, the unifier and capability narrowing guarantee

    [step] is what a type checker may do with an arena and a substitution:
    intern a type, take a fresh variable, unify two types.  Every state it
    reaches is well formed, so every call returns. *)

From stdpp Require Import base list strings numbers sets gmap.
From S2P Require Import Prelude TyArena Infer Unify.

(** The arena of the primitives is unfolded last. *)
Strategy 1000 [new].

(** ** Reachable states *)

(** The arena and the substitution are threaded through the checker; the
    outcome of a unification does not stop it. *)
Inductive step : TyArena * Substitution → TyArena * Substitution → Prop :=
  | st_intern A s ty : Forall (λ c, is_Some (get A c)) (children ty) →
      step (A, s) ((intern A ty).1, s)
  | st_fresh A s : step (A, s) (A, (fresh_var s).1)
  | st_unify A s x y r s' : is_Some (get A x) → is_Some (get A y) →
      ev (λ n, unify n A x y s) (r, s') → step (A, s) (A, s').

Definition reachable (A : TyArena) (s : Substitution) : Prop := rtc step (new, []) (A, s).

Lemma subst_ok_arena A A' s :
  arena_ok A → arena_ok A' → arena_le A A' → subst_ok A s → subst_ok A' s.
Proof.
  intros HA HA' Hle Hs.
  assert (∀ x, is_Some (get A x) → Acc (below A' s) x) as Hold.
  { intros x. induction (so_wf A s Hs x) as [x _ IH]. intros [d Hd]. constructor.
    intros y (d' & Hd' & H). rewrite (arena_le_get A A' x d Hle Hd) in Hd'.
    injection Hd' as <-. apply IH; [by exists d|]. eapply below_some; [done|exact Hs|]. by exists d. }
  split.
  - intros x. induction (lt_wf x) as [x _ IH]. constructor. intros y (d & Hd & [Hc|(v & -> & Hv)]).
    + apply IH. by eapply (ao_children A' HA').
    + apply Hold. by eapply so_range.
  - intros v t Hv. eapply is_Some_le; [done|]. by eapply so_range.
Qed.

Lemma step_ok A s A' s' :
  arena_ok A → subst_ok A s → step (A, s) (A', s') → arena_ok A' ∧ subst_ok A' s'.
Proof.
  intros HA Hs H. inversion H as [? ? ty Hc|? ?|? ? x y r ? Hx Hy Hu]; subst.
  - destruct (intern_ok A ty HA) as (HA' & _ & Hle).
    { eapply Forall_impl; [exact Hc|]. intros c [d Hd]. by eapply lookup_lt_Some. }
    split; [exact HA'|exact (subst_ok_arena A _ _ HA HA' Hle Hs)].
  - split; [done|]. by apply fresh_var_ok.
  - split; [done|]. destruct (unifies_all _ HA _ x y Hs Hx Hy) as (r' & s2 & He & Hg & _).
    pose proof (ev_det _ _ _ Hu He) as [= -> ->]. apply Hg.
Qed.

Definition wf (st : TyArena * Substitution) : Prop := arena_ok st.1 ∧ subst_ok st.1 st.2.

Lemma steps_wf st st' : rtc step st st' → wf st → wf st'.
Proof.
  induction 1 as [|[A s] [A' s'] st' H _ IH]; [done|]. intros [HA Hs]. apply IH.
  by apply (step_ok A s A' s').
Qed.

Lemma new_wf : wf (new, []).
Proof. split; [exact new_ok|apply empty_ok, new_ok]. Qed.

Lemma reachable_wf A s : reachable A s → arena_ok A ∧ subst_ok A s.
Proof. intros H. exact (steps_wf _ _ H new_wf). Qed.

Lemma reachable_step A s A' s' : reachable A s → step (A, s) (A', s') → reachable A' s'.
Proof. intros H1 H2. eapply rtc_r; [exact H1|exact H2]. Qed.

(** The primitives, two variables [?0] and [?1], and the tuples [(?0, bool)]
    and [(i32, ?1)]: a state the checker reaches. *)
Definition demo1 : TyArena := (intern new (TVar 0)).1.
Definition demo2 : TyArena := (intern demo1 (TVar 1)).1.
Definition demo3 : TyArena := (intern demo2 (TTuple [26; bool_ (prims new)])).1.
Definition demo : TyArena := (intern demo3 (TTuple [i32 (prims new); 27])).1.
Definition demo_subst : Substitution := [None; None].

Lemma valid_id A x : x < length (storage A) → is_Some (get A x).
Proof. apply lookup_lt_is_Some. Qed.

Lemma demo_reachable : reachable demo demo_subst.
Proof.
  unfold reachable. apply (rtc_l _ _ (new, [None])); [exact (st_fresh new [])|].
  apply (rtc_l _ _ (new, demo_subst)); [exact (st_fresh new [None])|].
  apply (rtc_l _ _ (demo1, demo_subst)); [apply (st_intern new _ (TVar 0)); constructor|].
  apply (rtc_l _ _ (demo2, demo_subst)); [apply (st_intern demo1 _ (TVar 1)); constructor|].
  apply (rtc_l _ _ (demo3, demo_subst)); [apply st_intern|apply rtc_once, st_intern];
    repeat constructor; apply valid_id; vm_compute; lia.
Qed.

Lemma reachable_le A s : reachable A s → arena_le new A.
Proof.
  intros H. enough (∀ st st', rtc step st st' → wf st → arena_le st.1 st'.1) as Hle.
  { exact (Hle _ _ H new_wf). }
  clear. induction 1 as [|[A s] [A' s'] st' H _ IH]; [done|]. intros [HA Hs].
  etrans; [|apply IH, (step_ok A s); done].
  inversion H as [? ? ty Hc|? ?|? ? x y r ? Hx Hy Hu]; subst; [|done|done].
  apply (intern_ok A ty HA). eapply Forall_impl; [exact Hc|]. intros c [d Hd].
  by eapply lookup_lt_Some.
Qed.

Lemma reachable_prim A s i d :
  reachable A s → prim_data !! i = Some d → get A i = Some d.
Proof.
  intros H%reachable_le Hi. eapply arena_le_get; [exact H|]. unfold get. by rewrite storage_new.
Qed.

Lemma reachable_prims A s : reachable A s → prims A = prims new.
Proof. intros H%reachable_le. symmetry. apply H. Qed.

Lemma tc_Acc {X} (R : X → X → Prop) x : Acc R x → Acc (tc R) x.
Proof.
  induction 1 as [w _ IH]. constructor. intros u Hu.
  induction Hu as [u w Hu|u t w Hu Ht IHt]; [by apply IH|].
  apply (Acc_inv (IHt IH)). by apply tc_once.
Qed.

Lemma reachable_int A s k : reachable A s → get A (int A k) = Some (TInt k).
Proof.
  intros HR. unfold int. rewrite (reachable_prims A s HR).
  eapply reachable_prim; [exact HR|]. destruct k; vm_compute; reflexivity.
Qed.

Lemma reachable_float A s k : reachable A s → get A (float A k) = Some (TFloat k).
Proof.
  intros HR. unfold float. rewrite (reachable_prims A s HR).
  eapply reachable_prim; [exact HR|]. destruct k; vm_compute; reflexivity.
Qed.

(** C2. From every state the checker can reach, [unify] returns on every two
    types; the new state is again reachable and keeps the bindings made.  When
    it answers [Ok] the types agree under the new bindings; when it answers
    [Mismatch] or [ArityMismatch], no further binding makes them agree. *)
Theorem unify_total_and_sound A s x y :
  reachable A s → is_Some (get A x) → is_Some (get A y) →
  ∃ r s', ev (λ n, unify n A x y s) (r, s') ∧ reachable A s' ∧ subst_le s s'
    ∧ match r with
      | Ok => compat A s' x y
      | Err Occurs => True
      | Err _ => ∀ s'', reachable A s'' → subst_le s' s'' → ¬ compat A s'' x y
      end.
Proof.
  intros HR Hx Hy. destruct (reachable_wf A s HR) as [HA Hs].
  destruct (unifies_all A HA s x y Hs Hx Hy) as (r & s' & He & Hg & Hv).
  exists r, s'. split_and!; [done| |apply Hg|].
  - eapply reachable_step; [exact HR|]. exact (st_unify A s x y r s' Hx Hy He).
  - destruct r as [|[]]; simpl in Hv; try done;
      intros s'' HR' Hle; (apply (Hv s''); [apply (reachable_wf A s'' HR')|done]).
Qed.

Lemma unify_total_and_sound_witness :
  unify 9 demo 28 29 demo_subst = Some (Ok, [Some 14; Some 0]) ∧
  ∃ r s', ev (λ n, unify n demo 28 29 demo_subst) (r, s') ∧ reachable demo s' ∧ subst_le demo_subst s'
    ∧ match r with
      | Ok => compat demo s' 28 29
      | Err Occurs => True
      | Err _ => ∀ s'', reachable demo s'' → subst_le s' s'' → ¬ compat demo s'' 28 29
      end.
Proof.
  split; [vm_compute; reflexivity|].
  apply (unify_total_and_sound demo demo_subst 28 29 demo_reachable); apply valid_id; vm_compute; lia.
Defined.

(** In every reachable state no type is reachable from itself through
    children and bindings, so [resolve] stops, at a type that is not a bound
    variable. *)
Theorem resolve_terminates A s x :
  reachable A s → is_Some (get A x) →
  (∀ z, ¬ tc (below A s) z z)
  ∧ ∃ y, ev (λ n, resolve n s A x) y ∧ resolves A s x y
      ∧ ∃ d, get A y = Some d ∧ ∀ v, d = TVar v → sget s v = None.
Proof.
  intros HR Hx. destruct (reachable_wf A s HR) as [HA Hs]. split.
  - intros z Hz. eapply (Acc_irrefl (tc (below A s)) z); [|exact Hz].
    apply tc_Acc, (so_wf A s Hs).
  - destruct (resolves_total A s x Hs Hx) as [y Hy]. exists y.
    split_and!; [by apply resolve_ok|done|]. by apply (resolves_head A s x).
Qed.

Lemma resolve_terminates_witness :
  (∀ z, ¬ tc (below demo demo_subst) z z)
  ∧ ∃ y, ev (λ n, resolve n demo_subst demo 26) y ∧ resolves demo demo_subst 26 y
      ∧ ∃ d, get demo y = Some d ∧ ∀ v, d = TVar v → sget demo_subst v = None.
Proof.
  apply (resolve_terminates demo demo_subst 26 demo_reachable). apply valid_id. vm_compute. lia.
Defined.

(** The occurs check returns, and says [true] exactly when the variable
    is somewhere in the type, under its bindings. *)
Theorem occurs_check_exact A s v x :
  reachable A s → sget s v = None → is_Some (get A x) →
  ∃ b, ev (λ n, occurs_check n v x s A) b ∧ (b = true ↔ occurs A s v x).
Proof.
  intros HR Hv Hx. destruct (reachable_wf A s HR) as [HA Hs]. by apply occurs_check_ok.
Qed.

Lemma occurs_check_exact_witness :
  (occurs_check 9 0 28 demo_subst demo = Some true ∧ occurs_check 9 0 29 demo_subst demo = Some false)
  ∧ ∃ b, ev (λ n, occurs_check n 0 28 demo_subst demo) b ∧ (b = true ↔ occurs demo demo_subst 0 28).
Proof.
  split; [vm_compute; by split|].
  apply (occurs_check_exact demo demo_subst 0 28 demo_reachable); [reflexivity|].
  apply valid_id. vm_compute. lia.
Defined.

(** Instantiating a type returns; the arena stays well formed and only
    grows, and the result is the type with every replaced parameter replaced
    and every other node kept. *)
Theorem substitute_params_correct A s rep x :
  reachable A s → is_Some (get A x) → (∀ p t, rep !! p = Some t → is_Some (get A t)) →
  ∃ A' y, ev (λ n, substitute_params n rep x A) (A', y)
    ∧ arena_ok A' ∧ arena_le A A' ∧ is_Some (get A' y) ∧ psubst A' rep x y.
Proof.
  intros HR Hx Hrep. apply substitute_params_rebuilds; [|exact Hx].
  split; [apply (reachable_wf A s HR)| |exact Hrep].
  rewrite (reachable_prims A s HR). exists TUnit. by apply (reachable_prim A s 1).
Qed.

(** A generic function type [fn(T0) -> [T0; 2]] over the primitives. *)
Definition generic1 : TyArena := (intern new (TParam 0)).1.
Definition generic2 : TyArena := (intern generic1 (TArray 26 (Some 2%Z))).1.
Definition generic : TyArena := (intern generic2 (TFn [26] 27 [])).1.

Lemma generic_reachable : reachable generic [].
Proof.
  unfold reachable.
  apply (rtc_l _ _ (generic1, [])); [apply (st_intern new _ (TParam 0)); constructor|].
  apply (rtc_l _ _ (generic2, [])); [apply st_intern|apply rtc_once, st_intern];
    repeat constructor; apply valid_id; vm_compute; lia.
Qed.

Lemma substitute_params_correct_witness :
  (r ← substitute_params 9 {[ 0 := 0 ]} 28 generic; get r.1 r.2) = Some (TFn [0] 29 [])
  ∧ ∃ A' y, ev (λ n, substitute_params n {[ 0 := 0 ]} 28 generic) (A', y)
    ∧ arena_ok A' ∧ arena_le generic A' ∧ is_Some (get A' y) ∧ psubst A' {[ 0 := 0 ]} 28 y.
Proof.
  split; [vm_compute; reflexivity|].
  apply (substitute_params_correct generic [] _ 28 generic_reachable).
  - apply valid_id. vm_compute. lia.
  - intros p t [<- <-]%lookup_singleton_Some. apply valid_id. vm_compute. lia.
Defined.

(** A type none of whose parameters is replaced comes back under the same
    id, and the arena is left alone (the empty tuple, for which the arena has
    the unit type, not being among its types). *)
Theorem substitute_params_unchanged A s rep x :
  reachable A s → is_Some (get A x) → (∀ id, get A id ≠ Some (TTuple [])) →
  (∀ p, mentions A p x → rep !! p = None) →
  ev (λ n, substitute_params n rep x A) (A, x).
Proof. intros HR Hx Ht Hm. apply substitute_params_same; try done. apply (reachable_wf A s HR). Qed.

Lemma substitute_params_unchanged_witness :
  ev (λ n, substitute_params n {[ 1 := 0 ]} 28 generic) (generic, 28).
Proof.
  apply (substitute_params_unchanged generic [] _ 28 generic_reachable).
  - apply valid_id. vm_compute. lia.
  - intros id H. apply list_elem_of_lookup_2 in H.
    assert (bool_decide (TTuple [] ∈ storage generic) = false) as Hb by (vm_compute; reflexivity).
    by apply bool_decide_eq_false in Hb.
  - intros p Hp. apply lookup_singleton_None. intros <-.
    assert (∀ i, i < length (storage generic) → ¬ mentions generic 1 i) as Hno; [|
      apply (Hno 28); [vm_compute; lia|done]].
    clear Hp. intros i. induction (lt_wf i) as [i _ IH]. intros Hi Hm.
    inversion Hm as [? Hx|? d c Hx Hc Hmc]; subst.
    + apply list_elem_of_lookup_2 in Hx.
      assert (bool_decide (TParam 1 ∈ storage generic) = false) as Hb by (vm_compute; reflexivity).
      by apply bool_decide_eq_false in Hb.
    + pose proof (reachable_wf generic [] generic_reachable) as [Hok _].
      unfold get in Hx. pose proof (ao_children generic Hok i d c Hx Hc) as Hlt.
      by apply (IH c Hlt); [lia|].
Defined.

(** C5. In every arena the checker reaches, interning gives one id to equal
    types and two to different ones, each id reads back as its type, and the
    ids given before keep theirs. *)
Theorem intern_canonical A s t1 t2 :
  reachable A s → Forall (λ c, is_Some (get A c)) (children t1) →
  Forall (λ c, is_Some (get A c)) (children t2) →
  let '(A1, i) := intern A t1 in
  let '(A2, j) := intern A1 t2 in
  get A2 i = Some t1 ∧ get A2 j = Some t2 ∧ (i = j ↔ t1 = t2) ∧ arena_le A A2.
Proof.
  intros HR H1 H2. destruct (reachable_wf A s HR) as [HA _].
  assert (∀ A t, Forall (λ c, is_Some (get A c)) (children t) →
    Forall (λ c, c < length (storage A)) (children t)) as Hlen.
  { intros B t H. eapply Forall_impl; [exact H|]. intros c. apply lookup_lt_is_Some. }
  destruct (intern_ok A t1 HA) as (HA1 & Hg1 & Hle1); [by apply Hlen|].
  destruct (intern A t1) as [A1 i]. simpl in *.
  destruct (intern_ok A1 t2 HA1) as (HA2 & Hg2 & Hle2).
  { apply Hlen. eapply Forall_impl; [exact H2|]. intros c. by apply is_Some_le. }
  destruct (intern A1 t2) as [A2 j]. simpl in *.
  pose proof (arena_le_get _ _ _ _ Hle2 Hg1) as Hg1'.
  split_and!; [done|done| |by etrans]. split; [intros ->; congruence|].
  intros <-. by eapply (arena_no_dup A2).
Qed.

Lemma intern_canonical_witness :
  let '(A1, i) := intern demo (TTuple [27; 27]) in
  let '(A2, j) := intern A1 (TRef true 28) in
  get A2 i = Some (TTuple [27; 27]) ∧ get A2 j = Some (TRef true 28)
  ∧ (i = j ↔ TTuple [27; 27] = TRef true 28) ∧ arena_le demo A2.
Proof.
  apply (intern_canonical demo demo_subst _ _ demo_reachable);
    repeat constructor; apply valid_id; vm_compute; lia.
Defined.

(** The accessors of the numeric primitives name the type they say, in
    every arena the checker reaches. *)
Theorem numeric_primitives A s :
  reachable A s →
  (∀ k, get A (int A k) = Some (TInt k)) ∧ (∀ k, get A (float A k) = Some (TFloat k)).
Proof.
  intros HR. split; intros k; [by eapply reachable_int|by eapply reachable_float].
Qed.

Lemma numeric_primitives_witness :
  (∀ k, get demo (int demo k) = Some (TInt k)) ∧ (∀ k, get demo (float demo k) = Some (TFloat k)).
Proof. exact (numeric_primitives demo demo_subst demo_reachable). Defined.

(** Narrowing is a preorder with [Any] at the top. *)
Theorem narrowing_preorder :
  (∀ a, is_narrower_or_eq a a = true)
  ∧ (∀ a b c, is_narrower_or_eq a b = true → is_narrower_or_eq b c = true → is_narrower_or_eq a c = true)
  ∧ (∀ a, is_narrower_or_eq a CAny = true)
  ∧ (∀ b, is_narrower_or_eq CAny b = true → b = CAny).
Proof.
  split_and!; [intros a; by apply is_narrower_eq|apply is_narrower_trans'|apply is_narrower_top|
    apply is_narrower_any].
Qed.

(** Narrowing between paths compares them as texts: it accepts exactly
    the extensions of the expected path, also past a component boundary. *)
Theorem path_narrowing_is_textual :
  (∀ p q, is_narrower_or_eq (CPath p) (CPath q) = true ↔ ∃ r, p = (q ++ r)%string)
  ∧ is_narrower_or_eq (CPath "/database") (CPath "/data") = true.
Proof.
  split; [|reflexivity]. intros p q. split.
  - intros [[=]|[[= ->]|[(? & ? & [=] & _)|[(p' & q' & [= <-] & [= <-] & H)|(? & ? & [=] & _)]]]]%is_narrower_inv.
    + exists ""%string. induction q as [|c q IH]; [done|]. exact (f_equal (String c) IH).
    + revert p H. induction q as [|c q IH]; intros p H; [by exists p|].
      destruct p as [|c' p]; [done|]. unfold starts_with in H. simpl in H.
      destruct (Ascii.ascii_dec c c') as [->|]; [|done].
      destruct (IH p H) as [r ->]. by exists r.
  - intros [r ->]. apply is_narrower_path. unfold starts_with.
    induction q as [|c q IH]; [by destruct r|].
    change (String.prefix (String c q) (String c (q ++ r)) = true). simpl.
    by destruct (Ascii.ascii_dec c c).
Qed.

(** A variable bound to the literal type [{integer}] unifies with every
    integer type, one after the other, and is never pinned to any of them. *)
Theorem int_infer_never_pinned A s x k :
  reachable A s → resolves A s x (int A IntInfer) →
  ev (λ n, unify n A x (int A k) s) (Ok, s).
Proof.
  intros HR Hx. destruct (reachable_wf A s HR) as [HA Hs].
  pose proof (λ k, reachable_int A s k HR) as Hint.
  assert (resolves A s (int A k) (int A k)) as Hk.
  { eapply res_head; [apply Hint|]. by intros v [=]. }
  eapply ev_S; [done|intros n; apply unify_S|].
  eapply ev_bind; [by apply resolve_ok|]. eapply ev_bind; [by apply resolve_ok|].
  destruct (_ =? _); [apply ev_ret|]. rewrite !Hint.
  exists 0. intros n _. simpl. by destruct k.
Qed.

Definition demo_bound : Substitution := [Some (int_infer (prims new)); None].

Lemma int_infer_never_pinned_witness :
  ev (λ n, unify n demo 26 (int demo I64) demo_bound) (Ok, demo_bound)
  ∧ ev (λ n, unify n demo 26 (int demo U8) demo_bound) (Ok, demo_bound).
Proof.
  assert (ev (λ n, unify n demo 26 (int demo IntInfer) demo_subst) (Ok, demo_bound)) as Hu.
  { exists 3. intros [|[|[|n]]] Hn; [lia..|]. vm_compute. reflexivity. }
  assert (reachable demo demo_bound) as HR.
  { eapply reachable_step; [exact demo_reachable|].
    eapply st_unify; [| |exact Hu]; apply valid_id; vm_compute; lia. }
  assert (resolves demo demo_bound 26 (int demo IntInfer)) as Hx.
  { eapply (res_step _ _ _ 0); [vm_compute; reflexivity..|].
    eapply (res_head _ _ _ (TInt IntInfer)); [vm_compute; reflexivity|done]. }
  split; by apply (int_infer_never_pinned demo demo_bound 26).
Defined.
