(* ===== verification/Hir.v ===== *)
(** * The high-level IR

    [crates/mty-hir/src/nodes.rs], the effect rows of [effects.rs], and the
    side tables of the type checker that the borrow checker reads
    ([TypedPackage] of [crates/mty-types/src/lib.rs], [DefMap] and the ADT
    tables of [defs.rs]).  A node is an index into its arena; an index out of
    range panics ([None]).  A [HashMap] is a [gmap]. *)

From stdpp Require Import base list strings numbers gmap.
From Stdlib Require Import SpecFloat.
From S2P Require Import Prelude TyArena.

Notation ItemId := nat (only parsing).
Notation FnId := nat (only parsing).
Notation AgentId := nat (only parsing).
Notation SupervisorId := nat (only parsing).
Notation ExprId := nat (only parsing).
Notation PatId := nat (only parsing).
Notation TypeId := nat (only parsing).
Notation BlockId := nat (only parsing).

Record SourceSpan : Set := mkSpan { sp_start : Z; sp_end : Z }.

(** [SourceSpan { start: 0, end: 0 }], the span of what has none. *)
Definition no_span : SourceSpan := mkSpan 0 0.

(** ** Effect rows *)

Record HirRowVar : Set := mkRowVar { rv_name : string; rv_idx : Z }.

Inductive HirEffectRow : Set :=
  | Closed (effects : list string)
  | Open (effects : list string) (vars : list HirRowVar).

Definition concrete (r : HirEffectRow) : list string := match r with Closed xs | Open xs _ => xs end.
Definition is_open (r : HirEffectRow) : bool := match r with Open _ _ => true | Closed _ => false end.
Definition row_vars (r : HirEffectRow) : list HirRowVar := match r with Closed _ => [] | Open _ vs => vs end.
Definition row_var (r : HirEffectRow) : option HirRowVar := head (row_vars r).
Definition row_var_count (r : HirEffectRow) : nat := length (row_vars r).

(** ** Types and patterns *)

Inductive HirType : Set :=
  | HtPath (segments : list string) (generics : list TypeId)
  | HtBorrow (mutable : bool) (inner : TypeId)
  | HtTuple (xs : list TypeId)
  | HtArray (elem : TypeId) (len : option ExprId)
  | HtFn (params : list TypeId) (ret : option TypeId)
  | HtResult (ok err : TypeId)
  | HtUnion (xs : list TypeId)
  | HtDyn (trait_name : string)
  | HtUnit
  | HtUnknown.

Inductive HirLiteral : Set :=
  | LInt (n : Z) (suffix : option string)
  | LFloat (x : spec_float) (suffix : option string)
  | LStr (s : string)
  | LChar (c : Z)
  | LBool (b : bool)
  | LDuration (value : Z) (unit_ : string)
  | LSize (value : Z) (unit_ : string).

Inductive HirPat : Set :=
  | PWildcard
  | PLiteral (l : HirLiteral)
  | PBinding (name : string) (sub : option PatId)
  | PRef (mutable : bool) (inner : PatId)
  | PTuple (xs : list PatId)
  | PStruct (path : list string) (fields : list (string * option PatId))
  | PEnum (path : list string) (args : list PatId)
  | PRange (lo hi : PatId) (inclusive : bool).

(** ** Expressions, statements and blocks *)

Inductive BinOp : Set :=
  | Add | Sub | Mul | Div | Rem | BitAnd | BitOr | BitXor | Shl | Shr
  | Eq | Ne | Lt | Le | Gt | Ge | And | Or | Range | RangeEq
  | Assign | AssignAdd | AssignSub | AssignMul | AssignDiv | AssignRem
  | AssignBitAnd | AssignBitOr | AssignBitXor | AssignShl | AssignShr.

Inductive UnOp : Set := Neg | Not | Deref.

Record HirArg : Set := mkArg { arg_name : option string; arg_value : ExprId }.

Record HirParam : Set := mkParam {
  param_name : string; param_ty : option TypeId; param_span : SourceSpan;
  param_attrs : list string; param_is_mut : bool }.

Record HirMatchArm : Set := mkArm { arm_pat : PatId; arm_guard : option ExprId; arm_body : ExprId }.

Inductive HirExpr : Set :=
  | ELiteral (l : HirLiteral)
  | EPath (segs : list string)
  | ECall (callee : ExprId) (args : list HirArg)
  | EMethodCall (receiver : ExprId) (method : string) (args : list HirArg)
  | EField (receiver : ExprId) (name : string)
  | EIndex (receiver idx : ExprId)
  | EBinary (op : BinOp) (lhs rhs : ExprId)
  | EUnary (op : UnOp) (rhs : ExprId)
  | EIf (cond : ExprId) (then_ : BlockId) (else_ : option ExprId)
  | EMatch (scrutinee : ExprId) (arms : list HirMatchArm)
  | EFor (pat : PatId) (iter : ExprId) (body : BlockId)
  | EWhile (cond : ExprId) (body : BlockId)
  | ELoop (body : BlockId)
  | EReturn (e : option ExprId)
  | EBreak (e : option ExprId)
  | EContinue
  | EBlock (b : BlockId)
  | ETuple (xs : list ExprId)
  | EArray (xs : list ExprId)
  | EStruct (path : list string) (fields : list (string * ExprId))
  | EMap (entries : list (ExprId * ExprId))
  | ESend (target : ExprId) (msg : string) (args : list HirArg)
  | EAsk (target : ExprId) (msg : string) (args : list HirArg)
  | EDeadline (inner dur : ExprId)
  | EQuestion (e : ExprId)
  | EMove (e : ExprId)
  | EBorrow (mutable : bool) (inner : ExprId)
  | ESpawn (is_task : bool) (inner : ExprId)
  | EDetach (e : ExprId)
  | EJoin (e : ExprId)
  | EHtmlTemplate (s : string)
  | EUnsafe (b : BlockId)
  | EArena (name : string) (body : ExprId)
  | ETaskScope (deadline : option ExprId) (body : BlockId)
  | EBudget (entries : list (string * ExprId)) (body : ExprId)
  | ESandbox (name : string) (entries : list (list string * ExprId)) (body : BlockId)
  | ECast (lhs : ExprId) (ty : TypeId)
  | ELambda (params : list HirParam) (ret : option TypeId) (body : BlockId)
  | EIfLet (pat : PatId) (scrutinee : ExprId) (then_ : BlockId) (else_ : option ExprId)
  | EWhileLet (pat : PatId) (scrutinee : ExprId) (body : BlockId)
  | ERun (e : ExprId)
  | EPathGeneric (segments : list string) (generics : list TypeId)
  | EError.

Inductive HirStmt : Set :=
  | SLet (pat : PatId) (ty : option TypeId) (init : option ExprId) (mutable : bool)
  | SExpr (e : ExprId).

Record HirBlock : Set := mkBlock { stmts : list HirStmt; tail : option ExprId }.

Record HirLocal : Set := mkLocal { hl_name : string; hl_mutable : bool; hl_span : SourceSpan }.

(** ** Items *)

Record HirToolAttr : Set := mkToolAttr {
  ta_description : string; ta_capability : option string; ta_extra : list (string * string);
  ta_span : SourceSpan }.

Record HirFn : Set := mkFn {
  fn_name : string; fn_is_pub : bool; fn_is_unsafe : bool; fn_generics : list string;
  fn_params : list HirParam; fn_ret : option TypeId; fn_effects : list string;
  fn_effect_row : option HirEffectRow; fn_body : option BlockId; fn_tool_attr : option HirToolAttr;
  fn_is_variadic : bool; fn_span : SourceSpan }.

Record HirStructField : Set := mkStructField { sf_name : string; sf_ty : TypeId; sf_span : SourceSpan }.

Record HirStruct : Set := mkStruct {
  st_name : string; st_is_pub : bool; st_generics : list string; st_fields : list HirStructField;
  st_derives : list string; st_span : SourceSpan }.

Record HirEnumVariant : Set := mkEnumVariant { ev_name : string; ev_payload : list TypeId; ev_span : SourceSpan }.

Record HirEnum : Set := mkEnum {
  en_name : string; en_is_pub : bool; en_generics : list string; en_variants : list HirEnumVariant;
  en_derives : list string; en_span : SourceSpan }.

Record HirTypeAlias : Set := mkTypeAlias {
  al_name : string; al_is_pub : bool; al_generics : list string; al_ty : TypeId; al_span : SourceSpan }.

Record HirAgentState : Set := mkAgentState {
  as_name : string; as_ty : option TypeId; as_init : option ExprId; as_span : SourceSpan }.

Record HirOnHandler : Set := mkHandler {
  oh_message : string; oh_params : list string; oh_body : BlockId; oh_span : SourceSpan }.

Record HirAgent : Set := mkAgent {
  ag_name : string; ag_ctor_params : list string; ag_protocols : list TypeId;
  ag_state : list HirAgentState; ag_handlers : list HirOnHandler; ag_methods : list FnId;
  ag_span : SourceSpan }.

Record HirProtocolMsg : Set := mkProtocolMsg {
  pm_name : string; pm_params : list HirParam; pm_reply : option TypeId; pm_span : SourceSpan }.

Record HirProtocol : Set := mkProtocol {
  pr_name : string; pr_is_pub : bool; pr_version : option Z; pr_composition : option (list TypeId);
  pr_messages : list HirProtocolMsg; pr_span : SourceSpan }.

Inductive HirSupAction : Set :=
  | SupRestart (up_to : option Z) (in_dur : option ExprId)
  | SupBackoff (lo hi : ExprId).

Record HirSupervisor : Set := mkSupervisor {
  su_name : string; su_strategy : string; su_children : list (string * ExprId);
  su_on_fail : list (string * list HirSupAction); su_span : SourceSpan }.

Record HirUse : Set := mkUseDecl {
  us_path : list string; us_alias : option string; us_leaves : list (string * option string);
  us_span : SourceSpan }.

Record HirMod : Set := mkMod { md_path : list string; md_span : SourceSpan }.

Record HirExternBlock : Set := mkExternBlock { xb_abi : option string; xb_fns : list FnId; xb_span : SourceSpan }.

Record HirMacro : Set := mkMacro {
  mc_name : string; mc_params : list string; mc_body_tokens : string; mc_span : SourceSpan }.

Record HirImpl : Set := mkImpl {
  im_trait_for : option TypeId; im_self_ty : TypeId; im_methods : list FnId; im_span : SourceSpan }.

Record HirTrait : Set := mkTrait {
  tr_name : string; tr_is_pub : bool; tr_generics : list string; tr_methods : list FnId;
  tr_span : SourceSpan }.

Record HirConst : Set := mkConst {
  co_name : string; co_is_pub : bool; co_ty : TypeId; co_value : ExprId; co_span : SourceSpan }.

Record HirTopSandbox : Set := mkTopSandbox {
  sb_name : string; sb_entries : list (list string * ExprId); sb_body : BlockId; sb_span : SourceSpan }.

(** [ItExport] carries the fields of [HirExportDecl], which boxes an item. *)
Inductive Item : Set :=
  | ItFn (id : FnId)
  | ItStruct (id : nat)
  | ItEnum (id : nat)
  | ItTypeAlias (id : nat)
  | ItAgent (id : AgentId)
  | ItProtocol (id : nat)
  | ItSupervisor (id : SupervisorId)
  | ItUse (u : HirUse)
  | ItMod (m : HirMod)
  | ItExternBlock (b : HirExternBlock)
  | ItExport (abi : option string) (item : Item) (span : SourceSpan)
  | ItMacro (m : HirMacro)
  | ItImpl (i : HirImpl)
  | ItTrait (t : HirTrait)
  | ItConst (c : HirConst)
  | ItSandbox (s : HirTopSandbox).

Record Package := mkPackage {
  items : list Item; fns : list HirFn; structs : list HirStruct; enums : list HirEnum;
  type_aliases : list HirTypeAlias; agents : list HirAgent; protocols : list HirProtocol;
  supervisors : list HirSupervisor; exprs : list HirExpr; pats : list HirPat; types : list HirType;
  blocks : list HirBlock; locals : list HirLocal; top_level : list ItemId;
  expr_spans : gmap ExprId SourceSpan }.

(** ** The typed side tables *)

Inductive AdtKind : Set := Struct | Enum | Opaque.

Record FieldDef : Set := mkFieldDef { fd_name : option string; fd_ty : TyId }.
Record VariantDef : Set := mkVariantDef { vd_name : string; vd_fields : list FieldDef }.
Record ParamDef : Set := mkParamDef { pd_name : string; pd_bounds : list TyId }.

Record AdtDef : Set := mkAdtDef {
  adt_name : string; adt_kind : AdtKind; adt_generics : list ParamDef; adt_param_ids : list ParamId;
  adt_variants : list VariantDef }.

(** The tables of [DefMap] that the borrow checker consults. *)
Record DefMap := mkDefMap { adts : list AdtDef; user_copy : gset AdtId }.

Definition adt (d : DefMap) (id : AdtId) : option AdtDef := adts d !! id.

(** The side tables of [TypedPackage] that the borrow checker consults. *)
Record TypedPackage := mkTyped {
  def_map : DefMap; ty_arena : TyArena; expr_ty : gmap ExprId TyId;
  fn_param_tys : gmap FnId (list (string * TyId)) }.
