(* ===== verification/BorrowState.v ===== *)
(** * Places, ownership states, the borrow ledger and the type predicates

    The data of [crates/mty-borrow/src/]: [place.rs], [state.rs], [copy.rs],
    [sendable.rs], [diag.rs], [arena_region.rs] and [drop_plan.rs].  Counters
    are [u32]; an addition that overflows panics.  The lemmas on places,
    ledgers and the type predicates follow. *)

From stdpp Require Import base list strings numbers gmap sets relations.
From S2P Require Import Prelude TyArena Infer Hir.

Local Open Scope string_scope.
Local Open Scope list_scope.
Notation length := List.length (only parsing).

(** ** Places *)

Inductive Proj : Set := PrField (name : string) | PrIndex | PrDeref.

#[export] Instance Proj_eq_dec : EqDecision Proj.
Proof. solve_decision. Defined.

Record Place : Set := mkPlace { root : string; projs : list Proj }.

#[export] Instance Place_eq_dec : EqDecision Place.
Proof. solve_decision. Defined.

(** [Place::root] *)
Definition root_place (name : string) : Place := mkPlace name [].

Definition with_field (p : Place) (name : string) : Place := mkPlace (root p) (projs p ++ [PrField name]).
Definition with_deref (p : Place) : Place := mkPlace (root p) (projs p ++ [PrDeref]).
Definition with_index (p : Place) : Place := mkPlace (root p) (projs p ++ [PrIndex]).

Definition is_prefix_of (self other : Place) : bool :=
  if decide (root self ≠ root other) then false
  else if decide (length (projs other) < length (projs self))%nat then false
  else forallb (λ ab, bool_decide (ab.1 = ab.2)) (zip (projs self) (projs other)).

Definition overlaps (self other : Place) : bool := is_prefix_of self other || is_prefix_of other self.

Definition truncate_for_v0_3 (p : Place) : Place := mkPlace (root p) (take 1 (projs p)).

Definition proj_display (p : Proj) : string :=
  match p with PrField n => "." +:+ n | PrIndex => "[_]" | PrDeref => ".*" end.

(** [fmt::Display for Place] *)
Definition place_display (p : Place) : string := foldl (λ s q, s +:+ proj_display q) (root p) (projs p).

(** ** Ownership states and the ledger *)

Inductive Ownership : Set :=
  | Owned
  | Moved (at_ : SourceSpan)
  | Borrowed (count : Z)
  | BorrowedMut
  | Uninit.

Notation ArenaRegionId := Z (only parsing).

Record LocalState : Set := mkLocalState {
  ls_name : string; ls_ty : TyId; ls_state : Ownership; declared_at : SourceSpan; ls_mutable : bool;
  ls_is_copy : bool; arena_region : option ArenaRegionId }.

Definition set_state (o : Ownership) (l : LocalState) : LocalState :=
  mkLocalState (ls_name l) (ls_ty l) o (declared_at l) (ls_mutable l) (ls_is_copy l) (arena_region l).

Record ScopeFrame : Set := mkFrame { frame_locals : list string; frame_region : option ArenaRegionId }.

Inductive BorrowKind : Set := Shared | Mut.

#[export] Instance BorrowKind_eq_dec : EqDecision BorrowKind.
Proof. solve_decision. Defined.

Record BorrowRecord : Set := mkRecord {
  rec_place : Place; rec_kind : BorrowKind; borrower : option string; rec_at : SourceSpan }.

#[export] Instance SourceSpan_eq_dec : EqDecision SourceSpan.
Proof. solve_decision. Defined.
#[export] Instance BorrowRecord_eq_dec : EqDecision BorrowRecord.
Proof. solve_decision. Defined.

(** [BorrowLedger]: its records, in order. *)
Definition BorrowLedger := list BorrowRecord.

Definition borrowed_by (names : list string) (r : BorrowRecord) : bool :=
  match borrower r with Some b => bool_decide (b ∈ names) | None => false end.

(** The records removed, and the ledger left. *)
Definition decay_borrowers (names : list string) (l : BorrowLedger) : list BorrowRecord * BorrowLedger :=
  (List.filter (borrowed_by names) l, List.filter (λ r, negb (borrowed_by names r)) l).

Definition decay_borrower (name : string) (l : BorrowLedger) : list BorrowRecord * BorrowLedger :=
  let drop r := bool_decide (borrower r = Some name) in
  (List.filter drop l, List.filter (λ r, negb (drop r)) l).

Definition conflicts_with (l : BorrowLedger) (p : Place) : list BorrowRecord :=
  List.filter (λ r, overlaps (rec_place r) p) l.

Definition join_local (va vb : LocalState) : LocalState :=
  match ls_state va, ls_state vb with
  | _, Moved at_ => set_state (Moved at_) va
  | Moved at_, _ => set_state (Moved at_) va
  | Uninit, _ | _, Uninit => set_state Uninit va
  | BorrowedMut, _ | _, BorrowedMut => set_state BorrowedMut va
  | Borrowed c1, Borrowed c2 => set_state (Borrowed (Z.max c1 c2)) va
  | _, _ => va
  end.

Definition join_states (a b : gmap string LocalState) : gmap string LocalState :=
  union_with (λ va vb, Some (join_local va vb)) a b.

Definition same_borrow (x r : BorrowRecord) : bool :=
  bool_decide (rec_place x = rec_place r) && bool_decide (rec_kind x = rec_kind r) &&
  bool_decide (borrower x = borrower r).

(** [join_ledgers] of [flow.rs] *)
Definition join_ledgers (a b : BorrowLedger) : BorrowLedger :=
  foldl (λ out r, if existsb (λ x, same_borrow x r) out then out else out ++ [r]) [] (a ++ b).

(** [ArenaCounter::fresh]: the id, and the counter after it. *)
Definition fresh (next : Z) : option (ArenaRegionId * Z) :=
  if bool_decide (next + 1 < 2 ^ 32)%Z then Some (next, next + 1)%Z else None.

Record DropEntry : Set := mkDropEntry { de_local_name : string; de_span : SourceSpan }.

(** ** The [Copy] and [Sendable] predicates *)

(** [xs.iter().all(..)] where the test may fail to return. *)
Fixpoint all_opt {A} (f : A → option bool) (xs : list A) : option bool :=
  match xs with
  | [] => Some true
  | x :: xs => match f x with Some true => all_opt f xs | r => r end
  end.

Section Predicates.
Context (A : TyArena) (d : DefMap).

Fixpoint copy_within (fuel : nat) (ty : TyId) : option bool :=
  match fuel with
  | O => None
  | S n =>
      t ← get A ty;
      match t with
      | TBool | TChar | TStr | TUnit | TNever | TDuration | TSize | TError | TModule _ => Some true
      | TInt _ | TFloat _ => Some true
      | TString | TBytes => Some false
      | TRawPtr _ => Some true
      | TRef mutable _ => Some (negb mutable)
      | TFn _ _ _ => Some true
      | TTuple xs => all_opt (copy_within n) xs
      | TArray elem _ => copy_within n elem
      | TAdt id _ =>
          if bool_decide (id ∈ user_copy d) then Some true
          else match adt_kind <$> adt d id with
               | Some Opaque => Some true
               | Some Struct | Some Enum => Some false
               | None => Some true
               end
      | TVar _ | TParam _ => Some false
      | TCap _ _ => Some false
      | TDyn _ => Some false
      end
  end.

(** A type's components have smaller ids, so this fuel is enough. *)
Definition is_copy (ty : TyId) : option bool := copy_within (S ty) ty.

(** Ends with the answer for types that are neither references, functions,
    pointers, tuples nor arrays. *)
Definition sendable_named (rec : TyId → option bool) (ty : TyId) (t : TyData) : option bool :=
  c ← is_copy ty;
  if c : bool then Some true
  else match t with
       | TAdt id _ =>
           match adt d id with
           | Some a =>
               match adt_kind a with
               | Opaque => Some true
               | Struct | Enum =>
                   all_opt (λ v, all_opt (λ f, rec (fd_ty f)) (vd_fields v)) (adt_variants a)
               end
           | None => Some true
           end
       | _ => Some true
       end.

Fixpoint is_sendable_inner (fuel : nat) (visiting : list TyId) (ty : TyId) : option bool :=
  match fuel with
  | O => None
  | S n =>
      if bool_decide (ty ∈ visiting) then Some true
      else
        t ← get A ty;
        match t with
        | TRef _ _ | TRawPtr _ | TFn _ _ _ => Some false
        | TTuple xs => all_opt (is_sendable_inner n (ty :: visiting)) xs
        | TArray elem _ => is_sendable_inner n visiting elem
        | _ => sendable_named (is_sendable_inner n (ty :: visiting)) ty t
        end
  end.

(** Every chain of calls visits each type once, with at most the arena's size
    of array types in between. *)
Definition is_sendable (ty : TyId) : option bool :=
  let n := S (length (storage A)) in is_sendable_inner (n * n) [] ty.

End Predicates.

(** ** Diagnostics *)

Inductive Severity : Set := SevError | SevWarning | SevNote | SevHelp.

Record Label : Set := mkLabel { lab_start : Z; lab_end : Z; lab_message : string }.

Record Diagnostic : Set := mkDiagnostic {
  d_code : Z; severity : Severity; primary : Label; secondary : list Label; notes : list string;
  helps : list string }.

(** [Diagnostic::error] *)
Definition error (code : Z) (l : Label) : Diagnostic := mkDiagnostic code SevError l [] [] [].

Definition with_secondary (d : Diagnostic) (l : Label) : Diagnostic :=
  mkDiagnostic (d_code d) (severity d) (primary d) (secondary d ++ [l]) (notes d) (helps d).

Definition USE_AFTER_MOVE : Z := 3001.
Definition MOVE_OUT_OF_BORROW : Z := 3002.
Definition BORROW_AFTER_MOVE : Z := 3003.
Definition MUT_BORROW_WHILE_SHARED : Z := 3004.
Definition SHARED_BORROW_WHILE_MUT : Z := 3005.
Definition TWO_MUT_BORROWS : Z := 3006.
Definition BORROW_OUTLIVES_OWNER : Z := 3007.
Definition CANNOT_MOVE_BORROWED : Z := 3008.
Definition MOVE_OUT_OF_REF : Z := 3009.
Definition ARENA_ESCAPE : Z := 3010.
Definition NON_SENDABLE_MESSAGE_ARG : Z := 3011.
Definition MUT_BORROW_OF_IMMUT_LOCAL : Z := 3013.
Definition ASSIGN_TO_IMMUT_LOCAL : Z := 3014.
Definition USE_OF_UNINITIALIZED : Z := 3015.

Definition label (s : SourceSpan) (msg : string) : Label := mkLabel (sp_start s) (sp_end s) msg.

(** [format!("..`{}`..", name)] *)
Definition quoted (before name after : string) : string := before +:+ "`" +:+ name +:+ "`" +:+ after.

Definition use_after_move (name : string) (span moved_at : SourceSpan) : Diagnostic :=
  with_secondary (error USE_AFTER_MOVE (label span (quoted "use of moved value " name "")))
    (label moved_at "value moved here").

Definition move_out_of_borrow (name : string) (span : SourceSpan) : Diagnostic :=
  error MOVE_OUT_OF_BORROW (label span (quoted "cannot move out of " name " because it is borrowed")).

Definition borrow_after_move (name : string) (span moved_at : SourceSpan) : Diagnostic :=
  with_secondary (error BORROW_AFTER_MOVE (label span (quoted "cannot borrow " name " after it was moved")))
    (label moved_at "value moved here").

Definition mut_borrow_while_shared (name : string) (span : SourceSpan) : Diagnostic :=
  error MUT_BORROW_WHILE_SHARED
    (label span (quoted "cannot borrow " name " as mutable while shared borrows exist")).

Definition shared_borrow_while_mut (name : string) (span : SourceSpan) : Diagnostic :=
  error SHARED_BORROW_WHILE_MUT
    (label span (quoted "cannot borrow " name " as shared while a mutable borrow is live")).

Definition two_mut_borrows (name : string) (span : SourceSpan) : Diagnostic :=
  error TWO_MUT_BORROWS (label span (quoted "" name " is already mutably borrowed")).

Definition borrow_outlives_owner (name : string) (span : SourceSpan) : Diagnostic :=
  error BORROW_OUTLIVES_OWNER (label span (quoted "borrow of " name " outlives its owner")).

Definition cannot_move_borrowed (name : string) (span : SourceSpan) : Diagnostic :=
  error CANNOT_MOVE_BORROWED (label span (quoted "cannot move " name " while it is borrowed")).

Definition move_out_of_ref (span : SourceSpan) : Diagnostic :=
  error MOVE_OUT_OF_REF (label span "cannot move out of a reference").

Definition move_out_of_ref_named (name : string) (span : SourceSpan) : Diagnostic :=
  error MOVE_OUT_OF_REF
    (label span (quoted "cannot move out of " ("*" +:+ name)
       ": dereferencing a reference does not transfer ownership")).

Definition mut_borrow_while_shared_place (place : string) (span : SourceSpan) : Diagnostic :=
  error MUT_BORROW_WHILE_SHARED
    (label span (quoted "cannot borrow " place
       " as mutable while shared borrows of an overlapping place exist")).

Definition shared_borrow_while_mut_place (place : string) (span : SourceSpan) : Diagnostic :=
  error SHARED_BORROW_WHILE_MUT
    (label span (quoted "cannot borrow " place
       " as shared while a mutable borrow of an overlapping place is live")).

Definition two_mut_borrows_place (place : string) (span : SourceSpan) : Diagnostic :=
  error TWO_MUT_BORROWS
    (label span (quoted "" place " (or an overlapping place) is already mutably borrowed")).

Definition arena_escape (name : string) (span : SourceSpan) : Diagnostic :=
  error ARENA_ESCAPE
    (label span (quoted "value " name
       " allocated in the arena cannot escape it; promote with `move` first")).

Definition non_sendable_message_arg (name : string) (span : SourceSpan) : Diagnostic :=
  error NON_SENDABLE_MESSAGE_ARG
    (label span (quoted "argument " name " to a cross-agent message is not Sendable")).

Definition mut_borrow_of_immut_local (name : string) (span : SourceSpan) : Diagnostic :=
  error MUT_BORROW_OF_IMMUT_LOCAL
    (label span (quoted "cannot mutably borrow immutable local " name " (add `mut` to its binding)")).

Definition assign_to_immut_local (name : string) (span : SourceSpan) : Diagnostic :=
  error ASSIGN_TO_IMMUT_LOCAL (label span (quoted "cannot assign to immutable local " name "")).

Definition use_of_uninitialized (name : string) (span : SourceSpan) : Diagnostic :=
  error USE_OF_UNINITIALIZED (label span (quoted "use of possibly uninitialized binding " name "")).

(** ** Lemmas on places, ledgers and the type predicates

    When places overlap, what a join of ledgers holds and how much a ledger
    can grow, what a join of states holds, and that the type predicates
    answer. *)

Local Close Scope string_scope.

(** ** Places *)

Lemma zip_all_prefix {A} `{EqDecision A} (xs ys : list A) :
  length xs ≤ length ys →
  forallb (λ ab, bool_decide (ab.1 = ab.2)) (zip xs ys) = true ↔ xs `prefix_of` ys.
Proof.
  revert ys. induction xs as [|x xs IH]; intros [|y ys] Hl; simpl in *; try lia.
  - split; [intros _; apply prefix_nil|done].
  - split; [intros _; apply prefix_nil|done].
  - rewrite andb_true_iff, bool_decide_eq_true, IH by lia. split.
    + intros [-> H]. by apply prefix_cons.
    + intros H. split; [by eapply prefix_cons_inv_1|by eapply prefix_cons_inv_2].
Qed.

Lemma is_prefix_of_spec p q :
  is_prefix_of p q = true ↔ root p = root q ∧ projs p `prefix_of` projs q.
Proof.
  unfold is_prefix_of. destruct (decide (root p ≠ root q)) as [Hn|He%dec_stable]; [naive_solver|].
  destruct (decide (length (projs q) < length (projs p))) as [Hl|Hl].
  - split; [done|]. intros [_ H%prefix_length]. lia.
  - rewrite zip_all_prefix by lia. naive_solver.
Qed.

(** Two places overlap when one contains the other. *)
Lemma overlaps_spec p q :
  overlaps p q = true ↔ root p = root q ∧ (projs p `prefix_of` projs q ∨ projs q `prefix_of` projs p).
Proof. unfold overlaps. rewrite orb_true_iff, !is_prefix_of_spec. naive_solver. Qed.

Lemma overlaps_sym p q : overlaps p q = overlaps q p.
Proof. unfold overlaps. apply orb_comm. Qed.

Lemma prefix_take {A} n (xs ys : list A) : xs `prefix_of` ys → take n xs `prefix_of` take n ys.
Proof.
  intros [zs ->]. destruct (decide (length xs ≤ n)) as [Hle|Hgt].
  - rewrite take_ge by done. rewrite take_app_ge by done. by apply prefix_app_r.
  - by rewrite take_app_le by lia.
Qed.

(** ** Ledgers *)

Lemma same_borrow_spec x r :
  same_borrow x r = true ↔ rec_place x = rec_place r ∧ rec_kind x = rec_kind r ∧ borrower x = borrower r.
Proof. unfold same_borrow. rewrite !andb_true_iff, !bool_decide_eq_true. tauto. Qed.

Lemma same_borrow_refl x : same_borrow x x = true.
Proof. by apply same_borrow_spec. Qed.

(** The step of [join_ledgers]. *)
Definition join_one (out : BorrowLedger) (r : BorrowRecord) : BorrowLedger :=
  if existsb (λ x, same_borrow x r) out then out else out ++ [r].

Lemma join_one_keeps out y r : r ∈ out → r ∈ join_one out y.
Proof. intros Hr. unfold join_one. case_match; [done|]. apply elem_of_app. by left. Qed.

Lemma join_one_covers out y : ∃ x, x ∈ join_one out y ∧ same_borrow x y = true.
Proof.
  unfold join_one. destruct (existsb (λ x, same_borrow x y) out) eqn:E.
  - apply existsb_exists in E as (x & Hx & Hs). exists x. split; [by apply list_elem_of_In|done].
  - exists y. split; [apply elem_of_app; right; apply list_elem_of_here|apply same_borrow_refl].
Qed.

Lemma join_fold_keeps xs out r : r ∈ out → r ∈ foldl join_one out xs.
Proof. revert out. induction xs as [|y xs IH]; intros out Hr; [done|]. by apply IH, join_one_keeps. Qed.

Lemma join_fold_elem xs out r : r ∈ foldl join_one out xs → r ∈ out ∨ r ∈ xs.
Proof.
  revert out. induction xs as [|y xs IH]; intros out H; [by left|].
  destruct (IH _ H) as [Ho|Hx]; [|right; by constructor].
  unfold join_one in Ho. case_match; [by left|].
  apply elem_of_app in Ho as [Ho| ->%list_elem_of_singleton]; [by left|right; constructor].
Qed.

Lemma join_fold_covers xs out r :
  r ∈ xs → ∃ x, x ∈ foldl join_one out xs ∧ same_borrow x r = true.
Proof.
  revert out. induction xs as [|y xs IH]; intros out H; [by destruct (not_elem_of_nil _ H)|].
  apply elem_of_cons in H as [->|H]; [|by apply IH].
  destruct (join_one_covers out y) as (x & Hx & Hs). exists x. split; [simpl; by apply join_fold_keeps|done].
Qed.

Lemma join_ledgers_elem a b r : r ∈ join_ledgers a b → r ∈ a ∨ r ∈ b.
Proof.
  intros [Hn|Hab]%(join_fold_elem (a ++ b) [] r); [by destruct (not_elem_of_nil _ Hn)|by apply elem_of_app].
Qed.

(** Every borrow of either side is in the join. *)
Lemma join_ledgers_covers a b r :
  r ∈ a ∨ r ∈ b → ∃ x, x ∈ join_ledgers a b ∧ same_borrow x r = true.
Proof. intros H. apply join_fold_covers. by apply elem_of_app. Qed.

Lemma join_fold_nodup xs out : NoDup out → NoDup (foldl join_one out xs).
Proof.
  revert out. induction xs as [|y xs IH]; intros out Hout; [done|]. simpl. apply IH.
  unfold join_one. destruct (existsb (λ x, same_borrow x y) out) eqn:E; [done|].
  apply NoDup_app. split_and!; [done| |apply NoDup_singleton].
  intros x Hx Hy%list_elem_of_singleton. subst x.
  apply not_true_iff_false in E. apply E, existsb_exists. exists y.
  split; [by apply list_elem_of_In|apply same_borrow_refl].
Qed.

Lemma join_ledgers_nodup a b : NoDup (join_ledgers a b).
Proof. apply join_fold_nodup. constructor. Qed.

(** [grew k l l']: [l'] has records of [l] and at most [k] others. *)
Definition grew (k : Z) (l l' : BorrowLedger) : Prop :=
  ∃ new, l' ⊆+ l ++ new ∧ (Z.of_nat (length new) ≤ k)%Z.

Lemma grew_refl l : grew 0 l l.
Proof. exists []. by rewrite app_nil_r. Qed.

Lemma grew_mono j k l l' : (j ≤ k)%Z → grew j l l' → grew k l l'.
Proof. intros Hle (new & Hs & Hn). exists new. split; [done|lia]. Qed.

Lemma grew_trans j k l1 l2 l3 : grew j l1 l2 → grew k l2 l3 → grew (j + k) l1 l3.
Proof.
  intros (n1 & H1 & L1) (n2 & H2 & L2). exists (n1 ++ n2). split.
  - rewrite (assoc (++)). etrans; [exact H2|]. by apply submseteq_skips_r.
  - rewrite length_app. lia.
Qed.

Lemma grew_filter (f : BorrowRecord → bool) l : grew 0 l (List.filter f l).
Proof.
  exists []. rewrite app_nil_r. split; [|done]. apply sublist_submseteq.
  induction l as [|r l IH]; [constructor|]. simpl. destruct (f r); by constructor.
Qed.

Lemma grew_snoc l r : grew 1 l (l ++ [r]).
Proof. exists [r]. done. Qed.

Lemma grew_length k l l' : grew k l l' → (Z.of_nat (length l') ≤ Z.of_nat (length l) + k)%Z.
Proof. intros (new & Hs & Hn). apply submseteq_length in Hs. rewrite length_app in Hs. lia. Qed.

(** What is drawn from a ledger and additions to it, without repetition, has
    grown by the additions. *)
Lemma grew_nodup l new l' :
  NoDup l' → (∀ r, r ∈ l' → r ∈ l ∨ r ∈ new) → grew (Z.of_nat (length new)) l l'.
Proof.
  intros Hnd Hsub. exists new. split; [|lia].
  apply NoDup_submseteq; [done|]. intros r Hr. apply elem_of_app. by apply Hsub.
Qed.

Lemma grew_elem k l l' : grew k l l' → ∃ new, (∀ r, r ∈ l' → r ∈ l ∨ r ∈ new) ∧ (Z.of_nat (length new) ≤ k)%Z.
Proof.
  intros (new & Hs & Hn). exists new. split; [|done]. intros r Hr.
  apply elem_of_app. by eapply elem_of_submseteq.
Qed.

Lemma grew_join j k l a b : grew j l a → grew k l b → grew (j + k) l (join_ledgers a b).
Proof.
  intros (n1 & H1 & L1)%grew_elem (n2 & H2 & L2)%grew_elem.
  apply (grew_mono (Z.of_nat (length (n1 ++ n2)))); [rewrite length_app; lia|].
  apply grew_nodup; [apply join_ledgers_nodup|].
  intros r Hr%join_ledgers_elem. rewrite elem_of_app. naive_solver.
Qed.

(** ** Joined states *)

Lemma join_states_lookup a b x :
  join_states a b !! x =
  match a !! x, b !! x with
  | Some va, Some vb => Some (join_local va vb)
  | Some va, None => Some va
  | None, o => o
  end.
Proof. unfold join_states. rewrite lookup_union_with. by destruct (a !! x), (b !! x). Qed.

Lemma join_local_fields va vb :
  ls_name (join_local va vb) = ls_name va ∧ ls_ty (join_local va vb) = ls_ty va ∧
  ls_mutable (join_local va vb) = ls_mutable va ∧ ls_is_copy (join_local va vb) = ls_is_copy va.
Proof. unfold join_local. by destruct (ls_state va), (ls_state vb). Qed.

(** ** The type predicates answer *)

Lemma all_opt_some {A} (f : A → option bool) xs :
  (∀ x, x ∈ xs → is_Some (f x)) → is_Some (all_opt f xs).
Proof.
  induction xs as [|x xs IH]; intros H; [by eexists|]. simpl.
  destruct (H x) as [b ->]; [constructor|]. destruct b; [|by eexists].
  apply IH. intros y Hy. apply H. by constructor.
Qed.

Lemma all_opt_true {A} (f : A → option bool) xs :
  all_opt f xs = Some true ↔ ∀ x, x ∈ xs → f x = Some true.
Proof.
  induction xs as [|x xs IH]; simpl.
  { split; [|done]. intros _ x H. by destruct (not_elem_of_nil _ H). }
  split.
  - intros H y [->|Hy]%elem_of_cons; destruct (f x) as [[]|] eqn:E; try done. by apply IH.
  - intros H. rewrite (H x) by constructor. apply IH. intros y Hy. apply H. by constructor.
Qed.

(** The components a type is built from, as far as [is_copy] looks. *)
Lemma copy_within_total A d (HA : arena_ok A) n ty :
  ty < n → is_Some (get A ty) → is_Some (copy_within A d n ty).
Proof.
  revert ty. induction n as [|n IH]; intros ty Hlt [t Ht]; [lia|]. simpl. rewrite Ht. simpl.
  assert (∀ c, c ∈ children t → is_Some (copy_within A d n c)) as Hc.
  { intros c Hc. pose proof (ao_children A HA ty t c Ht Hc). apply IH; [lia|by eapply child_some]. }
  destruct t; try by eexists.
  - by apply all_opt_some.
  - apply Hc. by constructor.
  - case_bool_decide; [by eexists|]. destruct (adt_kind <$> adt d d0) as [[]|]; by eexists.
Qed.

Lemma is_copy_total A d ty : arena_ok A → is_Some (get A ty) → is_Some (is_copy A d ty).
Proof. intros HA Ht. apply copy_within_total; [done|lia|done]. Qed.

(** ** What [is_sendable] decides

    [is_sendable] is a depth-first search for a reference, a function or a raw
    pointer among the components of a type.  It cuts cycles by the types on
    its stack; the search still finds exactly what can be reached. *)

Section Sendable.
Context (A : TyArena) (d : DefMap) (HA : arena_ok A).

(** The types of the fields of an ADT. *)
Definition field_types (a : AdtDef) : list TyId := concat (map (λ v, map fd_ty (vd_fields v)) (adt_variants a)).

(** What [is_sendable] looks into. *)
Definition components (ty : TyId) : list TyId :=
  match get A ty with
  | Some (TTuple xs) => xs
  | Some (TArray elem _) => [elem]
  | Some (TAdt id _) =>
      match is_copy A d ty, adt d id with
      | Some false, Some a => match adt_kind a with Opaque => [] | Struct | Enum => field_types a end
      | _, _ => []
      end
  | _ => []
  end.

(** References, functions and raw pointers never cross to another agent. *)
Definition never_sendable (ty : TyId) : Prop :=
  match get A ty with Some (TRef _ _ | TRawPtr _ | TFn _ _ _) => True | _ => False end.

Definition component_of (x y : TyId) : Prop := y ∈ components x.

Definition fields_typed : Prop := Forall (λ a, Forall (λ ty, is_Some (get A ty)) (field_types a)) (adts d).

(** A path of components to a type that is never sendable, outside [V]. *)
Inductive bad_path (V : list TyId) : TyId → Prop :=
  | bp_here x : x ∉ V → never_sendable x → bad_path V x
  | bp_next x y : x ∉ V → component_of x y → bad_path V y → bad_path V x.

Lemma bad_path_weaken V x y : bad_path (x :: V) y → bad_path V y.
Proof.
  induction 1 as [y Hy Hn|y z Hy Hc Hp IH]; apply not_elem_of_cons in Hy as [_ Hy];
    [by constructor|by econstructor].
Qed.

(** A path need not come back to where it started. *)
Lemma bad_path_cut V x z :
  bad_path V z →
  bad_path (x :: V) z ∨ never_sendable x ∨ ∃ y, component_of x y ∧ bad_path (x :: V) y.
Proof.
  induction 1 as [z Hz Hn|z y Hz Hc Hp IH]; destruct (decide (z = x)) as [->|Hne]; eauto.
  - left. constructor; [by apply not_elem_of_cons|done].
  - destruct IH; eauto.
  - destruct IH as [IH|]; [|by right]. left. econstructor; [by apply not_elem_of_cons|done|done].
Qed.

Lemma bad_path_inv V x :
  x ∉ V → bad_path V x ↔ never_sendable x ∨ ∃ y, component_of x y ∧ bad_path (x :: V) y.
Proof.
  intros Hx. split.
  - intros [H|H]%(bad_path_cut V x); [|done]. inversion H; subst; set_solver.
  - intros [H|(y & Hc & Hp%bad_path_weaken)]; [by constructor|by econstructor].
Qed.

Lemma all_opt_false {B} (f : B → option bool) xs :
  all_opt f xs = Some false → ∃ x, x ∈ xs ∧ f x = Some false.
Proof.
  induction xs as [|x xs IH]; [done|]. simpl. destruct (f x) as [[]|] eqn:E; [|intros _|done].
  - intros (y & Hy & Hf)%IH. exists y. split; [by constructor|done].
  - exists x. split; [constructor|done].
Qed.

Lemma all_opt_concat {B C} (f : C → option bool) (g : B → list C) xs :
  all_opt (λ x, all_opt f (g x)) xs = all_opt f (concat (map g xs)).
Proof.
  induction xs as [|x xs IH]; [done|]. simpl. rewrite IH. clear IH.
  induction (g x) as [|y ys IH]; [done|]. simpl.
  by destruct (f y) as [[]|].
Qed.

Lemma all_opt_map {B C} (f : C → option bool) (g : B → C) xs :
  all_opt (λ x, f (g x)) xs = all_opt f (map g xs).
Proof. induction xs as [|x xs IH]; [done|]. simpl. by rewrite IH. Qed.

Lemma all_opt_ext {B} (f g : B → option bool) xs : (∀ x, f x = g x) → all_opt f xs = all_opt g xs.
Proof. intros H. induction xs as [|x xs IH]; [done|]. simpl. by rewrite H, IH. Qed.

#[local] Instance never_sendable_dec ty : Decision (never_sendable ty).
Proof. unfold never_sendable. destruct (get A ty) as [[]|]; apply _. Defined.

(** One level of the search, for what is not a tuple or an array. *)
Lemma sendable_named_spec rec ty t :
  get A ty = Some t → (∀ xs, t ≠ TTuple xs) → (∀ e l, t ≠ TArray e l) →
  sendable_named A d rec ty t = all_opt rec (components ty).
Proof.
  intros Ht Hx He. unfold sendable_named. destruct (is_copy_total A d ty HA) as [c Hc]; [by eexists|].
  unfold components. rewrite Ht, Hc. simpl.
  destruct t; try (by destruct c); [by destruct (Hx xs)|by destruct (He elem len)|]. destruct c; [done|].
  destruct (adt d d0) as [a|]; [|done]. destruct (adt_kind a); try done; unfold field_types.
  all: rewrite <- all_opt_concat; apply all_opt_ext; intros v; apply all_opt_map.
Qed.

Lemma sendable_step n V ty :
  ty ∉ V → is_Some (get A ty) →
  is_sendable_inner A d (S n) V ty =
  if decide (never_sendable ty) then Some false
  else match get A ty with
       | Some (TArray elem _) => is_sendable_inner A d n V elem
       | _ => all_opt (is_sendable_inner A d n (ty :: V)) (components ty)
       end.
Proof.
  intros HV [t Ht]. cbn [is_sendable_inner]. rewrite bool_decide_eq_false_2, Ht by done. simpl.
  destruct (decide (never_sendable ty)) as [Hn|Hn]; unfold never_sendable in Hn; rewrite Ht in Hn.
  - by destruct t.
  - destruct t; try done; try (by apply sendable_named_spec).
    unfold components. by rewrite Ht.
Qed.

Hypothesis Hfields : fields_typed.

Lemma components_typed ty c : is_Some (get A ty) → component_of ty c → is_Some (get A c).
Proof.
  intros [t Ht]. unfold component_of, components. rewrite Ht.
  destruct t; try (by intros H%elem_of_nil); intros Hc.
  - by eapply child_some.
  - by eapply child_some.
  - destruct (is_copy A d ty) as [[]|]; try by apply elem_of_nil in Hc.
    destruct (adt d d0) as [a|] eqn:Ea; [|by apply elem_of_nil in Hc].
    assert (c ∈ field_types a) as Hf by (destruct (adt_kind a); [done..|by apply elem_of_nil in Hc]).
    unfold fields_typed in Hfields. rewrite Forall_forall in Hfields.
    specialize (Hfields a). rewrite Forall_forall in Hfields. apply Hfields; [|done].
    by eapply list_elem_of_lookup_2.
Qed.

(** What the search answers, whenever its fuel lasts. *)
Lemma sendable_inner_spec n V ty b :
  is_Some (get A ty) → is_sendable_inner A d n V ty = Some b →
  if b then ¬ bad_path V ty else bad_path V ty.
Proof.
  revert V ty b. induction n as [|n IH]; intros V ty b Ht Hb; [done|].
  destruct (decide (ty ∈ V)) as [HV|HV].
  { cbn [is_sendable_inner] in Hb. rewrite bool_decide_eq_true_2 in Hb by done. injection Hb as <-.
    intros H. by inversion H. }
  rewrite sendable_step in Hb by done.
  destruct (decide (never_sendable ty)) as [Hn|Hn]; [injection Hb as <-; by constructor|].
  assert (∀ y, component_of ty y → is_Some (get A y)) as Hty by (intros y; by apply components_typed).
  assert (∀ elem len, get A ty = Some (TArray elem len) → if b then ¬ bad_path V ty else bad_path V ty) as Harr.
  { intros elem len Ha. rewrite Ha in Hb.
    assert (component_of ty elem) as Hc by (unfold component_of, components; rewrite Ha; constructor).
    apply IH in Hb; [|by apply Hty]. destruct b; [|by econstructor]. intros H.
    inversion H as [x Hx Hbad|x y Hx Hy Hp]; subst; [done|].
    unfold component_of, components in Hy. rewrite Ha in Hy. by apply list_elem_of_singleton in Hy as ->. }
  assert (all_opt (is_sendable_inner A d n (ty :: V)) (components ty) = Some b →
    if b then ¬ bad_path V ty else bad_path V ty) as Hall.
  { clear Hb Harr. destruct b.
    - rewrite all_opt_true, (bad_path_inv V ty HV). intros H [Hbad|(y & Hc & Hp)]; [done|].
      specialize (H y Hc). by apply IH in H; [|by apply Hty].
    - intros (y & Hc & Hf)%all_opt_false. apply IH in Hf; [|by apply Hty].
      apply (bad_path_inv V ty HV). right. by exists y. }
  destruct Ht as [t Ht]. rewrite Ht in Hb. destruct t; try (by apply Hall). by eapply Harr.
Qed.

Lemma nodup_bound (V : list nat) N : NoDup V → Forall (λ x, x < N) V → length V ≤ N.
Proof.
  intros Hnd HV. rewrite <- (length_seq N 0). apply submseteq_length, NoDup_submseteq; [done|].
  intros x Hx. rewrite Forall_forall in HV. specialize (HV x Hx). apply elem_of_seq. lia.
Qed.

(** Each level takes a new type on the stack, or an array's element. *)
Lemma sendable_inner_total n V ty :
  let N := length (storage A) in
  NoDup V → Forall (λ x, x < N) V → is_Some (get A ty) → (N - length V) * S N + ty < n →
  is_Some (is_sendable_inner A d n V ty).
Proof.
  intros N. revert V ty. induction n as [|n IH]; intros V ty Hnd HV Ht Hn; [lia|].
  destruct (decide (ty ∈ V)) as [Hin|Hin].
  { cbn [is_sendable_inner]. rewrite bool_decide_eq_true_2 by done. by eexists. }
  rewrite sendable_step by done. destruct (decide (never_sendable ty)); [by eexists|].
  assert (ty < N) as Hlt by (destruct Ht as [t Ht]; by eapply lookup_lt_Some).
  assert (is_Some (all_opt (is_sendable_inner A d n (ty :: V)) (components ty))) as Hall.
  { apply all_opt_some. intros y Hy. assert (is_Some (get A y)) as Hty by (by eapply components_typed).
    assert (NoDup (ty :: V)) as Hnd' by (by constructor).
    assert (Forall (λ x, x < N) (ty :: V)) as HV' by (by constructor).
    pose proof (nodup_bound _ _ Hnd' HV') as Hle. simpl in Hle.
    apply IH; [done|done|done|]. destruct Hty as [t' Hty]. apply lookup_lt_Some in Hty. fold N in Hty.
    simpl. replace (N - length V) with (S (N - S (length V))) in Hn by lia. simpl in Hn. lia. }
  destruct Ht as [t Ht]. rewrite Ht. destruct t; try done.
  pose proof (ao_children A HA ty _ elem Ht) as Hc. simpl in Hc. specialize (Hc (list_elem_of_here _ _)).
  apply IH; [done|done|eapply child_some; [done|done|constructor]|lia].
Qed.

Lemma is_sendable_total ty : is_Some (get A ty) → is_Some (is_sendable A d ty).
Proof.
  intros Ht. apply sendable_inner_total; [constructor|constructor|done|].
  destruct Ht as [t Ht]. apply lookup_lt_Some in Ht. simpl. lia.
Qed.

Lemma bad_path_reach ty : bad_path [] ty ↔ ∃ y, rtc component_of ty y ∧ never_sendable y.
Proof.
  split.
  - induction 1 as [x _ Hn|x y _ Hc _ (z & Hz & Hn)]; [by exists x|]. exists z. split; [by eapply rtc_l|done].
  - intros (y & Hr & Hn). induction Hr as [x|x z y Hxz Hzy IH]; [by constructor; [apply not_elem_of_nil|]|].
    econstructor; [apply not_elem_of_nil|done|by apply IH].
Qed.

Lemma is_sendable_spec ty :
  is_Some (get A ty) →
  ∃ b, is_sendable A d ty = Some b ∧ (b = true ↔ ¬ ∃ y, rtc component_of ty y ∧ never_sendable y).
Proof.
  intros Ht. destruct (is_sendable_total ty Ht) as [b Hb]. exists b. split; [done|].
  apply sendable_inner_spec in Hb; [|done]. rewrite <- bad_path_reach. destruct b; [done|]. by split.
Qed.

End Sendable.
