(* ===== verification/BorrowFlow.v ===== *)
(** * The borrow checker's walk

    [crates/mty-borrow/src/nll.rs] and [flow.rs].  [compute_last_use] numbers
    the path reads of a body and keeps the last one of each name; the walk
    then threads a [BorrowCx] through every body.  Both recurse through the
    package's arenas, so they take fuel: the depth of the expression.  The
    cases of [walk_expr] are definitions of their own, which call back through
    their argument [walk]. *)

From stdpp Require Import base list strings numbers gmap sets.
From S2P Require Import Prelude StateM TyArena Hir BorrowState.

Local Open Scope string_scope.
Local Open Scope list_scope.
Notation length := List.length (only parsing).

(** [counter += 1] on a [u32] *)
Definition succ_u32 (n : Z) : option Z := if bool_decide (n + 1 < 2 ^ 32)%Z then Some (n + 1)%Z else None.

(** ** Last uses ([nll.rs]) *)

Notation LastUseMap := (gmap string Z) (only parsing).

Record Pre := mkPre { pre_map : LastUseMap; pre_point : Z }.

(** [LastUseMap::record] *)
Definition record_use (m : LastUseMap) (name : string) (p : Z) : LastUseMap :=
  <[name := match m !! name with Some e => if (e <? p)%Z then p else e | None => p end]> m.

(** [advance] then [record]. *)
Definition visit_name (name : string) : ST Pre unit := λ s,
  n ← succ_u32 (pre_point s);
  Some ((), mkPre (record_use (pre_map s) name (pre_point s)) n).

Section Nll.
Context (pkg : Package).

Section Visits.
Context (visit : ExprId → ST Pre unit).

Definition visit_stmt (st : HirStmt) : ST Pre unit :=
  match st with SLet _ _ init _ => when_some init visit | SExpr e => visit e end.

Definition visit_block (bid : BlockId) : ST Pre unit :=
  b ← lift (blocks pkg !! bid);
  each visit_stmt (stmts b) ≫= λ _, when_some (tail b) visit.

Definition visit_args (args : list HirArg) : ST Pre unit := each (λ a, visit (arg_value a)) args.

Definition visit_arm (a : HirMatchArm) : ST Pre unit :=
  when_some (arm_guard a) visit ≫= λ _, visit (arm_body a).

Definition visit_shape (e : HirExpr) : ST Pre unit :=
  match e with
  | EPath segs | EPathGeneric segs _ => when_some (head segs) visit_name
  | ELiteral _ | EHtmlTemplate _ | EError | EContinue => mret ()
  | EBlock b | EUnsafe b | ELoop b | ELambda _ _ b => visit_block b
  | ETuple xs | EArray xs => each visit xs
  | EBinary _ lhs rhs => visit lhs ≫= λ _, visit rhs
  | EUnary _ e | EBorrow _ e | EMove e | EField e _ | EQuestion e | ERun e | ESpawn _ e | EDetach e
  | EJoin e | EArena _ e | ECast e _ => visit e
  | ECall e args | EMethodCall e _ args | ESend e _ args | EAsk e _ args =>
      visit e ≫= λ _, visit_args args
  | EIndex receiver idx => visit receiver ≫= λ _, visit idx
  | EIf e then_ else_ | EIfLet _ e then_ else_ =>
      visit e ≫= λ _, visit_block then_ ≫= λ _, when_some else_ visit
  | EMatch e arms => visit e ≫= λ _, each visit_arm arms
  | EFor _ e body | EWhile e body | EWhileLet _ e body => visit e ≫= λ _, visit_block body
  | EReturn e | EBreak e => when_some e visit
  | EStruct _ fields => each (λ f, visit f.2) fields
  | EMap entries => each (λ kv, visit kv.1 ≫= λ _, visit kv.2) entries
  | EDeadline inner dur => visit dur ≫= λ _, visit inner
  | ETaskScope deadline body => when_some deadline visit ≫= λ _, visit_block body
  | EBudget entries body => each (λ f, visit f.2) entries ≫= λ _, visit body
  | ESandbox _ entries body => each (λ f, visit f.2) entries ≫= λ _, visit_block body
  end.
End Visits.

Fixpoint visit_expr (n : nat) (eid : ExprId) : ST Pre unit :=
  match n with
  | O => stuck
  | S n => e ← lift (exprs pkg !! eid); visit_shape (visit_expr n) e
  end.

Definition compute_last_use (n : nat) (body : BlockId) : option (LastUseMap * Z) :=
  '(_, s) ← visit_block (visit_expr n) body (mkPre ∅ 0); Some (pre_map s, pre_point s).
End Nll.

(** ** The context ([BorrowCx]) *)

Inductive Position : Set := Use | Move | BorrowShared | BorrowMut | AssignTarget.

(** [scopes] has the innermost frame first. *)
Record BorrowCx := mkCx {
  cx_locals : gmap string LocalState; scopes : list ScopeFrame; arenas : Z;
  diag : list Diagnostic; drop_plan : list DropEntry; ledger : BorrowLedger;
  last_use : LastUseMap; current_point : Z; pending_borrower : option string }.

(** [BorrowCx::new]; the diagnostics and the drop plan are the caller's. *)
Definition new_cx (diag : list Diagnostic) (drop_plan : list DropEntry) : BorrowCx :=
  mkCx ∅ [] 0 diag drop_plan [] ∅ 0 None.

Definition set_locals (l : gmap string LocalState) (c : BorrowCx) : BorrowCx :=
  mkCx l (scopes c) (arenas c) (diag c) (drop_plan c) (ledger c) (last_use c) (current_point c)
    (pending_borrower c).
Definition set_scopes (l : list ScopeFrame) (c : BorrowCx) : BorrowCx :=
  mkCx (cx_locals c) l (arenas c) (diag c) (drop_plan c) (ledger c) (last_use c) (current_point c)
    (pending_borrower c).
Definition set_arenas (n : Z) (c : BorrowCx) : BorrowCx :=
  mkCx (cx_locals c) (scopes c) n (diag c) (drop_plan c) (ledger c) (last_use c) (current_point c)
    (pending_borrower c).
Definition set_diag (l : list Diagnostic) (c : BorrowCx) : BorrowCx :=
  mkCx (cx_locals c) (scopes c) (arenas c) l (drop_plan c) (ledger c) (last_use c) (current_point c)
    (pending_borrower c).
Definition set_drop_plan (l : list DropEntry) (c : BorrowCx) : BorrowCx :=
  mkCx (cx_locals c) (scopes c) (arenas c) (diag c) l (ledger c) (last_use c) (current_point c)
    (pending_borrower c).
Definition set_ledger (l : BorrowLedger) (c : BorrowCx) : BorrowCx :=
  mkCx (cx_locals c) (scopes c) (arenas c) (diag c) (drop_plan c) l (last_use c) (current_point c)
    (pending_borrower c).
Definition set_last_use (m : LastUseMap) (c : BorrowCx) : BorrowCx :=
  mkCx (cx_locals c) (scopes c) (arenas c) (diag c) (drop_plan c) (ledger c) m (current_point c)
    (pending_borrower c).
Definition set_point (n : Z) (c : BorrowCx) : BorrowCx :=
  mkCx (cx_locals c) (scopes c) (arenas c) (diag c) (drop_plan c) (ledger c) (last_use c) n
    (pending_borrower c).
Definition set_pending (o : option string) (c : BorrowCx) : BorrowCx :=
  mkCx (cx_locals c) (scopes c) (arenas c) (diag c) (drop_plan c) (ledger c) (last_use c)
    (current_point c) o.

Notation M := (ST BorrowCx).

Definition push_diag (d : Diagnostic) : M unit := modify (λ c, set_diag (diag c ++ [d]) c).

Definition push_frame (region : option ArenaRegionId) : M unit :=
  modify (λ c, set_scopes (mkFrame [] region :: scopes c) c).

Definition put_local (name : string) (l : LocalState) : M unit :=
  modify (λ c, set_locals (<[name := l]> (cx_locals c)) c).

Definition count_shared (name : string) (l : BorrowLedger) : Z :=
  Z.of_nat (length (List.filter
    (λ r, bool_decide (root (rec_place r) = name) && bool_decide (rec_kind r = Shared)) l)).

Definition has_mut (name : string) (l : BorrowLedger) : bool :=
  existsb (λ r, bool_decide (root (rec_place r) = name) && bool_decide (rec_kind r = Mut)) l.

Definition recomputed (name : string) (l : BorrowLedger) (s : LocalState) : LocalState :=
  match ls_state s with
  | Owned | Borrowed _ | BorrowedMut =>
      set_state
        (if has_mut name l then BorrowedMut
         else if (0 <? count_shared name l)%Z then Borrowed (count_shared name l)
         else Owned) s
  | _ => s
  end.

(** The count of shared borrows is a [u32]. *)
Definition recompute_root_state (name : string) : M unit := λ c,
  if bool_decide (count_shared name (ledger c) < 2 ^ 32)%Z
  then Some ((), set_locals (alter (recomputed name (ledger c)) name (cx_locals c)) c)
  else None.

(** The borrows of departing locals held by locals that stay (MT3007). *)
Definition outliving (departing : list string) (l : BorrowLedger) : list Diagnostic :=
  omap (λ r,
    match borrower r with
    | Some b =>
        if bool_decide (root (rec_place r) ∈ departing) && bool_decide (b ∉ departing)
        then Some (borrow_outlives_owner (root (rec_place r)) (rec_at r)) else None
    | None => None
    end) l.

(** Ends a departing local: its drop intent, and its removal. *)
Definition depart (name : string) (c : BorrowCx) : BorrowCx :=
  let plan :=
    match cx_locals c !! name with
    | Some l =>
        match ls_state l with
        | Owned => if negb (ls_is_copy l) then drop_plan c ++ [mkDropEntry name (declared_at l)] else drop_plan c
        | _ => drop_plan c
        end
    | None => drop_plan c
    end in
  set_locals (delete name (cx_locals c)) (set_drop_plan plan c).

Definition pop_frame : M unit :=
  ss ← gets scopes;
  match ss with
  | [] => stuck
  | frame :: rest =>
      let names := frame_locals frame in
      modify (set_scopes rest) ≫= λ _,
      modify (λ c, set_diag (diag c ++ outliving names (ledger c)) c) ≫= λ _,
      l ← gets ledger;
      let '(removed, kept) := decay_borrowers names l in
      modify (set_ledger kept) ≫= λ _,
      each (λ r, recompute_root_state (root (rec_place r))) removed ≫= λ _,
      modify (λ c, set_ledger (List.filter (λ r, negb (bool_decide (root (rec_place r) ∈ names))) (ledger c)) c) ≫= λ _,
      each (λ name, modify (depart name)) names
  end.

Definition current_arena (c : BorrowCx) : option ArenaRegionId := head (omap frame_region (scopes c)).

(** ** Names of places and patterns *)

Section Names.
Context (pkg : Package).

Definition lhs_root_name (eid : ExprId) : option (option string) :=
  e ← exprs pkg !! eid;
  Some (match e with EPath [x] => Some x | _ => None end).

Definition pattern_single_name (pid : PatId) : option (option string) :=
  p ← pats pkg !! pid;
  Some (match p with PBinding name None => Some name | _ => None end).

(** [None] is the panic; [Some None] an expression that is not a place. *)
Definition segs_to_place (locals : gmap string LocalState) (segs : list string) : option Place :=
  match segs with
  | [] => None
  | x :: fields =>
      match locals !! x with
      | Some _ => Some (truncate_for_v0_3 (mkPlace x (map PrField fields)))
      | None => None
      end
  end.

Fixpoint expr_as_place (n : nat) (locals : gmap string LocalState) (eid : ExprId) : option (option Place) :=
  match n with
  | O => None
  | S n =>
      e ← exprs pkg !! eid;
      match e with
      | EPath segs | EPathGeneric segs _ => Some (segs_to_place locals segs)
      | EField receiver name =>
          r ← expr_as_place n locals receiver; Some (option_map (λ p, truncate_for_v0_3 (with_field p name)) r)
      | EUnary Deref rhs =>
          r ← expr_as_place n locals rhs; Some (option_map (λ p, truncate_for_v0_3 (with_deref p)) r)
      | EIndex receiver _ =>
          r ← expr_as_place n locals receiver; Some (option_map (λ p, truncate_for_v0_3 (with_index p)) r)
      | _ => Some None
      end
  end.

(** [segs.join(".")] *)
Definition join_dots (segs : list string) : string := String.concat "." segs.

Fixpoint expr_pretty_name (n : nat) (eid : ExprId) : option string :=
  match n with
  | O => None
  | S n =>
      e ← exprs pkg !! eid;
      match e with
      | EPath segs | EPathGeneric segs _ => Some (join_dots segs)
      | EField receiver name => r ← expr_pretty_name n receiver; Some (r +:+ "." +:+ name)
      | _ => Some "<ref>"
      end
  end.

End Names.

(** ** What a name's position does *)

Section Locals.
Context (typed : TypedPackage) (pkg : Package).

Definition arena : TyArena := ty_arena typed.
Definition unit_ty : TyId := unit_ (prims arena).
Definition type_of (e : ExprId) : TyId := default unit_ty (expr_ty typed !! e).

Definition bind_local_with_state (name : string) (ty : TyId) (span : SourceSpan) (mutable : bool)
    (ownership : Ownership) : M unit :=
  c ← lift (is_copy arena (def_map typed) ty);
  region ← gets current_arena;
  put_local name (mkLocalState name ty ownership span mutable c region) ≫= λ _,
  modify (λ c,
    match scopes c with
    | f :: rest => set_scopes (mkFrame (frame_locals f ++ [name]) (frame_region f) :: rest) c
    | [] => c
    end).

Definition bind_local (name : string) (ty : TyId) (span : SourceSpan) (mutable : bool) : M unit :=
  bind_local_with_state name ty span mutable Owned.

Fixpoint bind_pattern_inner_mut (n : nat) (pid : PatId) (scrut_ty : TyId) (mutable : bool)
    (ownership : Ownership) : M unit :=
  match n with
  | O => stuck
  | S n =>
      p ← lift (pats pkg !! pid);
      match p with
      | PBinding name sub =>
          bind_local_with_state name scrut_ty no_span mutable ownership ≫= λ _,
          when_some sub (λ s, bind_pattern_inner_mut n s scrut_ty mutable ownership)
      | PTuple xs =>
          t ← lift (get arena scrut_ty);
          let parts := match t with TTuple ps => ps | _ => replicate (length xs) unit_ty end in
          each_from (λ i s, bind_pattern_inner_mut n s (default unit_ty (parts !! i)) mutable ownership) 0 xs
      | PStruct _ fields =>
          each (λ f : string * option PatId,
            match f.2 with
            | Some s => bind_pattern_inner_mut n s unit_ty mutable ownership
            | None => bind_local_with_state f.1 unit_ty no_span mutable ownership
            end) fields
      | PEnum _ args => each (λ s, bind_pattern_inner_mut n s unit_ty mutable ownership) args
      | PRef _ inner =>
          t ← lift (get arena scrut_ty);
          let inner_ty := match t with TRef _ i => i | _ => unit_ty end in
          bind_pattern_inner_mut n inner inner_ty mutable ownership
      | PRange _ _ _ | PWildcard | PLiteral _ => mret ()
      end
  end.

Definition bind_pattern (n : nat) (pid : PatId) (scrut_ty : TyId) : M unit :=
  bind_pattern_inner_mut n pid scrut_ty false Owned.

Definition advance_point : M unit := λ c, n ← succ_u32 (current_point c); Some ((), set_point n c).

Definition maybe_decay_after_use (name : string) : M unit :=
  pt ← gets (λ c, Z.max 0 (current_point c - 1));
  last ← gets (λ c, last_use c !! name);
  match last with
  | Some last =>
      if bool_decide (last ≤ pt)%Z then
        l ← gets ledger;
        let '(removed, kept) := decay_borrower name l in
        modify (set_ledger kept) ≫= λ _,
        each (λ r, recompute_root_state (root (rec_place r))) removed
      else mret ()
  | None => mret ()
  end.

Definition do_use (name : string) (span : SourceSpan) : M unit :=
  ls ← gets cx_locals;
  match ls_state <$> ls !! name with
  | Some (Moved at_) => push_diag (use_after_move name span at_)
  | Some Uninit => push_diag (use_of_uninitialized name span)
  | _ => mret ()
  end.

(** Borrows of a part of [name], and borrows of all of it. *)
Definition subplace_borrowed (name : string) (l : BorrowLedger) : bool :=
  existsb (λ r, bool_decide (root (rec_place r) = name) && negb (bool_decide (projs (rec_place r) = []))) l.
Definition root_borrowed (name : string) (l : BorrowLedger) : bool :=
  existsb (λ r, bool_decide (root (rec_place r) = name) && bool_decide (projs (rec_place r) = [])) l.

Definition do_move (name : string) (span : SourceSpan) : M unit :=
  l ← gets ledger;
  ls ← gets cx_locals;
  match ls !! name with
  | None => mret ()
  | Some st =>
      match ls_state st with
      | Moved at_ => push_diag (use_after_move name span at_)
      | Uninit => push_diag (use_of_uninitialized name span)
      | Borrowed _ | BorrowedMut =>
          if subplace_borrowed name l && negb (root_borrowed name l)
          then push_diag (move_out_of_borrow name span)
          else push_diag (cannot_move_borrowed name span)
      | Owned =>
          (if subplace_borrowed name l then push_diag (move_out_of_borrow name span) else mret ()) ≫= λ _,
          if ls_is_copy st then mret () else put_local name (set_state (Moved span) st)
      end
  end.

Definition do_assign (name : string) (span : SourceSpan) : M unit :=
  ls ← gets cx_locals;
  match ls !! name with
  | None => mret ()
  | Some st =>
      (if ls_mutable st then mret () else push_diag (assign_to_immut_local name span)) ≫= λ _,
      put_local name (set_state Owned st)
  end.

(** The error a new borrow of [p] makes against the borrows it overlaps. *)
Definition borrow_conflict (p : Place) (kind : BorrowKind) (span : SourceSpan) (l : BorrowLedger) :
    option Diagnostic :=
  let cs := conflicts_with l p in
  let any_mut := existsb (λ r, bool_decide (rec_kind r = Mut)) cs in
  let any_shared := existsb (λ r, bool_decide (rec_kind r = Shared)) cs in
  let is_root := bool_decide (projs p = []) in
  match kind, any_mut, any_shared with
  | Mut, true, _ =>
      Some (if is_root then two_mut_borrows (root p) span else two_mut_borrows_place (place_display p) span)
  | Mut, false, true =>
      Some (if is_root then mut_borrow_while_shared (root p) span
            else mut_borrow_while_shared_place (place_display p) span)
  | Shared, true, _ =>
      Some (if is_root then shared_borrow_while_mut (root p) span
            else shared_borrow_while_mut_place (place_display p) span)
  | _, _, _ => None
  end.

(** The state of a root after a borrow of a place of it; the count of shared
    borrows is a [u32]. *)
Definition borrowed_state (s : Ownership) (kind : BorrowKind) : option Ownership :=
  match s, kind with
  | Owned, Shared => Some (Borrowed 1)
  | Borrowed count, Shared => Borrowed <$> succ_u32 count
  | Owned, Mut => Some BorrowedMut
  | _, _ => Some s
  end.

(** [self.ledger.push] and the sync of the root's state. *)
Definition record_borrow (p : Place) (kind : BorrowKind) (span : SourceSpan) : M unit :=
  modify (λ c, set_ledger (ledger c ++ [mkRecord p kind (pending_borrower c) span]) c) ≫= λ _,
  ls ← gets cx_locals;
  match ls !! root p with
  | Some st => s ← lift (borrowed_state (ls_state st) kind); put_local (root p) (set_state s st)
  | None => mret ()
  end.

Definition try_place_borrow (p : Place) (kind : BorrowKind) (span : SourceSpan) : M unit :=
  ls ← gets cx_locals;
  let st := ls !! root p in
  match kind, st with
  | Mut, Some s => if ls_mutable s then mret () else push_diag (mut_borrow_of_immut_local (root p) span)
  | _, _ => mret ()
  end ≫= λ _,
  match ls_state <$> st with
  | Some (Moved at_) => push_diag (borrow_after_move (root p) span at_)
  | Some Uninit => push_diag (use_of_uninitialized (root p) span)
  | _ =>
      l ← gets ledger;
      when_some (borrow_conflict p kind span l) push_diag ≫= λ _,
      record_borrow p kind span
  end.

Definition local_is_ref_typed (name : string) : M bool :=
  ls ← gets cx_locals;
  match ls !! name with
  | Some s => t ← lift (get arena (ls_ty s)); mret (match t with TRef _ _ => true | _ => false end)
  | None => mret false
  end.

(** [do_borrow_shared] and [do_borrow_mut] *)
Definition do_borrow (kind : BorrowKind) (name : string) (span : SourceSpan) : M unit :=
  b ← local_is_ref_typed name;
  if b : bool then do_use name span else try_place_borrow (root_place name) kind span.

Fixpoint walk_for_points_only (n : nat) (eid : ExprId) : M unit :=
  match n with
  | O => stuck
  | S n =>
      e ← lift (exprs pkg !! eid);
      match e with
      | EPath (x :: _) | EPathGeneric (x :: _) _ => advance_point ≫= λ _, maybe_decay_after_use x
      | EField receiver _ => walk_for_points_only n receiver
      | EUnary _ rhs => walk_for_points_only n rhs
      | EIndex receiver idx => walk_for_points_only n receiver ≫= λ _, walk_for_points_only n idx
      | _ => mret ()
      end
  end.

Definition check_deref_move (n : nat) (ref_expr : ExprId) (span : SourceSpan) : M unit :=
  match expr_ty typed !! ref_expr with
  | None => mret ()
  | Some rty =>
      t ← lift (get arena rty);
      match t with
      | TRef _ inner =>
          c ← lift (is_copy arena (def_map typed) inner);
          if c : bool then mret ()
          else pretty ← lift (expr_pretty_name pkg n ref_expr); push_diag (move_out_of_ref_named pretty span)
      | _ => mret ()
      end
  end.

End Locals.

(** ** The walk *)

Section Walk.
Context (typed : TypedPackage) (pkg : Package).

Section Cases.
Context (n : nat) (walk : ExprId → Position → M (option string)).

Definition use (e : ExprId) : M unit := void (walk e Use).

(** [self.pending_borrower] is [name] while [m] runs. *)
Definition as_borrower (name : option string) (m : M unit) : M unit :=
  prev ← gets pending_borrower;
  modify (set_pending name) ≫= λ _, m ≫= λ _, modify (set_pending prev).

Definition walk_stmt (st : HirStmt) : M unit :=
  match st with
  | SLet pat _ init mutable =>
      bind_name ← lift (pattern_single_name pkg pat);
      match init with
      | Some e => as_borrower bind_name (use e)
      | None => mret ()
      end ≫= λ _,
      let init_ty := match init with Some e => type_of typed e | None => unit_ty typed end in
      let ownership := match init with Some _ => Owned | None => Uninit end in
      bind_pattern_inner_mut typed pkg n pat init_ty mutable ownership
  | SExpr e => use e
  end.

Definition walk_block (bid : BlockId) : M unit :=
  push_frame None ≫= λ _,
  b ← lift (blocks pkg !! bid);
  each walk_stmt (stmts b) ≫= λ _,
  when_some (tail b) use ≫= λ _,
  pop_frame.

(** One round of the analysis of a loop: the body, joined with the state
    before the loop. *)
Definition loop_round (pre_locals : gmap string LocalState) (pre_ledger : BorrowLedger) (body : M unit) : M unit :=
  body ≫= λ _,
  modify (λ c, set_locals (join_states pre_locals (cx_locals c)) c) ≫= λ _,
  modify (λ c, set_ledger (join_ledgers pre_ledger (ledger c)) c).

(** Ends when the number of records stays the same, or with one more round
    after [k]. *)
Fixpoint loop_rounds (k : nat) (prev : nat) (pre_locals : gmap string LocalState) (pre_ledger : BorrowLedger)
    (body : M unit) : M unit :=
  match k with
  | O => loop_round pre_locals pre_ledger body
  | S k =>
      loop_round pre_locals pre_ledger body ≫= λ _,
      len ← gets (λ c, length (ledger c));
      if bool_decide (len = prev) then mret () else loop_rounds k len pre_locals pre_ledger body
  end.

Definition loop_fixed_point (body : M unit) : M unit :=
  pre_locals ← gets cx_locals;
  pre_ledger ← gets ledger;
  loop_rounds 16 (length pre_ledger) pre_locals pre_ledger body.

Definition at_position (name : string) (pos : Position) : M unit :=
  match pos with
  | Move => do_move name no_span
  | BorrowShared => do_borrow typed Shared name no_span
  | BorrowMut => do_borrow typed Mut name no_span
  | Use => do_use name no_span
  | AssignTarget => do_assign name no_span
  end.

(** A path with fields, on the local it starts with. *)
Definition at_field_position (name : string) (pos : Position) : M unit :=
  match pos with
  | Use | BorrowShared | BorrowMut => do_use name no_span
  | Move => do_move name no_span
  | AssignTarget =>
      ls ← gets cx_locals;
      match ls !! name with
      | Some st => if ls_mutable st then mret () else push_diag (assign_to_immut_local name no_span)
      | None => mret ()
      end
  end.

Definition is_local (name : string) (c : BorrowCx) : bool :=
  match cx_locals c !! name with Some _ => true | None => false end.

Definition walk_path (segs : list string) (pos : Position) : M (option string) :=
  match segs with
  | [] => mret None
  | name :: fields =>
      advance_point ≫= λ _,
      known ← gets (is_local name);
      (if known : bool
       then match fields with [] => at_position name pos | _ => at_field_position name pos end
       else mret ()) ≫= λ _,
      maybe_decay_after_use name ≫= λ _,
      mret (match fields with [] => Some name | _ => None end)
  end.

Definition walk_path_generic (segs : list string) (pos : Position) : M (option string) :=
  match segs with
  | [] => mret None
  | name :: fields =>
      advance_point ≫= λ _,
      known ← gets (is_local name);
      let single := match fields with [] => known : bool | _ => false end in
      (if single then match pos with Use => do_use name no_span | _ => mret () end else mret ()) ≫= λ _,
      maybe_decay_after_use name ≫= λ _,
      mret (if single then Some name else None)
  end.

Definition is_assign (op : BinOp) : bool :=
  match op with
  | Assign | AssignAdd | AssignSub | AssignMul | AssignDiv | AssignRem
  | AssignBitAnd | AssignBitOr | AssignBitXor | AssignShl | AssignShr => true
  | _ => false
  end.

Definition walk_binary (op : BinOp) (lhs rhs : ExprId) : M unit :=
  void (walk lhs (if is_assign op then AssignTarget else Use)) ≫= λ _,
  bind_name ← lift (match op with Assign => lhs_root_name pkg lhs | _ => Some None end);
  match bind_name with
  | Some _ => as_borrower bind_name (use rhs)
  | None => use rhs
  end.

Definition walk_unary (op : UnOp) (rhs : ExprId) (pos : Position) : M unit :=
  match op, pos with
  | Deref, Use => check_deref_move typed pkg n rhs no_span
  | _, _ => mret ()
  end ≫= λ _, use rhs.

Definition walk_borrow (mutable : bool) (inner : ExprId) : M unit :=
  ls ← gets cx_locals;
  place ← lift (expr_as_place pkg n ls inner);
  match place with
  | Some p =>
      try_place_borrow p (if mutable then Mut else Shared) no_span ≫= λ _,
      walk_for_points_only pkg n inner
  | None => void (walk inner (if mutable then BorrowMut else BorrowShared))
  end.

Definition walk_move (inner : ExprId) : M unit :=
  e ← lift (exprs pkg !! inner);
  match e with
  | EUnary Deref rhs => check_deref_move typed pkg n rhs no_span ≫= λ _, use rhs
  | _ => void (walk inner Move)
  end.

(** The position of an argument, from the parameter's type. *)
Definition arg_position (param : option TyId) : option Position :=
  match param with
  | None => Some Use
  | Some pt =>
      t ← get (arena typed) pt;
      Some (match t with TRef true _ => BorrowMut | TRef false _ => BorrowShared | _ => Use end)
  end.

Definition walk_call (callee : ExprId) (args : list HirArg) : M unit :=
  use callee ≫= λ _,
  param_tys ← lift
    (match expr_ty typed !! callee with
     | None => Some []
     | Some t => d ← get (arena typed) t; Some (match d with TFn params _ _ => params | _ => [] end)
     end);
  each_from (λ i a, pos ← lift (arg_position (param_tys !! i)); void (walk (arg_value a) pos)) 0 args.

Definition walk_method_call (receiver : ExprId) (args : list HirArg) : M unit :=
  void (walk receiver BorrowShared) ≫= λ _, each (λ a, use (arg_value a)) args.

(** Both arms of a conditional start from the state before it, and the join of
    the states after them goes on. *)
Definition branches (then_ : M unit) (else_ : option ExprId) : M unit :=
  snapshot ← gets cx_locals;
  ledger_snap ← gets ledger;
  then_ ≫= λ _,
  after_then ← gets cx_locals;
  after_then_ledger ← gets ledger;
  modify (set_locals snapshot) ≫= λ _,
  modify (set_ledger ledger_snap) ≫= λ _,
  when_some else_ use ≫= λ _,
  modify (λ c, set_locals (join_states (cx_locals c) after_then) c) ≫= λ _,
  modify (λ c, set_ledger (join_ledgers (ledger c) after_then_ledger) c).

(** [push_frame], [bind_pattern], [m], [pop_frame] *)
Definition with_pattern (pat : PatId) (ty : TyId) (m : M unit) : M unit :=
  push_frame None ≫= λ _, bind_pattern typed pkg n pat ty ≫= λ _, m ≫= λ _, pop_frame.

Definition walk_if (cond : ExprId) (then_ : BlockId) (else_ : option ExprId) : M unit :=
  use cond ≫= λ _, branches (walk_block then_) else_.

Definition walk_if_let (pat : PatId) (scrutinee : ExprId) (then_ : BlockId) (else_ : option ExprId) : M unit :=
  use scrutinee ≫= λ _,
  branches (with_pattern pat (type_of typed scrutinee) (walk_block then_)) else_.

Definition walk_arm (ty : TyId) (arm : HirMatchArm) : M unit :=
  with_pattern (arm_pat arm) ty (when_some (arm_guard arm) use ≫= λ _, use (arm_body arm)).

(** The join of the states after the arms so far; [None] before the first. *)
Fixpoint walk_arms (ty : TyId) (base : gmap string LocalState) (base_ledger : BorrowLedger)
    (joined : option (gmap string LocalState * BorrowLedger)) (arms : list HirMatchArm) : M unit :=
  match arms with
  | [] =>
      let '(ls, l) := default (base, base_ledger) joined in
      modify (set_locals ls) ≫= λ _, modify (set_ledger l)
  | arm :: arms =>
      modify (set_locals base) ≫= λ _,
      modify (set_ledger base_ledger) ≫= λ _,
      walk_arm ty arm ≫= λ _,
      ls ← gets cx_locals;
      l ← gets ledger;
      walk_arms ty base base_ledger
        (Some match joined with
              | Some (jls, jl) => (join_states jls ls, join_ledgers jl l)
              | None => (ls, l)
              end) arms
  end.

Definition walk_match (scrutinee : ExprId) (arms : list HirMatchArm) : M unit :=
  use scrutinee ≫= λ _,
  base ← gets cx_locals;
  base_ledger ← gets ledger;
  walk_arms (type_of typed scrutinee) base base_ledger None arms.

Definition element_type (iter_ty : TyId) : option TyId :=
  t ← get (arena typed) iter_ty;
  match t with
  | TArray elem _ => Some elem
  | TRef _ inner =>
      i ← get (arena typed) inner;
      Some (match i with TArray elem _ => elem | _ => unit_ty typed end)
  | _ => Some (unit_ty typed)
  end.

Definition walk_for (pat : PatId) (iter : ExprId) (body : BlockId) : M unit :=
  use iter ≫= λ _,
  elem_ty ← lift (element_type (type_of typed iter));
  loop_fixed_point (with_pattern pat elem_ty (walk_block body)).

Definition walk_while (cond : ExprId) (body : BlockId) : M unit :=
  use cond ≫= λ _, loop_fixed_point (walk_block body).

Definition walk_while_let (pat : PatId) (scrutinee : ExprId) (body : BlockId) : M unit :=
  use scrutinee ≫= λ _,
  loop_fixed_point (with_pattern pat (type_of typed scrutinee) (walk_block body)).

(** [!Msg(..)] and [?Msg(..)] move their arguments and want them sendable. *)
Definition walk_message_arg (a : HirArg) : M unit :=
  arg_name ← walk (arg_value a) Move;
  match expr_ty typed !! arg_value a with
  | None => mret ()
  | Some ty =>
      s ← lift (is_sendable (arena typed) (def_map typed) ty);
      if s : bool then mret ()
      else push_diag (non_sendable_message_arg (default "<arg>" arg_name) no_span)
  end.

Definition walk_message (target : ExprId) (args : list HirArg) : M unit :=
  use target ≫= λ _, each walk_message_arg args.

(** The statements of an arena's body are walked inside the arena's own frame,
    so that the local its tail names is still bound (MT3010). *)
Definition walk_arena (body : ExprId) : M unit :=
  c ← gets arenas;
  fr ← lift (fresh c);
  let '(region, next) := fr in
  modify (set_arenas next) ≫= λ _,
  push_frame (Some region) ≫= λ _,
  e ← lift (exprs pkg !! body);
  tail_name ←
    match e with
    | EBlock bid =>
        b ← lift (blocks pkg !! bid);
        each walk_stmt (stmts b) ≫= λ _,
        match tail b with Some t => walk t Use | None => mret None end
    | _ => walk body Use
    end;
  ls ← gets cx_locals;
  when_some tail_name (λ name,
    match ls !! name with
    | Some st =>
        if bool_decide (arena_region st = Some region) && negb (ls_is_copy st)
        then push_diag (arena_escape name no_span) else mret ()
    | None => mret ()
    end) ≫= λ _,
  pop_frame.

(** The locals and the ledger are those of before the closure. *)
Definition walk_lambda (params : list HirParam) (body : BlockId) : M unit :=
  snapshot ← gets cx_locals;
  ledger_snap ← gets ledger;
  push_frame None ≫= λ _,
  each (λ p, bind_local typed (param_name p) (unit_ty typed) (param_span p) false) params ≫= λ _,
  walk_block body ≫= λ _,
  pop_frame ≫= λ _,
  modify (set_locals snapshot) ≫= λ _, modify (set_ledger ledger_snap).

Definition nameless (m : M unit) : M (option string) := m ≫= λ _, mret None.

Definition walk_shape (e : HirExpr) (pos : Position) : M (option string) :=
  match e with
  | EPath segs => walk_path segs pos
  | EPathGeneric segs _ => walk_path_generic segs pos
  | ELiteral _ | EHtmlTemplate _ | EContinue | EError => mret None
  | EBlock b | EUnsafe b => nameless (walk_block b)
  | ETuple xs | EArray xs => nameless (each use xs)
  | EBinary op lhs rhs => nameless (walk_binary op lhs rhs)
  | EUnary op rhs => nameless (walk_unary op rhs pos)
  | EBorrow mutable inner => nameless (walk_borrow mutable inner)
  | EMove inner => nameless (walk_move inner)
  | ECall callee args => nameless (walk_call callee args)
  | EMethodCall receiver _ args => nameless (walk_method_call receiver args)
  | EField receiver _ => nameless (use receiver)
  | EIndex receiver idx => nameless (use receiver ≫= λ _, use idx)
  | EIf cond then_ else_ => nameless (walk_if cond then_ else_)
  | EIfLet pat scrutinee then_ else_ => nameless (walk_if_let pat scrutinee then_ else_)
  | EMatch scrutinee arms => nameless (walk_match scrutinee arms)
  | EFor pat iter body => nameless (walk_for pat iter body)
  | EWhile cond body => nameless (walk_while cond body)
  | EWhileLet pat scrutinee body => nameless (walk_while_let pat scrutinee body)
  | ELoop body => nameless (loop_fixed_point (walk_block body))
  | EReturn inner | EBreak inner => nameless (when_some inner (λ e, void (walk e Move)))
  | EStruct _ fields => nameless (each (λ f, use f.2) fields)
  | EMap entries => nameless (each (λ kv, use kv.1 ≫= λ _, use kv.2) entries)
  | ESend target _ args | EAsk target _ args => nameless (walk_message target args)
  | EDeadline inner dur => use dur ≫= λ _, walk inner pos
  | EQuestion inner | ERun inner => walk inner pos
  | ESpawn _ inner | EDetach inner | EJoin inner => nameless (use inner)
  | EArena _ body => nameless (walk_arena body)
  | ETaskScope _ body => nameless (walk_block body)
  | EBudget entries body => nameless (each (λ f, use f.2) entries ≫= λ _, use body)
  | ESandbox _ entries body => nameless (each (λ f, use f.2) entries ≫= λ _, walk_block body)
  | ECast lhs _ => nameless (use lhs)
  | ELambda params _ body => nameless (walk_lambda params body)
  end.

End Cases.

Fixpoint walk_expr (n : nat) (eid : ExprId) (pos : Position) : M (option string) :=
  match n with
  | O => stuck
  | S n => e ← lift (exprs pkg !! eid); walk_shape n (walk_expr n) e pos
  end.

(** ** Entry points *)

Definition walk_body (n : nat) (body : BlockId) : M unit := walk_block n (walk_expr n) body.

Definition check_fn_body (n : nat) (fid : FnId) (f : HirFn) (body : BlockId) (diags : list Diagnostic)
    (plan : list DropEntry) : option (list Diagnostic * list DropEntry) :=
  '(lu, _) ← compute_last_use pkg n body;
  '(_, c) ←
    (push_frame None ≫= λ _,
     each (λ p : string * TyId, bind_local typed p.1 p.2 (fn_span f) false)
       (default [] (fn_param_tys typed !! fid)) ≫= λ _,
     walk_body n body ≫= λ _,
     pop_frame) (set_last_use lu (new_cx diags plan));
  Some (diag c, drop_plan c).

(** A walk in a context of its own that keeps the diagnostics and the drop
    plan, as a step of the state [(diagnostics, drop_plan)]. *)
Definition in_new_cx (m : M unit) : ST (list Diagnostic * list DropEntry) unit := λ s,
  '(_, c) ← (push_frame None ≫= λ _, m ≫= λ _, pop_frame) (new_cx s.1 s.2);
  Some ((), (diag c, drop_plan c)).

Definition check_fns (n : nat) : ST (list Diagnostic * list DropEntry) unit :=
  each_from (λ fid f,
    when_some (fn_body f) (λ body s,
      r ← check_fn_body n fid f body s.1 s.2; Some ((), r))) 0 (fns pkg).

Definition check_handler (n : nat) (h : HirOnHandler) : ST (list Diagnostic * list DropEntry) unit :=
  in_new_cx
    (each (λ p, bind_local typed p (unit_ty typed) (oh_span h) false) (oh_params h) ≫= λ _,
     walk_body n (oh_body h)).

Definition check_item (n : nat) (it : Item) : ST (list Diagnostic * list DropEntry) unit :=
  match it with
  | ItAgent aid =>
      a ← lift (agents pkg !! aid);
      each (λ s, when_some (as_init s) (λ e, in_new_cx (void (walk_expr n e Use)))) (ag_state a) ≫= λ _,
      each (check_handler n) (ag_handlers a)
  | ItSupervisor sid =>
      s ← lift (supervisors pkg !! sid);
      each (λ c, in_new_cx (void (walk_expr n c.2 Use))) (su_children s)
  | _ => mret ()
  end.

(** [flow::run]; it also looks up the agents of the package's methods, whose
    owners it does not use. *)
Definition run (n : nat) : option (list Diagnostic) :=
  '(_, s) ←
    (check_fns n ≫= λ _,
     each (λ id, it ← lift (items pkg !! id); check_item n it) (top_level pkg)) ([], []);
  Some s.1.

End Walk.
