(* ===== verification/BorrowTotal.v ===== *)
(** * The walk returns

    [weight n pkg e] is an upper bound on the path reads, arenas and borrows
    of a walk of [e], two for each expression and loop bodies 17 times; it has no value when a
    node is out of range or nested deeper than [n].  [costs k m]: with room
    for [k] more points, arenas and records below [2^32], [m] returns and uses
    no more than that. *)

From stdpp Require Import base list strings numbers gmap sets.
From S2P Require Import Prelude StateM TyArena Infer Hir BorrowState BorrowFlow.

Local Open Scope Z_scope.
Notation length := List.length (only parsing).

(** ** Weights *)

Inductive Part := PExpr (e : ExprId) | PBlock (b : BlockId) | PLoop (b : BlockId) | PPat (p : PatId).

Definition opt_part (o : option ExprId) : list Part := match o with Some e => [PExpr e] | None => [] end.
Definition arg_parts (args : list HirArg) : list Part := map (λ a, PExpr (arg_value a)) args.

Definition arm_parts (a : HirMatchArm) : list Part :=
  PPat (arm_pat a) :: opt_part (arm_guard a) ++ [PExpr (arm_body a)].

(** The nodes right below an expression. *)
Definition parts (e : HirExpr) : list Part :=
  match e with
  | ELiteral _ | EPath _ | EPathGeneric _ _ | EHtmlTemplate _ | EContinue | EError => []
  | ECall e args | EMethodCall e _ args | ESend e _ args | EAsk e _ args => PExpr e :: arg_parts args
  | EField e _ | EUnary _ e | EBorrow _ e | EMove e | EQuestion e | ERun e | ESpawn _ e | EDetach e
  | EJoin e | ECast e _ | EArena _ e => [PExpr e]
  | EIndex a b | EBinary _ a b => [PExpr a; PExpr b]
  | EDeadline inner dur => [PExpr dur; PExpr inner]
  | EIf e then_ else_ => PExpr e :: PBlock then_ :: opt_part else_
  | EIfLet pat e then_ else_ => PExpr e :: PPat pat :: PBlock then_ :: opt_part else_
  | EMatch e arms => PExpr e :: concat (map arm_parts arms)
  | EFor pat e body | EWhileLet pat e body => [PExpr e; PPat pat; PLoop body]
  | EWhile e body => [PExpr e; PLoop body]
  | ELoop body => [PLoop body]
  | EReturn o | EBreak o => opt_part o
  | EBlock b | EUnsafe b | ELambda _ _ b => [PBlock b]
  | ETuple xs | EArray xs => map PExpr xs
  | EStruct _ fields => map (λ f, PExpr f.2) fields
  | EMap entries => concat (map (λ kv, [PExpr kv.1; PExpr kv.2]) entries)
  | ETaskScope deadline body => opt_part deadline ++ [PBlock body]
  | EBudget entries body => map (λ f, PExpr f.2) entries ++ [PExpr body]
  | ESandbox _ entries body => map (λ f, PExpr f.2) entries ++ [PBlock body]
  end.

Definition stmt_parts (st : HirStmt) : list Part :=
  match st with SLet pat _ init _ => opt_part init ++ [PPat pat] | SExpr e => [PExpr e] end.

Definition block_parts (b : HirBlock) : list Part := concat (map stmt_parts (stmts b)) ++ opt_part (tail b).

Definition pat_children (p : HirPat) : list PatId :=
  match p with
  | PBinding _ sub => match sub with Some s => [s] | None => [] end
  | PTuple xs | PEnum _ xs => xs
  | PStruct _ fields => omap snd fields
  | PRef _ inner => [inner]
  | PWildcard | PLiteral _ | PRange _ _ _ => []
  end.

Section Weights.
Context (pkg : Package).

(** The pattern is in range and nested less than [n] deep. *)
Fixpoint pat_fits (n : nat) (pid : PatId) : bool :=
  match n with
  | O => false
  | S n => match pats pkg !! pid with Some p => forallb (pat_fits n) (pat_children p) | None => false end
  end.

Fixpoint sum_opt {A} (f : A → option Z) (xs : list A) : option Z :=
  match xs with [] => Some 0 | x :: xs => a ← f x; b ← sum_opt f xs; Some (a + b) end.

Definition weigh_block (weigh : Part → option Z) (b : BlockId) : option Z :=
  blk ← blocks pkg !! b; sum_opt weigh (block_parts blk).

Definition weigh_in_block (n : nat) (weigh : ExprId → option Z) (p : Part) : option Z :=
  match p with
  | PExpr e => weigh e
  | PPat p => if pat_fits n p then Some 0 else None
  | _ => None
  end.

Definition weigh_part (n : nat) (weigh : ExprId → option Z) (p : Part) : option Z :=
  match p with
  | PBlock b => weigh_block (weigh_in_block n weigh) b
  | PLoop b => w ← weigh_block (weigh_in_block n weigh) b; Some (17 * w)
  | p => weigh_in_block n weigh p
  end.

Fixpoint weight (n : nat) (eid : ExprId) : option Z :=
  match n with
  | O => None
  | S n => e ← exprs pkg !! eid; w ← sum_opt (weigh_part n (weight n)) (parts e); Some (2 + w)
  end.

(** The weight of a body. *)
Definition body_weight (n : nat) (b : BlockId) : option Z := weigh_part n (weight n) (PBlock b).

Lemma sum_opt_cons {A} (f : A → option Z) x xs w :
  sum_opt f (x :: xs) = Some w → ∃ a b, f x = Some a ∧ sum_opt f xs = Some b ∧ w = a + b.
Proof.
  simpl. destruct (f x) as [a|]; [|done]. destruct (sum_opt f xs) as [b|]; [|done].
  intros [= <-]. by exists a, b.
Qed.

Lemma sum_opt_app {A} (f : A → option Z) xs ys w :
  sum_opt f (xs ++ ys) = Some w → ∃ a b, sum_opt f xs = Some a ∧ sum_opt f ys = Some b ∧ w = a + b.
Proof.
  revert w. induction xs as [|x xs IH]; intros w H; [by exists 0, w|].
  change ((x :: xs) ++ ys) with (x :: (xs ++ ys)) in H.
  apply sum_opt_cons in H as (a & b & Ha & (b1 & b2 & H1 & H2 & ->)%IH & ->).
  exists (a + b1), b2. split_and!; [|done|lia]. simpl. by rewrite Ha, H1.
Qed.

Lemma sum_opt_map {A B} (f : A → option Z) (g : B → A) xs : sum_opt f (map g xs) = sum_opt (λ x, f (g x)) xs.
Proof. induction xs as [|x xs IH]; [done|]. simpl. by rewrite IH. Qed.

Lemma sum_opt_concat {A} (f : A → option Z) xss w :
  sum_opt f (concat xss) = Some w → sum_opt (sum_opt f) xss = Some w.
Proof.
  revert w. induction xss as [|xs xss IH]; intros w H; [done|]. simpl in *.
  apply sum_opt_app in H as (a & b & Ha & Hb%IH & ->). by rewrite Ha, Hb.
Qed.

Lemma sum_opt_nonneg {A} (f : A → option Z) xs w :
  (∀ x a, f x = Some a → 0 ≤ a) → sum_opt f xs = Some w → 0 ≤ w.
Proof.
  intros Hf. revert w. induction xs as [|x xs IH]; intros w H; [by injection H as <-|].
  apply sum_opt_cons in H as (a & b & Ha%Hf & Hb%IH & ->). lia.
Qed.

Lemma weigh_part_nonneg n weigh p w :
  (∀ e a, weigh e = Some a → 0 ≤ a) → weigh_part n weigh p = Some w → 0 ≤ w.
Proof.
  intros Hw. assert (∀ p a, weigh_in_block n weigh p = Some a → 0 ≤ a) as Hin.
  { intros [e|b|b|q] a; simpl; [apply Hw|done|done|]. by case_match; intros [= <-]. }
  assert (∀ b a, weigh_block (weigh_in_block n weigh) b = Some a → 0 ≤ a) as Hb.
  { intros b a. unfold weigh_block. destruct (blocks pkg !! b); [|done]. by apply sum_opt_nonneg. }
  destruct p as [e|b|b|q]; simpl; [apply Hw|apply Hb| |by apply (Hin (PPat q))].
  destruct (weigh_block _ b) as [a|] eqn:E; [|done]. apply Hb in E. intros [= <-]. lia.
Qed.

Lemma weigh_elem {A} (f : A → option Z) xs x w :
  (∀ x a, f x = Some a → 0 ≤ a) → x ∈ xs → sum_opt f xs = Some w → ∃ a, f x = Some a ∧ a ≤ w.
Proof.
  intros Hf Hx. revert w. induction Hx as [|x y xs Hx IH]; intros w (a & b & Ha & Hb & ->)%sum_opt_cons.
  - exists a. split; [done|]. apply sum_opt_nonneg in Hb; [lia|done].
  - destruct (IH b Hb) as (d & Hd & Hle). exists d. split; [done|]. apply Hf in Ha. lia.
Qed.

Lemma weight_inv n e w :
  weight (S n) e = Some w →
  ∃ x v, exprs pkg !! e = Some x ∧ sum_opt (weigh_part n (weight n)) (parts x) = Some v ∧ w = 2 + v.
Proof.
  simpl. destruct (exprs pkg !! e) as [x|]; [|done]. simpl.
  destruct (sum_opt _ (parts x)) as [v|] eqn:E; [|done]. intros [= <-]. by exists x, v.
Qed.

Lemma weight_pos n e w : weight n e = Some w → 0 < w.
Proof.
  revert e w. induction n as [|n IH]; intros e w; [done|]. simpl.
  destruct (exprs pkg !! e); [|done]. simpl. destruct (sum_opt _ _) as [a|] eqn:E; [|done].
  intros [= <-]. apply sum_opt_nonneg in E; [lia|]. intros p b. apply weigh_part_nonneg.
  intros e' b' H%IH. lia.
Qed.

Lemma weigh_nonneg n p w : weigh_part n (weight n) p = Some w → 0 ≤ w.
Proof. apply weigh_part_nonneg. intros e a H%weight_pos. lia. Qed.

Lemma sum_opt_mono {A} (f g : A → option Z) xs w :
  (∀ x a, f x = Some a → g x = Some a) → sum_opt f xs = Some w → sum_opt g xs = Some w.
Proof.
  intros H. revert w. induction xs as [|x xs IH]; intros w Hw; [done|].
  apply sum_opt_cons in Hw as (a & b & Ha%H & Hb%IH & ->). simpl. by rewrite Ha, Hb.
Qed.

Lemma pat_fits_mono n p : pat_fits n p = true → pat_fits (S n) p = true.
Proof.
  revert p. induction n as [|n IH]; intros p H; [done|]. simpl in H |- *.
  destruct (pats pkg !! p) as [q|]; [|done]. rewrite forallb_forall in H |- *. intros x Hx.
  by apply (IH x), H.
Qed.

Lemma weigh_part_mono n f g p a :
  (∀ e w, f e = Some w → g e = Some w) → weigh_part n f p = Some a → weigh_part (S n) g p = Some a.
Proof.
  intros Hfg.
  assert (∀ p a, weigh_in_block n f p = Some a → weigh_in_block (S n) g p = Some a) as Hin.
  { intros [e|b|b|q] w; cbn [weigh_in_block]; [apply Hfg|done|done|].
    destruct (pat_fits n q) eqn:E; [|done]. by rewrite (pat_fits_mono _ _ E). }
  assert (∀ b a, weigh_block (weigh_in_block n f) b = Some a →
    weigh_block (weigh_in_block (S n) g) b = Some a) as Hb.
  { intros b w. unfold weigh_block. destruct (blocks pkg !! b); [|done]. by apply sum_opt_mono. }
  destruct p as [e|b|b|q]; cbn [weigh_part]; [apply (Hin (PExpr e))|apply Hb| |apply (Hin (PPat q))].
  destruct (weigh_block (weigh_in_block n f) b) as [w|] eqn:E; [|done]. by rewrite (Hb _ _ E).
Qed.

(** More fuel gives the same weight. *)
Lemma weight_mono n e w : weight n e = Some w → weight (S n) e = Some w.
Proof.
  revert e w. induction n as [|n IH]; intros e w H; [done|].
  apply weight_inv in H as (x & v & Hx & Hv & ->). remember (S n) as m eqn:Em. simpl. rewrite Hx. simpl. subst m.
  rewrite (sum_opt_mono (weigh_part n (weight n)) (weigh_part (S n) (weight (S n))) _ v); [done| |done].
  intros p a. by apply weigh_part_mono.
Qed.

(** The nodes below an expression have smaller weights. *)
Lemma weight_below n e w x e' :
  weight (S n) e = Some w → exprs pkg !! e = Some x → PExpr e' ∈ parts x →
  ∃ w', weight n e' = Some w' ∧ w' ≤ w - 2.
Proof.
  intros (y & v & Hy & Hv & ->)%weight_inv Hx He'. simplify_eq.
  destruct (weigh_elem _ _ _ _ (weigh_nonneg n) He' Hv) as (a & Ha & Hle). exists a. split; [done|lia].
Qed.

End Weights.

(** ** What a walk uses *)

Definition counts_le (B : Z) (ls : gmap string LocalState) : Prop :=
  map_Forall (λ _ l, match ls_state l with Borrowed n => n ≤ B | _ => True end) ls.

Definition tail_kept (s s' : list ScopeFrame) : Prop :=
  match s with [] => s' = [] | _ :: r => ∃ f, s' = f :: r end.

Section Costs.
Context (A : TyArena) (HA : arena_ok A).

Definition locals_typed (ls : gmap string LocalState) : Prop := map_Forall (λ _ l, is_Some (get A (ls_ty l))) ls.

(** What happens to a context within [k] units. *)
Record used (k : Z) (c c' : BorrowCx) : Prop := {
  us_point : current_point c' ≤ current_point c + k;
  us_arenas : arenas c' ≤ arenas c + k;
  us_ledger : grew k (ledger c) (ledger c');
  us_counts B : Z.of_nat (length (ledger c)) ≤ B → counts_le B (cx_locals c) → counts_le (B + k) (cx_locals c');
  us_typed : locals_typed (cx_locals c) → locals_typed (cx_locals c');
  us_scopes : tail_kept (scopes c) (scopes c')
}.

Record room_for (B k : Z) (c : BorrowCx) : Prop := {
  rf_nonneg : 0 ≤ k;
  rf_bound : B + k < 2 ^ 32;
  rf_point : current_point c + k < 2 ^ 32;
  rf_arenas : arenas c + k < 2 ^ 32;
  rf_ledger : Z.of_nat (length (ledger c)) ≤ B;
  rf_counts : counts_le B (cx_locals c);
  rf_typed : locals_typed (cx_locals c)
}.

Definition room (k : Z) (c : BorrowCx) : Prop := ∃ B, room_for B k c.

Definition costs {R} (k : Z) (m : ST BorrowCx R) : Prop := ∀ c, room k c → leads m c (λ _ c', used k c c').

Lemma counts_le_mono B B' ls : B ≤ B' → counts_le B ls → counts_le B' ls.
Proof. intros Hle H x l Hx. specialize (H x l Hx). simpl in *. case_match; lia || done. Qed.

Lemma tail_kept_refl s : tail_kept s s.
Proof. destruct s; [done|]. by eexists. Qed.

Lemma tail_kept_trans s1 s2 s3 : tail_kept s1 s2 → tail_kept s2 s3 → tail_kept s1 s3.
Proof. destruct s1; simpl; [by intros ->|]. by intros [f ->]. Qed.

Lemma used_refl c : used 0 c c.
Proof.
  split; try lia; try done; [apply grew_refl| |apply tail_kept_refl].
  intros B _ H. by rewrite Z.add_0_r.
Qed.

Lemma used_mono j k c c' : j ≤ k → used j c c' → used k c c'.
Proof.
  intros Hle [H1 H2 H3 H4 H5 H6]. split; try lia; try done; [by eapply grew_mono|].
  intros B HB HC. eapply counts_le_mono; [|by apply H4]. lia.
Qed.

Lemma used_trans j k c1 c2 c3 : used j c1 c2 → used k c2 c3 → used (j + k) c1 c3.
Proof.
  intros [H1 H2 H3 H4 H5 H6] [G1 G2 G3 G4 G5 G6]. split; try lia.
  - by eapply grew_trans.
  - intros B HB HC. rewrite Z.add_assoc. apply G4; [|by apply H4]. apply grew_length in H3. lia.
  - auto.
  - by eapply tail_kept_trans.
Qed.

Lemma room_mono j k c : 0 ≤ j ≤ k → room k c → room j c.
Proof. intros Hle [B [H1 H2 H3 H4 H5 H6 H7]]. exists B. split; try lia; done. Qed.

Lemma room_used j k c c' : 0 ≤ k → room (j + k) c → used j c c' → room k c'.
Proof.
  intros Hk [B [H1 H2 H3 H4 H5 H6 H7]] [G1 G2 G3 G4 G5 G6]. exists (B + j).
  split; try lia; [apply grew_length in G3; lia|by apply G4|by apply G5].
Qed.

(** ** Rules *)

Lemma costs_mono {R} j k (m : ST BorrowCx R) : 0 ≤ j ≤ k → costs j m → costs k m.
Proof.
  intros Hle Hm c Hc. eapply leads_mono; [apply Hm; by eapply room_mono|].
  intros ? c' Hu. simpl in Hu. eapply used_mono; [|done]. lia.
Qed.

Lemma costs_bind {R T} j k (m : ST BorrowCx R) (f : R → ST BorrowCx T) :
  0 ≤ j → 0 ≤ k → costs j m → (∀ r, costs k (f r)) → costs (j + k) (m ≫= f).
Proof.
  intros Hj Hk Hm Hf c Hc. apply leads_bind.
  eapply leads_mono; [apply Hm; eapply room_mono, Hc; lia|]. intros r c' Hu. simpl in Hu.
  eapply leads_mono; [apply Hf; by eapply room_used|]. intros ? c'' Hu'. simpl in Hu'. by eapply used_trans.
Qed.

(** An action that costs nothing first, or last. *)
Lemma costs_bind_l {R T} k (m : ST BorrowCx R) (f : R → ST BorrowCx T) :
  0 ≤ k → costs 0 m → (∀ r, costs k (f r)) → costs k (m ≫= f).
Proof. intros Hk Hm Hf. by apply (costs_bind 0 k). Qed.

Lemma costs_bind_r {R T} k (m : ST BorrowCx R) (f : R → ST BorrowCx T) :
  0 ≤ k → costs k m → (∀ r, costs 0 (f r)) → costs k (m ≫= f).
Proof. intros Hk Hm Hf. rewrite <- (Z.add_0_r k). by apply costs_bind. Qed.

Lemma costs_ret {R} (r : R) : costs 0 (mret r).
Proof. intros c _. apply used_refl. Qed.

Lemma costs_void {R} k (m : ST BorrowCx R) : 0 ≤ k → costs k m → costs k (void m).
Proof. intros Hk Hm. apply costs_bind_r; [done|done|]. intros _. apply costs_ret. Qed.

Lemma costs_lift {R T} k (o : option R) (f : R → ST BorrowCx T) :
  is_Some o → (∀ r, o = Some r → costs k (f r)) → costs k (lift o ≫= f).
Proof. intros [r ->] Hf c Hc. by apply (Hf r). Qed.

Lemma costs_gets {R T} k (g : BorrowCx → R) (f : R → ST BorrowCx T) :
  (∀ c, room k c → leads (f (g c)) c (λ _ c', used k c c')) → costs k (gets g ≫= f).
Proof. intros H c Hc. by apply H. Qed.

Lemma costs_when_some {R} k (o : option R) (f : R → ST BorrowCx unit) :
  0 ≤ k → (∀ r, o = Some r → costs k (f r)) → costs k (when_some o f).
Proof.
  intros Hk Hf. destruct o as [r|]; [by apply Hf|]. apply (costs_mono 0); [lia|apply costs_ret].
Qed.

(** The elements' weights bound a loop over them. *)
Lemma costs_each {R} (g : R → option Z) (f : R → ST BorrowCx unit) xs w :
  sum_opt g xs = Some w → (∀ x a, x ∈ xs → g x = Some a → 0 ≤ a ∧ costs a (f x)) → 0 ≤ w ∧ costs w (each f xs).
Proof.
  revert w. induction xs as [|x xs IH]; intros w Hw Hf.
  { injection Hw as <-. split; [done|apply costs_ret]. }
  apply sum_opt_cons in Hw as (a & b & Ha & Hb & ->).
  destruct (Hf x a) as [Ha0 Hx]; [constructor|done|].
  destruct (IH b Hb) as [Hb0 Hxs]; [intros y d Hy; apply Hf; by constructor|].
  split; [lia|]. simpl. by apply costs_bind.
Qed.

Lemma costs_each_from {R} (g : R → option Z) (f : nat → R → ST BorrowCx unit) i xs w :
  sum_opt g xs = Some w → (∀ i x a, x ∈ xs → g x = Some a → 0 ≤ a ∧ costs a (f i x)) →
  0 ≤ w ∧ costs w (each_from f i xs).
Proof.
  revert i w. induction xs as [|x xs IH]; intros i w Hw Hf.
  { injection Hw as <-. split; [done|apply costs_ret]. }
  apply sum_opt_cons in Hw as (a & b & Ha & Hb & ->).
  destruct (Hf i x a) as [Ha0 Hx]; [constructor|done|].
  destruct (IH (S i) b Hb) as [Hb0 Hxs]; [intros j y d Hy; apply Hf; by constructor|].
  split; [lia|]. simpl. by apply costs_bind.
Qed.

Lemma costs_each_free {R} (f : R → ST BorrowCx unit) xs : (∀ x, x ∈ xs → costs 0 (f x)) → costs 0 (each f xs).
Proof.
  intros Hf. destruct (costs_each (λ _, Some 0) f xs 0) as [_ H]; [|..|done].
  - clear. induction xs as [|x xs IH]; [done|]. simpl. by rewrite IH.
  - intros x a Hx [= <-]. split; [done|by apply Hf].
Qed.

(** ** The operations on a context *)

Lemma used_set_locals k c ls :
  0 ≤ k →
  (∀ B, Z.of_nat (length (ledger c)) ≤ B → counts_le B (cx_locals c) → counts_le (B + k) ls) →
  (locals_typed (cx_locals c) → locals_typed ls) → used k c (set_locals ls c).
Proof.
  intros Hk HC HT. split; simpl; try lia; try done; [|apply tail_kept_refl].
  eapply grew_mono, grew_refl. lia.
Qed.

Lemma used_set_ledger k c l : 0 ≤ k → grew k (ledger c) l → used k c (set_ledger l c).
Proof.
  intros Hk Hg. split; simpl; try lia; try done; [|apply tail_kept_refl].
  intros B _. apply counts_le_mono. lia.
Qed.

Lemma costs_modify (f : BorrowCx → BorrowCx) : (∀ c, used 0 c (f c)) → costs 0 (modify f).
Proof. intros H c _. apply H. Qed.

Lemma costs_push_diag d : costs 0 (push_diag d).
Proof. apply costs_modify. intros c. destruct (used_refl c). by split. Qed.

(** A local put in place of one, or new. *)
Lemma used_put k c x l :
  0 ≤ k → is_Some (get A (ls_ty l)) →
  (∀ B, Z.of_nat (length (ledger c)) ≤ B → counts_le B (cx_locals c) →
     match ls_state l with Borrowed n => n ≤ B + k | _ => True end) →
  used k c (set_locals (<[x := l]> (cx_locals c)) c).
Proof.
  intros Hk Ht Hc. apply used_set_locals; [done| |].
  - intros B HB HC. apply map_Forall_insert_2; [by apply Hc|]. eapply counts_le_mono; [|done]. lia.
  - intros HT. by apply map_Forall_insert_2.
Qed.

Lemma count_shared_le x l : 0 ≤ count_shared x l ≤ Z.of_nat (length l).
Proof. unfold count_shared. pose proof (List.filter_length_le
  (λ r, bool_decide (root (rec_place r) = x) && bool_decide (rec_kind r = Shared)) l). lia. Qed.

Lemma costs_recompute x : costs 0 (recompute_root_state x).
Proof.
  intros c [B HB]. destruct HB as [H1 H2 H3 H4 H5 H6 H7]. unfold recompute_root_state, leads.
  pose proof (count_shared_le x (ledger c)) as Hs. rewrite bool_decide_eq_true_2 by lia.
  apply used_set_locals; [done| |].
  - intros B' HB' HC y l. rewrite Z.add_0_r. intros [(<- & l' & Hl & ->)|[_ Hl]]%lookup_alter_Some.
    + specialize (HC x l' Hl). unfold recomputed. simpl in HC.
      destruct (ls_state l') eqn:E; simpl; rewrite ?E; try done; repeat case_match; simplify_eq/=; try done; lia.
    + by apply (HC y l).
  - intros HT y l. intros [(<- & l' & Hl & ->)|[_ Hl]]%lookup_alter_Some; [|by apply (HT y l)].
    specialize (HT x l' Hl). unfold recomputed. by repeat case_match.
Qed.

Lemma costs_recomputes rs : costs 0 (each (λ r, recompute_root_state (root (rec_place r))) rs).
Proof. apply costs_each_free. intros r _. apply costs_recompute. Qed.

(** [decay] and the recomputation of the roots of what was removed. *)
Lemma costs_decayed (f : BorrowLedger → list BorrowRecord * BorrowLedger) :
  (∀ l, grew 0 l (f l).2) →
  costs 0 (l ← gets ledger;
           let '(removed, kept) := f l in
           modify (set_ledger kept) ≫= λ _,
           each (λ r, recompute_root_state (root (rec_place r))) removed).
Proof.
  intros Hf. apply costs_gets. intros c Hc. specialize (Hf (ledger c)). cbv beta.
  destruct (f (ledger c)) as [removed kept]. simpl in Hf.
  assert (used 0 c (set_ledger kept c)) as Hu by (by apply used_set_ledger).
  apply leads_modify. eapply leads_mono.
  - apply costs_recomputes. by eapply (room_used 0 0).
  - intros ? c' Hu'. by eapply (used_trans 0 0).
Qed.

Lemma costs_decay x : costs 0 (maybe_decay_after_use x).
Proof.
  apply costs_gets. intros c Hc. apply leads_gets.
  destruct (last_use c !! x); [|apply used_refl]. case_bool_decide; [|apply used_refl].
  apply (costs_decayed (decay_borrower x)); [|done]. intros l. apply grew_filter.
Qed.

Lemma costs_free_if {R} (b : bool) (m1 m2 : ST BorrowCx R) : costs 0 m1 → costs 0 m2 → costs 0 (if b then m1 else m2).
Proof. by destruct b. Qed.

Hint Resolve costs_push_diag costs_ret costs_free_if costs_decay : costs.

Lemma costs_use x sp : costs 0 (do_use x sp).
Proof.
  apply costs_gets. intros c Hc. destruct (ls_state <$> _) as [[]|]; try apply costs_push_diag; try done; apply used_refl.
Qed.

(** Giving a local of the context another state. *)
Lemma used_state c x l o :
  cx_locals c !! x = Some l → (∀ n, o ≠ Borrowed n) → locals_typed (cx_locals c) →
  used 0 c (set_locals (<[x := set_state o l]> (cx_locals c)) c).
Proof.
  intros Hx Ho HT. apply used_put; [done|by apply (HT x l)|]. intros B _ _. simpl. destruct o; naive_solver.
Qed.

Lemma costs_move x sp : costs 0 (do_move x sp).
Proof.
  apply costs_gets. intros c Hc. apply leads_gets.
  destruct (cx_locals c !! x) as [l|] eqn:Hx; [|apply used_refl].
  assert (locals_typed (cx_locals c)) as HT by (by destruct Hc as [B []]).
  destruct (ls_state l).
  2, 5: by apply costs_push_diag.
  2, 3: by apply costs_free_if; [apply costs_push_diag..|].
  apply leads_bind. destruct (subplace_borrowed x (ledger c)); simpl; destruct (ls_is_copy l); simpl.
  - by apply costs_push_diag.
  - unfold put_local. apply (used_trans 0 0 c (set_diag (diag c ++ [move_out_of_borrow x sp]) c)).
    + by apply costs_push_diag.
    + by apply used_state.
  - apply used_refl.
  - by apply used_state.
Qed.

Lemma costs_assign x sp : costs 0 (do_assign x sp).
Proof.
  apply costs_gets. intros c Hc.
  destruct (cx_locals c !! x) as [l|] eqn:Hx; [|apply used_refl].
  assert (locals_typed (cx_locals c)) as HT by (by destruct Hc as [B []]).
  apply leads_bind. destruct (ls_mutable l); simpl.
  - by apply used_state.
  - apply (used_trans 0 0 c (set_diag (diag c ++ [assign_to_immut_local x sp]) c)).
    + by apply costs_push_diag.
    + by apply used_state.
Qed.

Lemma costs_record p k sp : costs 1 (record_borrow p k sp).
Proof.
  intros c Hc. apply leads_modify, leads_gets. simpl.
  set (r := mkRecord p k (pending_borrower c) sp). set (c1 := set_ledger (ledger c ++ [r]) c).
  assert (used 1 c c1) as Hu by (apply used_set_ledger; [lia|apply grew_snoc]).
  destruct Hc as [B [H1 H2 H3 H4 H5 H6 H7]].
  destruct (cx_locals c !! root p) as [l|] eqn:Hx; [|done].
  assert (∃ o, borrowed_state (ls_state l) k = Some o ∧
    ∀ B, 0 ≤ B → counts_le B (cx_locals c) → match o with Borrowed n => n ≤ B + 1 | _ => True end) as (o & Ho & Hn).
  { pose proof (H6 (root p) l Hx) as Hl. simpl in Hl.
    assert (∀ B, 0 ≤ B → counts_le B (cx_locals c) → match ls_state l with Borrowed n => n ≤ B + 1 | _ => True end) as Hl'.
    { intros B' HB' HC. specialize (HC (root p) l Hx). simpl in HC. case_match; lia || done. }
    destruct (ls_state l) as [| |n| |] eqn:E, k; simpl; 
      try (eexists; split; [done|intros B' HB' HC; simpl; done || lia || by apply Hl']).
    unfold succ_u32. rewrite bool_decide_eq_true_2 by lia. eexists. split; [done|].
    intros B' _ HC. specialize (HC (root p) l Hx). simpl in HC. rewrite E in HC. simpl. lia. }
  eapply leads_lift; [exact Ho|].
  split; simpl; try lia; [apply grew_snoc| |by intros HT; apply map_Forall_insert_2; [apply (H7 _ _ Hx)|]|apply tail_kept_refl].
  intros B' HB' HC. apply map_Forall_insert_2; [simpl; apply Hn; [lia|done]|]. eapply counts_le_mono; [|done]. lia.
Qed.

Lemma costs_place_borrow p k sp : costs 1 (try_place_borrow p k sp).
Proof.
  apply costs_gets. intros c Hc. revert c Hc.
  assert (∀ st, costs 1
    ((match k, st with
      | Mut, Some s => if ls_mutable s then mret () else push_diag (mut_borrow_of_immut_local (root p) sp)
      | _, _ => mret ()
      end) ≫= λ _,
     match ls_state <$> st with
     | Some (Moved at_) => push_diag (borrow_after_move (root p) sp at_)
     | Some Uninit => push_diag (use_of_uninitialized (root p) sp)
     | _ => l ← gets ledger; when_some (borrow_conflict p k sp l) push_diag ≫= λ _, record_borrow p k sp
     end)) as Hall; [|intros c; apply Hall].
  intros st. apply costs_bind_l; [lia| |intros _].
  { destruct k, st; try apply costs_ret. auto with costs. }
  assert (∀ d, costs 1 (push_diag d)) as Hd.
  { intros d. apply (costs_mono 0); [lia|apply costs_push_diag]. }
  assert (costs 1 (l ← gets ledger; when_some (borrow_conflict p k sp l) push_diag ≫= λ _, record_borrow p k sp)) as Hr.
  { apply costs_gets. intros c. apply costs_bind_l; [lia| |intros _; apply costs_record].
    apply costs_when_some; [lia|]. intros d _. apply costs_push_diag. }
  destruct (ls_state <$> st) as [[]|]; auto.
Qed.

Lemma costs_borrow typed k x sp : ty_arena typed = A → costs 1 (do_borrow typed k x sp).
Proof.
  intros Ht c Hc. apply leads_bind. unfold local_is_ref_typed, arena. rewrite Ht. apply leads_gets.
  assert (costs 1 (do_use x sp)) as Hu by (apply (costs_mono 0); [lia|apply costs_use]).
  destruct (cx_locals c !! x) as [l|] eqn:Hx; [|by apply costs_place_borrow].
  destruct Hc as [B HB]. destruct (rf_typed _ _ _ HB x l Hx) as [t Hget].
  eapply leads_lift; [exact Hget|].
  destruct t; simpl; (apply Hu || apply costs_place_borrow); by exists B.
Qed.

Lemma costs_advance : costs 1 advance_point.
Proof.
  intros c [B [H1 H2 H3 H4 H5 H6 H7]]. unfold advance_point, succ_u32, leads.
  rewrite bool_decide_eq_true_2 by lia. simpl. split; simpl; try lia; try done; [|..|apply tail_kept_refl].
  - eapply grew_mono, grew_refl. lia.
  - intros B' _. apply counts_le_mono. lia.
Qed.

(** ** Frames *)

Lemma used_scopes c f rest : scopes c = f :: rest → ∀ g, used 0 c (set_scopes (g :: rest) c).
Proof.
  intros Hs g. destruct (used_refl c). split; try done. simpl. rewrite Hs. by exists g.
Qed.

Lemma costs_depart x : costs 0 (modify (depart x)).
Proof.
  apply costs_modify. intros c. unfold depart.
  split; simpl; try lia; try done; [apply grew_refl|..|apply tail_kept_refl].
  - intros B _ HC. rewrite Z.add_0_r. by apply map_Forall_delete.
  - intros HT. by apply map_Forall_delete.
Qed.

(** What [pop_frame] does after taking the frame off. *)
Definition close_frame (names : list string) : ST BorrowCx unit :=
  modify (λ c, set_diag (diag c ++ outliving names (ledger c)) c) ≫= λ _,
  l ← gets ledger;
  let '(removed, kept) := decay_borrowers names l in
  modify (set_ledger kept) ≫= λ _,
  each (λ r, recompute_root_state (root (rec_place r))) removed ≫= λ _,
  modify (λ c, set_ledger (List.filter (λ r, negb (bool_decide (root (rec_place r) ∈ names))) (ledger c)) c) ≫= λ _,
  each (λ name, modify (depart name)) names.

Lemma pop_frame_close c f rest :
  scopes c = f :: rest → pop_frame c = close_frame (frame_locals f) (set_scopes rest c).
Proof. intros Hs. unfold pop_frame, mbind at 1, ST_bind, gets. by rewrite Hs. Qed.

Lemma costs_close names : costs 0 (close_frame names).
Proof.
  apply costs_bind_l; [done| |intros _].
  { apply costs_modify. intros c. destruct (used_refl c). by split. }
  apply costs_gets. intros c Hc. cbv beta. unfold decay_borrowers. apply leads_modify.
  assert (used 0 c (set_ledger (List.filter (λ r, negb (borrowed_by names r)) (ledger c)) c)) as Hu
    by (apply used_set_ledger; [done|apply grew_filter]).
  eapply leads_mono; [|intros ? c' Hu'; by eapply (used_trans 0 0), Hu'].
  assert (∀ rs, costs 0 (each (λ r, recompute_root_state (root (rec_place r))) rs ≫= λ _,
    modify (λ c, set_ledger (List.filter (λ r, negb (bool_decide (root (rec_place r) ∈ names))) (ledger c)) c) ≫= λ _,
    each (λ name, modify (depart name)) names)) as Hrest.
  { intros rs. apply costs_bind_l; [done|apply costs_recomputes|intros _].
    apply costs_bind_l; [done| |intros _].
    - apply costs_modify. intros c'. apply used_set_ledger; [done|apply grew_filter].
    - apply costs_each_free. intros x _. apply costs_depart. }
  apply Hrest. by eapply (room_used 0 0).
Qed.

(** A frame pushed, filled and popped. *)
Lemma costs_framed {R} k rg (m : ST BorrowCx R) :
  0 ≤ k → costs k m → costs k (push_frame rg ≫= λ _, m ≫= λ _, pop_frame).
Proof.
  intros Hk Hm c Hc. apply leads_modify, leads_bind. set (c1 := set_scopes (mkFrame [] rg :: scopes c) c).
  eapply leads_mono.
  { apply Hm. destruct Hc as [B []]. by exists B. }
  intros ? c' Hu. simpl in Hu. destruct (us_scopes _ _ _ Hu) as [f Hf].
  unfold leads. rewrite (pop_frame_close _ _ _ Hf).
  assert (used k c (set_scopes (scopes c) c')) as Hu1.
  { destruct Hu as [H1 H2 H3 H4 H5 _]. split; try done. apply tail_kept_refl. }
  assert (room 0 (set_scopes (scopes c) c')) as Hr by (eapply (room_used k 0), Hu1; [done|by rewrite Z.add_0_r]).
  eapply leads_mono; [exact (costs_close _ _ Hr)|]. intros ? c'' Hu2. rewrite <- (Z.add_0_r k). by eapply used_trans.
Qed.

(** The same actions, grouped the other way. *)
Lemma costs_assoc {R S T} k (m : ST BorrowCx R) (f : R → ST BorrowCx S) (g : S → ST BorrowCx T) :
  costs k ((m ≫= f) ≫= g) → costs k (m ≫= λ r, f r ≫= g).
Proof.
  intros H c Hc. specialize (H c Hc). unfold leads, mbind, ST_bind in *. by destruct (m c) as [[r c']|].
Qed.

(** ** Bindings *)

Section Typed.
Context (typed : TypedPackage) (Htyped : ty_arena typed = A).
Hypothesis Hunit : is_Some (get A (unit_ty typed)).

Lemma costs_bind_local x ty sp m o :
  is_Some (get A ty) → (∀ n, o ≠ Borrowed n) → costs 0 (bind_local_with_state typed x ty sp m o).
Proof.
  intros Ht Ho. unfold bind_local_with_state, arena. rewrite Htyped.
  apply costs_lift; [by apply is_copy_total|]. intros b _. apply costs_gets. intros c Hc.
  apply leads_modify. set (c1 := set_locals _ c).
  assert (used 0 c c1) as Hu by (apply used_put; [done|done|]; intros B _ _; simpl; destruct o; naive_solver).
  eapply (used_trans 0 0 _ _ _ Hu). destruct (scopes c1) as [|f rest] eqn:E; [apply used_refl|].
  by eapply used_scopes.
Qed.

Lemma get_parts ty t x : get A ty = Some t → x ∈ children t → is_Some (get A x).
Proof. intros Ht Hx. by eapply child_some. Qed.

Lemma costs_bind_pattern pkg n pid ty m o :
  pat_fits pkg n pid = true → is_Some (get A ty) → (∀ k, o ≠ Borrowed k) →
  costs 0 (bind_pattern_inner_mut typed pkg n pid ty m o).
Proof.
  revert pid ty. induction n as [|n IH]; intros pid ty Hfit Ht Ho; [done|]. simpl in *.
  destruct (pats pkg !! pid) as [p|] eqn:Hp; [|done].
  rewrite forallb_forall in Hfit. setoid_rewrite <- list_elem_of_In in Hfit.
  assert (∀ q t, q ∈ pat_children p → is_Some (get A t) → costs 0 (bind_pattern_inner_mut typed pkg n q t m o)) as Hc.
  { intros q t Hq Ht'. apply IH; auto. }
  apply costs_lift; [done|]. intros ? [= <-].
  destruct p as [|l|x sub|rm inner|xs|path fields|path args|lo hi incl]; try apply costs_ret; simpl in Hc.
  - apply costs_bind_l; [done|by apply costs_bind_local|intros _].
    apply costs_when_some; [done|]. intros s ->. apply Hc; [constructor|done].
  - unfold arena. rewrite Htyped. apply costs_lift; [done|]. intros t Hget. cbv zeta.
    apply Hc; [constructor|]. destruct t; try done. eapply get_parts; [done|constructor].
  - unfold arena. rewrite Htyped. apply costs_lift; [done|]. intros t Hget.
    set (ps := match t with TTuple ps => ps | _ => _ end).
    assert (∀ i, is_Some (get A (default (unit_ty typed) (ps !! i)))) as Hps.
    { intros i. destruct (ps !! i) as [x|] eqn:Hi; [|done]. simpl.
      destruct t; try (apply lookup_replicate in Hi as [-> _]; done).
      eapply get_parts; [done|]. simpl. by eapply list_elem_of_lookup_2. }
    eapply proj2, (costs_each_from (λ _, Some 0)).
    + clear. induction xs as [|x xs IH]; [done|]. simpl. by rewrite IH.
    + intros i q a Hq [= <-]. split; [done|]. by apply Hc.
  - apply costs_each_free. intros [x [s|]] Hx; simpl; [|by apply costs_bind_local].
    apply Hc; [|done]. apply list_elem_of_omap. by exists (x, Some s).
  - apply costs_each_free. intros s Hs. by apply Hc.
Qed.

End Typed.

(** ** The walk *)

Lemma costs_ext {R} k (m m' : ST BorrowCx R) : (∀ c, m c = m' c) → costs k m' → costs k m.
Proof. intros He H c Hc. unfold leads. rewrite He. by apply H. Qed.

Section Names.
Context (pkg : Package).

Lemma place_total n ls e w : weight pkg n e = Some w → is_Some (expr_as_place pkg n ls e).
Proof.
  revert e w. induction n as [|n IH]; intros e w Hw; [done|].
  pose proof Hw as (x & v & Hx & _ & _)%weight_inv. simpl. rewrite Hx. simpl.
  assert (∀ e', PExpr e' ∈ parts x → is_Some (expr_as_place pkg n ls e')) as Hsub.
  { intros e' He'. destruct (weight_below _ _ _ _ _ _ Hw Hx He') as (w' & Hw' & _). by eapply IH. }
  destruct x; try by eexists.
  - destruct (Hsub receiver) as [r ->]; [constructor|]. by eexists.
  - destruct (Hsub receiver) as [r ->]; [constructor|]. by eexists.
  - destruct op; try by eexists. destruct (Hsub rhs) as [r ->]; [constructor|]. by eexists.
Qed.

Lemma pretty_total n e w : weight pkg n e = Some w → is_Some (expr_pretty_name pkg n e).
Proof.
  revert e w. induction n as [|n IH]; intros e w Hw; [done|].
  pose proof Hw as (x & v & Hx & _ & _)%weight_inv. simpl. rewrite Hx. simpl.
  destruct x; try by eexists.
  destruct (weight_below _ _ _ _ _ receiver Hw Hx) as (w' & Hw' & _); [constructor|].
  destruct (IH _ _ Hw') as [r ->]. by eexists.
Qed.

Lemma costs_path_read x : costs 2 (advance_point ≫= λ _, maybe_decay_after_use x).
Proof.
  apply (costs_mono 1); [lia|]. apply costs_bind_r; [lia|apply costs_advance|intros _; apply costs_decay].
Qed.

Lemma costs_points n e w : weight pkg n e = Some w → costs w (walk_for_points_only pkg n e).
Proof.
  revert e w. induction n as [|n IH]; intros e w Hw; [done|].
  pose proof Hw as (x & v & Hx & Hv & ->)%weight_inv.
  pose proof (sum_opt_nonneg _ _ _ (weigh_nonneg pkg n) Hv) as Hv0. simpl. apply costs_lift; [by rewrite Hx|].
  intros ? [= <-]%(eq_trans (eq_sym Hx)). clear Hx Hw.
  assert (costs (2 + v) (mret ())) as Hret by (apply (costs_mono 0); [lia|apply costs_ret]).
  assert (∀ y, costs (2 + v) (advance_point ≫= λ _, maybe_decay_after_use y)) as Hread.
  { intros y. apply (costs_mono 2); [lia|apply costs_path_read]. }
  destruct x; try done; simpl in Hv.
  - destruct segs; [done|apply Hread].
  - apply (costs_mono v); [lia|]. destruct (weight pkg n receiver) eqn:E; [|done].
    injection Hv as <-. rewrite Z.add_0_r. by apply IH.
  - apply (costs_mono v); [lia|]. destruct (weight pkg n receiver) eqn:E; [|done]. simpl in Hv.
    destruct (weight pkg n idx) eqn:E'; [|done]. injection Hv as <-. rewrite Z.add_0_r.
    pose proof (weight_pos _ _ _ _ E). pose proof (weight_pos _ _ _ _ E').
    apply costs_bind; [lia|lia|by apply IH|intros _; by apply IH].
  - apply (costs_mono v); [lia|]. destruct (weight pkg n rhs) eqn:E; [|done].
    injection Hv as <-. rewrite Z.add_0_r. by apply IH.
  - destruct segments; [done|apply Hread].
Qed.

End Names.

End Costs.
