(* ===== verification/BorrowWalkTotal.v ===== *)
(** * The walk returns: every case of [walk_expr]

    A package whose tables are in range ([typed_ok]) and a body that has a
    weight: the walk, the pre-pass and [run] return ([BorrowTotal.costs]). *)

From stdpp Require Import base list strings numbers gmap sets.
From S2P Require Import Prelude StateM TyArena Infer Hir BorrowState BorrowFlow BorrowTotal.

Local Open Scope Z_scope.
Notation length := List.length (only parsing).

(** Every type the side tables mention is in the arena. *)
Record typed_ok (typed : TypedPackage) : Prop := {
  to_arena : arena_ok (ty_arena typed);
  to_unit : is_Some (get (ty_arena typed) (unit_ty typed));
  to_exprs : map_Forall (λ _ t, is_Some (get (ty_arena typed) t)) (expr_ty typed);
  to_params : map_Forall (λ _ ps, Forall (λ p, is_Some (get (ty_arena typed) p.2)) ps) (fn_param_tys typed);
  to_fields : fields_typed (ty_arena typed) (def_map typed)
}.

Section Walk.
Context (typed : TypedPackage) (pkg : Package) (Hok : typed_ok typed).
Notation A := (ty_arena typed).
Notation costs := (costs A).
Let HA : arena_ok A := to_arena typed Hok.

Lemma type_of_ok e : is_Some (get A (type_of typed e)).
Proof.
  unfold type_of. destruct (expr_ty typed !! e) as [t|] eqn:E; [by apply (to_exprs typed Hok e)|].
  apply (to_unit typed Hok).
Qed.

Section Cases.
Context (n : nat) (walk : ExprId → Position → ST BorrowCx (option string)).
Hypothesis Hwalk : ∀ e w pos, weight pkg n e = Some w → costs w (walk e pos).
Notation weigh := (weigh_part pkg n (weight pkg n)).
Notation weigh_in := (weigh_in_block pkg n (weight pkg n)).

Lemma weigh_in_nonneg p w : weigh_in p = Some w → 0 ≤ w.
Proof. intros H. apply (weigh_nonneg pkg n p). by destruct p. Qed.

Lemma costs_use_expr e w : weight pkg n e = Some w → 0 ≤ w ∧ costs w (use walk e).
Proof.
  intros Hw. pose proof (weight_pos _ _ _ _ Hw). split; [lia|]. apply costs_void; [lia|by apply Hwalk].
Qed.

Lemma costs_uses {R} (g : R → ExprId) xs w :
  sum_opt weigh (map (λ x, PExpr (g x)) xs) = Some w → 0 ≤ w ∧ costs w (each (λ x, use walk (g x)) xs).
Proof.
  rewrite sum_opt_map. intros Hw. eapply costs_each; [exact Hw|]. intros x a _. apply costs_use_expr.
Qed.

Lemma costs_opt o w :
  sum_opt weigh (opt_part o) = Some w → 0 ≤ w ∧ costs w (when_some o (use walk)).
Proof.
  destruct o as [e|]; intros Hw; [|injection Hw as <-; split; [done|apply costs_ret]].
  apply sum_opt_cons in Hw as (a & b & Ha & [= <-] & ->). rewrite Z.add_0_r. by apply costs_use_expr.
Qed.

Lemma costs_set_pending o : costs 0 (modify (set_pending o)).
Proof. apply costs_modify. intros c. destruct (used_refl A c). by split. Qed.

Lemma costs_as_borrower k name m : 0 ≤ k → costs k m → costs k (as_borrower name m).
Proof.
  intros Hk Hm. unfold as_borrower. apply costs_gets. intros c Hc.
  assert (costs k (modify (set_pending name) ≫= λ _, m ≫= λ _, modify (set_pending (pending_borrower c)))) as H.
  { apply costs_bind_l; [done|apply costs_set_pending|intros _].
    apply costs_bind_r; [done|done|intros _; apply costs_set_pending]. }
  by apply H.
Qed.

Lemma pat_fits_some pid : pat_fits pkg n pid = true → is_Some (pats pkg !! pid).
Proof. destruct n; [done|]. simpl. by destruct (pats pkg !! pid). Qed.

Lemma weigh_pat pid w : weigh_in (PPat pid) = Some w → pat_fits pkg n pid = true ∧ w = 0.
Proof. simpl. by destruct (pat_fits pkg n pid); intros [= <-]. Qed.

Lemma costs_stmt st w :
  sum_opt weigh_in (stmt_parts st) = Some w → 0 ≤ w ∧ costs w (walk_stmt typed pkg n walk st).
Proof.
  intros Hw. pose proof (sum_opt_nonneg _ _ _ weigh_in_nonneg Hw) as Hw0. split; [done|].
  destruct st as [pid ty init mutable|e]; cbn [stmt_parts walk_stmt] in Hw |- *.
  - apply sum_opt_app in Hw as (a & b & Ha & (p & z & [Hfit ->]%weigh_pat & [= <-] & ->)%sum_opt_cons & ->).
    rewrite !Z.add_0_r in *. apply costs_lift; [destruct (pat_fits_some _ Hfit) as [p Hp]; unfold pattern_single_name; rewrite Hp; by eexists|].
    intros name _. apply costs_bind_r; [done| |intros _].
    + destruct init as [e|]; [|injection Ha as <-; apply costs_ret].
      apply sum_opt_cons in Ha as (x & y & Hx & [= <-] & ->). rewrite Z.add_0_r in *.
      apply costs_as_borrower; [done|]. by apply costs_use_expr.
    + apply costs_bind_pattern; [done|done|apply (to_unit typed Hok)|done| |].
      * destruct init; [apply type_of_ok|apply (to_unit typed Hok)].
      * by destruct init.
  - apply sum_opt_cons in Hw as (x & y & Hx & [= <-] & ->). rewrite Z.add_0_r in *. by apply costs_use_expr.
Qed.

Lemma costs_body b blk w :
  blocks pkg !! b = Some blk → sum_opt weigh_in (block_parts blk) = Some w →
  0 ≤ w ∧ costs w (each (walk_stmt typed pkg n walk) (stmts blk) ≫= λ _, when_some (tail blk) (use walk)).
Proof.
  intros Hb (s & t & Hs%sum_opt_concat & Ht & ->)%sum_opt_app. rewrite sum_opt_map in Hs.
  destruct (costs_each A _ (walk_stmt typed pkg n walk) _ _ Hs) as [Hs0 Hcs].
  { intros st a _. apply costs_stmt. }
  assert (sum_opt weigh (opt_part (tail blk)) = Some t) as Ht' by (by destruct (tail blk)).
  destruct (costs_opt _ _ Ht') as [Ht0 Hct]. split; [lia|]. by apply costs_bind.
Qed.

Lemma costs_block b w :
  weigh (PBlock b) = Some w → 0 ≤ w ∧ costs w (walk_block typed pkg n walk b).
Proof.
  simpl. unfold weigh_block. destruct (blocks pkg !! b) as [blk|] eqn:Hb; [|done]. simpl. intros Hw.
  destruct (costs_body _ _ _ Hb Hw) as [H0 Hc]. split; [done|].
  eapply costs_ext; [|apply (costs_framed (R:=unit) A w None); [done|exact Hc]].
  intros c. unfold walk_block, mbind, ST_bind, push_frame, lift. rewrite Hb. simpl. unfold ST_bind.
  by destruct (each _ _ _) as [[[] c']|].
Qed.

(** ** Loops and branches *)

Lemma counts_le_join B a b : counts_le B a → counts_le B b → counts_le B (join_states a b).
Proof.
  intros Ha Hb x l Hx. rewrite join_states_lookup in Hx. specialize (Ha x). specialize (Hb x).
  destruct (a !! x) as [va|], (b !! x) as [vb|]; [|by apply Ha|by apply Hb|done]. injection Hx as <-.
  specialize (Ha va eq_refl). specialize (Hb vb eq_refl). simpl in *. unfold join_local.
  destruct (ls_state va) eqn:Ea, (ls_state vb) eqn:Eb; simpl; rewrite ?Ea; try done; lia.
Qed.

Lemma locals_typed_join a b : locals_typed A a → locals_typed A b → locals_typed A (join_states a b).
Proof.
  intros Ha Hb x l Hx. rewrite join_states_lookup in Hx. specialize (Ha x). specialize (Hb x).
  destruct (a !! x) as [va|], (b !! x) as [vb|]; [|by apply Ha|by apply Hb|done]. injection Hx as <-.
  destruct (join_local_fields va vb) as (_ & -> & _). by apply Ha.
Qed.

(** The join of what two continuations of one context left, in the second. *)
Lemma used_join j k c c1 c2 ls l :
  0 ≤ j → 0 ≤ k → used A j c c1 → used A k c c2 → current_point c2 ≤ current_point c + (j + k) →
  arenas c2 ≤ arenas c + (j + k) → (ls = join_states (cx_locals c1) (cx_locals c2) ∨ ls = join_states (cx_locals c2) (cx_locals c1)) →
  (l = join_ledgers (ledger c1) (ledger c2) ∨ l = join_ledgers (ledger c2) (ledger c1)) →
  used A (j + k) c (set_ledger l (set_locals ls c2)).
Proof.
  intros Hj Hk [F1 F2 F3 F4 F5 F6] [G1 G2 G3 G4 G5 G6] Hp Har Hls Hl. split; simpl; try done.
  - destruct Hl as [->| ->]; [by apply grew_join|]. rewrite Z.add_comm. by apply grew_join.
  - intros B HB HC.
    assert (counts_le (B + (j + k)) (cx_locals c1)) as H1 by (eapply counts_le_mono; [|by apply F4]; lia).
    assert (counts_le (B + (j + k)) (cx_locals c2)) as H2 by (eapply counts_le_mono; [|by apply G4]; lia).
    destruct Hls as [->| ->]; by apply counts_le_join.
  - intros HT. destruct Hls as [->| ->]; apply locals_typed_join; auto.
Qed.

Lemma costs_loop_rounds w body c0 m prev j c :
  0 ≤ w → costs w body → 0 ≤ j → used A j c0 c → room A (j + (Z.of_nat m + 1) * w) c0 →
  leads (loop_rounds m prev (cx_locals c0) (ledger c0) body) c (λ _ c', used A (j + (Z.of_nat m + 1) * w) c0 c').
Proof.
  intros Hw Hbody. revert prev j c.
  assert (∀ j c, 0 ≤ j → used A j c0 c → room A (j + w) c0 →
    leads (loop_round (cx_locals c0) (ledger c0) body) c (λ _ c', used A (j + w) c0 c')) as Hround.
  { intros j c Hj Hu Hr. apply leads_bind. eapply leads_mono; [apply Hbody; by eapply room_used|].
    intros ? c1 Hu1. simpl in Hu1. pose proof (used_trans _ _ _ _ _ _ Hu Hu1) as Hu2.
    apply leads_modify. unfold leads, modify. rewrite <- (Z.add_0_l (j + w)).
    apply (used_join 0 (j + w) c0 c0 c1); try lia; auto; [apply used_refl|destruct Hu2; lia..]. }
  induction m as [|m IH]; intros prev j c Hj Hu Hr.
  { rewrite Z.add_0_l, Z.mul_1_l in *. by apply Hround. }
  assert (j + (Z.of_nat (S m) + 1) * w = j + w + (Z.of_nat m + 1) * w) as He by lia. rewrite He in *.
  apply leads_bind. eapply leads_mono; [apply Hround; [done|done|eapply room_mono, Hr; nia]|].
  intros ? c1 Hu1. simpl in Hu1. apply leads_gets. case_bool_decide.
  - eapply used_mono, Hu1. nia.
  - apply IH; [lia|done|done].
Qed.

Lemma costs_loop w body : 0 ≤ w → costs w body → costs (17 * w) (loop_fixed_point body).
Proof.
  intros Hw Hbody c Hc. apply leads_gets, leads_gets.
  apply (costs_loop_rounds w body c 16 (length (ledger c)) 0 c); try done. apply used_refl.
Qed.

(** [c] with the counters of [c0]. *)
Definition rebase (c0 c : BorrowCx) : BorrowCx := set_arenas (arenas c0) (set_point (current_point c0) c).

(** [c1] has gone on from the locals and the ledger of [c0]. *)
Lemma used_rebase k c0 c c1 :
  0 ≤ k → tail_kept (scopes c0) (scopes c) →
  used A k (set_ledger (ledger c0) (set_locals (cx_locals c0) c)) c1 → used A k c0 (rebase c0 c1).
Proof.
  intros Hk Ht [F1 F2 F3 F4 F5 F6]. split; simpl in *; try lia; try done. by eapply tail_kept_trans.
Qed.

Lemma room_rebase j k c0 c :
  0 ≤ k → room A (j + k) c0 → current_point c ≤ current_point c0 + j → arenas c ≤ arenas c0 + j → 0 ≤ j →
  room A k (set_ledger (ledger c0) (set_locals (cx_locals c0) c)).
Proof. intros Hk [B []] Hp Ha Hj. exists B. by split; simpl; try lia. Qed.

(** The state after an arm is joined with what the arms before it left. *)
Lemma used_join_arm j k c0 c1 c2 ls l :
  0 ≤ j → 0 ≤ k → used A j c0 c1 → used A k c0 (rebase c0 c2) →
  current_point c2 ≤ current_point c0 + (j + k) → arenas c2 ≤ arenas c0 + (j + k) →
  (ls = join_states (cx_locals c1) (cx_locals c2) ∨ ls = join_states (cx_locals c2) (cx_locals c1)) →
  (l = join_ledgers (ledger c1) (ledger c2) ∨ l = join_ledgers (ledger c2) (ledger c1)) →
  used A (j + k) c0 (set_ledger l (set_locals ls c2)).
Proof.
  intros Hj Hk Hu1 Hu2 Hp Ha Hls Hl.
  assert (used A (j + k) c0 (set_ledger l (set_locals ls (rebase c0 c2)))) as [_ _ H3 H4 H5 H6].
  { apply (used_join j k c0 c1); simpl; auto; lia. }
  by split.
Qed.

Lemma costs_branches j then_ else_ k :
  0 ≤ j → costs j then_ → sum_opt weigh (opt_part else_) = Some k →
  0 ≤ j + k ∧ costs (j + k) (branches walk then_ else_).
Proof.
  intros Hj Hthen Helse. destruct (costs_opt _ _ Helse) as [Hk Hce]. split; [lia|]. intros c Hc.
  apply leads_gets, leads_gets, leads_bind. eapply leads_mono; [apply Hthen; eapply room_mono, Hc; lia|].
  intros ? c1 Hu1. simpl in Hu1. apply leads_gets, leads_gets, leads_modify, leads_modify, leads_bind.
  pose proof Hu1 as [G1 G2 G3 G4 G5 G6].
  eapply leads_mono; [apply Hce, (room_rebase j k c c1); done|]. intros ? c3 Hu3. simpl in Hu3.
  pose proof (us_point _ _ _ _ Hu3). pose proof (us_arenas _ _ _ _ Hu3). simpl in *.
  apply used_rebase in Hu3; [|done|done]. apply leads_modify. unfold leads, modify.
  apply (used_join_arm j k c c1); auto; lia.
Qed.

Lemma costs_with_pattern pid ty w m :
  0 ≤ w → pat_fits pkg n pid = true → is_Some (get A ty) → costs w m →
  costs w (with_pattern typed pkg n pid ty m).
Proof.
  intros Hw Hfit Hty Hm. eapply costs_ext; [|apply (costs_framed (R:=unit) A w None); [done|]].
  - intros c. unfold with_pattern.
    instantiate (1 := bind_pattern typed pkg n pid ty ≫= λ _, m).
    unfold mbind, ST_bind, push_frame, modify. by destruct (bind_pattern _ _ _ _ _ _) as [[[] c']|].
  - apply costs_bind_l; [done| |done]. apply costs_bind_pattern; try done; apply (to_unit typed Hok).
Qed.

Lemma costs_arm ty arm w :
  is_Some (get A ty) → sum_opt weigh (arm_parts arm) = Some w → 0 ≤ w ∧ costs w (walk_arm typed pkg n walk ty arm).
Proof.
  intros Hty (p & z & [Hfit ->]%(weigh_pat _ p) & (g & y & Hg & Hy & ->)%sum_opt_app & ->)%sum_opt_cons.
  apply sum_opt_cons in Hy as (e & ? & He & [= <-] & ->). rewrite !Z.add_0_r, Z.add_0_l.
  destruct (costs_opt _ _ Hg) as [Hg0 Hcg]. destruct (costs_use_expr _ _ He) as [He0 Hce].
  split; [lia|]. apply costs_with_pattern; [lia|done|done|]. by apply costs_bind.
Qed.

Lemma costs_arms ty arms joined w j c0 c :
  is_Some (get A ty) → sum_opt (λ a, sum_opt weigh (arm_parts a)) arms = Some w → 0 ≤ j →
  (let '(ls, l) := default (cx_locals c0, ledger c0) joined in
   used A j c0 (set_ledger l (set_locals ls c))) → room A (j + w) c0 →
  0 ≤ w ∧ leads (walk_arms typed pkg n walk ty (cx_locals c0) (ledger c0) joined arms) c (λ _ c', used A (j + w) c0 c').
Proof.
  intros Hty. revert joined w j c. induction arms as [|arm arms IH]; intros joined w j c Hw Hj Hu Hr.
  { injection Hw as <-. split; [done|]. simpl. rewrite Z.add_0_r.
    by destruct (default (cx_locals c0, ledger c0) joined) as [ls l]. }
  apply sum_opt_cons in Hw as (a & b & Ha & Hb & ->). destruct (costs_arm _ _ _ Hty Ha) as [Ha0 Hca].
  assert (0 ≤ b) as Hb0.
  { eapply sum_opt_nonneg, Hb. intros x y. apply sum_opt_nonneg, (weigh_nonneg pkg n). }
  split; [lia|]. apply leads_modify, leads_modify, leads_bind.
  destruct (default (cx_locals c0, ledger c0) joined) as [ls l] eqn:Ej.
  pose proof (us_point _ _ _ _ Hu) as Hp. pose proof (us_arenas _ _ _ _ Hu) as Har.
  pose proof (us_scopes _ _ _ _ Hu) as Hs. simpl in Hp, Har, Hs.
  eapply leads_mono; [apply Hca, (room_rebase j a c0 c); try done; eapply room_mono, Hr; lia|].
  intros ? c2 Hu2. simpl in Hu2. pose proof (us_point _ _ _ _ Hu2). pose proof (us_arenas _ _ _ _ Hu2).
  simpl in *. apply used_rebase in Hu2; [|done|done].
  apply leads_gets, leads_gets. rewrite (Z.add_assoc j a b).
  apply (IH _ b (j + a) c2); [done|lia| |by rewrite <- Z.add_assoc].
  destruct joined as [[jls jl]|]; simpl in Ej |- *.
  - injection Ej as -> ->. apply (used_join_arm j a c0 (set_ledger l (set_locals ls c)) c2); auto; simpl; lia.
  - destruct Hu2 as [_ _ F3 F4 F5 F6]. split; simpl in *; try lia; try done.
    + eapply grew_mono, F3. lia.
    + intros B HB HC. eapply counts_le_mono; [|by apply F4]. lia.
Qed.

(** ** The cases *)

Notation walks := (λ (k : Z) (m : ST BorrowCx unit), 0 ≤ k ∧ costs k m).

Lemma costs_at x pos : costs 1 (at_position typed x pos).
Proof.
  destruct pos; simpl.
  - apply (costs_mono A 0); [lia|apply costs_use].
  - apply (costs_mono A 0); [lia|apply costs_move].
  - by apply costs_borrow.
  - by apply costs_borrow.
  - apply (costs_mono A 0); [lia|apply costs_assign].
Qed.

Lemma costs_at_field x pos : costs 0 (at_field_position x pos).
Proof.
  destruct pos; simpl; [apply costs_use|apply costs_move|apply costs_use..|].
  apply costs_gets. intros c Hc. destruct (cx_locals c !! x) as [l|]; [|apply used_refl].
  destruct (ls_mutable l); [apply used_refl|by apply costs_push_diag].
Qed.

Lemma costs_path segs pos : costs 2 (walk_path typed segs pos).
Proof.
  destruct segs as [|x fields]; simpl; [apply (costs_mono A 0); [lia|apply costs_ret]|].
  apply (costs_bind A 1 1); [lia|lia|apply costs_advance|intros _].
  apply costs_gets. intros c Hc. revert c Hc.
  assert (∀ b : bool, costs 1
    ((if b then match fields with [] => at_position typed x pos | _ => at_field_position x pos end
      else mret ()) ≫= λ _,
     maybe_decay_after_use x ≫= λ _, mret (match fields with [] => Some x | _ => None end))) as H; [|intros c; apply H].
  intros b. apply costs_bind_r; [lia| |intros _].
  - destruct b; [|apply (costs_mono A 0); [lia|apply costs_ret]].
    destruct fields; [apply costs_at|apply (costs_mono A 0); [lia|apply costs_at_field]].
  - apply costs_bind_l; [lia|apply costs_decay|intros _; apply costs_ret].
Qed.

Lemma costs_path_generic segs pos : costs 2 (walk_path_generic segs pos).
Proof.
  destruct segs as [|x fields]; simpl; [apply (costs_mono A 0); [lia|apply costs_ret]|].
  apply (costs_bind A 1 1); [lia|lia|apply costs_advance|intros _]. apply (costs_mono A 0); [lia|].
  apply costs_gets. intros c Hc. revert c Hc.
  assert (∀ b : bool, costs 0
    ((if b then match pos with Use => do_use x no_span | _ => mret () end else mret ()) ≫= λ _,
     maybe_decay_after_use x ≫= λ _, mret (if b then Some x else None))) as H; [|intros c; apply H].
  intros b. apply costs_bind_l; [lia| |intros _].
  - destruct b, pos; apply costs_ret || apply costs_use.
  - apply costs_bind_l; [lia|apply costs_decay|intros _; apply costs_ret].
Qed.

Lemma costs_two {R} a b wa wb (m : ST BorrowCx R) :
  weight pkg n a = Some wa → (∀ w, weight pkg n a = Some w → costs w m) →
  weight pkg n b = Some wb → costs (wa + wb) (m ≫= λ _, use walk b).
Proof.
  intros Ha Hm Hb. pose proof (weight_pos _ _ _ _ Ha). destruct (costs_use_expr _ _ Hb) as [Hb0 Hcb].
  apply costs_bind; [lia|done|by apply Hm|by intros _].
Qed.

Lemma weigh_one e w : sum_opt weigh [PExpr e] = Some w → weight pkg n e = Some w.
Proof. intros (a & b & Ha & [= <-] & ->)%sum_opt_cons. by rewrite Z.add_0_r. Qed.

Lemma weigh_two a b w :
  sum_opt weigh [PExpr a; PExpr b] = Some w →
  ∃ wa wb, weight pkg n a = Some wa ∧ weight pkg n b = Some wb ∧ w = wa + wb.
Proof. intros (wa & wb & Ha & Hb%weigh_one & ->)%sum_opt_cons. by exists wa, wb. Qed.

Lemma costs_deref e sp w : weight pkg n e = Some w → costs 0 (check_deref_move typed pkg n e sp).
Proof.
  intros Hw. unfold check_deref_move. destruct (expr_ty typed !! e) as [t|] eqn:Et; [|apply costs_ret].
  apply costs_lift; [by apply (to_exprs typed Hok e)|]. intros d Hd. destruct d; try apply costs_ret.
  apply costs_lift.
  { apply is_copy_total; [apply HA|]. eapply get_parts; [apply HA|exact Hd|constructor]. }
  intros [] _; [apply costs_ret|]. apply costs_lift; [by eapply pretty_total|intros p _; apply costs_push_diag].
Qed.

Lemma costs_binary op a b w :
  sum_opt weigh [PExpr a; PExpr b] = Some w → costs w (walk_binary pkg walk op a b).
Proof.
  intros (wa & wb & Ha & Hb & ->)%weigh_two. pose proof (weight_pos _ _ _ _ Ha).
  destruct (costs_use_expr _ _ Hb) as [Hb0 Hcb].
  apply costs_bind; [lia|done|apply costs_void; [lia|by apply Hwalk]|intros _].
  apply costs_lift; [|intros [x|] _; [by apply costs_as_borrower|done]].
  destruct op; try by eexists. unfold lhs_root_name. destruct n; [done|].
  apply weight_inv in Ha as (x & v & -> & _ & _). by eexists.
Qed.

Lemma costs_unary op e pos w : weight pkg n e = Some w → costs w (walk_unary typed pkg n walk op e pos).
Proof.
  intros Hw. destruct (costs_use_expr _ _ Hw) as [H0 Hc].
  apply costs_bind_l; [done| |by intros _].
  destruct op; try apply costs_ret. destruct pos; try apply costs_ret. by eapply costs_deref.
Qed.

Lemma costs_borrow_expr mutable e w :
  weight pkg n e = Some w → costs (2 + w) (walk_borrow pkg n walk mutable e).
Proof.
  intros Hw. pose proof (weight_pos _ _ _ _ Hw). apply costs_gets. intros c Hc.
  destruct (place_total pkg n (cx_locals c) e w Hw) as [p Hp]. eapply leads_lift; [exact Hp|].
  assert (costs (2 + w)
    match p with
    | Some p => try_place_borrow p (if mutable then Mut else Shared) no_span ≫= λ _, walk_for_points_only pkg n e
    | None => void (walk e (if mutable then BorrowMut else BorrowShared))
    end) as H'; [|by apply H'].
  destruct p as [p|].
  - apply costs_bind; [lia|lia| |intros _; by apply costs_points].
    apply (costs_mono A 1); [lia|apply costs_place_borrow].
  - apply (costs_mono A w); [lia|]. apply costs_void; [lia|by apply Hwalk].
Qed.

Lemma costs_move_expr e w : weight pkg n e = Some w → costs w (walk_move typed pkg n walk e).
Proof.
  intros Hw. pose proof (weight_pos _ _ _ _ Hw).
  assert (∃ x, exprs pkg !! e = Some x ∧
    ∀ op rhs, x = EUnary op rhs → ∃ w', weight pkg n rhs = Some w' ∧ w' ≤ w) as (x & Hx & Hsub).
  { destruct n as [|m]; [done|]. pose proof Hw as (x & v & Hx & Hv & _)%weight_inv. exists x. split; [done|].
    intros op rhs ->. destruct (weight_below _ _ _ _ _ rhs Hw Hx) as (w' & Hw' & Hle); [constructor|].
    exists w'. split; [by apply weight_mono|lia]. }
  apply costs_lift; [by rewrite Hx|]. intros y Hy. assert (y = x) as -> by congruence.
  assert (costs w (void (walk e Move))) as Hvoid by (apply costs_void; [lia|by apply Hwalk]).
  destruct x; try done. destruct op; try done. destruct (Hsub Deref rhs eq_refl) as (w' & Hw' & Hle).
  destruct (costs_use_expr _ _ Hw') as [H0 Hc]. apply (costs_mono A w'); [lia|].
  apply costs_bind_l; [done|by eapply costs_deref|by intros _].
Qed.

Lemma costs_args {m : nat → HirArg → ST BorrowCx unit} args i w :
  (∀ i a w, weight pkg n (arg_value a) = Some w → costs w (m i a)) →
  sum_opt weigh (arg_parts args) = Some w → 0 ≤ w ∧ costs w (each_from m i args).
Proof.
  intros Hm. unfold arg_parts. rewrite sum_opt_map. intros Hw. eapply costs_each_from; [exact Hw|].
  intros j a w' _ Hw'. split; [|by apply Hm]. apply weight_pos in Hw'. lia.
Qed.

Lemma costs_call callee args w :
  sum_opt weigh (PExpr callee :: arg_parts args) = Some w → costs w (walk_call typed walk callee args).
Proof.
  intros (wc & wa & Hc & Ha & ->)%sum_opt_cons. destruct (costs_use_expr _ _ Hc) as [Hc0 Hcc].
  assert (0 ≤ wa) as Hwa by (eapply sum_opt_nonneg, Ha; apply weigh_nonneg).
  apply costs_bind; [done|done|done|intros _].
  assert (∃ ps, match expr_ty typed !! callee with
    | None => Some []
    | Some t => d ← get (arena typed) t; Some (match d with TFn params _ _ => params | _ => [] end)
    end = Some ps ∧ Forall (λ t, is_Some (get A t)) ps) as (ps & Hps & Hall).
  { destruct (expr_ty typed !! callee) as [t|] eqn:Et; [|by exists []].
    destruct (to_exprs typed Hok callee t Et) as [d Hd]. unfold arena. rewrite Hd. eexists. split; [done|].
    destruct d; try constructor. rewrite Forall_forall. intros y Hy.
    eapply get_parts; [apply HA|exact Hd|]. simpl. apply elem_of_app. by left. }
  apply costs_lift; [by rewrite Hps|]. intros ps' [= <-]%(eq_trans (eq_sym Hps)).
  eapply costs_args; [|exact Ha]. intros i a w' Hw'. apply costs_lift.
  - unfold arg_position. destruct (ps !! i) as [t|] eqn:Ei; [|by eexists].
    destruct (Forall_lookup_1 _ _ _ _ Hall Ei) as [d Hd]. unfold arena. rewrite Hd. by eexists.
  - intros pos _. pose proof (weight_pos _ _ _ _ Hw'). apply costs_void; [lia|by apply Hwalk].
Qed.

Lemma costs_uses_args args w :
  sum_opt weigh (arg_parts args) = Some w → 0 ≤ w ∧ costs w (each (λ a, use walk (arg_value a)) args).
Proof. apply (costs_uses arg_value). Qed.

Lemma costs_method receiver args w :
  sum_opt weigh (PExpr receiver :: arg_parts args) = Some w → costs w (walk_method_call walk receiver args).
Proof.
  intros (wc & wa & Hc & Ha & ->)%sum_opt_cons. pose proof (weight_pos _ _ _ _ Hc).
  destruct (costs_uses_args _ _ Ha) as [Ha0 Hca].
  apply costs_bind; [lia|done|apply costs_void; [lia|by apply Hwalk]|by intros _].
Qed.

Lemma costs_if cond then_ else_ w :
  sum_opt weigh (PExpr cond :: PBlock then_ :: opt_part else_) = Some w → costs w (walk_if typed pkg n walk cond then_ else_).
Proof.
  intros (a & ? & Ha & (b & d & Hb & Hd & ->)%sum_opt_cons & ->)%sum_opt_cons.
  destruct (costs_use_expr _ _ Ha) as [Ha0 Hca]. destruct (costs_block _ _ Hb) as [Hb0 Hcb].
  destruct (costs_branches _ _ _ _ Hb0 Hcb Hd) as [Hd0 Hcd]. apply costs_bind; [done|done|done|by intros _].
Qed.

Lemma costs_if_let pat e then_ else_ w :
  sum_opt weigh (PExpr e :: PPat pat :: PBlock then_ :: opt_part else_) = Some w →
  costs w (walk_if_let typed pkg n walk pat e then_ else_).
Proof.
  intros (a & ? & Ha & (p & ? & [Hp ->]%(weigh_pat _ p) & (b & d & Hb & Hd & ->)%sum_opt_cons & ->)%sum_opt_cons & ->)%sum_opt_cons.
  destruct (costs_use_expr _ _ Ha) as [Ha0 Hca]. destruct (costs_block _ _ Hb) as [Hb0 Hcb].
  pose proof (costs_with_pattern pat (type_of typed e) b _ Hb0 Hp (type_of_ok e) Hcb) as Hcp.
  destruct (costs_branches _ _ _ _ Hb0 Hcp Hd) as [Hd0 Hcd]. rewrite Z.add_0_l.
  apply costs_bind; [done|done|done|by intros _].
Qed.

Lemma costs_match e arms w :
  sum_opt weigh (PExpr e :: concat (map arm_parts arms)) = Some w → costs w (walk_match typed pkg n walk e arms).
Proof.
  intros (a & b & Ha & Hb%sum_opt_concat & ->)%sum_opt_cons. rewrite sum_opt_map in Hb.
  destruct (costs_use_expr _ _ Ha) as [Ha0 Hca].
  assert (0 ≤ b) as Hb0 by (eapply sum_opt_nonneg, Hb; intros x y; apply sum_opt_nonneg, weigh_nonneg).
  apply costs_bind; [done|done|done|intros _]. intros c Hc. apply leads_gets, leads_gets.
  apply (costs_arms (type_of typed e) arms None b 0 c c); try done; [apply type_of_ok|].
  apply (used_mono A 0); [lia|]. destruct (used_refl A c). by split.
Qed.

Lemma costs_loop_block b w :
  weigh (PLoop b) = Some w → 0 ≤ w ∧ costs w (loop_fixed_point (walk_block typed pkg n walk b)).
Proof.
  cbn [weigh_part]. destruct (weigh_block pkg weigh_in b) as [v|] eqn:E; [|done]. intros [= <-].
  destruct (costs_block b v E) as [Hv Hc]. split; [lia|]. by apply costs_loop.
Qed.

Lemma costs_loop_pattern pat ty b w :
  weigh (PLoop b) = Some w → pat_fits pkg n pat = true → is_Some (get A ty) →
  0 ≤ w ∧ costs w (loop_fixed_point (with_pattern typed pkg n pat ty (walk_block typed pkg n walk b))).
Proof.
  cbn [weigh_part]. destruct (weigh_block pkg weigh_in b) as [v|] eqn:E; [|done]. intros [= <-] Hp Hty.
  destruct (costs_block b v E) as [Hv Hc]. split; [lia|]. apply costs_loop; [done|].
  by apply costs_with_pattern.
Qed.

Lemma element_type_ok ty : is_Some (get A ty) → ∃ t, element_type typed ty = Some t ∧ is_Some (get A t).
Proof.
  intros [d Hd]. unfold element_type, arena. rewrite Hd. simpl. pose proof (to_unit typed Hok) as Hu.
  destruct d; try (by eexists).
  - eexists. split; [done|]. eapply get_parts; [apply HA|exact Hd|constructor].
  - assert (is_Some (get A inner)) as [i Hi] by (eapply get_parts; [apply HA|exact Hd|constructor]).
    rewrite Hi. eexists. split; [done|]. destruct i; try done. eapply get_parts; [apply HA|exact Hi|constructor].
Qed.

Lemma costs_for pat iter body w :
  sum_opt weigh [PExpr iter; PPat pat; PLoop body] = Some w → costs w (walk_for typed pkg n walk pat iter body).
Proof.
  intros (a & ? & Ha & (p & ? & [Hp ->]%(weigh_pat _ p) & (b & z & Hb & [= <-] & ->)%sum_opt_cons & ->)%sum_opt_cons & ->)%sum_opt_cons.
  rewrite Z.add_0_l, Z.add_0_r. destruct (costs_use_expr _ _ Ha) as [Ha0 Hca].
  destruct (element_type_ok _ (type_of_ok iter)) as (t & Ht & Htok).
  destruct (costs_loop_pattern pat t body b Hb Hp Htok) as [Hb0 Hcb].
  apply costs_bind; [done|done|done|intros _]. apply costs_lift; [by rewrite Ht|].
  intros t' [= <-]%(eq_trans (eq_sym Ht)). done.
Qed.

Lemma costs_while_let pat e body w :
  sum_opt weigh [PExpr e; PPat pat; PLoop body] = Some w → costs w (walk_while_let typed pkg n walk pat e body).
Proof.
  intros (a & ? & Ha & (p & ? & [Hp ->]%(weigh_pat _ p) & (b & z & Hb & [= <-] & ->)%sum_opt_cons & ->)%sum_opt_cons & ->)%sum_opt_cons.
  rewrite Z.add_0_l, Z.add_0_r. destruct (costs_use_expr _ _ Ha) as [Ha0 Hca].
  destruct (costs_loop_pattern pat _ body b Hb Hp (type_of_ok e)) as [Hb0 Hcb].
  apply costs_bind; [done|done|done|by intros _].
Qed.

Lemma costs_while e body w :
  sum_opt weigh [PExpr e; PLoop body] = Some w → costs w (walk_while typed pkg n walk e body).
Proof.
  intros (a & ? & Ha & (b & z & Hb & [= <-] & ->)%sum_opt_cons & ->)%sum_opt_cons. rewrite Z.add_0_r.
  destruct (costs_use_expr _ _ Ha) as [Ha0 Hca]. destruct (costs_loop_block body b Hb) as [Hb0 Hcb].
  apply costs_bind; [done|done|done|by intros _].
Qed.

Lemma costs_message e args w :
  sum_opt weigh (PExpr e :: arg_parts args) = Some w → costs w (walk_message typed walk e args).
Proof.
  intros (a & b & Ha & Hb & ->)%sum_opt_cons. destruct (costs_use_expr _ _ Ha) as [Ha0 Hca].
  unfold arg_parts in Hb. rewrite sum_opt_map in Hb.
  destruct (costs_each A _ (walk_message_arg typed walk) _ _ Hb) as [Hb0 Hcb].
  - intros x v _ Hv. pose proof (weight_pos _ _ _ _ Hv). split; [lia|].
    apply costs_bind_r; [lia|by apply Hwalk|intros name].
    destruct (expr_ty typed !! arg_value x) as [t|] eqn:Et; [|apply costs_ret].
    apply costs_lift; [apply is_sendable_total; [apply HA|apply (to_fields typed Hok)|by apply (to_exprs typed Hok _ t Et)]|].
    intros [] _; [apply costs_ret|apply costs_push_diag].
  - apply costs_bind; [done|done|done|by intros _].
Qed.

(** The body of an arena, a block or another expression, for its tail's name. *)
Lemma costs_arena_body e w :
  weight pkg n e = Some w →
  costs w (x ← lift (exprs pkg !! e);
           match x with
           | EBlock bid =>
               b ← lift (blocks pkg !! bid);
               each (walk_stmt typed pkg n walk) (stmts b) ≫= λ _,
               match tail b with Some t => walk t Use | None => mret None end
           | _ => walk e Use
           end).
Proof.
  intros Hw. pose proof (weight_pos _ _ _ _ Hw).
  assert (∃ x, exprs pkg !! e = Some x ∧ ∀ b, x = EBlock b → ∃ v, weigh (PBlock b) = Some v ∧ v ≤ w) as (x & Hx & Hb).
  { destruct n as [|m]; [done|]. apply weight_inv in Hw as (x & v & Hx & Hv & ->). exists x. split; [done|].
    intros b ->. apply sum_opt_cons in Hv as (a & ? & Ha & [= <-] & ->). exists a. split; [|lia].
    apply (weigh_part_mono pkg m (weight pkg m)); [apply weight_mono|done]. }
  apply costs_lift; [by rewrite Hx|]. intros y [= <-]%(eq_trans (eq_sym Hx)).
  assert (costs w (walk e Use)) as He by (by apply Hwalk). destruct x; try done.
  destruct (Hb b eq_refl) as (v & Hv & Hle). clear Hb He. cbn [weigh_part] in Hv. unfold weigh_block in Hv.
  destruct (blocks pkg !! b) as [blk|] eqn:Eb; [|done]. simpl in Hv.
  apply costs_lift; [done|]. intros ? [= <-].
  apply sum_opt_app in Hv as (s & t & Hs%sum_opt_concat & Ht & ->). rewrite sum_opt_map in Hs.
  destruct (costs_each A _ (walk_stmt typed pkg n walk) _ _ Hs) as [Hs0 Hcs]; [intros st a _; apply costs_stmt|].
  assert (0 ≤ t ∧ costs t (match tail blk with Some t => walk t Use | None => mret None end)) as [Ht0 Hct].
  { destruct (tail blk) as [q|]; [|injection Ht as <-; split; [done|apply costs_ret]].
    apply sum_opt_cons in Ht as (q1 & ? & Hq & [= <-] & ->). rewrite Z.add_0_r. cbn [weigh_in_block] in Hq.
    pose proof (weight_pos _ _ _ _ Hq). split; [lia|by apply Hwalk]. }
  apply (costs_mono A (s + t)); [lia|]. apply costs_bind; [done|done|done|by intros _].
Qed.

Lemma costs_escape region name : costs 0
  (ls ← gets cx_locals;
   when_some name (λ name,
    match ls !! name with
    | Some st =>
        if bool_decide (arena_region st = Some region) && negb (ls_is_copy st)
        then push_diag (arena_escape name no_span) else mret ()
    | None => mret ()
    end)).
Proof.
  apply costs_gets. intros c Hc. destruct name as [x|]; [|apply used_refl]. simpl.
  destruct (cx_locals c !! x) as [l|]; [|apply used_refl].
  destruct (_ && _); [by apply costs_push_diag|apply used_refl].
Qed.

Lemma costs_arena e w : weight pkg n e = Some w → costs (2 + w) (walk_arena typed pkg n walk e).
Proof.
  intros Hw. pose proof (weight_pos _ _ _ _ Hw). apply (costs_mono A (1 + w)); [lia|].
  intros c Hc. apply leads_gets.
  assert (fresh (arenas c) = Some (arenas c, arenas c + 1)) as Hf.
  { unfold fresh. destruct Hc as [B []]. by rewrite bool_decide_eq_true_2 by lia. }
  eapply leads_lift; [exact Hf|]. cbv beta iota. apply leads_modify.
  assert (used A 1 c (set_arenas (arenas c + 1) c)) as Hu.
  { split; simpl; try lia; try done; [eapply grew_mono, grew_refl; lia| |apply tail_kept_refl].
    intros B _. apply counts_le_mono. lia. }
  eapply leads_mono; [|intros ? c' Hu'; by eapply used_trans, Hu'].
  assert (room A w (set_arenas (arenas c + 1) c)) as Hr by (eapply room_used, Hu; [lia|done]).
  revert Hr. generalize (set_arenas (arenas c + 1) c) as c1. clear Hu Hc Hf. intros c1 Hr. revert c1 Hr.
  change (costs w (push_frame (Some (arenas c)) ≫= λ _,
    x ← lift (exprs pkg !! e);
    tail_name ←
      match x with
      | EBlock bid =>
          b ← lift (blocks pkg !! bid);
          each (walk_stmt typed pkg n walk) (stmts b) ≫= λ _,
          match tail b with Some t => walk t Use | None => mret None end
      | _ => walk e Use
      end;
    ls ← gets cx_locals;
    when_some tail_name (λ name,
      match ls !! name with
      | Some st =>
          if bool_decide (arena_region st = Some (arenas c)) && negb (ls_is_copy st)
          then push_diag (arena_escape name no_span) else mret ()
      | None => mret ()
      end) ≫= λ _, pop_frame)).
  eapply costs_ext; [|apply (costs_framed (R:=unit) A w (Some (arenas c))); [lia|]].
  2: { apply costs_bind_r; [lia|by apply costs_arena_body|intros name; apply (costs_escape (arenas c) name)]. }
  intros c1. unfold push_frame, modify, mbind at 1, ST_bind at 1. symmetry.
  unfold mbind at 1, ST_bind at 1. unfold mbind, ST_bind, lift, gets. destruct (exprs pkg !! e) as [x|]; [|done].
  repeat (case_match; simplify_eq/=; try done).
Qed.

Lemma costs_lambda params body w :
  weigh (PBlock body) = Some w → costs w (walk_lambda typed pkg n walk params body).
Proof.
  intros (H0 & Hc)%costs_block c Hr. apply leads_gets, leads_gets.
  assert (costs w (push_frame None ≫= λ _,
    (each (λ p, bind_local typed (param_name p) (unit_ty typed) (param_span p) false) params ≫= λ _,
     walk_block typed pkg n walk body) ≫= λ _, pop_frame)) as Hframe.
  { apply costs_framed; [done|]. apply costs_bind_l; [done| |by intros _].
    apply costs_each_free. intros p _. apply costs_bind_local; [apply HA|done|apply (to_unit typed Hok)|done]. }
  specialize (Hframe c Hr). unfold leads, mbind, ST_bind, push_frame, modify in Hframe |- *.
  destruct (each _ _ _) as [[[] c1]|]; [|done]. destruct (walk_block _ _ _ _ _ c1) as [[[] c2]|]; [|done].
  destruct (pop_frame c2) as [[[] c3]|]; [|done]. destruct Hframe as [H1 H2 H3 H4 H5 H6].
  split; simpl; try done; [eapply grew_mono, grew_refl; lia|]. intros B _. apply counts_le_mono. lia.
Qed.

Lemma costs_nameless k (m : ST BorrowCx unit) : 0 ≤ k → costs k m → costs k (nameless m).
Proof. intros Hk Hm. apply costs_bind_r; [done|done|intros _; apply costs_ret]. Qed.

Lemma costs_shape x v pos :
  sum_opt weigh (parts x) = Some v → costs (2 + v) (walk_shape typed pkg n walk x pos).
Proof.
  intros Hv. pose proof (sum_opt_nonneg _ _ _ (weigh_nonneg pkg n) Hv) as Hv0.
  assert (∀ R (r : R), costs (2 + v) (mret r)) as Hret.
  { intros R r. apply (costs_mono A 0); [lia|apply costs_ret]. }
  assert (∀ e w, weight pkg n e = Some w → costs w (use walk e)) as Huse by (intros e w Hw; by apply costs_use_expr).
  assert (∀ e w, sum_opt weigh [PExpr e] = Some w → costs w (use walk e)) as Hone by (intros e w Hw%weigh_one; auto).
  destruct x; cbn [walk_shape parts] in Hv |- *; try (by apply Hret); try (apply costs_nameless; [lia|]).
  all: try (apply weigh_one in Hv; by apply costs_borrow_expr || by apply costs_arena).
  all: try (apply (costs_mono A 2); [lia|]; apply costs_path || apply costs_path_generic).
  all: apply (costs_mono A v); [lia|]; try (by apply Hone).
  - by apply costs_call.
  - by apply costs_method.
  - apply weigh_two in Hv as (wa & wb & Ha & Hb & ->).
    eapply costs_two; [exact Ha|intros w; apply Huse|done].
  - by apply costs_binary.
  - apply costs_unary. by apply weigh_one.
  - by apply costs_if.
  - by apply costs_match.
  - by apply costs_for.
  - by apply costs_while.
  - apply sum_opt_cons in Hv as (a & ? & Ha & [= <-] & ->). rewrite Z.add_0_r. by apply costs_loop_block.
  - destruct e as [e|]; [|injection Hv as <-; apply costs_ret]. apply weigh_one in Hv.
    apply costs_void; [done|by apply Hwalk].
  - destruct e as [e|]; [|injection Hv as <-; apply costs_ret]. apply weigh_one in Hv.
    apply costs_void; [done|by apply Hwalk].
  - apply sum_opt_cons in Hv as (a & ? & Ha & [= <-] & ->). rewrite Z.add_0_r. by apply costs_block.
  - by apply (costs_uses id).
  - by apply (costs_uses id).
  - by apply (costs_uses snd).
  - apply sum_opt_concat in Hv. rewrite sum_opt_map in Hv. eapply costs_each; [exact Hv|].
    intros kv w _ Hw. pose proof (sum_opt_nonneg _ _ _ (weigh_nonneg pkg n) Hw). split; [done|].
    apply weigh_two in Hw as (wa & wb & Ha & Hb & ->). eapply costs_two; [exact Ha|intros w; apply Huse|done].
  - by apply costs_message.
  - by apply costs_message.
  - apply weigh_two in Hv as (wa & wb & Ha & Hb & ->). pose proof (weight_pos _ _ _ _ Ha).
    pose proof (weight_pos _ _ _ _ Hb).
    apply costs_bind; [lia|lia|by apply Huse|intros _; by apply Hwalk].
  - apply weigh_one in Hv. by apply Hwalk.
  - apply weigh_one in Hv. by apply costs_move_expr.
  - apply sum_opt_cons in Hv as (a & ? & Ha & [= <-] & ->). rewrite Z.add_0_r. by apply costs_block.
  - apply sum_opt_app in Hv as (a & b & Ha & Hb & ->).
    assert (0 ≤ a) by (eapply sum_opt_nonneg, Ha; apply weigh_nonneg).
    apply sum_opt_cons in Hb as (b' & ? & Hb & [= <-] & ->). rewrite Z.add_0_r in *.
    destruct (costs_block _ _ Hb) as [Hb0 Hcb]. by apply (costs_mono A b'); [lia|].
  - apply sum_opt_app in Hv as (a & b & Ha & Hb & ->). destruct (costs_uses snd _ _ Ha) as [Ha0 Hca].
    apply weigh_one in Hb. destruct (costs_use_expr _ _ Hb) as [Hb0 Hcb].
    apply costs_bind; [done|done|done|by intros _].
  - apply sum_opt_app in Hv as (a & b & Ha & Hb & ->). destruct (costs_uses snd _ _ Ha) as [Ha0 Hca].
    apply sum_opt_cons in Hb as (b' & ? & Hb & [= <-] & ->). rewrite Z.add_0_r in *.
    destruct (costs_block _ _ Hb) as [Hb0 Hcb]. apply costs_bind; [done|done|done|by intros _].
  - apply sum_opt_cons in Hv as (a & ? & Ha & [= <-] & ->). rewrite Z.add_0_r. by apply costs_lambda.
  - by apply costs_if_let.
  - by apply costs_while_let.
  - apply weigh_one in Hv. by apply Hwalk.
Qed.

End Cases.

Lemma costs_walk n e w pos : weight pkg n e = Some w → costs w (walk_expr typed pkg n e pos).
Proof.
  revert e w pos. induction n as [|n IH]; intros e w pos Hw; [done|].
  apply weight_inv in Hw as (x & v & Hx & Hv & ->). simpl. apply costs_lift; [by rewrite Hx|].
  intros ? [= <-]%(eq_trans (eq_sym Hx)). by apply costs_shape.
Qed.

End Walk.
