(* ===== verification/BorrowRun.v ===== *)
(** * The borrow checker returns

    The pre-pass of last uses, the walk of each body and [run] over a whole
    package return when every node is in range, the bodies are trees of bounded
    depth ([package_fits]) and the side tables are in range ([typed_ok]). *)

From stdpp Require Import base list strings numbers gmap sets.
From S2P Require Import Prelude StateM TyArena Infer Hir BorrowState BorrowFlow BorrowTotal BorrowWalkTotal.

Local Open Scope Z_scope.
Notation length := List.length (only parsing).

(** ** The pre-pass *)

Definition visits (w : Z) (m : ST Pre unit) : Prop :=
  ∀ s, pre_point s + w < 2 ^ 32 → leads m s (λ _ s', pre_point s ≤ pre_point s' ≤ pre_point s + w).

Lemma visits_ret w : 0 ≤ w → visits w (mret ()).
Proof. intros Hw s Hs. unfold leads. simpl. lia. Qed.

Lemma visits_mono j k m : j ≤ k → visits j m → visits k m.
Proof. intros Hle Hm s Hs. eapply leads_mono; [apply Hm; lia|]. simpl. lia. Qed.

Lemma visits_bind j k m (f : unit → ST Pre unit) :
  0 ≤ k → visits j m → (∀ r, visits k (f r)) → visits (j + k) (m ≫= f).
Proof.
  intros Hk Hm Hf s Hs. apply leads_bind. eapply leads_mono; [apply Hm; lia|]. intros r s' Hs'. simpl in Hs'.
  eapply leads_mono; [apply Hf; lia|]. simpl. lia.
Qed.

Lemma visits_name x : visits 2 (visit_name x).
Proof.
  intros s Hs. unfold visit_name, succ_u32, leads. rewrite bool_decide_eq_true_2 by lia. simpl. lia.
Qed.

Lemma visits_each {R} (g : R → option Z) (f : R → ST Pre unit) xs w :
  sum_opt g xs = Some w → (∀ x a, g x = Some a → 0 ≤ a ∧ visits a (f x)) → 0 ≤ w ∧ visits w (each f xs).
Proof.
  intros Hw Hf. revert w Hw. induction xs as [|x xs IH]; intros w Hw.
  { injection Hw as <-. split; [done|by apply visits_ret]. }
  apply sum_opt_cons in Hw as (a & b & Ha & Hb & ->). destruct (Hf x a Ha) as [Ha0 Hx].
  destruct (IH b Hb) as [Hb0 Hxs]. split; [lia|]. simpl. by apply visits_bind.
Qed.

Section Visits.
Context (pkg : Package) (n : nat) (visit : ExprId → ST Pre unit).
Hypothesis Hvisit : ∀ e w, weight pkg n e = Some w → visits w (visit e).
Notation weigh := (weigh_part pkg n (weight pkg n)).
Notation weigh_in := (weigh_in_block pkg n (weight pkg n)).

Lemma visits_one e w : weight pkg n e = Some w → 0 ≤ w ∧ visits w (visit e).
Proof. intros Hw. pose proof (weight_pos _ _ _ _ Hw). split; [lia|by apply Hvisit]. Qed.

Lemma visits_list {R} (g : R → ExprId) xs w :
  sum_opt weigh (map (λ x, PExpr (g x)) xs) = Some w → 0 ≤ w ∧ visits w (each (λ x, visit (g x)) xs).
Proof. rewrite sum_opt_map. intros Hw. eapply visits_each; [exact Hw|]. intros x a. apply visits_one. Qed.

Lemma visits_opt o w : sum_opt weigh (opt_part o) = Some w → 0 ≤ w ∧ visits w (when_some o visit).
Proof.
  destruct o as [e|]; intros Hw; [|injection Hw as <-; split; [done|by apply visits_ret]].
  apply weigh_one in Hw. by apply visits_one.
Qed.

Lemma visits_stmt st w : sum_opt weigh_in (stmt_parts st) = Some w → 0 ≤ w ∧ visits w (visit_stmt visit st).
Proof.
  intros Hw. destruct st as [pid ty init mutable|e]; cbn [stmt_parts visit_stmt] in Hw |- *.
  - apply sum_opt_app in Hw as (a & b & Ha & (p & z & [Hfit ->]%weigh_pat & [= <-] & ->)%sum_opt_cons & ->).
    rewrite !Z.add_0_r. apply visits_opt. by destruct init.
  - apply sum_opt_cons in Hw as (x & y & Hx & [= <-] & ->). rewrite Z.add_0_r. by apply visits_one.
Qed.

Lemma visits_block b w : weigh (PBlock b) = Some w → 0 ≤ w ∧ visits w (visit_block pkg visit b).
Proof.
  cbn [weigh_part]. unfold weigh_block. destruct (blocks pkg !! b) as [blk|] eqn:Hb; [|done]. simpl.
  intros (s & t & Hs%sum_opt_concat & Ht & ->)%sum_opt_app. rewrite sum_opt_map in Hs.
  destruct (visits_each _ (visit_stmt visit) _ _ Hs) as [Hs0 Hvs]; [intros st a; apply visits_stmt|].
  destruct (visits_opt (tail blk) t) as [Ht0 Hvt]; [by destruct (tail blk)|].
  split; [lia|]. intros c Hc. eapply leads_lift; [exact Hb|]. by apply visits_bind.
Qed.

Lemma visits_loop b w : weigh (PLoop b) = Some w → 0 ≤ w ∧ visits w (visit_block pkg visit b).
Proof.
  cbn [weigh_part]. destruct (weigh_block pkg weigh_in b) as [v|] eqn:E; [|done]. intros [= <-].
  destruct (visits_block b v E) as [Hv Hc]. split; [lia|]. eapply visits_mono, Hc. lia.
Qed.

Lemma visits_seq j k m1 m2 : 0 ≤ j ∧ visits j m1 → 0 ≤ k ∧ visits k m2 → 0 ≤ j + k ∧ visits (j + k) (m1 ≫= λ _, m2).
Proof. intros [Hj H1] [Hk H2]. split; [lia|]. by apply visits_bind. Qed.

Lemma visits_arm a w : sum_opt weigh (arm_parts a) = Some w → 0 ≤ w ∧ visits w (visit_arm visit a).
Proof.
  intros (p & z & [Hfit ->]%(weigh_pat _ _ _ p) & (g & y & Hg & Hy%weigh_one & ->)%sum_opt_app & ->)%sum_opt_cons.
  rewrite Z.add_0_l. apply visits_seq; [by apply visits_opt|by apply visits_one].
Qed.

(** A part first, then the others. *)
Lemma visits_cons p ps w m1 m2 :
  sum_opt weigh (p :: ps) = Some w → (∀ v, weigh p = Some v → 0 ≤ v ∧ visits v m1) →
  (∀ v, sum_opt weigh ps = Some v → 0 ≤ v ∧ visits v m2) → 0 ≤ w ∧ visits w (m1 ≫= λ _, m2).
Proof. intros (a & b & Ha & Hb & ->)%sum_opt_cons H1 H2. apply visits_seq; auto. Qed.

Lemma visits_app ps qs w m1 m2 :
  sum_opt weigh (ps ++ qs) = Some w → (∀ v, sum_opt weigh ps = Some v → 0 ≤ v ∧ visits v m1) →
  (∀ v, sum_opt weigh qs = Some v → 0 ≤ v ∧ visits v m2) → 0 ≤ w ∧ visits w (m1 ≫= λ _, m2).
Proof. intros (a & b & Ha & Hb & ->)%sum_opt_app H1 H2. apply visits_seq; auto. Qed.

Lemma visits_single p w m :
  sum_opt weigh [p] = Some w → (∀ v, weigh p = Some v → 0 ≤ v ∧ visits v m) → 0 ≤ w ∧ visits w m.
Proof. intros (a & b & Ha & [= <-] & ->)%sum_opt_cons H. rewrite Z.add_0_r. auto. Qed.

(** A pattern is not visited. *)
Lemma visits_pat p ps w m :
  sum_opt weigh (PPat p :: ps) = Some w → (∀ v, sum_opt weigh ps = Some v → 0 ≤ v ∧ visits v m) →
  0 ≤ w ∧ visits w m.
Proof. intros (a & b & [_ ->]%(weigh_pat pkg n p) & Hb & ->)%sum_opt_cons H. rewrite Z.add_0_l. auto. Qed.

Lemma visits_pairs (entries : list (ExprId * ExprId)) w :
  sum_opt weigh (concat (map (λ kv, [PExpr kv.1; PExpr kv.2]) entries)) = Some w →
  0 ≤ w ∧ visits w (each (λ kv, visit kv.1 ≫= λ _, visit kv.2) entries).
Proof.
  intros Hw%sum_opt_concat. rewrite sum_opt_map in Hw. eapply visits_each; [exact Hw|]. intros kv a Ha.
  eapply visits_cons; [exact Ha|apply visits_one|intros v Hv%weigh_one; by apply visits_one].
Qed.

Lemma visits_shape x v : sum_opt weigh (parts x) = Some v → visits (2 + v) (visit_shape pkg visit x).
Proof.
  intros Hv. pose proof (sum_opt_nonneg _ _ _ (weigh_nonneg pkg n) Hv) as Hv0.
  assert (∀ e w, sum_opt weigh [PExpr e] = Some w → 0 ≤ w ∧ visits w (visit e)) as Hone.
  { intros e w Hw%weigh_one. by apply visits_one. }
  assert (∀ b w, sum_opt weigh [PBlock b] = Some w → 0 ≤ w ∧ visits w (visit_block pkg visit b)) as Hblock.
  { intros b w Hw. eapply visits_single; [exact Hw|apply visits_block]. }
  assert (∀ b w, sum_opt weigh [PLoop b] = Some w → 0 ≤ w ∧ visits w (visit_block pkg visit b)) as Hloop.
  { intros b w Hw. eapply visits_single; [exact Hw|apply visits_loop]. }
  assert (∀ args w, sum_opt weigh (arg_parts args) = Some w → 0 ≤ w ∧ visits w (visit_args visit args)) as Hargs.
  { intros args w. apply (visits_list arg_value). }
  destruct x; cbn [visit_shape parts] in Hv |- *; try (apply visits_ret; lia).
  1: destruct segs; [apply visits_ret|eapply visits_mono, visits_name]; lia.
  all: try (destruct segments; [apply visits_ret|eapply visits_mono, visits_name]; lia).
  all: apply (visits_mono v); [lia|]; eapply proj2; first
    [ by apply Hone | by apply visits_opt | by apply Hblock | by apply Hloop
    | by apply (visits_list id) | by apply (visits_list snd) | by apply visits_pairs
    | eapply visits_cons; [exact Hv|apply visits_one|]; first
        [ apply Hone | apply Hargs | apply Hloop
        | by intros w Hw; eapply visits_cons; [exact Hw|apply visits_block|apply visits_opt]
        | by intros w Hw; eapply visits_pat; [exact Hw|]; first
            [ apply Hloop | intros u Hu; eapply visits_cons; [exact Hu|apply visits_block|apply visits_opt]]
        | intros w Hw%sum_opt_concat; rewrite sum_opt_map in Hw; eapply visits_each; [exact Hw|apply visits_arm]]
    | eapply visits_app; [exact Hv|apply visits_opt || apply (visits_list snd)|apply Hone || apply Hblock] ].
Qed.

End Visits.

Lemma visits_expr pkg n e w : weight pkg n e = Some w → visits w (visit_expr pkg n e).
Proof.
  revert e w. induction n as [|n IH]; intros e w Hw; [done|].
  apply weight_inv in Hw as (x & v & Hx & Hv & ->). intros s Hs. simpl. eapply leads_lift; [exact Hx|].
  by apply (visits_shape pkg n (visit_expr pkg n) IH).
Qed.

Lemma last_use_total pkg n b w : body_weight pkg n b = Some w → w < 2 ^ 32 → is_Some (compute_last_use pkg n b).
Proof.
  intros Hw Hlt. destruct (visits_block pkg n (visit_expr pkg n) (visits_expr pkg n) b w Hw) as [H0 Hv].
  specialize (Hv (mkPre ∅ 0) ltac:(simpl; lia)). unfold compute_last_use, leads in *.
  destruct (visit_block _ _ _ _) as [[[] s]|]; [by eexists|done].
Qed.

(** ** Packages *)

(** A body that has a weight below the counters' range. *)
Definition body_fits (pkg : Package) (n : nat) (b : BlockId) : bool :=
  match body_weight pkg n b with Some w => w <? 2 ^ 32 | None => false end.

Definition expr_fits (pkg : Package) (n : nat) (e : ExprId) : bool :=
  match weight pkg n e with Some w => w <? 2 ^ 32 | None => false end.

Definition opt_fits {R} (f : R → bool) (o : option R) : bool := match o with Some r => f r | None => true end.

Definition item_fits (pkg : Package) (n : nat) (id : ItemId) : bool :=
  match items pkg !! id with
  | None => false
  | Some (ItAgent a) =>
      match agents pkg !! a with
      | None => false
      | Some a =>
          forallb (λ s, opt_fits (expr_fits pkg n) (as_init s)) (ag_state a) &&
          forallb (λ h, body_fits pkg n (oh_body h)) (ag_handlers a)
      end
  | Some (ItSupervisor s) =>
      match supervisors pkg !! s with
      | None => false
      | Some s => forallb (λ c, expr_fits pkg n c.2) (su_children s)
      end
  | Some _ => true
  end.

Definition package_fits (pkg : Package) (n : nat) : bool :=
  forallb (λ f, opt_fits (body_fits pkg n) (fn_body f)) (fns pkg) && forallb (item_fits pkg n) (top_level pkg).

Section Run.
Context (typed : TypedPackage) (pkg : Package) (n : nat) (Hok : typed_ok typed).
Notation A := (ty_arena typed).
Notation costs := (costs A).

Lemma room_new w ds plan lu : 0 ≤ w < 2 ^ 32 → room A w (set_last_use lu (new_cx ds plan)).
Proof. intros Hw. exists 0. split; simpl; try lia; apply map_Forall_empty. Qed.

Lemma new_cx_returns m w s : costs w m → 0 ≤ w < 2 ^ 32 → is_Some (in_new_cx m s).
Proof.
  intros Hm Hw. pose proof (costs_framed A w None m (proj1 Hw) Hm _ (room_new w s.1 s.2 ∅ Hw)) as H.
  unfold in_new_cx. change (new_cx s.1 s.2) with (set_last_use ∅ (new_cx s.1 s.2)). unfold leads in H.
  destruct ((push_frame None ≫= _) _) as [[[] c]|]; [by eexists|done].
Qed.

Lemma body_fits_inv b : body_fits pkg n b = true →
  ∃ w, body_weight pkg n b = Some w ∧ 0 ≤ w < 2 ^ 32 ∧ costs w (walk_body typed pkg n b).
Proof.
  unfold body_fits. destruct (body_weight pkg n b) as [w|] eqn:Hw; [|done]. intros Hlt%Z.ltb_lt.
  destruct (costs_block typed pkg Hok n (walk_expr typed pkg n) (λ e w pos, costs_walk typed pkg Hok n e w pos) b w Hw).
  by exists w.
Qed.

Lemma expr_fits_returns e s : expr_fits pkg n e = true → is_Some (in_new_cx (void (walk_expr typed pkg n e Use)) s).
Proof.
  unfold expr_fits. destruct (weight pkg n e) as [w|] eqn:Hw; [|done]. intros Hlt%Z.ltb_lt.
  pose proof (weight_pos _ _ _ _ Hw). apply (new_cx_returns _ w); [|lia].
  apply costs_void; [lia|]. by apply costs_walk.
Qed.

Lemma costs_bind_params {R} (f : R → string) (g : R → TyId) sp xs :
  (∀ x, x ∈ xs → is_Some (get A (g x))) → costs 0 (each (λ x, bind_local typed (f x) (g x) sp false) xs).
Proof.
  intros Hg. apply costs_each_free. intros x Hx.
  apply costs_bind_local; [apply (to_arena typed Hok)|done|by apply Hg|done].
Qed.

Lemma fn_body_returns fid f b ds plan :
  body_fits pkg n b = true → is_Some (check_fn_body typed pkg n fid f b ds plan).
Proof.
  intros (w & Hw & Hlt & Hc)%body_fits_inv. unfold check_fn_body.
  destruct (last_use_total pkg n b w Hw) as [[lu pt] Hlu]; [lia|]. rewrite Hlu. simpl.
  assert (costs w (push_frame None ≫= λ _,
    (each (λ p : string * TyId, bind_local typed p.1 p.2 (fn_span f) false) (default [] (fn_param_tys typed !! fid)) ≫= λ _,
     walk_body typed pkg n b) ≫= λ _, pop_frame)) as H.
  { apply costs_framed; [lia|]. apply costs_bind_l; [lia| |by intros _]. apply costs_bind_params.
    intros p Hp. destruct (fn_param_tys typed !! fid) as [ps|] eqn:E; [|by apply elem_of_nil in Hp].
    pose proof (to_params typed Hok fid ps E) as Hps. simpl in Hps. rewrite Forall_forall in Hps. by apply Hps. }
  specialize (H _ (room_new w ds plan lu Hlt)). unfold leads, mbind, ST_bind, push_frame, modify in H |- *.
  destruct (each _ _ _) as [[[] c1]|]; [|done]. destruct (walk_body _ _ _ _ c1) as [[[] c2]|]; [|done].
  destruct (pop_frame c2) as [[[] c3]|]; [by eexists|done].
Qed.

Lemma each_returns {S R} (f : R → ST S unit) xs s :
  (∀ x s, x ∈ xs → is_Some (f x s)) → is_Some (each f xs s).
Proof.
  revert s. induction xs as [|x xs IH]; intros s H; [by eexists|]. simpl. unfold mbind, ST_bind.
  destruct (H x s) as [[[] s'] ->]; [constructor|]. apply IH. intros y s'' Hy. apply H. by constructor.
Qed.

Lemma each_from_returns {S R} (f : nat → R → ST S unit) i xs s :
  (∀ i x s, x ∈ xs → is_Some (f i x s)) → is_Some (each_from f i xs s).
Proof.
  revert i s. induction xs as [|x xs IH]; intros i s H; [by eexists|]. simpl. unfold mbind, ST_bind.
  destruct (H i x s) as [[[] s'] ->]; [constructor|]. apply IH. intros j y s'' Hy. apply H. by constructor.
Qed.

Lemma handler_returns h s : body_fits pkg n (oh_body h) = true → is_Some (check_handler typed pkg n h s).
Proof.
  intros (w & Hw & Hlt & Hc)%body_fits_inv. apply (new_cx_returns _ w); [|lia].
  apply costs_bind_l; [lia| |by intros _].
  apply (costs_bind_params id (λ _, unit_ty typed)). intros x _. apply (to_unit typed Hok).
Qed.

Lemma item_returns id s :
  item_fits pkg n id = true → is_Some ((it ← lift (items pkg !! id); check_item typed pkg n it) s).
Proof.
  unfold item_fits, lift, mbind, ST_bind. destruct (items pkg !! id) as [[]|]; try done; simpl; try (intros _; by eexists).
  - unfold lift, mbind, ST_bind. destruct (agents pkg !! id0) as [a|]; [|done]. intros [Hs Hh]%andb_true_iff.
    rewrite forallb_forall in Hs, Hh. setoid_rewrite <- list_elem_of_In in Hs. setoid_rewrite <- list_elem_of_In in Hh.
    destruct (each_returns (λ s, when_some (as_init s) (λ e, in_new_cx (void (walk_expr typed pkg n e Use)))) (ag_state a) s)
      as [[[] s'] E].
    { intros st s' Hst. specialize (Hs st Hst). destruct (as_init st); [by apply expr_fits_returns|by eexists]. }
    rewrite E. apply each_returns. intros h s'' Hin. by apply handler_returns, Hh.
  - unfold lift, mbind, ST_bind. destruct (supervisors pkg !! id0) as [u|]; [|done]. intros Hc.
    rewrite forallb_forall in Hc. setoid_rewrite <- list_elem_of_In in Hc.
    apply each_returns. intros c s' Hin. by apply expr_fits_returns, Hc.
Qed.

Lemma check_fns_returns s :
  (∀ f, f ∈ fns pkg → opt_fits (body_fits pkg n) (fn_body f) = true) → is_Some (check_fns typed pkg n s).
Proof.
  intros Hf. apply each_from_returns. intros fid f s' Hin. specialize (Hf f Hin).
  destruct (fn_body f) as [b|]; [|by eexists]. simpl.
  destruct (fn_body_returns fid f b s'.1 s'.2 Hf) as [r ->]. by eexists.
Qed.

Lemma run_returns : package_fits pkg n = true → is_Some (run typed pkg n).
Proof.
  intros [Hf Hi]%andb_true_iff. rewrite forallb_forall in Hf, Hi.
  setoid_rewrite <- list_elem_of_In in Hf. setoid_rewrite <- list_elem_of_In in Hi.
  destruct (check_fns_returns ([], []) Hf) as [[[] s] E].
  destruct (each_returns (λ id, it ← lift (items pkg !! id); check_item typed pkg n it) (top_level pkg) s) as [[[] s'] E'].
  { intros id s' Hin. by apply item_returns, Hi. }
  exists s'.1. unfold run. rewrite (bind_run _ _ _ _ _ E), E'. done.
Qed.

End Run.
