(* ===== verification/BorrowMoves.v ===== *)
(** * What a walk keeps

    A walk only adds diagnostics, and a local that was moved stays moved across
    every expression that does not assign it and binds no local of the same
    name ([spares]): across its branches, loops and closures. *)

From stdpp Require Import base list strings numbers gmap sets.
From S2P Require Import Prelude StateM TyArena Hir BorrowState BorrowFlow BorrowTotal.

Notation length := List.length (only parsing).

(** ** Expressions that leave a name alone *)

Section Spares.
Context (x : string) (pkg : Package).

(** The name an assignment to the expression sets. *)
Fixpoint targets (n : nat) (e : ExprId) : bool :=
  match n with
  | O => true
  | S n =>
      match exprs pkg !! e with
      | Some (EPath [y]) => bool_decide (y = x)
      | Some (EDeadline e _ | EQuestion e | ERun e) => targets n e
      | Some _ => false
      | None => true
      end
  end.

Fixpoint pat_spares (n : nat) (pid : PatId) : bool :=
  match n with
  | O => false
  | S n =>
      match pats pkg !! pid with
      | None => false
      | Some p =>
          match p with
          | PBinding y _ => bool_decide (y ≠ x)
          | PStruct _ fields => forallb (λ f : string * option PatId, match f.2 with None => bool_decide (f.1 ≠ x) | _ => true end) fields
          | _ => true
          end && forallb (pat_spares n) (pat_children p)
      end
  end.

Definition shape_spares (n : nat) (e : HirExpr) : bool :=
  match e with
  | EBinary op lhs _ => negb (is_assign op) || negb (targets n lhs)
  | ELambda params _ _ => forallb (λ p, bool_decide (param_name p ≠ x)) params
  | _ => true
  end.

Definition spares_in_block (n : nat) (spares : ExprId → bool) (p : Part) : bool :=
  match p with PExpr e => spares e | PPat p => pat_spares n p | _ => false end.

Definition spares_part (n : nat) (spares : ExprId → bool) (p : Part) : bool :=
  match p with
  | PBlock b | PLoop b =>
      match blocks pkg !! b with
      | Some blk => forallb (spares_in_block n spares) (block_parts blk)
      | None => false
      end
  | p => spares_in_block n spares p
  end.

Fixpoint spares (n : nat) (eid : ExprId) : bool :=
  match n with
  | O => false
  | S n =>
      match exprs pkg !! eid with
      | Some e => shape_spares n e && forallb (spares_part n (spares n)) (parts e)
      | None => false
      end
  end.

Definition stmt_spares (n : nat) (st : HirStmt) : bool := forallb (spares_in_block n (spares n)) (stmt_parts st).

(** *** More fuel changes nothing *)

Lemma forallb_mono {A} (f g : A → bool) xs : (∀ y, f y = true → g y = true) → forallb f xs = true → forallb g xs = true.
Proof. intros H Hf. rewrite forallb_forall in Hf |- *. auto. Qed.

Lemma targets_mono n e : targets n e = false → targets (S n) e = false.
Proof.
  revert e. induction n as [|n IH]; intros e H; [done|]. remember (S n) as m eqn:Em. simpl. subst m.
  cbn [targets] in H. destruct (exprs pkg !! e) as [[]|]; try done; by apply IH.
Qed.

Lemma pat_spares_mono n p : pat_spares n p = true → pat_spares (S n) p = true.
Proof.
  revert p. induction n as [|n IH]; intros p H; [done|]. remember (S n) as m eqn:Em. simpl. subst m.
  cbn [pat_spares] in H. destruct (pats pkg !! p) as [q|]; [|done]. apply andb_true_iff in H as [H1 H2].
  rewrite H1. simpl. by eapply forallb_mono, H2.
Qed.

Lemma spares_part_mono n f g p :
  (∀ e, f e = true → g e = true) → spares_part n f p = true → spares_part (S n) g p = true.
Proof.
  intros Hfg. assert (∀ p, spares_in_block n f p = true → spares_in_block (S n) g p = true) as Hin.
  { intros [e|q|q|q]; cbn [spares_in_block]; [apply Hfg|done|done|apply pat_spares_mono]. }
  destruct p as [e|q|q|q]; cbn [spares_part]; [apply (Hin (PExpr e))| | |apply (Hin (PPat q))];
    (destruct (blocks pkg !! q); [by apply forallb_mono|done]).
Qed.

Lemma spares_mono n e : spares n e = true → spares (S n) e = true.
Proof.
  revert e. induction n as [|n IH]; intros e H; [done|]. remember (S n) as m eqn:Em. simpl. subst m.
  cbn [spares] in H. destruct (exprs pkg !! e) as [q|]; [|done]. apply andb_true_iff in H as [H1 H2].
  apply andb_true_iff. split.
  - destruct q; try done. cbn [shape_spares] in H1 |- *. apply orb_true_iff in H1 as [->|H1]; [done|].
    apply negb_true_iff, targets_mono in H1. rewrite H1. apply orb_true_r.
  - eapply forallb_mono, H2. intros p. by apply spares_part_mono.
Qed.

End Spares.

(** ** The relation *)

Definition moved (x : string) (sp : SourceSpan) (c : BorrowCx) : Prop :=
  ∃ l, cx_locals c !! x = Some l ∧ ls_state l = Moved sp.

(** The innermost frame has not received [x]. *)
Definition frame_spared (x : string) (s s' : list ScopeFrame) : Prop :=
  match s with
  | [] => s' = []
  | f :: r => ∃ f', s' = f' :: r ∧ (x ∈ frame_locals f' → x ∈ frame_locals f)
  end.

Record keeps_move (x : string) (c c' : BorrowCx) : Prop := {
  km_moved sp : moved x sp c → moved x sp c';
  km_frame : frame_spared x (scopes c) (scopes c')
}.

Section Kept.
Context (b : bool) (x : string).

(** Diagnostics are only added; when [b], moves of [x] stay. *)
Record kept (c c' : BorrowCx) : Prop := {
  kt_diag : diag c `prefix_of` diag c';
  kt_move : b = true → keeps_move x c c'
}.

Definition keeps {R} (m : ST BorrowCx R) : Prop := ∀ c, ensures m c (λ _ c', kept c c').

Lemma frame_spared_refl s : frame_spared x s s.
Proof. destruct s as [|f r]; [done|]. by exists f. Qed.

Lemma frame_spared_trans s1 s2 s3 : frame_spared x s1 s2 → frame_spared x s2 s3 → frame_spared x s1 s3.
Proof.
  destruct s1 as [|f r]; simpl; [by intros ->|]. intros (f' & -> & H1) (f'' & -> & H2).
  exists f''. split; [done|auto].
Qed.

Lemma keeps_move_refl c : keeps_move x c c.
Proof. split; [done|apply frame_spared_refl]. Qed.

Lemma kept_refl c : kept c c.
Proof. split; [done|intros _; apply keeps_move_refl]. Qed.

Lemma kept_trans c1 c2 c3 : kept c1 c2 → kept c2 c3 → kept c1 c3.
Proof.
  intros [D1 M1] [D2 M2]. split; [by etrans|]. intros Hb. destruct (M1 Hb) as [K1 F1], (M2 Hb) as [K2 F2].
  split; [auto|by eapply frame_spared_trans].
Qed.

(** ** Rules *)

Lemma keeps_return {R} (r : R) : keeps (mret r).
Proof. intros c. apply ensures_ret, kept_refl. Qed.

Lemma keeps_stuck {R} : keeps (stuck (A := R)).
Proof. by intros c r c' H. Qed.

Lemma keeps_seq {R T} (m : ST BorrowCx R) (f : R → ST BorrowCx T) :
  keeps m → (∀ r, keeps (f r)) → keeps (m ≫= f).
Proof.
  intros Hm Hf c. apply ensures_bind. eapply ensures_mono; [apply Hm|]. intros r c' H1. simpl in H1.
  eapply ensures_mono; [apply Hf|]. intros t c'' H2. by eapply kept_trans.
Qed.

Lemma keeps_lifted {R} (o : option R) : keeps (lift o).
Proof. intros c r c'. unfold lift. destruct o; [|done]. intros [= <- <-]. apply kept_refl. Qed.

Lemma keeps_gets {R} (f : BorrowCx → R) : keeps (gets f).
Proof. intros c r c' [= <- <-]. apply kept_refl. Qed.

Lemma keeps_modify f : (∀ c, kept c (f c)) → keeps (modify f).
Proof. intros H c r c' [= <- <-]. apply H. Qed.

Lemma keeps_void {R} (m : ST BorrowCx R) : keeps m → keeps (void m).
Proof. intros H. apply keeps_seq; [done|intros r; apply keeps_return]. Qed.

Lemma keeps_when_some {R} (o : option R) f : (∀ r, o = Some r → keeps (f r)) → keeps (when_some o f).
Proof. intros H. destruct o; [by apply H|apply keeps_return]. Qed.

Lemma keeps_each {R} (f : R → ST BorrowCx unit) xs : (∀ y, y ∈ xs → keeps (f y)) → keeps (each f xs).
Proof.
  induction xs as [|y ys IH]; intros H; [apply keeps_return|]. simpl. apply keeps_seq; [apply H; constructor|].
  intros _. apply IH. intros z Hz. apply H. by constructor.
Qed.

Lemma keeps_each_from {R} (f : nat → R → ST BorrowCx unit) i xs :
  (∀ i y, y ∈ xs → keeps (f i y)) → keeps (each_from f i xs).
Proof.
  revert i. induction xs as [|y ys IH]; intros i H; [apply keeps_return|]. simpl.
  apply keeps_seq; [apply H; constructor|]. intros _. apply IH. intros j z Hz. apply H. by constructor.
Qed.

(** ** The operations on a context *)

Lemma kept_same_diag c c' :
  diag c' = diag c → scopes c' = scopes c → (b = true → ∀ sp, moved x sp c → moved x sp c') → kept c c'.
Proof.
  intros Hd Hs Hm. split; [by rewrite Hd|]. intros Hb. split; [by apply Hm|]. rewrite Hs. apply frame_spared_refl.
Qed.

Lemma kept_push d c : kept c (set_diag (diag c ++ d) c).
Proof. split; [by apply prefix_app_r|]. intros _. split; [done|apply frame_spared_refl]. Qed.

Lemma keeps_push_diag d : keeps (push_diag d).
Proof. apply keeps_modify. intros c. apply kept_push. Qed.

Lemma keeps_set_ledger f : keeps (modify (λ c, set_ledger (f c) c)).
Proof. apply keeps_modify. intros c. by apply kept_same_diag. Qed.

Lemma moved_put y l c sp : moved x sp c → (y = x → ls_state l = Moved sp) → moved x sp (set_locals (<[y := l]> (cx_locals c)) c).
Proof.
  intros (l' & Hl & Hs) Hy. destruct (decide (y = x)) as [->|Hne].
  - exists l. simpl. rewrite lookup_insert_eq. auto.
  - exists l'. simpl. by rewrite lookup_insert_ne.
Qed.

Lemma keeps_recompute y : keeps (recompute_root_state y).
Proof.
  intros c r c'. unfold recompute_root_state. case_bool_decide; [|done]. intros [= <- <-].
  apply kept_same_diag; [done|done|]. intros _ sp (l & Hl & Hs).
  destruct (decide (y = x)) as [->|Hne].
  - exists (recomputed x (ledger c) l). simpl. rewrite lookup_alter_eq, Hl. split; [done|].
    unfold recomputed. by rewrite Hs.
  - exists l. simpl. by rewrite lookup_alter_ne.
Qed.

Lemma keeps_decay y : keeps (maybe_decay_after_use y).
Proof.
  apply keeps_seq; [apply keeps_gets|intros pt]. apply keeps_seq; [apply keeps_gets|intros [last|]]; [|apply keeps_return].
  case_bool_decide; [|apply keeps_return]. apply keeps_seq; [apply keeps_gets|intros l]. simpl.
  apply keeps_seq; [apply keeps_set_ledger|intros _]. apply keeps_each. intros r' _. apply keeps_recompute.
Qed.

Lemma keeps_advance : keeps advance_point.
Proof.
  intros c r c'. unfold advance_point. destruct (succ_u32 _); [|done]. intros [= <- <-]. by apply kept_same_diag.
Qed.

Lemma keeps_use y sp : keeps (do_use y sp).
Proof.
  apply keeps_seq; [apply keeps_gets|intros ls]. destruct (ls_state <$> ls !! y) as [[]|]; apply keeps_return || apply keeps_push_diag.
Qed.

Lemma keeps_do_move y sp : keeps (do_move y sp).
Proof.
  intros c r c' H. unfold do_move, gets in H. unfold mbind at 1 2, ST_bind in H.
  destruct (cx_locals c !! y) as [l|] eqn:Hl; [|by injection H as <- <-; apply kept_refl].
  destruct (ls_state l) eqn:Hst.
  - revert r c' H. change (ensures
      ((if subplace_borrowed y (ledger c) then push_diag (move_out_of_borrow y sp) else mret ()) ≫= λ _,
       if ls_is_copy l then mret () else put_local y (set_state (Moved sp) l)) c (λ _ c', kept c c')).
    apply ensures_bind. eapply ensures_mono with (Q := λ _ c', kept c c' ∧ cx_locals c' = cx_locals c).
    + destruct (subplace_borrowed y (ledger c)); intros r c' [= <- <-]; split; try done;
        [apply kept_push|apply kept_refl].
    + intros _ c1 [H1 Hc1]. destruct (ls_is_copy l); intros r c' [= <- <-]; [done|].
      eapply kept_trans; [exact H1|]. apply kept_same_diag; [done|done|]. intros _ sp' Hm.
      apply moved_put; [done|]. intros ->. destruct Hm as (l' & Hl' & Hs'). rewrite Hc1 in Hl'. congruence.
  - by apply (keeps_push_diag _ _ _ _ H).
  - revert H. destruct (_ && _); intros H; by apply (keeps_push_diag _ _ _ _ H).
  - revert H. destruct (_ && _); intros H; by apply (keeps_push_diag _ _ _ _ H).
  - by apply (keeps_push_diag _ _ _ _ H).
Qed.

Lemma keeps_do_assign y sp : (b = true → y ≠ x) → keeps (do_assign y sp).
Proof.
  intros Hy. apply keeps_seq; [apply keeps_gets|intros ls]. destruct (ls !! y) as [l|]; [|apply keeps_return].
  apply keeps_seq; [destruct (ls_mutable l); apply keeps_return || apply keeps_push_diag|intros _].
  apply keeps_modify. intros c. apply kept_same_diag; [done|done|]. intros Hb sp' Hm. apply moved_put; [done|].
  intros ->. by destruct (Hy Hb).
Qed.

Lemma keeps_record p k sp : keeps (record_borrow p k sp).
Proof.
  apply keeps_seq; [apply keeps_set_ledger|intros _]. intros c r c' H. unfold gets in H. unfold mbind at 1, ST_bind in H.
  destruct (cx_locals c !! root p) as [l|] eqn:Hl; [|by injection H as <- <-; apply kept_refl].
  unfold lift, mbind, ST_bind in H. destruct (borrowed_state (ls_state l) k) as [o|] eqn:Ho; [|done].
  injection H as <- <-. apply kept_same_diag; [done|done|]. intros _ sp' Hm. apply moved_put; [done|].
  intros <-. destruct Hm as (l' & Hl' & Hs'). assert (l' = l) as -> by congruence. rewrite Hs' in Ho.
  destruct k; by injection Ho as <-.
Qed.

Lemma keeps_place_borrow p k sp : keeps (try_place_borrow p k sp).
Proof.
  apply keeps_seq; [apply keeps_gets|intros ls]. cbv zeta. apply keeps_seq; [|intros _].
  - destruct k, (ls !! root p) as [l|]; try apply keeps_return. destruct (ls_mutable l); apply keeps_return || apply keeps_push_diag.
  - assert (keeps (l ← gets ledger; when_some (borrow_conflict p k sp l) push_diag ≫= λ _, record_borrow p k sp)) as H.
    { apply keeps_seq; [apply keeps_gets|intros l]. apply keeps_seq; [|intros _; apply keeps_record].
      apply keeps_when_some. intros d _. apply keeps_push_diag. }
    destruct (ls_state <$> ls !! root p) as [[]|]; done || apply keeps_push_diag.
Qed.

Lemma keeps_borrow typed k y sp : keeps (do_borrow typed k y sp).
Proof.
  apply keeps_seq.
  - apply keeps_seq; [apply keeps_gets|intros ls]. destruct (ls !! y); [|apply keeps_return].
    apply keeps_seq; [apply keeps_lifted|intros t; apply keeps_return].
  - intros []; [apply keeps_use|apply keeps_place_borrow].
Qed.

Lemma keeps_bind_local typed y ty sp m o :
  (b = true → y ≠ x) → keeps (bind_local_with_state typed y ty sp m o).
Proof.
  intros Hy. apply keeps_seq; [apply keeps_lifted|intros cp]. apply keeps_seq; [apply keeps_gets|intros rg].
  apply keeps_seq; [|intros _].
  - apply keeps_modify. intros c. apply kept_same_diag; [done|done|]. intros Hb sp' Hm. apply moved_put; [done|].
    intros ->. by destruct (Hy Hb).
  - apply keeps_modify. intros c. destruct (scopes c) as [|f rest] eqn:E; [apply kept_refl|].
    split; [done|]. intros Hb. split; [done|]. simpl. rewrite E. exists (mkFrame (frame_locals f ++ [y]) (frame_region f)).
    split; [done|]. simpl. intros [H|H%list_elem_of_singleton]%elem_of_app; [done|]. by destruct (Hy Hb).
Qed.

Lemma keeps_lift_bind {R T} (o : option R) (k : R → ST BorrowCx T) :
  (∀ r, o = Some r → keeps (k r)) → keeps (lift o ≫= k).
Proof.
  intros H c t c' E. unfold lift, mbind, ST_bind in E. destruct o as [r|]; [|done]. by eapply (H r).
Qed.

Lemma keeps_bind_pattern typed pkg n pid ty m o :
  (b = true → pat_spares x pkg n pid = true) → keeps (bind_pattern_inner_mut typed pkg n pid ty m o).
Proof.
  revert pid ty. induction n as [|n IH]; intros pid ty Hsp; [apply keeps_stuck|]. simpl in Hsp |- *.
  apply keeps_lift_bind. intros p Hp. rewrite Hp in Hsp.
  assert (∀ q t, q ∈ pat_children p → keeps (bind_pattern_inner_mut typed pkg n q t m o)) as Hc.
  { intros q t Hq. apply IH. intros Hb. apply Hsp, andb_true_iff in Hb as [_ Hb].
    rewrite forallb_forall in Hb. by apply Hb, list_elem_of_In. }
  destruct p as [|l|y sub|rm inner|xs|path fields|path args|lo hi incl]; try apply keeps_return; simpl in Hc.
  - apply keeps_seq; [|intros _].
    + apply keeps_bind_local. intros Hb. apply Hsp, andb_true_iff in Hb as [Hb _]. by apply bool_decide_eq_true in Hb.
    + apply keeps_when_some. intros s ->. apply Hc. constructor.
  - apply keeps_seq; [apply keeps_lifted|intros t]. apply Hc. constructor.
  - apply keeps_seq; [apply keeps_lifted|intros t]. apply keeps_each_from. intros i q Hq. by apply Hc.
  - apply keeps_each. intros [y [s|]] Hy; simpl.
    + apply Hc. apply list_elem_of_omap. by exists (y, Some s).
    + apply keeps_bind_local. intros Hb. apply Hsp, andb_true_iff in Hb as [Hb _].
      rewrite forallb_forall in Hb. apply list_elem_of_In, Hb in Hy. by apply bool_decide_eq_true in Hy.
  - apply keeps_each. intros s Hs. by apply Hc.
Qed.

(** ** Frames *)

Lemma keeps_depart y : (b = true → y ≠ x) → keeps (modify (depart y)).
Proof.
  intros Hy. apply keeps_modify. intros c. apply kept_same_diag; [done|done|]. intros Hb sp (l & Hl & Hs).
  exists l. simpl. by rewrite lookup_delete_ne by auto.
Qed.

Lemma keeps_close names : (b = true → x ∉ names) → keeps (close_frame names).
Proof.
  intros Hn. apply keeps_seq; [apply keeps_modify; intros c; apply kept_push|intros _].
  apply keeps_seq; [apply keeps_gets|intros l]. simpl. apply keeps_seq; [apply keeps_set_ledger|intros _].
  apply keeps_seq; [apply keeps_each; intros r _; apply keeps_recompute|intros _].
  apply keeps_seq; [apply keeps_set_ledger|intros _]. apply keeps_each. intros y Hy.
  apply keeps_depart. intros Hb ->. by apply Hn.
Qed.

Lemma keeps_framed {R} rg (m : ST BorrowCx R) : keeps m → keeps (push_frame rg ≫= λ _, m ≫= λ _, pop_frame).
Proof.
  intros Hm c u c'. change ((push_frame rg ≫= λ _, m ≫= λ _, pop_frame) c) with
    ((m ≫= λ _, pop_frame) (set_scopes (mkFrame [] rg :: scopes c) c)).
  revert u c'. apply (ensures_bind m (λ _, pop_frame)). eapply ensures_mono; [apply Hm|]. intros r c1 [Hd Hk] u c' Hp.
  simpl in Hd, Hk.
  destruct (scopes c1) as [|f rest] eqn:Es.
  { unfold pop_frame, mbind at 1, ST_bind, gets in Hp. by rewrite Es in Hp. }
  rewrite (pop_frame_close _ _ _ Es) in Hp.
  assert (b = true → rest = scopes c ∧ x ∉ frame_locals f) as Hrest.
  { intros Hb. destruct (km_frame _ _ _ (Hk Hb)) as (f' & Hf & Hx). simpl in Hf. rewrite Es in Hf.
    injection Hf as -> ->. split; [done|]. intros Hin. by apply not_elem_of_nil in Hx. }
  apply (keeps_close (frame_locals f)) in Hp; [|by intros Hb; apply Hrest].
  destruct Hp as [Hd' Hk']. split; [by etrans|]. intros Hb. destruct (Hk Hb) as [K1 _], (Hk' Hb) as [K2 F2].
  split; [intros sp Hs; by apply K2, K1|]. destruct (Hrest Hb) as [-> _]. done.
Qed.

(** ** Joins *)

Lemma moved_join sp a c1 c2 :
  moved x sp c1 → moved x sp c2 → cx_locals a = join_states (cx_locals c1) (cx_locals c2) → moved x sp a.
Proof.
  intros (l1 & H1 & S1) (l2 & H2 & S2) Ha. unfold moved. rewrite Ha, join_states_lookup, H1, H2.
  eexists. split; [done|]. unfold join_local. by rewrite S1, S2.
Qed.

(** The context [c2] with the joined locals, both sides coming from [c]. *)
Lemma kept_join c c1 c2 c3 ls l :
  kept c c3 → (b = true → ∀ sp, moved x sp c → moved x sp c1 ∧ moved x sp c2) →
  ls = join_states (cx_locals c1) (cx_locals c2) → kept c (set_ledger l (set_locals ls c3)).
Proof.
  intros [Hd Hk] Hm ->. split; [done|]. intros Hb. destruct (Hk Hb) as [_ F]. split; [|done].
  intros sp Hs. destruct (Hm Hb sp Hs) as [H1 H2]. by eapply (moved_join sp _ c1 c2).
Qed.

Lemma keeps_loop_rounds m prev body c0 c :
  keeps body → kept c0 c → ensures (loop_rounds m prev (cx_locals c0) (ledger c0) body) c (λ _ c', kept c0 c').
Proof.
  intros Hbody. revert prev c.
  assert (∀ c, kept c0 c → ensures (loop_round (cx_locals c0) (ledger c0) body) c (λ _ c', kept c0 c')) as Hround.
  { intros c Hc. apply ensures_bind. eapply ensures_mono; [apply Hbody|]. intros r c1 H1 u c' [= <- <-]. simpl in H1.
    assert (kept c0 c1) as H2 by (by eapply kept_trans). eapply (kept_join c0 c0 c1 c1); [done| |done].
    intros Hb sp Hs. split; [done|]. by apply (km_moved _ _ _ (kt_move _ _ H2 Hb)). }
  induction m as [|m IH]; intros prev c Hc; [by apply Hround|]. simpl. apply ensures_bind.
  eapply ensures_mono; [by apply Hround|]. intros r c1 H1. simpl in H1.
  intros u c' H. unfold gets, mbind, ST_bind in H. case_bool_decide; [by injection H as <- <-|]. by eapply IH.
Qed.

Lemma keeps_loop body : keeps body → keeps (loop_fixed_point body).
Proof.
  intros Hb c u c' H. unfold loop_fixed_point, gets, mbind, ST_bind in H.
  eapply keeps_loop_rounds; [done|apply kept_refl|exact H].
Qed.

(** The restored locals of [c0], wherever the walk has got to. *)
Lemma kept_restore c0 c l :
  kept c0 c → kept c0 (set_ledger l (set_locals (cx_locals c0) c)).
Proof. intros [Hd Hk]. split; [done|]. intros Hb. destruct (Hk Hb) as [_ F]. by split. Qed.

Lemma keeps_branches walk then_ else_ :
  keeps then_ → keeps (when_some else_ (use walk)) → keeps (branches walk then_ else_).
Proof.
  intros Ht He c u c'. unfold branches, gets. unfold mbind at 1 2, ST_bind. revert u c'.
  apply ensures_bind. eapply ensures_mono; [apply Ht|]. intros r c1 H1. simpl in H1.
  intros u c'. unfold gets, modify. unfold mbind at 1 2 3 4, ST_bind. revert u c'.
  set (c2 := set_ledger (ledger c) (set_locals (cx_locals c) c1)).
  assert (kept c c2) as H2 by (by apply kept_restore).
  apply ensures_bind. eapply ensures_mono; [apply He|]. intros r' c3 H3 u c' [= <- <-]. simpl in H3.
  assert (kept c c3) as H4 by (by eapply kept_trans).
  eapply (kept_join c c3 c1 c3); [done| |reflexivity].
  intros Hb sp Hs. split; [by apply (km_moved _ _ _ (kt_move _ _ H4 Hb))|by apply (km_moved _ _ _ (kt_move _ _ H1 Hb))].
Qed.

Lemma keeps_arms typed pkg n walk ty c0 arms joined c :
  (∀ arm, arm ∈ arms → keeps (walk_arm typed pkg n walk ty arm)) → kept c0 c →
  (let '(ls, l) := default (cx_locals c0, ledger c0) joined in
   b = true → ∀ sp, moved x sp c0 → moved x sp (set_locals ls c)) →
  ensures (walk_arms typed pkg n walk ty (cx_locals c0) (ledger c0) joined arms) c (λ _ c', kept c0 c').
Proof.
  revert joined c. induction arms as [|arm arms IH]; intros joined c Harms Hc Hj; simpl.
  - destruct (default (cx_locals c0, ledger c0) joined) as [ls l]. intros u c' [= <- <-].
    destruct Hc as [Hd Hk]. split; [done|]. intros Hb. destruct (Hk Hb) as [_ F]. split; [|done].
    intros sp Hs. by apply Hj.
  - intros u c'. unfold modify. unfold mbind at 1 2, ST_bind. revert u c'.
    set (c1 := set_ledger (ledger c0) (set_locals (cx_locals c0) c)).
    assert (kept c0 c1) as H1 by (by apply kept_restore).
    apply ensures_bind. eapply ensures_mono; [apply Harms; constructor|]. intros r c2 H2. simpl in H2.
    assert (kept c0 c2) as H3 by (by eapply kept_trans). intros u c'. unfold gets, mbind, ST_bind. revert u c'.
    apply IH; [intros a Ha; apply Harms; by constructor|done|].
    destruct joined as [[jls jl]|]; simpl in Hj |- *; intros Hb sp Hs.
    + apply (moved_join sp _ (set_locals jls c) c2); [by apply Hj|by apply (km_moved _ _ _ (kt_move _ _ H3 Hb))|done].
    + destruct c2. by apply (km_moved _ _ _ (kt_move _ _ H3 Hb)).
Qed.

(** ** The walk *)

Section Walk.
Context (typed : TypedPackage) (pkg : Package) (n : nat) (walk : ExprId → Position → ST BorrowCx (option string)).
Hypothesis Hwalk : ∀ e pos, (b = true → spares x pkg n e = true) →
  (b = true → pos = AssignTarget → targets x pkg n e = false) → keeps (walk e pos).
Notation fits := (spares_part x pkg n (spares x pkg n)).
Notation fits_in := (spares_in_block x pkg n (spares x pkg n)).

Lemma keeps_use_expr e : (b = true → spares x pkg n e = true) → keeps (use walk e).
Proof. intros H. apply keeps_void. by apply Hwalk. Qed.

Lemma keeps_uses {R} (g : R → ExprId) xs :
  (b = true → forallb fits (map (λ y, PExpr (g y)) xs) = true) → keeps (each (λ y, use walk (g y)) xs).
Proof.
  intros H. apply keeps_each. intros y Hy. apply keeps_use_expr. intros Hb. specialize (H Hb).
  rewrite forallb_forall in H. apply (H (PExpr (g y))), list_elem_of_In, list_elem_of_fmap. by exists y.
Qed.

Lemma keeps_opt o : (b = true → forallb fits (opt_part o) = true) → keeps (when_some o (use walk)).
Proof.
  intros H. apply keeps_when_some. intros e ->. apply keeps_use_expr. intros Hb. specialize (H Hb).
  simpl in H. by rewrite andb_true_r in H.
Qed.

Lemma keeps_as_borrower name m : keeps m → keeps (as_borrower name m).
Proof.
  intros H. apply keeps_seq; [apply keeps_gets|intros prev].
  apply keeps_seq; [apply keeps_modify; intros c; by apply kept_same_diag|intros _].
  apply keeps_seq; [done|intros _]. apply keeps_modify. intros c. by apply kept_same_diag.
Qed.

Lemma keeps_stmt st : (b = true → stmt_spares x pkg n st = true) → keeps (walk_stmt typed pkg n walk st).
Proof.
  unfold stmt_spares. intros H. destruct st as [pid ty init mutable|e]; simpl in H |- *.
  - apply keeps_seq; [apply keeps_lifted|intros name]. apply keeps_seq; [|intros _].
    + destruct init as [e|]; [|apply keeps_return]. apply keeps_as_borrower, keeps_use_expr. intros Hb.
      by apply H, andb_true_iff in Hb as [Hb _].
    + apply keeps_bind_pattern. intros Hb. apply H in Hb. rewrite forallb_app, andb_true_iff in Hb.
      destruct Hb as [_ Hb]. simpl in Hb. by rewrite andb_true_r in Hb.
  - apply keeps_use_expr. intros Hb. apply H in Hb. by rewrite andb_true_r in Hb.
Qed.

Lemma fits_block p blk : fits (PBlock p) = true → blocks pkg !! p = Some blk → forallb fits_in (block_parts blk) = true.
Proof. simpl. intros H Hb. by rewrite Hb in H. Qed.

Lemma block_stmts blk : forallb fits_in (block_parts blk) = true → ∀ st, st ∈ stmts blk → stmt_spares x pkg n st = true.
Proof.
  unfold block_parts. rewrite forallb_app, andb_true_iff. intros [H _] st Hst.
  unfold stmt_spares. rewrite forallb_forall in H |- *. intros p Hp. apply H. apply in_concat.
  exists (stmt_parts st). split; [|done]. apply in_map. by apply list_elem_of_In.
Qed.

Lemma block_tail blk : forallb fits_in (block_parts blk) = true → forallb fits (opt_part (tail blk)) = true.
Proof.
  unfold block_parts. rewrite forallb_app, andb_true_iff. intros [_ H]. by destruct (tail blk).
Qed.

Lemma keeps_block p : (b = true → fits (PBlock p) = true) → keeps (walk_block typed pkg n walk p).
Proof.
  intros H c u c'. unfold walk_block.
  intros E. assert ((push_frame None ≫= λ _,
    (blk ← lift (blocks pkg !! p); each (walk_stmt typed pkg n walk) (stmts blk) ≫= λ _, when_some (tail blk) (use walk)) ≫= λ _,
    pop_frame) c = Some (u, c')) as E'.
  { rewrite <- E. unfold mbind, ST_bind, push_frame, modify, lift. destruct (blocks pkg !! p) as [blk|]; [|done].
    by destruct (each _ _ _) as [[? ?]|]. }
  eapply keeps_framed, E'. apply keeps_lift_bind. intros blk Hblk.
  apply keeps_seq; [|intros _].
  - apply keeps_each. intros st Hst. apply keeps_stmt. intros Hb. eapply block_stmts, Hst. by eapply fits_block, Hblk; apply H.
  - apply keeps_opt. intros Hb. apply block_tail. by eapply fits_block, Hblk; apply H.
Qed.

Lemma keeps_with_pattern pid ty m :
  (b = true → pat_spares x pkg n pid = true) → keeps m → keeps (with_pattern typed pkg n pid ty m).
Proof.
  intros Hp Hm c u c' E. assert ((push_frame None ≫= λ _, (bind_pattern typed pkg n pid ty ≫= λ _, m) ≫= λ _, pop_frame) c
    = Some (u, c')) as E'.
  { rewrite <- E. unfold with_pattern, mbind, ST_bind, push_frame, modify. by destruct (bind_pattern _ _ _ _ _ _) as [[? ?]|]. }
  eapply keeps_framed, E'. apply keeps_seq; [by apply keeps_bind_pattern|done].
Qed.

Lemma keeps_arm ty arm : (b = true → forallb fits (arm_parts arm) = true) → keeps (walk_arm typed pkg n walk ty arm).
Proof.
  intros H. apply keeps_with_pattern.
  - intros Hb. by apply H, andb_true_iff in Hb as [Hb _].
  - assert (b = true → forallb fits (opt_part (arm_guard arm)) = true ∧ spares x pkg n (arm_body arm) = true) as Hg.
    { intros Hb. specialize (H Hb). unfold arm_parts in H. cbn [forallb] in H.
      rewrite forallb_app, !andb_true_iff in H. destruct H as (_ & H1 & H2). split; [done|].
      simpl in H2. by rewrite andb_true_r in H2. }
    apply keeps_seq; [apply keeps_opt; naive_solver|intros _]. apply keeps_use_expr. naive_solver.
Qed.

(** What the name of an assignment's target must not be. *)
Definition target_shape (e : HirExpr) : bool :=
  match e with
  | EPath [y] => bool_decide (y = x)
  | EDeadline e _ | EQuestion e | ERun e => targets x pkg n e
  | _ => false
  end.

Lemma keeps_at y pos : (b = true → pos = AssignTarget → y ≠ x) → keeps (at_position typed y pos).
Proof.
  intros H. destruct pos; simpl; [apply keeps_use|apply keeps_do_move|apply keeps_borrow..|].
  apply keeps_do_assign. intros Hb. by apply H.
Qed.

Lemma keeps_at_field y pos : keeps (at_field_position y pos).
Proof.
  destruct pos; simpl; [apply keeps_use|apply keeps_do_move|apply keeps_use..|].
  apply keeps_seq; [apply keeps_gets|intros ls]. destruct (ls !! y) as [l|]; [|apply keeps_return].
  destruct (ls_mutable l); apply keeps_return || apply keeps_push_diag.
Qed.

Lemma keeps_path segs pos :
  (b = true → pos = AssignTarget → target_shape (EPath segs) = false) → keeps (walk_path typed segs pos).
Proof.
  intros H. destruct segs as [|y fields]; [apply keeps_return|]. simpl.
  apply keeps_seq; [apply keeps_advance|intros _]. apply keeps_seq; [apply keeps_gets|intros known].
  apply keeps_seq; [|intros _; apply keeps_seq; [apply keeps_decay|intros _; apply keeps_return]].
  destruct known; [|apply keeps_return]. destruct fields; [|apply keeps_at_field]. apply keeps_at.
  intros Hb Hp. specialize (H Hb Hp). by apply bool_decide_eq_false in H.
Qed.

Lemma keeps_path_generic segs pos : keeps (walk_path_generic segs pos).
Proof.
  destruct segs as [|y fields]; [apply keeps_return|]. simpl.
  apply keeps_seq; [apply keeps_advance|intros _]. apply keeps_seq; [apply keeps_gets|intros known].
  apply keeps_seq; [|intros _; apply keeps_seq; [apply keeps_decay|intros _; apply keeps_return]].
  destruct (match fields with [] => known | _ => false end); [|apply keeps_return].
  destruct pos; apply keeps_use || apply keeps_return.
Qed.

Lemma keeps_deref e sp : keeps (check_deref_move typed pkg n e sp).
Proof.
  unfold check_deref_move. destruct (expr_ty typed !! e); [|apply keeps_return].
  apply keeps_seq; [apply keeps_lifted|intros t]. destruct t; try apply keeps_return.
  apply keeps_seq; [apply keeps_lifted|intros []]; [apply keeps_return|].
  apply keeps_seq; [apply keeps_lifted|intros p; apply keeps_push_diag].
Qed.

Lemma keeps_points m e : keeps (walk_for_points_only pkg m e).
Proof.
  revert e. induction m as [|m IH]; intros e; [apply keeps_stuck|]. simpl.
  apply keeps_seq; [apply keeps_lifted|intros q].
  assert (∀ y, keeps (advance_point ≫= λ _, maybe_decay_after_use y)) as Hread.
  { intros y. apply keeps_seq; [apply keeps_advance|intros _; apply keeps_decay]. }
  destruct q; try apply keeps_return; try apply IH.
  - destruct segs; [apply keeps_return|apply Hread].
  - apply keeps_seq; [apply IH|intros _; apply IH].
  - destruct segments; [apply keeps_return|apply Hread].
Qed.

Lemma keeps_walk_use e : (b = true → spares x pkg n e = true) → ∀ pos, pos ≠ AssignTarget → keeps (walk e pos).
Proof. intros H pos Hp. apply Hwalk; [done|]. intros _ ?. done. Qed.

Lemma keeps_unary op e pos : (b = true → spares x pkg n e = true) → keeps (walk_unary typed pkg n walk op e pos).
Proof.
  intros H. apply keeps_seq; [|intros _; by apply keeps_use_expr].
  destruct op; try apply keeps_return. destruct pos; apply keeps_return || apply keeps_deref.
Qed.

Lemma keeps_binary op l r :
  (b = true → (is_assign op = true → targets x pkg n l = false) ∧ spares x pkg n l = true ∧ spares x pkg n r = true) →
  keeps (walk_binary pkg walk op l r).
Proof.
  intros H. apply keeps_seq; [|intros _].
  - apply keeps_void, Hwalk; [naive_solver|]. intros Hb. destruct (is_assign op); [|done]. naive_solver.
  - apply keeps_seq; [apply keeps_lifted|intros name]. assert (keeps (use walk r)) by (apply keeps_use_expr; naive_solver).
    destruct name; [by apply keeps_as_borrower|done].
Qed.

Lemma keeps_borrow_expr mutable e : (b = true → spares x pkg n e = true) → keeps (walk_borrow pkg n walk mutable e).
Proof.
  intros H. apply keeps_seq; [apply keeps_gets|intros ls]. apply keeps_seq; [apply keeps_lifted|intros [p|]].
  - apply keeps_seq; [apply keeps_place_borrow|intros _; apply keeps_points].
  - apply keeps_void, keeps_walk_use; [done|by destruct mutable].
Qed.

Lemma spares_sub e q p :
  (b = true → spares x pkg n e = true) → exprs pkg !! e = Some q → p ∈ parts q → b = true → fits p = true.
Proof.
  intros H Hq Hp Hb. specialize (H Hb). destruct n as [|m]; [done|]. cbn [spares] in H. rewrite Hq in H.
  apply andb_true_iff in H as [_ H]. rewrite forallb_forall in H.
  apply (spares_part_mono x pkg m (spares x pkg m)); [apply spares_mono|]. by apply H, list_elem_of_In.
Qed.

Lemma keeps_move_expr e : (b = true → spares x pkg n e = true) → keeps (walk_move typed pkg n walk e).
Proof.
  intros H. apply keeps_lift_bind. intros q Hq.
  assert (keeps (void (walk e Move))) as Hv by (by apply keeps_void, keeps_walk_use).
  destruct q; try done. destruct op; try done. apply keeps_seq; [apply keeps_deref|intros _].
  apply keeps_use_expr. eapply (spares_sub _ _ (PExpr rhs)); [done|done|constructor].
Qed.

Lemma keeps_args (m : nat → HirArg → ST BorrowCx unit) i args :
  (b = true → forallb fits (arg_parts args) = true) →
  (∀ i a, (b = true → spares x pkg n (arg_value a) = true) → keeps (m i a)) → keeps (each_from m i args).
Proof.
  intros H Hm. apply keeps_each_from. intros j a Ha. apply Hm. intros Hb. specialize (H Hb).
  rewrite forallb_forall in H. apply (H (PExpr (arg_value a))), in_map_iff. exists a. split; [done|by apply list_elem_of_In].
Qed.

Lemma keeps_call e args :
  (b = true → spares x pkg n e = true ∧ forallb fits (arg_parts args) = true) → keeps (walk_call typed walk e args).
Proof.
  intros H. apply keeps_seq; [apply keeps_use_expr; naive_solver|intros _].
  apply keeps_seq; [apply keeps_lifted|intros ps]. apply keeps_args; [naive_solver|]. intros i a Ha.
  apply keeps_lift_bind. intros pos Hpos. apply keeps_void, keeps_walk_use; [done|]. intros ->.
  unfold arg_position in Hpos. destruct (ps !! i) as [t|]; [|done]. destruct (get (arena typed) t) as [[]|]; try done.
  by destruct mutable.
Qed.

Lemma keeps_method e args :
  (b = true → spares x pkg n e = true ∧ forallb fits (arg_parts args) = true) → keeps (walk_method_call walk e args).
Proof.
  intros H. apply keeps_seq; [apply keeps_void, keeps_walk_use; [naive_solver|done]|intros _].
  apply (keeps_uses arg_value). naive_solver.
Qed.

Lemma keeps_message e args :
  (b = true → spares x pkg n e = true ∧ forallb fits (arg_parts args) = true) → keeps (walk_message typed walk e args).
Proof.
  intros H. apply keeps_seq; [apply keeps_use_expr; naive_solver|intros _]. apply keeps_each. intros a Ha.
  apply keeps_seq; [|intros name].
  - apply keeps_walk_use; [|done]. intros Hb. destruct (H Hb) as [_ H']. rewrite forallb_forall in H'.
    apply (H' (PExpr (arg_value a))), in_map_iff. exists a. split; [done|by apply list_elem_of_In].
  - destruct (expr_ty typed !! arg_value a); [|apply keeps_return].
    apply keeps_seq; [apply keeps_lifted|intros []]; apply keeps_return || apply keeps_push_diag.
Qed.

Lemma keeps_match e arms :
  (b = true → spares x pkg n e = true ∧ ∀ arm, arm ∈ arms → forallb fits (arm_parts arm) = true) →
  keeps (walk_match typed pkg n walk e arms).
Proof.
  intros H. apply keeps_seq; [apply keeps_use_expr; naive_solver|intros _]. intros c u c' E.
  unfold gets, mbind, ST_bind in E. eapply (keeps_arms typed pkg n walk _ c arms None c); [|apply kept_refl| |exact E].
  - intros arm Ha. apply keeps_arm. intros Hb. by apply (H Hb).
  - intros _ sp. by destruct c.
Qed.

Lemma keeps_loop_pattern pid ty p :
  (b = true → pat_spares x pkg n pid = true ∧ fits (PLoop p) = true) →
  keeps (loop_fixed_point (with_pattern typed pkg n pid ty (walk_block typed pkg n walk p))).
Proof.
  intros H. apply keeps_loop, keeps_with_pattern; [naive_solver|]. apply keeps_block. intros Hb. by apply H.
Qed.

Lemma keeps_lambda params p :
  (b = true → forallb (λ p, bool_decide (param_name p ≠ x)) params = true ∧ fits (PBlock p) = true) →
  keeps (walk_lambda typed pkg n walk params p).
Proof.
  intros H c u c' E.
  assert (keeps (push_frame None ≫= λ _,
    (each (λ p, bind_local typed (param_name p) (unit_ty typed) (param_span p) false) params ≫= λ _,
     walk_block typed pkg n walk p) ≫= λ _, pop_frame)) as Hf.
  { apply keeps_framed, keeps_seq; [|intros _; apply keeps_block; intros Hb; by apply H].
    apply keeps_each. intros q Hq. apply keeps_bind_local. intros Hb. destruct (H Hb) as [Hp _].
    rewrite forallb_forall in Hp. by apply list_elem_of_In, Hp, bool_decide_eq_true in Hq. }
  specialize (Hf c). unfold walk_lambda, ensures, mbind, ST_bind, gets, push_frame, modify in Hf, E.
  destruct (each _ _ _) as [[u1 c1]|]; [|done]. destruct (walk_block _ _ _ _ _ c1) as [[u2 c2]|]; [|done].
  destruct (pop_frame c2) as [[u3 c3]|] eqn:E3; [|done]. injection E as <- <-.
  apply kept_restore. by eapply Hf.
Qed.

Lemma keeps_arena e : (b = true → spares x pkg n e = true) → keeps (walk_arena typed pkg n walk e).
Proof.
  intros H. apply keeps_seq; [apply keeps_gets|intros k]. apply keeps_seq; [apply keeps_lifted|intros [region next]].
  apply keeps_seq; [apply keeps_modify; intros c; by apply kept_same_diag|intros _]. intros c u c' E.
  assert (keeps (push_frame (Some region) ≫= λ _,
    (q ← lift (exprs pkg !! e);
     name ← match q with
            | EBlock bid =>
                blk ← lift (blocks pkg !! bid);
                each (walk_stmt typed pkg n walk) (stmts blk) ≫= λ _,
                match tail blk with Some t => walk t Use | None => mret None end
            | _ => walk e Use
            end;
     ls ← gets cx_locals;
     when_some name (λ name,
       match ls !! name with
       | Some st =>
           if bool_decide (arena_region st = Some region) && negb (ls_is_copy st)
           then push_diag (arena_escape name no_span) else mret ()
       | None => mret ()
       end)) ≫= λ _, pop_frame)) as Hf.
  { apply keeps_framed, keeps_lift_bind. intros q Hq. apply keeps_seq; [|intros name].
    - assert (keeps (walk e Use)) as He by (by apply keeps_walk_use). destruct q; try done.
      assert (b = true → fits (PBlock b0) = true) as Hfit.
      { eapply spares_sub; [done|done|]. constructor. }
      apply keeps_lift_bind. intros blk Hblk. apply keeps_seq; [|intros _].
      + apply keeps_each. intros st Hst. apply keeps_stmt. intros Hb. eapply block_stmts, Hst. by eapply fits_block, Hblk; apply Hfit.
      + destruct (tail blk) as [t|] eqn:Et; [|apply keeps_return]. apply keeps_walk_use; [|done]. intros Hb.
        pose proof (block_tail blk (fits_block _ _ (Hfit Hb) Hblk)) as Ht. rewrite Et in Ht. simpl in Ht.
        by rewrite andb_true_r in Ht.
    - apply keeps_seq; [apply keeps_gets|intros ls]. apply keeps_when_some. intros y _.
      destruct (ls !! y) as [l|]; [|apply keeps_return]. destruct (_ && _); apply keeps_push_diag || apply keeps_return. }
  eapply Hf. rewrite <- E. unfold push_frame, modify, mbind at 1, ST_bind at 1. symmetry.
  unfold mbind at 1, ST_bind at 1. unfold mbind, ST_bind, lift, gets. destruct (exprs pkg !! e) as [q|]; [|done].
  repeat (case_match; simplify_eq/=; try done).
Qed.

Ltac sub H :=
  let Hb := fresh in intros Hb; specialize (H Hb); cbn [parts forallb] in H;
  rewrite ?forallb_app, ?andb_true_iff in H; cbn [opt_part forallb] in H; rewrite ?andb_true_iff in H; tauto.

Lemma keeps_shape e pos :
  (b = true → shape_spares x pkg n e = true) → (b = true → forallb fits (parts e) = true) →
  (b = true → pos = AssignTarget → target_shape e = false) → keeps (walk_shape typed pkg n walk e pos).
Proof.
  intros Hs H Ht.
  assert (∀ m, keeps m → keeps (nameless m)) as Hn by (intros m Hm; apply keeps_seq; [done|intros _; apply keeps_return]).
  destruct e; cbn [walk_shape] in *; try apply keeps_return; try apply Hn;
    try (apply keeps_use_expr; sub H).
  - by apply keeps_path.
  - apply keeps_call. sub H.
  - apply keeps_method. sub H.
  - apply keeps_seq; [apply keeps_use_expr; sub H|intros _; apply keeps_use_expr; sub H].
  - apply keeps_binary. intros Hb. specialize (H Hb). specialize (Hs Hb). cbn [parts forallb shape_spares] in H, Hs.
    rewrite !andb_true_iff in H. rewrite orb_true_iff, !negb_true_iff in Hs. split; [|tauto].
    destruct Hs; [congruence|done].
  - apply keeps_unary. sub H.
  - apply keeps_seq; [apply keeps_use_expr; sub H|intros _]. apply keeps_branches; [apply keeps_block; sub H|apply keeps_opt; sub H].
  - apply keeps_match. intros Hb. specialize (H Hb). cbn [parts forallb] in H. apply andb_true_iff in H as [H1 H2].
    split; [done|]. intros arm Ha. rewrite forallb_forall in H2 |- *. intros p Hp. apply H2, in_concat.
    exists (arm_parts arm). split; [by apply in_map, list_elem_of_In|done].
  - apply keeps_seq; [apply keeps_use_expr; sub H|intros _]. apply keeps_seq; [apply keeps_lifted|intros t].
    apply keeps_loop_pattern. sub H.
  - apply keeps_seq; [apply keeps_use_expr; sub H|intros _]. apply keeps_loop, keeps_block. sub H.
  - apply keeps_loop, keeps_block. sub H.
  - apply keeps_when_some. intros e0 ->. apply keeps_void, keeps_walk_use; [sub H|done].
  - apply keeps_when_some. intros e0 ->. apply keeps_void, keeps_walk_use; [sub H|done].
  - apply keeps_block. sub H.
  - by apply (keeps_uses id).
  - by apply (keeps_uses id).
  - by apply (keeps_uses snd).
  - apply keeps_each. intros kv Hkv.
    assert (b = true → spares x pkg n kv.1 = true ∧ spares x pkg n kv.2 = true) as Hkv'.
    { intros Hb. specialize (H Hb). cbn [parts] in H. rewrite forallb_forall in H.
      split; [apply (H (PExpr kv.1))|apply (H (PExpr kv.2))]; apply in_concat;
        exists [PExpr kv.1; PExpr kv.2]; (split; [by apply (in_map (λ kv, [PExpr kv.1; PExpr kv.2])), list_elem_of_In|simpl; auto]). }
    apply keeps_seq; [apply keeps_use_expr; naive_solver|intros _; apply keeps_use_expr; naive_solver].
  - apply keeps_message. sub H.
  - apply keeps_message. sub H.
  - apply keeps_seq; [apply keeps_use_expr; sub H|intros _]. apply Hwalk; [sub H|done].
  - apply Hwalk; [sub H|done].
  - apply keeps_move_expr. sub H.
  - apply keeps_borrow_expr. sub H.
  - apply keeps_block. sub H.
  - apply keeps_arena. sub H.
  - apply keeps_block. sub H.
  - apply keeps_seq; [apply (keeps_uses snd); sub H|intros _; apply keeps_use_expr; sub H].
  - apply keeps_seq; [apply (keeps_uses snd); sub H|intros _; apply keeps_block; sub H].
  - apply keeps_lambda. intros Hb. split; [by apply Hs|]. revert Hb. sub H.
  - apply keeps_seq; [apply keeps_use_expr; sub H|intros _]. apply keeps_branches; [|apply keeps_opt; sub H].
    apply keeps_with_pattern; [sub H|apply keeps_block; sub H].
  - apply keeps_seq; [apply keeps_use_expr; sub H|intros _]. apply keeps_loop_pattern. sub H.
  - apply Hwalk; [sub H|done].
  - apply keeps_path_generic.
Qed.

End Walk.

Lemma keeps_walk typed pkg n e pos :
  (b = true → spares x pkg n e = true) → (b = true → pos = AssignTarget → targets x pkg n e = false) →
  keeps (walk_expr typed pkg n e pos).
Proof.
  revert e pos. induction n as [|n IH]; intros e pos H Ht; [apply keeps_stuck|]. simpl in H, Ht |- *.
  apply keeps_lift_bind. intros q Hq. rewrite Hq in H, Ht. apply keeps_shape.
  - exact IH.
  - intros Hb. by apply H, andb_true_iff in Hb as [Hb _].
  - intros Hb. by apply H, andb_true_iff in Hb as [_ Hb].
  - intros Hb Hp. specialize (Ht Hb Hp). by destruct q.
Qed.

End Kept.
