(* ===== verification/BorrowReport.v ===== *)
(** * What a package's run keeps of its diagnostics

    [said d m]: once [d] has been reported, [m] does not lose it.  The walk of
    every body and [run] over a package only add diagnostics, so a diagnostic
    of one statement of one body is a diagnostic of the package.  Then the
    pre-pass: it numbers the reads of a body in their order. *)

From stdpp Require Import base list strings numbers gmap sets.
From S2P Require Import Prelude StateM TyArena Infer Hir BorrowState BorrowFlow BorrowTotal BorrowMoves.

Notation length := List.length (only parsing).

Section Said.
Context (d : Diagnostic).

Lemma said_keeps {R} b x (m : ST BorrowCx R) c : keeps b x m → d ∈ diag c → ensures m c (λ _ c', d ∈ diag c').
Proof. intros Hm Hd r c' E. destruct (Hm c r c' E) as [[l ->] _]. apply elem_of_app. by left. Qed.

Lemma said_close names c : d ∈ diag c → ensures (close_frame names) c (λ _ c', d ∈ diag c').
Proof. apply (said_keeps false ""). by apply keeps_close. Qed.

Lemma said_pop c : d ∈ diag c → ensures pop_frame c (λ _ c', d ∈ diag c').
Proof.
  intros Hd r c' E. destruct (scopes c) as [|f rest] eqn:Es.
  { unfold pop_frame, mbind at 1, ST_bind, gets in E. by rewrite Es in E. }
  rewrite (pop_frame_close _ _ _ Es) in E. by eapply said_close, E.
Qed.

Lemma said_walk typed pkg n e pos c :
  d ∈ diag c → ensures (walk_expr typed pkg n e pos) c (λ _ c', d ∈ diag c').
Proof. apply (said_keeps false ""). by apply keeps_walk. Qed.

Lemma said_stmts typed pkg n sts c :
  d ∈ diag c → ensures (each (walk_stmt typed pkg n (walk_expr typed pkg n)) sts) c (λ _ c', d ∈ diag c').
Proof.
  apply (said_keeps false ""). apply keeps_each. intros st _. apply keeps_stmt; [|done].
  intros e pos _ _. by apply keeps_walk.
Qed.

Lemma said_tail typed pkg n o c :
  d ∈ diag c → ensures (when_some o (use (walk_expr typed pkg n))) c (λ _ c', d ∈ diag c').
Proof. apply (said_keeps false ""), keeps_when_some. intros e _. by apply keeps_void, keeps_walk. Qed.

(** The steps of [run] over [(diagnostics, drop plan)]. *)
Notation State := (list Diagnostic * list DropEntry)%type.

Definition adds (m : ST State unit) : Prop := ∀ s, d ∈ s.1 → ensures m s (λ _ s', d ∈ s'.1).

Lemma adds_ret : adds (mret ()).
Proof. intros s Hd. by apply ensures_ret. Qed.

Lemma adds_bind m (f : unit → ST State unit) : adds m → (∀ r, adds (f r)) → adds (m ≫= f).
Proof. intros Hm Hf s Hd. apply ensures_bind. eapply ensures_mono; [by apply Hm|]. intros r s' Hd'. by apply Hf. Qed.

Lemma adds_each {R} (f : R → ST State unit) xs : (∀ x, x ∈ xs → adds (f x)) → adds (each f xs).
Proof.
  induction xs as [|x xs IH]; intros H; [apply adds_ret|]. simpl. apply adds_bind; [apply H; constructor|].
  intros _. apply IH. intros y Hy. apply H. by constructor.
Qed.

Lemma adds_when_some {R} (o : option R) f : (∀ r, adds (f r)) → adds (when_some o f).
Proof. intros H. destruct o; [apply H|apply adds_ret]. Qed.

Lemma adds_from {R} (f : nat → R → ST State unit) i xs : (∀ i x, adds (f i x)) → adds (each_from f i xs).
Proof.
  intros H. revert i. induction xs as [|x xs IH]; intros i; [apply adds_ret|]. simpl. by apply adds_bind.
Qed.

(** One element that reports [d] is enough. *)
Lemma from_reports {R} (f : nat → R → ST State unit) i xs j y :
  (∀ i x, adds (f i x)) → xs !! j = Some y → (∀ s, ensures (f (i + j) y) s (λ _ s', d ∈ s'.1)) →
  ∀ s, ensures (each_from f i xs) s (λ _ s', d ∈ s'.1).
Proof.
  intros Hf Hj Hy. revert i j Hj Hy. induction xs as [|x xs IH]; intros i j Hj Hy s; [done|]. simpl.
  apply ensures_bind. destruct j as [|j]; simpl in Hj.
  - injection Hj as ->. rewrite Nat.add_0_r in Hy. eapply ensures_mono; [apply Hy|].
    intros r s' Hd. simpl. by apply adds_from.
  - intros r s' _. simpl. apply (IH _ j Hj). intros s''. by replace (S i + j) with (i + S j) by lia.
Qed.

Lemma adds_new_cx m : (∀ c, d ∈ diag c → ensures m c (λ _ c', d ∈ diag c')) → adds (in_new_cx m).
Proof.
  intros Hm [ds plan] Hd u s' E. unfold in_new_cx in E.
  destruct ((push_frame None ≫= _) _) as [[[] c]|] eqn:Ec; [|done]. injection E as <- <-. simpl.
  revert Ec. change ((push_frame None ≫= λ _, m ≫= λ _, pop_frame) (new_cx ds plan)) with
    ((m ≫= λ _, pop_frame) (set_scopes [mkFrame [] None] (new_cx ds plan))).
  apply (ensures_bind m (λ _, pop_frame) _ (λ _ c, d ∈ diag c)). eapply ensures_mono; [by apply Hm|].
  intros r c1. apply said_pop.
Qed.

Lemma said_params {R} typed (f : R → string) (g : R → TyId) sp xs c :
  d ∈ diag c → ensures (each (λ y, bind_local typed (f y) (g y) sp false) xs) c (λ _ c', d ∈ diag c').
Proof. apply (said_keeps false ""), keeps_each. intros y _. by apply keeps_bind_local. Qed.

Lemma said_block typed pkg n b c : d ∈ diag c → ensures (walk_body typed pkg n b) c (λ _ c', d ∈ diag c').
Proof.
  apply (said_keeps false ""). apply keeps_block; [|done]. intros e pos _ _. by apply keeps_walk.
Qed.

(** The body of [check_fn_body] in its context. *)
Definition fn_walk (typed : TypedPackage) (pkg : Package) (n : nat) (f : HirFn)
    (params : list (string * TyId)) (body : BlockId) : ST BorrowCx unit :=
  each (λ p : string * TyId, bind_local typed p.1 p.2 (fn_span f) false) params ≫= λ _, walk_body typed pkg n body.

Lemma fn_body_says typed pkg n fid f body ds plan r :
  (∀ c, diag c = ds → scopes c ≠ [] → cx_locals c = ∅ →
    ensures (fn_walk typed pkg n f (default [] (fn_param_tys typed !! fid)) body) c (λ _ c', d ∈ diag c')) →
  check_fn_body typed pkg n fid f body ds plan = Some r → d ∈ r.1.
Proof.
  intros Hw. unfold check_fn_body. destruct (compute_last_use _ _ _) as [[lu pt]|]; [|done]. simpl.
  set (c0 := set_scopes [mkFrame [] None] (set_last_use lu (new_cx ds plan))).
  destruct ((push_frame None ≫= _) _) as [[[] c]|] eqn:Ec; [|done]. intros [= <-]. simpl.
  specialize (Hw c0 eq_refl ltac:(done) eq_refl). revert Ec. unfold fn_walk in Hw.
  assert (ensures (each (λ p : string * TyId, bind_local typed p.1 p.2 (fn_span f) false)
      (default [] (fn_param_tys typed !! fid)) ≫= λ _, walk_body typed pkg n body ≫= λ _, pop_frame) c0 (λ _ c, d ∈ diag c))
    as Hall; [|exact (Hall tt c)].
  intros u c' E. unfold mbind, ST_bind in E, Hw. unfold ensures in Hw.
  destruct (each _ _ c0) as [[[] c1]|]; [|done]. destruct (walk_body _ _ _ _ c1) as [[[] c2]|]; [|done].
  eapply said_pop, E. by eapply Hw.
Qed.

Lemma adds_fn typed pkg n fid f :
  adds (when_some (fn_body f) (λ body s, r ← check_fn_body typed pkg n fid f body s.1 s.2; Some ((), r))).
Proof.
  apply adds_when_some. intros body s Hd u s' E.
  destruct (check_fn_body _ _ _ _ _ _ _ _) as [r|] eqn:Er; [|done]. injection E as <- <-.
  eapply fn_body_says, Er. intros c Hc _ _. apply ensures_bind.
  eapply ensures_mono; [apply (said_params _ fst snd); by rewrite Hc|]. intros ? c'. apply said_block.
Qed.

Lemma adds_item typed pkg n it : adds (check_item typed pkg n it).
Proof.
  destruct it; try apply adds_ret; intros s Hd u s' E; unfold lift, mbind, ST_bind, check_item in E.
  - destruct (agents pkg !! id) as [a|]; [|done]. revert u s' E. apply adds_bind; [|intros _|done].
    + apply adds_each. intros st _. apply adds_when_some. intros e. apply adds_new_cx. intros c.
      apply (said_keeps false ""), keeps_void. by apply keeps_walk.
    + apply adds_each. intros h _. apply adds_new_cx. intros c Hc. apply ensures_bind.
      eapply ensures_mono; [by apply (said_params _ (λ y : string, y) (λ _, unit_ty typed))|]. intros ? c'. apply said_block.
  - destruct (supervisors pkg !! id) as [a|]; [|done]. revert u s' E. apply adds_each; [|done]. intros ch _.
    apply adds_new_cx. intros c. apply (said_keeps false ""), keeps_void. by apply keeps_walk.
Qed.

(** A function whose body reports [d] makes [run] report it. *)
Lemma fn_reports typed pkg n fid f body ds :
  fns pkg !! fid = Some f → fn_body f = Some body →
  (∀ c, scopes c ≠ [] → cx_locals c = ∅ →
    ensures (fn_walk typed pkg n f (default [] (fn_param_tys typed !! fid)) body) c (λ _ c', d ∈ diag c')) →
  run typed pkg n = Some ds → d ∈ ds.
Proof.
  intros Hf Hb Hw. unfold run. destruct ((check_fns _ _ _ ≫= _) _) as [[[] s]|] eqn:E; [|done]. intros [= <-].
  revert E. apply (ensures_bind (check_fns typed pkg n) (λ _, _) _ (λ _ s, d ∈ s.1)).
  eapply ensures_mono; [|intros ? s'; apply adds_each; intros id _ s'' Hd u s3 E].
  - apply (from_reports _ 0 _ fid f); [intros i x; apply adds_fn|done|]. intros s' u s'' E. rewrite Hb in E. simpl in E.
    destruct (check_fn_body _ _ _ _ _ _ _ _) as [r|] eqn:Er; [|done]. injection E as <- <-.
    eapply fn_body_says, Er. intros c _. apply Hw.
  - unfold lift, mbind, ST_bind in E. destruct (items pkg !! id) as [it|]; [|done]. by eapply adds_item, E.
Qed.

End Said.

(** ** The pre-pass of last uses is exact

    [reads pkg n e] lists the names that evaluating [e] reads, in order, from
    the tree of its parts alone.  [compute_last_use] numbers these reads from
    zero and maps every name to the number of its last one. *)

(** ** The reads of an expression *)

Fixpoint cat_opt {A B} (f : A → option (list B)) (xs : list A) : option (list B) :=
  match xs with [] => Some [] | x :: xs => a ← f x; b ← cat_opt f xs; Some (a ++ b) end.

Lemma cat_opt_cons {A B} (f : A → option (list B)) x xs ws :
  cat_opt f (x :: xs) = Some ws → ∃ a b, f x = Some a ∧ cat_opt f xs = Some b ∧ ws = a ++ b.
Proof. simpl. destruct (f x) as [a|]; [|done]. simpl. destruct (cat_opt f xs) as [b|]; [|done]. intros [= <-]. eauto. Qed.

Lemma cat_opt_app {A B} (f : A → option (list B)) xs ys ws :
  cat_opt f (xs ++ ys) = Some ws → ∃ a b, cat_opt f xs = Some a ∧ cat_opt f ys = Some b ∧ ws = a ++ b.
Proof.
  revert ws. induction xs as [|x xs IH]; intros ws H; [by exists [], ws|].
  apply cat_opt_cons in H as (a & b & Ha & (c & d & Hc & Hd & ->)%IH & ->). exists (a ++ c), d.
  simpl. rewrite Ha, Hc. simpl. split; [done|]. split; [done|]. by rewrite app_assoc.
Qed.

Lemma cat_opt_map {A B C} (f : B → option (list C)) (g : A → B) xs : cat_opt f (map g xs) = cat_opt (λ x, f (g x)) xs.
Proof. induction xs as [|x xs IH]; [done|]. simpl. by rewrite IH. Qed.

Lemma cat_opt_concat {A B C} (f : B → option (list C)) (g : A → list B) xs ws :
  cat_opt f (concat (map g xs)) = Some ws → cat_opt (λ x, cat_opt f (g x)) xs = Some ws.
Proof.
  revert ws. induction xs as [|x xs IH]; intros ws H; [done|]. simpl in H.
  apply cat_opt_app in H as (a & b & Ha & Hb%IH & ->). simpl. by rewrite Ha, Hb.
Qed.

Definition reads_in_block (reads : ExprId → option (list string)) (p : Part) : option (list string) :=
  match p with PExpr e => reads e | PPat _ => Some [] | _ => None end.

Definition reads_part (pkg : Package) (reads : ExprId → option (list string)) (p : Part) : option (list string) :=
  match p with
  | PBlock b | PLoop b => blk ← blocks pkg !! b; cat_opt (reads_in_block reads) (block_parts blk)
  | p => reads_in_block reads p
  end.

Fixpoint reads (pkg : Package) (n : nat) (eid : ExprId) : option (list string) :=
  match n with
  | O => None
  | S n =>
      e ← exprs pkg !! eid;
      match e with
      | EPath segs | EPathGeneric segs _ => Some (take 1 segs)
      | e => cat_opt (reads_part pkg (reads pkg n)) (parts e)
      end
  end.

Definition body_reads (pkg : Package) (n : nat) (b : BlockId) : option (list string) :=
  reads_part pkg (reads pkg n) (PBlock b).

(** ** Logs *)

Definition note (s : Pre) (x : string) : Pre := mkPre (record_use (pre_map s) x (pre_point s)) (pre_point s + 1).

(** [m] reads [ws], and nothing else. *)
Definition logs (ws : list string) (m : ST Pre unit) : Prop :=
  ∀ s, (pre_point s + Z.of_nat (length ws) < 2 ^ 32)%Z → m s = Some ((), foldl note s ws).

Lemma note_point s ws : pre_point (foldl note s ws) = (pre_point s + Z.of_nat (length ws))%Z.
Proof. revert s. induction ws as [|w ws IH]; intros s; simpl; [lia|]. rewrite IH. simpl. lia. Qed.

Lemma logs_ret : logs [] (mret ()).
Proof. by intros s _. Qed.

Lemma logs_bind a b m (f : unit → ST Pre unit) : logs a m → (∀ r, logs b (f r)) → logs (a ++ b) (m ≫= f).
Proof.
  intros Hm Hf s Hs. rewrite length_app in Hs. rewrite (bind_run _ _ _ _ _ (Hm s ltac:(lia))).
  rewrite foldl_app. apply Hf. rewrite note_point. lia.
Qed.

Lemma logs_name x : logs [x] (visit_name x).
Proof. intros s Hs. simpl in Hs. unfold visit_name, succ_u32. by rewrite bool_decide_eq_true_2 by lia. Qed.

Lemma logs_each {R} (g : R → option (list string)) (f : R → ST Pre unit) xs ws :
  cat_opt g xs = Some ws → (∀ x a, g x = Some a → logs a (f x)) → logs ws (each f xs).
Proof.
  intros Hw Hf. revert ws Hw. induction xs as [|x xs IH]; intros ws Hw; [injection Hw as <-; apply logs_ret|].
  apply cat_opt_cons in Hw as (a & b & Ha & Hb & ->). simpl. apply logs_bind; [by apply Hf|intros _; by apply IH].
Qed.

Section Visits.
Context (pkg : Package) (read : ExprId → option (list string)) (visit : ExprId → ST Pre unit).
Hypothesis Hvisit : ∀ e ws, read e = Some ws → logs ws (visit e).
Notation rd := (reads_part pkg read).
Notation rd_in := (reads_in_block read).

Lemma logs_list {R} (g : R → ExprId) xs ws :
  cat_opt rd (map (λ x, PExpr (g x)) xs) = Some ws → logs ws (each (λ x, visit (g x)) xs).
Proof. rewrite cat_opt_map. intros H. eapply logs_each; [exact H|]. intros x a. apply Hvisit. Qed.

Lemma logs_single (f : Part → option (list string)) p ws m : cat_opt f [p] = Some ws → (∀ v, f p = Some v → logs v m) → logs ws m.
Proof. intros (a & b & Ha & [= <-] & ->)%cat_opt_cons H. rewrite app_nil_r. auto. Qed.

Lemma logs_one e ws : cat_opt rd [PExpr e] = Some ws → logs ws (visit e).
Proof. intros H. eapply logs_single; [exact H|]. apply Hvisit. Qed.

Lemma logs_opt o ws : cat_opt rd (opt_part o) = Some ws → logs ws (when_some o visit).
Proof. destruct o as [e|]; [apply logs_one|]. intros [= <-]. apply logs_ret. Qed.

Lemma logs_opt_in o ws : cat_opt rd_in (opt_part o) = Some ws → logs ws (when_some o visit).
Proof.
  destruct o as [e|]; [|intros [= <-]; apply logs_ret]. intros H. eapply logs_single; [exact H|]. apply Hvisit.
Qed.

Lemma logs_stmt st ws : cat_opt rd_in (stmt_parts st) = Some ws → logs ws (visit_stmt visit st).
Proof.
  intros H. destruct st as [pid ty init mutable|e]; cbn [stmt_parts visit_stmt] in H |- *.
  - apply cat_opt_app in H as (a & b & Ha & (p & z & [= <-] & [= <-] & ->)%cat_opt_cons & ->).
    rewrite !app_nil_r. by apply logs_opt_in.
  - eapply logs_single; [exact H|]. apply Hvisit.
Qed.

Lemma logs_block b ws : rd (PBlock b) = Some ws → logs ws (visit_block pkg visit b).
Proof.
  cbn [reads_part]. destruct (blocks pkg !! b) as [blk|] eqn:Hb; [|done]. simpl.
  intros (s & t & Hs%cat_opt_concat & Ht & ->)%cat_opt_app c Hc. unfold visit_block.
  unfold lift, mbind at 1, ST_bind. rewrite Hb.
  apply (logs_bind s t (each (visit_stmt visit) (stmts blk)) (λ _, when_some (tail blk) visit)); [|by intros _; apply logs_opt_in|done].
  eapply logs_each; [exact Hs|]. intros st a. apply logs_stmt.
Qed.

(** A part first, then the others. *)
Lemma logs_cons p ps ws m1 m2 :
  cat_opt rd (p :: ps) = Some ws → (∀ v, rd p = Some v → logs v m1) → (∀ v, cat_opt rd ps = Some v → logs v m2) →
  logs ws (m1 ≫= λ _, m2).
Proof. intros (a & b & Ha & Hb & ->)%cat_opt_cons H1 H2. apply logs_bind; auto. Qed.

Lemma logs_app ps qs ws m1 m2 :
  cat_opt rd (ps ++ qs) = Some ws → (∀ v, cat_opt rd ps = Some v → logs v m1) →
  (∀ v, cat_opt rd qs = Some v → logs v m2) → logs ws (m1 ≫= λ _, m2).
Proof. intros (a & b & Ha & Hb & ->)%cat_opt_app H1 H2. apply logs_bind; auto. Qed.

Lemma logs_pat p ps ws m :
  cat_opt rd (PPat p :: ps) = Some ws → (∀ v, cat_opt rd ps = Some v → logs v m) → logs ws m.
Proof. intros (a & b & [= <-] & Hb & ->)%cat_opt_cons H. by apply H. Qed.

Lemma logs_arm a ws : cat_opt rd (arm_parts a) = Some ws → logs ws (visit_arm visit a).
Proof.
  intros H. eapply logs_pat; [exact H|]. intros v Hv. eapply logs_app; [exact Hv|apply logs_opt|apply logs_one].
Qed.

Lemma logs_pairs (entries : list (ExprId * ExprId)) ws :
  cat_opt rd (concat (map (λ kv, [PExpr kv.1; PExpr kv.2]) entries)) = Some ws →
  logs ws (each (λ kv, visit kv.1 ≫= λ _, visit kv.2) entries).
Proof.
  intros H%cat_opt_concat. eapply logs_each; [exact H|]. intros kv a Ha.
  eapply logs_cons; [exact Ha|apply Hvisit|intros v; apply logs_one].
Qed.

Lemma logs_shape x ws :
  match x with EPath segs | EPathGeneric segs _ => Some (take 1 segs) | x => cat_opt rd (parts x) end = Some ws →
  logs ws (visit_shape pkg visit x).
Proof.
  intros H.
  assert (∀ b v, cat_opt rd [PBlock b] = Some v → logs v (visit_block pkg visit b)) as Hblock.
  { intros b v Hv. eapply logs_single; [exact Hv|apply logs_block]. }
  assert (∀ b v, cat_opt rd [PLoop b] = Some v → logs v (visit_block pkg visit b)) as Hloop by exact Hblock.
  assert (∀ args v, cat_opt rd (arg_parts args) = Some v → logs v (visit_args visit args)) as Hargs.
  { intros args v. apply (logs_list arg_value). }
  destruct x; cbn [visit_shape parts] in H |- *; try (injection H as <-; apply logs_ret).
  1: injection H as <-; destruct segs; [apply logs_ret|apply logs_name].
  all: try (injection H as <-; destruct segments; [apply logs_ret|apply logs_name]).
  all: first
    [ by apply logs_one | by apply logs_opt | by apply Hblock | by apply Hloop
    | by apply (logs_list id) | by apply (logs_list snd) | by apply logs_pairs
    | eapply logs_cons; [exact H|apply Hvisit|]; first
        [ apply logs_one | apply Hargs | apply Hloop
        | by intros w Hw; eapply logs_cons; [exact Hw|apply logs_block|apply logs_opt]
        | by intros w Hw; eapply logs_pat; [exact Hw|]; first
            [ apply Hloop | intros u Hu; eapply logs_cons; [exact Hu|apply logs_block|apply logs_opt]]
        | intros w Hw%cat_opt_concat; eapply logs_each; [exact Hw|apply logs_arm]]
    | eapply logs_app; [exact H|apply logs_opt || apply (logs_list snd)|apply logs_one || apply Hblock] ].
Qed.

End Visits.

Lemma logs_expr pkg n e ws : reads pkg n e = Some ws → logs ws (visit_expr pkg n e).
Proof.
  revert e ws. induction n as [|n IH]; intros e ws Hw; [done|]. simpl in Hw. destruct (exprs pkg !! e) as [x|] eqn:Hx; [|done].
  intros s Hs. simpl. unfold lift, mbind, ST_bind. rewrite Hx.
  by apply (logs_shape pkg (reads pkg n) (visit_expr pkg n) IH).
Qed.

(** ** The map *)

(** [p] is the place of the last [x] of [ws]. *)
Definition last_place (ws : list string) (x : string) (i : nat) : Prop := ws !! i = Some x ∧ ∀ j, ws !! j = Some x → j ≤ i.

Lemma noted_map ws x p :
  pre_map (foldl note (mkPre ∅ 0) ws) !! x = Some p ↔ ∃ i, p = Z.of_nat i ∧ last_place ws x i.
Proof.
  revert p. induction ws as [|w ws IH] using rev_ind; intros p.
  { simpl. rewrite lookup_empty. split; [done|]. by intros (i & _ & H & _). }
  rewrite foldl_app. simpl. rewrite note_point. simpl. unfold record_use.
  destruct (decide (w = x)) as [->|Hne].
  - rewrite lookup_insert_eq. assert (last_place (ws ++ [x]) x (length ws)) as Hl.
    { split; [by rewrite lookup_app_r, Nat.sub_diag by lia|]. intros j Hj%lookup_lt_Some. rewrite length_app in Hj. simpl in Hj. lia. }
    assert (∀ e, pre_map (foldl note (mkPre ∅ 0) ws) !! x = Some e → (e < Z.of_nat (length ws))%Z) as He.
    { intros e (i & -> & Hi%lookup_lt_Some & _)%IH. lia. }
    transitivity (p = Z.of_nat (length ws)).
    + destruct (_ !! x) as [e|]; [|split; [by intros [= <-]|by intros ->]].
      rewrite (proj2 (Z.ltb_lt _ _)) by (specialize (He e eq_refl); lia). split; [by intros [= <-]|by intros ->].
    + split; [intros ->; eauto|]. intros (i & -> & Hi & Hmax). f_equal. apply Nat.le_antisymm.
      * apply Hl, Hi.
      * apply Hmax, Hl.
  - rewrite lookup_insert_ne by done. rewrite IH. unfold last_place.
    assert (∀ i, (ws ++ [w]) !! i = Some x ↔ ws !! i = Some x) as E.
    { intros i. destruct (decide (i < length ws)) as [Hlt|Hge]; [by rewrite lookup_app_l|].
      rewrite lookup_app_r, (lookup_ge_None_2 ws) by lia. split; [|done].
      destruct (i - length ws) as [|]; simpl; [congruence|done]. }
    by setoid_rewrite E.
Qed.

Lemma last_use_reads pkg n b ws :
  body_reads pkg n b = Some ws → (Z.of_nat (length ws) < 2 ^ 32)%Z →
  compute_last_use pkg n b = Some (pre_map (foldl note (mkPre ∅ 0) ws), Z.of_nat (length ws)).
Proof.
  intros Hr Hlen. unfold compute_last_use.
  rewrite (logs_block pkg (reads pkg n) (visit_expr pkg n) (logs_expr pkg n) b ws Hr (mkPre ∅ 0) Hlen). simpl.
  by rewrite note_point.
Qed.
