(* ===== verification/Polonius.v ===== *)
(** * The second borrow-checking pass

    [crates/mty-borrow/src/polonius.rs]: loans and facts, the rules and their
    iteration, the walk that collects the facts of a body, and the pass over a
    package.  The [BTreeSet] of facts is a [gset]; where its order shows, the
    facts are sorted.  Loans, points and their counters are [u32]s.  The lemmas
    that make the iteration exact follow. *)

From stdpp Require Import base list strings numbers gmap sets sorting pretty.
From S2P Require Import Prelude StateM TyArena Hir BorrowState BorrowFlow.

Local Open Scope string_scope.
Local Open Scope list_scope.

Notation Point := Z (only parsing).
Notation Loan := Z (only parsing).

Inductive LoanKind : Set := LkShared | LkMut | LkTwoPhaseMut.

Inductive Fact : Set :=
  | BorrowAt (l : Loan) (p : Point)
  | LoanInvalidated (l : Loan) (p : Point)
  | Subset (outer inner : Loan) (p : Point)
  | Conflict (l1 l2 : Loan) (p : Point)
  | Error (l : Loan) (p : Point).

#[export] Instance Fact_eq_dec : EqDecision Fact.
Proof. solve_decision. Defined.

Definition fact_code (f : Fact) : Z * (Z * (Z * Z)) :=
  match f with
  | BorrowAt l p => (0, (l, (0, p)))%Z
  | LoanInvalidated l p => (1, (l, (0, p)))%Z
  | Subset a b p => (2, (a, (b, p)))%Z
  | Conflict a b p => (3, (a, (b, p)))%Z
  | Error l p => (4, (l, (0, p)))%Z
  end.

Definition fact_decode (c : Z * (Z * (Z * Z))) : option Fact :=
  match c with
  | (0, (l, (_, p)))%Z => Some (BorrowAt l p)
  | (1, (l, (_, p)))%Z => Some (LoanInvalidated l p)
  | (2, (a, (b, p)))%Z => Some (Subset a b p)
  | (3, (a, (b, p)))%Z => Some (Conflict a b p)
  | (4, (l, (_, p)))%Z => Some (Error l p)
  | _ => None
  end.

#[export] Instance Fact_countable : Countable Fact.
Proof. refine (inj_countable fact_code fact_decode _). by intros []. Defined.

Record LoanInfo : Set := mkLoanInfo { kind : LoanKind; place_root : string; li_span : SourceSpan }.

Record PoloniusSolver := mkSolver {
  facts : gset Fact; loans : gmap Loan LoanInfo; next_loan : Z; max_point : Z }.

Definition new_solver : PoloniusSolver := mkSolver ∅ ∅ 0 0.

(** The loan, and the solver after it. *)
Definition fresh_loan (info : LoanInfo) (s : PoloniusSolver) : option (Loan * PoloniusSolver) :=
  n ← succ_u32 (next_loan s);
  Some (next_loan s, mkSolver (facts s) (<[next_loan s := info]> (loans s)) n (max_point s)).

Definition add (f : Fact) (s : PoloniusSolver) : PoloniusSolver :=
  let m := match f with BorrowAt _ p | LoanInvalidated _ p => Z.max (max_point s) p | _ => max_point s end in
  mkSolver ({[f]} ∪ facts s) (loans s) (next_loan s) m.

Definition is_error (f : Fact) : bool := match f with Error _ _ => true | _ => false end.

Definition has_errors (s : PoloniusSolver) : bool := existsb is_error (elements (facts s)).

(** Two-phase borrows are compatible with a read. *)
Definition loans_conflict (a b : LoanKind) : bool :=
  match a, b with
  | LkShared, LkShared => false
  | LkTwoPhaseMut, LkShared | LkShared, LkTwoPhaseMut => false
  | LkMut, _ | _, LkMut => true
  | LkTwoPhaseMut, LkTwoPhaseMut => true
  end.

(** ** The rules *)

Definition rule_subset (f1 f2 : Fact) : list Fact :=
  match f1, f2 with
  | Subset a b p1, Subset b2 c p2 => if bool_decide (b = b2 ∧ p1 = p2) then [Subset a c p1] else []
  | _, _ => []
  end.

Definition rule_invalidated (f1 f2 : Fact) : list Fact :=
  match f1, f2 with
  | BorrowAt l1 p1, LoanInvalidated l2 p2 =>
      if bool_decide (l1 = l2 ∧ p1 ≤ p2)%Z then [Error l1 p2] else []
  | _, _ => []
  end.

Definition rule_conflict (loans : gmap Loan LoanInfo) (f1 f2 : Fact) : list Fact :=
  match f1, f2 with
  | BorrowAt l1 p1, BorrowAt l2 p2 =>
      if bool_decide (l1 = l2 ∨ p1 ≠ p2) then []
      else match loans !! l1, loans !! l2 with
           | Some i1, Some i2 =>
               if bool_decide (place_root i1 = place_root i2) && loans_conflict (kind i1) (kind i2)
               then [Conflict l1 l2 p1; Error l1 p1] else []
           | _, _ => []
           end
  | _, _ => []
  end.

(** [for f1 in &snapshot { for f2 in &snapshot { .. } }] *)
Definition pairs (rule : Fact → Fact → list Fact) (snapshot : list Fact) : list Fact :=
  f1 ← snapshot; f2 ← snapshot; rule f1 f2.

Definition apply_rules (s : PoloniusSolver) : PoloniusSolver :=
  let snapshot := elements (facts s) in
  let new_facts :=
    pairs rule_subset snapshot ++ pairs rule_invalidated snapshot
    ++ pairs (rule_conflict (loans s)) snapshot in
  mkSolver (list_to_set new_facts ∪ facts s) (loans s) (next_loan s) (max_point s).

Fixpoint solve_rounds (k : nat) (s : PoloniusSolver) : PoloniusSolver :=
  match k with
  | O => s
  | S k =>
      let s' := apply_rules s in
      if bool_decide (size (facts s') = size (facts s)) then s' else solve_rounds k s'
  end.

Definition solve : PoloniusSolver → PoloniusSolver := solve_rounds 32.

(** ** Collecting the facts of a body *)

Record WalkState := mkWalk { point : Z; live : gmap string (list Loan) }.

Notation W := (ST (PoloniusSolver * WalkState)).

Definition advance : W Point := λ s,
  p ← succ_u32 (point s.2); Some (p, (s.1, mkWalk p (live s.2))).

Definition intro_borrow (place : string) (loan : Loan) (w : WalkState) : WalkState :=
  mkWalk (point w) (<[place := default [] (live w !! place) ++ [loan]]> (live w)).

(** The loans on [place], and the state without them. *)
Definition invalidate (place : string) (w : WalkState) : list Loan * WalkState :=
  (default [] (live w !! place), mkWalk (point w) (delete place (live w))).

Definition get_live : W (gmap string (list Loan)) := gets (λ s, live s.2).
Definition set_live (l : gmap string (list Loan)) : W unit := modify (λ s, (s.1, mkWalk (point s.2) l)).

Definition add_fact (f : Fact) : W unit := modify (λ s, (add f s.1, s.2)).

(** Every loan live on either side. *)
Definition join_live (a b : gmap string (list Loan)) : gmap string (list Loan) :=
  union_with (λ x y, Some (x ++ y)) a b.

Section Collect.
Context (pkg : Package).

Fixpoint expr_root (n : nat) (eid : ExprId) : option (option string) :=
  match n with
  | O => None
  | S n =>
      e ← exprs pkg !! eid;
      match e with
      | EPath [] | EPathGeneric [] _ => Some None
      | EPath segs | EPathGeneric segs _ => Some (Some (join_dots segs))
      | EField receiver name =>
          base ← expr_root n receiver; Some (option_map (λ b, b +:+ "." +:+ name) base)
      | EUnary _ receiver | EIndex receiver _ => expr_root n receiver
      | _ => Some None
      end
  end.

Section Cases.
Context (n : nat) (walk : ExprId → W unit).

Definition collect_stmt (st : HirStmt) : W unit :=
  match st with SLet _ _ init _ => when_some init walk | SExpr e => walk e end.

Definition collect_block (bid : BlockId) : W unit :=
  b ← lift (blocks pkg !! bid);
  each collect_stmt (stmts b) ≫= λ _, when_some (tail b) walk.

Definition collect_borrow (p : Point) (mutable : bool) (inner : ExprId) : W unit :=
  r ← lift (expr_root n inner);
  walk inner ≫= λ _,
  when_some r (λ r s,
    '(loan, solver) ← fresh_loan (mkLoanInfo (if mutable then LkMut else LkShared) r no_span) s.1;
    Some ((), (add (BorrowAt loan p) solver, intro_borrow r loan s.2))).

Definition collect_move (p : Point) (inner : ExprId) : W unit :=
  r ← lift (expr_root n inner);
  walk inner ≫= λ _,
  when_some r (λ r s,
    let '(killed, w) := invalidate r s.2 in
    each (λ k, add_fact (LoanInvalidated k p)) killed (s.1, w)).

Definition collect_if (cond : ExprId) (then_ : BlockId) (else_ : option ExprId) : W unit :=
  walk cond ≫= λ _,
  snap ← get_live;
  collect_block then_ ≫= λ _,
  after_then ← get_live;
  set_live snap ≫= λ _,
  when_some else_ walk ≫= λ _,
  l ← get_live; set_live (join_live l after_then).

Fixpoint collect_arms (snap joined : gmap string (list Loan)) (arms : list HirMatchArm) : W unit :=
  match arms with
  | [] => set_live joined
  | arm :: arms =>
      set_live snap ≫= λ _,
      walk (arm_body arm) ≫= λ _,
      l ← get_live; collect_arms snap (join_live joined l) arms
  end.

Definition collect_shape (p : Point) (e : HirExpr) : W unit :=
  match e with
  | EBorrow mutable inner => collect_borrow p mutable inner
  | EMove inner => collect_move p inner
  | EBinary _ lhs rhs => walk lhs ≫= λ _, walk rhs
  | EUnary _ rhs => walk rhs
  | ECall e args | EMethodCall e _ args => walk e ≫= λ _, each (λ a, walk (arg_value a)) args
  | EBlock b => collect_block b
  | EIf cond then_ else_ => collect_if cond then_ else_
  | ETuple xs | EArray xs => each walk xs
  | EMatch scrutinee arms =>
      walk scrutinee ≫= λ _, snap ← get_live; collect_arms snap ∅ arms
  | ELoop body | EWhile _ body | EFor _ _ body => collect_block body
  | EWhileLet _ scrutinee body => walk scrutinee ≫= λ _, collect_block body
  | EReturn inner | EBreak inner => when_some inner walk
  | _ => mret ()
  end.
End Cases.

Fixpoint collect_expr (n : nat) (eid : ExprId) : W unit :=
  match n with
  | O => stuck
  | S n => e ← lift (exprs pkg !! eid); p ← advance; collect_shape n (collect_expr n) p e
  end.

Definition collect_facts_from_block (n : nat) (body : BlockId) (s : PoloniusSolver) : option PoloniusSolver :=
  '(_, (s, _)) ← collect_block (collect_expr n) body (s, mkWalk 0 ∅); Some s.

End Collect.

(** ** The pass *)

Definition POLONIUS_BORROW_REJECTED : Z := 3020.

Definition kind_debug (k : LoanKind) : string :=
  match k with LkShared => "Shared" | LkMut => "Mut" | LkTwoPhaseMut => "TwoPhaseMut" end.

Definition make_diag (info : LoanInfo) (p : Point) : Diagnostic :=
  mkDiagnostic POLONIUS_BORROW_REJECTED SevError
    (label (li_span info)
       (quoted "Polonius rejects this borrow of " (place_root info)
          (": loan invalidated at point " +:+ pretty p +:+ " while still live")))
    []
    ["NLL would accept this; the `polonius` feature catches the additional borrow shape (kind = "
       +:+ kind_debug (kind info) +:+ ")";
     "v0.21 Polonius pass — see `docs/internals/borrowck.md` §Polonius"]
    ["introduce a fresh scope around the inner borrow, or sequence the move after every borrow's last use"].

(** The order of the set on [Error] facts: by loan, then by point. *)
Definition error_le (x y : Loan * Point) : Prop := (x.1 < y.1 ∨ x.1 = y.1 ∧ x.2 ≤ y.2)%Z.

#[export] Instance error_le_dec x y : Decision (error_le x y).
Proof. unfold error_le. apply _. Defined.

Definition errors (s : PoloniusSolver) : list (Point * LoanInfo) :=
  omap (λ e : Loan * Point, option_map (pair e.2) (loans s !! e.1))
    (merge_sort error_le (omap (λ f, match f with Error l p => Some (l, p) | _ => None end) (elements (facts s)))).

(** One diagnostic for each place and point. *)
Fixpoint report (seen : list (string * Point)) (es : list (Point * LoanInfo)) : list Diagnostic :=
  match es with
  | [] => []
  | (p, info) :: es =>
      if bool_decide ((place_root info, p) ∈ seen) then report seen es
      else make_diag info p :: report ((place_root info, p) :: seen) es
  end.

Definition check_fn (n : nat) (pkg : Package) (f : HirFn) : option (list Diagnostic) :=
  match fn_body f with
  | None => Some []
  | Some body =>
      s ← collect_facts_from_block pkg n body new_solver;
      let s := solve s in
      Some (if has_errors s then report [] (errors s) else [])
  end.

Definition run_polonius_pass (n : nat) (pkg : Package) : option (list Diagnostic) :=
  ds ← mapM (check_fn n pkg) (fns pkg); Some (concat ds).

(** [check_package] of [lib.rs], with the [polonius] feature off and on. *)
Definition check_package (polonius : bool) (n : nat) (typed : TypedPackage) (pkg : Package) :
    option (list Diagnostic) :=
  diags ← run typed pkg n;
  if polonius then ds ← run_polonius_pass n pkg; Some (diags ++ ds) else Some diags.

(** ** The solver of the second pass reaches the least fixed point

    [consequence] is what the rules derive from a set of facts, however often
    they apply.  A round closes the chains of [Subset] facts up to twice the
    length of the round before, and a chain of distinct [u32] loans has at most
    2^32 links, so that the 32 rounds of [solve] derive every consequence. *)

Local Close Scope string_scope.

Notation length := List.length (only parsing).

(** ** One round *)

Inductive derive (L : gmap Loan LoanInfo) (F : gset Fact) : Fact → Prop :=
  | d_subset a b c p : Subset a b p ∈ F → Subset b c p ∈ F → derive L F (Subset a c p)
  | d_invalidated l p1 p2 : BorrowAt l p1 ∈ F → LoanInvalidated l p2 ∈ F → (p1 ≤ p2)%Z → derive L F (Error l p2)
  | d_conflict l1 l2 p i1 i2 f :
      BorrowAt l1 p ∈ F → BorrowAt l2 p ∈ F → l1 ≠ l2 → L !! l1 = Some i1 → L !! l2 = Some i2 →
      place_root i1 = place_root i2 → loans_conflict (kind i1) (kind i2) = true →
      f = Conflict l1 l2 p ∨ f = Error l1 p → derive L F f.

Lemma pairs_elem rule xs f : f ∈ pairs rule xs ↔ ∃ f1 f2, f1 ∈ xs ∧ f2 ∈ xs ∧ f ∈ rule f1 f2.
Proof. unfold pairs. setoid_rewrite list_elem_of_bind. setoid_rewrite list_elem_of_bind. naive_solver. Qed.

Lemma derive_rules L F f :
  derive L F f ↔ ∃ f1 f2, f1 ∈ F ∧ f2 ∈ F ∧ f ∈ rule_subset f1 f2 ++ rule_invalidated f1 f2 ++ rule_conflict L f1 f2.
Proof.
  setoid_rewrite elem_of_app. setoid_rewrite elem_of_app. split.
  - intros [a b c p H1 H2|l p1 p2 H1 H2 Hle|l1 l2 p i1 i2 g H1 H2 Hne Hi1 Hi2 Hr Hk Hg].
    + exists (Subset a b p), (Subset b c p). split; [done|]. split; [done|]. left. simpl.
      rewrite bool_decide_eq_true_2 by done. constructor.
    + exists (BorrowAt l p1), (LoanInvalidated l p2). split; [done|]. split; [done|]. right. left. simpl.
      rewrite bool_decide_eq_true_2 by done. constructor.
    + exists (BorrowAt l1 p), (BorrowAt l2 p). split; [done|]. split; [done|]. right. right. simpl.
      rewrite bool_decide_eq_false_2 by naive_solver. rewrite Hi1, Hi2, bool_decide_eq_true_2, Hk by done. simpl. set_solver.
  - intros (f1 & f2 & H1 & H2 & [H|[H|H]]); destruct f1, f2; simpl in H; try by apply elem_of_nil in H.
    + case_bool_decide as E; [|by apply elem_of_nil in H]. destruct E as [-> ->].
      apply list_elem_of_singleton in H as ->. by eapply d_subset.
    + case_bool_decide as E; [|by apply elem_of_nil in H]. destruct E as [-> E].
      apply list_elem_of_singleton in H as ->. by eapply d_invalidated.
    + case_bool_decide as E; [by apply elem_of_nil in H|]. apply not_or_and_not in E || apply Decidable.not_or in E.
      destruct E as [E1 E2%dec_stable]. subst.
      destruct (L !! l) as [i1|] eqn:Hi1; [|by apply elem_of_nil in H].
      destruct (L !! l0) as [i2|] eqn:Hi2; [|by apply elem_of_nil in H].
      case_bool_decide as Hr; [|by apply elem_of_nil in H]. destruct (loans_conflict _ _) eqn:Hk; [|by apply elem_of_nil in H].
      simpl in H. eapply d_conflict; [exact H1|exact H2|done|done|done|done|done|set_solver].
Qed.

Lemma apply_rules_facts s f : f ∈ facts (apply_rules s) ↔ f ∈ facts s ∨ derive (loans s) (facts s) f.
Proof.
  unfold apply_rules. simpl. rewrite elem_of_union, elem_of_list_to_set, !elem_of_app, !pairs_elem, derive_rules.
  setoid_rewrite elem_of_app. setoid_rewrite elem_of_app. setoid_rewrite elem_of_elements. split.
  - intros [[(f1 & f2 & ? & ? & ?)|[(f1 & f2 & ? & ? & ?)|(f1 & f2 & ? & ? & ?)]]|?]; eauto 10.
  - intros [?|(f1 & f2 & ? & ? & [?|[?|?]])]; eauto 10.
Qed.

Lemma apply_rules_loans s : loans (apply_rules s) = loans s.
Proof. done. Qed.

(** ** Every round *)

Inductive consequence (L : gmap Loan LoanInfo) (F : gset Fact) : Fact → Prop :=
  | cq_given f : f ∈ F → consequence L F f
  | cq_subset a b c p :
      consequence L F (Subset a b p) → consequence L F (Subset b c p) → consequence L F (Subset a c p)
  | cq_derived f : derive L F f → consequence L F f.

Definition saturated (s : PoloniusSolver) : Prop := ∀ f, derive (loans s) (facts s) f → f ∈ facts s.

Definition rounds (k : nat) (s : PoloniusSolver) : PoloniusSolver := Nat.iter k apply_rules s.

Lemma rounds_loans k s : loans (rounds k s) = loans s.
Proof. induction k as [|k IH]; [done|]. apply IH. Qed.

Lemma rounds_grow k s f : f ∈ facts s → f ∈ facts (rounds k s).
Proof. induction k as [|k IH]; intros H; [done|]. simpl. apply apply_rules_facts. left. by apply IH. Qed.

(** Subsets and errors are all that a round adds. *)
Lemma rounds_old k s f :
  f ∈ facts (rounds k s) → match f with BorrowAt _ _ | LoanInvalidated _ _ => f ∈ facts s | _ => True end.
Proof.
  induction k as [|k IH]; intros H; [by destruct f|]. simpl in H. apply apply_rules_facts in H as [H|H]; [by apply IH|].
  inversion H as [| |? ? ? ? ? ? ? ? ? ? ? ? ? Hf]; subst; try done. by destruct Hf as [->| ->].
Qed.

Lemma consequence_rounds k s f : f ∈ facts (rounds k s) → consequence (loans s) (facts s) f.
Proof.
  revert f. induction k as [|k IH]; intros f H; [by apply cq_given|]. simpl in H.
  apply apply_rules_facts in H as [H|H]; [by apply IH|]. rewrite rounds_loans in H.
  destruct H as [a b c p H1 H2|l p1 p2 H1 H2 Hle|l1 l2 p i1 i2 g H1 H2 Hne Hi1 Hi2 Hr Hk Hg].
  - eapply cq_subset; by apply IH.
  - apply rounds_old in H1, H2. apply cq_derived. by eapply d_invalidated.
  - apply rounds_old in H1, H2. apply cq_derived. eapply d_conflict; [exact H1|exact H2|done..].
Qed.

(** Either a round added nothing, or all of them were taken. *)
Lemma solve_rounds_spec k s :
  ∃ j, j ≤ k ∧ solve_rounds k s = rounds j s ∧ (saturated (rounds j s) ∨ j = k).
Proof.
  revert s. induction k as [|k IH]; intros s; [exists 0; auto|]. cbn [solve_rounds]. cbv zeta. case_bool_decide as E.
  - exists 1. split; [lia|]. split; [done|]. left. simpl.
    assert (facts s ⊆ facts (apply_rules s)) as Hsub by (intros f Hf; apply apply_rules_facts; by left).
    assert (facts (apply_rules s) ≡ facts s) as Heq.
    { intros f. split; [|apply Hsub]. destruct (decide (f ∈ facts s)); [done|]. intros Hf.
      assert (size ({[f]} ∪ facts s) ≤ size (facts (apply_rules s))) as Hle by (apply subseteq_size; set_solver).
      rewrite size_union, size_singleton in Hle by set_solver. lia. }
    intros f Hd. apply Heq. assert (facts (apply_rules s) = facts s) as Heq' by (by apply leibniz_equiv).
    rewrite Heq', apply_rules_loans in Hd. rewrite <- Heq'. apply apply_rules_facts. by right.
  - destruct (IH (apply_rules s)) as (j & Hj & E' & Hs). exists (S j). unfold rounds in *. rewrite Nat.iter_succ_r.
    split; [lia|]. split; [done|]. destruct Hs as [Hs|Hs]; [by left|right; lia].
Qed.

(** ** Chains *)

Inductive trail {A} (R : A → A → Prop) : A → list A → A → Prop :=
  | tr_one a b : R a b → trail R a [b] b
  | tr_more a x l b : R a x → trail R x l b → trail R a (x :: l) b.

Section Trails.
Context {A : Type} `{EqDecision A} (R : A → A → Prop).

Lemma trail_app a l1 x l2 b : trail R a l1 x → trail R x l2 b → trail R a (l1 ++ l2) b.
Proof. induction 1; intros H2; simpl; by apply tr_more; auto. Qed.

Lemma trail_split a l1 l2 b : l1 ≠ [] → l2 ≠ [] → trail R a (l1 ++ l2) b → ∃ x, trail R a l1 x ∧ trail R x l2 b.
Proof.
  intros Hl1 Hl2. revert a. induction l1 as [|y l1 IH]; intros a H; [done|]. simpl in H. inversion H; subst.
  - by destruct l1, l2.
  - destruct (decide (l1 = [])) as [->|Hne].
    + exists y. split; [by apply tr_one|done].
    + destruct (IH Hne y) as (x & H1 & H2); [done|]. exists x. split; [by apply tr_more|done].
Qed.

Lemma trail_end a l b : trail R a l b → ∃ l', l = l' ++ [b].
Proof. induction 1 as [a b H|a x l b H _ (l' & ->)]; [by exists []|by exists (x :: l')]. Qed.

(** Loops can be cut out. *)
Lemma trail_nodup a l b : trail R a l b → ∃ l', trail R a l' b ∧ NoDup l' ∧ l' ⊆ l.
Proof.
  induction 1 as [a b H|a x l b H Ht (l' & Hl & Hnd & Hsub)].
  - exists [b]. split; [by apply tr_one|]. split; [apply NoDup_singleton|done].
  - destruct (decide (x ∈ l')) as [Hx|Hx].
    + apply list_elem_of_split in Hx as (l1 & l2 & ->). destruct (decide (l2 = [])) as [->|Hne].
      * apply trail_end in Hl as (l3 & E). apply app_inj_tail in E as [_ ->].
        exists [b]. split; [by apply tr_one|]. split; [apply NoDup_singleton|set_solver].
      * replace (l1 ++ x :: l2) with ((l1 ++ [x]) ++ l2) in Hl by (by rewrite <- app_assoc).
        apply trail_split in Hl as (y & H1 & H2); [|by destruct l1|done].
        apply trail_end in H1 as (l3 & E). apply app_inj_tail in E as [_ ->].
        exists (y :: l2). split; [by apply tr_more|]. apply NoDup_app in Hnd as (_ & _ & Hnd). split; [done|set_solver].
    + exists (x :: l'). split; [by apply tr_more|]. split; [by constructor|set_solver].
Qed.

Lemma trail_elem a l b x : trail R a l b → x ∈ l → ∃ y, R y x.
Proof.
  induction 1 as [a b H|a z l b H _ IH]; intros Hx; apply elem_of_cons in Hx as [->|Hx]; eauto.
  by apply elem_of_nil in Hx.
Qed.

End Trails.

(** ** The chains of subsets *)

Definition subset_at (F : gset Fact) (p : Z) (a b : Z) : Prop := Subset a b p ∈ F.

(** The inner loans of subsets are [u32]s, here with [k] bits. *)
Definition loans_below (k : nat) (F : gset Fact) : Prop := ∀ a b p, Subset a b p ∈ F → (0 ≤ b < 2 ^ Z.of_nat k)%Z.

Lemma rounds_chain k s p a l b :
  trail (subset_at (facts s) p) a l b → length l ≤ 2 ^ k → Subset a b p ∈ facts (rounds k s).
Proof.
  revert a l b. induction k as [|k IH]; intros a l b Ht Hl.
  - destruct Ht as [a b H|a x l b H Ht]; [done|]. exfalso. destruct Ht; simpl in Hl; lia.
  - simpl. apply apply_rules_facts. destruct (decide (length l ≤ 2 ^ k)) as [Hle|Hgt]; [left; by eapply IH|]. right.
    rewrite <- (take_drop (2 ^ k) l) in Ht. assert (0 < 2 ^ k) as Hpos by (by apply Nat.neq_0_lt_0, Nat.pow_nonzero).
    assert (length (take (2 ^ k) l) = 2 ^ k) as Ht1 by (rewrite length_take; lia).
    assert (length (drop (2 ^ k) l) ≤ 2 ^ k) as Ht2 by (rewrite length_drop; simpl in Hl; lia).
    apply trail_split in Ht as (x & H1 & H2); [|by intros E; rewrite E in Ht1; simpl in Ht1; lia|].
    + eapply d_subset; [apply (IH a _ x H1); lia|by apply (IH x _ b H2)].
    + intros E. assert (length (drop (2 ^ k) l) = 0) as E0 by (by rewrite E). rewrite length_drop in E0. lia.
Qed.

Lemma small_nodup k (l : list Z) : NoDup l → Forall (λ b, 0 ≤ b < 2 ^ Z.of_nat k)%Z l → length l ≤ 2 ^ k.
Proof.
  intros Hnd Hl. assert (∀ b, (0 ≤ b < 2 ^ Z.of_nat k)%Z → Z.to_nat b < 2 ^ k) as Hb.
  { intros b Hb. apply Nat2Z.inj_lt. rewrite Z2Nat.id by lia. rewrite Nat2Z.inj_pow. exact (proj2 Hb). }
  rewrite <- (length_fmap Z.to_nat l). apply (nodup_bound (Z.to_nat <$> l)).
  - clear Hb. induction Hnd as [|x l Hx Hnd IH]; [constructor|]. apply Forall_cons in Hl as [H1 H2]. simpl. constructor; [|by apply IH].
    intros (y & E & Hy)%list_elem_of_fmap. rewrite Forall_forall in H2. pose proof (H2 y Hy). by apply Z2Nat.inj in E as ->; [|lia|lia].
  - apply Forall_fmap. eapply Forall_impl; [exact Hl|]. intros b H. by apply Hb.
Qed.

Lemma chain_rounds k s p a l b :
  loans_below k (facts s) → trail (subset_at (facts s) p) a l b → Subset a b p ∈ facts (rounds k s).
Proof.
  intros Hk Ht. destruct (trail_nodup _ _ _ _ Ht) as (l' & Ht' & Hnd & _). eapply rounds_chain; [exact Ht'|].
  apply small_nodup; [done|]. apply Forall_forall. intros x Hx. destruct (trail_elem _ _ _ _ _ Ht' Hx) as [y Hy]. by eapply Hk.
Qed.

Lemma rounds_trail k s p a b : Subset a b p ∈ facts (rounds k s) → ∃ l, trail (subset_at (facts s) p) a l b.
Proof.
  revert a b. induction k as [|k IH]; intros a b H; [exists [b]; by apply tr_one|]. simpl in H.
  apply apply_rules_facts in H as [H|H]; [by apply IH|]. inversion H as [? x ? ? H1 H2| |? ? ? ? ? ? ? ? ? ? ? ? ? Hf]; subst.
  - destruct (IH _ _ H1) as [l1 T1], (IH _ _ H2) as [l2 T2]. exists (l1 ++ l2). by eapply trail_app.
  - by destruct Hf.
Qed.

(** After [k] rounds, at least one, nothing is left to derive. *)
Lemma rounds_saturated k s : 0 < k → loans_below k (facts s) → saturated (rounds k s).
Proof.
  intros Hpos Hk f Hd. rewrite rounds_loans in Hd. destruct Hd as [a b c p H1 H2|l p1 p2 H1 H2 Hle|l1 l2 p i1 i2 g H1 H2 Hne Hi1 Hi2 Hr Hkd Hg].
  - apply rounds_trail in H1 as [t1 H1], H2 as [t2 H2]. eapply chain_rounds; [done|by eapply trail_app].
  - apply rounds_old in H1, H2. destruct k as [|k]; [lia|]. unfold rounds. rewrite Nat.iter_succ_r. apply rounds_grow.
    apply apply_rules_facts. right. by eapply d_invalidated.
  - apply rounds_old in H1, H2. destruct k as [|k]; [lia|]. unfold rounds. rewrite Nat.iter_succ_r. apply rounds_grow.
    apply apply_rules_facts. right. eapply d_conflict; [exact H1|exact H2|done..].
Qed.

Lemma solve_rounds_exact k s f :
  0 < k → loans_below k (facts s) → f ∈ facts (solve_rounds k s) ↔ consequence (loans s) (facts s) f.
Proof.
  intros Hpos Hk. destruct (solve_rounds_spec k s) as (j & Hj & -> & Hs). split; [apply consequence_rounds|].
  assert (saturated (rounds j s)) as Hsat by (destruct Hs as [|Hs]; [done|]; subst j; by apply rounds_saturated).
  induction 1 as [f Hf|a b c p _ IH1 _ IH2|f Hd].
  - by apply rounds_grow.
  - apply Hsat. by eapply d_subset.
  - apply Hsat. rewrite rounds_loans. destruct Hd as [a b c p H1 H2|l p1 p2 H1 H2 Hle|l1 l2 p i1 i2 g H1 H2 Hne Hi1 Hi2 Hr Hkd Hg].
    + eapply d_subset; by apply rounds_grow.
    + eapply d_invalidated; [by apply rounds_grow|by apply rounds_grow|done].
    + eapply d_conflict; [apply rounds_grow, H1|apply rounds_grow, H2|done..].
Qed.
