(* ===== verification/BorrowTheorems.v ===== *)
(** * What the borrow checker guarantees *)

From stdpp Require Import base list strings numbers gmap sets.
From S2P Require Import Prelude StateM TyArena Infer Hir BorrowState BorrowFlow BorrowTotal BorrowWalkTotal BorrowRun BorrowMoves BorrowReport Polonius.

Local Open Scope string_scope.
Local Open Scope list_scope.
Notation length := List.length (only parsing).

(** ** Moves *)

Definition owned (x : string) (c : BorrowCx) : Prop :=
  ∃ l, cx_locals c !! x = Some l ∧ ls_state l = Owned ∧ ls_is_copy l = false.

Lemma stays_moved {R} x sp (m : ST BorrowCx R) c :
  keeps true x m → moved x sp c → ensures m c (λ _ c', moved x sp c').
Proof. intros Hm Hc r c' E. destruct (Hm c r c' E) as [_ Hk]. by apply (km_moved _ _ _ (Hk eq_refl)). Qed.

Lemma moves_path typed x c :
  owned x c → ensures (walk_path typed [x] Move) c (λ _ c', moved x no_span c').
Proof.
  intros (l & Hl & Hs & Hc). unfold walk_path. apply ensures_bind. intros [] c1 E1.
  assert (cx_locals c1 = cx_locals c ∧ ledger c1 = ledger c) as [H1 H2].
  { unfold advance_point in E1. destruct (succ_u32 _); [|done]. by injection E1 as <-. }
  apply ensures_bind. intros k c2 [= <- <-]. unfold is_local. rewrite H1, Hl. apply ensures_bind.
  eapply ensures_mono with (Q := λ _ c', moved x no_span c').
  - unfold at_position, do_move. apply ensures_bind. intros led c2 [= <- <-]. apply ensures_bind.
    intros ls c2 [= <- <-]. rewrite H1, Hl, Hs. apply ensures_bind. intros [] c2 _. rewrite Hc.
    intros u c3 [= <- <-]. exists (set_state (Moved no_span) l). simpl. by rewrite lookup_insert_eq.
  - intros ? c2 Hm. apply ensures_bind. eapply ensures_mono; [apply stays_moved; [apply keeps_decay|done]|].
    intros ? c3 H3. by apply ensures_ret.
Qed.

Lemma uses_path typed x fields sp c :
  moved x sp c → ensures (walk_path typed (x :: fields) Use) c (λ _ c', use_after_move x no_span sp ∈ diag c').
Proof.
  intros Hm. unfold walk_path. apply ensures_bind. eapply ensures_mono; [apply stays_moved; [apply keeps_advance|done]|].
  intros [] c1 H1. apply ensures_bind. intros k c2 [= <- <-]. destruct H1 as (l & Hl & Hs). unfold is_local. rewrite Hl.
  apply ensures_bind. eapply ensures_mono with (Q := λ _ c', use_after_move x no_span sp ∈ diag c').
  - assert (ensures (do_use x no_span) c1 (λ _ c', use_after_move x no_span sp ∈ diag c')) as Hu.
    { unfold do_use. apply ensures_bind. intros ls c2 [= <- <-]. rewrite Hl. simpl. rewrite Hs.
      intros u c3 [= <- <-]. simpl. apply elem_of_app. right. constructor. }
    by destruct fields.
  - intros ? c2 H2. apply ensures_bind. eapply ensures_mono; [eapply (said_keeps _ false ""); [apply keeps_decay|done]|].
    intros ? c3 H3. by apply ensures_ret.
Qed.

Lemma binds_param typed x ty sp c :
  is_copy (arena typed) (def_map typed) ty = Some false → ensures (bind_local typed x ty sp false) c (λ _ c', owned x c').
Proof.
  intros Hc. unfold bind_local, bind_local_with_state. rewrite Hc. intros r c' [= <- <-].
  exists (mkLocalState x ty Owned sp false false (current_arena c)). split; [|done]. simpl.
  destruct (scopes c); simpl; by rewrite lookup_insert_eq.
Qed.

Lemma binds_other typed x y ty sp c :
  x ≠ y → owned x c → ensures (bind_local typed y ty sp false) c (λ _ c', owned x c').
Proof.
  intros Hy (l & Hl & Hs). unfold bind_local, bind_local_with_state. intros r c'.
  destruct (is_copy _ _ ty); [|done]. intros [= <- <-]. exists l. split; [|done].
  destruct (scopes c); simpl; by rewrite lookup_insert_ne.
Qed.

Lemma binds_params typed x ty sp ps ps' c :
  is_copy (arena typed) (def_map typed) ty = Some false → x ∉ ps'.*1 →
  ensures (each (λ p : string * TyId, bind_local typed p.1 p.2 sp false) (ps ++ (x, ty) :: ps')) c (λ _ c', owned x c').
Proof.
  intros Hc Hx. revert c. induction ps as [|p ps IH]; intros c; simpl; apply ensures_bind.
  - eapply ensures_mono; [by apply binds_param|]. intros ? c' H. simpl in H. clear c.
    revert c' H. induction ps' as [|p ps' IH]; intros c H; [by apply ensures_ret|]. simpl. apply not_elem_of_cons in Hx as [Hp Hx].
    apply ensures_bind. eapply ensures_mono; [by apply binds_other|]. intros ? c'. by apply IH.
  - intros ? c' _. apply IH.
Qed.


(** The statements of a body that moves [x] and uses it again. *)
Lemma stmts_report typed pkg n x e1 p mid e2 fields rest c :
  exprs pkg !! e1 = Some (EMove p) → exprs pkg !! p = Some (EPath [x]) → exprs pkg !! e2 = Some (EPath (x :: fields)) →
  forallb (stmt_spares x pkg n) mid = true → owned x c →
  ensures (each (walk_stmt typed pkg n (walk_expr typed pkg n)) (SExpr e1 :: mid ++ SExpr e2 :: rest)) c
    (λ _ c', use_after_move x no_span no_span ∈ diag c').
Proof.
  intros H1 Hp H2 Hmid Hc. simpl. apply ensures_bind. eapply ensures_mono with (Q := λ _ c', moved x no_span c').
  { unfold use, void. apply ensures_bind. destruct n as [|n]; [by intros ???|]. intros r c' E. cbn [walk_expr] in E.
    unfold lift, mbind, ST_bind in E. rewrite H1 in E. cbn [walk_shape] in E. apply ensures_ret.
    unfold nameless, walk_move, lift, void, mbind, ST_bind in E. rewrite Hp in E. destruct n as [|n]; [done|].
    cbn [walk_expr] in E. unfold lift, mbind, ST_bind in E. rewrite Hp in E. cbn [walk_shape] in E.
    destruct (walk_path typed [x] Move c) as [[r' c1]|] eqn:Ep; [|done]. injection E as <- <-. by eapply moves_path. }
  intros [] c1 Hm. simpl in Hm. clear c Hc. revert c1 Hm. induction mid as [|st mid IH]; intros c Hm; simpl.
  - apply ensures_bind. eapply ensures_mono; [|intros ? c'; by apply said_stmts].
    unfold use, void. apply ensures_bind. destruct n as [|n]; [by intros ???|]. intros r c' E. cbn [walk_expr] in E.
    unfold lift, mbind, ST_bind in E. rewrite H2 in E. cbn [walk_shape] in E. apply ensures_ret. by eapply uses_path.
  - simpl in Hmid. apply andb_true_iff in Hmid as [Hst Hmid]. apply ensures_bind. eapply ensures_mono; [|intros ? c'; by apply IH].
    apply stays_moved; [|done]. apply keeps_stmt; [|done]. intros e pos He Ht. by apply keeps_walk.
Qed.

Lemma body_reports typed pkg n f params bid blk x ty ps ps' e1 p mid e2 fields rest c :
  blocks pkg !! bid = Some blk → stmts blk = SExpr e1 :: mid ++ SExpr e2 :: rest →
  exprs pkg !! e1 = Some (EMove p) → exprs pkg !! p = Some (EPath [x]) → exprs pkg !! e2 = Some (EPath (x :: fields)) →
  forallb (stmt_spares x pkg n) mid = true →
  params = ps ++ (x, ty) :: ps' → is_copy (arena typed) (def_map typed) ty = Some false → x ∉ ps'.*1 →
  ensures (fn_walk typed pkg n f params bid) c (λ _ c', use_after_move x no_span no_span ∈ diag c').
Proof.
  intros Hb Hst H1 Hp H2 Hmid -> Hc Hx. unfold fn_walk. apply ensures_bind.
  eapply ensures_mono; [by apply binds_params|]. intros ? c1 Ho. unfold walk_body, walk_block.
  apply ensures_bind. intros [] c2 [= <-]. apply ensures_bind. unfold lift. rewrite Hb. intros blk' c2 [= <- <-].
  apply ensures_bind. rewrite Hst. eapply ensures_mono; [eapply stmts_report; [done..|exact Ho]|].
  intros ? c2 Hd. apply ensures_bind. eapply ensures_mono; [apply said_tail; exact Hd|]. intros ? c3. apply said_pop.
Qed.

(** C4.  A use of a moved value is reported.  Take a function of the package
    one of whose parameters [x] has a type that is not [Copy], whose body
    starts by moving [x] and later, in any statement of the same block, reads
    [x] or one of its fields; the statements between may branch, match, loop,
    borrow and call as they like, as long as they neither assign [x] nor bind
    another local of that name.  The check of the package returns, with an
    MT3001 for [x] among its diagnostics, whatever its other bodies hold. *)
Theorem use_after_move_reported typed pkg n fid f bid blk x ty ps ps' e1 p mid e2 fields rest :
  typed_ok typed → package_fits pkg n = true →
  fns pkg !! fid = Some f → fn_body f = Some bid → blocks pkg !! bid = Some blk →
  fn_param_tys typed !! fid = Some (ps ++ (x, ty) :: ps') → x ∉ ps'.*1 →
  is_copy (ty_arena typed) (def_map typed) ty = Some false →
  stmts blk = SExpr e1 :: mid ++ SExpr e2 :: rest →
  exprs pkg !! e1 = Some (EMove p) → exprs pkg !! p = Some (EPath [x]) → exprs pkg !! e2 = Some (EPath (x :: fields)) →
  forallb (stmt_spares x pkg n) mid = true →
  ∃ ds, run typed pkg n = Some ds ∧ use_after_move x no_span no_span ∈ ds.
Proof.
  intros Hok Hfit Hf Hb Hblk Hps Hx Hc Hst H1 Hp H2 Hmid. destruct (run_returns typed pkg n Hok Hfit) as [ds Hds].
  exists ds. split; [done|]. eapply (fn_reports _ typed pkg n fid f bid); [done|done| |exact Hds].
  intros c _ _. rewrite Hps. by eapply body_reports.
Qed.

(** *** One function *)

(** The package of [fn f(..) { .. }], whose body is block 0, and its tables when
    the parameters have the given types and the expressions [tys]. *)
Definition one_fn (es : list HirExpr) (ps : list HirPat) (bs : list HirBlock) : Package :=
  mkPackage [ItFn 0] [mkFn "f" false false [] [] None [] None (Some 0) None false no_span]
    [] [] [] [] [] [] es ps [] bs [] [0] ∅.

Definition tables (params : list (string * TyId)) (tys : gmap ExprId TyId) : TypedPackage :=
  mkTyped (mkDefMap [] ∅) new tys {[0 := params]}.

Lemma tables_ok params tys :
  Forall (λ p, is_Some (get new p.2)) params → map_Forall (λ _ t, is_Some (get new t)) tys → typed_ok (tables params tys).
Proof.
  intros Hp Ht. split.
  - apply new_ok.
  - exists TUnit. by vm_compute.
  - exact Ht.
  - by apply map_Forall_singleton.
  - constructor.
Qed.

(** [string] in the arena of the primitives *)
Definition STRING : TyId := 5.

(** [fn f(x: string) { move x; let y = true; if y { y; } x.len }] *)
Definition moves_x : Package :=
  one_fn
    [EMove 1; EPath ["x"]; EPath ["x"; "len"]; ELiteral (LBool true); EIf 5 1 None; EPath ["y"]; EPath ["y"]]
    [PBinding "y" None]
    [mkBlock [SExpr 0; SLet 0 None (Some 3) false; SExpr 4; SExpr 2] None; mkBlock [SExpr 6] None].

Lemma use_after_move_reported_witness :
  package_fits moves_x 3 = true ∧
  ∃ ds, run (tables [("x", STRING)] ∅) moves_x 3 = Some ds ∧ use_after_move "x" no_span no_span ∈ ds.
Proof.
  split; [by vm_compute|].
  apply (use_after_move_reported _ moves_x 3 0 (nth 0 (fns moves_x) (mkFn "" false false [] [] None [] None None None false no_span))
    0 (nth 0 (blocks moves_x) (mkBlock [] None)) "x" STRING [] [] 0 1 [SLet 0 None (Some 3) false; SExpr 4] 2 ["len"] []);
    try (vm_compute; reflexivity).
  - apply tables_ok; [|apply map_Forall_empty]. repeat constructor. exists TString. vm_compute. reflexivity.
  - apply not_elem_of_nil.
Defined.

(** ** Termination *)

(** C18.  The check of a package returns: no index is out of range, no counter
    overflows and no recursion or loop is endless, when the bodies are trees of
    the package's nodes whose weight (two for each expression, times seventeen
    for each enclosing loop, which is walked that many times at most) is below
    2^32, and the types in the side tables exist. *)
Theorem borrow_check_returns typed pkg n :
  typed_ok typed → package_fits pkg n = true → is_Some (run typed pkg n).
Proof. apply run_returns. Qed.

(** [fn f(s: string) { loop { while true { s; } move s; } s }] *)
Definition loops : Package :=
  one_fn
    [ELoop 1; EWhile 2 2; ELiteral (LBool true); EPath ["s"]; EMove 5; EPath ["s"]; EPath ["s"]]
    []
    [mkBlock [SExpr 0] (Some 6); mkBlock [SExpr 1; SExpr 4] None; mkBlock [SExpr 3] None].

Lemma borrow_check_returns_witness :
  package_fits loops 3 = true ∧ is_Some (run (tables [("s", STRING)] ∅) loops 3).
Proof.
  split; [by vm_compute|]. apply borrow_check_returns; [|by vm_compute].
  apply tables_ok; [|apply map_Forall_empty]. repeat constructor. exists TString. vm_compute. reflexivity.
Defined.

(** ** Borrows *)

(** Of two places with a common root one contains the other. *)
Definition overlap (p q : Place) : Prop :=
  root p = root q ∧ (projs p `prefix_of` projs q ∨ projs q `prefix_of` projs p).

(** The code of the error that a borrow makes against a live one. *)
Definition clash (new live : BorrowKind) : option Z :=
  match new, live with
  | Mut, Mut => Some TWO_MUT_BORROWS
  | Mut, Shared => Some MUT_BORROW_WHILE_SHARED
  | Shared, Mut => Some SHARED_BORROW_WHILE_MUT
  | Shared, Shared => None
  end.

(** What a borrow of [p] says against the ledger [l]: nothing, or one error,
    for a borrow of an overlapping place. *)
Inductive conflict_report (p : Place) (k : BorrowKind) (l : BorrowLedger) : list Diagnostic → Prop :=
  | cr_free : (∀ r, r ∈ l → overlap (rec_place r) p → clash k (rec_kind r) = None) → conflict_report p k l []
  | cr_clash r d : r ∈ l → overlap (rec_place r) p → clash k (rec_kind r) = Some (d_code d) → conflict_report p k l [d].

Lemma conflicts_with_elem l p r : r ∈ conflicts_with l p ↔ r ∈ l ∧ overlap (rec_place r) p.
Proof.
  unfold conflicts_with, overlap. rewrite !list_elem_of_In, filter_In, overlaps_spec. done.
Qed.

Lemma existsb_elem {A} (f : A → bool) l : existsb f l = true ↔ ∃ x, x ∈ l ∧ f x = true.
Proof. rewrite existsb_exists. by setoid_rewrite list_elem_of_In. Qed.

Lemma existsb_none {A} (f : A → bool) l : existsb f l = false ↔ ∀ x, x ∈ l → f x = false.
Proof.
  split.
  - intros H x Hx. destruct (f x) eqn:E; [|done]. assert (existsb f l = true) by (apply existsb_elem; eauto). congruence.
  - intros H. destruct (existsb f l) eqn:E; [|done]. apply existsb_elem in E as (x & Hx & E). by rewrite H in E.
Qed.

Lemma borrow_conflict_report p k sp l :
  conflict_report p k l (match borrow_conflict p k sp l with Some d => [d] | None => [] end).
Proof.
  unfold borrow_conflict. cbv zeta.
  assert (∀ kd d, existsb (λ r, bool_decide (rec_kind r = kd)) (conflicts_with l p) = true →
    clash k kd = Some (d_code d) → conflict_report p k l [d]) as Hclash.
  { intros kd d (r & [Hr Ho]%conflicts_with_elem & E%bool_decide_eq_true)%existsb_elem Hc. eapply cr_clash; [done..|]. by rewrite E. }
  assert (∀ kd, existsb (λ r, bool_decide (rec_kind r = kd)) (conflicts_with l p) = false →
    ∀ r, r ∈ l → overlap (rec_place r) p → rec_kind r ≠ kd) as Hfree.
  { intros kd H r Hr Ho. eapply existsb_none in H; [|by apply conflicts_with_elem]. by apply bool_decide_eq_false in H. }
  destruct k, (existsb (λ r, bool_decide (rec_kind r = Mut)) _) eqn:Em.
  - apply (Hclash _ _ Em). by case_bool_decide.
  - apply cr_free. intros r Hr Ho. specialize (Hfree _ Em r Hr Ho). by destruct (rec_kind r).
  - apply (Hclash _ _ Em). by case_bool_decide.
  - destruct (existsb (λ r, bool_decide (rec_kind r = Shared)) _) eqn:Es.
    + apply (Hclash _ _ Es). by case_bool_decide.
    + apply cr_free. intros r Hr Ho. pose proof (Hfree _ Em r Hr Ho). pose proof (Hfree _ Es r Hr Ho). by destruct (rec_kind r).
Qed.

(** C12.  A borrow is checked against exactly the live borrows it overlaps.  For
    a place whose root is a local that is not moved nor uninitialised (and
    declared mutable, for a mutable borrow), the borrow is recorded, with the
    binding in progress as its borrower, the root's state follows, and one
    error is reported if and only if some record of the ledger has a place
    that contains the borrowed one or is part of it, and one of the two
    borrows is mutable; the code tells which of the two. *)
Theorem borrow_conflicts_exact p k sp c l :
  cx_locals c !! root p = Some l → (k = Mut → ls_mutable l = true) →
  (match ls_state l with Owned | BorrowedMut => True | Borrowed n => (n + 1 < 2 ^ 32)%Z | _ => False end) →
  ∃ c' ds l', try_place_borrow p k sp c = Some ((), c') ∧
    ledger c' = ledger c ++ [mkRecord p k (pending_borrower c) sp] ∧
    diag c' = diag c ++ ds ∧ conflict_report p k (ledger c) ds ∧
    cx_locals c' = <[root p := l']> (cx_locals c) ∧
    ls_state l' = match ls_state l, k with
                  | Owned, Shared => Borrowed 1 | Owned, Mut => BorrowedMut
                  | Borrowed n, Shared => Borrowed (n + 1) | s, _ => s
                  end.
Proof.
  intros Hl Hm Hs. set (ds := match borrow_conflict p k sp (ledger c) with Some d => [d] | None => [] end).
  assert (∃ s, borrowed_state (ls_state l) k = Some s ∧ s = match ls_state l, k with
    | Owned, Shared => Borrowed 1 | Owned, Mut => BorrowedMut | Borrowed n, Shared => Borrowed (n + 1) | s, _ => s end) as (s & Hb & Es).
  { destruct (ls_state l), k; try done; simpl; try (by eexists). unfold succ_u32. rewrite bool_decide_eq_true_2 by done. by eexists. }
  set (c1 := match borrow_conflict p k sp (ledger c) with Some d => set_diag (diag c ++ [d]) c | None => c end).
  assert (try_place_borrow p k sp c = record_borrow p k sp c1) as ->.
  { unfold try_place_borrow, gets, mbind, ST_bind. rewrite Hl. subst c1.
    destruct k; [|rewrite Hm by done]; cbn -[borrow_conflict record_borrow]; destruct (ls_state l); try done;
      by destruct (borrow_conflict _ _ _ _). }
  assert (cx_locals c1 = cx_locals c ∧ ledger c1 = ledger c ∧ pending_borrower c1 = pending_borrower c ∧ diag c1 = diag c ++ ds)
    as (E1 & E2 & E3 & E4).
  { subst c1 ds. destruct (borrow_conflict _ _ _ _); simpl; by rewrite ?app_nil_r. }
  unfold record_borrow. rewrite (bind_run _ _ _ () _ eq_refl), (bind_run _ _ _ _ _ eq_refl). simpl. rewrite E1, Hl.
  unfold lift, mbind, ST_bind. rewrite Hb. eexists _, ds, (set_state s l). split; [done|]. simpl. rewrite E1, E2, E3.
  split; [done|]. split; [done|]. split; [apply borrow_conflict_report|]. done.
Qed.

(** [&mut a.x] while [&a] is live *)
Lemma borrow_conflicts_exact_witness :
  let c := set_ledger [mkRecord (mkPlace "a" []) Shared (Some "r") no_span]
    (set_locals {["a" := mkLocalState "a" STRING (Borrowed 1) no_span true false None]} (new_cx [] [])) in
  let p := mkPlace "a" [PrField "x"] in
  ∃ c' ds l', try_place_borrow p Mut no_span c = Some ((), c') ∧
    ledger c' = ledger c ++ [mkRecord p Mut None no_span] ∧
    diag c' = ds ∧ conflict_report p Mut (ledger c) ds ∧
    cx_locals c' = <["a" := l']> (cx_locals c) ∧ ls_state l' = Borrowed 1.
Proof. intros c p. by apply (borrow_conflicts_exact p Mut no_span c (mkLocalState "a" STRING (Borrowed 1) no_span true false None)). Defined.

(** *** The end of a frame *)

Definition departed (names : list string) (c : BorrowCx) : BorrowCx := foldl (λ c name, depart name c) c names.

Lemma departs_run names c : each (λ name, modify (depart name)) names c = Some ((), departed names c).
Proof. revert c. induction names as [|x names IH]; intros c; [done|]. simpl. rewrite (bind_run _ _ _ () _ eq_refl). apply IH. Qed.

Lemma departed_rest names c :
  diag (departed names c) = diag c ∧ ledger (departed names c) = ledger c ∧ scopes (departed names c) = scopes c.
Proof. revert c. induction names as [|x names IH]; intros c; [done|]. simpl. apply (IH (depart x c)). Qed.

Lemma departed_lookup names c y :
  cx_locals (departed names c) !! y = if bool_decide (y ∈ names) then None else cx_locals c !! y.
Proof.
  revert c. induction names as [|x names IH]; intros c; [done|]. simpl. rewrite (IH (depart x c)). simpl.
  destruct (decide (x = y)) as [->|Hne].
  - rewrite lookup_delete_eq, (bool_decide_eq_true_2 (y ∈ y :: names)) by constructor. by case_bool_decide.
  - rewrite lookup_delete_ne by done. do 2 case_bool_decide; try done; set_solver.
Qed.

(** A value whose drop is planned: owned, and not [Copy]. *)
Definition drops (c : BorrowCx) (e : DropEntry) : Prop :=
  ∃ l, cx_locals c !! de_local_name e = Some l ∧ ls_state l = Owned ∧ ls_is_copy l = false ∧ e = mkDropEntry (de_local_name e) (declared_at l).

Lemma departed_plan names c :
  ∃ es, drop_plan (departed names c) = drop_plan c ++ es ∧ NoDup (de_local_name <$> es) ∧
    ∀ e, e ∈ es ↔ de_local_name e ∈ names ∧ drops c e.
Proof.
  revert c. induction names as [|x names IH]; intros c.
  { exists []. rewrite app_nil_r. split; [done|]. split; [constructor|]. intros e. split; [by intros ?%elem_of_nil|by intros [?%elem_of_nil _]]. }
  simpl. destruct (IH (depart x c)) as (es & Hes & Hnd & He). rewrite Hes. clear IH Hes.
  assert (∀ e, drops (depart x c) e ↔ de_local_name e ≠ x ∧ drops c e) as Hd.
  { intros e. unfold drops. simpl. destruct (decide (de_local_name e = x)) as [->|Hne].
    - rewrite lookup_delete_eq. split; [by intros (? & ? & _)|by intros [? _]].
    - rewrite lookup_delete_ne by done. split; [done|by intros [_ ?]]. }
  setoid_rewrite Hd in He. simpl.
  assert ((∀ l, cx_locals c !! x = Some l → ls_state l = Owned → ls_is_copy l = false → False) →
    ∃ es', drop_plan c ++ es = drop_plan c ++ es' ∧ NoDup (de_local_name <$> es') ∧
      ∀ e, e ∈ es' ↔ de_local_name e ∈ x :: names ∧ drops c e) as Hskip.
  { intros Hx. exists es. split; [done|]. split; [done|]. intros e. rewrite He, elem_of_cons. split; [by intros (? & ? & ?); auto|].
    intros [Hin (l & H1 & H2 & H3 & H4)]. assert (de_local_name e ≠ x) as Hne by (intros <-; by eapply Hx).
    destruct Hin as [|Hin]; [done|]. split; [done|]. split; [done|]. by exists l. }
  destruct (cx_locals c !! x) as [l|] eqn:Hl; [|by apply Hskip].
  destruct (ls_state l) eqn:Hs; try (apply Hskip; intros l' [= <-]; congruence).
  destruct (ls_is_copy l) eqn:Hc; [apply Hskip; intros l' [= <-]; congruence|]. clear Hskip.
  exists (mkDropEntry x (declared_at l) :: es). simpl. rewrite <- app_assoc. split; [done|]. split.
  - constructor; [|done]. intros (e & -> & Hin)%list_elem_of_fmap. by apply He in Hin as (_ & ? & _).
  - intros e. rewrite elem_of_cons, He, elem_of_cons. split.
    + intros [->|(H1 & H2 & H3)]; [|by auto]. split; [by left|]. by exists l.
    + intros [Hin He']. destruct (decide (de_local_name e = x)) as [E|Hne].
      * left. destruct He' as (l' & Hl' & _ & _ & ->). rewrite E in Hl' |- *. by simplify_eq.
      * right. destruct Hin as [|Hin]; [done|]. auto.
Qed.

(** Recomputing states changes only states of locals that hold a value. *)
Definition resynced (led : BorrowLedger) (y : string) (l l' : LocalState) : Prop := l' = l ∨ l' = recomputed y led l.

Lemma recomputed_again led y l : recomputed y led (recomputed y led l) = recomputed y led l.
Proof.
  destruct l as [nm ty s sp m cp rg]. unfold recomputed. simpl.
  destruct s; simpl; destruct (has_mut y led); simpl; try done; by destruct (0 <? count_shared y led)%Z.
Qed.

Lemma recomputes_run rs c :
  (Z.of_nat (length (ledger c)) < 2 ^ 32)%Z →
  ∃ ls, each (λ r, recompute_root_state (root (rec_place r))) rs c = Some ((), set_locals ls c) ∧
    ∀ y, option_Forall2 (resynced (ledger c) y) (cx_locals c !! y) (ls !! y).
Proof.
  intros Hlen. assert (∀ ls, (∀ y, option_Forall2 (resynced (ledger c) y) (cx_locals c !! y) (ls !! y)) →
    ∃ ls', each (λ r, recompute_root_state (root (rec_place r))) rs (set_locals ls c) = Some ((), set_locals ls' c) ∧
      ∀ y, option_Forall2 (resynced (ledger c) y) (cx_locals c !! y) (ls' !! y)) as H.
  { induction rs as [|r rs IH]; intros ls Hls; [by exists ls|]. simpl. set (x := root (rec_place r)).
    assert (recompute_root_state x (set_locals ls c) = Some ((), set_locals (alter (recomputed x (ledger c)) x ls) c)) as E.
    { unfold recompute_root_state. rewrite bool_decide_eq_true_2; [done|]. simpl. unfold count_shared.
      pose proof (filter_length_le (λ r, bool_decide (root (rec_place r) = x) && bool_decide (rec_kind r = Shared)) (ledger c)). lia. }
    rewrite (bind_run _ _ _ _ _ E). apply IH. intros y. specialize (Hls y). destruct (decide (x = y)) as [<-|Hne].
    - rewrite lookup_alter_eq. destruct Hls as [l l' [->| ->]|]; simpl; constructor; right; [done|apply recomputed_again].
    - by rewrite lookup_alter_ne. }
  destruct (H (cx_locals c)) as (ls & E & Hls).
  { intros y. destruct (cx_locals c !! y); constructor. by left. }
  exists ls. split; [|done]. rewrite <- E. by destruct c.
Qed.

Lemma Forall2_some_l {A B} (R : A → B → Prop) x o : option_Forall2 R (Some x) o → ∃ y, o = Some y ∧ R x y.
Proof. inversion 1; eauto. Qed.

Lemma Forall2_some_r {A B} (R : A → B → Prop) o y : option_Forall2 R o (Some y) → ∃ x, o = Some x ∧ R x y.
Proof. inversion 1; eauto. Qed.

(** What [recomputed] leaves of a local. *)
Lemma resynced_owned led y l l' :
  resynced led y l l' → ls_state l' = Owned →
  declared_at l' = declared_at l ∧ ls_is_copy l' = ls_is_copy l ∧ ls_state l ≠ Uninit ∧ ∀ sp, ls_state l ≠ Moved sp.
Proof.
  intros [->| ->] Hs; [by rewrite Hs|]. unfold recomputed in *.
  by destruct (ls_state l) eqn:E; simpl in Hs |- *; try (split; [done|split; [done|split; congruence]]); congruence.
Qed.

Lemma recomputed_free led y l :
  (∀ r, r ∈ led → root (rec_place r) ≠ y) → ls_state l = Owned → recomputed y led l = l.
Proof.
  intros Hr Hs. assert (has_mut y led = false) as H1.
  { apply existsb_none. intros r Hin. by rewrite bool_decide_eq_false_2 by auto. }
  assert (List.filter (λ r, bool_decide (root (rec_place r) = y) && bool_decide (rec_kind r = Shared)) led = []) as H2.
  { clear H1. induction led as [|r led IH]; [done|]. simpl. rewrite bool_decide_eq_false_2 by (apply Hr; constructor).
    apply IH. intros r' Hr'. apply Hr. by constructor. }
  unfold recomputed, count_shared. rewrite Hs, H1, H2. simpl. destruct l; simpl in *. by subst.
Qed.

(**  The end of a frame.  Leaving a block takes the frame's locals out of
    scope and ends every borrow of them and by them, and no other; it reports
    a borrow that outlives its owner exactly for the records of a departing
    local that a local which stays holds; and it plans at most one drop for
    each departing local, only for locals that hold a value of a type that is
    not [Copy], and for every such local that is owned and not borrowed. *)
Theorem frame_end_exact c f rest :
  scopes c = f :: rest → (Z.of_nat (length (ledger c)) < 2 ^ 32)%Z →
  let names := frame_locals f in
  ∃ c' ds es, pop_frame c = Some ((), c') ∧ scopes c' = rest ∧
    (∀ x, is_Some (cx_locals c' !! x) ↔ x ∉ names ∧ is_Some (cx_locals c !! x)) ∧
    (∀ r, r ∈ ledger c' ↔ r ∈ ledger c ∧ root (rec_place r) ∉ names ∧ ∀ b, borrower r = Some b → b ∉ names) ∧
    diag c' = diag c ++ ds ∧
    (∀ d, d ∈ ds ↔ ∃ r b, r ∈ ledger c ∧ root (rec_place r) ∈ names ∧ borrower r = Some b ∧ b ∉ names ∧
       d = borrow_outlives_owner (root (rec_place r)) (rec_at r)) ∧
    drop_plan c' = drop_plan c ++ es ∧ NoDup (de_local_name <$> es) ∧
    (∀ e, e ∈ es → de_local_name e ∈ names ∧ ∃ l, cx_locals c !! de_local_name e = Some l ∧ ls_is_copy l = false ∧
       ls_state l ≠ Uninit ∧ (∀ sp, ls_state l ≠ Moved sp) ∧ e = mkDropEntry (de_local_name e) (declared_at l)) ∧
    (∀ x l, x ∈ names → cx_locals c !! x = Some l → ls_state l = Owned → ls_is_copy l = false →
       (∀ r, r ∈ ledger c → root (rec_place r) ≠ x) → mkDropEntry x (declared_at l) ∈ es).
Proof.
  intros Hs Hlen names. rewrite (pop_frame_close _ _ _ Hs). fold names. unfold close_frame.
  rewrite (bind_run _ _ _ () _ eq_refl), (bind_run _ _ _ _ _ eq_refl). unfold decay_borrowers. cbn [ledger set_diag set_scopes].
  rewrite (bind_run _ _ _ () _ eq_refl). set (kept := List.filter (λ r, negb (borrowed_by names r)) (ledger c)).
  set (c1 := set_ledger kept _). destruct (recomputes_run (List.filter (borrowed_by names) (ledger c)) c1) as (ls & E & Hls).
  { simpl. subst kept. pose proof (filter_length_le (λ r, negb (borrowed_by names r)) (ledger c)). lia. }
  rewrite (bind_run _ _ _ _ _ E), (bind_run _ _ _ () _ eq_refl), departs_run. clear E.
  match goal with |- context [departed names ?c] => set (c2 := c) end.
  destruct (departed_rest names c2) as (E1 & E2 & E3), (departed_plan names c2) as (es & E4 & Hnd & Hes).
  exists (departed names c2), (outliving names (ledger c)), es. rewrite E1, E2, E3, E4. simpl. simpl in Hls.
  split; [done|]. split; [done|]. split.
  { intros x. rewrite departed_lookup. simpl. specialize (Hls x). case_bool_decide.
    - split; [by intros [? ?]|by intros [? _]].
    - destruct Hls; (split; [intros [? [=]]; by eauto|by intros [_ [? [=]]]]) || (split; [by intros [? ?]|by intros [_ [? ?]]]) || (split; eauto; by intros [_ ?]). }
  split.
  { intros r. subst kept. rewrite (list_elem_of_In (List.filter _ _)), filter_In, filter_In, <- (list_elem_of_In (ledger c)), !negb_true_iff, bool_decide_eq_false.
    unfold borrowed_by. destruct (borrower r) as [b|]; [rewrite bool_decide_eq_false|]; naive_solver. }
  split; [done|]. split.
  { intros d. unfold outliving. rewrite list_elem_of_omap. split.
    - intros (r & Hr & Hd). destruct (borrower r) as [b|] eqn:Hb; [|done].
      destruct (bool_decide (root (rec_place r) ∈ names)) eqn:H1, (bool_decide (b ∉ names)) eqn:H2; try done.
      apply bool_decide_eq_true in H1, H2. injection Hd as <-. eauto 10.
    - intros (r & b & Hr & Hn & Hb & Hbn & ->). exists r. split; [done|]. rewrite Hb.
      by rewrite !bool_decide_eq_true_2 by done. }
  split; [done|]. split; [done|]. split.
  - intros e (Hin & l' & Hl' & Hst & Hc & He)%Hes. split; [done|]. simpl in Hl'. specialize (Hls (de_local_name e)).
    rewrite Hl' in Hls. destruct (Forall2_some_r _ _ _ Hls) as (l & Hl & Hr). destruct (resynced_owned _ _ _ _ Hr Hst) as (Hd & Hcp & Hu & Hm).
    exists l. rewrite <- Hcp, <- Hd. by split.
  - intros x l Hx Hl Hst Hc Hfree. apply Hes. simpl. split; [done|]. specialize (Hls x). rewrite Hl in Hls.
    destruct (Forall2_some_l _ _ _ Hls) as (l' & Hl' & Hr). exists l'. assert (l' = l) as ->.
    { destruct Hr as [->| ->]; [done|]. apply recomputed_free; [|done]. intros r Hr. apply Hfree.
      subst kept. by apply list_elem_of_In, filter_In in Hr as [Hr%list_elem_of_In _]. }
    by split.
Qed.

(** [{ let x = "a"; r = &x; }], with [r] bound outside *)
Lemma frame_end_exact_witness :
  let l := mkLocalState "x" STRING (Borrowed 1) no_span false false None in
  let c := set_scopes [mkFrame ["x"] None; mkFrame ["r"] None]
    (set_ledger [mkRecord (root_place "x") Shared (Some "r") no_span] (set_locals {["x" := l]} (new_cx [] []))) in
  ∃ c', pop_frame c = Some ((), c') ∧ scopes c' = [mkFrame ["r"] None] ∧
    (∀ r, r ∉ ledger c') ∧ borrow_outlives_owner "x" no_span ∈ diag c'.
Proof.
  intros l c.
  destruct (frame_end_exact c (mkFrame ["x"] None) [mkFrame ["r"] None] eq_refl ltac:(by vm_compute))
    as (c' & ds & es & E & Hs & _ & Hr & Hd & Hds & _).
  exists c'. split; [done|]. split; [done|]. split.
  - intros r (H1%list_elem_of_singleton & H2 & _)%Hr. subst r. apply H2. by constructor.
  - rewrite Hd. simpl. apply Hds. exists (mkRecord (root_place "x") Shared (Some "r") no_span), "r".
    split; [constructor|]. split; [constructor|]. split; [done|]. split; [|done].
    intros H%list_elem_of_singleton. done.
Defined.

(** ** What may cross to another agent *)

(** Everything a type is written with: the elements of a tuple or an array, the
    type arguments of an ADT and the fields of a struct or an enum, derived
    [Copy] or not.  This is the "transitively" of section 7.8 of the language
    specification; [is_sendable] itself looks into less. *)
Definition parts (A : TyArena) (d : DefMap) (ty : TyId) : list TyId :=
  match get A ty with
  | Some (TTuple xs) => xs
  | Some (TArray elem _) => [elem]
  | Some (TAdt id args) =>
      args ++ match adt d id with
              | Some a => match adt_kind a with Opaque => [] | Struct | Enum => field_types a end
              | None => []
              end
  | _ => []
  end.

Definition contains (A : TyArena) (d : DefMap) : TyId → TyId → Prop := rtc (λ x y, y ∈ parts A d x).

(** References and functions: what every document keeps out of messages. *)
Definition ref_or_fn (A : TyArena) (ty : TyId) : Prop :=
  match get A ty with Some (TRef _ _ | TFn _ _ _) => True | _ => False end.

(** The prelude's opaque capability handles. *)
Definition handle_names : list string := ["Net"; "Fs"; "Clock"; "Dom"; "Model"].

(** Where a document and the check part ways, or two documents do: capability
    handles, [dyn] traits and raw pointers, and a reference or a function that
    hides behind a type argument or in an ADT that derives [Copy]. *)
Definition disputed (A : TyArena) (d : DefMap) (ty : TyId) : Prop :=
  match get A ty with
  | Some (TCap _ _ | TDyn _ | TRawPtr _) => True
  | Some (TAdt id args) =>
      (∃ a, adt d id = Some a ∧ adt_name a ∈ handle_names) ∨
      (∃ y z, (id ∈ user_copy d ∨ y ∈ args) ∧ y ∈ parts A d ty ∧ contains A d y z ∧ ref_or_fn A z)
  | _ => False
  end.

Section SendableScope.
Context (A : TyArena) (d : DefMap) (HA : arena_ok A).

Lemma component_part x y : component_of A d x y → y ∈ parts A d x.
Proof.
  unfold component_of, components, parts. destruct (get A x) as [[]|]; try done.
  destruct (is_copy A d x) as [[]|]; try (by intros ?%elem_of_nil).
  destruct (adt d d0) as [a|]; [|by intros ?%elem_of_nil]. intros H. apply elem_of_app. by right.
Qed.

(** A part that the check does not look into is disputed when it matters. *)
Lemma part_component x y z :
  is_Some (get A x) → y ∈ parts A d x → contains A d y z → ref_or_fn A z → ¬ disputed A d x →
  component_of A d x y.
Proof.
  intros Ht Hy Hz Hbad Hd. unfold component_of, components. pose proof Hy as Hy'. unfold parts in Hy'.
  unfold disputed in Hd. destruct (get A x) as [[]|] eqn:Hx; try done.
  apply elem_of_app in Hy' as [Ha|Hf].
  { destruct Hd. right. exists y, z. eauto. }
  destruct (adt d d0) as [a|] eqn:Ead; [|by apply elem_of_nil in Hf].
  destruct (is_copy_total A d x HA ltac:(by eexists)) as [c Hc]. rewrite Hc.
  unfold is_copy in Hc. cbn [copy_within] in Hc. rewrite Hx in Hc. simpl in Hc.
  destruct (decide (d0 ∈ user_copy d)) as [Hu|Hu].
  { destruct Hd. right. exists y, z. eauto. }
  rewrite bool_decide_eq_false_2, Ead in Hc by done. simpl in Hc.
  destruct (adt_kind a); [by injection Hc as <-..|by apply elem_of_nil in Hf].
Qed.

(** On undisputed types the check sees every reference and function. *)
Lemma contained_reached x z :
  fields_typed A d → is_Some (get A x) → contains A d x z → ref_or_fn A z →
  (∀ y, contains A d x y → ¬ disputed A d y) → rtc (component_of A d) x z.
Proof.
  intros Hf Ht Hz Hbad Hd. unfold contains in Hz. induction Hz as [x|x y z Hxy Hyz IH]; [done|].
  assert (component_of A d x y) as Hc by (by eapply part_component; [..|apply Hd]).
  eapply rtc_l; [done|]. apply IH; [by eapply components_typed|done|].
  intros w Hw. apply Hd. by eapply rtc_l.
Qed.

Lemma reached_contained x z : rtc (component_of A d) x z → contains A d x z.
Proof. induction 1; [done|]. eapply rtc_l; [by apply component_part|done]. Qed.

End SendableScope.


(** What the check does with the disputed ones: capability handles -- the typed
    ones and the prelude's opaque [Fs] -- and [dyn] traits may be sent, a raw
    pointer may not, and a reference in a [Copy] struct or behind a type
    argument is not seen.  The types of the arena below are, from 26 on: a
    capability, a [dyn] trait, a raw pointer, [Fs], [&Str], a [Copy] struct with
    a field of that type, and [Box[&Str]] for a struct [Box[T]]. *)
Definition disputed_arena : TyArena :=
  fold_left (λ A t, (intern A t).1)
    [TCap Fs CAny; TDyn "Show"; TRawPtr 17; TAdt 0 []; TRef false 4; TAdt 1 []; TAdt 2 [30]; TParam 0] new.

Definition disputed_defs : DefMap :=
  mkDefMap
    [mkAdtDef "Fs" Opaque [] [] [];
     mkAdtDef "View" Struct [] [] [mkVariantDef "View" [mkFieldDef (Some "text") 30]];
     mkAdtDef "Box" Struct [] [] [mkVariantDef "Box" [mkFieldDef (Some "inner") 33]]] {[ 1 ]}.

Example disputed_answers :
  map (is_sendable disputed_arena disputed_defs) [26; 27; 28; 29; 30; 31; 32] =
  map Some [true; true; false; true; false; true; true].
Proof. by vm_compute. Qed.

(** [struct List { name: String, next: (List, fn(String)) }], whose function is
    behind a type that is visited twice. *)
Definition list_arena : TyArena :=
  (intern (intern (intern new (TAdt 0 [])).1 (TFn [STRING] 1 [])).1 (TTuple [26; 27])).1.

Definition list_defs : DefMap :=
  mkDefMap [mkAdtDef "List" Struct [] []
    [mkVariantDef "List" [mkFieldDef (Some "name") STRING; mkFieldDef (Some "next") 28]]] ∅.

Lemma list_arena_ok : arena_ok list_arena.
Proof.
  apply intern_ok; [|by vm_compute; repeat constructor; lia].
  apply intern_ok; [|by vm_compute; repeat constructor; lia]. apply intern_ok; [apply new_ok|constructor].
Qed.

Lemma list_contains y : contains list_arena list_defs 26 y → y ∈ [26; 27; 28; STRING].
Proof.
  assert (Forall (λ x, Forall (λ z, z ∈ [26; 27; 28; STRING]) (parts list_arena list_defs x)) [26; 27; 28; STRING]) as Hp.
  { apply (bool_decide_unpack _). vm_compute. exact I. }
  assert (∀ x, contains list_arena list_defs x y → x ∈ [26; 27; 28; STRING] → y ∈ [26; 27; 28; STRING]) as H.
  { intros x. unfold contains. induction 1 as [x|x z y Hxz Hzy IH]; [done|]. intros Hx. apply IH.
    rewrite Forall_forall in Hp. specialize (Hp x Hx). rewrite Forall_forall in Hp. by apply Hp. }
  intros Hc. apply (H 26 Hc). constructor.
Qed.

Lemma list_undisputed y : contains list_arena list_defs 26 y → ¬ disputed list_arena list_defs y.
Proof.
  intros Hy%list_contains. rewrite !elem_of_cons, elem_of_nil in Hy. destruct Hy as [->|[->|[->|[->|[]]]]].
  - assert (get list_arena 26 = Some (TAdt 0 [])) as E by (vm_compute; reflexivity). unfold disputed. rewrite E. clear E.
    intros [(a & Ha & Hn)|(y & z & [Hu|Ha] & _)].
    + assert (adt_name <$> adt list_defs 0 = Some "List") as E by (vm_compute; reflexivity). rewrite Ha in E. injection E as E.
      rewrite E in Hn. unfold handle_names in Hn. set_solver.
    + by apply elem_of_empty in Hu.
    + by apply elem_of_nil in Ha.
  - by vm_compute.
  - by vm_compute.
  - by vm_compute.
Qed.


(** ** Last uses *)

(**  The pre-pass is exact.  For a body whose reads, in the order of
    evaluation of its parts, are [ws], [compute_last_use] answers the number of
    reads and the map from each name to the number of its last read -- the
    point after which the names it borrowed are free again -- and nothing for
    a name that is not read. *)
Theorem last_use_exact pkg n b ws :
  body_reads pkg n b = Some ws → (Z.of_nat (length ws) < 2 ^ 32)%Z →
  ∃ m, compute_last_use pkg n b = Some (m, Z.of_nat (length ws)) ∧
    ∀ x p, m !! x = Some p ↔ ∃ i, p = Z.of_nat i ∧ ws !! i = Some x ∧ ∀ j, ws !! j = Some x → (j ≤ i)%nat.
Proof. intros Hr Hlen. eexists. split; [by apply last_use_reads|]. intros x p. apply noted_map. Qed.

Lemma last_use_exact_witness :
  body_reads moves_x 3 0 = Some ["x"; "y"; "y"; "x"] ∧
  ∃ m, compute_last_use moves_x 3 0 = Some (m, 4%Z) ∧
    ∀ x p, m !! x = Some p ↔ ∃ i, p = Z.of_nat i ∧ ["x"; "y"; "y"; "x"] !! i = Some x ∧
      ∀ j, ["x"; "y"; "y"; "x"] !! j = Some x → (j ≤ i)%nat.
Proof. split; [by vm_compute|]. apply (last_use_exact moves_x 3 0 ["x"; "y"; "y"; "x"]); by vm_compute. Defined.

(** ** The second pass *)

(** C39.  The solver's bound of 32 rounds loses nothing.  When the loans of
    [Subset] facts are [u32]s, a fact holds after [solve] exactly when the
    rules, applied any number of times in any order, derive it from the facts
    collected. *)
Theorem solve_exact s f :
  (∀ a b p, Subset a b p ∈ facts s → (0 ≤ b < 2 ^ 32)%Z) →
  f ∈ facts (solve s) ↔ consequence (loans s) (facts s) f.
Proof. intros H. apply (solve_rounds_exact 32); [lia|exact H]. Qed.

(** Loan 0 flows into loan 2 by way of loan 1; loan 1 is invalidated while live. *)
Definition chain_solver : PoloniusSolver :=
  foldr add new_solver [Subset 0 1 5; Subset 1 2 5; BorrowAt 1 2; LoanInvalidated 1 4].

Lemma solve_exact_witness :
  Subset 0 2 5 ∈ facts (solve chain_solver) ∧ consequence (loans chain_solver) (facts chain_solver) (Error 1 4).
Proof.
  assert (∀ a b p, Subset a b p ∈ facts chain_solver → (0 ≤ b < 2 ^ 32)%Z) as H.
  { intros a b p Hin. unfold chain_solver in Hin. simpl in Hin.
    repeat (apply elem_of_union in Hin as [Hin%elem_of_singleton|Hin]; [by simplify_eq; lia|]).
    by apply elem_of_empty in Hin. }
  split.
  - apply (solve_exact chain_solver); [exact H|].
    apply (cq_subset _ _ 0 1 2 5); apply cq_given; vm_compute; done.
  - apply (solve_exact chain_solver); [exact H|]. vm_compute. done.
Defined.
