(* ===== verification/Semver.v ===== *)
(** * Package versions and requirements

    [crates/mty-pkg/src/semver.rs].  A [&str] is the list of its Unicode
    scalar values; a [u64] is a [Z] below [2^64]. *)

From stdpp Require Import base list strings numbers.
From S2P Require Import Prelude.

Local Open Scope Z_scope.
Notation length := List.length (only parsing).

(** ** Results and text *)

Inductive Res (E A : Type) : Type := Ok (a : A) | Err (e : E).
Arguments Ok {E A} a.
Arguments Err {E A} e.

#[export] Instance Res_ret {E} : MRet (Res E) := λ A a, Ok a.
#[export] Instance Res_bind {E} : MBind (Res E) := λ A B k r, match r with Ok a => k a | Err e => Err e end.

Definition ok_or {E A} (e : E) (o : option A) : Res E A := match o with Some a => Ok a | None => Err e end.

Notation text := (list Z) (only parsing).

(** [str::chars]: the decoding of valid UTF-8. *)
Fixpoint decode (bs : list Z) : text :=
  match bs with
  | [] => []
  | a :: r =>
      if a <? 128 then a :: decode r
      else match r with
      | [] => []
      | b :: r =>
          if a <? 224 then ((a - 192) * 64 + (b - 128)) :: decode r
          else match r with
          | [] => []
          | c :: r =>
              if a <? 240 then ((a - 224) * 4096 + (b - 128) * 64 + (c - 128)) :: decode r
              else match r with
              | [] => []
              | d :: r => ((a - 240) * 262144 + (b - 128) * 4096 + (c - 128) * 64 + (d - 128)) :: decode r
              end
          end
      end
  end.

Definition chars (s : string) : text := decode ((λ c, Z.of_nat (Ascii.nat_of_ascii c)) <$> String.list_ascii_of_string s).

(** The string of ASCII characters. *)
Definition of_ascii (s : text) : string := String.string_of_list_ascii ((λ c, Ascii.ascii_of_nat (Z.to_nat c)) <$> s).

(** [char::is_whitespace] *)
Definition is_whitespace (c : Z) : bool :=
  (9 <=? c) && (c <=? 13) || bool_decide (c ∈ [32; 133; 160; 5760; 8232; 8233; 8239; 8287; 12288])
  || (8192 <=? c) && (c <=? 8202).

Fixpoint trim_start (s : text) : text :=
  match s with [] => [] | c :: s' => if is_whitespace c then trim_start s' else s end.

(** [str::trim] *)
Definition trim (s : text) : text := reverse (trim_start (reverse (trim_start s))).

(** [str::split] at a character. *)
Fixpoint split_on (c : Z) (s : text) : list text :=
  match s with
  | [] => [[]]
  | x :: s' =>
      if x =? c then [] :: split_on c s'
      else match split_on c s' with p :: ps => (x :: p) :: ps | [] => [[x]] end
  end.

(** [str::strip_prefix] of a character. *)
Definition strip_prefix (c : Z) (s : text) : option text :=
  match s with x :: s' => if x =? c then Some s' else None | [] => None end.

Fixpoint digits (acc : Z) (s : text) : option Z :=
  match s with
  | [] => Some acc
  | c :: s' =>
      if (48 <=? c) && (c <=? 57) then
        let n := acc * 10 + (c - 48) in
        if n <? 2 ^ 64 then digits n s' else None
      else None
  end.

(** [u64::from_str] *)
Definition parse_u64 (s : text) : option Z :=
  match s with
  | [] => None
  | c :: s' => if c =? 43 then match s' with [] => None | _ => digits 0 s' end else digits 0 s
  end.

(** [Display] of a [u64]: at most twenty digits. *)
Fixpoint decimal (k : nat) (n : Z) : text :=
  match k with
  | O => []
  | S k => (if n <? 10 then [] else decimal k (n / 10)) ++ [48 + n mod 10]
  end.

Definition display_u64 (n : Z) : text := decimal 20 n.

(** ** Versions *)

Record Version : Set := mkVersion { major : Z; minor : Z; patch : Z }.

#[export] Instance Version_eq_dec : EqDecision Version.
Proof. solve_decision. Defined.

Inductive SemverError := BadVersion (s : text) | BadReq (s : text).

(** [fmt::Display for Version] *)
Definition display (v : Version) : text :=
  display_u64 (major v) ++ [46] ++ display_u64 (minor v) ++ [46] ++ display_u64 (patch v).

(** [ToString], by way of [Display] *)
Definition to_string (v : Version) : string := of_ascii (display v).

(** [Ord::cmp] *)
Definition cmp (v w : Version) : comparison :=
  match major v ?= major w with
  | Eq => match minor v ?= minor w with Eq => patch v ?= patch w | c => c end
  | c => c
  end.

Definition version_lt (v w : Version) : bool := match cmp v w with Lt => true | _ => false end.
Definition version_ge (v w : Version) : bool := negb (version_lt v w).

Definition parse_num (s : text) : option Z :=
  let s := default s (head (split_on 43 s)) in
  if bool_decide (45 ∈ s) then None else parse_u64 s.

(** An optional component, zero when it is missing. *)
Definition component (e : SemverError) (p : option text) : Res SemverError Z :=
  match p with Some p => ok_or e (parse_num p) | None => Ok 0 end.

(** [Version::parse] *)
Definition parse_version (s : text) : Res SemverError Version :=
  let s := trim s in
  let parts := split_on 46 s in
  match parts with
  | [] => Err (BadVersion s)
  | p0 :: _ =>
      if (3 <? Z.of_nat (length parts)) then Err (BadVersion s)
      else
        a ← ok_or (BadVersion s) (parse_num p0);
        b ← component (BadVersion s) (parts !! 1%nat);
        c ← component (BadVersion s) (parts !! 2%nat);
        Ok (mkVersion a b c)
  end.

(** ** Requirements *)

Inductive CaretFloorWidth : Set := WMajor | WMinor | WPatch.

Inductive VersionReq : Set :=
  | Wildcard
  | Exact (v : Version)
  | Caret (v : Version) (w : CaretFloorWidth)
  | Tilde (v : Version).

(** Parts after the third are not looked at. *)
Definition parse_partial (s : text) : Res SemverError (Version * CaretFloorWidth) :=
  let parts := split_on 46 s in
  a ← ok_or (BadReq s) (parse_num (default [] (head parts)));
  b ← component (BadReq s) (parts !! 1%nat);
  c ← component (BadReq s) (parts !! 2%nat);
  let w := match parts !! 1%nat, parts !! 2%nat with None, _ => WMajor | Some _, None => WMinor | Some _, Some _ => WPatch end in
  Ok (mkVersion a b c, w).

(** [VersionReq::parse] *)
Definition parse_req (s : text) : Res SemverError VersionReq :=
  let s := trim s in
  if bool_decide (s = [42]) then Ok Wildcard
  else match strip_prefix 61 s with
  | Some rest => v ← parse_version (trim rest); Ok (Exact v)
  | None =>
  match strip_prefix 94 s with
  | Some rest => vw ← parse_partial (trim rest); Ok (Caret vw.1 vw.2)
  | None =>
  match strip_prefix 126 s with
  | Some rest => vw ← parse_partial (trim rest); Ok (Tilde vw.1)
  | None => vw ← parse_partial s; Ok (Caret vw.1 vw.2)
  end end end.

Definition caret_matches (req : Version) (w : CaretFloorWidth) (v : Version) : bool :=
  if version_lt v req then false
  else if 0 <? major req then major v =? major req
  else if 0 <? minor req then (major v =? 0) && (minor v =? minor req)
  else match w with
       | WPatch => (major v =? 0) && (minor v =? 0) && (patch v =? patch req)
       | WMajor => major v =? 0
       | WMinor => (major v =? 0) && (minor v =? 0)
       end.

(** [VersionReq::matches] *)
Definition matches (r : VersionReq) (v : Version) : bool :=
  match r with
  | Wildcard => true
  | Exact req => bool_decide (req = v)
  | Caret req w => caret_matches req w v
  | Tilde req => (major v =? major req) && (minor v =? minor req) && version_ge v req
  end.

(** The crate's own tests. *)
Example parses_versions :
  parse_version (chars "1.2.3") = Ok (mkVersion 1 2 3) ∧ parse_version (chars "0.1") = Ok (mkVersion 0 1 0) ∧
  parse_version (chars "a.b") = Err (BadVersion (chars "a.b")).
Proof. by vm_compute. Qed.

Example parses_reqs :
  parse_req (chars " ^0.1") = Ok (Caret (mkVersion 0 1 0) WMinor) ∧ parse_req (chars "~1.2") = Ok (Tilde (mkVersion 1 2 0)) ∧
  parse_req (chars "*") = Ok Wildcard ∧ parse_req (chars "1.2.3.junk") = Ok (Caret (mkVersion 1 2 3) WPatch).
Proof. by vm_compute. Qed.

(** ** Text *)

Lemma trim_start_id s : match s with c :: _ => is_whitespace c = false | [] => True end → trim_start s = s.
Proof. destruct s as [|c s]; [done|]. simpl. by intros ->. Qed.

(** Text that neither starts nor ends with white space. *)
Lemma trim_id s a b t :
  s = a :: t → s = reverse (b :: reverse (removelast s)) → is_whitespace a = false → is_whitespace b = false → trim s = s.
Proof.
  intros Ha Hb Hwa Hwb. unfold trim. rewrite (trim_start_id s) by (by rewrite Ha).
  assert (reverse s = b :: reverse (removelast s)) as E by (by rewrite Hb at 1; rewrite reverse_involutive).
  rewrite trim_start_id by (by rewrite E). by rewrite reverse_involutive.
Qed.

Definition is_digit (c : Z) : Prop := 48 ≤ c ≤ 57.

Lemma digit_not_space c : is_digit c → is_whitespace c = false.
Proof.
  intros [H1 H2]. unfold is_whitespace. rewrite bool_decide_eq_false_2.
  - rewrite (proj2 (Z.leb_gt c 13)), (proj2 (Z.leb_gt 8192 c)) by lia. by rewrite andb_false_r.
  - intros Hin. repeat (apply elem_of_cons in Hin as [->|Hin]; [lia|]). by apply elem_of_nil in Hin.
Qed.

Lemma decimal_digits k n : 0 ≤ n → Forall is_digit (decimal k n).
Proof.
  revert n. induction k as [|k IH]; intros n Hn; [constructor|]. simpl. apply Forall_app. split.
  - destruct (n <? 10); [constructor|]. apply IH. apply Z.div_pos; lia.
  - constructor; [|constructor]. pose proof (Z.mod_pos_bound n 10 ltac:(lia)). unfold is_digit. lia.
Qed.

Lemma digits_app acc s t n : digits acc s = Some n → digits acc (s ++ t) = digits n t.
Proof.
  revert acc. induction s as [|c s IH]; intros acc H; simpl in H |- *; [congruence|].
  destruct (_ && _); [|done]. destruct (_ <? _); [by apply IH|done].
Qed.

Lemma digits_decimal k n : 0 ≤ n < 10 ^ Z.of_nat (S k) → n < 2 ^ 64 → digits 0 (decimal (S k) n) = Some n.
Proof.
  revert n. induction k as [|k IH]; intros n Hn Hlt.
  - assert (n < 10) as H10 by (change (10 ^ Z.of_nat 1) with 10 in Hn; lia). cbn [decimal].
    rewrite (proj2 (Z.ltb_lt n 10) H10), Z.mod_small by lia. simpl.
    rewrite (proj2 (Z.leb_le 48 (48 + n))), (proj2 (Z.leb_le (48 + n) 57)) by lia. cbn [andb].
    rewrite (proj2 (Z.ltb_lt _ _)) by lia. f_equal. lia.
  - remember (S k) as j eqn:Ej. cbn [decimal]. subst j. pose proof (Z.mod_pos_bound n 10 ltac:(lia)) as Hm.
    assert (digits 0 (if n <? 10 then [] else decimal (S k) (n / 10)) = Some (n / 10)) as E.
    { destruct (Z.ltb_spec n 10); [by rewrite Z.div_small by lia|]. apply IH.
      - split; [apply Z.div_pos; lia|]. apply Z.div_lt_upper_bound; [lia|]. rewrite Nat2Z.inj_succ, Z.pow_succ_r in Hn by lia. lia.
      - apply Z.div_lt_upper_bound; lia. }
    rewrite (digits_app _ _ _ _ E). simpl.
    rewrite (proj2 (Z.leb_le 48 _)), (proj2 (Z.leb_le _ 57)) by lia. cbn [andb].
    rewrite (proj2 (Z.ltb_lt _ _)) by (pose proof (Z.div_mod n 10); lia). f_equal. pose proof (Z.div_mod n 10). lia.
Qed.

Definition u64 (n : Z) : Prop := 0 ≤ n < 2 ^ 64.

Lemma display_parse n : u64 n → digits 0 (display_u64 n) = Some n.
Proof. intros [H1 H2]. apply digits_decimal; [|done]. split; [done|]. assert (2 ^ 64 < 10 ^ 20) by done. lia. Qed.

Lemma display_digits n : u64 n → Forall is_digit (display_u64 n).
Proof. intros [H _]. by apply decimal_digits. Qed.

Lemma display_nonempty n : ∃ s c, display_u64 n = s ++ [c].
Proof. unfold display_u64. eexists _, _. reflexivity. Qed.

(** ** Splitting *)

Lemma split_on_none c s : c ∉ s → split_on c s = [s].
Proof.
  induction s as [|x s IH]; intros H; [done|]. apply not_elem_of_cons in H as [H1 H2]. simpl.
  rewrite (proj2 (Z.eqb_neq x c)) by done. by rewrite IH.
Qed.

Lemma split_on_app c s t : c ∉ s → split_on c (s ++ c :: t) = s :: split_on c t.
Proof.
  induction s as [|x s IH]; intros H; simpl; [by rewrite Z.eqb_refl|].
  apply not_elem_of_cons in H as [H1 H2]. rewrite (proj2 (Z.eqb_neq x c)) by done. by rewrite IH.
Qed.

Lemma not_digit_notin c s : ¬ is_digit c → Forall is_digit s → c ∉ s.
Proof. intros Hc Hs Hin. rewrite Forall_forall in Hs. rewrite list_elem_of_In in Hin. exact (Hc (Hs c Hin)). Qed.

(** A decimal number is neither split, nor a pre-release, nor signed. *)
Lemma parse_num_display n : u64 n → parse_num (display_u64 n) = Some n.
Proof.
  intros Hn. pose proof (display_digits n Hn) as Hd. unfold parse_num.
  rewrite split_on_none by (apply not_digit_notin; [unfold is_digit; lia|done]). cbn [head default].
  rewrite bool_decide_eq_false_2 by (apply not_digit_notin; [unfold is_digit; lia|done]).
  rewrite <-(display_parse n Hn). destruct (display_nonempty n) as (s & c & E). rewrite E in Hd |- *.
  unfold parse_u64. destruct (s ++ [c]) as [|d t] eqn:Et; [by destruct s|].
  unfold id. rewrite (proj2 (Z.eqb_neq d 43)); [done|]. apply Forall_cons_1 in Hd as [[? ?] _]. lia.
Qed.

Definition u64_version (v : Version) : Prop := u64 (major v) ∧ u64 (minor v) ∧ u64 (patch v).

Lemma display_split v :
  u64_version v → split_on 46 (display v) = [display_u64 (major v); display_u64 (minor v); display_u64 (patch v)].
Proof.
  intros (H1 & H2 & H3). unfold display. assert (¬ is_digit 46) as Hd by (unfold is_digit; lia).
  cbn [app]. rewrite !split_on_app, split_on_none by (apply not_digit_notin; [done|by apply display_digits]). done.
Qed.

Lemma display_last v : u64_version v → ∃ s c, display v = s ++ [c] ∧ is_digit c.
Proof.
  intros (_ & _ & H). pose proof (display_digits _ H) as D. destruct (display_nonempty (patch v)) as (t & d & E).
  exists (display_u64 (major v) ++ [46] ++ display_u64 (minor v) ++ [46] ++ t), d. unfold display. rewrite E in D |- *.
  split; [by rewrite <-!(assoc_L (++))|]. by apply Forall_app in D as [_ [? _]%Forall_cons_1].
Qed.

Lemma display_first v : u64_version v → ∃ d t, display v = d :: t ∧ is_digit d.
Proof.
  intros (H & _ & _). pose proof (display_digits _ H) as D. destruct (display_nonempty (major v)) as (s & c & E).
  unfold display. rewrite E in D |- *. destruct (s ++ [c]) as [|d t] eqn:Et; [by destruct s|].
  exists d, (t ++ [46] ++ display_u64 (minor v) ++ [46] ++ display_u64 (patch v)).
  split; [done|]. by apply Forall_cons_1 in D as [? _].
Qed.

(** A version as [Display] prints it carries no white space at its ends. *)
Lemma display_trim v : u64_version v → trim (display v) = display v.
Proof.
  intros Hv. destruct (display_last v Hv) as (s & c & Hl & Hc). destruct (display_first v Hv) as (d & t & Hf & Hd).
  apply (trim_id _ d c t); [done| |by apply digit_not_space..].
  rewrite Hl. by rewrite removelast_last, reverse_cons, reverse_involutive.
Qed.

(** Parsing what [Display] prints, as a version and as a partial version. *)
Lemma parse_version_display v : u64_version v → parse_version (display v) = Ok v.
Proof.
  intros Hv. unfold parse_version. rewrite display_trim, display_split by done. destruct Hv as (H1 & H2 & H3).
  cbn -[parse_num display_u64]. rewrite !parse_num_display by done. by destruct v.
Qed.

Lemma parse_partial_display v : u64_version v → parse_partial (display v) = Ok (v, WPatch).
Proof.
  intros Hv. unfold parse_partial. rewrite display_split by done. destruct Hv as (H1 & H2 & H3).
  cbn -[parse_num display_u64]. rewrite !parse_num_display by done. by destruct v.
Qed.

Lemma chars_of_ascii s : Forall (λ c, 0 ≤ c < 128) s → chars (of_ascii s) = s.
Proof.
  unfold chars, of_ascii. rewrite String.list_ascii_of_string_of_list_ascii.
  induction 1 as [|c s Hc Hs IH]; [done|]. rewrite !fmap_cons.
  rewrite Ascii.nat_ascii_embedding, Z2Nat.id by lia. cbn [decode].
  rewrite (proj2 (Z.ltb_lt c 128)) by lia. by rewrite IH.
Qed.

Lemma chars_to_string v : u64_version v → chars (to_string v) = display v.
Proof.
  intros (H1 & H2 & H3). apply chars_of_ascii. unfold display.
  assert (∀ n, u64 n → Forall (λ c, 0 ≤ c < 128) (display_u64 n)) as Hd.
  { intros n Hn. eapply Forall_impl; [|by apply display_digits]. unfold is_digit. lia. }
  rewrite !Forall_app. split_and!; try by apply Hd. all: constructor; [lia|constructor].
Qed.

(** Every parsed component is a [u64]. *)
Lemma digits_u64 acc s n : u64 acc → digits acc s = Some n → u64 n.
Proof.
  revert acc. induction s as [|c s IH]; intros acc Ha H; simpl in H; [by simplify_eq|].
  destruct ((48 <=? c) && (c <=? 57)) eqn:Ec; [|done]. destruct (Z.ltb_spec (acc * 10 + (c - 48)) (2 ^ 64)); [|done].
  apply andb_true_iff in Ec as [?%Z.leb_le ?%Z.leb_le]. refine (IH _ _ H). destruct Ha. split; [lia|done].
Qed.

Lemma parse_num_u64 s n : parse_num s = Some n → u64 n.
Proof.
  unfold parse_num, parse_u64. destruct (bool_decide _); [done|].
  destruct (default s (head (split_on 43 s))) as [|c t]; [done|].
  destruct (c =? 43); [destruct t; [done|]|]; apply digits_u64; split; done.
Qed.

Lemma component_u64 e p n : component e p = Ok n → u64 n.
Proof.
  destruct p as [p|]; simpl; [|intros [= <-]; split; done].
  destruct (parse_num p) eqn:E; simpl; [|done]. intros [= <-]. by eapply parse_num_u64.
Qed.

Lemma Res_bind_Ok {E A B} (r : Res E A) (k : A → Res E B) b : r ≫= k = Ok b → ∃ a, r = Ok a ∧ k a = Ok b.
Proof. destruct r; [eauto|done]. Qed.

Lemma ok_or_Ok {E A} (e : E) (o : option A) a : ok_or e o = Ok a → o = Some a.
Proof. by destruct o; simpl; intros; simplify_eq. Qed.

Lemma parse_version_u64 s v : parse_version s = Ok v → u64_version v.
Proof.
  unfold parse_version. destruct (split_on 46 (trim s)) as [|p ps]; [done|]. destruct (3 <? _); [done|].
  intros (a & Ha%ok_or_Ok & (b & Hb & (c & Hc & [= <-])%Res_bind_Ok)%Res_bind_Ok)%Res_bind_Ok.
  split_and!; [by eapply parse_num_u64|by eapply component_u64..].
Qed.

Lemma parse_partial_u64 s v w : parse_partial s = Ok (v, w) → u64_version v.
Proof.
  unfold parse_partial.
  intros (a & Ha%ok_or_Ok & (b & Hb & (c & Hc & [= <- _])%Res_bind_Ok)%Res_bind_Ok)%Res_bind_Ok.
  split_and!; [by eapply parse_num_u64|by eapply component_u64..].
Qed.

(** ** The order of versions *)

Definition version_le (v w : Version) : Prop :=
  major v < major w ∨ major v = major w ∧ (minor v < minor w ∨ minor v = minor w ∧ patch v ≤ patch w).

Lemma version_lt_spec v w : version_lt v w = true ↔ ¬ version_le w v.
Proof.
  unfold version_lt, cmp, version_le.
  destruct (Z.compare_spec (major v) (major w)); [|split; [lia|done]|split; [done|lia]].
  destruct (Z.compare_spec (minor v) (minor w)); [|split; [lia|done]|split; [done|lia]].
  destruct (Z.compare_spec (patch v) (patch w)); split; (lia || done).
Qed.

Lemma version_ge_spec v w : version_ge v w = true ↔ version_le w v.
Proof.
  unfold version_ge. rewrite negb_true_iff. destruct (version_lt v w) eqn:E.
  - apply version_lt_spec in E. by split.
  - split; [intros _|done]. destruct (decide (version_le w v)) as [|H]; [done|]. by apply version_lt_spec in H; congruence.
Qed.

(** The requirements [VersionReq::parse] builds hold [u64]s. *)
Definition u64_req (r : VersionReq) : Prop :=
  match r with Wildcard => True | Exact v | Caret v _ | Tilde v => u64_version v end.

Lemma parse_req_u64 s r : parse_req s = Ok r → u64_req r.
Proof.
  unfold parse_req. case_bool_decide; [by intros [= <-]|].
  destruct (strip_prefix 61 _); [intros (v & Hv & [= <-])%Res_bind_Ok; by eapply parse_version_u64|].
  destruct (strip_prefix 94 _); [|destruct (strip_prefix 126 _)];
    intros ([v w] & Hv & [= <-])%Res_bind_Ok; by eapply parse_partial_u64.
Qed.

(** ** The interval of versions a requirement accepts *)

Definition lower (r : VersionReq) : Version :=
  match r with Wildcard => mkVersion 0 0 0 | Exact v | Caret v _ | Tilde v => v end.

(** The first version above the interval. *)
Definition upper (r : VersionReq) : option Version :=
  match r with
  | Wildcard => None
  | Exact v => Some (mkVersion (major v) (minor v) (patch v + 1))
  | Tilde v => Some (mkVersion (major v) (minor v + 1) 0)
  | Caret v w => Some (
      if 0 <? major v then mkVersion (major v + 1) 0 0
      else if 0 <? minor v then mkVersion 0 (minor v + 1) 0
      else match w with
           | WPatch => mkVersion 0 0 (patch v + 1)
           | WMinor => mkVersion 0 1 0
           | WMajor => mkVersion 1 0 0
           end)
  end.
