(* ===== verification/EffectRow.v ===== *)
(** * Effect rows, definitions and diagnostics

    The module [row] of [crates/mty-types/src/effects.rs]: rows, the
    substitution of row variables, unification and the signatures of the
    library's higher-order functions.  An [EffectId] or [RowVar] is a [u32],
    here a [Z]; a counter past [2^32] panics ([None]), as does an index out of
    range.  The lemmas on unification follow, then the tables of definitions and
    the diagnostics that the checks use. *)

From stdpp Require Import base list strings numbers gmap sets pretty sorting.
From S2P Require Import Prelude TyArena Hir BorrowState Semver.

Local Open Scope Z_scope.
Notation length := List.length (only parsing).

Notation EffectId := Z (only parsing).
Notation RowVar := Z (only parsing).

Inductive EffectRow : Type :=
  | Closed (s : gset EffectId)
  | Open (s : gset EffectId) (v : RowVar).

#[export] Instance EffectRow_eq_dec : EqDecision EffectRow.
Proof. solve_decision. Defined.

Definition empty_row : EffectRow := Closed ∅.
Definition concrete (r : EffectRow) : gset EffectId := match r with Closed s | Open s _ => s end.
Definition is_open (r : EffectRow) : bool := match r with Open _ _ => true | Closed _ => false end.
Definition free_row_vars (r : EffectRow) : list RowVar := match r with Closed _ => [] | Open _ v => [v] end.

Inductive RowError : Type :=
  | ClosedMismatch (a b : gset EffectId)
  | SubsumptionFail (actual expected : gset EffectId)
  | Occurs (v : RowVar).

(** ** Substitutions *)

Record RowSubst : Type := mkSubst { next : RowVar; bindings : gmap RowVar EffectRow }.

Definition new_subst : RowSubst := mkSubst 0 ∅.

Definition fresh (σ : RowSubst) : option (RowVar * RowSubst) :=
  if next σ + 1 <? 2 ^ 32 then Some (next σ, mkSubst (next σ + 1) (bindings σ)) else None.

Definition is_bound (σ : RowSubst) (v : RowVar) : bool := bool_decide (is_Some (bindings σ !! v)).
Definition lookup_var (σ : RowSubst) (v : RowVar) : option EffectRow := bindings σ !! v.

(** The recursion of [occurs_in], one call for each binding passed. *)
Fixpoint occurs_loop (fuel : nat) (b : gmap RowVar EffectRow) (v : RowVar) (row : EffectRow) : option bool :=
  match fuel with
  | O => None
  | S fuel =>
      match row with
      | Closed _ => Some false
      | Open _ w =>
          if w =? v then Some true
          else match b !! w with Some row => occurs_loop fuel b v row | None => Some false end
      end
  end.

Definition occurs_in (σ : RowSubst) (v : RowVar) (row : EffectRow) : option bool :=
  occurs_loop (S (S (size (bindings σ)))) (bindings σ) v row.

(** What a fallible operation on the substitution leaves and answers. *)
Definition Outcome : Type := RowSubst * Res RowError unit.

Definition bind (σ : RowSubst) (v : RowVar) (row : EffectRow) : option Outcome :=
  occ ← occurs_in σ v row;
  Some (if (occ : bool) then (σ, Err (Occurs v)) else (mkSubst (next σ) (<[v := row]> (bindings σ)), Ok tt)).

(** The loop of [resolve]. *)
Fixpoint resolve_loop (fuel : nat) (b : gmap RowVar EffectRow) (acc : gset EffectId) (current : RowVar)
    (seen : gset RowVar) : option EffectRow :=
  match fuel with
  | O => None
  | S fuel =>
      if decide (current ∈ seen) then Some (Open acc current)
      else match b !! current with
           | None => Some (Open acc current)
           | Some (Closed t) => Some (Closed (acc ∪ t))
           | Some (Open t w) => resolve_loop fuel b (acc ∪ t) w ({[current]} ∪ seen)
           end
  end.

Definition resolve (σ : RowSubst) (row : EffectRow) : option EffectRow :=
  match row with
  | Closed _ => Some row
  | Open s v => resolve_loop (S (S (size (bindings σ)))) (bindings σ) s v ∅
  end.

Definition apply_row_subst (σ : RowSubst) (row : EffectRow) : option EffectRow := resolve σ row.

(** ** Unification *)

(** The last case binds both variables to one fresh tail. *)
Definition unify_open (σ : RowSubst) (a : gset EffectId) (v : RowVar) (b : gset EffectId) (w : RowVar)
    : option Outcome :=
  f ← fresh σ;
  r ← bind f.2 v (Open (b ∖ a) f.1);
  match r.2 with
  | Err e => Some (r.1, Err e)
  | Ok _ => bind r.1 w (Open (a ∖ b) f.1)
  end.

Definition unify_rows (σ : RowSubst) (lhs rhs : EffectRow) : option Outcome :=
  lhs ← resolve σ lhs;
  rhs ← resolve σ rhs;
  match lhs, rhs with
  | Closed a, Closed b => Some (σ, if decide (a = b) then Ok tt else Err (ClosedMismatch a b))
  | Closed a, Open b w =>
      if decide (b ⊆ a) then bind σ w (Closed (a ∖ b)) else Some (σ, Err (ClosedMismatch a b))
  | Open a v, Closed b =>
      if decide (a ⊆ b) then bind σ v (Closed (b ∖ a)) else Some (σ, Err (ClosedMismatch a b))
  | Open a v, Open b w =>
      if decide (v = w ∧ a = b) then Some (σ, Ok tt) else unify_open σ a v b w
  end.

Definition subsume_closed (actual expected : gset EffectId) : Res RowError unit :=
  if decide (actual ⊆ expected) then Ok tt else Err (SubsumptionFail actual expected).

(** ** Signatures *)

Inductive RowSpec : Type :=
  | Skip
  | Concrete (r : EffectRow)
  | Var (i : Z)
  | VarPlus (i : Z) (eff : gset EffectId).

Record RowPolySig : Type := mkSig { row_var_count : nat; param_rows : list RowSpec; return_row : RowSpec }.

Fixpoint fresh_vars (n : nat) (σ : RowSubst) : option (list RowVar * RowSubst) :=
  match n with
  | O => Some ([], σ)
  | S n => v ← fresh σ; r ← fresh_vars n v.2; Some (v.1 :: r.1, r.2)
  end.

(** [None] is the index out of range, [Some None] the row of [Skip]. *)
Definition materialize (vars : list RowVar) (spec : RowSpec) : option (option EffectRow) :=
  match spec with
  | Skip => Some None
  | Concrete r => Some (Some r)
  | Var i => v ← vars !! Z.to_nat i; Some (Some (Open ∅ v))
  | VarPlus i eff => v ← vars !! Z.to_nat i; Some (Some (Open eff v))
  end.

Definition instantiate_row_sig (sig : RowPolySig) (σ : RowSubst)
    : option (list (option EffectRow) * EffectRow * list RowVar * RowSubst) :=
  f ← fresh_vars (row_var_count sig) σ;
  params ← mapM (materialize f.1) (param_rows sig);
  ret ← materialize f.1 (return_row sig);
  Some (params, default empty_row ret, f.1, f.2).

Definition single_row_closure_sig : RowPolySig := mkSig 1 [Skip; Var 0] (Var 0).
Definition stdlib_list_map_sig : RowPolySig := mkSig 1 [Skip; Var 0] (Var 0).
Definition stdlib_list_fold_sig : RowPolySig := mkSig 1 [Skip; Skip; Var 0] (Var 0).
Definition stdlib_iter_fold_sig : RowPolySig := mkSig 1 [Skip; Skip; Var 0] (Var 0).

Definition ALLOC_PLACEHOLDER : EffectId := 2 ^ 32 - 1 - 7.
Definition one_effect (e : EffectId) : gset EffectId := {[e]}.
Definition stdlib_iter_collect_sig : RowPolySig := mkSig 1 [Skip] (VarPlus 0 (one_effect ALLOC_PLACEHOLDER)).

(** The signatures that share the one-closure shape. *)
Definition stdlib_list_filter_sig : RowPolySig := single_row_closure_sig.
Definition stdlib_list_flat_map_sig : RowPolySig := single_row_closure_sig.
Definition stdlib_iter_map_sig : RowPolySig := single_row_closure_sig.
Definition stdlib_iter_filter_sig : RowPolySig := single_row_closure_sig.
Definition stdlib_iter_for_each_sig : RowPolySig := single_row_closure_sig.
Definition stdlib_iter_find_sig : RowPolySig := single_row_closure_sig.
Definition stdlib_iter_any_sig : RowPolySig := single_row_closure_sig.
Definition stdlib_iter_all_sig : RowPolySig := single_row_closure_sig.
Definition stdlib_iter_flat_map_sig : RowPolySig := single_row_closure_sig.
Definition stdlib_option_map_sig : RowPolySig := single_row_closure_sig.
Definition stdlib_option_and_then_sig : RowPolySig := single_row_closure_sig.
Definition stdlib_option_or_else_sig : RowPolySig := single_row_closure_sig.
Definition stdlib_option_filter_sig : RowPolySig := single_row_closure_sig.
Definition stdlib_result_map_sig : RowPolySig := single_row_closure_sig.
Definition stdlib_result_map_err_sig : RowPolySig := single_row_closure_sig.
Definition stdlib_result_and_then_sig : RowPolySig := single_row_closure_sig.
Definition stdlib_result_or_else_sig : RowPolySig := single_row_closure_sig.

(** ** Printing *)

Definition sort_strings (xs : list string) : list string := merge_sort String.le xs.

Definition render_set (nm : EffectId → option string) (s : gset EffectId) : string :=
  String.concat ", " (sort_strings ((λ e, default ("e" +:+ pretty e) (nm e)) <$> elements s)).

Definition pretty_row (row : EffectRow) (nm : EffectId → option string) : string :=
  match row with
  | Closed s => "{" +:+ render_set nm s +:+ "}"
  | Open s v =>
      if decide (s = ∅) then "E" +:+ pretty v
      else "{" +:+ render_set nm s +:+ " | E" +:+ pretty v +:+ "}"
  end.

(** The crate's own tests. *)
Example row_arith_03_open_unifies_with_closed_binding_tail_to_diff :
  (unify_rows (mkSubst 1 ∅) (Open {[1]} 0) (Closed {[1; 2]})) = Some (mkSubst 1 {[0 := Closed {[2]}]}, Ok tt).
Proof. by vm_compute. Qed.

Example row_arith_08_resolve_walks_chain_of_bindings :
  resolve (mkSubst 2 {[0 := Open {[2]} 1; 1 := Closed {[3]}]}) (Open {[1]} 0) = Some (Closed {[1; 2; 3]}).
Proof. by vm_compute. Qed.

(** ** Unification of effect rows: lemmas

    [Chain b v l s o]: following the bindings [b] from [v] passes the bound
    variables [l], collects [s] and ends at the free variable [o], if any.
    A substitution is well formed when every chain ends; then [resolve] and
    the occurs check return, and binding a free variable keeps it so. *)

Inductive Chain (b : gmap RowVar EffectRow) : RowVar → list RowVar → gset EffectId → option RowVar → Prop :=
  | Chain_free v : b !! v = None → Chain b v [] ∅ (Some v)
  | Chain_closed v t : b !! v = Some (Closed t) → Chain b v [v] t None
  | Chain_open v t w l s o : b !! v = Some (Open t w) → Chain b w l s o → Chain b v (v :: l) (t ∪ s) o.

Lemma Chain_det b v l s o l' s' o' : Chain b v l s o → Chain b v l' s' o' → l = l' ∧ s = s' ∧ o = o'.
Proof.
  intros H. revert l' s' o'. induction H as [v Hv|v t Hv|v t w l s o Hv H IH]; intros l' s' o' H';
    inversion H'; simplify_eq; [done..|]. by edestruct IH as (-> & -> & ->).
Qed.

(** From every variable a chain passes, it goes on with a shorter one. *)
Lemma Chain_suffix b v l s o x : Chain b v l s o → x ∈ l → ∃ l' s', Chain b x l' s' o ∧ (length l' ≤ length l)%nat ∧ (x ≠ v → (length l' < length l)%nat).
Proof.
  induction 1 as [v Hv|v t Hv|v t w l s o Hv H IH].
  - by intros ?%elem_of_nil.
  - intros ->%list_elem_of_singleton. exists [v], t. split_and!; [by constructor|done|done].
  - intros [->|Hx]%elem_of_cons.
    + exists (v :: l), (t ∪ s). split_and!; [by econstructor|done|done].
    + destruct (IH Hx) as (l' & s' & Hc & Hl & _). exists l', s'. split_and!; [done|simpl; lia|simpl; lia].
Qed.

Lemma Chain_NoDup b v l s o : Chain b v l s o → NoDup l.
Proof.
  induction 1 as [v Hv|v t Hv|v t w l s o Hv H IH]; [constructor|apply NoDup_singleton|]. constructor; [|done].
  intros Hin. destruct (Chain_suffix _ _ _ _ _ _ H Hin) as (l' & s' & Hc & Hl & _).
  destruct (Chain_det _ _ _ _ _ _ _ _ Hc (Chain_open _ _ _ _ _ _ _ Hv H)) as (-> & _). simpl in Hl. lia.
Qed.

Lemma Chain_bound b v l s o x : Chain b v l s o → x ∈ l → is_Some (b !! x).
Proof.
  induction 1 as [v Hv|v t Hv|v t w l s o Hv H IH]; [by intros ?%elem_of_nil|..].
  - intros ->%list_elem_of_singleton. eauto.
  - intros [->|Hx]%elem_of_cons; [eauto|by apply IH].
Qed.

Lemma Chain_free_end b v l s o : Chain b v l s (Some o) → b !! o = None.
Proof. intros H. remember (Some o) as t eqn:E. revert o E. induction H; intros ? E; naive_solver. Qed.

Lemma Chain_length b v l s o : Chain b v l s o → (length l ≤ size b)%nat.
Proof.
  intros H. rewrite <-size_dom, <-(size_list_to_set (C := gset Z) l) by by eapply Chain_NoDup.
  apply subseteq_size. intros x Hx%elem_of_list_to_set. apply elem_of_dom. by eapply Chain_bound.
Qed.

Definition wf (σ : RowSubst) : Prop := ∀ v, ∃ l s o, Chain (bindings σ) v l s o.

(** The normal form of a row: what it collects and where it ends. *)
Definition Normal (σ : RowSubst) (row : EffectRow) (s : gset EffectId) (o : option RowVar) : Prop :=
  match row with
  | Closed t => s = t ∧ o = None
  | Open t v => ∃ l u, Chain (bindings σ) v l u o ∧ s = t ∪ u
  end.

Definition row_of (s : gset EffectId) (o : option RowVar) : EffectRow :=
  match o with Some v => Open s v | None => Closed s end.

Lemma wf_Normal σ row : wf σ → ∃ s o, Normal σ row s o.
Proof. intros H. destruct row as [t|t v]; [by exists t, None|]. destruct (H v) as (l & u & o & Hc). by exists (t ∪ u), o, l, u. Qed.

Lemma resolve_loop_chain b v l s o fuel acc seen :
  Chain b v l s o → (length l < fuel)%nat → (∀ x, x ∈ seen → x ∉ l ∧ Some x ≠ o) →
  resolve_loop fuel b acc v seen = Some (row_of (acc ∪ s) o).
Proof.
  intros H. revert fuel acc seen. induction H as [v Hv|v t Hv|v t w l s o Hv H IH]; intros fuel acc seen Hf Hs;
    (destruct fuel as [|fuel]; [simpl in Hf; lia|]); simpl.
  - rewrite decide_False by (intros Hin; by destruct (Hs v Hin) as [_ ?]). rewrite Hv.
    by rewrite (right_id_L ∅ (∪)).
  - rewrite decide_False by (intros Hin; destruct (Hs v Hin) as [Hx _]; apply Hx; left). by rewrite Hv.
  - rewrite decide_False by (intros Hin; destruct (Hs v Hin) as [Hx _]; apply Hx; left). rewrite Hv.
    rewrite IH; [by rewrite (assoc_L (∪))|simpl in Hf; lia|].
    intros x [->%elem_of_singleton|Hx]%elem_of_union.
    + split.
      * pose proof (Chain_NoDup _ _ _ _ _ (Chain_open _ _ _ _ _ _ _ Hv H)) as Hd. by apply NoDup_cons in Hd as [? _].
      * intros <-. by rewrite (Chain_free_end _ _ _ _ _ H) in Hv.
    + destruct (Hs x Hx) as [Hn Ho]. split; [|done]. intros Hin. apply Hn. by right.
Qed.

Lemma resolve_Normal σ row s o : Normal σ row s o → resolve σ row = Some (row_of s o).
Proof.
  destruct row as [t|t v]; [by intros [-> ->]|]. intros (l & u & Hc & ->). unfold resolve.
  apply (resolve_loop_chain _ _ l); [done|pose proof (Chain_length _ _ _ _ _ Hc); lia|]. by intros x ?%elem_of_empty.
Qed.

(** ** The occurs check *)

Lemma occurs_loop_chain b v w l s o fuel t :
  Chain b w l s o → (length l < fuel)%nat →
  occurs_loop (S fuel) b v (Open t w) = Some (bool_decide (v ∈ l ∨ o = Some v)).
Proof.
  intros H. revert fuel t. induction H as [w Hw|w t' Hw|w t' x l s o Hw H IH]; intros fuel t Hf; cbn [occurs_loop].
  - rewrite Hw. destruct (Z.eqb_spec w v) as [->|N].
    + rewrite bool_decide_eq_true_2; [done|by right].
    + rewrite bool_decide_eq_false_2; [done|]. intros [?%elem_of_nil|[= ?]]; done.
  - rewrite Hw. destruct (Z.eqb_spec w v) as [->|N].
    + rewrite bool_decide_eq_true_2; [done|]. left. by left.
    + destruct fuel as [|fuel]; [simpl in Hf; lia|]. simpl.
      rewrite bool_decide_eq_false_2; [done|]. intros [?%list_elem_of_singleton|?]; done.
  - rewrite Hw. destruct (Z.eqb_spec w v) as [->|N].
    + rewrite bool_decide_eq_true_2; [done|]. left. by left.
    + destruct fuel as [|fuel]; [simpl in Hf; lia|]. rewrite IH by (simpl in Hf; lia). f_equal.
      apply bool_decide_ext. rewrite elem_of_cons. naive_solver.
Qed.

Lemma occurs_in_free σ v w t s o l :
  bindings σ !! v = None → Chain (bindings σ) w l s o → o ≠ Some v → occurs_in σ v (Open t w) = Some false.
Proof.
  intros Hv Hc Ho. unfold occurs_in. rewrite (occurs_loop_chain _ _ _ l s o) by (done || (pose proof (Chain_length _ _ _ _ _ Hc); lia)).
  rewrite bool_decide_eq_false_2; [done|]. intros [Hin|?]; [|done].
  destruct (Chain_bound _ _ _ _ _ _ Hc Hin). congruence.
Qed.

(** ** Binding a free variable *)

(** A chain after [v], free before, is bound to [row]: a chain that ended at
    [v] goes on through [row]. *)
Lemma Chain_insert b v row l' u o' x l s o :
  b !! v = None → Chain (<[v := row]> b) v l' u o' → Chain b x l s o →
  (o ≠ Some v ∧ Chain (<[v := row]> b) x l s o) ∨ (o = Some v ∧ Chain (<[v := row]> b) x (l ++ l') (s ∪ u) o').
Proof.
  intros Hv Hc. induction 1 as [x Hx|x t Hx|x t w l s o Hx H IH].
  - destruct (decide (x = v)) as [->|N]; [right|left].
    + split; [done|]. by rewrite (left_id_L ∅ (∪)).
    + split; [congruence|]. constructor. by rewrite lookup_insert_ne.
  - left. split; [done|]. constructor. rewrite lookup_insert_ne; [done|]. congruence.
  - assert (<[v:=row]> b !! x = Some (Open t w)) as Hx' by (rewrite lookup_insert_ne; [done|congruence]).
    destruct IH as [[Ho IH]|[Ho IH]]; [left|right]; (split; [done|]).
    + by econstructor.
    + rewrite <-(assoc_L (∪)). simpl. by econstructor.
Qed.

Lemma Normal_insert σ v row u o' r s o n :
  bindings σ !! v = None → (∃ l', Chain (<[v := row]> (bindings σ)) v l' u o') → Normal σ r s o →
  Normal (mkSubst n (<[v := row]> (bindings σ))) r (if decide (o = Some v) then s ∪ u else s)
    (if decide (o = Some v) then o' else o).
Proof.
  intros Hv [l' Hc]. destruct r as [t|t w]; [intros [-> ->]; by rewrite !decide_False by done|].
  intros (l & s' & Hw & ->). destruct (Chain_insert _ _ _ _ _ _ _ _ _ _ Hv Hc Hw) as [[Ho H]|[-> H]].
  - rewrite !decide_False by done. by exists l, s'.
  - rewrite !decide_True by done. exists (l ++ l'), (s' ∪ u). by rewrite (assoc_L (∪)).
Qed.

Lemma wf_insert σ v row u o' n :
  wf σ → bindings σ !! v = None → (∃ l', Chain (<[v := row]> (bindings σ)) v l' u o') →
  wf (mkSubst n (<[v := row]> (bindings σ))).
Proof.
  intros Hwf Hv [l' Hc] x. destruct (Hwf x) as (l & s & o & Hx).
  destruct (Chain_insert _ _ _ _ _ _ _ _ _ _ Hv Hc Hx) as [[_ H]|[_ H]]; eauto.
Qed.

Lemma bind_closed σ v t :
  bind σ v (Closed t) = Some (mkSubst (next σ) (<[v := Closed t]> (bindings σ)), Ok tt).
Proof. done. Qed.

(** Binding [v] to a row with another free tail. *)
Lemma bind_open σ v t w :
  bindings σ !! v = None → bindings σ !! w = None → v ≠ w →
  bind σ v (Open t w) = Some (mkSubst (next σ) (<[v := Open t w]> (bindings σ)), Ok tt).
Proof.
  intros Hv Hw N. unfold bind. rewrite (occurs_in_free σ v w t ∅ (Some w) []); [done|done|by constructor|congruence].
Qed.

Lemma Chain_bound_closed b v t : Chain (<[v := Closed t]> b) v [v] t None.
Proof. constructor. apply lookup_insert_eq. Qed.

Lemma Chain_bound_open b v t w : b !! w = None → v ≠ w → Chain (<[v := Open t w]> b) v [v] t (Some w).
Proof.
  intros Hw N. rewrite <-(right_id_L ∅ (∪) t) at 2. eapply Chain_open; [apply lookup_insert_eq|].
  constructor. by rewrite lookup_insert_ne.
Qed.

(** ** What a row means *)

(** The effects of a row when its variables stand for [ρ]. *)
Definition sem (ρ : RowVar → gset EffectId) (row : EffectRow) : gset EffectId :=
  match row with Closed s => s | Open s v => s ∪ ρ v end.

Definition Sat (ρ : RowVar → gset EffectId) (σ : RowSubst) : Prop :=
  ∀ v row, bindings σ !! v = Some row → ρ v = sem ρ row.

Lemma Chain_sem ρ σ v l s o : Sat ρ σ → Chain (bindings σ) v l s o → ρ v = sem ρ (row_of s o).
Proof.
  intros Hs. induction 1 as [v Hv|v t Hv|v t w l s o Hv H IH]; simpl; [by rewrite (left_id_L ∅ (∪))|by rewrite (Hs _ _ Hv)|].
  rewrite (Hs _ _ Hv). simpl. rewrite IH. destruct o; simpl; by rewrite ?(assoc_L (∪)).
Qed.

Lemma Normal_sem ρ σ row s o : Sat ρ σ → Normal σ row s o → sem ρ row = sem ρ (row_of s o).
Proof.
  intros Hs. destruct row as [t|t v]; [by intros [-> ->]|]. intros (l & u & Hc & ->). simpl.
  rewrite (Chain_sem _ _ _ _ _ _ Hs Hc). destruct o; simpl; by rewrite ?(assoc_L (∪)).
Qed.

(** ** Variables below the counter *)

Definition row_below (n : RowVar) (row : EffectRow) : Prop := ∀ v, v ∈ free_row_vars row → v < n.

Definition bounded (σ : RowSubst) : Prop :=
  ∀ v row, bindings σ !! v = Some row → v < next σ ∧ row_below (next σ) row.

Lemma row_below_open n t v : row_below n (Open t v) ↔ v < n.
Proof. unfold row_below. simpl. split; [intros H; apply H; left|by intros H w ->%list_elem_of_singleton]. Qed.

Lemma row_below_closed n t : row_below n (Closed t).
Proof. by intros v ?%elem_of_nil. Qed.

Lemma Chain_below σ v l s o : bounded σ → v < next σ → Chain (bindings σ) v l s (Some o) → o < next σ.
Proof.
  intros Hb Hv H. remember (Some o) as t eqn:E. revert o E Hv.
  induction H as [v Hv|v t' Hv|v t' w l s o' Hv H IH]; intros o E Hlt; [congruence|done|].
  apply IH; [done|]. destruct (Hb _ _ Hv) as [_ Hw]. by apply row_below_open in Hw.
Qed.

Lemma Normal_below σ row s o : bounded σ → row_below (next σ) row → Normal σ row s (Some o) → o < next σ.
Proof.
  intros Hb Hr. destruct row as [t|t v]; [by intros [_ ?]|]. intros (l & u & Hc & _).
  apply row_below_open in Hr. by eapply Chain_below.
Qed.

Lemma Normal_free σ row s o : Normal σ row s (Some o) → bindings σ !! o = None.
Proof. destruct row as [t|t v]; [by intros [_ ?]|]. intros (l & u & Hc & _). by eapply Chain_free_end. Qed.

Lemma bounded_insert σ v row n :
  bounded σ → next σ ≤ n → v < n → row_below n row → bounded (mkSubst n (<[v := row]> (bindings σ))).
Proof.
  intros Hb Hn Hv Hr x r Hx. cbn in *. apply lookup_insert_Some in Hx as [[<- <-]|[_ Hx]]; [done|].
  destruct (Hb _ _ Hx) as [H1 H2]. split; [lia|]. intros w Hw. specialize (H2 w Hw). lia.
Qed.

Lemma bounded_fresh σ : bounded σ → bindings σ !! next σ = None.
Proof. intros Hb. destruct (bindings σ !! next σ) as [r|] eqn:E; [|done]. destruct (Hb _ _ E). lia. Qed.

(** [σ'] extends [σ], and stays well formed. *)
Definition Extends (σ σ' : RowSubst) : Prop :=
  wf σ' ∧ bounded σ' ∧ next σ ≤ next σ' ∧ bindings σ ⊆ bindings σ'.

(** A free variable bound to a closed row. *)
Lemma bind_closed_extends σ v t :
  wf σ → bounded σ → bindings σ !! v = None → v < next σ →
  Extends σ (mkSubst (next σ) (<[v := Closed t]> (bindings σ))).
Proof.
  intros Hwf Hb Hv Hlt. split_and!.
  - refine (wf_insert σ v _ t None (next σ) Hwf Hv _). eexists. apply Chain_bound_closed.
  - refine (bounded_insert σ v _ (next σ) Hb _ Hlt _); [lia|apply row_below_closed].
  - done.
  - by apply insert_subseteq.
Qed.

(** Two free variables bound to one fresh tail; [v = w] binds twice. *)
Lemma unify_open_run σ a v b w :
  bounded σ → v < next σ → w < next σ → bindings σ !! v = None → bindings σ !! w = None →
  next σ + 1 < 2 ^ 32 →
  unify_open σ a v b w = Some (mkSubst (next σ + 1)
    (<[w := Open (a ∖ b) (next σ)]> (<[v := Open (b ∖ a) (next σ)]> (bindings σ))), Ok tt).
Proof.
  intros Hb Hv Hw Fv Fw Hn. unfold unify_open, fresh. rewrite (proj2 (Z.ltb_lt _ _) Hn). cbn [mbind option_bind fst snd].
  rewrite bind_open; [|done|exact (bounded_fresh σ Hb)|cbn; lia]. cbn [mbind option_bind fst snd].
  destruct (decide (v = w)) as [<-|N].
  - unfold bind, occurs_in. cbn [bindings occurs_loop]. rewrite (proj2 (Z.eqb_neq (next σ) v)) by lia.
    rewrite lookup_insert_ne by lia. by rewrite bounded_fresh.
  - rewrite bind_open; cbn [bindings next]; [done|by rewrite lookup_insert_ne| |lia].
    rewrite lookup_insert_ne by lia. exact (bounded_fresh σ Hb).
Qed.

Lemma unify_open_extends σ a v b w n :
  wf σ → bounded σ → v < next σ → w < next σ → bindings σ !! v = None → bindings σ !! w = None → n = next σ + 1 →
  Extends σ (mkSubst n (<[w := Open (a ∖ b) (next σ)]> (<[v := Open (b ∖ a) (next σ)]> (bindings σ)))).
Proof.
  intros Hwf Hb Hv Hw Fv Fw ->. pose proof (bounded_fresh _ Hb) as Hf. split_and!.
  - destruct (decide (v = w)) as [<-|N].
    + rewrite insert_insert_eq. refine (wf_insert σ v _ (a ∖ b) (Some (next σ)) _ Hwf Fv _). eexists. apply Chain_bound_open; [done|lia].
    + assert (<[v := Open (b ∖ a) (next σ)]> (bindings σ) !! w = None) as F1 by (by rewrite lookup_insert_ne).
      refine (wf_insert (mkSubst (next σ) (<[v := Open (b ∖ a) (next σ)]> (bindings σ))) w _ (a ∖ b) (Some (next σ)) (next σ + 1) _ F1 _).
      * refine (wf_insert σ v _ (b ∖ a) (Some (next σ)) (next σ) Hwf Fv _). eexists. apply Chain_bound_open; [done|lia].
      * eexists. apply Chain_bound_open; [|lia]. cbn. rewrite lookup_insert_ne; [done|lia].
  - refine (bounded_insert (mkSubst (next σ + 1) (<[v := Open (b ∖ a) (next σ)]> (bindings σ))) w _ (next σ + 1) _ _ _ _);
      [|done|lia|apply row_below_open; lia].
    refine (bounded_insert σ v _ (next σ + 1) Hb _ _ _); [lia|lia|apply row_below_open; lia].
  - cbn. lia.
  - cbn. destruct (decide (v = w)) as [<-|N]; [rewrite insert_insert_eq; by apply insert_subseteq|].
    etransitivity; [by apply (insert_subseteq _ v)|]. apply insert_subseteq. by rewrite lookup_insert_ne.
Qed.

Lemma union_swap (a b : gset EffectId) : a ∪ b = b ∪ a.
Proof. set_solver. Qed.

Lemma union_rest (a b : gset EffectId) : a ∪ b ∖ a = a ∪ b.
Proof. apply set_eq. intros x. destruct (decide (x ∈ a)); set_solver. Qed.

(** The normal form after both bindings. *)
Lemma unify_open_normal σ a v b w n r s o :
  v ≠ w → v < next σ → w < next σ → bounded σ → bindings σ !! v = None → bindings σ !! w = None →
  Normal σ r s o → (o = Some v ∧ s = a ∨ o = Some w ∧ s = b) →
  Normal (mkSubst n (<[w := Open (a ∖ b) (next σ)]> (<[v := Open (b ∖ a) (next σ)]> (bindings σ)))) r
    (a ∪ b) (Some (next σ)).
Proof.
  intros N Hv Hw Hb Fv Fw HN Ho. pose proof (bounded_fresh _ Hb) as Hf.
  pose proof (Normal_insert σ v (Open (b ∖ a) (next σ)) (b ∖ a) (Some (next σ)) r s o (next σ) Fv) as H1.
  specialize (H1 ltac:(eexists; apply Chain_bound_open; [done|lia]) HN).
  assert (<[v := Open (b ∖ a) (next σ)]> (bindings σ) !! w = None) as F1 by (by rewrite lookup_insert_ne).
  set (σ1 := mkSubst (next σ) (<[v := Open (b ∖ a) (next σ)]> (bindings σ))) in *.
  assert (∃ l', Chain (<[w := Open (a ∖ b) (next σ)]> (bindings σ1)) w l' (a ∖ b) (Some (next σ))) as Hc
    by (eexists; apply Chain_bound_open; [cbn; rewrite lookup_insert_ne; [done|lia]|lia]).
  pose proof (λ s1 o1, Normal_insert σ1 w (Open (a ∖ b) (next σ)) (a ∖ b) (Some (next σ)) r s1 o1 n F1 Hc) as H2.
  destruct Ho as [[-> ->]|[-> ->]].
  - rewrite !decide_True in H1 by done. specialize (H2 _ _ H1). rewrite !decide_False in H2 by (intros [= ?]; lia).
    by rewrite union_rest in H2.
  - rewrite !decide_False in H1 by (intros [= ?]; done). specialize (H2 _ _ H1). rewrite !decide_True in H2 by done.
    by rewrite union_rest, union_swap in H2.
Qed.

Lemma union_subset (a b : gset EffectId) : a ⊆ b → a ∪ b ∖ a = b.
Proof. intros H. rewrite union_rest. set_solver. Qed.

(** Binding a variable to a closed row: the rows that ended there end, the
    closed ones are as they were. *)
Lemma bound_normal σ v t r s :
  bindings σ !! v = None → Normal σ r s (Some v) →
  Normal (mkSubst (next σ) (<[v := Closed t]> (bindings σ))) r (s ∪ t) None.
Proof.
  intros Hv HN. pose proof (Normal_insert σ v (Closed t) t None r s (Some v) (next σ) Hv) as H.
  rewrite !decide_True in H by done. apply H; [|done]. eexists. apply Chain_bound_closed.
Qed.

Lemma closed_normal σ v t r s :
  bindings σ !! v = None → Normal σ r s None →
  Normal (mkSubst (next σ) (<[v := Closed t]> (bindings σ))) r s None.
Proof.
  intros Hv HN. pose proof (Normal_insert σ v (Closed t) t None r s None (next σ) Hv) as H.
  rewrite !decide_False in H by done. apply H; [|done]. eexists. apply Chain_bound_closed.
Qed.

(** ** Effects: the tables and the diagnostics

    The functions, names, effects and built-in methods of [DefMap]
    ([crates/mty-types/src/defs.rs]) and the diagnostics of the effect
    checks ([crates/mty-types/src/diag.rs]).  An [EffectId] is a [u32], here a
    [Z]; a factory of signatures is the signature it makes. *)

Notation FnDefId := nat (only parsing).

(** ** Definitions *)

Record FnDef : Type := mkFnDef {
  fd_fn_name : string;
  fd_generics : list ParamDef;
  fd_param_ids : list ParamId;
  fd_params : list (string * TyId);
  fd_ret : TyId;
  fd_effects : list EffectId;
  fd_is_pub : bool;
  fd_body : option BlockId;
  fd_hir_fn : option FnId;
  fd_extern_abi : option string;
  fd_is_variadic : bool;
  fd_mut_params : list bool
}.

Inductive DefRef : Type :=
  | DAdt (a : AdtId)
  | DFn (f : FnDefId)
  | DVariant (a : AdtId) (i : nat)
  | DModule (m : Z)
  | DParam (p : ParamId)
  | DConst (c : nat).

Record BuiltinMethod : Type := mkMethod {
  bm_arity : option nat;
  bm_ret : option TyId;
  bm_row_sig : option RowPolySig
}.

(** The tables of [DefMap] the effect checks consult. *)
Record DefTables : Type := mkTables {
  def_fns : list FnDef;
  by_name : gmap string DefRef;
  effects : gmap string EffectId;
  builtin_methods : gmap string BuiltinMethod
}.

Definition fn_def (d : DefTables) (f : FnDefId) : option FnDef := def_fns d !! f.
Definition lookup_def (d : DefTables) (n : string) : option DefRef := by_name d !! n.

(** [intern_effect] *)
Definition intern_effect (d : DefTables) (n : string) : EffectId * DefTables :=
  match effects d !! n with
  | Some id => (id, d)
  | None =>
      let id := Z.of_nat (size (effects d)) in
      (id, mkTables (def_fns d) (by_name d) (<[n := id]> (effects d)) (builtin_methods d))
  end.

(** [effect_name]: the name found for an id; interned ids are distinct. *)
Definition effect_name (d : DefTables) (e : EffectId) : option string :=
  (λ x, x.2.1) <$> list_find (λ nv : string * EffectId, nv.2 = e) (map_to_list (effects d)).

Definition row_sig_of (d : DefTables) (method : string) : option RowPolySig :=
  m ← builtin_methods d !! method; bm_row_sig m.

(** ** Diagnostics *)

Definition EFFECT_UNDECLARED : Z := 4001.
Definition ALLOC_IN_CORE : Z := 4002.
Definition ROW_SUBSUMPTION_FAIL : Z := 4050.
Definition ROW_VAR_UNUSED : Z := 4055.
Definition ROW_VAR_IN_CONCRETE_ONLY : Z := 4056.
Definition ROW_VAR_RETURNED_UNBOUND : Z := 4057.
Definition ROW_VAR_ARITY_MISMATCH : Z := 4058.
Definition ROW_VAR_SUBSUMPTION_FAIL : Z := 4059.

(** [d.notes.push(..)], in order. *)
Definition with_notes (d : Diagnostic) (ns : list string) : Diagnostic :=
  mkDiagnostic (d_code d) (severity d) (primary d) (secondary d) (notes d ++ ns) (helps d).

Definition join_commas (xs : list string) : string := String.concat ", " xs.

Local Open Scope string_scope.

Definition effect_hint (eff : string) : option string :=
  if String.eqb eff "alloc" then Some "hint: `alloc` is required for any `pub` fn that constructs a `Vec`, `String`, or other heap value (declare it on the signature: `pub fn name(...) -> T effect alloc { ... }`)"
  else if String.eqb eff "fs" then Some "hint: `fs` is required for `pub` fns that read or write the file system (`std.fs.*`); declare it on the signature: `pub fn name(...) -> T effect fs { ... }`"
  else if String.eqb eff "net" then Some "hint: `net` is required for `pub` fns that perform network I/O (`std.http.*`, `std.net.*`); declare it on the signature: `pub fn name(...) -> T effect net { ... }`"
  else if String.eqb eff "io" then Some "hint: `io` is required for `pub` fns that print to stdout/stderr (`log`, `print`); declare it on the signature: `pub fn name(...) -> T effect io { ... }`"
  else None.

Definition effect_undeclared (fn : string) (missing : list string) (s : SourceSpan) : Diagnostic :=
  with_notes
    (error EFFECT_UNDECLARED (label s (quoted "public function " fn (" is missing declared effect(s): " +:+ join_commas missing))))
    (("add `effect " +:+ join_commas missing +:+ "` to the function signature")
     :: omap effect_hint missing
     ++ ["see: docs/internals/effects.md (the `effect` clause documents a `pub` fn's contract)"])%list.

Definition alloc_in_core (fn : string) (s : SourceSpan) : Diagnostic :=
  error ALLOC_IN_CORE (label s (quoted "function " fn " allocates on the heap; the `core` profile bans `alloc`")).

Definition row_var_unused (fn row_var : string) (s : SourceSpan) : Diagnostic :=
  with_notes
    (error ROW_VAR_UNUSED (label s (quoted "function " fn (quoted " declares row variable " row_var " but has no closure parameter that could bind it"))))
    ["add a `fn(...) -> _` parameter, or drop `" +:+ row_var +:+ "` and write a concrete closed effect row";
     "RFC-008 §inference — see `mty explain MT4055`"].

Definition row_var_returned_but_unbound (fn row_var : string) (s : SourceSpan) : Diagnostic :=
  with_notes
    (error ROW_VAR_RETURNED_UNBOUND (label s (quoted "function " fn (quoted " returns effects through row variable " row_var " but has no closure parameter to bind it"))))
    ["add a parameter of fn type (e.g. `f: fn(A) -> B`) so the row variable `" +:+ row_var +:+ "` can be bound at each call site";
     "RFC-008 §inference — see `mty explain MT4057`"].

Definition row_var_in_concrete_only (fn row_var : string) (s : SourceSpan) : Diagnostic :=
  with_notes
    (error ROW_VAR_IN_CONCRETE_ONLY (label s (quoted "function " fn (quoted " declares row variable " row_var " next to a concrete effects component, but has no closure parameter that could bind it — the row var sits structurally inert"))))
    ["either drop `| " +:+ row_var +:+ "` and keep just the concrete effects, or add a `fn(...) -> _` parameter so the row variable can carry caller-side effects";
     "RFC-008 §inference — see `mty explain MT4056`"].

Definition row_var_arity_mismatch (fn : string) (expected got : nat) (s : SourceSpan) : Diagnostic :=
  with_notes
    (error ROW_VAR_ARITY_MISMATCH (label s (quoted "call to row-poly fn " fn
      (" supplies " +:+ pretty got +:+ " closure argument(s), but the fn declares " +:+ pretty expected +:+ " fn-typed parameter(s)"))))
    ["each closure-typed parameter binds the row variable independently; supply exactly " +:+ pretty expected +:+ " closure(s)";
     "RFC-008 §inference — see `mty explain MT4058`"].

Definition unspecified (disallowed : list string) : string :=
  match disallowed with [] => "(unspecified)" | _ => join_commas disallowed end.

Definition row_var_subsumption_fail (fn : string) (disallowed : list string) (s : SourceSpan) : Diagnostic :=
  with_notes
    (error ROW_VAR_SUBSUMPTION_FAIL (label s (quoted "closure passed to " fn
      (" introduces effects {" +:+ unspecified disallowed +:+ "} that the enclosing fn's effect clause does not allow"))))
    ["add `effect " +:+ default "<effect>" (head disallowed) +:+ "` to the enclosing fn, or use a pure closure";
     "RFC-008 row_var_subsumption_fail — see `mty explain MT4059`"].

Definition double_quote : string := String (Ascii.ascii_of_nat 34) EmptyString.

Definition hof_closure_effects_rejected (method : string) (disallowed : list string) (s : SourceSpan) : Diagnostic :=
  with_notes
    (error ROW_SUBSUMPTION_FAIL (label s (quoted "closure passed to " method
      (" introduces effects {" +:+ unspecified disallowed +:+ "} that the enclosing fn's effect clause does not allow"))))
    ["add `effect " +:+ default "<effect>" (head disallowed) +:+ "` to the enclosing fn's signature, or replace the closure with a pure one";
     "RFC-008 §" +:+ double_quote +:+ "v0.14 follow-up" +:+ double_quote +:+ " row_subsumption_fail — see `mty explain MT4050`"].
