(* ===== verification/EffectInfer.v ===== *)
(** * Effect inference

    [crates/mty-types/src/effects.rs] without its module [row].  The walk only
    adds to its two outputs, the effects and the callees, so here it returns
    what it adds; [None] is a node out of range, a panic of the row machinery,
    or the end of the fuel, which is the nesting of the body.  Sets and maps are
    hashed in the source; nothing below depends on their order, and lists made
    from them are sorted. *)

From stdpp Require Import base list strings numbers gmap sets sorting.
From S2P Require Import Prelude TyArena Hir BorrowState EffectRow.

Local Open Scope Z_scope.
Notation length := List.length (only parsing).

Inductive Profile : Set := Host | Web | Edge | Core.

#[export] Instance Profile_eq_dec : EqDecision Profile.
Proof. solve_decision. Defined.

Definition parse_profile (s : string) : Profile :=
  if String.eqb s "core" then Core
  else if String.eqb s "edge" then Edge
  else if String.eqb s "web" then Web
  else Host.

Notation EffectSet := (gset EffectId) (only parsing).

Record KnownEffects : Type := mkKnown {
  k_alloc : EffectId; k_net : EffectId; k_fs : EffectId; k_clock : EffectId; k_dom : EffectId;
  k_model : EffectId; k_spawn : EffectId; k_time : EffectId; k_unsafe : EffectId
}.

Record UserRowPolyMeta : Type := mkMeta {
  m_row_vars : list string;
  m_fn_typed_param_count : nat;
  m_span : SourceSpan;
  m_name : string;
  m_concrete_effects : list string
}.

Record UserRowPolyIndex : Type := mkIdx { idx_fns : gset FnId; idx_meta : gmap FnId UserRowPolyMeta }.

Definition empty_idx : UserRowPolyIndex := mkIdx ∅ ∅.

(** ** What a walk adds *)

Definition W : Type := EffectSet * list FnDefId.

Definition done_ : option W := Some (∅, []).
Definition insert_effect (e : EffectId) : option W := Some ({[e]}, []).
Definition push_callee (f : FnDefId) : option W := Some (∅, [f]).

(** One after the other. *)
Definition then_ (a b : option W) : option W := x ← a; y ← b; Some (x.1 ∪ y.1, x.2 ++ y.2).
Infix ";;;" := then_ (at level 60, right associativity).

Fixpoint each {A} (f : A → option W) (xs : list A) : option W :=
  match xs with [] => done_ | x :: xs => f x ;;; each f xs end.

Definition opt_walk {A} (f : A → option W) (o : option A) : option W :=
  match o with Some x => f x | None => done_ end.

Section walk.
Variable pkg : Package.
Variable defs : DefTables.
Variable known : KnownEffects.

(** The capability a name stands for. *)
Definition cap_effect (s : string) : option EffectId :=
  if String.eqb s "fs" then Some (k_fs known)
  else if String.eqb s "net" then Some (k_net known)
  else if String.eqb s "clock" then Some (k_clock known)
  else if String.eqb s "dom" then Some (k_dom known)
  else if String.eqb s "model" then Some (k_model known)
  else None.

Definition alloc_method (s : string) : bool :=
  bool_decide (s ∈ ["push"; "pop"; "insert"; "encode"; "collect"; "to_string"; "clone"]%string).

Definition if_alloc (s : string) : option W := if alloc_method s then insert_effect (k_alloc known) else done_.

Section shape.
(** The recursive call on the nodes below. *)
Variable walk : UserRowPolyIndex → ExprId → option W.

Definition walk_stmt_effects (idx : UserRowPolyIndex) (st : HirStmt) : option W :=
  match st with SLet _ _ init _ => opt_walk (walk idx) init | SExpr e => walk idx e end.

Definition walk_block_effects (idx : UserRowPolyIndex) (bid : BlockId) : option W :=
  b ← blocks pkg !! bid;
  each (walk_stmt_effects idx) (stmts b) ;;; opt_walk (walk idx) (tail b).

(** The body's effects when the argument is a lambda. *)
Definition lambda_effects (eid : ExprId) : option (option EffectSet) :=
  e ← exprs pkg !! eid;
  match e with
  | ELambda _ _ body => w ← walk_block_effects empty_idx body; Some (Some w.1)
  | _ => Some None
  end.

Definition compute_arg_effect_row (eid : ExprId) : option (option EffectRow) :=
  o ← lambda_effects eid; Some (option_map EffectRow.Closed o).

(** The loop over the parameters, its errors ignored. *)
Fixpoint unify_params (σ : RowSubst) (params : list (option EffectRow)) (args : list (option EffectRow)) : option RowSubst :=
  match params, args with
  | [], _ | _, [] => Some σ
  | p :: params, a :: args =>
      match p, a with
      | Some p, Some a =>
          r ← unify_rows σ p a;
          unify_params r.1 params args
      | _, _ => unify_params σ params args
      end
  end.

(** [ALLOC_PLACEHOLDER] stands for the real [alloc]. *)
Definition remap_alloc (s : EffectSet) : EffectSet :=
  set_map (λ e, if bool_decide (e = ALLOC_PLACEHOLDER) then k_alloc known else e) s.

(** The effects the dispatch of a row-polymorphic call adds. *)
Definition row_effects (sig : RowPolySig) (args : list HirArg) : option EffectSet :=
  arg_rows ← mapM (λ a, compute_arg_effect_row (arg_value a)) args;
  i ← instantiate_row_sig sig new_subst;
  let '(params, ret, _, σ) := i in
  σ ← unify_params σ (drop 1 params) arg_rows;
  resolved ← resolve σ ret;
  Some (remap_alloc (EffectRow.concrete resolved)).

Definition dispatch_row_poly_call (method : string) (args : list HirArg) : option W :=
  match row_sig_of defs method with
  | None => done_
  | Some sig => s ← row_effects sig args; Some (s, [])
  end.

Definition walk_args (idx : UserRowPolyIndex) (args : list HirArg) : option W :=
  each (λ a, walk idx (arg_value a)) args.

(** The call of a function by its name. *)
Definition walk_fn_call (idx : UserRowPolyIndex) (name : string) (args : list HirArg) : option W :=
  match lookup_def defs name with
  | Some (DFn f) =>
      push_callee f ;;;
      match (d ← fn_def defs f; fd_hir_fn d) with
      | Some h =>
          if decide (h ∈ idx_fns idx) then
            each (λ a, o ← lambda_effects (arg_value a); Some (default ∅ o, [])) args
          else done_
      | None => done_
      end
  | _ => done_
  end.

(** What the callee's path adds. *)
Definition walk_callee_path (idx : UserRowPolyIndex) (callee : HirExpr) (args : list HirArg) : option W :=
  match callee with
  | EPath [name] => walk_fn_call idx name args
  | EPath (first :: _ :: _ as segs) =>
      let m := default EmptyString (last segs) in
      opt_walk insert_effect (cap_effect first) ;;; dispatch_row_poly_call m args ;;; if_alloc m
  | _ => done_
  end.

(** What the receiver's path and the method add. *)
Definition walk_receiver_path (receiver : HirExpr) (method : string) : option W :=
  match receiver with
  | EPath (first :: _) => opt_walk insert_effect (cap_effect first)
  | _ => done_
  end ;;; if_alloc method.

Definition walk_arm_effects (idx : UserRowPolyIndex) (a : HirMatchArm) : option W :=
  walk idx (arm_body a) ;;; opt_walk (walk idx) (arm_guard a).

Definition walk_shape (idx : UserRowPolyIndex) (e : HirExpr) : option W :=
  match e with
  | ELiteral _ | EPath _ | EPathGeneric _ _ | EError => done_
  | EBlock b => walk_block_effects idx b
  | ETuple xs | EArray xs => each (walk idx) xs
  | EBinary _ lhs rhs => walk idx lhs ;;; walk idx rhs
  | EUnary _ e | EBorrow _ e | EMove e | EQuestion e | ECast e _ => walk idx e
  | ECall callee args =>
      walk idx callee ;;; walk_args idx args ;;;
      (c ← exprs pkg !! callee; walk_callee_path idx c args)
  | EMethodCall receiver method args =>
      walk idx receiver ;;; dispatch_row_poly_call method args ;;; walk_args idx args ;;;
      (r ← exprs pkg !! receiver; walk_receiver_path r method)
  | EField e _ => walk idx e
  | EIndex a b => walk idx a ;;; walk idx b
  | EIf c t e => walk idx c ;;; walk_block_effects idx t ;;; opt_walk (walk idx) e
  | EIfLet _ s t e => walk idx s ;;; walk_block_effects idx t ;;; opt_walk (walk idx) e
  | EMatch s arms => walk idx s ;;; each (walk_arm_effects idx) arms
  | EFor _ it body => walk idx it ;;; walk_block_effects idx body
  | EWhile c body | EWhileLet _ c body => walk idx c ;;; walk_block_effects idx body
  | ELoop body => walk_block_effects idx body
  | EReturn o | EBreak o => opt_walk (walk idx) o
  | EContinue => done_
  | EStruct _ fields => each (λ f, walk idx f.2) fields
  | EMap entries => insert_effect (k_alloc known) ;;; each (λ kv, walk idx kv.1 ;;; walk idx kv.2) entries
  | ESend t _ args | EAsk t _ args => insert_effect (k_spawn known) ;;; walk idx t ;;; walk_args idx args
  | EDeadline inner dur => insert_effect (k_time known) ;;; walk idx inner ;;; walk idx dur
  | ESpawn _ e | EDetach e => insert_effect (k_spawn known) ;;; walk idx e
  | EJoin e | ERun e => walk idx e
  | EHtmlTemplate _ => insert_effect (k_alloc known)
  | EUnsafe b => insert_effect (k_unsafe known) ;;; walk_block_effects idx b
  | EArena _ body => insert_effect (k_alloc known) ;;; walk idx body
  | ETaskScope _ body => walk_block_effects idx body
  | EBudget entries body => each (λ f, walk idx f.2) entries ;;; walk idx body
  | ESandbox _ entries body => each (λ f, walk idx f.2) entries ;;; walk_block_effects idx body
  | ELambda _ _ body => walk_block_effects idx body
  end.
End shape.

Fixpoint walk_expr_effects (n : nat) (idx : UserRowPolyIndex) (eid : ExprId) : option W :=
  match n with
  | O => None
  | S n => e ← exprs pkg !! eid; walk_shape (walk_expr_effects n) idx e
  end.
End walk.

(** ** The index of row-polymorphic functions *)

(** An arena with its ids. *)
Definition indexed {A} (xs : list A) : list (nat * A) := zip (seq 0 (length xs)) xs.

Definition is_fn_typed (pkg : Package) (p : HirParam) : option bool :=
  match param_ty p with
  | Some t => ty ← types pkg !! t; Some (match ty with HtFn _ _ => true | _ => false end)
  | None => Some false
  end.

(** The diagnostic of a row variable that no parameter can bind. *)
Definition unbound_row_var (f : HirFn) (concrete : list string) (row_var : string) : Diagnostic :=
  match concrete with
  | _ :: _ => row_var_in_concrete_only (fn_name f) row_var (fn_span f)
  | [] =>
      if (2 <=? length (fn_params f))%nat then row_var_unused (fn_name f) row_var (fn_span f)
      else row_var_returned_but_unbound (fn_name f) row_var (fn_span f)
  end.

(** One iteration of the loop of [build_user_row_poly_index]. *)
Definition index_fn (pkg : Package) (acc : UserRowPolyIndex * list Diagnostic) (fid : FnId) (f : HirFn)
    : option (UserRowPolyIndex * list Diagnostic) :=
  match fn_effect_row f with
  | Some (Hir.Open concrete vars) =>
      typed ← mapM (is_fn_typed pkg) (fn_params f);
      let count := length (List.filter id typed) in
      let names := rv_name <$> vars in
      if (count =? 0)%nat then
        Some (acc.1, acc.2 ++ [unbound_row_var f concrete (default "E"%string (head names))])
      else
        Some (mkIdx ({[fid]} ∪ idx_fns acc.1)
                    (<[fid := mkMeta names count (fn_span f) (fn_name f) concrete]> (idx_meta acc.1)), acc.2)
  | _ => Some acc
  end.

Fixpoint index_fns (pkg : Package) (fs : list (nat * HirFn)) (acc : UserRowPolyIndex * list Diagnostic)
    : option (UserRowPolyIndex * list Diagnostic) :=
  match fs with
  | [] => Some acc
  | (fid, f) :: fs => acc ← index_fn pkg acc fid f; index_fns pkg fs acc
  end.

Definition build_user_row_poly_index (pkg : Package) : option (UserRowPolyIndex * list Diagnostic) :=
  index_fns pkg (indexed (fns pkg)) (empty_idx, []).

(** ** The fixpoint over the calls *)

(** What one call adds: the callee's effects in the snapshot, and its
    declared ones. *)
Definition callee_effects (defs : DefTables) (snapshot : gmap FnId EffectSet) (c : FnDefId) : EffectSet :=
  match fn_def defs c with
  | Some d =>
      default ∅ (h ← fd_hir_fn d; snapshot !! h) ∪ list_to_set (fd_effects d)
  | None => ∅
  end.

(** One round: every function reads the snapshot and changes only its own
    entry. *)
Definition round (defs : DefTables) (calls : gmap FnId (list FnDefId)) (snapshot : gmap FnId EffectSet)
    : gmap FnId EffectSet :=
  map_imap (λ fid cur, Some (cur ∪ ⋃ (callee_effects defs snapshot <$> default [] (calls !! fid)))) snapshot.

Fixpoint rounds (k : nat) (defs : DefTables) (calls : gmap FnId (list FnDefId)) (m : gmap FnId EffectSet)
    : gmap FnId EffectSet :=
  match k with
  | O => m
  | S k => let m' := round defs calls m in if decide (m' = m) then m else rounds k defs calls m'
  end.

(** ** The checks at the call sites *)

(** One list of diagnostics after the other. *)
Definition app_ (a b : option (list Diagnostic)) : option (list Diagnostic) := x ← a; y ← b; Some (x ++ y).
Infix "+++" := app_ (at level 60, right associativity).

Fixpoint reports {A} (f : A → option (list Diagnostic)) (xs : list A) : option (list Diagnostic) :=
  match xs with [] => Some [] | x :: xs => f x +++ reports f xs end.

Definition opt_report {A} (f : A → option (list Diagnostic)) (o : option A) : option (list Diagnostic) :=
  match o with Some x => f x | None => Some [] end.

(** The names of a set of effects, sorted. *)
Definition effect_names (defs : DefTables) (s : EffectSet) : list string :=
  sort_strings (omap (effect_name defs) (elements s)).

(** A closure with effects outside the declared ones. *)
Definition report_closure (defs : DefTables) (declared : EffectSet) (mk : list string → Diagnostic) (s : EffectSet)
    : list Diagnostic :=
  let disallowed := s ∖ declared in
  if decide (disallowed = ∅) then [] else [mk (effect_names defs disallowed)].

Section violations.
Variable pkg : Package.
Variable defs : DefTables.
Variable known : KnownEffects.
Variable declared : EffectSet.

Section shape.
Variable walk_effects : UserRowPolyIndex → ExprId → option W.
Variable walk : ExprId → option (list Diagnostic).

Definition report_lambda (mk : list string → Diagnostic) (a : HirArg) : option (list Diagnostic) :=
  o ← lambda_effects pkg walk_effects (arg_value a);
  Some (match o with Some s => report_closure defs declared mk s | None => [] end).

Definition report_stmt (st : HirStmt) : option (list Diagnostic) :=
  match st with SLet _ _ (Some e) _ => walk e | SExpr e => walk e | _ => Some [] end.

(** [walk_block_for_row_violations]; the walk of [walk_user_shape] has the
    same. *)
Definition report_block (bid : BlockId) : option (list Diagnostic) :=
  b ← blocks pkg !! bid;
  reports report_stmt (stmts b) +++ opt_report walk (tail b).

Definition report_args (args : list HirArg) : option (list Diagnostic) := reports (λ a, walk (arg_value a)) args.

Definition is_row_hof (method : string) : bool := bool_decide (is_Some (row_sig_of defs method)).

Definition report_hof (method : string) (a : HirArg) : option (list Diagnostic) :=
  report_lambda (λ names, hof_closure_effects_rejected method names no_span) a.

(** [walk_expr_for_row_violations] *)
Definition row_shape (e : HirExpr) : option (list Diagnostic) :=
  match e with
  | EMethodCall receiver method args =>
      walk receiver +++
      (if is_row_hof method then reports (λ a, report_hof method a +++ walk (arg_value a)) args
       else report_args args)
  | EBlock b | EUnsafe b | ELoop b | ELambda _ _ b => report_block b
  | ETuple xs | EArray xs => reports walk xs
  | EBinary _ a b | EIndex a b | EDeadline a b => walk a +++ walk b
  | EUnary _ e | EBorrow _ e | EMove e | EField e _ | EQuestion e | ESpawn _ e | EDetach e | EJoin e | ERun e
  | EArena _ e => walk e
  | ECall callee args =>
      walk callee +++
      (c ← exprs pkg !! callee;
       match c with
       | EPath (_ :: _ :: _ as segs) =>
           let m := default EmptyString (last segs) in
           if is_row_hof m then reports (report_hof m) args else Some []
       | _ => Some []
       end) +++
      report_args args
  | EIf c t e => walk c +++ report_block t +++ opt_report walk e
  | EIfLet _ s t e => walk s +++ report_block t +++ opt_report walk e
  | EMatch s arms => walk s +++ reports (λ a, walk (arm_body a) +++ opt_report walk (arm_guard a)) arms
  | EFor _ c body | EWhile c body | EWhileLet _ c body => walk c +++ report_block body
  | EReturn o | EBreak o => opt_report walk o
  | EStruct _ fields => reports (λ f, walk f.2) fields
  | EMap entries => reports (λ kv, walk kv.1 +++ walk kv.2) entries
  | ESend t _ args | EAsk t _ args => walk t +++ report_args args
  | _ => Some []
  end.

Variable user_row_poly : UserRowPolyIndex.
Variable enforce_subsumption : bool.

Definition is_lambda (e : HirExpr) : bool := match e with ELambda _ _ _ => true | _ => false end.

(** What a call of a row-polymorphic function of the package reports. *)
Definition report_user_call (name : string) (args : list HirArg) : option (list Diagnostic) :=
  match lookup_def defs name with
  | Some (DFn f) =>
      match (d ← fn_def defs f; h ← fd_hir_fn d; idx_meta user_row_poly !! h) with
      | Some meta =>
          shapes ← mapM (λ a, exprs pkg !! arg_value a) args;
          let lambdas := length (List.filter is_lambda shapes) in
          Some (if (0 <? lambdas)%nat && negb (lambdas =? m_fn_typed_param_count meta)%nat
                then [row_var_arity_mismatch (m_name meta) (m_fn_typed_param_count meta) lambdas (m_span meta)]
                else []) +++
          (if enforce_subsumption then
             reports (report_lambda (λ names, row_var_subsumption_fail (m_name meta) names (m_span meta))) args
           else Some [])
      | None => Some []
      end
  | _ => Some []
  end.

(** [walk_expr_for_user_row_violations] *)
Definition user_shape (e : HirExpr) : option (list Diagnostic) :=
  match e with
  | ECall callee args =>
      walk callee +++
      (c ← exprs pkg !! callee;
       match c with EPath [name] => report_user_call name args | _ => Some [] end) +++
      report_args args
  | EBlock b | ELoop b | ELambda _ _ b => report_block b
  | ETuple xs | EArray xs => reports walk xs
  | EBinary _ a b => walk a +++ walk b
  | EUnary _ e => walk e
  | EIf c t e => walk c +++ report_block t +++ opt_report walk e
  | EMatch s arms => walk s +++ reports (λ a, walk (arm_body a)) arms
  | EReturn (Some e) => walk e
  | EFor _ c body | EWhile c body | EWhileLet _ c body => walk c +++ report_block body
  | EMethodCall receiver _ args => walk receiver +++ report_args args
  | _ => Some []
  end.
End shape.

Fixpoint walk_expr_for_row_violations (n : nat) (eid : ExprId) : option (list Diagnostic) :=
  match n with
  | O => None
  | S n =>
      e ← exprs pkg !! eid;
      row_shape (walk_expr_effects pkg defs known n) (walk_expr_for_row_violations n) e
  end.

Fixpoint walk_expr_for_user_row_violations (n : nat) (idx : UserRowPolyIndex) (enforce : bool) (eid : ExprId)
    : option (list Diagnostic) :=
  match n with
  | O => None
  | S n =>
      e ← exprs pkg !! eid;
      user_shape (walk_expr_effects pkg defs known n) (walk_expr_for_user_row_violations n idx enforce) idx enforce e
  end.
End violations.

(** The ids of declared names; an unknown name is [u32::MAX]. *)
Definition declared_ids (defs : DefTables) (names : list string) : EffectSet :=
  list_to_set ((λ n, default (2 ^ 32 - 1) (effects defs !! n)) <$> names).

Definition row_dispatch_fn (n : nat) (pkg : Package) (defs : DefTables) (known : KnownEffects) (f : HirFn)
    : option (list Diagnostic) :=
  if negb (fn_is_pub f) then Some []
  else opt_report (report_block pkg (walk_expr_for_row_violations pkg defs known (declared_ids defs (fn_effects f)) n)) (fn_body f).

Definition validate_row_dispatch (n : nat) (pkg : Package) (defs : DefTables) (known : KnownEffects)
    : option (list Diagnostic) := reports (row_dispatch_fn n pkg defs known) (fns pkg).

Definition user_row_dispatch_fn (n : nat) (pkg : Package) (defs : DefTables) (known : KnownEffects)
    (idx : UserRowPolyIndex) (f : HirFn) : option (list Diagnostic) :=
  let caller_is_open := match fn_effect_row f with Some (Hir.Open _ _) => true | _ => false end in
  let enforce := fn_is_pub f && negb caller_is_open in
  let declared := if enforce then declared_ids defs (fn_effects f) else ∅ in
  opt_report (report_block pkg (walk_expr_for_user_row_violations pkg defs known declared n idx enforce)) (fn_body f).

Definition validate_user_row_dispatch (n : nat) (pkg : Package) (defs : DefTables) (known : KnownEffects)
    (idx : UserRowPolyIndex) : option (list Diagnostic) := reports (user_row_dispatch_fn n pkg defs known idx) (fns pkg).

(** ** The pass *)

(** The effects the pass attributes, interned in order. *)
Definition intern_known (d : DefTables) : KnownEffects * DefTables :=
  let '(alloc, d) := intern_effect d "alloc" in
  let '(net, d) := intern_effect d "net" in
  let '(fs, d) := intern_effect d "fs" in
  let '(clock, d) := intern_effect d "time" in
  let '(dom, d) := intern_effect d "dom" in
  let '(model, d) := intern_effect d "model" in
  let '(spawn, d) := intern_effect d "spawn" in
  let '(unsafe, d) := intern_effect d "unsafe" in
  (mkKnown alloc net fs clock dom model spawn clock unsafe, d).

(** The initial pass: every body walked once. *)
Fixpoint walk_bodies (n : nat) (pkg : Package) (defs : DefTables) (known : KnownEffects) (idx : UserRowPolyIndex)
    (fs : list (nat * HirFn)) : option (gmap FnId W) :=
  match fs with
  | [] => Some ∅
  | (fid, f) :: fs =>
      rest ← walk_bodies n pkg defs known idx fs;
      match fn_body f with
      | None => Some rest
      | Some b => w ← walk_block_effects pkg (walk_expr_effects pkg defs known n) idx b; Some (<[fid := w]> rest)
      end
  end.

Fixpoint intern_all (d : DefTables) (names : list string) : EffectSet * DefTables :=
  match names with
  | [] => (∅, d)
  | n :: names => let '(e, d) := intern_effect d n in let '(s, d) := intern_all d names in ({[e]} ∪ s, d)
  end.

(** The check of one public function. *)
Definition validate_fn (profile : Profile) (known : KnownEffects) (fn_effects_ : gmap FnId EffectSet)
    (fid : FnId) (f : HirFn) (d : DefTables) : list Diagnostic * DefTables :=
  if negb (fn_is_pub f) then ([], d)
  else match fn_effects_ !! fid with
  | None => ([], d)
  | Some inferred =>
      if decide (inferred = ∅) then ([], d)
      else
        let '(declared, d) := intern_all d (fn_effects f) in
        let missing := effect_names d (inferred ∖ declared) in
        ((match missing with [] => [] | _ => [effect_undeclared (fn_name f) missing (fn_span f)] end)
         ++ (if decide (profile = Core ∧ k_alloc known ∈ inferred) then [alloc_in_core (fn_name f) (fn_span f)] else []), d)
  end.

Fixpoint validate_fns (profile : Profile) (known : KnownEffects) (m : gmap FnId EffectSet)
    (fs : list (nat * HirFn)) (d : DefTables) : list Diagnostic * DefTables :=
  match fs with
  | [] => ([], d)
  | (fid, f) :: fs =>
      let '(ds, d) := validate_fn profile known m fid f d in
      let '(rest, d) := validate_fns profile known m fs d in (ds ++ rest, d)
  end.

(** The effects each function is found to have. *)
Definition infer_effects (n : nat) (pkg : Package) (defs : DefTables) (known : KnownEffects) (idx : UserRowPolyIndex)
    : option (gmap FnId EffectSet) :=
  bodies ← walk_bodies n pkg defs known idx (indexed (fns pkg));
  Some (rounds 32 defs (snd <$> bodies) (fst <$> bodies)).

Record Inferred : Type := mkInferred {
  inf_effects : gmap FnId (list EffectId);
  inf_diagnostics : list Diagnostic;
  inf_defs : DefTables
}.

Definition infer_and_validate (n : nat) (pkg : Package) (defs : DefTables) (profile : Profile) : option Inferred :=
  let '(known, defs) := intern_known defs in
  idx ← build_user_row_poly_index pkg;
  m ← infer_effects n pkg defs known idx.1;
  d1 ← validate_row_dispatch n pkg defs known;
  d2 ← validate_user_row_dispatch n pkg defs known idx.1;
  let '(d3, defs) := validate_fns profile known m (indexed (fns pkg)) defs in
  Some (mkInferred ((λ s, merge_sort Z.le (elements s)) <$> m) (idx.2 ++ d1 ++ d2 ++ d3) defs).
