(* ===== verification/EffectSound.v ===== *)
(** * The effect walk is exact: lemmas

    [Inside node e]: the walk of [node] comes to the expression [e].
    [own_effects] and [own_callees] are what one expression adds by itself;
    the walk adds exactly what the expressions it comes to add, and the
    row-polymorphic dispatch nothing but the effects of its signature. *)

From stdpp Require Import base list strings numbers gmap sets.
From S2P Require Import Prelude Semver TyArena Hir BorrowState EffectRow EffectInfer.

Local Open Scope Z_scope.
Notation length := List.length (only parsing).

Inductive Node := NExpr (e : ExprId) | NBlock (b : BlockId).

Definition opt_node (o : option ExprId) : list Node := match o with Some e => [NExpr e] | None => [] end.
Definition arg_nodes (args : list HirArg) : list Node := (λ a, NExpr (arg_value a)) <$> args.
Definition arm_nodes (a : HirMatchArm) : list Node := NExpr (arm_body a) :: opt_node (arm_guard a).
Definition field_nodes {A} (fs : list (A * ExprId)) : list Node := (λ f, NExpr f.2) <$> fs.

(** The nodes the walk goes on to. *)
Definition children (e : HirExpr) : list Node :=
  match e with
  | ELiteral _ | EPath _ | EPathGeneric _ _ | EError | EContinue | EHtmlTemplate _ => []
  | EBlock b | ELoop b | EUnsafe b | ETaskScope _ b | ELambda _ _ b => [NBlock b]
  | ETuple xs | EArray xs => NExpr <$> xs
  | EBinary _ a b | EIndex a b | EDeadline a b => [NExpr a; NExpr b]
  | EUnary _ e | EBorrow _ e | EMove e | EQuestion e | ECast e _ | EField e _ | ESpawn _ e | EDetach e
  | EJoin e | ERun e | EArena _ e => [NExpr e]
  | ECall e args | EMethodCall e _ args | ESend e _ args | EAsk e _ args => NExpr e :: arg_nodes args
  | EIf c t e | EIfLet _ c t e => NExpr c :: NBlock t :: opt_node e
  | EMatch s arms => NExpr s :: (arms ≫= arm_nodes)
  | EFor _ c b | EWhile c b | EWhileLet _ c b => [NExpr c; NBlock b]
  | EReturn o | EBreak o => opt_node o
  | EStruct _ fs => field_nodes fs
  | EMap entries => entries ≫= λ kv, [NExpr kv.1; NExpr kv.2]
  | EBudget fs body => field_nodes fs ++ [NExpr body]
  | ESandbox _ fs body => field_nodes fs ++ [NBlock body]
  end.

Definition stmt_nodes (st : HirStmt) : list Node :=
  match st with SLet _ _ init _ => opt_node init | SExpr e => [NExpr e] end.

Definition block_nodes (b : HirBlock) : list Node := (stmts b ≫= stmt_nodes) ++ opt_node (tail b).

(** The effects a signature adds by itself. *)
Definition spec_concrete (s : RowSpec) : EffectSet :=
  match s with Concrete r => EffectRow.concrete r | VarPlus _ eff => eff | _ => ∅ end.

Section own.
Variable pkg : Package.
Variable defs : DefTables.
Variable known : KnownEffects.

Definition sig_effects (method : string) : EffectSet :=
  match row_sig_of defs method with Some sig => remap_alloc known (spec_concrete (return_row sig)) | None => ∅ end.

Definition cap_set (name : string) : EffectSet :=
  match cap_effect known name with Some e => {[e]} | None => ∅ end.

Definition alloc_set (method : string) : EffectSet := if alloc_method method then {[k_alloc known]} else ∅.

Definition path_effects (callee : HirExpr) : EffectSet :=
  match callee with
  | EPath (first :: _ :: _ as segs) =>
      let m := default EmptyString (last segs) in cap_set first ∪ sig_effects m ∪ alloc_set m
  | _ => ∅
  end.

Definition receiver_effects (receiver : HirExpr) : EffectSet :=
  match receiver with EPath (first :: _) => cap_set first | _ => ∅ end.

Definition own_effects (e : HirExpr) : EffectSet :=
  match e with
  | ECall callee _ => default ∅ (path_effects <$> exprs pkg !! callee)
  | EMethodCall r m _ => default ∅ (receiver_effects <$> exprs pkg !! r) ∪ sig_effects m ∪ alloc_set m
  | EMap _ | EHtmlTemplate _ | EArena _ _ => {[k_alloc known]}
  | ESend _ _ _ | EAsk _ _ _ | ESpawn _ _ | EDetach _ => {[k_spawn known]}
  | EDeadline _ _ => {[k_time known]}
  | EUnsafe _ => {[k_unsafe known]}
  | _ => ∅
  end.

Definition path_callees (callee : HirExpr) : list FnDefId :=
  match callee with
  | EPath [name] => match lookup_def defs name with Some (DFn f) => [f] | _ => [] end
  | _ => []
  end.

Definition own_callees (e : HirExpr) : list FnDefId :=
  match e with ECall callee _ => default [] (path_callees <$> exprs pkg !! callee) | _ => [] end.

Inductive Inside : Node → ExprId → Prop :=
  | Inside_here e : Inside (NExpr e) e
  | Inside_expr e x c e' : exprs pkg !! e = Some x → c ∈ children x → Inside c e' → Inside (NExpr e) e'
  | Inside_block b blk c e' : blocks pkg !! b = Some blk → c ∈ block_nodes blk → Inside c e' → Inside (NBlock b) e'.

(** An effect, a callee, of the expressions inside a node. *)
Definition EffIn (c : Node) (x : EffectId) : Prop :=
  ∃ e y, Inside c e ∧ exprs pkg !! e = Some y ∧ x ∈ own_effects y.
Definition CallIn (c : Node) (f : FnDefId) : Prop :=
  ∃ e y, Inside c e ∧ exprs pkg !! e = Some y ∧ f ∈ own_callees y.

Definition AnyEff (cs : list Node) (x : EffectId) : Prop := ∃ c, c ∈ cs ∧ EffIn c x.
Definition AnyCall (cs : list Node) (f : FnDefId) : Prop := ∃ c, c ∈ cs ∧ CallIn c f.

Lemma EffIn_expr e y x : exprs pkg !! e = Some y → EffIn (NExpr e) x ↔ x ∈ own_effects y ∨ AnyEff (children y) x.
Proof.
  intros Hy. split.
  - intros (e' & z & Hin & Hz & Hx). inversion Hin; simplify_eq; [by left|]. right. eexists. split; [done|]. by exists e', z.
  - intros [Hx|(c & Hc & e' & z & Hin & Hz & Hx)]; [exists e, y; split_and!; [constructor|done|done]|].
    exists e', z. split_and!; [by econstructor|done|done].
Qed.

Lemma CallIn_expr e y f : exprs pkg !! e = Some y → CallIn (NExpr e) f ↔ f ∈ own_callees y ∨ AnyCall (children y) f.
Proof.
  intros Hy. split.
  - intros (e' & z & Hin & Hz & Hx). inversion Hin; simplify_eq; [by left|]. right. eexists. split; [done|]. by exists e', z.
  - intros [Hx|(c & Hc & e' & z & Hin & Hz & Hx)]; [exists e, y; split_and!; [constructor|done|done]|].
    exists e', z. split_and!; [by econstructor|done|done].
Qed.

Lemma EffIn_block b blk x : blocks pkg !! b = Some blk → EffIn (NBlock b) x ↔ AnyEff (block_nodes blk) x.
Proof.
  intros Hb. split.
  - intros (e' & z & Hin & Hz & Hx). inversion Hin; simplify_eq. eexists. split; [done|]. by exists e', z.
  - intros (c & Hc & e' & z & Hin & Hz & Hx). exists e', z. split_and!; [by econstructor|done|done].
Qed.

Lemma CallIn_block b blk x : blocks pkg !! b = Some blk → CallIn (NBlock b) x ↔ AnyCall (block_nodes blk) x.
Proof.
  intros Hb. split.
  - intros (e' & z & Hin & Hz & Hx). inversion Hin; simplify_eq. eexists. split; [done|]. by exists e', z.
  - intros (c & Hc & e' & z & Hin & Hz & Hx). exists e', z. split_and!; [by econstructor|done|done].
Qed.

Lemma AnyEff_nil x : AnyEff [] x ↔ False.
Proof. split; [by intros (c & ?%elem_of_nil & _)|done]. Qed.
Lemma AnyEff_cons c cs x : AnyEff (c :: cs) x ↔ EffIn c x ∨ AnyEff cs x.
Proof. unfold AnyEff. setoid_rewrite elem_of_cons. naive_solver. Qed.
Lemma AnyEff_app cs ds x : AnyEff (cs ++ ds) x ↔ AnyEff cs x ∨ AnyEff ds x.
Proof. unfold AnyEff. setoid_rewrite elem_of_app. naive_solver. Qed.
Lemma AnyEff_bind {A} (f : A → list Node) xs x : AnyEff (xs ≫= f) x ↔ ∃ a, a ∈ xs ∧ AnyEff (f a) x.
Proof. unfold AnyEff. setoid_rewrite list_elem_of_bind. naive_solver. Qed.
Lemma AnyEff_fmap {A} (f : A → Node) xs x : AnyEff (f <$> xs) x ↔ ∃ a, a ∈ xs ∧ EffIn (f a) x.
Proof. unfold AnyEff. setoid_rewrite list_elem_of_fmap. naive_solver. Qed.
Lemma AnyCall_nil x : AnyCall [] x ↔ False.
Proof. split; [by intros (c & ?%elem_of_nil & _)|done]. Qed.
Lemma AnyCall_cons c cs x : AnyCall (c :: cs) x ↔ CallIn c x ∨ AnyCall cs x.
Proof. unfold AnyCall. setoid_rewrite elem_of_cons. naive_solver. Qed.
Lemma AnyCall_app cs ds x : AnyCall (cs ++ ds) x ↔ AnyCall cs x ∨ AnyCall ds x.
Proof. unfold AnyCall. setoid_rewrite elem_of_app. naive_solver. Qed.
Lemma AnyCall_bind {A} (f : A → list Node) xs x : AnyCall (xs ≫= f) x ↔ ∃ a, a ∈ xs ∧ AnyCall (f a) x.
Proof. unfold AnyCall. setoid_rewrite list_elem_of_bind. naive_solver. Qed.
Lemma AnyCall_fmap {A} (f : A → Node) xs x : AnyCall (f <$> xs) x ↔ ∃ a, a ∈ xs ∧ CallIn (f a) x.
Proof. unfold AnyCall. setoid_rewrite list_elem_of_fmap. naive_solver. Qed.

(** ** What a walk means *)

(** The effects of a walk lie between [L] and [U], its callees are [Q]. *)
Definition Means (o : option W) (L U : EffectId → Prop) (Q : FnDefId → Prop) : Prop :=
  ∀ w, o = Some w → (∀ x, L x → x ∈ w.1) ∧ (∀ x, x ∈ w.1 → U x) ∧ (∀ f, f ∈ w.2 ↔ Q f).

Definition none {A} (_ : A) : Prop := False.
Definition or {A} (P Q : A → Prop) (a : A) : Prop := P a ∨ Q a.

Lemma Means_weaken o L U Q L' U' Q' :
  Means o L U Q → (∀ x, L' x → L x) → (∀ x, U x → U' x) → (∀ f, Q f ↔ Q' f) → Means o L' U' Q'.
Proof. intros H HL HU HQ w Hw. destruct (H w Hw) as (H1 & H2 & H3). split_and!; [auto|auto|]. intros f. by rewrite H3. Qed.

Lemma Means_done : Means done_ none none none.
Proof. intros w [= <-]. split_and!; [done|by intros x ?%elem_of_empty|]. intros f. cbn. by rewrite elem_of_nil. Qed.

Lemma Means_effect e : Means (insert_effect e) (λ x, x = e) (λ x, x = e) none.
Proof. intros w [= <-]. cbn. split_and!; [set_solver|set_solver|]. intros f. by rewrite elem_of_nil. Qed.

Lemma Means_callee f : Means (push_callee f) none none (λ g, g = f).
Proof. intros w [= <-]. cbn. split_and!; [done|set_solver|]. intros g. by rewrite list_elem_of_singleton. Qed.

Lemma Means_then a b L U Q L' U' Q' :
  Means a L U Q → Means b L' U' Q' → Means (a ;;; b) (or L L') (or U U') (or Q Q').
Proof.
  intros Ha Hb w. unfold then_. destruct a as [x|]; [|done]. destruct b as [y|]; [|done]. intros [= <-].
  destruct (Ha x eq_refl) as (A1 & A2 & A3). destruct (Hb y eq_refl) as (B1 & B2 & B3). unfold or. cbn.
  split_and!; [set_solver|set_solver|]. intros f. by rewrite elem_of_app, A3, B3.
Qed.

Lemma Means_each {A} (f : A → option W) xs L U Q :
  (∀ a, a ∈ xs → Means (f a) (L a) (U a) (Q a)) →
  Means (each f xs) (λ x, ∃ a, a ∈ xs ∧ L a x) (λ x, ∃ a, a ∈ xs ∧ U a x) (λ g, ∃ a, a ∈ xs ∧ Q a g).
Proof.
  induction xs as [|a xs IH]; intros H; cbn [each].
  - eapply Means_weaken; [apply Means_done|..]; unfold none.
    + by intros x (a & ?%elem_of_nil & _).
    + done.
    + intros g. split; [done|]. by intros (a & ?%elem_of_nil & _).
  - assert (∀ (P : A → Prop), (∃ b, b ∈ a :: xs ∧ P b) ↔ P a ∨ ∃ b, b ∈ xs ∧ P b) as E.
    { intros P. setoid_rewrite elem_of_cons. naive_solver. }
    eapply Means_weaken; [apply Means_then; [apply H; left|apply IH; intros; apply H; by right]|..]; unfold or; intros x;
      by rewrite E.
Qed.

Lemma Means_opt {A} (f : A → option W) o L U Q :
  (∀ a, o = Some a → Means (f a) (L a) (U a) (Q a)) →
  Means (opt_walk f o) (λ x, ∃ a, o = Some a ∧ L a x) (λ x, ∃ a, o = Some a ∧ U a x) (λ g, ∃ a, o = Some a ∧ Q a g).
Proof.
  intros H. destruct o as [a|]; cbn [opt_walk].
  - eapply Means_weaken; [by apply H|..]; naive_solver.
  - eapply Means_weaken; [apply Means_done|..]; unfold none; naive_solver.
Qed.

(** ** The dispatch of a row-polymorphic call *)

(** The bindings a dispatch makes: closed rows, of effects in [A]. *)
Definition closed_in (A : EffectSet) (σ : RowSubst) : Prop :=
  ∀ v r, bindings σ !! v = Some r → ∃ t, r = EffectRow.Closed t ∧ t ⊆ A.

Lemma resolve_closed_in A σ r :
  closed_in A σ → ∃ r', resolve σ r = Some r' ∧ EffectRow.concrete r ⊆ EffectRow.concrete r'
    ∧ EffectRow.concrete r' ⊆ EffectRow.concrete r ∪ A
    ∧ (∀ v s, r' = EffectRow.Open s v → bindings σ !! v = None).
Proof.
  intros H. destruct r as [s|s v]; [exists (EffectRow.Closed s); split_and!; [done|done|simpl; set_solver|done]|].
  unfold resolve. cbn [resolve_loop]. rewrite decide_False by set_solver.
  destruct (bindings σ !! v) as [r|] eqn:E.
  - destruct (H v r E) as (t & -> & Ht). eexists; split_and!; [done|simpl; set_solver|simpl; set_solver|done].
  - eexists; split_and!; [done|simpl; set_solver|simpl; set_solver|]. by intros ? ? [= _ <-].
Qed.

Lemma unify_closed_in A σ p C :
  closed_in A σ → C ⊆ A → ∃ σ' r, unify_rows σ p (EffectRow.Closed C) = Some (σ', r) ∧ closed_in A σ'.
Proof.
  intros H HC. destruct (resolve_closed_in A σ p H) as (p' & Hp & _ & _ & Hf). unfold unify_rows. rewrite Hp. cbn [mbind option_bind resolve].
  destruct p' as [a|a v]; [by eexists _, _|]. case_decide as E; [|by eexists _, _].
  rewrite bind_closed. eexists _, _; split; [done|]. intros w r Hw. cbn in Hw.
  apply lookup_insert_Some in Hw as [[<- <-]|[_ Hw]]; [|by eapply H]. eexists; split; [done|]. set_solver.
Qed.

Lemma unify_params_closed_in A σ ps args :
  closed_in A σ → (∀ C, Some C ∈ args → ∃ t, C = EffectRow.Closed t ∧ t ⊆ A) →
  ∃ σ', unify_params σ ps args = Some σ' ∧ closed_in A σ'.
Proof.
  revert σ args. induction ps as [|p ps IH]; intros σ args H Ha; [by eexists|].
  destruct args as [|a args]; [by eexists|]. simpl.
  assert (∀ C, Some C ∈ args → ∃ t, C = EffectRow.Closed t ∧ t ⊆ A) as Ha' by (intros C HC; apply Ha; by right).
  destruct p as [p|], a as [a|]; try by apply IH.
  destruct (Ha a ltac:(left)) as (t & -> & Ht). destruct (unify_closed_in A σ p t H Ht) as (σ' & r & -> & H').
  cbn [mbind option_bind fst]. by apply IH.
Qed.

Lemma fresh_vars_closed_in A n σ vs σ' : fresh_vars n σ = Some (vs, σ') → closed_in A σ → closed_in A σ'.
Proof.
  revert σ vs. induction n as [|n IH]; intros σ vs; [by intros [= _ <-]|]. simpl. unfold fresh.
  destruct (_ <? _); [|done]. cbn [mbind option_bind fst snd]. destruct (fresh_vars n _) as [[ws τ]|] eqn:E; [|done].
  intros [= _ <-] H. eapply IH; [exact E|]. exact H.
Qed.

Lemma materialize_concrete vs spec o :
  materialize vs spec = Some o → EffectRow.concrete (default empty_row o) = spec_concrete spec.
Proof.
  destruct spec as [|r|i|i eff]; simpl; [by intros [= <-]..| |];
    (destruct (vs !! _); [|done]); by intros [= <-].
Qed.

Lemma elem_of_remap s x :
  x ∈ remap_alloc known s ↔ ∃ e, e ∈ s ∧ x = (if bool_decide (e = ALLOC_PLACEHOLDER) then k_alloc known else e).
Proof. unfold remap_alloc. rewrite elem_of_map. naive_solver. Qed.

(** The effects of a dispatch lie between those of the signature and those
    with the closures'. *)
Lemma row_effects_between walk sig args s A :
  row_effects pkg known walk sig args = Some s →
  (∀ a r, a ∈ args → compute_arg_effect_row pkg walk (arg_value a) = Some (Some r) → ∃ t, r = EffectRow.Closed t ∧ t ⊆ A) →
  remap_alloc known (spec_concrete (return_row sig)) ⊆ s
  ∧ s ⊆ remap_alloc known (spec_concrete (return_row sig)) ∪ remap_alloc known A.
Proof.
  unfold row_effects. destruct (mapM _ args) as [rows|] eqn:Er; [|done]. cbn [mbind option_bind].
  destruct (instantiate_row_sig sig new_subst) as [[[[ps ret] fs] σ]|] eqn:Ei; [|done]. cbn [mbind option_bind].
  intros H Ha. assert (∀ C, Some C ∈ rows → ∃ t, C = EffectRow.Closed t ∧ t ⊆ A) as Hrows.
  { intros C HC. apply mapM_Some_1 in Er. apply list_elem_of_lookup_1 in HC as [i Hi].
  destruct (Forall2_lookup_r _ _ _ _ _ Er Hi) as (a & Hin & E). eapply Ha; [by eapply list_elem_of_lookup_2|done]. }
  unfold instantiate_row_sig in Ei. destruct (fresh_vars _ _) as [[vs τ]|] eqn:Ef; [|done]. cbn [mbind option_bind fst snd] in Ei.
  destruct (mapM _ (param_rows sig)) as [qs|]; [|done]. cbn [mbind option_bind] in Ei.
  destruct (materialize vs (return_row sig)) as [o|] eqn:Em; [|done]. cbn [mbind option_bind] in Ei.
  injection Ei as <- <- <- <-. pose proof (materialize_concrete _ _ _ Em) as Hc.
  destruct (unify_params_closed_in A τ (drop 1 qs) rows) as (σ' & Hu & Hin); [|done|].
  { eapply fresh_vars_closed_in; [exact Ef|]. intros v r Hv. exfalso. exact (lookup_empty_Some _ _ Hv). }
  rewrite Hu in H. cbn [mbind option_bind] in H.
  destruct (resolve_closed_in A σ' (default empty_row o) Hin) as (r' & Hr & H1 & H2 & _). rewrite Hr in H. cbn [mbind option_bind] in H.
  injection H as <-. rewrite Hc in H1, H2. split; intros x; rewrite ?elem_of_union, !elem_of_remap; [set_solver|].
  intros (e & He & ->). apply H2, elem_of_union in He as [He|He]; [left|right]; by exists e.
Qed.

(** ** The walk *)

(** The interned ids are far below the placeholder. *)
Definition known_ok : Prop :=
  ∀ e, e ∈ [k_alloc known; k_net known; k_fs known; k_clock known; k_dom known; k_model known; k_spawn known;
            k_time known; k_unsafe known] → e ≠ ALLOC_PLACEHOLDER.

Hypothesis Hknown : known_ok.

Lemma cap_effect_ok s e : cap_effect known s = Some e → e ≠ ALLOC_PLACEHOLDER.
Proof.
  unfold cap_effect. intros H. apply Hknown.
  repeat (destruct (String.eqb _ _) in H; [injection H as <-; set_solver|]). done.
Qed.

Lemma remap_ok s e : e ∈ remap_alloc known s → e ≠ ALLOC_PLACEHOLDER.
Proof. rewrite elem_of_remap. intros (x & _ & ->). case_bool_decide; [apply Hknown; left|done]. Qed.

Lemma sig_effects_ok m e : e ∈ sig_effects m → e ≠ ALLOC_PLACEHOLDER.
Proof. unfold sig_effects. destruct (row_sig_of defs m); [apply remap_ok|by intros ?%elem_of_empty]. Qed.

Lemma cap_set_ok s e : e ∈ cap_set s → e ≠ ALLOC_PLACEHOLDER.
Proof.
  unfold cap_set. destruct (cap_effect known s) eqn:E; [|by intros ?%elem_of_empty].
  intros ->%elem_of_singleton. by eapply cap_effect_ok.
Qed.

Lemma alloc_set_ok s e : e ∈ alloc_set s → e ≠ ALLOC_PLACEHOLDER.
Proof. unfold alloc_set. destruct (alloc_method s); [|by intros ?%elem_of_empty]. intros ->%elem_of_singleton. apply Hknown. left. Qed.

Lemma own_effects_ok y e : e ∈ own_effects y → e ≠ ALLOC_PLACEHOLDER.
Proof.
  assert (∀ k, k ∈ [k_alloc known; k_net known; k_fs known; k_clock known; k_dom known; k_model known; k_spawn known;
            k_time known; k_unsafe known] → e ∈ ({[k]} : gset Z) → e ≠ ALLOC_PLACEHOLDER) as Hk
    by (intros k Hk ->%elem_of_singleton; by apply Hknown).
  destruct y; cbn [own_effects]; try (by intros ?%elem_of_empty); try (apply Hk; set_solver).
  - destruct (exprs pkg !! callee) as [c|]; cbn; [|by intros ?%elem_of_empty]. unfold path_effects.
    destruct c; try (by intros ?%elem_of_empty). destruct segs as [|? [|? ?]]; try (by intros ?%elem_of_empty).
    intros [[H|H]%elem_of_union|H]%elem_of_union; [by eapply cap_set_ok|by eapply sig_effects_ok|by eapply alloc_set_ok].
  - intros [[H|H]%elem_of_union|H]%elem_of_union; [|by eapply sig_effects_ok|by eapply alloc_set_ok].
    destruct (exprs pkg !! receiver) as [c|]; cbn in H; [|by apply elem_of_empty in H]. unfold receiver_effects in H.
    destruct c; try (by apply elem_of_empty in H). destruct segs; [by apply elem_of_empty in H|]. by eapply cap_set_ok.
Qed.

Lemma EffIn_ok c x : EffIn c x → x ≠ ALLOC_PLACEHOLDER.
Proof. intros (e & y & _ & _ & H). by eapply own_effects_ok. Qed.

(** The recursive call is exact. *)
Definition exact (walk : UserRowPolyIndex → ExprId → option W) : Prop :=
  ∀ idx e, Means (walk idx e) (EffIn (NExpr e)) (EffIn (NExpr e)) (CallIn (NExpr e)).

Section shape.
Variable walk : UserRowPolyIndex → ExprId → option W.
Hypothesis Hwalk : exact walk.

Lemma Means_bind {A} (o : option A) (f : A → option W) L U Q :
  (∀ a, o = Some a → Means (f a) L U Q) → Means (o ≫= f) L U Q.
Proof. destruct o as [a|]; [intros H; by apply H|done]. Qed.

Lemma Means_opt_walk idx o :
  Means (opt_walk (walk idx) o) (AnyEff (opt_node o)) (AnyEff (opt_node o)) (AnyCall (opt_node o)).
Proof.
  destruct o as [e|]; cbn [opt_walk opt_node].
  - eapply Means_weaken; [apply Hwalk|..]; intros x; rewrite ?AnyEff_cons, ?AnyEff_nil, ?AnyCall_cons, ?AnyCall_nil; tauto.
  - eapply Means_weaken; [apply Means_done|..]; intros x; rewrite ?AnyEff_nil, ?AnyCall_nil; done.
Qed.

Lemma Means_block idx b :
  Means (walk_block_effects pkg walk idx b) (EffIn (NBlock b)) (EffIn (NBlock b)) (CallIn (NBlock b)).
Proof.
  apply Means_bind. intros blk Hb.
  eapply Means_weaken; [apply Means_then; [|apply Means_opt_walk]|..].
  { apply (Means_each _ _ (λ st, AnyEff (stmt_nodes st)) (λ st, AnyEff (stmt_nodes st)) (λ st, AnyCall (stmt_nodes st))).
    intros [pat ty init mu|e] _; cbn [walk_stmt_effects stmt_nodes]; [apply Means_opt_walk|].
    apply (Means_opt_walk idx (Some e)). }
  all: intros x; unfold or; rewrite ?(EffIn_block _ _ _ Hb), ?(CallIn_block _ _ _ Hb); unfold block_nodes;
    by rewrite ?AnyEff_app, ?AnyEff_bind, ?AnyCall_app, ?AnyCall_bind.
Qed.

Lemma lambda_effects_spec a o x :
  lambda_effects pkg walk a = Some o → match o with Some s => x ∈ s ↔ EffIn (NExpr a) x | None => True end.
Proof.
  unfold lambda_effects. destruct (exprs pkg !! a) as [y|] eqn:Ey; [|done]. cbn [mbind option_bind].
  destruct y; try (by intros [= <-]). destruct (walk_block_effects pkg walk empty_idx body) as [w|] eqn:Ew; [|done].
  intros [= <-]. destruct (Means_block _ _ _ Ew) as (H1 & H2 & _). rewrite (EffIn_expr _ _ _ Ey). cbn [own_effects children].
  rewrite AnyEff_cons, AnyEff_nil, elem_of_empty. split; [intros H%H2; tauto|]. intros [?|[?|?]]; [done|by apply H1|done].
Qed.

(** The effects of the closures among the arguments. *)
Definition closure_set (args : list HirArg) : EffectSet :=
  ⋃ omap (λ a, match lambda_effects pkg walk (arg_value a) with Some (Some s) => Some s | _ => None end) args.

Lemma elem_of_closure_set args x : x ∈ closure_set args → AnyEff (arg_nodes args) x.
Proof.
  unfold closure_set. rewrite elem_of_union_list. intros (s & Hs & Hx). apply list_elem_of_omap in Hs as (a & Ha & E).
  destruct (lambda_effects pkg walk (arg_value a)) as [[t|]|] eqn:El; [|done..]. injection E as ->.
  unfold arg_nodes. rewrite AnyEff_fmap. exists a. split; [done|]. by apply (lambda_effects_spec _ _ x El).
Qed.

Lemma Means_dispatch m args :
  Means (dispatch_row_poly_call pkg defs known walk m args) (λ x, x ∈ sig_effects m)
    (λ x, x ∈ sig_effects m ∨ AnyEff (arg_nodes args) x) none.
Proof.
  unfold dispatch_row_poly_call, sig_effects. destruct (row_sig_of defs m) as [sig|].
  2:{ eapply Means_weaken; [apply Means_done|..]; [by intros x ?%elem_of_empty|by left|done]. }
  apply Means_bind. intros s Hs w [= <-]. destruct (row_effects_between walk sig args s (closure_set args) Hs) as [H1 H2].
  { intros a r Ha E. unfold compute_arg_effect_row in E. destruct (lambda_effects pkg walk (arg_value a)) as [o|] eqn:El; [|done].
    destruct o as [t|]; [|done]. injection E as <-. exists t. split; [done|]. intros x Hx. apply elem_of_union_list. exists t.
    split; [|done]. apply list_elem_of_omap. exists a. by rewrite El. }
  split_and!; [exact H1| |intros f; by rewrite elem_of_nil]. cbn. intros x Hx. apply H2, elem_of_union in Hx as [Hx|Hx]; [by left|right].
  apply elem_of_remap in Hx as (e & He & ->). apply elem_of_closure_set in He.
  rewrite bool_decide_eq_false_2; [done|]. destruct He as (c & _ & He). by eapply EffIn_ok.
Qed.

Lemma Means_args idx args :
  Means (walk_args walk idx args) (AnyEff (arg_nodes args)) (AnyEff (arg_nodes args)) (AnyCall (arg_nodes args)).
Proof.
  eapply Means_weaken; [apply Means_each; intros a _; apply Hwalk|..]; intros x; unfold arg_nodes;
    by rewrite ?AnyEff_fmap, ?AnyCall_fmap.
Qed.

Lemma Means_fields {A} idx (fs : list (A * ExprId)) :
  Means (each (λ f, walk idx f.2) fs) (AnyEff (field_nodes fs)) (AnyEff (field_nodes fs)) (AnyCall (field_nodes fs)).
Proof.
  eapply Means_weaken; [apply Means_each; intros a _; apply Hwalk|..]; intros x; unfold field_nodes;
    by rewrite ?AnyEff_fmap, ?AnyCall_fmap.
Qed.

Lemma Means_exprs idx xs :
  Means (each (walk idx) xs) (AnyEff (NExpr <$> xs)) (AnyEff (NExpr <$> xs)) (AnyCall (NExpr <$> xs)).
Proof.
  eapply Means_weaken; [apply Means_each; intros a _; apply Hwalk|..]; intros x; by rewrite ?AnyEff_fmap, ?AnyCall_fmap.
Qed.

Lemma Means_arms idx arms :
  Means (each (walk_arm_effects walk idx) arms) (AnyEff (arms ≫= arm_nodes)) (AnyEff (arms ≫= arm_nodes))
    (AnyCall (arms ≫= arm_nodes)).
Proof.
  eapply Means_weaken; [apply Means_each; intros a _; apply Means_then; [apply Hwalk|apply Means_opt_walk]|..];
    intros x; rewrite ?AnyEff_bind, ?AnyCall_bind; unfold or, arm_nodes; setoid_rewrite AnyEff_cons || setoid_rewrite AnyCall_cons; done.
Qed.

Lemma Means_entries idx (entries : list (ExprId * ExprId)) :
  Means (each (λ kv, walk idx kv.1 ;;; walk idx kv.2) entries) (AnyEff (entries ≫= λ kv, [NExpr kv.1; NExpr kv.2]))
    (AnyEff (entries ≫= λ kv, [NExpr kv.1; NExpr kv.2])) (AnyCall (entries ≫= λ kv, [NExpr kv.1; NExpr kv.2])).
Proof.
  eapply Means_weaken; [apply Means_each; intros a _; apply Means_then; apply Hwalk|..]; intros x;
    rewrite ?AnyEff_bind, ?AnyCall_bind; unfold or;
    [setoid_rewrite AnyEff_cons; setoid_rewrite AnyEff_cons; setoid_rewrite AnyEff_nil
    |setoid_rewrite AnyEff_cons; setoid_rewrite AnyEff_cons; setoid_rewrite AnyEff_nil
    |setoid_rewrite AnyCall_cons; setoid_rewrite AnyCall_cons; setoid_rewrite AnyCall_nil]; naive_solver.
Qed.

Lemma Means_cap s : Means (opt_walk insert_effect (cap_effect known s)) (λ x, x ∈ cap_set s) (λ x, x ∈ cap_set s) none.
Proof.
  unfold cap_set. destruct (cap_effect known s); cbn [opt_walk].
  - eapply Means_weaken; [apply Means_effect|..]; intros x; rewrite ?elem_of_singleton; done.
  - eapply Means_weaken; [apply Means_done|..]; intros x; rewrite ?elem_of_empty; done.
Qed.

Lemma Means_if_alloc m : Means (if_alloc known m) (λ x, x ∈ alloc_set m) (λ x, x ∈ alloc_set m) none.
Proof.
  unfold if_alloc, alloc_set. destruct (alloc_method m).
  - eapply Means_weaken; [apply Means_effect|..]; intros x; rewrite ?elem_of_singleton; done.
  - eapply Means_weaken; [apply Means_done|..]; intros x; rewrite ?elem_of_empty; done.
Qed.

(** The call of a row-polymorphic function adds what its closures do. *)
Lemma Means_fn_call idx nm args :
  Means (walk_fn_call pkg defs walk idx nm args) none (AnyEff (arg_nodes args)) (λ g, g ∈ path_callees (EPath [nm])).
Proof.
  unfold walk_fn_call, path_callees. destruct (lookup_def defs nm) as [[| f| | | |]|];
    try (eapply Means_weaken; [apply Means_done|..]; intros x; rewrite ?elem_of_nil; done).
  eapply Means_weaken; [apply Means_then; [apply Means_callee|]|..].
  - instantiate (1 := none). instantiate (1 := AnyEff (arg_nodes args)). instantiate (1 := none).
    destruct (_ ≫= _) as [h|]; [|eapply Means_weaken; [apply Means_done|..]; done].
    case_decide; [|eapply Means_weaken; [apply Means_done|..]; done].
    eapply Means_weaken; [apply (Means_each _ _ (λ _, none) (λ a, EffIn (NExpr (arg_value a))) (λ _, none))|..].
    + intros a _. apply Means_bind. intros o Ho w [= <-]. cbn. split_and!; [done| |intros g; by rewrite elem_of_nil].
      intros x Hx. pose proof (lambda_effects_spec _ _ x Ho) as E. destruct o as [s|]; [by apply E|by apply elem_of_empty in Hx].
    + done.
    + intros x. unfold arg_nodes. by rewrite AnyEff_fmap.
    + intros g. split; [by intros (a & _ & ?)|done].
  - intros x. unfold or, none. tauto.
  - intros x. unfold or, none. tauto.
  - intros g. unfold or, none. rewrite list_elem_of_singleton. tauto.
Qed.

Lemma Means_callee_path idx c args :
  Means (walk_callee_path pkg defs known walk idx c args) (λ x, x ∈ path_effects c)
    (λ x, x ∈ path_effects c ∨ AnyEff (arg_nodes args) x) (λ g, g ∈ path_callees c).
Proof.
  assert (Means done_ (λ x : EffectId, x ∈ (∅ : EffectSet)) (λ x, x ∈ (∅ : EffectSet) ∨ AnyEff (arg_nodes args) x) (λ g : FnDefId, g ∈ [])) as H0.
  { eapply Means_weaken; [apply Means_done|..]; intros x; rewrite ?elem_of_empty, ?elem_of_nil; done. }
  destruct c; try exact H0. destruct segs as [|nm [|s2 segs]]; [exact H0| |].
  - eapply Means_weaken; [apply Means_fn_call|..]; cbn [path_effects]; [by intros x ?%elem_of_empty|by right|done].
  - unfold walk_callee_path, path_effects, path_callees.
    eapply Means_weaken; [apply Means_then; [apply Means_cap|apply Means_then; [apply Means_dispatch|apply Means_if_alloc]]|..];
      intros x; unfold or, none; rewrite ?elem_of_union, ?elem_of_nil; tauto.
Qed.

Lemma Means_receiver_path r m :
  Means (walk_receiver_path known r m) (λ x, x ∈ receiver_effects r ∨ x ∈ alloc_set m)
    (λ x, x ∈ receiver_effects r ∨ x ∈ alloc_set m) none.
Proof.
  unfold walk_receiver_path.
  eapply Means_weaken; [apply Means_then; [|apply Means_if_alloc]|..].
  - instantiate (1 := none). instantiate (1 := λ x, x ∈ receiver_effects r). instantiate (1 := λ x, x ∈ receiver_effects r).
    assert (Means done_ (λ x : EffectId, x ∈ (∅ : EffectSet)) (λ x, x ∈ (∅ : EffectSet)) none) as H0.
    { eapply Means_weaken; [apply Means_done|..]; intros x; rewrite ?elem_of_empty; done. }
    destruct r; try exact H0. destruct segs; [exact H0|apply Means_cap].
  - done.
  - done.
  - intros g. unfold or, none. tauto.
Qed.

(** What the walk of one expression adds. *)
Definition Adds (y : HirExpr) (x : EffectId) : Prop := x ∈ own_effects y ∨ AnyEff (children y) x.
Definition Calls (y : HirExpr) (f : FnDefId) : Prop := f ∈ own_callees y ∨ AnyCall (children y) f.

Ltac means :=
  repeat first
    [ apply Hwalk | apply Means_done | apply Means_effect | apply Means_block | apply Means_opt_walk | apply Means_args
    | apply Means_fields | apply Means_exprs | apply Means_arms | apply Means_entries | apply Means_dispatch
    | eapply Means_then ].

Ltac nodes :=
  intros x; unfold Adds, Calls, or, none; cbn [own_effects own_callees children];
  rewrite ?AnyEff_cons, ?AnyEff_nil, ?AnyEff_app, ?AnyCall_cons, ?AnyCall_nil, ?AnyCall_app, ?elem_of_empty,
    ?elem_of_singleton, ?elem_of_nil, ?AnyEff_cons, ?AnyEff_nil, ?AnyCall_cons, ?AnyCall_nil; tauto.

Lemma Means_call idx callee args :
  Means (walk_shape pkg defs known walk idx (ECall callee args)) (Adds (ECall callee args)) (Adds (ECall callee args))
    (Calls (ECall callee args)).
Proof.
  cbn [walk_shape]. destruct (exprs pkg !! callee) as [c|] eqn:Ec.
  - eapply Means_weaken; [eapply Means_then; [apply Hwalk|eapply Means_then; [apply Means_args|]]|..].
    + apply Means_bind. intros c' [= <-]. apply Means_callee_path.
    + intros x. unfold Adds, or. cbn [own_effects children]. rewrite Ec, AnyEff_cons. cbn. tauto.
    + intros x. unfold Adds, or. cbn [own_effects children]. rewrite Ec, AnyEff_cons. cbn. tauto.
    + intros x. unfold Calls, or. cbn [own_callees children]. rewrite Ec, AnyCall_cons. cbn. tauto.
  - intros w. unfold then_. cbn [mbind option_bind]. destruct (walk idx callee); [|done]. by destruct (walk_args walk idx args).
Qed.

Lemma Means_method_call idx r m args :
  Means (walk_shape pkg defs known walk idx (EMethodCall r m args)) (Adds (EMethodCall r m args))
    (Adds (EMethodCall r m args)) (Calls (EMethodCall r m args)).
Proof.
  cbn [walk_shape]. destruct (exprs pkg !! r) as [c|] eqn:Ec.
  - eapply Means_weaken;
      [eapply Means_then; [apply Hwalk|eapply Means_then; [apply Means_dispatch|eapply Means_then; [apply Means_args|]]]|..].
    + apply Means_bind. intros c' [= <-]. apply Means_receiver_path.
    + intros x. unfold Adds, or. cbn [own_effects children]. rewrite Ec, AnyEff_cons. cbn. rewrite !elem_of_union. tauto.
    + intros x. unfold Adds, or. cbn [own_effects children]. rewrite Ec, AnyEff_cons. cbn. rewrite !elem_of_union. tauto.
    + intros x. unfold Calls, or, none. cbn [own_callees children]. rewrite AnyCall_cons, elem_of_nil. tauto.
  - intros w. unfold then_. cbn [mbind option_bind]. destruct (walk idx r); [|done].
    destruct (dispatch_row_poly_call _ _ _ _ _ _); [|done]. by destruct (walk_args walk idx args).
Qed.

Lemma Means_shape idx y : Means (walk_shape pkg defs known walk idx y) (Adds y) (Adds y) (Calls y).
Proof.
  destruct y; try apply Means_call; try apply Means_method_call; cbn [walk_shape];
    (eapply Means_weaken; [means|nodes|nodes|nodes]).
Qed.
End shape.

Lemma walk_exact n : exact (walk_expr_effects pkg defs known n).
Proof.
  induction n as [|n IH]; intros idx e; [done|]. cbn [walk_expr_effects]. apply Means_bind. intros y Hy.
  eapply Means_weaken; [by apply Means_shape|..]; intros x; unfold Adds, Calls;
    by rewrite ?(EffIn_expr _ _ _ Hy), ?(CallIn_expr _ _ _ Hy).
Qed.

(** The walk of a body. *)
Lemma walk_block_exact n idx b w :
  walk_block_effects pkg (walk_expr_effects pkg defs known n) idx b = Some w →
  (∀ x, x ∈ w.1 ↔ EffIn (NBlock b) x) ∧ (∀ f, f ∈ w.2 ↔ CallIn (NBlock b) f).
Proof.
  intros H. destruct (Means_block _ (walk_exact n) idx b w H) as (H1 & H2 & H3). split; [|done].
  intros x. split; [apply H2|apply H1].
Qed.
End own.
