(* ===== verification/EffectFix.v ===== *)
(** * The fixpoint over the calls: lemmas

    [Reaches k f x]: the effect [x] is performed in the body of [f], or in
    a function at most [k] calls away, or is declared by one called there.
    The rounds of the source compute it for [k] rounds; with at most [k]
    functions, more rounds add nothing. *)

From stdpp Require Import base list strings numbers gmap sets.
From S2P Require Import Prelude Semver TyArena Hir BorrowState EffectRow EffectInfer EffectSound.

Local Open Scope Z_scope.
Notation length := List.length (only parsing).

Lemma elem_of_indexed {A} (xs : list A) i a : (i, a) ∈ indexed xs ↔ xs !! i = Some a.
Proof.
  unfold indexed. split.
  - intros [j H]%list_elem_of_lookup_1. apply lookup_zip_with_Some in H as (k & b & [= -> ->] & Hk & Hb).
    apply lookup_seq in Hk as [-> _]. done.
  - intros H. pose proof (lookup_lt_Some _ _ _ H). apply list_elem_of_lookup_2 with i.
    apply lookup_zip_with_Some. exists i, a. split_and!; [done|by apply lookup_seq|done].
Qed.

Lemma indexed_NoDup {A} (xs : list A) : NoDup (indexed xs).*1.
Proof.
  unfold indexed. rewrite fst_zip by (by rewrite length_seq). apply NoDup_seq.
Qed.

Section fix_.
Variable pkg : Package.
Variable defs : DefTables.
Variable known : KnownEffects.
Hypothesis Hknown : known_ok known.

Definition body_of (fid : FnId) : option BlockId := f ← fns pkg !! fid; fn_body f.

Inductive Reaches : nat → FnId → EffectId → Prop :=
  | Reaches_own k g b x : body_of g = Some b → EffIn pkg defs known (NBlock b) x → Reaches k g x
  | Reaches_declared k g b c d x :
      body_of g = Some b → CallIn pkg defs (NBlock b) c → fn_def defs c = Some d → x ∈ fd_effects d → Reaches (S k) g x
  | Reaches_call k g b c d h x :
      body_of g = Some b → CallIn pkg defs (NBlock b) c → fn_def defs c = Some d → fd_hir_fn d = Some h →
      Reaches k h x → Reaches (S k) g x.

Lemma Reaches_S k g x : Reaches k g x → Reaches (S k) g x.
Proof. induction 1; [by eapply Reaches_own|by eapply Reaches_declared|by eapply Reaches_call]. Qed.

Lemma Reaches_le j k g x : (j ≤ k)%nat → Reaches j g x → Reaches k g x.
Proof. induction 1; [done|]. intros. by apply Reaches_S, IHle. Qed.

Lemma Reaches_body k g x : Reaches k g x → is_Some (body_of g).
Proof. destruct 1; by eexists. Qed.

Lemma Reaches_step k g b x :
  body_of g = Some b →
  Reaches (S k) g x ↔
    Reaches k g x ∨ ∃ c d, CallIn pkg defs (NBlock b) c ∧ fn_def defs c = Some d
                           ∧ (x ∈ fd_effects d ∨ ∃ h, fd_hir_fn d = Some h ∧ Reaches k h x).
Proof.
  intros Hb. split.
  - intros H. inversion H; simplify_eq; [left; by eapply Reaches_own|right; exists c, d; auto|right; exists c, d].
    split_and!; [done|done|]. right. by exists h.
  - intros [H|(c & d & Hc & Hd & [Hx|(h & Hh & H)])]; [by apply Reaches_S|by eapply Reaches_declared|by eapply Reaches_call].
Qed.

(** ** The initial pass *)

Lemma walk_bodies_spec n idx fs m :
  NoDup fs.*1 → walk_bodies n pkg defs known idx fs = Some m →
  ∀ fid w, m !! fid = Some w ↔
    ∃ f b, (fid, f) ∈ fs ∧ fn_body f = Some b ∧ walk_block_effects pkg (walk_expr_effects pkg defs known n) idx b = Some w.
Proof.
  revert m. induction fs as [|[g f] fs IH]; intros m; cbn [walk_bodies].
  - intros _ [= <-] fid w. split; [intros H; exfalso; exact (lookup_empty_Some _ _ H)|by intros (f & b & ?%elem_of_nil & _)].
  - rewrite fmap_cons. intros [Hg Hd]%NoDup_cons. destruct (walk_bodies _ _ _ _ _ fs) as [rest|] eqn:Er; [|done].
    cbn [mbind option_bind]. specialize (IH rest Hd eq_refl). intros H fid w.
    destruct (fn_body f) as [b|] eqn:Eb.
    + destruct (walk_block_effects _ _ _ b) as [v|] eqn:Ew; [|done]. injection H as <-. rewrite lookup_insert_Some, IH. split.
      * intros [[<- <-]|[_ (f' & b' & Hin & H')]]; [exists f, b|exists f', b']; (split; [|done]); [left|by right].
      * intros (f' & b' & [[= -> ->]|Hin]%elem_of_cons & Hb' & Hw); [left; by simplify_eq|].
        right. split; [|by exists f', b']. intros ->. apply Hg. apply list_elem_of_fmap. by exists (fid, f').
    + injection H as <-. rewrite IH. split; intros (f' & b' & Hin & H'); exists f', b'; (split; [|done]); [by right|].
      apply elem_of_cons in Hin as [[= -> ->]|?]; [|done]. destruct H' as [H' _]. congruence.
Qed.

Lemma walk_bodies_total n idx fs m fid f b :
  walk_bodies n pkg defs known idx fs = Some m → (fid, f) ∈ fs → fn_body f = Some b → is_Some (m !! fid).
Proof.
  revert m. induction fs as [|[g h] fs IH]; intros m; cbn [walk_bodies]; [by intros _ ?%elem_of_nil|].
  destruct (walk_bodies _ _ _ _ _ fs) as [rest|] eqn:Er; [|done]. cbn [mbind option_bind]. intros H Hin Hb.
  apply elem_of_cons in Hin as [[= <- <-]|Hin].
  - rewrite Hb in H. destruct (walk_block_effects _ _ _ b) as [v|]; [|done]. injection H as <-.
    exists v. apply lookup_insert_eq.
  - destruct (IH rest eq_refl Hin Hb) as [w Hw]. destruct (fn_body h) as [b'|]; [|injection H as <-; by exists w].
    destruct (walk_block_effects _ _ _ b') as [v|]; [|done]. injection H as <-.
    destruct (decide (g = fid)) as [->|N]; [exists v; apply lookup_insert_eq|]. exists w. by rewrite lookup_insert_ne.
Qed.

(** ** The rounds *)

Lemma rounds_iter k calls m : rounds k defs calls m = Nat.iter k (round defs calls) m.
Proof.
  revert m. induction k as [|k IH]; intros m; [done|]. cbn [rounds]. rewrite Nat.iter_succ_r.
  case_decide as E; [|apply IH]. rewrite E. clear IH. symmetry. induction k as [|k IH]; [done|].
  rewrite Nat.iter_succ. by rewrite IH.
Qed.

(** What the maps of the initial pass are for. *)
Definition starts (calls : gmap FnId (list FnDefId)) (m : gmap FnId EffectSet) : Prop :=
  (∀ g, is_Some (m !! g) ↔ is_Some (body_of g)) ∧
  (∀ g b s, body_of g = Some b → m !! g = Some s → ∀ x, x ∈ s ↔ EffIn pkg defs known (NBlock b) x) ∧
  (∀ g b c, body_of g = Some b → c ∈ default [] (calls !! g) ↔ CallIn pkg defs (NBlock b) c).

Lemma elem_of_callee_effects snap c x :
  x ∈ callee_effects defs snap c ↔
  ∃ d, fn_def defs c = Some d ∧ (x ∈ fd_effects d ∨ ∃ h s, fd_hir_fn d = Some h ∧ snap !! h = Some s ∧ x ∈ s).
Proof.
  unfold callee_effects. destruct (fn_def defs c) as [d|].
  - rewrite elem_of_union, elem_of_list_to_set. split.
    + intros [H|H]; exists d; (split; [done|]); [right|by left].
      destruct (fd_hir_fn d) as [h|]; cbn in H; [|by apply elem_of_empty in H].
      destruct (snap !! h) as [s|] eqn:E; cbn in H; [|by apply elem_of_empty in H]. by exists h, s.
    + intros (d' & [= <-] & [H|(h & s & Hh & Hs & H)]); [by right|left]. rewrite Hh. cbn. by rewrite Hs.
  - split; [by intros ?%elem_of_empty|by intros (d & ? & _)].
Qed.

Lemma iter_spec calls m k :
  starts calls m →
  (∀ g, is_Some (Nat.iter k (round defs calls) m !! g) ↔ is_Some (body_of g)) ∧
  (∀ g s, Nat.iter k (round defs calls) m !! g = Some s → ∀ x, x ∈ s ↔ Reaches k g x).
Proof.
  intros (Hdom & Hown & Hcalls). induction k as [|k [IHd IHs]]; [|rewrite Nat.iter_succ].
  - split; [done|]. intros g s Hs x. destruct (proj1 (Hdom g) ltac:(by eexists)) as [b Hb]. rewrite (Hown g b s Hb Hs). split.
    + by apply Reaches_own.
    + intros H. by inversion H; simplify_eq.
  - set (snap := Nat.iter k (round defs calls) m) in *. split.
    + intros g. unfold round. rewrite map_lookup_imap, <-IHd. destruct (snap !! g); cbn; split; intros [? ?]; eauto; done.
    + intros g s Hs x. unfold round in Hs. rewrite map_lookup_imap in Hs.
      destruct (snap !! g) as [cur|] eqn:Ec; [|done]. cbn in Hs. injection Hs as <-.
      destruct (proj1 (IHd g) ltac:(by eexists)) as [b Hb].
      rewrite (Reaches_step k g b x Hb), elem_of_union, (IHs g cur Ec x), elem_of_union_list.
      split; (intros [H|H]; [by left|right]).
      * destruct H as (X & HX & Hx). apply list_elem_of_fmap in HX as (c & -> & Hc). apply (Hcalls g b c Hb) in Hc.
        apply elem_of_callee_effects in Hx as (d & Hd & Hx). exists c, d. split_and!; [done|done|].
        destruct Hx as [Hx|(h & s & Hh & Hs & Hx)]; [by left|right]. exists h. split; [done|]. by apply (IHs h s Hs).
      * destruct H as (c & d & Hc & Hd & H). exists (callee_effects defs snap c). split.
        { apply list_elem_of_fmap. exists c. split; [done|]. by apply (Hcalls g b c Hb). }
        apply elem_of_callee_effects. exists d. split; [done|]. destruct H as [H|(h & Hh & H)]; [by left|right].
        destruct (proj2 (IHd h) (Reaches_body _ _ _ H)) as [s Hs]. exists h, s. split_and!; [done|done|]. by apply (IHs h s Hs).
Qed.

Lemma walk_bodies_starts n idx bodies :
  walk_bodies n pkg defs known idx (indexed (fns pkg)) = Some bodies → starts (snd <$> bodies) (fst <$> bodies).
Proof.
  intros Eb. pose proof (walk_bodies_spec _ _ _ _ (indexed_NoDup _) Eb) as H.
  assert (∀ g w, bodies !! g = Some w ↔ ∃ b, body_of g = Some b ∧ walk_block_effects pkg (walk_expr_effects pkg defs known n) idx b = Some w) as Hw.
  { intros g w. rewrite H. unfold body_of. setoid_rewrite elem_of_indexed. split.
    - intros (f & b & Hf & Hb & Hw). exists b. by rewrite Hf.
    - intros (b & Hb & Hw). destruct (fns pkg !! g) as [f|]; [|done]. by exists f, b. }
  assert (∀ g b, body_of g = Some b → is_Some (bodies !! g)) as Htot.
  { intros g b Hb. unfold body_of in Hb. destruct (fns pkg !! g) as [f|] eqn:Ef; [|done].
    eapply walk_bodies_total; [exact Eb|by apply elem_of_indexed|done]. }
  split_and!.
  - intros g. rewrite lookup_fmap, fmap_is_Some. split.
    + intros [w Hg%Hw]. destruct Hg as (b & Hb & _). by exists b.
    + intros [b Hb]. by eapply Htot.
  - intros g b s Hb Hs x. rewrite lookup_fmap, fmap_Some in Hs. destruct Hs as (w & Eg & ->).
    apply Hw in Eg as (b' & Hb' & Ew). simplify_eq. exact (proj1 (walk_block_exact pkg defs known Hknown n idx _ w Ew) x).
  - intros g b c Hb. destruct (Htot g b Hb) as [w Eg].
    assert ((snd <$> bodies) !! g = Some w.2) as -> by (rewrite lookup_fmap; apply fmap_Some; by exists w).
    apply Hw in Eg as (b' & Hb' & Ew). simplify_eq. exact (proj2 (walk_block_exact pkg defs known Hknown n idx _ w Ew) c).
Qed.

(** The pass's map is the 32nd round from such a start. *)
Lemma infer_effects_starts n idx m :
  infer_effects n pkg defs known idx = Some m →
  ∃ calls m0, starts calls m0 ∧ m = Nat.iter 32 (round defs calls) m0.
Proof.
  unfold infer_effects. destruct (walk_bodies _ _ _ _ _ _) as [bodies|] eqn:Eb; [|done]. cbn [mbind option_bind].
  generalize 32%nat as rs. intros rs [= <-]. exists (snd <$> bodies), (fst <$> bodies).
  split; [by eapply walk_bodies_starts|apply rounds_iter].
Qed.

Lemma infer_effects_spec n idx m :
  infer_effects n pkg defs known idx = Some m →
  (∀ g, is_Some (m !! g) ↔ is_Some (body_of g)) ∧ (∀ g s, m !! g = Some s → ∀ x, x ∈ s ↔ Reaches 32 g x).
Proof. intros (calls & m0 & Hs & ->)%infer_effects_starts. by apply iter_spec. Qed.

(** ** Enough rounds *)

(** The functions that perform [x] within [k] calls. *)
Definition performers (k : nat) (x : EffectId) (T : gset nat) : Prop := ∀ g, g ∈ T ↔ Reaches k g x.

Lemma Reaches_stable k x :
  (∀ g, Reaches (S k) g x → Reaches k g x) → ∀ j g, Reaches j g x → Reaches k g x.
Proof.
  intros H j. induction j as [|j IH]; intros g Hg; [apply (Reaches_le 0); [lia|done]|].
  apply H. inversion Hg; simplify_eq; [by eapply Reaches_own|by eapply Reaches_declared|].
  eapply Reaches_call; [done..|]. by apply IH.
Qed.

(** The performers grow until they are stable. *)
Lemma performers_grow x (T : nat → gset nat) k :
  (∀ j, performers j x (T j)) →
  (k ≤ size (T k))%nat ∨ ∃ j, (j < k)%nat ∧ T (S j) ⊆ T j.
Proof.
  intros HT. induction k as [|k [IH|(j & Hj & H)]]; [left; lia| |right; exists j; split; [lia|done]].
  destruct (decide (T (S k) ⊆ T k)) as [Hs|Hs]; [right; exists k; split; [lia|done]|left].
  assert (T k ⊂ T (S k)) as Hsub.
  { split; [|done]. intros g Hg. apply (HT (S k)), Reaches_S, (HT k), Hg. }
  apply subset_size in Hsub. lia.
Qed.

Lemma Reaches_bounded x (T : nat → gset nat) j g :
  (∀ k, performers k x (T k)) → Reaches j g x → Reaches (length (fns pkg)) g x.
Proof.
  intros HT Hg. set (N := length (fns pkg)). destruct (performers_grow x T (S N) HT) as [H|(k & Hk & H)].
  - assert (T (S N) ⊆ set_seq 0 N) as Hs.
    { intros h Hh. apply (HT (S N)), Reaches_body in Hh as [b Hb]. apply elem_of_set_seq. unfold body_of in Hb.
      destruct (fns pkg !! h) eqn:E; [|done]. apply lookup_lt_Some in E. unfold N. lia. }
    apply subseteq_size in Hs. rewrite size_set_seq in Hs. lia.
  - apply (Reaches_le k); [lia|]. eapply (Reaches_stable k x); [|exact Hg].
    intros h Hh. by apply (HT k), H, (HT (S k)).
Qed.

Definition performer_set (calls : gmap FnId (list FnDefId)) (m : gmap FnId EffectSet) (x : EffectId) (k : nat) : gset nat :=
  dom (base.filter (λ gs : nat * EffectSet, x ∈ gs.2) (Nat.iter k (round defs calls) m)).

Lemma performer_set_spec calls m k x : starts calls m → performers k x (performer_set calls m x k).
Proof.
  intros H. destruct (iter_spec calls m k H) as [Hd Hs]. unfold performer_set. set (mk := Nat.iter k (round defs calls) m) in *.
  intros g. rewrite elem_of_dom. split.
  - intros [s Hg]. apply map_lookup_filter_Some in Hg as [Hg Hx]. by apply (Hs g s Hg).
  - intros Hg. destruct (proj2 (Hd g) (Reaches_body _ _ _ Hg)) as [s Es]. exists s. apply map_lookup_filter_Some.
    split; [done|]. by apply (Hs g s Es).
Qed.

(** In a package of at most [k] functions, [k] calls are enough. *)
Lemma Reaches_enough n idx m k j g x :
  infer_effects n pkg defs known idx = Some m → (length (fns pkg) ≤ k)%nat → Reaches j g x → Reaches k g x.
Proof.
  intros H Hk Hg. destruct (infer_effects_starts n idx m H) as (calls & m0 & Hs & _).
  apply (Reaches_le (length (fns pkg))); [done|].
  eapply (Reaches_bounded x (performer_set calls m0 x)); [|done]. intros i. by apply performer_set_spec.
Qed.
End fix_.
