(* ===== verification/EffectReport.v ===== *)
(** * What the effect checks report: lemmas

    The table of effect names, the check of the public functions, and the
    codes of the other reports. *)

From stdpp Require Import base list strings numbers gmap sets sorting.
From S2P Require Import Prelude Semver TyArena Hir BorrowState EffectRow EffectInfer EffectSound EffectFix.

Local Open Scope Z_scope.
Notation length := List.length (only parsing).

(** ** Interned names *)

(** Distinct names have distinct ids, all below the size. *)
Definition tables_ok (d : DefTables) : Prop :=
  (∀ n m x, effects d !! n = Some x → effects d !! m = Some x → n = m) ∧
  (∀ n x, effects d !! n = Some x → 0 ≤ x < Z.of_nat (size (effects d))).

(** [d'] is [d] with names added. *)
Definition grows (d d' : DefTables) : Prop :=
  tables_ok d' ∧ effects d ⊆ effects d' ∧ def_fns d' = def_fns d ∧ by_name d' = by_name d
  ∧ builtin_methods d' = builtin_methods d.

Lemma tables_grow_refl d : tables_ok d → grows d d.
Proof. done. Qed.

Lemma tables_grow_trans d1 d2 d3 : grows d1 d2 → grows d2 d3 → grows d1 d3.
Proof.
  intros (_ & H1 & H2 & H3 & H4) (K0 & K1 & K2 & K3 & K4). split_and!; [done|by transitivity (effects d2)|congruence..].
Qed.

Lemma intern_effect_spec d n x d' :
  tables_ok d → intern_effect d n = (x, d') →
  grows d d' ∧ effects d' !! n = Some x ∧ (size (effects d') ≤ S (size (effects d)))%nat.
Proof.
  intros [Hinj Hlt] H. unfold intern_effect in H. destruct (effects d !! n) as [y|] eqn:E; injection H as <- <-.
  { split_and!; [by apply tables_grow_refl|done|lia]. }
  cbn. split_and!; [|by apply lookup_insert_eq|rewrite map_size_insert_None by done; lia].
  split_and!; cbn; [split|by apply insert_subseteq|done..]; cbn.
  - intros a b z Ha Hb. apply lookup_insert_Some in Ha as [[<- <-]|[Na Ha]], Hb as [[<- Hb]|[Nb Hb]]; [done|..].
    + apply Hlt in Hb. lia.
    + subst z. apply Hlt in Ha. lia.
    + by eapply Hinj.
  - intros a z Ha. rewrite map_size_insert_None by done. apply lookup_insert_Some in Ha as [[<- <-]|[Na Ha]]; [lia|].
    apply Hlt in Ha. lia.
Qed.

Lemma effect_name_spec d x n : tables_ok d → effect_name d x = Some n ↔ effects d !! n = Some x.
Proof.
  intros [Hinj _]. unfold effect_name. destruct (list_find _ _) as [[i [m y]]|] eqn:E; cbn.
  - apply list_find_Some in E as (E & Hy & _). cbn in Hy. subst y. apply list_elem_of_lookup_2, elem_of_map_to_list in E.
    split; [by intros [= <-]|]. intros H. f_equal. by eapply Hinj.
  - split; [done|]. intros H. apply list_find_None in E. rewrite Forall_forall in E.
    exfalso. apply (E (n, x)); [|done]. by apply elem_of_map_to_list.
Qed.

Lemma elem_of_effect_names d s n :
  tables_ok d → n ∈ effect_names d s ↔ ∃ x, x ∈ s ∧ effects d !! n = Some x.
Proof.
  intros Hd. unfold effect_names, sort_strings. rewrite merge_sort_Permutation, list_elem_of_omap. setoid_rewrite elem_of_elements.
  by setoid_rewrite (effect_name_spec d _ _ Hd).
Qed.

Lemma intern_all_spec d names s d' :
  tables_ok d → intern_all d names = (s, d') →
  grows d d' ∧ ∀ n x, effects d' !! n = Some x → x ∈ s ↔ n ∈ names.
Proof.
  revert d s d'. induction names as [|m names IH]; intros d s d' Hd H; cbn [intern_all] in H.
  { injection H as <- <-. split; [by apply tables_grow_refl|]. intros n x _. by rewrite elem_of_empty, elem_of_nil. }
  destruct (intern_effect d m) as [e d1] eqn:Ee. destruct (intern_all d1 names) as [t d2] eqn:Ea. injection H as <- <-.
  destruct (intern_effect_spec d m e d1 Hd Ee) as (G1 & Hm & _). destruct (IH d1 t d2 ltac:(apply G1) Ea) as (G2 & Ht).
  split; [by eapply tables_grow_trans|]. intros n x Hn. rewrite elem_of_union, elem_of_singleton, elem_of_cons, (Ht n x Hn).
  assert (effects d2 !! m = Some e) as Hm2 by (eapply lookup_weaken; [exact Hm|apply G2]).
  split; (intros [->|?]; [left|by right]); [|congruence]. destruct G2 as ([Hinj _] & _). by eapply Hinj.
Qed.

Lemma intern_known_spec d known d' :
  tables_ok d → intern_known d = (known, d') → grows d d' ∧
  (Z.of_nat (size (effects d)) < 2 ^ 31 → known_ok known).
Proof.
  intros Hd H. unfold intern_known in H.
  destruct (intern_effect d "alloc") as [a d1] eqn:E1. destruct (intern_effect d1 "net") as [b d2] eqn:E2.
  destruct (intern_effect d2 "fs") as [c d3] eqn:E3. destruct (intern_effect d3 "time") as [e d4] eqn:E4.
  destruct (intern_effect d4 "dom") as [f d5] eqn:E5. destruct (intern_effect d5 "model") as [g d6] eqn:E6.
  destruct (intern_effect d6 "spawn") as [h d7] eqn:E7. destruct (intern_effect d7 "unsafe") as [i d8] eqn:E8.
  injection H as <- <-.
  destruct (intern_effect_spec _ _ _ _ Hd E1) as (G1 & H1 & S1). pose proof (proj1 G1) as K1.
  destruct (intern_effect_spec _ _ _ _ K1 E2) as (G2 & H2 & S2). pose proof (proj1 G2) as K2.
  destruct (intern_effect_spec _ _ _ _ K2 E3) as (G3 & H3 & S3). pose proof (proj1 G3) as K3.
  destruct (intern_effect_spec _ _ _ _ K3 E4) as (G4 & H4 & S4). pose proof (proj1 G4) as K4.
  destruct (intern_effect_spec _ _ _ _ K4 E5) as (G5 & H5 & S5). pose proof (proj1 G5) as K5.
  destruct (intern_effect_spec _ _ _ _ K5 E6) as (G6 & H6 & S6). pose proof (proj1 G6) as K6.
  destruct (intern_effect_spec _ _ _ _ K6 E7) as (G7 & H7 & S7). pose proof (proj1 G7) as K7.
  destruct (intern_effect_spec _ _ _ _ K7 E8) as (G8 & H8 & S8).
  split; [repeat (eapply tables_grow_trans; [eassumption|]); by apply tables_grow_refl, G8|].
  intros Hs x Hx. cbn in Hx. unfold ALLOC_PLACEHOLDER.
  apply K1 in H1. apply K2 in H2. apply K3 in H3. apply K4 in H4. apply K5 in H5. apply K6 in H6. apply K7 in H7. apply G8 in H8.
  repeat (apply elem_of_cons in Hx as [->|Hx]; [lia|]). by apply elem_of_nil in Hx.
Qed.

(** ** The codes of the other reports *)

(** Neither of the two codes of the check of the public functions. *)
Definition other_code (d : Diagnostic) : Prop := d_code d ≠ EFFECT_UNDECLARED ∧ d_code d ≠ ALLOC_IN_CORE.

Definition Others (o : option (list Diagnostic)) : Prop := ∀ ds, o = Some ds → Forall other_code ds.

Lemma Others_some ds : Forall other_code ds → Others (Some ds).
Proof. by intros H ? [= <-]. Qed.

Lemma Others_nil : Others (Some []).
Proof. by apply Others_some. Qed.

Lemma Others_bind {A} (o : option A) f : (∀ a, Others (f a)) → Others (o ≫= f).
Proof. destruct o; [intros H; apply H|done]. Qed.

Lemma Others_app a b : Others a → Others b → Others (app_ a b).
Proof. intros Ha Hb. destruct a as [x|]; [|done]. destruct b as [y|]; [|done]. intros ? [= <-]. apply Forall_app; auto. Qed.

Lemma Others_reports {A} (f : A → option (list Diagnostic)) xs : (∀ a, Others (f a)) → Others (reports f xs).
Proof. intros H. induction xs as [|x xs IH]; [apply Others_nil|by apply Others_app]. Qed.

Lemma Others_opt {A} (f : A → option (list Diagnostic)) o : (∀ a, Others (f a)) → Others (opt_report f o).
Proof. intros H. destruct o; [apply H|apply Others_nil]. Qed.

Create HintDb others.
#[local] Hint Resolve Others_nil Others_bind Others_app Others_reports Others_opt : others.

Section others.
Variable pkg : Package.
Variable defs : DefTables.
Variable declared : EffectSet.
Variable walk_effects : UserRowPolyIndex → ExprId → option W.
Variable walk : ExprId → option (list Diagnostic).
Hypothesis Hwalk : ∀ e, Others (walk e).

Lemma Others_block b : Others (report_block pkg walk b).
Proof.
  apply Others_bind. intros blk. apply Others_app; [|by apply Others_opt]. apply Others_reports.
  intros [p t [e|] m|e]; cbn [report_stmt]; auto with others.
Qed.

Lemma Others_lambda mk a : (∀ ns, other_code (mk ns)) → Others (report_lambda pkg defs declared walk_effects mk a).
Proof.
  intros H. apply Others_bind. intros [s|]; apply Others_some; [|done]. unfold report_closure. case_decide; [done|]. apply Forall_singleton, H.
Qed.

#[local] Hint Resolve Hwalk Others_block : others.

Lemma Others_row_shape y : Others (row_shape pkg defs declared walk_effects walk y).
Proof.
  assert (∀ m a, Others (report_hof pkg defs declared walk_effects m a)) as Hh by (intros; by apply Others_lambda).
  destruct y; cbn [row_shape]; unfold report_args; auto 7 with others.
  - apply Others_app; [done|]. apply Others_app; [|by apply Others_reports]. apply Others_bind. intros c.
    destruct c; try apply Others_nil. destruct segs as [|? [|? ?]]; try apply Others_nil.
    destruct (is_row_hof _ _); auto with others.
  - destruct (is_row_hof _ _); auto with others.
Qed.

Lemma Others_user_shape idx enforce y : Others (user_shape pkg defs declared walk_effects walk idx enforce y).
Proof.
  destruct y; cbn [user_shape]; unfold report_args; auto 7 with others.
  - apply Others_app; [done|]. apply Others_app; [|by apply Others_reports]. apply Others_bind. intros c.
    destruct c; try apply Others_nil. destruct segs as [|nm [|? ?]]; try apply Others_nil.
    unfold report_user_call. destruct (lookup_def defs nm) as [[| f| | | |]|]; try apply Others_nil.
    destruct (_ ≫= _) as [meta|]; [|apply Others_nil]. apply Others_bind. intros shapes. apply Others_app.
    + apply Others_some. destruct (_ && _); [|done]. by repeat constructor.
    + destruct enforce; [|apply Others_nil]. apply Others_reports. intros a. by apply Others_lambda.
  - destruct e; auto with others.
Qed.
End others.

Lemma Others_row_dispatch n pkg defs known : Others (validate_row_dispatch n pkg defs known).
Proof.
  apply Others_reports. intros f. unfold row_dispatch_fn. destruct (negb _); [apply Others_nil|]. apply Others_opt. apply Others_block.
  generalize (declared_ids defs (fn_effects f)). intros declared. induction n as [|n IH]; intros e; [done|].
  apply Others_bind. intros y. by apply Others_row_shape.
Qed.

Lemma Others_user_dispatch n pkg defs known idx : Others (validate_user_row_dispatch n pkg defs known idx).
Proof.
  apply Others_reports. intros f. unfold user_row_dispatch_fn. apply Others_opt. apply Others_block.
  match goal with |- context [walk_expr_for_user_row_violations _ _ _ ?d _ _ ?e] => generalize d; generalize e end.
  intros enforce declared. induction n as [|n IH]; intros e; [done|]. apply Others_bind. intros y. by apply Others_user_shape.
Qed.

Lemma Others_index pkg acc fs r :
  index_fns pkg fs acc = Some r → Forall other_code acc.2 → Forall other_code r.2.
Proof.
  revert acc. induction fs as [|[i f] fs IH]; intros acc; cbn [index_fns]; [by intros [= <-]|].
  destruct (index_fn pkg acc i f) as [a|] eqn:E; [|done]. cbn [mbind option_bind]. intros H Hacc. apply (IH a H).
  unfold index_fn in E. destruct (fn_effect_row f) as [[ns|ns vs]|]; [by simplify_eq| |by simplify_eq].
  destruct (mapM _ _); [|done]. cbn [mbind option_bind] in E. destruct (_ =? _)%nat; [|by simplify_eq].
  injection E as <-. cbn. apply Forall_app. split; [done|]. constructor; [|done].
  unfold unbound_row_var. destruct ns; [destruct (_ <=? _)%nat|]; done.
Qed.

(** ** The check of the public functions *)

(** The reports for one function of effects [s], with the names of [d]: the
    names that are missing, and the ban of [alloc]. *)
Definition reports_of (profile : Profile) (known : KnownEffects) (f : HirFn) (s : EffectSet) (d : DefTables)
    (ds : list Diagnostic) : Prop :=
  ∃ ms, (∀ nm, nm ∈ ms ↔ ∃ x, x ∈ s ∧ effects d !! nm = Some x ∧ nm ∉ fn_effects f) ∧
    ∀ dg, dg ∈ ds ↔ (ms ≠ [] ∧ dg = effect_undeclared (fn_name f) ms (fn_span f))
                    ∨ (profile = Core ∧ k_alloc known ∈ s ∧ dg = alloc_in_core (fn_name f) (fn_span f)).

Lemma validate_fn_spec profile known m fid f d ds d' :
  tables_ok d → validate_fn profile known m fid f d = (ds, d') → grows d d' ∧
  if fn_is_pub f then match m !! fid with Some s => reports_of profile known f s d' ds | None => ds = [] end else ds = [].
Proof.
  intros Hd. unfold validate_fn. destruct (fn_is_pub f); cbn [negb]; [|by intros [= <- <-]].
  destruct (m !! fid) as [s|]; [|by intros [= <- <-]]. case_decide as Es.
  { intros [= <- <-]. split; [by apply tables_grow_refl|]. exists []. subst s. split; [set_solver|].
    intros dg. rewrite elem_of_nil. split; [done|]. intros [[? _]|(_ & ?%elem_of_empty & _)]; done. }
  destruct (intern_all d (fn_effects f)) as [declared d1] eqn:Ei. destruct (intern_all_spec _ _ _ _ Hd Ei) as [Hg Hi].
  intros [= <- <-]. split; [done|]. exists (effect_names d1 (s ∖ declared)). split.
  - intros nm. rewrite elem_of_effect_names by apply Hg. split.
    + intros (x & [Hx Hn]%elem_of_difference & E). exists x. by rewrite <-(Hi nm x E).
    + intros (x & Hx & E & Hn). exists x. rewrite elem_of_difference. by rewrite (Hi nm x E).
  - intros dg. rewrite elem_of_app. f_equiv.
    + destruct (effect_names _ _); [rewrite elem_of_nil|rewrite list_elem_of_singleton]; naive_solver.
    + case_decide; [rewrite list_elem_of_singleton|rewrite elem_of_nil]; naive_solver.
Qed.

Lemma reports_of_fmap profile known f s d ds :
  reports_of profile known f s d ds → ∀ dg, dg ∈ ds → d_code dg = EFFECT_UNDECLARED ∨ d_code dg = ALLOC_IN_CORE.
Proof. intros (ms & _ & H) dg [[_ ->]|(_ & _ & ->)]%H; [by left|by right]. Qed.

(** Every report is one function's, with the names of a table on the way. *)
Lemma validate_fns_spec profile known m fs d ds d' :
  tables_ok d → validate_fns profile known m fs d = (ds, d') → grows d d' ∧
  (∀ fid f s, (fid, f) ∈ fs → fn_is_pub f = true → m !! fid = Some s →
     ∃ e es, grows d e ∧ grows e d' ∧ es ⊆ ds ∧ reports_of profile known f s e es) ∧
  (∀ dg, dg ∈ ds → ∃ fid f s e es, (fid, f) ∈ fs ∧ fn_is_pub f = true ∧ m !! fid = Some s ∧
     grows d e ∧ grows e d' ∧ dg ∈ es ∧ reports_of profile known f s e es).
Proof.
  revert d ds d'. induction fs as [|[fid f] fs IH]; intros d ds d' Hd H; cbn [validate_fns] in H.
  { injection H as <- <-. split; [by apply tables_grow_refl|]. split; [by intros ? ? ? ?%elem_of_nil|by intros ? ?%elem_of_nil]. }
  destruct (validate_fn profile known m fid f d) as [es d1] eqn:E1. destruct (validate_fns _ _ _ fs d1) as [rest d2] eqn:E2.
  injection H as <- <-. destruct (validate_fn_spec _ _ _ _ _ _ _ _ Hd E1) as [G1 H1].
  destruct (IH d1 rest d2 ltac:(apply G1) E2) as (G2 & H2 & H3).
  split; [by eapply tables_grow_trans|]. split.
  - intros g h s [[= -> ->]|Hin]%elem_of_cons Hp Hs.
    + rewrite Hp, Hs in H1. exists d1, es. split_and!; [done|done|set_solver|done].
    + destruct (H2 g h s Hin Hp Hs) as (e & es' & K1 & K2 & K3 & K4). exists e, es'.
      split_and!; [by eapply tables_grow_trans|done|set_solver|done].
  - intros dg [Hin|Hin]%elem_of_app.
    + destruct (fn_is_pub f) eqn:Hp; [|subst es; by apply elem_of_nil in Hin].
      destruct (m !! fid) as [s|] eqn:Hs; [|subst es; by apply elem_of_nil in Hin].
      exists fid, f, s, d1, es. split_and!; [left|done..].
    + destruct (H3 dg Hin) as (g & h & s & e & es' & K1 & K2 & K3 & K4 & K5 & K6 & K7). exists g, h, s, e, es'.
      split_and!; [by right|done|done|by eapply tables_grow_trans|done..].
Qed.

(** What the pass is made of. *)
Lemma infer_and_validate_inv n pkg defs profile r :
  tables_ok defs → infer_and_validate n pkg defs profile = Some r →
  let '(known, d) := intern_known defs in
  grows defs d ∧ (Z.of_nat (size (effects defs)) < 2 ^ 31 → known_ok known) ∧
  ∃ idx m others mine, infer_effects n pkg d known idx = Some m ∧
    validate_fns profile known m (indexed (fns pkg)) d = (mine, inf_defs r) ∧
    inf_diagnostics r = others ++ mine ∧ Forall other_code others ∧
    inf_effects r = (λ s, merge_sort Z.le (elements s)) <$> m.
Proof.
  intros Hd. unfold infer_and_validate. destruct (intern_known defs) as [known d] eqn:Ek.
  destruct (intern_known_spec _ _ _ Hd Ek) as [Hg Hk]. unfold build_user_row_poly_index.
  destruct (index_fns pkg _ _) as [idx|] eqn:Ei; [|done]. cbn [mbind option_bind].
  destruct (infer_effects n pkg d known idx.1) as [m|] eqn:Em; [|done]. cbn [mbind option_bind].
  destruct (validate_row_dispatch _ _ _ _) as [d1|] eqn:E1; [|done]. cbn [mbind option_bind].
  destruct (validate_user_row_dispatch _ _ _ _ _) as [d2|] eqn:E2; [|done]. cbn [mbind option_bind].
  destruct (validate_fns _ _ _ _ _) as [mine d'] eqn:E3. intros [= <-]. split; [done|]. split; [done|].
  exists idx.1, m, (idx.2 ++ d1 ++ d2), mine. cbn. split_and!; [done|done|by rewrite <-!(assoc_L (++))| |done].
  apply Forall_app. split; [by apply (Others_index _ _ _ _ Ei)|]. apply Forall_app.
  split; [by apply (Others_row_dispatch n pkg d known)|by apply (Others_user_dispatch n pkg d known idx.1)].
Qed.
