(* ===== verification/EffectReturns.v ===== *)
(** * The effect pass returns: lemmas

    [Fits n node]: the nodes under [node] are in the arenas, nested at most
    [n] deep.  Fuel of that depth is enough for every walk of the pass. *)

From stdpp Require Import base list strings numbers gmap sets.
From S2P Require Import Prelude Semver TyArena Hir BorrowState EffectRow EffectInfer EffectSound EffectFix EffectReport.

Local Open Scope Z_scope.
Notation length := List.length (only parsing).

(** ** Signatures *)

Definition spec_ok (n : nat) (s : RowSpec) : Prop :=
  match s with Var i | VarPlus i _ => 0 ≤ i < Z.of_nat n | _ => True end.

(** A signature names only its own variables. *)
Definition sig_ok (sig : RowPolySig) : Prop :=
  Z.of_nat (row_var_count sig) < 2 ^ 32 - 1 ∧ Forall (spec_ok (row_var_count sig)) (param_rows sig)
  ∧ spec_ok (row_var_count sig) (return_row sig).

Definition sigs_ok (d : DefTables) : Prop := ∀ m sig, row_sig_of d m = Some sig → sig_ok sig.

Lemma fresh_vars_returns n σ :
  next σ + Z.of_nat n < 2 ^ 32 → ∃ vs σ', fresh_vars n σ = Some (vs, σ') ∧ length vs = n.
Proof.
  revert σ. induction n as [|n IH]; intros σ H; [by eexists _, _|]. cbn [fresh_vars]. unfold fresh.
  rewrite (proj2 (Z.ltb_lt _ _)) by lia. cbn [mbind option_bind fst snd].
  destruct (IH (mkSubst (next σ + 1) (bindings σ))) as (vs & σ' & E & Hl); [cbn; lia|]. rewrite E. cbn.
  eexists _, _; split; [done|]. cbn. by rewrite Hl.
Qed.

Lemma materialize_returns vs s : spec_ok (length vs) s → is_Some (materialize vs s).
Proof.
  destruct s as [|r|i|i eff]; cbn; intros H; [eauto..| |];
    (destruct (lookup_lt_is_Some_2 vs (Z.to_nat i)) as [v ->]; [lia|]); cbn; eauto.
Qed.

Lemma mapM_returns {A B} (f : A → option B) xs : (∀ a, a ∈ xs → is_Some (f a)) → is_Some (mapM f xs).
Proof. intros H. apply mapM_is_Some_2. apply Forall_forall. exact H. Qed.

Lemma instantiate_returns sig : sig_ok sig → is_Some (instantiate_row_sig sig new_subst).
Proof.
  intros (Hn & Hp & Hr). unfold instantiate_row_sig.
  destruct (fresh_vars_returns (row_var_count sig) new_subst) as (vs & σ' & -> & Hl); [cbn; lia|].
  cbn [mbind option_bind fst snd]. rewrite <-Hl in Hp, Hr.
  destruct (mapM_returns (materialize vs) (param_rows sig)) as [ps ->].
  { intros s Hs. rewrite Forall_forall in Hp. by apply materialize_returns, Hp. }
  cbn [mbind option_bind]. destruct (materialize_returns vs _ Hr) as [r ->]. by eexists.
Qed.

Section returns.
Variable pkg : Package.
Variable defs : DefTables.
Variable known : KnownEffects.
Hypothesis Hsigs : sigs_ok defs.

Inductive Fits : nat → Node → Prop :=
  | Fits_expr n e y : exprs pkg !! e = Some y → (∀ c, c ∈ children y → Fits n c) → Fits (S n) (NExpr e)
  | Fits_block n b blk : blocks pkg !! b = Some blk → (∀ c, c ∈ block_nodes blk → Fits n c) → Fits n (NBlock b).

Lemma Fits_S n c : Fits n c → Fits (S n) c.
Proof. induction 1; [by eapply Fits_expr|by eapply Fits_block]. Qed.

Lemma Fits_expr_inv n e y c : Fits n (NExpr e) → exprs pkg !! e = Some y → c ∈ children y → Fits n c.
Proof. intros H Hy Hc. inversion H; simplify_eq. by apply Fits_S, H3. Qed.

Lemma Fits_in n e : Fits n (NExpr e) → is_Some (exprs pkg !! e).
Proof. intros H. inversion H; simplify_eq. eauto. Qed.

(** ** The walk of the effects *)

Lemma then_returns a b : is_Some a → is_Some b → is_Some (then_ a b).
Proof. intros [x ->] [y ->]. by eexists. Qed.

Lemma each_walk_returns {A} (f : A → option W) xs : (∀ a, a ∈ xs → is_Some (f a)) → is_Some (each f xs).
Proof.
  induction xs as [|a xs IH]; intros H; [by eexists|]. apply then_returns; [apply H; left|]. apply IH. intros b Hb. apply H. by right.
Qed.

Lemma opt_walk_returns {A} (f : A → option W) o : (∀ a, o = Some a → is_Some (f a)) → is_Some (opt_walk f o).
Proof. destruct o; [intros H; by apply H|by eexists]. Qed.

Section shape.
Variable n : nat.
Variable walk : UserRowPolyIndex → ExprId → option W.
Hypothesis Hwalk : ∀ idx e, Fits n (NExpr e) → is_Some (walk idx e).

Lemma stmt_returns idx st : (∀ c, c ∈ stmt_nodes st → Fits n c) → is_Some (walk_stmt_effects walk idx st).
Proof.
  destruct st as [p t [e|] m|e]; intros H; cbn [walk_stmt_effects opt_walk]; [apply Hwalk, H; left|by eexists|apply Hwalk, H; left].
Qed.

Lemma block_returns idx b : Fits n (NBlock b) → is_Some (walk_block_effects pkg walk idx b).
Proof.
  intros H. inversion H as [|? ? blk Hb Hc]; simplify_eq. unfold walk_block_effects. rewrite Hb. cbn [mbind option_bind].
  unfold block_nodes in Hc. apply then_returns.
  - apply each_walk_returns. intros st Hst. apply stmt_returns. intros c Hin. apply Hc, elem_of_app. left.
    apply list_elem_of_bind. by exists st.
  - apply opt_walk_returns. intros e He. apply Hwalk, Hc, elem_of_app. right. rewrite He. left.
Qed.

Lemma lambda_returns e : Fits n (NExpr e) → is_Some (lambda_effects pkg walk e).
Proof.
  intros H. unfold lambda_effects. destruct (Fits_in _ _ H) as [y Hy]. rewrite Hy. cbn [mbind option_bind].
  destruct y; try (by eexists). destruct (block_returns empty_idx body) as [w ->]; [|by eexists].
  eapply Fits_expr_inv; [exact H|exact Hy|left].
Qed.

Lemma row_effects_returns sig args :
  sig_ok sig → (∀ a, a ∈ args → Fits n (NExpr (arg_value a))) → is_Some (row_effects pkg known walk sig args).
Proof.
  intros Hs Ha. unfold row_effects.
  destruct (mapM_returns (λ a, compute_arg_effect_row pkg walk (arg_value a)) args) as [rows Er].
  { intros a Hin. unfold compute_arg_effect_row. destruct (lambda_returns _ (Ha a Hin)) as [o ->]. by eexists. }
  rewrite Er. cbn [mbind option_bind]. destruct (instantiate_returns sig Hs) as [[[[ps ret] fs] σ] Ei]. rewrite Ei.
  cbn [mbind option_bind]. set (A := ⋃ ((λ r : option EffectRow, default ∅ (EffectRow.concrete <$> r)) <$> rows)).
  destruct (unify_params_closed_in A σ (drop 1 ps) rows) as (σ' & Eu & Hc).
  - unfold instantiate_row_sig in Ei. destruct (fresh_vars _ _) as [[vs τ]|] eqn:Ef; [|done]. cbn [mbind option_bind fst snd] in Ei.
    destruct (mapM _ (param_rows sig)) as [qs|]; [|done]. cbn [mbind option_bind] in Ei. destruct (materialize _ _); [|done]. injection Ei as _ _ _ <-.
    eapply fresh_vars_closed_in; [exact Ef|]. intros v r Hv. exfalso. exact (lookup_empty_Some _ _ Hv).
  - intros C HC. apply mapM_Some_1 in Er. pose proof HC as [i Hi]%list_elem_of_lookup_1.
    destruct (Forall2_lookup_r _ _ _ _ _ Er Hi) as (a & _ & E). unfold compute_arg_effect_row in E.
    destruct (lambda_effects pkg walk (arg_value a)) as [[t|]|]; cbn in E; [|discriminate E..]. injection E as <-. exists t. split; [done|].
    intros x Hx. apply elem_of_union_list. exists t. split; [|done]. apply list_elem_of_fmap. by exists (Some (EffectRow.Closed t)).
  - rewrite Eu. cbn [mbind option_bind]. destruct (resolve_closed_in A σ' ret Hc) as (r & -> & _). by eexists.
Qed.

Lemma dispatch_returns m args :
  (∀ a, a ∈ args → Fits n (NExpr (arg_value a))) → is_Some (dispatch_row_poly_call pkg defs known walk m args).
Proof.
  intros Ha. unfold dispatch_row_poly_call. destruct (row_sig_of defs m) as [sig|] eqn:E; [|by eexists].
  destruct (row_effects_returns sig args) as [s ->]; [by eapply Hsigs|done|by eexists].
Qed.

Lemma args_returns idx args : (∀ a, a ∈ args → Fits n (NExpr (arg_value a))) → is_Some (walk_args walk idx args).
Proof. intros Ha. apply each_walk_returns. intros a Hin. by apply Hwalk, Ha. Qed.

Lemma if_alloc_returns m : is_Some (if_alloc known m).
Proof. unfold if_alloc. destruct (alloc_method m); by eexists. Qed.

Lemma cap_returns s : is_Some (opt_walk insert_effect (cap_effect known s)).
Proof. apply opt_walk_returns. intros e _. by eexists. Qed.

Lemma callee_path_returns idx c args :
  (∀ a, a ∈ args → Fits n (NExpr (arg_value a))) → is_Some (walk_callee_path pkg defs known walk idx c args).
Proof.
  intros Ha. destruct c; try (by eexists). destruct segs as [|nm [|s2 segs]]; [by eexists| |].
  - cbn [walk_callee_path]. unfold walk_fn_call. destruct (lookup_def defs nm) as [[| f| | | |]|]; try (by eexists).
    apply then_returns; [by eexists|]. destruct (_ ≫= _) as [h|]; [|by eexists]. case_decide; [|by eexists].
    apply each_walk_returns. intros a Hin. destruct (lambda_returns _ (Ha a Hin)) as [o ->]. by eexists.
  - cbn [walk_callee_path]. apply then_returns; [apply cap_returns|]. apply then_returns; [by apply dispatch_returns|apply if_alloc_returns].
Qed.

Lemma receiver_path_returns r m : is_Some (walk_receiver_path known r m).
Proof.
  apply then_returns; [|apply if_alloc_returns]. destruct r; try (by eexists). destruct segs; [by eexists|apply cap_returns].
Qed.
Lemma arg_fits c0 args :
  (∀ c, c ∈ c0 :: arg_nodes args → Fits n c) → ∀ a, a ∈ args → Fits n (NExpr (arg_value a)).
Proof. intros H a Ha. apply H. right. apply list_elem_of_fmap. by exists a. Qed.

Lemma shape_returns idx y :
  (∀ c, c ∈ children y → Fits n c) → is_Some (walk_shape pkg defs known walk idx y).
Proof.
  intros H. destruct y; cbn [walk_shape children] in *;
    repeat first
      [ by eexists | apply then_returns | apply Hwalk, H; set_solver | apply block_returns, H; set_solver
      | apply opt_walk_returns; intros e' E; apply Hwalk, H; rewrite E; set_solver
      | apply each_walk_returns; intros x Hx; apply Hwalk, H; unfold field_nodes; set_solver
      | apply args_returns; by eapply arg_fits
      | apply dispatch_returns; by eapply arg_fits ].
  - destruct (Fits_in n callee) as [c ->]; [apply H; left|]. apply callee_path_returns. by eapply arg_fits.
  - destruct (Fits_in n receiver) as [c ->]; [apply H; left|]. apply receiver_path_returns.
  - apply each_walk_returns. intros a Ha. assert (∀ c, c ∈ arm_nodes a → Fits n c) as Harm.
    { intros c Hc. apply H. right. apply list_elem_of_bind. by exists a. }
    unfold walk_arm_effects, arm_nodes in *. apply then_returns; [apply Hwalk, Harm; left|].
    apply opt_walk_returns. intros e' E. apply Hwalk, Harm. rewrite E. set_solver.
  - apply each_walk_returns. intros kv Ha. apply then_returns; apply Hwalk, H, list_elem_of_bind; exists kv; set_solver.
Qed.
End shape.

Lemma effect_walk_returns n idx e : Fits n (NExpr e) → is_Some (walk_expr_effects pkg defs known n idx e).
Proof.
  revert idx e. induction n as [|n IH]; intros idx e H; inversion H as [? ? y Hy Hc|]; simplify_eq.
  cbn [walk_expr_effects]. rewrite Hy. cbn [mbind option_bind]. exact (shape_returns n _ IH idx y Hc).
Qed.

(** ** The walks of the checks *)

Section violations.
Variable declared : EffectSet.
Variable idx : UserRowPolyIndex.

Lemma app_returns a b : is_Some a → is_Some b → is_Some (app_ a b).
Proof. intros [x ->] [y ->]. by eexists. Qed.

Lemma reports_returns {A} (f : A → option (list Diagnostic)) xs : (∀ a, a ∈ xs → is_Some (f a)) → is_Some (reports f xs).
Proof.
  induction xs as [|a xs IH]; intros H; [by eexists|]. apply app_returns; [apply H; left|]. apply IH. intros b Hb. apply H. by right.
Qed.

Lemma opt_report_returns {A} (f : A → option (list Diagnostic)) o : (∀ a, o = Some a → is_Some (f a)) → is_Some (opt_report f o).
Proof. destruct o; [intros H; by apply H|by eexists]. Qed.

Section shape.
Variable n : nat.
Variable walk : ExprId → option (list Diagnostic).
Hypothesis Hwalk : ∀ e, Fits n (NExpr e) → is_Some (walk e).

Lemma report_block_returns b : Fits n (NBlock b) → is_Some (report_block pkg walk b).
Proof.
  intros H. inversion H as [|? ? blk Hb Hc]; simplify_eq. unfold report_block. rewrite Hb. cbn [mbind option_bind].
  unfold block_nodes in Hc. apply app_returns.
  - apply reports_returns. intros st Hst. assert (∀ c, c ∈ stmt_nodes st → Fits n c) as Hs.
    { intros c Hin. apply Hc, elem_of_app. left. apply list_elem_of_bind. by exists st. }
    destruct st as [p t [e|] m|e]; cbn [report_stmt]; [apply Hwalk, Hs; left|by eexists|apply Hwalk, Hs; left].
  - apply opt_report_returns. intros e He. apply Hwalk, Hc, elem_of_app. right. rewrite He. left.
Qed.

Lemma report_args_returns args : (∀ a, a ∈ args → Fits n (NExpr (arg_value a))) → is_Some (report_args walk args).
Proof. intros Ha. apply reports_returns. intros a Hin. by apply Hwalk, Ha. Qed.

Lemma report_lambda_returns mk a :
  Fits n (NExpr (arg_value a)) → is_Some (report_lambda pkg defs declared (walk_expr_effects pkg defs known n) mk a).
Proof.
  intros H. unfold report_lambda. destruct (lambda_returns n _ (effect_walk_returns n) _ H) as [o ->]. by eexists.
Qed.

Lemma report_user_call_returns enforce nm args :
  (∀ a, a ∈ args → Fits n (NExpr (arg_value a))) →
  is_Some (report_user_call pkg defs declared (walk_expr_effects pkg defs known n) idx enforce nm args).
Proof.
  intros Ha. unfold report_user_call. destruct (lookup_def defs nm) as [[| f| | | |]|]; try (by eexists).
  destruct (_ ≫= _) as [meta|]; [|by eexists].
  destruct (mapM_returns (λ a, exprs pkg !! arg_value a) args) as [shapes ->]; [intros a Hin; by eapply Fits_in, Ha|].
  cbn [mbind option_bind]. apply app_returns; [by eexists|]. destruct enforce; [|by eexists].
  apply reports_returns. intros a Hin. by apply report_lambda_returns, Ha.
Qed.

Lemma hofs_return m args :
  (∀ a, a ∈ args → Fits n (NExpr (arg_value a))) →
  is_Some (reports (report_hof pkg defs declared (walk_expr_effects pkg defs known n) m) args).
Proof. intros Ha. apply reports_returns. intros a Hin. by apply report_lambda_returns, Ha. Qed.

Ltac walks H :=
  repeat first
    [ by eexists | apply app_returns | apply Hwalk, H; set_solver | apply report_block_returns, H; set_solver
    | apply opt_report_returns; intros e' E; apply Hwalk, H; rewrite E; set_solver
    | apply reports_returns; intros x Hx; apply Hwalk, H; unfold field_nodes; set_solver
    | apply report_args_returns; by eapply arg_fits ].

Lemma row_shape_returns y :
  (∀ c, c ∈ children y → Fits n c) → is_Some (row_shape pkg defs declared (walk_expr_effects pkg defs known n) walk y).
Proof.
  intros H. destruct y; cbn [row_shape children] in *; walks H.
  - destruct (Fits_in n callee) as [c ->]; [apply H; left|]. cbn [mbind option_bind].
    destruct c; try (by eexists). destruct segs as [|? [|? ?]]; try (by eexists).
    destruct (is_row_hof _ _); [|by eexists]. apply hofs_return. by eapply arg_fits.
  - pose proof (arg_fits _ _ _ H) as Ha. destruct (is_row_hof _ _); [|by apply report_args_returns].
    apply reports_returns. intros a Hin. apply app_returns; [by apply report_lambda_returns, Ha|by apply Hwalk, Ha].
  - apply reports_returns. intros a Ha. assert (∀ c, c ∈ arm_nodes a → Fits n c) as Harm.
    { intros c Hc. apply H. right. apply list_elem_of_bind. by exists a. }
    unfold arm_nodes in *. apply app_returns; [apply Hwalk, Harm; left|].
    apply opt_report_returns. intros e' E. apply Hwalk, Harm. rewrite E. set_solver.
  - apply reports_returns. intros kv Ha. apply app_returns; apply Hwalk, H, list_elem_of_bind; exists kv; set_solver.
Qed.

Lemma user_shape_returns enforce y :
  (∀ c, c ∈ children y → Fits n c) →
  is_Some (user_shape pkg defs declared (walk_expr_effects pkg defs known n) walk idx enforce y).
Proof.
  intros H. destruct y; cbn [user_shape children] in *; walks H.
  - destruct (Fits_in n callee) as [c ->]; [apply H; left|]. cbn [mbind option_bind].
    destruct c; try (by eexists). destruct segs as [|nm [|? ?]]; try (by eexists).
    apply report_user_call_returns. by eapply arg_fits.
Qed.
End shape.

Lemma row_violations_return n e : Fits n (NExpr e) → is_Some (walk_expr_for_row_violations pkg defs known declared n e).
Proof.
  revert e. induction n as [|n IH]; intros e H; inversion H as [? ? y Hy Hc|]; simplify_eq.
  cbn [walk_expr_for_row_violations]. rewrite Hy. cbn [mbind option_bind]. exact (row_shape_returns n _ IH y Hc).
Qed.

Lemma user_violations_return n enforce e :
  Fits n (NExpr e) → is_Some (walk_expr_for_user_row_violations pkg defs known declared n idx enforce e).
Proof.
  revert e. induction n as [|n IH]; intros e H; inversion H as [? ? y Hy Hc|]; simplify_eq.
  cbn [walk_expr_for_user_row_violations]. rewrite Hy. cbn [mbind option_bind]. exact (user_shape_returns n _ IH enforce y Hc).
Qed.
End violations.
End returns.

(** ** The pass *)

(** The bodies fit and the parameters' types are there. *)
Definition package_fits (n : nat) (pkg : Package) : Prop :=
  ∀ f, f ∈ fns pkg →
    (∀ b, fn_body f = Some b → Fits pkg n (NBlock b)) ∧
    (∀ p t, p ∈ fn_params f → param_ty p = Some t → is_Some (types pkg !! t)).

Lemma index_returns pkg fs acc :
  (∀ i f, (i, f) ∈ fs → ∀ p t, p ∈ fn_params f → param_ty p = Some t → is_Some (types pkg !! t)) →
  is_Some (index_fns pkg fs acc).
Proof.
  revert acc. induction fs as [|[i f] fs IH]; intros acc H; [by eexists|]. cbn [index_fns].
  assert (is_Some (index_fn pkg acc i f)) as [a ->].
  { unfold index_fn. destruct (fn_effect_row f) as [[ns|ns vs]|]; [by eexists| |by eexists].
    destruct (mapM_returns (is_fn_typed pkg) (fn_params f)) as [ts ->].
    { intros p Hp. unfold is_fn_typed. destruct (param_ty p) as [t|] eqn:E; [|by eexists].
      destruct (H i f ltac:(left) p t Hp E) as [ty ->]. by eexists. }
    cbn [mbind option_bind]. destruct (_ =? _)%nat; by eexists. }
  cbn [mbind option_bind]. apply IH. intros j g Hg. apply (H j g). by right.
Qed.

Lemma walk_bodies_return n pkg defs known idx fs :
  sigs_ok defs → (∀ i f b, (i, f) ∈ fs → fn_body f = Some b → Fits pkg n (NBlock b)) →
  is_Some (walk_bodies n pkg defs known idx fs).
Proof.
  intros Hs. induction fs as [|[i f] fs IH]; intros H; [by eexists|]. cbn [walk_bodies].
  destruct IH as [m ->]; [intros j g b Hg; apply (H j g b); by right|]. cbn [mbind option_bind].
  destruct (fn_body f) as [b|] eqn:E; [|by eexists].
  destruct (block_returns pkg n _ (effect_walk_returns pkg defs known Hs n) idx b) as [w ->]; [|by eexists].
  apply (H i f b); [left|done].
Qed.

Lemma infer_effects_returns n pkg defs known idx :
  sigs_ok defs → package_fits n pkg → is_Some (infer_effects n pkg defs known idx).
Proof.
  intros Hs Hp. unfold infer_effects. destruct (walk_bodies_return n pkg defs known idx (indexed (fns pkg)) Hs) as [m ->].
  - intros i f b Hin Hb. apply elem_of_indexed, list_elem_of_lookup_2 in Hin. by apply (Hp f Hin).
  - by eexists.
Qed.

Lemma grows_sigs_ok d d' : grows d d' → sigs_ok d → sigs_ok d'.
Proof. intros (_ & _ & _ & _ & Hm) H m sig. unfold row_sig_of. rewrite Hm. apply H. Qed.

Lemma infer_and_validate_returns n pkg defs profile :
  tables_ok defs → sigs_ok defs → package_fits n pkg → is_Some (infer_and_validate n pkg defs profile).
Proof.
  intros Hd Hs Hp. unfold infer_and_validate. destruct (intern_known defs) as [known d] eqn:Ek.
  destruct (intern_known_spec _ _ _ Hd Ek) as [Hg _]. pose proof (grows_sigs_ok _ _ Hg Hs) as Hs'.
  destruct (index_returns pkg (indexed (fns pkg)) (empty_idx, [])) as [idx Ei].
  { intros i f Hin%elem_of_indexed%list_elem_of_lookup_2. by apply Hp. }
  unfold build_user_row_poly_index. rewrite Ei. cbn [mbind option_bind].
  destruct (infer_effects_returns n pkg d known idx.1 Hs' Hp) as [m ->]. cbn [mbind option_bind].
  destruct (reports_returns (row_dispatch_fn n pkg d known) (fns pkg)) as [d1 E1].
  { intros f Hf. unfold row_dispatch_fn. destruct (negb (fn_is_pub f)); [by eexists|]. apply opt_report_returns. intros b Hb.
    refine (report_block_returns pkg n _ _ b (proj1 (Hp f Hf) b Hb)). by apply row_violations_return. }
  unfold validate_row_dispatch. rewrite E1. cbn [mbind option_bind].
  destruct (reports_returns (user_row_dispatch_fn n pkg d known idx.1) (fns pkg)) as [d2 E2].
  { intros f Hf. unfold user_row_dispatch_fn. apply opt_report_returns. intros b Hb.
    refine (report_block_returns pkg n _ _ b (proj1 (Hp f Hf) b Hb)). intros e He. by apply user_violations_return. }
  unfold validate_user_row_dispatch. rewrite E2. cbn [mbind option_bind].
  destruct (validate_fns _ _ _ _ _) as [d3 d']. by eexists.
Qed.
