(* ===== verification/EffectTheorems.v ===== *)
(** * Effects: the theorems *)

From stdpp Require Import base list strings numbers gmap sets pretty.
From S2P Require Import Prelude Semver TyArena Hir BorrowState EffectRow EffectInfer EffectSound EffectFix EffectReport EffectReturns.

Local Open Scope Z_scope.
Notation length := List.length (only parsing).

(** ** Unification of rows *)

(** From a well-formed substitution, unification of two rows returns.
    When it succeeds, the substitution is extended, stays well formed, and,
    unless the two rows end at one and the same free variable with different
    effects, resolves both rows to one row.  When it refuses, it changes nothing, and no
    meaning of
    the variables that satisfies the substitution makes the rows equal. *)
Theorem unify_rows_correct σ lhs rhs :
  wf σ → bounded σ → row_below (next σ) lhs → row_below (next σ) rhs → next σ + 1 < 2 ^ 32 →
  ∃ σ' r, unify_rows σ lhs rhs = Some (σ', r) ∧ Extends σ σ' ∧
    match r with
    | Ok _ =>
        (∀ s t v, Normal σ lhs s (Some v) → Normal σ rhs t (Some v) → s = t) →
        ∃ row, resolve σ' lhs = Some row ∧ resolve σ' rhs = Some row
    | Err _ => σ' = σ ∧ ∀ ρ, Sat ρ σ → sem ρ lhs ≠ sem ρ rhs
    end.
Proof.
  intros Hwf Hb Hl Hr Hn. destruct (wf_Normal σ lhs Hwf) as (a & o1 & N1). destruct (wf_Normal σ rhs Hwf) as (b & o2 & N2).
  assert (Extends σ σ) as Hrefl by done.
  assert (∀ ρ, Sat ρ σ → sem ρ (row_of a o1) ≠ sem ρ (row_of b o2) → sem ρ lhs ≠ sem ρ rhs) as Herr.
  { intros ρ Hρ. by rewrite (Normal_sem _ _ _ _ _ Hρ N1), (Normal_sem _ _ _ _ _ Hρ N2). }
  unfold unify_rows. rewrite (resolve_Normal _ _ _ _ N1), (resolve_Normal _ _ _ _ N2). cbn [mbind option_bind].
  destruct o1 as [v|], o2 as [w|]; cbn [row_of].
  - pose proof (Normal_below _ _ _ _ Hb Hl N1) as Lv. pose proof (Normal_below _ _ _ _ Hb Hr N2) as Lw.
    pose proof (Normal_free _ _ _ _ N1) as Fv. pose proof (Normal_free _ _ _ _ N2) as Fw.
    case_decide as E.
    + destruct E as [-> ->]. eexists _, _; split; [done|]. split; [done|]. intros _.
      exists (Open b w). by rewrite (resolve_Normal _ _ _ _ N1), (resolve_Normal _ _ _ _ N2).
    + rewrite unify_open_run by done. eexists _, _; split; [done|]. split; [by apply unify_open_extends|]. intros Hs.
      assert (v ≠ w) as Nvw by (intros ->; apply E; split; [done|by apply (Hs a b w)]).
      exists (Open (a ∪ b) (next σ)). split; apply (resolve_Normal _ _ (a ∪ b) (Some (next σ)));
        (eapply unify_open_normal; [done..|]); [by left|by right].
  - pose proof (Normal_below _ _ _ _ Hb Hl N1) as Lv. pose proof (Normal_free _ _ _ _ N1) as Fv.
    case_decide as E; rewrite ?bind_closed; (eexists _, _; split; [done|]).
    + split; [by apply bind_closed_extends|]. intros _. exists (Closed b).
      split; [|exact (resolve_Normal _ _ b None (closed_normal σ v (b ∖ a) rhs b Fv N2))].
      rewrite (resolve_Normal _ _ _ _ (bound_normal σ v (b ∖ a) lhs a Fv N1)). by rewrite union_subset.
    + split; [done|]. split; [done|]. intros ρ Hρ. apply Herr; [done|]. simpl. set_solver.
  - pose proof (Normal_below _ _ _ _ Hb Hr N2) as Lw. pose proof (Normal_free _ _ _ _ N2) as Fw.
    case_decide as E; rewrite ?bind_closed; (eexists _, _; split; [done|]).
    + split; [by apply bind_closed_extends|]. intros _. exists (Closed a).
      split; [exact (resolve_Normal _ _ a None (closed_normal σ w (a ∖ b) lhs a Fw N1))|].
      rewrite (resolve_Normal _ _ _ _ (bound_normal σ w (a ∖ b) rhs b Fw N2)). by rewrite union_subset.
    + split; [done|]. split; [done|]. intros ρ Hρ. apply Herr; [done|]. simpl. set_solver.
  - case_decide as E; (eexists _, _; split; [done|]).
    + split; [done|]. intros _. exists (Closed b). rewrite (resolve_Normal _ _ _ _ N1), (resolve_Normal _ _ _ _ N2). by subst.
    + split; [done|]. split; [done|]. intros ρ Hρ. by apply Herr.
Qed.

Definition example_subst : RowSubst := mkSubst 2 ∅.

Lemma example_subst_wf : wf example_subst.
Proof. intros v. exists [], ∅, (Some v). by constructor. Qed.

Lemma example_subst_bounded : bounded example_subst.
Proof. intros v r H. exfalso. exact (lookup_empty_Some _ _ H). Qed.

Lemma unify_rows_correct_witness :
  ∃ σ' row, unify_rows example_subst (Open {[1]} 0) (Open {[2]} 1) = Some (σ', Ok tt)
            ∧ resolve σ' (Open {[1]} 0) = Some row ∧ resolve σ' (Open {[2]} 1) = Some row.
Proof.
  destruct (unify_rows_correct example_subst (Open {[1]} 0) (Open {[2]} 1)) as (σ' & r & E & _ & H);
    [apply example_subst_wf|apply example_subst_bounded|by apply row_below_open|by apply row_below_open|done|].
  destruct r as [[]|e]; [|vm_compute in E; discriminate E].
  assert (∀ s t v, Normal example_subst (Open {[1]} 0) s (Some v) → Normal example_subst (Open {[2]} 1) t (Some v) → s = t) as Hn.
  { intros s t v (l & u & Hc & _) (l' & u' & Hc' & _). exfalso.
    inversion Hc as [? E1| |? ? ? ? ? ? E1 ?]; subst; [|vm_compute in E1; discriminate E1].
    inversion Hc' as [? E2| |? ? ? ? ? ? E2 ?]; subst; vm_compute in E2; discriminate E2. }
  destruct (H Hn) as (row & H1 & H2). by exists σ', row.
Defined.

(** Two rows of one free tail: the two bindings are of one variable, the
    second replaces the first. *)
Example same_tail_unifies_unequal_rows :
  ∃ σ', unify_rows (mkSubst 1 ∅) (Open {[1]} 0) (Open {[2]} 0) = Some (σ', Ok tt)
        ∧ resolve σ' (Open {[1]} 0) = Some (Open {[1]} 1) ∧ resolve σ' (Open {[2]} 0) = Some (Open {[1; 2]} 1).
Proof. eexists. split; [vm_compute; reflexivity|]. by split; vm_compute. Qed.

(** ** The effects of a function *)

(** C27. The pass attributes to a function with a body exactly the effects
    performed in its body or in one at most 32 calls away, with those
    declared by the functions called on the way; in a package of at most 32
    functions, those of every function it can reach.  The dispatch of
    row-polymorphic calls and the index of the package's own row-polymorphic
    functions change nothing. *)
Theorem inference_exact n pkg defs known idx m g b :
  known_ok known → infer_effects n pkg defs known idx = Some m → body_of pkg g = Some b →
  ∃ s, m !! g = Some s ∧ (∀ x, x ∈ s ↔ Reaches pkg defs known 32 g x) ∧
       ((length (fns pkg) ≤ 32)%nat → ∀ k x, Reaches pkg defs known k g x → x ∈ s).
Proof.
  intros Hk Hm Hb. destruct (infer_effects_spec pkg defs known Hk n idx m Hm) as [Hd Hs].
  destruct (proj2 (Hd g) ltac:(by eexists)) as [s E]. exists s. split; [done|]. split; [by apply Hs|].
  intros Hl k x Hx. apply (Hs g s E). by eapply (Reaches_enough pkg defs known Hk n idx m).
Qed.

(** A public function that calls one that reads a file. *)
Definition example_fn (name : string) (pub : bool) (i : nat) : HirFn :=
  mkFn name pub false [] [] None [] None (Some i) None false no_span.

Definition example_pkg : Package :=
  mkPackage [] [example_fn "main" true 0; example_fn "helper" false 1] [] [] [] [] [] [] 
    [EPath ["helper"%string]; ECall 0 []; EPath ["fs"%string; "read"%string]; ECall 2 []]
    [] [] [mkBlock [] (Some 1%nat); mkBlock [] (Some 3%nat)] [] [] ∅.

Definition example_fn_def (name : string) (i : nat) : FnDef :=
  mkFnDef name [] [] [] 0%nat [] false (Some i) (Some i) None false [].

Definition example_defs : DefTables :=
  mkTables [example_fn_def "main" 0; example_fn_def "helper" 1]
    (<["main"%string := DFn 0]> {["helper"%string := DFn 1]}) ∅ {["map"%string := mkMethod None None (Some stdlib_list_map_sig)]}.

Definition example_known : KnownEffects := (intern_known example_defs).1.
Definition example_tables : DefTables := (intern_known example_defs).2.

Lemma example_defs_ok : tables_ok example_defs.
Proof. split; [intros a b x H|intros a x H]; exfalso; exact (lookup_empty_Some _ _ H). Qed.

Lemma example_known_ok : known_ok example_known.
Proof. exact (proj2 (intern_known_spec example_defs _ _ example_defs_ok (surjective_pairing _)) eq_refl). Qed.

Lemma inference_exact_witness :
  ∃ m s, infer_effects 3 example_pkg example_tables example_known empty_idx = Some m ∧ m !! 0%nat = Some s
         ∧ ∀ x, x ∈ s ↔ Reaches example_pkg example_tables example_known 32 0 x.
Proof.
  destruct (infer_effects 3 example_pkg example_tables example_known empty_idx) as [m|] eqn:E; [|vm_compute in E; discriminate E].
  destruct (inference_exact 3 example_pkg example_tables example_known empty_idx m 0 0 example_known_ok E eq_refl) as (s & Hs & H & _).
  exists m, s. exact (conj eq_refl (conj Hs H)).
Defined.

(** The pass returns.  With distinct ids in the tables and signatures
    that name only their own variables, fuel of the depth of the bodies is
    enough, and exactly the functions with a body get effects. *)
Theorem effect_pass_returns n pkg defs profile :
  tables_ok defs → Z.of_nat (size (effects defs)) < 2 ^ 31 → sigs_ok defs → package_fits n pkg →
  ∃ r, infer_and_validate n pkg defs profile = Some r ∧
       ∀ g, is_Some (inf_effects r !! g) ↔ is_Some (body_of pkg g).
Proof.
  intros Hd Hz Hs Hp. destruct (infer_and_validate_returns n pkg defs profile Hd Hs Hp) as [r Hr]. exists r. split; [done|].
  pose proof (infer_and_validate_inv n pkg defs profile r Hd Hr) as H. destruct (intern_known defs) as [known d].
  destruct H as (_ & Hk & idx & m & others & mine & Hm & _ & _ & _ & ->). intros g. rewrite lookup_fmap, fmap_is_Some.
  exact (proj1 (infer_effects_spec pkg d known (Hk Hz) n idx m Hm) g).
Qed.

Lemma example_sigs_ok : sigs_ok example_defs.
Proof.
  intros m sig. unfold row_sig_of. cbn. intros H. destruct (decide (m = "map"%string)) as [->|N].
  - vm_compute in H. injection H as <-. unfold sig_ok. cbn. split; [lia|]. split; [repeat constructor; cbn; lia|lia].
  - rewrite lookup_singleton_ne in H by done. discriminate H.
Qed.

Lemma example_fits : package_fits 2 example_pkg.
Proof.
  assert (∀ b e c, blocks example_pkg !! b = Some (mkBlock [] (Some e)) → exprs example_pkg !! e = Some (ECall c []) →
    (∃ segs, exprs example_pkg !! c = Some (EPath segs)) → Fits example_pkg 2 (NBlock b)) as Hcall.
  { intros b e c Hb He [segs Hc]. eapply Fits_block; [exact Hb|]. intros ? ->%list_elem_of_singleton.
    eapply Fits_expr; [exact He|]. intros ? ->%list_elem_of_singleton. eapply Fits_expr; [exact Hc|]. by intros ? ?%elem_of_nil. }
  intros f Hf. cbn in Hf. apply elem_of_cons in Hf as [->|Hf]; [|apply list_elem_of_singleton in Hf as ->]; cbn;
    (split; [|by intros p t ?%elem_of_nil]); intros b [= <-]; eapply Hcall; eauto; reflexivity.
Qed.

Lemma effect_pass_returns_witness :
  ∃ r, infer_and_validate 2 example_pkg example_defs Host = Some r ∧ is_Some (inf_effects r !! 0%nat).
Proof.
  destruct (effect_pass_returns 2 example_pkg example_defs Host example_defs_ok eq_refl example_sigs_ok example_fits) as (r & Hr & H).
  exists r. split; [exact Hr|]. apply H. by exists 0%nat.
Defined.

(** ** What the check of the public functions reports *)

(** C35. The report of undeclared effects.  For a public function with a
    body, every name of an effect it is found to have and does not declare is
    in a diagnostic of it; and every diagnostic of that code is of a public
    function, and names only such effects. *)
Theorem undeclared_exact n pkg defs profile r :
  tables_ok defs → Z.of_nat (size (effects defs)) < 2 ^ 31 → infer_and_validate n pkg defs profile = Some r →
  let known := (intern_known defs).1 in
  let d := (intern_known defs).2 in
  (∀ fid f nm x, fns pkg !! fid = Some f → fn_is_pub f = true → effects d !! nm = Some x →
     Reaches pkg d known 32 fid x → nm ∉ fn_effects f →
     ∃ ms, nm ∈ ms ∧ effect_undeclared (fn_name f) ms (fn_span f) ∈ inf_diagnostics r) ∧
  (∀ dg, dg ∈ inf_diagnostics r → d_code dg = EFFECT_UNDECLARED →
     ∃ fid f ms, fns pkg !! fid = Some f ∧ fn_is_pub f = true ∧ ms ≠ [] ∧
       dg = effect_undeclared (fn_name f) ms (fn_span f) ∧
       ∀ nm, nm ∈ ms → nm ∉ fn_effects f ∧ ∃ x, effects (inf_defs r) !! nm = Some x ∧ Reaches pkg d known 32 fid x).
Proof.
  intros Hd Hz Hr. pose proof (infer_and_validate_inv n pkg defs profile r Hd Hr) as H.
  destruct (intern_known defs) as [known d]. cbn [fst snd]. destruct H as (Hg & Hk & idx & m & others & mine & Hm & Hv & -> & Ho & _).
  destruct (infer_effects_spec pkg d known (Hk Hz) n idx m Hm) as [Hdom Hs].
  destruct (validate_fns_spec _ _ _ _ _ _ _ (proj1 Hg) Hv) as (_ & Hall & Hjust). split.
  - intros fid f nm x Hf Hp Hn Hx Hnot. destruct (proj2 (Hdom fid) (Reaches_body _ _ _ _ _ _ Hx)) as [s Es].
    destruct (Hall fid f s) as (e & es & Ge & _ & Hsub & ms & Hms & Hes); [by apply elem_of_indexed|done|done|].
    exists ms. assert (nm ∈ ms) as Hin.
    { apply Hms. exists x. split_and!; [by apply (Hs fid s Es)|eapply lookup_weaken; [exact Hn|apply Ge]|done]. }
    split; [done|]. apply elem_of_app. right. apply Hsub, Hes. left. split; [|done]. intros ->. by apply elem_of_nil in Hin.
  - intros dg [Hin|Hin]%elem_of_app Hc; [rewrite Forall_forall in Ho; by destruct (Ho dg Hin)|].
    destruct (Hjust dg Hin) as (fid & f & s & e & es & Hf & Hp & Es & _ & Ge & Hes & ms & Hms & Hrep).
    destruct (proj1 (Hrep dg) Hes) as [[Hne E]|(_ & _ & E)]; [|by rewrite E in Hc]. exists fid, f, ms. split_and!; [by apply elem_of_indexed|done..|].
    intros nm Hnm. apply Hms in Hnm as (x & Hx & En & Hnot). split; [done|]. exists x. split; [eapply lookup_weaken; [exact En|apply Ge]|].
    by apply (Hs fid s Es).
Qed.

Definition example_run : option Inferred := infer_and_validate 3 example_pkg example_defs Host.

Lemma undeclared_exact_witness :
  ∃ r, example_run = Some r ∧
  ∀ dg, dg ∈ inf_diagnostics r → d_code dg = EFFECT_UNDECLARED →
    ∃ fid f ms, fns example_pkg !! fid = Some f ∧ fn_is_pub f = true ∧ ms ≠ [] ∧
      dg = effect_undeclared (fn_name f) ms (fn_span f).
Proof.
  destruct example_run as [r|] eqn:E; [|vm_compute in E; discriminate E]. exists r. split; [reflexivity|]. intros dg Hin Hc.
  destruct (proj2 (undeclared_exact 3 example_pkg example_defs Host r example_defs_ok eq_refl E) dg Hin Hc)
    as (fid & f & ms & H1 & H2 & H3 & H4 & _).
  exists fid, f, ms. exact (conj H1 (conj H2 (conj H3 H4))).
Defined.

(** The ban of [alloc]: the diagnostics of its code are exactly those of
    the public functions found to allocate, under the profile [core] only. *)
Theorem core_alloc_exact n pkg defs profile r dg :
  tables_ok defs → Z.of_nat (size (effects defs)) < 2 ^ 31 → infer_and_validate n pkg defs profile = Some r →
  let known := (intern_known defs).1 in
  let d := (intern_known defs).2 in
  dg ∈ inf_diagnostics r ∧ d_code dg = ALLOC_IN_CORE ↔
  profile = Core ∧ ∃ fid f, fns pkg !! fid = Some f ∧ fn_is_pub f = true ∧
    Reaches pkg d known 32 fid (k_alloc known) ∧ dg = alloc_in_core (fn_name f) (fn_span f).
Proof.
  intros Hd Hz Hr. pose proof (infer_and_validate_inv n pkg defs profile r Hd Hr) as H.
  destruct (intern_known defs) as [known d]. cbn [fst snd]. destruct H as (Hg & Hk & idx & m & others & mine & Hm & Hv & -> & Ho & _).
  destruct (infer_effects_spec pkg d known (Hk Hz) n idx m Hm) as [Hdom Hs].
  destruct (validate_fns_spec _ _ _ _ _ _ _ (proj1 Hg) Hv) as (_ & Hall & Hjust). split.
  - intros [[Hin|Hin]%elem_of_app Hc]; [rewrite Forall_forall in Ho; by destruct (Ho dg Hin)|].
    destruct (Hjust dg Hin) as (fid & f & s & e & es & Hf & Hp & Es & _ & Ge & Hes & ms & Hms & Hrep).
    destruct (proj1 (Hrep dg) Hes) as [[Hne E]|(Hcore & Ha & E)]; [by rewrite E in Hc|]. split; [done|]. exists fid, f.
    split_and!; [by apply elem_of_indexed|done|by apply (Hs fid s Es)|done].
  - intros (Hcore & fid & f & Hf & Hp & Hx & ->). split; [|done]. apply elem_of_app. right.
    destruct (proj2 (Hdom fid) (Reaches_body _ _ _ _ _ _ Hx)) as [s Es].
    destruct (Hall fid f s) as (e & es & Ge & _ & Hsub & ms & Hms & Hes); [by apply elem_of_indexed|done|done|].
    apply Hsub, Hes. right. split_and!; [done|by apply (Hs fid s Es)|done].
Qed.

Lemma core_alloc_exact_witness :
  ∃ r, example_run = Some r ∧
       ¬ (alloc_in_core "main" no_span ∈ inf_diagnostics r ∧ d_code (alloc_in_core "main" no_span) = ALLOC_IN_CORE).
Proof.
  destruct example_run as [r|] eqn:E; [|vm_compute in E; discriminate E]. exists r. split; [reflexivity|]. intros H.
  destruct (proj1 (core_alloc_exact 3 example_pkg example_defs Host r (alloc_in_core "main" no_span) example_defs_ok eq_refl E) H)
    as [Hc _].
  discriminate Hc.
Defined.

(** ** The bound of the rounds *)

(** A chain of [k] functions, the first public, the last reads a file. *)
Definition chain_name (i : nat) : string := "f" +:+ pretty i.

Definition chain_pkg (k : nat) : Package :=
  mkPackage [] ((λ i, example_fn (chain_name i) (i =? 0)%nat i) <$> seq 0 k) [] [] [] [] [] [] 
    (concat ((λ i, [EPath (if (S i =? k)%nat then ["fs"; "read"]%string else [chain_name (S i)]); ECall (2 * i) []]) <$> seq 0 k))
    [] [] ((λ i, mkBlock [] (Some (2 * i + 1)%nat)) <$> seq 0 k) [] [] ∅.

Definition chain_defs (k : nat) : DefTables :=
  mkTables ((λ i, example_fn_def (chain_name i) i) <$> seq 0 k)
    (list_to_map ((λ i, (chain_name i, DFn i)) <$> seq 0 k)) ∅ ∅.

(** The rounds stop at 32: a public function that reads a file 32 calls
    away is reported, one that reads it 33 calls away is not. *)
Theorem deep_calls_lost :
  inf_diagnostics <$> infer_and_validate 3 (chain_pkg 33) (chain_defs 33) Host
    = Some [effect_undeclared "f0" ["fs"%string] no_span]
  ∧ inf_diagnostics <$> infer_and_validate 3 (chain_pkg 34) (chain_defs 34) Host = Some [].
Proof. by split; vm_compute. Qed.
