(* ===== verification/Taint.v ===== *)
(** * The taint pass

    [crates/mty-types/src/taint.rs].  An action of the pass is one of [ST]
    over its state; [None] is a node out of range or the end of the fuel,
    which is the nesting of the body.  The stacks [scopes] and [ctor_source]
    have their top first; a [usize] is an [N].  The flows it tracks are
    stated after it. *)

From stdpp Require Import base list strings numbers gmap pretty.
From S2P Require Import Prelude StateM TyArena Hir BorrowState.

Local Open Scope string_scope.
Local Open Scope list_scope.
Notation length := List.length (only parsing).

Definition TAINTED_VALUE_TO_SINK : Z := 4099.
Definition USIZE_MAX : N := 2 ^ 64 - 1.

(** ** The tables *)

Definition is_tainted_source (receiver_path method : string) : bool :=
  bool_decide ((receiver_path, method) ∈
    [("Member", "ask"); ("anthropic", "messages"); ("openai", "responses"); ("openai", "complete");
     ("gemini", "generate_content"); ("bedrock", "converse"); ("mcp", "call_tool"); ("mcp.Client", "call_tool");
     ("McpClient", "call_tool"); ("std.http", "get"); ("std.http", "post"); ("std.env", "var"); ("std.env", "args")]).

Definition is_tainted_call (path : string) : bool := bool_decide (path ∈ ["std.env.var"; "std.env.args"]).

Definition sink_sensitive_arg (receiver_path method : string) : option N :=
  if bool_decide ((receiver_path, method) ∈ [("std.fs", "write"); ("fs", "write")]) then Some 1%N
  else if bool_decide ((receiver_path, method) ∈
            [("Command", "arg"); ("std.process.Command", "arg"); ("process.Command", "arg")]) then Some USIZE_MAX
  else if bool_decide ((receiver_path, method) ∈
            [("std.sql", "execute"); ("sql", "execute"); ("Request", "body"); ("std.net.Request", "body");
             ("net.Request", "body")]) then Some 0%N
  else None.

Definition sink_sensitive_call_arg (path : string) : option N :=
  if bool_decide (path = "std.fs.write") then Some 1%N
  else if bool_decide (path = "std.sql.execute") then Some 0%N
  else None.

Definition is_untaint_method (method : string) : bool :=
  bool_decide (method ∈ ["matches_regex"; "in_allowlist"; "sanitize_with"]).

Definition is_taint_dropping_projection (method : string) : bool :=
  bool_decide (method ∈ ["len"; "is_empty"; "capacity"]).

Definition is_implicit_untaint_callee (path : string) : bool :=
  bool_decide (path ∈ ["log"; "print"; "eprintln"; "panic"; "dbg"]).

Definition is_implicit_untaint_method (method : string) : bool :=
  bool_decide (method ∈ ["log"; "print"; "info"; "warn"; "error"; "debug"; "trace"]).

Definition is_known_ctor_type (name : string) : bool :=
  bool_decide (name ∈
    ["Member"; "AnthropicClient"; "OpenAIClient"; "GeminiClient"; "BedrockClient"; "anthropic"; "openai"; "gemini";
     "bedrock"; "McpClient"; "mcp.Client"; "Command"; "std.process.Command"; "process.Command"; "Request";
     "std.net.Request"; "net.Request"; "Response"; "std.http.Response"]).

(** ** The state *)

Record TaintCx : Type := mkTaint {
  expr_tainted : gmap ExprId bool;
  scopes : list (gmap string bool);
  ctor_source : list (gmap string string);
  diagnostics : list Diagnostic
}.

Definition new_taint : TaintCx := mkTaint ∅ [] [] [].

Definition T (A : Type) : Type := ST TaintCx A.

Definition enter : T unit :=
  modify (λ cx, mkTaint (expr_tainted cx) (∅ :: scopes cx) (∅ :: ctor_source cx) (diagnostics cx)).

Definition leave : T unit :=
  modify (λ cx, mkTaint (expr_tainted cx) (List.tl (scopes cx)) (List.tl (ctor_source cx)) (diagnostics cx)).

(** [last_mut] then [insert]. *)
Definition insert_top {A} (name : string) (a : A) (stack : list (gmap string A)) : list (gmap string A) :=
  match stack with [] => [] | top :: rest => <[name := a]> top :: rest end.

Definition bind (name : string) (tainted : bool) : T unit :=
  modify (λ cx, mkTaint (expr_tainted cx) (insert_top name tainted (scopes cx)) (ctor_source cx) (diagnostics cx)).

Definition bind_ctor_source (name src : string) : T unit :=
  modify (λ cx, mkTaint (expr_tainted cx) (scopes cx) (insert_top name src (ctor_source cx)) (diagnostics cx)).

(** The first frame from the top that has the name. *)
Fixpoint lookup_stack {A} (stack : list (gmap string A)) (name : string) : option A :=
  match stack with
  | [] => None
  | top :: rest => match top !! name with Some a => Some a | None => lookup_stack rest name end
  end.

Definition lookup_local (name : string) : T (option bool) := gets (λ cx, lookup_stack (scopes cx) name).
Definition lookup_ctor_source (name : string) : T (option string) := gets (λ cx, lookup_stack (ctor_source cx) name).

Definition record_taint (e : ExprId) (t : bool) : T unit :=
  modify (λ cx, mkTaint (<[e := t]> (expr_tainted cx)) (scopes cx) (ctor_source cx) (diagnostics cx)).

Definition push_diagnostic (d : Diagnostic) : T unit :=
  modify (λ cx, mkTaint (expr_tainted cx) (scopes cx) (ctor_source cx) (diagnostics cx ++ [d])).

Definition join_dots (segs : list string) : string := String.concat "." segs.

Section pass.
Variable pkg : Package.

Definition path_text_of (e : HirExpr) : option string :=
  match e with
  | EPath segs => Some (join_dots segs)
  | EPathGeneric segments _ => Some (join_dots segments)
  | _ => None
  end.

Definition path_text (e : ExprId) : T (option string) := x ← lift (exprs pkg !! e); mret (path_text_of x).

(** ** Patterns *)

Fixpoint concat_names {A} (f : A → option (list string)) (xs : list A) : option (list string) :=
  match xs with [] => Some [] | x :: xs => a ← f x; b ← concat_names f xs; Some (a ++ b) end.

Definition opt_names (f : PatId → option (list string)) (o : option PatId) : option (list string) :=
  match o with Some p => f p | None => Some [] end.

Fixpoint collect_pat_names (n : nat) (pid : PatId) : option (list string) :=
  match n with
  | O => None
  | S n =>
      p ← pats pkg !! pid;
      match p with
      | PBinding name sub => ns ← opt_names (collect_pat_names n) sub; Some (name :: ns)
      | PRef _ inner => collect_pat_names n inner
      | PTuple xs => concat_names (collect_pat_names n) xs
      | PStruct _ fields => concat_names (λ f, opt_names (collect_pat_names n) f.2) fields
      | PEnum _ args => concat_names (collect_pat_names n) args
      | _ => Some []
      end
  end.

(** The names of a pattern; a pattern is no deeper than the arena is long. *)
Definition pat_names (pid : PatId) : option (list string) := collect_pat_names (S (length (pats pkg))) pid.

Fixpoint bind_all (names : list string) (tainted : bool) : T unit :=
  match names with [] => mret () | n :: names => bind n tainted ≫= λ _, bind_all names tainted end.

Definition bind_pat (pid : PatId) (tainted : bool) : T unit := ns ← lift (pat_names pid); bind_all ns tainted.

(** ** Sinks *)

Definition sink_message (sink_label : string) (idx : nat) : string :=
  "tainted value flows to `" +:+ sink_label +:+ "` (arg #" +:+ pretty idx +:+
  ") — untaint via `.matches_regex(...)`, `.in_allowlist[Enum]()`, or `.sanitize_with(HtmlEscape | ShellEscape | SqlEscape | PathBoundary(...))`".

(** The span of the argument, or of the call, or none. *)
Definition sink_span (args : list HirArg) (idx : nat) (site : ExprId) : SourceSpan :=
  default no_span
    (match (a ← args !! idx; expr_spans pkg !! arg_value a) with
     | Some s => Some s
     | None => expr_spans pkg !! site
     end).

Definition sink_report (sink_label : string) (args : list HirArg) (site : ExprId) (idx : nat) : Diagnostic :=
  error TAINTED_VALUE_TO_SINK (label (sink_span args idx site) (sink_message sink_label idx)).

Definition to_check (sensitive_idx : N) (args : list HirArg) : list nat :=
  if decide (sensitive_idx = USIZE_MAX) then seq 0 (length args) else [N.to_nat sensitive_idx].

Fixpoint report_all (sink_label : string) (args : list HirArg) (arg_t : list bool) (site : ExprId) (idxs : list nat) : T unit :=
  match idxs with
  | [] => mret ()
  | i :: idxs =>
      (if default false (arg_t !! i) then push_diagnostic (sink_report sink_label args site i) else mret ()) ≫= λ _,
      report_all sink_label args arg_t site idxs
  end.

Definition report_sink_if_tainted (sink_label : string) (sensitive_idx : N) (args : list HirArg) (arg_t : list bool)
    (site : ExprId) : T unit := report_all sink_label args arg_t site (to_check sensitive_idx args).

(** The report, after which no argument counts as tainted. *)
Definition sink_and_clear (sink : option (string * N)) (args : list HirArg) (arg_t : list bool) (site : ExprId) : T (list bool) :=
  match sink with
  | Some (sink_label, idx) => _ ← report_sink_if_tainted sink_label idx args arg_t site; mret ((λ _, false) <$> arg_t)
  | None => mret arg_t
  end.

Definition any_taint (ts : list bool) : bool := existsb id ts.

Section shape.
(** The recursive call on the nodes below. *)
Variable check : ExprId → T bool.

Fixpoint check_any (xs : list ExprId) : T bool :=
  match xs with [] => mret false | x :: xs => a ← check x; b ← check_any xs; mret (a || b) end.

Fixpoint check_args (args : list HirArg) : T (list bool) :=
  match args with [] => mret [] | a :: args => t ← check (arg_value a); ts ← check_args args; mret (t :: ts) end.

Definition check_opt (o : option ExprId) : T bool := match o with Some e => check e | None => mret false end.

(** [let x = T.ctor(...)] *)
Definition ctor_of (e : ExprId) : T (option string) :=
  x ← lift (exprs pkg !! e);
  match x with
  | ECall callee _ =>
      c ← lift (exprs pkg !! callee);
      mret (match c with
            | EPath [a; _] => if is_known_ctor_type a then Some a else None
            | EPath [a; b; _] => let pfx := a +:+ "." +:+ b in if is_known_ctor_type pfx then Some pfx else None
            | _ => None
            end)
  | _ => mret None
  end.

Fixpoint bind_let (names : list string) (tainted : bool) (ctor : option string) : T unit :=
  match names with
  | [] => mret ()
  | n :: names =>
      bind n tainted ≫= λ _,
      (match ctor with Some s => bind_ctor_source n s | None => mret () end) ≫= λ _,
      bind_let names tainted ctor
  end.

Definition check_stmt (s : HirStmt) : T unit :=
  match s with
  | SLet pat _ init _ =>
      tainted ← check_opt init;
      ctor ← match init with Some e => ctor_of e | None => mret None end;
      ns ← lift (pat_names pat);
      bind_let ns tainted ctor
  | SExpr e => void (check e)
  end.

Definition check_block (b : BlockId) : T bool :=
  _ ← enter;
  blk ← lift (blocks pkg !! b);
  _ ← StateM.each check_stmt (stmts blk);
  t ← check_opt (tail blk);
  _ ← leave;
  mret t.

(** A call whose path starts with a local. *)
Definition check_local_call (recv_t : bool) (local method : string) (args : list HirArg) (arg_t : list bool) (e : ExprId) : T bool :=
  src ← lookup_ctor_source local;
  let recv_path := default EmptyString src in
  let sink := (λ i, (recv_path +:+ "." +:+ method, i)) <$> sink_sensitive_arg recv_path method in
  arg_t ← sink_and_clear sink args arg_t e;
  mret (if negb (String.eqb recv_path "") && is_tainted_source recv_path method then true
        else if is_untaint_method method then false
        else if is_taint_dropping_projection method then false
        else if is_implicit_untaint_method method then false
        else recv_t || any_taint arg_t).

Definition two_segment_sink (segs : list string) : option (string * N) :=
  match segs with [recv; method] => (λ i, (join_dots segs, i)) <$> sink_sensitive_arg recv method | _ => None end.

Definition check_path_call (segs : list string) (args : list HirArg) (arg_t : list bool) (e : ExprId) : T bool :=
  let path := join_dots segs in
  arg_t ← sink_and_clear ((λ i, (path, i)) <$> sink_sensitive_call_arg path) args arg_t e;
  arg_t ← sink_and_clear (two_segment_sink segs) args arg_t e;
  mret (if is_implicit_untaint_callee path then false
        else if is_tainted_call path then true
        else if (match segs with [a; m] => is_tainted_source a m | _ => false end) then true
        else if (match segs with [a; b; m] => is_tainted_source (a +:+ "." +:+ b) m | _ => false end) then true
        else any_taint arg_t).

Definition callee_segs (c : HirExpr) : list string :=
  match c with EPath s => s | EPathGeneric segments _ => segments | _ => [] end.

Definition check_call (callee : ExprId) (args : list HirArg) (e : ExprId) : T bool :=
  c ← lift (exprs pkg !! callee);
  let segs := callee_segs c in
  arg_t ← check_args args;
  sugar ← match segs with first :: _ :: _ => lookup_local first | _ => mret None end;
  match sugar, segs with
  | Some recv_t, first :: rest => check_local_call recv_t first (join_dots rest) args arg_t e
  | _, _ => check_path_call segs args arg_t e
  end.

Definition check_method_call (receiver : ExprId) (method : string) (args : list HirArg) (e : ExprId) : T bool :=
  recv_t ← check receiver;
  arg_t ← check_args args;
  p ← path_text receiver;
  let recv_path := default EmptyString p in
  let sink := (λ i, (recv_path +:+ "." +:+ method, i)) <$> sink_sensitive_arg recv_path method in
  arg_t ← sink_and_clear sink args arg_t e;
  mret (if is_tainted_source recv_path method then true
        else if is_untaint_method method then false
        else if is_taint_dropping_projection method then false
        else if is_implicit_untaint_method method then false
        else recv_t || any_taint arg_t).

(** A path read as a value. *)
Definition check_path (segs : list string) : T bool :=
  match segs with [] => mret false | first :: _ => o ← lookup_local first; mret (default false o) end.

(** The body of an arm or a loop under the names of its pattern. *)
Definition under_pat {A} (pat : PatId) (tainted : bool) (body : T A) : T A :=
  _ ← enter; _ ← bind_pat pat tainted; r ← body; _ ← leave; mret r.

Fixpoint check_arms (scrut_t : bool) (arms : list HirMatchArm) : T bool :=
  match arms with
  | [] => mret false
  | arm :: arms =>
      a ← under_pat (arm_pat arm) scrut_t (_ ← check_opt (arm_guard arm); check (arm_body arm));
      b ← check_arms scrut_t arms;
      mret (a || b)
  end.

Definition http_body (name : string) (receiver : option string) : bool :=
  String.eqb name "body" && match receiver with Some p => String.eqb p "std.http.get" || String.eqb p "std.http.post" | None => false end.

Fixpoint check_entries (entries : list (ExprId * ExprId)) : T bool :=
  match entries with
  | [] => mret false
  | kv :: entries => a ← check kv.1; b ← check kv.2; c ← check_entries entries; mret (a || b || c)
  end.

Definition check_expr_inner (e : ExprId) (expr : HirExpr) : T bool :=
  match expr with
  | ELiteral _ | EContinue | EHtmlTemplate _ | EError => mret false
  | EPath segs | EPathGeneric segs _ => check_path segs
  | ETuple xs | EArray xs => check_any xs
  | EBinary _ l r | EIndex l r => check_any [l; r]
  | EUnary _ x | EBorrow _ x | EMove x | EQuestion x | ECast x _ | ERun x | ESpawn _ x | EDetach x | EJoin x | EArena _ x => check x
  | EBlock b | EUnsafe b => check_block b
  | EIf c t el => _ ← check c; a ← check_block t; b ← check_opt el; mret (a || b)
  | EIfLet pat s t el => st ← check s; a ← under_pat pat st (check_block t); b ← check_opt el; mret (a || b)
  | EWhile c body => _ ← check c; _ ← check_block body; mret false
  | EWhileLet pat s body | EFor pat s body => st ← check s; _ ← under_pat pat st (check_block body); mret false
  | ELoop body => _ ← check_block body; mret false
  | EMatch s arms => st ← check s; check_arms st arms
  | EReturn o | EBreak o => _ ← check_opt o; mret false
  | EStruct _ fields => check_any (snd <$> fields)
  | EMap pairs => check_entries pairs
  | EField r name => t ← check r; p ← path_text r; mret (if http_body name p then true else t)
  | ESend t _ args | EAsk t _ args => _ ← check t; check_any (arg_value <$> args)
  | EDeadline inner dur => _ ← check dur; check inner
  | ETaskScope d body => _ ← check_opt d; check_block body
  | EBudget entries body => _ ← check_any (snd <$> entries); check body
  | ESandbox _ entries body => _ ← check_any (snd <$> entries); check_block body
  | ELambda _ _ body => _ ← enter; _ ← check_block body; _ ← leave; mret false
  | ECall callee args => check_call callee args e
  | EMethodCall r m args => check_method_call r m args e
  end.
End shape.

Fixpoint check_expr (n : nat) (e : ExprId) : T bool :=
  match n with
  | O => stuck
  | S n =>
      x ← lift (exprs pkg !! e);
      t ← check_expr_inner (check_expr n) e x;
      _ ← record_taint e t;
      mret t
  end.

(** ** The pass *)

(** A body under clean parameters. *)
Definition check_body (n : nat) (params : list string) (body : option BlockId) : T unit :=
  _ ← enter;
  _ ← bind_all params false;
  _ ← when_some body (λ b, void (check_block (check_expr n) b));
  leave.

Definition check_fn (n : nat) (fid : FnId) : T unit :=
  f ← lift (fns pkg !! fid);
  check_body n (param_name <$> fn_params f) (fn_body f).

Definition check_handler (n : nat) (h : HirOnHandler) : T unit := check_body n (oh_params h) (Some (oh_body h)).

Definition check_item (n : nat) (i : ItemId) : T unit :=
  it ← lift (items pkg !! i);
  match it with
  | ItFn fid => check_fn n fid
  | ItAgent aid =>
      ag ← lift (agents pkg !! aid);
      _ ← StateM.each (check_fn n) (ag_methods ag);
      StateM.each (check_handler n) (ag_handlers ag)
  | _ => mret ()
  end.

Definition check (n : nat) : option (list Diagnostic) :=
  r ← StateM.each (check_item n) (top_level pkg) new_taint;
  Some (diagnostics r.2).
End pass.

(** ** Where taint comes from: a specification

    An environment says, for every name in scope, which expression it was
    bound to and in which environment that one was read.  [Tainted Γ node]: a
    source reaches the value of [node], through the operations that propagate
    taint and through bindings.  [Visits Γ node Γ' e]: the pass comes to the
    expression [e] under [Γ'].  The pass is proved to decide the first, and to
    report the tainted arguments of the sinks among the second. *)

(** What a name is bound to: a clean value, or that of an expression. *)
Inductive Origin :=
  | OClean
  | OFrom (fs : list (list (string * Origin))) (cs : list (gmap string string)) (e : ExprId).

(** The frames of names and of constructor types, the top first. *)
Record Env := mkEnv { frames : list (list (string * Origin)); ctors : list (gmap string string) }.

Definition env0 : Env := mkEnv [] [].
Definition of_expr (Γ : Env) (e : ExprId) : Origin := OFrom (frames Γ) (ctors Γ) e.

Fixpoint assoc {A} (name : string) (f : list (string * A)) : option A :=
  match f with [] => None | (m, a) :: f => if String.eqb name m then Some a else assoc name f end.

Fixpoint lookup_frames (fs : list (list (string * Origin))) (name : string) : option Origin :=
  match fs with
  | [] => None
  | f :: fs => match assoc name f with Some o => Some o | None => lookup_frames fs name end
  end.

Definition env_enter (Γ : Env) : Env := mkEnv ([] :: frames Γ) (∅ :: ctors Γ).

Definition cons_top {A} (a : A) (fs : list (list A)) : list (list A) :=
  match fs with [] => [] | f :: fs => (a :: f) :: fs end.

Definition env_bind (name : string) (o : Origin) (Γ : Env) : Env := mkEnv (cons_top (name, o) (frames Γ)) (ctors Γ).
Definition env_ctor (name src : string) (Γ : Env) : Env := mkEnv (frames Γ) (insert_top name src (ctors Γ)).

Fixpoint env_bind_all (names : list string) (o : Origin) (Γ : Env) : Env :=
  match names with [] => Γ | n :: names => env_bind_all names o (env_bind n o Γ) end.

Fixpoint env_let (names : list string) (o : Origin) (ctor : option string) (Γ : Env) : Env :=
  match names with
  | [] => Γ
  | n :: names =>
      let Γ := env_bind n o Γ in
      env_let names o ctor (match ctor with Some s => env_ctor n s Γ | None => Γ end)
  end.

Inductive Node := NExpr (e : ExprId) | NBlock (b : BlockId).

(** A node below: its environment, and whether its taint goes up. *)
Record Part := mkPart { part_env : Env; part_node : Node; part_flows : bool }.

(** What a call is to the pass. *)
Record CallInfo := mkCall {
  ci_source : bool;             (* the result is tainted *)
  ci_recv : option Origin;      (* the local it is called on, when its taint goes up *)
  ci_args : bool;               (* the arguments' taint goes up *)
  ci_sink : option (string * N) (* the arguments that must be clean *)
}.

Definition cleans (method : string) : bool :=
  is_untaint_method method || is_taint_dropping_projection method || is_implicit_untaint_method method.

Section flow.
Variable pkg : Package.

Definition names_of (pid : PatId) : list string := default [] (pat_names pkg pid).

Definition env_pat (pid : PatId) (o : Origin) (Γ : Env) : Env := env_bind_all (names_of pid) o (env_enter Γ).

(** ** Calls *)

Definition local_call (Γ : Env) (o : Origin) (local method : string) : CallInfo :=
  let recv := default EmptyString (lookup_stack (ctors Γ) local) in
  let sink := (λ i, (recv +:+ "." +:+ method, i)) <$> sink_sensitive_arg recv method in
  mkCall (negb (String.eqb recv "") && is_tainted_source recv method)
    (if cleans method then None else Some o)
    (negb (cleans method) && match sink with None => true | _ => false end) sink.

Definition path_source (segs : list string) : bool :=
  is_tainted_call (join_dots segs)
  || match segs with [a; m] => is_tainted_source a m | _ => false end
  || match segs with [a; b; m] => is_tainted_source (a +:+ "." +:+ b) m | _ => false end.

Definition path_sink (segs : list string) : option (string * N) :=
  match sink_sensitive_call_arg (join_dots segs) with Some i => Some (join_dots segs, i) | None => two_segment_sink segs end.

Definition path_call (segs : list string) : CallInfo :=
  let cleaned := is_implicit_untaint_callee (join_dots segs) in
  mkCall (negb cleaned && path_source segs) None
    (negb cleaned && match path_sink segs with None => true | _ => false end) (path_sink segs).

Definition call_info (Γ : Env) (segs : list string) : CallInfo :=
  match segs with
  | first :: (_ :: _) as rest =>
      match lookup_frames (frames Γ) first with
      | Some o => local_call Γ o first (join_dots rest)
      | None => path_call segs
      end
  | _ => path_call segs
  end.

Definition receiver_path (r : ExprId) : string := default EmptyString (x ← exprs pkg !! r; path_text_of x).

Definition method_sink (recv method : string) : option (string * N) :=
  (λ i, (recv +:+ "." +:+ method, i)) <$> sink_sensitive_arg recv method.

(** What an expression is by itself: a source, a name's value, a sink. *)
Definition source (Γ : Env) (y : HirExpr) : bool :=
  match y with
  | ECall c _ => match exprs pkg !! c with Some x => ci_source (call_info Γ (callee_segs x)) | None => false end
  | EMethodCall r m _ => is_tainted_source (receiver_path r) m
  | EField r name => http_body name (x ← exprs pkg !! r; path_text_of x)
  | _ => false
  end.

Definition origin (Γ : Env) (y : HirExpr) : option Origin :=
  match y with
  | EPath (first :: _) | EPathGeneric (first :: _) _ => lookup_frames (frames Γ) first
  | ECall c _ => x ← exprs pkg !! c; ci_recv (call_info Γ (callee_segs x))
  | _ => None
  end.

Definition sink (Γ : Env) (y : HirExpr) : option (string * N * list HirArg) :=
  match y with
  | ECall c args => x ← exprs pkg !! c; s ← ci_sink (call_info Γ (callee_segs x)); Some (s, args)
  | EMethodCall r m args => s ← method_sink (receiver_path r) m; Some (s, args)
  | _ => None
  end.

(** ** The nodes below *)

Definition up (Γ : Env) (e : ExprId) : Part := mkPart Γ (NExpr e) true.
Definition aside (Γ : Env) (e : ExprId) : Part := mkPart Γ (NExpr e) false.
Definition opt_part (f : ExprId → Part) (o : option ExprId) : list Part := match o with Some e => [f e] | None => [] end.
Definition arg_parts (Γ : Env) (flows : bool) (args : list HirArg) : list Part :=
  (λ a, mkPart Γ (NExpr (arg_value a)) flows) <$> args.

Definition arm_parts (Γ : Env) (s : ExprId) (a : HirMatchArm) : list Part :=
  let Γ' := env_pat (arm_pat a) (of_expr Γ s) Γ in
  opt_part (aside Γ') (arm_guard a) ++ [up Γ' (arm_body a)].

Definition parts (Γ : Env) (y : HirExpr) : list Part :=
  match y with
  | ELiteral _ | EContinue | EHtmlTemplate _ | EError | EPath _ | EPathGeneric _ _ => []
  | ETuple xs | EArray xs => up Γ <$> xs
  | EBinary _ l r | EIndex l r => [up Γ l; up Γ r]
  | EUnary _ x | EBorrow _ x | EMove x | EQuestion x | ECast x _ | ERun x | ESpawn _ x | EDetach x | EJoin x
  | EArena _ x | EField x _ => [up Γ x]
  | EBlock b | EUnsafe b => [mkPart Γ (NBlock b) true]
  | EIf c t el => aside Γ c :: mkPart Γ (NBlock t) true :: opt_part (up Γ) el
  | EIfLet p s t el => aside Γ s :: mkPart (env_pat p (of_expr Γ s) Γ) (NBlock t) true :: opt_part (up Γ) el
  | EWhile c body => [aside Γ c; mkPart Γ (NBlock body) false]
  | EWhileLet p s body | EFor p s body => [aside Γ s; mkPart (env_pat p (of_expr Γ s) Γ) (NBlock body) false]
  | ELoop body => [mkPart Γ (NBlock body) false]
  | EMatch s arms => aside Γ s :: (arms ≫= arm_parts Γ s)
  | EReturn o | EBreak o => opt_part (aside Γ) o
  | EStruct _ fields => (λ f, up Γ f.2) <$> fields
  | EMap pairs => pairs ≫= λ kv, [up Γ kv.1; up Γ kv.2]
  | ESend t _ args | EAsk t _ args => aside Γ t :: arg_parts Γ true args
  | EDeadline inner dur => [aside Γ dur; up Γ inner]
  | ETaskScope d body => opt_part (aside Γ) d ++ [mkPart Γ (NBlock body) true]
  | EBudget entries body => ((λ f, aside Γ f.2) <$> entries) ++ [up Γ body]
  | ESandbox _ entries body => ((λ f, aside Γ f.2) <$> entries) ++ [mkPart Γ (NBlock body) true]
  | ELambda _ _ body => [mkPart (env_enter Γ) (NBlock body) false]
  | ECall c args =>
      match exprs pkg !! c with Some x => arg_parts Γ (ci_args (call_info Γ (callee_segs x))) args | None => [] end
  | EMethodCall r m args =>
      mkPart Γ (NExpr r) (negb (cleans m))
      :: arg_parts Γ (negb (cleans m) && match method_sink (receiver_path r) m with None => true | _ => false end) args
  end.

Definition ctor_name (e : ExprId) : option string :=
  match exprs pkg !! e with
  | Some (ECall callee _) =>
      match exprs pkg !! callee with
      | Some (EPath [a; _]) => if is_known_ctor_type a then Some a else None
      | Some (EPath [a; b; _]) => if is_known_ctor_type (a +:+ "." +:+ b) then Some (a +:+ "." +:+ b) else None
      | _ => None
      end
  | _ => None
  end.

Definition stmt_parts (Γ : Env) (st : HirStmt) : list Part :=
  match st with SLet _ _ init _ => opt_part (aside Γ) init | SExpr e => [aside Γ e] end.

Definition stmt_env (Γ : Env) (st : HirStmt) : Env :=
  match st with
  | SLet pat _ init _ =>
      env_let (names_of pat) (match init with Some e => of_expr Γ e | None => OClean end) (init ≫= ctor_name) Γ
  | SExpr _ => Γ
  end.

Fixpoint stmts_parts (Γ : Env) (sts : list HirStmt) : list Part :=
  match sts with [] => [] | st :: sts => stmt_parts Γ st ++ stmts_parts (stmt_env Γ st) sts end.

Definition stmts_env (Γ : Env) (sts : list HirStmt) : Env := foldl stmt_env Γ sts.

Definition block_parts (Γ : Env) (b : HirBlock) : list Part :=
  let Γ := env_enter Γ in stmts_parts Γ (stmts b) ++ opt_part (up (stmts_env Γ (stmts b))) (tail b).

(** The parts of a node, the facts of its own. *)
Definition node_parts (Γ : Env) (c : Node) : list Part :=
  match c with
  | NExpr e => match exprs pkg !! e with Some y => parts Γ y | None => [] end
  | NBlock b => match blocks pkg !! b with Some blk => block_parts Γ blk | None => [] end
  end.

Inductive Tainted : Env → Node → Prop :=
  | Tainted_source Γ e y : exprs pkg !! e = Some y → source Γ y = true → Tainted Γ (NExpr e)
  | Tainted_name Γ e y fs cs e' :
      exprs pkg !! e = Some y → origin Γ y = Some (OFrom fs cs e') → Tainted (mkEnv fs cs) (NExpr e') → Tainted Γ (NExpr e)
  | Tainted_part Γ c p : p ∈ node_parts Γ c → part_flows p = true → Tainted (part_env p) (part_node p) → Tainted Γ c.

Inductive Visits : Env → Node → Env → ExprId → Prop :=
  | Visits_here Γ e : Visits Γ (NExpr e) Γ e
  | Visits_part Γ c p Γ' e : p ∈ node_parts Γ c → Visits (part_env p) (part_node p) Γ' e → Visits Γ c Γ' e.

Definition origin_tainted (o : Origin) : Prop :=
  match o with OClean => False | OFrom fs cs e => Tainted (mkEnv fs cs) (NExpr e) end.

(** The reports of the sinks a node has inside. *)
Definition Reported (Γ : Env) (c : Node) (d : Diagnostic) : Prop :=
  ∃ Γ' e y lbl idx args i a, Visits Γ c Γ' e ∧ exprs pkg !! e = Some y ∧ sink Γ' y = Some (lbl, idx, args)
    ∧ i ∈ to_check idx args ∧ args !! i = Some a ∧ Tainted Γ' (NExpr (arg_value a)) ∧ d = sink_report pkg lbl args e i.

(** The bodies the pass starts from, with their parameters. *)
Inductive Root : list string → BlockId → Prop :=
  | Root_fn i fid f b :
      i ∈ top_level pkg → items pkg !! i = Some (ItFn fid) → fns pkg !! fid = Some f → fn_body f = Some b →
      Root (param_name <$> fn_params f) b
  | Root_method i aid ag fid f b :
      i ∈ top_level pkg → items pkg !! i = Some (ItAgent aid) → agents pkg !! aid = Some ag → fid ∈ ag_methods ag →
      fns pkg !! fid = Some f → fn_body f = Some b → Root (param_name <$> fn_params f) b
  | Root_handler i aid ag h :
      i ∈ top_level pkg → items pkg !! i = Some (ItAgent aid) → agents pkg !! aid = Some ag → h ∈ ag_handlers ag →
      Root (oh_params h) (oh_body h).

(** Parameters are clean. *)
Definition env_params (ps : list string) : Env := env_bind_all ps OClean (env_enter env0).
End flow.
