(* ===== verification/TaintSound.v ===== *)
(** * The taint pass is exact: lemmas

    [Agrees Γ cx]: the stacks of the state are those of the environment.
    [Runs m Γ Q R]: from such a state [m] leaves the stacks, answers in [Q]
    and reports [R]. *)

From stdpp Require Import base list strings numbers gmap.
From S2P Require Import Prelude StateM TyArena Hir BorrowState Taint.

Local Open Scope string_scope.
Local Open Scope list_scope.
Notation length := List.length (only parsing).

Section sound.
Variable pkg : Package.

Notation Tainted := (Tainted pkg).
Notation Reported := (Reported pkg).
Notation origin_tainted := (origin_tainted pkg).

(** ** States and environments *)

Definition both {A B} (R : A → B → Prop) (x : option A) (y : option B) : Prop :=
  match x, y with Some a, Some b => R a b | None, None => True | _, _ => False end.

Definition stands_for (o : Origin) (t : bool) : Prop := t = true ↔ origin_tainted o.

Definition frame_ok (f : list (string * Origin)) (g : gmap string bool) : Prop :=
  ∀ x, both stands_for (assoc x f) (g !! x).

Definition Agrees (Γ : Env) (cx : TaintCx) : Prop :=
  Forall2 frame_ok (frames Γ) (scopes cx) ∧ ctors Γ = ctor_source cx.

Lemma agrees_lookup Γ cx x :
  Agrees Γ cx → both stands_for (lookup_frames (frames Γ) x) (lookup_stack (scopes cx) x).
Proof.
  intros [H _]. induction H as [|f g fs gs Hf _ IH]; [done|]. cbn. specialize (Hf x).
  destruct (assoc x f), (g !! x); done.
Qed.

Lemma frame_ok_insert f g n o t : frame_ok f g → stands_for o t → frame_ok ((n, o) :: f) (<[n := t]> g).
Proof.
  intros Hf Ho x. cbn. destruct (String.eqb_spec x n) as [->|N]; [by rewrite lookup_insert_eq|].
  rewrite lookup_insert_ne by done. apply Hf.
Qed.

(** The state with other stacks. *)
Definition stacks (sc : list (gmap string bool)) (cs : list (gmap string string)) (cx : TaintCx) : TaintCx :=
  mkTaint (expr_tainted cx) sc cs (diagnostics cx).

Lemma agrees_enter Γ cx : Agrees Γ cx → Agrees (env_enter Γ) (stacks (∅ :: scopes cx) (∅ :: ctor_source cx) cx).
Proof. intros [H1 H2]. split; cbn; [constructor; [by intros x; cbn; rewrite lookup_empty|done]|by rewrite H2]. Qed.

Lemma agrees_bind Γ cx n o t :
  Agrees Γ cx → stands_for o t → Agrees (env_bind n o Γ) (stacks (insert_top n t (scopes cx)) (ctor_source cx) cx).
Proof.
  intros [H1 H2] Ho. split; cbn; [|done]. destruct H1 as [|f g fs gs Hf H]; cbn; [constructor|].
  constructor; [by apply frame_ok_insert|done].
Qed.

(** ** Triples *)

Definition none {A} (_ : A) : Prop := False.

(** What was reported between two states. *)
Definition reports (cx cx' : TaintCx) (R : Diagnostic → Prop) : Prop :=
  ∃ ds, diagnostics cx' = diagnostics cx ++ ds ∧ ∀ d, d ∈ ds ↔ R d.

Lemma reports_none cx cx' : diagnostics cx' = diagnostics cx → reports cx cx' none.
Proof. intros E. exists []. rewrite E, app_nil_r. split; [done|]. intros d. by rewrite elem_of_nil. Qed.

Lemma reports_trans cx cx1 cx2 R1 R2 : reports cx cx1 R1 → reports cx1 cx2 R2 → reports cx cx2 (λ d, R1 d ∨ R2 d).
Proof.
  intros (ds & E1 & H1) (es & E2 & H2). exists (ds ++ es). rewrite E2, E1, <-(assoc_L (++)). split; [done|].
  intros d. by rewrite elem_of_app, H1, H2.
Qed.

Definition Runs {A} (m : T A) (Γ : Env) (Q : A → Prop) (R : Diagnostic → Prop) : Prop :=
  ∀ cx a cx', Agrees Γ cx → m cx = Some (a, cx') →
    scopes cx' = scopes cx ∧ ctor_source cx' = ctor_source cx ∧ Q a ∧ reports cx cx' R.

Lemma agrees_same Γ cx cx' :
  Agrees Γ cx → scopes cx' = scopes cx → ctor_source cx' = ctor_source cx → Agrees Γ cx'.
Proof. intros [H1 H2] E1 E2. split; [by rewrite E1|by rewrite E2]. Qed.

Lemma Runs_weaken {A} (m : T A) Γ (Q Q' : A → Prop) (R R' : Diagnostic → Prop) :
  Runs m Γ Q R → (∀ a, Q a → Q' a) → (∀ d, R d ↔ R' d) → Runs m Γ Q' R'.
Proof.
  intros H HQ HR cx a cx' Ha Hm. destruct (H cx a cx' Ha Hm) as (H1 & H2 & H3 & ds & H4 & H5).
  split_and!; [done|done|by apply HQ|]. exists ds. split; [done|]. intros d. by rewrite H5, HR.
Qed.

Lemma Runs_ret {A} (a : A) Γ (Q : A → Prop) : Q a → Runs (mret a) Γ Q none.
Proof. intros H cx a' cx' _ [= <- <-]. split_and!; [done..|by apply reports_none]. Qed.

Lemma Runs_lift {A} (o : option A) Γ : Runs (lift o) Γ (λ a, o = Some a) none.
Proof.
  intros cx a cx' _. unfold lift. destruct o as [b|]; [|done]. intros [= <- <-].
  split_and!; [done..|by apply reports_none].
Qed.

Lemma Runs_bind {A B} (m : T A) (k : A → T B) Γ Q Q' R R' :
  Runs m Γ Q R → (∀ a, Q a → Runs (k a) Γ Q' R') → Runs (m ≫= k) Γ Q' (λ d, R d ∨ R' d).
Proof.
  intros Hm Hk cx b cx2 Ha. unfold mbind, ST_bind. destruct (m cx) as [[a cx1]|] eqn:E; [|done]. intros H.
  destruct (Hm cx a cx1 Ha E) as (S1 & C1 & HQ & R1).
  destruct (Hk a HQ cx1 b cx2 (agrees_same _ _ _ Ha S1 C1) H) as (S2 & C2 & HQ' & R2).
  split_and!; [congruence|congruence|done|by eapply reports_trans].
Qed.

(** Two steps of which the first reports nothing. *)
Lemma Runs_quiet {A B} (m : T A) (k : A → T B) Γ Q Q' R :
  Runs m Γ Q none → (∀ a, Q a → Runs (k a) Γ Q' R) → Runs (m ≫= k) Γ Q' R.
Proof. intros Hm Hk. eapply Runs_weaken; [by eapply Runs_bind|done|]. unfold none. tauto. Qed.

(** ** Scopes *)

(** [m] runs in [Γ], changes the top of the stacks only, and leaves them at
    [Γ']. *)
Definition Goes {A} (m : T A) (Γ Γ' : Env) (R : Diagnostic → Prop) : Prop :=
  ∀ cx a cx', Agrees Γ cx → m cx = Some (a, cx') →
    Agrees Γ' cx' ∧ List.tl (scopes cx') = List.tl (scopes cx) ∧ List.tl (ctor_source cx') = List.tl (ctor_source cx)
    ∧ reports cx cx' R.

Lemma Goes_runs {A} (m : T A) Γ Q R : Runs m Γ Q R → Goes m Γ Γ R.
Proof.
  intros H cx a cx' Ha Hm. destruct (H cx a cx' Ha Hm) as (S1 & C1 & _ & HR).
  split_and!; [by eapply agrees_same|by rewrite S1|by rewrite C1|done].
Qed.

Lemma Goes_bind {A B} (m : T A) (k : A → T B) Γ Γ1 Γ2 R R' :
  Goes m Γ Γ1 R → (∀ a, Goes (k a) Γ1 Γ2 R') → Goes (m ≫= k) Γ Γ2 (λ d, R d ∨ R' d).
Proof.
  intros Hm Hk cx b cx2 Ha. unfold mbind, ST_bind. destruct (m cx) as [[a cx1]|] eqn:E; [|done]. intros H.
  destruct (Hm cx a cx1 Ha E) as (A1 & S1 & C1 & R1). destruct (Hk a cx1 b cx2 A1 H) as (A2 & S2 & C2 & R2).
  split_and!; [done|congruence|congruence|by eapply reports_trans].
Qed.

Lemma Goes_weaken {A} (m : T A) Γ Γ' R R' : Goes m Γ Γ' R → (∀ d, R d ↔ R' d) → Goes m Γ Γ' R'.
Proof.
  intros H HR cx a cx' Ha Hm. destruct (H cx a cx' Ha Hm) as (H1 & H2 & H3 & ds & H4 & H5).
  split_and!; [done..|]. exists ds. split; [done|]. intros d. by rewrite H5, HR.
Qed.

Lemma tl_insert_top {A} n (a : A) s : List.tl (insert_top n a s) = List.tl s.
Proof. by destruct s. Qed.

Lemma Goes_bind_name Γ n o t : stands_for o t → Goes (bind n t) Γ (env_bind n o Γ) none.
Proof.
  intros Ho cx a cx' Ha [= <- <-]. split_and!; [by apply agrees_bind|apply tl_insert_top|done|by apply reports_none].
Qed.

Lemma Goes_ctor Γ n s : Goes (bind_ctor_source n s) Γ (env_ctor n s Γ) none.
Proof.
  intros cx a cx' [H1 H2] [= <- <-]. split_and!; [|done|apply tl_insert_top|by apply reports_none].
  split; [done|]. cbn. by rewrite H2.
Qed.

Lemma Goes_ret {A} (a : A) Γ : Goes (mret a) Γ Γ none.
Proof. apply (Goes_runs _ _ (λ _, True)). by apply Runs_ret. Qed.

Lemma Goes_bind_all names Γ o t : stands_for o t → Goes (bind_all names t) Γ (env_bind_all names o Γ) none.
Proof.
  intros Ho. revert Γ. induction names as [|n names IH]; intros Γ; [apply Goes_ret|].
  eapply Goes_weaken; [eapply Goes_bind; [by apply Goes_bind_name|intros []; apply IH]|]. unfold none. tauto.
Qed.

Lemma Goes_bind_let names Γ o t ctor : stands_for o t → Goes (bind_let names t ctor) Γ (env_let names o ctor Γ) none.
Proof.
  intros Ho. revert Γ. induction names as [|n names IH]; intros Γ; [apply Goes_ret|]. cbn [bind_let env_let].
  eapply Goes_weaken; [eapply Goes_bind; [by apply Goes_bind_name|intros []; eapply Goes_bind; [|intros []; apply IH]]|].
  - destruct ctor; [apply Goes_ctor|apply Goes_ret].
  - unfold none. tauto.
Qed.

(** [enter], then [m], then a result without change, then [leave]. *)
Lemma Runs_scope {A B} (m : T A) (k : T B) Γ Γ' Q R R' :
  Goes m (env_enter Γ) Γ' R → Runs k Γ' Q R' →
  Runs (_ ← enter; _ ← m; r ← k; _ ← leave; mret r) Γ Q (λ d, R d ∨ R' d).
Proof.
  intros Hm Hk cx b cx3 Ha. unfold mbind, ST_bind, enter, modify.
  set (cx0 := mkTaint _ _ _ _). destruct (m cx0) as [[a cx1]|] eqn:E1; [|done]. destruct (k cx1) as [[r cx2]|] eqn:E2; [|done].
  cbn. intros [= <- <-]. destruct (Hm cx0 a cx1 (agrees_enter Γ cx Ha) E1) as (A1 & S1 & C1 & R1).
  destruct (Hk cx1 r cx2 A1 E2) as (S2 & C2 & HQ & R2). cbn in S1, C1 |- *. rewrite S2, C2, S1, C1.
  split_and!; [done..|]. destruct (reports_trans _ _ _ _ _ R1 R2) as (ds & Ed & Hd). by exists ds.
Qed.

(** ** Parts *)

Definition AnyTaint (ps : list Part) : Prop :=
  ∃ p, p ∈ ps ∧ part_flows p = true ∧ Tainted (part_env p) (part_node p).
Definition AnyReport (ps : list Part) (d : Diagnostic) : Prop := ∃ p, p ∈ ps ∧ Reported (part_env p) (part_node p) d.

Lemma AnyTaint_nil : AnyTaint [] ↔ False.
Proof. split; [by intros (p & ?%elem_of_nil & _)|done]. Qed.
Lemma AnyReport_nil d : AnyReport [] d ↔ False.
Proof. split; [by intros (p & ?%elem_of_nil & _)|done]. Qed.
Lemma AnyTaint_cons p ps : AnyTaint (p :: ps) ↔ part_flows p = true ∧ Tainted (part_env p) (part_node p) ∨ AnyTaint ps.
Proof. unfold AnyTaint. setoid_rewrite elem_of_cons. naive_solver. Qed.
Lemma AnyReport_cons p ps d : AnyReport (p :: ps) d ↔ Reported (part_env p) (part_node p) d ∨ AnyReport ps d.
Proof. unfold AnyReport. setoid_rewrite elem_of_cons. naive_solver. Qed.
Lemma AnyTaint_app ps qs : AnyTaint (ps ++ qs) ↔ AnyTaint ps ∨ AnyTaint qs.
Proof. unfold AnyTaint. setoid_rewrite elem_of_app. naive_solver. Qed.
Lemma AnyReport_app ps qs d : AnyReport (ps ++ qs) d ↔ AnyReport ps d ∨ AnyReport qs d.
Proof. unfold AnyReport. setoid_rewrite elem_of_app. naive_solver. Qed.

(** The sinks of the expression itself. *)
Definition OwnReport (Γ : Env) (e : ExprId) (y : HirExpr) (d : Diagnostic) : Prop :=
  ∃ lbl idx args i a, sink pkg Γ y = Some (lbl, idx, args) ∧ i ∈ to_check idx args ∧ args !! i = Some a
    ∧ Tainted Γ (NExpr (arg_value a)) ∧ d = sink_report pkg lbl args e i.

Definition OwnTaint (Γ : Env) (y : HirExpr) : Prop :=
  source pkg Γ y = true ∨ ∃ o, origin pkg Γ y = Some o ∧ origin_tainted o.

Lemma Tainted_expr Γ e y :
  exprs pkg !! e = Some y → Tainted Γ (NExpr e) ↔ OwnTaint Γ y ∨ AnyTaint (parts pkg Γ y).
Proof.
  intros Hy. split.
  - intros H. inversion H as [? ? z Hz Hs|? ? z fs cs e' Hz Ho Ht|? ? p Hp Hf Ht]; simplify_eq.
    + left. by left.
    + left. right. by exists (OFrom fs cs e').
    + right. exists p. cbn in Hp. by rewrite Hy in Hp.
  - intros [[H|([|fs cs e'] & Ho & Ht)]|(p & Hp & Hf & Ht)]; [by eapply Tainted_source|done|by eapply Tainted_name|].
    eapply Tainted_part; [|done|done]. cbn. by rewrite Hy.
Qed.

Lemma Tainted_block Γ b blk :
  blocks pkg !! b = Some blk → Tainted Γ (NBlock b) ↔ AnyTaint (block_parts pkg Γ blk).
Proof.
  intros Hb. split.
  - intros H. inversion H as [| |? ? p Hp Hf Ht]; simplify_eq. exists p. cbn in Hp. by rewrite Hb in Hp.
  - intros (p & Hp & Hf & Ht). eapply Tainted_part; [|done|done]. cbn. by rewrite Hb.
Qed.

Lemma Reported_expr Γ e y d :
  exprs pkg !! e = Some y → Reported Γ (NExpr e) d ↔ OwnReport Γ e y d ∨ AnyReport (parts pkg Γ y) d.
Proof.
  intros Hy. split.
  - intros (Γ' & e' & z & lbl & idx & args & i & a & Hv & Hz & H). inversion Hv as [|? ? p ? ? Hp Hv']; simplify_eq.
    + left. by exists lbl, idx, args, i, a.
    + right. exists p. cbn in Hp. rewrite Hy in Hp. split; [done|]. by exists Γ', e', z, lbl, idx, args, i, a.
  - intros [(lbl & idx & args & i & a & H)|(p & Hp & Γ' & e' & z & lbl & idx & args & i & a & Hv & H)].
    + exists Γ, e, y, lbl, idx, args, i, a. split; [constructor|done].
    + exists Γ', e', z, lbl, idx, args, i, a. split; [|done]. eapply Visits_part; [|done]. cbn. by rewrite Hy.
Qed.

Lemma Reported_block Γ b blk d :
  blocks pkg !! b = Some blk → Reported Γ (NBlock b) d ↔ AnyReport (block_parts pkg Γ blk) d.
Proof.
  intros Hb. split.
  - intros (Γ' & e' & z & lbl & idx & args & i & a & Hv & H). inversion Hv as [|? ? p ? ? Hp Hv']; simplify_eq.
    exists p. cbn in Hp. rewrite Hb in Hp. split; [done|]. by exists Γ', e', z, lbl, idx, args, i, a.
  - intros (p & Hp & Γ' & e' & z & lbl & idx & args & i & a & Hv & H).
    exists Γ', e', z, lbl, idx, args, i, a. split; [|done]. eapply Visits_part; [|done]. cbn. by rewrite Hb.
Qed.

(** ** The walk *)

(** The answer is whether [P]. *)
Definition says (P : Prop) (t : bool) : Prop := t = true ↔ P.

Lemma says_or P Q a b : says P a → says Q b → says (P ∨ Q) (a || b).
Proof. unfold says. rewrite orb_true_iff. tauto. Qed.

Lemma says_false P : ¬ P → says P false.
Proof. by split. Qed.

Lemma says_iff P Q t : (P ↔ Q) → says P t → says Q t.
Proof. unfold says. tauto. Qed.

Lemma Runs_false Γ P R : ¬ P → (∀ d, ¬ R d) → Runs (mret false) Γ (says P) R.
Proof.
  intros HP HR. eapply Runs_weaken; [apply (Runs_ret _ _ (says P)); by apply says_false|done|]. unfold none. firstorder.
Qed.

Section shape.
Variable check : ExprId → T bool.
Hypothesis Hcheck : ∀ Γ e, Runs (check e) Γ (says (Tainted Γ (NExpr e))) (Reported Γ (NExpr e)).

Lemma Runs_opt Γ o : Runs (check_opt check o) Γ (says (AnyTaint (opt_part (up Γ) o))) (AnyReport (opt_part (up Γ) o)).
Proof.
  destruct o as [e|]; cbn [check_opt opt_part].
  - eapply Runs_weaken; [apply Hcheck|..].
    + intros t. apply says_iff. rewrite AnyTaint_cons, AnyTaint_nil. cbn. tauto.
    + intros d. rewrite AnyReport_cons, AnyReport_nil. cbn. tauto.
  - apply Runs_false; [by intros ?%AnyTaint_nil|by intros d ?%AnyReport_nil].
Qed.

Lemma opt_aside_report Γ o d : AnyReport (opt_part (aside Γ) o) d ↔ AnyReport (opt_part (up Γ) o) d.
Proof. by destruct o; cbn; rewrite ?AnyReport_cons, ?AnyReport_nil. Qed.

Lemma opt_aside_taint Γ o : AnyTaint (opt_part (aside Γ) o) ↔ False.
Proof. destruct o; cbn; rewrite ?AnyTaint_cons, ?AnyTaint_nil; cbn; [|done]. split; [|done]. by intros [[? _]|?]. Qed.

Lemma Runs_any Γ xs : Runs (check_any check xs) Γ (says (AnyTaint (up Γ <$> xs))) (AnyReport (up Γ <$> xs)).
Proof.
  induction xs as [|x xs IH]; cbn [check_any fmap list_fmap].
  - apply Runs_false; [by intros ?%AnyTaint_nil|by intros d ?%AnyReport_nil].
  - eapply Runs_weaken; [eapply Runs_bind; [apply Hcheck|intros a Ha; eapply Runs_bind; [apply IH|intros b Hb]]|..].
    + apply Runs_ret. exact (says_or _ _ _ _ Ha Hb).
    + intros t. apply says_iff. rewrite AnyTaint_cons. cbn. tauto.
    + intros d. rewrite AnyReport_cons. unfold none. cbn. tauto.
Qed.

(** Parts put aside report the same. *)
Lemma aside_report {A} Γ (f : A → ExprId) (xs : list A) d :
  AnyReport ((λ x, aside Γ (f x)) <$> xs) d ↔ AnyReport (up Γ <$> (f <$> xs)) d.
Proof. induction xs as [|x xs IH]; [done|]. cbn. by rewrite !AnyReport_cons, IH. Qed.

Lemma aside_taint {A} Γ (f : A → ExprId) (xs : list A) : AnyTaint ((λ x, aside Γ (f x)) <$> xs) ↔ False.
Proof.
  induction xs as [|x xs IH]; cbn; [apply AnyTaint_nil|]. rewrite AnyTaint_cons, IH. cbn. split; [|done]. by intros [[? _]|?].
Qed.

Lemma up_fmap {A} Γ (f : A → ExprId) (xs : list A) : (λ x, up Γ (f x)) <$> xs = up Γ <$> (f <$> xs).
Proof. by rewrite <-list_fmap_compose. Qed.

(** ** Scopes and patterns *)

Lemma Goes_pat Γ pid o t : stands_for o t → Goes (bind_pat pkg pid t) Γ (env_bind_all (names_of pkg pid) o Γ) none.
Proof.
  intros Ho cx a cx' Ha. unfold bind_pat, mbind, ST_bind, lift, names_of. destruct (pat_names pkg pid) as [ns|]; [|done].
  cbn. intros H. exact (Goes_bind_all ns Γ o t Ho cx a cx' Ha H).
Qed.

Lemma Runs_pat {A} (m : T A) Γ pid o t Q R :
  stands_for o t → Runs m (env_pat pkg pid o Γ) Q R → Runs (under_pat pkg pid t m) Γ Q R.
Proof.
  intros Ho Hm. eapply Runs_weaken; [apply (Runs_scope (bind_pat pkg pid t) m Γ (env_pat pkg pid o Γ)); [by apply Goes_pat|exact Hm]|done|].
  unfold none. tauto.
Qed.

(** The value of an expression stands for itself. *)
Lemma stands_of_expr Γ e t : says (Tainted Γ (NExpr e)) t → stands_for (of_expr Γ e) t.
Proof. by destruct Γ. Qed.

(** ** Blocks *)

Lemma ctor_of_run e cx : ∀ c cx', ctor_of pkg e cx = Some (c, cx') → c = ctor_name pkg e ∧ cx' = cx.
Proof.
  unfold ctor_of, ctor_name, mbind, ST_bind, lift. destruct (exprs pkg !! e) as [y|]; [|done]. intros c cx'.
  destruct y; try (by intros [= <- <-]). destruct (exprs pkg !! callee) as [x|]; [|done]. intros [= <- <-].
  split; [|done]. by destruct x; try done; destruct segs as [|? [|? [|? [|? ?]]]].
Qed.

Lemma Goes_stmt Γ st : Goes (check_stmt pkg check st) Γ (stmt_env pkg Γ st) (AnyReport (stmt_parts Γ st)).
Proof.
  destruct st as [pat ty init mu|e]; cbn [check_stmt stmt_env stmt_parts].
  2:{ eapply Goes_runs, Runs_weaken; [eapply Runs_bind; [apply Hcheck|intros t _; by apply (Runs_ret () _ (λ _, True))]|done|].
      intros d. rewrite AnyReport_cons, AnyReport_nil. unfold none. cbn. tauto. }
  intros cx a cx' Ha. unfold mbind at 1, ST_bind at 1. destruct (check_opt check init cx) as [[t cx1]|] eqn:E1; [|done].
  destruct (Runs_opt Γ init cx t cx1 Ha E1) as (S1 & C1 & Ht & R1). pose proof (agrees_same _ _ _ Ha S1 C1) as Ha1.
  unfold mbind at 1, ST_bind at 1.
  destruct (match init with Some e => ctor_of pkg e | None => mret None end cx1) as [[c cx2]|] eqn:E2; [|done].
  assert (c = (init ≫= ctor_name pkg) ∧ cx2 = cx1) as [-> ->].
  { destruct init as [e|]; [by apply ctor_of_run in E2|by injection E2 as <- <-]. }
  unfold mbind, ST_bind, lift. destruct (pat_names pkg pat) as [ns|] eqn:En; [|done]. intros H.
  assert (names_of pkg pat = ns) as -> by (unfold names_of; by rewrite En).
  assert (stands_for (match init with Some e => of_expr Γ e | None => OClean end) t) as Ho.
  { destruct init as [e|]; [|by injection E1 as <- <-]. apply stands_of_expr. eapply says_iff; [|exact Ht]. cbn.
    rewrite AnyTaint_cons, AnyTaint_nil. cbn. tauto. }
  destruct (Goes_bind_let ns Γ _ t _ Ho cx1 a cx' Ha1 H) as (A2 & S2 & C2 & R2).
  split_and!; [done|by rewrite S2, S1|by rewrite C2, C1|].
  destruct (reports_trans _ _ _ _ _ R1 R2) as (ds & Ed & Hd). exists ds. split; [done|]. intros d.
  rewrite Hd, opt_aside_report. unfold none. tauto.
Qed.

Lemma Goes_stmts Γ sts :
  Goes (StateM.each (check_stmt pkg check) sts) Γ (stmts_env pkg Γ sts) (AnyReport (stmts_parts pkg Γ sts)).
Proof.
  revert Γ. induction sts as [|st sts IH]; intros Γ; cbn [StateM.each stmts_parts].
  - eapply Goes_weaken; [apply Goes_ret|]. intros d. by rewrite AnyReport_nil.
  - eapply Goes_weaken; [eapply Goes_bind; [apply Goes_stmt|intros []; apply IH]|]. intros d. by rewrite AnyReport_app.
Qed.

Lemma stmts_taint Γ sts : AnyTaint (stmts_parts pkg Γ sts) ↔ False.
Proof.
  revert Γ. induction sts as [|st sts IH]; intros Γ; cbn [stmts_parts]; [apply AnyTaint_nil|].
  rewrite AnyTaint_app, IH. destruct st as [p t i m|e]; cbn [stmt_parts]; [rewrite opt_aside_taint; tauto|].
  rewrite AnyTaint_cons, AnyTaint_nil. cbn. split; [|done]. by intros [[[? _]|?]|?].
Qed.

Lemma Runs_block Γ b : Runs (check_block pkg check b) Γ (says (Tainted Γ (NBlock b))) (Reported Γ (NBlock b)).
Proof.
  intros cx t cx' Ha H. destruct (blocks pkg !! b) as [blk|] eqn:Eb.
  2:{ unfold check_block, mbind, ST_bind, enter, modify, lift in H. by rewrite Eb in H. }
  assert ((_ ← enter; _ ← StateM.each (check_stmt pkg check) (stmts blk); r ← check_opt check (tail blk); _ ← leave; mret r) cx
          = Some (t, cx')) as H'.
  { unfold check_block in H. unfold mbind, ST_bind, lift in H |- *. by rewrite Eb in H. }
  pose proof (Runs_scope (StateM.each (check_stmt pkg check) (stmts blk)) (check_opt check (tail blk)) Γ _ _ _ _
                (Goes_stmts (env_enter Γ) (stmts blk)) (Runs_opt _ _) cx t cx' Ha H') as (S1 & C1 & HQ & ds & Ed & Hd).
  split_and!; [done|done| |exists ds; split; [done|]].
  - eapply says_iff; [|exact HQ]. rewrite (Tainted_block _ _ _ Eb). unfold block_parts. rewrite AnyTaint_app, stmts_taint. tauto.
  - intros d. rewrite Hd, (Reported_block _ _ _ _ Eb). unfold block_parts. by rewrite AnyReport_app.
Qed.

(** ** Calls *)

Definition args_say (Γ : Env) (args : list HirArg) (ts : list bool) : Prop :=
  Forall2 (λ a t, says (Tainted Γ (NExpr (arg_value a))) t) args ts.

Lemma Runs_args Γ fl args :
  Runs (check_args check args) Γ (args_say Γ args) (AnyReport (arg_parts Γ fl args)).
Proof.
  unfold args_say, arg_parts. induction args as [|a args IH]; cbn [check_args fmap list_fmap].
  - eapply Runs_weaken; [by apply (Runs_ret _ _ (λ ts, ts = []))|by intros ? ->|]. intros d. by rewrite AnyReport_nil.
  - eapply Runs_weaken; [eapply Runs_bind; [apply Hcheck|intros t Ht; eapply Runs_bind; [apply IH|intros ts Hts]]|..].
    + apply (Runs_ret _ _ (Forall2 (λ a t, says (Tainted Γ (NExpr (arg_value a))) t) (a :: args))). by constructor.
    + done.
    + intros d. rewrite AnyReport_cons. unfold none. cbn. tauto.
Qed.

Lemma any_taint_says Γ args ts : args_say Γ args ts → says (AnyTaint (arg_parts Γ true args)) (any_taint ts).
Proof.
  unfold arg_parts. induction 1 as [|a t args ts Ht _ IH]; cbn; [apply says_false; by intros ?%AnyTaint_nil|].
  eapply says_iff; [|exact (says_or _ _ _ _ Ht IH)]. rewrite AnyTaint_cons. cbn. tauto.
Qed.

Lemma arg_parts_flow Γ fl args : AnyTaint (arg_parts Γ fl args) ↔ fl = true ∧ AnyTaint (arg_parts Γ true args).
Proof.
  unfold AnyTaint, arg_parts. setoid_rewrite list_elem_of_fmap. split.
  - intros (p & (a & -> & Ha) & Hf & Ht). split; [done|]. exists (mkPart Γ (NExpr (arg_value a)) true). naive_solver.
  - intros (-> & H). done.
Qed.

Lemma any_taint_cleared (ts : list bool) : any_taint ((λ _, false) <$> ts) = false.
Proof. induction ts; [done|]. by cbn. Qed.

Lemma Runs_push Γ d : Runs (push_diagnostic d) Γ (λ _, True) (λ d', d' = d).
Proof.
  intros cx a cx' _ [= <- <-]. split_and!; [done..|]. exists [d]. split; [done|]. intros d'. apply list_elem_of_singleton.
Qed.

Lemma Runs_report_all Γ lbl args ts e idxs :
  Runs (report_all pkg lbl args ts e idxs) Γ (λ _, True)
    (λ d, ∃ i, i ∈ idxs ∧ ts !! i = Some true ∧ d = sink_report pkg lbl args e i).
Proof.
  induction idxs as [|i idxs IH]; cbn [report_all].
  - eapply Runs_weaken; [by apply (Runs_ret _ _ (λ _, True))|done|]. intros d. split; [done|]. by intros (i & ?%elem_of_nil & _).
  - assert (Runs (if default false (ts !! i) then push_diagnostic (sink_report pkg lbl args e i) else mret ()) Γ (λ _, True)
              (λ d, ts !! i = Some true ∧ d = sink_report pkg lbl args e i)) as Hi.
    { destruct (ts !! i) as [[]|]; cbn; [|by eapply Runs_weaken; [apply (Runs_ret _ _ (λ _, True))|done|unfold none; naive_solver]..].
      eapply Runs_weaken; [apply Runs_push|done|naive_solver]. }
    eapply Runs_weaken; [eapply Runs_bind; [exact Hi|intros [] _; apply IH]|done|]. intros d. cbn.
    setoid_rewrite elem_of_cons. naive_solver.
Qed.

(** The reports of a sink among tainted arguments. *)
Definition SinkReport (Γ : Env) (s : option (string * N)) (args : list HirArg) (e : ExprId) (d : Diagnostic) : Prop :=
  ∃ lbl idx i a, s = Some (lbl, idx) ∧ i ∈ to_check idx args ∧ args !! i = Some a
    ∧ Tainted Γ (NExpr (arg_value a)) ∧ d = sink_report pkg lbl args e i.

Definition after_sink (s : option (string * N)) (ts : list bool) : list bool :=
  match s with Some _ => (λ _, false) <$> ts | None => ts end.

Lemma Runs_sink_run Γ s args ts e :
  Runs (sink_and_clear pkg s args ts e) Γ (λ ts', ts' = after_sink s ts)
    (λ d, ∃ lbl idx i, s = Some (lbl, idx) ∧ i ∈ to_check idx args ∧ ts !! i = Some true ∧ d = sink_report pkg lbl args e i).
Proof.
  destruct s as [[lbl idx]|]; cbn [sink_and_clear after_sink].
  - eapply Runs_weaken; [eapply Runs_bind; [apply Runs_report_all|intros [] _; by apply (Runs_ret _ _ (λ ts', ts' = (λ _, false) <$> ts))]|done|].
    unfold none. naive_solver.
  - eapply Runs_weaken; [by apply (Runs_ret _ _ (λ ts', ts' = ts))|done|]. unfold none. naive_solver.
Qed.

Lemma Runs_sink Γ s args ts e :
  args_say Γ args ts →
  Runs (sink_and_clear pkg s args ts e) Γ (λ ts', ts' = after_sink s ts) (SinkReport Γ s args e).
Proof.
  intros H. eapply Runs_weaken; [apply Runs_sink_run|done|]. intros d. unfold SinkReport. split.
  - intros (lbl & idx & i & Hs & Hi & Ht & Hd). destruct (Forall2_lookup_r _ _ _ _ _ H Ht) as (a & Ha & Hsay).
    exists lbl, idx, i, a. split_and!; [done..|by apply Hsay|done].
  - intros (lbl & idx & i & a & Hs & Hi & Ha & Ht & Hd). destruct (Forall2_lookup_l _ _ _ _ _ H Ha) as (t & Et & Hsay).
    apply Hsay in Ht. subst t. by exists lbl, idx, i.
Qed.

(** With no tainted argument there is no report. *)
Lemma Runs_sink_cleared Γ s args (ts : list bool) e :
  Runs (sink_and_clear pkg s args ((λ _, false) <$> ts) e) Γ (λ ts', any_taint ts' = false) none.
Proof.
  eapply Runs_weaken; [apply Runs_sink_run|..].
  - intros ts' ->. destruct s; apply any_taint_cleared.
  - intros d. split; [|done]. intros (lbl & idx & i & _ & _ & Ht & _). rewrite list_lookup_fmap in Ht. by destruct (ts !! i).
Qed.

(** What the result of a call says. *)
Definition CallSays (Γ : Env) (args : list HirArg) (ci : CallInfo) (t : bool) : Prop :=
  says (ci_source ci = true ∨ (∃ o, ci_recv ci = Some o ∧ origin_tainted o)
        ∨ (ci_args ci = true ∧ AnyTaint (arg_parts Γ true args))) t.

Lemma Runs_local_call Γ o recv_t local method args ts e :
  stands_for o recv_t → args_say Γ args ts →
  Runs (check_local_call pkg recv_t local method args ts e) Γ (CallSays Γ args (local_call Γ o local method))
    (SinkReport Γ (ci_sink (local_call Γ o local method)) args e).
Proof.
  intros Ho Hts. unfold check_local_call, local_call. eapply (Runs_quiet (lookup_ctor_source local) _ _ (λ s, s = lookup_stack (ctors Γ) local)).
  { intros cx s cx' [_ Hc] [= <- <-]. split_and!; [done..|by rewrite Hc|by apply reports_none]. }
  intros src ->. set (recv := default EmptyString (lookup_stack (ctors Γ) local)).
  set (sk := (λ i, (recv +:+ "." +:+ method, i)) <$> sink_sensitive_arg recv method). cbn [ci_sink].
  eapply Runs_weaken; [eapply Runs_bind; [by apply Runs_sink|intros ts' ->; apply Runs_ret]|done|unfold none; tauto].
  unfold CallSays, cleans. cbn [ci_source ci_recv ci_args].
  pose proof (any_taint_says _ _ _ Hts) as Hany. unfold says, stands_for in *.
  destruct (negb _ && _); [naive_solver|].
  destruct (is_untaint_method method); [naive_solver|]. destruct (is_taint_dropping_projection method); [naive_solver|].
  destruct (is_implicit_untaint_method method); [naive_solver|]. cbn [orb negb andb].
  destruct sk as [[lbl idx]|]; cbn [after_sink]; rewrite orb_true_iff, ?any_taint_cleared; naive_solver.
Qed.

Lemma Runs_path_call Γ segs args ts e :
  args_say Γ args ts →
  Runs (check_path_call pkg segs args ts e) Γ (CallSays Γ args (path_call segs)) (SinkReport Γ (ci_sink (path_call segs)) args e).
Proof.
  intros Hts. pose proof (any_taint_says _ _ _ Hts) as Hany. unfold check_path_call, path_call, path_sink, path_source, CallSays.
  cbn [ci_source ci_recv ci_args ci_sink]. destruct (sink_sensitive_call_arg (join_dots segs)) as [idx|]; cbn [fmap option_fmap option_map].
  - eapply Runs_weaken; [eapply Runs_bind; [by apply Runs_sink|intros ts' ->; cbn [after_sink]]| |].
    { eapply Runs_quiet; [apply Runs_sink_cleared|intros ts'' E; cbn]. apply Runs_ret. rewrite E. exact eq_refl. }
    + cbn. intros t <-. unfold says. destruct (is_implicit_untaint_callee _); [naive_solver|]. cbn [negb andb].
      rewrite !orb_true_iff. destruct (is_tainted_call _); [naive_solver|].
      destruct (match segs with [a; m] => _ | _ => _ end); [naive_solver|].
      destruct (match segs with [a; b; m] => _ | _ => _ end); naive_solver.
    + unfold none. tauto.
  - eapply Runs_quiet; [by apply (Runs_ret _ _ (λ ts', ts' = ts))|intros ts' ->].
    eapply Runs_weaken; [eapply Runs_bind; [by apply Runs_sink|intros ts' ->; apply Runs_ret; exact eq_refl]| |unfold none; tauto].
    cbn. intros t <-. unfold says in *. destruct (is_implicit_untaint_callee _); [naive_solver|]. cbn [negb andb].
    rewrite !orb_true_iff. destruct (is_tainted_call _); [naive_solver|].
    destruct (match segs with [a; m] => is_tainted_source a m | _ => _ end); [naive_solver|].
    destruct (match segs with [a; b; m] => _ | _ => _ end); [naive_solver|].
    destruct (two_segment_sink segs) as [[lbl idx]|]; cbn [after_sink]; rewrite ?any_taint_cleared; naive_solver.
Qed.

(** What the walk of one expression says and reports. *)
Definition Says (Γ : Env) (y : HirExpr) (t : bool) : Prop := says (OwnTaint Γ y ∨ AnyTaint (parts pkg Γ y)) t.
Definition Reports (Γ : Env) (e : ExprId) (y : HirExpr) (d : Diagnostic) : Prop :=
  OwnReport Γ e y d ∨ AnyReport (parts pkg Γ y) d.

Lemma Runs_call Γ e callee args :
  Runs (check_call pkg check callee args e) Γ (Says Γ (ECall callee args)) (Reports Γ e (ECall callee args)).
Proof.
  unfold check_call. eapply Runs_quiet; [apply Runs_lift|]. intros c Hc.
  set (ci := call_info Γ (callee_segs c)).
  assert (∀ ts, args_say Γ args ts →
    Runs (sugar ← match callee_segs c with first :: _ :: _ => lookup_local first | _ => mret None end;
          match sugar, callee_segs c with
          | Some recv_t, first :: rest => check_local_call pkg recv_t first (join_dots rest) args ts e
          | _, _ => check_path_call pkg (callee_segs c) args ts e
          end) Γ (CallSays Γ args ci) (SinkReport Γ (ci_sink ci) args e)) as Hk.
  { intros ts Hts. unfold ci, call_info. destruct (callee_segs c) as [|first [|second rest]].
    - eapply Runs_quiet; [by apply (Runs_ret _ _ (λ o, o = None))|intros ? ->]. by apply Runs_path_call.
    - eapply Runs_quiet; [by apply (Runs_ret _ _ (λ o, o = None))|intros ? ->]. by apply Runs_path_call.
    - eapply (Runs_quiet (lookup_local first) _ _ (both stands_for (lookup_frames (frames Γ) first))).
      { intros cx o cx' Ha [= <- <-]. split_and!; [done..|by apply agrees_lookup|by apply reports_none]. }
      intros o Ho. destruct (lookup_frames _ first) as [o'|], o as [t|]; try done; [by apply Runs_local_call|by apply Runs_path_call]. }
  eapply Runs_weaken; [eapply Runs_bind; [apply (Runs_args Γ (ci_args ci))|exact Hk]|..].
  - intros t. apply says_iff. unfold OwnTaint. cbn [source origin parts]. rewrite Hc. cbn [mbind option_bind].
    fold ci. rewrite (arg_parts_flow Γ (ci_args ci)). tauto.
  - intros d. unfold Reports, OwnReport, SinkReport. cbn [sink parts]. rewrite Hc. cbn [mbind option_bind]. fold ci.
    split; intros [H|H]; [by right|left|right|by left].
    + destruct H as (lbl & idx & i & a & Hs & H). exists lbl, idx, args, i, a. by rewrite Hs.
    + destruct H as (lbl & idx & args' & i & a & Hs & H). destruct (ci_sink ci) as [[lbl' idx']|]; [|done].
      injection Hs as -> -> ->. by exists lbl, idx, i, a.
Qed.

Lemma path_text_run r : ∀ Γ, Runs (path_text pkg r) Γ (λ p, ∃ x, exprs pkg !! r = Some x ∧ p = path_text_of x) none.
Proof.
  intros Γ. eapply Runs_quiet; [apply Runs_lift|]. intros x Hx. apply Runs_ret. by exists x.
Qed.

Lemma Runs_method_call Γ e r m args :
  Runs (check_method_call pkg check r m args e) Γ (Says Γ (EMethodCall r m args)) (Reports Γ e (EMethodCall r m args)).
Proof.
  unfold check_method_call. set (fl := negb (cleans m) && match method_sink (receiver_path pkg r) m with None => true | _ => false end).
  eapply Runs_weaken; [eapply Runs_bind; [apply Hcheck|intros rt Hr; eapply Runs_bind; [apply (Runs_args Γ fl)|intros ts Hts]]|..].
  { eapply Runs_quiet; [apply path_text_run|]. intros p (x & Hx & ->).
    assert (receiver_path pkg r = default EmptyString (path_text_of x)) as Hrp by (unfold receiver_path; by rewrite Hx).
    rewrite <-Hrp. eapply Runs_bind; [by apply Runs_sink|intros ts' ->; apply Runs_ret].
    instantiate (1 := Says Γ (EMethodCall r m args)). unfold Says, OwnTaint. cbn [source origin parts]. fold fl.
    pose proof (any_taint_says _ _ _ Hts) as Hany. unfold says, fl, cleans, method_sink in *.
    rewrite AnyTaint_cons, arg_parts_flow. cbn [part_flows part_env part_node].
    destruct (is_tainted_source _ _); [naive_solver|].
    destruct (is_untaint_method m); [naive_solver|]. destruct (is_taint_dropping_projection m); [naive_solver|].
    destruct (is_implicit_untaint_method m); [naive_solver|]. cbn [orb negb andb].
    destruct (sink_sensitive_arg _ m) as [idx|]; cbn [after_sink fmap option_fmap option_map];
      rewrite orb_true_iff, ?any_taint_cleared; naive_solver. }
  - done.
  - intros d. unfold Reports, OwnReport, SinkReport, none. cbn [sink parts]. rewrite AnyReport_cons. fold fl.
    cbn [part_flows part_env part_node]. unfold method_sink.
    destruct (sink_sensitive_arg (receiver_path pkg r) m) as [idx|]; cbn [fmap option_fmap option_map mbind option_bind]; naive_solver.
Qed.

Lemma AnyTaint_bind {A} (f : A → list Part) xs : AnyTaint (xs ≫= f) ↔ ∃ a, a ∈ xs ∧ AnyTaint (f a).
Proof. unfold AnyTaint. setoid_rewrite list_elem_of_bind. naive_solver. Qed.

Lemma AnyReport_bind {A} (f : A → list Part) xs d : AnyReport (xs ≫= f) d ↔ ∃ a, a ∈ xs ∧ AnyReport (f a) d.
Proof. unfold AnyReport. setoid_rewrite list_elem_of_bind. naive_solver. Qed.

Lemma Runs_arms Γ s st arms :
  says (Tainted Γ (NExpr s)) st →
  Runs (check_arms pkg check st arms) Γ (says (AnyTaint (arms ≫= arm_parts pkg Γ s))) (AnyReport (arms ≫= arm_parts pkg Γ s)).
Proof.
  intros Hst. induction arms as [|a arms IH]; cbn [check_arms].
  - apply Runs_false; [by intros ?%AnyTaint_nil|by intros d ?%AnyReport_nil].
  - set (Γ' := env_pat pkg (arm_pat a) (of_expr Γ s) Γ).
    assert (Runs (under_pat pkg (arm_pat a) st (_ ← check_opt check (arm_guard a); check (arm_body a))) Γ
              (says (AnyTaint (arm_parts pkg Γ s a))) (AnyReport (arm_parts pkg Γ s a))) as Ha.
    { eapply Runs_pat; [by apply stands_of_expr|]. fold Γ'.
      eapply Runs_weaken; [eapply Runs_bind; [apply Runs_opt|intros t _; apply Hcheck]|..].
      - intros t. apply says_iff. unfold arm_parts. fold Γ'. rewrite AnyTaint_app, opt_aside_taint, AnyTaint_cons, AnyTaint_nil. cbn. tauto.
      - intros d. unfold arm_parts. fold Γ'. rewrite AnyReport_app, opt_aside_report, AnyReport_cons, AnyReport_nil. cbn. tauto. }
    rewrite bind_cons.
    eapply Runs_weaken; [eapply Runs_bind; [exact Ha|intros t Ht; eapply Runs_bind; [exact IH|intros u Hu; apply Runs_ret; exact (says_or _ _ _ _ Ht Hu)]]|..].
    + intros t. apply says_iff. by rewrite AnyTaint_app.
    + intros d. rewrite AnyReport_app. unfold none. tauto.
Qed.

Lemma Runs_entries Γ entries :
  Runs (check_entries check entries) Γ (says (AnyTaint (entries ≫= λ kv, [up Γ kv.1; up Γ kv.2])))
    (AnyReport (entries ≫= λ kv, [up Γ kv.1; up Γ kv.2])).
Proof.
  induction entries as [|kv entries IH]; cbn [check_entries].
  - apply Runs_false; [by intros ?%AnyTaint_nil|by intros d ?%AnyReport_nil].
  - rewrite bind_cons.
    eapply Runs_weaken; [eapply Runs_bind; [apply Hcheck|intros a Ha; eapply Runs_bind; [apply Hcheck|intros b Hb; eapply Runs_bind; [exact IH|intros c Hc; apply Runs_ret; exact (says_or _ _ _ _ (says_or _ _ _ _ Ha Hb) Hc)]]]|..].
    + intros t. apply says_iff. rewrite AnyTaint_app, !AnyTaint_cons, AnyTaint_nil. cbn. tauto.
    + intros d. rewrite AnyReport_app, !AnyReport_cons, AnyReport_nil. unfold none. cbn. tauto.
Qed.

Lemma Runs_path Γ segs :
  Runs (check_path segs) Γ
    (says (∃ o, match segs with first :: _ => lookup_frames (frames Γ) first | [] => None end = Some o ∧ origin_tainted o)) none.
Proof.
  destruct segs as [|first segs]; cbn [check_path].
  - apply Runs_false; [by intros (o & ? & _)|intros d []].
  - eapply (Runs_quiet (lookup_local first) _ _ (both stands_for (lookup_frames (frames Γ) first))).
    { intros cx o cx' Ha [= <- <-]. split_and!; [done..|by apply agrees_lookup|by apply reports_none]. }
    intros o Ho. apply Runs_ret. destruct (lookup_frames _ first) as [o'|], o as [t|]; try done; cbn in Ho |- *.
    + unfold says, stands_for in *. naive_solver.
    + apply says_false. by intros (? & ? & _).
Qed.

Lemma AnyTaint_one p : AnyTaint [p] ↔ part_flows p = true ∧ Tainted (part_env p) (part_node p).
Proof. rewrite AnyTaint_cons, AnyTaint_nil. tauto. Qed.

(** ** Every expression *)

Lemma Runs_or Γ (m k : T bool) P1 P2 R1 R2 :
  Runs m Γ (says P1) R1 → Runs k Γ (says P2) R2 →
  Runs (a ← m; b ← k; mret (a || b)) Γ (says (P1 ∨ P2)) (λ d, R1 d ∨ R2 d).
Proof.
  intros Hm Hk. eapply Runs_weaken; [eapply Runs_bind; [exact Hm|intros a Ha; eapply Runs_bind; [exact Hk|intros b Hb; apply Runs_ret; exact (says_or _ _ _ _ Ha Hb)]]|done|].
  unfold none. tauto.
Qed.

Lemma Runs_aside {A B} Γ (m : T A) (k : T B) Q1 Q R1 R2 :
  Runs m Γ Q1 R1 → Runs k Γ Q R2 → Runs (_ ← m; k) Γ Q (λ d, R1 d ∨ R2 d).
Proof. intros Hm Hk. by eapply Runs_bind. Qed.

Lemma Runs_drop {A} Γ (m : T A) Q R : Runs m Γ Q R → Runs (_ ← m; mret false) Γ (says False) R.
Proof.
  intros Hm. eapply Runs_weaken; [eapply Runs_bind; [exact Hm|intros a _; exact (Runs_ret false Γ (says False) (says_false False (λ H, H)))]|done|].
  unfold none. tauto.
Qed.

Lemma Runs_no Γ : Runs (mret false) Γ (says False) none.
Proof. apply Runs_false; [tauto|intros d []]. Qed.

(** The scope of a lambda. *)
Lemma Runs_lambda Γ b :
  Runs (_ ← enter; _ ← check_block pkg check b; _ ← leave; mret false) Γ (says False) (Reported (env_enter Γ) (NBlock b)).
Proof.
  intros cx t cx' Ha. unfold mbind, ST_bind, enter, modify. set (cx0 := mkTaint _ _ _ _).
  destruct (check_block pkg check b cx0) as [[r cx1]|] eqn:E; [|done]. cbn. intros [= <- <-].
  destruct (Runs_block (env_enter Γ) b cx0 r cx1 (agrees_enter Γ cx Ha) E) as (S1 & C1 & _ & R1). cbn in S1, C1 |- *.
  rewrite S1, C1. split_and!; [done|done|exact (says_false False (λ H, H))|done].
Qed.

(** [for] and [while let]. *)
Lemma Runs_bound_loop Γ pat s b :
  Runs (st ← check s; _ ← under_pat pkg pat st (check_block pkg check b); mret false) Γ (says False)
    (λ d, Reported Γ (NExpr s) d ∨ Reported (env_pat pkg pat (of_expr Γ s) Γ) (NBlock b) d).
Proof.
  eapply Runs_bind; [apply Hcheck|]. intros st Hst. eapply Runs_drop, Runs_pat; [by apply stands_of_expr|apply Runs_block].
Qed.

Lemma Runs_if_let Γ pat s t el :
  Runs (st ← check s; a ← under_pat pkg pat st (check_block pkg check t); b ← check_opt check el; mret (a || b)) Γ
    (says (Tainted (env_pat pkg pat (of_expr Γ s) Γ) (NBlock t) ∨ AnyTaint (opt_part (up Γ) el)))
    (λ d, Reported Γ (NExpr s) d ∨ Reported (env_pat pkg pat (of_expr Γ s) Γ) (NBlock t) d ∨ AnyReport (opt_part (up Γ) el) d).
Proof.
  eapply Runs_bind; [apply Hcheck|]. intros st Hst.
  apply Runs_or; [|apply Runs_opt]. eapply Runs_pat; [by apply stands_of_expr|apply Runs_block].
Qed.

(** A field of a response is a source. *)
Lemma Runs_field Γ e r name :
  Runs (t ← check r; p ← path_text pkg r; mret (if http_body name p then true else t)) Γ
    (Says Γ (EField r name)) (Reports Γ e (EField r name)).
Proof.
  eapply Runs_weaken; [eapply Runs_bind; [apply Hcheck|intros t Ht; eapply Runs_quiet; [apply path_text_run|]]| |].
  - intros p (x & Hx & ->). apply Runs_ret. instantiate (1 := Says Γ (EField r name)). unfold Says, OwnTaint, says in *.
    cbn [source origin parts]. rewrite Hx, AnyTaint_one. cbn. destruct (http_body _ _); naive_solver.
  - done.
  - intros d. unfold Reports, OwnReport, none. cbn [sink parts]. rewrite AnyReport_cons, AnyReport_nil. cbn. naive_solver.
Qed.

Lemma Runs_last Γ e y m P R :
  Runs m Γ (says P) R → (P ↔ OwnTaint Γ y ∨ AnyTaint (parts pkg Γ y)) → (∀ d, R d ↔ Reports Γ e y d) →
  Runs m Γ (Says Γ y) (Reports Γ e y).
Proof. intros H HP HR. eapply Runs_weaken; [exact H|intros t; by apply says_iff|done]. Qed.

Lemma OwnTaint_plain Γ y : source pkg Γ y = false → origin pkg Γ y = None → OwnTaint Γ y ↔ False.
Proof. unfold OwnTaint. intros -> ->. naive_solver. Qed.

Lemma OwnReport_plain Γ e y d : sink pkg Γ y = None → OwnReport Γ e y d ↔ False.
Proof. unfold OwnReport. intros ->. naive_solver. Qed.

Lemma says_path Γ segs :
  (∃ o, match segs with first :: _ => lookup_frames (frames Γ) first | [] => None end = Some o ∧ origin_tainted o) ↔
  OwnTaint Γ (EPath segs) ∨ AnyTaint [].
Proof. rewrite AnyTaint_nil. unfold OwnTaint. cbn [source origin]. naive_solver. Qed.

Lemma iff_false_eq : false = true ↔ False.
Proof. done. Qed.

Lemma refl_true (b : bool) : b = b ↔ True.
Proof. done. Qed.

Lemma arg_parts_up Γ args : arg_parts Γ true args = up Γ <$> (arg_value <$> args).
Proof. unfold arg_parts. by rewrite <-list_fmap_compose. Qed.

Ltac parts_solve :=
  try intros d; unfold Reports;
  rewrite ?OwnTaint_plain by done; rewrite ?OwnReport_plain by done;
  cbn [parts];
  rewrite ?(up_fmap _ snd), ?arg_parts_up, ?AnyTaint_app, ?AnyReport_app, ?AnyTaint_cons, ?AnyReport_cons,
    ?AnyTaint_cons, ?AnyReport_cons, ?AnyTaint_nil, ?AnyReport_nil, ?opt_aside_taint, ?opt_aside_report,
    ?aside_taint, ?aside_report, ?AnyTaint_app, ?AnyReport_app, ?AnyTaint_cons, ?AnyReport_cons, ?AnyTaint_nil, ?AnyReport_nil;
  cbn [part_flows part_env part_node up aside fmap list_fmap];
  rewrite ?AnyTaint_cons, ?AnyReport_cons, ?AnyTaint_cons, ?AnyReport_cons, ?AnyTaint_nil, ?AnyReport_nil;
  cbn [part_flows part_env part_node up aside]; unfold none;
  repeat match goal with |- context [false = true] => rewrite (iff_false_eq : false = true ↔ False) end;
  repeat match goal with |- context [?b = ?b] => rewrite (refl_true b) end;
  tauto.

Lemma Runs_inner Γ e y : Runs (check_expr_inner pkg check e y) Γ (Says Γ y) (Reports Γ e y).
Proof.
  destruct y; try exact (Runs_call _ _ _ _); try exact (Runs_method_call _ _ _ _ _); try exact (Runs_field _ _ _ _);
    cbn [check_expr_inner].
  - eapply Runs_last; [apply Runs_no|parts_solve|parts_solve].
  - eapply Runs_last; [apply Runs_path|apply says_path|parts_solve].
  - eapply Runs_last; [apply Runs_any|parts_solve|parts_solve].
  - eapply Runs_last; [apply Runs_any|parts_solve|parts_solve].
  - eapply Runs_last; [apply Hcheck|parts_solve|parts_solve].
  - eapply Runs_last; [eapply Runs_aside; [apply Hcheck|apply Runs_or; [apply Runs_block|apply Runs_opt]]|parts_solve|parts_solve].
  - eapply Runs_last; [eapply Runs_bind; [apply Hcheck|intros st Hst; by apply Runs_arms]|parts_solve|parts_solve].
  - eapply Runs_last; [apply Runs_bound_loop|parts_solve|parts_solve].
  - eapply Runs_last; [eapply Runs_aside; [apply Hcheck|eapply Runs_drop; apply Runs_block]|parts_solve|parts_solve].
  - eapply Runs_last; [eapply Runs_drop; apply Runs_block|parts_solve|parts_solve].
  - eapply Runs_last; [eapply Runs_drop; apply Runs_opt|parts_solve|parts_solve].
  - eapply Runs_last; [eapply Runs_drop; apply Runs_opt|parts_solve|parts_solve].
  - eapply Runs_last; [apply Runs_no|parts_solve|parts_solve].
  - eapply Runs_last; [apply Runs_block|parts_solve|parts_solve].
  - eapply Runs_last; [apply Runs_any|parts_solve|parts_solve].
  - eapply Runs_last; [apply Runs_any|parts_solve|parts_solve].
  - eapply Runs_last; [apply Runs_any|parts_solve|parts_solve].
  - eapply Runs_last; [apply Runs_entries|parts_solve|parts_solve].
  - eapply Runs_last; [eapply Runs_aside; [apply Hcheck|apply Runs_any]|parts_solve|parts_solve].
  - eapply Runs_last; [eapply Runs_aside; [apply Hcheck|apply Runs_any]|parts_solve|parts_solve].
  - eapply Runs_last; [eapply Runs_aside; [apply Hcheck|apply Hcheck]|parts_solve|parts_solve].
  - eapply Runs_last; [apply Hcheck|parts_solve|parts_solve].
  - eapply Runs_last; [apply Hcheck|parts_solve|parts_solve].
  - eapply Runs_last; [apply Hcheck|parts_solve|parts_solve].
  - eapply Runs_last; [apply Hcheck|parts_solve|parts_solve].
  - eapply Runs_last; [apply Hcheck|parts_solve|parts_solve].
  - eapply Runs_last; [apply Hcheck|parts_solve|parts_solve].
  - eapply Runs_last; [apply Runs_no|parts_solve|parts_solve].
  - eapply Runs_last; [apply Runs_block|parts_solve|parts_solve].
  - eapply Runs_last; [apply Hcheck|parts_solve|parts_solve].
  - eapply Runs_last; [eapply Runs_aside; [apply Runs_opt|apply Runs_block]|parts_solve|parts_solve].
  - eapply Runs_last; [eapply Runs_aside; [apply Runs_any|apply Hcheck]|parts_solve|parts_solve].
  - eapply Runs_last; [eapply Runs_aside; [apply Runs_any|apply Runs_block]|parts_solve|parts_solve].
  - eapply Runs_last; [apply Hcheck|parts_solve|parts_solve].
  - eapply Runs_last; [apply Runs_lambda|parts_solve|parts_solve].
  - eapply Runs_last; [apply Runs_if_let|parts_solve|parts_solve].
  - eapply Runs_last; [apply Runs_bound_loop|parts_solve|parts_solve].
  - eapply Runs_last; [apply Hcheck|parts_solve|parts_solve].
  - eapply Runs_last; [apply Runs_path|apply says_path|parts_solve].
  - eapply Runs_last; [apply Runs_no|parts_solve|parts_solve].
Qed.
End shape.

Lemma check_expr_exact n Γ e : Runs (check_expr pkg n e) Γ (says (Tainted Γ (NExpr e))) (Reported Γ (NExpr e)).
Proof.
  revert Γ e. induction n as [|n IH]; intros Γ e; [by intros cx t cx' _|]. cbn [check_expr].
  eapply Runs_quiet; [apply Runs_lift|]. intros y Hy.
  eapply Runs_weaken; [eapply Runs_bind; [apply Runs_inner; exact IH|intros t Ht]|..].
  - eapply (Runs_quiet (record_taint e t) _ _ (λ _, True)); [|intros [] _; apply Runs_ret; exact Ht].
    intros cx [] cx' _ [= <-]. split_and!; [done..|by apply reports_none].
  - intros t. apply says_iff. by rewrite (Tainted_expr _ _ _ Hy).
  - intros d. rewrite (Reported_expr _ _ _ _ Hy). unfold none, Reports. tauto.
Qed.

(** ** The pass *)

(** A step of the pass, between empty stacks. *)
Definition Top (m : T unit) (R : Diagnostic → Prop) : Prop :=
  ∀ cx cx', scopes cx = [] → ctor_source cx = [] → m cx = Some ((), cx') →
    scopes cx' = [] ∧ ctor_source cx' = [] ∧ reports cx cx' R.

Lemma Top_bind m k R1 R2 : Top m R1 → Top k R2 → Top (m ≫= λ _, k) (λ d, R1 d ∨ R2 d).
Proof.
  intros Hm Hk cx cx2 S0 C0. unfold mbind, ST_bind. destruct (m cx) as [[[] cx1]|] eqn:E; [|done]. intros H.
  destruct (Hm cx cx1 S0 C0 E) as (S1 & C1 & R1'). destruct (Hk cx1 cx2 S1 C1 H) as (S2 & C2 & R2').
  split_and!; [done|done|by eapply reports_trans].
Qed.

Lemma Top_ret : Top (mret ()) none.
Proof. intros cx cx' S0 C0 [= <-]. split_and!; [done|done|by apply reports_none]. Qed.

Lemma Top_weaken m R R' : Top m R → (∀ d, R d ↔ R' d) → Top m R'.
Proof.
  intros H HR cx cx' S0 C0 E. destruct (H cx cx' S0 C0 E) as (S1 & C1 & ds & Ed & Hd). split_and!; [done|done|].
  exists ds. split; [done|]. intros d. by rewrite Hd, HR.
Qed.

Lemma Top_lift {A} (o : option A) (k : A → T unit) R : (∀ a, o = Some a → Top (k a) R) → Top (lift o ≫= k) R.
Proof. intros H cx cx' S0 C0. unfold mbind, ST_bind, lift. destruct o as [a|]; [by apply (H a)|done]. Qed.

Lemma Top_each {A} (f : A → T unit) xs R :
  (∀ a, a ∈ xs → Top (f a) (R a)) → Top (StateM.each f xs) (λ d, ∃ a, a ∈ xs ∧ R a d).
Proof.
  induction xs as [|x xs IH]; intros H; cbn [StateM.each].
  - eapply Top_weaken; [apply Top_ret|]. intros d. split; [done|]. by intros (a & ?%elem_of_nil & _).
  - eapply Top_weaken; [apply Top_bind; [apply H; left|apply IH; intros a Ha; apply H; by right]|].
    intros d. cbn. setoid_rewrite elem_of_cons. naive_solver.
Qed.

Lemma Top_body n ps body :
  Top (check_body pkg n ps body) (λ d, ∃ b, body = Some b ∧ Reported (env_params ps) (NBlock b) d).
Proof.
  intros cx cx3 S0 C0. unfold check_body, mbind, ST_bind, enter, modify. set (cx0 := mkTaint _ _ _ _).
  destruct (bind_all ps false cx0) as [[[] cx1]|] eqn:E1; [|done].
  assert (Agrees env0 cx) as Ha by (split; cbn; [by rewrite S0|by rewrite C0]).
  destruct (Goes_bind_all ps (env_enter env0) OClean false ltac:(by split) cx0 () cx1 (agrees_enter env0 cx Ha) E1) as (A1 & S1 & C1 & R1).
  destruct body as [b|]; cbn [when_some].
  - unfold void, mbind, ST_bind. destruct (check_block pkg (check_expr pkg n) b cx1) as [[t cx2]|] eqn:E2; [|done].
    destruct (Runs_block (check_expr pkg n) (check_expr_exact n) _ b cx1 t cx2 A1 E2) as (S2 & C2 & _ & R2).
    cbn. intros [= <-]. cbn in S1, C1 |- *. rewrite S2, C2, S1, C1. split_and!; [done|done|].
    destruct (reports_trans _ _ _ _ _ R1 R2) as (ds & Ed & Hd). exists ds. split; [exact Ed|]. intros d. rewrite Hd. unfold none. naive_solver.
  - cbn. intros [= <-]. cbn in S1, C1 |- *. rewrite S1, C1. split_and!; [done|done|].
    destruct R1 as (ds & Ed & Hd). exists ds. split; [exact Ed|]. intros d. rewrite Hd. unfold none. naive_solver.
Qed.

(** What one item reports. *)
Definition ItemReport (i : ItemId) (d : Diagnostic) : Prop :=
  ∃ ps b, Reported (env_params ps) (NBlock b) d ∧
    ((∃ fid f, items pkg !! i = Some (ItFn fid) ∧ fns pkg !! fid = Some f ∧ ps = param_name <$> fn_params f ∧ fn_body f = Some b)
     ∨ ∃ aid ag, items pkg !! i = Some (ItAgent aid) ∧ agents pkg !! aid = Some ag ∧
        ((∃ fid f, fid ∈ ag_methods ag ∧ fns pkg !! fid = Some f ∧ ps = param_name <$> fn_params f ∧ fn_body f = Some b)
         ∨ ∃ h, h ∈ ag_handlers ag ∧ ps = oh_params h ∧ b = oh_body h)).

Lemma Top_fn n fid :
  Top (check_fn pkg n fid)
    (λ d, ∃ f b, fns pkg !! fid = Some f ∧ fn_body f = Some b ∧ Reported (env_params (param_name <$> fn_params f)) (NBlock b) d).
Proof. apply Top_lift. intros f Hf. eapply Top_weaken; [apply Top_body|]. intros d. naive_solver. Qed.

Lemma Top_item n i : Top (check_item pkg n i) (ItemReport i).
Proof.
  apply Top_lift. intros it Hit. unfold ItemReport. destruct it as [fid|id|id|id|aid|id|id|u|m|x|abi it' sp|m|im|tr|co|sb];
    try (eapply Top_weaken; [apply Top_ret|unfold none; naive_solver]).
  - eapply Top_weaken; [apply Top_fn|]. intros d. naive_solver.
  - apply Top_lift. intros ag Hag.
    eapply Top_weaken; [apply Top_bind; apply Top_each; [intros fid _; apply Top_fn|intros h _; apply Top_body]|].
    intros d. cbn. split.
    + intros [(fid & Hin & f & b & Hf & Hb & Hr)|(h & Hin & b & [= <-] & Hr)].
      * exists (param_name <$> fn_params f), b. split; [done|]. right. exists aid, ag. split_and!; [done|done|left]. by exists fid, f.
      * exists (oh_params h), (oh_body h). split; [done|]. right. exists aid, ag. split_and!; [done|done|right]. by exists h.
    + intros (ps & b & Hr & [(fid & f & H & _)|(aid' & ag' & H & Hag' & [(fid & f & Hin & Hf & -> & Hb)|(h & Hin & -> & ->)])]); simplify_eq.
      * left. exists fid. split; [done|]. by exists f, b.
      * right. exists h. split; [done|]. by exists (oh_body h).
Qed.

Lemma check_reports n ds :
  Taint.check pkg n = Some ds → ∀ d, d ∈ ds ↔ ∃ ps b, Root pkg ps b ∧ Reported (env_params ps) (NBlock b) d.
Proof.
  unfold Taint.check. destruct (StateM.each _ _ _) as [[[] cx]|] eqn:E; [|done]. cbn. intros [= <-] d.
  destruct (Top_each (check_item pkg n) (top_level pkg) ItemReport (λ i _, Top_item n i) new_taint cx eq_refl eq_refl E) as (_ & _ & es & Ed & Hd).
  cbn in Ed. rewrite Ed, Hd. split.
  - intros (i & Hi & ps & b & Hr & [(fid & f & Hit & Hf & -> & Hb)|(aid & ag & Hit & Hag & [(fid & f & Hin & Hf & -> & Hb)|(h & Hin & -> & ->)])]).
    + exists (param_name <$> fn_params f), b. split; [by eapply Root_fn|done].
    + exists (param_name <$> fn_params f), b. split; [by eapply Root_method|done].
    + exists (oh_params h), (oh_body h). split; [by eapply Root_handler|done].
  - intros (ps & b & Hroot & Hr). destruct Hroot as [i fid f b Hi Hit Hf Hb|i aid ag fid f b Hi Hit Hag Hin Hf Hb|i aid ag h Hi Hit Hag Hin];
      exists i; (split; [done|]); [exists (param_name <$> fn_params f), b|exists (param_name <$> fn_params f), b|exists (oh_params h), (oh_body h)];
      (split; [done|]); [left; by exists fid, f|right; exists aid, ag|right; exists aid, ag]; (split_and!; [done|done|]).
    + left. by exists fid, f.
    + right. by exists h.
Qed.
End sound.
