(* ===== verification/TaintTheorems.v ===== *)
(** * The taint pass returns, and the theorems

    [TFits n node]: the nodes under [node] are in the arenas, nested at most
    [n] deep, with patterns whose names can be collected. *)

From stdpp Require Import base list strings numbers gmap sets.
From S2P Require Import Prelude StateM TyArena Hir BorrowState Taint TaintSound.

Local Open Scope string_scope.
Local Open Scope list_scope.
Notation length := List.length (only parsing).

(** [m] returns from every state. *)
Definition total {A} (m : T A) : Prop := ∀ cx, is_Some (m cx).

Lemma taint_total_ret {A} (a : A) : total (mret a).
Proof. intros cx. by eexists. Qed.

Lemma total_modify f : total (modify f).
Proof. intros cx. by eexists. Qed.

Lemma total_gets {A} (f : TaintCx → A) : total (gets f).
Proof. intros cx. by eexists. Qed.

Lemma taint_total_lift {A} (o : option A) : is_Some o → total (lift o).
Proof. intros [a ->] cx. by eexists. Qed.

Lemma taint_total_bind {A B} (m : T A) (k : A → T B) : total m → (∀ a, total (k a)) → total (m ≫= k).
Proof. intros Hm Hk cx. unfold mbind, ST_bind. destruct (Hm cx) as [[a cx'] ->]. apply Hk. Qed.

(** A node looked up. *)
Lemma total_look {A B} (o : option A) (k : A → T B) : is_Some o → (∀ a, o = Some a → total (k a)) → total (lift o ≫= k).
Proof. intros [a E] Hk cx. unfold mbind, ST_bind, lift. rewrite E. by apply Hk. Qed.

Create HintDb total.
#[export] Hint Resolve taint_total_ret total_modify total_gets taint_total_bind : total.

Lemma total_each {A} (f : A → T unit) xs : (∀ a, a ∈ xs → total (f a)) → total (StateM.each f xs).
Proof.
  induction xs as [|x xs IH]; intros H; [apply taint_total_ret|]. apply taint_total_bind; [apply H; left|]. intros _. apply IH.
  intros a Ha. apply H. by right.
Qed.

Section returns.
Variable pkg : Package.

(** The patterns of an expression and of a statement. *)
Definition expr_pats (y : HirExpr) : list PatId :=
  match y with
  | EIfLet p _ _ _ | EWhileLet p _ _ | EFor p _ _ => [p]
  | EMatch _ arms => arm_pat <$> arms
  | _ => []
  end.

Definition callee_of (y : HirExpr) : option ExprId := match y with ECall c _ => Some c | _ => None end.

Definition expr_ok (y : HirExpr) : Prop :=
  (∀ p, p ∈ expr_pats y → is_Some (pat_names pkg p)) ∧ (∀ c, callee_of y = Some c → is_Some (exprs pkg !! c)).

Definition stmt_ok (st : HirStmt) : Prop := match st with SLet p _ _ _ => is_Some (pat_names pkg p) | SExpr _ => True end.

Inductive TFits : nat → Node → Prop :=
  | TFits_expr n e y :
      exprs pkg !! e = Some y → expr_ok y → (∀ Γ p, p ∈ parts pkg Γ y → TFits n (part_node p)) → TFits (S n) (NExpr e)
  | TFits_block n b blk :
      blocks pkg !! b = Some blk → (∀ st, st ∈ stmts blk → stmt_ok st) →
      (∀ st Γ p, st ∈ stmts blk → p ∈ stmt_parts Γ st → TFits n (part_node p)) →
      (∀ e, tail blk = Some e → TFits n (NExpr e)) → TFits n (NBlock b).

Lemma bind_all_total names t : total (bind_all names t).
Proof. induction names; cbn [bind_all]; [auto with total|]. apply taint_total_bind; [apply total_modify|auto]. Qed.

Lemma bind_let_total names t ctor : total (bind_let names t ctor).
Proof.
  induction names; cbn [bind_let]; [auto with total|]. apply taint_total_bind; [apply total_modify|]. intros _.
  apply taint_total_bind; [destruct ctor; [apply total_modify|apply taint_total_ret]|auto].
Qed.

Lemma report_all_total lbl args ts e idxs : total (report_all pkg lbl args ts e idxs).
Proof.
  induction idxs; cbn [report_all]; [auto with total|]. apply taint_total_bind; [|auto].
  destruct (default false _); [apply total_modify|apply taint_total_ret].
Qed.

Lemma sink_total s args ts e : total (sink_and_clear pkg s args ts e).
Proof.
  destruct s as [[lbl idx]|]; cbn [sink_and_clear]; [|auto with total]. apply taint_total_bind; [apply report_all_total|auto with total].
Qed.

Lemma under_pat_total {A} pid t (m : T A) : is_Some (pat_names pkg pid) → total m → total (under_pat pkg pid t m).
Proof.
  intros Hp Hm. unfold under_pat, bind_pat. apply taint_total_bind; [apply total_modify|]. intros _.
  apply taint_total_bind; [apply taint_total_bind; [by apply taint_total_lift|intros; apply bind_all_total]|]. intros _.
  apply taint_total_bind; [done|]. intros a. apply taint_total_bind; [apply total_modify|auto with total].
Qed.

Lemma local_call_total rt l m args ts e : total (check_local_call pkg rt l m args ts e).
Proof. apply taint_total_bind; [apply total_gets|]. intros src. apply taint_total_bind; [apply sink_total|auto with total]. Qed.

Lemma path_call_total segs args ts e : total (check_path_call pkg segs args ts e).
Proof. apply taint_total_bind; [apply sink_total|]. intros ts'. apply taint_total_bind; [apply sink_total|auto with total]. Qed.

Lemma path_total segs : total (check_path segs).
Proof. destruct segs; [apply taint_total_ret|]. apply taint_total_bind; [apply total_gets|auto with total]. Qed.

Section shape.
Variable n : nat.
Variable check : ExprId → T bool.
Hypothesis Hcheck : ∀ e, TFits n (NExpr e) → total (check e).

Lemma TFits_in e : TFits n (NExpr e) → is_Some (exprs pkg !! e).
Proof. intros H. inversion H; simplify_eq. eauto. Qed.

Lemma opt_total o : (∀ e, o = Some e → TFits n (NExpr e)) → total (check_opt check o).
Proof. destruct o; intros H; [by apply Hcheck, H|apply taint_total_ret]. Qed.

Lemma any_total xs : (∀ e, e ∈ xs → TFits n (NExpr e)) → total (check_any check xs).
Proof.
  induction xs as [|x xs IH]; intros H; cbn [check_any]; [apply taint_total_ret|].
  apply taint_total_bind; [apply Hcheck, H; left|]. intros a. apply taint_total_bind; [|auto with total]. apply IH. intros e He. apply H. by right.
Qed.

Lemma args_total args : (∀ a, a ∈ args → TFits n (NExpr (arg_value a))) → total (check_args check args).
Proof.
  induction args as [|x xs IH]; intros H; cbn [check_args]; [apply taint_total_ret|].
  apply taint_total_bind; [apply Hcheck, H; left|]. intros a. apply taint_total_bind; [|auto with total]. apply IH. intros e He. apply H. by right.
Qed.

Lemma ctor_total e : TFits n (NExpr e) → total (ctor_of pkg e).
Proof.
  intros H. inversion H as [m ? y Hy [_ Hc] _|]; subst. unfold ctor_of. apply total_look; [by eexists|]. intros z Hz.
  assert (z = y) as -> by congruence. destruct y; auto with total. apply total_look; [by apply Hc|auto with total].
Qed.

Lemma stmt_total st : stmt_ok st → (∀ Γ p, p ∈ stmt_parts Γ st → TFits n (part_node p)) → total (check_stmt pkg check st).
Proof.
  intros Hok H. specialize (H env0). destruct st as [p t [e|] m|e]; cbn [check_stmt stmt_parts opt_part stmt_ok] in *.
  - specialize (H _ ltac:(left)). cbn in H. apply taint_total_bind; [by apply Hcheck|]. intros b.
    apply taint_total_bind; [by apply ctor_total|]. intros c. apply taint_total_bind; [by apply taint_total_lift|]. intros. apply bind_let_total.
  - apply taint_total_bind; [apply taint_total_ret|]. intros b. apply taint_total_bind; [apply taint_total_ret|]. intros c.
    apply taint_total_bind; [by apply taint_total_lift|]. intros. apply bind_let_total.
  - specialize (H _ ltac:(left)). apply taint_total_bind; [by apply Hcheck|auto with total].
Qed.

Lemma block_total b : TFits n (NBlock b) → total (check_block pkg check b).
Proof.
  intros H. inversion H as [|m ? blk Hb Hok Hst Htail]; subst. unfold check_block.
  apply taint_total_bind; [apply total_modify|]. intros _. apply total_look; [by eexists|]. intros blk' Hb'.
  assert (blk' = blk) as -> by congruence. apply taint_total_bind.
  - apply total_each. intros st Hin. apply stmt_total; [by apply Hok|]. intros Γ p Hp. by eapply Hst.
  - intros _. apply taint_total_bind; [by apply opt_total|]. intros t. apply taint_total_bind; [apply total_modify|auto with total].
Qed.

Lemma pat_block_total pid t b : is_Some (pat_names pkg pid) → TFits n (NBlock b) → total (under_pat pkg pid t (check_block pkg check b)).
Proof. intros Hp Hb. apply under_pat_total; [done|by apply block_total]. Qed.

Lemma arms_total st arms :
  (∀ a, a ∈ arms → is_Some (pat_names pkg (arm_pat a)) ∧ (∀ e, arm_guard a = Some e → TFits n (NExpr e)) ∧ TFits n (NExpr (arm_body a))) →
  total (check_arms pkg check st arms).
Proof.
  induction arms as [|a arms IH]; intros H; cbn [check_arms]; [apply taint_total_ret|].
  destruct (H a ltac:(left)) as (Hp & Hg & Hb). apply taint_total_bind.
  - apply under_pat_total; [done|]. apply taint_total_bind; [by apply opt_total|]. intros _. by apply Hcheck.
  - intros t. apply taint_total_bind; [|auto with total]. apply IH. intros b Hb'. apply H. by right.
Qed.

Lemma entries_total entries :
  (∀ kv, kv ∈ entries → TFits n (NExpr kv.1) ∧ TFits n (NExpr kv.2)) → total (check_entries check entries).
Proof.
  induction entries as [|kv entries IH]; intros H; cbn [check_entries]; [apply taint_total_ret|].
  destruct (H kv ltac:(left)) as [H1 H2]. apply taint_total_bind; [by apply Hcheck|]. intros a.
  apply taint_total_bind; [by apply Hcheck|]. intros b. apply taint_total_bind; [|auto with total]. apply IH. intros k Hk. apply H. by right.
Qed.

Lemma targ_fits Γ fl args : (∀ p, p ∈ arg_parts Γ fl args → TFits n (part_node p)) → ∀ a, a ∈ args → TFits n (NExpr (arg_value a)).
Proof. intros H a Ha. apply (H (mkPart Γ (NExpr (arg_value a)) fl)). apply list_elem_of_fmap. by exists a. Qed.

Lemma call_total callee args e :
  is_Some (exprs pkg !! callee) → (∀ p, p ∈ parts pkg env0 (ECall callee args) → TFits n (part_node p)) →
  total (check_call pkg check callee args e).
Proof.
  intros Hc H. apply total_look; [done|]. intros c Ec. cbn [parts] in H. rewrite Ec in H.
  apply taint_total_bind; [apply args_total; by eapply targ_fits|]. intros ts. apply taint_total_bind.
  - destruct (callee_segs c) as [|? [|? ?]]; [apply taint_total_ret|apply taint_total_ret|apply total_gets].
  - intros [t|]; [|apply path_call_total]. destruct (callee_segs c); [apply path_call_total|apply local_call_total].
Qed.

Lemma path_text_total r : is_Some (exprs pkg !! r) → total (path_text pkg r).
Proof. intros H. apply taint_total_bind; [by apply taint_total_lift|auto with total]. Qed.

Lemma method_total r m args e :
  (∀ p, p ∈ parts pkg env0 (EMethodCall r m args) → TFits n (part_node p)) → total (check_method_call pkg check r m args e).
Proof.
  intros H. cbn [parts] in H. pose proof (H _ ltac:(left)) as Hr. cbn in Hr. apply taint_total_bind; [by apply Hcheck|]. intros t.
  apply taint_total_bind; [|intros ts; apply taint_total_bind; [by apply path_text_total, TFits_in|intros p; apply taint_total_bind; [apply sink_total|auto with total]]].
  apply args_total. eapply (targ_fits env0). intros p Hp. apply H. right. exact Hp.
Qed.

Lemma inner_total e y :
  expr_ok y → (∀ Γ p, p ∈ parts pkg Γ y → TFits n (part_node p)) → total (check_expr_inner pkg check e y).
Proof.
  intros [Hp Hc] HΓ. pose proof (HΓ env0) as H. clear HΓ.
  assert (∀ c, c ∈ part_node <$> parts pkg env0 y → TFits n c) as Hn by (intros c (p & -> & Hin)%list_elem_of_fmap; by apply H).
  destruct y; cbn [check_expr_inner]; cbn [parts expr_pats callee_of] in *;
    try (apply call_total; [by apply Hc|exact H]); try (apply method_total; exact H); clear H; cbn in Hn;
    repeat first
      [ apply taint_total_ret | apply path_total | apply total_modify
      | apply Hcheck, Hn; set_solver
      | apply block_total, Hn; set_solver
      | apply pat_block_total; [apply Hp; left|apply Hn; set_solver]
      | apply path_text_total, TFits_in, Hn; set_solver
      | apply opt_total; intros ? ->; apply Hn; cbn; set_solver
      | apply taint_total_bind; [|intros ?] ].
  - apply arms_total. intros a0 Ha. assert (∀ c, c ∈ part_node <$> arm_parts pkg env0 scrutinee a0 → TFits n c) as Harm.
    { intros c (p & -> & Hin)%list_elem_of_fmap. apply Hn. right. apply list_elem_of_fmap. exists p. split; [done|].
      apply list_elem_of_bind. by exists a0. }
    split_and!; [apply Hp, list_elem_of_fmap; by exists a0| |apply Harm; unfold arm_parts; set_solver].
    intros g Hg. apply Harm. unfold arm_parts. rewrite Hg. cbn. set_solver.
  - apply any_total. intros x Hx. apply Hn. rewrite <-list_fmap_compose. apply list_elem_of_fmap. by exists x.
  - apply any_total. intros x Hx. apply Hn. rewrite <-list_fmap_compose. apply list_elem_of_fmap. by exists x.
  - apply any_total. intros x (f & -> & Hx)%list_elem_of_fmap. apply Hn. rewrite <-list_fmap_compose. apply list_elem_of_fmap. by exists f.
  - apply entries_total. intros kv Hkv. split; apply Hn, list_elem_of_fmap;
      [exists (up env0 kv.1)|exists (up env0 kv.2)]; (split; [done|]); apply list_elem_of_bind; exists kv; set_solver.
  - apply any_total. intros x (f & -> & Hx)%list_elem_of_fmap. apply Hn. right. unfold arg_parts. rewrite <-list_fmap_compose. apply list_elem_of_fmap. by exists f.
  - apply any_total. intros x (f & -> & Hx)%list_elem_of_fmap. apply Hn. right. unfold arg_parts. rewrite <-list_fmap_compose. apply list_elem_of_fmap. by exists f.
  - apply any_total. intros x (f & -> & Hx)%list_elem_of_fmap. apply Hn. rewrite fmap_app, <-list_fmap_compose. apply elem_of_app. left.
    apply list_elem_of_fmap. by exists f.
  - apply any_total. intros x (f & -> & Hx)%list_elem_of_fmap. apply Hn. rewrite fmap_app, <-list_fmap_compose. apply elem_of_app. left.
    apply list_elem_of_fmap. by exists f.
Qed.
End shape.

Lemma check_expr_total n e : TFits n (NExpr e) → total (check_expr pkg n e).
Proof.
  revert e. induction n as [|n IH]; intros e H; inversion H as [? ? y Hy Hok Hp|]; subst. cbn [check_expr].
  apply total_look; [by eexists|]. intros z Hz. assert (z = y) as -> by congruence.
  apply taint_total_bind; [by apply (inner_total n _ IH)|]. intros t. apply taint_total_bind; [apply total_modify|auto with total].
Qed.

(** The items are there, and the bodies fit. *)
Definition taint_fits (n : nat) : Prop :=
  (∀ ps b, Root pkg ps b → TFits n (NBlock b)) ∧
  ∀ i, i ∈ top_level pkg → ∃ it, items pkg !! i = Some it ∧
    match it with
    | ItFn fid => is_Some (fns pkg !! fid)
    | ItAgent aid => ∃ ag, agents pkg !! aid = Some ag ∧ ∀ fid, fid ∈ ag_methods ag → is_Some (fns pkg !! fid)
    | _ => True
    end.

Lemma body_total n ps body : (∀ b, body = Some b → TFits n (NBlock b)) → total (check_body pkg n ps body).
Proof.
  intros H. unfold check_body. apply taint_total_bind; [apply total_modify|]. intros _. apply taint_total_bind; [apply bind_all_total|]. intros _.
  apply taint_total_bind; [|intros _; apply total_modify]. destruct body as [b|]; [|apply taint_total_ret]. apply taint_total_bind; [|auto with total].
  apply (block_total n _ (check_expr_total n)), H, eq_refl.
Qed.

Lemma taint_check_returns n : taint_fits n → is_Some (Taint.check pkg n).
Proof.
  intros [Hroot Hitems]. unfold Taint.check. enough (total (StateM.each (check_item pkg n) (top_level pkg))) as Ht.
  { destruct (Ht new_taint) as [[u cx] ->]. by eexists. }
  apply total_each. intros i Hi. destruct (Hitems i Hi) as (it & Hit & Hok). unfold check_item. apply total_look; [by eexists|].
  intros it' Hit'. assert (it' = it) as -> by congruence. destruct it; try apply taint_total_ret.
  - apply total_look; [done|]. intros f Hf. apply body_total. intros b Hb. by eapply Hroot, Root_fn.
  - destruct Hok as (ag & Hag & Hms). apply total_look; [by eexists|]. intros ag' Hag'. assert (ag' = ag) as -> by congruence.
    apply taint_total_bind; [|intros _]; apply total_each.
    + intros fid Hin. apply total_look; [by apply Hms|]. intros f Hf. apply body_total. intros b Hb. by eapply Hroot, Root_method.
    + intros h Hin. apply body_total. intros b [= <-]. by eapply Hroot, Root_handler.
Qed.

(** ** Patterns *)

Definition sub_pats (p : HirPat) : list PatId :=
  match p with
  | PBinding _ sub => match sub with Some s => [s] | None => [] end
  | PRef _ inner => [inner]
  | PTuple xs | PEnum _ xs => xs
  | PStruct _ fields => omap snd fields
  | _ => []
  end.

(** A pattern over patterns allocated before it has its names. *)
Lemma pat_names_returns pid :
  (∀ p x, pats pkg !! p = Some x → ∀ q, q ∈ sub_pats x → (q < p)%nat) → (pid < length (pats pkg))%nat →
  is_Some (pat_names pkg pid).
Proof.
  intros Hbelow Hlt. unfold pat_names. assert (pid < S (length (pats pkg)))%nat as Hn by lia.
  generalize dependent (S (length (pats pkg))). intros n Hn. revert pid Hlt Hn.
  induction n as [|n IH]; intros pid Hlt Hn; [lia|]. cbn [collect_pat_names].
  destruct (lookup_lt_is_Some_2 _ _ Hlt) as [x Hx]. rewrite Hx. cbn [mbind option_bind].
  assert (∀ q, q ∈ sub_pats x → is_Some (collect_pat_names pkg n q)) as Hsub.
  { intros q Hq. specialize (Hbelow pid x Hx q Hq). apply IH; lia. }
  assert (∀ xs : list PatId, xs ⊆ sub_pats x → is_Some (concat_names (collect_pat_names pkg n) xs)) as Hcat.
  { intros xs. induction xs as [|q xs IHx]; intros Hxs; [by eexists|]. cbn.
    destruct (Hsub q ltac:(apply Hxs; left)) as [ns ->]. cbn. destruct IHx as [ms ->]; [|by eexists]. intros r Hr. apply Hxs. by right. }
  destruct x; try (by eexists); cbn [sub_pats] in *.
  - destruct sub as [q|]; [|by eexists]. cbn. destruct (Hsub q ltac:(left)) as [ns ->]. by eexists.
  - apply Hsub. left.
  - by apply Hcat.
  - clear -Hsub. induction fields as [|[nm [q|]] fields IHf]; [by eexists|..]; cbn in *.
    + destruct (Hsub q ltac:(left)) as [ns ->]. cbn. destruct IHf as [ms ->]; [|by eexists]. intros r Hr. apply Hsub. by right.
    + destruct IHf as [ms ->]; [done|by eexists].
  - by apply Hcat.
Qed.
End returns.

(** ** The taint pass: the theorems *)

(** C8. The pass is exact.  It reports precisely the arguments, at the
    sensitive positions of the sinks it comes to in some body, whose value a
    source reaches through the operations that propagate taint and through
    the bindings in scope. *)
Theorem taint_exact pkg n ds :
  check pkg n = Some ds →
  ∀ d, d ∈ ds ↔ ∃ ps b, Root pkg ps b ∧ Reported pkg (env_params ps) (NBlock b) d.
Proof. apply check_reports. Qed.

(** A package of one function. *)
Definition one_fn (exprs : list HirExpr) (body : HirBlock) : Package :=
  mkPackage [ItFn 0] [mkFn "main" true false [] [] None [] None (Some 0%nat) None false no_span] [] [] [] [] [] []
    exprs [PBinding "x" None] [] [body] [] [0%nat] ∅.

Definition arg (e : ExprId) : HirArg := mkArg None e.

Definition var_and_sink : list HirExpr :=
  [EPath ["std"; "env"; "var"]; ELiteral (LStr "HOME"); ECall 0 [arg 1]; EPath ["std"; "sql"; "execute"]; EPath ["x"];
   ECall 3 [arg 4]; EBinary Assign 4 2; EBlock 1; ECall 7 []].

(** [let x = std.env.var(..); std.sql.execute(x)] *)
Definition let_pkg : Package := one_fn var_and_sink (mkBlock [SLet 0 None (Some 2%nat) false] (Some 5%nat)).

(** [let mut x = ..; x = std.env.var(..); std.sql.execute(x)] *)
Definition assign_pkg : Package := one_fn var_and_sink (mkBlock [SLet 0 None (Some 1%nat) true; SExpr 6] (Some 5%nat)).

Definition sql_report : Diagnostic := sink_report let_pkg "std.sql.execute" [arg 4] 5 0.

Lemma taint_exact_witness :
  ∃ ds, check let_pkg 4 = Some ds ∧ ∃ ps b, Root let_pkg ps b ∧ Reported let_pkg (env_params ps) (NBlock b) sql_report.
Proof.
  destruct (check let_pkg 4) as [ds|] eqn:E; [|vm_compute in E; discriminate E]. exists ds. split; [reflexivity|].
  apply (proj1 (taint_exact let_pkg 4 ds E sql_report)). vm_compute in E. injection E as <-. left.
Defined.

(** The pass returns on every package whose bodies are finite trees of
    depth [n] in the arenas, and what it reports does not depend on the
    depth allowed. *)
Theorem taint_pass_returns pkg n :
  taint_fits pkg n →
  ∃ ds, check pkg n = Some ds ∧ ∀ k es, check pkg k = Some es → ∀ d, d ∈ es ↔ d ∈ ds.
Proof.
  intros H. destruct (taint_check_returns pkg n H) as [ds E]. exists ds. split; [done|]. intros k es Ek d.
  by rewrite (check_reports pkg k es Ek), (check_reports pkg n ds E).
Qed.

Lemma let_fits : taint_fits let_pkg 2.
Proof.
  assert (TFits let_pkg 2 (NBlock 0)) as Hb.
  { eapply TFits_block; [reflexivity|intros st ->%list_elem_of_singleton; by eexists| |].
    - intros st Γ p ->%list_elem_of_singleton ->%list_elem_of_singleton. cbn.
      eapply TFits_expr; [reflexivity|split; [by intros ? ?%elem_of_nil|intros ? [= <-]; by eexists]|].
      intros Γ' p ->%list_elem_of_singleton. cbn. eapply TFits_expr; [reflexivity|split; [by intros ? ?%elem_of_nil|by intros ? ?]|by intros ? ? ?%elem_of_nil].
    - intros e [= <-]. eapply TFits_expr; [reflexivity|split; [by intros ? ?%elem_of_nil|intros ? [= <-]; by eexists]|].
      intros Γ' p ->%list_elem_of_singleton. cbn. eapply TFits_expr; [reflexivity|split; [by intros ? ?%elem_of_nil|by intros ? ?]|by intros ? ? ?%elem_of_nil]. }
  split.
  - intros ps b Hr. inversion Hr as [i fid f b' Hi Hit Hf Hbody|i aid ag fid f b' Hi Hit|i aid ag h Hi Hit];
      apply list_elem_of_singleton in Hi as ->; [|discriminate Hit..]. injection Hit as <-. injection Hf as <-.
    injection Hbody as <-. exact Hb.
  - intros i ->%list_elem_of_singleton. exists (ItFn 0). split; [reflexivity|by eexists].
Qed.

Lemma taint_pass_returns_witness : ∃ ds, check let_pkg 2 = Some ds.
Proof. destruct (taint_pass_returns let_pkg 2 let_fits) as (ds & E & _). by exists ds. Defined.

(** The result of a sanitising method is clean, whatever it is called on. *)
Lemma sanitised_clean pkg Γ e r m args :
  exprs pkg !! e = Some (EMethodCall r m args) → is_untaint_method m = true → ¬ Tainted pkg Γ (NExpr e).
Proof.
  intros He Hm. rewrite (Tainted_expr _ _ _ _ He). unfold OwnTaint. cbn [source origin parts].
  assert (cleans m = true) as Hc by (unfold cleans; by rewrite Hm). rewrite Hc. cbn [negb andb].
  assert (is_tainted_source (receiver_path pkg r) m = false) as Hs.
  { unfold is_untaint_method in Hm. apply bool_decide_eq_true_1 in Hm. unfold is_tainted_source. apply bool_decide_eq_false_2.
    intros Hin. repeat (apply elem_of_cons in Hm as [->|Hm]; [repeat (apply elem_of_cons in Hin as [[= _]|Hin]); by apply elem_of_nil in Hin|]).
    by apply elem_of_nil in Hm. }
  rewrite Hs, AnyTaint_cons, (arg_parts_flow _ _ false). cbn. naive_solver.
Qed.

(** An assignment carries no taint: the same flow through [let] is reported,
    through [=] it is not. *)
Example assignment_not_tracked :
  check let_pkg 4 = Some [sql_report] ∧ check assign_pkg 4 = Some [].
Proof. by split; vm_compute. Qed.

(** A sink in the callee of a call is not visited. *)
Example callee_not_visited :
  check (mkPackage (items let_pkg) (fns let_pkg) [] [] [] [] [] [] var_and_sink [PBinding "x" None] []
           [mkBlock [SLet 0 None (Some 2%nat) false] (Some 8%nat); mkBlock [] (Some 5%nat)] [] [0%nat] ∅) 6 = Some [].
Proof. by vm_compute. Qed.
