(* ===== verification/CapResolver.v ===== *)
(** * Capability names and their check

    [cap_resolver.rs] and [cap_check.rs] of [crates/mty-types/src/].  A frame keeps its bindings in the
    order they were pushed; the stack [in_scope] has its top frame first.  An
    operation that answers [Err] leaves the resolver as it was.  The lemmas
    on scopes, then the sweeps over the bodies, follow. *)

From stdpp Require Import base list strings numbers gmap sets pretty.
From S2P Require Import Prelude TyArena Hir BorrowState Semver EffectRow.

Local Open Scope string_scope.
Local Open Scope list_scope.
Notation length := List.length (only parsing).

Record CapSpec : Set := mkCapSpec { cs_family : CapFamily; cs_constraint : CapConstraint }.

#[export] Instance CapSpec_eq_dec : EqDecision CapSpec.
Proof. solve_decision. Defined.

(** [CapSpec::top] *)
Definition top_spec (family : CapFamily) : CapSpec := mkCapSpec family CAny.

Inductive CapResolutionError : Set :=
  | Unbound (name : string)
  | FamilyMismatch (name : string) (declared expected : CapFamily)
  | ScopeViolation (name : string) (popped_at_depth : nat)
  | Redeclaration (name : string) (frame_depth : nat)
  | UnknownMethod (family : CapFamily) (method : string) (available : list string)
  | InvalidConstraint (family : CapFamily) (method reason : string).

Notation Frame := (list (string * CapSpec)) (only parsing).

Record CapResolver : Type := mkResolver {
  declared : gmap string CapSpec;
  in_scope : list Frame;
  popped : gmap string nat
}.

(** [CapResolver::new] *)
Definition new_resolver : CapResolver := mkResolver ∅ [] ∅.

Definition depth (r : CapResolver) : nat := length (in_scope r).

Definition binds (name : string) (f : Frame) : bool := existsb (λ p, String.eqb p.1 name) f.

Definition declare (r : CapResolver) (name : string) (spec : CapSpec) : Res CapResolutionError CapResolver :=
  if bool_decide (is_Some (declared r !! name)) then Err (Redeclaration name 0)
  else if (match in_scope r with top :: _ => binds name top | [] => false end) then Err (Redeclaration name (depth r))
  else Ok (mkResolver (<[name := spec]> (declared r)) (in_scope r) (popped r)).

Definition push_scope (r : CapResolver) : CapResolver := mkResolver (declared r) ([] :: in_scope r) (popped r).

Definition bind_in_scope (r : CapResolver) (name : string) (spec : CapSpec) : Res CapResolutionError CapResolver :=
  match in_scope r with
  | [] => declare r name spec
  | top :: rest =>
      if binds name top then Err (Redeclaration name (depth r))
      else Ok (mkResolver (declared r) ((top ++ [(name, spec)]) :: rest) (popped r))
  end.

(** [for (name, _) in frame { popped.insert(name, depth) }] *)
Definition pop_all (d : nat) (f : Frame) (m : gmap string nat) : gmap string nat := foldl (λ m p, <[p.1 := d]> m) m f.

Definition pop_scope (r : CapResolver) : CapResolver :=
  match in_scope r with
  | [] => r
  | frame :: rest => mkResolver (declared r) rest (pop_all (length rest + 1) frame (popped r))
  end.

(** [for (n, spec) in frame.iter().rev()] *)
Fixpoint first_binding (name : string) (f : Frame) : option CapSpec :=
  match f with [] => None | (n, spec) :: f => if String.eqb n name then Some spec else first_binding name f end.

Fixpoint resolve_frames (name : string) (fs : list Frame) : option CapSpec :=
  match fs with
  | [] => None
  | f :: fs => match first_binding name (reverse f) with Some spec => Some spec | None => resolve_frames name fs end
  end.

Definition resolve (r : CapResolver) (name : string) : Res CapResolutionError CapSpec :=
  match resolve_frames name (in_scope r) with
  | Some spec => Ok spec
  | None =>
      match declared r !! name with
      | Some spec => Ok spec
      | None =>
          match popped r !! name with
          | Some d => Err (ScopeViolation name d)
          | None => Err (Unbound name)
          end
      end
  end.

Definition resolve_as (r : CapResolver) (name : string) (expected : CapFamily) : Res CapResolutionError CapSpec :=
  spec ← resolve r name;
  if bool_decide (cs_family spec ≠ expected) then Err (FamilyMismatch name (cs_family spec) expected) else Ok spec.

(** ** Methods and narrowing *)

Definition family_methods (family : CapFamily) : list string :=
  match family with Fs => ["ro"; "path"] | Net => ["host"] | Clock | Dom | Model | Custom _ => [] end.

Definition is_operational_method (family : CapFamily) (method : string) : bool :=
  match family with
  | Fs => bool_decide (method ∈ ["read"; "write"; "list"; "open"; "create"; "exists"; "remove"])
  | Net => bool_decide (method ∈ ["get"; "post"; "connect"; "fetch"; "request"])
  | Clock => bool_decide (method ∈ ["now"; "sleep"; "elapsed"; "deadline"])
  | Dom => bool_decide (method ∈ ["query"; "render"; "mount"; "select"; "update"])
  | Model => bool_decide (method ∈ ["call"; "stream"; "embed"; "complete"; "chat"])
  | Custom _ => true
  end.

Definition check_method (family : CapFamily) (method : string) : Res CapResolutionError string :=
  let available := family_methods family in
  if bool_decide (method ∈ available) then Ok method
  else if is_operational_method family method then Ok "__operational"
  else Err (UnknownMethod family method available).

Definition pretty_family (family : CapFamily) : string :=
  match family with
  | Fs => "Fs" | Net => "Net" | Clock => "Clock" | Dom => "Dom" | Model => "Model" | Custom _ => "<custom>"
  end.

Definition is_ok {E A} (r : Res E A) : bool := match r with Ok _ => true | Err _ => false end.

Fixpoint check_narrowing (family : CapFamily) (method : string) (constraint : CapConstraint) : Res CapResolutionError () :=
  match check_method family method with
  | Err e => Err e
  | Ok _ =>
      let ok :=
        match family, constraint with
        | Fs, (CReadOnly | CPath _) => true
        | Net, CHost hs => match hs with [] => false | _ => true end
        | fam, CAnd xs => forallb (λ x, is_ok (check_narrowing fam method x)) xs
        | _, CAny => true
        | _, _ => false
        end in
      if ok then Ok ()
      else Err (InvalidConstraint family method
                  ("family `" +:+ pretty_family family +:+ "` does not accept this narrowing constraint"))
  end.

(** ** Questions *)

Definition is_known (r : CapResolver) (name : string) : bool :=
  bool_decide (is_Some (declared r !! name)) || existsb (binds name) (in_scope r).

(** [if seen.insert(n.clone()) { out.push(n.clone()) }], for each name. *)
Fixpoint fresh_names (seen : gset string) (ns : list string) : list string :=
  match ns with
  | [] => []
  | n :: ns => if bool_decide (n ∈ seen) then fresh_names seen ns else n :: fresh_names ({[n]} ∪ seen) ns
  end.

(** [keys]: the keys of the registry in the order the hash map yields them. *)
Definition visible_names (keys : list string) (r : CapResolver) : list string :=
  fresh_names ∅ (concat ((λ f, f.*1) <$> in_scope r) ++ keys).

(** ** Scopes: a specification

    A scope is a finite map, an inner one shadowing the outer; the registry is
    the outermost. *)
Record Scopes : Type := mkScopes {
  registry : gmap string CapSpec;
  levels : list (gmap string CapSpec);
  gone : gmap string nat
}.

(** What is visible: the innermost binding of every name. *)
Definition view (a : Scopes) : gmap string CapSpec := foldr (∪) (registry a) (levels a).

Definition spec_lookup (a : Scopes) (name : string) : Res CapResolutionError CapSpec :=
  match view a !! name with
  | Some spec => Ok spec
  | None => Err (match gone a !! name with Some d => ScopeViolation name d | None => Unbound name end)
  end.

Definition spec_declare (a : Scopes) (name : string) (spec : CapSpec) : Res CapResolutionError Scopes :=
  match registry a !! name with
  | Some _ => Err (Redeclaration name 0)
  | None =>
      match default ∅ (head (levels a)) !! name with
      | Some _ => Err (Redeclaration name (length (levels a)))
      | None => Ok (mkScopes (<[name := spec]> (registry a)) (levels a) (gone a))
      end
  end.

Definition spec_push (a : Scopes) : Scopes := mkScopes (registry a) (∅ :: levels a) (gone a).

Definition spec_bind (a : Scopes) (name : string) (spec : CapSpec) : Res CapResolutionError Scopes :=
  match levels a with
  | [] => spec_declare a name spec
  | top :: rest =>
      match top !! name with
      | Some _ => Err (Redeclaration name (length (levels a)))
      | None => Ok (mkScopes (registry a) (<[name := spec]> top :: rest) (gone a))
      end
  end.

Definition spec_pop (a : Scopes) : Scopes :=
  match levels a with
  | [] => a
  | top :: rest => mkScopes (registry a) rest (((λ _, length (levels a)) <$> top) ∪ gone a)
  end.

(** ** Sessions *)

Inductive CapOp : Set :=
  | OpDeclare (name : string) (spec : CapSpec)
  | OpPush
  | OpBind (name : string) (spec : CapSpec)
  | OpPop.

(** The state after an operation, and its answer. *)
Definition settle {S} (s : S) (r : Res CapResolutionError S) : S * Res CapResolutionError () :=
  match r with Ok s' => (s', Ok ()) | Err e => (s, Err e) end.

Definition step (r : CapResolver) (op : CapOp) : CapResolver * Res CapResolutionError () :=
  match op with
  | OpDeclare n spec => settle r (declare r n spec)
  | OpPush => (push_scope r, Ok ())
  | OpBind n spec => settle r (bind_in_scope r n spec)
  | OpPop => (pop_scope r, Ok ())
  end.

Definition spec_step (a : Scopes) (op : CapOp) : Scopes * Res CapResolutionError () :=
  match op with
  | OpDeclare n spec => settle a (spec_declare a n spec)
  | OpPush => (spec_push a, Ok ())
  | OpBind n spec => settle a (spec_bind a n spec)
  | OpPop => (spec_pop a, Ok ())
  end.

(** A session: the last state and the answers. *)
Fixpoint session {S} (step : S → CapOp → S * Res CapResolutionError ()) (s : S) (ops : list CapOp)
    : S * list (Res CapResolutionError ()) :=
  match ops with
  | [] => (s, [])
  | op :: ops => let '(s1, a) := step s op in let '(s2, l) := session step s1 ops in (s2, a :: l)
  end.

(** Bindings and whole inner scopes. *)
Inductive Bracketed : list CapOp → Prop :=
  | br_nil : Bracketed []
  | br_bind n spec ops : Bracketed ops → Bracketed (OpBind n spec :: ops)
  | br_scope inner ops : Bracketed inner → Bracketed ops → Bracketed (OpPush :: inner ++ OpPop :: ops).

(** ** The capability resolver refines its specification: lemmas

    [abs] reads a resolver as nested finite maps.  [scoped], that no frame
    binds a name twice, is the invariant under which the operations commute
    with it. *)

Definition abs (r : CapResolver) : Scopes := mkScopes (declared r) (list_to_map <$> in_scope r) (popped r).

Definition scoped (r : CapResolver) : Prop := Forall (λ f : Frame, NoDup f.*1) (in_scope r).

(** ** Frames *)

Lemma binds_elem name (f : Frame) : binds name f = true ↔ name ∈ f.*1.
Proof.
  unfold binds. rewrite existsb_exists, list_elem_of_fmap. setoid_rewrite <-list_elem_of_In. setoid_rewrite String.eqb_eq.
  split; intros (p & H & K); by exists p.
Qed.

Lemma binds_lookup name (f : Frame) : binds name f = bool_decide (is_Some ((list_to_map f : gmap string CapSpec) !! name)).
Proof.
  apply eq_true_iff_eq. rewrite binds_elem, bool_decide_eq_true, <-not_eq_None_Some. split.
  - intros H E. by apply not_elem_of_list_to_map in E.
  - intros H. destruct (decide (name ∈ f.*1)); [done|]. by destruct H; apply not_elem_of_list_to_map.
Qed.

Lemma first_binding_map name (f : Frame) : first_binding name f = (list_to_map f : gmap string CapSpec) !! name.
Proof.
  induction f as [|[n spec] f IH]; [done|]. cbn. rewrite lookup_insert, IH.
  destruct (String.eqb_spec n name); by case_decide.
Qed.

Lemma first_binding_frame name (f : Frame) :
  NoDup f.*1 → first_binding name (reverse f) = (list_to_map f : gmap string CapSpec) !! name.
Proof.
  intros H. rewrite first_binding_map. f_equal. symmetry. apply list_to_map_proper; [done|]. by rewrite reverse_Permutation.
Qed.

Lemma frame_snoc (f : Frame) name spec :
  NoDup f.*1 → binds name f = false →
  (list_to_map (f ++ [(name, spec)]) : gmap string CapSpec) = <[name := spec]> (list_to_map f) ∧ NoDup (f ++ [(name, spec)]).*1.
Proof.
  intros Hf Hn. assert (name ∉ f.*1) as Hn' by (rewrite <-binds_elem, Hn; done).
  assert (NoDup (f ++ [(name, spec)]).*1) as Hd.
  { rewrite fmap_app. apply NoDup_app. split_and!; [done| |apply NoDup_singleton]. by intros x Hx ->%list_elem_of_singleton. }
  split; [|done]. transitivity (list_to_map ((name, spec) :: f) : gmap string CapSpec); [|done].
  apply list_to_map_proper; [done|]. symmetry. apply Permutation_cons_append.
Qed.

Lemma pop_all_map d (f : Frame) m : pop_all d f m = ((λ _, d) <$> (list_to_map f : gmap string CapSpec)) ∪ m.
Proof.
  apply map_eq. intros name. revert m. unfold pop_all. induction f as [|[n spec] f IH]; intros m; cbn [foldl].
  { by rewrite lookup_union, list_to_map_nil, lookup_fmap, lookup_empty, (left_id None _). }
  rewrite IH. cbn [list_to_map foldr fst snd uncurry]. rewrite !lookup_union, !lookup_fmap, !lookup_insert.
  destruct (list_to_map f !! name) as [s|], (decide (n = name)) as [->|Hn]; cbn; try done; by destruct (m !! name).
Qed.

(** ** The operations *)

Lemma resolve_frames_view name fs (reg : gmap string CapSpec) :
  Forall (λ f : Frame, NoDup f.*1) fs →
  match resolve_frames name fs with Some spec => Some spec | None => reg !! name end
  = (foldr (∪) reg (list_to_map <$> fs) : gmap string CapSpec) !! name.
Proof.
  intros H. induction H as [|f fs Hf _ IH]; [done|]. cbn [resolve_frames fmap list_fmap foldr].
  rewrite first_binding_frame by done. rewrite lookup_union, <-IH.
  destruct (list_to_map f !! name) as [spec|]; cbn; [|by destruct (resolve_frames name fs), (reg !! name)].
  by destruct (resolve_frames name fs), (reg !! name).
Qed.

Lemma resolve_abs r name : scoped r → resolve r name = spec_lookup (abs r) name.
Proof.
  intros H. unfold resolve, spec_lookup, view. cbn [abs levels registry gone]. rewrite <-resolve_frames_view by done.
  destruct (resolve_frames name (in_scope r)); [done|]. destruct (declared r !! name); [done|]. by destruct (popped r !! name).
Qed.

(** A step answers as the specification's, from [r] to the state it gives. *)
Definition simulates (r : CapResolver) (x : CapResolver * Res CapResolutionError ()) (y : Scopes * Res CapResolutionError ()) : Prop :=
  scoped x.1 ∧ y = (abs x.1, x.2).

Lemma declare_sim r name spec :
  scoped r → simulates r (settle r (declare r name spec)) (settle (abs r) (spec_declare (abs r) name spec)).
Proof.
  destruct r as [reg fs dead]. intros H. unfold declare, spec_declare. cbn. destruct (reg !! name); [done|].
  rewrite bool_decide_eq_false_2 by (intros [? [=]]).
  destruct fs as [|top rest]; cbn; [by rewrite lookup_empty|]. rewrite binds_lookup.
  destruct (list_to_map top !! name); [|done]. split; [done|]. cbn. unfold depth. cbn. by rewrite length_fmap.
Qed.

Lemma bind_sim r name spec :
  scoped r → simulates r (settle r (bind_in_scope r name spec)) (settle (abs r) (spec_bind (abs r) name spec)).
Proof.
  intros H. unfold bind_in_scope, spec_bind. destruct r as [reg [|top rest] dead]; [by apply (declare_sim _ name spec)|].
  apply Forall_cons in H as [Ht Hr]. cbn. rewrite binds_lookup.
  destruct (list_to_map top !! name) eqn:E; cbn.
  - split; [by constructor|]. cbn. unfold depth. cbn. by rewrite length_fmap.
  - destruct (frame_snoc top name spec Ht) as [Em Hd]; [rewrite binds_lookup, E; done|].
    split; [by constructor|]. cbn. unfold abs. cbn. by rewrite Em.
Qed.

Lemma pop_sim r : scoped r → simulates r (pop_scope r, Ok ()) (spec_pop (abs r), Ok ()).
Proof.
  destruct r as [reg [|top rest] dead]; [done|]. intros [_ Hr]%Forall_cons. split; [done|]. cbn.
  unfold abs. cbn. rewrite pop_all_map, length_fmap. do 3 f_equal. apply map_fmap_ext. intros _ _ _. lia.
Qed.

Lemma step_sim r op : scoped r → simulates r (step r op) (spec_step (abs r) op).
Proof.
  intros H. destruct op as [n spec| |n spec|]; [by apply declare_sim| |by apply bind_sim|by apply pop_sim].
  split; [|done]. constructor; [apply NoDup_nil_2|exact H].
Qed.

Lemma session_sim r ops :
  scoped r → scoped (session step r ops).1 ∧
  session spec_step (abs r) ops = (abs (session step r ops).1, (session step r ops).2).
Proof.
  revert r. induction ops as [|op ops IH]; intros r H; [done|]. cbn [session].
  destruct (step_sim r op H) as [Hs E]. rewrite E. destruct (step r op) as [r1 a]. cbn in *.
  destruct (IH r1 Hs) as [Hs2 E2]. rewrite E2. by destruct (session step r1 ops) as [r2 l].
Qed.

Lemma scoped_new : scoped new_resolver.
Proof. constructor. Qed.

(** ** Whole scopes *)

Lemma session_app {S} (st : S → CapOp → S * Res CapResolutionError ()) s ops1 ops2 :
  (session st s (ops1 ++ ops2)).1 = (session st (session st s ops1).1 ops2).1.
Proof.
  revert s. induction ops1 as [|op ops1 IH]; intros s; [done|]. cbn [app session]. destruct (st s op) as [s1 a].
  specialize (IH s1). destruct (session st s1 (ops1 ++ ops2)), (session st s1 ops1). exact IH.
Qed.

Lemma session_cons {S} (st : S → CapOp → S * Res CapResolutionError ()) s op ops :
  (session st s (op :: ops)).1 = (session st (st s op).1 ops).1.
Proof. cbn [session]. destruct (st s op) as [s1 a]. cbn [fst]. by destruct (session st s1 ops). Qed.

(** What was popped stays so. *)
Lemma spec_pop_gone a n : is_Some (gone a !! n) → is_Some (gone (spec_pop a) !! n).
Proof.
  intros [d E]. unfold spec_pop. destruct (levels a) as [|g l]; [by eexists|]. cbn.
  rewrite lookup_union, E, lookup_fmap. destruct (g !! n); cbn; by eexists.
Qed.

(** Inside a scope, bracketed operations leave the registry and the scopes
    around, and keep the bindings of the top; what is bound in the top or was
    popped stays so. *)
Lemma bracketed_spec ops a top rest :
  Bracketed ops → levels a = top :: rest →
  ∃ top' gone', (session spec_step a ops).1 = mkScopes (registry a) (top' :: rest) gone' ∧
    top ⊆ top' ∧ (∀ n, is_Some (gone a !! n) → is_Some (gone' !! n)) ∧
    (∀ n spec, OpBind n spec ∈ ops → is_Some (top' !! n) ∨ is_Some (gone' !! n)).
Proof.
  intros H. revert a top rest. induction H as [|n spec ops _ IH|inner ops _ IHi _ IHo]; intros [reg lv dead] top rest; cbn [levels]; intros ->.
  - exists top, dead. split_and!; [done..|]. intros n spec Hn. by apply elem_of_nil in Hn.
  - rewrite session_cons. cbn [spec_step spec_bind levels].
    assert (∃ top1, (settle (mkScopes reg (top :: rest) dead)
        match top !! n with Some _ => Err (Redeclaration n (length (top :: rest)))
        | None => Ok (mkScopes reg (<[n:=spec]> top :: rest) dead) end).1 = mkScopes reg (top1 :: rest) dead
        ∧ top ⊆ top1 ∧ is_Some (top1 !! n)) as (top1 & E & Hsub & Hn).
    { destruct (top !! n) eqn:E; [by exists top|]. exists (<[n:=spec]> top). cbn.
      split_and!; [done|by apply insert_subseteq|by rewrite lookup_insert_eq]. }
    cbn [registry gone] in *. unfold spec_step, spec_bind. cbn [levels registry gone]. rewrite E.
    destruct (IH (mkScopes reg (top1 :: rest) dead) top1 rest eq_refl) as (top' & gone' & Ef & Hs & Hg & Hb).
    exists top', gone'. split_and!; [done|by transitivity top1|done|].
    intros m sp [[= -> ->]|Hin]%elem_of_cons; [left|by eapply Hb]. destruct Hn as [x Hx]. exists x. by eapply lookup_weaken.
  - rewrite session_cons, session_app, session_cons. cbn [spec_step fst spec_push].
    destruct (IHi (mkScopes reg (∅ :: top :: rest) dead) ∅ (top :: rest) eq_refl) as (t1 & g1 & E1 & _ & Hg1 & Hb1).
    unfold spec_push. cbn [levels registry gone] in *. rewrite E1. unfold spec_pop. cbn [levels registry gone].
    match goal with |- context [session spec_step ?a ops] => destruct (IHo a top rest eq_refl) as (top' & gone' & Ef & Hs & Hg & Hb) end.
    cbn [registry gone] in *. exists top', gone'. split_and!; [done|done| |].
    + intros m Hm. apply Hg. destruct (Hg1 m Hm) as [d Ed]. rewrite lookup_union, lookup_fmap, Ed. by destruct (t1 !! m); eexists.
    + intros m sp [?|Hin]%elem_of_cons; [done|]. apply elem_of_app in Hin as [Hin|Hin].
      * right. apply Hg. rewrite lookup_union, lookup_fmap. destruct (Hb1 m sp Hin) as [[x ->]|[d ->]]; [by destruct (g1 !! m); eexists|].
        by destruct (t1 !! m); eexists.
      * apply elem_of_cons in Hin as [?|Hin]; [done|]. by eapply Hb.
Qed.

(** ** The capability sweeps

    [crates/mty-types/src/cap_check.rs], and the builders and codes of MT4060
    to MT4065 ([diag.rs], [codes.rs]).  An operation is [None] when it
    indexes an arena out of range or runs out of fuel.  The orders in which
    the hash map of parameters and the hash set of visited nodes are
    iterated, and the quoting of the standard library's [Debug], are
    parameters. *)

(** ** Diagnostics *)

Definition CAP_NAME_UNBOUND : Z := 4060.
Definition CAP_FAMILY_MISMATCH : Z := 4061.
Definition CAP_SCOPE_VIOLATION : Z := 4062.
Definition CAP_REDECLARATION : Z := 4063.
Definition CAP_METHOD_UNKNOWN : Z := 4064.
Definition CAP_CONSTRAINT_INVALID : Z := 4065.

(** [diag::pretty_family] *)
Definition diag_family (family : CapFamily) : string :=
  match family with Custom s => s | _ => pretty_family family end.

Definition cap_name_unbound (name : string) (span : SourceSpan) : Diagnostic :=
  with_notes (error CAP_NAME_UNBOUND (label span (quoted "capability " name " is not declared and not in scope")))
    ["declare it at module level (`cap <Name>: <Family>`), or accept it as a handler/fn parameter";
     "v0.21 cap-resolver — see `mty explain MT4060`"].

Definition cap_family_mismatch (name : string) (declared expected : CapFamily) (span : SourceSpan) : Diagnostic :=
  with_notes
    (error CAP_FAMILY_MISMATCH
       (label span (quoted "capability " name
                      (quoted " is declared as " (diag_family declared) (quoted " but used as " (diag_family expected) "")))))
    [quoted "rename the cap or wrap the use-site in a " (diag_family expected) "-typed handle";
     "v0.21 cap-resolver — see `mty explain MT4061`"].

Definition cap_scope_violation (name : string) (popped_at_depth : nat) (span : SourceSpan) : Diagnostic :=
  with_notes
    (error CAP_SCOPE_VIOLATION
       (label span (quoted "capability " name (" is no longer in scope (popped at depth " +:+ pretty popped_at_depth +:+ ")"))))
    ["move the use-site inside the `with cap(...) { ... }` body, or rebind the cap at the outer scope";
     "v0.21 cap-resolver — see `mty explain MT4062`"].

Definition cap_redeclaration (name : string) (frame_depth : nat) (span : SourceSpan) : Diagnostic :=
  with_notes
    (error CAP_REDECLARATION
       (label span (quoted "capability " name (" is already declared in scope frame " +:+ pretty frame_depth))))
    ["rename one of the declarations, or scope the inner binding via `with cap(<other>) ...`";
     "v0.21 cap-resolver — see `mty explain MT4063`"].

Definition cap_method_unknown (family : CapFamily) (method : string) (available : list string) (span : SourceSpan) : Diagnostic :=
  with_notes
    (error CAP_METHOD_UNKNOWN (label span (quoted "no method " method (quoted " on capability family " (diag_family family) ""))))
    ((match available with [] => [] | _ => ["available methods: " +:+ join_commas available] end)
     ++ ["v0.21 cap-resolver — see `mty explain MT4064`"]).

Definition cap_constraint_invalid (family : CapFamily) (method reason : string) (span : SourceSpan) : Diagnostic :=
  with_notes
    (error CAP_CONSTRAINT_INVALID
       (label span (quoted "invalid narrowing constraint for " (diag_family family +:+ "." +:+ method) (": " +:+ reason))))
    ["v0.21 cap-resolver — see `mty explain MT4065`"].

Definition cap_resolution_error (err : CapResolutionError) (span : SourceSpan) : Diagnostic :=
  match err with
  | Unbound name => cap_name_unbound name span
  | FamilyMismatch name declared expected => cap_family_mismatch name declared expected span
  | ScopeViolation name d => cap_scope_violation name d span
  | Redeclaration name d => cap_redeclaration name d span
  | UnknownMethod family method available => cap_method_unknown family method available span
  | InvalidConstraint family method reason => cap_constraint_invalid family method reason span
  end.

(** ** Helpers *)

(** [for x in xs { s = f(s, x) }] *)
Fixpoint foldM {S A} (f : S → A → option S) (s : S) (xs : list A) : option S :=
  match xs with [] => Some s | x :: xs => s' ← f s x; foldM f s' xs end.

(** [entry(name).or_insert_with(|| a)] *)
Definition or_insert {A} (name : string) (a : A) (m : gmap string A) : gmap string A :=
  match m !! name with Some _ => m | None => <[name := a]> m end.

Definition looks_like_cap (name : string) : option CapFamily :=
  if String.eqb name "Fs" then Some Fs
  else if String.eqb name "Net" then Some Net
  else if String.eqb name "Clock" then Some Clock
  else if String.eqb name "Dom" then Some Dom
  else if String.eqb name "Model" then Some Model
  else None.

Definition validate_narrowing (family : CapFamily) (method : string) (constraint : CapConstraint) : Res CapResolutionError () :=
  check_narrowing family method constraint.

Section pass.
Variable values : gmap FnId (list (string * TyId)) → list (list (string * TyId)).
Variable iterate : gset ExprId → list ExprId.
Variable str_debug : string → string.
Variable typed : TypedPackage.
Variable pkg : Package.

(** [if let TyData::Cap { family, .. } = typed.ty_arena.get(ty)] *)
Definition cap_family (ty : TyId) : option (option CapFamily) :=
  d ← get (ty_arena typed) ty;
  Some (match d with TCap family _ => Some family | _ => None end).

(** ** Redeclarations *)

Definition redeclaration_param (s : gset string * list Diagnostic) (p : string * TyId) : option (gset string * list Diagnostic) :=
  c ← cap_family p.2;
  Some (match c with
        | Some _ => if bool_decide (p.1 ∈ s.1) then (s.1, s.2 ++ [cap_redeclaration p.1 0 no_span]) else ({[p.1]} ∪ s.1, s.2)
        | None => s
        end).

Definition redeclaration_fn (out : list Diagnostic) (params : list (string * TyId)) : option (list Diagnostic) :=
  s ← foldM redeclaration_param (∅, out) params;
  Some s.2.

Definition sweep_redeclarations (out : list Diagnostic) : option (list Diagnostic) :=
  foldM redeclaration_fn out (values (fn_param_tys typed)).

(** ** The nodes of a body *)

Section walk.
(** The recursive call on an expression. *)
Variable collect : gset ExprId → ExprId → option (gset ExprId).

Definition collect_opt (V : gset ExprId) (o : option ExprId) : option (gset ExprId) :=
  match o with Some e => collect V e | None => Some V end.

Definition collect_stmt (V : gset ExprId) (st : HirStmt) : option (gset ExprId) :=
  match st with SLet _ _ init _ => collect_opt V init | SExpr e => collect V e end.

Definition collect_block_exprs (V : gset ExprId) (b : BlockId) : option (gset ExprId) :=
  block ← blocks pkg !! b;
  V ← foldM collect_stmt V (stmts block);
  collect_opt V (tail block).

Definition collect_arm (V : gset ExprId) (arm : HirMatchArm) : option (gset ExprId) :=
  V ← collect_opt V (arm_guard arm);
  collect V (arm_body arm).

Definition collect_shape (V : gset ExprId) (y : HirExpr) : option (gset ExprId) :=
  match y with
  | ECall callee args => V ← collect V callee; foldM collect V (arg_value <$> args)
  | EMethodCall receiver _ args => V ← collect V receiver; foldM collect V (arg_value <$> args)
  | EBinary _ l r => V ← collect V l; collect V r
  | EUnary _ r => collect V r
  | EBlock b => collect_block_exprs V b
  | EIf c t el => V ← collect V c; V ← collect_block_exprs V t; collect_opt V el
  | ETuple xs | EArray xs => foldM collect V xs
  | EField r _ => collect V r
  | EIndex r i => V ← collect V r; collect V i
  | EBorrow _ x => collect V x
  | EMove x | EQuestion x | EReturn (Some x) => collect V x
  | EMatch s arms => V ← collect V s; foldM collect_arm V arms
  | EIfLet _ s t el => V ← collect V s; V ← collect_block_exprs V t; collect_opt V el
  | EFor _ it body => V ← collect V it; collect_block_exprs V body
  | EWhile c body => V ← collect V c; collect_block_exprs V body
  | EWhileLet _ s body => V ← collect V s; collect_block_exprs V body
  | ELoop body | EUnsafe body | ETaskScope _ body => collect_block_exprs V body
  | _ => Some V
  end.
End walk.

(** A node is entered once, so the nesting is at most the number of nodes. *)
Fixpoint collect_expr (n : nat) (V : gset ExprId) (e : ExprId) : option (gset ExprId) :=
  if bool_decide (e ∈ V) then Some V
  else match n with
       | O => None
       | S n => y ← exprs pkg !! e; collect_shape (collect_expr n) ({[e]} ∪ V) y
       end.

Definition visited (body : BlockId) : option (gset ExprId) :=
  collect_block_exprs (collect_expr (length (exprs pkg))) ∅ body.

(** ** Scope violations *)

Definition add_cap_name (m : gmap string CapFamily) (p : string * TyId) : option (gmap string CapFamily) :=
  c ← cap_family p.2;
  Some (match c with Some family => or_insert p.1 family m | None => m end).

(** Every capability name, with a family. *)
Definition all_cap_names : option (gmap string CapFamily) :=
  foldM (foldM add_cap_name) ∅ (values (fn_param_tys typed)).

Definition add_own (own : gset string) (p : string * TyId) : option (gset string) :=
  c ← cap_family p.2;
  Some (match c with Some _ => {[p.1]} ∪ own | None => own end).

Definition own_caps (params : list (string * TyId)) : option (gset string) := foldM add_own ∅ params.

(** The name of a call [name.method(..)]. *)
Definition called_on (y : HirExpr) : option (option string) :=
  match y with
  | ECall callee _ => c ← exprs pkg !! callee; Some (match c with EPath [name; _] => Some name | _ => None end)
  | _ => Some None
  end.

Definition Seen : Type := gset (FnId * string) * list Diagnostic.

Definition scope_expr (names : gmap string CapFamily) (own : gset string) (fid : FnId) (s : Seen) (e : ExprId) : option Seen :=
  y ← exprs pkg !! e;
  c ← called_on y;
  Some (match c with
        | Some name =>
            if bool_decide (is_Some (names !! name)) && bool_decide (name ∉ own)
               && bool_decide (looks_like_cap name = None) && bool_decide ((fid, name) ∉ s.1)
            then ({[(fid, name)]} ∪ s.1, s.2 ++ [cap_scope_violation name 1 no_span])
            else s
        | None => s
        end).

Definition scope_fn (names : gmap string CapFamily) (s : Seen) (fid : FnId) : option Seen :=
  match fn_param_tys typed !! fid with
  | None => Some s
  | Some params =>
      own ← own_caps params;
      f ← fns pkg !! fid;
      match fn_body f with
      | None => Some s
      | Some body => V ← visited body; foldM (scope_expr names own fid) s (iterate V)
      end
  end.

Definition scope_item (names : gmap string CapFamily) (s : Seen) (i : ItemId) : option Seen :=
  it ← items pkg !! i;
  match it with ItFn fid => scope_fn names s fid | _ => Some s end.

Definition sweep_scope_violations (out : list Diagnostic) : option (list Diagnostic) :=
  names ← all_cap_names;
  s ← foldM (scope_item names) (∅, out) (top_level pkg);
  Some s.2.

(** ** Method calls *)

Record Families : Type := mkFamilies {
  cap_param_tys : gmap string CapFamily;
  family_mismatch_emitted : gset string;
  fam_out : list Diagnostic
}.

Definition add_family (s : Families) (p : string * TyId) : option Families :=
  c ← cap_family p.2;
  Some (match c with
        | None => s
        | Some family =>
            let name := p.1 in
            let '(em, o) :=
              match cap_param_tys s !! name with
              | Some prev =>
                  if bool_decide (prev ≠ family) && bool_decide (name ∉ family_mismatch_emitted s)
                  then ({[name]} ∪ family_mismatch_emitted s, fam_out s ++ [cap_family_mismatch name prev family no_span])
                  else (family_mismatch_emitted s, fam_out s)
              | None => (family_mismatch_emitted s, fam_out s)
              end in
            mkFamilies (or_insert name family (cap_param_tys s)) em o
        end).

Definition check_narrowing_args (family : CapFamily) (method : string) (args : list HirArg) : option (list Diagnostic) :=
  if bool_decide (family = Fs ∧ method = "path") || bool_decide (family = Net ∧ method = "host") then
    match args with
    | [] => Some [cap_constraint_invalid family method "expected at least one string literal argument" no_span]
    | a :: _ =>
        y ← exprs pkg !! arg_value a;
        let ok := match y with ELiteral (LStr s) => negb (String.eqb s "") | _ => false end in
        Some (if ok then [] else [cap_constraint_invalid family method "expected a non-empty string literal" no_span])
    end
  else Some [].

(** [format!("{:?}", family)] *)
Definition family_debug (family : CapFamily) : string :=
  match family with Custom s => "Custom(" +:+ str_debug s +:+ ")" | _ => pretty_family family end.

(** The report of a method on a family. *)
Definition method_report (family : CapFamily) (method : string) : list Diagnostic :=
  match check_method family method with Ok _ => [] | Err err => [cap_resolution_error err no_span] end.

Definition CallSeen : Type := gset (string * string) * list Diagnostic.

(** [if seen.insert(key) { .. }], where [body] gives what is pushed. *)
Definition once (key : string * string) (s : CallSeen) (body : option (list Diagnostic)) : option CallSeen :=
  if bool_decide (key ∈ s.1) then Some s else ds ← body; Some ({[key]} ∪ s.1, s.2 ++ ds).

Definition method_call (s : CallSeen) (receiver : ExprId) (method : string) : option CallSeen :=
  match expr_ty typed !! receiver with
  | None => Some s
  | Some recv_ty =>
      c ← cap_family recv_ty;
      match c with
      | Some family => once (family_debug family, method) s (Some (method_report family method))
      | None => Some s
      end
  end.

Definition path_call (tys : gmap string CapFamily) (s : CallSeen) (name method : string) (args : list HirArg) : option CallSeen :=
  match tys !! name with
  | Some family =>
      once (name, method) s
        (match check_method family method with
         | Err err => Some [cap_resolution_error err no_span]
         | Ok _ => check_narrowing_args family method args
         end)
  | None =>
      if bool_decide (is_Some (looks_like_cap name)) then once (name, method) s (Some [cap_name_unbound name no_span])
      else Some s
  end.

Definition call_expr (tys : gmap string CapFamily) (s : CallSeen) (y : HirExpr) : option CallSeen :=
  match y with
  | EMethodCall receiver method _ => method_call s receiver method
  | ECall callee args =>
      c ← exprs pkg !! callee;
      match c with EPath [name; method] => path_call tys s name method args | _ => Some s end
  | _ => Some s
  end.

Definition sweep_method_calls (out : list Diagnostic) : option (list Diagnostic) :=
  fam ← foldM (foldM add_family) (mkFamilies ∅ ∅ out) (values (fn_param_tys typed));
  s ← foldM (call_expr (cap_param_tys fam)) (∅, fam_out fam) (exprs pkg);
  Some s.2.

(** [run] on an empty list of diagnostics. *)
Definition run : option (list Diagnostic) :=
  out ← sweep_method_calls [];
  out ← sweep_scope_violations out;
  sweep_redeclarations out.
End pass.
