(* ===== verification/CapSweeps.v ===== *)
(** * What the sweeps walk over: lemmas

    [InBody]: the expressions below a block, as far as the sweep of scope
    violations looks into them.  [visited] computes them on every package,
    also where the arena has cycles.  [CapParam]: the capability parameters.  Then
    what the sweep of method calls says. *)

From stdpp Require Import base list strings numbers gmap sets.
From S2P Require Import Prelude TyArena Hir BorrowState Semver CapResolver.

Local Open Scope string_scope.
Local Open Scope list_scope.
Notation length := List.length (only parsing).

(** ** Loops *)

Lemma foldM_app {S A} (f : S → A → option S) s xs ys : foldM f s (xs ++ ys) = foldM f s xs ≫= λ s', foldM f s' ys.
Proof. revert s. induction xs as [|x xs IH]; intros s; cbn; [done|]. destruct (f s x); cbn; [apply IH|done]. Qed.

Lemma foldM_concat {S A} (f : S → A → option S) s xss : foldM (foldM f) s xss = foldM f s (concat xss).
Proof. revert s. induction xss as [|xs xss IH]; intros s; cbn; [done|]. rewrite foldM_app. destruct (foldM f s xs); cbn; [apply IH|done]. Qed.

(** An invariant over the elements done so far. *)
Lemma foldM_ind {S A} (P : list A → S → Prop) (f : S → A → option S) s xs s' :
  P [] s → (∀ pre x s1 s2, P pre s1 → x ∈ xs → f s1 x = Some s2 → P (pre ++ [x]) s2) → foldM f s xs = Some s' → P xs s'.
Proof.
  intros H0 H. assert (∀ pre ys, pre ++ ys = xs → ∀ s1, P pre s1 → foldM f s1 ys = Some s' → P xs s') as K; [|by apply (K [] xs)].
  intros pre ys. revert pre. induction ys as [|y ys IH]; intros pre E s1 Hp; cbn.
  { intros [= <-]. rewrite app_nil_r in E. by subst. }
  destruct (f s1 y) as [s2|] eqn:Ef; [|done]. cbn. apply (IH (pre ++ [y])); [by rewrite <-app_assoc|].
  eapply H; [done| |done]. rewrite <-E. apply elem_of_app. right. left.
Qed.

Lemma foldM_total {S A} (Q : S → Prop) (f : S → A → option S) s xs :
  Q s → (∀ x s1, x ∈ xs → Q s1 → ∃ s2, f s1 x = Some s2 ∧ Q s2) → ∃ s', foldM f s xs = Some s' ∧ Q s'.
Proof.
  revert s. induction xs as [|x xs IH]; intros s Hs H; [by exists s|]. cbn.
  destruct (H x s) as (s1 & -> & H1); [left|done|]. cbn. apply IH; [done|]. intros y s2 Hy. apply H. by right.
Qed.

(** ** Bodies *)

Section body.
Variable pkg : Package.

Definition stmt_expr (st : HirStmt) : list ExprId :=
  match st with SLet _ _ init _ => option_list init | SExpr e => [e] end.

Definition block_list (b : HirBlock) : list ExprId := (stmts b ≫= stmt_expr) ++ option_list (tail b).

Definition block_exprs (b : BlockId) : list ExprId := match blocks pkg !! b with Some blk => block_list blk | None => [] end.

Definition arm_exprs (a : HirMatchArm) : list ExprId := option_list (arm_guard a) ++ [arm_body a].

(** The expressions and the blocks right below an expression. *)
Definition sub_exprs (y : HirExpr) : list ExprId :=
  match y with
  | ECall x args | EMethodCall x _ args => x :: (arg_value <$> args)
  | EBinary _ l r | EIndex l r => [l; r]
  | EUnary _ x | EField x _ | EBorrow _ x | EMove x | EQuestion x | EReturn (Some x) | EFor _ x _ | EWhile x _ | EWhileLet _ x _ => [x]
  | EIf c _ el | EIfLet _ c _ el => c :: option_list el
  | ETuple xs | EArray xs => xs
  | EMatch s arms => s :: (arms ≫= arm_exprs)
  | _ => []
  end.

Definition sub_blocks (y : HirExpr) : list BlockId :=
  match y with
  | EBlock b | EIf _ b _ | EIfLet _ _ b _ | EFor _ _ b | EWhile _ b | EWhileLet _ _ b | ELoop b | EUnsafe b | ETaskScope _ b => [b]
  | _ => []
  end.

Definition nexts (y : HirExpr) : list ExprId := sub_exprs y ++ (sub_blocks y ≫= block_exprs).

Definition Next (e e' : ExprId) : Prop := ∃ y, exprs pkg !! e = Some y ∧ e' ∈ nexts y.

Definition InBody (b : BlockId) (e : ExprId) : Prop := ∃ r, r ∈ block_exprs b ∧ rtc Next r e.

(** From [V], the walk of [es] gives [V']: it adds what is below [es], and
    nothing it adds has a successor left out. *)
Record Walked (V : gset ExprId) (es : list ExprId) (V' : gset ExprId) : Prop := {
  wk_sub : V ⊆ V';
  wk_roots : ∀ e, e ∈ es → e ∈ V';
  wk_closed : ∀ x z, x ∈ V' → x ∉ V → Next x z → z ∈ V';
  wk_below : ∀ x, x ∈ V' → x ∉ V → ∃ r, r ∈ es ∧ rtc Next r x
}.

Lemma Walked_nil V : Walked V [] V.
Proof. split; [done|by intros ? ?%elem_of_nil|done|done]. Qed.

Lemma Walked_app V V1 V2 es1 es2 : Walked V es1 V1 → Walked V1 es2 V2 → Walked V (es1 ++ es2) V2.
Proof.
  intros [S1 R1 C1 B1] [S2 R2 C2 B2]. split.
  - by transitivity V1.
  - intros e [He|He]%elem_of_app; [by apply S2, R1|by apply R2].
  - intros x z Hx Hn Hz. destruct (decide (x ∈ V1)) as [H1|H1]; [by apply S2, (C1 x)|by apply (C2 x)].
  - intros x Hx Hn. destruct (decide (x ∈ V1)) as [H1|H1].
    + destruct (B1 x H1 Hn) as (r & ? & ?). exists r. by rewrite elem_of_app; auto.
    + destruct (B2 x Hx H1) as (r & ? & ?). exists r. by rewrite elem_of_app; auto.
Qed.

(** The order of the roots does not matter. *)
Lemma Walked_perm V es es' V' : (∀ e, e ∈ es ↔ e ∈ es') → Walked V es V' → Walked V es' V'.
Proof.
  intros H [S R C B]. split; [done|by intros e He; apply R, H|done|]. intros x Hx Hn.
  destruct (B x Hx Hn) as (r & Hr & ?). exists r. by rewrite <-H.
Qed.

Lemma Walked_foldM {A} (f : gset ExprId → A → option (gset ExprId)) (g : A → list ExprId) V xs V' :
  (∀ V1 x V2, x ∈ xs → f V1 x = Some V2 → Walked V1 (g x) V2) → foldM f V xs = Some V' → Walked V (xs ≫= g) V'.
Proof.
  intros H. apply (foldM_ind (λ pre V1, Walked V (pre ≫= g) V1)); [apply Walked_nil|]. intros pre x V1 V2 Hp Hx Ef.
  rewrite bind_app. eapply Walked_app; [done|]. cbn. rewrite app_nil_r. by apply H.
Qed.

Section shape.
Variable collect : gset ExprId → ExprId → option (gset ExprId).
Hypothesis Hcollect : ∀ V e V', collect V e = Some V' → Walked V [e] V'.

Lemma Walked_exprs V xs V' : foldM collect V xs = Some V' → Walked V xs V'.
Proof.
  intros H. eapply Walked_foldM in H; [|intros; by apply Hcollect]. eapply Walked_perm; [|done].
  intros e. rewrite list_elem_of_bind. setoid_rewrite list_elem_of_singleton. naive_solver.
Qed.

Lemma Walked_opt V o V' : collect_opt collect V o = Some V' → Walked V (option_list o) V'.
Proof. destruct o; cbn; [apply Hcollect|]. intros [= <-]. apply Walked_nil. Qed.

Lemma Walked_bind V es1 es2 V' (m : option (gset ExprId)) k :
  (∀ V1, m = Some V1 → Walked V es1 V1) → (∀ V1 V2, k V1 = Some V2 → Walked V1 es2 V2) →
  m ≫= k = Some V' → Walked V (es1 ++ es2) V'.
Proof. intros Hm Hk. destruct m as [V1|]; [|done]. intros E. eapply Walked_app; [by apply Hm|by apply Hk]. Qed.

Lemma Walked_block V b V' : collect_block_exprs pkg collect V b = Some V' → Walked V (block_exprs b) V'.
Proof.
  unfold collect_block_exprs, block_exprs. destruct (blocks pkg !! b) as [blk|]; [|done]. cbn [mbind option_bind].
  apply Walked_bind; [|intros; by apply Walked_opt]. intros V1. apply Walked_foldM. intros V2 st V3 _.
  destruct st; [apply Walked_opt|apply Hcollect].
Qed.

Lemma Walked_arm V a V' : collect_arm collect V a = Some V' → Walked V (arm_exprs a) V'.
Proof. apply Walked_bind; [intros V1; apply Walked_opt|intros V1 V2; apply Hcollect]. Qed.

Lemma Walked_one_block V b V' : collect_block_exprs pkg collect V b = Some V' → Walked V ([b] ≫= block_exprs) V'.
Proof. cbn. rewrite app_nil_r. apply Walked_block. Qed.

Lemma Walked_arms V arms V' : foldM (collect_arm collect) V arms = Some V' → Walked V (arms ≫= arm_exprs) V'.
Proof. apply Walked_foldM. intros V1 a V2 _. apply Walked_arm. Qed.

(** The next step of a walk that stands at [V]. *)
Ltac walk :=
  match goal with
  | H : collect ?V _ = Some _ |- Walked ?V _ _ => exact (Hcollect _ _ _ H)
  | H : foldM collect ?V _ = Some _ |- Walked ?V _ _ => exact (Walked_exprs _ _ _ H)
  | H : foldM (collect_arm collect) ?V _ = Some _ |- Walked ?V _ _ => exact (Walked_arms _ _ _ H)
  | H : collect_opt collect ?V _ = Some _ |- Walked ?V _ _ => exact (Walked_opt _ _ _ H)
  | H : collect_block_exprs _ collect ?V _ = Some _ |- Walked ?V _ _ => exact (Walked_block _ _ _ H)
  | H : Some ?V = Some _ |- Walked ?V _ _ => injection H as <-; exact (Walked_nil _)
  end.

Lemma Walked_shape V y V' : collect_shape pkg collect V y = Some V' → Walked V (nexts y) V'.
Proof.
  intros H. unfold nexts.
  destruct y as [| | | | | | | | | | | | |[x|]| | | | | | | | | | | | | | | | | | | | | | | | | | | | |];
    cbn [collect_shape] in H; cbn [sub_exprs sub_blocks];
    repeat match type of H with ?m ≫= _ = Some _ => let E := fresh "E" in destruct m eqn:E; [|discriminate H]; cbn [mbind option_bind] in H end;
    (eapply Walked_perm; cycle 1;
     [first [walk | eapply Walked_app; [walk|first [walk | eapply Walked_app; [walk|walk]]]]
     |intros z; cbn [mbind list_bind]; rewrite ?app_nil_r; cbn [app];
      rewrite ?elem_of_cons, ?elem_of_app, ?elem_of_cons, ?elem_of_nil; tauto]).
Qed.
End shape.

Lemma Walked_expr n V e V' : collect_expr pkg n V e = Some V' → Walked V [e] V'.
Proof.
  revert V e V'. induction n as [|n IH]; intros V e V'; cbn [collect_expr]; case_bool_decide as He; try done.
  1,2: intros [= <-]; split; [done|by intros x ->%list_elem_of_singleton|done|done].
  destruct (exprs pkg !! e) as [y|] eqn:Ey; [|done]. cbn [mbind option_bind]. intros H.
  apply (Walked_shape _ IH) in H as [S R C B]. split.
  - set_solver.
  - intros x ->%list_elem_of_singleton. set_solver.
  - intros x z Hx Hn Hz. destruct (decide (x = e)) as [->|Hxe]; [|apply (C x); set_solver].
    destruct Hz as (y' & Ey' & Hz). simplify_eq. by apply R.
  - intros x Hx Hn. exists e. split; [left|]. destruct (decide (x = e)) as [->|Hxe]; [apply rtc_refl|].
    destruct (B x Hx) as (r & Hr & Hrx); [set_solver|]. eapply rtc_l; [|done]. by exists y.
Qed.

(** The walk of a body visits exactly the expressions in it. *)
Lemma visited_spec body V : visited pkg body = Some V → ∀ e, e ∈ V ↔ InBody body e.
Proof.
  intros H. apply (Walked_block _ (Walked_expr _)) in H as [_ R C B]. intros e. split.
  - intros He. apply B; [done|set_solver].
  - intros (r & Hr & Hre). apply R in Hr. induction Hre as [|x y z Hxy _ IH]; [done|]. apply IH, (C x); set_solver.
Qed.

(** ** Totality *)

(** The nodes below the nodes are in the arenas; there may be cycles. *)
Record arenas_ok : Prop := {
  ao_exprs : ∀ e y, exprs pkg !! e = Some y → ∀ z, z ∈ sub_exprs y → is_Some (exprs pkg !! z);
  ao_sub_blocks : ∀ e y, exprs pkg !! e = Some y → ∀ b, b ∈ sub_blocks y → is_Some (blocks pkg !! b);
  ao_blocks : ∀ b blk, blocks pkg !! b = Some blk → ∀ z, z ∈ block_list blk → is_Some (exprs pkg !! z)
}.

(** All the nodes of the arena. *)
Definition all_exprs : gset ExprId := list_to_set (seq 0 (length (exprs pkg))).

Lemma elem_of_all e : e ∈ all_exprs ↔ is_Some (exprs pkg !! e).
Proof. unfold all_exprs. rewrite elem_of_list_to_set, elem_of_seq, lookup_lt_is_Some. lia. Qed.

Lemma size_all : size all_exprs = length (exprs pkg).
Proof. unfold all_exprs. rewrite size_list_to_set by apply NoDup_seq. apply length_seq. Qed.

(** From [V] with fuel [n] there is enough for every node not yet entered. *)
Definition enough (n : nat) (V : gset ExprId) : Prop := V ⊆ all_exprs ∧ (length (exprs pkg) ≤ n + size V)%nat.

Lemma enough_mono n V V' : enough n V → V ⊆ V' → V' ⊆ all_exprs → enough n V'.
Proof. intros [_ H] Hs Ha. split; [done|]. apply subseteq_size in Hs. lia. Qed.

Section total.
Hypothesis Hok : arenas_ok.
Variable n : nat.
Variable collect : gset ExprId → ExprId → option (gset ExprId).

(** A walk that returns and stays in the arena. *)
Definition returns (m : gset ExprId → option (gset ExprId)) : Prop :=
  ∀ V, enough n V → ∃ V', m V = Some V' ∧ enough n V'.

Hypothesis Hcollect : ∀ e, is_Some (exprs pkg !! e) → returns (λ V, collect V e).

Lemma returns_bind m k : returns m → returns k → returns (λ V, m V ≫= k).
Proof. intros Hm Hk V HV. destruct (Hm V HV) as (V1 & -> & H1). apply (Hk V1 H1). Qed.

Lemma returns_fold {A} (f : gset ExprId → A → option (gset ExprId)) xs :
  (∀ x, x ∈ xs → returns (λ V, f V x)) → returns (λ V, foldM f V xs).
Proof. intros H V HV. apply (foldM_total (enough n)); [done|]. intros x V1 Hx H1. by apply (H x Hx). Qed.

Lemma returns_exprs xs : (∀ x, x ∈ xs → is_Some (exprs pkg !! x)) → returns (λ V, foldM collect V xs).
Proof. intros H. apply returns_fold. intros x Hx. by apply Hcollect, H. Qed.

Lemma returns_opt o : (∀ x, x ∈ option_list o → is_Some (exprs pkg !! x)) → returns (λ V, collect_opt collect V o).
Proof. intros H. destruct o as [x|]; [apply Hcollect, H; left|]. intros V HV. by exists V. Qed.

Lemma returns_block b : is_Some (blocks pkg !! b) → returns (λ V, collect_block_exprs pkg collect V b).
Proof.
  intros [blk Eb]. unfold collect_block_exprs. rewrite Eb. cbn [mbind option_bind].
  pose proof (ao_blocks Hok b blk Eb) as H. unfold block_list in H. setoid_rewrite elem_of_app in H.
  apply returns_bind; [|apply returns_opt; auto]. apply returns_fold. intros st Hst.
  assert (∀ z, z ∈ stmt_expr st → is_Some (exprs pkg !! z)) as Hz by (intros z Hz; apply H; left; apply list_elem_of_bind; eauto).
  destruct st; [by apply returns_opt|]. apply Hcollect, Hz. left.
Qed.

Lemma returns_shape y :
  (∀ z, z ∈ sub_exprs y → is_Some (exprs pkg !! z)) → (∀ b, b ∈ sub_blocks y → is_Some (blocks pkg !! b)) →
  returns (λ V, collect_shape pkg collect V y).
Proof.
  assert (returns Some) as Hret by (intros V HV; by exists V).
  destruct y as [| | | | | | | | | | | | |[w|]| | | | | | | | | | | | | | | | | | | | | | | | | | | | |];
    cbn [sub_exprs sub_blocks collect_shape]; intros He Hb; try exact Hret;
    repeat apply returns_bind;
    first [ apply Hcollect, He; by left
          | apply Hcollect, He; right; by left
          | apply returns_block, Hb; by left
          | apply returns_exprs; intros z Hz; apply He; first [done | by right]
          | apply returns_opt; intros z Hz; apply He; by right
          | idtac ].
  apply returns_fold. intros a Ha. assert (∀ z, z ∈ arm_exprs a → is_Some (exprs pkg !! z)) as Hz
    by (intros z Hz; apply He; right; apply list_elem_of_bind; eauto).
  apply returns_bind; [apply returns_opt|apply Hcollect]; intros; apply Hz, elem_of_app; [by left|right; left].
Qed.
End total.

Lemma collect_returns n e : arenas_ok → is_Some (exprs pkg !! e) → returns n (λ V, collect_expr pkg n V e).
Proof.
  intros Hok. revert e. induction n as [|n IH]; intros e He V HV; cbn [collect_expr]; case_bool_decide as Hin; try by exists V.
  - destruct HV as [Hs Hl]. assert ({[e]} ∪ V ⊆ all_exprs) as H%subseteq_size.
    { intros x [->%elem_of_singleton|Hx]%elem_of_union; [by apply elem_of_all|by apply Hs]. }
    rewrite size_union, size_singleton, size_all in H by set_solver. lia.
  - destruct He as [y Ey]. rewrite Ey. cbn [mbind option_bind].
    destruct (returns_shape Hok n (collect_expr pkg n) IH y (ao_exprs Hok e y Ey) (ao_sub_blocks Hok e y Ey) ({[e]} ∪ V)) as (V' & E & HV').
    + destruct HV as [Hs Hl]. split; [|rewrite size_union by set_solver; rewrite size_singleton; lia].
      intros x [->%elem_of_singleton|Hx]%elem_of_union; [apply elem_of_all; eauto|by apply Hs].
    + exists V'. split; [done|]. eapply enough_mono; [exact HV| |apply HV'].
      apply (Walked_shape _ (Walked_expr _)) in E as [S _ _ _]. set_solver.
Qed.

Lemma visited_returns body : arenas_ok → is_Some (blocks pkg !! body) → is_Some (visited pkg body).
Proof.
  intros Hok Hb. destruct (returns_block Hok (length (exprs pkg)) (collect_expr pkg (length (exprs pkg)))
    (λ e He, collect_returns _ e Hok He) body Hb ∅) as (V & E & _); [|by exists V].
  split; [set_solver|]. rewrite size_empty. lia.
Qed.
End body.

(** ** What the sweeps report: lemmas

    The reports of each sweep against the relation it decides: [ScopeBreak]
    for MT4062, [FirstUse] for MT4060, MT4064 and MT4065, [Repeated] for
    MT4063, two families of one name for MT4061. *)

Lemma elem_of_concat {A} (x : A) xss : x ∈ concat xss ↔ ∃ xs, x ∈ xs ∧ xs ∈ xss.
Proof. rewrite list_elem_of_In, in_concat. setoid_rewrite <-list_elem_of_In. naive_solver. Qed.

Section sweeps.
Variable values : gmap FnId (list (string * TyId)) → list (list (string * TyId)).
Variable iterate : gset ExprId → list ExprId.
Hypothesis values_perm : ∀ m, values m ≡ₚ (map_to_list m).*2.
Hypothesis iterate_perm : ∀ V, iterate V ≡ₚ elements V.
Variable typed : TypedPackage.
Variable pkg : Package.

(** ** Capability parameters *)

Definition is_cap (ty : TyId) (family : CapFamily) : Prop := ∃ c, get (ty_arena typed) ty = Some (TCap family c).

(** Some function has a parameter [name] of that family. *)
Definition CapParam (name : string) (family : CapFamily) : Prop :=
  ∃ fid params ty, fn_param_tys typed !! fid = Some params ∧ (name, ty) ∈ params ∧ is_cap ty family.

Lemma elem_of_values params : params ∈ values (fn_param_tys typed) ↔ ∃ fid, fn_param_tys typed !! fid = Some params.
Proof.
  rewrite values_perm, list_elem_of_fmap. setoid_rewrite surjective_pairing. split.
  - intros ([fid ps] & -> & H%elem_of_map_to_list). by exists fid.
  - intros [fid H]. exists (fid, params). by rewrite elem_of_map_to_list.
Qed.

Lemma cap_family_spec ty c family : cap_family typed ty = Some c → c = Some family ↔ is_cap ty family.
Proof.
  unfold cap_family, is_cap. destruct (get (ty_arena typed) ty) as [d|]; [|done]. intros [= <-].
  destruct d; (split; [try done; intros [= <-]; by eexists|intros [? [=]]; congruence]).
Qed.

(** All the parameters, in the order of the sweeps. *)
Definition params_of : list (string * TyId) := concat (values (fn_param_tys typed)).

Lemma elem_of_params name family : (∃ ty, (name, ty) ∈ params_of ∧ is_cap ty family) ↔ CapParam name family.
Proof.
  unfold params_of, CapParam. split.
  - intros (ty & (ps & Hp & (fid & ?)%elem_of_values)%elem_of_concat & Hc). by exists fid, ps, ty.
  - intros (fid & ps & ty & Hf & Hp & Hc). exists ty. split; [|done]. apply elem_of_concat. exists ps.
    split; [done|]. apply elem_of_values. by exists fid.
Qed.

(** A choice of a family for every capability name. *)
Definition Choice (m : gmap string CapFamily) : Prop :=
  (∀ name family, m !! name = Some family → CapParam name family) ∧
  (∀ name family, CapParam name family → is_Some (m !! name)).

(** A map that chooses for the parameters [ps]. *)
Definition Chosen (ps : list (string * TyId)) (m : gmap string CapFamily) : Prop :=
  (∀ name family, m !! name = Some family → ∃ ty, (name, ty) ∈ ps ∧ is_cap ty family) ∧
  (∀ name ty family, (name, ty) ∈ ps → is_cap ty family → is_Some (m !! name)).

Lemma Chosen_all m : Chosen params_of m → Choice m.
Proof.
  intros [H1 H2]. split.
  - intros name family E. apply elem_of_params. by apply H1.
  - intros name family (ty & ? & ?)%elem_of_params. by eapply H2.
Qed.

Lemma Chosen_nil : Chosen [] ∅.
Proof. split; [by intros ? ? ?%lookup_empty_Some|by intros ? ? ? ?%elem_of_nil]. Qed.

Lemma is_cap_inj ty f g : is_cap ty f → is_cap ty g → f = g.
Proof. intros [c E] [c' E']. congruence. Qed.

Lemma Chosen_snoc ps m name ty c :
  Chosen ps m → cap_family typed ty = Some c →
  Chosen (ps ++ [(name, ty)]) (match c with Some family => or_insert name family m | None => m end).
Proof.
  intros [H1 H2] E. assert (∀ x : string * TyId, x ∈ ps ++ [(name, ty)] ↔ x ∈ ps ∨ x = (name, ty)) as Hin
    by (intros x; by rewrite elem_of_app, list_elem_of_singleton).
  split.
  - intros nm f Hm. setoid_rewrite Hin. destruct c as [family|]; [|destruct (H1 nm f Hm) as (t & ? & ?); eauto].
    unfold or_insert in Hm. destruct (m !! name) as [g|] eqn:Em; [destruct (H1 nm f Hm) as (t & ? & ?); eauto|].
    apply lookup_insert_Some in Hm as [[<- <-]|[_ Hm]]; [|destruct (H1 nm f Hm) as (t & ? & ?); eauto].
    exists ty. split; [by right|]. by apply (cap_family_spec ty _ family E).
  - intros nm t f [Hp|[= -> ->]]%Hin Hc.
    + destruct (H2 nm t f Hp Hc) as [g Eg]. destruct c as [family|]; [|by exists g]. unfold or_insert.
      destruct (m !! name) as [h|] eqn:Em; [by exists g|]. exists g. rewrite lookup_insert_ne; congruence.
    + apply (cap_family_spec ty c f E) in Hc as ->. unfold or_insert. destruct (m !! name) as [h|] eqn:Em; [by exists h|].
      exists f. apply lookup_insert_eq.
Qed.

Lemma all_cap_names_spec m : all_cap_names values typed = Some m → Choice m.
Proof.
  unfold all_cap_names. rewrite foldM_concat. intros H. apply Chosen_all. revert H.
  apply (foldM_ind Chosen); [apply Chosen_nil|]. intros pre [name ty] m1 m2 H _. unfold add_cap_name. cbn [fst snd].
  destruct (cap_family typed ty) as [c|] eqn:E; [|done]. intros [= <-]. by apply Chosen_snoc.
Qed.

(** ** Scope violations *)

(** The function [fid], of the top level, calls a method on a capability of
    another function. *)
Definition ScopeBreak (fid : FnId) (name : string) : Prop :=
  ∃ i params f body e callee args method,
    i ∈ top_level pkg ∧ items pkg !! i = Some (ItFn fid) ∧ fn_param_tys typed !! fid = Some params ∧
    fns pkg !! fid = Some f ∧ fn_body f = Some body ∧ InBody pkg body e ∧
    exprs pkg !! e = Some (ECall callee args) ∧ exprs pkg !! callee = Some (EPath [name; method]) ∧
    (∃ family, CapParam name family) ∧ looks_like_cap name = None ∧
    ∀ ty family, (name, ty) ∈ params → ¬ is_cap ty family.

Definition violation (p : FnId * string) : Diagnostic := cap_scope_violation p.2 1 no_span.

(** From [s], a report for each new pair of which [Q] holds. *)
Definition Adds (Q : FnId * string → Prop) (s s' : Seen) : Prop :=
  ∃ P, s'.2 = s.2 ++ (violation <$> P) ∧ NoDup P ∧ (∀ p, p ∈ P → p ∉ s.1) ∧ s'.1 = s.1 ∪ list_to_set P ∧
    ∀ p, p ∈ s'.1 ↔ p ∈ s.1 ∨ Q p.

Lemma Adds_refl (Q : FnId * string → Prop) s : (∀ p, Q p → p ∈ s.1) → Adds Q s s.
Proof.
  intros H. exists []. cbn. rewrite app_nil_r. split_and!; [done|apply NoDup_nil_2|by intros ? ?%elem_of_nil|set_solver|].
  intros p. split; [by left|]. intros [?|?]; [done|by apply H].
Qed.

Lemma Adds_one Q s p d :
  (∀ q, Q q ↔ q = p) → p ∉ s.1 → d = violation p → Adds Q s ({[p]} ∪ s.1, s.2 ++ [d]).
Proof.
  intros H Hp ->. exists [p]. cbn. split_and!; [done|apply NoDup_singleton|by intros q ->%list_elem_of_singleton|set_solver|].
  intros q. rewrite elem_of_union, elem_of_singleton, H. tauto.
Qed.

Lemma Adds_trans Q1 Q2 s s1 s2 : Adds Q1 s s1 → Adds Q2 s1 s2 → Adds (λ p, Q1 p ∨ Q2 p) s s2.
Proof.
  intros (P1 & E1 & D1 & F1 & S1 & M1) (P2 & E2 & D2 & F2 & S2 & M2). exists (P1 ++ P2). split_and!.
  - by rewrite E2, E1, fmap_app, app_assoc.
  - apply NoDup_app. split_and!; [done| |done]. intros p H1 H2. apply (F2 p H2). rewrite S1. apply elem_of_union_r, elem_of_list_to_set, H1.
  - intros p [H|H]%elem_of_app; [by apply F1|]. apply F2 in H. set_solver.
  - rewrite S2, S1, list_to_set_app_L. set_solver.
  - intros p. rewrite M2, M1. tauto.
Qed.

Lemma Adds_ext Q Q' s s' : (∀ p, Q p ↔ Q' p) → Adds Q s s' → Adds Q' s s'.
Proof.
  intros H (P & E & D & F & S & M). exists P. split_and!; [done..|]. intros p. by rewrite M, H.
Qed.

Lemma Adds_fold {A} (Q : A → FnId * string → Prop) (f : Seen → A → option Seen) s xs s' :
  (∀ x s1 s2, x ∈ xs → f s1 x = Some s2 → Adds (Q x) s1 s2) → foldM f s xs = Some s' →
  Adds (λ p, ∃ x, x ∈ xs ∧ Q x p) s s'.
Proof.
  intros H. apply (foldM_ind (λ pre s1, Adds (λ p, ∃ x, x ∈ pre ∧ Q x p) s s1)).
  - apply Adds_refl. by intros p (x & ?%elem_of_nil & _).
  - intros pre x s1 s2 H1 Hx Hf. eapply Adds_ext; [|eapply Adds_trans; [exact H1|by apply (H x)]].
    intros p. setoid_rewrite elem_of_app. setoid_rewrite list_elem_of_singleton. naive_solver.
Qed.

Lemma own_caps_spec params own :
  own_caps typed params = Some own → ∀ name, name ∈ own ↔ ∃ ty family, (name, ty) ∈ params ∧ is_cap ty family.
Proof.
  apply (foldM_ind (λ ps own, ∀ name, name ∈ own ↔ ∃ ty family, (name, ty) ∈ ps ∧ is_cap ty family)).
  { intros name. split; [by intros ?%elem_of_empty|by intros (? & ? & ?%elem_of_nil & _)]. }
  intros pre [nm t] own1 own2 H _. unfold add_own. cbn [fst snd].
  destruct (cap_family typed t) as [c|] eqn:E; [|done]. intros [= <-] name.
  setoid_rewrite elem_of_app. setoid_rewrite list_elem_of_singleton. split.
  - intros Hn. assert (name ∈ own1 ∨ name = nm ∧ ∃ f, c = Some f) as [(ty & f & ? & ?)%H|[-> [f ->]]] by (destruct c; set_solver).
    + exists ty, f. auto.
    + exists t, f. split; [by right|]. by apply (cap_family_spec t _ f E).
  - intros (ty & f & [Hp|[= -> ->]] & Hc).
    + assert (name ∈ own1) by (apply H; eauto). destruct c; set_solver.
    + apply (cap_family_spec t c f E) in Hc as ->. set_solver.
Qed.

Lemma called_on_spec y c name :
  called_on pkg y = Some c →
  c = Some name ↔ ∃ callee args method, y = ECall callee args ∧ exprs pkg !! callee = Some (EPath [name; method]).
Proof.
  intros H. destruct y; cbn in H; try (injection H as <-; split; [done|by intros (? & ? & ? & ? & _)]).
  destruct (exprs pkg !! callee) as [x|] eqn:E; [|done]. injection H as <-. split.
  - intros Hx. destruct x as [|segs| | | | | | | | | | | | | | | | | | | | | | | | | | | | | | | | | | | | | | | | |]; try done. destruct segs as [|nm [|m [|? ?]]]; try done. injection Hx as <-. by exists callee, args, m.
  - intros (callee' & args' & m & [= <- <-] & E'). rewrite E in E'. by injection E' as ->.
Qed.

Lemma scope_expr_spec names own fid s e s' :
  scope_expr pkg names own fid s e = Some s' →
  Adds (λ p, p.1 = fid ∧ is_Some (names !! p.2) ∧ p.2 ∉ own ∧ looks_like_cap p.2 = None ∧
    ∃ callee args method, exprs pkg !! e = Some (ECall callee args) ∧ exprs pkg !! callee = Some (EPath [p.2; method])) s s'.
Proof.
  unfold scope_expr. destruct (exprs pkg !! e) as [y|]; [|done]. cbn [mbind option_bind].
  destruct (called_on pkg y) as [c|] eqn:Ec; [|done]. cbn [mbind option_bind]. intros [= <-].
  assert (∀ name, c = Some name ↔ ∃ callee args method, Some y = Some (ECall callee args) ∧ exprs pkg !! callee = Some (EPath [name; method])) as Hc.
  { intros name. rewrite (called_on_spec y c name Ec). split; intros (callee & args & m & E & ?); exists callee, args, m; (split; [congruence|done]). }
  destruct c as [name|]; [|apply Adds_refl; intros p (_ & _ & _ & _ & ?%Hc); done].
  destruct (bool_decide (is_Some (names !! name)) && bool_decide (name ∉ own) && bool_decide (looks_like_cap name = None)
            && bool_decide ((fid, name) ∉ s.1)) eqn:Eb.
  - apply andb_true_iff in Eb as [Eb H4]. apply andb_true_iff in Eb as [Eb H3]. apply andb_true_iff in Eb as [H1 H2].
    apply bool_decide_eq_true in H1, H2, H3, H4. apply Adds_one; [|done|done]. intros [fid' nm]. cbn. split.
    + intros (-> & _ & _ & _ & [= ->]%Hc). done.
    + intros [= -> ->]. split_and!; [done..|]. by apply Hc.
  - apply Adds_refl. intros [fid' nm]. cbn. intros (-> & H1 & H2 & H3 & [= ->]%Hc).
    rewrite !bool_decide_eq_true_2 in Eb by done. cbn in Eb. apply bool_decide_eq_false in Eb.
    destruct (decide ((fid, nm) ∈ s.1)); [done|]. by destruct Eb.
Qed.

(** What the function [fid] breaks. *)
Definition FnBreak (fid : FnId) (name : string) : Prop :=
  ∃ params f body e callee args method,
    fn_param_tys typed !! fid = Some params ∧ fns pkg !! fid = Some f ∧ fn_body f = Some body ∧ InBody pkg body e ∧
    exprs pkg !! e = Some (ECall callee args) ∧ exprs pkg !! callee = Some (EPath [name; method]) ∧
    (∃ family, CapParam name family) ∧ looks_like_cap name = None ∧
    ∀ ty family, (name, ty) ∈ params → ¬ is_cap ty family.

Lemma scope_fn_spec names s fid s' :
  Choice names → scope_fn iterate typed pkg names s fid = Some s' → Adds (λ p, p.1 = fid ∧ FnBreak fid p.2) s s'.
Proof.
  intros Hn. unfold scope_fn. destruct (fn_param_tys typed !! fid) as [params|] eqn:Ep.
  2: { intros [= <-]. apply Adds_refl. intros p (_ & ps & ? & ? & ? & ? & ? & ? & E & _). congruence. }
  destruct (own_caps typed params) as [own|] eqn:Eo; [|done]. destruct (fns pkg !! fid) as [f|] eqn:Ef; [|done].
  cbn [mbind option_bind]. destruct (fn_body f) as [body|] eqn:Eb.
  2: { intros [= <-]. apply Adds_refl. intros p (_ & ps & f' & b & ? & ? & ? & ? & E & Ef' & Eb' & _). congruence. }
  destruct (visited pkg body) as [V|] eqn:EV; [|done]. cbn [mbind option_bind]. intros H.
  eapply Adds_fold in H; [|intros x s1 s2 _ Hx; by eapply scope_expr_spec]. eapply Adds_ext; [|exact H].
  assert (∀ nm, nm ∉ own ↔ ∀ ty family, (nm, ty) ∈ params → ¬ is_cap ty family) as Hown.
  { intros nm. rewrite (own_caps_spec params own Eo). naive_solver. }
  assert (∀ nm, is_Some (names !! nm) ↔ ∃ family, CapParam nm family) as Hnames.
  { intros nm. split; [intros [g Hg]; exists g; by apply Hn|intros [g Hg]; by eapply Hn]. }
  intros [fid' nm]. cbn. setoid_rewrite iterate_perm. setoid_rewrite elem_of_elements. setoid_rewrite (visited_spec pkg body V EV).
  split.
  - intros (e & He & -> & H1%Hnames & H2 & H3 & callee & args & m & H4 & H5). split; [done|]. rewrite Hown in H2.
    by exists params, f, body, e, callee, args, m.
  - intros (-> & params' & f' & body' & e & callee & args & m & Ep' & Ef' & Eb' & He & H4 & H5 & H1%Hnames & H3 & H2).
    simplify_eq. exists e. rewrite <-Hown in H2. split_and!; [done..|]. by exists callee, args, m.
Qed.

Lemma sweep_scope_violations_spec out out' :
  sweep_scope_violations values iterate typed pkg out = Some out' →
  ∃ P, out' = out ++ (violation <$> P) ∧ NoDup P ∧ ∀ fid name, (fid, name) ∈ P ↔ ScopeBreak fid name.
Proof.
  unfold sweep_scope_violations. destruct (all_cap_names values typed) as [names|] eqn:En; [|done]. cbn [mbind option_bind].
  apply all_cap_names_spec in En. destruct (foldM _ _ _) as [s|] eqn:Es; [|done]. intros [= <-].
  apply (Adds_fold (λ i p, items pkg !! i = Some (ItFn p.1) ∧ FnBreak p.1 p.2)) in Es.
  - destruct Es as (P & E & D & _ & S & M). exists P. split_and!; [done..|]. intros fid name.
    assert ((fid, name) ∈ P ↔ (fid, name) ∈ s.1) as ->.
    { rewrite S. cbn. rewrite (left_id_L ∅ (∪)). by rewrite elem_of_list_to_set. }
    rewrite M. cbn. split.
    + intros [?%elem_of_empty|(i & Hi & E1 & ps & f & body & e & c & args & m & ?)]; [done|].
      exists i, ps, f, body, e, c, args, m. tauto.
    + intros (i & ps & f & body & e & c & args & m & Hi & E1 & ?). right. exists i. split_and!; [done..|].
      by exists ps, f, body, e, c, args, m.
  - intros i s1 s2 _. unfold scope_item. destruct (items pkg !! i) as [it|]; [|done]. cbn [mbind option_bind].
    destruct it; try (intros [= <-]; apply Adds_refl; by intros p [? _]).
    intros H. eapply scope_fn_spec in H; [|done]. eapply Adds_ext; [|exact H]. intros [fid nm]. cbn. naive_solver.
Qed.

(** ** Redeclarations *)

(** The parameter of that name at a position is a capability, as one before it. *)
Definition Repeated (params : list (string * TyId)) (name : string) : Prop :=
  ∃ before ty family after, params = before ++ (name, ty) :: after ∧ is_cap ty family ∧
    ∃ ty' family', (name, ty') ∈ before ∧ is_cap ty' family'.

Lemma Repeated_snoc params nm t name :
  Repeated (params ++ [(nm, t)]) name ↔
  Repeated params name ∨
  (name = nm ∧ (∃ family, is_cap t family) ∧ ∃ ty' family', (name, ty') ∈ params ∧ is_cap ty' family').
Proof.
  unfold Repeated. split.
  - intros (l1 & ty & f & l2 & E & Hc & Hr). destruct l2 as [|x l2 _] using rev_ind.
    + apply app_inj_tail in E as [-> [= -> ->]]. right. eauto.
    + rewrite app_comm_cons, app_assoc in E. apply app_inj_tail in E as [-> _]. left. by exists l1, ty, f, l2.
  - intros [(l1 & ty & f & l2 & -> & Hc & Hr)|(-> & [f Hc] & Hr)].
    + exists l1, ty, f, (l2 ++ [(nm, t)]). by rewrite <-app_assoc.
    + by exists params, t, f, [].
Qed.

Definition redeclaration (name : string) : Diagnostic := cap_redeclaration name 0 no_span.

Lemma redeclaration_fn_spec out params out' :
  redeclaration_fn typed out params = Some out' →
  ∃ N, out' = out ++ (redeclaration <$> N) ∧ ∀ name, name ∈ N ↔ Repeated params name.
Proof.
  unfold redeclaration_fn. destruct (foldM _ _ _) as [s|] eqn:Es; [|done]. intros [= <-].
  assert ((∀ name, name ∈ s.1 ↔ ∃ ty family, (name, ty) ∈ params ∧ is_cap ty family) ∧
    ∃ N, s.2 = out ++ (redeclaration <$> N) ∧ ∀ name, name ∈ N ↔ Repeated params name) as [_ ?]; [|done].
  revert Es. apply (foldM_ind (λ ps (s : gset string * list Diagnostic), (∀ name, name ∈ s.1 ↔ ∃ ty family, (name, ty) ∈ ps ∧ is_cap ty family) ∧
    ∃ N, s.2 = out ++ (redeclaration <$> N) ∧ ∀ name, name ∈ N ↔ Repeated ps name)).
  { split; [intros nm; split; [by intros ?%elem_of_empty|by intros (? & ? & ?%elem_of_nil & _)]|].
    exists []. cbn. rewrite app_nil_r. split; [done|]. intros nm. rewrite elem_of_nil. split; [done|]. by intros ([|? ?] & ? & ? & ? & ? & _). }
  intros pre [nm t] [seen1 o1] s2 [Hs (N & E & HN)] _. cbn in Hs, E. subst o1. unfold redeclaration_param. cbn [fst snd].
  destruct (cap_family typed t) as [c|] eqn:Ec; [|done]. intros [= <-].
  assert (∀ name, (∃ ty f, (name, ty) ∈ pre ++ [(nm, t)] ∧ is_cap ty f) ↔ name ∈ seen1 ∨ name = nm ∧ is_Some c) as Hsn.
  { intros name. rewrite Hs. setoid_rewrite elem_of_app. setoid_rewrite list_elem_of_singleton. split.
    - intros (ty & f & [?|[= -> ->]] & Hc); [left; eauto|right]. apply (cap_family_spec t c f Ec) in Hc as ->. by split; [|eexists].
    - intros [(ty & f & ? & ?)|[-> [f ->]]]; [eauto 6|]. exists t, f. split; [by right|]. by apply (cap_family_spec t _ f Ec). }
  assert ((∃ family, is_cap t family) ↔ is_Some c) as Hcap.
  { split; [intros [f Hf]; apply (cap_family_spec t c f Ec) in Hf; by exists f|intros [f ->]; exists f; by apply (cap_family_spec t _ f Ec)]. }
  destruct c as [f|]; [case_bool_decide as Hin|].
  - split; [intros name; rewrite Hsn; cbn; split; [by left|by intros [?|[-> _]]]|]. exists (N ++ [nm]). cbn.
    split; [by rewrite fmap_app, app_assoc|]. intros name. rewrite elem_of_app, list_elem_of_singleton, HN, Repeated_snoc, <-Hs, Hcap.
    split; [intros [?| ->]; [by left|right; by split_and!]|intros [?|[-> _]]; [by left|by right]].
  - split; [intros name; rewrite Hsn; cbn; rewrite elem_of_union, elem_of_singleton; split; [intros [->|?]; [by right|by left]|intros [?|[-> _]]; [by right|by left]]|].
    exists N. split; [done|]. intros name. rewrite HN, Repeated_snoc, <-Hs. split; [by left|]. intros [?|(-> & _ & ?)]; done.
  - split; [intros name; rewrite Hsn; cbn; split; [by left|intros [?|[_ [? [=]]]]; done]|].
    exists N. split; [done|]. intros name. rewrite HN, Repeated_snoc, Hcap. split; [by left|]. intros [?|(_ & [? [=]] & _)]; done.
Qed.

Lemma sweep_redeclarations_spec out out' :
  sweep_redeclarations values typed out = Some out' →
  ∃ N, out' = out ++ (redeclaration <$> N) ∧
    ∀ name, name ∈ N ↔ ∃ fid params, fn_param_tys typed !! fid = Some params ∧ Repeated params name.
Proof.
  intros H. assert (∃ N, out' = out ++ (redeclaration <$> N) ∧
    ∀ name, name ∈ N ↔ ∃ params, params ∈ values (fn_param_tys typed) ∧ Repeated params name) as (N & E & HN).
  { revert H. apply (foldM_ind (λ pss o, ∃ N, o = out ++ (redeclaration <$> N) ∧ ∀ name, name ∈ N ↔ ∃ params, params ∈ pss ∧ Repeated params name)).
    - exists []. cbn. rewrite app_nil_r. split; [done|]. intros nm. rewrite elem_of_nil. split; [done|]. by intros (? & ?%elem_of_nil & _).
    - intros pre ps o1 o2 (N & -> & HN) _ H. apply redeclaration_fn_spec in H as (N' & -> & HN'). exists (N ++ N').
      split; [by rewrite fmap_app, app_assoc|]. intros name. rewrite elem_of_app, HN, HN'. setoid_rewrite elem_of_app.
      setoid_rewrite list_elem_of_singleton. naive_solver. }
  exists N. split; [done|]. intros name. rewrite HN. setoid_rewrite elem_of_values. naive_solver.
Qed.
End sweeps.

(** ** The sweep of method calls: lemmas

    [Use]: what the sweep has to say of an expression, under a key.  Only the
    first expression with a key is judged ([FirstUse]).  [Mismatched]: a name
    with two families.  [pass_fits]: the indices the sweeps follow are in the
    arenas, so that they return. *)

Section calls.
Variable values : gmap FnId (list (string * TyId)) → list (list (string * TyId)).
Variable str_debug : string → string.
Hypothesis values_perm : ∀ m, values m ≡ₚ (map_to_list m).*2.
Variable typed : TypedPackage.
Variable pkg : Package.

(** ** Families *)

Definition mismatch (m : gmap string CapFamily) (p : string * CapFamily) : Diagnostic :=
  cap_family_mismatch p.1 (default (Custom "") (m !! p.1)) p.2 no_span.

(** Each pair: a name, and a family of it other than the one chosen; one pair
    for every name with two families. *)
Record Mismatched (ps : list (string * TyId)) (m : gmap string CapFamily) (P : list (string * CapFamily)) : Prop := {
  mm_nodup : NoDup P.*1;
  mm_other : ∀ name f, (name, f) ∈ P → m !! name ≠ Some f ∧ ∃ ty, (name, ty) ∈ ps ∧ is_cap typed ty f;
  mm_all : ∀ name ty f, (name, ty) ∈ ps → is_cap typed ty f → m !! name ≠ Some f → name ∈ P.*1
}.

Lemma or_insert_keeps {A} name (a : A) m n b : m !! n = Some b → or_insert name a m !! n = Some b.
Proof.
  intros E. unfold or_insert. destruct (m !! name) eqn:En; [done|]. rewrite lookup_insert_ne; [done|]. congruence.
Qed.

Lemma mismatch_keeps ps m P name a :
  Chosen typed ps m → Mismatched ps m P → mismatch (or_insert name a m) <$> P = mismatch m <$> P.
Proof.
  intros [_ Hc] [_ Ho _]. apply list_fmap_ext. intros i [n f] E%list_elem_of_lookup_2. apply Ho in E as (_ & ty & Hin & Hcap).
  destruct (Hc n ty f Hin Hcap) as [g Eg]. unfold mismatch. cbn. by rewrite (or_insert_keeps name a m n g Eg), Eg.
Qed.

Definition Fam (out : list Diagnostic) (ps : list (string * TyId)) (s : Families) : Prop :=
  Chosen typed ps (cap_param_tys s) ∧
  ∃ P, fam_out s = out ++ (mismatch (cap_param_tys s) <$> P) ∧ family_mismatch_emitted s = list_to_set P.*1 ∧
    Mismatched ps (cap_param_tys s) P.

Lemma add_family_spec out ps s p s' : Fam out ps s → add_family typed s p = Some s' → Fam out (ps ++ [p]) s'.
Proof.
  destruct p as [name ty], s as [m em o]. intros [Hch (P & Eo & Ee & HP)]. cbn in Eo, Ee. subst o em.
  unfold add_family. cbn [fst snd cap_param_tys family_mismatch_emitted fam_out].
  destruct (cap_family typed ty) as [c|] eqn:Ec; [|done]. cbn [mbind option_bind].
  pose proof (Chosen_snoc typed ps m name ty c Hch Ec) as Hch'. pose proof (cap_family_spec typed ty c) as Hcap.
  assert (∀ x : string * TyId, x ∈ ps ++ [(name, ty)] ↔ x ∈ ps ∨ x = (name, ty)) as Hin
    by (intros x; by rewrite elem_of_app, list_elem_of_singleton).
  destruct c as [family|]; intros [= <-].
  2: { split; [exact Hch'|]. exists P. split_and!; [done..|]. destruct HP as [N O A]. split; [done| |].
       - intros n f (? & t & ? & ?)%O. split; [done|]. exists t. by rewrite Hin; auto.
       - intros n t f [?|[= -> ->]]%Hin Hf; [by apply (A n t f)|]. by apply (Hcap f Ec) in Hf. }
  assert (is_cap typed ty family) as Hty by (by apply (Hcap family Ec)).
  pose proof (mismatch_keeps ps m P name family Hch HP) as Hkeep. destruct HP as [N O A].
  assert (∀ n f, (n, f) ∈ P → or_insert name family m !! n ≠ Some f) as Hother.
  { intros n f (Hne & t & Ht & Hc)%O. destruct (proj2 Hch n t f Ht Hc) as [g Eg].
    rewrite (or_insert_keeps name family m n g Eg). congruence. }
  assert (∀ n t f, (n, t) ∈ ps → is_cap typed t f → or_insert name family m !! n ≠ Some f → n ∈ P.*1) as Hall.
  { intros n t f Ht Hf Hne. apply (A n t f Ht Hf). intros E. apply Hne. by apply or_insert_keeps. }
  assert (∀ n f, (n, f) ∈ P → ∃ t, (n, t) ∈ ps ++ [(name, ty)] ∧ is_cap typed t f) as Hps.
  { intros n f (_ & t & Ht & Hf)%O. exists t. by rewrite Hin; auto. }
  destruct (m !! name) as [prev|] eqn:Em; [destruct (bool_decide (prev ≠ family) && bool_decide (name ∉ list_to_set P.*1)) eqn:Eb|];
    (split; [exact Hch'|]); cbn [cap_param_tys family_mismatch_emitted fam_out].
  - apply andb_true_iff in Eb as [H1 H2]. apply bool_decide_eq_true in H1, H2. rewrite elem_of_list_to_set in H2.
    exists (P ++ [(name, family)]). split_and!.
    + rewrite fmap_app, Hkeep, app_assoc. cbn. f_equal. unfold mismatch. cbn.
      by rewrite (or_insert_keeps name family m name prev Em).
    + rewrite fmap_app, list_to_set_app_L. cbn. set_solver.
    + split.
      * rewrite fmap_app. apply NoDup_app. split_and!; [done| |apply NoDup_singleton]. by intros n Hn ->%list_elem_of_singleton.
      * intros n f [HP|[= -> ->]%list_elem_of_singleton]%elem_of_app; [split; [by apply Hother|by apply Hps]|].
        split; [rewrite (or_insert_keeps name family m name prev Em); congruence|]. exists ty. by rewrite Hin; auto.
      * intros n t f [Ht|[= -> ->]]%Hin Hf Hne; rewrite fmap_app, elem_of_app; [left; by apply (Hall n t f)|right; left].
  - exists P. split_and!; [by rewrite Hkeep|done|]. split; [done|split; [by apply Hother|by apply Hps]|].
    intros n t f [Ht|[= -> ->]]%Hin Hf Hne; [by apply (Hall n t f)|]. rewrite (is_cap_inj typed ty f family Hf Hty) in Hne.
    apply andb_false_iff in Eb as [Eb|Eb]; apply bool_decide_eq_false in Eb.
    + destruct Hne. rewrite (or_insert_keeps name family m name prev Em). f_equal. by destruct (decide (prev = family)).
    + rewrite elem_of_list_to_set in Eb. by destruct (decide (name ∈ P.*1)).
  - exists P. split_and!; [by rewrite Hkeep|done|]. split; [done|split; [by apply Hother|by apply Hps]|].
    intros n t f [Ht|[= -> ->]]%Hin Hf Hne; [by apply (Hall n t f)|]. rewrite (is_cap_inj typed ty f family Hf Hty) in Hne.
    destruct Hne. unfold or_insert. rewrite Em. apply lookup_insert_eq.
Qed.

Lemma families_spec out fam :
  foldM (foldM (add_family typed)) (mkFamilies ∅ ∅ out) (values (fn_param_tys typed)) = Some fam →
  Fam out (params_of values typed) fam.
Proof.
  rewrite foldM_concat. apply (foldM_ind (Fam out)); [|intros pre p s1 s2 H _; by apply add_family_spec].
  split; [apply Chosen_nil|]. exists []. split_and!; [by rewrite app_nil_r|done|].
  split; [apply NoDup_nil_2|by intros ? ? ?%elem_of_nil|by intros ? ? ? ?%elem_of_nil].
Qed.

(** ** Calls *)

Section uses.
Variable tys : gmap string CapFamily.

(** [fs.path(..)] and [net.host(..)] whose first argument is not a string
    literal with something in it. *)
Definition BadNarrowing (family : CapFamily) (method : string) (args : list HirArg) : Prop :=
  (family = Fs ∧ method = "path" ∨ family = Net ∧ method = "host") ∧
  ∀ a rest s, args = a :: rest → exprs pkg !! arg_value a = Some (ELiteral (LStr s)) → s = "".

(** What is said of an expression: its key and its report, if any. *)
Inductive Use : HirExpr → string * string → option Diagnostic → Prop :=
  | use_method_unknown r m args ty family avail :
      expr_ty typed !! r = Some ty → is_cap typed ty family → check_method family m = Err (UnknownMethod family m avail) →
      Use (EMethodCall r m args) (family_debug str_debug family, m) (Some (cap_method_unknown family m avail no_span))
  | use_method_known r m args ty family op :
      expr_ty typed !! r = Some ty → is_cap typed ty family → check_method family m = Ok op →
      Use (EMethodCall r m args) (family_debug str_debug family, m) None
  | use_path_unknown c args name m family avail :
      exprs pkg !! c = Some (EPath [name; m]) → tys !! name = Some family →
      check_method family m = Err (UnknownMethod family m avail) →
      Use (ECall c args) (name, m) (Some (cap_method_unknown family m avail no_span))
  | use_path_bad c args name m family op reason :
      exprs pkg !! c = Some (EPath [name; m]) → tys !! name = Some family → check_method family m = Ok op →
      BadNarrowing family m args →
      reason = match args with [] => "expected at least one string literal argument" | _ => "expected a non-empty string literal" end →
      Use (ECall c args) (name, m) (Some (cap_constraint_invalid family m reason no_span))
  | use_path_good c args name m family op :
      exprs pkg !! c = Some (EPath [name; m]) → tys !! name = Some family → check_method family m = Ok op →
      ¬ BadNarrowing family m args → Use (ECall c args) (name, m) None
  | use_unbound c args name m :
      exprs pkg !! c = Some (EPath [name; m]) → tys !! name = None → looks_like_cap name ≠ None →
      Use (ECall c args) (name, m) (Some (cap_name_unbound name no_span)).

(** The report of the first of the expressions with its key. *)
Definition FirstUse (ys : list HirExpr) (d : Diagnostic) : Prop :=
  ∃ before y after key, ys = before ++ y :: after ∧ Use y key (Some d) ∧ ∀ x o, x ∈ before → ¬ Use x key o.

Lemma check_method_err family m err :
  check_method family m = Err err → err = UnknownMethod family m (family_methods family).
Proof. unfold check_method. case_bool_decide; [done|]. destruct (is_operational_method family m); [done|]. by intros [= <-]. Qed.

Lemma narrowing_args_spec family m args ds :
  check_narrowing_args pkg family m args = Some ds →
  (BadNarrowing family m args ∧
     ds = [cap_constraint_invalid family m (match args with [] => "expected at least one string literal argument" | _ => "expected a non-empty string literal" end) no_span])
  ∨ (¬ BadNarrowing family m args ∧ ds = []).
Proof.
  unfold check_narrowing_args, BadNarrowing. rewrite <-bool_decide_or. case_bool_decide as Hc; [|intros [= <-]; right; tauto].
  destruct args as [|a rest]; [intros [= <-]; left; by split_and!|].
  destruct (exprs pkg !! arg_value a) as [y|] eqn:E; [|done]. cbn [mbind option_bind]. intros [= <-].
  destruct y as [[n s|x s|s|c|b|v u|v u]| | | | | | | | | | | | | | | | | | | | | | | | | | | | | | | | | | | | | | | | | |];
    try (left; split; [split; [done|intros a' r' s' [= <- <-] E'; congruence]|done]).
  destruct (String.eqb_spec s ""%string) as [->|Hs]; cbn [negb].
  - left. split; [|done]. split; [done|]. intros a' r' s' [= <- <-] E'. congruence.
  - right. split; [|done]. intros [_ K]. apply Hs. by apply (K a rest s).
Qed.

Lemma Use_fun y k1 o1 k2 o2 : Use y k1 o1 → Use y k2 o2 → k1 = k2 ∧ o1 = o2.
Proof.
  intros H1 H2.
  destruct H1; inversion H2; simplify_eq; try done;
    repeat match goal with H : is_cap typed ?t ?f, K : is_cap typed ?t ?g |- _ => pose proof (is_cap_inj typed t f g H K); clear K end;
    simplify_eq; try done; split; congruence.
Qed.

(** One step: nothing new, or the use of a new key. *)
Lemma call_expr_spec s y s' :
  call_expr str_debug typed pkg tys s y = Some s' →
  (s' = s ∧ ∀ key o, Use y key o → key ∈ s.1) ∨
  (∃ key o, Use y key o ∧ key ∉ s.1 ∧ s' = ({[key]} ∪ s.1, s.2 ++ option_list o)).
Proof.
  assert (∀ key ds o s', once key s ds = Some s' → Use y key o → (∀ l, ds = Some l → l = option_list o) →
    (s' = s ∧ ∀ key o, Use y key o → key ∈ s.1) ∨ (∃ key o, Use y key o ∧ key ∉ s.1 ∧ s' = ({[key]} ∪ s.1, s.2 ++ option_list o))) as Honce.
  { intros key ds o s1 H Hu Hl. unfold once in H. case_bool_decide as Hk.
    - injection H as <-. left. split; [done|]. intros key' o' Hu'. by destruct (Use_fun y _ _ _ _ Hu Hu') as [-> _].
    - right. exists key, o. split_and!; [done..|]. destruct ds as [l|]; [|done]. injection H as <-. by rewrite (Hl l eq_refl). }
  assert ((∀ key o, ¬ Use y key o) → Some s = Some s' → (s' = s ∧ ∀ key o, Use y key o → key ∈ s.1) ∨
    (∃ key o, Use y key o ∧ key ∉ s.1 ∧ s' = ({[key]} ∪ s.1, s.2 ++ option_list o))) as Hnone.
  { intros H [= <-]. left. split; [done|]. intros key o Hu. by destruct (H key o). }
  destruct y as [| |callee args|r m args| | | | | | | | | | | | | | | | | | | | | | | | | | | | | | | | | | | | | | | ]; cbn [call_expr];
    try (apply Hnone; intros key o Hu; by inversion Hu).
  - destruct (exprs pkg !! callee) as [c|] eqn:E; [|done]. cbn [mbind option_bind].
    assert ((∀ name m, c ≠ EPath [name; m]) → Some s = Some s' → (s' = s ∧ ∀ key o, Use (ECall callee args) key o → key ∈ s.1) ∨
      (∃ key o, Use (ECall callee args) key o ∧ key ∉ s.1 ∧ s' = ({[key]} ∪ s.1, s.2 ++ option_list o))) as Hpath.
    { intros Hc. apply Hnone. intros key o Hu. inversion Hu; simplify_eq; by eapply Hc. }
    destruct c as [|segs| | | | | | | | | | | | | | | | | | | | | | | | | | | | | | | | | | | | | | | | |]; try (apply Hpath; by intros).
    destruct segs as [|name [|m [|? ?]]]; try (apply Hpath; by intros). unfold path_call.
    destruct (tys !! name) as [family|] eqn:Et.
    + destruct (check_method family m) as [op|err] eqn:Em.
      * destruct (check_narrowing_args pkg family m args) as [l|] eqn:El.
        -- intros H. destruct (narrowing_args_spec family m args l El) as [[Hb ->]|[Hb ->]].
           ++ eapply Honce; [exact H|by eapply use_path_bad|by intros l' [= <-]].
           ++ eapply Honce; [exact H|by eapply use_path_good|by intros l' [= <-]].
        -- unfold once. case_bool_decide as Hk; [|done]. intros [= <-]. left. split; [done|].
           intros key o Hu. inversion Hu; simplify_eq; exact Hk.
      * intros H. pose proof (check_method_err family m err Em) as ->. eapply Honce; [exact H|by eapply use_path_unknown|by intros l' [= <-]].
    + case_bool_decide as Hl.
      * intros H. eapply Honce; [exact H|apply use_unbound; [done|done|by intros E'; rewrite E' in Hl; destruct Hl]|by intros l' [= <-]].
      * apply Hnone. intros key o Hu. inversion Hu; simplify_eq. destruct Hl. by apply not_eq_None_Some.
  - unfold method_call. destruct (expr_ty typed !! r) as [ty|] eqn:Er; [|apply Hnone; intros key o Hu; inversion Hu; congruence].
    destruct (cap_family typed ty) as [c|] eqn:Ec; [|done]. cbn [mbind option_bind].
    destruct c as [family|]; [|apply Hnone; intros key o Hu; inversion Hu; simplify_eq;
      by match goal with K : is_cap _ _ ?f |- _ => apply (cap_family_spec typed ty None f Ec) in K end].
    assert (is_cap typed ty family) as Hc by (by apply (cap_family_spec typed ty _ family Ec)).
    intros H. unfold method_report in H. destruct (check_method family m) as [op|err] eqn:Em.
    + eapply Honce; [exact H|by eapply use_method_known|by intros l [= <-]].
    + pose proof (check_method_err family m err Em) as ->. eapply Honce; [exact H|by eapply use_method_unknown|by intros l [= <-]].
Qed.

Lemma FirstUse_snoc ys y d :
  FirstUse (ys ++ [y]) d ↔ FirstUse ys d ∨ ∃ key, Use y key (Some d) ∧ ∀ x o, x ∈ ys → ¬ Use x key o.
Proof.
  split.
  - intros (l1 & x & l2 & key & E & Hu & Hf). destruct l2 as [|z l2 _] using rev_ind.
    + apply app_inj_tail in E as [-> ->]. right. eauto.
    + rewrite app_comm_cons, app_assoc in E. apply app_inj_tail in E as [-> _]. left. by exists l1, x, l2, key.
  - intros [(l1 & x & l2 & key & -> & Hu & Hf)|(key & Hu & Hf)].
    + exists l1, x, (l2 ++ [y]), key. by rewrite <-app_assoc.
    + by exists ys, y, [], key.
Qed.

Lemma calls_spec out ys s :
  foldM (call_expr str_debug typed pkg tys) (∅, out) ys = Some s → ∃ D, s.2 = out ++ D ∧ ∀ d, d ∈ D ↔ FirstUse ys d.
Proof.
  intros H. assert ((∀ key, key ∈ s.1 ↔ ∃ y o, y ∈ ys ∧ Use y key o) ∧ ∃ D, s.2 = out ++ D ∧ ∀ d, d ∈ D ↔ FirstUse ys d) as [_ ?]; [|done].
  revert H. apply (foldM_ind (λ ys (s : CallSeen), (∀ key, key ∈ s.1 ↔ ∃ y o, y ∈ ys ∧ Use y key o) ∧
    ∃ D, s.2 = out ++ D ∧ ∀ d, d ∈ D ↔ FirstUse ys d)).
  { split; [intros key; split; [by intros ?%elem_of_empty|by intros (? & ? & ?%elem_of_nil & _)]|].
    exists []. rewrite app_nil_r. split; [done|]. intros d. rewrite elem_of_nil. split; [done|]. by intros ([|? ?] & ? & ? & ? & ? & _). }
  intros pre y s1 s2 [Hk (D & E & HD)] _ H.
  assert (∀ key, (∃ x o, x ∈ pre ++ [y] ∧ Use x key o) ↔ key ∈ s1.1 ∨ ∃ o, Use y key o) as Hsn.
  { intros key. rewrite Hk. setoid_rewrite elem_of_app. setoid_rewrite list_elem_of_singleton. naive_solver. }
  destruct (call_expr_spec s1 y s2 H) as [[-> Hu]|(key & o & Hu & Hn & ->)].
  - split; [intros key; rewrite Hsn; split; [by left|intros [?|[o ?]]; [done|by eapply Hu]]|]. exists D. split; [done|].
    intros d. rewrite HD, FirstUse_snoc. split; [by left|]. intros [?|(key & Hd & Hf)]; [done|].
    destruct (proj1 (Hk key) (Hu _ _ Hd)) as (x & o & Hx & Hxu). by destruct (Hf x o Hx).
  - split; [intros key'; rewrite Hsn; cbn; rewrite elem_of_union, elem_of_singleton; split|].
    { intros [->|?]; [right; by exists o|by left]. }
    { intros [?|[o' Hu']]; [by right|left]. by destruct (Use_fun y _ _ _ _ Hu Hu'). }
    exists (D ++ option_list o). cbn. split; [by rewrite E, app_assoc|]. intros d. rewrite elem_of_app, HD, FirstUse_snoc.
    f_equiv. split.
    + intros Ho. destruct o as [d'|]; cbn in Ho; [|by apply elem_of_nil in Ho]. apply list_elem_of_singleton in Ho as ->.
      exists key. split; [done|]. intros x o Hx Hxu. apply Hn, Hk. by exists x, o.
    + intros (key' & Hu' & _). destruct (Use_fun y _ _ _ _ Hu Hu') as [_ ->]. left.
Qed.
End uses.

Lemma sweep_method_calls_spec out out' :
  sweep_method_calls values str_debug typed pkg out = Some out' →
  ∃ tys P D, Choice typed tys ∧ Mismatched (params_of values typed) tys P ∧
    out' = (out ++ (mismatch tys <$> P)) ++ D ∧ ∀ d, d ∈ D ↔ FirstUse tys (exprs pkg) d.
Proof.
  unfold sweep_method_calls. destruct (foldM (foldM _) _ _) as [fam|] eqn:Ef; [|done]. cbn [mbind option_bind].
  apply families_spec in Ef as [Hch (P & Eo & _ & HP)]. destruct (foldM _ _ _) as [s|] eqn:Es; [|done]. intros [= <-].
  apply calls_spec in Es as (D & E & HD). rewrite Eo in E. exists (cap_param_tys fam), P, D.
  split_and!; [by eapply Chosen_all|done..].
Qed.

(** ** Totality *)

Record pass_fits : Prop := {
  pf_arenas : arenas_ok pkg;
  pf_params : ∀ fid ps p, fn_param_tys typed !! fid = Some ps → p ∈ ps → is_Some (get (ty_arena typed) p.2);
  pf_types : ∀ e ty, expr_ty typed !! e = Some ty → is_Some (get (ty_arena typed) ty);
  pf_items : ∀ i, i ∈ top_level pkg → is_Some (items pkg !! i);
  pf_fns : ∀ i fid, i ∈ top_level pkg → items pkg !! i = Some (ItFn fid) → is_Some (fns pkg !! fid);
  pf_bodies : ∀ fid f b, fns pkg !! fid = Some f → fn_body f = Some b → is_Some (blocks pkg !! b)
}.

Section total.
Hypothesis Hfit : pass_fits.
Variable iterate : gset ExprId → list ExprId.
Hypothesis iterate_perm : ∀ V, iterate V ≡ₚ elements V.

Lemma each_total {S A} (f : S → A → option S) s xs : (∀ x s1, x ∈ xs → is_Some (f s1 x)) → is_Some (foldM f s xs).
Proof.
  intros H. destruct (foldM_total (λ _, True) f s xs) as (s' & E & _); [done| |by exists s'].
  intros x s1 Hx _. destruct (H x s1 Hx) as [s2 E]. by exists s2.
Qed.

Lemma cap_family_total ty : is_Some (get (ty_arena typed) ty) → is_Some (cap_family typed ty).
Proof. intros [d E]. unfold cap_family. rewrite E. by eexists. Qed.

(** A loop over the parameters returns when its steps do on known types. *)
Lemma params_total {S} (f : S → string * TyId → option S) s ps fid :
  (∀ s1 p, is_Some (cap_family typed p.2) → is_Some (f s1 p)) → fn_param_tys typed !! fid = Some ps → is_Some (foldM f s ps).
Proof. intros H E. apply each_total. intros p s1 Hp. apply H, cap_family_total. by eapply (pf_params Hfit). Qed.

Lemma all_params_total {S} (f : S → string * TyId → option S) s :
  (∀ s1 p, is_Some (cap_family typed p.2) → is_Some (f s1 p)) → is_Some (foldM (foldM f) s (values (fn_param_tys typed))).
Proof.
  intros H. apply each_total. intros ps s1 Hps. apply (elem_of_values values values_perm typed) in Hps as [fid E].
  by eapply params_total.
Qed.

Lemma some_bind {A B} (o : option A) (k : A → option B) : is_Some o → (∀ a, o = Some a → is_Some (k a)) → is_Some (o ≫= k).
Proof. intros [a E] H. rewrite E. by apply H. Qed.

Lemma in_body_in_arena body e : is_Some (blocks pkg !! body) → InBody pkg body e → is_Some (exprs pkg !! e).
Proof.
  intros [blk Eb] (r & Hr & Hre). unfold block_exprs in Hr. rewrite Eb in Hr.
  pose proof (ao_blocks _ (pf_arenas Hfit) body blk Eb r Hr) as He. clear Hr. induction Hre as [|x y z Hxy _ IH]; [done|].
  apply IH. destruct Hxy as (w & Ew & [Hy|Hy]%elem_of_app); [by eapply (ao_exprs _ (pf_arenas Hfit))|].
  apply list_elem_of_bind in Hy as (b & Hy & Hb). unfold block_exprs in Hy. destruct (blocks pkg !! b) as [blk'|] eqn:E; [|by apply elem_of_nil in Hy].
  by eapply (ao_blocks _ (pf_arenas Hfit)).
Qed.

Lemma called_on_total y e : exprs pkg !! e = Some y → is_Some (called_on pkg y).
Proof.
  intros E. destruct y; cbn; try by eexists. apply some_bind; [|by eexists].
  eapply (ao_exprs _ (pf_arenas Hfit) e _ E). left.
Qed.

Lemma scope_fn_total names s fid : is_Some (fns pkg !! fid) → is_Some (scope_fn iterate typed pkg names s fid).
Proof.
  intros Hf. unfold scope_fn. destruct (fn_param_tys typed !! fid) as [ps|] eqn:Ep; [|by eexists].
  apply some_bind; [eapply params_total; [|done]; intros s1 p Hp; unfold add_own; by apply some_bind|]. intros own _.
  apply some_bind; [done|]. intros f Ef. destruct (fn_body f) as [b|] eqn:Eb; [|by eexists].
  pose proof (pf_bodies Hfit fid f b Ef Eb) as Hb. apply some_bind; [apply visited_returns; [apply Hfit|done]|]. intros V EV.
  apply each_total. intros e s1 He. rewrite iterate_perm, elem_of_elements, (visited_spec pkg b V EV) in He.
  unfold scope_expr. apply some_bind; [by eapply in_body_in_arena|]. intros y Ey.
  apply some_bind; [by eapply called_on_total|by eexists].
Qed.

Lemma call_expr_total tys s y : y ∈ exprs pkg → is_Some (call_expr str_debug typed pkg tys s y).
Proof.
  intros [e Ee]%list_elem_of_lookup_1. pose proof (ao_exprs _ (pf_arenas Hfit) e y Ee) as Hsub.
  destruct y as [| |callee args|r m args| | | | | | | | | | | | | | | | | | | | | | | | | | | | | | | | | | | | | | | ]; cbn [call_expr]; try by eexists.
  - apply some_bind; [apply Hsub; left|]. intros c _.
    destruct c as [|segs| | | | | | | | | | | | | | | | | | | | | | | | | | | | | | | | | | | | | | | | |]; try by eexists.
    destruct segs as [|name [|m [|? ?]]]; try by eexists. unfold path_call, once. destruct (tys !! name) as [f|].
    + case_bool_decide; [by eexists|]. apply some_bind; [|by eexists]. destruct (check_method f m); [|by eexists].
      unfold check_narrowing_args. destruct (_ || _); [|by eexists]. destruct args as [|arg1 rest]; [by eexists|].
      apply some_bind; [|by eexists]. apply Hsub. right. left.
    + case_bool_decide; [|by eexists]. case_bool_decide; by eexists.
  - unfold method_call. destruct (expr_ty typed !! r) as [ty|] eqn:Er; [|by eexists].
    apply some_bind; [by eapply cap_family_total, (pf_types Hfit)|]. intros [f|] _; [|by eexists].
    unfold once. case_bool_decide; by eexists.
Qed.

Lemma run_total : is_Some (run values iterate str_debug typed pkg).
Proof.
  unfold run. apply some_bind; [|intros out1 _; apply some_bind; [|intros out2 _]].
  - apply some_bind; [apply all_params_total; intros s1 p Hp; by apply some_bind|]. intros fam _.
    apply some_bind; [|by eexists]. apply each_total. intros y s1 Hy. by apply call_expr_total.
  - apply some_bind; [apply all_params_total; intros s1 p Hp; by apply some_bind|]. intros names _.
    apply some_bind; [|by eexists]. apply each_total. intros i s1 Hi. unfold scope_item.
    apply some_bind; [by apply (pf_items Hfit)|]. intros it Eit. destruct it; try by eexists.
    apply scope_fn_total. by eapply (pf_fns Hfit).
  - apply each_total. intros ps s1 Hps. apply (elem_of_values values values_perm typed) in Hps as [fid E].
    apply some_bind; [|by eexists]. eapply params_total; [|done]. intros s2 p Hp. by apply some_bind.
Qed.
End total.
End calls.
