(* ===== verification/CapTheorems.v ===== *)
(** * Capabilities: the theorems *)

From stdpp Require Import base list strings numbers gmap sets.
From S2P Require Import Prelude Semver TyArena Hir BorrowState CapResolver CapSweeps.

Local Open Scope string_scope.
Local Open Scope list_scope.
Notation length := List.length (only parsing).

(** ** The resolver *)

Lemma view_known r name : scoped r → is_known r name = bool_decide (is_Some (view (abs r) !! name)).
Proof.
  destruct r as [reg fs dead]. unfold scoped, is_known, view. cbn. intros H. induction H as [|f fs Hf _ IH]; cbn.
  { by rewrite orb_false_r. }
  rewrite orb_assoc, (orb_comm _ (binds name f)), <-orb_assoc, IH, binds_lookup. apply eq_true_iff_eq.
  rewrite orb_true_iff, !bool_decide_eq_true, lookup_union_is_Some. tauto.
Qed.

Lemma fresh_names_spec seen ns : NoDup (fresh_names seen ns) ∧ ∀ n, n ∈ fresh_names seen ns ↔ n ∈ ns ∧ n ∉ seen.
Proof.
  revert seen. induction ns as [|m ns IH]; intros seen; cbn.
  { split; [apply NoDup_nil_2|]. intros n. rewrite elem_of_nil. tauto. }
  case_bool_decide as Hm.
  - destruct (IH seen) as [Hd Hn]. split; [done|]. intros n. rewrite Hn, elem_of_cons. naive_solver.
  - destruct (IH ({[m]} ∪ seen)) as [Hd Hn]. split.
    + constructor; [|done]. rewrite Hn. set_solver.
    + intros n. rewrite !elem_of_cons, Hn, not_elem_of_union, not_elem_of_singleton. destruct (decide (n = m)) as [->|]; tauto.
Qed.

Lemma visible_spec keys r :
  scoped r → (∀ n, n ∈ keys ↔ is_Some (declared r !! n)) →
  NoDup (visible_names keys r) ∧ ∀ n, n ∈ visible_names keys r ↔ is_Some (view (abs r) !! n).
Proof.
  intros Hr Hk. unfold visible_names. destruct (fresh_names_spec ∅ (concat ((λ f, f.*1) <$> in_scope r) ++ keys)) as [Hd Hn].
  split; [done|]. intros n. rewrite Hn, elem_of_app, Hk, elem_of_concat.
  transitivity (is_known r n = true); [|by rewrite (view_known r n Hr), bool_decide_eq_true].
  unfold is_known. rewrite orb_true_iff, bool_decide_eq_true, existsb_exists. setoid_rewrite <-list_elem_of_In.
  setoid_rewrite binds_elem. split.
  - intros [[(xs & Hx & (f & -> & Hf)%list_elem_of_fmap)|?] _]; [right; by exists f|by left].
  - intros H. split; [|apply not_elem_of_empty]. destruct H as [?|(f & Hf & Hx)]; [by right|]. left. exists f.*1.
    split; [done|]. apply list_elem_of_fmap. by exists f.
Qed.

(** The resolver implements nested scopes.  In every session its answers
    are those of the specification on finite maps, a name resolves to its
    innermost binding, or is reported as popped or as unbound, and the names
    listed are the visible ones, once each, in whatever order the hash map
    yields its keys. *)
Theorem resolver_refines_scopes ops keys :
  let r := (session step new_resolver ops).1 in
  let a := (session spec_step (abs new_resolver) ops).1 in
  keys ≡ₚ (map_to_list (declared r)).*1 →
  (session step new_resolver ops).2 = (session spec_step (abs new_resolver) ops).2 ∧
  (∀ name, resolve r name = spec_lookup a name) ∧
  (∀ name, is_known r name = bool_decide (is_Some (view a !! name))) ∧
  NoDup (visible_names keys r) ∧ (∀ name, name ∈ visible_names keys r ↔ is_Some (view a !! name)).
Proof.
  intros r a Hk. destruct (session_sim new_resolver ops scoped_new) as [Hs E]. subst r a. rewrite E. cbn [fst snd].
  split; [done|]. split; [intros name; by apply resolve_abs|]. split; [intros name; by apply view_known|].
  apply visible_spec; [done|]. intros n. rewrite Hk, list_elem_of_fmap. split.
  - intros ([m s] & -> & H%elem_of_map_to_list). by exists s.
  - intros [s H]. exists (n, s). by rewrite elem_of_map_to_list.
Qed.

(** [fs] shadowed by a read-only one, which is popped. *)
Definition demo_session : list CapOp :=
  [OpDeclare "fs" (top_spec Fs); OpPush; OpBind "fs" (mkCapSpec Fs CReadOnly); OpBind "tmp" (top_spec Net); OpPop].

Lemma resolver_refines_scopes_witness :
  let r := (session step new_resolver demo_session).1 in
  (["fs"] ≡ₚ (map_to_list (declared r)).*1) ∧ resolve r "fs" = Ok (top_spec Fs) ∧ resolve r "tmp" = Err (ScopeViolation "tmp" 1).
Proof.
  intros r. assert (["fs"] ≡ₚ (map_to_list (declared r)).*1) as Hk by (vm_compute; reflexivity). split; [exact Hk|].
  destruct (resolver_refines_scopes demo_session ["fs"] Hk) as (_ & H & _).
  split; [transitivity (spec_lookup (session spec_step (abs new_resolver) demo_session).1 "fs")
         |transitivity (spec_lookup (session spec_step (abs new_resolver) demo_session).1 "tmp")];
    first [apply H | vm_compute; reflexivity].
Defined.

(** No capability outlives its scope.  After a scope with any bindings and
    inner scopes is popped, a name resolves to a capability exactly when it
    did before, and to the same one; a name bound inside and not visible
    outside is reported as out of scope. *)
Theorem scope_is_closed before ops name :
  Bracketed ops →
  let r := (session step new_resolver before).1 in
  let r' := (session step r (OpPush :: ops ++ [OpPop])).1 in
  (∀ spec, resolve r' name = Ok spec ↔ resolve r name = Ok spec) ∧
  (∀ spec, OpBind name spec ∈ ops → is_ok (resolve r name) = false → ∃ d, resolve r' name = Err (ScopeViolation name d)).
Proof.
  intros Hb r r'. assert (scoped r) as Hr by apply (session_sim new_resolver before), scoped_new.
  destruct (session_sim r (OpPush :: ops ++ [OpPop]) Hr) as [Hr' E]. fold r' in Hr', E.
  rewrite !(resolve_abs _ name) by done. assert (abs r' = (session spec_step (abs r) (OpPush :: ops ++ [OpPop])).1) as -> by (by rewrite E).
  rewrite session_cons, session_app. cbn [spec_step fst].
  destruct (bracketed_spec ops (spec_push (abs r)) ∅ (levels (abs r)) Hb eq_refl) as (top & dead & E1 & _ & Hg & Hbind).
  rewrite E1. cbn [session spec_step fst snd spec_pop levels spec_push registry gone] in *. unfold spec_lookup, view.
  cbn [levels registry gone]. split; [|intros spec Hin];
    destruct (foldr (∪) (registry (abs r)) (levels (abs r)) !! name) as [s|] eqn:Ev; cbn; try done.
  intros _. destruct (Hbind name spec Hin) as [[x Ex]|[d Ed]]; rewrite lookup_union, lookup_fmap.
  - rewrite Ex. cbn. destruct (dead !! name); by eexists.
  - rewrite Ed. destruct (top !! name); by eexists.
Qed.

Lemma scope_is_closed_witness :
  let r := (session step new_resolver [OpDeclare "fs" (top_spec Fs)]).1 in
  ∃ d, resolve (session step r (OpPush :: [OpBind "tmp" (top_spec Net)] ++ [OpPop])).1 "tmp" = Err (ScopeViolation "tmp" d).
Proof.
  assert (Bracketed [OpBind "tmp" (top_spec Net)]) as Hb by (constructor; constructor).
  destruct (scope_is_closed [OpDeclare "fs" (top_spec Fs)] [OpBind "tmp" (top_spec Net)] "tmp" Hb) as [_ H].
  apply (H (top_spec Net)); [left|vm_compute; reflexivity].
Defined.

(** ** Narrowing *)

(** The constraints a family takes. *)
Inductive Accepts (family : CapFamily) : CapConstraint → Prop :=
  | acc_any : Accepts family CAny
  | acc_read_only : family = Fs → Accepts family CReadOnly
  | acc_path p : family = Fs → Accepts family (CPath p)
  | acc_host h hs : family = Net → Accepts family (CHost (h :: hs))
  | acc_and cs : Forall (Accepts family) cs → Accepts family (CAnd cs).

(** The methods of a family, one of which narrows or operates. *)
Definition HasMethod (family : CapFamily) (method : string) : Prop :=
  method ∈ family_methods family ∨ is_operational_method family method = true.

Lemma check_method_spec family m : is_ok (check_method family m) = true ↔ HasMethod family m.
Proof.
  unfold check_method, HasMethod. case_bool_decide; [cbn; tauto|]. destruct (is_operational_method family m); cbn; intuition congruence.
Qed.

Lemma check_narrowing_ok family m c :
  HasMethod family m → is_ok (check_narrowing family m c) = true ↔ Accepts family c.
Proof.
  intros Hm%check_method_spec. induction c as [| |p|hs|cs IH] using cap_ind; cbn [check_narrowing];
    destruct (check_method family m) as [op|err]; try done.
  - split; [constructor|by destruct family].
  - destruct family; (split; [try done; by constructor|by inversion 1]).
  - destruct family; (split; [try done; by constructor|by inversion 1]).
  - destruct family; (split; [destruct hs; try done; by constructor|by inversion 1; subst]).
  - assert (forallb (λ x, is_ok (check_narrowing family m x)) cs = true ↔ Forall (Accepts family) cs) as Hall.
    { clear Hm. induction IH as [|c cs Hc _ IH]; cbn; [done|]. by rewrite andb_true_iff, Forall_cons, Hc, IH. }
    assert (is_ok (if forallb (λ x, is_ok (check_narrowing family m x)) cs then Ok ()
       else Err (InvalidConstraint family m ("family `" +:+ pretty_family family +:+ "` does not accept this narrowing constraint"))) = true
      ↔ Accepts family (CAnd cs)) as H.
    { transitivity (forallb (λ x, is_ok (check_narrowing family m x)) cs = true); [by destruct (forallb _ _)|].
      rewrite Hall. split; [by constructor|by inversion 1]. }
    by destruct family.
Qed.

(** A narrowing is accepted exactly when the family has the method and
    takes the constraint, all parts of a conjunction included; otherwise the
    answer tells which of the two fails. *)
Theorem check_narrowing_exact family method c :
  match check_narrowing family method c with
  | Ok _ => HasMethod family method ∧ Accepts family c
  | Err (UnknownMethod f m available) => f = family ∧ m = method ∧ available = family_methods family ∧ ¬ HasMethod family method
  | Err (InvalidConstraint f m _) => f = family ∧ m = method ∧ HasMethod family method ∧ ¬ Accepts family c
  | Err _ => False
  end.
Proof.
  pose proof (check_method_spec family method) as Hm. pose proof (check_narrowing_ok family method c) as Hc.
  destruct (check_method family method) as [op|err] eqn:E.
  - assert (HasMethod family method) as H by (by apply Hm). specialize (Hc H).
    destruct c; cbn [check_narrowing] in *; rewrite E in *; cbn [is_ok] in *;
      (match goal with |- context [if ?b then _ else _] => destruct b end; [by split; [|apply Hc]|split_and!; try done; intros K%Hc; done]).
  - pose proof (check_method_err family method err E) as ->. destruct c; cbn [check_narrowing]; rewrite E; split_and!; try done; by intros K%Hm.
Qed.

(** ** The sweeps *)

(** The order in which a hash map's values, or a hash set, is iterated. *)
Definition MapOrder (values : gmap FnId (list (string * TyId)) → list (list (string * TyId))) : Prop :=
  ∀ m, values m ≡ₚ (map_to_list m).*2.
Definition SetOrder (iterate : gset ExprId → list ExprId) : Prop := ∀ V, iterate V ≡ₚ elements V.

(** Some function repeats the capability [name] among its parameters. *)
Definition Redeclared (typed : TypedPackage) (name : string) : Prop :=
  ∃ fid params, fn_param_tys typed !! fid = Some params ∧ Repeated typed params name.

(** What the sweeps report, in whatever orders the hash tables are iterated.
    With one family chosen for each capability name: one name with two families
    (MT4061); for the first use of each key, and for no later one, the method
    unknown to the family, the narrowing that is not a string literal, the
    family used as a value (MT4064, MT4065, MT4060); each function's method
    calls on capabilities that only other functions have, once a name
    (MT4062); and the repeated capability parameters (MT4063). *)
Theorem cap_sweeps_exact values iterate str_debug typed pkg ds :
  MapOrder values → SetOrder iterate →
  run values iterate str_debug typed pkg = Some ds →
  ∃ tys P D V N,
    ds = (mismatch tys <$> P) ++ D ++ (violation <$> V) ++ (redeclaration <$> N) ∧
    Choice typed tys ∧
    (NoDup P.*1 ∧ (∀ name f, (name, f) ∈ P → tys !! name ≠ Some f ∧ CapParam typed name f) ∧
       (∀ name f, CapParam typed name f → tys !! name ≠ Some f → name ∈ P.*1)) ∧
    (∀ d, d ∈ D ↔ FirstUse str_debug typed pkg tys (exprs pkg) d) ∧
    (NoDup V ∧ ∀ fid name, (fid, name) ∈ V ↔ ScopeBreak typed pkg fid name) ∧
    (∀ name, name ∈ N ↔ Redeclared typed name).
Proof.
  intros Hv Hi. unfold run. destruct (sweep_method_calls values str_debug typed pkg []) as [o1|] eqn:E1; [|done]. cbn [mbind option_bind].
  destruct (sweep_scope_violations values iterate typed pkg o1) as [o2|] eqn:E2; [|done]. cbn [mbind option_bind]. intros E3.
  apply (sweep_method_calls_spec values str_debug Hv) in E1 as (tys & P & D & Hch & HP & -> & HD).
  apply (sweep_scope_violations_spec values iterate Hv Hi) in E2 as (V & -> & HV).
  apply (sweep_redeclarations_spec values Hv) in E3 as (N & -> & HN). exists tys, P, D, V, N.
  split; [by rewrite (app_nil_l _), <-!app_assoc|]. destruct HP as [Hd Ho Ha]. split_and!; try done.
  - intros name f Hp. destruct (Ho name f Hp) as [? ?]. split; [done|]. by apply (elem_of_params values Hv typed).
  - intros name f Hc Hne. apply (elem_of_params values Hv typed) in Hc as (ty & ? & ?). by eapply Ha.
  - apply HV.
  - apply HV.
Qed.

(** [fn read(fs: Fs) { fs.frob() }] and [fn main() { fs.read() }], where the
    second is judged too: the sweep has the names of all functions. *)
Definition two_fns (exprs : list HirExpr) (items_ : list HirFn) (blks : list HirBlock) : Package :=
  mkPackage (ItFn <$> seq 0 (length items_)) items_ [] [] [] [] [] [] exprs [] [] blks [] (seq 0 (length items_)) ∅.

Definition plain_fn (name : string) (body : BlockId) : HirFn :=
  mkFn name true false [] [] None [] None (Some body) None false no_span.

(** The arena of the primitives, and one capability of two families. *)
Definition cap_arena : TyArena := (cap (cap TyArena.new Fs CAny).1 Net CAny).1.
Definition fs_ty : TyId := 26%nat.
Definition net_ty : TyId := 27%nat.

Lemma fs_ty_cap : get cap_arena fs_ty = Some (TCap Fs CAny).
Proof. by vm_compute. Qed.

Definition params_typed (ps : list (FnId * list (string * TyId))) (es : list (ExprId * TyId)) : TypedPackage :=
  mkTyped (mkDefMap [] ∅) cap_arena (list_to_map es) (list_to_map ps).

Definition by_key (m : gmap FnId (list (string * TyId))) : list (list (string * TyId)) := (map_to_list m).*2.
Definition by_key_rev (m : gmap FnId (list (string * TyId))) : list (list (string * TyId)) := reverse (by_key m).
Definition in_order (V : gset ExprId) : list ExprId := elements V.

Lemma by_key_order : MapOrder by_key.
Proof. by intros m. Qed.

Lemma by_key_rev_order : MapOrder by_key_rev.
Proof. intros m. unfold by_key_rev. by rewrite reverse_Permutation. Qed.

Lemma in_order_order : SetOrder in_order.
Proof. by intros V. Qed.

Definition frob_exprs : list HirExpr :=
  [EPath ["fs"; "frob"]; ECall 0 []; EPath ["fs"; "read"]; ECall 2 []].

Definition frob_pkg : Package :=
  two_fns frob_exprs [plain_fn "read" 0; plain_fn "main" 1] [mkBlock [] (Some 1%nat); mkBlock [] (Some 3%nat)].

Definition frob_typed : TypedPackage := params_typed [(0%nat, [("fs", fs_ty)]); (1%nat, [])] [].

Lemma cap_sweeps_exact_witness :
  MapOrder by_key ∧ SetOrder in_order ∧
  ∃ ds (V : list (FnId * string)), run by_key in_order id frob_typed frob_pkg = Some ds ∧
    (cap_scope_violation "fs" 1 no_span ∈ ds) ∧ ∀ fid name, (fid, name) ∈ V ↔ ScopeBreak frob_typed frob_pkg fid name.
Proof.
  split; [exact by_key_order|]. split; [exact in_order_order|].
  destruct (run by_key in_order id frob_typed frob_pkg) as [ds|] eqn:E; [|vm_compute in E; discriminate E].
  destruct (cap_sweeps_exact by_key in_order id frob_typed frob_pkg ds by_key_order in_order_order E)
    as (tys & P & D & V & N & _ & _ & _ & _ & [_ HV] & _). exists ds, V. split; [reflexivity|]. split; [|exact HV].
  vm_compute in E. injection E as <-. right. left.
Defined.

(** C9. The sweeps return on every package whose indices are in its arenas,
    also where a body leads back to itself, and where no capability name has
    two families they report the same diagnostics whatever the orders in which
    the hash tables are iterated. *)
Theorem cap_pass_returns values iterate str_debug typed pkg :
  MapOrder values → SetOrder iterate → pass_fits typed pkg →
  ∃ ds, run values iterate str_debug typed pkg = Some ds ∧
    ((∀ name f g, CapParam typed name f → CapParam typed name g → f = g) →
     ∀ values' iterate' ds', MapOrder values' → SetOrder iterate' →
       run values' iterate' str_debug typed pkg = Some ds' → ∀ d, d ∈ ds' ↔ d ∈ ds).
Proof.
  intros Hv Hi Hfit. destruct (run_total values str_debug Hv typed pkg Hfit iterate Hi) as [ds E]. exists ds. split; [done|].
  intros Hone values' iterate' ds' Hv' Hi' E' d.
  destruct (cap_sweeps_exact _ _ _ _ _ _ Hv Hi E) as (t1 & P1 & D1 & V1 & N1 & -> & C1 & (_ & M1 & _) & HD1 & (_ & HV1) & HN1).
  destruct (cap_sweeps_exact _ _ _ _ _ _ Hv' Hi' E') as (t2 & P2 & D2 & V2 & N2 & -> & C2 & (_ & M2 & _) & HD2 & (_ & HV2) & HN2).
  assert (t2 = t1) as ->.
  { apply map_eq. intros n. destruct (t2 !! n) as [f|] eqn:E2, (t1 !! n) as [g|] eqn:E1; try done.
    - f_equal. apply (Hone n); [by apply C2|by apply C1].
    - apply C2, C1 in E2 as [? ?]. congruence.
    - apply C1, C2 in E1 as [? ?]. congruence. }
  assert (∀ P, (∀ name f, (name, f) ∈ P → t1 !! name ≠ Some f ∧ CapParam typed name f) → P = []) as HPn.
  { intros [|[n f] P] HP; [done|]. destruct (HP n f) as [Hne Hc]; [left|]. destruct (proj2 C1 n f Hc) as [g Eg].
    destruct Hne. rewrite Eg. f_equal. apply (Hone n); [by apply C1|done]. }
  rewrite (HPn P1 M1), (HPn P2 M2). cbn [fmap list_fmap app]. rewrite !elem_of_app, HD1, HD2, !list_elem_of_fmap.
  setoid_rewrite HN1. setoid_rewrite HN2. do 2 f_equiv. f_equiv. intros [fid name]. by rewrite HV1, HV2.
Qed.

(** A body that holds itself: [{ fs.frob(); { .. } }]. *)
Definition cyclic_pkg : Package :=
  two_fns [EPath ["fs"; "frob"]; ECall 0 []; EBlock 0] [plain_fn "main" 0] [mkBlock [SExpr 1] (Some 2%nat)].
Definition cyclic_typed : TypedPackage := params_typed [(0%nat, [("fs", fs_ty)])] [].

Lemma cyclic_fits : pass_fits cyclic_typed cyclic_pkg.
Proof.
  split.
  - split.
    + intros [|[|[|e]]] y [= <-] z Hz; cbn in Hz; repeat (apply elem_of_cons in Hz as [->|Hz]; [by eexists|]); by apply elem_of_nil in Hz.
    + intros [|[|[|e]]] y [= <-] b Hb; cbn in Hb; repeat (apply elem_of_cons in Hb as [->|Hb]; [by eexists|]); by apply elem_of_nil in Hb.
    + intros [|b] blk [= <-] z Hz; cbn in Hz; repeat (apply elem_of_cons in Hz as [->|Hz]; [by eexists|]); by apply elem_of_nil in Hz.
  - intros fid ps p E%elem_of_list_to_map_2 Hp. apply list_elem_of_singleton in E as [= -> ->].
    apply list_elem_of_singleton in Hp as ->. exact (mk_is_Some _ _ fs_ty_cap).
  - intros e ty E%elem_of_list_to_map_2. exfalso. by apply elem_of_nil in E.
  - intros i ->%list_elem_of_singleton. by eexists.
  - intros i fid ->%list_elem_of_singleton [= <-]. by eexists.
  - intros [|fid] f b [= <-] [= <-]. by eexists.
Qed.

Lemma cap_pass_returns_witness : ∃ ds, run by_key in_order id cyclic_typed cyclic_pkg = Some ds.
Proof.
  destruct (cap_pass_returns by_key in_order id cyclic_typed cyclic_pkg by_key_order in_order_order cyclic_fits) as (ds & E & _).
  by exists ds.
Defined.

(** ** What the sweeps get wrong *)

Definition codes_of (o : option (list Diagnostic)) : option (list Z) := List.map d_code <$> o.

(** The families of two functions meet: with [f(c: Fs)] and [g(c: Net)], the
    order of the hash map decides which calls on [c] are reported. *)
Example family_depends_on_order :
  let t := params_typed [(0%nat, [("c", fs_ty)]); (1%nat, [("c", net_ty)])] [] in
  let p := two_fns [EPath ["c"; "get"]; ECall 0 []; EPath ["c"; "read"]; ECall 2 []]
             [plain_fn "f" 0; plain_fn "g" 1] [mkBlock [] (Some 3%nat); mkBlock [] (Some 1%nat)] in
  run by_key in_order id t p = Some [cap_family_mismatch "c" Net Fs no_span; cap_method_unknown Net "read" ["host"] no_span] ∧
  run by_key_rev in_order id t p = Some [cap_family_mismatch "c" Fs Net no_span; cap_method_unknown Fs "get" ["ro"; "path"] no_span].
Proof. by split; vm_compute. Qed.

(** [fn read(fs: Fs)] makes [fs] a capability everywhere: a local [fs] of
    [main] that is none is judged by its methods and as out of scope. *)
Example local_taken_for_capability :
  let p := mkPackage [ItFn 0; ItFn 1] [plain_fn "read" 0; plain_fn "main" 1] [] [] [] [] [] []
             [EPath ["fs"; "len"]; ECall 0 []; ELiteral (LStr "x")] [PBinding "fs" None] []
             [mkBlock [] None; mkBlock [SLet 0 None (Some 2%nat) false] (Some 1%nat)] [] [0%nat; 1%nat] ∅ in
  codes_of (run by_key in_order id frob_typed p) = Some [4064; 4062]%Z.
Proof. by vm_compute. Qed.

(** [fs.path("a"); fs.path(x)]: only the first call of a method is judged. *)
Example second_narrowing_unchecked :
  let p e := two_fns [EPath ["fs"; "path"]; ELiteral (LStr "a"); EPath ["x"]; ECall 0 [mkArg None e]; ECall 0 [mkArg None 2%nat]]
               [plain_fn "main" 0] [mkBlock [SExpr 3] (Some 4%nat)] in
  codes_of (run by_key in_order id cyclic_typed (p 1%nat)) = Some [] ∧
  codes_of (run by_key in_order id cyclic_typed (p 2%nat)) = Some [4065]%Z.
Proof. by split; vm_compute. Qed.

(** The sweep for scope violations does not look into struct literals,
    messages, casts, lambdas and the like. *)
Example violation_in_literal_missed :
  let p e := two_fns (frob_exprs ++ [EStruct ["S"] [("a", 3%nat)]; ETuple [3%nat]])
               [plain_fn "read" 0; plain_fn "main" 1] [mkBlock [] None; mkBlock [] (Some e)] in
  codes_of (run by_key in_order id frob_typed (p 4%nat)) = Some [4064]%Z ∧
  codes_of (run by_key in_order id frob_typed (p 5%nat)) = Some [4064; 4062]%Z.
Proof. by split; vm_compute. Qed.

(** A method call on a receiver of family [Fs] has the key of [Fs.frob()]:
    after it, the use of the family as a value is not reported. *)
Example key_collision :
  let t es := params_typed [] es in
  let p := two_fns [EPath ["x"]; EMethodCall 0 "read" []; EPath ["Fs"; "read"]; ECall 2 []]
             [plain_fn "main" 0] [mkBlock [SExpr 1] (Some 3%nat)] in
  codes_of (run by_key in_order id (t [(0%nat, fs_ty)]) p) = Some [] ∧
  codes_of (run by_key in_order id (t []) p) = Some [4060]%Z.
Proof. by split; vm_compute. Qed.

(** A family without narrowing methods still has unknown methods. *)
Example clock_method_unknown : check_method Clock "ro" = Err (UnknownMethod Clock "ro" []).
Proof. done. Qed.
