(* ===== verification/SlabPool.v ===== *)
(** * The slab pool of message slots

    [crates/mty-runtime/src/slab_pool.rs].  A pool hands out slots by index
    from a LIFO free list; a frame owns its slot until it is dropped.  Each
    operation takes several locks in turn, so the threads that share a pool
    interleave between them: [step] is one lock's worth of work, and
    [try_acquire], [acquire_or_overflow] and [drop_frame] are the operations run
    without interference. *)

From Stdlib Require Import Init.Byte.
From stdpp Require Import base list numbers sets relations.
From S2P Require Import Prelude.

Notation bytes := (list byte) (only parsing).

(** ** Slots *)

(** [inline] is a vector allocated once with [cap] bytes; [clear] and writing
    within the capacity never reallocate it. *)
Record Slot := mkSlot {
  cap : nat; inline : bytes; overflow : option bytes; used : nat
}.

Definition slot_empty (inline_bytes : nat) : Slot := mkSlot inline_bytes [] None 0.

Definition reset (s : Slot) : Slot := mkSlot (cap s) [] None 0.

Definition spilled (s : Slot) : bool := match overflow s with Some _ => true | None => false end.

(** [&b[..n]]: a panic when [n] is past the end. *)
Definition slice_to (b : bytes) (n : nat) : option bytes :=
  if n <=? length b then Some (take n b) else None.

Definition slot_bytes (s : Slot) : option bytes :=
  match overflow s with
  | Some b => slice_to b (used s)
  | None => slice_to (inline s) (used s)
  end.

Definition write (s : Slot) (data : bytes) : Slot :=
  let s := reset s in
  if length data <=? cap s then mkSlot (cap s) data (overflow s) (length data)
  else mkSlot (cap s) (inline s) (Some data) (length data).

(** ** The pool *)

(** [free] is the vector bottom first; [acquired] and [released] are [u64]. *)
Record PoolInner := mkPool {
  slots : list Slot; free : list nat; capacity : nat; inline_bytes : nat;
  acquired : Z; released : Z
}.

Record PooledFrame := mkFrame { slot_idx : option nat; f_overflow : option bytes; len : nat }.

Definition wrap64 (z : Z) : Z := (z mod 2 ^ 64)%Z.

(** [*counter += 1] on a [u64]: past its maximum a panic ([None]), or 0 in a
    build without checks. *)
Definition incr64 `{OverflowChecks} (n : Z) : option Z :=
  let m := wrap64 (n + 1) in if overflow_checks && (m =? 0)%Z then None else Some m.

Definition with_layout (capacity inline_bytes : nat) : PoolInner :=
  let cap := capacity `max` 1 in
  mkPool (replicate cap (slot_empty inline_bytes)) (map (λ i, cap - 1 - i) (seq 0 cap))
    cap inline_bytes 0 0.

Definition DEFAULT_INLINE_BYTES : nat := 64.
Definition new (capacity : nat) : PoolInner := with_layout capacity DEFAULT_INLINE_BYTES.

Definition free_count (p : PoolInner) : nat := length (free p).
(** A subtraction that would panic below zero in a debug build. *)
Definition used_count (p : PoolInner) : nat := capacity p - free_count p.

(** [Vec::pop] *)
Definition vec_pop {X} (l : list X) : option (X * list X) :=
  match rev l with [] => None | x :: l' => Some (x, rev l') end.

(** The effect of each critical section. *)
Definition pop_free (p : PoolInner) : option (nat * PoolInner) :=
  r ← vec_pop (free p);
  Some (r.1, mkPool (slots p) r.2 (capacity p) (inline_bytes p) (acquired p) (released p)).

Definition write_slot (i : nat) (data : bytes) (p : PoolInner) : option PoolInner :=
  s ← slots p !! i;
  Some (mkPool (<[i := write s data]> (slots p)) (free p) (capacity p) (inline_bytes p)
          (acquired p) (released p)).

Definition count_acquired `{OverflowChecks} (p : PoolInner) : option PoolInner :=
  n ← incr64 (acquired p);
  Some (mkPool (slots p) (free p) (capacity p) (inline_bytes p) n (released p)).

Definition reset_slot (i : nat) (p : PoolInner) : option PoolInner :=
  s ← slots p !! i;
  Some (mkPool (<[i := reset s]> (slots p)) (free p) (capacity p) (inline_bytes p)
          (acquired p) (released p)).

Definition push_free (i : nat) (p : PoolInner) : PoolInner :=
  mkPool (slots p) (free p ++ [i]) (capacity p) (inline_bytes p) (acquired p) (released p).

Definition count_released `{OverflowChecks} (p : PoolInner) : option PoolInner :=
  n ← incr64 (released p);
  Some (mkPool (slots p) (free p) (capacity p) (inline_bytes p) (acquired p) n).

(** The outer option is a panic, the inner one the source's [Option]. *)
Definition try_acquire `{OverflowChecks} (data : bytes) (p : PoolInner) : option (PoolInner * option PooledFrame) :=
  match pop_free p with
  | None => Some (p, None)
  | Some (i, p) =>
      p ← write_slot i data p;
      p ← count_acquired p;
      Some (p, Some (mkFrame (Some i) None (length data)))
  end.

Definition acquire_empty (p : PoolInner) : PooledFrame := mkFrame None None 0.

Definition acquire_or_overflow `{OverflowChecks} (data : bytes) (p : PoolInner) : option (PoolInner * PooledFrame) :=
  match data with
  | [] => Some (p, mkFrame None None 0)
  | _ =>
      r ← try_acquire data p;
      match r with
      | (p, Some f) => Some (p, f)
      | (p, None) => Some (p, mkFrame None (Some data) (length data))
      end
  end.

Definition is_pooled (f : PooledFrame) : bool := match slot_idx f with Some _ => true | None => false end.

(** [with_bytes] with the identity, which is [to_bytes]. *)
Definition to_bytes (f : PooledFrame) (p : PoolInner) : option bytes :=
  match f_overflow f, slot_idx f with
  | Some b, _ => slice_to b (len f)
  | None, Some i => s ← slots p !! i; slot_bytes s
  | None, None => Some []
  end.

Definition frame_spilled (f : PooledFrame) (p : PoolInner) : option bool :=
  match slot_idx f with
  | Some i => s ← slots p !! i; Some (spilled s)
  | None => Some true
  end.

Definition drop_frame `{OverflowChecks} (f : PooledFrame) (p : PoolInner) : option PoolInner :=
  match slot_idx f with
  | Some i => p ← reset_slot i p; count_released (push_free i p)
  | None => Some p
  end.

(** ** Threads *)

(** A thread in the middle of an operation, between two critical sections. *)
Inductive Phase :=
  | Writing (i : nat) (data : bytes)
  | Counting (i : nat) (data : bytes)
  | Resetting (i : nat)
  | Pushing (i : nat)
  | Releasing.

(** The pool, the operations under way, and the live frames with the bytes
    each was made from. *)
Record World := mkWorld {
  pool : PoolInner; flight : list Phase; live : list (PooledFrame * bytes)
}.

Inductive step `{OverflowChecks} : World → World → Prop :=
  | s_pop p p' fl lv i data : pop_free p = Some (i, p') →
      step (mkWorld p fl lv) (mkWorld p' (Writing i data :: fl) lv)
  | s_write p p' fl1 fl2 lv i data : write_slot i data p = Some p' →
      step (mkWorld p (fl1 ++ Writing i data :: fl2) lv)
           (mkWorld p' (fl1 ++ Counting i data :: fl2) lv)
  | s_count p p' fl1 fl2 lv i data : count_acquired p = Some p' →
      step (mkWorld p (fl1 ++ Counting i data :: fl2) lv)
           (mkWorld p' (fl1 ++ fl2)
              ((mkFrame (Some i) None (length data), data) :: lv))
  | s_overflow p fl lv data : data ≠ [] → pop_free p = None →
      step (mkWorld p fl lv) (mkWorld p fl ((mkFrame None (Some data) (length data), data) :: lv))
  | s_empty p fl lv : step (mkWorld p fl lv) (mkWorld p fl ((acquire_empty p, []) :: lv))
  | s_drop_none p fl lv1 lv2 f data : slot_idx f = None →
      step (mkWorld p fl (lv1 ++ (f, data) :: lv2)) (mkWorld p fl (lv1 ++ lv2))
  | s_drop p fl lv1 lv2 f data i : slot_idx f = Some i →
      step (mkWorld p fl (lv1 ++ (f, data) :: lv2)) (mkWorld p (Resetting i :: fl) (lv1 ++ lv2))
  | s_reset p p' fl1 fl2 lv i : reset_slot i p = Some p' →
      step (mkWorld p (fl1 ++ Resetting i :: fl2) lv) (mkWorld p' (fl1 ++ Pushing i :: fl2) lv)
  | s_push p fl1 fl2 lv i :
      step (mkWorld p (fl1 ++ Pushing i :: fl2) lv)
           (mkWorld (push_free i p) (fl1 ++ Releasing :: fl2) lv)
  | s_release p p' fl1 fl2 lv : count_released p = Some p' →
      step (mkWorld p (fl1 ++ Releasing :: fl2) lv) (mkWorld p' (fl1 ++ fl2) lv).

(** ** The invariant *)

Definition phase_idx (ph : Phase) : list nat :=
  match ph with
  | Writing i _ | Counting i _ | Resetting i | Pushing i => [i]
  | Releasing => []
  end.

Definition frame_idx (fd : PooledFrame * bytes) : list nat :=
  match slot_idx fd.1 with Some i => [i] | None => [] end.

(** The slots held by threads and by live frames. *)
Definition held (fl : list Phase) (lv : list (PooledFrame * bytes)) : list nat :=
  flat_map phase_idx fl ++ flat_map frame_idx lv.

(** Acquired and not yet released, as the counters see it. *)
Definition phase_count (ph : Phase) : nat :=
  match ph with Writing _ _ | Counting _ _ => 0 | _ => 1 end.
Definition outstanding (fl : list Phase) (lv : list (PooledFrame * bytes)) : nat :=
  list_sum (map phase_count fl) + length (flat_map frame_idx lv).

Definition phase_ok (p : PoolInner) (ph : Phase) : Prop :=
  match ph with
  | Counting i data => ∃ s, slots p !! i = Some s ∧ slot_bytes s = Some data
  | _ => True
  end.

Definition frame_ok (p : PoolInner) (fd : PooledFrame * bytes) : Prop :=
  to_bytes fd.1 p = Some fd.2 ∧ len fd.1 = length fd.2.

Record ok (w : World) : Prop := {
  ok_slots : length (slots (pool w)) = capacity (pool w);
  ok_caps : Forall (λ s, cap s = inline_bytes (pool w)) (slots (pool w));
  ok_perm : free (pool w) ++ held (flight w) (live w) ≡ₚ seq 0 (capacity (pool w));
  ok_flight : Forall (phase_ok (pool w)) (flight w);
  ok_live : Forall (frame_ok (pool w)) (live w);
  ok_count : wrap64 (acquired (pool w) - released (pool w)) = wrap64 (Z.of_nat (outstanding (flight w) (live w)))
}.

Lemma slot_bytes_write s data : slot_bytes (write s data) = Some data.
Proof.
  unfold slot_bytes, write. simpl. destruct (_ <=? _); simpl; unfold slice_to;
    by rewrite Nat.leb_refl, firstn_all.
Qed.

Lemma spilled_write s data : spilled (write s data) = (cap s <? length data).
Proof. unfold spilled, write. cbn [cap reset]. rewrite Nat.ltb_antisym. by destruct (_ <=? _). Qed.

Lemma vec_pop_Some {X} (l l' : list X) x : vec_pop l = Some (x, l') → l = l' ++ [x].
Proof.
  unfold vec_pop. destruct (rev l) as [|y k] eqn:E; [done|]. intros [= <- <-].
  rewrite <- (rev_involutive l), E. reflexivity.
Qed.

Lemma vec_pop_None {X} (l : list X) : vec_pop l = None ↔ l = [].
Proof.
  unfold vec_pop. destruct (rev l) as [|y k] eqn:E.
  - split; [|done]. intros _. rewrite <- (rev_involutive l), E. done.
  - split; [done|]. intros ->. done.
Qed.

(** Changing one slot leaves the frames and threads that hold others alone. *)
Lemma to_bytes_insert f p i s :
  slot_idx f ≠ Some i →
  to_bytes f (mkPool (<[i := s]> (slots p)) (free p) (capacity p) (inline_bytes p)
                (acquired p) (released p)) = to_bytes f p.
Proof.
  intros Hne. unfold to_bytes. destruct (f_overflow f); [done|].
  destruct (slot_idx f) as [j|]; [|done]. simpl. rewrite list_lookup_insert_ne; [done|congruence].
Qed.

Lemma frames_insert p i s lv :
  i ∉ flat_map frame_idx lv → Forall (frame_ok p) lv →
  Forall (frame_ok (mkPool (<[i := s]> (slots p)) (free p) (capacity p) (inline_bytes p)
                      (acquired p) (released p))) lv.
Proof.
  intros Hi H. induction H as [|fd lv [Hb Hl] _ IH]; [constructor|]. simpl in Hi.
  rewrite elem_of_app in Hi. constructor; [|apply IH; tauto]. split; [|done].
  rewrite to_bytes_insert; [done|]. intros Hs. apply Hi. left. unfold frame_idx. rewrite Hs. by left.
Qed.

Lemma phases_insert p i s fl :
  i ∉ flat_map phase_idx fl → Forall (phase_ok p) fl →
  Forall (phase_ok (mkPool (<[i := s]> (slots p)) (free p) (capacity p) (inline_bytes p)
                      (acquired p) (released p))) fl.
Proof.
  intros Hi H. induction H as [|ph fl Hb _ IH]; [constructor|]. simpl in Hi.
  rewrite elem_of_app in Hi. constructor; [|apply IH; tauto].
  destruct ph as [j d|j d|j|j|]; try done. simpl in Hb |- *. destruct Hb as (s' & Hs' & Hd).
  exists s'. split; [|done]. rewrite list_lookup_insert_ne; [done|]. intros ->. apply Hi. left. by left.
Qed.

(** The parts of a pool that the invariant reads other than through a slot. *)
Lemma frame_ok_same p q fd : slots p = slots q → frame_ok p fd → frame_ok q fd.
Proof. intros H. unfold frame_ok, to_bytes. by rewrite H. Qed.

Lemma phase_ok_same p q ph : slots p = slots q → phase_ok p ph → phase_ok q ph.
Proof. intros H. unfold phase_ok. by rewrite H. Qed.

Lemma wrap64_add a b c : wrap64 a = wrap64 b → wrap64 (a + c) = wrap64 (b + c).
Proof.
  unfold wrap64. intros H. rewrite <- (Zplus_mod_idemp_l a), <- (Zplus_mod_idemp_l b). by rewrite H.
Qed.

Lemma perm_swap_mid {X} (a b c d : list X) : (a ++ b ++ c) ++ d ≡ₚ b ++ (a ++ c) ++ d.
Proof. by rewrite !app_assoc, (Permutation_app_comm a b). Qed.

Lemma held_phase fl1 fl2 ph lv : held (fl1 ++ ph :: fl2) lv ≡ₚ phase_idx ph ++ held (fl1 ++ fl2) lv.
Proof. unfold held. rewrite !flat_map_app. apply perm_swap_mid. Qed.

Lemma held_frame fl lv1 lv2 fd : held fl (lv1 ++ fd :: lv2) ≡ₚ frame_idx fd ++ held fl (lv1 ++ lv2).
Proof.
  unfold held. rewrite !flat_map_app. simpl.
  rewrite (Permutation_app_comm (flat_map phase_idx fl)), perm_swap_mid. f_equiv.
  apply Permutation_app_comm.
Qed.

Lemma outstanding_phase fl1 fl2 ph lv :
  outstanding (fl1 ++ ph :: fl2) lv = phase_count ph + outstanding (fl1 ++ fl2) lv.
Proof. unfold outstanding. rewrite !map_app, !list_sum_app. simpl. lia. Qed.

Lemma outstanding_frame fl lv1 lv2 fd :
  outstanding fl (lv1 ++ fd :: lv2) = length (frame_idx fd) + outstanding fl (lv1 ++ lv2).
Proof. unfold outstanding. rewrite !flat_map_app. simpl. rewrite !length_app. lia. Qed.

(** What the invariant says of a slot a thread holds. *)
Lemma ok_phase p fl1 fl2 ph lv i :
  ok (mkWorld p (fl1 ++ ph :: fl2) lv) → i ∈ phase_idx ph →
  i < length (slots p) ∧ i ∉ flat_map phase_idx (fl1 ++ fl2) ∧ i ∉ flat_map frame_idx lv.
Proof.
  intros [Hs _ Hp _ _ _] Hi. simpl in *. rewrite held_phase in Hp. split.
  - rewrite Hs. enough (i ∈ seq 0 (capacity p)) as H by (apply elem_of_seq in H; lia).
    rewrite <- Hp. apply elem_of_app. right. apply elem_of_app. by left.
  - pose proof (NoDup_seq 0 (capacity p)) as Hnd. rewrite <- Hp in Hnd.
    apply NoDup_app in Hnd as (_ & _ & Hnd). apply NoDup_app in Hnd as (_ & Hdis & _).
    specialize (Hdis i Hi). unfold held in Hdis. rewrite elem_of_app in Hdis. tauto.
Qed.

Lemma caps_insert p i s :
  Forall (λ s, cap s = inline_bytes p) (slots p) → cap s = inline_bytes p →
  Forall (λ s, cap s = inline_bytes p) (<[i := s]> (slots p)).
Proof. intros H Hs. by apply Forall_insert. Qed.

Lemma Forall_mid_drop {X} (l1 l2 : list X) (x : X) (Q : X → Prop) :
  Forall Q (l1 ++ x :: l2) → Forall Q (l1 ++ l2).
Proof. rewrite !Forall_app, !Forall_cons. tauto. Qed.

Lemma Forall_mid_add {X} (l1 l2 : list X) (x : X) (Q : X → Prop) :
  Forall Q (l1 ++ l2) → Q x → Forall Q (l1 ++ x :: l2).
Proof. rewrite !Forall_app, !Forall_cons. tauto. Qed.

Lemma wrap_acquired a b m :
  wrap64 (a - b) = wrap64 m → wrap64 (wrap64 (a + 1) - b) = wrap64 (m + 1).
Proof.
  intros H. rewrite <- (wrap64_add (a - b) m 1 H). unfold wrap64. rewrite Zminus_mod_idemp_l.
  f_equal. lia.
Qed.

Lemma wrap_released a b m :
  wrap64 (a - b) = wrap64 (m + 1) → wrap64 (a - wrap64 (b + 1)) = wrap64 m.
Proof.
  intros H. apply (wrap64_add _ _ (-1)) in H. unfold wrap64 in *. rewrite Zminus_mod_idemp_r.
  replace (a - (b + 1))%Z with (a - b + -1)%Z by lia. rewrite H. f_equal. lia.
Qed.

Lemma incr64_Some `{OverflowChecks} n m : incr64 n = Some m → m = wrap64 (n + 1).
Proof. unfold incr64. destruct (_ && _); [done|]. by intros [= <-]. Qed.

(** A counter that the next increment does not overflow, in a checked build. *)
Definition room `{OverflowChecks} (n : Z) : Prop := overflow_checks = true → wrap64 (n + 1) ≠ 0%Z.

Lemma incr64_room `{OverflowChecks} n : room n → incr64 n = Some (wrap64 (n + 1)).
Proof.
  unfold room, incr64. intros Hr. destruct overflow_checks; [|done].
  destruct (Z.eqb_spec (wrap64 (n + 1)) 0); [|done]. by destruct Hr.
Qed.

Lemma count_acquired_Some `{OverflowChecks} p p' : count_acquired p = Some p' →
  p' = mkPool (slots p) (free p) (capacity p) (inline_bytes p) (wrap64 (acquired p + 1)) (released p).
Proof. unfold count_acquired. destruct (incr64 _) as [n|] eqn:E; [|done]. apply incr64_Some in E as ->. by intros [= <-]. Qed.

Lemma count_released_Some `{OverflowChecks} p p' : count_released p = Some p' →
  p' = mkPool (slots p) (free p) (capacity p) (inline_bytes p) (acquired p) (wrap64 (released p + 1)).
Proof. unfold count_released. destruct (incr64 _) as [n|] eqn:E; [|done]. apply incr64_Some in E as ->. by intros [= <-]. Qed.

Lemma pool_step_ok `{OverflowChecks} w w' : step w w' → ok w → ok w'.
Proof.
  intros Hst Hw. pose proof Hw as [Hs Hc Hp Hf Hl Hn].
  destruct Hst as [p p' fl lv i data Hpop|p p' fl1 fl2 lv i data Hwr|p p' fl1 fl2 lv i data ->%count_acquired_Some
    |p fl lv data _ _|p fl lv|p fl lv1 lv2 f data Hi|p fl lv1 lv2 f data i Hi
    |p p' fl1 fl2 lv i Hr|p fl1 fl2 lv i|p p' fl1 fl2 lv ->%count_released_Some]; simpl in *.
  - unfold pop_free in Hpop. destruct (vec_pop (free p)) as [[j k]|] eqn:E; [|done].
    injection Hpop as <- <-. apply vec_pop_Some in E. split; simpl; try done.
    + rewrite <- Hp, E, <- app_assoc. reflexivity.
    + constructor; [done|exact Hf].
  - unfold write_slot in Hwr. destruct (slots p !! i) as [s|] eqn:E; [|done].
    injection Hwr as <-. destruct (ok_phase _ _ _ _ _ i Hw) as (Hlt & Hn1 & Hn2); [by left|].
    split; simpl.
    + by rewrite length_insert.
    + apply caps_insert; [done|]. rewrite Forall_lookup in Hc. by rewrite <- (Hc i s E); unfold write; simpl; destruct (_ <=? _).
    + by rewrite held_phase, <- Hp, held_phase.
    + apply Forall_mid_add; [apply phases_insert; [done|by eapply Forall_mid_drop]|].
      exists (write s data). split; [|apply slot_bytes_write]. simpl. by rewrite list_lookup_insert_eq.
    + by apply frames_insert.
    + by rewrite Hn, !outstanding_phase.
  - rewrite Forall_app, Forall_cons in Hf. destruct Hf as (Hf1 & Hph & Hf2). split; simpl; try done.
    + rewrite <- Hp. f_equiv. change (?x :: lv) with ([] ++ x :: lv). rewrite held_phase, held_frame. done.
    + apply Forall_app. split; (eapply Forall_impl; [eassumption|]; intros ph; by apply phase_ok_same).
    + constructor; [|eapply Forall_impl; [exact Hl|]; intros fd; by apply frame_ok_same].
      split; [|done]. destruct Hph as (s & Hsl & Hb). unfold to_bytes. simpl. by rewrite Hsl.
    + change (?x :: lv) with ([] ++ x :: lv). rewrite outstanding_frame. rewrite outstanding_phase in Hn.
      simpl in Hn |- *. rewrite Nat2Z.inj_succ. by apply wrap_acquired.
  - split; simpl; try done. constructor; [|done]. split; [|done].
    unfold to_bytes, slice_to. simpl. by rewrite Nat.leb_refl, firstn_all.
  - split; simpl; try done. by constructor.
  - split; simpl; try done.
    + by rewrite <- Hp, held_frame; unfold frame_idx; simpl; rewrite Hi.
    + by eapply Forall_mid_drop.
    + rewrite Hn, outstanding_frame. unfold frame_idx. simpl. by rewrite Hi.
  - split; simpl; try done.
    + rewrite <- Hp, held_frame. f_equiv. unfold frame_idx. simpl. by rewrite Hi.
    + constructor; [done|exact Hf].
    + by eapply Forall_mid_drop.
    + rewrite Hn, outstanding_frame. unfold frame_idx. simpl. by rewrite Hi.
  - unfold reset_slot in Hr. destruct (slots p !! i) as [s|] eqn:E; [|done].
    injection Hr as <-. destruct (ok_phase _ _ _ _ _ i Hw) as (Hlt & Hn1 & Hn2); [by left|].
    split; simpl.
    + by rewrite length_insert.
    + apply caps_insert; [done|]. rewrite Forall_lookup in Hc. by apply (Hc i s).
    + by rewrite held_phase, <- Hp, held_phase.
    + apply Forall_mid_add; [apply phases_insert; [done|by eapply Forall_mid_drop]|done].
    + by apply frames_insert.
    + by rewrite Hn, !outstanding_phase.
  - split; simpl; try done.
    + rewrite <- Hp, !held_phase, <- app_assoc. reflexivity.
    + apply Forall_mid_add; [|done]. apply Forall_mid_drop in Hf.
      eapply Forall_impl; [exact Hf|]. intros ph. by apply phase_ok_same.
    + by rewrite Hn, !outstanding_phase.
  - apply Forall_mid_drop in Hf. split; simpl; try done.
    + by rewrite <- Hp, held_phase.
    + rewrite outstanding_phase in Hn. simpl in Hn. apply wrap_released.
      rewrite <- Nat2Z.inj_succ in Hn || rewrite Nat2Z.inj_succ in Hn. exact Hn.
Qed.

(** In a checked build the counters are exact, so that giving a slot back never
    overflows: fewer slots were given back than taken. *)
Definition counted `{OverflowChecks} (w : World) : Prop :=
  overflow_checks = true →
  (0 ≤ released (pool w) ∧ acquired (pool w) < 2 ^ 64
   ∧ acquired (pool w) = released (pool w) + Z.of_nat (outstanding (flight w) (live w)))%Z.

Lemma incr64_exact `{OverflowChecks} n m :
  incr64 n = Some m → overflow_checks = true → (0 ≤ n < 2 ^ 64)%Z → (m = n + 1 ∧ m < 2 ^ 64)%Z.
Proof.
  unfold incr64, wrap64. intros Hi Hc Hn. rewrite Hc in Hi. simpl in Hi.
  destruct (Z.eqb_spec ((n + 1) mod 2 ^ 64) 0) as [|Hne]; [done|]. injection Hi as <-.
  assert (n + 1 ≠ 2 ^ 64)%Z by (intros E; by rewrite E, Z.mod_same in Hne by lia).
  rewrite Z.mod_small; lia.
Qed.

Lemma pool_step_counted `{OverflowChecks} w w' : step w w' → counted w → counted w'.
Proof.
  intros Hst Hw Hc. specialize (Hw Hc). revert Hw.
  destruct Hst as [p p' fl lv i data Hpop|p p' fl1 fl2 lv i data Hwr|p p' fl1 fl2 lv i data Ha
    |p fl lv data _ _|p fl lv|p fl lv1 lv2 f data Hi|p fl lv1 lv2 f data i Hi
    |p p' fl1 fl2 lv i Hr|p fl1 fl2 lv i|p p' fl1 fl2 lv Ha]; simpl;
    rewrite ?outstanding_phase, ?outstanding_frame; simpl.
  - unfold pop_free in Hpop. destruct (vec_pop _) as [[j k]|]; [|done]. by injection Hpop as _ <-.
  - unfold write_slot in Hwr. destruct (slots p !! i); [|done]. by injection Hwr as <-.
  - unfold count_acquired in Ha. destruct (incr64 _) as [n|] eqn:E; [|done]. injection Ha as <-. simpl.
    intros (H1 & H2 & H3). destruct (incr64_exact _ _ E Hc); [lia|].
    change (?x :: lv) with ([] ++ x :: lv). rewrite outstanding_frame. simpl. lia.
  - done.
  - done.
  - unfold frame_idx. simpl. by rewrite Hi.
  - unfold frame_idx, outstanding. simpl. rewrite Hi. simpl. lia.
  - unfold reset_slot in Hr. destruct (slots p !! i); [|done]. by injection Hr as <-.
  - done.
  - unfold count_released in Ha. destruct (incr64 _) as [n|] eqn:E; [|done]. injection Ha as <-. simpl.
    intros (H1 & H2 & H3). destruct (incr64_exact _ _ E Hc); lia.
Qed.

Lemma layout_ok c n : ok (mkWorld (with_layout c n) [] []).
Proof.
  split; simpl; try done.
  - by rewrite length_replicate.
  - apply Forall_replicate. done.
  - rewrite app_nil_r. set (k := c `max` 1).
    replace (map (λ i, k - 1 - i) (seq 0 k)) with (rev (seq 0 k)); [symmetry; apply Permutation_rev|].
    clear. induction k as [|k IH]; [done|].
    transitivity (k :: rev (seq 0 k)); [by rewrite seq_S, rev_app_distr|]. rewrite IH. simpl.
    apply (f_equal2 cons); [lia|]. rewrite <- seq_shift, map_map. apply map_ext. intros i. lia.
Qed.

Definition reachable `{OverflowChecks} (w : World) : Prop := ∃ c n, rtc step (mkWorld (with_layout c n) [] []) w.

Lemma reachable_ok `{OverflowChecks} w : reachable w → ok w.
Proof.
  intros (c & n & Hst). pose proof (layout_ok c n) as Hok. revert Hok.
  induction Hst as [|w1 w2 w3 Hst1 _ IH]; [done|]. intros Hok. by eapply IH, pool_step_ok.
Qed.

Lemma reachable_counted `{OverflowChecks} w : reachable w → counted w.
Proof.
  intros (c & n & Hst). assert (counted (mkWorld (with_layout c n) [] [])) as Hc by (intros _; simpl; unfold outstanding; simpl; lia).
  revert Hc. induction Hst as [|w1 w2 w3 Hst1 _ IH]; [done|]. intros Hc. by eapply IH, pool_step_counted.
Qed.

(** There is room to count a slot that is out as given back. *)
Lemma released_room `{OverflowChecks} w :
  reachable w → outstanding (flight w) (live w) ≠ 0 → room (released (pool w)).
Proof.
  intros Hw%reachable_counted Hne Hc. destruct (Hw Hc) as (H1 & H2 & H3). unfold wrap64.
  rewrite Z.mod_small; lia.
Qed.

Lemma outstanding_flight w ph : ph ∈ flight w → phase_count ph = 1 → outstanding (flight w) (live w) ≠ 0.
Proof. intros (l1 & l2 & ->)%list_elem_of_split Hp. rewrite outstanding_phase. lia. Qed.

Lemma outstanding_live w f data i :
  (f, data) ∈ live w → slot_idx f = Some i → outstanding (flight w) (live w) ≠ 0.
Proof. intros (l1 & l2 & ->)%list_elem_of_split Hi. rewrite outstanding_frame. unfold frame_idx. simpl. rewrite Hi. simpl. lia. Qed.

(** ** The operations run without interference *)

Section alone.
Context {checks : OverflowChecks}.

Lemma acquire_steps data p p' f fl lv :
  acquire_or_overflow data p = Some (p', f) →
  rtc step (mkWorld p fl lv) (mkWorld p' fl ((f, data) :: lv)).
Proof.
  unfold acquire_or_overflow. destruct data as [|b data]; [intros [= <- <-]; apply rtc_once, s_empty|].
  unfold try_acquire. destruct (pop_free p) as [[i p1]|] eqn:Ep; simpl.
  - destruct (write_slot i (b :: data) p1) as [p2|] eqn:Ew; simpl; [|done].
    destruct (count_acquired p2) as [p3|] eqn:Ec; simpl; [|done]. intros [= <- <-].
    eapply rtc_l; [by apply s_pop|].
    eapply rtc_l; [by apply (s_write p1 p2 [] fl)|]. apply rtc_once. by apply (s_count p2 p3 [] fl).
  - intros [= <- <-]. apply rtc_once. by apply s_overflow.
Qed.

Lemma drop_steps p p' f data fl lv1 lv2 :
  drop_frame f p = Some p' →
  rtc step (mkWorld p fl (lv1 ++ (f, data) :: lv2)) (mkWorld p' fl (lv1 ++ lv2)).
Proof.
  unfold drop_frame. destruct (slot_idx f) as [i|] eqn:Ei; simpl.
  - destruct (reset_slot i p) as [p1|] eqn:Er; simpl; [|done]. intros Hc.
    eapply rtc_l; [by eapply s_drop|]. eapply rtc_l; [by apply (s_reset p p1 [] fl)|].
    eapply rtc_l; [apply (s_push p1 [] fl)|]. apply rtc_once. by apply (s_release (push_free i p1) p' [] fl).
  - intros [= <-]. apply rtc_once. by apply s_drop_none.
Qed.

Lemma rtc_ok w w' : rtc step w w' → ok w → ok w'.
Proof. induction 1; [done|]. intros. by eauto using pool_step_ok. Qed.

Lemma ok_free_lt w i : ok w → i ∈ free (pool w) → i < length (slots (pool w)).
Proof.
  intros Hw Hi. rewrite (ok_slots _ Hw).
  enough (i ∈ seq 0 (capacity (pool w))) as H by (apply elem_of_seq in H; lia).
  rewrite <- (ok_perm _ Hw). apply elem_of_app. by left.
Qed.

Lemma ok_held_lt w i : ok w → i ∈ held (flight w) (live w) → i < length (slots (pool w)).
Proof.
  intros Hw Hi. rewrite (ok_slots _ Hw).
  enough (i ∈ seq 0 (capacity (pool w))) as H by (apply elem_of_seq in H; lia).
  rewrite <- (ok_perm _ Hw). apply elem_of_app. by right.
Qed.

(** The first critical section writes the slot that it popped. *)
Lemma try_acquire_total w data :
  ok w → room (acquired (pool w)) →
  ∃ p' r, try_acquire data (pool w) = Some (p', r) ∧ (r = None ↔ free (pool w) = []).
Proof.
  intros Hw Hroom. unfold try_acquire, pop_free. destruct (vec_pop (free (pool w))) as [[i k]|] eqn:E; simpl.
  - pose proof E as Hk. apply vec_pop_Some in Hk.
    destruct (lookup_lt_is_Some_2 (slots (pool w)) i) as [s Hs].
    { apply (ok_free_lt w); [done|]. rewrite Hk. apply elem_of_app. right. by left. }
    unfold write_slot, count_acquired. simpl. rewrite Hs. simpl. rewrite incr64_room by done. simpl.
    eexists _, _. split; [done|]. split; [done|]. rewrite Hk. by destruct k.
  - apply vec_pop_None in E. eexists _, _. by split.
Qed.

Lemma acquire_total w data :
  ok w → room (acquired (pool w)) → ∃ p' f, acquire_or_overflow data (pool w) = Some (p', f).
Proof.
  intros Hw Hc. unfold acquire_or_overflow. destruct data; [by eexists _, _|].
  destruct (try_acquire_total w (b :: data) Hw Hc) as (p' & [f|] & -> & _); by eexists _, _.
Qed.

(** What an acquisition of a slot does to the pool. *)
Lemma acquire_inv data p p' f :
  acquire_or_overflow data p = Some (p', f) →
  p' = p ∧ slot_idx f = None ∨
  ∃ i k s n, vec_pop (free p) = Some (i, k) ∧ slots p !! i = Some s ∧ f = mkFrame (Some i) None (length data) ∧
    p' = mkPool (<[i := write s data]> (slots p)) k (capacity p) (inline_bytes p) n (released p).
Proof.
  unfold acquire_or_overflow, try_acquire, pop_free. destruct data as [|b data]; [intros [= <- <-]; by left|].
  destruct (vec_pop (free p)) as [[i k]|]; simpl; [|intros [= <- <-]; by left].
  unfold write_slot. simpl. destruct (slots p !! i) as [s|] eqn:Es; simpl; [|done].
  destruct (count_acquired _) as [q|] eqn:Ec; simpl; [|done]. apply count_acquired_Some in Ec as ->.
  intros [= <- <-]. right. by eexists _, _, s, _.
Qed.

(** A frame that is taken can be dropped, and the pool is as before. *)
Lemma acquire_drop_ok w data p' f :
  reachable w → acquire_or_overflow data (pool w) = Some (p', f) →
  reachable (mkWorld p' (flight w) ((f, data) :: live w))
  ∧ ∃ p'', drop_frame f p' = Some p'' ∧ free p'' = free (pool w)
      ∧ reachable (mkWorld p'' (flight w) (live w)).
Proof.
  intros Hr Ha. pose proof (acquire_steps data (pool w) p' f (flight w) (live w) Ha) as Hst.
  assert (reachable (mkWorld p' (flight w) ((f, data) :: live w))) as Hr'.
  { destruct Hr as (c & n & Hs). exists c, n. etrans; [exact Hs|]. by destruct w. }
  split; [done|].
  assert (∃ p'', drop_frame f p' = Some p'' ∧ free p'' = free (pool w)) as (p'' & Hd & Hfr).
  { unfold drop_frame. apply acquire_inv in Ha as [[-> ->]|(i & k & s & n & E & Hs & -> & ->)]; [by eexists|].
    assert (room (released (pool w))) as Hroom.
    { apply (released_room _ Hr'). eapply outstanding_live; [by left|done]. }
    apply vec_pop_Some in E. pose proof (lookup_lt_Some _ _ _ Hs) as Hlt.
    unfold reset_slot, count_released. simpl. rewrite list_lookup_insert_eq by done. simpl.
    rewrite incr64_room by done. eexists. split; [done|]. simpl. by rewrite E. }
  exists p''. split_and!; [done|done|].
  destruct Hr' as (c & n & Hs). exists c, n. etrans; [exact Hs|].
  exact (drop_steps p' p'' f data (flight w) [] (live w) Hd).
Qed.

End alone.

(** ** What the pool guarantees *)

(** C10. However the threads interleave, a slot is either free or held by one
    thread or one live frame, never by two, and a live frame reads back the
    bytes it was made from. *)
Theorem frames_isolated `{OverflowChecks} w :
  reachable w →
  NoDup (free (pool w) ++ held (flight w) (live w))
  ∧ ∀ f data, (f, data) ∈ live w → to_bytes f (pool w) = Some data ∧ len f = length data.
Proof.
  intros Hw%reachable_ok. split.
  - rewrite (ok_perm _ Hw). apply NoDup_seq.
  - intros f data Hin. pose proof (ok_live _ Hw) as Hl. rewrite Forall_forall in Hl.
    exact (Hl _ Hin).
Qed.

(** The build that checks for overflow. *)
Definition debug_build : OverflowChecks := true.
#[local] Existing Instance debug_build.

(** Two frames made and one dropped while another thread is half way through
    taking the freed slot. *)
Definition demo_pool : PoolInner := with_layout 2 4.
Definition demo_frame (i : nat) (data : bytes) : PooledFrame * bytes :=
  (mkFrame (Some i) None (length data), data).
Definition demo_world : option World :=
  r ← acquire_or_overflow [x61; x62] demo_pool;
  r ← acquire_or_overflow [x63] r.1;
  q ← drop_frame (mkFrame (Some 0) None 2) r.1;
  r ← pop_free q;
  Some (mkWorld r.2 [Writing r.1 [x64]] [demo_frame 1 [x63]]).

Lemma demo_pool_reachable w : demo_world = Some w → reachable w.
Proof.
  intros H. vm_compute in H. injection H as <-. exists 2, 4.
  etrans; [exact (acquire_steps [x61; x62] demo_pool _ _ [] [] eq_refl)|].
  etrans; [eapply (acquire_steps [x63]); vm_compute; reflexivity|].
  etrans; [eapply (drop_steps _ _ (mkFrame (Some 0) None 2) _ [] [demo_frame 1 [x63]] []);
    vm_compute; reflexivity|].
  apply rtc_once. eapply s_pop. vm_compute. reflexivity.
Qed.

Lemma frames_isolated_witness :
  ∃ w, demo_world = Some w ∧ flight w ≠ []
  ∧ NoDup (free (pool w) ++ held (flight w) (live w))
  ∧ ∀ f data, (f, data) ∈ live w → to_bytes f (pool w) = Some data ∧ len f = length data.
Proof.
  eexists. split; [vm_compute; reflexivity|]. split; [discriminate|].
  apply frames_isolated, demo_pool_reachable. vm_compute. reflexivity.
Defined.



(** Slots do not leak: when no operation is under way, the pool counts as
    used exactly the slots of the live frames, the counters differ by as many,
    and with no frame left every slot is free. *)
Theorem no_slot_leaks `{OverflowChecks} w :
  reachable w → flight w = [] →
  used_count (pool w) = length (flat_map frame_idx (live w))
  ∧ free_count (pool w) ≤ capacity (pool w)
  ∧ wrap64 (acquired (pool w) - released (pool w)) = wrap64 (Z.of_nat (used_count (pool w)))
  ∧ (live w = [] → free (pool w) ≡ₚ seq 0 (capacity (pool w))).
Proof.
  intros Hw%reachable_ok Hf. pose proof (ok_perm _ Hw) as Hp. rewrite Hf in Hp. simpl in Hp.
  pose proof (Permutation_length Hp) as Hlen. rewrite length_app, length_seq in Hlen.
  assert (used_count (pool w) = length (flat_map frame_idx (live w))) as Hu.
  { unfold used_count, free_count. unfold held in Hlen. simpl in Hlen. lia. }
  split_and!; [done|unfold free_count; lia| |].
  - rewrite (ok_count _ Hw), Hf. unfold outstanding. simpl. by rewrite Hu.
  - intros Hl. rewrite Hl in Hp. unfold held in Hp. simpl in Hp. by rewrite app_nil_r in Hp.
Qed.

Lemma no_slot_leaks_witness :
  let w := mkWorld demo_pool [] [] in
  used_count (pool w) = length (flat_map frame_idx (live w))
  ∧ free_count (pool w) ≤ capacity (pool w)
  ∧ wrap64 (acquired (pool w) - released (pool w)) = wrap64 (Z.of_nat (used_count (pool w)))
  ∧ (live w = [] → free (pool w) ≡ₚ seq 0 (capacity (pool w))).
Proof. apply no_slot_leaks; [|reflexivity]. exists 2, 4. apply rtc_refl. Defined.

(** C33. Acquiring and dropping refine the interleaved steps: run alone they
    are one thread's steps in order, and dropping a frame right after taking it
    gives the slot back to the top of the free list, next to be reused, with
    the payload kept in the slot, spilled exactly when it is too long. *)
Theorem acquire_then_drop `{OverflowChecks} w data p' f :
  reachable w → acquire_or_overflow data (pool w) = Some (p', f) →
  reachable (mkWorld p' (flight w) ((f, data) :: live w))
  ∧ to_bytes f p' = Some data
  ∧ (is_pooled f = true → frame_spilled f p' = Some (inline_bytes p' <? length data))
  ∧ ∃ p'', drop_frame f p' = Some p'' ∧ free p'' = free (pool w)
      ∧ reachable (mkWorld p'' (flight w) (live w)).
Proof.
  intros Hr Ha. destruct (acquire_drop_ok w data p' f Hr Ha) as [Hr' Hd].
  split_and!; [done| | |exact Hd].
  - pose proof (ok_live _ (reachable_ok _ Hr')) as Hlv. simpl in Hlv.
    apply Forall_cons in Hlv as [[Hb _] _]. exact Hb.
  - pose proof (ok_caps _ (reachable_ok _ Hr)) as Hc. rewrite Forall_lookup in Hc.
    unfold is_pooled, frame_spilled. apply acquire_inv in Ha as [[_ ->]|(i & k & s & n & E & Hs & -> & ->)]; [done|].
    intros _. simpl. rewrite list_lookup_insert_eq by (by eapply lookup_lt_Some). simpl.
    by rewrite <- (Hc i s Hs), spilled_write.
Qed.

Lemma acquire_then_drop_witness :
  ∃ p' f, acquire_or_overflow [x61; x62; x63; x64; x65] demo_pool = Some (p', f)
  ∧ frame_spilled f p' = Some true
  ∧ ∃ p'', drop_frame f p' = Some p'' ∧ free p'' = free demo_pool ∧ reachable (mkWorld p'' [] []).
Proof.
  assert (reachable (mkWorld demo_pool [] [])) as Hr by (exists 2, 4; apply rtc_refl).
  eexists _, _. split; [vm_compute; reflexivity|]. split; [vm_compute; reflexivity|].
  refine (proj2 (proj2 (proj2 (acquire_then_drop (mkWorld demo_pool [] []) [x61; x62; x63; x64; x65] _ _ Hr _)))).
  vm_compute. reflexivity.
Defined.
