(* ===== verification/Mailbox.v ===== *)
(** * Agent mailboxes

    [crates/mty-runtime/src/mailbox.rs].  A mailbox is a bounded channel and a
    slab pool.  The channel is tokio's, third-party code: [Mpsc] is the
    interface the source uses of it and [MpscOk] what its documentation says
    of a bounded channel; [ListChannel] is one that satisfies it. *)

From Stdlib Require Import Init.Byte.
From stdpp Require Import base list numbers sets relations.
From S2P Require Import Prelude SlabPool.

(** ** The channel *)

Inductive TrySendError := Full | Closed.
Inductive TryRecvError := Empty_ | Disconnected.

(** [ch_pending_send] is one poll of [Sender::send]: [None] while it waits for
    capacity.  A channel handle stands for both ends. *)
Record Mpsc (F : Type) := {
  chan : Type;
  channel : nat → chan;
  ch_try_send : F → chan → chan * option TrySendError;
  ch_try_recv : chan → chan * (F + TryRecvError);
  ch_free : chan → nat
}.
Arguments chan {F}.
Arguments channel {F}.
Arguments ch_try_send {F}.
Arguments ch_try_recv {F}.
Arguments ch_free {F}.

(** tokio's documentation: messages are received in the order they were sent;
    a bounded channel holds at most its capacity; sending fails with [Full]
    when it is full and [Closed] when the receiver is gone. *)
Class MpscOk {F} (M : Mpsc F) := {
  queued : chan M → list F;
  closed : chan M → bool;
  bound : chan M → nat;
  channel_new n : queued (channel M n) = [] ∧ closed (channel M n) = false ∧ bound (channel M n) = n;
  try_send_spec f c :
    match ch_try_send M f c with
    | (c', None) => closed c = false ∧ length (queued c) < bound c ∧ queued c' = queued c ++ [f]
                    ∧ closed c' = false ∧ bound c' = bound c
    | (c', Some Full) => c' = c ∧ closed c = false ∧ bound c ≤ length (queued c)
    | (c', Some Closed) => c' = c ∧ closed c = true
    end;
  try_recv_spec c :
    match ch_try_recv M c with
    | (c', inl f) => queued c = f :: queued c' ∧ closed c' = closed c ∧ bound c' = bound c
    | (c', inr _) => c' = c ∧ queued c = []
    end;
  ch_free_spec c : ch_free M c = bound c - length (queued c)
}.

(** ** Messages and mailboxes *)

Inductive SendPolicy := Block | Drop | Fail_.
Inductive RuntimeError := MailboxFull | AgentNotFound.

Section mailbox.
Context {checks : OverflowChecks}.
(** [mty_ir]'s values, the reply channels and the instants of deadlines. *)
Context {Value Reply Instant : Type}.

Inductive SmallPayload := PEmpty | PInline (vs : list Value).

Definition inline (values : list Value) : SmallPayload :=
  match values with [] => PEmpty | _ => PInline values end.

Definition values (p : SmallPayload) : list Value :=
  match p with PEmpty => [] | PInline v => v end.

(** [saturating_mul] on [usize]. *)
Definition approx_bytes (p : SmallPayload) : Z :=
  match p with PEmpty => 0 | PInline v => Z.min (Z.of_nat (length v) * 8) (2 ^ 64 - 1) end%Z.

(** [proto_msg] by its bytes. *)
Record MessageFrame := mkMessage {
  proto_msg : bytes; payload : SmallPayload; reply : option Reply; deadline : option Instant;
  seq_ : Z; slab : option PooledFrame
}.

Definition fire_and_forget (msg : bytes) (p : SmallPayload) : MessageFrame :=
  mkMessage msg p None None 0 None.

Definition ask (msg : bytes) (p : SmallPayload) (tx : Reply) (d : option Instant) : MessageFrame :=
  mkMessage msg p (Some tx) d 0 None.

Context (M : Mpsc MessageFrame).

Record Mailbox := mkMailbox {
  tx : chan M; rx_taken : bool; mb_capacity : nat; policy : SendPolicy; mb_slab : PoolInner
}.

Definition with_pool (capacity : nat) (policy : SendPolicy) (slab : PoolInner) : Mailbox :=
  let cap := capacity `max` 1 in mkMailbox (channel M cap) false cap policy slab.

Definition new (capacity : nat) (policy : SendPolicy) : Mailbox :=
  let cap := capacity `max` 1 in mkMailbox (channel M cap) false cap policy (SlabPool.new cap).

(** [hint as u16], little endian *)
Definition byte_of_Z (z : Z) : byte := default x00 (Byte.of_N (Z.to_N (z mod 256))).
Definition le_bytes_u16 (z : Z) : bytes :=
  let z := (z mod 2 ^ 16)%Z in [byte_of_Z z; byte_of_Z (z / 256)].

(** Writing [data] at [at_] of a buffer of [n] bytes; a slice past the end
    panics. *)
Definition copy_into (n at_ : nat) (buf data : bytes) : option bytes :=
  if at_ + length data <=? n then Some (take at_ buf ++ data ++ drop (at_ + length data) buf) else None.

(** The slot descriptor: as much of the name as fits, then the size hint. *)
Definition descriptor (inline_bytes : nat) (frame : MessageFrame) : option bytes :=
  let cap := inline_bytes `min` DEFAULT_INLINE_BYTES in
  let name := proto_msg frame in
  let take_ := length name `min` (cap - 2) in
  let stack_buf := replicate DEFAULT_INLINE_BYTES x00 in
  stack_buf ← copy_into DEFAULT_INLINE_BYTES 0 stack_buf (take take_ name);
  let hint := le_bytes_u16 (approx_bytes (payload frame)) in
  stack_buf ← copy_into DEFAULT_INLINE_BYTES take_ stack_buf hint;
  if inline_bytes <=? DEFAULT_INLINE_BYTES then slice_to stack_buf (take_ + 2)
  else Some (take take_ name ++ hint).

(** [frame._slab = Some(handle)], dropping what the field held. *)
Definition set_slab (frame : MessageFrame) (handle : PooledFrame) (p : PoolInner) :
    option (PoolInner * MessageFrame) :=
  p ← match slab frame with Some old => drop_frame old p | None => Some p end;
  Some (p, mkMessage (proto_msg frame) (payload frame) (reply frame) (deadline frame) (seq_ frame)
             (Some handle)).

Definition admit_ (mb : Mailbox) (frame : MessageFrame) : option (PoolInner * MessageFrame) :=
  match payload frame with
  | PEmpty => set_slab frame (acquire_empty (mb_slab mb)) (mb_slab mb)
  | PInline _ =>
      d ← descriptor (SlabPool.inline_bytes (mb_slab mb)) frame;
      r ← acquire_or_overflow d (mb_slab mb);
      set_slab frame r.2 r.1
  end.

(** Dropping a message gives its slot back. *)
Definition drop_message (frame : MessageFrame) (p : PoolInner) : option PoolInner :=
  match slab frame with Some f => drop_frame f p | None => Some p end.

Definition set_tx (c : chan M) (p : PoolInner) (mb : Mailbox) : Mailbox :=
  mkMailbox c (rx_taken mb) (mb_capacity mb) (policy mb) p.

(** [self.tx.try_send(frame)], the frame dropped when it comes back. *)
Definition tx_try_send (mb : Mailbox) (p : PoolInner) (frame : MessageFrame) :
    option (Mailbox * option TrySendError) :=
  match ch_try_send M frame (tx mb) with
  | (c, None) => Some (set_tx c p mb, None)
  | (c, Some e) => p ← drop_message frame p; Some (set_tx c p mb, Some e)
  end.

Definition send_error (e : TrySendError) : RuntimeError :=
  match e with Full => MailboxFull | Closed => AgentNotFound end.

(** The inner option is the source's error. *)
Definition try_send (mb : Mailbox) (frame : MessageFrame) : option (Mailbox * option RuntimeError) :=
  r ← admit_ mb frame;
  r ← tx_try_send mb r.1 r.2;
  Some (r.1, option_map send_error r.2).

(** How a [send] goes on: it is done, or it waits for capacity holding the
    admitted frame. *)
Inductive Sending := Sent (e : option RuntimeError) | Waiting (frame : MessageFrame).

(** One poll of [self.tx.send(frame)]. *)
Definition poll_send (mb : Mailbox) (p : PoolInner) (frame : MessageFrame) :
    option (Mailbox * Sending) :=
  match ch_try_send M frame (tx mb) with
  | (c, None) => Some (set_tx c p mb, Sent None)
  | (c, Some Full) => Some (set_tx c p mb, Waiting frame)
  | (c, Some Closed) => p ← drop_message frame p; Some (set_tx c p mb, Sent (Some AgentNotFound))
  end.

Definition send (mb : Mailbox) (frame : MessageFrame) : option (Mailbox * Sending) :=
  r ← admit_ mb frame;
  match policy mb with
  | Block => poll_send mb r.1 r.2
  | Drop => r ← tx_try_send mb r.1 r.2; Some (r.1, Sent None)
  | Fail_ => r ← tx_try_send mb r.1 r.2; Some (r.1, Sent (option_map send_error r.2))
  end.

Definition take_receiver (mb : Mailbox) : Mailbox * bool :=
  (mkMailbox (tx mb) true (mb_capacity mb) (policy mb) (mb_slab mb), negb (rx_taken mb)).

(** [while n < max { match rx.try_recv() { .. } }] *)
Fixpoint try_recv_many (rx : chan M) (out : list MessageFrame) (max : nat) :
    chan M * list MessageFrame * nat :=
  match max with
  | 0 => (rx, out, 0)
  | S max =>
      match ch_try_recv M rx with
      | (rx, inl frame) => let '(rx, out, n) := try_recv_many rx (out ++ [frame]) max in (rx, out, S n)
      | (rx, inr _) => (rx, out, 0)
      end
  end.

Record MailboxStats := mkStats {
  st_capacity : nat; channel_used : nat; slab_used : nat; slab_capacity : nat
}.

Definition introspect (mb : Mailbox) : MailboxStats :=
  mkStats (mb_capacity mb) (mb_capacity mb - ch_free M (tx mb)) (used_count (mb_slab mb))
    (SlabPool.capacity (mb_slab mb)).

(** ** Admission *)

Lemma copy_into_ok n at_ (buf data : bytes) :
  length buf = n → at_ + length data ≤ n →
  copy_into n at_ buf data = Some (take at_ buf ++ data ++ drop (at_ + length data) buf).
Proof. intros _ H. unfold copy_into. by rewrite (proj2 (Nat.leb_le _ _) H). Qed.

Definition name_part (inline_bytes : nat) (frame : MessageFrame) : bytes :=
  take (inline_bytes `min` DEFAULT_INLINE_BYTES - 2) (proto_msg frame).

Lemma descriptor_eq n frame :
  descriptor n frame = Some (name_part n frame ++ le_bytes_u16 (approx_bytes (payload frame))).
Proof.
  unfold descriptor, name_part. set (cap := n `min` DEFAULT_INLINE_BYTES).
  set (name := proto_msg frame). set (hint := le_bytes_u16 (approx_bytes (payload frame))).
  assert (cap ≤ 64) as Hcap by (unfold cap, DEFAULT_INLINE_BYTES; lia).
  set (t := length name `min` (cap - 2)). assert (t ≤ 62) as Ht by lia.
  assert (length (take t name) = t) as Hlen by (rewrite length_take; lia).
  assert (take t name = take (cap - 2) name) as Htake.
  { unfold t. destruct (Nat.le_ge_cases (length name) (cap - 2)).
    - rewrite Nat.min_l by done. by rewrite firstn_all, take_ge.
    - by rewrite Nat.min_r. }
  rewrite copy_into_ok by (rewrite ?length_replicate, ?Hlen; unfold DEFAULT_INLINE_BYTES; lia).
  cbn [mbind option_bind]. rewrite Hlen. simpl take. cbn [app].
  rewrite copy_into_ok; [| |change (length hint) with 2; unfold DEFAULT_INLINE_BYTES; lia].
  2: { rewrite length_app, Hlen, length_drop, length_replicate. unfold DEFAULT_INLINE_BYTES. lia. }
  cbn [mbind option_bind]. rewrite take_app_length' by done.
  destruct (n <=? DEFAULT_INLINE_BYTES); [|by rewrite Htake].
  unfold slice_to. rewrite app_assoc, length_app, length_app, Hlen.
  change (length hint) with 2. rewrite (proj2 (Nat.leb_le _ _)) by lia.
  rewrite take_app_length' by (rewrite length_app, Hlen; done). by rewrite Htake.
Qed.

(** Two messages that differ in their slot only. *)
Definition same_message (f g : MessageFrame) : Prop :=
  proto_msg f = proto_msg g ∧ payload f = payload g ∧ reply f = reply g
  ∧ deadline f = deadline g ∧ seq_ f = seq_ g.

(** What admission leaves: the message with a handle [h] for the bytes [d]. *)
Definition admitted (w : World) (frame : MessageFrame) (p : PoolInner) (f : MessageFrame)
    (h : PooledFrame) (d : bytes) : Prop :=
  same_message frame f ∧ slab f = Some h
  ∧ reachable (mkWorld p (flight w) ((h, d) :: live w))
  ∧ ∃ p', drop_message f p = Some p' ∧ free p' = free (pool w)
      ∧ reachable (mkWorld p' (flight w) (live w)).

Lemma admit_ok mb frame w :
  reachable w → pool w = mb_slab mb → room (acquired (mb_slab mb)) → slab frame = None →
  ∃ p f h d, admit_ mb frame = Some (p, f) ∧ admitted w frame p f h d.
Proof.
  intros Hr Hp Hroom Hs. rewrite <- Hp in Hroom. unfold admit_, set_slab. rewrite Hs.
  assert (∀ d p h, acquire_or_overflow d (pool w) = Some (p, h) →
    ∃ p' f h' d', Some (p, mkMessage (proto_msg frame) (payload frame) (reply frame)
      (deadline frame) (seq_ frame) (Some h)) = Some (p', f) ∧ admitted w frame p' f h' d') as Hgo.
  { intros d p h Ha. destruct (acquire_drop_ok w d p h Hr Ha) as [Hr' Hd].
    eexists p, _, h, d. split; [reflexivity|]. split_and!; done. }
  destruct (payload frame) as [|vs] eqn:Ep.
  - apply (Hgo []). by rewrite Hp.
  - rewrite descriptor_eq. cbn [mbind option_bind]. rewrite <- Hp.
    set (d := name_part _ _ ++ _).
    destruct (acquire_total w d (reachable_ok _ Hr) Hroom) as (p & h & Ha). rewrite Ha.
    cbn [mbind option_bind fst snd]. by apply (Hgo d).
Qed.

(** ** Sending *)

Context `{!MpscOk M}.

(** What [send] does, by the state of the channel and the policy. *)
Inductive send_result (mb : Mailbox) (w : World) (frame : MessageFrame) : Mailbox → Sending → Prop :=
  | sr_queued c p f h d : closed (tx mb) = false → length (queued (tx mb)) < bound (tx mb) →
      queued c = queued (tx mb) ++ [f] → closed c = false → bound c = bound (tx mb) →
      admitted w frame p f h d → send_result mb w frame (set_tx c p mb) (Sent None)
  | sr_waiting p f h d : closed (tx mb) = false → bound (tx mb) ≤ length (queued (tx mb)) →
      policy mb = Block → admitted w frame p f h d →
      send_result mb w frame (set_tx (tx mb) p mb) (Waiting f)
  | sr_full p : closed (tx mb) = false → bound (tx mb) ≤ length (queued (tx mb)) →
      policy mb ≠ Block → free p = free (mb_slab mb) → reachable (mkWorld p (flight w) (live w)) →
      send_result mb w frame (set_tx (tx mb) p mb)
        (Sent (match policy mb with Drop => None | _ => Some MailboxFull end))
  | sr_closed p : closed (tx mb) = true → free p = free (mb_slab mb) →
      reachable (mkWorld p (flight w) (live w)) →
      send_result mb w frame (set_tx (tx mb) p mb)
        (Sent (match policy mb with Drop => None | _ => Some AgentNotFound end)).

Lemma send_cases mb frame w :
  reachable w → pool w = mb_slab mb → room (acquired (mb_slab mb)) → slab frame = None →
  ∃ mb' out, send mb frame = Some (mb', out) ∧ send_result mb w frame mb' out.
Proof.
  intros Hr Hp Hroom Hs. destruct (admit_ok mb frame w Hr Hp Hroom Hs) as (p & f & h & d & Ha & Had).
  pose proof Had as (Hsame & Hf & Hr1 & p' & Hd & Hfree & Hr2).
  unfold send. rewrite Ha. cbn [mbind option_bind fst snd].
  unfold poll_send, tx_try_send. pose proof (try_send_spec f (tx mb)) as Hch.
  destruct (ch_try_send M f (tx mb)) as [c [[|]|]].
  - destruct Hch as (-> & Hcl & Hb). rewrite Hd. destruct (policy mb) eqn:Epol;
      (eexists _, _; split; [reflexivity|]).
    + by eapply sr_waiting.
    + pose proof (sr_full mb w frame p' Hcl Hb) as Hx. rewrite Epol in Hx. apply Hx; congruence.
    + pose proof (sr_full mb w frame p' Hcl Hb) as Hx. rewrite Epol in Hx. apply Hx; congruence.
  - destruct Hch as (-> & Hcl). rewrite Hd.
    pose proof (sr_closed mb w frame p' Hcl) as Hx.
    destruct (policy mb) eqn:Epol; (eexists _, _; split; [reflexivity|]); apply Hx; congruence.
  - destruct Hch as (Hcl & Hb & Hq & Hcl' & Hb').
    destruct (policy mb); (eexists _, _; split; [reflexivity|]; by eapply sr_queued).
Qed.

(** The answer of [send]: [None] while it waits. *)
Definition send_spec (pol : SendPolicy) (is_closed is_full : bool) : option (option RuntimeError) :=
  if is_closed then Some (match pol with Drop => None | _ => Some AgentNotFound end)
  else if is_full then
    match pol with Block => None | Drop => Some None | Fail_ => Some (Some MailboxFull) end
  else Some None.

Definition answer (out : Sending) : option (option RuntimeError) :=
  match out with Sent e => Some e | Waiting _ => None end.

(** What every send does: it never panics, and its answer is the channel's by
    the policy.  [send_by_policy] and [exhausted_pool_unseen] are its two cases,
    a pool with a slot to give and an exhausted one. *)
Definition send_outcome (mb : Mailbox) (frame : MessageFrame) : Prop :=
  let is_full := bound (tx mb) <=? length (queued (tx mb)) in
  ∃ mb' out, send mb frame = Some (mb', out)
    ∧ answer out = send_spec (policy mb) (closed (tx mb)) is_full
    ∧ (if closed (tx mb) || is_full
       then queued (tx mb') = queued (tx mb)
            ∧ (answer out ≠ None → free (mb_slab mb') = free (mb_slab mb))
       else length (queued (tx mb')) ≤ bound (tx mb')
            ∧ ∃ f, same_message frame f ∧ queued (tx mb') = queued (tx mb) ++ [f]).

Lemma send_outcome_ok mb frame w :
  reachable w → pool w = mb_slab mb → room (acquired (mb_slab mb)) → slab frame = None →
  send_outcome mb frame.
Proof.
  intros Hr Hp Hroom Hs. unfold send_outcome. set (is_full := _ <=? _).
  destruct (send_cases mb frame w Hr Hp Hroom Hs) as (mb' & out & He & Hres).
  exists mb', out. split; [done|]. unfold is_full. destruct Hres as
    [c p f h d Hcl Hb Hq _ Hbd Had|p f h d Hcl Hb Hpol _|p Hcl Hb Hpol Hfree _|p Hcl Hfree _];
    rewrite Hcl; cbn [orb].
  - rewrite (proj2 (Nat.leb_gt _ _) Hb). split; [done|]. simpl. split.
    + rewrite Hq, Hbd, length_app. simpl. lia.
    + exists f. split; [apply Had|done].
  - rewrite (proj2 (Nat.leb_le _ _) Hb). by rewrite Hpol.
  - rewrite (proj2 (Nat.leb_le _ _) Hb). split; [|done]. simpl. by destruct (policy mb).
  - done.
Qed.

(** C36. While the pool has a slot to give, a send never panics and answers as
    the policy says of the channel: on a full mailbox [Block] waits, [Drop]
    says [Ok] and [Fail] says [MailboxFull]; a closed one is [AgentNotFound]
    except under [Drop].  The message is queued last, exactly when there is
    room, within the bound; otherwise the queue is as it was and, unless the
    send waits, so is the pool's free list: the slot taken for a message that
    is not queued is given back.  (In a build that checks for overflow, the
    pool's count of acquisitions is not at its maximum.) *)
Theorem send_by_policy mb frame w :
  reachable w → pool w = mb_slab mb → room (acquired (mb_slab mb)) → slab frame = None →
  free (mb_slab mb) ≠ [] →
  let is_full := bound (tx mb) <=? length (queued (tx mb)) in
  ∃ mb' out, send mb frame = Some (mb', out)
    ∧ answer out = send_spec (policy mb) (closed (tx mb)) is_full
    ∧ (if closed (tx mb) || is_full
       then queued (tx mb') = queued (tx mb)
            ∧ (answer out ≠ None → free (mb_slab mb') = free (mb_slab mb))
       else length (queued (tx mb')) ≤ bound (tx mb')
            ∧ ∃ f, same_message frame f ∧ queued (tx mb') = queued (tx mb) ++ [f]).
Proof. intros Hr Hp Hroom Hs _. exact (send_outcome_ok mb frame w Hr Hp Hroom Hs). Qed.

(** An exhausted pool does not make a mailbox full, as the module's header says
    it does: with no slot free and room in the channel the send succeeds under
    every policy, [Block] without waiting, [Drop] without discarding, [Fail]
    without [MailboxFull]. *)
Theorem exhausted_pool_unseen mb frame w :
  reachable w → pool w = mb_slab mb → room (acquired (mb_slab mb)) → slab frame = None →
  free (mb_slab mb) = [] → closed (tx mb) = false → length (queued (tx mb)) < bound (tx mb) →
  ∃ mb' f, send mb frame = Some (mb', Sent None)
    ∧ same_message frame f ∧ queued (tx mb') = queued (tx mb) ++ [f].
Proof.
  intros Hr Hp Hroom Hs _ Hcl Hb.
  destruct (send_outcome_ok mb frame w Hr Hp Hroom Hs) as (mb' & out & He & Ha & Hq).
  rewrite Hcl, (proj2 (Nat.leb_gt _ _) Hb) in Ha, Hq. cbn [orb] in Hq.
  destruct Hq as (_ & f & Hf & Hq). exists mb', f. split; [|done].
  rewrite He. unfold answer, send_spec in Ha. destruct out as [e|]; [|done]. by injection Ha as ->.
Qed.

(** [try_recv_many] takes the oldest messages, at most [max] of them, in
    the order they were sent, appends them to the buffer, counts them, and
    leaves the rest. *)
Theorem try_recv_many_fifo c out max :
  ∃ c', try_recv_many c out max = (c', out ++ take max (queued c), max `min` length (queued c))
    ∧ queued c' = drop max (queued c).
Proof.
  revert c out. induction max as [|max IH]; intros c out.
  - exists c. simpl. by rewrite app_nil_r.
  - simpl. pose proof (try_recv_spec c) as Hch. destruct (ch_try_recv M c) as [c1 [f|e]].
    + destruct Hch as (Hq & _). destruct (IH c1 (out ++ [f])) as (c2 & -> & Hq2).
      exists c2. rewrite Hq. simpl. rewrite <- app_assoc. done.
    + destruct Hch as (-> & Hq). exists c. rewrite Hq. simpl. by rewrite app_nil_r.
Qed.

(** The descriptor is built without a slice out of range for every
    layout and message: the name cut to leave room, then the two bytes of the
    hint; it fits the default stack buffer and, in slots of two bytes or more,
    never spills. *)
Theorem descriptor_fits n frame :
  ∃ d, descriptor n frame = Some d
    ∧ d = take (n `min` DEFAULT_INLINE_BYTES - 2) (proto_msg frame)
            ++ le_bytes_u16 (approx_bytes (payload frame))
    ∧ length d ≤ DEFAULT_INLINE_BYTES ∧ (2 ≤ n → length d ≤ n).
Proof.
  eexists. split; [apply descriptor_eq|]. split; [reflexivity|].
  rewrite length_app. unfold name_part. rewrite length_take. unfold DEFAULT_INLINE_BYTES.
  change (length (le_bytes_u16 _)) with 2. lia.
Qed.

End mailbox.

Arguments tx {Value Reply Instant M}.
Arguments policy {Value Reply Instant M}.
Arguments mb_slab {Value Reply Instant M}.
Arguments send {checks Value Reply Instant M}.
Arguments answer {Value Reply Instant}.

(** ** A channel that satisfies the interface *)

Definition list_channel (F : Type) : Mpsc F := {|
  chan := list F * bool * nat;
  channel n := ([], false, n);
  ch_try_send f c :=
    if c.1.2 then (c, Some Closed)
    else if length c.1.1 <? c.2 then ((c.1.1 ++ [f], c.1.2, c.2), None) else (c, Some Full);
  ch_try_recv c :=
    match c.1.1 with
    | [] => (c, inr (if c.1.2 then Disconnected else Empty_))
    | f :: q => ((q, c.1.2, c.2), inl f)
    end;
  ch_free c := c.2 - length c.1.1
|}.

#[export] Instance list_channel_ok F : MpscOk (list_channel F).
Proof.
  refine {| queued := λ c : chan (list_channel F), c.1.1; closed := λ c : chan (list_channel F), c.1.2;
            bound := λ c : chan (list_channel F), c.2 |}.
  - done.
  - intros f [[q cl] n]. simpl. destruct cl; [done|].
    destruct (Nat.ltb_spec (length q) n); by split_and!.
  - intros [[[|f q] cl] n]; by simpl.
  - done.
Defined.

#[local] Existing Instance debug_build.

Abbreviation demo_message := (@MessageFrame nat unit nat).
Definition ping (n : nat) : demo_message := fire_and_forget [x70; x69] (inline [n]).

(** A mailbox of one message, already full, over a pool of [n] slots. *)
Definition full_mailbox (n : nat) (pol : SendPolicy) : option (Mailbox (list_channel demo_message)) :=
  fst <$> send (with_pool (list_channel demo_message) 1 pol (SlabPool.new n)) (ping 0).

Lemma full_reachable n pol mb :
  n = 1 ∨ n = 2 → full_mailbox n pol = Some mb → ∃ w, reachable w ∧ pool w = mb_slab mb.
Proof.
  intros Hn H. pose proof (acquire_drop_ok (mkWorld (SlabPool.new n) [] []) [x70; x69; x08; x00]) as Hacq.
  destruct (acquire_or_overflow [x70; x69; x08; x00] (SlabPool.new n)) as [[p f]|] eqn:E;
    [|by destruct Hn as [-> | ->]].
  destruct (Hacq p f) as [Hr _]; [exists n, 64; apply rtc_refl|done|].
  eexists. split; [exact Hr|]. destruct Hn as [-> | ->];
    vm_compute in E; injection E as <- <-; destruct pol; vm_compute in H; injection H as <-; reflexivity.
Qed.

Lemma send_by_policy_witness :
  ∃ mb, full_mailbox 2 Fail_ = Some mb ∧
  let is_full := bound (tx mb) <=? length (queued (tx mb)) in
  ∃ mb' out, send mb (ping 1) = Some (mb', out)
    ∧ answer out = send_spec (policy mb) (closed (tx mb)) is_full
    ∧ (if closed (tx mb) || is_full
       then queued (tx mb') = queued (tx mb)
            ∧ (answer out ≠ None → free (mb_slab mb') = free (mb_slab mb))
       else length (queued (tx mb')) ≤ bound (tx mb')
            ∧ ∃ f, same_message (ping 1) f ∧ queued (tx mb') = queued (tx mb) ++ [f]).
Proof.
  destruct (full_mailbox 2 Fail_) as [mb|] eqn:E; [|vm_compute in E; discriminate].
  exists mb. split; [reflexivity|].
  destruct (full_reachable 2 Fail_ mb (or_intror eq_refl) E) as (w & Hr & Hp).
  apply (send_by_policy (list_channel demo_message) mb (ping 1) w Hr Hp); vm_compute in E; injection E as <-;
    [intros _; vm_compute; discriminate|reflexivity|discriminate].
Defined.

Definition demo_channel : chan (list_channel demo_message) := ([ping 1; ping 2; ping 3], false, 4).

Lemma try_recv_many_fifo_witness :
  ∃ c' : chan (list_channel demo_message),
    try_recv_many _ demo_channel [ping 0] 2 = (c', [ping 0; ping 1; ping 2], 2) ∧ queued c' = [ping 3].
Proof. exact (try_recv_many_fifo (list_channel demo_message) demo_channel [ping 0] 2). Defined.

(** A pool of one slot under a channel of two places: the second message finds
    no slot and is queued at once, under each policy. *)
Example exhausted_pool_queues pol :
  let M := list_channel demo_message in
  (r ← send (with_pool M 2 pol (SlabPool.new 1)) (ping 0);
   s ← send r.1 (ping 1);
   Some (length (free (mb_slab r.1)), length (queued (tx s.1)), s.2)) = Some (0, 2, Sent None).
Proof. by destruct pol; vm_compute. Qed.
