(* ===== verification/Supervisor.v ===== *)
(** * Supervisors: restart limits and back-off

    [crates/mty-runtime/src/supervisor.rs] and [supervisor_orchestrator.rs].
    A tracker allows at most [max_attempts] restarts in any window of time; the
    registry maps a failed child to its supervisor's strategy.  Durations and
    instants are nanoseconds; the clock, [Instant::now], is an argument of the
    operations that read it. *)

From stdpp Require Import base list numbers sets gmap.
From S2P Require Import Prelude.

Open Scope Z_scope.

(** ** Machine words *)

Definition u64 (z : Z) : Z := z mod 2 ^ 64.
Definition u32 (z : Z) : Z := z mod 2 ^ 32.

(** ** [RestartTracker] *)

Inductive Strategy := OneForOne | OneForAll | RestForOne | Escalate.

#[export] Instance Strategy_eq_dec : EqDecision Strategy.
Proof. solve_decision. Defined.

Record RestartPolicy := mkPolicy {
  max_attempts : Z; window : Z; backoff_min : Z; backoff_max : Z
}.

Definition RestartPolicy_default : RestartPolicy := mkPolicy 3 (30 * 10 ^ 9) 0 0.

Record RestartTracker := mkTracker {
  policy : RestartPolicy; attempts : list Z; rng_seed : Z
}.

Definition RestartTracker_new (p : RestartPolicy) : RestartTracker := mkTracker p [] 0xDEADBEEF.

(** [now.duration_since(t)], which saturates at zero. *)
Definition duration_since (now t : Z) : Z := Z.max 0 (now - t).

Definition sample_backoff (t : RestartTracker) : RestartTracker * Z :=
  let lo := u64 (backoff_min (policy t)) in
  let hi := u64 (backoff_max (policy t)) in
  if hi <=? lo then (t, lo)
  else
    let seed := u64 (u64 (rng_seed t * 6364136223846793005) + 1442695040888963407) in
    let span := hi - lo in
    (mkTracker (policy t) (attempts t) seed, lo + seed mod span).

Definition may_restart (now : Z) (t : RestartTracker) : RestartTracker * option Z :=
  let kept := filter (λ a, duration_since now a < window (policy t)) (attempts t) in
  let t := mkTracker (policy t) kept (rng_seed t) in
  if max_attempts (policy t) <=? u32 (Z.of_nat (length kept)) then (t, None)
  else
    let t := mkTracker (policy t) (kept ++ [now]) (rng_seed t) in
    let '(t, b) := sample_backoff t in
    (t, Some b).

(** ** The orchestrator *)

Inductive RestartDecision := Restart (backoff : Z) | DoEscalate | DropFailure.

Record SupervisorBinding := mkBinding {
  strategy : Strategy; restart_limit : Z; restart_window : Z; b_backoff_min : Z; b_backoff_max : Z;
  children : list Z
}.

Definition SupervisorBinding_default : SupervisorBinding :=
  mkBinding OneForOne 5 (60 * 10 ^ 9) (100 * 10 ^ 6) (5 * 10 ^ 9) [].

Record SupervisorRegistry := mkRegistry {
  bindings : gmap Z SupervisorBinding; parents : gmap Z Z; trackers : gmap Z RestartTracker;
  rng_state : Z
}.

Definition SupervisorRegistry_new : SupervisorRegistry := mkRegistry ∅ ∅ ∅ 0x9E3779B97F4A7C15.
(** The derived [Default] starts the generator at zero. *)
Definition SupervisorRegistry_default : SupervisorRegistry := mkRegistry ∅ ∅ ∅ 0.

Definition policy_of (b : SupervisorBinding) : RestartPolicy :=
  mkPolicy (restart_limit b) (restart_window b) (b_backoff_min b) (b_backoff_max b).

Definition add_supervisor (id : Z) (b : SupervisorBinding) (r : SupervisorRegistry) : SupervisorRegistry :=
  mkRegistry (<[id := b]> (bindings r)) (fold_left (λ m c, <[c := id]> m) (children b) (parents r))
    (<[id := RestartTracker_new (policy_of b)]> (trackers r)) (rng_state r).

Definition parent_of (agent : Z) (r : SupervisorRegistry) : option Z := parents r !! agent.

Definition xorshift (x : Z) : Z :=
  let x := Z.lxor x (Z.shiftr x 12) in
  let x := Z.lxor x (u64 (Z.shiftl x 25)) in
  Z.lxor x (Z.shiftr x 27).

(** [None] is the panic of [backoff_max - backoff_min] in a build with
    overflow checks. *)
Definition next_backoff (b : SupervisorBinding) (r : SupervisorRegistry) : option (SupervisorRegistry * Z) :=
  let x := xorshift (rng_state r) in
  let r := mkRegistry (bindings r) (parents r) (trackers r) x in
  let rand := u64 (x * 0x2545F4914F6CDD1D) in
  let span := u64 (b_backoff_max b) - u64 (b_backoff_min b) in
  if span <? 0 then None
  else if span =? 0 then Some (r, b_backoff_min b)
  else Some (r, b_backoff_min b + rand mod span).

Definition on_child_failure (now child : Z) (r : SupervisorRegistry) :
    option (SupervisorRegistry * RestartDecision) :=
  match parents r !! child with
  | None => Some (r, DropFailure)
  | Some sup_id =>
      match bindings r !! sup_id with
      | None => Some (r, DropFailure)
      | Some b =>
          let tracker := default (RestartTracker_new (policy_of b)) (trackers r !! sup_id) in
          let '(tracker, backoff_opt) := may_restart now tracker in
          let r := mkRegistry (bindings r) (parents r) (<[sup_id := tracker]> (trackers r)) (rng_state r) in
          match backoff_opt with
          | None => Some (r, DoEscalate)
          | Some _ =>
              match strategy b with
              | OneForOne | OneForAll | RestForOne =>
                  p ← next_backoff b r; Some (p.1, Restart p.2)
              | Escalate => Some (r, DoEscalate)
              end
          end
      end
  end.

(** ** The restart limit *)

(** The times of the restarts a tracker allows, failures coming at [times]. *)
Fixpoint allowed (times : list Z) (t : RestartTracker) : list Z :=
  match times with
  | [] => []
  | now :: times =>
      match may_restart now t with
      | (t, Some _) => now :: allowed times t
      | (t, None) => allowed times t
      end
  end.

(** The limit read off its description: a restart is allowed when fewer than
    [max] were allowed in the last [w] nanoseconds. *)
Definition recent (w now : Z) (hist : list Z) : list Z := filter (λ a, now - w < a) hist.

Fixpoint allowed_spec (max w : Z) (times hist : list Z) : list Z :=
  match times with
  | [] => []
  | now :: times =>
      if Z.of_nat (length (recent w now hist)) <? max
      then now :: allowed_spec max w times (hist ++ [now])
      else allowed_spec max w times hist
  end.

(** A clock that does not go backwards. *)
Fixpoint nondecreasing (from : Z) (times : list Z) : Prop :=
  match times with [] => True | t :: times => from <= t ∧ nondecreasing t times end.

Lemma recent_recent w now now' l : now <= now' → recent w now' (recent w now l) = recent w now' l.
Proof.
  intros Hle. unfold recent. induction l as [|x l IH]; [done|].
  rewrite (filter_cons _ x l), (filter_cons (λ a, now' - w < a) x l).
  destruct (decide (now - w < x)) as [H|H].
  - rewrite filter_cons. by destruct (decide (now' - w < x)); rewrite IH.
  - rewrite decide_False; [done|lia].
Qed.

Lemma recent_app w now l k : recent w now (l ++ k) = recent w now l ++ recent w now k.
Proof. apply filter_app. Qed.

Lemma recent_le w now l last : Forall (λ a, a <= last) l → Forall (λ a, a <= last) (recent w now l).
Proof.
  intros H. apply Forall_forall. intros a Ha. apply list_elem_of_filter in Ha as [_ Ha].
  rewrite Forall_forall in H. by apply H.
Qed.

(** Pruning by age is keeping the recent ones. *)
Lemma prune_recent w now l :
  Forall (λ a, a <= now) l → filter (λ a, duration_since now a < w) l = recent w now l.
Proof.
  intros H. induction H as [|a l Ha _ IH]; [done|]. unfold recent in *. rewrite !filter_cons, IH.
  unfold duration_since. destruct (decide (now - w < a)); [rewrite decide_True by lia|rewrite decide_False by lia]; done.
Qed.

Record tracks (t : RestartTracker) (hist : list Z) (last : Z) : Prop := {
  tr_recent now : last <= now → recent (window (policy t)) now (attempts t)
                               = recent (window (policy t)) now hist;
  tr_le : Forall (λ a, a <= last) (attempts t);
  tr_len : Z.of_nat (length (attempts t)) <= max_attempts (policy t)
}.

Lemma sample_backoff_same t :
  policy (sample_backoff t).1 = policy t ∧ attempts (sample_backoff t).1 = attempts t.
Proof. unfold sample_backoff. by destruct (_ <=? _). Qed.

Lemma may_restart_spec now t hist last :
  tracks t hist last → last <= now → 0 <= max_attempts (policy t) < 2 ^ 32 →
  let '(t', r) := may_restart now t in
  policy t' = policy t
  ∧ match r with
    | Some _ => Z.of_nat (length (recent (window (policy t)) now hist)) < max_attempts (policy t)
                ∧ tracks t' (hist ++ [now]) now
    | None => max_attempts (policy t) <= Z.of_nat (length (recent (window (policy t)) now hist))
              ∧ tracks t' hist now
    end.
Proof.
  intros [Hr Hle Hlen] Hnow Hmax. unfold may_restart.
  assert (Forall (λ a, a <= now) (attempts t)) as Hle'.
  { eapply Forall_impl; [exact Hle|]. simpl. lia. }
  rewrite prune_recent by done. set (w := window (policy t)) in *.
  set (kept := recent w now (attempts t)).
  assert (kept = recent w now hist) as Hk by (by apply Hr).
  assert (Z.of_nat (length kept) <= max_attempts (policy t)) as Hkl.
  { etrans; [|exact Hlen]. apply inj_le. apply length_filter. }
  simpl. unfold u32. rewrite Z.mod_small by lia.
  destruct (Z.leb_spec (max_attempts (policy t)) (Z.of_nat (length kept))) as [Hm|Hm].
  - simpl. split; [done|]. rewrite <- Hk. split; [done|]. split; simpl; [| |done].
    + intros now' Hn. fold w. unfold kept. rewrite recent_recent by done. apply Hr. lia.
    + by apply recent_le.
  - pose proof (sample_backoff_same (mkTracker (policy t) (kept ++ [now]) (rng_seed t))) as [Hp Ha].
    destruct (sample_backoff _) as [t' b]. simpl in *. split; [done|]. rewrite <- Hk.
    split; [done|]. split; rewrite ?Hp, Ha.
    + intros now' Hn. fold w. rewrite !recent_app. f_equal. unfold kept.
      rewrite recent_recent by done. apply Hr. lia.
    + apply Forall_app. split; [by apply recent_le|by constructor].
    + rewrite length_app. simpl. lia.
Qed.

Lemma allowed_from times t hist last :
  tracks t hist last → nondecreasing last times → 0 <= max_attempts (policy t) < 2 ^ 32 →
  allowed times t = allowed_spec (max_attempts (policy t)) (window (policy t)) times hist.
Proof.
  revert t hist last. induction times as [|now times IH]; intros t hist last Ht Hn Hmax; [done|].
  destruct Hn as [Hnow Hn]. simpl. pose proof (may_restart_spec now t hist last Ht Hnow Hmax) as Hm.
  destruct (may_restart now t) as [t' [b|]].
  - destruct Hm as (Hp & Hlt & Ht'). rewrite (proj2 (Z.ltb_lt _ _)) by done. f_equal.
    rewrite <- Hp. eapply IH; [done|done|by rewrite Hp].
  - destruct Hm as (Hp & Hge & Ht'). rewrite (proj2 (Z.ltb_ge _ _)) by done.
    rewrite <- Hp. eapply IH; [done|done|by rewrite Hp].
Qed.

Lemma new_tracks p from : 0 <= max_attempts p → tracks (RestartTracker_new p) [] from.
Proof. split; simpl; [done|constructor|done]. Qed.

(** No window of the specification holds more than [max]. *)
Definition within (w t : Z) (a : Z) : Prop := t - w < a <= t.
#[local] Instance within_dec w t a : Decision (within w t a).
Proof. unfold within. apply _. Defined.

Definition in_window (w t : Z) (l : list Z) : nat := length (filter (within w t) l).

Lemma in_window_app w t l k : in_window w t (l ++ k) = (in_window w t l + in_window w t k)%nat.
Proof. unfold in_window. by rewrite filter_app, length_app. Qed.

Lemma in_window_recent w now t l :
  now <= t → Forall (λ a, a <= now) l → (in_window w t l <= length (recent w now l))%nat.
Proof.
  intros Ht H. unfold in_window, recent. induction H as [|a l Ha _ IH]; [done|].
  rewrite !filter_cons. destruct (decide (within w t a)) as [Hw|_].
  - rewrite decide_True by (unfold within in Hw; lia). simpl. lia.
  - destruct (decide (now - w < a)); simpl; lia.
Qed.

Lemma allowed_spec_bounded max w times hist from t :
  0 <= max → nondecreasing from times → Forall (λ a, a <= from) hist →
  (∀ t, Z.of_nat (in_window w t hist) <= max) →
  Z.of_nat (in_window w t (hist ++ allowed_spec max w times hist)) <= max.
Proof.
  intros Hmax. revert from hist. induction times as [|now times IH]; intros from hist Hn Hf Hb.
  { simpl. rewrite app_nil_r. apply Hb. }
  destruct Hn as [Hnow Hn]. simpl.
  assert (Forall (λ a, a <= now) hist) as Hf'.
  { eapply Forall_impl; [exact Hf|]. simpl. lia. }
  destruct (Z.ltb_spec (Z.of_nat (length (recent w now hist))) max) as [Hlt|Hge].
  - change (now :: ?l) with ([now] ++ l). rewrite app_assoc. apply (IH now); [done| |].
    + apply Forall_app. split; [done|by constructor].
    + intros t'. rewrite in_window_app. destruct (Z.le_gt_cases now t') as [Hle|Hgt].
      * pose proof (in_window_recent w now t' hist Hle Hf').
        assert (in_window w t' [now] <= 1)%nat by (unfold in_window; etrans; [apply length_filter|done]). lia.
      * assert (in_window w t' [now] = 0%nat) as ->.
        { unfold in_window. rewrite filter_cons_False; [done|]. unfold within. lia. }
        rewrite Nat.add_0_r. apply Hb.
  - by apply (IH now).
Qed.

(** ** Back-off *)

Lemma u64_range z : 0 <= u64 z < 2 ^ 64.
Proof. apply Z.mod_pos_bound. lia. Qed.

Lemma u64_small z : 0 <= z < 2 ^ 64 → u64 z = z.
Proof. apply Z.mod_small. Qed.

Lemma lxor_range a b n : 0 <= n → 0 <= a < 2 ^ n → 0 <= b < 2 ^ n → 0 <= Z.lxor a b < 2 ^ n.
Proof.
  intros Hn Ha Hb. assert (0 <= Z.lxor a b) as H0 by (apply Z.lxor_nonneg; lia).
  split; [done|]. destruct (Z.eq_dec (Z.lxor a b) 0) as [->|Hne]; [lia|].
  apply Z.log2_lt_pow2; [lia|]. pose proof (Z.log2_lxor a b ltac:(lia) ltac:(lia)) as Hl.
  assert (0 <= n - 1 ∧ Z.log2 a <= n - 1 ∧ Z.log2 b <= n - 1) as (? & ? & ?); [|lia].
  assert (0 < n) as Hpos.
  { destruct (Z.eq_dec n 0) as [->|]; [|lia].
    assert (a = 0) as -> by lia. assert (b = 0) as -> by lia. done. }
  assert (∀ x, 0 <= x < 2 ^ n → Z.log2 x <= n - 1) as Hx.
  { intros x Hx. destruct (Z.eq_dec x 0) as [->|]; [simpl; lia|].
    assert (Z.log2 x < n); [|lia]. apply Z.log2_lt_pow2; lia. }
  split_and!; [lia|by apply Hx|by apply Hx].
Qed.

Lemma shiftr_range x k : 0 <= k → 0 <= x < 2 ^ 64 → 0 <= Z.shiftr x k < 2 ^ 64.
Proof.
  intros Hk Hx. rewrite Z.shiftr_div_pow2 by done. split; [apply Z.div_pos; lia|].
  apply Z.div_lt_upper_bound; [lia|]. nia.
Qed.

(** Each round of the generator keeps a state that is not zero not zero. *)
Lemma xor_shiftr_nonzero x k : 0 < k → 0 < x < 2 ^ 64 → 0 < Z.lxor x (Z.shiftr x k) < 2 ^ 64.
Proof.
  intros Hk Hx. pose proof (lxor_range x (Z.shiftr x k) 64) as H.
  pose proof (shiftr_range x k) as Hs.
  assert (Z.lxor x (Z.shiftr x k) ≠ 0) as Hne; [|lia].
  intros H0%Z.lxor_eq. rewrite Z.shiftr_div_pow2 in H0 by lia.
  assert (x / 2 ^ k < x); [|lia]. apply Z.div_lt; [lia|]. apply Z.pow_gt_1; lia.
Qed.

Lemma xor_shiftl_nonzero x : 0 < x < 2 ^ 64 → 0 < Z.lxor x (u64 (Z.shiftl x 25)) < 2 ^ 64.
Proof.
  intros Hx. pose proof (lxor_range x (u64 (Z.shiftl x 25)) 64) as H.
  pose proof (u64_range (Z.shiftl x 25)) as Hu.
  assert (Z.lxor x (u64 (Z.shiftl x 25)) ≠ 0) as Hne; [|lia].
  intros H0%Z.lxor_eq. rewrite Z.shiftl_mul_pow2 in H0 by lia. unfold u64 in H0.
  assert ((2 ^ 64 | x * (2 ^ 25 - 1))) as Hd.
  { apply Z.mod_divide; [lia|]. replace (x * (2 ^ 25 - 1)) with (x * 2 ^ 25 - x) by lia.
    rewrite Zminus_mod, <- H0. rewrite (Z.mod_small x) by lia. by rewrite Z.sub_diag. }
  rewrite Z.mul_comm in Hd. apply Z.gauss in Hd; [|vm_compute; reflexivity].
  apply Z.divide_pos_le in Hd; lia.
Qed.

Lemma xorshift_range x : 0 < x < 2 ^ 64 → 0 < xorshift x < 2 ^ 64.
Proof.
  intros Hx. unfold xorshift. apply xor_shiftr_nonzero; [lia|].
  apply xor_shiftl_nonzero. by apply xor_shiftr_nonzero.
Qed.

(** The failures a registry handles, one after the other; [None] if one of
    them panics. *)
Fixpoint handle (events : list (Z * Z)) (r : SupervisorRegistry) :
    option (SupervisorRegistry * list RestartDecision) :=
  match events with
  | [] => Some (r, [])
  | (now, child) :: events =>
      p ← on_child_failure now child r;
      q ← handle events p.1;
      Some (q.1, p.2 :: q.2)
  end.

(** A back-off range that is not empty, in nanoseconds of 64 bits. *)
Definition sane (b : SupervisorBinding) : Prop :=
  0 <= b_backoff_min b <= b_backoff_max b ∧ b_backoff_max b < 2 ^ 64.

Definition registry_ok (r : SupervisorRegistry) : Prop :=
  0 < rng_state r < 2 ^ 64 ∧ map_Forall (λ _, sane) (bindings r).

(** What a decision may be for a failure of [child]. *)
Definition decision_ok (r : SupervisorRegistry) (child : Z) (d : RestartDecision) : Prop :=
  match parents r !! child ≫= λ s, bindings r !! s with
  | None => d = DropFailure
  | Some b =>
      match d with
      | DropFailure => False
      | DoEscalate => True
      | Restart backoff => strategy b ≠ Escalate ∧ b_backoff_min b <= backoff <= b_backoff_max b
      end
  end.

Lemma next_backoff_ok b r :
  sane b → 0 < rng_state r < 2 ^ 64 →
  ∃ r' n, next_backoff b r = Some (r', n)
    ∧ r' = mkRegistry (bindings r) (parents r) (trackers r) (xorshift (rng_state r))
    ∧ b_backoff_min b <= n <= b_backoff_max b.
Proof.
  intros [Hb Hmax] Hx. unfold next_backoff.
  rewrite (u64_small (b_backoff_max b)), (u64_small (b_backoff_min b)) by lia.
  destruct (Z.ltb_spec (b_backoff_max b - b_backoff_min b) 0); [lia|].
  destruct (Z.eqb_spec (b_backoff_max b - b_backoff_min b) 0).
  - eexists _, _. split; [done|]. split; [done|lia].
  - eexists _, _. split; [done|]. split; [done|].
    pose proof (Z.mod_pos_bound (u64 (xorshift (rng_state r) * 0x2545F4914F6CDD1D))
      (b_backoff_max b - b_backoff_min b)). lia.
Qed.

Lemma on_child_failure_ok now child r :
  registry_ok r →
  ∃ r' d, on_child_failure now child r = Some (r', d) ∧ decision_ok r child d
    ∧ registry_ok r' ∧ bindings r' = bindings r ∧ parents r' = parents r
    ∧ ∀ s, parents r !! child ≠ Some s → trackers r' !! s = trackers r !! s.
Proof.
  intros [Hx Hb]. unfold on_child_failure, decision_ok.
  destruct (parents r !! child) as [s|] eqn:Ep; simpl; [|by eexists _, _].
  destruct (bindings r !! s) as [b|] eqn:Eb; simpl; [|by eexists _, _].
  destruct (may_restart now _) as [t [n|]].
  - destruct (decide (strategy b = Escalate)) as [Hs|Hs].
    + rewrite Hs. eexists _, _. split_and!; simpl; try done. intros s' Hne. by apply lookup_insert_ne; congruence.
    + destruct (next_backoff_ok b (mkRegistry (bindings r) (parents r) (<[s:=t]> (trackers r)) (rng_state r)))
        as (r' & m & He & -> & Hm); [by eapply Hb|done|].
      eexists _, (Restart m). split; [destruct (strategy b); try done; by rewrite He|].
      split; [by split|]. split; [split; [by apply xorshift_range|done]|].
      split_and!; simpl; try done. intros s' Hne. by apply lookup_insert_ne; congruence.
  - eexists _, _. split_and!; simpl; try done. intros s' Hne. by apply lookup_insert_ne; congruence.
Qed.

(** ** What supervision guarantees *)

(** C25. A tracker allows a restart exactly when fewer than [max_attempts] were
    allowed in the window that ends now, whatever it has pruned. *)
Theorem restarts_follow_limit p times from :
  nondecreasing from times → 0 <= max_attempts p < 2 ^ 32 →
  allowed times (RestartTracker_new p) = allowed_spec (max_attempts p) (window p) times [].
Proof.
  intros Hn Hmax. apply (allowed_from times (RestartTracker_new p) [] from); [|done|done].
  apply new_tracks. lia.
Qed.

Definition demo_policy : RestartPolicy := mkPolicy 2 10 0 0.
Definition demo_times : list Z := [0; 1; 2; 9; 10; 11; 12].

Lemma restarts_follow_limit_witness :
  allowed demo_times (RestartTracker_new demo_policy) = [0; 1; 10; 11]
  ∧ allowed demo_times (RestartTracker_new demo_policy) = allowed_spec 2 10 demo_times [].
Proof.
  split; [vm_compute; reflexivity|].
  apply (restarts_follow_limit demo_policy demo_times 0); [unfold demo_times; simpl; lia|simpl; lia].
Defined.

(** However often a child fails, no interval of [window] nanoseconds holds
    more than [max_attempts] restarts. *)
Theorem restart_rate_bounded p times from t :
  nondecreasing from times → 0 <= max_attempts p < 2 ^ 32 →
  Z.of_nat (in_window (window p) t (allowed times (RestartTracker_new p))) <= max_attempts p.
Proof.
  intros Hn Hmax. rewrite (allowed_from times (RestartTracker_new p) [] from); [|apply new_tracks; lia|done|done].
  apply (allowed_spec_bounded (max_attempts p) (window p) times [] from t); [lia|done|done|].
  intros t'. change (Z.of_nat 0 <= max_attempts p). lia.
Qed.

Lemma restart_rate_bounded_witness :
  Z.of_nat (in_window 10 11 (allowed demo_times (RestartTracker_new demo_policy))) <= 2.
Proof. apply (restart_rate_bounded demo_policy demo_times 0 11); [unfold demo_times; simpl; lia|simpl; lia]. Defined.

(** A registry whose back-off ranges are not empty handles every sequence
    of failures: it never panics, restarts only children whose supervisor's
    strategy is not [Escalate], after a back-off within the configured range,
    and drops exactly the failures of children no supervisor has. *)
Theorem failures_handled events r :
  registry_ok r →
  ∃ r' ds, handle events r = Some (r', ds)
    ∧ Forall2 (λ e d, decision_ok r e.2 d) events ds
    ∧ registry_ok r' ∧ bindings r' = bindings r ∧ parents r' = parents r.
Proof.
  revert r. induction events as [|[now child] events IH]; intros r Hr.
  - exists r, []. split_and!; [done|constructor|done|done|done].
  - destruct (on_child_failure_ok now child r Hr) as (r1 & d & He & Hd & Hr1 & Hb1 & Hp1 & _).
    destruct (IH r1 Hr1) as (r2 & ds & He2 & HF & Hr2 & Hb2 & Hp2).
    exists r2, (d :: ds). simpl. rewrite He. simpl. rewrite He2. simpl.
    split_and!; [done| |done|congruence|congruence]. constructor; [done|].
    eapply Forall2_impl; [exact HF|]. intros e d'. unfold decision_ok. by rewrite Hb1, Hp1.
Qed.

Definition demo_registry : SupervisorRegistry :=
  add_supervisor 1 (mkBinding OneForOne 2 60 5 9 [10]) SupervisorRegistry_new.

Lemma failures_handled_witness :
  ∃ r' ds, handle [(0, 10); (1, 99); (2, 10); (3, 10)] demo_registry = Some (r', ds)
    ∧ ds = [Restart 7; DropFailure; Restart 8; DoEscalate]
    ∧ Forall2 (λ e d, decision_ok demo_registry e.2 d) [(0, 10); (1, 99); (2, 10); (3, 10)] ds
    ∧ registry_ok r' ∧ bindings r' = bindings demo_registry ∧ parents r' = parents demo_registry.
Proof.
  destruct (failures_handled [(0, 10); (1, 99); (2, 10); (3, 10)] demo_registry) as (r' & ds & He & H).
  - split; [simpl; lia|]. apply map_Forall_insert_2; [split; simpl; lia|apply map_Forall_empty].
  - exists r', ds. split; [exact He|]. split; [|exact H].
    assert (option_map snd (handle [(0, 10); (1, 99); (2, 10); (3, 10)] demo_registry)
      = Some [Restart 7; DropFailure; Restart 8; DoEscalate]) as Hds by (vm_compute; reflexivity).
    rewrite He in Hds. by injection Hds.
Defined.

(** The orchestrator's jitter panics exactly when [backoff_max] is below
    [backoff_min], which the tracker's own jitter allows for: there the
    back-off is [backoff_min]. *)
Theorem backoff_order_matters b r t :
  0 <= b_backoff_min b < 2 ^ 64 → 0 <= b_backoff_max b < 2 ^ 64 → policy t = policy_of b →
  (next_backoff b r = None ↔ b_backoff_max b < b_backoff_min b)
  ∧ (b_backoff_max b < b_backoff_min b → (sample_backoff t).2 = b_backoff_min b).
Proof.
  intros Hmin Hmax Hp. unfold next_backoff, sample_backoff. rewrite Hp. simpl.
  rewrite !(u64_small (b_backoff_max b)), !(u64_small (b_backoff_min b)) by lia. split.
  - destruct (Z.ltb_spec (b_backoff_max b - b_backoff_min b) 0); [split; [lia|done]|].
    destruct (_ =? 0); (split; [done|lia]).
  - intros Hlt. by rewrite (proj2 (Z.leb_le _ _)) by lia.
Qed.

Lemma backoff_order_matters_witness :
  let b := mkBinding OneForOne 2 60 9 5 [10] in
  (next_backoff b SupervisorRegistry_new = None ↔ b_backoff_max b < b_backoff_min b)
  ∧ (b_backoff_max b < b_backoff_min b → (sample_backoff (RestartTracker_new (policy_of b))).2 = 9).
Proof. intros b. apply (backoff_order_matters b); simpl; [lia|lia|reflexivity]. Defined.

(** A failure touches the restart history of no supervisor but the
    child's own. *)
Theorem failures_are_isolated now child r s :
  registry_ok r → parents r !! child ≠ Some s →
  ∃ r' d, on_child_failure now child r = Some (r', d) ∧ trackers r' !! s = trackers r !! s.
Proof.
  intros Hr Hne. destruct (on_child_failure_ok now child r Hr) as (r' & d & He & _ & _ & _ & _ & Ht).
  exists r', d. split; [done|by apply Ht].
Qed.

Lemma failures_are_isolated_witness :
  ∃ r' d, on_child_failure 0 10 (add_supervisor 2 (mkBinding OneForAll 2 60 5 9 [20]) demo_registry) = Some (r', d)
    ∧ trackers r' !! 2 = trackers (add_supervisor 2 (mkBinding OneForAll 2 60 5 9 [20]) demo_registry) !! 2.
Proof.
  apply failures_are_isolated; [|vm_compute; discriminate].
  split; [simpl; lia|]. apply map_Forall_insert_2; [split; simpl; lia|].
  apply map_Forall_insert_2; [split; simpl; lia|apply map_Forall_empty].
Defined.
