(* ===== verification/FixApply.v ===== *)
(** * Fixes as unified diffs

    [crates/mty-diagnostics/src/apply.rs], which applies a diff to a source,
    and the builders of [fix.rs] that make one.  A string is its UTF-8 bytes. *)

From Stdlib Require Import NArith DecimalString DecimalN Ascii.
From stdpp Require Import base list strings numbers sets sorting.
From S2P Require Import Prelude.

Open Scope string_scope.
Open Scope list_scope.
Open Scope nat_scope.
Notation length := List.length (only parsing).

(** ** Strings *)

Definition nl : ascii := "010"%char.

(** [str::split('\n')] *)
Fixpoint split_nl (s : string) : list string :=
  match s with
  | EmptyString => [""]
  | String c s =>
      if ascii_dec c nl then "" :: split_nl s
      else match split_nl s with l :: ls => String c l :: ls | [] => [String c ""] end
  end.

(** [lines.join("\n")] *)
Fixpoint join_nl (ls : list string) : string :=
  match ls with
  | [] => ""
  | [l] => l
  | l :: ls => l +:+ String nl (join_nl ls)
  end.

(** [str::strip_prefix] *)
Fixpoint strip_prefix (p s : string) : option string :=
  match p, s with
  | EmptyString, _ => Some s
  | String a p, String b s => if ascii_dec a b then strip_prefix p s else None
  | _, _ => None
  end.

Definition starts_with (s p : string) : bool :=
  match strip_prefix p s with Some _ => true | None => false end.

Fixpoint of_bytes (l : list N) : string :=
  match l with [] => "" | n :: l => String (ascii_of_N n) (of_bytes l) end.

(** [char::is_whitespace]: the characters of the property White_Space. *)
Definition whitespace : list string := map of_bytes
  ([[9]; [10]; [11]; [12]; [13]; [32]; [194; 133]; [194; 160]; [225; 154; 128]]
   ++ map (λ n, [226; 128; n]) [128; 129; 130; 131; 132; 133; 134; 135; 136; 137; 138; 168; 169; 175]
   ++ [[226; 129; 159]; [227; 128; 128]])%N.

Fixpoint first_prefix (ps : list string) (s : string) : option string :=
  match ps with
  | [] => None
  | p :: ps => match strip_prefix p s with Some r => Some r | None => first_prefix ps s end
  end.

Fixpoint trim_start_fuel (n : nat) (s : string) : string :=
  match n with
  | 0 => s
  | S n => match first_prefix whitespace s with Some r => trim_start_fuel n r | None => s end
  end.

(** One character at most per byte. *)
Definition trim_start (s : string) : string := trim_start_fuel (String.length s) s.

(** The text before and after the first [c]; [None] when there is none. *)
Fixpoint split_once (c : ascii) (s : string) : option (string * string) :=
  match s with
  | EmptyString => None
  | String a s =>
      if ascii_dec a c then Some ("", s)
      else match split_once c s with Some (l, r) => Some (String a l, r) | None => None end
  end.

(** [u32::from_str]: an optional plus sign, then digits, in range. *)
Definition parse_u32 (s : string) : option N :=
  let s := default s (strip_prefix "+" s) in
  if bool_decide (s = "") then None
  else d ← NilEmpty.uint_of_string s;
       let n := N.of_uint d in
       if (n <? 2 ^ 32)%N then Some n else None.

(** [Display] of an unsigned integer. *)
Definition display (n : N) : string := NilEmpty.string_of_uint (N.to_uint n).

(** ** Hunks *)

Record HunkSpec := mkSpec { old_line : N; old_len : N }.
Record Hunk := mkHunk { spec : HunkSpec; body : list string }.

Definition parse_hunk_header (s : string) : option HunkSpec :=
  rest ← strip_prefix "@@" s;
  rest ← strip_prefix "-" (trim_start rest);
  let lhs := match split_once " " rest with Some (l, _) => l | None => rest end in
  let '(line_part, len_part) := match split_once "," lhs with Some p => p | None => (lhs, "1") end in
  old_line ← parse_u32 line_part;
  old_len ← parse_u32 len_part;
  Some (mkSpec old_line old_len).

(** The inner loop: the body lines from [j], and the lines after them. *)
Fixpoint hunk_body (lines : list string) : list string * list string :=
  match lines with
  | [] => ([], [])
  | l :: rest =>
      if starts_with l "@@" then ([], lines)
      else if bool_decide (rest = []) && bool_decide (l = "") then ([], lines)
      else let '(b, r) := hunk_body rest in (l :: b, r)
  end.

(** The outer loop, on the lines from [i]; [n] bounds their number. *)
Fixpoint hunks_of (n : nat) (lines : list string) : list Hunk :=
  match n, lines with
  | S n, l :: rest =>
      match (if starts_with l "@@" then parse_hunk_header l else None) with
      | Some sp => let '(b, r) := hunk_body rest in mkHunk sp b :: hunks_of n r
      | None => hunks_of n rest
      end
  | _, _ => []
  end.

Definition parse_hunks (diff : string) : list Hunk :=
  let lines := split_nl diff in hunks_of (length lines) lines.

(** ** Applying *)

Inductive Kind := Rem | Add | Ctx.

(** One body line.  [raw.split_at(1)] panics inside a character, that is
    when the first byte starts a longer one. *)
Definition entry (raw : string) : option (list (Kind * string)) :=
  match raw with
  | EmptyString => Some []
  | String tag txt =>
      if (128 <=? N_of_ascii tag)%N then None
      else if ascii_dec tag "-" then Some [(Rem, txt)]
      else if ascii_dec tag "+" then Some [(Add, txt)]
      else if ascii_dec tag " " then Some [(Ctx, txt)]
      else if ascii_dec tag "\" then Some []
      else Some [(Ctx, raw)]
  end.

Fixpoint entries_of (body : list string) : option (list (Kind * string)) :=
  match body with
  | [] => Some []
  | raw :: body => e ← entry raw; es ← entries_of body; Some (e ++ es)
  end.

(** [while let Some((K::Ctx, _)) = entries.first()], counting. *)
Fixpoint leading_ctx (es : list (Kind * string)) : N * list (Kind * string) :=
  match es with
  | (Ctx, _) :: es => let '(n, r) := leading_ctx es in (N.succ n, r)
  | _ => (0%N, es)
  end.

Definition trailing_ctx (es : list (Kind * string)) : list (Kind * string) :=
  rev (leading_ctx (rev es)).2.

Definition is_rem (e : Kind * string) : bool := match e.1 with Rem => true | _ => false end.
Definition removed (es : list (Kind * string)) : list string := map snd (List.filter is_rem es).
Definition inserted (es : list (Kind * string)) : list string :=
  map snd (List.filter (λ e, negb (is_rem e)) es).

(** A u32 sum, [None] for the panic of a build with overflow checks. *)
Definition add_u32 (a b : N) : option N := if (a + b <? 2 ^ 32)%N then Some (a + b)%N else None.

(** The outer option is a panic, the inner one the source's refusal. *)
Definition apply_hunk (source : string) (h : Hunk) : option (option string) :=
  entries ← entries_of (body h);
  let '(lead, entries) := leading_ctx entries in
  let entries := trailing_ctx entries in
  let source_lines := split_nl source in
  line_1 ← add_u32 (old_line (spec h)) lead;
  let line_0 := N.to_nat (N.pred line_1) in
  let chunk := inserted entries in
  if (length (removed entries) =? 0) || (old_len (spec h) =? 0)%N then
    Some (if length source_lines <? line_0 then None
          else Some (join_nl (take line_0 source_lines ++ chunk ++ drop line_0 source_lines)))
  else
    let end_0 := line_0 + length (removed entries) in
    Some (if length source_lines <? end_0 then None
          else if bool_decide (take (length (removed entries)) (drop line_0 source_lines) = removed entries)
          then Some (join_nl (take line_0 source_lines ++ chunk ++ drop end_0 source_lines))
          else None).

(** [hunks.sort_by_key(|h| Reverse(h.spec.old_line))], a stable sort. *)
Fixpoint insert_by_line (h : Hunk) (hs : list Hunk) : list Hunk :=
  match hs with
  | [] => [h]
  | h' :: hs' => if (old_line (spec h') <? old_line (spec h))%N then h :: hs else h' :: insert_by_line h hs'
  end.

Definition sort_hunks (hs : list Hunk) : list Hunk := fold_left (λ acc h, insert_by_line h acc) hs [].

Fixpoint apply_hunks (out : string) (hs : list Hunk) : option (option string) :=
  match hs with
  | [] => Some (Some out)
  | h :: hs =>
      r ← apply_hunk out h;
      match r with Some out => apply_hunks out hs | None => Some None end
  end.

Definition apply_unified_diff (source diff : string) : option (option string) :=
  match parse_hunks diff with
  | [] => Some None
  | hunks => apply_hunks source (sort_hunks hunks)
  end.

Fixpoint try_apply_alternatives (source : string) (alternatives : list string) :
    option (string * bool) :=
  match alternatives with
  | [] => Some (source, false)
  | diff :: alternatives =>
      r ← apply_unified_diff source diff;
      match r with Some s => Some (s, true) | None => try_apply_alternatives source alternatives end
  end.

(** ** Building *)

Definition line (tag : string) (l : string) : string := tag +:+ l +:+ String nl "".

Definition unified_diff (file : string) (line_no : N) (old_lines new_lines : list string) : string :=
  line "--- a/" file +:+ line "+++ b/" file
  +:+ line "@@ -" (display line_no +:+ "," +:+ display (N.of_nat (length old_lines)) +:+ " +"
                   +:+ display line_no +:+ "," +:+ display (N.of_nat (length new_lines)) +:+ " @@")
  +:+ String.concat "" (map (line "-") old_lines)
  +:+ String.concat "" (map (line "+") new_lines).

Definition insert_before (file : string) (line_no : N) (lines : list string) : string :=
  line "--- a/" file +:+ line "+++ b/" file
  +:+ line "@@ -" (display line_no +:+ ",0 +" +:+ display line_no +:+ ","
                   +:+ display (N.of_nat (length lines)) +:+ " @@")
  +:+ String.concat "" (map (line "+") lines).

Example apply_replace :
  apply_unified_diff (join_nl ["a"; "b"; "c"; ""]) (unified_diff "x.mty" 2 ["b"] ["B"; "C"])
  = Some (Some (join_nl ["a"; "B"; "C"; "c"; ""])).
Proof. vm_compute. reflexivity. Qed.

(** ** Lines *)

Definition free_of (c : ascii) (s : string) : Prop := split_once c s = None.

Lemma free_of_cons c a s : free_of c (String a s) ↔ a ≠ c ∧ free_of c s.
Proof.
  unfold free_of. simpl. destruct (ascii_dec a c) as [->|Hne]; [by split; [|intros [? _]]|].
  destruct (split_once c s) as [[l r]|]; [by split; [|intros [_ ?]]|done].
Qed.

Lemma free_of_app c s t : free_of c (s +:+ t) ↔ free_of c s ∧ free_of c t.
Proof.
  induction s as [|a s IH]; [by split; [split|intros [_ ?]]|].
  rewrite string_cons_app, !free_of_cons, IH. tauto.
Qed.

Lemma split_once_app c s t : free_of c s → split_once c (s +:+ String c t) = Some (s, t).
Proof.
  induction s as [|a s IH]; intros H.
  - change ("" +:+ String c t) with (String c t). simpl. by destruct (ascii_dec c c).
  - apply free_of_cons in H as [Ha H]. rewrite string_cons_app. simpl.
    destruct (ascii_dec a c); [done|]. by rewrite IH.
Qed.

Lemma split_nl_app s t : free_of nl s → split_nl (s +:+ String nl t) = s :: split_nl t.
Proof.
  induction s as [|a s IH]; intros H; [done|]. apply free_of_cons in H as [Ha H].
  rewrite string_cons_app. simpl. destruct (ascii_dec a nl); [done|]. by rewrite IH.
Qed.

Lemma split_nl_free s : free_of nl s → split_nl s = [s].
Proof.
  induction s as [|a s IH]; intros H; [done|]. apply free_of_cons in H as [Ha H]. simpl.
  destruct (ascii_dec a nl); [done|]. by rewrite IH.
Qed.

Lemma split_nl_nonempty s : split_nl s ≠ [].
Proof. destruct s as [|a s]; simpl; [done|]. destruct (ascii_dec a nl); [done|]. by destruct (split_nl s). Qed.

Lemma join_split s : join_nl (split_nl s) = s.
Proof.
  induction s as [|a s IH]; [done|]. simpl. destruct (ascii_dec a nl) as [->|Hne].
  - pose proof (split_nl_nonempty s). destruct (split_nl s) as [|l ls]; [done|].
    simpl in IH |- *. by rewrite <- IH.
  - pose proof (split_nl_nonempty s). destruct (split_nl s) as [|l ls]; [done|].
    destruct ls as [|l' ls]; simpl in IH |- *; rewrite <- IH; done.
Qed.

Lemma split_join ls : ls ≠ [] → Forall (free_of nl) ls → split_nl (join_nl ls) = ls.
Proof.
  intros Hne H. induction H as [|l ls Hl H IH]; [done|]. destruct ls as [|l' ls].
  - simpl. by apply split_nl_free.
  - change (join_nl (l :: l' :: ls)) with (l +:+ String nl (join_nl (l' :: ls))).
    rewrite split_nl_app by done. by rewrite IH.
Qed.

Lemma line_app t l x : line t l +:+ x = (t +:+ l) +:+ String nl x.
Proof. unfold line. by rewrite !string_app_assoc. Qed.

Lemma split_lines_of tags rest :
  Forall (λ p, free_of nl (p.1 +:+ p.2)) tags →
  split_nl (String.concat "" (map (λ p, line p.1 p.2) tags) +:+ rest)
  = map (λ p, p.1 +:+ p.2) tags ++ split_nl rest.
Proof.
  induction 1 as [|[t l] tags Hf _ IH]; [done|]. simpl in Hf.
  assert (String.concat "" (map (λ p, line p.1 p.2) ((t, l) :: tags))
          = line t l +:+ String.concat "" (map (λ p, line p.1 p.2) tags)) as ->.
  { simpl. destruct tags; simpl; [by rewrite string_app_nil_r|done]. }
  rewrite string_app_assoc, line_app, split_nl_app by done. by rewrite IH.
Qed.

(** ** Numbers *)

Lemma digits_free c d :
  (∀ b, b ∈ ["0"; "1"; "2"; "3"; "4"; "5"; "6"; "7"; "8"; "9"]%char → b ≠ c) →
  free_of c (NilEmpty.string_of_uint d).
Proof.
  intros H. induction d; simpl; [done|..];
    (apply free_of_cons; split; [apply H; rewrite !elem_of_cons; tauto|done]).
Qed.

Lemma to_uint_nonnil n : N.to_uint n ≠ Decimal.Nil.
Proof. destruct n as [|p]; [done|]. apply DecimalPos.Unsigned.to_uint_nonnil. Qed.

Lemma parse_display n : (n < 2 ^ 32)%N → parse_u32 (display n) = Some n.
Proof.
  intros Hn. unfold parse_u32, display. pose proof (to_uint_nonnil n) as Hne.
  assert (strip_prefix "+" (NilEmpty.string_of_uint (N.to_uint n)) = None) as ->.
  { by destruct (N.to_uint n). }
  simpl default. rewrite bool_decide_false by (by destruct (N.to_uint n)).
  rewrite NilEmpty.usu. simpl. rewrite DecimalN.Unsigned.of_to.
  by rewrite (proj2 (N.ltb_lt _ _) Hn).
Qed.

Lemma display_free c n :
  c ∈ [" "; ","; nl]%char → free_of c (display n).
Proof.
  intros Hc. apply digits_free. intros b Hb ->.
  assert (bool_decide (Forall (λ c, c ∉ [" "; ","; nl]%char)
    ["0"; "1"; "2"; "3"; "4"; "5"; "6"; "7"; "8"; "9"]%char) = true) as Hall by (vm_compute; reflexivity).
  apply bool_decide_eq_true in Hall. rewrite Forall_forall in Hall. by eapply Hall.
Qed.

(** ** A built diff is read back *)

Lemma parse_built_header n k rest :
  (n < 2 ^ 32)%N → (k < 2 ^ 32)%N →
  parse_hunk_header ("@@ -" +:+ display n +:+ "," +:+ display k +:+ " " +:+ rest) = Some (mkSpec n k).
Proof.
  intros Hn Hk. unfold parse_hunk_header.
  set (x := display n +:+ "," +:+ display k +:+ " " +:+ rest).
  change (strip_prefix "@@" ("@@ -" +:+ x)) with (Some (String " " (String "-" x))). cbn [mbind option_bind].
  change (trim_start (String " " (String "-" x))) with (String "-" x). 
  change (strip_prefix "-" (String "-" x)) with (Some x). cbn [mbind option_bind].
  assert (x = (display n +:+ "," +:+ display k) +:+ String " " rest) as ->.
  { unfold x. by rewrite !string_app_assoc. }
  rewrite split_once_app.
  2: { rewrite !free_of_app. split_and!; [apply display_free; by left|done|apply display_free; by left]. }
  change (display n +:+ "," +:+ display k) with (display n +:+ String "," (display k)).
  rewrite split_once_app by (apply display_free; right; by left).
  by rewrite !parse_display by done.
Qed.

Lemma hunk_body_all b :
  Forall (λ l, starts_with l "@@" = false ∧ l ≠ "") b → hunk_body (b ++ [""]) = (b, [""]).
Proof.
  induction 1 as [|l b [Hl Hne] _ IH]; [done|]. simpl. rewrite Hl, IH.
  rewrite (bool_decide_false (l = "")) by done. by rewrite andb_false_r.
Qed.

Lemma hunks_of_blank n : hunks_of n [""] = [].
Proof. by destruct n as [|[|n]]. Qed.

Definition built_body (old_lines new_lines : list string) : list string :=
  map (λ l, "-" +:+ l) old_lines ++ map (λ l, "+" +:+ l) new_lines.

Lemma hunk_body_built old_lines new_lines :
  hunk_body (built_body old_lines new_lines ++ [""]) = (built_body old_lines new_lines, [""]).
Proof.
  apply hunk_body_all, Forall_app. split; apply Forall_forall; intros l Hl;
    apply list_elem_of_fmap in Hl as (l' & -> & _); by split.
Qed.

(** The header and the body of a diff of one hunk. *)
Definition built_diff (file : string) (n k : N) (after : string) (old_lines new_lines : list string) : string :=
  line "--- a/" file +:+ line "+++ b/" file
  +:+ line "@@ -" (display n +:+ "," +:+ display k +:+ " " +:+ after)
  +:+ String.concat "" (map (line "-") old_lines) +:+ String.concat "" (map (line "+") new_lines).

Lemma parse_built_diff file n k after old_lines new_lines :
  (n < 2 ^ 32)%N → (k < 2 ^ 32)%N → free_of nl file → free_of nl after →
  Forall (free_of nl) old_lines → Forall (free_of nl) new_lines →
  parse_hunks (built_diff file n k after old_lines new_lines)
  = [mkHunk (mkSpec n k) (built_body old_lines new_lines)].
Proof.
  intros Hn Hk Hf Ha Ho Hw.
  set (header := "@@ -" +:+ display n +:+ "," +:+ display k +:+ " " +:+ after).
  assert (split_nl (built_diff file n k after old_lines new_lines)
    = ("--- a/" +:+ file) :: ("+++ b/" +:+ file) :: header :: built_body old_lines new_lines ++ [""]) as Hs.
  { unfold built_diff. rewrite !line_app.
    rewrite split_nl_app by (by rewrite free_of_app). rewrite split_nl_app by (by rewrite free_of_app).
    rewrite split_nl_app.
    2: { rewrite !free_of_app. split_and!; try done; (apply display_free; do 2 right; by left). }
    do 3 f_equal. unfold built_body. rewrite <- app_assoc.
    assert (∀ t ls, String.concat "" (map (line t) ls)
      = String.concat "" (map (λ p, line p.1 p.2) (map (pair t) ls))) as Hc.
    { intros t ls. by rewrite map_map. }
    assert (∀ t ls, free_of nl t → Forall (free_of nl) ls →
      Forall (λ p : string * string, free_of nl (p.1 +:+ p.2)) (map (pair t) ls)) as Hfree.
    { intros t ls Ht H. apply Forall_map. eapply Forall_impl; [exact H|]. intros l Hl. simpl.
      by apply free_of_app. }
    rewrite !Hc, split_lines_of by (by apply Hfree). rewrite map_map. f_equal.
    rewrite <- (string_app_nil_r (String.concat _ _)).
    rewrite split_lines_of by (by apply Hfree). by rewrite map_map. }
  unfold parse_hunks. rewrite Hs. cbn [List.length].
  change (hunks_of (S (S (S ?m))) (?a :: ?b :: header :: ?ls)) with (hunks_of (S m) (header :: ls)).
  cbn [hunks_of]. change (starts_with header "@@") with true. cbv iota.
  unfold header. rewrite parse_built_header by done. rewrite hunk_body_built.
  by rewrite hunks_of_blank.
Qed.

(** ** Applying a built diff *)

Lemma entries_of_app b c :
  entries_of (b ++ c) = (x ← entries_of b; y ← entries_of c; Some (x ++ y)).
Proof.
  induction b as [|l b IH]; simpl.
  - by destruct (entries_of c).
  - destruct (entry l); simpl; [|done]. rewrite IH.
    destruct (entries_of b), (entries_of c); simpl; by rewrite ?app_assoc.
Qed.

Lemma entries_of_map k t ls :
  (∀ l, entry (t +:+ l) = Some [(k, l)]) →
  entries_of (map (λ l, t +:+ l) ls) = Some (map (pair k) ls).
Proof.
  intros H. induction ls as [|l ls IH]; [done|]. cbn [map entries_of]. rewrite H, IH. reflexivity.
Qed.

Lemma entries_of_built old_lines new_lines :
  entries_of (built_body old_lines new_lines) = Some (map (pair Rem) old_lines ++ map (pair Add) new_lines).
Proof.
  unfold built_body. rewrite entries_of_app, (entries_of_map Rem "-"), (entries_of_map Add "+") by done.
  reflexivity.
Qed.

Lemma leading_ctx_none es : Forall (λ e, e.1 ≠ Ctx) es → leading_ctx es = (0%N, es).
Proof. destruct 1 as [|[[] l] es H _]; done. Qed.

Lemma trailing_ctx_none es : Forall (λ e, e.1 ≠ Ctx) es → trailing_ctx es = es.
Proof.
  intros H. unfold trailing_ctx. rewrite leading_ctx_none; [apply rev_involutive|].
  apply Forall_rev in H. by rewrite <- rev_alt in H || exact H.
Qed.

Lemma built_entries_no_ctx old_lines new_lines :
  Forall (λ e : Kind * string, e.1 ≠ Ctx) (map (pair Rem) old_lines ++ map (pair Add) new_lines).
Proof. apply Forall_app. split; apply Forall_map, Forall_true; done. Qed.

Lemma removed_built old_lines new_lines :
  removed (map (pair Rem) old_lines ++ map (pair Add) new_lines) = old_lines.
Proof.
  unfold removed. induction old_lines as [|l ls IH]; simpl; [|by f_equal].
  by induction new_lines.
Qed.

Lemma inserted_built old_lines new_lines :
  inserted (map (pair Rem) old_lines ++ map (pair Add) new_lines) = new_lines.
Proof.
  unfold inserted. induction old_lines as [|l ls IH]; simpl; [|done].
  induction new_lines; simpl; [done|by f_equal].
Qed.

(** What a hunk of removals then additions does to the lines. *)
Definition spliced (n : N) (k : nat) (new_lines : list string) (source : string) : string :=
  let lines := split_nl source in
  let at_ := N.to_nat (N.pred n) in
  join_nl (take at_ lines ++ new_lines ++ drop (at_ + k) lines).

Lemma apply_built n k source old_lines new_lines :
  (n < 2 ^ 32)%N →
  apply_hunk source (mkHunk (mkSpec n k) (built_body old_lines new_lines)) =
  Some (if (length old_lines =? 0) || (k =? 0)%N
        then if length (split_nl source) <? N.to_nat (N.pred n) then None
             else Some (spliced n 0 new_lines source)
        else if bool_decide (take (length old_lines) (drop (N.to_nat (N.pred n)) (split_nl source)) = old_lines)
        then Some (spliced n (length old_lines) new_lines source) else None).
Proof.
  intros Hn. unfold apply_hunk. cbn [body spec old_line old_len]. rewrite entries_of_built.
  cbn [mbind option_bind]. rewrite leading_ctx_none by apply built_entries_no_ctx.
  rewrite trailing_ctx_none by apply built_entries_no_ctx.
  rewrite removed_built, inserted_built. unfold add_u32. rewrite N.add_0_r.
  rewrite (proj2 (N.ltb_lt _ _) Hn). cbn [mbind option_bind]. unfold spliced.
  set (at_ := N.to_nat (N.pred n)). set (L := split_nl source).
  destruct (length old_lines =? 0) eqn:E0; [by rewrite Nat.add_0_r|].
  destruct (k =? 0)%N; [by rewrite Nat.add_0_r|]. cbn [orb]. f_equal. apply Nat.eqb_neq in E0.
  destruct (Nat.ltb_spec (length L) (at_ + length old_lines)); [|done].
  rewrite bool_decide_false; [done|]. intros E.
  apply (f_equal length) in E. rewrite length_take, length_drop in E. lia.
Qed.

Lemma apply_built_diff file n k after source old_lines new_lines :
  (n < 2 ^ 32)%N → (k < 2 ^ 32)%N → free_of nl file → free_of nl after →
  Forall (free_of nl) old_lines → Forall (free_of nl) new_lines →
  apply_unified_diff source (built_diff file n k after old_lines new_lines) =
  apply_hunk source (mkHunk (mkSpec n k) (built_body old_lines new_lines)).
Proof.
  intros. unfold apply_unified_diff. rewrite parse_built_diff by done. simpl.
  by destruct (apply_hunk source _) as [[out|]|].
Qed.

(** C17. A fix built by [unified_diff] is applied exactly where it was made
    for: if the lines there are still the ones it replaces they are replaced
    and every other line is kept; if they have changed it is refused.  (A
    fix that replaces no line inserts.) *)
Theorem unified_diff_round_trip file n source old_lines new_lines :
  (n < 2 ^ 32)%N → (N.of_nat (length old_lines) < 2 ^ 32)%N → free_of nl file →
  Forall (free_of nl) old_lines → Forall (free_of nl) new_lines → old_lines ≠ [] →
  apply_unified_diff source (unified_diff file n old_lines new_lines) =
  Some (if bool_decide (take (length old_lines) (drop (N.to_nat (N.pred n)) (split_nl source)) = old_lines)
        then Some (spliced n (length old_lines) new_lines source) else None).
Proof.
  intros Hn Hk Hf Ho Hw Hne.
  set (after := "+" +:+ display n +:+ "," +:+ display (N.of_nat (length new_lines)) +:+ " @@").
  assert (unified_diff file n old_lines new_lines
    = built_diff file n (N.of_nat (length old_lines)) after old_lines new_lines) as ->.
  { reflexivity. }
  rewrite apply_built_diff; [|done|done|done| |done|done].
  - rewrite apply_built by done. destruct old_lines as [|l ls]; [done|].
    by rewrite (proj2 (N.eqb_neq _ 0)) by (simpl; lia).
  - unfold after. rewrite !free_of_app. split_and!; try done; (apply display_free; do 2 right; by left).
Qed.

Definition demo_source : string := join_nl ["fn main() {"; "  let x = foo"; "}"; ""].

Lemma unified_diff_round_trip_witness :
  apply_unified_diff demo_source (unified_diff "x.mty" 2 ["  let x = foo"] ["  let x = bar"; "  let y = x"])
  = Some (Some (join_nl ["fn main() {"; "  let x = bar"; "  let y = x"; "}"; ""]))
  ∧ apply_unified_diff demo_source (unified_diff "x.mty" 2 ["  let x = baz"] []) = Some None.
Proof.
  split.
  - rewrite (unified_diff_round_trip "x.mty" 2 demo_source); [vm_compute; reflexivity|..];
      try done; repeat constructor.
  - rewrite (unified_diff_round_trip "x.mty" 2 demo_source); [vm_compute; reflexivity|..];
      try done; repeat constructor.
Defined.

(** [insert_before] inserts its lines before the given line, and is
    refused only when the source has no such line. *)
Theorem insert_before_round_trip file n source lines :
  (n < 2 ^ 32)%N → free_of nl file → Forall (free_of nl) lines →
  apply_unified_diff source (insert_before file n lines) =
  Some (if length (split_nl source) <? N.to_nat (N.pred n) then None
        else Some (spliced n 0 lines source)).
Proof.
  intros Hn Hf Hw.
  set (after := "+" +:+ display n +:+ "," +:+ display (N.of_nat (length lines)) +:+ " @@").
  assert (insert_before file n lines = built_diff file n 0 after [] lines) as ->.
  { reflexivity. }
  rewrite apply_built_diff; [by apply apply_built|done|done|done| |constructor|done].
  unfold after. rewrite !free_of_app. split_and!; try done; (apply display_free; do 2 right; by left).
Qed.

Lemma insert_before_round_trip_witness :
  apply_unified_diff demo_source (insert_before "x.mty" 1 ["use std.fs"])
  = Some (Some (join_nl ["use std.fs"; "fn main() {"; "  let x = foo"; "}"; ""])).
Proof.
  rewrite (insert_before_round_trip "x.mty" 1 demo_source); [vm_compute; reflexivity|..];
    try done; repeat constructor.
Defined.

(** The first alternative that applies is the one used; when none does
    the source comes back unchanged. *)
Theorem first_alternative_wins source alternatives r :
  try_apply_alternatives source alternatives = Some r →
  (r = (source, false) ∧ Forall (λ d, apply_unified_diff source d = Some None) alternatives)
  ∨ ∃ before d after s, alternatives = before ++ d :: after
      ∧ Forall (λ d, apply_unified_diff source d = Some None) before
      ∧ apply_unified_diff source d = Some (Some s) ∧ r = (s, true).
Proof.
  induction alternatives as [|d ds IH]; simpl.
  - intros [= <-]. by left.
  - destruct (apply_unified_diff source d) as [[s|]|] eqn:E; simpl; [| |done].
    + intros [= <-]. right. by exists [], d, ds, s.
    + intros H. destruct (IH H) as [[-> HF]|(b & d' & a & s & -> & HF & Hd & ->)].
      * left. split; [done|]. by constructor.
      * right. exists (d :: b), d', a, s. split_and!; try done. by constructor.
Qed.

Definition demo_alternatives : list string :=
  [unified_diff "x.mty" 2 ["  let x = baz"] []; insert_before "x.mty" 1 ["use std.fs"]].

Lemma first_alternative_wins_witness :
  let r := (join_nl ["use std.fs"; "fn main() {"; "  let x = foo"; "}"; ""], true) in
  try_apply_alternatives demo_source demo_alternatives = Some r ∧
  ((r = (demo_source, false) ∧ Forall (λ d, apply_unified_diff demo_source d = Some None) demo_alternatives)
   ∨ ∃ before d after s, demo_alternatives = before ++ d :: after
      ∧ Forall (λ d, apply_unified_diff demo_source d = Some None) before
      ∧ apply_unified_diff demo_source d = Some (Some s) ∧ r = (s, true)).
Proof.
  intros r. split; [vm_compute; reflexivity|].
  apply (first_alternative_wins demo_source demo_alternatives). vm_compute. reflexivity.
Defined.

(** Context between the changes of a hunk is inserted a second time:
    the diff below turns [a b] into [b c] and yields [b c b]; a body line that
    starts with a character beyond ASCII panics. *)
Theorem interior_context_mishandled :
  apply_unified_diff (join_nl ["a"; "b"; ""]) (join_nl ["@@ -1,2 +1,2 @@"; "-a"; " b"; "+c"; ""])
  = Some (Some (join_nl ["b"; "c"; "b"; ""]))
  ∧ apply_unified_diff (join_nl ["a"; ""])
      (join_nl ["@@ -1,1 +1,1 @@"; String "195" (String "169" ""); "-a"; ""]) = None.
Proof. split; vm_compute; reflexivity. Qed.
