(* ===== verification/Lockfile.v ===== *)
(** * The lockfile

    [crates/mty-pkg/src/lockfile.rs].  A [String] is its bytes; [Vec] is a
    list; [sort_by] on the names is stdpp's merge sort, stable as Rust's.
    Reading and parsing the file are parameters of [load]. *)

From Stdlib Require Import Ascii.
From stdpp Require Import base list strings gmap sorting.
From S2P Require Import Prelude Semver.

Notation length := List.length (only parsing).

(** [str::replace] of a character. *)
Fixpoint replace_char (c : Ascii.ascii) (by_ : string) (s : string) : string :=
  match s with
  | EmptyString => EmptyString
  | String x s => if Ascii.eqb x c then by_ +:+ replace_char c by_ s else String x (replace_char c by_ s)
  end.

(** [str::trim_start_matches] of a character. *)
Fixpoint trim_start_matches (c : Ascii.ascii) (s : string) : string :=
  match s with
  | EmptyString => EmptyString
  | String x t => if Ascii.eqb x c then trim_start_matches c t else s
  end.

Definition DEFAULT_REGISTRY : string := "https://pkg.mighty.dev"%string.

Definition SCHEMA_VERSION : Z := 1.

Record LockedPackage : Type := mkLocked {
  name : string;
  version : string;
  source : string;
  hash : option string;
  dependencies : list string
}.

#[export] Instance LockedPackage_eq_dec : EqDecision LockedPackage.
Proof. solve_decision. Defined.

Record Lockfile : Type := mkLockfile { schema : Z; packages : list LockedPackage }.

Definition new : Lockfile := mkLockfile SCHEMA_VERSION [].

Definition find (l : Lockfile) (n : string) : option LockedPackage :=
  snd <$> list_find (λ p, name p = n) (packages l).

(** [iter_mut().find(..)] followed by the assignment. *)
Fixpoint replace_first (pkg : LockedPackage) (ps : list LockedPackage) : option (list LockedPackage) :=
  match ps with
  | [] => None
  | p :: ps' => if String.eqb (name p) (name pkg) then Some (pkg :: ps') else cons p <$> replace_first pkg ps'
  end.

Definition by_name (p q : LockedPackage) : Prop := String.le (name p) (name q).

#[export] Instance by_name_dec : RelDecision by_name := λ p q, String.le_dec (name p) (name q).
#[export] Instance by_name_trans : Transitive by_name.
Proof. intros p q r. unfold by_name. apply transitivity. Qed.
#[export] Instance by_name_total : Total by_name.
Proof. intros p q. unfold by_name. apply total. apply _. Qed.

Definition upsert (l : Lockfile) (pkg : LockedPackage) : Lockfile :=
  mkLockfile (schema l)
    (merge_sort by_name (default (packages l ++ [pkg]) (replace_first pkg (packages l)))).

Definition remove (l : Lockfile) (n : string) : Lockfile * bool :=
  let kept := base.filter (λ p, name p ≠ n) (packages l) in
  (mkLockfile (schema l) kept, Nat.ltb (length kept) (length (packages l))).

Definition registry_source (registry : string) : string := "registry+"%string +:+ registry.

(** A path is its bytes. *)
Definition path_source (path : string) : string :=
  "path+file:///"%string +:+ trim_start_matches "/"%char (replace_char "\"%char "/"%string path).

Definition git_source (url : string) (rev : option string) : string :=
  match rev with Some r => "git+"%string +:+ url +:+ "#"%string +:+ r | None => "git+"%string +:+ url end.

(** [LockfileError]: the errors of the file system and of the TOML library
    are theirs. *)
Inductive LockfileError (IoError DeError SerError : Type) : Type :=
  | Io (e : IoError)
  | Toml (e : DeError)
  | TomlSer (e : SerError)
  | UnsupportedVersion (got known : Z).
Arguments Io {_ _ _} _.
Arguments Toml {_ _ _} _.
Arguments TomlSer {_ _ _} _.
Arguments UnsupportedVersion {_ _ _} _ _.

Section load.
Context {IoError DeError SerError : Type}.
Variable read_to_string : string → Res IoError string.
Variable from_str : string → Res DeError Lockfile.
Variable to_string_pretty : Lockfile → Res SerError string.
Variable write : string → string → Res IoError unit.

Definition map_err {E F A} (f : E → F) (r : Res E A) : Res F A :=
  match r with Ok a => Ok a | Err e => Err (f e) end.

Definition load (path : string) : Res (LockfileError IoError DeError SerError) Lockfile :=
  src ← map_err Io (read_to_string path);
  lock ← map_err Toml (from_str src);
  if Z.eqb (schema lock) SCHEMA_VERSION then Ok lock
  else Err (UnsupportedVersion (schema lock) SCHEMA_VERSION).

Definition save (lock : Lockfile) (path : string) : Res (LockfileError IoError DeError SerError) unit :=
  txt ← map_err TomlSer (to_string_pretty lock);
  map_err Io (write path txt).
End load.

(** ** The contract: a lockfile is a finite map from names to packages *)

Definition as_map (l : Lockfile) : gmap string LockedPackage :=
  list_to_map ((λ p, (name p, p)) <$> packages l).

(** Sorted by name, one entry a name. *)
Definition well_formed (l : Lockfile) : Prop :=
  StronglySorted by_name (packages l) ∧ NoDup (name <$> packages l).

Lemma filter_id {A} (P : A → Prop) `{∀ x, Decision (P x)} (l : list A) : (∀ x, x ∈ l → P x) → base.filter P l = l.
Proof.
  induction l as [|x l IH]; intros Hl; [done|]. rewrite filter_cons_True by (apply Hl; left).
  f_equal. apply IH. intros y Hy. apply Hl. by right.
Qed.

Lemma names_fst (ps : list LockedPackage) : ((λ p, (name p, p)) <$> ps).*1 = name <$> ps.
Proof. rewrite <-list_fmap_compose. done. Qed.

Lemma as_map_lookup ps n p :
  NoDup (name <$> ps) →
  (list_to_map ((λ p, (name p, p)) <$> ps) : gmap string LockedPackage) !! n = Some p ↔ p ∈ ps ∧ name p = n.
Proof.
  intros Hd. rewrite <-elem_of_list_to_map by (by rewrite names_fst). rewrite list_elem_of_fmap. naive_solver.
Qed.

Lemma find_Some (l : Lockfile) n p : find l n = Some p → p ∈ packages l ∧ name p = n.
Proof.
  unfold find. destruct (list_find _ _) as [[i q]|] eqn:E; [|done]. simpl. intros [= <-].
  apply list_find_Some in E as (E & Hn & _). split; [by eapply list_elem_of_lookup_2|done].
Qed.

Lemma find_None (l : Lockfile) n : find l n = None → n ∉ name <$> packages l.
Proof.
  unfold find. destruct (list_find _ _) eqn:E; [done|]. intros _ Hin.
  apply list_find_None in E. apply list_elem_of_fmap in Hin as (p & -> & Hp).
  rewrite Forall_forall in E. by apply (E p Hp).
Qed.

Lemma replace_first_Some pkg ps qs :
  replace_first pkg ps = Some qs →
  ∃ l p r, ps = l ++ p :: r ∧ qs = l ++ pkg :: r ∧ name p = name pkg.
Proof.
  revert qs. induction ps as [|p ps IH]; intros qs; [done|]. simpl. destruct (String.eqb_spec (name p) (name pkg)) as [E|E].
  - intros [= <-]. by exists [], p, ps.
  - destruct (replace_first pkg ps) as [rs|]; [|done]. intros [= <-].
    destruct (IH rs eq_refl) as (l & q & r & -> & -> & ?). by exists (p :: l), q, r.
Qed.

Lemma replace_first_None pkg ps : replace_first pkg ps = None → name pkg ∉ name <$> ps.
Proof.
  induction ps as [|p ps IH]; [intros _; apply not_elem_of_nil|]. simpl.
  destruct (String.eqb_spec (name p) (name pkg)) as [E|E]; [done|].
  destruct (replace_first pkg ps); [done|]. intros _. apply not_elem_of_cons. split; [congruence|by apply IH].
Qed.

(** What [upsert] sorts, up to order: the packages with other names and the
    new one. *)
Lemma upsert_permutation l pkg :
  NoDup (name <$> packages l) →
  packages (upsert l pkg) ≡ₚ pkg :: base.filter (λ p, name p ≠ name pkg) (packages l).
Proof.
  intros Hd. cbn [packages upsert]. rewrite merge_sort_Permutation.
  destruct (replace_first pkg (packages l)) as [qs|] eqn:E; simpl.
  - destruct (replace_first_Some _ _ _ E) as (a & p & r & Hp & -> & Hn). rewrite Hp in Hd |- *.
    rewrite fmap_app, fmap_cons in Hd. apply NoDup_app in Hd as (_ & Ha & [Hr _]%NoDup_cons).
    rewrite filter_app, filter_cons_False by (by rewrite Hn; auto).
    assert (∀ t : list LockedPackage, name p ∉ name <$> t → base.filter (λ q, name q ≠ name pkg) t = t) as Hid.
    { intros t Ht. apply filter_id. intros q Hq E'. rewrite <-Hn in E'.
      apply Ht, list_elem_of_fmap. by exists q. }
    rewrite (Hid r Hr), (Hid a). { by rewrite Permutation_middle. }
    intros Hin. apply (Ha _ Hin). left.
  - rewrite (filter_id _ (packages l)); [by rewrite (comm (++))|].
    intros q Hq E'. apply (replace_first_None _ _ E), list_elem_of_fmap. by exists q.
Qed.

(** The map a list denotes does not depend on its order. *)
Lemma as_map_Permutation ps qs :
  NoDup (name <$> ps) → ps ≡ₚ qs →
  (list_to_map ((λ p, (name p, p)) <$> ps) : gmap string LockedPackage) = list_to_map ((λ p, (name p, p)) <$> qs).
Proof. intros Hd Hp. apply list_to_map_proper; [by rewrite names_fst|by rewrite Hp]. Qed.

Lemma filter_names (ps : list LockedPackage) n :
  NoDup (name <$> ps) → NoDup (name <$> base.filter (λ p, name p ≠ n) ps).
Proof.
  intros Hd. eapply sublist_NoDup; [exact Hd|]. apply fmap_sublist, sublist_filter.
Qed.

Lemma as_map_filter (ps : list LockedPackage) n :
  NoDup (name <$> ps) →
  (list_to_map ((λ p, (name p, p)) <$> base.filter (λ p, name p ≠ n) ps) : gmap string LockedPackage)
  = delete n (list_to_map ((λ p, (name p, p)) <$> ps)).
Proof.
  intros Hd. apply map_eq. intros m. apply option_eq. intros p.
  rewrite as_map_lookup by (by apply filter_names). rewrite lookup_delete_Some, as_map_lookup by done.
  rewrite list_elem_of_filter. naive_solver.
Qed.

Lemma filter_notin (ps : list LockedPackage) n : n ∉ name <$> base.filter (λ p, name p ≠ n) ps.
Proof. rewrite list_elem_of_fmap. intros (p & -> & [H _]%list_elem_of_filter). done. Qed.

Lemma new_well_formed : well_formed new ∧ as_map new = ∅.
Proof. split; [split; constructor|done]. Qed.

Lemma upsert_well_formed l pkg : NoDup (name <$> packages l) → well_formed (upsert l pkg).
Proof.
  intros Hd. split; [apply (StronglySorted_merge_sort by_name)|].
  rewrite (upsert_permutation l pkg Hd). cbn [fmap list_fmap]. constructor; [apply filter_notin|by apply filter_names].
Qed.

Lemma upsert_as_map l pkg : NoDup (name <$> packages l) → as_map (upsert l pkg) = <[name pkg := pkg]> (as_map l).
Proof.
  intros Hd. unfold as_map. destruct (upsert_well_formed l pkg Hd) as [_ Hd'].
  rewrite (as_map_Permutation _ _ Hd' (upsert_permutation l pkg Hd)). cbn [fmap list_fmap list_to_map].
  cbn. rewrite as_map_filter by done. by rewrite insert_delete_eq.
Qed.

Lemma remove_well_formed l n : well_formed l → well_formed (remove l n).1.
Proof.
  intros [Hs Hd]. split; cbn [remove packages fst]; [|by apply filter_names].
  clear Hd. induction Hs as [|p ps Hs IH Hp]; [constructor|]. destruct (decide (name p ≠ n)) as [E|E].
  - rewrite filter_cons_True by done. constructor; [done|]. rewrite Forall_forall in Hp |- *.
    intros q [_ Hq]%list_elem_of_filter. by apply Hp.
  - by rewrite filter_cons_False.
Qed.

Lemma remove_as_map l n : NoDup (name <$> packages l) → as_map (remove l n).1 = delete n (as_map l).
Proof. apply as_map_filter. Qed.

Lemma find_as_map l n : NoDup (name <$> packages l) → find l n = as_map l !! n.
Proof.
  intros Hd. apply option_eq. intros p. unfold as_map. rewrite as_map_lookup by done. split; [apply find_Some|].
  intros [Hp Hn]. destruct (find l n) as [q|] eqn:E.
  - f_equal. apply find_Some in E as [Hq Hqn].
    assert (as_map l !! n = Some p ∧ as_map l !! n = Some q) as [E1 E2] by (unfold as_map; rewrite !as_map_lookup by done; done).
    congruence.
  - exfalso. apply (find_None _ _ E), list_elem_of_fmap. by exists p.
Qed.

(** [remove] reports whether the name was there. *)
Lemma remove_found l n : (remove l n).2 = bool_decide (n ∈ name <$> packages l).
Proof.
  cbn [remove snd]. generalize (packages l). intros ps. case_bool_decide as Hin.
  - apply Nat.ltb_lt. apply list_elem_of_fmap in Hin as (p & -> & Hp).
    by apply (length_filter_lt _ _ p); [done|intros H; apply H].
  - apply Nat.ltb_ge. rewrite filter_id; [lia|]. intros p Hp E. apply Hin, list_elem_of_fmap. by exists p.
Qed.

(** There is one sorted list of the packages of a map. *)
Lemma sorted_unique ps qs :
  StronglySorted by_name ps → StronglySorted by_name qs → NoDup (name <$> ps) → ps ≡ₚ qs → ps = qs.
Proof.
  intros Hs. revert qs. induction Hs as [|p ps Hs IH Hp]; intros qs Sk Dl P; [by apply Permutation_nil in P|].
  destruct Sk as [|q qs Hqs Hq]; [by apply Permutation_sym, Permutation_nil in P|].
  rewrite Forall_forall in Hp, Hq. apply NoDup_cons in Dl as [Hn Dl].
  assert (p = q) as ->; [|f_equal; apply IH; [done|done|by eapply Permutation_cons_inv]].
  destruct (decide (p = q)) as [|N]; [done|]. exfalso.
  assert (p ∈ q :: qs) as [Hc|Hin]%elem_of_cons by (rewrite <-P; left); [done|].
  assert (q ∈ p :: ps) as [Hc|Hin']%elem_of_cons by (rewrite P; left); [congruence|].
  assert (name p = name q) as En by (apply (anti_symm String.le); [by apply Hp|by apply Hq]).
  apply Hn. rewrite En. apply list_elem_of_fmap. by exists q.
Qed.

Lemma well_formed_ext l k : well_formed l → well_formed k → as_map l = as_map k → packages l = packages k.
Proof.
  intros [Sl Dl] [Sk Dk] E. apply sorted_unique; [done..|].
  apply NoDup_Permutation; [by eapply NoDup_fmap_1|by eapply NoDup_fmap_1|]. intros p.
  pose proof (as_map_lookup _ (name p) p Dl) as L. pose proof (as_map_lookup _ (name p) p Dk) as K.
  unfold as_map in E. rewrite E in L. naive_solver.
Qed.
