(* ===== verification/Registry.v ===== *)
(** * The registry's configuration and index

    [crates/mty-pkg/src/registry.rs].  The file system, [serde]'s readers and
    writers, and the accessors of a [serde_json::Value] are parameters; a
    path is the bytes of a Unix path. *)

From Stdlib Require Import Ascii.
From stdpp Require Import base list strings gmap sets.
From S2P Require Import Prelude Semver Lockfile.

Notation length := List.length (only parsing).

Definition DEFAULT_REGISTRY_SLUG : string := "mighty-pkg/registry"%string.
Definition LEGACY_REGISTRY_SLUG : string := "stardust-pkg/registry"%string.

Definition is_official_registry (slug : string) : bool :=
  String.eqb slug DEFAULT_REGISTRY_SLUG || String.eqb slug LEGACY_REGISTRY_SLUG.

Definition INDEX_TTL_SECS : Z := (60 * 60)%Z.

Definition string_of : list ascii → string := String.string_of_list_ascii.
Definition bytes : string → list ascii := String.list_ascii_of_string.

(** [Path::join] on Unix. *)
Definition join (base rel : string) : string :=
  match head (bytes rel), last (bytes base) with
  | Some "/"%char, _ => rel
  | _, None => rel
  | _, Some "/"%char => base +:+ rel
  | _, Some _ => base +:+ "/" +:+ rel
  end.

(** ** Configuration *)

Record SigningConfig : Type := mkSigning { mode : option string; oidc_issuer : option string }.

Record RegistryConfig : Type := mkConfig {
  cfg_default : option string;
  extras : list string;
  signing : SigningConfig
}.

(** The derived [Default]. *)
Definition default_config : RegistryConfig := mkConfig None [] (mkSigning None None).

(** [retain(|s| seen.insert(s.clone()))] *)
Fixpoint retain_new (seen : gset string) (l : list string) : list string :=
  match l with
  | [] => []
  | s :: l => if decide (s ∈ seen) then retain_new seen l else s :: retain_new ({[s]} ∪ seen) l
  end.

Definition slugs (c : RegistryConfig) : list string :=
  retain_new ∅ (default DEFAULT_REGISTRY_SLUG (cfg_default c) :: extras c).

Inductive RegistryError (IoError TomlError SerError JsonError : Type) : Type :=
  | RIo (e : IoError)
  | RToml (e : TomlError)
  | RTomlSer (e : SerError)
  | RJson (e : JsonError)
  | BadSlug (s : string).
Arguments RIo {_ _ _ _} _.
Arguments RToml {_ _ _ _} _.
Arguments RTomlSer {_ _ _ _} _.
Arguments RJson {_ _ _ _} _.
Arguments BadSlug {_ _ _ _} _.

(** [str::split] of bytes at a byte. *)
Fixpoint split_bytes (c : ascii) (s : list ascii) : list (list ascii) :=
  match s with
  | [] => [[]]
  | x :: s' =>
      if Ascii.eqb x c then [] :: split_bytes c s'
      else match split_bytes c s' with p :: ps => (x :: p) :: ps | [] => [[x]] end
  end.

Definition parse_slug {I T S J} (slug : string) : Res (RegistryError I T S J) (string * string) :=
  match split_bytes "/" (bytes slug) with
  | [o; r] => match o, r with
              | [], _ | _, [] => Err (BadSlug slug)
              | _, _ => Ok (string_of o, string_of r)
              end
  | _ => Err (BadSlug slug)
  end.

Definition slug_to_cache_key (slug : string) : string := replace_char "/" "__" slug.

(** ** The index *)

Record RegistryRelease : Type := mkRelease {
  rel_name : string;
  rel_version : string;
  tag : string;
  tarball_url : option string;
  sha256_url : option string;
  html_url : option string;
  body_preview : option string
}.

Record RegistryIndex : Type := mkIndex {
  slug : string;
  fetched_at : Z;
  last_modified : option string;
  releases : list RegistryRelease
}.

Definition new_index (s : string) : RegistryIndex := mkIndex s 0 None [].

(** [u64::saturating_sub] *)
Definition saturating_sub (a b : Z) : Z := Z.max 0 (a - b)%Z.

Definition is_stale (i : RegistryIndex) (now : Z) : bool := (INDEX_TTL_SECS <? saturating_sub now (fetched_at i))%Z.

Definition entries (i : RegistryIndex) : list (string * string) := (λ r, (rel_name r, rel_version r)) <$> releases i.

Definition versions_for (i : RegistryIndex) (n : string) : list string :=
  rel_version <$> base.filter (λ r, rel_name r = n) (releases i).

Definition find_release (i : RegistryIndex) (n v : string) : option RegistryRelease :=
  snd <$> list_find (λ r, rel_name r = n ∧ rel_version r = v) (releases i).

Definition cache_path (repo_root s : string) : string :=
  join (join (join (join repo_root ".mighty") "registry") (slug_to_cache_key s)) "index.json".

(** ** Tags *)

Definition is_ascii_digit (c : ascii) : bool := bool_decide (48 ≤ nat_of_ascii c ≤ 57)%nat.

(** The test of the loop of [split_tag] at [i]. *)
Definition dash_digit (bs : list ascii) (i : nat) : Prop :=
  bs !! i = Some "-"%char ∧ match bs !! S i with Some c => is_ascii_digit c = true | None => False end.

#[export] Instance dash_digit_dec bs i : Decision (dash_digit bs i).
Proof. unfold dash_digit. destruct (bs !! S i); apply _. Defined.

(** [(0..bytes.len()).rev()] up to the first hit. *)
Definition split_tag (t : string) : option (string * string) :=
  let bs := bytes t in
  i ← snd <$> list_find (dash_digit bs) (reverse (seq 0 (length bs)));
  let n := take i bs in
  let v := drop (i + 1) bs in
  match n, v with
  | [], _ | _, [] => None
  | _, _ => Some (string_of n, string_of v)
  end.

Definition make_tag (n v : string) : string := n +:+ "-" +:+ v.

Definition gh_source (s : string) : string := "registry+gh://" +:+ s.

(** [str::strip_prefix] of a string. *)
Fixpoint strip_prefix_str (p s : string) : option string :=
  match p, s with
  | EmptyString, _ => Some s
  | String a p, String b s => if Ascii.eqb a b then strip_prefix_str p s else None
  | _, EmptyString => None
  end.

Definition slug_from_source (s : string) : option string := strip_prefix_str "registry+gh://" s.

(** ** Files and pages *)

(** [chars().take(n)] of UTF-8 text: a continuation byte belongs to the
    character before it. *)
Fixpoint take_chars (n : nat) (s : string) : string :=
  match s with
  | EmptyString => EmptyString
  | String c t =>
      if bool_decide (128 ≤ nat_of_ascii c < 192)%nat then String c (take_chars n t)
      else match n with O => EmptyString | S n => String c (take_chars n t) end
  end.

Section files.
Context {IoError TomlError SerError JsonError Value : Type}.
Notation Error := (RegistryError IoError TomlError SerError JsonError).
Variable path_exists : string → bool.
Variable read_to_string : string → Res IoError string.
Variable parent : string → option string.
Variable create_dir_all : string → Res IoError unit.
Variable write : string → string → Res IoError unit.
(** [toml::from_str::<Wrapper>], the [registry] field of its result. *)
Variable toml_registry : string → Res TomlError (option RegistryConfig).
Variable index_from_str : string → Res JsonError RegistryIndex.
Variable index_to_string : RegistryIndex → Res JsonError string.
(** [serde_json::Value] *)
Variable value_from_str : string → Res JsonError Value.
Variable get : Value → string → option Value.
Variable as_str : Value → option string.
Variable as_array : Value → option (list Value).

Definition load_registry_config (path : string) : Res Error RegistryConfig :=
  if negb (path_exists path) then Ok default_config
  else
    src ← map_err RIo (read_to_string path);
    w ← map_err RToml (toml_registry src);
    Ok (default default_config w).

Definition load_cached_index (repo_root s : string) : Res Error (option RegistryIndex) :=
  let p := cache_path repo_root s in
  if negb (path_exists p) then Ok None
  else
    src ← map_err RIo (read_to_string p);
    idx ← map_err RJson (index_from_str src);
    Ok (Some idx).

(** The file's path and text, and the directory made for it. *)
Definition save_cached_index (repo_root : string) (idx : RegistryIndex) : Res Error unit :=
  let p := cache_path repo_root (slug idx) in
  _ ← match parent p with Some d => map_err RIo (create_dir_all d) | None => Ok tt end;
  txt ← map_err RJson (index_to_string idx);
  map_err RIo (write p txt).

(** One asset: a later one of the same name replaces an earlier one. *)
Definition scan_asset (want_tar want_sha : string) (urls : option string * option string) (asset : Value)
  : option string * option string :=
  let aname := default EmptyString (v ← get asset "name"; as_str v) in
  let aurl := v ← get asset "browser_download_url"; as_str v in
  if String.eqb aname want_tar then (aurl, urls.2)
  else if String.eqb aname want_sha then (urls.1, aurl)
  else urls.

Definition parse_release (item : Value) : option RegistryRelease :=
  t ← (v ← get item "tag_name"; as_str v);
  nv ← split_tag t;
  let html := v ← get item "html_url"; as_str v in
  let body := take_chars 400 <$> (v ← get item "body"; as_str v) in
  let want_tar := make_tag nv.1 nv.2 +:+ ".tar.gz" in
  let want_sha := make_tag nv.1 nv.2 +:+ ".tar.gz.sha256" in
  let urls := match (v ← get item "assets"; as_array v) with
              | Some assets => foldl (scan_asset want_tar want_sha) (None, None) assets
              | None => (None, None)
              end in
  Some (mkRelease nv.1 nv.2 t urls.1 urls.2 html body).

Definition parse_releases_page (body : string) : Res Error (list RegistryRelease) :=
  arr ← map_err RJson (value_from_str body);
  match as_array arr with
  | None => Ok []
  | Some items => Ok (omap parse_release items)
  end.
End files.

(** ** Tokens *)

Record AuthStore : Type := mkAuth { tokens : gmap string string }.

(** [env] is the value of [GITHUB_TOKEN]. *)
Definition token_for (env : option string) (a : AuthStore) (s : string) : option string :=
  match tokens a !! s with
  | Some t => Some t
  | None => match env with Some t => if String.eqb t "" then None else Some t | None => None end
  end.

Definition set_token (a : AuthStore) (s t : string) : AuthStore := mkAuth (<[s := t]> (tokens a)).

(** The crate's own tests. *)
Example slugs_dedup_and_default_first :
  slugs (mkConfig (Some "a/b") ["a/b"; "c/d"; "c/d"] (mkSigning None None))%string = ["a/b"; "c/d"]%string.
Proof. by vm_compute. Qed.

Example split_tag_basic :
  (split_tag "otel-0.1.0", split_tag "my-lib-1.2.3", split_tag "v1.2.3", split_tag "just-words")%string
  = (Some ("otel", "0.1.0"), Some ("my-lib", "1.2.3"), None, None)%string.
Proof. by vm_compute. Qed.

Example cache_path_shape :
  cache_path "/tmp/r" "foo/bar" = "/tmp/r/.mighty/registry/foo__bar/index.json"%string.
Proof. by vm_compute. Qed.

(** ** Bytes *)

Lemma bytes_app s t : bytes (s +:+ t) = bytes s ++ bytes t.
Proof. induction s as [|c s IH]; [done|]. unfold bytes in *. simpl. by rewrite IH. Qed.

Lemma string_of_bytes s : string_of (bytes s) = s.
Proof. apply String.string_of_list_ascii_of_string. Qed.

Lemma bytes_string_of l : bytes (string_of l) = l.
Proof. apply String.list_ascii_of_string_of_list_ascii. Qed.

Lemma bytes_nil s : bytes s = [] → s = EmptyString.
Proof. by destruct s. Qed.

(** ** The order of the registries *)

Lemma retain_new_elem seen l s : s ∈ retain_new seen l ↔ s ∈ l ∧ s ∉ seen.
Proof.
  revert seen. induction l as [|x l IH]; intros seen; simpl; [set_solver|].
  destruct (decide (x ∈ seen)); rewrite ?elem_of_cons, IH; [set_solver|].
  destruct (decide (s = x)); set_solver.
Qed.

Lemma retain_new_NoDup seen l : NoDup (retain_new seen l).
Proof.
  revert seen. induction l as [|x l IH]; intros seen; simpl; [constructor|].
  destruct (decide (x ∈ seen)); [apply IH|]. constructor; [|apply IH]. rewrite retain_new_elem. set_solver.
Qed.

(** The order of first occurrence is kept: what is in front of an entry of
    the result was in front of it in the list. *)
Lemma retain_new_sublist seen l : sublist (retain_new seen l) l.
Proof.
  revert seen. induction l as [|x l IH]; intros seen; simpl; [constructor|].
  destruct (decide (x ∈ seen)); constructor; apply IH.
Qed.

Lemma slugs_cons c : ∃ l, slugs c = default DEFAULT_REGISTRY_SLUG (cfg_default c) :: l.
Proof. unfold slugs. cbn [retain_new]. rewrite decide_False by set_solver. eauto. Qed.

(** ** The split of a tag *)

Lemma find_last_seq P `{∀ i, Decision (P i)} n j i :
  list_find P (reverse (seq 0 n)) = Some (j, i) ↔ P i ∧ i < n ∧ j = n - S i ∧ ∀ k, i < k < n → ¬ P k.
Proof.
  assert (∀ j, j < n → reverse (seq 0 n) !! j = Some (n - S j)) as Hl.
  { intros k Hk. rewrite reverse_lookup by (by rewrite length_seq). rewrite length_seq. apply lookup_seq. lia. }
  rewrite list_find_Some. split.
  - intros (E & HP & Hf). assert (j < n) as Hj.
    { apply lookup_lt_Some in E. by rewrite length_reverse, length_seq in E. }
    rewrite Hl in E by done. injection E as <-. split_and!; [done|lia|lia|]. intros k Hk.
    apply (Hf (n - S k)); [|lia]. rewrite Hl by lia. f_equal. lia.
  - intros (HP & Hi & -> & Hf). split_and!; [rewrite Hl by lia; f_equal; lia|done|]. intros k y E Hk.
    rewrite Hl in E by lia. injection E as <-. apply Hf. lia.
Qed.

(** A version part: it starts with a digit and no [-] of it stands before
    one. *)
Definition version_part (v : string) : Prop :=
  match bytes v with c :: _ => is_ascii_digit c = true | [] => False end ∧ ∀ i, ¬ dash_digit (bytes v) i.

Lemma dash_digit_app a b i : dash_digit (a ++ b) (length a + i) ↔ dash_digit b i.
Proof.
  unfold dash_digit. rewrite lookup_app_r, Nat.add_comm, Nat.add_sub by lia.
  rewrite lookup_app_r by lia. replace (S (i + length a) - length a) with (S i) by lia. done.
Qed.

Lemma dash_digit_bound bs i : dash_digit bs i → i < length bs.
Proof. intros [H _]. by apply lookup_lt_Some in H. Qed.

Lemma split_tag_make n v : n ≠ EmptyString → version_part v → split_tag (make_tag n v) = Some (n, v).
Proof.
  intros Hn [Hv Hnd]. unfold split_tag, make_tag. rewrite bytes_app. change (bytes ("-" +:+ v)) with ("-"%char :: bytes v).
  set (bs := bytes n ++ "-"%char :: bytes v).
  assert (list_find (dash_digit bs) (reverse (seq 0 (length bs))) = Some (length bs - S (length (bytes n)), length (bytes n))) as ->.
  { apply find_last_seq. split_and!; [|unfold bs; rewrite length_app; simpl; lia|done|].
    - unfold bs. rewrite <-(Nat.add_0_r (length (bytes n))). apply dash_digit_app. split; [done|]. simpl.
      by destruct (bytes v).
    - intros k Hk. unfold bs. replace k with (length (bytes n) + S (k - S (length (bytes n)))) by lia.
      rewrite dash_digit_app. intros [H1 H2]. by apply (Hnd (k - S (length (bytes n)))). }
  cbn [option_fmap option_map snd fmap mbind option_bind]. unfold bs.
  rewrite take_app_length, drop_app_add. cbn [drop]. rewrite !drop_0.
  destruct (bytes n) as [|c l] eqn:En; [by apply bytes_nil in En|]. destruct (bytes v) as [|d k] eqn:Ev; [done|].
  rewrite <-En, <-Ev. by rewrite !string_of_bytes.
Qed.

Lemma split_tag_Some t n v : split_tag t = Some (n, v) → t = make_tag n v ∧ n ≠ EmptyString ∧ version_part v.
Proof.
  unfold split_tag. destruct (list_find _ _) as [[j i]|] eqn:E; [|done]. apply find_last_seq in E as (HP & Hi & _ & Hf).
  cbn [option_fmap option_map snd fmap mbind option_bind].
  destruct (take i (bytes t)) as [|c l] eqn:En; [done|]. destruct (drop (i + 1) (bytes t)) as [|d k] eqn:Ev; [done|].
  intros [= <- <-]. destruct HP as [H1 H2].
  assert (bytes t = (c :: l) ++ "-"%char :: d :: k) as Et.
  { rewrite <-En, <-Ev, Nat.add_1_r. symmetry. by apply take_drop_middle. }
  assert (length (c :: l) = i) as Hlen by (rewrite <-En, length_take; lia).
  split_and!.
  - rewrite <-(string_of_bytes t), Et. unfold make_tag. rewrite <-(string_of_bytes (_ +:+ _)). f_equal.
    rewrite bytes_app. change (bytes (String c (string_of l))) with (c :: bytes (string_of l)).
    change (bytes ("-" +:+ String d (string_of k))) with ("-"%char :: d :: bytes (string_of k)).
    by rewrite !bytes_string_of.
  - done.
  - unfold version_part. change (bytes (String d (string_of k))) with (d :: bytes (string_of k)).
    rewrite bytes_string_of. split.
    + rewrite Et, lookup_app_r in H2 by lia. rewrite Hlen in H2. by replace (S i - i) with 1 in H2 by lia.
    + intros k' Hd. pose proof (dash_digit_bound _ _ Hd) as Hb.
      apply (Hf (i + S k')).
      * rewrite Et, length_app, Hlen. simpl in Hb |- *. lia.
      * rewrite Et. rewrite <-Hlen. apply dash_digit_app. destruct Hd as [Hd1 Hd2]. by split.
Qed.

Lemma slug_from_gh_source s : slug_from_source (gh_source s) = Some s.
Proof. done. Qed.

Lemma strip_prefix_str_Some p s t : strip_prefix_str p s = Some t ↔ s = p +:+ t.
Proof.
  revert s. induction p as [|a p IH]; intros s; [split; [by intros [= ->]|by intros ->]|].
  destruct s as [|b s]; [done|]. simpl. destruct (Ascii.eqb_spec a b) as [->|N].
  - rewrite IH. split; [by intros ->|by intros [= ->]].
  - split; [done|by intros [= -> _]].
Qed.
