(* ===== verification/Resolver.v ===== *)
(** * The dependency resolver

    [crates/mty-pkg/src/resolver.rs] and the dependencies of a manifest,
    [crates/mty-driver/src/manifest.rs].  A [BTreeMap] is a [gmap] walked in
    the order of its keys.  The file system is three parameters: whether a
    path exists, the manifest at a path, and the cached index of a registry.
    The recursion of [walk] is on fuel; PkgTheorems shows how much is
    enough.  What the walk keeps is proved after it. *)

From stdpp Require Import base list strings gmap sets sorting.
From S2P Require Import Prelude Semver Lockfile Registry.

Notation length := List.length (only parsing).

Definition MANIFEST_NAME : string := "mighty.toml".

(** ** Manifests *)

Record Package : Type := mkPackage { pkg_name : string; pkg_version : string; edition : string; profile : string }.

Record DetailedDep : Type := mkDetailed {
  dep_version : option string;
  dep_path : option string;
  dep_git : option string;
  dep_rev : option string;
  dep_hash : option string
}.

Inductive Dep : Type :=
  | VersionDep (v : string)
  | Detailed (d : DetailedDep).

(** The fields the resolver reads. *)
Record Manifest : Type := mkManifest { package : Package; deps : gmap string Dep }.

Module Deps.
Definition version (d : Dep) : option string := match d with VersionDep v => Some v | Detailed d => dep_version d end.
Definition path (d : Dep) : option string := match d with VersionDep _ => None | Detailed d => dep_path d end.
Definition git (d : Dep) : option string := match d with VersionDep _ => None | Detailed d => dep_git d end.
Definition rev (d : Dep) : option string := match d with VersionDep _ => None | Detailed d => dep_rev d end.
Definition hash (d : Dep) : option string := match d with VersionDep _ => None | Detailed d => dep_hash d end.
End Deps.

Inductive DepSourceKind : Set := KRegistry | KPath | KGit.

Definition source_kind (d : Dep) : DepSourceKind :=
  match d with
  | VersionDep _ => KRegistry
  | Detailed d => if dep_path d then KPath else if dep_git d then KGit else KRegistry
  end.

(** The entries of a [BTreeMap] in the order of its keys. *)
Definition key_le {A} (p q : string * A) : Prop := String.le p.1 q.1.
#[export] Instance key_le_dec A : RelDecision (@key_le A) := λ p q, String.le_dec p.1 q.1.
#[export] Instance key_le_trans A : Transitive (@key_le A).
Proof. intros p q r. unfold key_le. apply transitivity. Qed.
#[export] Instance key_le_total A : Total (@key_le A).
Proof. intros p q. unfold key_le. apply total. apply _. Qed.

Definition in_order {A} (m : gmap string A) : list (string * A) := merge_sort key_le (map_to_list m).

(** ** Resolution *)

Inductive ResolveError (ManifestError : Type) : Type :=
  | ManifestErr (pkg : string) (e : ManifestError)
  | SemverErr (dep : string) (e : SemverError)
  | VersionConflict (nm chosen requestor req : string)
  | AmbiguousSource (nm : string)
  | EmptySource (nm : string)
  | PathMissing (nm path : string).
Arguments ManifestErr {_} _ _.
Arguments SemverErr {_} _ _.
Arguments VersionConflict {_} _ _ _ _.
Arguments AmbiguousSource {_} _.
Arguments EmptySource {_} _.
Arguments PathMissing {_} _ _.

Record ChosenDep : Type := mkChosen {
  ch_version : Version;
  ch_source : string;
  ch_dependencies : list string
}.

(** The two maps [walk] threads. *)
Record State : Type := mkState { chosen : gmap string ChosenDep; visited : gset string }.

Definition requirement_floor (r : VersionReq) : Version :=
  match r with Wildcard => mkVersion 0 0 0 | Exact v => v | Caret v _ | Tilde v => v end.

(** [Some(v) > best] *)
Definition better (v : Version) (best : option Version) : bool :=
  match best with None => true | Some b => version_lt b v end.

Definition keep_best (r : VersionReq) (best : option Version) (vstr : string) : option Version :=
  match parse_version (chars vstr) with
  | Err _ => best
  | Ok v => if matches r v && better v best then Some v else best
  end.

Definition highest_matching (i : RegistryIndex) (n : string) (r : VersionReq) : option Version :=
  foldl (keep_best r) None (versions_for i n).

Definition validate_dep {E} (n : string) (d : Dep) : Res (ResolveError E) unit :=
  match Deps.path d, Deps.git d with
  | Some _, Some _ => Err (AmbiguousSource n)
  | _, _ =>
      match d with
      | Detailed (mkDetailed None None None _ _) => Err (EmptySource n)
      | _ => Ok tt
      end
  end.

Section resolver.
Context {ManifestError IndexError : Type}.
Variable path_exists : string → bool.
Variable load_manifest : string → Res ManifestError Manifest.
(** [registry::load_cached_index] under the resolver's root *)
Variable load_index : string → Res IndexError (option RegistryIndex).
Notation Error := (ResolveError ManifestError).

Record Resolver : Type := mkResolver {
  root : string;
  registries : RegistryConfig;
  injected_indexes : list RegistryIndex
}.

(** [config] is the result of [load_registry_config] on the root's
    manifest. *)
Definition new_resolver {E} (root : string) (config : string → Res E RegistryConfig) : Resolver :=
  mkResolver root (match config (join root MANIFEST_NAME) with Ok c => c | Err _ => default_config end) [].

Definition with_registry_config (root : string) (cfg : RegistryConfig) : Resolver := mkResolver root cfg [].

Definition lookup_in_registry (self : Resolver) (s n : string) (r : VersionReq) : option Version :=
  match list_find (λ i, slug i = s) (injected_indexes self) with
  | Some (_, idx) => highest_matching idx n r
  | None => match load_index s with Ok (Some idx) => highest_matching idx n r | _ => None end
  end.

(** The loop over the registries: the first with a match. *)
Fixpoint first_registry (self : Resolver) (ss : list string) (n : string) (r : VersionReq) : option (Version * string) :=
  match ss with
  | [] => None
  | s :: ss =>
      match lookup_in_registry self s n r with
      | Some v => Some (v, gh_source s)
      | None => first_registry self ss n r
      end
  end.

Definition resolve_path (n rel manifest_root : string) : Res Error (Version * string * option string) :=
  let abs := join manifest_root rel in
  if negb (path_exists abs) then Err (PathMissing n abs)
  else
    let star := join abs MANIFEST_NAME in
    v ← (if path_exists star then
           sub ← map_err (ManifestErr n) (load_manifest star);
           map_err (SemverErr n) (parse_version (chars (pkg_version (package sub))))
         else Ok (mkVersion 0 0 0));
    Ok (v, path_source abs, Some abs).

Definition resolve_registry (self : Resolver) (n : string) (d : Dep) : Res Error (Version * string * option string) :=
  r ← map_err (SemverErr n) (parse_req (chars (default "*"%string (Deps.version d))));
  let ss := slugs (registries self) in
  match first_registry self ss n r with
  | Some (v, src) => Ok (v, src, None)
  | None => Ok (requirement_floor r, gh_source (default DEFAULT_REGISTRY_SLUG (head ss)), None)
  end.

(** The source's [expect]s hold by the kind; a kind without its field is
    the empty string here. *)
Definition resolve_one (self : Resolver) (n : string) (d : Dep) (kind : DepSourceKind) (manifest_root : string)
  : Res Error (Version * string * option string) :=
  match kind with
  | KPath => resolve_path n (default ""%string (Deps.path d)) manifest_root
  | KGit => Ok (mkVersion 0 0 0, git_source (default ""%string (Deps.git d)) (Deps.rev d), None)
  | KRegistry => resolve_registry self n d
  end.

Definition set_dependencies (ds : list string) (c : ChosenDep) : ChosenDep :=
  mkChosen (ch_version c) (ch_source c) ds.

(** One iteration of the loop of [walk]; [rec] is the recursive call. *)
Definition walk_dep (self : Resolver) (rec : Manifest → string → State → option (Res Error State))
    (m : Manifest) (manifest_root : string) (n : string) (d : Dep) (st : State) : option (Res Error State) :=
  match validate_dep n d with
  | Err e => Some (Err e)
  | Ok _ =>
  match resolve_one self n d (source_kind d) manifest_root with
  | Err e => Some (Err e)
  | Ok (v, src, sub_dir) =>
  match chosen st !! n with
  | Some existing =>
      if decide (ch_version existing = v) then Some (Ok st)
      else Some (Err (VersionConflict n (to_string (ch_version existing)) (pkg_name (package m)) (to_string v)))
  | None =>
      let ch := <[n := mkChosen v src []]> (chosen st) in
      if decide (n ∈ visited st) then Some (Ok (mkState ch (visited st)))
      else
        let vis := {[n]} ∪ visited st in
        match sub_dir with
        | None => Some (Ok (mkState ch vis))
        | Some dir =>
            let star_toml := join dir MANIFEST_NAME in
            if path_exists star_toml then
              match load_manifest star_toml with
              | Err e => Some (Err (ManifestErr n e))
              | Ok sub =>
                  rec sub dir (mkState (alter (set_dependencies (in_order (deps sub)).*1) n ch) vis)
              end
            else Some (Ok (mkState ch vis))
        end
  end end end.

Fixpoint walk_deps (self : Resolver) (rec : Manifest → string → State → option (Res Error State))
    (m : Manifest) (manifest_root : string) (ds : list (string * Dep)) (st : State) : option (Res Error State) :=
  match ds with
  | [] => Some (Ok st)
  | (n, d) :: ds =>
      match walk_dep self rec m manifest_root n d st with
      | Some (Ok st) => walk_deps self rec m manifest_root ds st
      | r => r
      end
  end.

Fixpoint walk (fuel : nat) (self : Resolver) (m : Manifest) (manifest_root : string) (st : State)
  : option (Res Error State) :=
  match fuel with
  | O => None
  | S fuel => walk_deps self (walk fuel self) m manifest_root (in_order (deps m)) st
  end.

Definition lock_entry (e : string * ChosenDep) : LockedPackage :=
  mkLocked e.1 (to_string (ch_version e.2)) (ch_source e.2) None (ch_dependencies e.2).

(** [resolve]: the entries of [chosen], in order, into a new lockfile. *)
Definition lock_of (ch : gmap string ChosenDep) : Lockfile :=
  foldl (λ l e, upsert l (lock_entry e)) new (in_order ch).

Definition resolve (fuel : nat) (self : Resolver) (m : Manifest) : option (Res Error Lockfile) :=
  match walk fuel self m (root self) (mkState ∅ ∅) with
  | None => None
  | Some (Err e) => Some (Err e)
  | Some (Ok st) => Some (Ok (lock_of (chosen st)))
  end.
End resolver.

(** ** The resolver's walk

    What [Resolver.walk] has established when it returns: the specification
    ([Reached], [Satisfied], [Good]) and its preservation through the loop
    and the recursion, the growth of [chosen], and the measure that bounds
    the recursion. *)

(** ** Maps in key order *)

Lemma in_order_Permutation {A} (m : gmap string A) : in_order m ≡ₚ map_to_list m.
Proof. apply merge_sort_Permutation. Qed.

Lemma elem_of_in_order {A} (m : gmap string A) n a : (n, a) ∈ in_order m ↔ m !! n = Some a.
Proof. rewrite in_order_Permutation. apply elem_of_map_to_list. Qed.

Lemma in_order_NoDup {A} (m : gmap string A) : NoDup (in_order m).*1.
Proof. rewrite in_order_Permutation. apply NoDup_fst_map_to_list. Qed.

Lemma in_order_keys {A} (m : gmap string A) n : n ∈ (in_order m).*1 ↔ is_Some (m !! n).
Proof.
  rewrite list_elem_of_fmap. split.
  - intros ([k a] & -> & H%elem_of_in_order). by exists a.
  - intros [a H%elem_of_in_order]. by exists (n, a).
Qed.

Section walk.
Context {ManifestError IndexError : Type}.
Variable path_exists : string → bool.
Variable load_manifest : string → Res ManifestError Manifest.
Variable load_index : string → Res IndexError (option RegistryIndex).
Variable self : Resolver.

Local Abbreviation Error := (ResolveError ManifestError).
Local Abbreviation resolve_one := (resolve_one path_exists load_manifest load_index self).
Local Abbreviation walk_dep := (walk_dep path_exists load_manifest load_index self).
Local Abbreviation walk_deps := (walk_deps path_exists load_manifest load_index self).
Local Abbreviation walk fuel := (walk path_exists load_manifest load_index fuel self).

Implicit Types (m : Manifest) (st : State) (ch : gmap string ChosenDep) (d : Dep).

(** The manifest of a directory, where it has one. *)
Definition sub_manifest (sub : option string) : option (Manifest * string) :=
  dir ← sub;
  if path_exists (join dir MANIFEST_NAME) then
    match load_manifest (join dir MANIFEST_NAME) with Ok sm => Some (sm, dir) | Err _ => None end
  else None.

(** A dependency of [m], found at [dir], and what it resolves to. *)
Definition Demands m dir n (v : Version) src sub : Prop :=
  ∃ d, deps m !! n = Some d ∧ validate_dep (E := ManifestError) n d = Ok tt
       ∧ resolve_one n d (source_kind d) dir = Ok (v, src, sub).

(** The manifests the dependencies lead to. *)
Inductive Reached (m0 : Manifest) : Manifest → string → Prop :=
  | Reached_root : Reached m0 m0 (root self)
  | Reached_sub m dir n v src sub sm sdir :
      Reached m0 m dir → Demands m dir n v src sub → sub_manifest sub = Some (sm, sdir) → Reached m0 sm sdir.

(** Every dependency of [m] is locked at the version it resolves to. *)
Definition Satisfied m dir ch : Prop :=
  ∀ n, is_Some (deps m !! n) → ∃ c src sub, ch !! n = Some c ∧ Demands m dir n (ch_version c) src sub.

(** A choice comes from a dependency of a manifest that was reached, and
    its own manifest, if it has one, is satisfied. *)
Definition Good m0 ch n (c : ChosenDep) : Prop :=
  ∃ m dir sub,
    Reached m0 m dir ∧ Demands m dir n (ch_version c) (ch_source c) sub
    ∧ match sub_manifest sub with
      | Some (sm, sdir) => ch_dependencies c = (in_order (deps sm)).*1 ∧ Satisfied sm sdir ch
      | None => ch_dependencies c = []
      end.

Lemma Satisfied_mono m dir ch ch' : ch ⊆ ch' → Satisfied m dir ch → Satisfied m dir ch'.
Proof.
  intros Hs H n Hn. destruct (H n Hn) as (c & src & sub & Hc & Hd). exists c, src, sub.
  split; [by eapply lookup_weaken|done].
Qed.

Lemma Good_mono m0 ch ch' n c : ch ⊆ ch' → Good m0 ch n c → Good m0 ch' n c.
Proof.
  intros Hs (m & dir & sub & Hr & Hd & H). exists m, dir, sub. split_and!; [done|done|].
  destruct (sub_manifest sub) as [[sm sdir]|]; [|done]. destruct H. split; [done|by eapply Satisfied_mono].
Qed.

(** ** What one iteration does *)

(** The outcomes of [walk_dep]: the choice is already there, it conflicts,
    or it is made, and then the manifest it leads to is walked. *)
Inductive Step (rec : Manifest → string → State → option (Res Error State)) m dir n st
  : option (Res Error State) → Prop :=
  | Step_kept c src sub :
      chosen st !! n = Some c → Demands m dir n (ch_version c) src sub → Step rec m dir n st (Some (Ok st))
  | Step_conflict c v src sub :
      chosen st !! n = Some c → Demands m dir n v src sub → ch_version c ≠ v →
      Step rec m dir n st
        (Some (Err (VersionConflict n (to_string (ch_version c)) (pkg_name (package m)) (to_string v))))
  | Step_leaf v src sub :
      chosen st !! n = None → Demands m dir n v src sub → sub_manifest sub = None →
      Step rec m dir n st (Some (Ok (mkState (<[n := mkChosen v src []]> (chosen st)) ({[n]} ∪ visited st))))
  | Step_walk v src sub sm sdir :
      chosen st !! n = None → Demands m dir n v src sub → sub_manifest sub = Some (sm, sdir) →
      Step rec m dir n st
        (rec sm sdir (mkState (<[n := mkChosen v src (in_order (deps sm)).*1]> (chosen st)) ({[n]} ∪ visited st)))
  | Step_failed e :
      (∀ k a b c, e ≠ VersionConflict k a b c) →
      (∀ v src sub, Demands m dir n v src sub →
         ∃ sdir e', sub = Some sdir ∧ path_exists (join sdir MANIFEST_NAME) = true
                    ∧ load_manifest (join sdir MANIFEST_NAME) = Err e') →
      Step rec m dir n st (Some (Err e)).

Lemma resolve_one_no_conflict n d kind dir e k a b c :
  resolve_one n d kind dir = Err e → e ≠ VersionConflict k a b c.
Proof.
  destruct kind; simpl; [|unfold resolve_path|done].
  - unfold resolve_registry. destruct (parse_req _); simpl; [|by intros [= <-]].
    by destruct (first_registry _ _ _ _ _) as [[??]|].
  - destruct (negb _); [by intros [= <-]|]. destruct (path_exists _); [|done].
    destruct (load_manifest _); simpl; [|by intros [= <-]]. by destruct (parse_version _); simpl; [|intros [= <-]].
Qed.

Lemma validate_no_conflict n d (e : Error) k a b c : validate_dep n d = Err e → e ≠ VersionConflict k a b c.
Proof.
  unfold validate_dep. intros H ->. destruct (Deps.path d), (Deps.git d); try done;
    destruct d as [?|[[?|] [?|] [?|] ??]]; done.
Qed.

Lemma Demands_det m dir n v v' src src' sub sub' :
  Demands m dir n v src sub → Demands m dir n v' src' sub' → v = v' ∧ src = src' ∧ sub = sub'.
Proof. intros (d & H1 & _ & H2) (d' & H1' & _ & H2'). simplify_eq. rewrite H2 in H2'. by simplify_eq. Qed.

Lemma walk_dep_step rec m dir n d st :
  visited st ⊆ dom (chosen st) → deps m !! n = Some d → Step rec m dir n st (walk_dep rec m dir n d st).
Proof.
  intros Hv Hd. unfold walk_dep. destruct (validate_dep n d) as [[]|e] eqn:Ev.
  2:{ apply Step_failed; [intros; by eapply validate_no_conflict|].
      intros v src sub (d' & H1 & H2 & _). simplify_eq. by rewrite Ev in H2. }
  destruct (resolve_one n d _ dir) as [[[v src] sub]|e] eqn:Er.
  2:{ apply Step_failed; [intros; by eapply resolve_one_no_conflict|].
      intros v src sub (d' & H1 & _ & H2). simplify_eq. by rewrite Er in H2. }
  assert (Demands m dir n v src sub) as HD by (by exists d).
  destruct (chosen st !! n) as [c|] eqn:Ec.
  { case_decide as E; [subst v; by eapply Step_kept|by eapply Step_conflict]. }
  rewrite decide_False by (intros Hin; apply Hv, elem_of_dom in Hin as [? ?]; congruence).
  destruct sub as [sdir|]; [|by eapply Step_leaf].
  destruct (path_exists (join sdir MANIFEST_NAME)) eqn:Ep.
  2:{ eapply Step_leaf; [done|done|]. unfold sub_manifest. simpl. by rewrite Ep. }
  destruct (load_manifest (join sdir MANIFEST_NAME)) as [sm|e] eqn:El.
  - rewrite alter_insert_eq. eapply (Step_walk rec m dir n st v src (Some sdir)); [done..|].
    unfold sub_manifest. simpl. by rewrite Ep, El.
  - apply Step_failed; [done|]. intros v' src' sub' HD'. destruct (Demands_det _ _ _ _ _ _ _ _ _ HD HD') as (_ & _ & <-).
    by exists sdir, e.
Qed.

(** ** What the walk establishes *)

Definition Origin m0 n (c : ChosenDep) : Prop :=
  ∃ m dir sub, Reached m0 m dir ∧ Demands m dir n (ch_version c) (ch_source c) sub.

Definition Inv m0 st : Prop :=
  visited st ⊆ dom (chosen st) ∧ ∀ n c, chosen st !! n = Some c → Origin m0 n c.

(** What a walk from [st] to [st'] adds. *)
Definition Extends m0 st st' : Prop :=
  chosen st ⊆ chosen st' ∧ visited st' ⊆ dom (chosen st')
  ∧ ∀ n c, chosen st' !! n = Some c → chosen st !! n = Some c ∨ Good m0 (chosen st') n c.

(** Two reached manifests resolve one name to two versions. *)
Definition Conflicting m0 n a b requestor : Prop :=
  ∃ m1 dir1 m2 dir2 v1 v2 s1 s2 sub1 sub2,
    Reached m0 m1 dir1 ∧ Reached m0 m2 dir2 ∧ Demands m1 dir1 n v1 s1 sub1 ∧ Demands m2 dir2 n v2 s2 sub2
    ∧ v1 ≠ v2 ∧ a = to_string v1 ∧ b = to_string v2 ∧ requestor = pkg_name (package m2).

(** A dependency of a reached manifest is invalid, does not resolve, or
    leads to a manifest that cannot be loaded. *)
Definition Failing m0 : Prop :=
  ∃ m dir n, Reached m0 m dir ∧ is_Some (deps m !! n)
    ∧ ∀ v src sub, Demands m dir n v src sub →
        ∃ sdir e, sub = Some sdir ∧ path_exists (join sdir MANIFEST_NAME) = true
                  ∧ load_manifest (join sdir MANIFEST_NAME) = Err e.

Definition Explained m0 (e : Error) : Prop :=
  match e with VersionConflict n a requestor b => Conflicting m0 n a b requestor | _ => Failing m0 end.

Definition Outcome m0 st (P : State → Prop) (o : option (Res Error State)) : Prop :=
  match o with
  | None => True
  | Some (Ok st') => Extends m0 st st' ∧ P st'
  | Some (Err e) => Explained m0 e
  end.

Definition rec_spec m0 (rec : Manifest → string → State → option (Res Error State)) : Prop :=
  ∀ m dir st, Reached m0 m dir → Inv m0 st → Outcome m0 st (λ st', Satisfied m dir (chosen st')) (rec m dir st).

Lemma Good_Origin m0 ch n c : Good m0 ch n c → Origin m0 n c.
Proof. intros (m & dir & sub & ? & ? & _). by exists m, dir, sub. Qed.

Lemma Extends_Inv m0 st st' : Inv m0 st → Extends m0 st st' → Inv m0 st'.
Proof.
  intros [_ H] (_ & Hv & Hg). split; [done|]. intros n c Hc. destruct (Hg n c Hc); [by apply H|by eapply Good_Origin].
Qed.

Lemma Extends_refl m0 st : Inv m0 st → Extends m0 st st.
Proof. intros [Hv _]. split_and!; [done|done|auto]. Qed.

Lemma Extends_trans m0 st1 st2 st3 : Extends m0 st1 st2 → Extends m0 st2 st3 → Extends m0 st1 st3.
Proof.
  intros (H1 & H2 & H3) (K1 & K2 & K3). split_and!; [by transitivity (chosen st2)|done|].
  intros n c Hc. destruct (K3 n c Hc) as [Hc'|]; [|by right]. destruct (H3 n c Hc'); [by left|right].
  by eapply Good_mono.
Qed.

(** The choice of [n] with its manifest walked. *)
Lemma walk_dep_outcome m0 rec m dir n d st :
  rec_spec m0 rec → Reached m0 m dir → Inv m0 st → deps m !! n = Some d →
  Outcome m0 st (λ st', ∃ c src sub, chosen st' !! n = Some c ∧ Demands m dir n (ch_version c) src sub)
    (walk_dep rec m dir n d st).
Proof.
  intros Hrec Hr [Hv Ho] Hd. destruct (walk_dep_step rec m dir n d st Hv Hd) as
    [c src sub Hc HD|c v src sub Hc HD Hne|v src sub Hc HD Hs|v src sub sm sdir Hc HD Hs|e Hk Hf].
  - split; [by apply Extends_refl|]. by exists c, src, sub.
  - destruct (Ho n c Hc) as (m1 & d1 & sub1 & Hr1 & HD1).
    by exists m1, d1, m, dir, (ch_version c), v, (ch_source c), src, sub1, sub.
  - assert (chosen st ⊆ <[n:=mkChosen v src []]> (chosen st)) as Hsub by (by apply insert_subseteq).
    split; [split_and!; [done|set_solver|]|].
    + intros k c Hk. cbn in Hk. apply lookup_insert_Some in Hk as [[<- <-]|[_ Hk]]; [right|by left].
      exists m, dir, sub. split_and!; [done|done|by rewrite Hs].
    + exists (mkChosen v src []), src, sub. split; [apply lookup_insert_eq|done].
  - set (st1 := mkState _ _). assert (Inv m0 st1) as Hi.
    { split; [cbn; set_solver|]. intros k c Hk. cbn in Hk. apply lookup_insert_Some in Hk as [[<- <-]|[_ Hk]]; [|by eapply Ho].
      by exists m, dir, sub. }
    assert (Reached m0 sm sdir) as Hrs by (by eapply Reached_sub).
    specialize (Hrec sm sdir st1 Hrs Hi). destruct (rec sm sdir st1) as [[st'|e]|]; [|done|done].
    destruct Hrec as [(H1 & H2 & H3) HS]. cbn in H1, H3.
    assert (chosen st' !! n = Some (mkChosen v src (in_order (deps sm)).*1)) as Hn
      by (eapply lookup_weaken; [apply lookup_insert_eq|exact H1]).
    split; [split_and!; [|done|]|].
    + etransitivity; [|exact H1]. by apply insert_subseteq.
    + intros k c Hk. destruct (decide (k = n)) as [->|Hkn].
      * right. rewrite Hn in Hk. injection Hk as <-. exists m, dir, sub. split_and!; [done|done|by rewrite Hs].
      * destruct (H3 k c Hk) as [Hk'|]; [left|by right]. by rewrite lookup_insert_ne in Hk'.
    + by eexists _, src, sub.
  - unfold Outcome, Explained. destruct e as [p e'|p e'|nm a b c|nm|nm|nm p];
      try (exists m, dir, n; split_and!; [done|by exists d|done]).
    by destruct (Hk nm a b c).
Qed.

Lemma walk_deps_outcome m0 rec m dir ds st :
  rec_spec m0 rec → Reached m0 m dir → Inv m0 st → (∀ n d, (n, d) ∈ ds → deps m !! n = Some d) →
  Outcome m0 st
    (λ st', ∀ n, n ∈ ds.*1 → ∃ c src sub, chosen st' !! n = Some c ∧ Demands m dir n (ch_version c) src sub)
    (walk_deps rec m dir ds st).
Proof.
  intros Hrec Hr. revert st. induction ds as [|[n d] ds IH]; intros st Hi Hds.
  { split; [by apply Extends_refl|]. intros n Hn. by apply elem_of_nil in Hn. }
  simpl. pose proof (walk_dep_outcome m0 rec m dir n d st Hrec Hr Hi (Hds n d ltac:(left))) as H1.
  destruct (walk_dep rec m dir n d st) as [[st1|e]|]; [|done|done]. destruct H1 as [HE (c & src & sub & Hc & HD)].
  specialize (IH st1 (Extends_Inv _ _ _ Hi HE) (λ n d Hin, Hds n d ltac:(by right))).
  destruct (walk_deps rec m dir ds st1) as [[st2|e]|]; [|done|done]. destruct IH as [HE2 HP].
  split; [by eapply Extends_trans|]. intros k [->|Hk]%elem_of_cons; [|by apply HP].
  exists c, src, sub. split; [|done]. destruct HE2 as [Hs _]. by eapply lookup_weaken.
Qed.

Lemma walk_outcome m0 fuel : rec_spec m0 (walk fuel).
Proof.
  induction fuel as [|fuel IH]; intros m dir st Hr Hi; [done|]. simpl.
  pose proof (walk_deps_outcome m0 (walk fuel) m dir (in_order (deps m)) st IH Hr Hi) as H.
  assert (∀ n d, (n, d) ∈ in_order (deps m) → deps m !! n = Some d) as Hds by (by intros n d ?%elem_of_in_order).
  specialize (H Hds). destruct (walk_deps _ m dir _ st) as [[st'|e]|]; [|done|done]. destruct H as [HE HP].
  split; [done|]. intros n Hn. by apply HP, in_order_keys.
Qed.

Lemma Inv_empty m0 : Inv m0 (mkState ∅ ∅).
Proof. split; [set_solver|]. intros n c Hc. exfalso. exact (lookup_empty_Some _ _ Hc). Qed.

(** ** The recursion is bounded by the names there are *)

Definition returns_from (k : nat) (rec : Manifest → string → State → option (Res Error State)) (U : gset string) : Prop :=
  ∀ m dir st, dom (deps m) ⊆ U → visited st ⊆ dom (chosen st) → size (U ∖ dom (chosen st)) < k →
    ∃ r, rec m dir st = Some r ∧ ∀ st', r = Ok st' → dom (chosen st) ⊆ dom (chosen st') ∧ visited st' ⊆ dom (chosen st').

Lemma walk_dep_returns U k rec m dir n d st :
  (∀ p sm, load_manifest p = Ok sm → dom (deps sm) ⊆ U) → returns_from k rec U →
  visited st ⊆ dom (chosen st) → size (U ∖ dom (chosen st)) < S k → n ∈ U → deps m !! n = Some d →
  ∃ r, walk_dep rec m dir n d st = Some r
       ∧ ∀ st', r = Ok st' → dom (chosen st) ⊆ dom (chosen st') ∧ visited st' ⊆ dom (chosen st').
Proof.
  intros HU Hrec Hv Hk Hn Hd. destruct (walk_dep_step rec m dir n d st Hv Hd) as
    [c src sub Hc HD|c v src sub Hc HD Hne|v src sub Hc HD Hs|v src sub sm sdir Hc HD Hs|e He Hf].
  - eexists; split; [done|]. by intros st' [= <-].
  - eexists; split; [done|]. by intros st' [=].
  - eexists; split; [done|]. intros st' [= <-]. cbn. set_solver.
  - set (st1 := mkState _ _). destruct (Hrec sm sdir st1) as (r & Hr & Hst).
    + unfold sub_manifest in Hs. destruct sub as [sd|]; [|done]. simpl in Hs. destruct (path_exists _); [|done].
      destruct (load_manifest _) as [sm'|] eqn:El; [|done]. injection Hs as -> _. by eapply HU.
    + cbn. set_solver.
    + cbn. rewrite dom_insert_L. apply not_elem_of_dom in Hc.
      enough (size (U ∖ ({[n]} ∪ dom (chosen st))) < size (U ∖ dom (chosen st))) by lia.
      apply subset_size. set_solver.
    + exists r. split; [done|]. intros st' E. destruct (Hst st' E) as [H1 H2]. split; [|done]. cbn in H1. set_solver.
  - eexists; split; [done|]. by intros st' [=].
Qed.

Lemma walk_returns U fuel :
  (∀ p sm, load_manifest p = Ok sm → dom (deps sm) ⊆ U) → returns_from fuel (walk fuel) U.
Proof.
  intros HU. induction fuel as [|fuel IH]; intros m dir st Hm Hv Hk; [lia|]. simpl.
  assert (∀ n d, (n, d) ∈ in_order (deps m) → deps m !! n = Some d) as Hds by (by intros n d ?%elem_of_in_order).
  revert st Hv Hk Hds. induction (in_order (deps m)) as [|[n d] ds IHds]; intros st Hv Hk Hds.
  { eexists; split; [done|]. by intros st' [= <-]. }
  simpl. assert (deps m !! n = Some d) as Hd by (apply Hds; left).
  destruct (walk_dep_returns U fuel (walk fuel) m dir n d st HU IH Hv Hk) as (r & -> & Hst).
  { apply Hm, elem_of_dom. by exists d. } { done. }
  destruct r as [st1|e]; [|eexists; split; [done|]; by intros st' [=]].
  destruct (Hst st1 eq_refl) as [H1 H2]. destruct (IHds st1) as (r & Hr & Hst2); [done| |by intros; apply Hds; right|].
  { eapply Nat.le_lt_trans; [|exact Hk]. apply subseteq_size. set_solver. }
  exists r. split; [done|]. intros st' E. destruct (Hst2 st' E). split; [set_solver|done].
Qed.
End walk.
