(* ===== verification/PkgTheorems.v ===== *)
(** * Packages: the theorems

    The versions a requirement accepts, the round trips of versions and
    tags, the lockfile as a finite map, the choice of a registry's release,
    and the soundness and termination of the resolver. *)

From stdpp Require Import base list strings gmap sets sorting.
From S2P Require Import Prelude Semver Lockfile Registry Resolver.

Notation length := List.length (only parsing).

(** ** Requirements *)

Lemma caret_interval v w x :
  u64_version v → u64_version x →
  caret_matches v w x = true ↔
  version_le v x ∧ match upper (Caret v w) with Some hi => ¬ version_le hi x | None => True end.
Proof.
  intros ([? _] & [? _] & [? _]) ([? _] & [? _] & [? _]). unfold caret_matches, upper.
  destruct (version_lt x v) eqn:E.
  { apply version_lt_spec in E. split; [done|tauto]. }
  assert (version_le v x) as Hle by (destruct (decide (version_le v x)) as [|N]; [done|by apply version_lt_spec in N; congruence]).
  clear E. unfold version_le in *. destruct v as [a b c], x as [a' b' c']. cbn [major minor patch] in *.
  destruct (Z.ltb_spec 0 a); [rewrite Z.eqb_eq; cbn [major minor patch]; lia|]. destruct (Z.ltb_spec 0 b).
  { rewrite andb_true_iff, !Z.eqb_eq. cbn [major minor patch]. lia. }
  destruct w; rewrite ?andb_true_iff, !Z.eqb_eq; cbn [major minor patch]; lia.
Qed.

#[export] Instance version_le_dec v w : Decision (version_le v w).
Proof. unfold version_le. apply _. Defined.

(** A requirement accepts exactly the versions of a half-open interval:
    from the version it names up to the next one its kind excludes (the next
    patch for an exact requirement, the next value of the left-most non-zero
    component for a caret, or of the last component written when all are zero,
    the next minor for a tilde, and nothing for the wildcard); and the
    version the resolver falls back to, the requirement's floor, is its
    least. *)
Theorem req_matches_interval r x :
  u64_req r → u64_version x →
  (matches r x = true ↔ version_le (lower r) x ∧ match upper r with Some hi => ¬ version_le hi x | None => True end)
  ∧ matches r (requirement_floor r) = true ∧ (matches r x = true → version_le (requirement_floor r) x).
Proof.
  intros Hr Hx.
  assert (∀ y, u64_version y →
    matches r y = true ↔ version_le (lower r) y ∧ match upper r with Some hi => ¬ version_le hi y | None => True end) as H.
  { intros y Hy. destruct r as [|v|v w|v]; cbn [matches lower].
    - destruct Hy as ([? _] & [? _] & [? _]). unfold version_le. cbn. split; [intros _; split; [lia|done]|done].
    - unfold upper, version_le. rewrite bool_decide_eq_true. split; [intros ->; cbn; lia|].
      destruct v as [a b c], y as [a' b' c']. cbn. intros H. f_equal; lia.
    - by apply caret_interval.
    - rewrite !andb_true_iff, !Z.eqb_eq, version_ge_spec. destruct Hy as (_ & _ & [? _]). unfold upper, version_le. cbn. lia. }
  split; [by apply H|]. assert (requirement_floor r = lower r) as -> by (by destruct r).
  split; [|by intros [? _]%H].
  destruct r as [|v|v w|v]; [done|apply bool_decide_eq_true; done|..].
  - apply H; [done|]. destruct Hr as ([? _] & [? _] & [? _]). unfold upper, version_le, lower.
    destruct (Z.ltb_spec 0 (major v)); [cbn; lia|]. destruct (Z.ltb_spec 0 (minor v)); [cbn; lia|]. destruct w; cbn; lia.
  - apply H; [done|]. unfold upper, version_le, lower. cbn. lia.
Qed.

(** [^0.2.3] at [0.2.9]. *)
Lemma req_matches_interval_witness :
  matches (Caret (mkVersion 0 2 3) WPatch) (mkVersion 0 2 9) = true
  ∧ version_le (mkVersion 0 2 3) (mkVersion 0 2 9) ∧ ¬ version_le (mkVersion 0 3 0) (mkVersion 0 2 9).
Proof.
  split; [by vm_compute|].
  apply (req_matches_interval (Caret (mkVersion 0 2 3) WPatch) (mkVersion 0 2 9)); [by repeat split..|by vm_compute].
Defined.

(** What [Display] prints for a version parses to it: as a version, as
    the requirement [=v], and as the floor of [^v], [~v] and of the bare
    [v], which is a caret of three components; and what does parse holds only
    machine words. *)
Theorem version_round_trip v :
  u64_version v →
  parse_version (chars (to_string v)) = Ok v
  ∧ parse_req (61%Z :: display v) = Ok (Exact v)
  ∧ parse_req (94%Z :: display v) = Ok (Caret v WPatch)
  ∧ parse_req (126%Z :: display v) = Ok (Tilde v)
  ∧ parse_req (display v) = Ok (Caret v WPatch)
  ∧ ∀ s r, parse_req s = Ok r → u64_req r.
Proof.
  intros Hv. destruct (display_last v Hv) as (s & c & Hl & Hc). destruct (display_first v Hv) as (d & t & Hf & Hd).
  assert (∀ a, is_whitespace a = false → trim (a :: display v) = a :: display v) as Ht.
  { intros a Ha. apply (trim_id _ a c (display v)); [done| |done|by apply digit_not_space].
    rewrite Hl. change (a :: s ++ [c]) with ((a :: s) ++ [c]). by rewrite removelast_last, reverse_cons, reverse_involutive. }
  split_and!.
  - rewrite chars_to_string by done. by apply parse_version_display.
  - unfold parse_req. rewrite Ht by done. cbn -[display parse_version]. rewrite bool_decide_eq_false_2 by done.
    rewrite display_trim by done. by rewrite parse_version_display.
  - unfold parse_req. rewrite Ht by done. rewrite bool_decide_eq_false_2 by done. cbn -[display parse_partial].
    rewrite display_trim by done. by rewrite parse_partial_display.
  - unfold parse_req. rewrite Ht by done. rewrite bool_decide_eq_false_2 by done. cbn -[display parse_partial].
    rewrite display_trim by done. by rewrite parse_partial_display.
  - unfold parse_req. rewrite display_trim by done. rewrite Hf. destruct Hd.
    rewrite bool_decide_eq_false_2 by (intros [= -> _]; lia). cbn [strip_prefix].
    rewrite !(proj2 (Z.eqb_neq d _)) by lia. rewrite <-Hf. by rewrite parse_partial_display.
  - intros ??. apply parse_req_u64.
Qed.

Lemma version_round_trip_witness :
  u64_version (mkVersion 0 10 18446744073709551615)
  ∧ parse_version (chars (to_string (mkVersion 0 10 18446744073709551615))) = Ok (mkVersion 0 10 18446744073709551615).
Proof.
  assert (u64_version (mkVersion 0 10 18446744073709551615)) as H by (by repeat split).
  split; [exact H|]. exact (proj1 (version_round_trip _ H)).
Defined.

(** ** Tags *)

(** A release tag splits into a name and a version exactly when the
    name is not empty and the version starts with a digit and has no [-]
    before a digit; the tag is then the one [make_tag] builds from them. *)
Theorem tag_split_exact t n v :
  split_tag t = Some (n, v) ↔ t = make_tag n v ∧ n ≠ EmptyString ∧ version_part v.
Proof. split; [apply split_tag_Some|]. intros (-> & Hn & Hv). by apply split_tag_make. Qed.

(** ** The lockfile *)

(** A lockfile refines a finite map from names to packages: the new one
    is empty, [find] is the lookup, [upsert] the insertion and [remove] the
    deletion, which reports whether the name was there; every operation keeps
    the packages sorted by name with one entry a name, so that lockfiles with
    the same map hold the same list. *)
Theorem lockfile_refines_map l pkg n :
  well_formed l →
  (as_map new = ∅ ∧ well_formed new)
  ∧ find l n = as_map l !! n
  ∧ (as_map (upsert l pkg) = <[name pkg := pkg]> (as_map l) ∧ well_formed (upsert l pkg))
  ∧ (as_map (remove l n).1 = delete n (as_map l) ∧ well_formed (remove l n).1)
  ∧ (remove l n).2 = bool_decide (is_Some (as_map l !! n))
  ∧ (∀ k, well_formed k → as_map k = as_map l → packages k = packages l).
Proof.
  intros Hl. destruct Hl as [Hs Hd]. split_and!.
  - apply new_well_formed.
  - apply new_well_formed.
  - by apply find_as_map.
  - by apply upsert_as_map.
  - by apply upsert_well_formed.
  - by apply remove_as_map.
  - by apply remove_well_formed.
  - rewrite remove_found. apply bool_decide_ext. rewrite list_elem_of_fmap. split.
    + intros (p & -> & Hp). exists p. unfold as_map. by rewrite as_map_lookup.
    + intros [p Hp]. unfold as_map in Hp. rewrite as_map_lookup in Hp by done. exists p. by destruct Hp.
  - intros k Hk E. by apply well_formed_ext.
Qed.

Definition otel : LockedPackage := mkLocked "otel" "0.1.0" (registry_source DEFAULT_REGISTRY) (Some "sha256:def"%string) ["std"%string].

Lemma lockfile_refines_map_witness :
  well_formed (upsert new otel) ∧ find (upsert new otel) "otel" = as_map (upsert new otel) !! "otel"%string.
Proof.
  assert (well_formed (upsert new otel)) as H by (apply upsert_well_formed; constructor).
  split; [exact H|]. exact (proj1 (proj2 (lockfile_refines_map (upsert new otel) otel "otel" H))).
Defined.

(** ** The choice of a release *)

Lemma version_le_trans a b c : version_le a b → version_le b c → version_le a c.
Proof. unfold version_le. lia. Qed.

Lemma version_le_total a b : version_le a b ∨ version_le b a.
Proof. unfold version_le. lia. Qed.

(** The versions of a list that parse and match. *)
Definition Candidate (r : VersionReq) (vs : list string) (v : Version) : Prop :=
  ∃ s, s ∈ vs ∧ parse_version (chars s) = Ok v ∧ matches r v = true.

(** The greatest of the candidates and of what the loop started with. *)
Lemma fold_best_spec r vs best :
  match foldl (keep_best r) best vs with
  | Some v => (Candidate r vs v ∨ best = Some v) ∧ (∀ w, Candidate r vs w ∨ best = Some w → version_le w v)
  | None => best = None ∧ ∀ w, ¬ Candidate r vs w
  end.
Proof.
  revert best. induction vs as [|s vs IH]; intros best.
  { simpl. assert (∀ w, ¬ Candidate r [] w) as Hn by (intros w (s & Hs & _); by apply elem_of_nil in Hs).
    destruct best as [v|]; [|done]. split; [by right|]. intros w [Hw|[= ->]]; [by destruct (Hn w)|]. unfold version_le. lia. }
  simpl. specialize (IH (keep_best r best s)).
  assert (∀ w, Candidate r (s :: vs) w ↔ (parse_version (chars s) = Ok w ∧ matches r w = true) ∨ Candidate r vs w) as Hc.
  { intros w. unfold Candidate. split.
    - intros (x & [->|Hx]%elem_of_cons & Hp & Hm); [by left|]. right. by exists x.
    - intros [[Hp Hm]|(x & Hx & Hp & Hm)]; [exists s|exists x]; (split; [set_solver|done]). }
  assert (∀ w, keep_best r best s = Some w → best = Some w ∨ (parse_version (chars s) = Ok w ∧ matches r w = true)) as Hk.
  { intros w. unfold keep_best. destruct (parse_version (chars s)) as [v|]; [|by left].
    destruct (matches r v) eqn:Em; [|by left]. cbn [andb]. destruct (better v best); [|by left]. intros [= <-]. by right. }
  assert (∀ w, best = Some w ∨ (parse_version (chars s) = Ok w ∧ matches r w = true) →
               ∃ b, keep_best r best s = Some b ∧ version_le w b) as Hge.
  { intros w Hw. unfold keep_best. destruct (parse_version (chars s)) as [v|] eqn:Ep.
    2:{ destruct Hw as [->|[? _]]; [|done]. exists w. split; [done|]. unfold version_le; lia. }
    destruct (matches r v) eqn:Em; cbn [andb]; [|destruct Hw as [->|[[= <-] ?]]; [|congruence]; exists w; split; [done|unfold version_le; lia]].
    unfold better. destruct best as [b|].
    - destruct (version_lt b v) eqn:El.
      + apply version_lt_spec in El. exists v. split; [done|]. destruct (version_le_total b v); [|done].
        destruct Hw as [[= <-]|[[= <-] _]]; [done|]. unfold version_le; lia.
      + exists b. split; [done|]. assert (version_le v b) as Hvb
          by (destruct (decide (version_le v b)) as [|N]; [done|by apply version_lt_spec in N; congruence]).
        destruct Hw as [[= <-]|[[= <-] _]]; [|done]. unfold version_le; lia.
    - destruct Hw as [?|[[= <-] _]]; [done|]. exists v. split; [done|]. unfold version_le; lia. }
  destruct (foldl (keep_best r) (keep_best r best s) vs) as [v|].
  - destruct IH as [H1 H2]. split.
    + rewrite Hc. destruct H1 as [?|[?|?]%Hk]; tauto.
    + intros w Hw. rewrite Hc in Hw. destruct Hw as [[Hw|Hw]|Hw]; [|by apply H2; left|];
        destruct (Hge w ltac:(tauto)) as (b & Hb & Hle); (eapply version_le_trans; [exact Hle|]); apply H2; by right.
  - destruct IH as [H1 H2]. split.
    + destruct best as [w|]; [|done]. destruct (Hge w ltac:(by left)) as (b & Hb & _). congruence.
    + intros w [Hw|Hw]%Hc; [|by eapply H2]. destruct (Hge w ltac:(by right)) as (b & Hb & _). congruence.
Qed.

Lemma highest_matching_spec i n r :
  match highest_matching i n r with
  | Some v => Candidate r (versions_for i n) v ∧ ∀ w, Candidate r (versions_for i n) w → version_le w v
  | None => ∀ w, ¬ Candidate r (versions_for i n) w
  end.
Proof.
  unfold highest_matching. pose proof (fold_best_spec r (versions_for i n) None) as H.
  destruct (foldl _ _ _) as [v|]; [|tauto]. destruct H as [[H|?] Hm]; [|done]. split; [done|]. intros w Hw. apply Hm. by left.
Qed.

Section choice.
Context {ManifestError IndexError : Type}.
Variable load_index : string → Res IndexError (option RegistryIndex).
Variable self : Resolver.

(** The index consulted for a registry: an injected one, or the cache's. *)
Definition index_of (s : string) : option RegistryIndex :=
  match list_find (λ i, slug i = s) (injected_indexes self) with
  | Some (_, idx) => Some idx
  | None => match load_index s with Ok (Some idx) => Some idx | _ => None end
  end.

(** Registry [s] has a release [v] of [n] that [r] accepts. *)
Definition Released (s n : string) (r : VersionReq) (v : Version) : Prop :=
  ∃ i, index_of s = Some i ∧ Candidate r (versions_for i n) v.

Lemma lookup_in_registry_spec s n r :
  match lookup_in_registry load_index self s n r with
  | Some v => Released s n r v ∧ ∀ w, Released s n r w → version_le w v
  | None => ∀ w, ¬ Released s n r w
  end.
Proof.
  assert (lookup_in_registry load_index self s n r = i ← index_of s; highest_matching i n r) as ->.
  { unfold lookup_in_registry, index_of. destruct (list_find _ _) as [[? ?]|]; [done|]. by destruct (load_index s) as [[?|]|]. }
  unfold Released. destruct (index_of s) as [i|]; simpl; [|by intros w (i & ? & _)].
  pose proof (highest_matching_spec i n r) as H. destruct (highest_matching i n r) as [v|].
  - destruct H as [H1 H2]. split; [by exists i|]. intros w (i' & [= <-] & Hw). by apply H2.
  - intros w (i' & [= <-] & Hw). by apply (H w).
Qed.

Lemma first_registry_spec ss n r :
  match first_registry load_index self ss n r with
  | Some (v, src) =>
      ∃ before s after, ss = before ++ s :: after ∧ src = gh_source s ∧ Released s n r v
        ∧ (∀ w, Released s n r w → version_le w v) ∧ ∀ s', s' ∈ before → ∀ w, ¬ Released s' n r w
  | None => ∀ s, s ∈ ss → ∀ w, ¬ Released s n r w
  end.
Proof.
  induction ss as [|s ss IH]; simpl; [by intros s ?%elem_of_nil|].
  pose proof (lookup_in_registry_spec s n r) as H. destruct (lookup_in_registry _ _ s n r) as [v|].
  - destruct H as [H1 H2]. exists [], s, ss. split_and!; [done..|]. by intros s' ?%elem_of_nil.
  - destruct (first_registry _ _ ss n r) as [[v src]|].
    + destruct IH as (b & s' & a & -> & -> & H1 & H2 & H3). exists (s :: b), s', a. split_and!; [done..|].
      intros t [->|Ht]%elem_of_cons; [done|by apply H3].
    + intros t [->|Ht]%elem_of_cons; [done|by apply IH].
Qed.

Lemma Released_matches s n r v : Released s n r v → matches r v = true.
Proof. by intros (i & _ & t & _ & _ & H). Qed.

Lemma floor_matches r : u64_req r → matches r (requirement_floor r) = true.
Proof.
  intros Hr. destruct r as [|v|v w|v]; [done|apply bool_decide_eq_true; done|..]; cbn [matches requirement_floor].
  - unfold caret_matches. assert (version_lt v v = false) as ->.
    { apply not_true_iff_false. rewrite version_lt_spec. unfold version_le. lia. }
    destruct Hr as ([? _] & [? _] & [? _]). destruct (Z.ltb_spec 0 (major v)); [apply Z.eqb_refl|].
    assert (major v = 0%Z) as -> by lia. destruct (Z.ltb_spec 0 (minor v)); [apply Z.eqb_refl|].
    assert (minor v = 0%Z) as -> by lia. destruct w; [done|done|apply Z.eqb_refl].
  - rewrite !Z.eqb_refl. apply version_ge_spec. unfold version_le. lia.
Qed.

(** The version a registry dependency is locked at satisfies its
    requirement.  It is the greatest release of the first registry, the
    default one first, whose index has a release of that name the
    requirement accepts; when no registry has one, it is the requirement's
    floor, under the default registry. *)
Theorem registry_choice_exact n d v src sub :
  resolve_registry (ManifestError := ManifestError) load_index self n d = Ok (v, src, sub) →
  ∃ r, parse_req (chars (default "*"%string (Deps.version d))) = Ok r ∧ matches r v = true ∧ sub = None
    ∧ ((∃ before s after, slugs (registries self) = before ++ s :: after ∧ src = gh_source s
          ∧ Released s n r v ∧ (∀ w, Released s n r w → version_le w v)
          ∧ ∀ s', s' ∈ before → ∀ w, ¬ Released s' n r w)
       ∨ (v = requirement_floor r ∧ src = gh_source (default DEFAULT_REGISTRY_SLUG (cfg_default (registries self)))
          ∧ ∀ s, s ∈ slugs (registries self) → ∀ w, ¬ Released s n r w)).
Proof.
  unfold resolve_registry. destruct (parse_req _) as [r|] eqn:Er; [|done]. simpl.
  pose proof (first_registry_spec (slugs (registries self)) n r) as H.
  destruct (first_registry _ _ _ n r) as [[v' src']|]; intros [= <- <- <-]; exists r.
  - destruct H as (b & s & a & H1 & H2 & H3 & H4 & H5). split_and!; [done|by eapply Released_matches|done|].
    left. by exists b, s, a.
  - split_and!; [done|by eapply floor_matches, parse_req_u64|done|]. right. split_and!; [done| |done].
    destruct (slugs_cons (registries self)) as [l ->]. done.
Qed.
End choice.

(** ** The resolver *)

Lemma foldl_upsert ds l :
  NoDup ds.*1 → NoDup (name <$> packages l) → (∀ n, n ∈ ds.*1 → as_map l !! n = None) →
  let l' := foldl (λ l e, upsert l (lock_entry e)) l ds in
  NoDup (name <$> packages l') ∧ (well_formed l → well_formed l')
  ∧ ∀ n p, as_map l' !! n = Some p ↔ as_map l !! n = Some p ∨ ∃ c, (n, c) ∈ ds ∧ p = lock_entry (n, c).
Proof.
  revert l. induction ds as [|[k c] ds IH]; intros l Hd Hl Hn; cbn [foldl].
  { split_and!; [done|done|]. intros n p. split; [by left|]. intros [?|(c & Hc & _)]; [done|]. by apply elem_of_nil in Hc. }
  rewrite fmap_cons in Hd. apply NoDup_cons in Hd as [Hk Hd].
  pose proof (upsert_well_formed l (lock_entry (k, c)) Hl) as [Hs' Hl'].
  pose proof (upsert_as_map l (lock_entry (k, c)) Hl) as Hm. cbn [lock_entry name fst] in Hm.
  destruct (IH (upsert l (lock_entry (k, c))) Hd Hl') as (H1 & H2 & H3).
  { intros n Hin. rewrite Hm, lookup_insert_ne; [apply Hn; by right|]. by intros ->. }
  split_and!; [done|intros _; by apply H2|]. intros n p. rewrite H3, Hm. split.
  - intros [H|(c' & Hc & ->)]; [|right; exists c'; split; [by right|done]].
    apply lookup_insert_Some in H as [[<- <-]|[_ H]]; [right; exists c; split; [left|done]|by left].
  - intros [H|(c' & [[= -> ->]|Hc]%elem_of_cons & ->)].
    + left. apply lookup_insert_Some. right. split; [|done]. intros <-.
      assert (as_map l !! k = None) as E by (apply Hn; left). congruence.
    + left. apply lookup_insert_eq.
    + right. by exists c'.
Qed.

Lemma lock_of_spec ch :
  well_formed (lock_of ch) ∧ ∀ n, find (lock_of ch) n = (λ c, lock_entry (n, c)) <$> ch !! n.
Proof.
  destruct (foldl_upsert (in_order ch) new) as (H1 & H2 & H3); [apply in_order_NoDup|constructor|done|].
  split; [apply H2, new_well_formed|]. intros n. rewrite find_as_map by done. apply option_eq. intros p.
  unfold lock_of. rewrite H3. rewrite fmap_Some. setoid_rewrite elem_of_in_order.
  split; [intros [?|?]; [done|done]|by right].
Qed.

Section resolver.
Context {ManifestError IndexError : Type}.
Variable path_exists : string → bool.
Variable load_manifest : string → Res ManifestError Manifest.
Variable load_index : string → Res IndexError (option RegistryIndex).
Variable self : Resolver.

(** *** The contract, without the resolver's own functions *)

(** The manifest at a path dependency's directory. *)
Definition manifest_at (dir : string) : option Manifest :=
  if path_exists (join dir MANIFEST_NAME) then
    match load_manifest (join dir MANIFEST_NAME) with Ok sm => Some sm | Err _ => None end
  else None.

Definition dep_dir (dir : string) (d : Dep) : string := join dir (default ""%string (Deps.path d)).

(** The manifests that path dependencies lead to. *)
Inductive Leads (m0 : Manifest) : Manifest → string → Prop :=
  | Leads_root : Leads m0 m0 (root self)
  | Leads_sub m dir n d sm :
      Leads m0 m dir → deps m !! n = Some d → source_kind d = KPath →
      manifest_at (dep_dir dir d) = Some sm → Leads m0 sm (dep_dir dir d).

(** The lockfile meets a dependency: a registry dependency is locked at a
    version that its requirement accepts, a path dependency at the version in
    the manifest there, a git dependency is locked. *)
Definition Met (dir : string) (lock : Lockfile) (n : string) (d : Dep) : Prop :=
  ∃ p v, find lock n = Some p ∧ parse_version (chars (version p)) = Ok v ∧
  match source_kind d with
  | KRegistry => ∃ r, parse_req (chars (default "*"%string (Deps.version d))) = Ok r ∧ matches r v = true
  | KPath =>
      path_exists (dep_dir dir d) = true
      ∧ ∀ sm, manifest_at (dep_dir dir d) = Some sm → parse_version (chars (pkg_version (package sm))) = Ok v
  | KGit => True
  end.

(** Where an entry's source says it is from. *)
Definition source_of (dir : string) (d : Dep) (src : string) : Prop :=
  match source_kind d with
  | KRegistry => ∃ s, s ∈ slugs (registries self) ∧ src = gh_source s
  | KPath => src = path_source (dep_dir dir d)
  | KGit => ∃ url, Deps.git d = Some url ∧ src = git_source url (Deps.rev d)
  end.

(** What [resolve_one] answers, of each kind. *)
Lemma resolve_one_meets n d dir v src sub :
  validate_dep (E := ManifestError) n d = Ok tt →
  resolve_one path_exists load_manifest load_index self n d (source_kind d) dir = Ok (v, src, sub) →
  u64_version v ∧ source_of dir d src
  ∧ sub_manifest path_exists load_manifest sub
    = (match source_kind d with KPath => sm ← manifest_at (dep_dir dir d); Some (sm, dep_dir dir d) | _ => None end)
  ∧ match source_kind d with
    | KRegistry => ∃ r, parse_req (chars (default "*"%string (Deps.version d))) = Ok r ∧ matches r v = true
    | KPath =>
        path_exists (dep_dir dir d) = true
        ∧ ∀ sm, manifest_at (dep_dir dir d) = Some sm → parse_version (chars (pkg_version (package sm))) = Ok v
    | KGit => True
    end.
Proof.
  intros Hval. unfold source_of. destruct (source_kind d) eqn:Ek; cbn [resolve_one]; intros H.
  - pose proof H as (r & Hr & Hm & -> & Hc)%registry_choice_exact. split_and!; [| |done|by exists r].
    + destruct Hc as [(_ & s & _ & _ & _ & (i & _ & t & _ & Hp & _) & _)|(-> & _)]; [by eapply parse_version_u64|].
      apply parse_req_u64 in Hr. by destruct r.
    + destruct Hc as [(b & s & a & E & -> & _)|(_ & -> & _)]; [exists s; split; [rewrite E; set_solver|done]|].
      destruct (slugs_cons (registries self)) as [l E]. eexists. split; [rewrite E; left|done].
  - unfold resolve_path in H. fold (dep_dir dir d) in H. destruct (path_exists (dep_dir dir d)) eqn:Ep; [|done]. cbn [negb] in H.
    unfold manifest_at, sub_manifest. destruct (path_exists (join (dep_dir dir d) MANIFEST_NAME)) eqn:Es.
    + destruct (load_manifest _) as [sm|] eqn:El; [|done]. simpl in H. destruct (parse_version _) as [w|] eqn:Ew; [|done].
      simpl in H. injection H as <- <- <-. split_and!; [by eapply parse_version_u64|done| |done|by intros ? [= <-]].
      simpl. by rewrite Es, El.
    + injection H as <- <- <-. split_and!; [by repeat split|done| |done|done]. simpl. by rewrite Es.
  - injection H as <- <- <-. split_and!; [by repeat split| |done|done]. unfold source_kind in Ek.
    destruct d as [|[dv [dp|] [dg|] dr dh]]; try done. by exists dg.
Qed.

Lemma Reached_leads m m' dir :
  Reached path_exists load_manifest load_index self m m' dir → Leads m m' dir.
Proof.
  induction 1 as [|m' dir n v src sub sm sdir _ IH (d & Hd & Hval & Hone) Hs]; [constructor|].
  destruct (resolve_one_meets _ _ _ _ _ _ Hval Hone) as (_ & _ & Hsub & _). rewrite Hsub in Hs.
  destruct (source_kind d) eqn:Ek; try done. destruct (manifest_at _) as [sm'|] eqn:Em; [|done].
  injection Hs as <- <-. by eapply Leads_sub.
Qed.

Lemma Satisfied_met m' dir ch n d :
  Satisfied path_exists load_manifest load_index self m' dir ch → deps m' !! n = Some d → Met dir (lock_of ch) n d.
Proof.
  intros HS Hd. destruct (HS n ltac:(by eexists)) as (c & src & sub & Hc & d' & Hd' & Hval & Hone). simplify_eq.
  destruct (resolve_one_meets _ _ _ _ _ _ Hval Hone) as (Hu & _ & _ & Hk).
  exists (lock_entry (n, c)), (ch_version c). split_and!; [by rewrite (proj2 (lock_of_spec ch)), Hc| |done].
  cbn [lock_entry version fst snd]. rewrite chars_to_string by done. by apply parse_version_display.
Qed.

(** C13. A lockfile the resolver returns is sorted, one entry a name, and meets
    every dependency of the root manifest: a registry dependency is locked at a
    version that the requirement in the manifest, as parsed, accepts, a path
    dependency at the version its own manifest reports.  Nothing else is
    locked: every entry is a dependency of a manifest that path dependencies
    lead to from the root, its source is that dependency's, and where the
    dependency is a path to a manifest the entry lists exactly that manifest's
    dependencies, in key order, and the lockfile meets each of them. *)
Theorem resolve_sound fuel m lock :
  resolve path_exists load_manifest load_index fuel self m = Some (Ok lock) →
  well_formed lock
  ∧ (∀ n d, deps m !! n = Some d → Met (root self) lock n d)
  ∧ ∀ n p, find lock n = Some p → ∃ m' dir d,
      Leads m m' dir ∧ deps m' !! n = Some d ∧ source_of dir d (source p) ∧
      match (match source_kind d with KPath => manifest_at (dep_dir dir d) | _ => None end) with
      | Some sm => dependencies p = (in_order (deps sm)).*1
          ∧ ∀ k dk, deps sm !! k = Some dk → Met (dep_dir dir d) lock k dk
      | None => dependencies p = []
      end.
Proof.
  unfold resolve. pose proof (walk_outcome path_exists load_manifest load_index self m fuel m (root self) (mkState ∅ ∅)
    (Reached_root _ _ _ _ _) (Inv_empty _ _ _ _ _)) as H.
  destruct (walk _ _ _ fuel self m _ _) as [[st|e]|]; [|done|done]. destruct H as [(_ & _ & Hg) HS].
  intros [= <-]. destruct (lock_of_spec (chosen st)) as [H1 H2]. split_and!; [done| |].
  { intros n d. by apply Satisfied_met. }
  intros n p Hp. rewrite H2, fmap_Some in Hp. destruct Hp as (c & Hc & ->).
  destruct (Hg n c Hc) as [He|(m' & dir & sub & Hr & (d & Hd & Hval & Hone) & Hsub)].
  { exfalso. exact (lookup_empty_Some _ _ He). }
  destruct (resolve_one_meets _ _ _ _ _ _ Hval Hone) as (_ & Hsrc & Es & _). rewrite Es in Hsub.
  exists m', dir, d. split_and!; [by apply Reached_leads|done|done|].
  destruct (source_kind d); try done. destruct (manifest_at _) as [sm|]; [|done]. simpl in Hsub.
  destruct Hsub as [Hdep HS']. split; [done|]. intros k dk. by apply Satisfied_met.
Qed.

(** C37. The resolver returns: when the names the manifests mention lie in
    a finite set, recursion no deeper than its size is enough, cycles of
    path dependencies included.  And it refuses only with a cause: a version
    conflict names two reached manifests that resolve one name to two
    versions, and any other error a dependency of a reached manifest that is
    invalid, does not resolve, or whose manifest cannot be loaded. *)
Theorem resolve_returns (names : gset string) fuel m :
  (∀ p sm, load_manifest p = Ok sm → dom (deps sm) ⊆ names) → dom (deps m) ⊆ names → size names < fuel →
  ∃ r, resolve path_exists load_manifest load_index fuel self m = Some r
    ∧ match r with Ok _ => True | Err e => Explained path_exists load_manifest load_index self m e end.
Proof.
  intros HU Hm Hf. unfold resolve.
  destruct (walk_returns path_exists load_manifest load_index self names fuel HU m (root self) (mkState ∅ ∅)) as (r & Hr & _).
  - done.
  - set_solver.
  - eapply Nat.le_lt_trans; [|exact Hf]. apply subseteq_size. set_solver.
  - rewrite Hr. pose proof (walk_outcome path_exists load_manifest load_index self m fuel m (root self) (mkState ∅ ∅)
      (Reached_root _ _ _ _ _) (Inv_empty _ _ _ _ _)) as H. rewrite Hr in H.
    destruct r as [st|e]; eexists; by split.
Qed.
End resolver.

(** ** A workspace: two packages that depend on each other by path, and a
    registry release both use. *)

Module Demo.
Local Open Scope string_scope.

Definition by_path (p : string) : Dep := Detailed (mkDetailed None (Some p) None None None).

Definition app : Manifest :=
  mkManifest (mkPackage "app" "1.0.0" "2026" "host") (list_to_map [("left", by_path "../left"); ("otel", VersionDep "0.1")]).
Definition left_pkg : Manifest :=
  mkManifest (mkPackage "left" "0.2.0" "2026" "host") (list_to_map [("right", by_path "../right"); ("otel", VersionDep "^0.1.0")]).
Definition right_pkg : Manifest :=
  mkManifest (mkPackage "right" "0.3.0" "2026" "host") (list_to_map [("left", by_path "../left")]).

Definition path_exists (p : string) : bool :=
  bool_decide (p ∈ ["/w/app/../left"; "/w/app/../left/mighty.toml"; "/w/app/../left/../right";
                    "/w/app/../left/../right/mighty.toml"; "/w/app/../left/../right/../left";
                    "/w/app/../left/../right/../left/mighty.toml"]).

Definition load_manifest (p : string) : Res unit Manifest :=
  if String.eqb p "/w/app/../left/../right/mighty.toml" then Ok right_pkg
  else if path_exists p then Ok left_pkg else Err tt.

Definition load_index (s : string) : Res unit (option RegistryIndex) := Err tt.

Definition release (v : string) : RegistryRelease := mkRelease "otel" v (make_tag "otel" v) None None None None.

Definition resolver : Resolver :=
  mkResolver "/w/app" default_config
    [mkIndex "mighty-pkg/registry" 0 None [release "0.1.4"; release "0.1.9"; release "0.2.0"; release "junk"]].

Definition lock : Lockfile := mkLockfile 1 [
  mkLocked "left" "0.2.0" "path+file:///w/app/../left" None ["otel"; "right"];
  mkLocked "otel" "0.1.9" "registry+gh://mighty-pkg/registry" None [];
  mkLocked "right" "0.3.0" "path+file:///w/app/../left/../right" None ["left"]].
End Demo.

Lemma demo_resolves :
  resolve Demo.path_exists Demo.load_manifest Demo.load_index 4 Demo.resolver Demo.app = Some (Ok Demo.lock).
Proof. by vm_compute. Qed.

Lemma registry_choice_exact_witness :
  resolve_registry (ManifestError := unit) Demo.load_index Demo.resolver "otel" (VersionDep "0.1")
    = Ok (mkVersion 0 1 9, "registry+gh://mighty-pkg/registry"%string, None)
  ∧ ∃ r, parse_req (chars "0.1") = Ok r ∧ matches r (mkVersion 0 1 9) = true.
Proof.
  assert (resolve_registry (ManifestError := unit) Demo.load_index Demo.resolver "otel" (VersionDep "0.1")
    = Ok (mkVersion 0 1 9, "registry+gh://mighty-pkg/registry"%string, None)) as H by (by vm_compute).
  split; [exact H|].
  destruct (registry_choice_exact Demo.load_index Demo.resolver "otel" (VersionDep "0.1") _ _ _ H) as (r & H1 & H2 & _).
  exists r. split; [exact H1|exact H2].
Defined.

Lemma resolve_sound_witness :
  resolve Demo.path_exists Demo.load_manifest Demo.load_index 4 Demo.resolver Demo.app = Some (Ok Demo.lock)
  ∧ Met Demo.path_exists Demo.load_manifest "/w/app" Demo.lock "otel" (VersionDep "0.1").
Proof.
  split; [exact demo_resolves|].
  destruct (resolve_sound _ _ _ _ _ _ _ demo_resolves) as (_ & H & _). apply H. by vm_compute.
Defined.

Lemma demo_names p sm : Demo.load_manifest p = Ok sm → dom (deps sm) ⊆ {["left"%string; "right"%string; "otel"%string]}.
Proof.
  unfold Demo.load_manifest. destruct (String.eqb _ _); [|destruct (Demo.path_exists p); [|done]]; intros [= <-];
    refine (bool_decide_eq_true_1 (_ ⊆ _) _); by vm_compute.
Qed.

Lemma resolve_returns_witness :
  ∃ r, resolve Demo.path_exists Demo.load_manifest Demo.load_index 4 Demo.resolver Demo.app = Some r.
Proof.
  destruct (resolve_returns Demo.path_exists Demo.load_manifest Demo.load_index Demo.resolver
    {["left"%string; "right"%string; "otel"%string]} 4 Demo.app demo_names) as (r & Hr & _).
  - refine (bool_decide_eq_true_1 (_ ⊆ _) _). by vm_compute.
  - vm_compute. lia.
  - exists r. exact Hr.
Defined.

(** The outcome of a resolution, by one field of its entries. *)
Definition locked_as {A E} (f : LockedPackage → A) (r : option (Res E Lockfile)) : option (list A) :=
  match r with Some (Ok l) => Some (f <$> packages l) | _ => None end.

(** The conflict check compares versions, and every git dependency has the
    same: the root asks for one revision of [x], the path dependency [left]
    for another, and the lockfile has the second alone. *)
Example git_revisions_merged :
  let x rev := Detailed (mkDetailed None None (Some "https://x"%string) (Some rev) None) in
  let left_pkg := mkManifest (mkPackage "left" "0.2.0" "2026" "host") {["x"%string := x "two"%string]} in
  let app := mkManifest (mkPackage "app" "1.0.0" "2026" "host")
               (list_to_map [("left", Demo.by_path "../left"); ("x", x "one")])%string in
  locked_as source (resolve Demo.path_exists (λ _, Ok (E := unit) left_pkg) Demo.load_index 4 Demo.resolver app)
  = Some ["path+file:///w/app/../left"; "git+https://x#two"]%string.
Proof. by vm_compute. Qed.

(** A path dependency is not held to the version written next to its path. *)
Example path_version_unchecked :
  let left := Detailed (mkDetailed (Some "^2"%string) (Some "../left"%string) None None None) in
  let app := mkManifest (mkPackage "app" "1.0.0" "2026" "host") {["left"%string := left]} in
  let left_pkg := mkManifest (mkPackage "left" "0.2.0" "2026" "host") ∅ in
  locked_as version (resolve Demo.path_exists (λ _, Ok (E := unit) left_pkg) Demo.load_index 4 Demo.resolver app)
  = Some ["0.2.0"%string].
Proof. by vm_compute. Qed.
