(* ===== verification/IrSyntax.v ===== *)
(** * The mid-level IR

    [crates/mty-ir/src/ir.rs]: the data the lowerer produces and the
    interpreter and the backends consume, with the lookups of [Function] and
    [Program] (an index out of range panics: [None]) and the span side table.
    Identifiers of the program text are [string]s; the strings a running
    program computes with are [rstr]s, lists of Unicode scalar values. *)

From stdpp Require Import base list strings numbers gmap.
From Stdlib Require Import SpecFloat.
From S2P Require Import Prelude TyArena.

Notation IrFnId := nat (only parsing).
Notation Local := nat (only parsing).
Notation BlockId := nat (only parsing).
Notation ArenaId := nat (only parsing).
Notation AgentIrId := nat (only parsing).
Notation AdtId := Z (only parsing).
Notation rstr := (list Z) (only parsing).
Notation f64 := spec_float (only parsing).

(** ** Types *)

Inductive IrTy : Set :=
  | IrBool | IrInt (k : IntKind) | IrFloat (k : FloatKind) | IrChar | IrStr | IrString | IrBytes
  | IrUnit | IrNever | IrDuration | IrSize
  | IrTuple (xs : list IrTy)
  | IrArray (elem : IrTy) (len : option Z)
  | IrRef (mutable : bool) (inner : IrTy)
  | IrFn (params : list IrTy) (ret : IrTy)
  | IrAdt (adt : AdtId) (args : list IrTy)
  | IrCap (family : CapFamily) (constraint : CapConstraint)
  | IrDyn (name : string)
  | IrRawPtr (inner : IrTy)
  | IrModule (name : string)
  | IrParam (name : string)
  | IrError.

Definition is_unit (t : IrTy) : bool := match t with IrUnit => true | _ => false end.

Inductive LocalSource : Set := SParam | SUserLet | STemp | SDropFlag | SReturn.

Record LocalDecl : Set := mkLocalDecl {
  ld_name : string; ld_ty : IrTy; ld_mutable : bool; ld_source : LocalSource }.

(** ** Constants and function references *)

Inductive CanvasOpKind : Set :=
  | Clear | FillRect | StrokeRect | FillText | SetFillStyle | Width | Height | RequestAnimationFrame.

Definition as_wit_method (c : CanvasOpKind) : string :=
  match c with
  | Clear => "clear" | FillRect => "fill-rect" | StrokeRect => "stroke-rect"
  | FillText => "fill-text" | SetFillStyle => "set-fill-style" | Width => "width"
  | Height => "height" | RequestAnimationFrame => "request-animation-frame"
  end.

Definition as_snake (c : CanvasOpKind) : string :=
  match c with
  | Clear => "clear" | FillRect => "fill_rect" | StrokeRect => "stroke_rect"
  | FillText => "fill_text" | SetFillStyle => "set_fill_style" | Width => "width"
  | Height => "height" | RequestAnimationFrame => "request_animation_frame"
  end.

Definition all_canvas_ops : list CanvasOpKind :=
  [Clear; FillRect; StrokeRect; FillText; SetFillStyle; Width; Height; RequestAnimationFrame].

Inductive BuiltinId : Set :=
  | Log | Print_ | Panic_ | Spawn | Move_ | Fetch | RawPtr | Valid | Null
  | Extern (name : string)
  | DomOp (op : string)
  | CanvasOp (op : CanvasOpKind)
  | Swarm.

Inductive FnRef : Set := User (id : IrFnId) | Builtin (b : BuiltinId).

Inductive Const : Set :=
  | KUnit
  | KBool (b : bool)
  | KInt (n : Z) (k : IntKind)
  | KFloat (f : f64) (k : FloatKind)
  | KStr (s : rstr)
  | KChar (c : Z)
  | KDuration (value : Z) (unit : string)
  | KSize (value : Z) (unit : string)
  | KFnPtr (f : FnRef)
  | KNullPtr.

(** ** Places and operands *)

Inductive Projection : Set :=
  | PField (i : nat)
  | PTupleIndex (i : nat)
  | PDeref
  | PIndex (l : Local)
  | PVariantField (variant field : nat).

Record Place : Set := mkPlace { p_local : Local; p_proj : list Projection }.

Definition place_local (l : Local) : Place := mkPlace l [].

Inductive Operand : Set :=
  | OCopy (p : Place)
  | OMove (p : Place)
  | OConst (c : Const).

Inductive EffectOp : Set := GenericCall (path : list string) (method : string).

(** ** Operators, rvalues, statements, terminators *)

Inductive BinOp : Set :=
  | Add | Sub | Mul | Div | Rem | BitAnd | BitOr | BitXor | Shl | Shr
  | BEq | BNe | BLt | BLe | BGt | BGe | BAnd | BOr.

Inductive UnOp : Set := Neg | Not.

Inductive Rvalue : Set :=
  | RUse (o : Operand)
  | RConst (c : Const)
  | RBinOp (op : BinOp) (l r : Operand)
  | RUnOp (op : UnOp) (o : Operand)
  | RRef (mutable : bool) (place : Place)
  | RDeref (o : Operand)
  | RAdtInit (adt : AdtId) (variant : nat) (fields : list Operand)
  | RTupleInit (xs : list Operand)
  | RArrayInit (xs : list Operand)
  | RFieldRead (receiver : Place) (field : nat)
  | RTupleRead (receiver : Place) (idx : nat)
  | RIndexRead (receiver : Place) (index : Operand)
  | RCall (func : FnRef) (args : list Operand)
  | RMethodCall (receiver : Operand) (method : string) (args : list Operand)
  | RAgentSpawn (agent : AgentIrId) (args : list Operand)
  | RSend (target : Operand) (msg : string) (args : list Operand)
  | RAsk (target : Operand) (msg : string) (args : list Operand) (deadline_ms : option Z)
  | RCapValue (family : CapFamily) (constraint : CapConstraint)
  | RCast (src : Operand) (ty : IrTy)
  | RStrPtr (o : Operand).

Inductive Stmt : Set :=
  | SAssign (p : Place) (r : Rvalue)
  | SDrop (l : Local)
  | SStorageLive (l : Local)
  | SStorageDead (l : Local)
  | SArenaPush (a : ArenaId)
  | SArenaPop (a : ArenaId)
  | SEffectInvoke (effect : EffectId) (op : EffectOp) (args : list Operand) (out : option Place)
  | SNop.

Inductive Term : Set :=
  | Goto (b : BlockId)
  | TIf (cond : Operand) (then_ else_ : BlockId)
  | TSwitchInt (discr : Operand) (arms : list (Z * BlockId)) (default_ : BlockId)
  | TSwitchVariant (discr : Operand) (adt : AdtId) (arms : list (nat * BlockId)) (default_ : BlockId)
  | TReturn (o : Operand)
  | TPanic (msg : Operand)
  | TUnreachable
  | TTryReturnErr (o : Operand)
  | TSuspend (resume : BlockId).

(** ** Blocks, functions, data types, agents *)

Record Block : Set := mkBlock { b_id : BlockId; b_stmts : list Stmt; b_terminator : Term }.

Record SourceSpan : Set := mkSpan { span_start : Z; span_end : Z }.

Record Function : Set := mkFunction {
  fn_id : IrFnId; fn_name : string; fn_params : list Local; fn_locals : list LocalDecl;
  fn_blocks : list Block; fn_entry : BlockId; fn_ret_ty : IrTy; fn_effects : list EffectId;
  fn_hir_fn : option nat; fn_span : SourceSpan }.

(** [Function::block]: an index out of range panics. *)
Definition block (f : Function) (id : BlockId) : option Block := fn_blocks f !! id.

Inductive AdtRefKind : Set := KStruct | KEnum | KOpaque.

Record FieldRef : Set := mkFieldRef { fr_name : option string; fr_ty : IrTy }.
Record VariantRef : Set := mkVariantRef { vr_name : string; vr_fields : list FieldRef }.
Record AdtRef : Set := mkAdtRef {
  ar_adt : AdtId; ar_name : string; ar_kind : AdtRefKind; ar_variants : list VariantRef }.

Record Agent : Set := mkAgent {
  ag_id : AgentIrId; ag_name : string; ag_state_adt : AdtId; ag_ctor : IrFnId;
  ag_handlers : list (string * IrFnId); ag_span : SourceSpan }.

(** ** The span side table *)

Record FnSpanTable : Set := mkSpanTable {
  stmt_spans : gmap nat (list SourceSpan); terminator_spans : gmap nat SourceSpan }.

Definition FnSpanTable_new : FnSpanTable := mkSpanTable ∅ ∅.

Definition set_stmt_span (block_idx stmt_idx : nat) (span : SourceSpan) (t : FnSpanTable) :
  FnSpanTable :=
  let v := default [] (stmt_spans t !! block_idx) in
  let v := if length v <=? stmt_idx then v ++ replicate (stmt_idx + 1 - length v) (mkSpan 0 0) else v in
  mkSpanTable (<[block_idx := <[stmt_idx := span]> v]> (stmt_spans t)) (terminator_spans t).

Definition set_terminator_span (block_idx : nat) (span : SourceSpan) (t : FnSpanTable) : FnSpanTable :=
  mkSpanTable (stmt_spans t) (<[block_idx := span]> (terminator_spans t)).

Definition stmt_span (t : FnSpanTable) (block_idx stmt_idx : nat) : option SourceSpan :=
  v ← stmt_spans t !! block_idx; v !! stmt_idx.

Definition terminator_span (t : FnSpanTable) (block_idx : nat) : option SourceSpan :=
  terminator_spans t !! block_idx.

(** ** Programs *)

Record ExternBinding : Set := mkExternBinding {
  eb_abi : string; eb_name : string; eb_is_variadic : bool; eb_mut_params : list bool }.

Record Program : Set := mkProgram {
  fns : list Function; adts : list AdtRef; agents : list Agent; errors : list string;
  span_table : gmap nat FnSpanTable; extern_bindings : gmap nat ExternBinding;
  adt_drop_fns : gmap Z string }.

Definition fn_by_name (p : Program) (name : string) : option Function :=
  snd <$> list_find (λ f, fn_name f = name) (fns p).

(** [fn_by_id] and [agent_by_id] index: out of range they panic. *)
Definition fn_by_id (p : Program) (id : IrFnId) : option Function := fns p !! id.
Definition agent_by_id (p : Program) (id : AgentIrId) : option Agent := agents p !! id.

Definition agent_by_name (p : Program) (name : string) : option Agent :=
  snd <$> list_find (λ a, ag_name a = name) (agents p).

Definition adt_by_id (p : Program) (id : AdtId) : option AdtRef :=
  snd <$> list_find (λ a, ar_adt a = id) (adts p).
