(* ===== verification/IrValue.v ===== *)
(** * Values of the IR interpreter

    [crates/mty-ir/src/interp/value.rs] and the value operations of
    [interp/run.rs]: reading and writing through projections, constants,
    operators, casts and the memory estimate.  An [i128] is a [Z] between
    [- 2^127] and [2^127 - 1], a [u64] one below [2^64], an [f64] a binary64
    [spec_float].  Arithmetic that overflows where the source does not wrap
    panics ([None]), as it does in the development profile.  Printing a float
    and the tables of Unicode are the standard library's, a [RustStd]. *)

From stdpp Require Import base list strings numbers.
From Stdlib Require Import Ascii SpecFloat.
From S2P Require Import Prelude TyArena IrSyntax.

Local Open Scope Z_scope.

(** ** Values *)

Notation ScopeId := nat (only parsing).

Record Reference : Set := mkRef {
  ref_scope : ScopeId; ref_owner : Local; ref_proj : list Projection; ref_mutable : bool }.

Record AgentHandle : Set := mkHandle { h_id : nat; h_agent : AgentIrId; h_state_idx : nat }.

Inductive Value : Set :=
  | VUnit
  | VBool (b : bool)
  | VInt (n : Z) (k : IntKind)
  | VFloat (f : f64) (k : FloatKind)
  | VStr (s : rstr)
  | VChar (c : Z)
  | VDuration (n : Z)
  | VSize (n : Z)
  | VTuple (xs : list Value)
  | VArray (xs : list Value)
  | VStruct (adt : AdtId) (fields : list Value)
  | VEnum (adt : AdtId) (variant : nat) (payload : list Value)
  | VRef (r : Reference)
  | VFn (f : FnRef)
  | VAgent (h : AgentHandle)
  | VCap (family : CapFamily) (constraint : CapConstraint)
  | VVoid.

Section value_ind.
Context (P : Value → Prop) (Hunit : P VUnit) (Hbool : ∀ b, P (VBool b)) (Hint : ∀ n k, P (VInt n k))
  (Hfloat : ∀ f k, P (VFloat f k)) (Hstr : ∀ s, P (VStr s)) (Hchar : ∀ c, P (VChar c))
  (Hduration : ∀ n, P (VDuration n)) (Hsize : ∀ n, P (VSize n))
  (Htuple : ∀ xs, Forall P xs → P (VTuple xs)) (Harray : ∀ xs, Forall P xs → P (VArray xs))
  (Hstruct : ∀ a xs, Forall P xs → P (VStruct a xs))
  (Henum : ∀ a n xs, Forall P xs → P (VEnum a n xs)) (Href : ∀ r, P (VRef r))
  (Hfn : ∀ f, P (VFn f)) (Hagent : ∀ h, P (VAgent h)) (Hcap : ∀ f c, P (VCap f c)) (Hvoid : P VVoid).

Fixpoint Value_rec' (v : Value) : P v :=
  let all := fix all (xs : list Value) : Forall P xs :=
    match xs with
    | [] => @List.Forall_nil Value P
    | x :: xs => @List.Forall_cons Value P x xs (Value_rec' x) (all xs)
    end in
  match v with
  | VUnit => Hunit | VBool b => Hbool b | VInt n k => Hint n k | VFloat f k => Hfloat f k
  | VStr s => Hstr s | VChar c => Hchar c | VDuration n => Hduration n | VSize n => Hsize n
  | VTuple xs => Htuple xs (all xs) | VArray xs => Harray xs (all xs)
  | VStruct a xs => Hstruct a xs (all xs) | VEnum a n xs => Henum a n xs (all xs)
  | VRef r => Href r | VFn f => Hfn f | VAgent h => Hagent h | VCap f c => Hcap f c
  | VVoid => Hvoid
  end.
End value_ind.

Definition truthy (v : Value) : bool :=
  match v with
  | VBool b => b
  | VInt n _ => negb (n =? 0)
  | VUnit | VVoid => false
  | _ => true
  end.

Definition as_int (v : Value) : option Z :=
  match v with
  | VInt n _ => Some n
  | VBool b => Some (if b then 1 else 0)
  | _ => None
  end.

(** ** Strings *)

(** A literal of the source, which is ASCII. *)
Definition lit (s : string) : rstr := (λ a, Z.of_N (Ascii.N_of_ascii a)) <$> String.list_ascii_of_string s.
Arguments lit : simpl never.

(** The bytes of a scalar value, and [str::len]. *)
Definition utf8_char (c : Z) : list Z :=
  if c <? 0x80 then [c]
  else if c <? 0x800 then [0xC0 + Z.shiftr c 6; 0x80 + Z.land c 0x3F]
  else if c <? 0x10000 then [0xE0 + Z.shiftr c 12; 0x80 + Z.land (Z.shiftr c 6) 0x3F; 0x80 + Z.land c 0x3F]
  else [0xF0 + Z.shiftr c 18; 0x80 + Z.land (Z.shiftr c 12) 0x3F; 0x80 + Z.land (Z.shiftr c 6) 0x3F;
        0x80 + Z.land c 0x3F].

Definition utf8 (s : rstr) : list Z := s ≫= utf8_char.
Definition str_len (s : rstr) : Z := Z.of_nat (length (utf8 s)).

(** [char::from_u32] accepts these. *)
Definition is_scalar (c : Z) : bool :=
  (0 <=? c) && (c <? 0x110000) && negb ((0xD800 <=? c) && (c <=? 0xDFFF)).

(** The order of strings: bytewise, which on UTF-8 is scalar by scalar. *)
Fixpoint str_ltb (s t : rstr) : bool :=
  match s, t with
  | [], _ :: _ => true
  | _, [] => false
  | a :: s, b :: t => (a <? b) || ((a =? b) && str_ltb s t)
  end.
Definition str_eqb (s t : rstr) : bool := bool_decide (s = t).

Fixpoint join (sep : rstr) (parts : list rstr) : rstr :=
  match parts with
  | [] => []
  | [p] => p
  | p :: ps => p ++ sep ++ join sep ps
  end.

(** The digits of [n] in base [radix], the last one first; [fuel] is a bound
    on their number. *)
Fixpoint digits_rev (fuel : nat) (radix n : Z) : list Z :=
  match fuel with
  | O => []
  | S fuel => if n <? radix then [n] else n mod radix :: digits_rev fuel radix (n / radix)
  end.
Definition digit_char (upper : bool) (d : Z) : Z :=
  if d <? 10 then 48 + d else if upper then 55 + d else 87 + d.
Definition digits (radix : Z) (upper : bool) (n : Z) : rstr :=
  digit_char upper <$> reverse (digits_rev (S (Z.to_nat (Z.log2 n))) radix n).
Definition int_display (n : Z) : rstr :=
  if n <? 0 then lit "-" ++ digits 10 false (- n) else digits 10 false n.

(** The standard library's float printing and Unicode tables. *)
Class RustStd := {
  f64_display : f64 → rstr;
  f64_display_prec : nat → f64 → rstr;
  str_debug : rstr → rstr;
  char_debug : Z → rstr;
  name_debug : string → rstr;
  to_lowercase : rstr → rstr;
  to_uppercase : rstr → rstr;
  char_to_lowercase : Z → rstr;
  char_to_uppercase : Z → rstr;
  is_alphanumeric : Z → bool;
  str_capacity : rstr → Z;
  vec_capacity : list Value → Z;
}.

Section as_str.
Context `{RustStd}.

Definition family_debug (f : CapFamily) : rstr :=
  match f with
  | Net => lit "Net" | Fs => lit "Fs" | Clock => lit "Clock" | Dom => lit "Dom" | Model => lit "Model"
  | Custom n => lit "Custom(" ++ name_debug n ++ lit ")"
  end.

Fixpoint as_str (v : Value) : rstr :=
  match v with
  | VStr s => s
  | VChar c => [c]
  | VBool b => if b then lit "true" else lit "false"
  | VInt n _ => int_display n
  | VFloat f _ => f64_display f
  | VUnit => lit "()"
  | VVoid => []
  | VTuple xs => lit "(" ++ join (lit ", ") (List.map as_str xs) ++ lit ")"
  | VArray xs => lit "[" ++ join (lit ", ") (List.map as_str xs) ++ lit "]"
  | VEnum _ variant payload =>
      match payload with
      | [] => lit "V" ++ int_display (Z.of_nat variant)
      | _ => lit "V" ++ int_display (Z.of_nat variant) ++ lit "("
               ++ join (lit ", ") (List.map as_str payload) ++ lit ")"
      end
  | VStruct _ fields => lit "{" ++ join (lit ", ") (List.map as_str fields) ++ lit "}"
  | VRef r => lit "ref(_" ++ int_display (Z.of_nat (ref_owner r)) ++ lit ")"
  | VFn _ => lit "<fn>"
  | VAgent _ => lit "<agent>"
  | VCap family _ => lit "<cap " ++ family_debug family ++ lit ">"
  | VDuration n => int_display n ++ lit "ms"
  | VSize n => int_display n ++ lit "B"
  end.
End as_str.

(** ** Fixed-width integers and floats *)

Definition i128_min : Z := - 2 ^ 127.
Definition i128_max : Z := 2 ^ 127 - 1.
(** Two's complement at [bits] bits. *)
Definition wrap_signed (bits n : Z) : Z := (n + 2 ^ (bits - 1)) mod 2 ^ bits - 2 ^ (bits - 1).
Notation wrap128 := (wrap_signed 128).
Definition u64_max : Z := 2 ^ 64 - 1.
(** [n as usize] of a non-negative number. *)
Definition as_usize (n : Z) : Z := n mod 2 ^ 64.

(** Indexing by a machine word, without building the unary number when it is
    out of range. *)
Definition get {A} (xs : list A) (i : Z) : option A :=
  if (0 <=? i) && (i <? Z.of_nat (length xs)) then xs !! Z.to_nat i else None.

Definition f64_of_Z (n : Z) : f64 := binary_normalize 53 1024 n 0 false.
Definition fadd : f64 → f64 → f64 := SFadd 53 1024.
Definition fsub : f64 → f64 → f64 := SFsub 53 1024.
Definition fmul : f64 → f64 → f64 := SFmul 53 1024.
Definition fdiv : f64 → f64 → f64 := SFdiv 53 1024.

(** Comparison by value; a NaN compares with nothing. *)
Definition f64_parts (f : f64) : Z * Z :=
  match f with S754_finite s m e => (cond_Zopp s (Zpos m), e) | _ => (0, 0) end.
Definition f64_compare (f g : f64) : option comparison :=
  match f, g with
  | S754_nan, _ | _, S754_nan => None
  | S754_infinity a, S754_infinity b => Some (if a then (if b then Eq else Lt) else (if b then Gt else Eq))
  | S754_infinity a, _ => Some (if a then Lt else Gt)
  | _, S754_infinity b => Some (if b then Gt else Lt)
  | _, _ =>
      let '(mf, ef) := f64_parts f in
      let '(mg, eg) := f64_parts g in
      let e := Z.min ef eg in
      Some (mf * 2 ^ (ef - e) ?= mg * 2 ^ (eg - e))
  end.
Definition f64_eqb (f g : f64) : bool := match f64_compare f g with Some Eq => true | _ => false end.
Definition f64_ltb (f g : f64) : bool := match f64_compare f g with Some Lt => true | _ => false end.
Definition f64_leb (f g : f64) : bool := match f64_compare f g with Some (Lt | Eq) => true | _ => false end.

(** [(f as f32) as f64]: round to 24 bits, ties to even, and widen. *)
Definition f32_round (f : f64) : f64 :=
  match f with
  | S754_finite s m e =>
      match binary_normalize 24 128 (cond_Zopp s (Zpos m)) e s with
      | S754_finite s' m' e' => binary_normalize 53 1024 (cond_Zopp s' (Zpos m')) e' s'
      | g => g
      end
  | _ => f
  end.

(** [f.trunc() as i128] of a float in range. *)
Definition f64_trunc (f : f64) : Z :=
  match f with
  | S754_finite s m e => cond_Zopp s (if 0 <=? e then Zpos m * 2 ^ e else Z.shiftr (Zpos m) (- e))
  | _ => 0
  end.

Definition is_unsigned_int_kind (k : IntKind) : bool :=
  match k with U8 | U16 | U32 | U64 | U128 | USize => true | _ => false end.

Definition unsigned_mask_u128 (k : IntKind) : Z :=
  match k with
  | U8 => 0xFF | U16 => 0xFFFF | U32 => 0xFFFFFFFF
  | USize | U64 => u64_max
  | _ => 2 ^ 128 - 1
  end.

Definition kind_bits (k : IntKind) : Z :=
  match k with
  | I8 | U8 => 8
  | I16 | U16 => 16
  | I32 | U32 | IntInfer => 32
  | I64 | U64 | USize | ISize => 64
  | I128 | U128 => 128
  end.

(** [n as u128] and back. *)
Definition as_u128 (n : Z) : Z := n mod 2 ^ 128.
Definition as_i128 (n : Z) : Z := wrap128 n.

Definition narrow_int (n : Z) (k : IntKind) : Z :=
  let bits := kind_bits k in
  if bits =? 128 then n
  else
    let mask := Z.shiftl 1 bits - 1 in
    let low := Z.land (as_u128 n) mask in
    if is_unsigned_int_kind k then as_i128 low
    else
      let sign_bit := Z.shiftl 1 (bits - 1) in
      if negb (Z.land low sign_bit =? 0)
      then as_i128 (Z.lor low (Z.lxor mask (2 ^ 128 - 1)))
      else as_i128 low.

Definition kind_range (k : IntKind) : Z * Z :=
  match k with
  | I8 => (- 2 ^ 7, 2 ^ 7 - 1)
  | I16 => (- 2 ^ 15, 2 ^ 15 - 1)
  | I32 | IntInfer => (- 2 ^ 31, 2 ^ 31 - 1)
  | I64 | ISize => (- 2 ^ 63, 2 ^ 63 - 1)
  | I128 => (i128_min, i128_max)
  | U8 => (0, 2 ^ 8 - 1)
  | U16 => (0, 2 ^ 16 - 1)
  | U32 => (0, 2 ^ 32 - 1)
  | U64 | USize => (0, u64_max)
  | U128 => (0, i128_max)
  end.

Definition is_nan (f : f64) : bool := match f with S754_nan => true | _ => false end.

Definition float_to_int_saturating (f : f64) (k : IntKind) : Z :=
  if is_nan f then 0
  else
    let '(lo, hi) := kind_range k in
    if f64_leb (f64_of_Z hi) f then hi
    else if f64_leb f (f64_of_Z lo) then lo
    else f64_trunc f.

(** ** Operators *)

(** A trap carries its code and message. *)
Notation trap := (string * rstr)%type (only parsing).

Definition float_kind_default (l r : Value) : FloatKind :=
  match l, r with
  | VFloat _ k, _ => k
  | _, VFloat _ k => k
  | _, _ => F64
  end.

Definition as_float (v : Value) : f64 :=
  match v with
  | VFloat f _ => f
  | VInt n _ => f64_of_Z n
  | VBool true => f64_of_Z 1
  | _ => S754_zero false
  end.

Definition is_float (v : Value) : bool := match v with VFloat _ _ => true | _ => false end.
Definition is_str (v : Value) : bool := match v with VStr _ => true | _ => false end.

Definition float_binop (op : BinOp) (l r : Value) : Value + trap :=
  let lf := as_float l in
  let rf := as_float r in
  let k := float_kind_default l r in
  match op with
  | Add => inl (VFloat (fadd lf rf) k)
  | Sub => inl (VFloat (fsub lf rf) k)
  | Mul => inl (VFloat (fmul lf rf) k)
  | Div =>
      if f64_eqb rf (S754_zero false) then inr ("MT5003", lit "float divide by zero")
      else inl (VFloat (fdiv lf rf) k)
  | BEq => inl (VBool (f64_eqb lf rf))
  | BNe => inl (VBool (negb (f64_eqb lf rf)))
  | BLt => inl (VBool (f64_ltb lf rf))
  | BLe => inl (VBool (f64_leb lf rf))
  | BGt => inl (VBool (f64_ltb rf lf))
  | BGe => inl (VBool (f64_leb rf lf))
  | _ => inl VUnit
  end.

Definition str_binop (op : BinOp) (ls rs : rstr) : Value :=
  match op with
  | Add => VStr (ls ++ rs)
  | BEq => VBool (str_eqb ls rs)
  | BNe => VBool (negb (str_eqb ls rs))
  | BLt => VBool (str_ltb ls rs)
  | BLe => VBool (negb (str_ltb rs ls))
  | BGt => VBool (str_ltb rs ls)
  | BGe => VBool (negb (str_ltb ls rs))
  | _ => VUnit
  end.

Definition int_kind_of (l r : Value) : IntKind :=
  match l with
  | VInt _ k => k
  | _ => match r with VInt _ k => k | _ => I32 end
  end.

Definition int_binop (op : BinOp) (l r : Value) : Value + trap :=
  let li := default 0 (as_int l) in
  let ri := default 0 (as_int r) in
  let kind := int_kind_of l r in
  match op with
  | Add => inl (VInt (wrap128 (li + ri)) kind)
  | Sub => inl (VInt (wrap128 (li - ri)) kind)
  | Mul => inl (VInt (wrap128 (li * ri)) kind)
  | Div =>
      if ri =? 0 then inr ("MT5003", lit "divide by zero")
      else inl (VInt (wrap128 (Z.quot li ri)) kind)
  | Rem =>
      if ri =? 0 then inr ("MT5003", lit "remainder by zero")
      else inl (VInt (wrap128 (Z.rem li ri)) kind)
  | BitAnd => inl (VInt (Z.land li ri) kind)
  | BitOr => inl (VInt (Z.lor li ri) kind)
  | BitXor => inl (VInt (Z.lxor li ri) kind)
  | Shl => inl (VInt (wrap128 (Z.shiftl li (ri mod 2 ^ 32 mod 128))) kind)
  | Shr => inl (VInt (Z.shiftr li (ri mod 2 ^ 32 mod 128)) kind)
  | BEq => inl (VBool (li =? ri))
  | BNe => inl (VBool (negb (li =? ri)))
  | BLt => inl (VBool (li <? ri))
  | BLe => inl (VBool (li <=? ri))
  | BGt => inl (VBool (ri <? li))
  | BGe => inl (VBool (ri <=? li))
  | BAnd => inl (VBool (truthy l && truthy r))
  | BOr => inl (VBool (truthy l || truthy r))
  end.

Definition eval_binop `{RustStd} (op : BinOp) (l r : Value) : Value + trap :=
  if is_float l || is_float r then float_binop op l r
  else if is_str l || is_str r then inl (str_binop op (as_str l) (as_str r))
  else int_binop op l r.

(** [- n] panics for the least [i128]. *)
Definition neg_i128 (n : Z) : option Z := if n =? i128_min then None else Some (- n).

Definition eval_unop (op : UnOp) (v : Value) : option Value :=
  match op, v with
  | Neg, VInt n k => m ← neg_i128 n; Some (VInt m k)
  | Neg, VFloat f k => Some (VFloat (SFopp f) k)
  | Not, VBool b => Some (VBool (negb b))
  | Not, VInt n k => Some (VInt (Z.lnot n) k)
  | _, _ => Some v
  end.

(** ** Casts *)

Definition store_kind (dst : FloatKind) : FloatKind := match dst with F32 => F32 | _ => F64 end.
Definition float_narrow (dst : FloatKind) (f : f64) : f64 :=
  match dst with F32 | FloatInfer => f32_round f | F64 => f end.

Definition eval_cast (v : Value) (ty : IrTy) : Value :=
  match v, ty with
  | VInt n _, IrInt dst => VInt (narrow_int n dst) dst
  | VInt n src, IrFloat dst =>
      let f := if is_unsigned_int_kind src
               then f64_of_Z (Z.land (as_u128 n) (unsigned_mask_u128 src))
               else f64_of_Z n in
      VFloat (float_narrow dst f) (store_kind dst)
  | VFloat f _, IrInt dst => VInt (float_to_int_saturating f dst) dst
  | VFloat f _, IrFloat dst => VFloat (float_narrow dst f) (store_kind dst)
  | VBool b, IrInt dst => VInt (if b then 1 else 0) dst
  | VInt n _, IrBool => VBool (negb (n =? 0))
  | VChar c, IrInt dst => VInt (narrow_int c dst) dst
  | VInt n _, IrChar =>
      let cp := n mod 2 ^ 32 in
      VChar (if is_scalar cp then cp else 0)
  | _, _ => v
  end.

(** ** Constants *)

(** A [u64] product: [None] when it overflows. *)
Definition mul_u64 (a b : Z) : option Z := if a * b <=? u64_max then Some (a * b) else None.

Definition duration_ms (v : Z) (unit : string) : option Z :=
  if bool_decide (unit = "ns") then Some (v / 1000000)
  else if bool_decide (unit = "us") then Some (v / 1000)
  else if bool_decide (unit = "ms") then Some v
  else if bool_decide (unit = "s") then mul_u64 v 1000
  else if bool_decide (unit = "m") then mul_u64 v 60000
  else if bool_decide (unit = "h") then mul_u64 v 3600000
  else Some v.

Definition size_bytes (v : Z) (unit : string) : option Z :=
  if bool_decide (unit = "B") then Some v
  else if bool_decide (unit = "KiB") then mul_u64 v 1024
  else if bool_decide (unit = "MiB") then m ← mul_u64 v 1024; mul_u64 m 1024
  else if bool_decide (unit = "GiB") then m ← mul_u64 v 1024; m ← mul_u64 m 1024; mul_u64 m 1024
  else if bool_decide (unit = "k") then mul_u64 v 1000
  else if bool_decide (unit = "M") then mul_u64 v 1000000
  else Some v.

Definition const_to_value (c : Const) : option Value :=
  match c with
  | KUnit => Some VUnit
  | KBool b => Some (VBool b)
  | KInt v k => Some (VInt v k)
  | KFloat v k => Some (VFloat v k)
  | KStr s => Some (VStr s)
  | KChar c => Some (VChar c)
  | KDuration v u => VDuration <$> duration_ms v u
  | KSize v u => VSize <$> size_bytes v u
  | KFnPtr f => Some (VFn f)
  | KNullPtr => Some (VInt 0 USize)
  end.

(** ** Reading and writing through projections *)

Definition read_field (v : Value) (i : nat) : Value :=
  match v with
  | VStruct _ fields => default VUnit (fields !! i)
  | VTuple xs => default VUnit (xs !! i)
  | VEnum _ _ payload => default VUnit (payload !! i)
  | _ => VUnit
  end.

Definition read_tuple (v : Value) (i : nat) : Value :=
  match v with
  | VTuple xs => default VUnit (xs !! i)
  | VStruct _ fields => default VUnit (fields !! i)
  | VEnum _ _ payload => default VUnit (payload !! i)
  | _ => VUnit
  end.

Definition read_index (v : Value) (i : Z) : Value :=
  match v with
  | VArray xs => default VUnit (get xs i)
  | VStr s => default VUnit (VChar <$> get s i)
  | _ => VUnit
  end.

Definition read_variant_field (v : Value) (fi : nat) : Value :=
  match v with
  | VEnum _ _ payload => default VUnit (payload !! fi)
  | other => other
  end.

(** [slot_update i f xs] updates the slot [i] when it exists. *)
Definition slot_update (i : nat) (f : Value → Value) (xs : list Value) : list Value := alter f i xs.

Fixpoint write_proj (target : Value) (proj : list Projection) (v : Value) {struct proj} : Value :=
  match proj with
  | [] => v
  | head :: rest =>
      let put := λ slot, write_proj slot rest v in
      match head, target with
      | PField i, VStruct a fields => VStruct a (slot_update i put fields)
      | PTupleIndex i, VTuple xs => VTuple (slot_update i put xs)
      | PVariantField _ fi, VEnum a n payload => VEnum a n (slot_update fi put payload)
      | _, _ => target
      end
  end.

(** ** The memory estimate *)

(** [u64::saturating_add]. *)
Definition saturating_add (a b : Z) : Z := Z.min u64_max (a + b).

Definition sum_Z (l : list Z) : Z := foldr Z.add 0 l.

Fixpoint estimate_value_bytes (v : Value) : Z :=
  match v with
  | VUnit | VVoid => 8
  | VBool _ | VChar _ => 8
  | VInt _ _ | VFloat _ _ | VDuration _ | VSize _ => 16
  | VStr s => 24 + str_len s
  | VTuple xs | VArray xs => 24 + sum_Z (List.map estimate_value_bytes xs)
  | VStruct _ fields => 24 + sum_Z (List.map estimate_value_bytes fields)
  | VEnum _ _ payload => 24 + sum_Z (List.map estimate_value_bytes payload)
  | VRef _ | VFn _ | VAgent _ | VCap _ _ => 16
  end.

Definition estimate_payload_bytes (vs : list Value) : Z :=
  foldl (λ total v, saturating_add total (estimate_value_bytes v)) 0 vs.

(** ** Activation records *)

Record Frame : Set := mkFrame {
  f_fn_id : IrFnId; f_locals : list Value; f_scope : ScopeId; f_block : BlockId; f_pc : nat;
  f_arenas : list ArenaId }.

Definition Frame_new (fn_id : IrFnId) (locals : list Value) (scope : ScopeId) (entry : BlockId) : Frame :=
  mkFrame fn_id locals scope entry 0 [].
