(* ===== verification/IrMethods.v ===== *)
(** * Methods of the IR interpreter

    The method table of [crates/mty-ir/src/interp/run.rs]: [eval_method] and
    [eval_mutating_method], with the formatting helpers behind [format!].  The
    match of [eval_method] is split where its comments split it.  Strings are
    lists of scalar values, so the methods that speak of byte positions count
    the bytes of the scalars before them.  Failure to allocate is not
    modelled: [with_capacity] and [repeat] always succeed. *)

From stdpp Require Import base list strings numbers.
From Stdlib Require Import Ascii SpecFloat.
From S2P Require Import Prelude TyArena IrSyntax IrValue.

Local Open Scope Z_scope.

(** ** Strings by byte position *)

Definition char_len (c : Z) : Z := Z.of_nat (length (utf8_char c)).

(** The split of a string at a byte position, when that is a boundary. *)
Fixpoint split_at_byte (s : rstr) (i : Z) : option (rstr * rstr) :=
  if i =? 0 then Some ([], s)
  else match s with
       | [] => None
       | c :: s =>
           if i <? char_len c then None
           else '(a, b) ← split_at_byte s (i - char_len c); Some (c :: a, b)
       end.

Definition is_char_boundary (s : rstr) (i : Z) : bool :=
  match split_at_byte s i with Some _ => true | None => false end.

Fixpoint char_indices (from : Z) (s : rstr) : list (Z * Z) :=
  match s with
  | [] => []
  | c :: s => (from, c) :: char_indices (from + char_len c) s
  end.

Fixpoint starts_with (p s : rstr) : bool :=
  match p, s with
  | [], _ => true
  | a :: p, b :: s => (a =? b) && starts_with p s
  | _ :: _, [] => false
  end.

Definition ends_with (p s : rstr) : bool := starts_with (reverse p) (reverse s).

(** [str::find]: the byte position of the first match. *)
Fixpoint find_from (from : Z) (needle s : rstr) : option Z :=
  if starts_with needle s then Some from
  else match s with
       | [] => None
       | c :: s => find_from (from + char_len c) needle s
       end.
Definition find (needle s : rstr) : option Z := find_from 0 needle s.
Definition contains (needle s : rstr) : bool := match find needle s with Some _ => true | None => false end.

(** [str::rfind]: the last match. *)
Fixpoint rfind_from (from : Z) (needle s : rstr) : option Z :=
  let later := match s with [] => None | c :: s => rfind_from (from + char_len c) needle s end in
  match later with
  | Some i => Some i
  | None => if starts_with needle s then Some from else None
  end.
Definition rfind (needle s : rstr) : option Z := rfind_from 0 needle s.

(** [str::split] by a separator that is not empty; [acc] is the piece read so
    far, in reverse, [skip] the rest of a separator being skipped. *)
Fixpoint split_go (sep : rstr) (acc : rstr) (skip : nat) (s : rstr) : list rstr :=
  match s with
  | [] => [reverse acc]
  | c :: s' =>
      match skip with
      | S k => split_go sep acc k s'
      | O => if starts_with sep s then reverse acc :: split_go sep [] (length sep - 1) s'
             else split_go sep (c :: acc) O s'
      end
  end.
Definition split (sep s : rstr) : list rstr := split_go sep [] 0 s.
Definition replace (from to s : rstr) : rstr := join to (split from s).

(** [char::is_whitespace]. *)
Definition is_whitespace (c : Z) : bool :=
  ((9 <=? c) && (c <=? 13)) || (c =? 32) || (c =? 0x85) || (c =? 0xA0) || (c =? 0x1680)
  || ((0x2000 <=? c) && (c <=? 0x200A)) || (c =? 0x2028) || (c =? 0x2029) || (c =? 0x202F)
  || (c =? 0x205F) || (c =? 0x3000).

Fixpoint trim_start (s : rstr) : rstr :=
  match s with
  | c :: s' => if is_whitespace c then trim_start s' else s
  | [] => []
  end.
Definition trim_end (s : rstr) : rstr := reverse (trim_start (reverse s)).
Definition trim (s : rstr) : rstr := trim_end (trim_start s).

(** [String::from_utf8]: the strict decoder. *)
Definition is_cont (b : Z) : bool := (0x80 <=? b) && (b <=? 0xBF).
Fixpoint utf8_decode (bs : list Z) : option rstr :=
  match bs with
  | [] => Some []
  | b :: bs1 =>
      if b <? 0x80 then (λ s, b :: s) <$> utf8_decode bs1
      else match bs1 with
           | b1 :: bs2 =>
               if (0xC2 <=? b) && (b <=? 0xDF) && is_cont b1
               then (λ s, (b - 0xC0) * 64 + (b1 - 0x80) :: s) <$> utf8_decode bs2
               else match bs2 with
                    | b2 :: bs3 =>
                        let c3 := (b - 0xE0) * 4096 + (b1 - 0x80) * 64 + (b2 - 0x80) in
                        if (0xE0 <=? b) && (b <=? 0xEF) && is_cont b1 && is_cont b2
                             && (0x800 <=? c3) && is_scalar c3
                        then (λ s, c3 :: s) <$> utf8_decode bs3
                        else match bs3 with
                             | b3 :: bs4 =>
                                 let c4 := (b - 0xF0) * 262144 + (b1 - 0x80) * 4096
                                           + (b2 - 0x80) * 64 + (b3 - 0x80) in
                                 if (0xF0 <=? b) && (b <=? 0xF4) && is_cont b1 && is_cont b2 && is_cont b3
                                      && (0x10000 <=? c4) && is_scalar c4
                                 then (λ s, c4 :: s) <$> utf8_decode bs4
                                 else None
                             | [] => None
                             end
                    | [] => None
                    end
           | [] => None
           end
  end.

(** ** Shapes *)

Definition some_value (v : Value) : Value := VEnum 0 0 [v].
Definition none_value : Value := VEnum 0 1 [].
(** A length or a position in memory is a machine word. *)
Definition usize_value (n : Z) : Value := VInt (as_usize n) USize.
Definition option_value {A} (f : A → Value) (o : option A) : Value :=
  match o with Some x => some_value (f x) | None => none_value end.
Definition bytes_value (s : rstr) : Value := VArray ((λ b, VInt b U8) <$> utf8 s).

(** ** Formatting *)

Definition FMT_PRECISION_NONE : Z := 2 ^ 32 - 1.

(** [n as i64]. *)
Definition as_i64 (n : Z) : Z := wrap_signed 64 n.

Definition precision_of (precision_opt : option Z) : option Z :=
  match precision_opt with
  | Some p => if negb (p =? FMT_PRECISION_NONE) && (0 <=? p) then Some p else None
  | None => None
  end.

Definition format_radix_u128 (n : Z) (radix : Z) (upper : bool) : rstr := digits radix upper n.

(** [{:x}] and its like on an integer: the sign and the digits of the low 64 bits. *)
Definition radix_str (radix : Z) (upper : bool) (n : Z) : rstr :=
  let v := as_i64 n in
  if v <? 0 then lit "-" ++ digits radix upper (Z.abs v) else digits radix upper v.

Definition hex_byte (upper : bool) (b : Z) : rstr :=
  [digit_char upper (b / 16); digit_char upper (b mod 16)].

Section render.
Context `{RustStd}.

Definition render_display_spec (receiver : Value) (sign_plus : bool) (precision_opt : option Z) : Value :=
  let precision := precision_of precision_opt in
  match receiver with
  | VInt v _ =>
      VStr (if v <? 0 then int_display v
            else if sign_plus then lit "+" ++ int_display v else int_display v)
  | VFloat f _ =>
      let body := match precision with
                  | Some p => f64_display_prec (Z.to_nat p) (SFabs f)
                  | None => f64_display (SFabs f)
                  end in
      VStr (if f64_ltb f (S754_zero false) then lit "-" ++ body
            else if sign_plus then lit "+" ++ body else body)
  | VStr s =>
      VStr (match precision with
            | Some p => if p <? Z.of_nat (length s) then take (Z.to_nat p) s else s
            | None => s
            end)
  | other => VStr (as_str other)
  end.

Definition render_radix_spec (receiver : Value) (radix : Z) (upper : bool) (prefix : rstr)
  (sign_plus alternate : bool) (precision_opt : option Z) : Value :=
  let precision := precision_of precision_opt in
  let finish := λ (sign magnitude : rstr),
    let padded := match precision with
                  | Some p => if Z.of_nat (length magnitude) <? p
                              then replicate (Z.to_nat p - length magnitude) 48 ++ magnitude
                              else magnitude
                  | None => magnitude
                  end in
    VStr (sign ++ (if alternate then prefix else []) ++ padded) in
  match receiver with
  | VInt n _ =>
      let v := as_i64 n in
      finish (if v <? 0 then lit "-" else if sign_plus then lit "+" else [])
             (format_radix_u128 (Z.abs v) radix upper)
  | VChar c => finish (if sign_plus then lit "+" else []) (format_radix_u128 c radix upper)
  | VBool b =>
      finish (if sign_plus then lit "+" else []) (format_radix_u128 (if b then 1 else 0) radix upper)
  | other => VStr (as_str other)
  end.
End render.

(** The heuristics of the padding work on bytes; what they look at is ASCII. *)
Definition is_sign (c : Z) : bool := (c =? 43) || (c =? 45).
Definition is_radix_mark (c : Z) : bool :=
  (c =? 120) || (c =? 88) || (c =? 98) || (c =? 66) || (c =? 111) || (c =? 79).

(** Length of the sign and the [0x]-like prefix. *)
Definition numeric_prefix_len (s : rstr) : nat :=
  let i := match s with c :: _ => if is_sign c then 1 else 0 | [] => 0 end%nat in
  match drop i s with
  | 48 :: p :: _ => if is_radix_mark p then (i + 2)%nat else i
  | _ => i
  end.

Definition split_numeric_prefix (s : rstr) : rstr * rstr :=
  let e := numeric_prefix_len s in (take e s, drop e s).

Definition is_hexdigit (c : Z) : bool :=
  ((48 <=? c) && (c <=? 57)) || ((97 <=? c) && (c <=? 102)) || ((65 <=? c) && (c <=? 70)).

Definition looks_numeric (s : rstr) : bool :=
  match drop (numeric_prefix_len s) s with
  | [] => false
  | rest => forallb (λ b, is_hexdigit b || (b =? 46) || (b =? 101) || (b =? 69) || (b =? 95)) rest
  end.

Definition pad_str (s : rstr) (width : Z) (fill : Z) (align : rstr) : rstr :=
  let len := Z.of_nat (length s) in
  if (width <=? len) || (width =? 0) then s
  else
    let total_pad := Z.to_nat (width - len) in
    let resolved := if str_eqb align (lit "default")
                    then if looks_numeric s then lit "right" else lit "left"
                    else align in
    if str_eqb resolved (lit "left") then s ++ replicate total_pad fill
    else if str_eqb resolved (lit "center") then
      let left_pad := Nat.div total_pad 2 in
      replicate left_pad fill ++ s ++ replicate (total_pad - left_pad)%nat fill
    else if fill =? 48 then
      let '(prefix, tail) := split_numeric_prefix s in
      prefix ++ replicate total_pad 48 ++ tail
    else replicate total_pad fill ++ s.

(** ** Arguments *)

Section methods.
Context `{RustStd}.

Definition arg_str (args : list Value) (i : nat) : option rstr :=
  match args !! i with
  | Some (VStr s) => Some s
  | Some (VChar c) => Some [c]
  | Some other => Some (as_str other)
  | None => None
  end.

Definition arg_usize (args : list Value) (i : nat) : option Z :=
  n ← args !! i ≫= as_int;
  if 0 <=? n then Some (as_usize n) else None.

Definition arg_or_unit (args : list Value) : Value := default VUnit (head args).
Definition arg_truthy (args : list Value) (i : nat) : bool :=
  match args !! i with Some v => truthy v | None => false end.
Definition arg_precision (args : list Value) : option Z :=
  n ← args !! 2%nat ≫= as_int; Some (as_i64 n).

(** ** Mutating methods *)

(** [String::pop] and [Vec::pop]. *)
Definition pop {A} (l : list A) : list A * option A :=
  match reverse l with
  | [] => ([], None)
  | x :: r => (reverse r, Some x)
  end.

(** The updated receiver and the result of the call. *)
Definition eval_mutating_method (receiver : Value) (name : string) (args : list Value) :
  option (Value * Value) :=
  let both := λ v : Value, Some (v, v) in
  if bool_decide (name = "push") then
    match receiver with
    | VStr s => match head args with Some (VChar c) => both (VStr (s ++ [c])) | _ => None end
    | VArray xs => match head args with Some v => both (VArray (xs ++ [v])) | None => None end
    | _ => None
    end
  else if bool_decide (name = "push_str") then
    match receiver with
    | VStr s => match arg_str args 0 with Some t => both (VStr (s ++ t)) | None => None end
    | _ => None
    end
  else if bool_decide (name = "clear") then
    match receiver with
    | VStr _ => both (VStr [])
    | VArray _ => both (VArray [])
    | _ => None
    end
  else if bool_decide (name = "pop") then
    match receiver with
    | VStr s => let '(next, c) := pop s in Some (VStr next, option_value VChar c)
    | VArray xs => let '(next, v) := pop xs in Some (VArray next, option_value id v)
    | _ => None
    end
  else None.

(** ** The method table *)

(** The iterator protocol: exhausted, and the element; [None] is the panic
    of an index sum beyond [i128]. *)
Definition iter_next (receiver : Value) (args : list Value) : option Value :=
  let idx := default 0 (head args ≫= as_int) in
  match receiver with
  | VTuple [p0; p1; p2] =>
      let lo := default 0 (as_int p0) in
      let hi := default 0 (as_int p1) in
      let inclusive := match p2 with VBool true => true | _ => false end in
      let cur := lo + idx in
      if (cur <? i128_min) || (i128_max <? cur) then None
      else
        let exhausted := if inclusive then hi <? cur else hi <=? cur in
        let kind := match p0 with VInt _ k => k | _ => I32 end in
        Some (VTuple [VBool exhausted; if exhausted then VUnit else VInt cur kind])
  | VArray xs =>
      match get xs (as_usize (Z.max 0 idx)) with
      | None => Some (VTuple [VBool true; VUnit])
      | Some x => Some (VTuple [VBool false; x])
      end
  | _ => Some (VTuple [VBool true; VUnit])
  end.

Definition hex_method (upper : bool) (receiver : Value) : Value :=
  match receiver with
  | VInt n _ => VStr (radix_str 16 upper n)
  | VChar c => VStr (digits 16 upper c)
  | VBool b => VStr (digits 16 upper (if b then 1 else 0))
  | VStr s => VStr (utf8 s ≫= hex_byte upper)
  | other => VStr (as_str other)
  end.

Definition radix_method (radix : Z) (receiver : Value) : Value :=
  match receiver with
  | VInt n _ => VStr (radix_str radix false n)
  | VChar c => VStr (digits radix false c)
  | VBool b => VStr (digits radix false (if b then 1 else 0))
  | other => VStr (as_str other)
  end.

Definition debug_method (receiver : Value) : Value :=
  match receiver with
  | VStr s => VStr (str_debug s)
  | VChar c => VStr (char_debug c)
  | other => VStr (as_str other)
  end.

Definition radix_spec (receiver : Value) (args : list Value) (radix : Z) (upper : bool) (prefix : rstr) :
  Value :=
  render_radix_spec receiver radix upper prefix (arg_truthy args 0) (arg_truthy args 1)
    (arg_precision args).

Definition pad_method (receiver : Value) (args : list Value) : Value :=
  let width := as_usize (Z.max 0 (default 0 (head args ≫= as_int))) in
  let fill := match args !! 1%nat with
              | Some (VChar c) => c
              | Some (VStr (c :: _)) => c
              | _ => 32
              end in
  let align := match args !! 2%nat with Some v => as_str v | None => lit "right" end in
  VStr (pad_str (as_str receiver) width fill align).

(** Lengths, conversions and the helpers of [format!]. *)
Definition format_method (receiver : Value) (name : string) (args : list Value) : option Value :=
  if bool_decide (name = "len") then
    Some (match receiver with
          | VStr s => usize_value (Z.of_nat (length s))
          | VArray xs => usize_value (Z.of_nat (length xs))
          | _ => usize_value 0
          end)
  else if bool_decide (name = "to_str") || bool_decide (name = "to_string") then Some (VStr (as_str receiver))
  else if bool_decide (name = "as_str") then Some (VStr (as_str receiver))
  else if bool_decide (name = "to_hex_str") then Some (hex_method false receiver)
  else if bool_decide (name = "to_hex_upper_str") then Some (hex_method true receiver)
  else if bool_decide (name = "to_debug_str") then Some (debug_method receiver)
  else if bool_decide (name = "to_bin_str") then Some (radix_method 2 receiver)
  else if bool_decide (name = "to_oct_str") then Some (radix_method 8 receiver)
  else if bool_decide (name = "to_str_spec") then
    Some (render_display_spec receiver (arg_truthy args 0) (arg_precision args))
  else if bool_decide (name = "to_hex_str_spec") then Some (radix_spec receiver args 16 false (lit "0x"))
  else if bool_decide (name = "to_hex_upper_str_spec") then Some (radix_spec receiver args 16 true (lit "0x"))
  else if bool_decide (name = "to_bin_str_spec") then Some (radix_spec receiver args 2 false (lit "0b"))
  else if bool_decide (name = "to_oct_str_spec") then Some (radix_spec receiver args 8 false (lit "0o"))
  else if bool_decide (name = "to_debug_str_spec") then Some (debug_method receiver)
  else if bool_decide (name = "pad_str") then Some (pad_method receiver args)
  else if bool_decide (name = "is_empty") then
    Some (match receiver with
          | VStr s => VBool (match s with [] => true | _ => false end)
          | VArray xs => VBool (match xs with [] => true | _ => false end)
          | VUnit => VBool true
          | _ => VBool false
          end)
  else if bool_decide (name = "next") then Some none_value
  else None.

(** [Result] and [Option]: variant 0 is [Ok] and [Some]. *)
Definition result_method (receiver : Value) (name : string) (args : list Value) : option Value :=
  if bool_decide (name = "unwrap") then
    Some (match receiver with
          | VEnum _ O payload => default VUnit (head payload)
          | other => other
          end)
  else if bool_decide (name = "unwrap_or") then
    Some (match receiver with
          | VEnum _ O payload => default VUnit (head payload)
          | _ => arg_or_unit args
          end)
  else if bool_decide (name = "ok") then
    Some (match receiver with
          | VEnum _ O payload => VEnum 0 0 payload
          | _ => VEnum 0 1 [VUnit]
          end)
  else if bool_decide (name = "ok_or") then
    Some (match receiver with
          | VEnum _ O payload => VEnum 0 0 payload
          | _ => VEnum 0 1 [arg_or_unit args]
          end)
  else if bool_decide (name = "ro") || bool_decide (name = "rw") || bool_decide (name = "path")
          || bool_decide (name = "host") then Some receiver
  else None.

(** [take] and [skip] of a machine-word count. *)
Definition skip_chars (n : Z) (s : rstr) : rstr :=
  if n <? Z.of_nat (length s) then drop (Z.to_nat n) s else [].
Definition take_chars (n : Z) (s : rstr) : rstr :=
  if n <? Z.of_nat (length s) then take (Z.to_nat n) s else s.

Definition on_str (receiver : Value) (f : rstr → rstr) : Value :=
  match receiver with VStr s => VStr (f s) | _ => receiver end.

(** Methods of [Str]. *)
Definition str_method (receiver : Value) (name : string) (args : list Value) : option Value :=
  if bool_decide (name = "contains") then
    Some (match receiver, arg_str args 0 with
          | VStr s, Some needle => VBool (contains needle s)
          | VArray xs, Some needle => VBool (existsb (λ v, str_eqb (as_str v) needle) xs)
          | _, _ => VBool false
          end)
  else if bool_decide (name = "starts_with") then
    Some (match receiver, arg_str args 0 with
          | VStr s, Some p => VBool (starts_with p s)
          | _, _ => VBool false
          end)
  else if bool_decide (name = "ends_with") then
    Some (match receiver, arg_str args 0 with
          | VStr s, Some p => VBool (ends_with p s)
          | _, _ => VBool false
          end)
  else if bool_decide (name = "find") then
    Some (match receiver, arg_str args 0 with
          | VStr s, Some needle => option_value usize_value (find needle s)
          | _, _ => none_value
          end)
  else if bool_decide (name = "char_at") then
    Some (match receiver, arg_usize args 0 with
          | VStr s, Some i => option_value VChar (get s i)
          | _, _ => none_value
          end)
  else if bool_decide (name = "slice") then
    Some (match receiver, arg_usize args 0, arg_usize args 1 with
          | VStr s, Some start, Some end_ =>
              if end_ <? start then none_value
              else some_value (VStr (take_chars (end_ - start) (skip_chars start s)))
          | _, _, _ => none_value
          end)
  else if bool_decide (name = "to_lower") || bool_decide (name = "to_lowercase") then
    Some (match receiver with
          | VStr s => VStr (to_lowercase s)
          | VChar c => VStr (char_to_lowercase c)
          | _ => receiver
          end)
  else if bool_decide (name = "to_upper") || bool_decide (name = "to_uppercase") then
    Some (match receiver with
          | VStr s => VStr (to_uppercase s)
          | VChar c => VStr (char_to_uppercase c)
          | _ => receiver
          end)
  else if bool_decide (name = "trim") then Some (on_str receiver trim)
  else if bool_decide (name = "trim_start") then Some (on_str receiver trim_start)
  else if bool_decide (name = "trim_end") then Some (on_str receiver trim_end)
  else if bool_decide (name = "split") then
    Some (match receiver, arg_str args 0 with
          | VStr s, Some [] => VArray [VStr s]
          | VStr s, Some sep => VArray (VStr <$> split sep s)
          | _, _ => VArray []
          end)
  else if bool_decide (name = "chars") then
    Some (match receiver with VStr s => VArray (VChar <$> s) | _ => VArray [] end)
  else if bool_decide (name = "bytes") then
    Some (match receiver with VStr s => bytes_value s | _ => VArray [] end)
  else if bool_decide (name = "replace") then
    Some (match receiver, arg_str args 0, arg_str args 1 with
          | VStr s, Some (c :: from), Some to => VStr (replace (c :: from) to s)
          | _, _, _ => receiver
          end)
  else if bool_decide (name = "repeat") then
    Some (match receiver, arg_usize args 0 with
          | VStr s, Some n => VStr (mjoin (replicate (Z.to_nat n) s))
          | _, _ => receiver
          end)
  else None.

(** [next_char_boundary]: the boundary after the byte [idx]. *)
Definition next_boundary (s : rstr) (idx : Z) : option Z :=
  if str_len s <=? idx then None
  else (List.find (λ i, idx <? i) ((fst <$> char_indices 0 s) ++ [str_len s])).

(** [prev_char_boundary]: the last boundary before [idx]; beyond the end of
    the string that is the end. *)
Definition prev_boundary (s : rstr) (idx : Z) : option Z :=
  if idx =? 0 then None
  else List.find (λ i, i <? idx) (reverse ((fst <$> char_indices 0 s) ++ [str_len s])).

(** A byte range of a string: what is before it and what is after. *)
Definition cut_range (s : rstr) (start end_ : Z) : option (rstr * rstr) :=
  if end_ <? start then None
  else
    '(before, _) ← split_at_byte s start;
    '(_, after) ← split_at_byte s end_;
    Some (before, after).

(** Positions, ranges and boundaries of [String]. *)
Definition boundary_method (receiver : Value) (name : string) (args : list Value) : option Value :=
  if bool_decide (name = "rfind") then
    Some (match receiver, arg_str args 0 with
          | VStr s, Some needle => option_value usize_value (rfind needle s)
          | _, _ => none_value
          end)
  else if bool_decide (name = "position") then
    Some (match receiver, head args with
          | VStr s, Some (VChar c) => option_value usize_value (find [c] s)
          | VStr s, Some (VStr [c]) => option_value usize_value (find [c] s)
          | _, _ => none_value
          end)
  else if bool_decide (name = "byte_len") then
    Some (match receiver with VStr s => usize_value (str_len s) | _ => usize_value 0 end)
  else if bool_decide (name = "as_bytes") then
    Some (match receiver with VStr s => bytes_value s | _ => VArray [] end)
  else if bool_decide (name = "char_indices") then
    Some (match receiver with
          | VStr s => VArray ((λ ic, VTuple [usize_value ic.1; VChar ic.2]) <$> char_indices 0 s)
          | _ => VArray []
          end)
  else if bool_decide (name = "is_char_boundary") then
    Some (match receiver, arg_usize args 0 with
          | VStr s, Some idx => VBool (is_char_boundary s idx)
          | _, _ => VBool false
          end)
  else if bool_decide (name = "next_char_boundary") then
    Some (match receiver, arg_usize args 0 with
          | VStr s, Some idx => option_value usize_value (next_boundary s idx)
          | _, _ => none_value
          end)
  else if bool_decide (name = "prev_char_boundary") then
    Some (match receiver, arg_usize args 0 with
          | VStr s, Some idx => option_value usize_value (prev_boundary s idx)
          | _, _ => none_value
          end)
  else if bool_decide (name = "insert_at") then
    Some (match receiver, arg_usize args 0, arg_str args 1 with
          | VStr s, Some idx, Some t =>
              option_value (λ ab : rstr * rstr, VStr (ab.1 ++ t ++ ab.2)) (split_at_byte s idx)
          | _, _, _ => none_value
          end)
  else if bool_decide (name = "remove_range") then
    Some (match receiver, arg_usize args 0, arg_usize args 1 with
          | VStr s, Some start, Some end_ =>
              option_value (λ ab : rstr * rstr, VStr (ab.1 ++ ab.2)) (cut_range s start end_)
          | _, _, _ => none_value
          end)
  else if bool_decide (name = "replace_range") then
    Some (match receiver, arg_usize args 0, arg_usize args 1, arg_str args 2 with
          | VStr s, Some start, Some end_, Some t =>
              option_value (λ ab : rstr * rstr, VStr (ab.1 ++ t ++ ab.2)) (cut_range s start end_)
          | _, _, _, _ => none_value
          end)
  else None.

(** [String::from_utf8] of a string or of an array of integers. *)
Definition from_utf8 (v : option Value) : option rstr :=
  match v with
  | Some (VStr s) => Some s
  | Some (VArray xs) =>
      utf8_decode (omap (λ v, match v with VInt n _ => Some (n mod 256) | _ => None end) xs)
  | _ => None
  end.

(** The methods of vectors, and the mutating ones when their receiver is not
    a place. *)
Definition vec_method (receiver : Value) (name : string) (args : list Value) : option Value :=
  if bool_decide (name = "push") then
    Some (match receiver, head args with
          | VStr s, Some (VChar c) => VStr (s ++ [c])
          | VArray xs, Some v => VArray (xs ++ [v])
          | _, _ => receiver
          end)
  else if bool_decide (name = "push_str") then
    Some (match receiver, arg_str args 0 with
          | VStr s, Some t => VStr (s ++ t)
          | _, _ => receiver
          end)
  else if bool_decide (name = "clear") then
    Some (match receiver with VStr _ => VStr [] | VArray _ => VArray [] | _ => receiver end)
  else if bool_decide (name = "pop") then
    Some (match receiver with
          | VStr s => option_value VChar (list.last s)
          | VArray xs => option_value id (list.last xs)
          | _ => none_value
          end)
  else if bool_decide (name = "get") then
    Some (match receiver, arg_usize args 0 with
          | VArray xs, Some i => option_value id (get xs i)
          | _, _ => none_value
          end)
  else if bool_decide (name = "set") then
    Some (match receiver, arg_usize args 0, args !! 1%nat with
          | VArray xs, Some i, Some v =>
              if i <? Z.of_nat (length xs) then VArray (<[Z.to_nat i := v]> xs) else receiver
          | _, _, _ => receiver
          end)
  else if bool_decide (name = "first") then
    Some (match receiver with VArray xs => option_value id (head xs) | _ => none_value end)
  else if bool_decide (name = "last") then
    Some (match receiver with VArray xs => option_value id (list.last xs) | _ => none_value end)
  else if bool_decide (name = "iter") then Some receiver
  else if bool_decide (name = "with_capacity") then
    Some (match receiver with VArray _ => VArray [] | _ => VStr [] end)
  else if bool_decide (name = "from_str") then Some (VStr (default [] (arg_str args 0)))
  else if bool_decide (name = "from_utf8") then Some (option_value VStr (from_utf8 (head args)))
  else if bool_decide (name = "get_mut") then
    Some (match receiver, arg_usize args 0 with
          | VArray xs, Some i => option_value id (get xs i)
          | VStr s, Some i => option_value VChar (get s i)
          | _, _ => none_value
          end)
  else if bool_decide (name = "as_slice") || bool_decide (name = "as_mut_slice") then Some receiver
  else if bool_decide (name = "capacity") then
    Some (match receiver with
          | VStr s => usize_value (str_capacity s)
          | VArray xs => usize_value (vec_capacity xs)
          | _ => usize_value 0
          end)
  else if bool_decide (name = "query") then Some none_value
  else None.

(** [None] is a panic. *)
Definition eval_method (receiver : Value) (name : string) (args : list Value) : option Value :=
  if bool_decide (name = "__mty_iter_next") then iter_next receiver args
  else
    Some (default VUnit
            (union (format_method receiver name args)
               (union (result_method receiver name args)
                  (union (str_method receiver name args)
                     (union (boundary_method receiver name args)
                        (vec_method receiver name args)))))).
End methods.
