(* ===== verification/IrSwarm.v ===== *)
(** * Consensus of a swarm, and the constructors of the interpreter

    [swarm_dispatch] and [try_stdlib_ctor] of
    [crates/mty-ir/src/interp/run.rs].  A panel is asked member by member
    while the budget lasts, the replies are clustered, and a strategy picks
    the consensus.  [None] is the panic of a sum that overflows. *)

From stdpp Require Import base list strings numbers sets.
From Stdlib Require Import Ascii SpecFloat.
From S2P Require Import Prelude TyArena IrSyntax IrValue IrMethods.

Local Open Scope Z_scope.

Definition MEMBER_TAG : Z := 0xFFFFFFF0.
Definition BUDGET_TAG : Z := 0xFFFFFFF1.
Definition STRATEGY_TAG : Z := 0xFFFFFFF2.
Definition CONSENSUS_TAG : Z := 0xFFFFFFF3.
Definition REPLY_TAG : Z := 0xFFFFFFF4.

Definition STRAT_MAJORITY : nat := 0.
Definition STRAT_UNANIMOUS : nat := 1.
Definition STRAT_WEIGHTED : nat := 2.
Definition STRAT_FIRST_AGREED : nat := 3.

(** [n as u32] of a number that is not negative. *)
Definition as_u32 (n : Z) : Z := n mod 2 ^ 32.
(** [n.max(0) as u64]. *)
Definition clamp_u64 (n : Z) : Z := as_usize (Z.max 0 n).

(** ** The tagged values *)

Definition member_value (provider name : rstr) (reply : option rstr) (forced_cost_cents : option Z)
  (forced_error : bool) : Value :=
  VStruct MEMBER_TAG [VStr provider; VStr name; VStr (default [] reply);
                      VInt (default u64_max forced_cost_cents) U64; VBool forced_error].

Definition budget_value (limit_cents : Z) : Value :=
  VStruct BUDGET_TAG [VInt limit_cents U64; VInt 0 U64].

Definition strategy_value (variant : nat) : Value := VEnum STRATEGY_TAG variant [].

Definition weighted_strategy_value (weights : list Z) : Value :=
  VEnum STRATEGY_TAG STRAT_WEIGHTED [VArray ((λ w, VInt w U32) <$> weights)].

Definition reply_value (member body : rstr) (tokens cost : Z) : Value :=
  VStruct REPLY_TAG [VStr member; VStr body; VInt tokens U32; VInt cost U64; VArray []].

Definition reply_cost (r : Value) : Z :=
  match r with
  | VStruct _ fields => default 0 (clamp_u64 <$> (fields !! 3%nat ≫= as_int))
  | _ => 0
  end.

(** A sum of machine words below [bound]. *)
Definition checked_sum (bound : Z) (l : list Z) : option Z :=
  foldl (λ acc x, a ← acc; if a + x <? bound then Some (a + x) else None) (Some 0) l.

Definition consensus_value (majority : option rstr) (dissents all_replies : list Value)
  (budget_exhausted : bool) (strategy_name : rstr) : option Value :=
  total_cost ← checked_sum (2 ^ 64) (reply_cost <$> all_replies);
  Some (VStruct CONSENSUS_TAG
          [option_value VStr majority; VArray dissents; VArray all_replies; VBool budget_exhausted;
           VStr strategy_name; VInt total_cost U64]).

(** ** Reading them back *)

Definition member_field (v : Value) (idx : nat) : option Value :=
  match v with
  | VStruct adt fields => if adt =? MEMBER_TAG then fields !! idx else None
  | _ => None
  end.

Definition str_of (v : option Value) : option rstr :=
  match v with Some (VStr s) => Some s | _ => None end.

Definition member_provider (v : Value) : option rstr := str_of (member_field v 0).

Definition budget_limit_cents (v : Value) : option Z :=
  match v with
  | VStruct adt fields => if adt =? BUDGET_TAG then clamp_u64 <$> (head fields ≫= as_int) else None
  | _ => None
  end.

Definition u32_weights (v : option Value) : list Z :=
  match v with
  | Some (VArray xs) => (λ n, as_u32 (Z.max 0 n)) <$> omap as_int xs
  | _ => []
  end.

Definition strategy_kind (v : Value) : nat * list Z :=
  match v with
  | VEnum adt variant payload =>
      if adt =? STRATEGY_TAG then (variant, u32_weights (head payload)) else (STRAT_MAJORITY, [])
  | _ => (STRAT_MAJORITY, [])
  end.

Definition strategy_name (variant : nat) : rstr :=
  match variant with
  | 0%nat => lit "majority" | 1%nat => lit "unanimous" | 2%nat => lit "weighted"
  | 3%nat => lit "first_agreed" | _ => lit "majority"
  end.

(** ** Asking a member *)

Definition is_provider (p : rstr) : bool :=
  str_eqb p (lit "anthropic") || str_eqb p (lit "openai") || str_eqb p (lit "gemini")
  || str_eqb p (lit "bedrock").

Section swarm.
Context `{RustStd}.

Definition synthesise_reply (prompt : rstr) : rstr :=
  let lower := to_lowercase prompt in
  if contains (lit "eval(") lower || contains (lit "unsafe ") lower || contains (lit "system(") lower
     || contains (lit "rm -rf") lower then lit "UNSAFE"
  else if contains (lit "?") lower || contains (lit "uncertain") lower then lit "UNCLEAR"
  else lit "SAFE".

(** The label, the body, the cost in cents, and whether the member failed. *)
Definition dispatch_member (prompt : rstr) (m : Value) : rstr * rstr * Z * bool :=
  let provider := default (lit "unknown") (member_provider m) in
  let name := default [] (str_of (member_field m 1)) in
  let canned_reply := default [] (str_of (member_field m 2)) in
  let forced_cost := default 0 (member_field m 3 ≫= as_int) in
  let errored := match member_field m 4 with Some (VBool true) => true | _ => false end in
  let label := if is_provider provider then provider ++ lit ":" ++ name else name in
  if errored then (label, [], 0, true)
  else
    let body := match canned_reply with
                | _ :: _ => canned_reply
                | [] => if is_provider provider then synthesise_reply prompt else []
                end in
    let cost := if negb (as_usize forced_cost =? u64_max) then clamp_u64 forced_cost
                else Z.max 1 (as_usize (str_len prompt) / 100) in
    (label, body, cost, false).

(** ** Clustering *)

Fixpoint tokens_go (acc : rstr) (s : rstr) : list rstr :=
  match s with
  | [] => [reverse acc]
  | c :: s => if is_alphanumeric c then tokens_go (c :: acc) s else reverse acc :: tokens_go [] s
  end.
Definition is_nil {A} (l : list A) : bool := match l with [] => true | _ => false end.
Definition tokenise (s : rstr) : list rstr :=
  to_lowercase <$> List.filter (λ t, negb (is_nil t)) (tokens_go [] s).

Definition jaccard (a b : list rstr) : f64 :=
  let sa := remove_dups a in
  let sb := remove_dups b in
  let inter := Z.of_nat (length (list_intersection sa sb)) in
  let union := Z.of_nat (length (list_union sa sb)) in
  if union =? 0 then S754_zero false else fdiv (f64_of_Z inter) (f64_of_Z union).

(** The literal [0.6]. *)
Definition threshold : f64 := S754_finite false 5404319552844595 (-53).

Definition same_body (exact : bool) (b rep : rstr) : bool :=
  if exact then str_eqb (to_lowercase (trim rep)) (to_lowercase (trim b))
  else f64_leb threshold (jaccard (tokenise b) (tokenise rep)).

(** [i] joins the first cluster whose first member it agrees with. *)
Fixpoint place (same : nat → bool) (i : nat) (clusters : list (list nat)) : list (list nat) :=
  match clusters with
  | [] => [[i]]
  | c :: cs =>
      if same (default 0%nat (head c)) then (c ++ [i]) :: cs else c :: place same i cs
  end.

Definition cluster_bodies (bodies : list rstr) : list (list nat) :=
  let exact := forallb (λ b, str_len b <=? 24) bodies in
  let body := λ i : nat, default [] (bodies !! i) in
  foldl (λ clusters i, place (λ rep, same_body exact (body i) (body rep)) i clusters) []
    (seq 0 (length bodies)).

(** ** Strategies *)

(** [max_by_key]: the last of the greatest, keys in lexicographic order. *)
Definition key_le (a b : list Z) : bool := negb (str_ltb b a).
Fixpoint max_by_key {A} (key : A → list Z) (l : list A) : option A :=
  match l with
  | [] => None
  | x :: l =>
      match max_by_key key l with
      | None => Some x
      | Some y => if key_le (key x) (key y) then Some y else Some x
      end
  end.

Definition min_index (c : list nat) : Z := Z.of_nat (foldr Nat.min (default 0%nat (head c)) c).
Definition outside (n : nat) (c : list nat) : list nat :=
  List.filter (λ i, negb (bool_decide (i ∈ c))) (seq 0 n).
Definition first_body (bodies : list rstr) (c : list nat) : rstr :=
  default [] (bodies !! default 0%nat (head c)).

Definition resolve_majority (bodies : list rstr) (clusters : list (list nat)) (n : nat) :
  option rstr * list nat :=
  match max_by_key (λ c, [Z.of_nat (length c); - min_index c]) clusters with
  | Some c => (Some (first_body bodies c), outside n c)
  | None => (None, seq 0 n)
  end.

Definition cluster_weight (weights : list Z) (c : list nat) : option Z :=
  checked_sum (2 ^ 32) ((λ i : nat, default 1 (weights !! i)) <$> c).

Definition resolve_weighted (bodies : list rstr) (clusters : list (list nat)) (weights : list Z)
  (n : nat) : option (option rstr * list nat) :=
  match clusters with
  | [] => Some (None, seq 0 n)
  | _ =>
      cluster_weights ← mapM (cluster_weight weights) clusters;
      match max_by_key (λ cw : list nat * Z, [cw.2; Z.of_nat (length cw.1); - min_index cw.1])
              (zip clusters cluster_weights) with
      | Some (c, _) => Some (Some (first_body bodies c), outside n c)
      | None => None
      end
  end.

Definition resolve_unanimous (bodies : list rstr) (clusters : list (list nat)) (n : nat) :
  option rstr * list nat :=
  match clusters with
  | [c] => (Some (first_body bodies c), [])
  | _ => (None, seq 0 n)
  end.

Definition resolve_first_agreed (bodies : list rstr) (clusters : list (list nat)) (n : nat) :
  option rstr * list nat :=
  match List.find (λ c : list nat, 2 <=? Z.of_nat (length c)) clusters with
  | Some c => (Some (first_body bodies c), outside n c)
  | None => (None, seq 0 n)
  end.

Definition resolve (strategy : nat) (weights : list Z) (bodies : list rstr) (n : nat) :
  option (option rstr * list nat) :=
  let clusters := cluster_bodies bodies in
  if (strategy =? STRAT_UNANIMOUS)%nat then Some (resolve_unanimous bodies clusters n)
  else if (strategy =? STRAT_WEIGHTED)%nat then resolve_weighted bodies clusters weights n
  else if (strategy =? STRAT_FIRST_AGREED)%nat then Some (resolve_first_agreed bodies clusters n)
  else Some (resolve_majority bodies clusters n).

(** ** Dispatch *)

Definition Reply : Type := rstr * rstr * Z.

(** Members in order while the budget lasts: the replies, what was consumed,
    and whether the budget ran out before the panel did. *)
Fixpoint ask_panel (prompt : rstr) (first_agreed : bool) (budget_limit : Z) (panel : list Value)
  (replies : list Reply) (consumed : Z) : list Reply * Z * bool :=
  match panel with
  | [] => (replies, consumed, false)
  | m :: panel =>
      if budget_limit <=? consumed then (replies, consumed, true)
      else
        let '(label, body, cost, errored) := dispatch_member prompt m in
        if errored then ask_panel prompt first_agreed budget_limit panel replies consumed
        else
          let consumed := saturating_add consumed cost in
          let replies := replies ++ [(label, body, cost)] in
          if first_agreed
             && existsb (λ c : list nat, 2 <=? Z.of_nat (length c))
                  (cluster_bodies ((λ r : Reply, r.1.2) <$> replies))
          then (replies, consumed, false)
          else ask_panel prompt first_agreed budget_limit panel replies consumed
  end.

Definition run_swarm (args : list Value) : option Value :=
  let prompt := match head args with Some v => as_str v | None => [] end in
  let panel := match args !! 1%nat with Some (VArray xs) => xs | _ => [] end in
  let budget_limit := default u64_max (args !! 2%nat ≫= budget_limit_cents) in
  let '(strategy, weights) := match args !! 3%nat with
                              | Some v => strategy_kind v
                              | None => (STRAT_MAJORITY, [])
                              end in
  let strat_name := strategy_name strategy in
  match panel with
  | [] => consensus_value None [] [] false strat_name
  | _ =>
      let '(replies, consumed, stopped) :=
        ask_panel prompt (strategy =? STRAT_FIRST_AGREED)%nat budget_limit panel [] 0 in
      let budget_exhausted := stopped || (budget_limit <? consumed) in
      match replies with
      | [] => consensus_value None [] [] budget_exhausted strat_name
      | _ =>
          let bodies := (λ r : Reply, r.1.2) <$> replies in
          let reply_structs := (λ r : Reply, reply_value r.1.1 r.1.2 0 r.2) <$> replies in
          '(majority, dissent_idxs) ← resolve strategy weights bodies (length replies);
          consensus_value majority (omap (λ i : nat, reply_structs !! i) dissent_idxs) reply_structs
            budget_exhausted strat_name
      end
  end.

(** ** Constructors without a receiver *)

(** [(dollars * 100.0).round().max(0.0) as u64]: ties away from zero, NaN
    and negative numbers to zero, saturating. *)
Definition cents_of_dollars (dollars : f64) : Z :=
  match fmul dollars (f64_of_Z 100) with
  | S754_finite false m e =>
      Z.min u64_max (if 0 <=? e then Zpos m * 2 ^ e else Z.shiftr (Zpos m + 2 ^ (- e - 1)) (- e))
  | S754_infinity false => u64_max
  | _ => 0
  end.

Definition ok_value (v : Value) : Value := VEnum 0 0 [v].
Definition err_value : Value := VEnum 0 1 [VUnit].

Definition str_arg (args : list Value) (i : nat) : option rstr := str_of (args !! i).

Definition text_ctor (name : string) (args : list Value) : option Value :=
  if bool_decide (name = "String.new") then Some (VStr [])
  else if bool_decide (name = "String.with_capacity") then Some (VStr [])
  else if bool_decide (name = "String.from_str") then Some (VStr (default [] (str_arg args 0)))
  else if bool_decide (name = "String.from_utf8") then
    Some (match from_utf8 (head args) with Some s => ok_value (VStr s) | None => err_value end)
  else if bool_decide (name = "Vec.new") then Some (VArray [])
  else if bool_decide (name = "Vec.with_capacity") then Some (VArray [])
  else if bool_decide (name = "Char.from_u32") then
    Some (match head args with
          | Some (VInt n _) => if is_scalar n then some_value (VChar n) else none_value
          | _ => none_value
          end)
  else None.

Definition named_member (provider : string) (args : list Value) : Value :=
  member_value (lit provider) (default [] (str_arg args 0)) None None false.

Definition swarm_ctor (name : string) (args : list Value) : option Value :=
  if bool_decide (name = "Member.anthropic") then Some (named_member "anthropic" args)
  else if bool_decide (name = "Member.openai") then Some (named_member "openai" args)
  else if bool_decide (name = "Member.gemini") then Some (named_member "gemini" args)
  else if bool_decide (name = "Member.bedrock") then Some (named_member "bedrock" args)
  else if bool_decide (name = "Member.mock") then
    Some (member_value (lit "mock") (default [] (str_arg args 0)) (Some (default [] (str_arg args 1)))
            (clamp_u64 <$> (args !! 2%nat ≫= as_int)) false)
  else if bool_decide (name = "Member.mock_error") then
    Some (member_value (lit "mock_error") (default [] (str_arg args 0))
            (Some (default [] (str_arg args 1))) (Some 0) true)
  else if bool_decide (name = "DollarBudget.new") || bool_decide (name = "SharedDollarBudget.new") then
    Some (budget_value (default 0 (clamp_u64 <$> (head args ≫= as_int))))
  else if bool_decide (name = "DollarBudget.from_dollars")
          || bool_decide (name = "SharedDollarBudget.from_dollars") then
    Some (budget_value (cents_of_dollars (match head args with
                                          | Some (VFloat f _) => f
                                          | Some (VInt n _) => f64_of_Z n
                                          | _ => S754_zero false
                                          end)))
  else if bool_decide (name = "DollarBudget.unbounded")
          || bool_decide (name = "SharedDollarBudget.unbounded") then Some (budget_value u64_max)
  else if bool_decide (name = "ConsensusStrategy.Majority") then Some (strategy_value STRAT_MAJORITY)
  else if bool_decide (name = "ConsensusStrategy.Unanimous") then Some (strategy_value STRAT_UNANIMOUS)
  else if bool_decide (name = "ConsensusStrategy.FirstAgreed") then Some (strategy_value STRAT_FIRST_AGREED)
  else if bool_decide (name = "ConsensusStrategy.WeightedVote")
          || bool_decide (name = "ConsensusStrategy.weighted_vote") then
    Some (weighted_strategy_value (u32_weights (head args)))
  else None.

Definition try_stdlib_ctor (name : string) (args : list Value) : option Value :=
  union (text_ctor name args) (swarm_ctor name args).
End swarm.
