(* ===== verification/IrInterp.v ===== *)
(** * The IR interpreter

    [crates/mty-ir/src/interp/run.rs], with the hosts of [interp/host.rs].
    The interpreter is a state, an [Interp] with its host, and its functions
    are the definitions below.  A Rust panic is [Panicked].  The Rust code
    recurses without a bound (a call runs the callee in a nested loop, a
    reference may lead through others), so the recursion has fuel and
    [Diverged] says that the fuel ran out: a computation returns when some
    fuel gives another result.  The stack's first element is its top. *)

From stdpp Require Import base list strings numbers.
From Stdlib Require Import SpecFloat.
From S2P Require Import Prelude TyArena IrSyntax IrValue IrMethods IrSwarm.

Local Open Scope Z_scope.

Definition DEFAULT_STEP_BUDGET : Z := 1000000.

(** ** Hosts *)

Class Host := {
  HostState : Type;
  host_print : rstr → HostState → HostState;
  host_println : rstr → HostState → HostState;
  host_eprint : rstr → HostState → HostState;
  effect_call : EffectId → EffectOp → list Value → HostState → Value * HostState;
  extern_call : string → list Value → HostState → Value * HostState;
}.

Record EffectCallRecord := mkEffectCall { ec_effect : EffectId; ec_op_desc : rstr; ec_arg_count : nat }.
Record ExternCallRecord := mkExternCall { xc_name : string; xc_arg_count : nat }.
Record BufferState := mkBuffer {
  buf_stdout : list Z; effect_log : list EffectCallRecord; extern_log : list ExternCallRecord }.

Definition op_debug `{RustStd} (op : EffectOp) : rstr :=
  match op with
  | GenericCall path method =>
      lit "GenericCall { path: [" ++ join (lit ", ") (name_debug <$> path) ++ lit "], method: "
        ++ name_debug method ++ lit " }"
  end.

Definition buffer_print (s : rstr) (b : BufferState) : BufferState :=
  mkBuffer (buf_stdout b ++ utf8 s) (effect_log b) (extern_log b).

Definition buffer_effect_call `{RustStd} (e : EffectId) (op : EffectOp) (args : list Value)
  (b : BufferState) : Value * BufferState :=
  (VUnit, mkBuffer (buf_stdout b) (effect_log b ++ [mkEffectCall e (op_debug op) (length args)])
            (extern_log b)).

Definition buffer_extern_call (name : string) (args : list Value) (b : BufferState) :
  Value * BufferState :=
  let v := if bool_decide (name = "ready") then VBool false
           else if bool_decide (name = "fetch") then VStr []
           else VUnit in
  (v, mkBuffer (buf_stdout b) (effect_log b) (extern_log b ++ [mkExternCall name (length args)])).

#[export] Instance BufferHost `{RustStd} : Host := {|
  HostState := BufferState;
  host_print := buffer_print;
  host_println s b := buffer_print [10] (buffer_print s b);
  host_eprint := buffer_print;
  effect_call := buffer_effect_call;
  extern_call := buffer_extern_call |}.

(** ** State and monad *)

Inductive RunResult :=
  | ROk (exit : Z)
  | RTrap (code : string) (message : rstr)
  | RNoMain
  | RBudgetExceeded
  | RMemBudgetExceeded (used limit : Z).

Definition exit_code (r : RunResult) : Z :=
  match r with
  | ROk exit => exit
  | RTrap _ _ => 1
  | RNoMain => 2
  | RBudgetExceeded => 3
  | RMemBudgetExceeded _ _ => 4
  end.

Record Interp : Set := mkInterp {
  stack : list Frame; agent_states : list Value; next_scope : nat; next_agent : nat;
  last_return : Value; budget : Z; mem_used : Z; mem_budget : Z;
  last_frame_locals : option (list Value) }.

Definition Interp_new (b : Z) : Interp := mkInterp [] [] 0 0 VUnit b 0 0 None.

(** Field updates. *)
Definition set_stack (s : list Frame) (i : Interp) : Interp :=
  mkInterp s (agent_states i) (next_scope i) (next_agent i) (last_return i) (budget i) (mem_used i)
    (mem_budget i) (last_frame_locals i).
Definition set_agent_states (a : list Value) (i : Interp) : Interp :=
  mkInterp (stack i) a (next_scope i) (next_agent i) (last_return i) (budget i) (mem_used i)
    (mem_budget i) (last_frame_locals i).
Definition bump_scope (i : Interp) : Interp :=
  mkInterp (stack i) (agent_states i) (S (next_scope i)) (next_agent i) (last_return i) (budget i)
    (mem_used i) (mem_budget i) (last_frame_locals i).
Definition bump_agent (i : Interp) : Interp :=
  mkInterp (stack i) (agent_states i) (next_scope i) (S (next_agent i)) (last_return i) (budget i)
    (mem_used i) (mem_budget i) (last_frame_locals i).
Definition set_last_return (v : Value) (i : Interp) : Interp :=
  mkInterp (stack i) (agent_states i) (next_scope i) (next_agent i) v (budget i) (mem_used i)
    (mem_budget i) (last_frame_locals i).
Definition set_budget (b : Z) (i : Interp) : Interp :=
  mkInterp (stack i) (agent_states i) (next_scope i) (next_agent i) (last_return i) b (mem_used i)
    (mem_budget i) (last_frame_locals i).
Definition set_mem_used (m : Z) (i : Interp) : Interp :=
  mkInterp (stack i) (agent_states i) (next_scope i) (next_agent i) (last_return i) (budget i) m
    (mem_budget i) (last_frame_locals i).
Definition set_mem_budget (m : Z) (i : Interp) : Interp :=
  mkInterp (stack i) (agent_states i) (next_scope i) (next_agent i) (last_return i) (budget i)
    (mem_used i) m (last_frame_locals i).
Definition set_last_frame_locals (l : option (list Value)) (i : Interp) : Interp :=
  mkInterp (stack i) (agent_states i) (next_scope i) (next_agent i) (last_return i) (budget i)
    (mem_used i) (mem_budget i) l.

Inductive Res (A : Type) := Ret (a : A) | Panicked | Diverged.
Arguments Ret {A} a.
Arguments Panicked {A}.
Arguments Diverged {A}.

#[export] Instance Res_ret : MRet Res := λ A a, Ret a.
#[export] Instance Res_bind : MBind Res := λ A B f r,
  match r with Ret a => f a | Panicked => Panicked | Diverged => Diverged end.

Definition of_option {A} (o : option A) : Res A := match o with Some a => Ret a | None => Panicked end.

Fixpoint res_map {A B} (f : A → Res B) (l : list A) : Res (list B) :=
  match l with
  | [] => Ret []
  | x :: l => y ← f x; ys ← res_map f l; Ret (y :: ys)
  end.

Section interp.
Context `{RustStd} `{Host} (prog : Program).

Record Machine := mkMachine { m_interp : Interp; m_host : HostState }.

Definition M (A : Type) : Type := Machine → Res (A * Machine).
#[export] Instance M_ret : MRet M := λ A a m, Ret (a, m).
#[export] Instance M_bind : MBind M := λ A B f x m,
  match x m with
  | Ret (a, m') => f a m'
  | Panicked => Panicked
  | Diverged => Diverged
  end.

Definition panic {A} : M A := λ _, Panicked.
Definition reads {A} (f : Interp → Res A) : M A := λ m,
  match f (m_interp m) with
  | Ret a => Ret (a, m)
  | Panicked => Panicked
  | Diverged => Diverged
  end.
Definition lift {A} (r : Res A) : M A := reads (λ _, r).
Definition upd (f : Interp → Interp) : M () := λ m, Ret ((), mkMachine (f (m_interp m)) (m_host m)).
Definition on_host {A} (f : HostState → A * HostState) : M A := λ m,
  let '(a, h) := f (m_host m) in Ret (a, mkMachine (m_interp m) h).
Definition tell (f : HostState → HostState) : M () := on_host (λ h, ((), f h)).

(** [self.stack.last().unwrap()]. *)
Definition top (i : Interp) : Res Frame := of_option (head (stack i)).
Definition upd_top (f : Frame → Frame) : M () := λ m,
  match stack (m_interp m) with
  | [] => Panicked
  | t :: s => Ret ((), mkMachine (set_stack (f t :: s) (m_interp m)) (m_host m))
  end.

Definition set_locals (l : list Value) (f : Frame) : Frame :=
  mkFrame (f_fn_id f) l (f_scope f) (f_block f) (f_pc f) (f_arenas f).
Definition set_pc (pc : nat) (f : Frame) : Frame :=
  mkFrame (f_fn_id f) (f_locals f) (f_scope f) (f_block f) pc (f_arenas f).
Definition jump (b : BlockId) (f : Frame) : Frame :=
  mkFrame (f_fn_id f) (f_locals f) (f_scope f) b 0 (f_arenas f).
Definition set_arenas (a : list ArenaId) (f : Frame) : Frame :=
  mkFrame (f_fn_id f) (f_locals f) (f_scope f) (f_block f) (f_pc f) a.

(** ** Places *)

Section read.
Context (deref : Value → Res Value).

Definition read_one (p : Projection) (v : Value) : Res Value :=
  match p with
  | PField i => Ret (read_field v i)
  | PTupleIndex i => Ret (read_tuple v i)
  | PDeref => deref v
  | PIndex _ => Ret v
  | PVariantField _ fi => Ret (read_variant_field v fi)
  end.

Fixpoint read_projs (ps : list Projection) (v : Value) : Res Value :=
  match ps with
  | [] => Ret v
  | p :: ps => w ← read_one p v; read_projs ps w
  end.
End read.

Fixpoint deref_value (n : nat) (locals : list Value) (v : Value) : Res Value :=
  match v with
  | VRef r =>
      match n with
      | O => Diverged
      | S n => read_projs (deref_value n locals) (ref_proj r) (default VUnit (locals !! ref_owner r))
      end
  | other => Ret other
  end.

Definition read_locals (n : nat) (locals : list Value) (p : Place) : Res Value :=
  read_projs (deref_value n locals) (p_proj p) (default VUnit (locals !! p_local p)).

Definition read_place (n : nat) (i : Interp) (p : Place) : Res Value :=
  f ← top i; read_locals n (f_locals f) p.

Definition eval_operand (n : nat) (i : Interp) (o : Operand) : Res Value :=
  match o with
  | OCopy p | OMove p => read_place n i p
  | OConst c => of_option (const_to_value c)
  end.

Definition assign_locals (locals : list Value) (p : Place) (v : Value) : list Value :=
  let idx := p_local p in
  match locals !! idx with
  | None => locals
  | Some cur =>
      let plain := <[idx := write_proj cur (p_proj p) v]> locals in
      match p_proj p with
      | [] => <[idx := v]> locals
      | PDeref :: rest =>
          match cur with
          | VRef r =>
              match locals !! ref_owner r with
              | None => locals
              | Some target =>
                  <[ref_owner r := write_proj target (ref_proj r ++ rest) v]> locals
              end
          | _ => plain
          end
      | _ => plain
      end
  end.

Definition assign_place (p : Place) (v : Value) : M () :=
  upd_top (λ f, set_locals (assign_locals (f_locals f) p v) f).

Definition operand (n : nat) (o : Operand) : M Value := reads (λ i, eval_operand n i o).
Definition operands (n : nat) (os : list Operand) : M (list Value) :=
  reads (λ i, res_map (eval_operand n i) os).

Definition operand_place (o : Operand) : option Place :=
  match o with OCopy p | OMove p => Some p | OConst _ => None end.

(** ** Memory, scopes, frames *)

Definition charge_mem (bytes : Z) : M (option trap) := λ m,
  let i := m_interp m in
  let new := saturating_add (mem_used i) bytes in
  let r := if (0 <? mem_budget i) && (mem_budget i <? new)
           then Some ("MT5009",
                      lit "memory budget exceeded: used " ++ int_display new ++ lit " B > cap "
                        ++ int_display (mem_budget i) ++ lit " B")
           else None in
  Ret (r, mkMachine (set_mem_used new i) (m_host m)).

Definition initial_locals_for (f : Function) (args : list Value) : Res (list Value) :=
  let locals := replicate (length (fn_locals f)) VVoid in
  match locals with
  | [] => Panicked
  | _ =>
      foldl (λ acc ip, l ← acc;
               if (ip.2 <? length l)%nat then Ret (<[ip.2 := default VUnit (args !! ip.1)]> l)
               else Panicked)
        (Ret locals) (zip (seq 0 (length (fn_params f))) (fn_params f))
  end.

(** A new frame for [fn_id], with a fresh scope. *)
Definition push_call_frame (fn_id : IrFnId) (args : list Value) : M () :=
  f ← lift (of_option (fn_by_id prog fn_id));
  locals ← lift (initial_locals_for f args);
  scope ← reads (λ i, Ret (next_scope i));
  upd (λ i, set_stack (Frame_new fn_id locals scope (fn_entry f) :: stack i) (bump_scope i)).

Definition main_exit_for_value (v : Value) : RunResult :=
  match v with
  | VEnum _ 1 _ => ROk 1
  | VInt n _ => ROk (Z.max 0 (wrap_signed 32 n))
  | _ => ROk 0
  end.

(** ** Outcomes *)

Inductive StepOutcome := Continue | FrameReturned (v : Value) | Trapped (code : string) (msg : rstr).

Inductive EvalOutcome :=
  | EValue (v : Value)
  | ECallPending (f : IrFnId) (args : list Value)
  | ETrap (code : string) (msg : rstr).

Definition of_trap (r : Value + trap) : EvalOutcome :=
  match r with inl v => EValue v | inr (c, m) => ETrap c m end.

(** ** Builtins *)

Definition joined (args : list Value) : rstr := join (lit " ") (as_str <$> args).

Definition call_builtin (b : BuiltinId) (args : list Value) : M (Value + trap) :=
  match b with
  | Log => tell (host_println (joined args));; mret (inl VUnit)
  | Print_ =>
      (match args with [] => mret () | _ => tell (host_print (joined args)) end);;
      mret (inl VUnit)
  | Panic_ =>
      let s := match args with v :: _ => as_str v | [] => [] end in
      tell (host_eprint (lit "panic: " ++ s ++ [10]));;
      mret (inr ("MT5001", s))
  | Spawn | Move_ => mret (inl (arg_or_unit args))
  | Fetch => mret (inl (VEnum 0 0 [VStr []]))
  | RawPtr => mret (inl (VInt (default 0 (head args ≫= as_int)) USize))
  | Valid => mret (inl (VBool true))
  | Null => mret (inl (VInt 0 USize))
  | Extern name =>
      match bool_decide (name = "__mty_str_concat"), args with
      | true, [a; b] => mret (inl (VStr (as_str a ++ as_str b)))
      | _, _ =>
          match try_stdlib_ctor name args with
          | Some v => mret (inl v)
          | None => v ← on_host (extern_call name args); mret (inl v)
          end
      end
  | DomOp op => v ← on_host (extern_call ("dom." +:+ op) args); mret (inl v)
  | CanvasOp op => v ← on_host (extern_call ("canvas." +:+ as_snake op) args); mret (inl v)
  | Swarm => v ← lift (of_option (run_swarm args)); mret (inl v)
  end.

(** ** One step, the calls it makes being arguments *)

Section step.
Context (n : nat) (run_subfn : IrFnId → list Value → M Value)
  (run_handler_isolated : IrFnId → Value → list Value → M (RunResult * Value * Value)).

(** [Interp::invoke_handler]: the state is written back when the handler
    ran to completion. *)
Definition invoke_handler (target : Value) (msg : string) (args : list Value) : M Value :=
  match target with
  | VAgent handle =>
      agent ← lift (of_option (agent_by_id prog (h_agent handle)));
      match list_find (λ mf, mf.1 = msg) (ag_handlers agent) with
      | None => mret VUnit
      | Some (_, (_, handler)) =>
          state_in ← reads (λ i, of_option (agent_states i !! h_state_idx handle));
          '(rr, new_state, reply) ← run_handler_isolated handler state_in args;
          (match rr with
           | ROk _ => upd (λ i, set_agent_states
                                 (<[h_state_idx handle := new_state]> (agent_states i)) i)
           | _ => mret ()
           end);;
          mret reply
      end
  | _ => mret VUnit
  end.

(** Charge [bytes] and build a value, or trap. *)
Definition charged (bytes : Z) (v : Value) : M EvalOutcome :=
  r ← charge_mem bytes;
  mret (match r with Some (c, m) => ETrap c m | None => EValue v end).

Definition adt_value (adt : AdtId) (variant : nat) (vals : list Value) : Value :=
  match adt_by_id prog adt with
  | Some r => match ar_kind r with KStruct => VStruct adt vals | _ => VEnum adt variant vals end
  | None => VEnum adt variant vals
  end.

Definition eval_method_call (receiver : Operand) (method : string) (args : list Operand) :
  M EvalOutcome :=
  rv ← operand n receiver;
  arg_vals ← operands n args;
  match operand_place receiver, eval_mutating_method rv method arg_vals with
  | Some place, Some (next_receiver, result) =>
      assign_place place next_receiver;; mret (EValue result)
  | _, _ => v ← lift (of_option (eval_method rv method arg_vals)); mret (EValue v)
  end.

Definition spawn_agent (agent : AgentIrId) : M EvalOutcome :=
  ag ← lift (of_option (agent_by_id prog agent));
  state ← run_subfn (ag_ctor ag) [];
  i ← reads Ret;
  upd (λ i, bump_agent (set_agent_states (agent_states i ++ [state]) i));;
  mret (EValue (VAgent (mkHandle (next_agent i) agent (length (agent_states i))))).

Definition eval_rvalue (r : Rvalue) : M EvalOutcome :=
  match r with
  | RUse o => v ← operand n o; mret (EValue v)
  | RConst c => v ← lift (of_option (const_to_value c)); mret (EValue v)
  | RBinOp op l r =>
      lv ← operand n l;
      rv ← operand n r;
      mret (of_trap (eval_binop op lv rv))
  | RUnOp op x =>
      xv ← operand n x;
      v ← lift (of_option (eval_unop op xv));
      mret (EValue v)
  | RRef mutable place =>
      f ← reads top;
      mret (EValue (VRef (mkRef (f_scope f) (p_local place) (p_proj place) mutable)))
  | RDeref o =>
      v ← operand n o;
      w ← reads (λ i, f ← top i; deref_value n (f_locals f) v);
      mret (EValue w)
  | RAdtInit adt variant fields =>
      vals ← operands n fields;
      charged (24 + estimate_payload_bytes vals) (adt_value adt variant vals)
  | RTupleInit xs =>
      vals ← operands n xs; charged (16 + estimate_payload_bytes vals) (VTuple vals)
  | RArrayInit xs =>
      vals ← operands n xs; charged (24 + estimate_payload_bytes vals) (VArray vals)
  | RFieldRead receiver field =>
      v ← reads (λ i, read_place n i receiver); mret (EValue (read_field v field))
  | RTupleRead receiver idx =>
      v ← reads (λ i, read_place n i receiver); mret (EValue (read_tuple v idx))
  | RIndexRead receiver index =>
      v ← reads (λ i, read_place n i receiver);
      iv ← operand n index;
      mret (EValue (read_index v (as_usize (Z.max 0 (default 0 (as_int iv))))))
  | RCall func args =>
      arg_vals ← operands n args;
      match func with
      | Builtin b => r ← call_builtin b arg_vals; mret (of_trap r)
      | User id => mret (ECallPending id arg_vals)
      end
  | RMethodCall receiver method args => eval_method_call receiver method args
  | RAgentSpawn agent _ => spawn_agent agent
  | RSend target msg args =>
      tv ← operand n target;
      arg_vals ← operands n args;
      invoke_handler tv msg arg_vals;;
      mret (EValue VUnit)
  | RAsk target msg args _ =>
      tv ← operand n target;
      arg_vals ← operands n args;
      v ← invoke_handler tv msg arg_vals;
      mret (EValue v)
  | RCapValue family constraint => mret (EValue (VCap family constraint))
  | RCast src ty => v ← operand n src; mret (EValue (eval_cast v ty))
  | RStrPtr src => v ← operand n src; mret (EValue v)
  end.

Definition exec_stmt (s : Stmt) : M StepOutcome :=
  match s with
  | SAssign place rv =>
      o ← eval_rvalue rv;
      match o with
      | EValue v => assign_place place v;; mret Continue
      | ECallPending id args => v ← run_subfn id args; assign_place place v;; mret Continue
      | ETrap code msg => mret (Trapped code msg)
      end
  | SDrop l => upd_top (λ f, set_locals (<[l := VVoid]> (f_locals f)) f);; mret Continue
  | SStorageLive _ | SStorageDead _ | SNop => mret Continue
  | SArenaPush a => upd_top (λ f, set_arenas (a :: f_arenas f) f);; mret Continue
  | SArenaPop _ => upd_top (λ f, set_arenas (tail (f_arenas f)) f);; mret Continue
  | SEffectInvoke effect op args out =>
      arg_vals ← operands n args;
      v ← on_host (effect_call effect op arg_vals);
      (match out with Some p => assign_place p v | None => mret () end);;
      mret Continue
  end.

Definition goto (b : BlockId) : M StepOutcome := upd_top (jump b);; mret Continue.

(** The first arm whose key satisfies [p]. *)
Definition switch {K} (p : K → bool) (arms : list (K * BlockId)) (default_ : BlockId) : BlockId :=
  match List.find (λ kb, p kb.1) arms with Some (_, b) => b | None => default_ end.

Definition exec_term (t : Term) : M StepOutcome :=
  match t with
  | Goto b => goto b
  | TIf cond then_ else_ =>
      v ← operand n cond; goto (if truthy v then then_ else else_)
  | TSwitchInt discr arms default_ =>
      v ← operand n discr;
      goto (switch (λ k, bool_decide (Some k = as_int v)) arms default_)
  | TSwitchVariant discr _ arms default_ =>
      v ← operand n discr;
      goto (match v with
            | VEnum _ variant _ => switch (λ k, (k =? variant)%nat) arms default_
            | _ => default_
            end)
  | TReturn o => v ← operand n o; mret (FrameReturned v)
  | TPanic msg =>
      v ← operand n msg;
      tell (host_eprint (lit "panic: " ++ as_str v ++ [10]));;
      mret (Trapped "MT5001" (as_str v))
  | TUnreachable => mret (Trapped "MT5005" (lit "unreachable"))
  | TTryReturnErr o => payload ← operand n o; mret (FrameReturned (VEnum 0 1 [payload]))
  | TSuspend _ => mret (Trapped "MT5009" (lit "async suspension requires slice-7 runtime"))
  end.

Definition step : M StepOutcome :=
  f ← reads top;
  func ← lift (of_option (fn_by_id prog (f_fn_id f)));
  b ← lift (of_option (block func (f_block f)));
  match b_stmts b !! f_pc f with
  | Some stmt => upd_top (set_pc (S (f_pc f)));; exec_stmt stmt
  | None => exec_term (b_terminator b)
  end.
End step.

(** ** The two loops *)

Definition truncate (depth : nat) (i : Interp) : Interp :=
  set_stack (drop (length (stack i) - depth) (stack i)) i.
Definition pop_frame (i : Interp) : Interp := set_stack (tail (stack i)) i.

(** The locals [run_handler_isolated] starts a handler with: the reference
    to the state in local 1, the arguments in the parameters' slots, the
    state in one slot more than the handler declares. *)
Definition handler_locals (f : Function) (state_in : Value) (msg_args : list Value) : list Value :=
  let n := length (fn_locals f) in
  let locals := replicate (S n) VVoid in
  let locals := if (2 <=? n)%nat then <[1%nat := VRef (mkRef 0 n [] true)]> locals else locals in
  let locals := <[n := state_in]> locals in
  foldl (λ ls ip, match msg_args !! ip.1 with Some v => <[ip.2 := v]> ls | None => ls end)
    locals (zip (seq 0 (length (fn_params f))) (tail (fn_params f))).

Section runs.
Context (subfn_loop : nat → M ()) (run_loop : M RunResult).

(** [Interp::run_subfn]. *)
Definition subfn (fn_id : IrFnId) (args : list Value) : M Value :=
  prev_depth ← reads (λ i, Ret (length (stack i)));
  push_call_frame fn_id args;;
  saved_return ← reads (λ i, Ret (last_return i));
  upd (set_last_return VUnit);;
  subfn_loop prev_depth;;
  result ← reads (λ i, Ret (last_return i));
  upd (set_last_return saved_return);;
  mret result.

(** [run_handler_isolated]: a fresh interpreter over the same host. *)
Definition isolated (handler : IrFnId) (state_in : Value) (msg_args : list Value) :
  M (RunResult * Value * Value) := λ m,
  match fn_by_id prog handler with
  | None => Panicked
  | Some f =>
      let frame := Frame_new handler (handler_locals f state_in msg_args) 0 (fn_entry f) in
      let fresh := set_stack [frame] (bump_scope (Interp_new DEFAULT_STEP_BUDGET)) in
      match run_loop (mkMachine fresh (m_host m)) with
      | Ret (run_result, m') =>
          let i := m_interp m' in
          let state_out := default VUnit (ls ← last_frame_locals i; ls !! length (fn_locals f)) in
          Ret ((run_result, state_out, last_return i), mkMachine (m_interp m) (m_host m'))
      | Panicked => Panicked
      | Diverged => Diverged
      end
  end.
End runs.

Definition diverge {A} : M A := λ _, Diverged.

(** [Interp::run] and the loop of [Interp::run_subfn]; every iteration and
    every nested loop has less fuel. *)
Fixpoint run_loop (n : nat) : M RunResult :=
  match n with
  | O => diverge
  | S n =>
      i ← reads Ret;
      match stack i with
      | [] => mret (ROk 0)
      | _ =>
          if budget i =? 0 then mret RBudgetExceeded
          else
            upd (set_budget (budget i - 1));;
            if (0 <? mem_budget i) && (mem_budget i <? mem_used i)
            then mret (RMemBudgetExceeded (mem_used i) (mem_budget i))
            else
              o ← step n (subfn (subfn_loop n)) (isolated (run_loop n));
              match o with
              | Continue => run_loop n
              | FrameReturned v =>
                  upd (set_last_return v);;
                  upd (λ i, match stack i with
                            | [f] => set_last_frame_locals (Some (f_locals f)) i
                            | _ => i
                            end);;
                  upd pop_frame;;
                  i ← reads Ret;
                  match stack i with
                  | [] => mret (main_exit_for_value v)
                  | _ => run_loop n
                  end
              | Trapped code msg => mret (RTrap code msg)
              end
      end
  end
with subfn_loop (n : nat) (target_depth : nat) : M () :=
  match n with
  | O => diverge
  | S n =>
      depth ← reads (λ i, Ret (length (stack i)));
      if (depth =? target_depth)%nat then mret ()
      else
        o ← step n (subfn (subfn_loop n)) (isolated (run_loop n));
        match o with
        | Trapped _ _ => upd (truncate target_depth)
        | _ =>
            (match o with
             | FrameReturned v => upd (set_last_return v);; upd pop_frame
             | _ => mret ()
             end);;
            i ← reads Ret;
            if budget i =? 0 then upd (truncate target_depth)
            else upd (set_budget (budget i - 1));; subfn_loop n target_depth
        end
  end.

(** ** Entry points *)

Definition boot (f : Function) (args : list Value) (step_budget mem_cap : Z) : Res Interp :=
  locals ← initial_locals_for f args;
  Ret (set_stack [Frame_new (fn_id f) locals 0 (fn_entry f)]
         (bump_scope (set_mem_budget mem_cap (Interp_new step_budget)))).

Definition run (n : nat) (h : HostState) : Res (RunResult * HostState) :=
  match fn_by_name prog "main" with
  | None => Ret (RNoMain, h)
  | Some mainf =>
      i ← boot mainf [] DEFAULT_STEP_BUDGET 0;
      '(r, m) ← run_loop n (mkMachine i h);
      Ret (r, m_host m)
  end.

(** [run_fn_with_resource_budget]; the other entry points fix its budgets. *)
Definition run_fn_with_resource_budget (n : nat) (name : string) (args : list Value)
  (step_budget mem_cap : Z) (h : HostState) : Res ((Value + RunResult) * HostState) :=
  match fn_by_name prog name with
  | None => Ret (inr RNoMain, h)
  | Some f =>
      i ← boot f args step_budget mem_cap;
      '(r, m) ← run_loop n (mkMachine i h);
      Ret (match r with ROk _ => inl (last_return (m_interp m)) | r => inr r end, m_host m)
  end.

Definition run_fn_with_budget (n : nat) (name : string) (args : list Value) (step_budget : Z)
  (h : HostState) : Res ((Value + RunResult) * HostState) :=
  run_fn_with_resource_budget n name args step_budget 0 h.

Definition run_fn_by_name (n : nat) (name : string) (args : list Value) (h : HostState) :
  Res ((Value + RunResult) * HostState) :=
  run_fn_with_budget n name args DEFAULT_STEP_BUDGET h.

(** [run_handler_isolated] called from outside the interpreter. *)
Definition run_handler_isolated (n : nat) (handler : IrFnId) (state_in : Value) (msg_args : list Value)
  (h : HostState) : Res (RunResult * Value * Value * HostState) :=
  '(r, m) ← isolated (run_loop n) handler state_in msg_args (mkMachine (Interp_new 0) h);
  Ret (r, m_host m).
End interp.
