(* ===== verification/IrValueSafe.v ===== *)
(** * Well-formed values

    Every integer of a value is an [i128], every character a Unicode scalar,
    every duration and size a [u64]; references satisfy a predicate the client
    chooses.  The operators, casts, constants and projections keep values so. *)

From stdpp Require Import base list strings numbers sets.
From Stdlib Require Import SpecFloat.
From S2P Require Import Prelude TyArena IrSyntax IrValue.

Local Open Scope Z_scope.

(** ** Integers *)

Definition in_i128 (n : Z) : Prop := i128_min <= n <= i128_max.
Definition in_u64 (n : Z) : Prop := 0 <= n <= u64_max.
Definition scalar (c : Z) : Prop := is_scalar c = true.
Definition in_range (k : IntKind) (n : Z) : Prop := (kind_range k).1 <= n <= (kind_range k).2.

Lemma scalar_range c : scalar c ↔ 0 <= c < 0x110000 ∧ ¬ (0xD800 <= c <= 0xDFFF).
Proof.
  unfold scalar, is_scalar. rewrite !andb_true_iff, negb_true_iff, andb_false_iff, !Z.leb_le, Z.ltb_lt,
    !Z.leb_gt. lia.
Qed.

Lemma wrap_signed_range bits n : 0 < bits → - 2 ^ (bits - 1) <= wrap_signed bits n < 2 ^ (bits - 1).
Proof.
  intros Hb. unfold wrap_signed.
  pose proof (Z.mod_pos_bound (n + 2 ^ (bits - 1)) (2 ^ bits) ltac:(lia)).
  assert (2 ^ bits = 2 * 2 ^ (bits - 1)) by (rewrite <- Z.pow_succ_r by lia; f_equal; lia). lia.
Qed.

Lemma wrap_signed_id bits n : 0 < bits → - 2 ^ (bits - 1) <= n < 2 ^ (bits - 1) → wrap_signed bits n = n.
Proof.
  intros Hb Hn. unfold wrap_signed.
  assert (2 ^ bits = 2 * 2 ^ (bits - 1)) by (rewrite <- Z.pow_succ_r by lia; f_equal; lia).
  rewrite Z.mod_small; lia.
Qed.

Lemma wrap_signed_mod bits n : 0 < bits → wrap_signed bits n mod 2 ^ bits = n mod 2 ^ bits.
Proof.
  intros Hb. unfold wrap_signed. rewrite Zminus_mod_idemp_l. f_equal. lia.
Qed.

Lemma in_i128_wrap n : in_i128 (wrap128 n).
Proof.
  unfold in_i128, i128_min, i128_max. pose proof (wrap_signed_range 128 n ltac:(lia)).
  change (128 - 1) with 127 in *. lia.
Qed.

(** An [i128] is a number whose bits above the 127th are all the same. *)
Lemma in_i128_shift n : in_i128 n ↔ Z.shiftr n 127 = 0 ∨ Z.shiftr n 127 = -1.
Proof.
  unfold in_i128, i128_min, i128_max. rewrite Z.shiftr_div_pow2 by lia.
  pose proof (Z.div_mod n (2 ^ 127) ltac:(lia)). pose proof (Z.mod_pos_bound n (2 ^ 127) ltac:(lia)).
  split; [|intros [E|E]; rewrite E in *; lia].
  intros ?. assert (-1 <= n / 2 ^ 127 <= 0); [|lia]. split.
  - apply Z.div_le_lower_bound; lia.
  - enough (n / 2 ^ 127 < 1) by lia. apply Z.div_lt_upper_bound; lia.
Qed.

Lemma in_i128_land a b : in_i128 a → in_i128 b → in_i128 (Z.land a b).
Proof.
  rewrite !in_i128_shift, Z.shiftr_land. intros [->| ->] [->| ->]; auto.
Qed.
Lemma in_i128_lor a b : in_i128 a → in_i128 b → in_i128 (Z.lor a b).
Proof.
  rewrite !in_i128_shift, Z.shiftr_lor. intros [->| ->] [->| ->]; auto.
Qed.
Lemma in_i128_lxor a b : in_i128 a → in_i128 b → in_i128 (Z.lxor a b).
Proof.
  rewrite !in_i128_shift, Z.shiftr_lxor. intros [->| ->] [->| ->]; auto.
Qed.
Lemma in_i128_lnot a : in_i128 a → in_i128 (Z.lnot a).
Proof. unfold in_i128, i128_min, i128_max, Z.lnot. lia. Qed.
Lemma in_i128_shiftr a s : 0 <= s → in_i128 a → in_i128 (Z.shiftr a s).
Proof.
  intros Hs. rewrite !in_i128_shift, Z.shiftr_shiftr, Z.add_comm, <- Z.shiftr_shiftr by lia.
  intros [->| ->]; [left; apply Z.shiftr_0_l|right].
  rewrite Z.shiftr_div_pow2 by lia. symmetry.
  apply Z.div_unique with (r := 2 ^ s - 1); lia.
Qed.
Lemma in_i128_small n : - 2 ^ 64 <= n <= 2 ^ 64 → in_i128 n.
Proof. unfold in_i128, i128_min, i128_max. lia. Qed.
Lemma in_u64_i128 n : in_u64 n → in_i128 n.
Proof. unfold in_u64, u64_max. intros ?. apply in_i128_small. lia. Qed.

Lemma as_usize_u64 n : in_u64 (as_usize n).
Proof.
  unfold in_u64, as_usize, u64_max. pose proof (Z.mod_pos_bound n (2 ^ 64) ltac:(lia)). lia.
Qed.

(** ** Narrowing is two's complement at the width of the kind *)

Definition wrap_kind (k : IntKind) (n : Z) : Z :=
  if is_unsigned_int_kind k then n mod 2 ^ kind_bits k else wrap_signed (kind_bits k) n.

Lemma kind_bits_cases k :
  kind_bits k = 8 ∨ kind_bits k = 16 ∨ kind_bits k = 32 ∨ kind_bits k = 64 ∨ kind_bits k = 128.
Proof. destruct k; simpl; auto. Qed.

Lemma low_bits n bits : 0 <= bits <= 128 → Z.land (as_u128 n) (Z.shiftl 1 bits - 1) = n mod 2 ^ bits.
Proof.
  intros Hb. rewrite Z.shiftl_1_l. replace (2 ^ bits - 1) with (Z.ones bits).
  2: { rewrite Z.ones_equiv. lia. }
  rewrite Z.land_ones by lia. unfold as_u128.
  apply Z.mod_mod_divide.
  exists (2 ^ (128 - bits)). rewrite <- Z.pow_add_r by lia. f_equal. lia.
Qed.

(** The sign bit of a number of [bits] bits. *)
Lemma sign_bit_spec low bits : 0 < bits → 0 <= low < 2 ^ bits →
  (Z.land low (Z.shiftl 1 (bits - 1)) =? 0) = (low <? 2 ^ (bits - 1)).
Proof.
  intros Hb Hl.
  assert (E : 2 ^ bits = 2 * 2 ^ (bits - 1)) by (rewrite <- Z.pow_succ_r by lia; f_equal; lia).
  destruct (Z.ltb_spec low (2 ^ (bits - 1))) as [Hlt|Hge].
  - apply Z.eqb_eq. apply Z.bits_inj'. intros i Hi.
    rewrite Z.land_spec, Z.bits_0, Z.shiftl_1_l, Z.pow2_bits_eqb by lia.
    destruct (Z.eqb_spec (bits - 1) i) as [<-|]; [|by rewrite andb_false_r].
    rewrite andb_true_r. destruct (Z.eq_dec low 0) as [->|]; [apply Z.bits_0|].
    apply Z.bits_above_log2; [lia|]. apply Z.log2_lt_pow2; lia.
  - apply Z.eqb_neq. intros E0.
    assert (Z.testbit (Z.land low (Z.shiftl 1 (bits - 1))) (bits - 1) = false) as Hbit
      by (rewrite E0; apply Z.bits_0).
    rewrite Z.land_spec, Z.shiftl_1_l, Z.pow2_bits_true, andb_true_r in Hbit by lia.
    rewrite Z.testbit_false in Hbit by lia.
    assert (low / 2 ^ (bits - 1) = 1) as E1; [|rewrite E1 in Hbit; done].
    symmetry. apply Z.div_unique with (r := low - 2 ^ (bits - 1)); lia.
Qed.

Lemma lor_high low bits d : 0 <= bits → 0 <= low < 2 ^ bits →
  Z.lor low (Z.shiftl d bits) = low + 2 ^ bits * d.
Proof.
  intros Hb Hl.
  assert (E : Z.land low (Z.shiftl d bits) = 0).
  { apply Z.bits_inj'. intros i Hi. rewrite Z.land_spec, Z.bits_0.
    destruct (Z.ltb_spec i bits).
    - rewrite Z.shiftl_spec_low by lia. apply andb_false_r.
    - apply andb_false_iff. left. destruct (Z.eq_dec low 0) as [->|]; [apply Z.bits_0|].
      apply Z.bits_above_log2; [lia|]. apply Z.lt_le_trans with bits; [|lia]. apply Z.log2_lt_pow2; lia. }
  pose proof (Z.add_lor_land low (Z.shiftl d bits)) as Ha. rewrite E, Z.add_0_r in Ha.
  rewrite Ha, Z.shiftl_mul_pow2 by lia. lia.
Qed.

Lemma narrow_int_wide n k : kind_bits k = 128 → narrow_int n k = n.
Proof. intros E. unfold narrow_int. by rewrite E. Qed.

(** The signed case, for each of the widths. *)
Lemma sign_extend bits n : 0 < bits < 128 →
  let mask := Z.shiftl 1 bits - 1 in
  let low := Z.land (as_u128 n) mask in
  (if negb (Z.land low (Z.shiftl 1 (bits - 1)) =? 0)
   then as_i128 (Z.lor low (Z.lxor mask (2 ^ 128 - 1))) else as_i128 low) = wrap_signed bits n.
Proof.
  intros Hb mask low. subst mask. assert (Hlow : low = n mod 2 ^ bits) by (apply low_bits; lia).
  clearbody low. subst low.
  pose proof (Z.mod_pos_bound n (2 ^ bits) ltac:(lia)) as Hr.
  rewrite sign_bit_spec by lia.
  assert (E : 2 ^ bits = 2 * 2 ^ (bits - 1)) by (rewrite <- Z.pow_succ_r by lia; f_equal; lia).
  assert (Hle : 2 ^ bits <= 2 ^ 127) by (apply Z.pow_le_mono_r; lia).
  assert (Hw : wrap_signed bits n = if n mod 2 ^ bits <? 2 ^ (bits - 1) then n mod 2 ^ bits
                                    else n mod 2 ^ bits - 2 ^ bits).
  { unfold wrap_signed. rewrite <- Z.add_mod_idemp_l by lia.
    destruct (Z.ltb_spec (n mod 2 ^ bits) (2 ^ (bits - 1))).
    - rewrite Z.mod_small by lia. lia.
    - replace (n mod 2 ^ bits + 2 ^ (bits - 1))
        with (n mod 2 ^ bits - 2 ^ (bits - 1) + 1 * 2 ^ bits) by lia.
      rewrite Z_mod_plus_full, Z.mod_small by lia. lia. }
  rewrite Hw. destruct (Z.ltb_spec (n mod 2 ^ bits) (2 ^ (bits - 1))); simpl.
  - apply wrap_signed_id; [lia|]. change (128 - 1) with 127. lia.
  - replace (Z.lxor (Z.shiftl 1 bits - 1) (2 ^ 128 - 1)) with (Z.shiftl (2 ^ (128 - bits) - 1) bits).
    2: { rewrite Z.shiftl_1_l. replace (2 ^ bits - 1) with (Z.ones bits) by (rewrite Z.ones_equiv; lia).
         replace (2 ^ 128 - 1) with (Z.ones 128) by (rewrite Z.ones_equiv; lia).
         replace (2 ^ (128 - bits) - 1) with (Z.ones (128 - bits)) by (rewrite Z.ones_equiv; lia).
         apply Z.bits_inj'. intros i Hi. rewrite Z.lxor_spec, !Z.testbit_ones_nonneg by lia.
         destruct (Z.ltb_spec i bits).
         - rewrite Z.shiftl_spec_low by lia. destruct (Z.ltb_spec i 128); [done|lia].
         - rewrite Z.shiftl_spec, Z.testbit_ones_nonneg by lia.
           destruct (Z.ltb_spec (i - bits) (128 - bits)), (Z.ltb_spec i 128); first [lia|done]. }
    rewrite lor_high by lia. unfold as_i128, wrap_signed.
    replace (2 ^ bits * (2 ^ (128 - bits) - 1)) with (2 ^ 128 - 2 ^ bits).
    2: { rewrite Z.mul_sub_distr_l, <- Z.pow_add_r by lia. replace (bits + (128 - bits)) with 128 by lia. lia. }
    replace (n mod 2 ^ bits + (2 ^ 128 - 2 ^ bits) + 2 ^ (128 - 1))
      with (n mod 2 ^ bits - 2 ^ bits + 2 ^ 127 + 1 * 2 ^ 128) by lia.
    rewrite Z_mod_plus_full, Z.mod_small by lia. change (128 - 1) with 127. lia.
Qed.

Lemma narrow_int_wrap n k : kind_bits k <> 128 → narrow_int n k = wrap_kind k n.
Proof.
  intros Hk. unfold narrow_int, wrap_kind.
  assert (Hb : 0 < kind_bits k < 128) by (destruct (kind_bits_cases k) as [E|[E|[E|[E|E]]]]; lia).
  destruct (Z.eqb_spec (kind_bits k) 128) as [|_]; [done|].
  destruct (is_unsigned_int_kind k) eqn:Hu; [|by apply sign_extend].
  rewrite low_bits by lia. apply wrap_signed_id; [lia|].
  pose proof (Z.mod_pos_bound n (2 ^ kind_bits k) ltac:(lia)).
  assert (2 ^ kind_bits k <= 2 ^ 127) by (apply Z.pow_le_mono_r; lia).
  change (128 - 1) with 127. lia.
Qed.

Lemma wrap_kind_range k n : kind_bits k <> 128 → in_range k (wrap_kind k n).
Proof.
  intros Hk. unfold in_range, wrap_kind.
  assert (Hb : 0 < kind_bits k) by (destruct (kind_bits_cases k) as [E|[E|[E|[E|E]]]]; lia).
  pose proof (Z.mod_pos_bound n (2 ^ kind_bits k) ltac:(lia)).
  pose proof (wrap_signed_range (kind_bits k) n Hb).
  destruct k; simpl in *; unfold u64_max; try lia; done.
Qed.

Lemma in_range_i128 k n : in_range k n → in_i128 n.
Proof. unfold in_range, in_i128, i128_min, i128_max. destruct k; simpl; unfold u64_max, i128_min, i128_max; lia. Qed.

Lemma narrow_int_i128 n k : in_i128 n → in_i128 (narrow_int n k).
Proof.
  intros Hn. destruct (Z.eq_dec (kind_bits k) 128) as [E|E]; [by rewrite narrow_int_wide|].
  rewrite narrow_int_wrap by done. by eapply in_range_i128, wrap_kind_range.
Qed.

(** ** Floats become integers of the kind *)

Definition finite (f : f64) : Prop := match f with S754_zero _ | S754_finite _ _ _ => True | _ => False end.

(** [f] is the integer [v]. *)
Definition is_integer (f : f64) (v : Z) : Prop :=
  finite f ∧ (f64_parts f).1 * 2 ^ Z.max 0 (f64_parts f).2 = v * 2 ^ Z.max 0 (- (f64_parts f).2).

Lemma compare_scale a ea b eb e : e <= ea → e <= eb →
  (a * 2 ^ (ea - Z.min ea eb) ?= b * 2 ^ (eb - Z.min ea eb)) = (a * 2 ^ (ea - e) ?= b * 2 ^ (eb - e)).
Proof.
  intros Ha Hb. set (m := Z.min ea eb).
  rewrite (Zmult_compare_compat_r _ _ (2 ^ (m - e))) by (apply Z.lt_gt, Z.pow_pos_nonneg; lia).
  rewrite <- !Z.mul_assoc, <- !Z.pow_add_r by lia. do 2 f_equal; f_equal; f_equal; lia.
Qed.

Lemma compare_finite f g e : finite f → finite g →
  e <= (f64_parts f).2 → e <= (f64_parts g).2 →
  f64_compare f g = Some ((f64_parts f).1 * 2 ^ ((f64_parts f).2 - e)
                          ?= (f64_parts g).1 * 2 ^ ((f64_parts g).2 - e)).
Proof.
  intros Hf Hg Hef Heg. unfold f64_compare.
  destruct f as [sf| | |sf mf ef]; try done; destruct g as [sg| | |sg mg eg]; try done;
    unfold f64_parts in *; simpl fst in *; simpl snd in *; rewrite (compare_scale _ _ _ _ e) by done; done.
Qed.

Lemma integer_scaled g v e : is_integer g v → e <= 0 → e <= (f64_parts g).2 →
  (f64_parts g).1 * 2 ^ ((f64_parts g).2 - e) = v * 2 ^ (- e).
Proof.
  intros [_ E] He Hg. destruct (f64_parts g) as [m eg]. simpl in *.
  destruct (Z.le_gt_cases 0 eg).
  - rewrite (Z.max_r 0 eg), (Z.max_l 0 (- eg)) in E by lia. rewrite Z.pow_0_r, Z.mul_1_r in E. subst v.
    rewrite <- Z.mul_assoc, <- Z.pow_add_r by lia. do 2 f_equal.
  - rewrite (Z.max_l 0 eg), (Z.max_r 0 (- eg)) in E by lia. rewrite Z.pow_0_r, Z.mul_1_r in E. subst m.
    rewrite <- Z.mul_assoc, <- Z.pow_add_r by lia. do 2 f_equal. lia.
Qed.

(** The comparison of a finite float with an integer. *)
Lemma compare_integer f g v : finite f → is_integer g v →
  ∃ e, e <= 0 ∧ e <= (f64_parts f).2 ∧
    f64_compare f g = Some ((f64_parts f).1 * 2 ^ ((f64_parts f).2 - e) ?= v * 2 ^ (- e)) ∧
    f64_compare g f = Some (v * 2 ^ (- e) ?= (f64_parts f).1 * 2 ^ ((f64_parts f).2 - e)).
Proof.
  intros Hf Hg. exists (Z.min 0 (Z.min (f64_parts f).2 (f64_parts g).2)).
  pose proof Hg as [Hfin _].
  rewrite <- (integer_scaled g v _ Hg) by lia.
  split_and!; try lia; apply compare_finite; done || lia.
Qed.

(** Truncation lies between the integers a float lies between. *)
Lemma trunc_bound f e : finite f → e <= 0 → e <= (f64_parts f).2 →
  let x := (f64_parts f).1 * 2 ^ ((f64_parts f).2 - e) in
  (∀ v, 1 <= v → x < v * 2 ^ (- e) → f64_trunc f <= v - 1) ∧
  (∀ v, v <= 0 → v * 2 ^ (- e) < x → v <= f64_trunc f).
Proof.
  intros Hf He Hfe x. subst x. destruct f as [s| | |s m ef]; try done; simpl in *.
  { split; intros v ??; lia. }
  assert (Hp : 0 < 2 ^ (- e)) by (apply Z.pow_pos_nonneg; lia).
  destruct (Z.leb_spec 0 ef).
  - assert (E : 2 ^ (ef - e) = 2 ^ ef * 2 ^ (- e)) by (rewrite <- Z.pow_add_r by lia; f_equal; lia).
    rewrite E, Z.mul_assoc. destruct s; simpl.
    + split; intros v Hv Hx; apply Z.mul_lt_mono_pos_r in Hx; lia.
    + split; intros v Hv Hx; apply Z.mul_lt_mono_pos_r in Hx; lia.
  - rewrite Z.shiftr_div_pow2 by lia.
    assert (Hq : 0 < 2 ^ (- ef)) by (apply Z.pow_pos_nonneg; lia).
    assert (E : 2 ^ (- e) = 2 ^ (- ef) * 2 ^ (ef - e)) by (rewrite <- Z.pow_add_r by lia; f_equal; lia).
    assert (Hr : 0 < 2 ^ (ef - e)) by (apply Z.pow_pos_nonneg; lia).
    rewrite E. pose proof (Z.div_mod (Zpos m) (2 ^ (- ef)) ltac:(lia)) as Hd.
    pose proof (Z.mod_pos_bound (Zpos m) (2 ^ (- ef)) ltac:(lia)) as Hm.
    pose proof (Z.div_pos (Zpos m) (2 ^ (- ef)) ltac:(lia) ltac:(lia)).
    set (q := Zpos m / 2 ^ (- ef)) in *. set (r := Zpos m mod 2 ^ (- ef)) in *.
    destruct s; simpl; split; intros v Hv Hx; rewrite Z.mul_assoc in Hx;
      apply Z.mul_lt_mono_pos_r in Hx; try lia; nia.
Qed.

Lemma is_integer_bound k :
  is_integer (f64_of_Z (kind_range k).1) (kind_range k).1 ∧
  ∃ v, is_integer (f64_of_Z (kind_range k).2) v ∧ 1 <= v ∧ v - 1 <= (kind_range k).2 ∧ (kind_range k).1 <= 0.
Proof.
  destruct k; (split; [by vm_compute|]);
    first [by (exists (2 ^ 127); vm_compute) | by (exists (2 ^ 64); vm_compute)
          | by (exists (2 ^ 63); vm_compute) | by (match goal with |- context [kind_range ?k] => exists (kind_range k).2 end; vm_compute)].
Qed.

Lemma kind_range_order k : (kind_range k).1 <= 0 <= (kind_range k).2.
Proof. by destruct k. Qed.

Lemma float_to_int_in_range f k : in_range k (float_to_int_saturating f k).
Proof.
  unfold float_to_int_saturating, in_range.
  pose proof (is_integer_bound k) as [Hlo (v & Hhi & Hv & Hvhi & Hlo0)].
  pose proof (kind_range_order k).
  destruct (kind_range k) as [lo hi]. simpl in *.
  destruct (is_nan f) eqn:Hnan; [lia|].
  destruct (f64_leb (f64_of_Z hi) f) eqn:Eh; [simpl; lia|].
  destruct (f64_leb f (f64_of_Z lo)) eqn:El; [simpl; lia|].
  assert (Hf : finite f).
  { pose proof Hhi as [Hfh _]. pose proof Hlo as [Hfl _].
    destruct f as [s|s| |s m e]; simpl; try done. exfalso.
    destruct s, (f64_of_Z hi), (f64_of_Z lo); done. }
  destruct (compare_integer f _ _ Hf Hhi) as (e & He & Hfe & _ & Ch).
  destruct (compare_integer f _ _ Hf Hlo) as (e' & He' & Hfe' & Cl & _).
  unfold f64_leb in Eh, El. rewrite Ch in Eh. rewrite Cl in El.
  pose proof (trunc_bound f e Hf He Hfe) as [Hup _].
  pose proof (trunc_bound f e' Hf He' Hfe') as [_ Hdown].
  specialize (Hup v Hv). specialize (Hdown lo Hlo0).
  destruct (Z.compare_spec (v * 2 ^ (- e)) ((f64_parts f).1 * 2 ^ ((f64_parts f).2 - e)))
    as [| |Hc]; [done|done|].
  destruct (Z.compare_spec ((f64_parts f).1 * 2 ^ ((f64_parts f).2 - e')) (lo * 2 ^ (- e')))
    as [| |Hc']; [done|done|].
  split; [by apply Hdown | pose proof (Hup Hc); lia].
Qed.

(** ** Well-formed values *)

Section value_ok.
Context (R : Reference → Prop).

Fixpoint value_ok (v : Value) : Prop :=
  let all := fix all (xs : list Value) : Prop :=
    match xs with [] => True | x :: xs => value_ok x ∧ all xs end in
  match v with
  | VInt n _ => in_i128 n
  | VStr s => Forall scalar s
  | VChar c => scalar c
  | VDuration n | VSize n => in_u64 n
  | VTuple xs | VArray xs => all xs
  | VStruct _ fields => all fields
  | VEnum _ _ payload => all payload
  | VRef r => R r
  | _ => True
  end.

Notation all_ok := (Forall value_ok).

Lemma value_ok_all xs :
  (fix all (xs : list Value) : Prop := match xs with [] => True | x :: xs => value_ok x ∧ all xs end) xs
  ↔ all_ok xs.
Proof. induction xs as [|x xs IH]; [by rewrite Forall_nil|]. by rewrite Forall_cons, IH. Qed.

Lemma value_ok_tuple xs : value_ok (VTuple xs) ↔ all_ok xs.
Proof. apply value_ok_all. Qed.
Lemma value_ok_array xs : value_ok (VArray xs) ↔ all_ok xs.
Proof. apply value_ok_all. Qed.
Lemma value_ok_struct a xs : value_ok (VStruct a xs) ↔ all_ok xs.
Proof. apply value_ok_all. Qed.
Lemma value_ok_enum a n xs : value_ok (VEnum a n xs) ↔ all_ok xs.
Proof. apply value_ok_all. Qed.
Lemma value_ok_int n k : value_ok (VInt n k) ↔ in_i128 n.
Proof. done. Qed.

Lemma all_ok_lookup xs i : all_ok xs → value_ok (default VUnit (xs !! i)).
Proof.
  intros Hxs. destruct (xs !! i) as [x|] eqn:E; [|done]. by eapply Forall_lookup_1.
Qed.

Lemma read_field_ok v i : value_ok v → value_ok (read_field v i).
Proof.
  destruct v; try done; rewrite ?value_ok_tuple, ?value_ok_struct, ?value_ok_enum; apply all_ok_lookup.
Qed.
Lemma read_tuple_ok v i : value_ok v → value_ok (read_tuple v i).
Proof.
  destruct v; try done; rewrite ?value_ok_tuple, ?value_ok_struct, ?value_ok_enum; apply all_ok_lookup.
Qed.
Lemma read_variant_field_ok v i : value_ok v → value_ok (read_variant_field v i).
Proof. destruct v; try done. rewrite value_ok_enum. apply all_ok_lookup. Qed.

Lemma get_elem {A} (xs : list A) i x : get xs i = Some x → x ∈ xs.
Proof. unfold get. destruct (_ && _); [|done]. apply list_elem_of_lookup_2. Qed.

Lemma read_index_ok v i : value_ok v → value_ok (read_index v i).
Proof.
  destruct v; try done.
  - simpl. intros Hs. destruct (get s i) as [c|] eqn:E; [|done]. simpl.
    apply get_elem in E. by eapply Forall_forall.
  - rewrite value_ok_array. intros Hs. simpl. destruct (get xs i) as [x|] eqn:E; [|done].
    apply get_elem in E. by eapply Forall_forall.
Qed.

Lemma slot_update_ok i f xs : all_ok xs → (∀ x, value_ok x → value_ok (f x)) → all_ok (slot_update i f xs).
Proof. intros Hxs Hf. apply Forall_alter; [done|]. intros x _. apply Hf. Qed.

Lemma write_proj_ok target proj v : value_ok target → value_ok v → value_ok (write_proj target proj v).
Proof.
  intros Ht Hv. revert target Ht. induction proj as [|p proj IH]; intros target Ht; [exact Hv|].
  destruct p, target; try exact Ht; simpl in *; rewrite value_ok_all in *; by apply slot_update_ok.
Qed.

(** ** Operators, casts and constants *)

Lemma digit_scalar upper d : 0 <= d < 16 → scalar (digit_char upper d).
Proof.
  intros Hd. unfold digit_char. apply scalar_range.
  destruct (Z.ltb_spec d 10), upper; lia.
Qed.

Lemma lit_scalar s : forallb (λ a, Z.of_N (Ascii.N_of_ascii a) <? 128) (String.list_ascii_of_string s) = true →
  Forall scalar (lit s).
Proof.
  unfold lit. intros H. apply Forall_fmap, Forall_forall. intros a Ha.
  rewrite forallb_forall in H. apply list_elem_of_In in Ha. specialize (H a Ha).
  apply Z.ltb_lt in H. simpl. apply scalar_range. lia.
Qed.

Lemma digits_rev_bound fuel radix n : 1 < radix → 0 <= n → Forall (λ d, 0 <= d < radix) (digits_rev fuel radix n).
Proof.
  intros Hr. revert n. induction fuel as [|fuel IH]; intros n Hn; [constructor|].
  simpl. destruct (Z.ltb_spec n radix); [repeat constructor; lia|].
  constructor; [apply Z.mod_pos_bound; lia|]. apply IH. apply Z.div_pos; lia.
Qed.

Lemma digits_scalar radix upper n : 1 < radix <= 16 → 0 <= n → Forall scalar (digits radix upper n).
Proof.
  intros Hr Hn. unfold digits. apply Forall_fmap.
  apply Forall_impl with (P := λ d, 0 <= d < radix).
  - apply Forall_reverse, digits_rev_bound; lia.
  - intros d Hd. apply digit_scalar. lia.
Qed.

Lemma int_display_scalar n : Forall scalar (int_display n).
Proof.
  unfold int_display. destruct (Z.ltb_spec n 0); [apply Forall_app; split; [by apply lit_scalar|]|];
    apply digits_scalar; lia.
Qed.

Lemma join_scalar sep parts : Forall scalar sep → Forall (Forall scalar) parts → Forall scalar (join sep parts).
Proof.
  intros Hs. induction 1 as [|p ps Hp Hps IH]; [constructor|].
  destruct ps as [|q ps]; [done|].
  change (Forall scalar (p ++ sep ++ join sep (q :: ps))). by rewrite !Forall_app.
Qed.
End value_ok.

Ltac lit_ok := match goal with |- Forall scalar (lit _) => apply lit_scalar; reflexivity end.

(** What the model relies on of the standard library: strings are valid
    Unicode. *)
Class RustStdOk `(RustStd) := {
  f64_display_ok f : Forall scalar (f64_display f);
  f64_display_prec_ok p f : Forall scalar (f64_display_prec p f);
  str_debug_ok s : Forall scalar s → Forall scalar (str_debug s);
  char_debug_ok c : scalar c → Forall scalar (char_debug c);
  name_debug_ok s : Forall scalar (name_debug s);
  to_lowercase_ok s : Forall scalar s → Forall scalar (to_lowercase s);
  to_uppercase_ok s : Forall scalar s → Forall scalar (to_uppercase s);
  char_to_lowercase_ok c : scalar c → Forall scalar (char_to_lowercase c);
  char_to_uppercase_ok c : scalar c → Forall scalar (char_to_uppercase c);
}.

Section operators.
Context (R : Reference → Prop) `{Hstd : RustStd} `{!RustStdOk Hstd}.
Notation value_ok := (value_ok R).

Lemma family_debug_scalar f : Forall scalar (family_debug f).
Proof. destruct f; cbn [family_debug]; rewrite ?Forall_app; split_and?; try lit_ok. apply name_debug_ok. Qed.

Lemma as_str_scalar v : value_ok v → Forall scalar (as_str v).
Proof.
  assert (Hj : ∀ xs, Forall (λ v, value_ok v → Forall scalar (as_str v)) xs → Forall value_ok xs →
               Forall scalar (join (lit ", ") (List.map as_str xs))).
  { intros xs H1 H2. apply join_scalar; [lit_ok|]. induction H1; simpl; [constructor|].
    apply Forall_cons in H2 as [??]. constructor; auto. }
  induction v as [|b|n k|f k|s|c|n|n|xs IH|xs IH|a xs IH|a n xs IH|r|f|h|f c|] using Value_rec'; intros Hv;
    rewrite ?value_ok_tuple, ?value_ok_array, ?value_ok_struct, ?value_ok_enum in Hv; cbn [as_str];
    try lit_ok.
  - destruct b; lit_ok.
  - apply int_display_scalar.
  - apply f64_display_ok.
  - done.
  - by constructor.
  - rewrite Forall_app. split; [apply int_display_scalar|lit_ok].
  - rewrite Forall_app. split; [apply int_display_scalar|lit_ok].
  - rewrite !Forall_app. split_and!; try lit_ok. by apply Hj.
  - rewrite !Forall_app. split_and!; try lit_ok. by apply Hj.
  - rewrite !Forall_app. split_and!; try lit_ok. by apply Hj.
  - destruct xs as [|x xs]; rewrite ?Forall_app; split_and?; try lit_ok;
      [apply int_display_scalar..|]. by apply (Hj (x :: xs)).
  - rewrite !Forall_app. split_and!; try lit_ok. apply int_display_scalar.
  - rewrite !Forall_app. split_and!; try lit_ok. apply family_debug_scalar.
  - constructor.
Qed.

Lemma as_int_i128 v n : value_ok v → as_int v = Some n → in_i128 n.
Proof.
  destruct v; simpl; intros Hv [= <-]; [|done]. apply in_i128_small. destruct b; lia.
Qed.
Lemma default_int_i128 v : value_ok v → in_i128 (default 0 (as_int v)).
Proof.
  intros Hv. destruct (as_int v) as [n|] eqn:E; [by eapply as_int_i128|]. by apply in_i128_small.
Qed.

Lemma eval_binop_ok op l r v : value_ok l → value_ok r → eval_binop op l r = inl v → value_ok v.
Proof.
  intros Hl Hr. unfold eval_binop. destruct (_ || _).
  { destruct op; simpl; try (intros [= <-]; done). by destruct (f64_eqb _ _); intros [= <-]. }
  destruct (_ || _).
  { intros [= <-]. destruct op; simpl; try done. apply Forall_app. split; by apply as_str_scalar. }
  pose proof (default_int_i128 l Hl). pose proof (default_int_i128 r Hr).
  destruct op; simpl; try (intros [= <-]; simpl); try done; try apply in_i128_wrap.
  - destruct (_ =? 0); intros [= <-]. apply in_i128_wrap.
  - destruct (_ =? 0); intros [= <-]. apply in_i128_wrap.
  - by apply in_i128_land.
  - by apply in_i128_lor.
  - by apply in_i128_lxor.
  - apply in_i128_shiftr; [|done]. apply Z.mod_pos_bound. lia.
Qed.

Lemma eval_unop_ok op v w : value_ok v → eval_unop op v = Some w → value_ok w.
Proof.
  destruct op, v; simpl; intros Hv; try (intros [= <-]; done).
  - unfold neg_i128. destruct (Z.eqb_spec n i128_min); simpl; intros [= <-]. simpl.
    revert Hv. unfold in_i128, i128_min, i128_max in *. lia.
  - intros [= <-]. by apply in_i128_lnot.
Qed.

Lemma scalar_i128 c : scalar c → in_i128 c.
Proof. rewrite scalar_range. intros. apply in_i128_small. lia. Qed.

Lemma eval_cast_ok v ty : value_ok v → value_ok (eval_cast v ty).
Proof.
  intros Hv. destruct v, ty; try done; simpl.
  - apply in_i128_small. destruct b; lia.
  - by apply narrow_int_i128.
  - destruct (is_scalar (n mod 2 ^ 32)) eqn:E; [exact E|apply scalar_range; lia].
  - eapply in_range_i128, float_to_int_in_range.
  - apply narrow_int_i128. by apply scalar_i128.
Qed.

(** Constants are well formed as the lowerer makes them. *)
Definition const_ok (c : Const) : Prop :=
  match c with
  | KInt n _ => in_i128 n
  | KStr s => Forall scalar s
  | KChar c => scalar c
  | KDuration n _ | KSize n _ => in_u64 n
  | _ => True
  end.

Lemma mul_u64_ok a b n : 0 <= a → 0 <= b → mul_u64 a b = Some n → in_u64 n.
Proof. unfold mul_u64, in_u64. intros ??. destruct (Z.leb_spec (a * b) u64_max); intros [= <-]. nia. Qed.

Lemma in_u64_div n d : 0 < d → in_u64 n → in_u64 (n / d).
Proof.
  unfold in_u64. intros Hd [H1 H2]. split; [apply Z.div_pos; lia|].
  apply Z.le_trans with n; [|done]. apply Z.div_le_upper_bound; nia.
Qed.

Lemma duration_ms_ok n u m : in_u64 n → duration_ms n u = Some m → in_u64 m.
Proof.
  intros Hn. pose proof Hn as [Hn0 _]. unfold duration_ms.
  repeat (case_bool_decide; [first [intros [= <-]; first [done|apply in_u64_div; [lia|done]] | apply mul_u64_ok; lia]|]).
  by intros [= <-].
Qed.

Lemma size_bytes_ok n u m : in_u64 n → size_bytes n u = Some m → in_u64 m.
Proof.
  intros Hn. pose proof Hn as [Hn0 _]. unfold size_bytes.
  assert (Hm : ∀ b, 0 <= b → ∀ a r, in_u64 a → mul_u64 a b = Some r → in_u64 r).
  { intros b Hb a r [Ha _]. apply mul_u64_ok; lia. }
  pose proof (Hm 1024 ltac:(lia)) as HK. pose proof (Hm 1000 ltac:(lia)). pose proof (Hm 1000000 ltac:(lia)).
  repeat case_bool_decide; try (intros [= <-]; done); eauto.
  - intros E. apply bind_Some in E as (a & Ea & E). eauto.
  - intros E. apply bind_Some in E as (a & Ea & E). apply bind_Some in E as (b & Eb & E). eauto.
Qed.

Lemma const_to_value_ok c v : const_ok c → const_to_value c = Some v → value_ok v.
Proof.
  destruct c; simpl; intros Hc; try (by intros [= <-]).
  - destruct (duration_ms _ _) eqn:E; simpl; intros [= <-]. by eapply duration_ms_ok.
  - destruct (size_bytes _ _) eqn:E; simpl; intros [= <-]. by eapply size_bytes_ok.
Qed.
End operators.
