(* ===== verification/IrMethodsSafe.v ===== *)
(** * The methods and constructors keep values well formed *)

From stdpp Require Import base list strings numbers sets.
From Stdlib Require Import SpecFloat.
From S2P Require Import Prelude TyArena IrSyntax IrValue IrMethods IrSwarm IrValueSafe.

Local Open Scope Z_scope.

(** ** Strings *)

Lemma usize_value_ok R n : value_ok R (usize_value n).
Proof. apply in_u64_i128, as_usize_u64. Qed.

Lemma split_at_byte_app s i a b : split_at_byte s i = Some (a, b) → s = a ++ b.
Proof.
  revert i a b. induction s as [|c s IH]; intros i a b; simpl; destruct (i =? 0); try (by intros [= <- <-]).
  destruct (i <? char_len c); [done|].
  destruct (split_at_byte s (i - char_len c)) as [[a' b']|] eqn:E; simpl; intros [= <- <-].
  by rewrite (IH _ _ _ E).
Qed.

Lemma split_go_scalar sep acc skip s : Forall scalar acc → Forall scalar s →
  Forall (Forall scalar) (split_go sep acc skip s).
Proof.
  intros Ha Hs. revert acc skip Ha. induction Hs as [|c s Hc Hs IH]; intros acc skip Ha; simpl.
  - repeat constructor. by apply Forall_reverse.
  - destruct skip; [|by apply IH]. destruct (starts_with sep (c :: s)).
    + constructor; [by apply Forall_reverse|]. by apply IH.
    + apply IH. by constructor.
Qed.

Lemma split_scalar sep s : Forall scalar s → Forall (Forall scalar) (split sep s).
Proof. intros. by apply split_go_scalar. Qed.

Lemma trim_start_scalar s : Forall scalar s → Forall scalar (trim_start s).
Proof. induction 1 as [|c s Hc Hs IH]; simpl; [constructor|]. destruct (is_whitespace c); [done|by constructor]. Qed.
Lemma trim_end_scalar s : Forall scalar s → Forall scalar (trim_end s).
Proof. intros. by apply Forall_reverse, trim_start_scalar, Forall_reverse. Qed.

(** The bytes of well-formed strings are bytes. *)
Lemma utf8_char_bytes c : scalar c → Forall (λ b, 0 <= b < 256) (utf8_char c).
Proof.
  intros [Hc _]%scalar_range. unfold utf8_char.
  assert (Hl : ∀ x, 0 <= Z.land x 0x3F < 64).
  { intros x. change 0x3F with (Z.ones 6). rewrite Z.land_ones by lia. apply Z.mod_pos_bound. lia. }
  assert (Hs : ∀ k, 0 <= k → 0 <= Z.shiftr c k).
  { intros k Hk. apply Z.shiftr_nonneg. lia. }
  pose proof (Hl c). pose proof (Hl (Z.shiftr c 6)). pose proof (Hl (Z.shiftr c 12)).
  pose proof (Hs 6 ltac:(lia)). pose proof (Hs 12 ltac:(lia)). pose proof (Hs 18 ltac:(lia)).
  destruct (Z.ltb_spec c 0x80); [repeat constructor; lia|].
  destruct (Z.ltb_spec c 0x800).
  { assert (Z.shiftr c 6 < 32) by (rewrite Z.shiftr_div_pow2 by lia; apply Z.div_lt_upper_bound; lia).
    repeat constructor; lia. }
  destruct (Z.ltb_spec c 0x10000).
  { assert (Z.shiftr c 12 < 16) by (rewrite Z.shiftr_div_pow2 by lia; apply Z.div_lt_upper_bound; lia).
    repeat constructor; lia. }
  assert (Z.shiftr c 18 < 8) by (rewrite Z.shiftr_div_pow2 by lia; apply Z.div_lt_upper_bound; lia).
  repeat constructor; lia.
Qed.

Lemma utf8_bytes s : Forall scalar s → Forall (λ b, 0 <= b < 256) (utf8 s).
Proof.
  induction 1 as [|c s Hc Hs IH]; [constructor|]. unfold utf8. simpl. apply Forall_app. split; [|done].
  by apply utf8_char_bytes.
Qed.

Lemma is_cont_spec b : is_cont b = true ↔ 0x80 <= b <= 0xBF.
Proof. unfold is_cont. rewrite andb_true_iff, !Z.leb_le. done. Qed.

(** The decoder accepts nothing but encodings of scalars. *)
Lemma utf8_decode_scalar bs s : Forall (λ b, 0 <= b) bs → utf8_decode bs = Some s → Forall scalar s.
Proof.
  revert bs s.
  assert (Hn : ∀ n bs s, (length bs <= n)%nat → Forall (λ b, 0 <= b) bs → utf8_decode bs = Some s →
    Forall scalar s); [|intros bs s; by apply (Hn (length bs))].
  induction n as [|n IH]; intros bs s Hlen Hbs; [destruct bs; [by intros [= <-]|simpl in Hlen; lia]|].
  destruct bs as [|b bs1]; [by intros [= <-]|]. simpl in Hlen. apply Forall_cons in Hbs as [Hb Hbs].
  simpl. destruct (Z.ltb_spec b 0x80).
  { destruct (utf8_decode bs1) eqn:E; simpl; intros [= <-]. constructor; [apply scalar_range; lia|].
    eapply IH; [|done..]. lia. }
  destruct bs1 as [|b1 bs2]; [done|]. apply Forall_cons in Hbs as [Hb1 Hbs]. simpl in Hlen.
  destruct ((0xC2 <=? b) && (b <=? 0xDF) && is_cont b1) eqn:E2.
  { rewrite !andb_true_iff, is_cont_spec, !Z.leb_le in E2.
    destruct (utf8_decode bs2) eqn:E; simpl; intros [= <-]. constructor; [apply scalar_range; lia|].
    eapply IH; [|done..]. lia. }
  destruct bs2 as [|b2 bs3]; [done|]. apply Forall_cons in Hbs as [Hb2 Hbs]. simpl in Hlen.
  destruct (_ && is_scalar _) eqn:E3.
  { apply andb_true_iff in E3 as [_ E3].
    destruct (utf8_decode bs3) eqn:E; simpl; intros [= <-]. constructor; [exact E3|].
    eapply IH; [|done..]. lia. }
  destruct bs3 as [|b3 bs4]; [done|]. apply Forall_cons in Hbs as [Hb3 Hbs]. simpl in Hlen.
  destruct (_ && is_scalar _) eqn:E4 in |- *; [|done].
  apply andb_true_iff in E4 as [_ E4].
  destruct (utf8_decode bs4) eqn:E; simpl; intros [= <-]. constructor; [exact E4|].
  eapply IH; [|done..]. lia.
Qed.

Section methods_safe.
Context (R : Reference → Prop) `{Hstd : RustStd} `{!RustStdOk Hstd}.
Notation value_ok := (value_ok R).
Notation all_ok := (Forall value_ok).

(** ** Shapes *)

Lemma option_value_ok {A} (f : A → Value) o :
  (∀ x, o = Some x → value_ok (f x)) → value_ok (option_value f o).
Proof. intros Hf. destruct o; simpl; auto. Qed.

Lemma bytes_value_ok s : Forall scalar s → value_ok (bytes_value s).
Proof.
  intros Hs. apply value_ok_array, Forall_fmap. apply utf8_bytes in Hs.
  eapply Forall_impl; [done|]. intros b Hb. cbv beta in Hb. apply in_i128_small. lia.
Qed.

Lemma all_ok_elem xs x : all_ok xs → x ∈ xs → value_ok x.
Proof. intros H Hx. by eapply Forall_forall. Qed.

Lemma head_ok xs : all_ok xs → value_ok (default VUnit (head xs)).
Proof. by destruct 1. Qed.

Lemma last_ok xs x : all_ok xs → list.last xs = Some x → value_ok x.
Proof. intros H Hx. eapply all_ok_elem; [done|]. by apply last_Some_elem_of. Qed.

Lemma pop_ok {A} (P : A → Prop) (l : list A) : Forall P l → Forall P (pop l).1 ∧ ∀ x, (pop l).2 = Some x → P x.
Proof.
  intros Hl. unfold pop. apply Forall_reverse in Hl. destruct (reverse l) as [|x r]; simpl; [done|].
  apply Forall_cons in Hl as [Hx Hr]. split; [by apply Forall_reverse|by intros y [= <-]].
Qed.

Lemma arg_str_ok args i s : all_ok args → arg_str args i = Some s → Forall scalar s.
Proof.
  intros Ha. unfold arg_str. destruct (args !! i) as [v|] eqn:E; [|done].
  assert (Hv : value_ok v) by (by eapply Forall_lookup_1).
  pose proof (as_str_scalar R v Hv) as Hs.
  destruct v; intros [= <-]; exact Hs.
Qed.

Lemma get_ok {A} (P : A → Prop) xs i x : Forall P xs → get xs i = Some x → P x.
Proof. intros Hxs Hx. apply get_elem in Hx. by eapply Forall_forall. Qed.

Lemma opt_int_i128 (o : option Value) : (∀ v, o = Some v → value_ok v) → in_i128 (default 0 (o ≫= as_int)).
Proof.
  intros Ho. destruct o as [v|]; [|by apply in_i128_small]. apply (default_int_i128 R). by apply Ho.
Qed.

(** ** Mutating methods *)

Lemma eval_mutating_method_ok v name args next result :
  value_ok v → all_ok args → eval_mutating_method v name args = Some (next, result) →
  value_ok next ∧ value_ok result.
Proof.
  intros Hv Ha. unfold eval_mutating_method.
  repeat case_bool_decide; try done; destruct v; try done.
  - destruct args as [|[]]; try done. simpl. intros [= <- <-]. apply Forall_cons in Ha as [Hc _].
    split; by apply Forall_app; split; [|constructor].
  - destruct args as [|x args]; try done. simpl. intros [= <- <-]. apply Forall_cons in Ha as [Hx _].
    apply value_ok_array in Hv. rewrite !value_ok_array. split; by apply Forall_app; split; [|constructor].
  - destruct (arg_str args 0) eqn:E; [|done]. intros [= <- <-]. pose proof (arg_str_ok _ _ _ Ha E).
    split; (apply Forall_app; split; done).
  - intros [= <- <-]. split; constructor.
  - by intros [= <- <-].
  - pose proof (pop_ok scalar s Hv) as [Hp1 Hp2]. destruct (pop s) as [t c]. intros [= <- <-].
    split; [done|]. by apply option_value_ok.
  - apply value_ok_array in Hv. pose proof (pop_ok value_ok xs Hv) as [Hp1 Hp2].
    destruct (pop xs) as [t c]. intros [= <- <-].
    rewrite value_ok_array. split; [done|]. by apply option_value_ok.
Qed.

(** ** Formatting *)

Lemma radix_str_scalar radix upper n : 1 < radix <= 16 → Forall scalar (radix_str radix upper n).
Proof.
  intros Hr. unfold radix_str. destruct (Z.ltb_spec (as_i64 n) 0);
    [apply Forall_app; split; [lit_ok|]|]; apply digits_scalar; lia.
Qed.

Lemma hex_bytes_scalar upper bs : Forall (λ b, 0 <= b < 256) bs → Forall scalar (bs ≫= hex_byte upper).
Proof.
  induction 1 as [|b bs Hb Hbs IH]; [constructor|]. simpl. constructor; [|constructor; [|done]].
  - apply digit_scalar. split; [apply Z.div_pos; lia|apply Z.div_lt_upper_bound; lia].
  - apply digit_scalar. apply Z.mod_pos_bound. lia.
Qed.

Lemma char_digits_scalar radix upper c : 1 < radix <= 16 → scalar c → Forall scalar (digits radix upper c).
Proof. intros Hr Hc. apply digits_scalar; [done|]. apply scalar_range in Hc. lia. Qed.

Lemma bool_digits_scalar radix upper (b : bool) : 1 < radix <= 16 →
  Forall scalar (digits radix upper (if b then 1 else 0)).
Proof. intros Hr. apply digits_scalar; [done|]. destruct b; lia. Qed.

Lemma hex_method_ok upper v : value_ok v → value_ok (hex_method upper v).
Proof.
  intros Hv. pose proof (as_str_scalar R v Hv) as Hs. destruct v; try exact Hs.
  - apply bool_digits_scalar. lia.
  - by apply radix_str_scalar.
  - apply hex_bytes_scalar. by apply utf8_bytes.
  - by apply char_digits_scalar.
Qed.

Lemma radix_method_ok radix v : 1 < radix <= 16 → value_ok v → value_ok (radix_method radix v).
Proof.
  intros Hr Hv. pose proof (as_str_scalar R v Hv) as Hs. destruct v; try exact Hs.
  - by apply bool_digits_scalar.
  - by apply radix_str_scalar.
  - by apply char_digits_scalar.
Qed.

Lemma debug_method_ok v : value_ok v → value_ok (debug_method v).
Proof.
  intros Hv. pose proof (as_str_scalar R v Hv) as Hs. destruct v; try exact Hs.
  - by apply str_debug_ok.
  - by apply char_debug_ok.
Qed.

Lemma sign_scalar (b : bool) s : Forall scalar s → Forall scalar (if b then lit "+" ++ s else s).
Proof. intros Hs. destruct b; [apply Forall_app; split; [lit_ok|done]|done]. Qed.

Lemma render_display_spec_ok v p prec : value_ok v → value_ok (render_display_spec v p prec).
Proof.
  intros Hv. pose proof (as_str_scalar R v Hv) as Hs. destruct v; try exact Hs.
  - cbn [render_display_spec]. destruct (n <? 0); [|apply sign_scalar]; apply int_display_scalar.
  - cbn [render_display_spec].
    assert (Hb : Forall scalar (match precision_of prec with
                                | Some p => f64_display_prec (Z.to_nat p) (SFabs f)
                                | None => f64_display (SFabs f) end)).
    { destruct (precision_of prec); [apply f64_display_prec_ok|apply f64_display_ok]. }
    destruct (f64_ltb _ _); [apply Forall_app; split; [lit_ok|done]|by apply sign_scalar].
  - simpl. destruct (precision_of prec); [|done]. destruct (_ <? _); [by apply Forall_take|done].
Qed.

Lemma render_radix_spec_ok v radix upper prefix p a prec : 1 < radix <= 16 → Forall scalar prefix →
  value_ok v → value_ok (render_radix_spec v radix upper prefix p a prec).
Proof.
  intros Hr Hp Hv. pose proof (as_str_scalar R v Hv) as Hs.
  assert (Hf : ∀ sign body : rstr, Forall scalar sign → Forall scalar body →
    Forall scalar (sign ++ (if a then prefix else [])
      ++ match precision_of prec with
         | Some p => if Z.of_nat (length body) <? p
                     then replicate (Z.to_nat p - length body) 48 ++ body else body
         | None => body end)).
  { intros sign body H1 H2. rewrite !Forall_app. split_and!; [done|by destruct a|].
    destruct (precision_of prec); [|done]. destruct (_ <? _); [|done].
    apply Forall_app. split; [|done]. by apply Forall_replicate. }
  destruct v; try exact Hs; apply Hf.
  - destruct p; [lit_ok|constructor].
  - by apply bool_digits_scalar.
  - destruct (as_i64 n <? 0); [lit_ok|]. destruct p; [lit_ok|constructor].
  - apply digits_scalar; [done|lia].
  - destruct p; [lit_ok|constructor].
  - by apply char_digits_scalar.
Qed.

Lemma pad_str_scalar s width fill align : Forall scalar s → scalar fill → Forall scalar (pad_str s width fill align).
Proof.
  intros Hs Hfill. unfold pad_str. destruct (_ || _); [done|].
  assert (Hrep : ∀ n, Forall scalar (replicate n fill)) by (intros; by apply Forall_replicate).
  destruct (str_eqb _ (lit "left")); [by apply Forall_app|].
  destruct (str_eqb _ (lit "center")); [by rewrite !Forall_app|].
  destruct (fill =? 48); [|by apply Forall_app].
  simpl. rewrite !Forall_app. split_and!; [by apply Forall_take| |by apply Forall_drop].
  by apply Forall_replicate.
Qed.

(** ** The method table *)

Lemma iter_next_ok v args w : value_ok v → all_ok args → iter_next v args = Some w → value_ok w.
Proof.
  intros Hv Ha. unfold iter_next.
  assert (Hend : value_ok (VTuple [VBool true; VUnit])) by done.
  destruct v as [| | | | | | | |xs|xs| | | | | | |]; try (intros [= <-]; exact Hend).
  - destruct xs as [|p0 [|p1 [|p2 [|]]]]; try (intros [= <-]; exact Hend).
    destruct (_ || _) eqn:E; [done|]. intros [= <-]. apply orb_false_iff in E as [E1 E2].
    apply Z.ltb_ge in E1, E2. apply value_ok_tuple. repeat constructor.
    destruct (if match p2 with VBool true => true | _ => false end then _ else _); [done|].
    simpl. by split.
  - apply value_ok_array in Hv. destruct (get xs _) as [x|] eqn:E; intros [= <-]; [|done].
    apply value_ok_tuple. repeat constructor. eapply (get_ok value_ok); [|done]. done.
Qed.

Lemma pad_method_ok v args : value_ok v → all_ok args → value_ok (pad_method v args).
Proof.
  intros Hv Ha. unfold pad_method. apply pad_str_scalar; [by apply (as_str_scalar R)|].
  destruct (args !! 1%nat) as [w|] eqn:E; [|reflexivity].
  eapply Forall_lookup_1 in E; [|done].
  destruct w as [| | | |[|c s]|c| | | | | | | | | | |]; try reflexivity; [|done].
  by apply Forall_cons in E as [? _].
Qed.

Ltac method := match goal with
  | |- Some _ = Some _ → _ => intros [= <-]
  | |- None = Some _ → _ => done
  end.

Lemma format_method_ok v name args w : value_ok v → all_ok args → format_method v name args = Some w → value_ok w.
Proof.
  intros Hv Ha. pose proof (as_str_scalar R v Hv) as Hs. unfold format_method.
  repeat (destruct (bool_decide _)); simpl orb; cbv iota; try done; method;
    try (by apply hex_method_ok); try (by apply radix_method_ok); try (by apply debug_method_ok);
    try (by apply pad_method_ok); try exact Hs; try (by apply render_display_spec_ok);
    try (apply render_radix_spec_ok; [lia|lit_ok|done]).
  - destruct v; apply usize_value_ok.
  - by destruct v.
  - done.
Qed.

Lemma result_method_ok v name args w : value_ok v → all_ok args → result_method v name args = Some w → value_ok w.
Proof.
  intros Hv Ha. pose proof (head_ok _ Ha) as Hh. unfold result_method, arg_or_unit.
  repeat (destruct (bool_decide _)); simpl orb; cbv iota; try done; method; try done;
    (destruct v as [| | | | | | | | | | |a [|n] xs| | | | |]; try done;
     try (by apply value_ok_enum in Hv; first [apply head_ok | apply value_ok_enum])).
  all: apply value_ok_enum; by constructor.
Qed.

Lemma skip_chars_scalar n s : Forall scalar s → Forall scalar (skip_chars n s).
Proof. intros Hs. unfold skip_chars. destruct (_ <? _); [by apply Forall_drop|constructor]. Qed.
Lemma take_chars_scalar n s : Forall scalar s → Forall scalar (take_chars n s).
Proof. intros Hs. unfold take_chars. destruct (_ <? _); [by apply Forall_take|done]. Qed.
Lemma on_str_ok v f : (∀ s, Forall scalar s → Forall scalar (f s)) → value_ok v → value_ok (on_str v f).
Proof. intros Hf. destruct v; simpl; auto. Qed.
Lemma strs_ok l : Forall (Forall scalar) l → value_ok (VArray (VStr <$> l)).
Proof. intros Hl. by apply value_ok_array, Forall_fmap. Qed.
Lemma chars_ok s : Forall scalar s → value_ok (VArray (VChar <$> s)).
Proof. intros Hl. by apply value_ok_array, Forall_fmap. Qed.
Lemma replace_scalar from to s : Forall scalar to → Forall scalar s → Forall scalar (replace from to s).
Proof. intros Ht Hs. apply join_scalar; [done|]. by apply split_scalar. Qed.
Lemma repeat_scalar n s : Forall scalar s → Forall scalar (mjoin (replicate n s)).
Proof. intros Hs. induction n as [|n IH]; [constructor|]. simpl. by apply Forall_app. Qed.

Lemma str_method_ok v name args w : value_ok v → all_ok args → str_method v name args = Some w → value_ok w.
Proof.
  intros Hv Ha. unfold str_method.
  assert (Hs : ∀ i s, arg_str args i = Some s → Forall scalar s) by (intros i s; by apply arg_str_ok).
  repeat (destruct (bool_decide _)); simpl orb; cbv iota; try done; method;
    try (destruct v; try done; first [by apply to_lowercase_ok | by apply char_to_lowercase_ok
                                     | by apply to_uppercase_ok | by apply char_to_uppercase_ok]).
  - destruct v; try done; by destruct (arg_str args 0).
  - destruct v; try done; by destruct (arg_str args 0).
  - destruct v; try done; by destruct (arg_str args 0).
  - destruct v; try done. destruct (arg_str args 0); [|done].
    apply option_value_ok. intros. apply usize_value_ok.
  - destruct v; try done. destruct (arg_usize args 0); [|done].
    apply option_value_ok. intros x Hx. by eapply (get_ok scalar).
  - destruct v; try done. destruct (arg_usize args 0), (arg_usize args 1); try done.
    destruct (_ <? _); [done|]. apply value_ok_enum. repeat constructor.
    by apply take_chars_scalar, skip_chars_scalar.
  - apply on_str_ok; [|done]. intros. by apply trim_end_scalar, trim_start_scalar.
  - apply on_str_ok; [|done]. intros. by apply trim_start_scalar.
  - apply on_str_ok; [|done]. intros. by apply trim_end_scalar.
  - destruct v; try done. destruct (arg_str args 0) as [[|c sep]|]; try done.
    by apply strs_ok, split_scalar.
  - destruct v; try done. by apply chars_ok.
  - destruct v; try done. by apply bytes_value_ok.
  - destruct v; try done. destruct (arg_str args 0) as [[|c from]|]; try done.
    destruct (arg_str args 1) as [to|] eqn:E; [|done]. apply replace_scalar; eauto.
  - destruct v; try done. destruct (arg_usize args 0); [|done]. by apply repeat_scalar.
Qed.

Lemma split_at_byte_scalar s i a b : Forall scalar s → split_at_byte s i = Some (a, b) →
  Forall scalar a ∧ Forall scalar b.
Proof. intros Hs E. apply split_at_byte_app in E as ->. by apply Forall_app. Qed.

Lemma cut_range_scalar s i j a b : Forall scalar s → cut_range s i j = Some (a, b) →
  Forall scalar a ∧ Forall scalar b.
Proof.
  intros Hs. unfold cut_range. destruct (_ <? _); [done|].
  destruct (split_at_byte s i) as [[x y]|] eqn:E1; [|done].
  destruct (split_at_byte s j) as [[x' y']|] eqn:E2; [|done]. simpl. intros [= <- <-].
  apply split_at_byte_scalar in E1 as [? _], E2 as [_ ?]; done.
Qed.

Lemma char_indices_scalar from s : Forall scalar s → Forall (λ ic, scalar ic.2) (char_indices from s).
Proof. intros Hs. revert from. induction Hs; intros from; simpl; by constructor. Qed.

Lemma boundary_method_ok v name args w : value_ok v → all_ok args → boundary_method v name args = Some w → value_ok w.
Proof.
  intros Hv Ha. unfold boundary_method.
  assert (Hs : ∀ i s, arg_str args i = Some s → Forall scalar s) by (intros i s; by apply arg_str_ok).
  assert (Hidx : ∀ o, value_ok (option_value usize_value o)).
  { intros o. apply option_value_ok. intros. apply usize_value_ok. }
  repeat (destruct (bool_decide _)); try done; method; destruct v; try done; try apply usize_value_ok.
  - by destruct (arg_str args 0).
  - destruct args as [|[| | | |[|c [|c' s']]| | | | | | | | | | | |] args]; simpl; first [apply Hidx | done].
  - by apply bytes_value_ok.
  - apply value_ok_array, Forall_fmap. eapply Forall_impl; [by apply char_indices_scalar|].
    intros [i c] Hc. apply value_ok_tuple.
    apply Forall_cons; split; [apply usize_value_ok|]. by apply Forall_cons.
  - by destruct (arg_usize args 0).
  - by destruct (arg_usize args 0).
  - by destruct (arg_usize args 0).
  - destruct (arg_usize args 0); [|done]. destruct (arg_str args 1) eqn:E; [|done].
    apply option_value_ok. intros [a b] Hab. apply split_at_byte_scalar in Hab as [??]; [|done].
    simpl. rewrite !Forall_app. split_and!; eauto.
  - destruct (arg_usize args 0), (arg_usize args 1); try done.
    apply option_value_ok. intros [a b] Hab. apply cut_range_scalar in Hab as [??]; [|done].
    simpl. by rewrite !Forall_app.
  - destruct (arg_usize args 0), (arg_usize args 1); try done. destruct (arg_str args 2) eqn:E; [|done].
    apply option_value_ok. intros [a b] Hab. apply cut_range_scalar in Hab as [??]; [|done].
    simpl. rewrite !Forall_app. split_and!; eauto.
Qed.

Lemma from_utf8_scalar o s : (∀ v, o = Some v → value_ok v) → from_utf8 o = Some s → Forall scalar s.
Proof.
  intros Ho. destruct o as [v|]; [|done]. specialize (Ho v eq_refl). destruct v; try done; simpl.
  - by intros [= <-].
  - apply utf8_decode_scalar. clear Ho. induction xs as [|x xs IH]; [constructor|].
    simpl. destruct x; try done. constructor; [|done]. apply Z.mod_pos_bound. lia.
Qed.

Lemma vec_method_ok v name args w : value_ok v → all_ok args → vec_method v name args = Some w → value_ok w.
Proof.
  intros Hv Ha. unfold vec_method.
  assert (Hs : ∀ i s, arg_str args i = Some s → Forall scalar s) by (intros i s; by apply arg_str_ok).
  assert (Hget : ∀ xs i, all_ok xs → value_ok (option_value id (get xs i))).
  { intros xs i Hxs. apply option_value_ok. intros x Hx. by eapply (get_ok value_ok). }
  repeat (destruct (bool_decide _)); simpl orb; cbv iota; try done; method; try done.
  - destruct v; try done; destruct args as [|x args]; try done; apply Forall_cons in Ha as [Hx Ha]; simpl.
    + destruct x; try done. apply Forall_app. by repeat constructor.
    + apply value_ok_array in Hv. apply value_ok_array, Forall_app. by repeat constructor.
  - destruct v; try done. destruct (arg_str args 0) eqn:E; [|done]. apply Forall_app. eauto.
  - destruct v; try done. constructor.
  - destruct v; try done; apply option_value_ok; intros x Hx.
    + apply last_Some_elem_of in Hx. by apply (proj1 (Forall_forall scalar s) Hv).
    + apply value_ok_array in Hv. by apply (last_ok xs).
  - destruct v; try done. destruct (arg_usize args 0); [|done]. apply Hget. by apply value_ok_array in Hv.
  - destruct v; try done. destruct (arg_usize args 0); [|done]. destruct (args !! 1%nat) eqn:E; [|done].
    destruct (_ <? _); [|done]. apply value_ok_array in Hv. apply value_ok_array, Forall_insert; [done|].
    by eapply Forall_lookup_1.
  - destruct v; try done. apply value_ok_array in Hv. apply option_value_ok. intros x Hx.
    destruct xs; [done|]. injection Hx as <-. by apply Forall_cons in Hv as [? _].
  - destruct v; try done. apply value_ok_array in Hv. apply option_value_ok. intros x Hx. by apply (last_ok xs).
  - destruct v; try done; constructor.
  - simpl. destruct (arg_str args 0) eqn:E; simpl; [eauto|constructor].
  - apply option_value_ok. intros s E. eapply from_utf8_scalar; [|done].
    intros x Hx. destruct args; [done|]. injection Hx as <-. by apply Forall_cons in Ha as [? _].
  - destruct v; try done; (destruct (arg_usize args 0); [|done]).
    + apply option_value_ok. intros x Hx. by eapply (get_ok scalar).
    + apply Hget. by apply value_ok_array in Hv.
  - destruct v; apply usize_value_ok.
Qed.

Lemma eval_method_ok v name args w : value_ok v → all_ok args → eval_method v name args = Some w → value_ok w.
Proof.
  intros Hv Ha. unfold eval_method. destruct (bool_decide _); [by apply iter_next_ok|]. intros [= <-].
  pose proof (format_method_ok v name args) as H1. pose proof (result_method_ok v name args) as H2.
  pose proof (str_method_ok v name args) as H3. pose proof (boundary_method_ok v name args) as H4.
  pose proof (vec_method_ok v name args) as H5.
  destruct (format_method v name args), (result_method v name args), (str_method v name args),
    (boundary_method v name args), (vec_method v name args); simpl; auto; done.
Qed.

(** ** Constructors and the swarm *)

Lemma str_of_scalar o s : (∀ v, o = Some v → value_ok v) → str_of o = Some s → Forall scalar s.
Proof.
  intros Ho. destruct o as [v|]; [|done]. specialize (Ho v eq_refl). destruct v; try done. by intros [= <-].
Qed.

Lemma str_arg_scalar args i : all_ok args → Forall scalar (default [] (str_arg args i)).
Proof.
  intros Ha. destruct (str_arg args i) as [s|] eqn:E; [|constructor].
  eapply str_of_scalar; [|exact E]. intros v Hv. by eapply Forall_lookup_1.
Qed.

Lemma clamp_u64_i128 n : in_i128 (clamp_u64 n).
Proof. apply in_u64_i128, as_usize_u64. Qed.

Lemma u64_max_i128 : in_i128 u64_max.
Proof. done. Qed.

Lemma member_value_ok p n r c e : Forall scalar p → Forall scalar n → Forall scalar (default [] r) →
  in_i128 (default u64_max c) → value_ok (member_value p n r c e).
Proof. intros. apply value_ok_struct. repeat (apply Forall_cons; split; [done|]). constructor. Qed.

Lemma budget_value_ok n : in_i128 n → value_ok (budget_value n).
Proof. intros. apply value_ok_struct. repeat (apply Forall_cons; split; [done|]). constructor. Qed.

Lemma cents_of_dollars_u64 d : in_u64 (cents_of_dollars d).
Proof.
  unfold cents_of_dollars. destruct (fmul d _) as [|[]| |[] m e]; try done.
  unfold in_u64. split; [|apply Z.le_min_l]. apply Z.min_glb; [done|].
  destruct (Z.leb_spec 0 e); [|apply Z.shiftr_nonneg]; [|].
  - pose proof (Z.pow_nonneg 2 e). lia.
  - pose proof (Z.pow_nonneg 2 (- e - 1)). lia.
Qed.

Lemma named_member_ok p args : forallb (λ a, Z.of_N (Ascii.N_of_ascii a) <? 128) (String.list_ascii_of_string p) = true →
  all_ok args → value_ok (named_member p args).
Proof.
  intros Hp Ha. apply member_value_ok; [by apply lit_scalar|by apply str_arg_scalar|constructor|done].
Qed.

Lemma text_ctor_ok name args v : all_ok args → text_ctor name args = Some v → value_ok v.
Proof.
  intros Ha. unfold text_ctor.
  repeat (destruct (bool_decide _)); try done; intros [= <-]; try done.
  - constructor.
  - constructor.
  - by apply str_arg_scalar.
  - destruct (from_utf8 (head args)) as [s|] eqn:E; [|done]. apply value_ok_enum, Forall_cons. split; [|done].
    eapply from_utf8_scalar; [|exact E]. intros x Hx. destruct args; [done|]. injection Hx as <-.
    by apply Forall_cons in Ha as [? _].
  - destruct (head args) as [[]|]; try done. destruct (is_scalar n) eqn:E; [|done].
    apply value_ok_enum, Forall_cons. by split.
Qed.

Lemma weighted_ok o : value_ok (weighted_strategy_value (u32_weights o)).
Proof.
  apply value_ok_enum, Forall_cons. split; [|done]. apply value_ok_array, Forall_fmap, Forall_forall.
  intros n Hn. assert (Hr : 0 <= n < 2 ^ 32).
  { destruct o as [[]|]; simpl in Hn; try by apply elem_of_nil in Hn.
    apply list_elem_of_fmap in Hn as (m & -> & _). apply Z.mod_pos_bound. lia. }
  apply in_i128_small. lia.
Qed.

Lemma swarm_ctor_ok name args v : all_ok args → swarm_ctor name args = Some v → value_ok v.
Proof.
  intros Ha. pose proof (str_arg_scalar args 0 Ha). pose proof (str_arg_scalar args 1 Ha).
  unfold swarm_ctor.
  repeat (destruct (bool_decide _)); simpl orb; cbv iota; try done; intros [= <-]; try done;
    try apply weighted_ok; try (apply named_member_ok; done);
    try (apply budget_value_ok; first [done | apply in_u64_i128, cents_of_dollars_u64 |
           destruct (head args ≫= as_int); simpl; [apply clamp_u64_i128|done]]).
  - apply member_value_ok; [lit_ok|done|done|].
    destruct (args !! 2%nat ≫= as_int); simpl; [apply clamp_u64_i128|done].
  - apply member_value_ok; [lit_ok|done|done|done].
Qed.

Lemma try_stdlib_ctor_ok name args v : all_ok args → try_stdlib_ctor name args = Some v → value_ok v.
Proof.
  intros Ha. unfold try_stdlib_ctor. pose proof (text_ctor_ok name args) as H1.
  pose proof (swarm_ctor_ok name args) as H2.
  destruct (text_ctor name args), (swarm_ctor name args); simpl; intros [= <-]; auto.
Qed.

Lemma member_field_ok m i v : value_ok m → member_field m i = Some v → value_ok v.
Proof.
  intros Hm. destruct m; try done. simpl. destruct (adt =? MEMBER_TAG); [|done].
  apply value_ok_struct in Hm. intros Hv. by eapply Forall_lookup_1.
Qed.

Lemma member_str_scalar m i : value_ok m → Forall scalar (default [] (str_of (member_field m i))).
Proof.
  intros Hm. destruct (str_of _) as [s|] eqn:E; [|constructor].
  eapply str_of_scalar; [|exact E]. intros v. by apply member_field_ok.
Qed.

Lemma provider_scalar m : value_ok m → Forall scalar (default (lit "unknown") (member_provider m)).
Proof.
  intros Hm. unfold member_provider. destruct (str_of _) as [s|] eqn:E; simpl; [|lit_ok].
  eapply str_of_scalar; [|exact E]. intros v. by apply member_field_ok.
Qed.

Lemma synthesise_reply_scalar p : Forall scalar (synthesise_reply p).
Proof. unfold synthesise_reply. destruct (_ || _); [lit_ok|]. destruct (_ || _); lit_ok. Qed.

(** A reply: its label and body are strings, its cost a machine word. *)
Definition reply_ok (r : Reply) : Prop := Forall scalar r.1.1 ∧ Forall scalar r.1.2 ∧ in_i128 r.2.

Lemma dispatch_member_ok prompt m label body cost errored : value_ok m →
  dispatch_member prompt m = (label, body, cost, errored) → reply_ok (label, body, cost).
Proof.
  intros Hm. unfold dispatch_member.
  pose proof (member_str_scalar m 1 Hm) as H1. pose proof (member_str_scalar m 2 Hm) as H2.
  pose proof (provider_scalar m Hm) as H0.
  revert H1 H2 H0. generalize (default [] (str_of (member_field m 1))). intros name.
  generalize (default [] (str_of (member_field m 2))). intros canned.
  generalize (default (lit "unknown") (member_provider m)). intros prov H1 H2 H0.
  assert (Hl : Forall scalar (if is_provider prov then prov ++ lit ":" ++ name else name)).
  { destruct (is_provider prov); [|done]. rewrite !Forall_app. split_and!; [done|lit_ok|done]. }
  destruct (match member_field m 4 with Some (VBool true) => true | _ => false end).
  { intros [= <- <- <- <-]. split; [exact Hl|]. split; [constructor|done]. }
  intros [= <- <- <- <-]. split; [exact Hl|]. split; simpl.
  - destruct canned; [|done]. destruct (is_provider prov); [apply synthesise_reply_scalar|constructor].
  - destruct (negb _); [apply clamp_u64_i128|]. apply in_u64_i128. unfold in_u64.
    split; [lia|]. apply Z.max_lub; [done|].
    pose proof (as_usize_u64 (str_len prompt)) as Hp. unfold in_u64 in Hp.
    apply Z.le_trans with (as_usize (str_len prompt)); [|lia]. apply Z.div_le_upper_bound; lia.
Qed.

Lemma ask_panel_ok prompt fa limit panel replies consumed :
  all_ok panel → Forall reply_ok replies →
  Forall reply_ok (ask_panel prompt fa limit panel replies consumed).1.1.
Proof.
  intros Hpanel. revert replies consumed. induction Hpanel as [|m panel Hm Hpanel IH];
    intros replies consumed Hr; simpl; [done|].
  destruct (limit <=? consumed); [done|].
  destruct (dispatch_member prompt m) as [[[label body] cost] errored] eqn:E.
  destruct errored; [by apply IH|].
  assert (Hr' : Forall reply_ok (replies ++ [(label, body, cost)])).
  { apply Forall_app. split; [done|]. apply Forall_cons. split; [|done]. by eapply dispatch_member_ok. }
  destruct (fa && _); [done|]. by apply IH.
Qed.

Lemma checked_sum_bound bound l n : 0 < bound → Forall (λ x, 0 <= x) l → checked_sum bound l = Some n → 0 <= n < bound.
Proof.
  intros Hb Hl. unfold checked_sum.
  assert (Hg : ∀ acc, 0 <= acc < bound → foldl (λ a x, a' ← a; if a' + x <? bound then Some (a' + x) else None) (Some acc) l
                = Some n → 0 <= n < bound).
  { induction Hl as [|x l Hx Hl IH]; intros acc Ha; simpl; [by intros [= <-]|].
    destruct (Z.ltb_spec (acc + x) bound); [apply IH; lia|].
    assert (Hn : foldl (λ a x, a' ← a; if a' + x <? bound then Some (a' + x) else None) None l = None)
      by (clear; by induction l). by rewrite Hn. }
  apply Hg. lia.
Qed.

Lemma reply_cost_nonneg r : 0 <= reply_cost r.
Proof.
  destruct r; simpl; try lia. destruct (fields !! 3%nat ≫= as_int); simpl; [|lia].
  unfold clamp_u64, as_usize. apply Z.mod_pos_bound. lia.
Qed.

Lemma strategy_name_scalar n : Forall scalar (strategy_name n).
Proof. destruct n as [|[|[|[|n]]]]; cbn [strategy_name]; lit_ok. Qed.

Lemma consensus_value_ok maj dis reps be name v :
  Forall scalar (default [] maj) → all_ok dis → all_ok reps → Forall scalar name →
  consensus_value maj dis reps be name = Some v → value_ok v.
Proof.
  intros Hm Hd Hr Hn. unfold consensus_value.
  destruct (checked_sum _ _) as [t|] eqn:E; simpl; intros [= <-].
  apply checked_sum_bound in E; [|lia|apply Forall_fmap, Forall_true; intros; apply reply_cost_nonneg].
  apply value_ok_struct. repeat (apply Forall_cons; split); try done.
  - by destruct maj; [apply value_ok_enum, Forall_cons|].
  - by apply value_ok_array.
  - by apply value_ok_array.
  - apply in_u64_i128. unfold in_u64, u64_max. lia.
Qed.

Lemma resolve_scalar strategy weights bodies n maj dis : Forall (Forall scalar) bodies →
  resolve strategy weights bodies n = Some (maj, dis) → Forall scalar (default [] maj).
Proof.
  intros Hb. assert (Hf : ∀ c, Forall scalar (first_body bodies c)).
  { intros c. unfold first_body. destruct (bodies !! _) eqn:E; simpl; [|constructor].
    by eapply Forall_lookup_1 in E. }
  unfold resolve, resolve_unanimous, resolve_first_agreed, resolve_majority, resolve_weighted.
  destruct (_ =? _)%nat.
  { destruct (cluster_bodies bodies) as [|c [|]]; intros [= <- <-]; try constructor. apply Hf. }
  destruct (_ =? _)%nat.
  { destruct (cluster_bodies bodies) as [|c cs]; [intros [= <- <-]; constructor|].
    destruct (mapM _ _); simpl; [|done].
    match goal with |- context [max_by_key ?k ?l] => destruct (max_by_key k l) as [[c' w]|] end; [|done].
    intros [= <- <-]. apply Hf. }
  destruct (_ =? _)%nat.
  { destruct (List.find _ _); intros [= <- <-]; [apply Hf|constructor]. }
  destruct (max_by_key _ _); intros [= <- <-]; [apply Hf|constructor].
Qed.

Lemma run_swarm_ok args v : all_ok args → run_swarm args = Some v → value_ok v.
Proof.
  intros Ha. unfold run_swarm.
  set (prompt := match head args with Some v => as_str v | None => [] end).
  set (panel := match args !! 1%nat with Some (VArray xs) => xs | _ => [] end).
  assert (Hpanel : all_ok panel).
  { subst panel. destruct (args !! 1%nat) as [w|] eqn:E; [|constructor].
    eapply Forall_lookup_1 in E; [|done]. destruct w; try constructor. by apply value_ok_array in E. }
  clearbody prompt panel.
  set (limit := default _ _). clearbody limit.
  destruct (match args !! 3%nat with Some v => strategy_kind v | None => _ end) as [strategy weights].
  pose proof (strategy_name_scalar strategy) as Hn.
  destruct panel as [|m panel]; [apply consensus_value_ok; try done; constructor|].
  pose proof (ask_panel_ok prompt (strategy =? STRAT_FIRST_AGREED)%nat limit (m :: panel) [] 0
                Hpanel ltac:(constructor)) as Hr.
  destruct (ask_panel _ _ _ _ _ _) as [[replies consumed] stopped]. simpl in Hr.
  destruct replies as [|r replies]; [apply consensus_value_ok; try done; constructor|].
  revert Hr. generalize (r :: replies). intros rs Hr.
  destruct (resolve _ _ _ _) as [[maj dis]|] eqn:E; [|done]. cbn [mbind option_bind].
  assert (Hs : all_ok ((λ r : Reply, reply_value r.1.1 r.1.2 0 r.2) <$> rs)).
  { apply Forall_fmap. eapply Forall_impl; [exact Hr|]. intros [[l b] c] (H1 & H2 & H3).
    apply value_ok_struct. repeat (apply Forall_cons; split; [done|]). constructor. }
  apply consensus_value_ok; [|..|done|done].
  - eapply resolve_scalar; [|exact E]. apply Forall_fmap. eapply Forall_impl; [exact Hr|].
    by intros ? (_ & H2 & _).
  - apply Forall_forall. intros x Hx. apply list_elem_of_omap in Hx as (i & _ & Hx).
    by eapply Forall_lookup_1 in Hx.
Qed.
End methods_safe.
