(* ===== verification/IrInterpSafe.v ===== *)
(** * More fuel gives the same result, and runs keep memory well formed

    The fuel-bounded functions of the interpreter are monotone: a result they
    give they also give with more fuel.  [m_le x y] says
    so of two computations: from every machine the first diverges or they agree. *)

From stdpp Require Import base list strings numbers sets.
From S2P Require Import Prelude TyArena IrSyntax IrValue IrMethods IrSwarm IrInterp IrValueSafe IrMethodsSafe.

(** ** The order on results *)

Definition res_le {A} (r s : Res A) : Prop := r = Diverged ∨ r = s.

Lemma res_le_refl {A} (r : Res A) : res_le r r.
Proof. by right. Qed.
#[export] Hint Resolve res_le_refl : res_le.

Lemma res_le_bind {A B} (r s : Res A) (f g : A → Res B) :
  res_le r s → (∀ a, res_le (f a) (g a)) → res_le (r ≫= f) (s ≫= g).
Proof. intros [->| ->] Hf; [by left|]. destruct s as [a| |]; simpl; [apply Hf|by right..]. Qed.

Lemma res_map_le {A B} (f g : A → Res B) l : (∀ a, res_le (f a) (g a)) → res_le (res_map f l) (res_map g l).
Proof.
  intros Hf. induction l as [|x l IH]; [by right|]. simpl. apply res_le_bind; [done|]. intros y.
  apply res_le_bind; [done|]. intros ys. by right.
Qed.

Lemma read_projs_le d d' ps v : (∀ v, res_le (d v) (d' v)) → res_le (read_projs d ps v) (read_projs d' ps v).
Proof.
  intros Hd. revert v. induction ps as [|p ps IH]; intros v; [by right|]. simpl.
  apply res_le_bind; [|done]. destruct p; simpl; auto with res_le.
Qed.

Lemma deref_value_le n n' locals v : (n <= n')%nat → res_le (deref_value n locals v) (deref_value n' locals v).
Proof.
  revert n' v. induction n as [|n IH]; intros n' v Hn.
  - destruct v; simpl; try (by destruct n'; right). by left.
  - destruct n' as [|n']; [lia|]. destruct v; simpl; try by right.
    apply read_projs_le. intros w. apply IH. lia.
Qed.

(** ** The loops, unfolded *)

Section unfolded.
Context `{RustStd} `{Host} (prog : Program).

Definition one_step (n : nat) : M StepOutcome :=
  step prog n (subfn prog (subfn_loop prog n)) (isolated prog (run_loop prog n)).

(** The interpreter after a step of a call's loop. *)
Definition after_step (o : StepOutcome) (i : Interp) : Interp :=
  match o with FrameReturned v => pop_frame (set_last_return v i) | _ => i end.

Lemma subfn_loop_S n d m :
  subfn_loop prog (S n) d m =
  if (length (stack (m_interp m)) =? d)%nat then Ret ((), m)
  else match one_step n m with
       | Ret (Trapped _ _, m1) => Ret ((), mkMachine (truncate d (m_interp m1)) (m_host m1))
       | Ret (o, m1) =>
           let i := after_step o (m_interp m1) in
           if (budget i =? 0)%Z then Ret ((), mkMachine (truncate d i) (m_host m1))
           else subfn_loop prog n d (mkMachine (set_budget (budget i - 1)%Z i) (m_host m1))
       | Panicked => Panicked
       | Diverged => Diverged
       end.
Proof.
  cbn [subfn_loop]. unfold mbind, M_bind, mret, M_ret, reads, upd, one_step.
  destruct (_ =? d)%nat; [done|]. destruct (step _ _ _ _ m) as [[[|v|c msg] m1]| |]; try done.
  - by destruct (_ =? 0)%Z.
  - simpl. by destruct (_ =? 0)%Z.
Qed.

(** The interpreter after the outermost loop saw a frame return. *)
Definition after_return (v : Value) (i : Interp) : Interp :=
  let i := set_last_return v i in
  pop_frame (match stack i with [f] => set_last_frame_locals (Some (f_locals f)) i | _ => i end).

Lemma run_loop_S n m :
  run_loop prog (S n) m =
  let i := m_interp m in
  match stack i with
  | [] => Ret (ROk 0, m)
  | _ =>
      if (budget i =? 0)%Z then Ret (RBudgetExceeded, m)
      else
        let m0 := mkMachine (set_budget (budget i - 1)%Z i) (m_host m) in
        if (0 <? mem_budget i)%Z && (mem_budget i <? mem_used i)%Z
        then Ret (RMemBudgetExceeded (mem_used i) (mem_budget i), m0)
        else match one_step n m0 with
             | Ret (Continue, m1) => run_loop prog n m1
             | Ret (FrameReturned v, m1) =>
                 let j := after_return v (m_interp m1) in
                 match stack j with
                 | [] => Ret (main_exit_for_value v, mkMachine j (m_host m1))
                 | _ => run_loop prog n (mkMachine j (m_host m1))
                 end
             | Ret (Trapped c msg, m1) => Ret (RTrap c msg, m1)
             | Panicked => Panicked
             | Diverged => Diverged
             end
  end.
Proof.
  cbn [run_loop]. unfold mbind, M_bind, mret, M_ret, reads, upd, one_step.
  destruct m as [i h]. simpl. destruct (stack i) as [|t s] eqn:E; [done|].
  destruct (_ =? 0)%Z; [done|]. destruct (_ && _); [done|].
  destruct (step _ _ _ _ _) as [[[|v|c msg] [j h1]]| |]; try done.
  unfold after_return. simpl. by destruct (list.tail _).
Qed.
End unfolded.

Section mono.
Context `{RustStd} `{Host} (prog : Program).

Definition m_le {A} (x y : M A) : Prop := ∀ m, res_le (x m) (y m).

Lemma m_le_refl {A} (x : M A) : m_le x x.
Proof. intros m. by right. Qed.

Lemma m_le_bind {A B} (x y : M A) (f g : A → M B) :
  m_le x y → (∀ a, m_le (f a) (g a)) → m_le (x ≫= f) (y ≫= g).
Proof.
  intros Hx Hf m. unfold mbind, M_bind. destruct (Hx m) as [->| ->]; [by left|].
  destruct (y m) as [[a m']| |]; [apply Hf|by right..].
Qed.

Lemma m_le_reads {A} (f g : Interp → Res A) : (∀ i, res_le (f i) (g i)) → m_le (reads f) (reads g).
Proof. intros Hf m. unfold reads. destruct (Hf (m_interp m)) as [->| ->]; [by left|by right]. Qed.

Lemma eval_operand_le n n' i o : (n <= n')%nat → res_le (eval_operand n i o) (eval_operand n' i o).
Proof.
  intros Hn. unfold eval_operand, read_place, read_locals.
  destruct o; try apply res_le_refl; (apply res_le_bind; [by right|]; intros f;
    apply read_projs_le; intros v; by apply deref_value_le).
Qed.

Lemma operand_le n n' o : (n <= n')%nat → m_le (operand n o) (operand n' o).
Proof. intros Hn. apply m_le_reads. intros i. by apply eval_operand_le. Qed.

Lemma operands_le n n' os : (n <= n')%nat → m_le (operands n os) (operands n' os).
Proof. intros Hn. apply m_le_reads. intros i. apply res_map_le. intros o. by apply eval_operand_le. Qed.

Lemma read_place_le n n' p : (n <= n')%nat → m_le (reads (λ i, read_place n i p)) (reads (λ i, read_place n' i p)).
Proof.
  intros Hn. apply m_le_reads. intros i. apply res_le_bind; [by right|]. intros f.
  apply read_projs_le. intros v. by apply deref_value_le.
Qed.

(** ** A step *)

Section step.
Context (n n' : nat) (Hn : (n <= n')%nat)
  (sub sub' : IrFnId → list Value → M Value) (Hsub : ∀ f args, m_le (sub f args) (sub' f args))
  (iso iso' : IrFnId → Value → list Value → M (RunResult * Value * Value))
  (Hiso : ∀ f s args, m_le (iso f s args) (iso' f s args)).

Ltac mono := repeat first
  [ apply m_le_refl
  | apply m_le_bind; [|intros ?]
  | apply operand_le; exact Hn
  | apply operands_le; exact Hn
  | apply read_place_le; exact Hn
  | apply Hsub | apply Hiso ].

Lemma invoke_handler_le target msg args :
  m_le (invoke_handler prog iso target msg args) (invoke_handler prog iso' target msg args).
Proof.
  destruct target; try apply m_le_refl. unfold invoke_handler. mono.
  destruct (list_find _ _) as [[? [? handler]]|]; mono.
Qed.

Lemma eval_rvalue_le r : m_le (eval_rvalue prog n sub iso r) (eval_rvalue prog n' sub' iso' r).
Proof.
  destruct r; cbn [eval_rvalue]; unfold eval_method_call, spawn_agent; mono.
  - apply m_le_reads. intros i. apply res_le_bind; [by right|]. intros f. by apply deref_value_le.
  - apply invoke_handler_le.
  - apply invoke_handler_le.
Qed.

Lemma exec_stmt_le s : m_le (exec_stmt prog n sub iso s) (exec_stmt prog n' sub' iso' s).
Proof.
  destruct s; cbn [exec_stmt]; mono; [apply eval_rvalue_le|]. destruct a; mono.
Qed.

Lemma exec_term_le t : m_le (exec_term n t) (exec_term n' t).
Proof. destruct t; cbn [exec_term]; mono. Qed.

Lemma step_le : m_le (step prog n sub iso) (step prog n' sub' iso').
Proof.
  unfold step. mono. destruct (b_stmts _ !! _); mono; [apply exec_stmt_le|apply exec_term_le].
Qed.
End step.

Lemma subfn_le loop loop' f args : (∀ d, m_le (loop d) (loop' d)) →
  m_le (subfn prog loop f args) (subfn prog loop' f args).
Proof.
  intros Hl. unfold subfn. repeat (apply m_le_bind; [apply m_le_refl|intros ?]).
  apply m_le_bind; [apply Hl|intros ?]. apply m_le_refl.
Qed.

Lemma isolated_le loop loop' f s args : m_le loop loop' → m_le (isolated prog loop f s args) (isolated prog loop' f s args).
Proof.
  intros Hl m. unfold isolated. destruct (fn_by_id prog f); [|by right].
  match goal with |- context [loop ?x] => destruct (Hl x) as [->| ->] end; [by left|by right].
Qed.

(** ** The loops *)

Lemma loops_le n : ∀ n', (n <= n')%nat →
  m_le (run_loop prog n) (run_loop prog n') ∧ ∀ d, m_le (subfn_loop prog n d) (subfn_loop prog n' d).
Proof.
  induction n as [|n IH]; intros n' Hn.
  { split; [|intros d]; intros m; by left. }
  destruct n' as [|n']; [lia|].
  destruct (IH n' ltac:(lia)) as [IHr IHs].
  assert (Hstep : m_le (step prog n (subfn prog (subfn_loop prog n)) (isolated prog (run_loop prog n)))
                    (step prog n' (subfn prog (subfn_loop prog n')) (isolated prog (run_loop prog n')))).
  { apply step_le; [lia| |]; intros; [by apply subfn_le|by apply isolated_le]. }
  split.
  - cbn [run_loop]. apply m_le_bind; [apply m_le_refl|intros i].
    destruct (stack i); [apply m_le_refl|]. destruct (_ =? _)%Z; [apply m_le_refl|].
    apply m_le_bind; [apply m_le_refl|intros _]. destruct (_ && _); [apply m_le_refl|].
    apply m_le_bind; [done|]. intros [|v|c msg]; [done| |apply m_le_refl].
    repeat (apply m_le_bind; [apply m_le_refl|intros ?]). destruct (stack _); [apply m_le_refl|done].
  - intros d. cbn [subfn_loop]. apply m_le_bind; [apply m_le_refl|intros depth].
    destruct (_ =? _)%nat; [apply m_le_refl|]. apply m_le_bind; [done|].
    intros [|v|c msg]; [| |apply m_le_refl];
      (apply m_le_bind; [apply m_le_refl|intros _]; apply m_le_bind; [apply m_le_refl|intros i];
       destruct (_ =? _)%Z; [apply m_le_refl|]; by apply m_le_bind; [apply m_le_refl|intros _]).
Qed.

Lemma run_loop_le n n' : (n <= n')%nat → m_le (run_loop prog n) (run_loop prog n').
Proof. intros Hn. by apply (loops_le n n'). Qed.

Lemma subfn_call_le n n' f args : (n <= n')%nat →
  m_le (subfn prog (subfn_loop prog n) f args) (subfn prog (subfn_loop prog n') f args).
Proof. intros Hn. apply subfn_le. by apply (loops_le n n'). Qed.
End mono.

(** ** Invariants of the interpreter

    [keeps x Q]: run from a well-formed machine, [x] leaves a well-formed
    machine related to the first ([follows]: the same frames, no more budget,
    no less memory charged, the agents it had) and a result satisfying [Q].
    The lemmas follow the definitions of [IrInterp]. *)

Local Open Scope Z_scope.

(** ** Well-formed programs *)

Section program_ok.
Context (R : Reference → Prop).

Definition operand_ok (o : Operand) : Prop := match o with OConst c => const_ok c | _ => True end.

(** The references a program makes satisfy [R]; its constants are in range. *)
Definition rvalue_ok (r : Rvalue) : Prop :=
  match r with
  | RUse o | RUnOp _ o | RDeref o | RCast o _ | RStrPtr o => operand_ok o
  | RConst c => const_ok c
  | RBinOp _ l r => operand_ok l ∧ operand_ok r
  | RRef m p => ∀ scope, R (mkRef scope (p_local p) (p_proj p) m)
  | RAdtInit _ _ xs | RTupleInit xs | RArrayInit xs | RCall _ xs => Forall operand_ok xs
  | RIndexRead _ i => operand_ok i
  | RMethodCall o _ xs | RSend o _ xs | RAsk o _ xs _ => operand_ok o ∧ Forall operand_ok xs
  | RFieldRead _ _ | RTupleRead _ _ | RAgentSpawn _ _ | RCapValue _ _ => True
  end.

Definition stmt_ok (s : Stmt) : Prop :=
  match s with
  | SAssign _ r => rvalue_ok r
  | SEffectInvoke _ _ xs _ => Forall operand_ok xs
  | _ => True
  end.

Definition term_ok (t : Term) : Prop :=
  match t with
  | TIf o _ _ | TSwitchInt o _ _ | TSwitchVariant o _ _ _ | TReturn o | TPanic o | TTryReturnErr o =>
      operand_ok o
  | _ => True
  end.

Definition block_ok (b : Block) : Prop := Forall stmt_ok (b_stmts b) ∧ term_ok (b_terminator b).
Definition program_ok (p : Program) : Prop := Forall (λ f, Forall block_ok (fn_blocks f)) (fns p).
End program_ok.

(** A host answers with well-formed values. *)
Class HostOk (R : Reference → Prop) `(Host) := {
  effect_call_ok e op args h : Forall (value_ok R) args → value_ok R (effect_call e op args h).1;
  extern_call_ok name args h : Forall (value_ok R) args → value_ok R (extern_call name args h).1;
}.

(** The reference a handler gets to its state. *)
Class PlainRefs (R : Reference → Prop) := plain_ref : ∀ s o m, R (mkRef s o [] m).

Section safe.
Context (R : Reference → Prop) `{!PlainRefs R} `{Hstd : RustStd} `{!RustStdOk Hstd}
  `{Hhost : Host} `{!HostOk R Hhost} (prog : Program) (Hprog : program_ok R prog).
Notation value_ok := (value_ok R).
Notation all_ok := (Forall value_ok).

(** ** Well-formed machines *)

Definition frame_ok (f : Frame) : Prop := all_ok (f_locals f).

Record interp_ok (i : Interp) : Prop := {
  ok_stack : Forall frame_ok (stack i);
  ok_agents : all_ok (agent_states i);
  ok_last : value_ok (last_return i);
  ok_budget : in_u64 (budget i);
  ok_mem : in_u64 (mem_used i);
  ok_snapshot : ∀ ls, last_frame_locals i = Some ls → all_ok ls;
}.

Definition fn_ids (i : Interp) : list IrFnId := f_fn_id <$> stack i.

Record follows (i j : Interp) : Prop := {
  fo_frames : fn_ids j = fn_ids i;
  fo_budget : budget j <= budget i;
  fo_mem : mem_used i <= mem_used j;
  fo_cap : mem_budget j = mem_budget i;
  fo_agents : (length (agent_states i) <= length (agent_states j))%nat;
}.

Lemma follows_refl i : follows i i.
Proof. by split. Qed.
Lemma follows_trans i j k : follows i j → follows j k → follows i k.
Proof. intros [] []. split; try lia; congruence. Qed.

Definition post {A} (r : Res (A * Machine)) (Q : A → Machine → Prop) : Prop :=
  match r with Ret (a, m) => Q a m | _ => True end.

Definition keeps {A} (x : M A) (Q : A → Prop) : Prop :=
  ∀ m, interp_ok (m_interp m) →
    post (x m) (λ a m', interp_ok (m_interp m') ∧ follows (m_interp m) (m_interp m') ∧ Q a).

Lemma keeps_ret {A} (a : A) (Q : A → Prop) : Q a → keeps (mret a) Q.
Proof. intros HQ m Hm. simpl. split; [done|]. split; [apply follows_refl|done]. Qed.

Lemma keeps_bind {A B} (x : M A) (f : A → M B) Q Q' :
  keeps x Q → (∀ a, Q a → keeps (f a) Q') → keeps (x ≫= f) Q'.
Proof.
  intros Hx Hf m Hm. specialize (Hx m Hm). unfold mbind, M_bind.
  destruct (x m) as [[a m']| |]; [|done..]. destruct Hx as (Hm' & Hfo & HQ).
  specialize (Hf a HQ m' Hm'). unfold post in *. destruct (f a m') as [[b m'']| |]; [|done..].
  destruct Hf as (? & ? & ?). split_and!; [done| |done]. by eapply follows_trans.
Qed.

Lemma keeps_weaken {A} (x : M A) (Q Q' : A → Prop) : keeps x Q → (∀ a, Q a → Q' a) → keeps x Q'.
Proof.
  intros Hx HQ m Hm. specialize (Hx m Hm). unfold post in *. destruct (x m) as [[a m']| |]; [|done..].
  destruct Hx as (?&?&?). auto.
Qed.

Lemma keeps_reads {A} (f : Interp → Res A) (Q : A → Prop) :
  (∀ i a, interp_ok i → f i = Ret a → Q a) → keeps (reads f) Q.
Proof.
  intros Hf m Hm. unfold reads. specialize (Hf (m_interp m)).
  destruct (f (m_interp m)) as [a| |]; [|done..]. simpl. split; [done|]. split; [apply follows_refl|auto].
Qed.

Lemma keeps_lift {A} (o : option A) (Q : A → Prop) : (∀ a, o = Some a → Q a) → keeps (lift (of_option o)) Q.
Proof. intros Ho. apply keeps_reads. intros _ a _. destruct o; simpl; [intros [= <-]; auto|done]. Qed.

Lemma keeps_upd (f : Interp → Interp) (Q : () → Prop) :
  Q () → (∀ i, interp_ok i → interp_ok (f i) ∧ follows i (f i)) → keeps (upd f) Q.
Proof. intros HQ Hf m Hm. destruct (Hf _ Hm). done. Qed.

Lemma keeps_on_host {A} (f : HostState → A * HostState) (Q : A → Prop) :
  (∀ h, Q (f h).1) → keeps (on_host f) Q.
Proof.
  intros HQ m Hm. unfold on_host. specialize (HQ (m_host m)). destruct (f (m_host m)) as [a h].
  simpl in *. split; [done|]. split; [apply follows_refl|done].
Qed.

Lemma keeps_tell f (Q : () → Prop) : Q () → keeps (tell f) Q.
Proof. intros HQ. by apply keeps_on_host. Qed.

Lemma set_stack_ok s i : interp_ok i → Forall frame_ok s → f_fn_id <$> s = fn_ids i →
  interp_ok (set_stack s i) ∧ follows i (set_stack s i).
Proof. intros [] Hs Hids. by split; split. Qed.

Lemma keeps_upd_top (f : Frame → Frame) (Q : () → Prop) :
  Q () → (∀ t, frame_ok t → frame_ok (f t) ∧ f_fn_id (f t) = f_fn_id t) → keeps (upd_top f) Q.
Proof.
  intros HQ Hf m Hm. unfold upd_top. pose proof (ok_stack _ Hm) as Hs.
  destruct (stack (m_interp m)) as [|t s] eqn:E; [done|].
  apply Forall_cons in Hs as [Ht Hs].
  destruct (Hf t Ht) as [Hft Hid].
  destruct (set_stack_ok (f t :: s) (m_interp m) Hm) as [H1 H2]; [by apply Forall_cons| |done].
  unfold fn_ids. rewrite E. simpl. by rewrite Hid.
Qed.

Lemma keeps_top (Q : Frame → Prop) : (∀ f, frame_ok f → Q f) → keeps (reads top) Q.
Proof.
  intros HQ. apply keeps_reads. intros i a Hi. unfold top. destruct (stack i) as [|t s] eqn:E; [done|].
  intros [= <-]. apply HQ. pose proof (ok_stack _ Hi) as Hs. rewrite E in Hs. by apply Forall_cons in Hs as [? _].
Qed.

(** ** Places *)

Lemma read_projs_ok d ps v w : (∀ v w, value_ok v → d v = Ret w → value_ok w) → value_ok v →
  read_projs d ps v = Ret w → value_ok w.
Proof.
  intros Hd. revert v. induction ps as [|p ps IH]; intros v Hv; simpl; [by intros [= <-]|].
  destruct (read_one d p v) as [u| |] eqn:E; try done. apply IH.
  destruct p; simpl in E; try (injection E as <-).
  - by apply read_field_ok.
  - by apply read_tuple_ok.
  - by eapply Hd.
  - done.
  - by apply read_variant_field_ok.
Qed.

Lemma deref_value_ok n locals v w : all_ok locals → value_ok v → deref_value n locals v = Ret w → value_ok w.
Proof.
  intros Hl. revert v w. induction n as [|n IH]; intros v w Hv; destruct v; simpl; try (by intros [= <-]).
  apply read_projs_ok; [intros; by eapply IH|by apply all_ok_lookup].
Qed.

Lemma read_place_ok n i p v : interp_ok i → read_place n i p = Ret v → value_ok v.
Proof.
  intros Hi. unfold read_place, top. pose proof (ok_stack _ Hi) as Hs.
  destruct (stack i) as [|f s]; [done|]. apply Forall_cons in Hs as [Hf _]. simpl.
  apply read_projs_ok; [|by apply all_ok_lookup]. intros u w Hu. by apply deref_value_ok.
Qed.

Lemma eval_operand_ok n i o v : interp_ok i → operand_ok o → eval_operand n i o = Ret v → value_ok v.
Proof.
  intros Hi Ho. destruct o; simpl; try by apply read_place_ok.
  destruct (const_to_value c) eqn:E; simpl; intros [= <-]. by eapply const_to_value_ok.
Qed.

Lemma keeps_operand n o : operand_ok o → keeps (operand n o) value_ok.
Proof. intros Ho. apply keeps_reads. intros i v Hi. by apply eval_operand_ok. Qed.

Lemma keeps_operands n os : Forall operand_ok os → keeps (operands n os) all_ok.
Proof.
  intros Ho. apply keeps_reads. intros i vs Hi. revert vs. induction Ho as [|o os Ho Hos IH]; intros vs; simpl.
  - intros [= <-]. constructor.
  - destruct (eval_operand n i o) as [v| |] eqn:E; simpl; try done.
    destruct (res_map (eval_operand n i) os) as [ws| |]; simpl; try done. intros [= <-].
    constructor; [by eapply eval_operand_ok|auto].
Qed.

Lemma keeps_read_place n p : keeps (reads (λ i, read_place n i p)) value_ok.
Proof. apply keeps_reads. intros i v. apply read_place_ok. Qed.

Lemma assign_locals_ok ls p v : all_ok ls → value_ok v → all_ok (assign_locals ls p v).
Proof.
  intros Hl Hv. unfold assign_locals. destruct (ls !! p_local p) as [cur|] eqn:E; [|done].
  assert (Hcur : value_ok cur) by (by eapply Forall_lookup_1).
  destruct (p_proj p) as [|[] rest]; [by apply Forall_insert|..];
    try (apply Forall_insert; [done|]; by apply write_proj_ok).
  destruct cur; try (apply Forall_insert; [done|]; by apply write_proj_ok).
  destruct (ls !! ref_owner r) as [target|] eqn:E'; [|done]. apply Forall_insert; [done|].
  apply write_proj_ok; [|done]. by eapply Forall_lookup_1.
Qed.

Lemma keeps_assign p v : value_ok v → keeps (assign_place p v) (λ _, True).
Proof. intros Hv. apply keeps_upd_top; [done|]. intros t Ht. split; [by apply assign_locals_ok|done]. Qed.

Lemma estimate_nonneg v : 0 <= estimate_value_bytes v.
Proof.
  assert (Hsum : ∀ xs, Forall (λ v, 0 <= estimate_value_bytes v) xs →
            0 <= sum_Z (List.map estimate_value_bytes xs)).
  { induction 1; simpl; lia. }
  induction v using Value_rec'; cbn [estimate_value_bytes]; try lia;
    try (pose proof (Hsum _ ltac:(eassumption)); lia). unfold str_len. lia.
Qed.

Lemma payload_nonneg vs : 0 <= estimate_payload_bytes vs.
Proof.
  unfold estimate_payload_bytes. assert (Hg : ∀ t, 0 <= t →
    0 <= foldl (λ total v, saturating_add total (estimate_value_bytes v)) t vs); [|by apply Hg].
  induction vs as [|v vs IH]; intros t Ht; simpl; [done|]. apply IH.
  unfold saturating_add, u64_max. pose proof (estimate_nonneg v). lia.
Qed.

Lemma keeps_charge bytes : 0 <= bytes → keeps (charge_mem bytes) (λ _, True).
Proof.
  intros Hb m Hm. unfold charge_mem. simpl. split; [|split; [|done]].
  - destruct Hm. split; try done. simpl. unfold in_u64, saturating_add, u64_max in *. lia.
  - destruct (ok_mem _ Hm). split; try done; simpl. unfold saturating_add, u64_max in *. lia.
Qed.

(** ** Builtins *)

Definition sum_ok (r : Value + trap) : Prop := match r with inl v => value_ok v | inr _ => True end.
Definition eval_ok (o : EvalOutcome) : Prop :=
  match o with EValue v => value_ok v | ECallPending _ args => all_ok args | ETrap _ _ => True end.
Definition outcome_ok (o : StepOutcome) : Prop :=
  match o with FrameReturned v => value_ok v | _ => True end.

Lemma keeps_value (x : M Value) : keeps x value_ok → keeps (v ← x; mret (EValue v)) eval_ok.
Proof. intros Hx. eapply keeps_bind; [exact Hx|]. intros v Hv. by apply keeps_ret. Qed.

Lemma keeps_extern name args : all_ok args → keeps (on_host (extern_call name args)) value_ok.
Proof. intros Ha. apply keeps_on_host. intros h. by apply (extern_call_ok (R:=R)). Qed.

Lemma call_builtin_keeps b args : all_ok args → keeps (call_builtin b args) sum_ok.
Proof.
  intros Ha. pose proof (head_ok R _ Ha) as Hh.
  assert (Hx : ∀ name, keeps (v ← on_host (extern_call name args); mret (inl v)) sum_ok).
  { intros name. eapply keeps_bind; [by apply keeps_extern|]. intros v Hv. by apply keeps_ret. }
  assert (Htell : ∀ x : M (), keeps x (λ _, True) → keeps (x;; mret (inl VUnit)) sum_ok).
  { intros x H0. eapply keeps_bind; [exact H0|]. intros _ _. by apply keeps_ret. }
  destruct b; cbn [call_builtin].
  - by apply Htell, keeps_tell.
  - apply Htell. destruct args; [by apply keeps_ret|by apply keeps_tell].
  - eapply (keeps_bind _ _ (λ _, True)); [by apply keeps_tell|]. intros _ _. by apply keeps_ret.
  - by apply keeps_ret.
  - by apply keeps_ret.
  - apply keeps_ret. apply value_ok_enum, Forall_cons. split; [constructor|done].
  - apply keeps_ret. simpl. apply opt_int_i128 with R. intros v Hv. destruct args; [done|].
    injection Hv as <-. by apply Forall_cons in Ha as [? _].
  - by apply keeps_ret.
  - by apply keeps_ret.
  - assert (Hctor : keeps (match try_stdlib_ctor name args with
                           | Some v => mret (inl v)
                           | None => v ← on_host (extern_call name args); mret (inl v) end) sum_ok).
    { destruct (try_stdlib_ctor name args) eqn:E; [|apply Hx]. apply keeps_ret.
      by eapply try_stdlib_ctor_ok. }
    destruct (bool_decide _); [|exact Hctor]. destruct args as [|a [|b [|]]]; try exact Hctor.
    apply keeps_ret. rewrite !Forall_cons in Ha. destruct Ha as (Ha & Hb & _).
    apply Forall_app. split; by apply (as_str_scalar R).
  - apply Hx.
  - apply Hx.
  - eapply keeps_bind; [|intros v Hv; by apply keeps_ret]. apply keeps_lift. intros v.
    by apply run_swarm_ok.
Qed.

(** ** One step *)

Section step.
Context (n : nat) (sub : IrFnId → list Value → M Value)
  (Hsub : ∀ f args, all_ok args → keeps (sub f args) value_ok)
  (iso : IrFnId → Value → list Value → M (RunResult * Value * Value))
  (Hiso : ∀ f s args, value_ok s → all_ok args →
     keeps (iso f s args) (λ r, value_ok r.1.2 ∧ value_ok r.2)).

Lemma set_agents_ok a i : interp_ok i → all_ok a → (length (agent_states i) <= length a)%nat →
  interp_ok (set_agent_states a i) ∧ follows i (set_agent_states a i).
Proof. intros [] Ha Hl. by split; split. Qed.

Lemma invoke_handler_keeps target msg args : all_ok args →
  keeps (invoke_handler prog iso target msg args) value_ok.
Proof.
  intros Ha. destruct target; try by apply keeps_ret. unfold invoke_handler.
  eapply (keeps_bind _ _ (λ _, True)); [by apply keeps_lift|]. intros agent _.
  destruct (list_find _ _) as [[? [? handler]]|]; [|by apply keeps_ret].
  eapply (keeps_bind _ _ value_ok).
  { apply keeps_reads. intros i v Hi. destruct (agent_states i !! _) eqn:E; simpl; intros [= <-].
    eapply Forall_lookup_1; [apply (ok_agents _ Hi)|done]. }
  intros state Hstate. eapply keeps_bind; [by apply Hiso|]. intros [[rr s'] reply] [Hs' Hreply].
  eapply (keeps_bind _ _ (λ _, True)); [|intros _ _; by apply keeps_ret].
  destruct rr; try by apply keeps_ret. apply keeps_upd; [done|]. intros i Hi.
  apply set_agents_ok; [done| |by rewrite length_insert]. apply Forall_insert; [apply (ok_agents _ Hi)|done].
Qed.

Lemma charged_keeps bytes v : 0 <= bytes → value_ok v → keeps (charged bytes v) eval_ok.
Proof.
  intros Hb Hv. eapply keeps_bind; [by apply keeps_charge|]. intros r _. apply keeps_ret.
  by destruct r as [[c m]|].
Qed.

Lemma adt_value_ok adt variant vals : all_ok vals → value_ok (adt_value prog adt variant vals).
Proof.
  intros Hv. unfold adt_value. destruct (adt_by_id prog adt) as [r|]; [destruct (ar_kind r)|];
    by first [apply value_ok_struct | apply value_ok_enum].
Qed.

Lemma spawn_agent_keeps a : keeps (spawn_agent prog sub a) eval_ok.
Proof.
  unfold spawn_agent. eapply (keeps_bind _ _ (λ _, True)); [by apply keeps_lift|]. intros ag _.
  eapply keeps_bind; [by apply Hsub|]. intros state Hs.
  eapply (keeps_bind _ _ (λ _, True)); [by apply keeps_reads|]. intros i _.
  eapply (keeps_bind _ _ (λ _, True)); [|intros _ _; by apply keeps_ret].
  apply keeps_upd; [done|]. intros j Hj.
  destruct (set_agents_ok (agent_states j ++ [state]) j) as [[] []]; [done| | |by split; split].
  - apply Forall_app. split; [apply (ok_agents _ Hj)|by constructor].
  - rewrite length_app. lia.
Qed.

Lemma method_call_keeps o m xs : operand_ok o → Forall operand_ok xs → keeps (eval_method_call n o m xs) eval_ok.
Proof.
  intros Ho Hxs. eapply keeps_bind; [by apply keeps_operand|]. intros rv Hrv.
  eapply keeps_bind; [by apply keeps_operands|]. intros args Hargs.
  assert (Hpure : keeps (v ← lift (of_option (eval_method rv m args)); mret (EValue v)) eval_ok).
  { apply keeps_value. apply keeps_lift. intros v. by apply eval_method_ok. }
  destruct (operand_place o); [|exact Hpure].
  destruct (eval_mutating_method rv m args) as [[next result]|] eqn:E; [|exact Hpure].
  apply (eval_mutating_method_ok R) in E as [H1 H2]; [|done..].
  eapply keeps_bind; [by apply keeps_assign|]. intros _ _. by apply keeps_ret.
Qed.

Lemma eval_rvalue_keeps r : rvalue_ok R r → keeps (eval_rvalue prog n sub iso r) eval_ok.
Proof.
  intros Hr. destruct r; cbn [eval_rvalue]; cbn in Hr;
    try (apply keeps_value; by apply keeps_operand).
  - apply keeps_value, keeps_lift. intros v. by apply const_to_value_ok.
  - destruct Hr as [Hl Hr]. eapply keeps_bind; [by apply keeps_operand|]. intros lv Hlv.
    eapply keeps_bind; [by apply keeps_operand|]. intros rv Hrv. apply keeps_ret.
    destruct (eval_binop op lv rv) as [v|[c m]] eqn:E; [|done]. by apply (eval_binop_ok R op lv rv).
  - eapply keeps_bind; [by apply keeps_operand|]. intros v Hv. apply keeps_value, keeps_lift.
    intros w. by apply eval_unop_ok.
  - eapply (keeps_bind _ _ (λ _, True)); [by apply keeps_top|]. intros f _. apply keeps_ret. apply Hr.
  - eapply keeps_bind; [by apply keeps_operand|]. intros v Hv. apply keeps_value, keeps_reads.
    intros i w Hi. unfold top. pose proof (ok_stack _ Hi) as Hs. destruct (stack i) as [|t s]; [done|].
    apply Forall_cons in Hs as [Ht _]. simpl. by apply deref_value_ok.
  - eapply keeps_bind; [by apply keeps_operands|]. intros vs Hvs. apply charged_keeps; [|by apply adt_value_ok].
    pose proof (payload_nonneg vs). lia.
  - eapply keeps_bind; [by apply keeps_operands|]. intros vs Hvs. apply charged_keeps; [|by apply value_ok_tuple].
    pose proof (payload_nonneg vs). lia.
  - eapply keeps_bind; [by apply keeps_operands|]. intros vs Hvs. apply charged_keeps; [|by apply value_ok_array].
    pose proof (payload_nonneg vs). lia.
  - eapply keeps_bind; [by apply keeps_read_place|]. intros v Hv. apply keeps_ret. by apply read_field_ok.
  - eapply keeps_bind; [by apply keeps_read_place|]. intros v Hv. apply keeps_ret. by apply read_tuple_ok.
  - eapply keeps_bind; [by apply keeps_read_place|]. intros v Hv.
    eapply keeps_bind; [by apply keeps_operand|]. intros iv _. apply keeps_ret. by apply read_index_ok.
  - eapply keeps_bind; [by apply keeps_operands|]. intros vs Hvs. destruct func as [id|b]; [by apply keeps_ret|].
    eapply keeps_bind; [by apply call_builtin_keeps|]. intros [v|[c m]] Hv; by apply keeps_ret.
  - destruct Hr. by apply method_call_keeps.
  - apply spawn_agent_keeps.
  - destruct Hr. eapply keeps_bind; [by apply keeps_operand|]. intros tv _.
    eapply keeps_bind; [by apply keeps_operands|]. intros vs Hvs.
    eapply keeps_bind; [by apply invoke_handler_keeps|]. intros _ _. by apply keeps_ret.
  - destruct Hr. eapply keeps_bind; [by apply keeps_operand|]. intros tv _.
    eapply keeps_bind; [by apply keeps_operands|]. intros vs Hvs.
    apply keeps_value. by apply invoke_handler_keeps.
  - by apply keeps_ret.
  - eapply keeps_bind; [by apply keeps_operand|]. intros v Hv. apply keeps_ret. by apply eval_cast_ok.
Qed.

Lemma exec_stmt_keeps s : stmt_ok R s → keeps (exec_stmt prog n sub iso s) outcome_ok.
Proof.
  assert (Hcont : ∀ (x : M ()), keeps x (λ _, True) → keeps (x;; mret Continue) outcome_ok).
  { intros x Hx. eapply keeps_bind; [exact Hx|]. intros _ _. by apply keeps_ret. }
  intros Hs. destruct s; cbn [exec_stmt]; cbn in Hs; try (by apply keeps_ret).
  - eapply keeps_bind; [by apply eval_rvalue_keeps|]. intros [v|f args|c m] Ho.
    + by apply Hcont, keeps_assign.
    + eapply keeps_bind; [by apply Hsub|]. intros v Hv. by apply Hcont, keeps_assign.
    + by apply keeps_ret.
  - apply Hcont, keeps_upd_top; [done|]. intros t Ht. split; [|done]. by apply Forall_insert.
  - by apply Hcont, keeps_upd_top.
  - by apply Hcont, keeps_upd_top.
  - eapply keeps_bind; [by apply keeps_operands|]. intros vs Hvs.
    eapply (keeps_bind _ _ value_ok).
    { apply keeps_on_host. intros h. by apply (effect_call_ok (R:=R)). }
    intros v Hv. apply Hcont. destruct out; [by apply keeps_assign|by apply keeps_ret].
Qed.

Lemma exec_term_keeps t : term_ok t → keeps (exec_term n t) outcome_ok.
Proof.
  assert (Hgoto : ∀ b, keeps (goto b) outcome_ok).
  { intros b. eapply (keeps_bind _ _ (λ _, True)); [by apply keeps_upd_top|]. intros _ _. by apply keeps_ret. }
  intros Ht. destruct t; cbn [exec_term]; cbn in Ht; try (by apply keeps_ret); try apply Hgoto;
    (eapply keeps_bind; [by apply keeps_operand|]; intros v Hv); try apply Hgoto; try (by apply keeps_ret).
Qed.

Lemma step_keeps : keeps (step prog n sub iso) outcome_ok.
Proof.
  unfold step. eapply (keeps_bind _ _ (λ _, True)); [by apply keeps_top|]. intros f _.
  eapply (keeps_bind _ _ (λ func, Forall (block_ok R) (fn_blocks func))).
  { apply keeps_lift. intros func E. by eapply Forall_lookup_1 in E; [|exact Hprog]. }
  intros func Hfunc. eapply (keeps_bind _ _ (block_ok R)).
  { apply keeps_lift. intros b E. by eapply Forall_lookup_1. }
  intros b [Hstmts Hterm]. destruct (b_stmts b !! f_pc f) as [s|] eqn:E; [|by apply exec_term_keeps].
  eapply (keeps_bind _ _ (λ _, True)); [by apply keeps_upd_top|]. intros _ _. apply exec_stmt_keeps.
  by eapply Forall_lookup_1 in E.
Qed.
End step.

(** ** Frames *)

Lemma initial_locals_ok f args ls : all_ok args → initial_locals_for f args = Ret ls → all_ok ls.
Proof.
  intros Ha. unfold initial_locals_for.
  destruct (replicate _ _) as [|x xs] eqn:E; [done|].
  assert (H0 : all_ok (x :: xs)) by (rewrite <- E; by apply Forall_replicate). revert H0. clear E.
  generalize (x :: xs). clear x xs. generalize (zip (seq 0 (length (fn_params f))) (fn_params f)).
  intros ips ls0. revert ls0. induction ips as [|ip ips IH]; intros ls0 H0; cbn [foldl]; [by intros [= <-]|].
  cbn [mbind Res_bind]. destruct (ip.2 <? length ls0)%nat; [|].
  - apply IH. apply Forall_insert; [done|]. by apply all_ok_lookup.
  - assert (Hp : ∀ l, foldl (λ (acc : Res (list Value)) (ip : nat * nat), l ← acc;
      if (ip.2 <? length l)%nat then Ret (<[ip.2:=default VUnit (args !! ip.1)]> l) else Panicked)
      Panicked l = Panicked) by (clear; by induction l). by rewrite Hp.
Qed.

Lemma handler_locals_ok f s args : value_ok s → all_ok args → all_ok (handler_locals f s args).
Proof.
  intros Hs Ha. unfold handler_locals.
  assert (Hfold : ∀ ips ls, all_ok ls →
    all_ok (foldl (λ ls ip, match args !! ip.1 with Some v => <[ip.2:=v]> ls | None => ls end) ls ips)).
  { intros ips. induction ips as [|ip ips IH]; intros ls Hl; [done|]. cbn [foldl]. apply IH.
    destruct (args !! ip.1) eqn:E; [|done]. apply Forall_insert; [done|]. by apply (Forall_lookup_1 _ args ip.1). }
  apply Hfold. apply Forall_insert; [|done].
  destruct (2 <=? _)%nat; [apply Forall_insert; [by apply Forall_replicate|apply plain_ref]|].
  by apply Forall_replicate.
Qed.

(** [unwinds]: like [follows], with the top frame gone. *)
Record unwinds (i j : Interp) : Prop := {
  un_frames : fn_ids j = tail (fn_ids i);
  un_budget : budget j <= budget i;
  un_mem : mem_used i <= mem_used j;
  un_cap : mem_budget j = mem_budget i;
  un_agents : (length (agent_states i) <= length (agent_states j))%nat;
}.

Lemma follows_unwinds i j k : follows i j → unwinds j k → unwinds i k.
Proof. intros [F1 ? ? ? ?] [U1 ? ? ? ?]. split; try lia; try congruence. Qed.

Lemma length_fn_ids i : length (fn_ids i) = length (stack i).
Proof. apply length_fmap. Qed.

Lemma truncate_unwinds d i : interp_ok i → length (stack i) = S d →
  interp_ok (truncate d i) ∧ unwinds i (truncate d i).
Proof.
  intros [] Hl. unfold truncate. rewrite Hl. replace (S d - d)%nat with 1%nat by lia.
  destruct (stack i) as [|t s] eqn:E; [done|]. simpl.
  apply Forall_cons in ok_stack0 as [_ Hs].
  split; split; try done. unfold fn_ids. by rewrite E.
Qed.

Lemma pop_unwinds v i : interp_ok i → value_ok v →
  interp_ok (pop_frame (set_last_return v i)) ∧ unwinds i (pop_frame (set_last_return v i)).
Proof.
  intros [] Hv. unfold pop_frame. simpl.
  split; split; try done; simpl; [by destruct ok_stack0|]. unfold fn_ids. by destruct (stack i).
Qed.

Lemma spend_ok i : interp_ok i → budget i <> 0 → interp_ok (set_budget (budget i - 1) i).
Proof. intros [] Hb. split; try done. simpl. unfold in_u64 in *. lia. Qed.

(** The loop of a call whose frames are gone. *)
Lemma subfn_loop_done n d m : length (stack (m_interp m)) = d → subfn_loop prog (S n) d m = Ret ((), m).
Proof. intros Hd. by rewrite subfn_loop_S, Hd, Nat.eqb_refl. Qed.

Section loops.
Context (n : nat).
Definition calls_keep : Prop :=
  ∀ d m, interp_ok (m_interp m) → length (stack (m_interp m)) = S d →
    post (subfn_loop prog n d m) (λ _ m', interp_ok (m_interp m') ∧ unwinds (m_interp m) (m_interp m')).
Definition runs_keep : Prop :=
  ∀ m, interp_ok (m_interp m) → post (run_loop prog n m) (λ _ m', interp_ok (m_interp m')).

Lemma push_frame_keeps f args (Q : Machine → Prop) m : all_ok args → interp_ok (m_interp m) →
  (∀ t m', frame_ok t → interp_ok (m_interp m') → f_fn_id t = f →
     stack (m_interp m') = t :: stack (m_interp m) → budget (m_interp m') = budget (m_interp m) →
     mem_used (m_interp m') = mem_used (m_interp m) → mem_budget (m_interp m') = mem_budget (m_interp m) →
     agent_states (m_interp m') = agent_states (m_interp m) → Q m') →
  post (push_call_frame prog f args m) (λ _ m', Q m').
Proof.
  intros Ha Hm HQ. unfold push_call_frame, mbind, M_bind, lift, reads, upd.
  destruct (fn_by_id prog f) as [func|]; simpl; [|done].
  destruct (initial_locals_for func args) as [ls| |] eqn:E; [|done..]. simpl.
  apply (initial_locals_ok _ _ _ Ha) in E.
  apply HQ with (t := Frame_new f ls (next_scope (m_interp m)) (fn_entry func)); try done.
  destruct Hm. split; try done. simpl. by apply Forall_cons.
Qed.

Lemma subfn_keeps (Hcalls : calls_keep) f args : all_ok args →
  keeps (subfn prog (subfn_loop prog n) f args) value_ok.
Proof.
  intros Ha m Hm. unfold subfn.
  pose proof (push_frame_keeps f args (λ m', post
    ((saved_return ← reads (λ i, Ret (last_return i));
      upd (set_last_return VUnit);;
      subfn_loop prog n (length (stack (m_interp m)));;
      result ← reads (λ i, Ret (last_return i));
      upd (set_last_return saved_return);; mret result) m')
    (λ a m', interp_ok (m_interp m') ∧ follows (m_interp m) (m_interp m') ∧ value_ok a)) m Ha Hm) as Hp.
  unfold mbind, M_bind in *. unfold reads in *. simpl.
  destruct (push_call_frame prog f args m) as [[[] m1]| |]; [|done..]. simpl in Hp. apply Hp.
  intros t m' Ht Hm' Hid Hstack Hb Hmem Hcap Hag. simpl.
  set (m2 := mkMachine (set_last_return VUnit (m_interp m')) (m_host m')).
  assert (Hm2 : interp_ok (m_interp m2)) by (by destruct Hm'; split).
  specialize (Hcalls (length (stack (m_interp m))) m2 Hm2). simpl in Hcalls. rewrite Hstack in Hcalls.
  specialize (Hcalls eq_refl). fold m2.
  destruct (subfn_loop prog n _ m2) as [[[] m3]| |]; [|done..]. simpl in Hcalls |- *.
  destruct Hcalls as [Hm3 [U1 U2 U3 U4 U5]]. simpl in *. destruct Hm3 as [Ok1 Ok2 Ok3 Ok4 Ok5 Ok6].
  split; [|split; [|exact Ok3]].
  - split; try done. apply (ok_last _ Hm').
  - split; simpl; try lia; try congruence.
    change (fn_ids (set_last_return (last_return (m_interp m')) (m_interp m3))) with (fn_ids (m_interp m3)).
      rewrite U1. unfold fn_ids. simpl. by rewrite Hstack.
Qed.

Lemma isolated_keeps (Hruns : runs_keep) f s args : value_ok s → all_ok args →
  keeps (isolated prog (run_loop prog n) f s args) (λ r, value_ok r.1.2 ∧ value_ok r.2).
Proof.
  intros Hs Ha m Hm. unfold isolated. destruct (fn_by_id prog f) as [func|]; [|done].
  set (m1 := mkMachine _ (m_host m)). specialize (Hruns m1).
  assert (Hm1 : interp_ok (m_interp m1)).
  { split; try done; simpl. by repeat constructor; apply handler_locals_ok. }
  specialize (Hruns Hm1). destruct (run_loop prog n m1) as [[rr m2]| |]; [|done..]. simpl in *.
  split; [done|]. split; [apply follows_refl|]. split; [|apply (ok_last _ Hruns)].
  destruct (last_frame_locals (m_interp m2)) as [ls|] eqn:E; simpl; [|done].
  apply all_ok_lookup. by apply (ok_snapshot _ Hruns).
Qed.
End loops.

Lemma after_return_ok v i : interp_ok i → value_ok v → interp_ok (after_return v i).
Proof.
  intros Hi Hv. unfold after_return.
  assert (Hi2 : interp_ok (set_last_return v i)) by (destruct Hi; by split).
  set (j := match stack _ with [f] => _ | _ => _ end).
  assert (Hj : interp_ok j).
  { subst j. pose proof (ok_stack _ Hi2) as Hst.
    destruct (stack (set_last_return v i)) as [|f [|]]; [done| |done].
    apply Forall_cons in Hst as [Hf _]. destruct Hi2. split; try done. by intros ls [= <-]. }
  destruct Hj. split; try done. simpl. by destruct ok_stack0.
Qed.

Lemma calls_keep_S n : calls_keep n → keeps (one_step prog n) outcome_ok → calls_keep (S n).
Proof.
  intros IHc Hstep d m Hm Hl. rewrite subfn_loop_S, Hl.
  replace (S d =? d)%nat with false by (symmetry; apply Nat.eqb_neq; lia).
  specialize (Hstep m Hm). destruct (one_step prog n m) as [[o m1]| |]; [|done..].
  destruct Hstep as (Hm1 & Hfo & Ho).
  assert (Hl1 : length (stack (m_interp m1)) = S d).
  { rewrite <- length_fn_ids, (fo_frames _ _ Hfo), length_fn_ids. done. }
  destruct o as [|v|c msg]; cbn [after_step]; cbv zeta.
  - destruct (Z.eqb_spec (budget (m_interp m1)) 0) as [Hb|Hb].
    { destruct (truncate_unwinds d _ Hm1 Hl1) as [H1 H2]. split; [done|]. by eapply follows_unwinds. }
    set (m2 := mkMachine _ (m_host m1)). specialize (IHc d m2 (spend_ok _ Hm1 Hb) Hl1).
    unfold post in *. destruct (subfn_loop prog n d m2) as [[[] m3]| |]; [|done..].
    destruct IHc as [Hm3 Hu]. split; [done|]. eapply follows_unwinds; [exact Hfo|].
    destruct Hu as [U1 U2 U3 U4 U5]. split; try done. simpl in U2. lia.
  - destruct (pop_unwinds v _ Hm1 Ho) as [H1 H2].
    set (i2 := pop_frame _) in *. assert (Hl2 : length (stack i2) = d).
    { rewrite <- length_fn_ids, (un_frames _ _ H2), length_tl, length_fn_ids. lia. }
    destruct (Z.eqb_spec (budget i2) 0) as [Hb|Hb].
    { replace (truncate d i2) with i2; [split; [done|by eapply follows_unwinds]|].
      unfold truncate. rewrite Hl2, Nat.sub_diag. by destruct i2. }
    destruct n as [|n']; [done|]. rewrite subfn_loop_done by exact Hl2.
    split; [by apply (spend_ok i2)|]. eapply follows_unwinds; [exact Hfo|].
    destruct H2 as [U1 U2 U3 U4 U5]. split; try done. simpl. lia.
  - destruct (truncate_unwinds d _ Hm1 Hl1) as [H1 H2]. split; [done|]. by eapply follows_unwinds.
Qed.

Lemma runs_keep_S n : runs_keep n → keeps (one_step prog n) outcome_ok → runs_keep (S n).
Proof.
  intros IHr Hstep m Hm. rewrite run_loop_S. cbv zeta.
  destruct (stack (m_interp m)) as [|t s] eqn:Es; [done|].
  destruct (Z.eqb_spec (budget (m_interp m)) 0) as [Hb|Hb]; [done|].
  pose proof (spend_ok _ Hm Hb) as Hm0.
  destruct (_ && _); [done|].
  set (m0 := mkMachine _ (m_host m)). specialize (Hstep m0 Hm0).
  destruct (one_step prog n m0) as [[o m1]| |]; [|done..]. destruct Hstep as (Hm1 & Hfo & Ho).
  destruct o as [|v|c msg]; [by apply IHr| |done].
  pose proof (after_return_ok v _ Hm1 Ho) as Hj.
  destruct (stack (after_return v (m_interp m1))); [done|]. by apply IHr.
Qed.

Lemma loops_keep n : calls_keep n ∧ runs_keep n.
Proof.
  induction n as [|n [IHc IHr]]; [by split; intros ?|].
  assert (Hstep : keeps (one_step prog n) outcome_ok).
  { apply step_keeps; intros; [by apply subfn_keeps|by apply isolated_keeps]. }
  split; [by apply calls_keep_S|by apply runs_keep_S].
Qed.

Lemma one_step_keeps n : keeps (one_step prog n) outcome_ok.
Proof.
  destruct (loops_keep n) as [IHc IHr].
  apply step_keeps; intros; [by apply subfn_keeps|by apply isolated_keeps].
Qed.
End safe.
