(* ===== verification/IrInterpTotal.v ===== *)
(** * Programs without recursion return

    A program is [stratified] when a rank decreases along its calls: the
    functions a function calls, the constructors of the agents it spawns and
    the handlers of the messages it sends have smaller ranks.  From a
    well-formed machine whose references do not lead through references every
    run of such a program returns, whatever the budget: [total x Q] is [keeps]
    for a family of computations that some fuel lets return. *)

From stdpp Require Import base list strings numbers sets.
From S2P Require Import Prelude TyArena IrSyntax IrValue IrMethods IrSwarm IrInterp IrInterpSafe IrValueSafe IrMethodsSafe.

Local Open Scope Z_scope.

(** A reference that does not lead through another one. *)
Definition flat (r : Reference) : Prop := PDeref ∉ ref_proj r.

#[export] Instance flat_plain : PlainRefs flat.
Proof. intros s o m. apply not_elem_of_nil. Qed.

(** ** Stratified programs *)

Definition calls_below (prog : Program) (below : IrFnId → Prop) (r : Rvalue) : Prop :=
  match r with
  | RCall (User id) _ => below id
  | RAgentSpawn a _ => ∀ ag, agent_by_id prog a = Some ag → below (ag_ctor ag)
  | RSend _ msg _ | RAsk _ msg _ _ =>
      ∀ ag handler, ag ∈ agents prog → (msg, handler) ∈ ag_handlers ag → below handler
  | _ => True
  end.

Definition stmt_below (prog : Program) (below : IrFnId → Prop) (s : Stmt) : Prop :=
  match s with SAssign _ r => calls_below prog below r | _ => True end.

Definition stratified (prog : Program) (rank : IrFnId → nat) : Prop :=
  ∀ id f b s, fn_by_id prog id = Some f → b ∈ fn_blocks f → s ∈ b_stmts b →
    stmt_below prog (λ id', (rank id' < rank id)%nat) s.

Section total.
Context `{Hstd : RustStd} `{!RustStdOk Hstd} `{Hhost : Host} `{!HostOk flat Hhost}
  (prog : Program) (Hprog : program_ok flat prog).
Notation value_ok := (value_ok flat).
Notation all_ok := (Forall value_ok).
Notation interp_ok := (interp_ok flat).
Notation keeps := (keeps flat).

Record total {A} (x : nat → M A) (Q : A → Prop) : Prop := {
  t_mono : ∀ n n' m, (n <= n')%nat → interp_ok (m_interp m) → res_le (x n m) (x n' m);
  t_keeps : ∀ n, keeps (x n) Q;
  t_returns : ∀ m, interp_ok (m_interp m) → ∃ n, x n m <> Diverged;
}.

Lemma total_bind {A B} (x : nat → M A) (f : nat → A → M B) Q Q' :
  total x Q → (∀ a, Q a → total (λ n, f n a) Q') → total (λ n, x n ≫= f n) Q'.
Proof.
  intros Hx Hf.
  assert (Hk : ∀ n m a m', interp_ok (m_interp m) → x n m = Ret (a, m') → interp_ok (m_interp m') ∧ Q a).
  { intros n m a m' Hm E. pose proof (t_keeps _ _ Hx n m Hm) as Hk. rewrite E in Hk. by destruct Hk as (?&?&?). }
  split.
  - intros n n' m Hn Hm. unfold mbind, M_bind. destruct (t_mono _ _ Hx n n' m Hn Hm) as [->|E]; [by left|].
    rewrite E. destruct (x n' m) as [[a m']| |] eqn:E'; [|by right..].
    destruct (Hk _ _ _ _ Hm E') as [Hm' Ha]. by apply (t_mono _ _ (Hf a Ha)).
  - intros n. eapply keeps_bind; [apply (t_keeps _ _ Hx)|]. intros a Ha. by apply (t_keeps _ _ (Hf a Ha)).
  - intros m Hm. destruct (t_returns _ _ Hx m Hm) as [n1 Hn1].
    destruct (x n1 m) as [[a m']| |] eqn:E; [| |done].
    + destruct (Hk _ _ _ _ Hm E) as [Hm' Ha]. destruct (t_returns _ _ (Hf a Ha) m' Hm') as [n2 Hn2].
      exists (n1 + n2)%nat. unfold mbind, M_bind.
      destruct (t_mono _ _ Hx n1 (n1 + n2)%nat m ltac:(lia) Hm) as [E'|<-]; [congruence|]. rewrite E.
      destruct (t_mono _ _ (Hf a Ha) n2 (n1 + n2)%nat m' ltac:(lia) Hm') as [E'|<-]; [congruence|done].
    + exists n1. unfold mbind, M_bind. by rewrite E.
Qed.

Lemma total_const {A} (x : M A) Q : keeps x Q → (∀ m, interp_ok (m_interp m) → x m <> Diverged) →
  total (λ _, x) Q.
Proof. intros Hk Hx. split; [intros; apply res_le_refl|done|]. intros m Hm. exists 0%nat. by apply Hx. Qed.

Lemma total_ret {A} (a : A) (Q : A → Prop) : Q a → total (λ _, mret a) Q.
Proof. intros Ha. by apply total_const; [apply keeps_ret|]. Qed.

(** ** Reading *)

Lemma read_projs_flat d ps v : PDeref ∉ ps → read_projs d ps v <> Diverged.
Proof.
  revert v. induction ps as [|p ps IH]; intros v Hps; [done|].
  apply not_elem_of_cons in Hps as [Hp Hps]. destruct p; simpl; try by apply IH. done.
Qed.

Lemma deref_returns n locals v : value_ok v → deref_value (S n) locals v <> Diverged.
Proof. intros Hv. destruct v; try done. simpl. by apply read_projs_flat. Qed.

Lemma read_projs_returns d ps v :
  (∀ v, value_ok v → d v <> Diverged) → (∀ v w, value_ok v → d v = Ret w → value_ok w) →
  value_ok v → read_projs d ps v <> Diverged.
Proof.
  intros Hd Hok. revert v. induction ps as [|p ps IH]; intros v Hv; [done|]. simpl.
  assert (H1 : read_one d p v <> Diverged) by (destruct p; simpl; auto).
  destruct (read_one d p v) as [w| |] eqn:E; simpl; [|done..]. apply IH.
  apply (read_projs_ok flat d [p] v w Hok Hv). simpl. by rewrite E.
Qed.

Lemma read_place_returns n i p : interp_ok i → read_place (S n) i p <> Diverged.
Proof.
  intros Hi. unfold read_place, top. pose proof (ok_stack _ _ Hi) as Hs.
  destruct (stack i) as [|f s]; [done|]. apply Forall_cons in Hs as [Hf _].
  unfold read_locals. simpl of_option. cbn [mbind Res_bind].
  apply read_projs_returns; [|..|by apply all_ok_lookup].
  - intros v Hv. by apply deref_returns.
  - intros v w Hv. by apply deref_value_ok.
Qed.

Lemma operand_returns n i o : interp_ok i → eval_operand (S n) i o <> Diverged.
Proof.
  intros Hi. destruct o; [by apply read_place_returns..|]. simpl. by destruct (const_to_value c).
Qed.

Lemma total_reads {A} (f : nat → Interp → Res A) (Q : A → Prop) :
  (∀ n n' i, (n <= n')%nat → res_le (f n i) (f n' i)) → (∀ n, keeps (reads (f n)) Q) →
  (∀ i, interp_ok i → f 1%nat i <> Diverged) → total (λ n, reads (f n)) Q.
Proof.
  intros Hm Hk Hr. split; [|done|].
  - intros n n' m Hn _. apply m_le_reads. intros i. by apply Hm.
  - intros m Hi. exists 1%nat. unfold reads. specialize (Hr _ Hi). by destruct (f 1%nat (m_interp m)).
Qed.

Lemma total_operand o : operand_ok o → total (λ n, operand n o) value_ok.
Proof.
  intros Ho. apply total_reads.
  - intros. by apply eval_operand_le.
  - intros n. by apply keeps_operand.
  - intros i Hi. by apply operand_returns.
Qed.

Lemma total_operands os : Forall operand_ok os → total (λ n, operands n os) all_ok.
Proof.
  intros Ho. apply total_reads.
  - intros. apply res_map_le. intros. by apply eval_operand_le.
  - intros n. by apply keeps_operands.
  - intros i Hi. clear Ho. induction os as [|o os IH]; [done|]. simpl.
    pose proof (operand_returns 0 i o Hi) as H1.
    destruct (eval_operand 1 i o); simpl; [|done..]. by destruct (res_map _ os).
Qed.

Lemma total_read_place p : total (λ n, reads (λ i, read_place n i p)) value_ok.
Proof.
  apply total_reads.
  - intros n n' i Hn. unfold read_place. apply res_le_bind; [by right|]. intros f.
    apply read_projs_le. intros v. by apply deref_value_le.
  - intros n. apply keeps_read_place.
  - intros i Hi. by apply read_place_returns.
Qed.

Lemma total_lift {A} (o : option A) (Q : A → Prop) : (∀ a, o = Some a → Q a) → total (λ _, lift (of_option o)) Q.
Proof. intros Ho. apply total_const; [by apply keeps_lift|]. intros m _. by destruct o. Qed.

Lemma total_upd_top (f : Frame → Frame) :
  (∀ t, frame_ok flat t → frame_ok flat (f t) ∧ f_fn_id (f t) = f_fn_id t) →
  total (λ _, upd_top f) (λ _, True).
Proof.
  intros Hf. apply total_const; [by apply keeps_upd_top|]. intros m _. unfold upd_top.
  by destruct (stack (m_interp m)).
Qed.

Lemma total_assign p v : value_ok v → total (λ _, assign_place p v) (λ _, True).
Proof. intros Hv. apply total_upd_top. intros t Ht. split; [by apply assign_locals_ok|done]. Qed.

Lemma total_host {A} (f : HostState → A * HostState) (Q : A → Prop) :
  (∀ h, Q (f h).1) → total (λ _, on_host f) Q.
Proof.
  intros HQ. apply total_const; [by apply keeps_on_host|]. intros m _. unfold on_host. by destruct (f _).
Qed.

Lemma total_top : total (λ _, reads top) (frame_ok flat).
Proof.
  apply total_const; [by apply keeps_top|]. intros m _. unfold reads, top.
  by destruct (stack (m_interp m)).
Qed.

Lemma total_builtin b args : all_ok args → total (λ _, call_builtin b args) (sum_ok flat).
Proof.
  intros Ha. apply total_const; [by apply call_builtin_keeps|]. intros m _.
  destruct b; cbn [call_builtin]; try done.
  - by destruct args.
  - destruct (bool_decide _), args as [|x [|y [|z l]]]; try done;
      destruct (try_stdlib_ctor _ _); try done; unfold mbind, M_bind, on_host; by destruct (extern_call _ _ _).
  - unfold mbind, M_bind, on_host. by destruct (extern_call _ _ _).
  - unfold mbind, M_bind, on_host. by destruct (extern_call _ _ _).
  - unfold mbind, M_bind, lift, reads. by destruct (run_swarm args).
Qed.

Lemma total_value (x : nat → M Value) : total x value_ok → total (λ n, v ← x n; mret (EValue v)) (eval_ok flat).
Proof. intros Hx. eapply total_bind; [exact Hx|]. intros v Hv. by apply total_ret. Qed.

(** ** One step *)

Section step.
Context (below : IrFnId → Prop) (sub : nat → IrFnId → list Value → M Value)
  (Hsub : ∀ f args, below f → all_ok args → total (λ n, sub n f args) value_ok)
  (iso : nat → IrFnId → Value → list Value → M (RunResult * Value * Value))
  (Hiso : ∀ f s args, below f → value_ok s → all_ok args →
     total (λ n, iso n f s args) (λ r, value_ok r.1.2 ∧ value_ok r.2)).

Lemma total_handler target msg args : all_ok args →
  (∀ ag handler, ag ∈ agents prog → (msg, handler) ∈ ag_handlers ag → below handler) →
  total (λ n, invoke_handler prog (iso n) target msg args) value_ok.
Proof.
  intros Ha Hb. destruct target; try by apply total_ret. unfold invoke_handler.
  eapply (total_bind _ _ (λ ag, ag ∈ agents prog)).
  { apply total_lift. intros ag. apply list_elem_of_lookup_2. }
  intros ag Hag. destruct (list_find _ _) as [[i [name handler]]|] eqn:E; [|by apply total_ret].
  apply list_find_Some in E as (E & Hname & _). simpl in Hname. subst name.
  apply list_elem_of_lookup_2 in E.
  eapply (total_bind _ _ value_ok).
  { apply total_const.
    - apply keeps_reads. intros j v Hj. destruct (agent_states j !! _) eqn:E'; simpl; intros [= <-].
      eapply Forall_lookup_1; [apply (ok_agents _ _ Hj)|done].
    - intros m _. unfold reads. by destruct (agent_states _ !! _). }
  intros state Hstate. eapply total_bind; [apply Hiso; [by eapply Hb|done..]|].
  intros [[rr s'] reply] [Hs' Hreply].
  eapply (total_bind _ _ (λ _, True)); [|intros _ _; by apply total_ret].
  destruct rr; try by apply total_ret. apply total_const; [|done].
  apply keeps_upd; [done|]. intros j Hj.
  apply set_agents_ok; [done| |by rewrite length_insert]. apply Forall_insert; [apply (ok_agents _ _ Hj)|done].
Qed.

Lemma total_charged bytes v : 0 <= bytes → value_ok v → total (λ _, charged bytes v) (eval_ok flat).
Proof. intros Hb Hv. by apply total_const; [apply charged_keeps|]. Qed.

Lemma total_method o m xs : operand_ok o → Forall operand_ok xs →
  total (λ n, eval_method_call n o m xs) (eval_ok flat).
Proof.
  intros Ho Hxs. eapply total_bind; [by apply total_operand|]. intros rv Hrv.
  eapply total_bind; [by apply total_operands|]. intros args Hargs.
  assert (Hpure : total (λ _, v ← lift (of_option (eval_method rv m args)); mret (EValue v)) (eval_ok flat)).
  { apply total_value, total_lift. intros v. by apply eval_method_ok. }
  destruct (operand_place o); [|exact Hpure].
  destruct (eval_mutating_method rv m args) as [[next result]|] eqn:E; [|exact Hpure].
  apply (eval_mutating_method_ok flat) in E as [H1 H2]; [|done..].
  eapply total_bind; [by apply total_assign|]. intros _ _. by apply total_ret.
Qed.

Lemma total_spawn a : (∀ ag, agent_by_id prog a = Some ag → below (ag_ctor ag)) →
  total (λ n, spawn_agent prog (sub n) a) (eval_ok flat).
Proof.
  intros Hb. unfold spawn_agent. eapply (total_bind _ _ (λ ag, below (ag_ctor ag))); [by apply total_lift|].
  intros ag Hag. eapply total_bind; [by apply Hsub|]. intros state Hs.
  apply total_const.
  - eapply (keeps_bind _ _ _ (λ _, True)); [by apply keeps_reads|]. intros i _.
    eapply (keeps_bind _ _ _ (λ _, True)); [|intros _ _; by apply keeps_ret].
    apply keeps_upd; [done|]. intros j Hj.
    destruct (set_agents_ok flat (agent_states j ++ [state]) j) as [[] []]; [done| | |by split; split].
    + apply Forall_app. split; [apply (ok_agents _ _ Hj)|by constructor].
    + rewrite length_app. lia.
  - intros m _. done.
Qed.

Lemma total_rvalue r : rvalue_ok flat r → calls_below prog below r →
  total (λ n, eval_rvalue prog n (sub n) (iso n) r) (eval_ok flat).
Proof.
  intros Hr Hb. destruct r; cbn [eval_rvalue]; cbn in Hr, Hb;
    try (apply total_value; by apply total_operand).
  - apply total_value, total_lift. intros v. by apply const_to_value_ok.
  - destruct Hr as [Hl Hr]. eapply total_bind; [by apply total_operand|]. intros lv Hlv.
    eapply total_bind; [by apply total_operand|]. intros rv Hrv. apply total_ret.
    destruct (eval_binop op lv rv) as [v|[c m]] eqn:E; [|done]. by apply (eval_binop_ok flat op lv rv).
  - eapply total_bind; [by apply total_operand|]. intros v Hv. apply total_value, total_lift.
    intros w. by apply eval_unop_ok.
  - eapply total_bind; [apply total_top|]. intros f _. apply total_ret. apply Hr.
  - eapply total_bind; [by apply total_operand|]. intros v Hv. apply total_value, total_reads.
    + intros n n' i Hn. apply res_le_bind; [by right|]. intros f. by apply deref_value_le.
    + intros n. apply keeps_reads. intros i w Hi. unfold top. pose proof (ok_stack _ _ Hi) as Hs.
      destruct (stack i) as [|t s]; [done|]. apply Forall_cons in Hs as [Ht _]. simpl. by apply deref_value_ok.
    + intros i Hi. unfold top. destruct (stack i); [done|]. by apply deref_returns.
  - eapply total_bind; [by apply total_operands|]. intros vs Hvs. apply total_charged; [|by apply adt_value_ok].
    pose proof (payload_nonneg vs). lia.
  - eapply total_bind; [by apply total_operands|]. intros vs Hvs. apply total_charged; [|by apply value_ok_tuple].
    pose proof (payload_nonneg vs). lia.
  - eapply total_bind; [by apply total_operands|]. intros vs Hvs. apply total_charged; [|by apply value_ok_array].
    pose proof (payload_nonneg vs). lia.
  - eapply total_bind; [by apply total_read_place|]. intros v Hv. apply total_ret. by apply read_field_ok.
  - eapply total_bind; [by apply total_read_place|]. intros v Hv. apply total_ret. by apply read_tuple_ok.
  - eapply total_bind; [by apply total_read_place|]. intros v Hv.
    eapply total_bind; [by apply total_operand|]. intros iv _. apply total_ret. by apply read_index_ok.
  - eapply total_bind; [by apply total_operands|]. intros vs Hvs. destruct func as [id|b]; [by apply total_ret|].
    eapply total_bind; [by apply total_builtin|]. intros [v|[c m]] Hv; by apply total_ret.
  - destruct Hr. by apply total_method.
  - by apply total_spawn.
  - destruct Hr. eapply total_bind; [by apply total_operand|]. intros tv _.
    eapply total_bind; [by apply total_operands|]. intros vs Hvs.
    eapply total_bind; [by apply total_handler|]. intros _ _. by apply total_ret.
  - destruct Hr. eapply total_bind; [by apply total_operand|]. intros tv _.
    eapply total_bind; [by apply total_operands|]. intros vs Hvs.
    apply total_value. by apply total_handler.
  - by apply total_ret.
  - eapply total_bind; [by apply total_operand|]. intros v Hv. apply total_ret. by apply eval_cast_ok.
Qed.

(** Only a call of a user function leaves a call pending. *)
Definition settled (o : EvalOutcome) : Prop := match o with ECallPending _ _ => False | _ => True end.
Definition yields {A} (x : M A) (Q : A → Prop) : Prop := ∀ m, post (x m) (λ a _, Q a).

Lemma yields_bind {A B} (x : M A) (f : A → M B) Q : (∀ a, yields (f a) Q) → yields (x ≫= f) Q.
Proof.
  intros Hf m. unfold mbind, M_bind. destruct (x m) as [[a m']| |]; [|done..]. apply Hf.
Qed.

Lemma rvalue_settled n s i r : match r with RCall (User _) _ => False | _ => True end →
  yields (eval_rvalue prog n s i r) settled.
Proof.
  intros Hr. destruct r; cbn [eval_rvalue]; unfold eval_method_call, spawn_agent, charged;
    repeat (apply yields_bind; intros ?); try (intros ?; done).
  - intros m. unfold of_trap. by destruct (eval_binop _ _ _) as [?|[? ?]].
  - intros m. by destruct a0 as [[? ?]|].
  - intros m. by destruct a0 as [[? ?]|].
  - intros m. by destruct a0 as [[? ?]|].
  - destruct func; [done|]. apply yields_bind. intros r m. by destruct r as [?|[? ?]].
  - destruct (operand_place _); [destruct (eval_mutating_method _ _ _) as [[? ?]|]|];
      apply yields_bind; by intros ? m.
Qed.

Lemma total_and {A} (x : nat → M A) Q Q' : total x Q → (∀ n, yields (x n) Q') → total x (λ a, Q a ∧ Q' a).
Proof.
  intros [H1 H2 H3] Hy. split; [done| |done]. intros n m Hm. specialize (H2 n m Hm). specialize (Hy n m).
  destruct (x n m) as [[a m']| |]; [|done..]. by destruct H2 as (?&?&?).
Qed.

Lemma total_cont {A} (x : nat → M A) Q : total x Q → total (λ n, x n;; mret Continue) (outcome_ok flat).
Proof. intros Hx. eapply total_bind; [exact Hx|]. intros _ _. by apply total_ret. Qed.

Lemma total_assign_stmt p r : rvalue_ok flat r → calls_below prog below r →
  total (λ n, exec_stmt prog n (sub n) (iso n) (SAssign p r)) (outcome_ok flat).
Proof.
  intros Hr Hb. cbn [exec_stmt].
  assert (Hcase : (∃ id xs, r = RCall (User id) xs) ∨
                  match r with RCall (User _) _ => False | _ => True end).
  { destruct r; try by right. destruct func; [left; eauto|by right]. }
  destruct Hcase as [(id & xs & ->)|Hn].
  - cbn [eval_rvalue]. eapply (total_bind _ _ (λ o, ∃ vs, o = ECallPending id vs ∧ all_ok vs)).
    { eapply total_bind; [by apply total_operands|]. intros vs Hvs. apply total_ret. eauto. }
    intros o (vs & -> & Hvs). eapply total_bind; [by apply Hsub|]. intros v Hv.
    by eapply total_cont, total_assign.
  - eapply total_bind; [apply total_and; [by apply total_rvalue|intros n; by apply rvalue_settled]|].
    intros [v|f args|c m] [Ho Hs]; [by eapply total_cont, total_assign|done|by apply total_ret].
Qed.

Lemma total_stmt s : stmt_ok flat s → stmt_below prog below s →
  total (λ n, exec_stmt prog n (sub n) (iso n) s) (outcome_ok flat).
Proof.
  intros Hs Hb. destruct s; try (by apply total_assign_stmt); cbn [exec_stmt]; cbn in Hs;
    try (by apply total_ret).
  - eapply total_cont, total_upd_top. intros t Ht. split; [|done]. by apply Forall_insert.
  - by eapply total_cont, total_upd_top.
  - by eapply total_cont, total_upd_top.
  - eapply total_bind; [by apply total_operands|]. intros vs Hvs.
    eapply (total_bind _ _ value_ok).
    { apply total_host. intros h. by apply (effect_call_ok (R:=flat)). }
    intros v Hv. destruct out; [by eapply total_cont, total_assign|].
    eapply (total_cont (λ _, mret ()) (λ _, True)). by apply total_ret.
Qed.

Lemma total_term t : term_ok t → total (λ n, exec_term n t) (outcome_ok flat).
Proof.
  assert (Hgoto : ∀ b, total (λ _, goto b) (outcome_ok flat)).
  { intros b. by eapply (total_cont (λ _, upd_top (jump b))), total_upd_top. }
  intros Ht. destruct t; cbn [exec_term]; cbn in Ht; try (by apply total_ret); try apply Hgoto;
    (eapply total_bind; [by apply total_operand|]; intros v Hv); try apply Hgoto; try (by apply total_ret).
  - eapply (total_bind _ _ (λ _, True)); [by apply (total_host (λ h, ((), _ h)))|].
    intros _ _. by apply total_ret.
Qed.
End step.

(** ** The loops *)

Lemma one_step_le n n' m : (n <= n')%nat → res_le (one_step prog n m) (one_step prog n' m).
Proof.
  intros Hn. unfold one_step. apply step_le; [done| |].
  - intros f args. by apply subfn_call_le.
  - intros f s args. by apply isolated_le, run_loop_le.
Qed.

Lemma subfn_loop_le n n' d m : (n <= n')%nat → res_le (subfn_loop prog n d m) (subfn_loop prog n' d m).
Proof. intros Hn. by apply (loops_le prog n n'). Qed.

Lemma res_le_settled {A} (r s : Res A) : res_le r s → r <> Diverged → s = r.
Proof. intros [->| ->]; done. Qed.

Definition running (id : IrFnId) (d : nat) (m : Machine) : Prop :=
  interp_ok (m_interp m) ∧ ∃ t s, stack (m_interp m) = t :: s ∧ f_fn_id t = id ∧ length s = d.

Lemma follows_running id d m m1 : running id d m → interp_ok (m_interp m1) → follows (m_interp m) (m_interp m1) →
  running id d m1.
Proof.
  intros (_ & t & s & E & Hid & Hd) Hm1 Hfo. split; [done|].
  pose proof (fo_frames _ _ Hfo) as Hf. unfold fn_ids in Hf. rewrite E in Hf.
  destruct (stack (m_interp m1)) as [|t1 s1]; [done|]. injection Hf as Ht Hs.
  exists t1, s1. split_and!; [done|by rewrite Ht|]. rewrite <- Hd. apply (f_equal length) in Hs.
  by rewrite !length_fmap in Hs.
Qed.

Section loops.
Context (id : IrFnId) (d : nat)
  (Hstep : ∀ m, running id d m → ∃ n, one_step prog n m <> Diverged).

Lemma call_loop_returns m : running id d m → ∃ n, subfn_loop prog n d m <> Diverged.
Proof.
  remember (Z.to_nat (budget (m_interp m))) as k eqn:Hk. revert m Hk.
  induction k as [k IH] using lt_wf_ind. intros m Hk Hm.
  destruct (Hstep m Hm) as [n1 Hn1]. pose proof Hm as (Hok & t & s & E & Hid & Hd).
  assert (Hlen : (length (stack (m_interp m)) =? d)%nat = false).
  { apply Nat.eqb_neq. rewrite E. simpl. lia. }
  pose proof (one_step_keeps flat prog Hprog n1 m Hok) as Hkeep.
  destruct (one_step prog n1 m) as [[o m1]| |] eqn:E1; [| |done].
  2: { exists (S n1). by rewrite subfn_loop_S, Hlen, E1. }
  destruct Hkeep as (Hm1 & Hfo & Ho). pose proof (fo_budget _ _ Hfo) as Hbud.
  destruct o as [|v|c msg].
  - destruct (Z.eqb_spec (budget (m_interp m1)) 0) as [Hb|Hb].
    { exists (S n1). rewrite subfn_loop_S, Hlen, E1. simpl. by rewrite (proj2 (Z.eqb_eq _ _) Hb). }
    set (m2 := mkMachine (set_budget (budget (m_interp m1) - 1) (m_interp m1)) (m_host m1)).
    pose proof (ok_budget _ _ Hm1) as Hb1. pose proof (ok_budget _ _ Hok) as Hb0. unfold in_u64 in *.
    destruct (IH (Z.to_nat (budget (m_interp m2)))) with (m := m2) as [n2 Hn2]; [simpl; lia|done| |].
    { apply (follows_running id d m); [done|by apply spend_ok|]. destruct Hfo. split; try done. simpl. lia. }
    exists (S (n1 + n2)). rewrite subfn_loop_S, Hlen.
    rewrite (res_le_settled _ _ (one_step_le n1 (n1 + n2) m ltac:(lia))) by (by rewrite E1).
    rewrite E1. simpl. destruct (Z.eqb_spec (budget (m_interp m1)) 0); [done|]. fold m2.
    by rewrite (res_le_settled _ _ (subfn_loop_le n2 (n1 + n2) d m2 ltac:(lia))).
  - exists (S (S n1)). rewrite subfn_loop_S, Hlen.
    rewrite (res_le_settled _ _ (one_step_le n1 (S n1) m ltac:(lia))) by (by rewrite E1).
    rewrite E1. cbn [after_step]. cbv zeta. destruct (_ =? 0); [done|].
    rewrite subfn_loop_done; [done|]. simpl.
    destruct (follows_running id d m m1 Hm Hm1 Hfo) as (_ & t1 & s1 & E' & _ & Hd1). by rewrite E'.
  - exists (S n1). by rewrite subfn_loop_S, Hlen, E1.
Qed.

Lemma main_loop_returns m : d = 0%nat → running id d m → ∃ n, run_loop prog n m <> Diverged.
Proof.
  intros Hd0. remember (Z.to_nat (budget (m_interp m))) as k eqn:Hk. revert m Hk.
  induction k as [k IH] using lt_wf_ind. intros m Hk Hm.
  pose proof Hm as (Hok & t & s & E & Hid & Hd).
  destruct (Z.eqb_spec (budget (m_interp m)) 0) as [Hb|Hb].
  { exists 1%nat. rewrite run_loop_S. cbv zeta. rewrite E. by rewrite (proj2 (Z.eqb_eq _ _) Hb). }
  set (m0 := mkMachine (set_budget (budget (m_interp m) - 1) (m_interp m)) (m_host m)).
  assert (Hm0 : running id d m0) by (split; [by apply spend_ok|eauto]).
  assert (Hrun : ∀ n, run_loop prog (S n) m =
    if (0 <? mem_budget (m_interp m)) && (mem_budget (m_interp m) <? mem_used (m_interp m))
    then Ret (RMemBudgetExceeded (mem_used (m_interp m)) (mem_budget (m_interp m)), m0)
    else match one_step prog n m0 with
         | Ret (Continue, m1) => run_loop prog n m1
         | Ret (FrameReturned v, m1) =>
             let j := after_return v (m_interp m1) in
             match stack j with
             | [] => Ret (main_exit_for_value v, mkMachine j (m_host m1))
             | _ => run_loop prog n (mkMachine j (m_host m1))
             end
         | Ret (Trapped c msg, m1) => Ret (RTrap c msg, m1)
         | Panicked => Panicked
         | Diverged => Diverged
         end).
  { intros n. rewrite run_loop_S. cbv zeta. rewrite E. by destruct (Z.eqb_spec (budget (m_interp m)) 0). }
  destruct (_ && _); [exists 1%nat; by rewrite Hrun|].
  destruct (Hstep m0 Hm0) as [n1 Hn1].
  pose proof (one_step_keeps flat prog Hprog n1 m0 (proj1 Hm0)) as Hkeep.
  destruct (one_step prog n1 m0) as [[o m1]| |] eqn:E1; [| |done].
  2: { exists (S n1). by rewrite Hrun, E1. }
  destruct Hkeep as (Hm1 & Hfo & Ho). pose proof (fo_budget _ _ Hfo) as Hbud. simpl in Hbud.
  pose proof (follows_running id d m0 m1 Hm0 Hm1 Hfo) as Hr1.
  destruct o as [|v|c msg].
  - pose proof (ok_budget _ _ Hok) as Hb0. pose proof (ok_budget _ _ Hm1) as Hb1. unfold in_u64 in *.
    destruct (IH (Z.to_nat (budget (m_interp m1)))) with (m := m1) as [n2 Hn2]; [lia|done|done|].
    exists (S (n1 + n2)). rewrite Hrun.
    rewrite (res_le_settled _ _ (one_step_le n1 (n1 + n2) m0 ltac:(lia))) by (by rewrite E1).
    rewrite E1. by rewrite (res_le_settled _ _ (run_loop_le prog n2 (n1 + n2) ltac:(lia) m1)).
  - exists (S n1). rewrite Hrun, E1. cbv zeta.
    destruct Hr1 as (_ & t1 & s1 & E' & _ & Hd1). rewrite Hd0 in Hd1. apply length_zero_iff_nil in Hd1. subst s1.
    unfold after_return. simpl. rewrite E'. simpl. by rewrite E'.
  - exists (S n1). by rewrite Hrun, E1.
Qed.
End loops.

(** ** Induction on the rank *)

Lemma initial_locals_returns f args : initial_locals_for f args <> Diverged.
Proof.
  unfold initial_locals_for. destruct (replicate _ _) as [|v vs]; [done|].
  set (g := λ (acc : Res (list Value)) (ip : nat * nat), _).
  assert (Hg : ∀ ips acc, acc <> Diverged → foldl g acc ips <> Diverged); [|by apply Hg].
  intros ips. induction ips as [|ip ips IH]; intros acc Hacc; [done|]. simpl. apply IH.
  destruct acc; simpl; [|done..]. by destruct (_ <? _)%nat.
Qed.

Section ranked.
Context (rank : IrFnId → nat) (Hrank : stratified prog rank).

Definition callable (id : IrFnId) : Prop :=
  ∀ args, all_ok args →
    total (λ n, subfn prog (subfn_loop prog n) id args) value_ok ∧
    ∀ state, value_ok state →
      total (λ n, isolated prog (run_loop prog n) id state args) (λ r, value_ok r.1.2 ∧ value_ok r.2).

Lemma step_returns id d m : (∀ id', (rank id' < rank id)%nat → callable id') → running id d m →
  ∃ n, one_step prog n m <> Diverged.
Proof.
  intros Hcall (Hm & t & s & E & Hid & Hd). unfold one_step, step, mbind, M_bind, reads, lift, upd_top.
  unfold top. rewrite E. simpl. rewrite Hid.
  destruct (fn_by_id prog id) as [f|] eqn:Ef; simpl; [|by exists 0%nat].
  destruct (block f (f_block t)) as [b|] eqn:Eb; simpl; [|by exists 0%nat].
  assert (Hf : Forall (block_ok flat) (fn_blocks f)) by (by eapply Forall_lookup_1 in Ef; [|exact Hprog]).
  assert (Hb : block_ok flat b) by (by eapply Forall_lookup_1 in Eb; [|exact Hf]).
  destruct Hb as [Hstmts Hterm].
  destruct (b_stmts b !! f_pc t) as [st|] eqn:Es.
  - set (m1 := mkMachine (set_stack (set_pc (S (f_pc t)) t :: s) (m_interp m)) (m_host m)).
    assert (Hm1 : interp_ok (m_interp m1)).
    { pose proof (ok_stack _ _ Hm) as Hst. rewrite E in Hst. apply Forall_cons in Hst as [Ht Hs].
      apply (set_stack_ok flat (set_pc (S (f_pc t)) t :: s) (m_interp m) Hm); [by apply Forall_cons|].
      unfold fn_ids. by rewrite E. }
    destruct (t_returns _ _ (total_stmt (λ id', (rank id' < rank id)%nat)
      (λ n, subfn prog (subfn_loop prog n)) (λ f args Hlt Ha, proj1 (Hcall f Hlt args Ha))
      (λ n, isolated prog (run_loop prog n)) (λ f st args Hlt Hst Ha, proj2 (Hcall f Hlt args Ha) st Hst)
      st (Forall_lookup_1 _ _ _ _ Hstmts Es)
      (Hrank id f b st Ef (list_elem_of_lookup_2 _ _ _ Eb) (list_elem_of_lookup_2 _ _ _ Es))) m1 Hm1)
      as [n Hn].
    exists n. by rewrite E.
  - by apply (t_returns _ _ (total_term _ Hterm)).
Qed.

Lemma callable_ranked r id : (rank id < r)%nat → callable id.
Proof.
  revert id. induction r as [|r IH]; intros id Hlt; [lia|].
  assert (Hstep : ∀ d m, running id d m → ∃ n, one_step prog n m <> Diverged).
  { intros d m. apply step_returns. intros id' Hid'. apply IH. lia. }
  intros args Ha. split; [|intros state Hs]; split.
  - intros n n' m Hn _. by apply subfn_call_le.
  - intros n. apply subfn_keeps; [by apply (loops_keep flat prog Hprog n)|done].
  - intros m Hm.
    assert (Hp : post (push_call_frame prog id args m) (λ _ m1, running id (length (stack (m_interp m))) m1)).
    { apply (push_frame_keeps flat); [done..|]. intros t m1 Ht Hm1 Hid Est _ _ _ _.
      split; [done|]. by exists t, (stack (m_interp m)). }
    destruct (push_call_frame prog id args m) as [[[] m1]| |] eqn:Ep.
    + set (m2 := mkMachine (set_last_return VUnit (m_interp m1)) (m_host m1)).
      destruct (call_loop_returns id (length (stack (m_interp m))) (Hstep _) m2) as [n Hn].
      { destruct Hp as [Hm1 Hst]. split; [by destruct Hm1; split|done]. }
      exists n. unfold subfn, mbind, M_bind, reads, upd. rewrite Ep. fold m2.
      by destruct (subfn_loop prog n _ m2) as [[[] m3]| |].
    + exists 0%nat. unfold subfn, mbind, M_bind, reads. by rewrite Ep.
    + exfalso. revert Ep. unfold push_call_frame, mbind, M_bind, lift, reads, upd.
      destruct (fn_by_id prog id) as [f|]; simpl; [|done].
      destruct (initial_locals_for f args) eqn:Ei; try done. intros _.
      by apply initial_locals_returns in Ei.
  - intros n n' m Hn _. by apply isolated_le, run_loop_le.
  - intros n. apply isolated_keeps; try done; [apply flat_plain|]. by apply (loops_keep flat prog Hprog n).
  - intros m Hm. unfold isolated. destruct (fn_by_id prog id) as [f|]; [|by exists 0%nat].
    set (m1 := mkMachine _ (m_host m)).
    destruct (main_loop_returns id 0 (Hstep 0%nat) m1) as [n Hn]; [done| |].
    { split; [split; try done; apply Forall_cons; split; [apply handler_locals_ok; [apply flat_plain|done..]|done]|].
      eexists _, []. by split_and!. }
    exists n. by destruct (run_loop prog n m1) as [[rr m2]| |].
Qed.
End ranked.
End total.
