(* ===== verification/IrTheorems.v ===== *)
(** * Properties of the IR interpreter

    What a run of [IrInterp] gives: well-formed results, termination of
    programs whose calls are stratified, what the budgets bound and what they
    do not, how a trap leaves a call, how a handler changes an agent, reading
    and writing through places, casts, iteration and the consensus of a
    swarm.  The witnesses instantiate the standard library's printing with a
    constant and the host with [BufferHost]. *)

From stdpp Require Import base list strings numbers sets.
From Stdlib Require Import SpecFloat.
From S2P Require Import Prelude TyArena IrSyntax IrValue IrMethods IrSwarm IrInterp IrInterpSafe IrValueSafe IrMethodsSafe IrInterpTotal.

Local Open Scope Z_scope.

(** ** The instances the witnesses use *)

Definition plain_std : RustStd := {|
  f64_display _ := []; f64_display_prec _ _ := []; str_debug s := s; char_debug c := [c];
  name_debug _ := []; to_lowercase s := s; to_uppercase s := s; char_to_lowercase c := [c];
  char_to_uppercase c := [c]; is_alphanumeric _ := true; str_capacity _ := 0; vec_capacity _ := 0 |}.

Lemma plain_std_ok : RustStdOk plain_std.
Proof. split; simpl; intros; try done; by repeat constructor. Qed.

Lemma buffer_host_ok R : HostOk R (@BufferHost plain_std).
Proof.
  split; [done|]. intros name args h Ha. simpl. unfold buffer_extern_call.
  repeat case_bool_decide; by try constructor.
Qed.

#[local] Existing Instance plain_std.
#[local] Existing Instance plain_std_ok.
#[local] Existing Instance buffer_host_ok.

Notation start := (mkBuffer [] [] []).

Definition demo_fn (id : nat) (name : string) (params : list nat) (n_locals : nat) (blocks : list Block) : Function :=
  mkFunction id name params (replicate n_locals (mkLocalDecl name IrUnit true STemp)) blocks 0 IrUnit [] None (mkSpan 0 0).
Definition demo_prog (fs : list Function) (ags : list Agent) : Program := mkProgram fs [] ags [] ∅ ∅ ∅.
Definition here (l : nat) : Operand := OCopy (place_local l).
Definition num (n : Z) : Operand := OConst (KInt n I32).

(** [main] adds what [two] returns to 40. *)
Definition demo_sum : Program := demo_prog
  [demo_fn 0 "main" [] 2
     [mkBlock 0 [SAssign (place_local 1) (RCall (User 1) []); SAssign (place_local 0) (RBinOp Add (num 40) (here 1))]
        (TReturn (here 0))];
   demo_fn 1 "two" [] 1 [mkBlock 0 [] (TReturn (num 2))]] [].

(** ** Results *)

(** Every value a run returns, the new state and the reply of a handler
    included, is well formed: integers within 128 bits, sizes and durations
    within 64, characters and strings valid Unicode, references as the
    program makes them. *)
Theorem run_well_formed `{Hstd : RustStd} `{!RustStdOk Hstd} `{Hhost : Host} R `{!PlainRefs R} `{!HostOk R Hhost}
  prog n args :
  program_ok R prog → Forall (value_ok R) args →
  (∀ name b cap h, in_u64 b →
     match run_fn_with_resource_budget prog n name args b cap h with
     | Ret (inl v, _) => value_ok R v
     | _ => True
     end)
  ∧ (∀ handler state h, value_ok R state →
     match run_handler_isolated prog n handler state args h with
     | Ret (_, state', reply, _) => value_ok R state' ∧ value_ok R reply
     | _ => True
     end).
Proof.
  intros Hprog Ha. destruct (loops_keep R prog Hprog n) as [_ Hruns]. split.
  - intros name b cap h Hb. unfold run_fn_with_resource_budget, boot.
    destruct (fn_by_name prog name) as [f|]; [|done].
    destruct (initial_locals_for f args) as [ls| |] eqn:El; [|done..]. cbn [mbind Res_bind].
    set (m := mkMachine _ h). specialize (Hruns m).
    assert (Hm : interp_ok R (m_interp m)).
    { split; try done; simpl. apply Forall_cons. split; [|done]. by eapply initial_locals_ok. }
    specialize (Hruns Hm). destruct (run_loop prog n m) as [[r m']| |]; [|done..].
    simpl in *. destruct r; try done. apply (ok_last _ _ Hruns).
  - intros handler state h Hs. unfold run_handler_isolated.
    pose proof (isolated_keeps R prog n Hruns handler state args Hs Ha) as Hk.
    set (m := mkMachine (Interp_new 0) h). specialize (Hk m). cbn [mbind Res_bind].
    assert (Hm : interp_ok R (m_interp m)) by (by split).
    specialize (Hk Hm). destruct (isolated _ _ _ _ _ m) as [[[[rr s'] reply] m']| |]; [|done..].
    simpl in *. by destruct Hk as (_ & _ & ? & ?).
Qed.

Lemma run_well_formed_witness :
  run_fn_with_resource_budget demo_sum 10 "main" [] 100 0 start = Ret (inl (VInt 42 I32), start)
  ∧ value_ok (λ _, True) (VInt 42 I32).
Proof.
  assert (Hp : program_ok (λ _, True) demo_sum) by (repeat constructor; by vm_compute).
  pose proof (proj1 (@run_well_formed plain_std _ BufferHost (λ _, True) ltac:(done) _ demo_sum 10 [] Hp
    ltac:(done)) "main" 100 0 start ltac:(done)) as H.
  split; [by vm_compute|]. exact H.
Defined.

(** ** Termination *)

(** C7. A program whose calls, spawns and messages go down a rank, and whose
    references are flat, returns on every flat input, whatever its budgets and
    with every host that answers with flat values: from some fuel on the result
    is one and the same, a panic of the interpreter included.  Flat: the place
    that a reference is taken of does not itself go through a reference,
    as in [&r.deref.x]; [reborrow_loops] is what happens without it. *)
Theorem stratified_programs_return `{Hstd : RustStd} `{!RustStdOk Hstd} `{Hhost : Host} `{!HostOk flat Hhost}
  prog rank name args b cap h :
  program_ok flat prog → stratified prog rank → Forall (value_ok flat) args → in_u64 b →
  ∃ n r, r <> Diverged ∧
    ∀ n', (n <= n')%nat → run_fn_with_resource_budget prog n' name args b cap h = r.
Proof.
  intros Hprog Hrank Ha Hb.
  assert (Hret : ∃ n, run_fn_with_resource_budget prog n name args b cap h <> Diverged).
  { unfold run_fn_with_resource_budget, boot.
    destruct (fn_by_name prog name) as [f|]; [|by exists 0%nat].
    destruct (initial_locals_for f args) as [ls| |] eqn:El; cbn [mbind Res_bind];
      [|by exists 0%nat|by apply initial_locals_returns in El].
    set (m := mkMachine _ h).
    destruct (main_loop_returns prog Hprog (fn_id f) 0) with (m := m) as [n Hn]; [|done| |].
    { intros m' Hm'. eapply (step_returns prog Hprog rank Hrank); [|exact Hm'].
      intros id' _. apply (callable_ranked prog Hprog rank Hrank (S (rank id'))). lia. }
    { split; [split; try done; simpl|by eexists _, []].
      apply Forall_cons. split; [|done]. by eapply initial_locals_ok. }
    exists n. by destruct (run_loop prog n m) as [[r m']| |]. }
  destruct Hret as [n Hn]. exists n. eexists. split; [exact Hn|]. intros n' Hle.
  apply res_le_settled; [|done]. unfold run_fn_with_resource_budget.
  destruct (fn_by_name prog name); [|by right]. apply res_le_bind; [by right|]. intros i.
  apply res_le_bind; [by apply run_loop_le|]. intros [r m]. by right.
Qed.

Lemma stratified_programs_return_witness :
  ∃ n r, r <> Diverged ∧
    ∀ n', (n <= n')%nat → run_fn_with_resource_budget demo_sum n' "main" [] 3 0 start = r.
Proof.
  apply (@stratified_programs_return plain_std _ BufferHost _ demo_sum (λ id, 1 - id)%nat "main" [] 3 0 start).
  - repeat constructor; by vm_compute.
  - intros id f b s Hf Hb Hs. unfold fn_by_id in Hf.
    assert (Hall : Forall (λ f, Forall (λ b, Forall (λ s, stmt_below demo_sum (λ id', (1 - id' < 1 - fn_id f)%nat) s)
      (b_stmts b)) (fn_blocks f)) (fns demo_sum)).
    { repeat constructor; simpl; lia. }
    assert (Hid : fn_id f = id) by (destruct id as [|[|id]]; try done; by injection Hf as <-).
    pose proof (Forall_lookup_1 _ _ _ _ Hall Hf) as H1. cbv beta in H1. rewrite Hid in H1.
    rewrite Forall_forall in H1. specialize (H1 b Hb). rewrite Forall_forall in H1. by apply H1.
  - done.
  - done.
Defined.

(** ** What the step budget does not bound *)

(** *** Equations of a step and of a call *)

Section equations.
Context `{RustStd} `{Host} (prog : Program).

(** [st] is the next statement of the frame on top. *)
Definition stmt_at (m : Machine) (st : Stmt) : Prop :=
  ∃ t s f b, stack (m_interp m) = t :: s ∧ fn_by_id prog (f_fn_id t) = Some f ∧
    block f (f_block t) = Some b ∧ b_stmts b !! f_pc t = Some st.

Definition advance (m : Machine) : Machine :=
  match stack (m_interp m) with
  | t :: s => mkMachine (set_stack (set_pc (S (f_pc t)) t :: s) (m_interp m)) (m_host m)
  | [] => m
  end.

Lemma step_stmt n sub iso m st : stmt_at m st →
  step prog n sub iso m = exec_stmt prog n sub iso st (advance m).
Proof.
  intros (t & s & f & b & Hs & Hf & Hb & Hst). unfold step, advance, mbind, M_bind, reads, lift, top, upd_top.
  rewrite Hs. simpl. rewrite Hf. simpl. rewrite Hb. simpl. rewrite Hst. by rewrite Hs.
Qed.

(** The machine a call of [f] starts with. *)
Definition entered (f : Function) (id : IrFnId) (locals : list Value) (m : Machine) : Machine :=
  let i := m_interp m in
  mkMachine (set_last_return VUnit
    (set_stack (Frame_new id locals (next_scope i) (fn_entry f) :: stack i) (bump_scope i))) (m_host m).

Lemma subfn_eq loop id f args locals m : fn_by_id prog id = Some f → initial_locals_for f args = Ret locals →
  subfn prog loop id args m =
  match loop (length (stack (m_interp m))) (entered f id locals m) with
  | Ret (_, m') =>
      Ret (last_return (m_interp m'), mkMachine (set_last_return (last_return (m_interp m)) (m_interp m')) (m_host m'))
  | Panicked => Panicked
  | Diverged => Diverged
  end.
Proof.
  intros Hf Hl. unfold subfn, push_call_frame, mbind, M_bind, lift, reads. rewrite Hf. simpl of_option.
  cbv iota beta. rewrite Hl. simpl. by destruct (loop _ _) as [[[] ?]| |].
Qed.
End equations.

(** A function whose first statement calls the function itself. *)
Definition calls_itself (prog : Program) (f : Function) : Prop :=
  ∃ b p rest locals, fn_by_id prog (fn_id f) = Some f ∧ block f (fn_entry f) = Some b ∧
    b_stmts b = SAssign p (RCall (User (fn_id f)) []) :: rest ∧ initial_locals_for f [] = Ret locals.

Lemma self_call_diverges `{RustStd} `{Host} prog f n m t s :
  calls_itself prog f → stack (m_interp m) = t :: s → f_fn_id t = fn_id f → f_pc t = 0%nat →
  f_block t = fn_entry f → one_step prog n m = Diverged.
Proof.
  intros (b & p & rest & ls & Hf & Hb & Hs & Hls).
  revert m t s. induction n as [|n IH]; intros m t s Hst Hid Hpc Hbl; unfold one_step;
    (rewrite (step_stmt prog _ _ _ m (SAssign p (RCall (User (fn_id f)) [])));
     [|exists t, s, f, b; rewrite Hid, Hbl, Hpc, Hs; by split_and!]);
    cbn [exec_stmt eval_rvalue]; unfold mbind, M_bind, operands, reads; cbn [res_map];
    unfold mret, M_ret; rewrite (subfn_eq _ _ _ f [] ls) by done; [done|].
  unfold advance. rewrite Hst. cbn [m_interp stack set_stack length]. rewrite subfn_loop_S.
  cbn [entered m_interp stack set_stack set_last_return length]. rewrite (proj2 (Nat.eqb_neq _ _)) by lia.
  by erewrite IH.
Qed.

(** The step budget bounds the steps taken, not the calls pending: a function
    that first calls itself makes the interpreter recurse without end, at
    whatever step and memory budget. *)
Theorem recursion_escapes_budget `{RustStd} `{Host} prog f name b cap h n :
  fn_by_name prog name = Some f → calls_itself prog f → 0 < b →
  run_fn_with_resource_budget prog n name [] b cap h = Diverged.
Proof.
  intros Hname Hself Hb. pose proof Hself as (b' & p & rest & ls & _ & _ & _ & Hls).
  unfold run_fn_with_resource_budget, boot. rewrite Hname, Hls. cbn [mbind Res_bind].
  destruct n as [|n]; [done|]. rewrite run_loop_S. cbv zeta. simpl.
  rewrite (proj2 (Z.eqb_neq b 0)) by lia.
  replace ((0 <? cap) && (cap <? 0)) with false by lia.
  by erewrite (self_call_diverges _ f n).
Qed.

(** [spin] calls itself and nothing else. *)
Definition demo_spin : Program := demo_prog
  [demo_fn 0 "spin" [] 1 [mkBlock 0 [SAssign (place_local 0) (RCall (User 0) [])] (TReturn (here 0))]] [].

Lemma recursion_escapes_budget_witness :
  @run_fn_with_resource_budget plain_std BufferHost demo_spin 1000 "spin" [] 1 0 start = Diverged.
Proof.
  eapply recursion_escapes_budget; [reflexivity| |done].
  eexists _, _, _, _. by split_and!.
Defined.

(** *** References through references *)

(** [_1 = &_1.deref; _2 = _1.deref]: the reference that [_1] holds is to the
    place that the reference in [_1] points to. *)
Definition reborrowing : Program := demo_prog
  [demo_fn 0 "main" [] 3
     [mkBlock 0 [SAssign (place_local 1) (RRef false (mkPlace 1 [PDeref])); SAssign (place_local 2) (RDeref (here 1))]
        (TReturn (here 0))]] [].

Lemma deref_reborrow n ls r :
  ref_proj r = [PDeref] → ls !! ref_owner r = Some (VRef r) → deref_value n ls (VRef r) = Diverged.
Proof. intros Hp Hl. induction n as [|n IH]; [done|]. cbn [deref_value]. rewrite Hp, Hl. simpl. by rewrite IH. Qed.

Lemma one_step_reborrow n i h t s :
  stack i = t :: s -> f_fn_id t = 0%nat -> f_block t = 0%nat -> f_pc t = 1%nat ->
  (∃ sc, f_locals t !! 1%nat = Some (VRef (mkRef sc 1 [PDeref] false))) ->
  one_step reborrowing n (mkMachine i h) = Diverged.
Proof.
  intros Hs Hid Hbl Hpc [sc Hl]. unfold one_step.
  erewrite step_stmt by (exists t, s; eexists _, _; rewrite Hid, Hbl, Hpc; by split_and!).
  unfold advance. cbn [m_interp]. rewrite Hs. cbn. unfold mbind, M_bind, operand, reads. cbn.
  unfold read_place, top. cbn. unfold read_locals. cbn. rewrite Hl. cbn -[deref_value].
  by rewrite deref_reborrow.
Qed.

(** Flatness is needed: a reference reborrowed through itself makes
    [deref_value] call itself without end, in a program without a call and
    whatever the step budget beyond its first statement. *)
Theorem reborrow_loops n b : 1 < b →
  run_fn_with_resource_budget reborrowing n "main" [] b 0 start = Diverged.
Proof.
  intros Hb. unfold run_fn_with_resource_budget.
  change (fn_by_name reborrowing "main") with (head (fns reborrowing)). cbn -[run_loop].
  destruct n as [|n]; [done|]. unfold mbind at 1. rewrite run_loop_S. cbn -[one_step run_loop Z.eqb Z.sub].
  rewrite (proj2 (Z.eqb_neq b 0)) by lia. unfold one_step at 1.
  erewrite step_stmt by (eexists _, _, _, _; by split_and!). cbn -[run_loop Z.sub].
  unfold mbind, M_bind, reads. cbn -[run_loop Z.sub].
  destruct n as [|n]; [done|]. rewrite run_loop_S. cbn -[one_step run_loop Z.eqb Z.sub].
  rewrite (proj2 (Z.eqb_neq (b - 1) 0)) by lia. by erewrite one_step_reborrow by (try done; by eexists).
Qed.

(** ** Traps *)

(** A trap does not leave the call it is raised in: a statement that calls a
    user function never traps, whatever the function does.  When the first
    step of the callee traps, the call has the value unit and the caller goes
    on at its next statement. *)
Theorem call_hides_traps `{RustStd} `{Host} prog n p id args m :
  match exec_stmt prog n (subfn prog (subfn_loop prog (S n))) (isolated prog (run_loop prog n))
          (SAssign p (RCall (User id) args)) m with
  | Ret (o, _) => o = Continue
  | _ => True
  end
  ∧ ∀ f vs locals m1 c msg,
      res_map (eval_operand n (m_interp m)) args = Ret vs →
      fn_by_id prog id = Some f → initial_locals_for f vs = Ret locals →
      one_step prog n (entered f id locals m) = Ret (Trapped c msg, m1) → last_return (m_interp m1) = VUnit →
      exec_stmt prog n (subfn prog (subfn_loop prog (S n))) (isolated prog (run_loop prog n))
        (SAssign p (RCall (User id) args)) m =
      (assign_place p VUnit;; mret Continue)
        (mkMachine (set_last_return (last_return (m_interp m)) (truncate (length (stack (m_interp m))) (m_interp m1)))
           (m_host m1)).
Proof.
  cbn [exec_stmt eval_rvalue]. unfold operands. split.
  - unfold mbind at 1, M_bind at 1. unfold mbind at 1, M_bind at 1, reads.
    destruct (res_map _ args) as [vs| |]; [|done..]. unfold mret at 1, M_ret at 1, mbind, M_bind.
    destruct (subfn _ _ _ _ _) as [[v m1]| |]; [|done..]. by destruct (assign_place _ _ _) as [[? ?]| |].
  - intros f vs locals m1 c msg Ha Hf Hl Hstep Hu.
    unfold mbind at 1, M_bind at 1. unfold mbind at 1, M_bind at 1, reads. rewrite Ha.
    unfold mret at 1, M_ret at 1. unfold mbind at 1, M_bind at 1.
    rewrite (subfn_eq _ _ _ f vs locals) by done. rewrite subfn_loop_S.
    cbn [entered m_interp stack set_stack set_last_return length] in *. rewrite (proj2 (Nat.eqb_neq _ _)) by lia.
    rewrite Hstep. cbn [m_interp m_host truncate set_stack last_return]. by rewrite Hu.
Qed.

(** [main] calls [boom], which panics, and returns 7. *)
Definition demo_boom : Program := demo_prog
  [demo_fn 0 "main" [] 2 [mkBlock 0 [SAssign (place_local 1) (RCall (User 1) [])] (TReturn (num 7))];
   demo_fn 1 "boom" [] 1 [mkBlock 0 [] (TPanic (OConst (KStr [33])))]] [].

Definition demo_machine (n_locals : nat) : Machine (H0 := @BufferHost plain_std) :=
  mkMachine (set_stack [Frame_new 0 (replicate n_locals VVoid) 0 0] (Interp_new 10)) start.

Lemma call_hides_traps_witness :
  run_fn_by_name demo_boom 10 "main" [] start
    = Ret (inl (VInt 7 I32), mkBuffer (lit "panic: !" ++ [10]) [] [])
  ∧ ∃ m, exec_stmt demo_boom 5 (subfn demo_boom (subfn_loop demo_boom 6)) (isolated demo_boom (run_loop demo_boom 5))
      (SAssign (place_local 1) (RCall (User 1) [])) (demo_machine 2) = Ret (Continue, m).
Proof.
  split; [by vm_compute|]. eexists.
  etransitivity.
  - eapply (proj2 (call_hides_traps demo_boom 5 (place_local 1) 1 [] (demo_machine 2))); reflexivity.
  - reflexivity.
Defined.

(** ** Handlers *)

Lemma invoke_handler_eq `{RustStd} `{Host} prog iso handle ag msg args m state :
  agent_by_id prog (h_agent handle) = Some ag → agent_states (m_interp m) !! h_state_idx handle = Some state →
  invoke_handler prog iso (VAgent handle) msg args m =
  match list_find (λ mf, mf.1 = msg) (ag_handlers ag) with
  | None => Ret (VUnit, m)
  | Some (_, (_, handler)) =>
      match iso handler state args m with
      | Ret (ROk _, s, reply, m') =>
          let i := m_interp m' in
          Ret (reply, mkMachine (set_agent_states (<[h_state_idx handle := s]> (agent_states i)) i) (m_host m'))
      | Ret (_, _, reply, m') => Ret (reply, m')
      | Panicked => Panicked
      | Diverged => Diverged
      end
  end.
Proof.
  intros Hag Hst. unfold invoke_handler, lift. rewrite Hag. unfold mbind, M_bind, reads. cbn [of_option].
  destruct (list_find _ _) as [[i [? f]]|]; [|done]. rewrite Hst. cbn [of_option].
  by destruct (iso _ _ _ _) as [[[[[] ?] ?] ?]| |].
Qed.


(** A counter: [add] adds its argument to the state's field and replies with
    the sum; [fail] adds and then panics. *)
Definition demo_counter : Program :=
  let field := mkPlace 1 [PDeref; PField 0] in
  let add := SAssign field (RBinOp Add (OCopy field) (here 2)) in
  demo_prog
    [demo_fn 0 "add" [1; 2]%nat 3 [mkBlock 0 [add] (TReturn (OCopy field))];
     demo_fn 1 "fail" [1; 2]%nat 3 [mkBlock 0 [add] (TPanic (here 2))]]
    [mkAgent 0 "Counter" 0 0 [("add", 0%nat); ("fail", 1%nat)] (mkSpan 0 0)].

Definition demo_agents : Machine (H0 := @BufferHost plain_std) :=
  mkMachine (set_agent_states [VUnit; VStruct 0 [VInt 40 I32]] (Interp_new 10)) start.
Definition demo_send (msg : string) : Res (Value * Machine) :=
  invoke_handler demo_counter (isolated demo_counter (run_loop demo_counter 9)) (VAgent (mkHandle 0 0 1)) msg
    [VInt 2 I32] demo_agents.

Notation demo_run handler :=
  (isolated demo_counter (run_loop demo_counter 9) handler (VStruct 0 [VInt 40 I32]) [VInt 2 I32]
    (mkMachine (Interp_new 0) (m_host demo_agents))).
Definition visible (r : Res (RunResult * Value * Value * Machine (H0 := @BufferHost plain_std))) :
  option (RunResult * Value * Value * BufferState) :=
  match r with Ret (rr, s, v, m) => Some (rr, s, v, m_host m) | _ => None end.
Lemma demo_add_run : visible (demo_run 0) = Some (ROk 42, VStruct 0 [VInt 42 I32], VInt 42 I32, start).
Proof. by vm_compute. Qed.
Lemma demo_fail_run : visible (demo_run 1)
  = Some (RTrap "MT5001" (lit "2"), VUnit, VUnit, mkBuffer (lit "panic: 2" ++ [10]) [] []).
Proof. by vm_compute. Qed.

#[local] Opaque isolated run_loop invoke_handler.


#[local] Transparent isolated run_loop invoke_handler.

(** ** Casts *)

Lemma wrap_kind_mod k n : wrap_kind k n mod 2 ^ kind_bits k = n mod 2 ^ kind_bits k.
Proof.
  assert (0 < kind_bits k) by (destruct (kind_bits_cases k) as [E|[E|[E|[E|E]]]]; lia).
  unfold wrap_kind. destruct (is_unsigned_int_kind k); [by rewrite Z.mod_mod by lia|by apply wrap_signed_mod].
Qed.

Lemma wrap_kind_congr k n m : n mod 2 ^ kind_bits k = m mod 2 ^ kind_bits k → wrap_kind k n = wrap_kind k m.
Proof.
  assert (0 < kind_bits k) by (destruct (kind_bits_cases k) as [E|[E|[E|[E|E]]]]; lia).
  unfold wrap_kind. destruct (is_unsigned_int_kind k); [done|]. intros E. unfold wrap_signed.
  by rewrite <- (Z.add_mod_idemp_l n), E, Z.add_mod_idemp_l by lia.
Qed.

Lemma wrap_kind_id k n : in_range k n → kind_bits k <> 128 → wrap_kind k n = n.
Proof.
  intros Hn Hk. unfold in_range, wrap_kind in *.
  destruct k; simpl in *; unfold u64_max in *; try done; first [apply Z.mod_small; lia|apply wrap_signed_id; lia].
Qed.

Lemma int_cast_narrow n src k :
  kind_bits k <> 128 →
  ∃ r, eval_cast (VInt n src) (IrInt k) = VInt r k ∧ in_range k r
    ∧ r mod 2 ^ kind_bits k = n mod 2 ^ kind_bits k
    ∧ (in_range k n → r = n)
    ∧ ∀ via, kind_bits k <= kind_bits via →
        eval_cast (eval_cast (VInt n src) (IrInt via)) (IrInt k) = VInt r k.
Proof.
  intros Hk. exists (wrap_kind k n). cbn [eval_cast]. rewrite narrow_int_wrap by done.
  split_and!; [done|by apply wrap_kind_range|apply wrap_kind_mod|intros; by apply wrap_kind_id|].
  intros via Hvia. rewrite narrow_int_wrap by done. f_equal.
  destruct (Z.eq_dec (kind_bits via) 128) as [E|E]; [by rewrite narrow_int_wide|].
  rewrite (narrow_int_wrap _ via) by done. apply wrap_kind_congr.
  assert (0 < kind_bits k) by (destruct (kind_bits_cases k) as [E'|[E'|[E'|[E'|E']]]]; lia).
  assert (Hd : (2 ^ kind_bits k | 2 ^ kind_bits via)).
  { exists (2 ^ (kind_bits via - kind_bits k)). rewrite <- Z.pow_add_r by lia. f_equal. lia. }
  rewrite <- (Z.mod_mod_divide (wrap_kind via n) _ _ Hd), wrap_kind_mod. by apply Z.mod_mod_divide.
Qed.

(** C26. A cast of an integer value, a 128-bit signed one in the interpreter
    whatever its type, to an integer type other than [u128] is two's complement
    truncation: the result is in the range of the target and congruent to the
    operand, the operand itself when it fits, and a cast through a type that
    is not narrower than the target is a cast to the target.  The exception,
    [u128], is [casts_unlike_rust]. *)
Theorem int_cast_truncates n src k :
  in_i128 n → k <> U128 →
  ∃ r, eval_cast (VInt n src) (IrInt k) = VInt r k ∧ in_range k r
    ∧ r mod 2 ^ kind_bits k = n mod 2 ^ kind_bits k
    ∧ (in_range k n → r = n)
    ∧ ∀ via, kind_bits k <= kind_bits via →
        eval_cast (eval_cast (VInt n src) (IrInt via)) (IrInt k) = VInt r k.
Proof.
  intros Hn Hk. destruct (Z.eq_dec (kind_bits k) 128) as [E|E]; [|by apply int_cast_narrow].
  assert (k = I128) as -> by by destruct k.
  exists n. cbn [eval_cast]. rewrite narrow_int_wide by done. split_and!; try done.
  intros via Hvia. assert (kind_bits via = 128) as Ev.
  { destruct (kind_bits_cases via) as [E'|[E'|[E'|[E'|E']]]]; rewrite E' in Hvia |- *; cbn in Hvia; lia. }
  by rewrite !narrow_int_wide.
Qed.

Lemma int_cast_truncates_witness :
  ∃ r, eval_cast (VInt 300 I32) (IrInt I8) = VInt r I8 ∧ r = 44.
Proof.
  destruct (int_cast_truncates 300 I32 I8 ltac:(done) ltac:(done)) as (r & E & _). exists r. split; [done|].
  by injection E as <-.
Defined.

(** Where a cast is not the one of standard Rust: a negative number cast to
    [u128] stays negative, and an integer cast to [f32] is rounded to [f64]
    first. *)
Theorem casts_unlike_rust :
  eval_cast (VInt (-1) I32) (IrInt U128) = VInt (-1) U128
  ∧ let n := (2 ^ 24 + 1) * 2 ^ 36 + 1 in
    eval_cast (VInt n I64) (IrFloat F32) = VFloat (f64_of_Z (2 ^ 60)) F32
    ∧ binary_normalize 24 128 n 0 false = S754_finite false (2 ^ 23 + 1) 37.
Proof. split_and!; by vm_compute. Qed.

(** ** Iteration *)

(** The loop of a [for], as the lowerer lays it out: the counter starts at
    zero, every round asks for the element at the counter. *)
Fixpoint drain (fuel : nat) (it : Value) (idx : Z) : option (list Value) :=
  match fuel with
  | O => None
  | S fuel =>
      r ← iter_next it [VInt idx USize];
      match r with
      | VTuple [VBool false; x] => cons x <$> drain fuel it (idx + 1)
      | _ => Some []
      end
  end.

Lemma drain_range lo hi (inclusive : bool) k k' n idx fuel :
  (Z.to_nat (hi - lo - idx + (if inclusive then 1 else 0)) = n) → (n < fuel)%nat →
  0 <= idx → in_i128 lo → idx = 0 ∨ lo + idx <= hi + (if inclusive then 1 else 0) →
  hi + (if inclusive then 1 else 0) <= i128_max →
  drain fuel (VTuple [VInt lo k; VInt hi k'; VBool inclusive]) idx
    = Some ((λ i, VInt (lo + idx + Z.of_nat i) k) <$> seq 0 n).
Proof.
  revert idx fuel. induction n as [|n IH]; intros idx [|fuel] Hn Hf Hi Hlo Hle Hhi; try lia;
    simpl; unfold in_i128 in *; replace ((lo + idx <? i128_min) || (i128_max <? lo + idx)) with false by lia; simpl.
  - by destruct inclusive; simpl; [replace (hi <? lo + idx) with true by lia|replace (hi <=? lo + idx) with true by lia].
  - assert (E : (if (if inclusive then true else false) then hi <? lo + idx else hi <=? lo + idx) = false)
      by (destruct inclusive; lia).
    rewrite E, IH; [|destruct inclusive; lia..]. simpl. f_equal. f_equal; [f_equal; lia|].
    rewrite <- (fmap_S_seq 0), <- list_fmap_compose. apply list_fmap_ext. intros i x _. simpl. f_equal. lia.
Qed.

Lemma drain_array xs fuel idx : (length xs < idx + fuel)%nat → (idx <= length xs)%nat → Z.of_nat (length xs) < 2 ^ 64 →
  drain fuel (VArray xs) (Z.of_nat idx) = Some (drop idx xs).
Proof.
  revert idx. induction fuel as [|fuel IH]; intros idx Hf Hi Hl; [lia|]. simpl.
  unfold as_usize. rewrite Z.max_r, Z.mod_small by lia. unfold get.
  replace (0 <=? Z.of_nat idx) with true by lia.
  destruct (Z.ltb_spec (Z.of_nat idx) (Z.of_nat (length xs))) as [Hlt|Hge]; simpl.
  - rewrite Nat2Z.id. destruct (lookup_lt_is_Some_2 xs idx ltac:(lia)) as [x Hx]. rewrite Hx.
    cbn [mbind option_bind]. replace (Z.of_nat idx + 1) with (Z.of_nat (S idx)) by lia.
    rewrite IH by lia. simpl. by rewrite (drop_S _ _ _ Hx).
  - cbn [mbind option_bind]. by rewrite drop_ge by lia.
Qed.

(** A [for] over [lo..hi] or [lo..=hi] takes the integers from [lo] on, in
    order, up to [hi], without or with [hi], and is over at once when the
    range is empty; a [for] over an array takes its elements in order. *)
Theorem for_loops_enumerate lo hi k k' (inclusive : bool) xs :
  in_i128 lo → hi + (if inclusive then 1 else 0) <= i128_max → Z.of_nat (length xs) < 2 ^ 64 →
  let n := Z.to_nat (hi - lo + (if inclusive then 1 else 0)) in
  drain (S n) (VTuple [VInt lo k; VInt hi k'; VBool inclusive]) 0 = Some ((λ i, VInt (lo + Z.of_nat i) k) <$> seq 0 n)
  ∧ drain (S (length xs)) (VArray xs) 0 = Some xs.
Proof.
  intros Hlo Hhi Hl n. split.
  - rewrite (drain_range lo hi inclusive k k' n 0 (S n)); [|by rewrite Z.sub_0_r|lia|done..|by left|done].
    f_equal. apply list_fmap_ext. intros i x _. by rewrite Z.add_0_r.
  - change 0 with (Z.of_nat 0). by rewrite drain_array by lia.
Qed.

Lemma for_loops_enumerate_witness :
  drain 4 (VTuple [VInt 1 I32; VInt 3 I32; VBool true]) 0 = Some [VInt 1 I32; VInt 2 I32; VInt 3 I32]
  ∧ drain 2 (VArray [VUnit]) 0 = Some [VUnit].
Proof. by apply (for_loops_enumerate 1 3 I32 I32 true [VUnit]). Defined.

(** ** Places *)

(** The slot a projection selects in a value of its shape. *)
Definition slot_of (p : Projection) (v : Value) : option (list Value * nat) :=
  match p, v with
  | PField i, VStruct _ xs => Some (xs, i)
  | PTupleIndex i, VTuple xs => Some (xs, i)
  | PVariantField _ i, VEnum _ _ xs => Some (xs, i)
  | _, _ => None
  end.

(** [ps] leads to a component of [v] through structs, tuples and variants. *)
Fixpoint reaches (v : Value) (ps : list Projection) : bool :=
  match ps with
  | [] => true
  | p :: ps =>
      match slot_of p v with
      | Some (xs, i) => match xs !! i with Some w => reaches w ps | None => false end
      | None => false
      end
  end.

(** [ps] and [qs] part at projections that select different slots. *)
Definition index_of (p : Projection) : option nat :=
  match p with PField i | PTupleIndex i | PVariantField _ i => Some i | _ => None end.
Fixpoint apart (ps qs : list Projection) : bool :=
  match ps, qs with
  | p :: ps, q :: qs =>
      match index_of p, index_of q with
      | Some i, Some j => if (i =? j)%nat then apart ps qs else true
      | _, _ => false
      end
  | _, _ => false
  end.

(** The two parts of a path may be read apart, under different fuel. *)
Lemma read_written_app d d' ps qs v x : reaches v (ps ++ qs) = true →
  (w ← read_projs d ps (write_proj v (ps ++ qs) x); read_projs d' qs w) = Ret x.
Proof.
  revert v. induction ps as [|p ps IH]; intros v.
  - cbn [app]. simpl. revert v. induction qs as [|q qs IHq]; intros v; [done|]. cbn [reaches].
    destruct (slot_of q v) as [[xs i]|] eqn:E; [|done].
    destruct (xs !! i) as [w|] eqn:Ew; [|done]. intros Hr.
    destruct q, v; simplify_eq/=; unfold slot_update; rewrite list_lookup_alter_eq, Ew; by apply IHq.
  - cbn [app reaches]. destruct (slot_of p v) as [[xs i]|] eqn:E; [|done].
    destruct (xs !! i) as [w|] eqn:Ew; [|done]. intros Hr.
    destruct p, v; simplify_eq/=; unfold slot_update; rewrite list_lookup_alter_eq, Ew; by apply IH.
Qed.

Lemma read_written d ps v x : reaches v ps = true → read_projs d ps (write_proj v ps x) = Ret x.
Proof. apply (read_written_app d d []). Qed.

Lemma read_apart d ps qs v x : apart ps qs = true → reaches v qs = true →
  read_projs d qs (write_proj v ps x) = read_projs d qs v.
Proof.
  revert qs v. induction ps as [|p ps IH]; intros [|q qs] v; try done. cbn [apart reaches].
  destruct (index_of p) as [i|] eqn:Ei, (index_of q) as [j|] eqn:Ej; try done.
  intros Ha. destruct (slot_of q v) as [[xs j']|] eqn:Eq; [|done].
  assert (j' = j) as -> by (destruct q, v; simplify_eq/=; done).
  destruct (xs !! j) as [w|] eqn:Ew; [|done]. intros Hr.
  assert (Hslot : read_projs d qs (default VUnit (slot_update i (λ s, write_proj s ps x) xs !! j))
                  = read_projs d qs (default VUnit (xs !! j))).
  { unfold slot_update. destruct (Nat.eqb_spec i j) as [->|Hne].
    - rewrite list_lookup_alter_eq, Ew. by apply IH.
    - by rewrite list_lookup_alter_ne. }
  destruct q, v; simplify_eq/=; by destruct p; simplify_eq/=.
Qed.

Lemma reaches_plain v ps : reaches v ps = true → PDeref ∉ ps.
Proof.
  revert v. induction ps as [|p ps IH]; intros v; [intros _ H; by apply elem_of_nil in H|]. cbn [reaches].
  destruct (slot_of p v) as [[xs i]|] eqn:E; [|done]. destruct (xs !! i); [|done].
  intros Hr%IH [<-|?]%elem_of_cons; [by destruct v|done].
Qed.

(** A path without a dereference does not look at the locals. *)
Lemma read_projs_plain d d' ps v : PDeref ∉ ps → read_projs d ps v = read_projs d' ps v.
Proof.
  revert v. induction ps as [|p ps IH]; intros v Hp; [done|]. rewrite not_elem_of_cons in Hp. destruct Hp as [Hne Hps].
  cbn [read_projs]. destruct p; try done; cbn [read_one mbind Res_bind]; by apply IH.
Qed.

(** C6. Assigning to a place that exists, a path of fields, tuple indices and
    variant fields into a local, is seen by the next read of the place, and by
    no read of another local, or of a component of the local apart from it. *)
Theorem places_round_trip n locals l ps cur v :
  locals !! l = Some cur → reaches cur ps = true →
  let locals' := assign_locals locals (mkPlace l ps) v in
  read_locals n locals' (mkPlace l ps) = Ret v
  ∧ (∀ l' qs, l' <> l → PDeref ∉ qs →
       read_locals n locals' (mkPlace l' qs) = read_locals n locals (mkPlace l' qs))
  ∧ ∀ qs, apart ps qs = true → reaches cur qs = true →
      read_locals n locals' (mkPlace l qs) = read_locals n locals (mkPlace l qs).
Proof.
  intros Hl Hr. pose proof (lookup_lt_Some _ _ _ Hl) as Hlt.
  unfold assign_locals, read_locals. cbn [p_local p_proj]. rewrite Hl.
  set (locals' := match ps with [] => _ | _ => _ end).
  assert (E : locals' = <[l := write_proj cur ps v]> locals) by (subst locals'; destruct ps as [|[] ?]; done).
  clearbody locals'. subst locals'. rewrite list_lookup_insert_eq by done. simpl default. split_and!.
  - by apply read_written.
  - intros l' qs Hne Hqs. rewrite list_lookup_insert_ne by done. by apply read_projs_plain.
  - intros qs Ha Hq. rewrite read_apart by done. apply read_projs_plain. by eapply reaches_plain.
Qed.

Definition demo_locals : list Value :=
  [VStruct 7 [VInt 1 I32; VTuple [VUnit]]; VRef (mkRef 0 0 [PField 1] true)].

Lemma places_round_trip_witness :
  read_locals 0 (assign_locals demo_locals (mkPlace 0 [PField 0]) VVoid) (mkPlace 0 [PField 0]) = Ret VVoid
  ∧ read_locals 0 (assign_locals demo_locals (mkPlace 0 [PField 0]) VVoid) (mkPlace 0 [PField 1])
    = Ret (VTuple [VUnit]).
Proof.
  destruct (places_round_trip 0 demo_locals 0 [PField 0] _ VVoid eq_refl eq_refl) as (H1 & _ & H2).
  split; [exact H1|]. by rewrite H2.
Defined.

(** Through a reference held in a local, an assignment changes the place the
    reference was made for. *)
Theorem references_round_trip n locals l ps scope o proj m target v :
  locals !! l = Some (VRef (mkRef scope o proj m)) → o <> l → locals !! o = Some target →
  reaches target (proj ++ ps) = true →
  let locals' := assign_locals locals (mkPlace l (PDeref :: ps)) v in
  read_locals (S n) locals' (mkPlace l (PDeref :: ps)) = Ret v
  ∧ read_locals n locals' (mkPlace o (proj ++ ps)) = Ret v
  ∧ ∀ l', l' <> o → locals' !! l' = locals !! l'.
Proof.
  intros Hl Hne Ho Hr. pose proof (lookup_lt_Some _ _ _ Ho) as Hlt'.
  unfold assign_locals, read_locals. cbn [p_local p_proj]. rewrite Hl. cbn [ref_owner ref_proj]. rewrite Ho.
  rewrite list_lookup_insert_ne, Hl, list_lookup_insert_eq by done. simpl default. split_and!.
  - cbn [read_projs read_one deref_value ref_owner ref_proj]. rewrite list_lookup_insert_eq by done. simpl default.
    by apply read_written_app.
  - by apply read_written.
  - intros l' Hne'. by apply list_lookup_insert_ne.
Qed.

Lemma references_round_trip_witness :
  read_locals 0 (assign_locals demo_locals (mkPlace 1 [PDeref; PTupleIndex 0]) VVoid)
    (mkPlace 0 [PField 1; PTupleIndex 0]) = Ret VVoid.
Proof. by eapply (references_round_trip 0 demo_locals 1 [PTupleIndex 0] 0 0 [PField 1] true). Defined.

(** The scope of a reference is not looked at: a callee that dereferences a
    reference it is given reads its own local of that number. *)
Definition demo_borrow : Program := demo_prog
  [demo_fn 0 "main" [] 3
     [mkBlock 0 [SAssign (place_local 2) (RUse (num 1)); SAssign (place_local 1) (RRef false (place_local 2));
                 SAssign (place_local 0) (RCall (User 1) [here 1])] (TReturn (here 0))];
   demo_fn 1 "get" [1%nat] 3
     [mkBlock 0 [SAssign (place_local 2) (RUse (num 99))] (TReturn (OCopy (mkPlace 1 [PDeref])))]] [].

Theorem reference_scope_ignored :
  run_fn_by_name demo_borrow 20 "main" [] start = Ret (inl (VInt 99 I32), start).
Proof. by vm_compute. Qed.

(** ** The memory budget *)

(** The header and the operands of an aggregate. *)
Definition aggregate (r : Rvalue) : option (Z * list Operand) :=
  match r with
  | RAdtInit _ _ xs | RArrayInit xs => Some (24, xs)
  | RTupleInit xs => Some (16, xs)
  | _ => None
  end.

Lemma aggregate_charged `{RustStd} `{Host} prog n sub iso r base xs m vs :
  aggregate r = Some (base, xs) → res_map (eval_operand n (m_interp m)) xs = Ret vs →
  ∃ v, eval_rvalue prog n sub iso r m = charged (base + estimate_payload_bytes vs) v m.
Proof.
  intros Hr Hxs. destruct r; simplify_eq/=; unfold operands; eexists; unfold mbind at 1, M_bind at 1, reads at 1;
    rewrite Hxs; reflexivity.
Qed.

(** Building a tuple, an array, a struct or a variant that brings the memory
    above its budget stops the outermost function with the trap MT5009 at
    that statement, whatever steps are left; it does not answer with
    [MemBudgetExceeded]. *)
Theorem entry_overrun_traps `{RustStd} `{Host} prog n p r base xs vs m :
  let i := m_interp m in
  stmt_at prog m (SAssign p r) → aggregate r = Some (base, xs) →
  budget i <> 0 → 0 < mem_budget i → mem_used i <= mem_budget i →
  res_map (eval_operand n (m_interp (advance m))) xs = Ret vs →
  mem_budget i < saturating_add (mem_used i) (base + estimate_payload_bytes vs) →
  ∃ msg m', run_loop prog (S n) m = Ret (RTrap "MT5009" msg, m').
Proof.
  intros i Hat Hr Hb Hcap Hused Hvs Hover. subst i.
  pose proof Hat as (t & s & f & b & Hs & Hf & Hbl & Hst).
  rewrite run_loop_S. cbv zeta. rewrite Hs. rewrite (proj2 (Z.eqb_neq _ _) Hb).
  replace (0 <? mem_budget (m_interp m)) with true by lia.
  replace (mem_budget (m_interp m) <? mem_used (m_interp m)) with false by lia. cbn [andb].
  set (m0 := mkMachine (set_budget _ _) (m_host m)).
  unfold one_step. rewrite (step_stmt prog _ _ _ m0 (SAssign p r)) by (by exists t, s, f, b).
  assert (Hvs0 : res_map (eval_operand n (m_interp (advance m0))) xs = Ret vs).
  { revert Hvs. unfold advance. simpl. rewrite Hs. done. }
  cbn [exec_stmt]. unfold mbind at 1, M_bind at 1.
  destruct (aggregate_charged prog n (subfn prog (subfn_loop prog n)) (isolated prog (run_loop prog n)) r base xs _ vs Hr Hvs0)
    as [v ->].
  assert (Hadv : mem_used (m_interp (advance m0)) = mem_used (m_interp m) ∧
                 mem_budget (m_interp (advance m0)) = mem_budget (m_interp m)).
  { unfold advance. simpl. rewrite Hs. done. }
  destruct Hadv as [E1 E2].
  unfold charged, charge_mem, mbind, M_bind. rewrite E1, E2.
  replace (0 <? mem_budget (m_interp m)) with true by lia.
  rewrite (proj2 (Z.ltb_lt _ _) Hover). cbn [andb]. by eexists _, _.
Qed.

(** [big] builds a pair of integers; [caller] calls it and returns. *)
Definition demo_pair : Program :=
  demo_prog
    [demo_fn 0 "big" [] 1 [mkBlock 0 [SAssign (place_local 0) (RTupleInit [num 1; num 2])] (TReturn (here 0))];
     demo_fn 1 "caller" [] 1 [mkBlock 0 [SAssign (place_local 0) (RCall (User 0) [])] (TReturn (num 7))]] [].

Lemma entry_overrun_traps_witness :
  (∃ msg m', run_loop demo_pair 1
     (mkMachine (set_mem_budget 20 (set_stack [Frame_new 0 [VVoid] 0 0] (Interp_new 10))) start)
     = Ret (RTrap "MT5009" msg, m'))
  ∧ run_fn_with_resource_budget demo_pair 9 "caller" [] 100 20 start = Ret (inr (RMemBudgetExceeded 48 20), start).
Proof.
  split; [|by vm_compute].
  eapply (entry_overrun_traps demo_pair 0 (place_local 0) (RTupleInit [num 1; num 2]) 16 [num 1; num 2]
    [VInt 1 I32; VInt 2 I32]); try done.
  by eexists _, _, _, _.
Defined.

(** ** Operators *)

(** Values the operators look at neither as a float, a string nor an integer. *)
Definition unseen (v : Value) : bool :=
  negb (is_float v) && negb (is_str v) && match as_int v with Some _ => false | None => true end.

(** A binary operator traps in one case, a division or a remainder by zero,
    with the code MT5003; on integers it computes modulo [2^128], whatever
    their type.  Values that are not numbers, booleans or strings are read as
    zero: two characters, durations, tuples, structs or variants always
    compare equal. *)
Theorem operators_total `{RustStd} op l r :
  (∀ c m, eval_binop op l r = inr (c, m) →
     c = "MT5003" ∧ (op = Div ∨ op = Rem) ∧
     (as_int r = Some 0 ∨ as_int r = None ∨ f64_eqb (as_float r) (S754_zero false) = true))
  ∧ (∀ a b k k', l = VInt a k → r = VInt b k' →
     eval_binop Add l r = inl (VInt (wrap128 (a + b)) k) ∧ eval_binop Sub l r = inl (VInt (wrap128 (a - b)) k)
     ∧ eval_binop Mul l r = inl (VInt (wrap128 (a * b)) k)
     ∧ (b <> 0 → eval_binop Div l r = inl (VInt (wrap128 (Z.quot a b)) k)
               ∧ eval_binop Rem l r = inl (VInt (wrap128 (Z.rem a b)) k))
     ∧ eval_binop BLt l r = inl (VBool (a <? b)) ∧ eval_binop BEq l r = inl (VBool (a =? b)))
  ∧ (unseen l = true → unseen r = true →
     eval_binop BEq l r = inl (VBool true) ∧ eval_binop BNe l r = inl (VBool false)
     ∧ eval_binop BLt l r = inl (VBool false) ∧ eval_binop BGe l r = inl (VBool true)).
Proof.
  split_and!.
  - intros c m. unfold eval_binop. destruct (is_float l || is_float r) eqn:Ef.
    { destruct op; simpl; try done. destruct (f64_eqb _ _) eqn:E; [|done]. intros [= <- <-]. auto. }
    destruct (is_str l || is_str r); [done|]. destruct op; simpl; try done;
      destruct (Z.eqb_spec (default 0 (as_int r)) 0) as [E|]; try done; intros [= <- <-];
      (split_and!; [done|auto|]); destruct (as_int r); simpl in E; subst; auto.
  - intros a b k k' -> ->. split_and!; try done. intros Hb. unfold eval_binop. simpl.
    by destruct (Z.eqb_spec b 0).
  - unfold unseen, eval_binop. intros Hl Hr.
    destruct (is_float l) eqn:E1, (is_float r) eqn:E2, (is_str l) eqn:E3, (is_str r) eqn:E4; try done; simpl in *;
      try (by rewrite andb_false_r in Hr).
    destruct (as_int l) eqn:E5, (as_int r) eqn:E6; try done.
Qed.

Lemma operators_total_witness :
  eval_binop (H := plain_std) Div (VInt 1 I32) (VInt 0 I32) = inr ("MT5003", lit "divide by zero")
  ∧ eval_binop (H := plain_std) Add (VInt 127 I8) (VInt 1 I8) = inl (VInt 128 I8)
  ∧ eval_binop (H := plain_std) BEq (VChar 97) (VChar 98) = inl (VBool true).
Proof.
  split; [by vm_compute|]. split.
  - apply (proj1 (proj2 (operators_total Add (VInt 127 I8) (VInt 1 I8))) 127 1 I8 I8 eq_refl eq_refl).
  - apply (proj2 (proj2 (operators_total BEq (VChar 97) (VChar 98))) eq_refl eq_refl).
Defined.
