(* ===== verification/IrSwarmTheorems.v ===== *)
(** * Properties of the swarm's consensus

    The panel is asked within the budget, the replies are partitioned into
    clusters, and each strategy picks the cluster it promises ([IrSwarm]). *)

From stdpp Require Import base list strings numbers sets.
From Stdlib Require Import SpecFloat.
From S2P Require Import Prelude TyArena IrSyntax IrValue IrMethods IrSwarm IrInterp IrValueSafe IrMethodsSafe IrTheorems.

Local Open Scope Z_scope.

Section panel.
Context `{RustStd}.

(** What a member answers, unless it fails. *)
Definition answer (prompt : rstr) (m : Value) : option Reply :=
  let '(label, body, cost, errored) := dispatch_member prompt m in
  if errored then None else Some (label, body, cost).

Definition spent (replies : list Reply) : Z := foldl (λ c r, saturating_add c r.2) 0 replies.

Lemma spent_snoc rs r : spent (rs ++ [r]) = saturating_add (spent rs) r.2.
Proof. unfold spent. by rewrite foldl_app. Qed.

Lemma ask_panel_go prompt fa limit panel rs replies consumed stopped :
  ask_panel prompt fa limit panel rs (spent rs) = (replies, consumed, stopped) →
  ∃ k, (k <= length panel)%nat ∧ replies = rs ++ omap (answer prompt) (take k panel)
    ∧ consumed = spent replies
    ∧ (∀ j, (j < k)%nat → spent (rs ++ omap (answer prompt) (take j panel)) < limit)
    ∧ (stopped = true → (k < length panel)%nat ∧ limit <= consumed)
    ∧ (stopped = false → fa = false → k = length panel).
Proof.
  revert rs. induction panel as [|m panel IH]; intros rs; cbn [ask_panel].
  { intros [= <- <- <-]. exists 0%nat. rewrite app_nil_r. split_and!; done || lia. }
  destruct (Z.leb_spec limit (spent rs)) as [Hle|Hlt].
  { intros [= <- <- <-]. exists 0%nat. rewrite app_nil_r. simpl. split_and!; done || lia. }
  assert (Hans : ∀ k, omap (answer prompt) (take (S k) (m :: panel)) =
    match answer prompt m with Some r => [r] | None => [] end ++ omap (answer prompt) (take k panel)).
  { intros k. simpl. by destruct (answer prompt m). }
  unfold answer in Hans at 2. destruct (dispatch_member prompt m) as [[[label body] cost] errored].
  destruct errored.
  - intros E. apply IH in E as (k & Hk & Hr & Hc & Hj & Hs & Hf). exists (S k). rewrite Hans.
    split_and!; simpl; [lia|done|done| |intros ?; split; [|by apply Hs]; destruct Hs; [done|lia]
                       |intros ??; f_equal; auto].
    intros [|j] Hlt'; [simpl; by rewrite app_nil_r|]. rewrite Hans. apply Hj. lia.
  - pose proof (spent_snoc rs (label, body, cost)) as Hsp. simpl in Hsp. rewrite <- Hsp.
    destruct (fa && _) eqn:Efa.
    { intros [= <- <- <-]. exists 1%nat. rewrite Hans. simpl. split_and!; [lia|done|done| |done|].
      - intros [|j] Hj; [simpl; by rewrite app_nil_r|lia].
      - intros _ ->. done. }
    intros E. apply IH in E as (k & Hk & Hr & Hc & Hj & Hs & Hf). exists (S k). rewrite Hans, app_assoc.
    split_and!; simpl; [lia|done|done| |intros ?; split; [|by apply Hs]; destruct Hs; [done|lia]
                       |intros ??; f_equal; auto].
    intros [|j] Hlt'; [simpl; by rewrite app_nil_r|]. rewrite Hans, app_assoc. apply Hj. lia.
Qed.

(** The panel is asked in order: the replies are the answers of a first part
    of it, the members that fail left out.  A member is asked only while
    what was spent is below the limit, so at most the last reply passes it.
    The run is marked stopped exactly when members are left and the limit is
    reached; without early agreement every other run asks all. *)
Theorem panel_within_budget prompt fa limit panel replies consumed stopped :
  ask_panel prompt fa limit panel [] 0 = (replies, consumed, stopped) →
  ∃ k, (k <= length panel)%nat ∧ replies = omap (answer prompt) (take k panel)
    ∧ consumed = spent replies
    ∧ (∀ j, (j < k)%nat → spent (omap (answer prompt) (take j panel)) < limit)
    ∧ (stopped = true → (k < length panel)%nat ∧ limit <= consumed)
    ∧ (stopped = false → fa = false → k = length panel).
Proof. apply (ask_panel_go prompt fa limit panel []). Qed.

(** ** Clusters *)

Lemma place_perm same i cs : concat (place same i cs) ≡ₚ i :: concat cs.
Proof.
  induction cs as [|c cs IH]; simpl; [done|]. destruct (same _); simpl.
  - rewrite <- app_assoc. simpl. by rewrite Permutation_middle.
  - by rewrite IH, Permutation_middle.
Qed.

Lemma place_nonempty same i cs : Forall (.≠ []) cs → Forall (.≠ []) (place same i cs).
Proof.
  induction 1 as [|c cs Hc Hcs IH]; simpl; [by repeat constructor|]. destruct (same _).
  - constructor; [by destruct c|done].
  - by constructor.
Qed.

Lemma cluster_bodies_partition bodies :
  concat (cluster_bodies bodies) ≡ₚ seq 0 (length bodies) ∧ Forall (.≠ []) (cluster_bodies bodies).
Proof.
  assert (Hg : ∀ (same : nat → nat → bool) ixs cs, Forall (.≠ []) cs →
    let r := foldl (λ clusters i, place (same i) i clusters) cs ixs in
    concat r ≡ₚ ixs ++ concat cs ∧ Forall (.≠ []) r).
  { intros same ixs. induction ixs as [|i ixs IH]; intros cs Hcs; [done|]. simpl.
    destruct (IH (place (same i) i cs) ltac:(by apply place_nonempty)) as [H1 H2]. split; [|done].
    rewrite H1, place_perm. by rewrite Permutation_middle. }
  destruct (Hg (λ i rep, same_body (forallb (λ b, str_len b <=? 24) bodies)
    (default [] (bodies !! i)) (default [] (bodies !! rep))) (seq 0 (length bodies)) [] ltac:(done)) as [H1 H2].
  split; [|exact H2]. etransitivity; [exact H1|]. simpl. by rewrite app_nil_r.
Qed.

(** ** The greatest key *)

Lemma str_ltb_trans a b c : str_ltb a b = true → str_ltb b c = true → str_ltb a c = true.
Proof.
  revert b c. induction a as [|x a IH]; intros [|y b] [|z c]; simpl; try done.
  intros [H1|[H1 H1']%andb_true_iff]%orb_true_iff [H2|[H2 H2']%andb_true_iff]%orb_true_iff;
    apply orb_true_iff; first [left; lia|right]. rewrite (IH b c) by done. lia.
Qed.

Lemma str_ltb_conn a b : str_ltb a b = false → str_ltb b a = false → a = b.
Proof.
  revert b. induction a as [|x a IH]; intros [|y b]; simpl; try done.
  intros [H1 H1']%orb_false_iff [H2 H2']%orb_false_iff. assert (x = y) as -> by lia.
  rewrite Z.eqb_refl in H1', H2'. f_equal. by apply IH.
Qed.

Lemma str_ltb_irrefl a : str_ltb a a = false.
Proof. induction a as [|x a IH]; [done|]. simpl. rewrite IH. lia. Qed.

Lemma key_le_trans a b c : key_le a b = true → key_le b c = true → key_le a c = true.
Proof.
  unfold key_le. rewrite !negb_true_iff. intros H1 H2. apply not_true_is_false. intros H3.
  destruct (str_ltb a b) eqn:E; [by rewrite (str_ltb_trans c a b) in H2|].
  rewrite (str_ltb_conn a b) in H3 by done. congruence.
Qed.

Lemma max_by_key_spec {A} (key : A → list Z) l :
  match max_by_key key l with
  | Some x => x ∈ l ∧ ∀ y, y ∈ l → key_le (key y) (key x) = true
  | None => l = []
  end.
Proof.
  induction l as [|x l IH]; [done|]. simpl. destruct (max_by_key key l) as [m|].
  - destruct IH as [Hm Hmax]. destruct (key_le (key x) (key m)) eqn:E.
    + split; [by right|]. intros y [->|Hy]%elem_of_cons; [done|auto].
    + assert (Hxm : key_le (key m) (key x) = true).
      { unfold key_le in *. rewrite negb_false_iff in E. rewrite negb_true_iff.
        apply not_true_is_false. intros E'. pose proof (str_ltb_trans _ _ _ E E') as E''.
        by rewrite str_ltb_irrefl in E''. }
      split; [by left|]. intros y [->|Hy]%elem_of_cons.
      * unfold key_le. by rewrite str_ltb_irrefl.
      * by eapply key_le_trans; [apply Hmax|].
  - subst l. split; [by left|]. intros y [->|[]%elem_of_nil]%elem_of_cons. unfold key_le. by rewrite str_ltb_irrefl.
Qed.

Lemma key_le_cons x a y b : key_le (x :: a) (y :: b) = true ↔ x < y ∨ x = y ∧ key_le a b = true.
Proof.
  unfold key_le. simpl. rewrite negb_true_iff, orb_false_iff, andb_false_iff, negb_true_iff.
  destruct (Z.eqb_spec y x); split; intuition lia.
Qed.

Lemma outside_spec n c i : i ∈ outside n c ↔ (i < n)%nat ∧ i ∉ c.
Proof.
  unfold outside. rewrite list_elem_of_In, filter_In, <- list_elem_of_In, elem_of_seq.
  rewrite negb_true_iff, bool_decide_eq_false. split; intros [??]; split; try done; lia.
Qed.

(** ** Strategies *)

(** [body] is the consensus [c] stands for, [dissents] the replies outside it. *)
Definition picks (bodies : list rstr) (n : nat) (c : list nat) (r : option rstr * list nat) : Prop :=
  r.1 = Some (first_body bodies c) ∧ ∀ i, i ∈ r.2 ↔ (i < n)%nat ∧ i ∉ c.
Definition undecided (n : nat) (r : option rstr * list nat) : Prop := r = (None, seq 0 n).

Lemma picks_outside bodies n c : picks bodies n c (Some (first_body bodies c), outside n c).
Proof. split; [done|]. intros i. apply outside_spec. Qed.

(** The clusters partition the replies, none of them empty, and each
    strategy picks what it promises: the majority the largest cluster, the
    one with the earliest member among equals; the weighted vote one of the
    greatest total weight; unanimity the only cluster there is; first
    agreement the first of two or more; otherwise there is no consensus and
    every reply dissents.  Only a sum of weights beyond 32 bits fails. *)
Theorem strategies_decide bodies weights n :
  let clusters := cluster_bodies bodies in
  concat clusters ≡ₚ seq 0 (length bodies) ∧ Forall (.≠ []) clusters
  ∧ (match clusters with
     | [] => undecided n (resolve_majority bodies clusters n)
     | _ => ∃ c, c ∈ clusters ∧ picks bodies n c (resolve_majority bodies clusters n)
              ∧ ∀ c', c' ∈ clusters → (length c' < length c)%nat
                  ∨ length c' = length c ∧ min_index c <= min_index c'
     end)
  ∧ (∀ r, resolve_weighted bodies clusters weights n = Some r →
       match clusters with
       | [] => undecided n r
       | _ => ∃ c w, c ∈ clusters ∧ picks bodies n c r ∧ cluster_weight weights c = Some w
                ∧ ∀ c', c' ∈ clusters → ∃ w', cluster_weight weights c' = Some w' ∧ w' <= w
       end)
  ∧ ((∃ c, clusters = [c] ∧ resolve_unanimous bodies clusters n = (Some (first_body bodies c), []))
     ∨ length clusters <> 1%nat ∧ undecided n (resolve_unanimous bodies clusters n))
  ∧ ((∃ c, c ∈ clusters ∧ 2 <= Z.of_nat (length c) ∧ picks bodies n c (resolve_first_agreed bodies clusters n))
     ∨ (∀ c, c ∈ clusters → Z.of_nat (length c) < 2) ∧ undecided n (resolve_first_agreed bodies clusters n)).
Proof.
  intros clusters. destruct (cluster_bodies_partition bodies) as [Hp Hne]. fold clusters in Hp, Hne.
  split; [done|]. split; [done|]. clearbody clusters. split_and!.
  - unfold resolve_majority.
    pose proof (max_by_key_spec (λ c, [Z.of_nat (length c); - min_index c]) clusters) as Hm.
    destruct (max_by_key _ clusters) as [c|]; [|by rewrite Hm].
    destruct Hm as [Hc Hmax]. destruct clusters as [|c0 cs]; [by apply elem_of_nil in Hc|].
    exists c. split; [done|]. split; [apply picks_outside|]. intros c' Hc'. apply Hmax in Hc'.
    rewrite !key_le_cons in Hc'. lia.
  - intros r. destruct clusters as [|c0 cs]; [by intros [= <-]|]. unfold resolve_weighted.
    intros E. apply bind_Some in E as (ws & Ews & E). apply mapM_Some in Ews.
    pose proof (max_by_key_spec (λ cw : list nat * Z, [cw.2; Z.of_nat (length cw.1); - min_index cw.1])
      (zip (c0 :: cs) ws)) as Hm.
    destruct (max_by_key _ (zip _ _)) as [[c w]|]; [|done]. injection E as <-. destruct Hm as [Hc Hmax].
    apply list_elem_of_lookup_1 in Hc as [i Hi]. apply lookup_zip_Some in Hi as [Hi Hw].
    exists c, w. split; [by eapply list_elem_of_lookup_2|]. split; [apply picks_outside|].
    split; [exact (Forall2_lookup_lr _ _ _ _ _ _ Ews Hi Hw)|]. intros c' Hc'. apply list_elem_of_lookup_1 in Hc' as [j Hj].
    destruct (Forall2_lookup_l _ _ _ _ _ Ews Hj) as (w' & Hw' & Ew'). exists w'. split; [done|].
    assert (Hin : (c', w') ∈ zip (c0 :: cs) ws).
    { apply list_elem_of_lookup. exists j. by apply lookup_zip_Some. }
    apply Hmax in Hin as Hk. clear Hmax.
    rewrite !key_le_cons in Hk. simpl in Hk. lia.
  - destruct clusters as [|c [|]]; [by right|left; eauto|by right].
  - unfold resolve_first_agreed. destruct (List.find _ clusters) as [c|] eqn:E.
    + apply find_some in E as [Hc Hl]. left. exists c. split; [by apply list_elem_of_In|].
      split; [lia|apply picks_outside].
    + right. split; [|done]. intros c Hc. apply list_elem_of_In in Hc.
      pose proof (find_none _ _ E c Hc) as Hl. simpl in Hl. lia.
Qed.
End panel.

#[local] Existing Instance plain_std.

(** Three members of which the second fails, 30 cents each. *)
Definition demo_panel : list Value :=
  [member_value (lit "mock") (lit "a") (Some (lit "yes")) (Some 30) false;
   member_value (lit "mock_error") (lit "b") (Some []) (Some 0) true;
   member_value (lit "mock") (lit "c") (Some (lit "no")) (Some 30) false].

Lemma panel_within_budget_witness :
  ask_panel [] false 20 demo_panel [] 0 = ([(lit "a", lit "yes", 30)], 30, true)
  ∧ ∃ k, (k < 3)%nat ∧ [(lit "a", lit "yes", 30)] = omap (answer []) (take k demo_panel).
Proof.
  assert (E : ask_panel [] false 20 demo_panel [] 0 = ([(lit "a", lit "yes", 30)], 30, true)) by (by vm_compute).
  split; [exact E|]. destruct (panel_within_budget [] false 20 demo_panel _ _ _ E) as (k & _ & Hr & _ & _ & Hs & _).
  exists k. split; [by apply Hs|exact Hr].
Defined.

Lemma strategies_decide_witness :
  let bodies := [lit "yes"; lit "no"; lit "Yes"] in
  cluster_bodies bodies = [[0]; [1]; [2]]%nat
  ∧ resolve_weighted bodies (cluster_bodies bodies) [1; 5; 1] 3 = Some (Some (lit "no"), [0; 2]%nat)
  ∧ ∃ c w, c ∈ cluster_bodies bodies ∧ picks bodies 3 c (Some (lit "no"), [0; 2]%nat)
      ∧ cluster_weight [1; 5; 1] c = Some w.
Proof.
  intros bodies. assert (E : resolve_weighted bodies (cluster_bodies bodies) [1; 5; 1] 3 = Some (Some (lit "no"), [0; 2]%nat))
    by (by vm_compute).
  split; [by vm_compute|]. split; [exact E|].
  pose proof (proj1 (proj2 (proj2 (proj2 (strategies_decide bodies [1; 5; 1] 3)))) _ E) as Hw.
  change (cluster_bodies bodies) with [[0]; [1]; [2]]%nat in Hw |- *.
  destruct Hw as (c & w & Hc & Hp & Hw & _). by exists c, w.
Defined.

(** The costs of a panel are added without a guard when the consensus is
    built: two replies of [2^63] cents, which the budget admits, panic. *)
Theorem total_cost_overflows :
  let m := member_value (lit "mock") (lit "a") (Some (lit "yes")) (Some (2 ^ 63)) false in
  run_swarm [VStr []; VArray [m; m]; budget_value u64_max; strategy_value STRAT_MAJORITY] = None.
Proof. by vm_compute. Qed.
