(* ===== verification/MacroExpand.v ===== *)
(** * Macro tokens, sets of scopes, the expander and the registry

    [crates/mty-macros/src/]: [token.rs], [scopes.rs], [hygiene.rs], then
    [expand.rs], then the tables of [registry.rs].  A
    [BTreeSet<u32>] is a [gset Z]; the source text of a token is a byte
    string.  The compiled token rules are the parameter [logos] of [Lexer]. *)

From stdpp Require Import base list strings numbers gmap sets pretty.
From S2P Require Import Prelude ParserCore ParserLogic Lexer Semver.

Local Open Scope string_scope.
Local Open Scope list_scope.
Notation length := List.length (only parsing).

(** ** Tokens *)

Record Tok : Set := mkTok { tok_kind : SyntaxKind; tok_text : string }.

#[export] Instance Tok_eq_dec : EqDecision Tok.
Proof. solve_decision. Defined.

Definition tok_is_ident (t : Tok) : bool := kind_eqb (tok_kind t) IDENT.
Definition tok_is_trivia (t : Tok) : bool := is_trivia (tok_kind t).

Fixpoint tokens_to_source (toks : list Tok) : string :=
  match toks with [] => "" | t :: toks => tok_text t +:+ tokens_to_source toks end.

(** The loop of [lex_fragment]. *)
Fixpoint fragment (lexed : list Token) : option (list Tok) :=
  match lexed with
  | [] => Some []
  | t :: lexed =>
      if kind_eqb (t_kind t) ERROR then None
      else
        out ← fragment lexed;
        Some (if kind_eqb (t_kind t) EOF then out else mkTok (t_kind t) (t_text t) :: out)
  end.

Definition lex_fragment (logos : string → list LogosItem) (src : string) : option (list Tok) := fragment (lex logos src).

(** ** Scopes *)

Notation ScopeId := Z (only parsing).
Notation Scopes := (gset Z) (only parsing).

Definition with_scope (s : ScopeId) (self : Scopes) : Scopes := {[s]} ∪ self.
Definition without_scope (s : ScopeId) (self : Scopes) : Scopes := self ∖ {[s]}.

(** The set after [insert], and whether the scope was new; [remove] likewise. *)
Definition insert_scope (self : Scopes) (s : ScopeId) : Scopes * bool := (with_scope s self, bool_decide (s ∉ self)).
Definition remove_scope (self : Scopes) (s : ScopeId) : Scopes * bool := (without_scope s self, bool_decide (s ∈ self)).

Definition is_subset (self other : Scopes) : bool := bool_decide (self ⊆ other).
Definition is_superset (self other : Scopes) : bool := is_subset other self.

Definition intersect (self other : Scopes) : Scopes := self ∩ other.
Definition union (self other : Scopes) : Scopes := self ∪ other.

Record ScopeGen : Set := mkScopeGen { sg_next : Z }.

(** [ScopeGen::new] *)
Definition new_scope_gen : ScopeGen := mkScopeGen 1.

(** [None]: the [u32] range is exhausted. *)
Definition fresh_scope (g : ScopeGen) : option (ScopeId * ScopeGen) :=
  if bool_decide (sg_next g + 1 < 2 ^ 32)%Z then Some (sg_next g, mkScopeGen (sg_next g + 1)) else None.

(** [None]: the subtraction underflows. *)
Definition count_minted (g : ScopeGen) : option Z := if bool_decide (0 < sg_next g)%Z then Some (sg_next g - 1)%Z else None.

(** ** Resolution *)

Inductive ResolveAmbiguity : Set := Ambiguous.

Section resolve.
Context {P : Type}.

(** The best candidate so far with its score, and whether another has it. *)
Definition consider (name : Scopes) (st : option (nat * P) * bool) (cand : Scopes * P) : option (nat * P) * bool :=
  if negb (is_subset cand.1 name) then st
  else
    let score := size cand.1 in
    match st.1 with
    | None => (Some (score, cand.2), st.2)
    | Some (prev_score, _) =>
        if (prev_score <? score)%nat then (Some (score, cand.2), false)
        else if (score =? prev_score)%nat then (st.1, true)
        else st
    end.

Definition resolve_scopes (name : Scopes) (candidates : list (Scopes * P)) : Res ResolveAmbiguity (option P) :=
  let '(best, tied) := foldl (consider name) (None, false) candidates in
  if tied then Err Ambiguous else Ok (snd <$> best).
End resolve.

(** ** Hygiene *)

Record ScopedTok : Type := mkScopedTok { st_tok : Tok; st_scopes : Scopes }.

Definition user_tok (t : Tok) : ScopedTok := mkScopedTok t ∅.
Definition tok_with_scope (s : ScopeId) (st : ScopedTok) : ScopedTok := mkScopedTok (st_tok st) (with_scope s (st_scopes st)).

Record HygieneEnv : Type := mkEnv { he_intro : ScopeId; he_def_scopes : Scopes }.

Definition body_scopes (env : HygieneEnv) : Scopes := with_scope (he_intro env) (he_def_scopes env).
Definition scope_body_token (env : HygieneEnv) (t : Tok) : ScopedTok := mkScopedTok t (body_scopes env).
Definition scope_user_token (env : HygieneEnv) (t : Tok) (existing : Scopes) : ScopedTok := mkScopedTok t existing.
Definition apply_to_body (env : HygieneEnv) (body : list Tok) : list ScopedTok := scope_body_token env <$> body.
Definition apply_to_argument (env : HygieneEnv) (arg : list Tok) (caller_scopes : Scopes) : list ScopedTok :=
  (λ t, mkScopedTok t caller_scopes) <$> arg.

Definition strip_scopes (toks : list ScopedTok) : list Tok := st_tok <$> toks.

(** ** Lemmas *)

Lemma tokens_to_source_app a b : tokens_to_source (a ++ b) = tokens_to_source a +:+ tokens_to_source b.
Proof. induction a as [|t a IH]; [done|]. cbn [app tokens_to_source]. by rewrite IH, string_app_assoc. Qed.

(** Lexing a fragment and joining the texts gives the source back. *)
Lemma fragment_text lexed toks :
  Forall (λ t, t_kind t = EOF → t_text t = "") lexed → fragment lexed = Some toks → tokens_to_source toks = tokens_text lexed.
Proof.
  intros H. revert toks. induction H as [|t l Ht _ IH]; intros toks; cbn; [by intros [= <-]|].
  destruct (kind_eqb (t_kind t) ERROR); [done|]. destruct (fragment l) as [out|]; [|done]. cbn [mbind option_bind]. intros [= <-].
  destruct (kind_eqb (t_kind t) EOF) eqn:E; cbn; rewrite (IH out eq_refl); [|done].
  by rewrite (Ht (proj1 (kind_eqb_eq _ _) E)).
Qed.

Lemma lex_fragment_text logos `{!LogosOk logos} src toks : lex_fragment logos src = Some toks → tokens_to_source toks = src.
Proof.
  intros H. rewrite (fragment_text (lex logos src)); [apply lex_text'; apply _| |exact H].
  unfold lex. apply Forall_app. split; [|by constructor]. apply Forall_map. eapply Forall_impl; [apply logos_no_eof|].
  intros [[[k|] a] b] Hk; cbn in *; congruence.
Qed.

Section resolve_lemmas.
Context {P : Type}.

(** What the loop knows of the candidates seen. *)
Definition Best (name : Scopes) (cands : list (Scopes * P)) (st : option (nat * P) * bool) : Prop :=
  match st.1 with
  | None => st.2 = false ∧ ∀ c, c ∈ cands → ¬ c.1 ⊆ name
  | Some (n, p) =>
      ∃ l1 s l2, cands = l1 ++ (s, p) :: l2 ∧ s ⊆ name ∧ size s = n ∧
        (∀ c, c ∈ cands → c.1 ⊆ name → (size c.1 ≤ n)%nat) ∧
        (∀ c, c ∈ l1 → c.1 ⊆ name → (size c.1 < n)%nat) ∧
        (st.2 = true ↔ ∃ c, c ∈ l2 ∧ c.1 ⊆ name ∧ size c.1 = n)
  end.

Lemma consider_best name cands st c : Best name cands st → Best name (cands ++ [c]) (consider name st c).
Proof.
  destruct st as [[[n p]|] tied], c as [s q]; unfold Best, consider, is_subset; cbn [fst snd].
  - intros (l1 & s1 & l2 & -> & Hs1 & Hn & Hmax & Hlt & Ht).
    assert (∀ c, c ∈ (l1 ++ (s1, p) :: l2) ++ [(s, q)] ↔ c ∈ l1 ++ (s1, p) :: l2 ∨ c = (s, q)) as Hin
      by (intros c; by rewrite elem_of_app, list_elem_of_singleton).
    destruct (decide (s ⊆ name)) as [Hs|Hs]; [rewrite (bool_decide_eq_true_2 (s ⊆ name) Hs)|rewrite (bool_decide_eq_false_2 (s ⊆ name) Hs)]; cbn [negb].
    2: { exists l1, s1, (l2 ++ [(s, q)]). split_and!; [by rewrite <-app_assoc|done|done| |done|].
         - intros c [Hc| ->]%Hin ?; [by apply Hmax|done].
         - rewrite Ht. split; [intros (c & ? & ? & ?); exists c; rewrite elem_of_app; auto|].
           intros (c & [?| ->%list_elem_of_singleton]%elem_of_app & ? & ?); [by exists c|done]. }
    destruct (Nat.ltb_spec n (size s)) as [Hlt'|Hge]; cbn [fst snd].
    + exists (l1 ++ (s1, p) :: l2), s, []. split_and!; [done|done|done| | |].
      * intros c [Hc| ->]%Hin ?; [specialize (Hmax c Hc ltac:(done)); lia|done].
      * intros c Hc ?. specialize (Hmax c Hc ltac:(done)). lia.
      * split; [done|]. by intros (c & ?%elem_of_nil & _).
    + assert (∀ c, c ∈ (l1 ++ (s1, p) :: l2) ++ [(s, q)] → c.1 ⊆ name → (size c.1 ≤ n)%nat) as Hmax'
        by (intros c [Hc| ->]%Hin ?; [by apply Hmax|done]).
      destruct (Nat.eqb_spec (size s) n) as [E|E]; cbn [fst snd]; exists l1, s1, (l2 ++ [(s, q)]);
        (split_and!; [by rewrite <-app_assoc|done..|]).
      * split; [|done]. intros _. exists (s, q). rewrite elem_of_app, list_elem_of_singleton. by split_and!; [right|..].
      * rewrite Ht. split; [intros (c & ? & ? & ?); exists c; rewrite elem_of_app; auto|].
        intros (c & [?| ->%list_elem_of_singleton]%elem_of_app & ? & ?); [by exists c|done].
  - intros [-> Hnone]. destruct (decide (s ⊆ name)) as [Hs|Hs];
      [rewrite (bool_decide_eq_true_2 (s ⊆ name) Hs)|rewrite (bool_decide_eq_false_2 (s ⊆ name) Hs)]; cbn [negb fst snd].
    + exists cands, s, []. split_and!; [done|done|done| | |].
      * intros c [Hc| ->%list_elem_of_singleton]%elem_of_app ?; [by destruct (Hnone c Hc)|done].
      * intros c Hc ?. by destruct (Hnone c Hc).
      * split; [done|]. by intros (c & ?%elem_of_nil & _).
    + split; [done|]. intros c [Hc| ->%list_elem_of_singleton]%elem_of_app; [by apply Hnone|done].
Qed.

Lemma foldl_best name cands : Best name cands (foldl (consider name) (None, false) cands).
Proof.
  induction cands as [|c cands IH] using rev_ind; [split; [done|by intros ? ?%elem_of_nil]|].
  rewrite foldl_app. cbn. by apply consider_best.
Qed.
End resolve_lemmas.

(** ** Expansion of declarative macros

    [crates/mty-macros/src/expand.rs] and the definitions of [registry.rs].
    A loop over the body is given the length of the body as fuel: its index
    grows.  [None] is the panic of an exhausted scope generator. *)

Inductive MacroKind : Set := Declarative | Procedural.

Record MacroDef : Set := mkMacroDef {
  md_name : string; md_params : list string; md_body : list Tok; md_is_pub : bool; md_kind : MacroKind }.

Definition arity (d : MacroDef) : nat := length (md_params d).
Definition is_param (d : MacroDef) (ident : string) : bool := bool_decide (ident ∈ md_params d).

Inductive ExpandError : Set :=
  | ArityMismatch (expected actual : nat)
  | RecursionLimit
  | BadArgumentTokens (index : nat).

Definition kind_at (body : list Tok) (i : nat) : SyntaxKind := match body !! i with Some t => tok_kind t | None => EOF end.
Definition text_at (body : list Tok) (i : nat) : string := match body !! i with Some t => tok_text t | None => "" end.

(** ** The names a pattern binds *)

Definition add_binding (params : list string) (name : string) (bound : list string) : list string :=
  if String.eqb name "_" || String.eqb name "" then bound
  else if bool_decide (name ∈ params) then bound
  else if bool_decide (name ∈ bound) then bound
  else bound ++ [name].

Inductive BracketKind : Set := BTuple | BStruct.

Section harvest.
Variable params : list string.
Variable body : list Tok.
Variable end_ : nat.

(** [while j < end && body[j].is_trivia() { j += 1 }]; [n] is at least [end - j]. *)
Fixpoint skip_trivia_from (n j : nat) : nat :=
  match n with
  | O => j
  | S n => if (j <? end_)%nat && is_trivia (kind_at body j) then skip_trivia_from n (S j) else j
  end.

Definition skip (j : nat) : nat := skip_trivia_from (end_ - j) j.

(** The state of the walk; [pending] is the last field name of a struct
    pattern. *)
Record Harvest : Type := mkHarvest { hv_i : nat; brackets : list BracketKind; pending : option nat; bound : list string }.

Definition commit (h : Harvest) : list string :=
  match pending h with Some idx => add_binding params (text_at body idx) (bound h) | None => bound h end.

(** The identifier at [j], if the pattern reaches it, is bound. *)
Definition bind_at (j : nat) (h : Harvest) : Harvest :=
  if (j <? end_)%nat && kind_eqb (kind_at body j) IDENT
  then mkHarvest j (brackets h) (pending h) (add_binding params (text_at body j) (bound h)) else h.

Definition in_struct (h : Harvest) : bool := match brackets h with BStruct :: _ => true | _ => false end.

(** What follows a constructor or a path segment. *)
Definition constructor_or_path (k : SyntaxKind) : bool :=
  match k with COLON_COLON | DOT | L_BRACE | L_PAREN => true | _ => false end.

(** One token; the loop then moves past [hv_i]. *)
Definition harvest_tok (k : SyntaxKind) (h : Harvest) : Harvest :=
  let i := hv_i h in
  match k with
  | L_BRACE => mkHarvest i (BStruct :: brackets h) None (bound h)
  | R_BRACE => mkHarvest i (List.tl (brackets h)) None (commit h)
  | L_PAREN => mkHarvest i (BTuple :: brackets h) (pending h) (bound h)
  | R_PAREN => mkHarvest i (List.tl (brackets h)) (pending h) (bound h)
  | COMMA => mkHarvest i (brackets h) None (commit h)
  | COLON => if in_struct h then bind_at (skip (S i)) (mkHarvest i (brackets h) None (bound h)) else h
  | MUT_KW | REF_KW => bind_at (skip (S i)) h
  | AMP =>
      let j := skip (S i) in
      bind_at (if (j <? end_)%nat && kind_eqb (kind_at body j) MUT_KW then skip (S j) else j) h
  | IDENT =>
      if in_struct h then mkHarvest i (brackets h) (Some i) (bound h)
      else if constructor_or_path (kind_at body (skip (S i))) then h
      else mkHarvest i (brackets h) (pending h) (add_binding params (text_at body i) (bound h))
  | _ => h
  end.

Definition next_tok (h : Harvest) : Harvest := mkHarvest (S (hv_i h)) (brackets h) (pending h) (bound h).

Fixpoint harvest_loop (n : nat) (h : Harvest) : Harvest :=
  match n with
  | O => h
  | S n => if (hv_i h <? end_)%nat then harvest_loop n (next_tok (harvest_tok (kind_at body (hv_i h)) h)) else h
  end.

Definition harvest_pattern_idents (start : nat) (bound : list string) : list string :=
  commit (harvest_loop (end_ - start) (mkHarvest start [] None bound)).
End harvest.

(** ** The names a body binds *)

Record Depths : Set := mkDepths { paren : Z; brace : Z; bracket : Z }.

Definition at_top (d : Depths) : bool := (paren d =? 0)%Z && (brace d =? 0)%Z && (bracket d =? 0)%Z.

(** Where the pattern of a [let] stops, and its first type colon. *)
Fixpoint pattern_extent (n : nat) (body : list Tok) (j : nat) (d : Depths) (colon : option nat) : nat * option nat :=
  match n with
  | O => (j, colon)
  | S n =>
      if negb (j <? length body)%nat then (j, colon)
      else
        let on d colon := pattern_extent n body (S j) d colon in
        match kind_at body j with
        | L_PAREN => on (mkDepths (paren d + 1) (brace d) (bracket d)) colon
        | R_PAREN => on (mkDepths (paren d - 1) (brace d) (bracket d)) colon
        | L_BRACE => on (mkDepths (paren d) (brace d + 1) (bracket d)) colon
        | R_BRACE => on (mkDepths (paren d) (brace d - 1) (bracket d)) colon
        | L_BRACK => on (mkDepths (paren d) (brace d) (bracket d + 1)) colon
        | R_BRACK => on (mkDepths (paren d) (brace d) (bracket d - 1)) colon
        | EQ | SEMI => if at_top d then (j, colon) else on d colon
        | COLON => on d (if at_top d then match colon with None => Some j | _ => colon end else colon)
        | _ => on d colon
        end
  end.

Fixpoint collect_loop (n : nat) (body : list Tok) (params : list string) (i : nat) (bound : list string) : list string :=
  match n with
  | O => bound
  | S n =>
      if negb (i <? length body)%nat then bound
      else if kind_eqb (kind_at body i) LET_KW then
        let '(j, colon) := pattern_extent (length body) body (S i) (mkDepths 0 0 0) None in
        collect_loop n body params (S j) (harvest_pattern_idents params body (default j colon) (S i) bound)
      else collect_loop n body params (S i) bound
  end.

Definition collect_bound_idents (body : list Tok) (params : list string) : list string :=
  collect_loop (length body) body params 0 [].

(** ** Expansion *)

Record ScopedExpansion : Type := mkExpansion {
  ex_tokens : list ScopedTok; ex_bindings : list (string * gset Z); ex_intro : Z }.

(** [format!("__mac_{intro}_{}", text)] *)
Definition mangle (intro : Z) (text : string) : string := "__mac_" +:+ of_ascii (display_u64 intro) +:+ "_" +:+ text.

Section expand.
Variable logos : string → list LogosItem.

(** The arguments in order, up to the first that does not lex. *)
Fixpoint lex_args (env : HygieneEnv) (caller_arg_scopes : gset Z) (i : nat) (args : list string) : Res ExpandError (list (list ScopedTok)) :=
  match args with
  | [] => Ok []
  | a :: args =>
      match lex_fragment logos a with
      | Some toks => rest ← lex_args env caller_arg_scopes (S i) args; Ok (apply_to_argument env toks caller_arg_scopes :: rest)
      | None => Err (BadArgumentTokens i)
      end
  end.

(** [params.iter().position(|p| p == text)] *)
Fixpoint param_index (params : list string) (text : string) : option nat :=
  match params with [] => None | p :: params => if String.eqb p text then Some 0%nat else S <$> param_index params text end.

(** What a token of the body becomes. *)
Definition expand_tok (params bound : list string) (env : HygieneEnv) (args : list (list ScopedTok)) (t : Tok) : list ScopedTok :=
  if tok_is_ident t then
    match param_index params (tok_text t) with
    | Some idx =>
        [scope_body_token env (mkTok L_PAREN "(")] ++ default [] (args !! idx) ++ [scope_body_token env (mkTok R_PAREN ")")]
    | None =>
        if bool_decide (tok_text t ∈ bound) then [scope_body_token env (mkTok IDENT (mangle (he_intro env) (tok_text t)))]
        else [scope_body_token env t]
    end
  else [scope_body_token env t].

Definition expand_scoped (def : MacroDef) (args : list string) (gen : ScopeGen) (def_scopes caller_arg_scopes : gset Z) :
    option (Res ExpandError ScopedExpansion * ScopeGen) :=
  if negb (length args =? length (md_params def))%nat then Some (Err (ArityMismatch (length (md_params def)) (length args)), gen)
  else
    '(intro, gen) ← fresh_scope gen;
    let env := mkEnv intro def_scopes in
    Some (arg_scoped ← lex_args env caller_arg_scopes 0 args;
          let bound_names := collect_bound_idents (md_body def) (md_params def) in
          Ok (mkExpansion (md_body def ≫= expand_tok (md_params def) bound_names env arg_scoped)
                ((λ name, (name, body_scopes env)) <$> bound_names) intro),
          gen).

Definition expand_scoped_to_source (def : MacroDef) (args : list string) (gen : ScopeGen) (def_scopes caller_arg_scopes : gset Z) :
    option (Res ExpandError (string * ScopedExpansion) * ScopeGen) :=
  '(r, gen) ← expand_scoped def args gen def_scopes caller_arg_scopes;
  Some (exp ← r; Ok (tokens_to_source (strip_scopes (ex_tokens exp)), exp), gen).
End expand.

(** ** The registries of macros

    [crates/mty-macros/src/registry.rs].  A [HashMap] is a [gmap]; where the
    code iterates over one, the order is an argument.  The lowering of a
    declaration's syntax node is not modelled: [from_file] takes what it
    answers for each child of the file. *)

Notation MacroRegistry := (gmap string MacroDef) (only parsing).

Definition insert_macro (def : MacroDef) (self : MacroRegistry) : MacroRegistry := <[md_name def := def]> self.
Definition get_macro (self : MacroRegistry) (name : string) : option MacroDef := self !! name.
Definition contains_macro (self : MacroRegistry) (name : string) : bool := bool_decide (is_Some (self !! name)).

Definition is_declarative (d : MacroDef) : bool := match md_kind d with Declarative => true | Procedural => false end.
Definition is_procedural (d : MacroDef) : bool := match md_kind d with Declarative => false | Procedural => true end.

(** [MacroRegistry::from_file] *)
Definition registry_from_file (children : list (option MacroDef)) : MacroRegistry :=
  foldl (λ reg def, match def with Some d => insert_macro d reg | None => reg end) ∅ children.

Record PackageMacros : Type := mkPackage { local : MacroRegistry; exported : MacroRegistry }.

(** [PackageMacros::from_file] *)
Definition add_def (pm : PackageMacros) (def : option MacroDef) : PackageMacros :=
  match def with
  | Some d => mkPackage (insert_macro d (local pm)) (if md_is_pub d then insert_macro d (exported pm) else exported pm)
  | None => pm
  end.

Definition package_from_file (children : list (option MacroDef)) : PackageMacros := foldl add_def (mkPackage ∅ ∅) children.

Definition renamed (d : MacroDef) (name : string) : MacroDef := mkMacroDef name (md_params d) (md_body d) (md_is_pub d) (md_kind d).

(** The first alias of the name, or the name. *)
Definition bound_name (alias_map : list (string * string)) (name : string) : string :=
  match find (λ kv, String.eqb kv.1 name) alias_map with Some (_, v) => v | None => name end.

(** [order]: the exported macros as the map iterates over them. *)
Definition register_use (pm : PackageMacros) (order : list (string * MacroDef)) (alias_map : list (string * string)) : PackageMacros :=
  mkPackage (foldl (λ l '(name, d), let b := bound_name alias_map name in <[b := renamed d b]> l) (local pm) order) (exported pm).

Definition register_use_one (pm other : PackageMacros) (name bound_as : string) : PackageMacros * bool :=
  match exported other !! name with
  | Some d => (mkPackage (<[bound_as := renamed d bound_as]> (local pm)) (exported pm), true)
  | None => (pm, false)
  end.

(** ** Lemmas *)

Lemma foldl_register alias_map order (l : MacroRegistry) n :
  NoDup ((λ kv, bound_name alias_map kv.1) <$> order) →
  foldl (λ l '(name, d), let b := bound_name alias_map name in <[b := renamed d b]> l) l order !! n
  = match list_find (λ kv, bound_name alias_map kv.1 = n) order with Some (_, kv) => Some (renamed kv.2 n) | None => l !! n end.
Proof.
  revert l. induction order as [|[k d] order IH]; intros l Hnd; [done|]. rewrite fmap_cons in Hnd. apply NoDup_cons in Hnd as [Hk Hnd].
  cbn [foldl]. rewrite IH by done. cbn [list_find fst]. cbv zeta. destruct (decide (bound_name alias_map k = n)) as [<-|Hne].
  - destruct (list_find _ order) as [[i kv]|] eqn:E; [|by rewrite lookup_insert_eq].
    apply list_find_Some in E as (Hi & E & _). destruct Hk. apply list_elem_of_fmap. exists kv. split; [done|]. by eapply list_elem_of_lookup_2.
  - destruct (list_find _ order) as [[i kv]|]; cbn; [done|]. by rewrite lookup_insert_ne.
Qed.

(** The exported macros of a file carry [pub], the local ones are named by
    their keys. *)
Lemma package_keys children :
  (∀ n d, local (package_from_file children) !! n = Some d → md_name d = n ∧ Some d ∈ children) ∧
  ∀ n d, exported (package_from_file children) !! n = Some d → md_name d = n ∧ md_is_pub d = true ∧ Some d ∈ children.
Proof.
  unfold package_from_file. induction children as [|c children IH] using rev_ind; [by split; intros n d; cbn; rewrite lookup_empty|].
  rewrite foldl_app. cbn [foldl]. destruct IH as [IHl IHe]. destruct c as [c|]; cbn [add_def local exported].
  - split; intros n d.
    + unfold insert_macro. destruct (decide (md_name c = n)) as [<-|Hne]; [rewrite lookup_insert_eq; intros [= <-]; set_solver|].
      rewrite lookup_insert_ne by done. intros [? ?]%IHl. set_solver.
    + destruct (md_is_pub c) eqn:Ep; [|intros (? & ? & ?)%IHe; set_solver].
      unfold insert_macro. destruct (decide (md_name c = n)) as [<-|Hne]; [rewrite lookup_insert_eq; intros [= <-]; set_solver|].
      rewrite lookup_insert_ne by done. intros (? & ? & ?)%IHe. set_solver.
  - split; intros n d H; [destruct (IHl n d H)|destruct (IHe n d H) as (? & ? & ?)]; set_solver.
Qed.
