(* ===== verification/MacroProc.v ===== *)
(** * Procedural macros in the sandbox

    [crates/mty-macros/src/proc.rs].  The worker thread is the evaluator over
    [Cx]; the cancellation flag, set by another thread, is the parameter
    [cancelled]: what the [k]-th load of the flag reads.  Whether the
    coordinator's timer fires first is the argument [timed_out] of [run].
    Counters are [u64].  The lemmas on the budgets follow. *)

From stdpp Require Import base list strings numbers gmap sets.
From S2P Require Import Prelude ParserCore Semver MacroExpand StateM.

Local Open Scope string_scope.
Local Open Scope list_scope.
Notation length := List.length (only parsing).

Definition PROC_MACRO_MEM_BYTES : Z := 16 * 1024 * 1024.
Definition PROC_MACRO_STEPS : Z := 100000.

Inductive ImpurityReason : Set := EffectCall (name : string) | BareImpureCall (name : string).
Inductive ResourceBreach : Set := Wall | Memory | Steps.

Inductive ProcMacroResult : Set :=
  | PmOk (toks : list Tok)
  | PmUnsupported
  | PmImpure (r : ImpurityReason)
  | PmImpureAtRuntime (r : ImpurityReason)
  | PmResourceExceeded (b : ResourceBreach).

(** ** The static check *)

(** The first token that is not trivia, from [j]. *)
Fixpoint skip_trivia_toks (toks : list Tok) : list Tok :=
  match toks with t :: rest => if tok_is_trivia t then skip_trivia_toks rest else toks | [] => [] end.

Definition impure_name (text : string) : bool := bool_decide (text ∈ ["time"; "env"; "io"; "model"; "rand"]).

Definition impure_at (t : Tok) (rest : list Tok) : option ImpurityReason :=
  match skip_trivia_toks rest with
  | next :: after =>
      if kind_eqb (tok_kind t) EFFECT_KW && kind_eqb (tok_kind next) DOT then
        Some (EffectCall (match skip_trivia_toks after with e :: _ => tok_text e | [] => "<unknown>" end))
      else if tok_is_ident t && kind_in (tok_kind next) [L_PAREN; DOT] && impure_name (tok_text t) then
        Some (BareImpureCall (tok_text t))
      else None
  | [] => None
  end.

Fixpoint check_proc_macro_purity (body : list Tok) : option ImpurityReason :=
  match body with
  | [] => None
  | t :: rest => match impure_at t rest with Some r => Some r | None => check_proc_macro_purity rest end
  end.

(** ** The budgets *)

Record Cx : Set := mkCx {
  steps_left : Z; bytes_left : Z; bytes_used : Z; loads : nat;
  breach : option ResourceBreach; impure : option ImpurityReason }.

(** [Cx::new] *)
Definition new_cx : Cx := mkCx PROC_MACRO_STEPS PROC_MACRO_MEM_BYTES 0 0 None None.

Definition X (A : Type) : Type := ST Cx A.

Definition sat_add (a b : Z) : Z := Z.min (a + b) (2 ^ 64 - 1).
Definition sat_mul (a b : Z) : Z := Z.min (a * b) (2 ^ 64 - 1).

Section sandbox.
Variable cancelled : nat → bool.

Definition set_breach (b : ResourceBreach) : X unit :=
  modify (λ cx, mkCx (steps_left cx) (bytes_left cx) (bytes_used cx) (loads cx) (Some b) (impure cx)).

Definition set_impure (r : ImpurityReason) : X unit :=
  modify (λ cx, mkCx (steps_left cx) (bytes_left cx) (bytes_used cx) (loads cx) (breach cx) (Some r)).

Definition load_flag : X bool := λ cx,
  Some (cancelled (loads cx), mkCx (steps_left cx) (bytes_left cx) (bytes_used cx) (S (loads cx)) (breach cx) (impure cx)).

Definition tick : X bool :=
  c ← load_flag;
  if (c : bool) then
    b ← gets breach;
    _ ← match b with None => set_breach Wall | Some _ => mret () end;
    mret false
  else
    n ← gets steps_left;
    if (n =? 0)%Z then _ ← set_breach Steps; mret false
    else _ ← modify (λ cx, mkCx (steps_left cx - 1) (bytes_left cx) (bytes_used cx) (loads cx) (breach cx) (impure cx)); mret true.

Definition charge (n : Z) : X bool :=
  used ← gets bytes_used;
  let new := sat_add used n in
  if (PROC_MACRO_MEM_BYTES <? new)%Z then
    _ ← modify (λ cx, mkCx (steps_left cx) (bytes_left cx) new (loads cx) (Some Memory) (impure cx)); mret false
  else
    _ ← modify (λ cx, mkCx (steps_left cx) (PROC_MACRO_MEM_BYTES - new) new (loads cx) (breach cx) (impure cx)); mret true.

(** ** The evaluator *)

(** [.iter().map(|t| t.text.len() as u64).sum()] *)
Definition text_bytes (toks : list Tok) : Z := foldr (λ t n, (Z.of_nat (String.length (tok_text t)) + n)%Z) 0%Z toks.

Definition trim_trivia (toks : list Tok) : list Tok := reverse (skip_trivia_toks (reverse (skip_trivia_toks toks))).

(** [charge_clone]: the input, if it fits. *)
Definition charge_clone (toks : list Tok) : X (list Tok) := ok ← charge (text_bytes toks); mret (if (ok : bool) then toks else []).

(** [eval_while]: [None] is the end of the fuel. *)
Fixpoint eval_while (n : nat) : X (list Tok) :=
  match n with
  | O => stuck
  | S n =>
      t ← tick;
      if negb (t : bool) then mret []
      else ok ← charge 8; if negb (ok : bool) then mret [] else eval_while n
  end.

(** The tokens up to the parenthesis that closes, and those after it. *)
Fixpoint until_close (depth : Z) (toks : list Tok) : option (list Tok) :=
  match toks with
  | [] => None
  | t :: toks =>
      match tok_kind t with
      | L_PAREN => cons t <$> until_close (depth + 1) toks
      | R_PAREN => if (depth =? 1)%Z then Some [] else cons t <$> until_close (depth - 1) toks
      | _ => cons t <$> until_close depth toks
      end
  end.

(** The runs between the commas at depth 0; [cur] is the run so far, reversed. *)
Fixpoint split_args (d : Z) (cur : list Tok) (toks : list Tok) : list (list Tok) :=
  match toks with
  | [] => [reverse cur]
  | t :: toks =>
      match tok_kind t with
      | L_PAREN | L_BRACE | L_BRACK => split_args (d + 1) (t :: cur) toks
      | R_PAREN | R_BRACE | R_BRACK => split_args (d - 1) (t :: cur) toks
      | COMMA => if (d =? 0)%Z then reverse cur :: split_args d [] toks else split_args d (t :: cur) toks
      | _ => split_args d (t :: cur) toks
      end
  end.

Definition parse_call (toks : list Tok) : option (string * list (list Tok)) :=
  match toks with
  | t :: rest =>
      if negb (tok_is_ident t) then None
      else match skip_trivia_toks rest with
           | p :: inner => if negb (kind_eqb (tok_kind p) L_PAREN) then None else i ← until_close 1 inner; Some (tok_text t, split_args 0 [] i)
           | [] => None
           end
  | [] => None
  end.

(** [cx.breach.is_some() || cx.impure.is_some()] *)
Definition stopped : X bool := gets (λ cx, bool_decide (is_Some (breach cx)) || bool_decide (is_Some (impure cx))).

Section eval.
(** The recursive call on the tokens of an argument. *)
Variable eval : list Tok → X (list Tok).

Fixpoint eval_concat (args : list (list Tok)) (out : list Tok) : X (list Tok) :=
  match args with
  | [] => mret out
  | a :: args => bit ← eval a; s ← stopped; if (s : bool) then mret [] else eval_concat args (out ++ bit)
  end.

(** The loop of copies: every round takes a step. *)
Fixpoint copies (fuel : nat) (i n : Z) (frag out : list Tok) : X (list Tok) :=
  match fuel with
  | O => stuck
  | S fuel =>
      if (i <? n)%Z then t ← tick; if negb (t : bool) then mret [] else copies fuel (i + 1) n frag (out ++ frag)
      else mret out
  end.

Definition repeat_count (arg : list Tok) : Z :=
  match trim_trivia arg with
  | [t] => if kind_eqb (tok_kind t) INT_LITERAL then default 0%Z (parse_u64 (chars (tok_text t))) else 0%Z
  | _ => 0%Z
  end.

Definition eval_repeat (args : list (list Tok)) : X (list Tok) :=
  match args with
  | a0 :: a1 :: _ =>
      frag ← eval a0;
      s ← stopped;
      if (s : bool) then mret []
      else
        let n := repeat_count a1 in
        ok ← charge (sat_mul (text_bytes frag) n);
        if negb (ok : bool) then mret [] else copies (Z.to_nat PROC_MACRO_STEPS + 2) 0 n frag []
  | _ => mret []
  end.

Definition emit_call (name : string) (args : list (list Tok)) : list Tok :=
  [mkTok IDENT name; mkTok L_PAREN "("] ++ mjoin (match args with [] => [] | a :: rest => a :: ((λ b, mkTok COMMA "," :: b) <$> rest) end)
  ++ [mkTok R_PAREN ")"].

Definition eval_call (name : string) (args : list (list Tok)) : X (list Tok) :=
  t ← tick;
  if negb (t : bool) then mret []
  else if String.eqb name "concat" then eval_concat args []
  else if String.eqb name "repeat" then eval_repeat args
  else if String.eqb name "effect" then _ ← set_impure (EffectCall "<dynamic>"); mret []
  else if impure_name name then _ ← set_impure (BareImpureCall name); mret []
  else ok ← charge (foldr (λ a n, (text_bytes a + n)%Z) 0%Z args); if negb (ok : bool) then mret [] else mret (emit_call name args).
End eval.

(** [n] bounds the nesting of calls and the steps of a loop. *)
Fixpoint eval_tokens (n : nat) (params : list string) (input toks : list Tok) : X (list Tok) :=
  match n with
  | O => stuck
  | S n =>
      match trim_trivia toks with
      | [] => mret []
      | (t0 :: rest) as no_triv =>
          t ← tick;
          if negb (t : bool) then mret []
          else if kind_eqb (tok_kind t0) WHILE_KW then eval_while (Z.to_nat PROC_MACRO_STEPS + 1)
          else match rest with
               | [] =>
                   if tok_is_ident t0 then
                     if String.eqb (tok_text t0) "input" || bool_decide (head params = Some (tok_text t0)) then charge_clone input
                     else mret no_triv
                   else ok ← charge (text_bytes no_triv); mret (if (ok : bool) then no_triv else [])
               | _ =>
                   match parse_call no_triv with
                   | Some (name, args) => eval_call (eval_tokens n params input) name args
                   | None => ok ← charge (text_bytes no_triv); mret (if (ok : bool) then no_triv else [])
                   end
               end
      end
  end.

Definition walk_body (body : list Tok) (params : list string) (input : list Tok) : X (list Tok) :=
  let trimmed := trim_trivia body in
  match trimmed with
  | [] => mret []
  | _ =>
      t ← tick;
      if negb (t : bool) then mret []
      else match check_proc_macro_purity body with
           | Some reason => _ ← set_impure reason; mret []
           | None => eval_tokens (S (length trimmed)) params input trimmed
           end
  end.

(** The worker's result. *)
Definition worker (def : MacroDef) (input : list Tok) : option ProcMacroResult :=
  '(out, cx) ← walk_body (md_body def) (md_params def) input new_cx;
  Some (match impure cx, breach cx with
        | Some reason, _ => PmImpureAtRuntime reason
        | None, Some b => PmResourceExceeded b
        | None, None => PmOk out
        end).

(** [Sandbox::run]: when the timer fires the worker's answer is dropped. *)
Definition run (timed_out : bool) (def : MacroDef) (input : list Tok) : option ProcMacroResult :=
  if timed_out then Some (PmResourceExceeded Wall) else worker def input.

(** [expand_proc] on a procedural macro. *)
Definition expand_proc (timed_out : bool) (def : MacroDef) (input : list Tok) : option ProcMacroResult :=
  match check_proc_macro_purity (md_body def) with
  | Some reason => Some (PmImpure reason)
  | None => run timed_out def input
  end.
End sandbox.

(** ** The sandbox keeps its budgets: lemmas

    [within cx cx']: the budgets only shrink from [cx] to [cx'].  [pays toks]:
    an evaluation that is not stopped has an output no larger than what it
    was charged and the tokens it came from. *)

Local Open Scope Z_scope.
Local Open Scope list_scope.

(** ** Sizes of tokens *)

Lemma text_bytes_cons t toks : text_bytes (t :: toks) = Z.of_nat (String.length (tok_text t)) + text_bytes toks.
Proof. done. Qed.

Lemma text_bytes_nonneg toks : 0 <= text_bytes toks.
Proof. induction toks as [|t toks IH]; [done|]. rewrite text_bytes_cons. lia. Qed.

Lemma text_bytes_app a b : text_bytes (a ++ b) = text_bytes a + text_bytes b.
Proof. induction a as [|t a IH]; cbn [app]; [done|]. rewrite !text_bytes_cons, IH. lia. Qed.

Lemma text_bytes_reverse a : text_bytes (reverse a) = text_bytes a.
Proof. induction a as [|t a IH]; [done|]. rewrite reverse_cons, text_bytes_app, !text_bytes_cons, IH. cbn. lia. Qed.

Lemma skip_trivia_bytes toks : text_bytes (skip_trivia_toks toks) <= text_bytes toks.
Proof.
  induction toks as [|t toks IH]; cbn [skip_trivia_toks]; [done|]. destruct (tok_is_trivia t); [|done].
  rewrite text_bytes_cons. lia.
Qed.

Lemma trim_bytes toks : text_bytes (trim_trivia toks) <= text_bytes toks.
Proof.
  unfold trim_trivia. rewrite text_bytes_reverse. etransitivity; [apply skip_trivia_bytes|].
  rewrite text_bytes_reverse. apply skip_trivia_bytes.
Qed.

Lemma skip_trivia_length toks : (length (skip_trivia_toks toks) <= length toks)%nat.
Proof. induction toks as [|t toks IH]; cbn; [done|]. destruct (tok_is_trivia t); cbn; lia. Qed.

Lemma trim_length toks : (length (trim_trivia toks) <= length toks)%nat.
Proof.
  unfold trim_trivia. rewrite length_reverse. etransitivity; [apply skip_trivia_length|].
  rewrite length_reverse. apply skip_trivia_length.
Qed.

(** Tokens as the lexer makes them: some text, and [effect] a keyword. *)
Definition tok_ok (t : Tok) : Prop := tok_text t ≠ ""%string ∧ ¬ (tok_is_ident t = true ∧ tok_text t = "effect"%string).
Notation texts_ok := (Forall tok_ok) (only parsing).

Lemma text_pos t : tok_ok t → 1 <= Z.of_nat (String.length (tok_text t)).
Proof. unfold tok_ok. destruct (tok_text t); [by intros []|]. cbn. lia. Qed.

Lemma skip_trivia_texts toks : texts_ok toks → texts_ok (skip_trivia_toks toks).
Proof. induction 1 as [|t toks Ht H IH]; cbn; [constructor|]. destruct (tok_is_trivia t); [done|by constructor]. Qed.

Lemma trim_texts toks : texts_ok toks → texts_ok (trim_trivia toks).
Proof. intros H. apply Forall_reverse, skip_trivia_texts, Forall_reverse, skip_trivia_texts, H. Qed.

(** ** Pure segments *)

Notation Pure toks := (check_proc_macro_purity toks = None).

Lemma skip_trivia_app a b :
  skip_trivia_toks (a ++ b) = match skip_trivia_toks a with [] => skip_trivia_toks b | s => s ++ b end.
Proof. induction a as [|t a IH]; cbn [app skip_trivia_toks]; [done|]. by destruct (tok_is_trivia t). Qed.

(** A call that is impure in a part of the body is impure in the body. *)
Lemma impure_at_app t a b : impure_at t (a ++ b) = None → impure_at t a = None.
Proof.
  unfold impure_at. rewrite skip_trivia_app. destruct (skip_trivia_toks a) as [|next after]; cbn [app].
  { done. }
  destruct (kind_eqb (tok_kind t) EFFECT_KW && kind_eqb (tok_kind next) DOT); [done|]. by destruct (_ && _).
Qed.

Lemma pure_app a b : Pure (a ++ b) → Pure a ∧ Pure b.
Proof.
  induction a as [|t a IH]; cbn [app check_proc_macro_purity]; [by intros H|].
  destruct (impure_at t (a ++ b)) eqn:E; [done|]. by rewrite (impure_at_app _ _ _ E).
Qed.

Lemma skip_trivia_suffix toks : ∃ pre, toks = pre ++ skip_trivia_toks toks.
Proof.
  induction toks as [|t toks [pre IH]]; [by exists []|]. cbn [skip_trivia_toks]. destruct (tok_is_trivia t); [|by exists []].
  exists (t :: pre). cbn [app]. by f_equal.
Qed.

Lemma skip_trivia_pure toks : Pure toks → Pure (skip_trivia_toks toks).
Proof. destruct (skip_trivia_suffix toks) as [pre E]. intros H. rewrite E in H. by destruct (pure_app _ _ H). Qed.

Lemma trim_pure toks : Pure toks → Pure (trim_trivia toks).
Proof.
  intros H%skip_trivia_pure. unfold trim_trivia. set (l := skip_trivia_toks toks) in *.
  destruct (skip_trivia_suffix (reverse l)) as [pre E]. apply (f_equal reverse) in E. rewrite reverse_involutive, reverse_app in E.
  rewrite E in H. by destruct (pure_app _ _ H).
Qed.

(** ** Calls *)

Definition args_bytes (args : list (list Tok)) : Z := foldr (λ a n, text_bytes a + n) 0 args.

Lemma args_bytes_cons a args : args_bytes (a :: args) = text_bytes a + args_bytes args.
Proof. done. Qed.

Lemma args_bytes_nonneg args : 0 <= args_bytes args.
Proof. induction args as [|b args IH]; [done|]. rewrite args_bytes_cons. pose proof (text_bytes_nonneg b). lia. Qed.

Lemma until_close_spec d toks i :
  until_close d toks = Some i → texts_ok toks →
  texts_ok i ∧ (length i < length toks)%nat ∧ text_bytes i + 1 <= text_bytes toks ∧ ∃ after, toks = i ++ after.
Proof.
  revert d i. induction toks as [|t toks IH]; intros d i; cbn [until_close]; [done|]. intros H [Ht Ho]%Forall_cons.
  pose proof (text_pos t Ht). pose proof (text_bytes_nonneg toks).
  set (spec := texts_ok i ∧ _).
  assert (∀ d', cons t <$> until_close d' toks = Some i → spec) as Hc.
  { subst spec. intros d' E. destruct (until_close d' toks) as [j|] eqn:Ej; [|done]. injection E as <-.
    destruct (IH d' j Ej Ho) as (? & ? & ? & after & ->). rewrite !text_bytes_cons. cbn [length app].
    split_and!; [by constructor|lia|lia|by exists after]. }
  assert (Some [] = Some i → spec) as Hn.
  { subst spec. intros [= <-]. rewrite text_bytes_cons. cbn [length]. split_and!; [by apply Forall_nil|lia|cbn; lia|by exists (t :: toks)]. }
  destruct (tok_kind t); eauto. destruct (d =? 1); eauto.
Qed.

Lemma split_args_spec d cur toks :
  texts_ok cur → texts_ok toks → Pure (reverse cur ++ toks) →
  Forall (λ a, texts_ok a ∧ (length a <= length cur + length toks)%nat ∧ Pure a) (split_args d cur toks) ∧
  args_bytes (split_args d cur toks) + Z.of_nat (length (split_args d cur toks)) <= text_bytes cur + text_bytes toks + 1.
Proof.
  intros Hcur H. revert d cur Hcur. induction H as [|t toks Ht H IH]; intros d cur Hcur Hp.
  - cbn. rewrite text_bytes_reverse. split; [|lia]. constructor; [|done]. rewrite app_nil_r in Hp.
    split_and!; [by apply Forall_reverse| |done]. rewrite length_reverse. lia.
  - set (spec := λ l, Forall (λ a, texts_ok a ∧ (length a <= length cur + length (t :: toks))%nat ∧ Pure a) l ∧
      args_bytes l + Z.of_nat (length l) <= text_bytes cur + text_bytes (t :: toks) + 1).
    assert (∀ d', spec (split_args d' (t :: cur) toks)) as Hc.
    { intros d'. destruct (IH d' (t :: cur)) as [HF HB]; [by constructor|by rewrite reverse_cons, <-app_assoc|].
      rewrite text_bytes_cons in HB. unfold spec. rewrite text_bytes_cons. split; [|lia].
      eapply Forall_impl; [exact HF|]. cbn. intros a (? & ? & ?). split_and!; [done|lia|done]. }
    cbn [split_args]. pose proof (text_pos t Ht).
    destruct (tok_kind t); try apply Hc. destruct (d =? 0); [|apply Hc].
    apply pure_app in Hp as [Hp1 Hp2]. apply (pure_app [t]) in Hp2 as [_ Hp2].
    destruct (IH d [] ltac:(constructor) Hp2) as [HF HB]. rewrite args_bytes_cons. cbn [length].
    rewrite text_bytes_reverse, text_bytes_cons. split; [|change (text_bytes []) with 0 in HB; lia].
    constructor; [split_and!; [by apply Forall_reverse| |done]; rewrite length_reverse; cbn; lia|].
    eapply Forall_impl; [exact HF|]. cbn. intros a (? & ? & ?). split_and!; [done|lia|done].
Qed.

Lemma split_args_cons d cur toks : split_args d cur toks ≠ [].
Proof.
  revert d cur. induction toks as [|t toks IH]; intros d cur; [done|]. cbn [split_args].
  destruct (tok_kind t); try apply IH. by destruct (d =? 0).
Qed.

Lemma parse_call_spec toks name args :
  parse_call toks = Some (name, args) → texts_ok toks → Pure toks →
  Forall (λ a, texts_ok a ∧ (length a < length toks)%nat ∧ Pure a) args ∧ args ≠ [] ∧
  impure_name name = false ∧ name ≠ "effect"%string ∧
  Z.of_nat (String.length name) + args_bytes args + Z.of_nat (length args) + 1 <= text_bytes toks.
Proof.
  destruct toks as [|t rest]; [done|]. cbn [parse_call]. destruct (tok_is_ident t) eqn:Hid; [|done].
  intros H [Ht Ho]%Forall_cons Hp. pose proof (skip_trivia_texts rest Ho) as Hs. pose proof (skip_trivia_length rest) as Hl.
  pose proof (skip_trivia_bytes rest) as Hb. destruct (pure_app [t] rest Hp) as [_ Hps%skip_trivia_pure].
  cbn [check_proc_macro_purity] in Hp. unfold impure_at in Hp. cbn [negb] in H.
  destruct (skip_trivia_toks rest) as [|p inner]; [done|]. destruct (kind_eqb (tok_kind p) L_PAREN) eqn:Ek; [|done]. cbn [negb] in H.
  destruct (until_close 1 inner) as [i|] eqn:Ei; [|done]. injection H as <- <-. apply Forall_cons in Hs as [Hpt Hin].
  destruct (until_close_spec 1 inner i Ei Hin) as (Hi & Hil & Hib & after & ->).
  apply (pure_app [p]) in Hps as [_ [Hps _]%pure_app].
  destruct (split_args_spec 0 [] i) as [HF HB]; [constructor|done|done|].
  rewrite text_bytes_cons in Hb |- *. change (text_bytes []) with 0 in HB. cbn [length] in Hl |- *. pose proof (text_pos p Hpt).
  apply kind_eqb_eq in Ek. rewrite Ek, Hid in Hp.
  split_and!; [|apply split_args_cons| | |lia].
  - eapply Forall_impl; [exact HF|]. cbn. intros a (? & ? & ?). split_and!; [done|lia|done].
  - destruct (impure_name (tok_text t)); [|done]. rewrite andb_false_r in Hp. done.
  - intros E. by destruct Ht as [_ []].
Qed.

Lemma emit_call_bytes name args :
  args ≠ [] → text_bytes (emit_call name args) = Z.of_nat (String.length name) + 1 + args_bytes args + Z.of_nat (length args).
Proof.
  intros Hne. unfold emit_call. rewrite !text_bytes_app, !text_bytes_cons. cbn [tok_text String.length text_bytes foldr].
  assert (∀ rest, text_bytes (mjoin ((λ b, mkTok COMMA "," :: b) <$> rest)) = args_bytes rest + Z.of_nat (length rest)) as H.
  { induction rest as [|b rest IH]; [done|]. rewrite fmap_cons.
    change (mjoin (?x :: ?xs)) with (x ++ mjoin xs). rewrite text_bytes_app, text_bytes_cons, IH. cbn. fold (args_bytes rest). lia. }
  destruct args as [|a rest]; [done|].
  assert (text_bytes (mjoin (a :: ((λ b, mkTok COMMA "," :: b) <$> rest))) = text_bytes a + (args_bytes rest + Z.of_nat (length rest))) as E.
  { rewrite <-H. change (mjoin (?x :: ?xs)) with (x ++ mjoin xs). by rewrite text_bytes_app. }
  rewrite E. cbn [args_bytes foldr length]. fold (args_bytes rest). lia.
Qed.

(** ** Budgets *)

Record valid (cx : Cx) : Prop := {
  vd_steps : 0 <= steps_left cx <= PROC_MACRO_STEPS;
  vd_bytes : 0 <= bytes_used cx <= 2 ^ 64 - 1;
  vd_cap : breach cx = None → bytes_used cx <= PROC_MACRO_MEM_BYTES
}.

Record within (cx cx' : Cx) : Prop := {
  wi_valid : valid cx';
  wi_steps : steps_left cx' <= steps_left cx;
  wi_bytes : bytes_used cx <= bytes_used cx';
  wi_impure : impure cx' = impure cx;
  wi_breach : breach cx' = None → breach cx = None
}.

Lemma within_refl cx : valid cx → within cx cx.
Proof. by split. Qed.

Lemma within_trans cx1 cx2 cx3 : within cx1 cx2 → within cx2 cx3 → within cx1 cx3.
Proof. intros [V1 S1 B1 I1 R1] [V2 S2 B2 I2 R2]. split; [done|lia|lia|congruence|auto]. Qed.

(** The output is paid for, unless a budget was exceeded. *)
Definition pays (size : Z) (cx : Cx) (out : list Tok) (cx' : Cx) : Prop :=
  within cx cx' ∧ (breach cx' = None → text_bytes out + bytes_used cx <= bytes_used cx' + size).

Lemma pays_nil size cx cx' : within cx cx' → 0 <= size → pays size cx [] cx'.
Proof. intros H Hs. split; [done|]. intros _. pose proof (wi_bytes _ _ H). cbn. lia. Qed.

Lemma pays_stopped size cx out cx' : within cx cx' → breach cx' ≠ None → pays size cx out cx'.
Proof. by intros H Hb. Qed.

(** After [cx] came to [cx1] for nothing. *)
Lemma pays_after size cx cx1 out cx' : within cx cx1 → bytes_used cx1 = bytes_used cx → pays size cx1 out cx' → pays size cx out cx'.
Proof. intros H E [Hw Hp]. split; [by eapply within_trans|]. intros Hb. specialize (Hp Hb). lia. Qed.

Section budgets.
Variable cancelled : nat → bool.

Ltac budget_rec := repeat first [done | lia | split | progress cbn -[Z.min Z.pow Z.mul PROC_MACRO_MEM_BYTES PROC_MACRO_STEPS]].

Lemma tick_spec cx :
  valid cx →
  leads (tick cancelled) cx (λ ok cx', within cx cx' ∧ bytes_used cx' = bytes_used cx ∧
    if ok then steps_left cx' = steps_left cx - 1 else breach cx' ≠ None).
Proof.
  destruct cx as [sl bl bu ld br im]. intros [Hs Hb Hc]. cbn -[Z.pow Z.le] in Hs, Hb, Hc. unfold leads, tick, mbind, ST_bind, load_flag.
  cbn -[Z.pow Z.le]. destruct (cancelled ld).
  - destruct br as [b|]; cbn -[Z.pow Z.le]; budget_rec.
  - match goal with |- context [?a =? 0] => change a with sl end. destruct (Z.eqb_spec sl 0) as [E|E]; budget_rec.
Qed.

Lemma charge_spec cx n :
  valid cx → 0 <= n →
  leads (charge n) cx (λ ok cx', within cx cx' ∧ steps_left cx' = steps_left cx ∧
    if ok then bytes_used cx' = bytes_used cx + n else breach cx' ≠ None).
Proof.
  destruct cx as [sl bl bu ld br im]. intros [Hs Hb Hc] Hn. cbn -[Z.pow Z.le] in Hs, Hb, Hc.
  unfold leads, charge, mbind, ST_bind, gets, modify. cbn -[Z.pow Z.le].
  match goal with |- context [sat_add ?a _] => change a with bu end.
  assert (sat_add bu n = Z.min (bu + n) (2 ^ 64 - 1)) as E by done.
  assert (PROC_MACRO_MEM_BYTES = 16777216) as Em by done.
  destruct (Z.ltb_spec PROC_MACRO_MEM_BYTES (sat_add bu n)) as [H|H]; rewrite E in *; budget_rec.
Qed.

Lemma stopped_spec {A} cx (k : bool → X A) Q :
  (∀ b, (b = false → breach cx = None) → leads (k b) cx Q) → leads (stopped ≫= k) cx Q.
Proof.
  intros H. apply leads_bind. apply H. intros E. apply orb_false_iff in E as [E _]. apply bool_decide_eq_false in E.
  destruct (breach cx); [destruct E; eauto|done].
Qed.

(** A spinning body is stopped by a budget. *)
Lemma eval_while_spec n cx :
  valid cx → steps_left cx < Z.of_nat n →
  leads (eval_while cancelled n) cx (λ out cx', within cx cx' ∧ out = [] ∧ breach cx' ≠ None).
Proof.
  revert cx. induction n as [|n IH]; intros cx V Hn; [destruct V; lia|]. cbn [eval_while].
  apply leads_bind. eapply leads_mono; [by apply tick_spec|]. intros [|] cx1 (W1 & _ & P1); cbn [negb]; [|done].
  apply leads_bind. eapply leads_mono; [apply (charge_spec _ 8); [apply W1|lia]|].
  intros [|] cx2 (W2 & S2 & P2); cbn [negb]; [|split_and!; [by eapply within_trans|done..]].
  eapply leads_mono; [apply IH; [apply W2|lia]|]. intros out cx3 (W3 & -> & P3).
  split_and!; [|done|done]. eapply within_trans; [exact W1|]. by eapply within_trans.
Qed.

Lemma copies_spec fuel i n frag out cx :
  valid cx → steps_left cx + 2 <= Z.of_nat fuel → 0 <= i <= n →
  leads (copies cancelled fuel i n frag out) cx (λ out' cx', within cx cx' ∧ bytes_used cx' = bytes_used cx ∧
    (breach cx' = None → text_bytes out' = text_bytes out + (n - i) * text_bytes frag)).
Proof.
  revert i out cx. induction fuel as [|fuel IH]; intros i out cx V Hf Hi; [destruct V; lia|]. cbn [copies].
  destruct (Z.ltb_spec i n) as [Hlt|Hge].
  2: { split_and!; [by apply within_refl|done|]. intros _. replace (n - i) with 0 by lia. lia. }
  apply leads_bind. eapply leads_mono; [by apply tick_spec|]. intros [|] cx1 (W1 & B1 & P1); cbn [negb]; [|done].
  eapply leads_mono; [apply IH; [apply W1|lia|lia]|]. intros out' cx2 (W2 & B2 & P2).
  split_and!; [by eapply within_trans|lia|]. intros Hb. rewrite (P2 Hb), text_bytes_app. lia.
Qed.

Lemma repeat_count_nonneg arg : 0 <= repeat_count arg.
Proof.
  unfold repeat_count. destruct (trim_trivia arg) as [|t [|]]; [done| |done]. destruct (kind_eqb _ _); [|done].
  destruct (parse_u64 (chars (tok_text t))) as [v|] eqn:E; [|done]. cbn. revert E. unfold parse_u64.
  destruct (chars (tok_text t)) as [|c s]; [done|].
  assert (∀ l, digits 0 l = Some v → 0 <= v) as H by (intros l Hl; apply (digits_u64 0) in Hl; [apply Hl|by split]).
  destruct (c =? 43); [destruct s; [done|]|]; apply H.
Qed.

Section calls.
Variable eval : list Tok → X (list Tok).

(** The argument evaluates and pays. *)
Definition evals (toks : list Tok) : Prop := ∀ cx, valid cx → leads (eval toks) cx (pays (text_bytes toks) cx).

Lemma eval_concat_spec args out cx :
  Forall evals args → valid cx → leads (eval_concat eval args out) cx (pays (text_bytes out + args_bytes args) cx).
Proof.
  intros H. revert out cx. induction H as [|a args Ha H IH]; intros out cx V; cbn [eval_concat].
  { split; [by apply within_refl|]. intros _. cbn. lia. }
  pose proof (text_bytes_nonneg out). pose proof (text_bytes_nonneg a).
  pose proof (args_bytes_nonneg args). rewrite args_bytes_cons.
  apply leads_bind. eapply leads_mono; [by apply Ha|]. intros bit cx1 [W1 P1]. apply stopped_spec. intros [|] Hb.
  { apply leads_ret, pays_nil; [done|]. lia. }
  eapply leads_mono; [apply IH, W1|]. intros out' cx2 [W2 P2]. split; [by eapply within_trans|].
  intros Hb2. specialize (P2 Hb2). specialize (P1 (wi_breach _ _ W2 Hb2)). rewrite text_bytes_app in P2. lia.
Qed.

Lemma eval_repeat_spec args cx :
  Forall evals args → valid cx → leads (eval_repeat cancelled eval args) cx (pays 0 cx).
Proof.
  intros H V. unfold eval_repeat. destruct args as [|a0 [|a1 args]]; [by apply leads_ret, pays_nil; [apply within_refl|]..|].
  apply Forall_cons in H as [H0 _]. apply leads_bind. eapply leads_mono; [by apply H0|]. intros frag cx1 [W1 P1].
  apply stopped_spec. intros [|] Hb; [by apply leads_ret, pays_nil|].
  pose proof (repeat_count_nonneg a1) as Hn. pose proof (text_bytes_nonneg frag) as Hf. set (n := repeat_count a1) in *.
  assert (sat_mul (text_bytes frag) n = Z.min (text_bytes frag * n) (2 ^ 64 - 1)) as Em by done.
  apply leads_bind. eapply leads_mono; [apply charge_spec; [apply W1|rewrite Em; nia]|].
  intros [|] cx2 (W2 & S2 & P2); cbn [negb]; [|by apply leads_ret, pays_stopped; [eapply within_trans|]].
  eapply leads_mono; [apply copies_spec; [apply W2| |lia]|].
  { pose proof (vd_steps _ (wi_valid _ _ W2)). change (Z.of_nat (Z.to_nat PROC_MACRO_STEPS + 2)) with 100002. unfold PROC_MACRO_STEPS in *. lia. }
  intros out cx3 (W3 & B3 & P3). split; [eapply within_trans; [exact W1|by eapply within_trans]|]. intros Hb3. rewrite (P3 Hb3).
  pose proof (vd_cap _ (wi_valid _ _ W3) Hb3) as Hcap. pose proof (wi_bytes _ _ W1). pose proof (vd_bytes _ (wi_valid _ _ W1)).
  change PROC_MACRO_MEM_BYTES with 16777216 in Hcap. change (text_bytes []) with 0. nia.
Qed.

Lemma eval_call_spec name args cx size :
  Forall evals args → valid cx → args ≠ [] → impure_name name = false → name ≠ "effect"%string →
  Z.of_nat (String.length name) + args_bytes args + Z.of_nat (length args) + 1 <= size →
  leads (eval_call cancelled eval name args) cx (pays size cx).
Proof.
  intros H V Hne Hi He%String.eqb_neq Hs. unfold eval_call. rewrite Hi, He. apply leads_bind. eapply leads_mono; [by apply tick_spec|].
  pose proof (args_bytes_nonneg args) as Ha.
  intros [|] cx1 (W1 & B1 & P1); cbn [negb]; [|by apply leads_ret, pays_stopped].
  destruct (String.eqb name "concat").
  { eapply leads_mono; [apply eval_concat_spec; [done|apply W1]|]. intros out cx2 [W2 P2]. split; [by eapply within_trans|].
    intros Hb. specialize (P2 Hb). change (text_bytes []) with 0 in P2. lia. }
  destruct (String.eqb name "repeat").
  { eapply leads_mono; [apply eval_repeat_spec; [done|apply W1]|]. intros out cx2 [W2 P2]. split; [by eapply within_trans|].
    intros Hb. specialize (P2 Hb). lia. }
  apply leads_bind. eapply leads_mono; [apply charge_spec; [apply W1|exact Ha]|].
  intros [|] cx2 (W2 & S2 & P2); cbn [negb]; [|by apply leads_ret, pays_stopped; [eapply within_trans|]].
  apply leads_ret. split; [by eapply within_trans|]. intros _. rewrite (emit_call_bytes name args) by done.
  fold (args_bytes args) in P2. lia.
Qed.
End calls.

(** Pure tokens evaluate within the budgets; the fuel is enough. *)
Lemma eval_tokens_spec n params input toks :
  (length toks < n)%nat → texts_ok toks → Pure toks → evals (eval_tokens cancelled n params input) toks.
Proof.
  revert toks. induction n as [|n IH]; intros toks Hn Ht Hp cx V; [lia|]. cbn [eval_tokens].
  pose proof (trim_bytes toks) as Hb. pose proof (trim_length toks) as Hl. apply trim_texts in Ht. apply trim_pure in Hp.
  pose proof (text_bytes_nonneg toks) as Hnn.
  destruct (trim_trivia toks) as [|t0 rest]; [apply leads_ret, pays_nil; [by apply within_refl|apply text_bytes_nonneg]|].
  set (no_triv := t0 :: rest) in *. apply leads_bind. eapply leads_mono; [by apply tick_spec|].
  intros [|] cx1 (W1 & B1 & P1); cbn [negb]; [|by apply leads_ret, pays_stopped].
  assert (∀ l, leads (ok ← charge (text_bytes l); mret (if ok : bool then l else [])) cx1 (pays (text_bytes toks) cx)) as Hc.
  { intros l. apply leads_bind. eapply leads_mono; [apply charge_spec; [apply W1|apply text_bytes_nonneg]|].
    intros ok cx2 (W2 & _ & P2). apply leads_ret. split; [by eapply within_trans|]. intros Hb2. destruct ok; [|done]. lia. }
  destruct (kind_eqb (tok_kind t0) WHILE_KW).
  { eapply leads_mono; [apply eval_while_spec; [apply W1|]|].
    - pose proof (vd_steps _ (wi_valid _ _ W1)). change (Z.of_nat (Z.to_nat PROC_MACRO_STEPS + 1)) with 100001. unfold PROC_MACRO_STEPS in *. lia.
    - intros out cx2 (W2 & -> & P2). apply pays_stopped; [by eapply within_trans|done]. }
  destruct rest as [|t1 rest].
  - destruct (tok_is_ident t0); [|apply Hc]. destruct (_ || _); [apply Hc|].
    apply leads_ret. split; [done|]. intros _. subst no_triv. lia.
  - destruct (parse_call no_triv) as [[name args]|] eqn:Ec; [|apply Hc].
    destruct (parse_call_spec _ _ _ Ec Ht Hp) as (HF & Hne & Hi & He & Hs).
    eapply leads_mono; [apply (eval_call_spec _ name args cx1 (text_bytes toks)); [|apply W1|done|done|done|lia]|].
    + eapply Forall_impl; [exact HF|]. cbv beta. intros a (? & ? & ?). apply IH; [lia|done|done].
    + intros out cx2. by apply pays_after.
Qed.

Lemma walk_body_spec body params input cx :
  valid cx → texts_ok body → Pure body →
  leads (walk_body cancelled body params input) cx (pays (text_bytes body) cx).
Proof.
  intros V Ht Hp. unfold walk_body. pose proof (trim_bytes body) as Hb. pose proof (text_bytes_nonneg body).
  destruct (trim_trivia body) as [|t l] eqn:E; [by apply leads_ret, pays_nil; [apply within_refl|]|].
  apply leads_bind. eapply leads_mono; [by apply tick_spec|].
  intros [|] cx1 (W1 & B1 & P1); cbn [negb]; [|by apply leads_ret, pays_stopped]. rewrite Hp, <-E.
  eapply leads_mono; [apply eval_tokens_spec; [lia|by apply trim_texts|by apply trim_pure|apply W1]|].
  intros out cx2 Hpay. apply (pays_after _ _ cx1); [done|done|]. destruct Hpay as [W P]. split; [done|]. intros Hb2. specialize (P Hb2). rewrite E in P. lia.
Qed.

Lemma skip_trivia_idem l : skip_trivia_toks (skip_trivia_toks l) = skip_trivia_toks l.
Proof. induction l as [|t l IH]; [done|]. cbn. destruct (tok_is_trivia t) eqn:E; [done|]. cbn. by rewrite E. Qed.

Lemma skip_trivia_head l t rest : skip_trivia_toks l = t :: rest → tok_is_trivia t = false.
Proof. induction l as [|x l IH]; [done|]. cbn. destruct (tok_is_trivia x) eqn:E; [done|]. by intros [= <- <-]. Qed.

(** Trimming twice is trimming once. *)
Lemma trim_idem l : trim_trivia (trim_trivia l) = trim_trivia l.
Proof.
  unfold trim_trivia. set (m := skip_trivia_toks (reverse (skip_trivia_toks l))).
  assert (skip_trivia_toks m = m) as Em by apply skip_trivia_idem.
  enough (skip_trivia_toks (reverse m) = reverse m) as -> by (by rewrite reverse_involutive, Em).
  destruct (skip_trivia_suffix (reverse (skip_trivia_toks l))) as [pre E]. fold m in E. apply (f_equal reverse) in E.
  rewrite reverse_involutive, reverse_app in E. destruct (reverse m) as [|t r] eqn:Er; [done|]. cbn [app] in E.
  cbn [skip_trivia_toks]. by rewrite (skip_trivia_head _ _ _ E).
Qed.

(** A body that spins is stopped. *)
Lemma walk_while_spec body params input cx t rest :
  valid cx → Pure body → trim_trivia body = t :: rest → tok_kind t = WHILE_KW →
  leads (walk_body cancelled body params input) cx (λ _ cx', impure cx' = impure cx ∧ breach cx' ≠ None).
Proof.
  intros V Hp E Hk. unfold walk_body. rewrite E. apply leads_bind. eapply leads_mono; [by apply tick_spec|].
  intros [|] cx1 (W1 & B1 & P1); cbn [negb]; [|by apply leads_ret; split; [apply W1|]]. rewrite Hp.
  cbn [eval_tokens]. pose proof (trim_idem body) as Ei. rewrite E in Ei. rewrite Ei.
  apply leads_bind. eapply leads_mono; [apply tick_spec, W1|].
  intros [|] cx2 (W2 & B2 & P2); cbn [negb]; [|apply leads_ret; split; [rewrite (wi_impure _ _ W2); apply W1|done]].
  rewrite Hk. change (kind_eqb WHILE_KW WHILE_KW) with true. cbv iota.
  eapply leads_mono; [apply eval_while_spec; [apply W2|]|].
  - pose proof (vd_steps _ (wi_valid _ _ W2)). change (Z.of_nat (Z.to_nat PROC_MACRO_STEPS + 1)) with 100001. unfold PROC_MACRO_STEPS in *. lia.
  - intros out cx3 (W3 & -> & P3). split; [|done]. rewrite (wi_impure _ _ W3), (wi_impure _ _ W2). apply W1.
Qed.

Lemma new_cx_valid : valid new_cx.
Proof. by repeat split. Qed.
End budgets.
