(* ===== verification/MacroTheorems.v ===== *)
(** * Theorems of the macro expander

    Resolution by sets of scopes, the hygiene of an expansion, and what the
    sandbox of procedural macros lets out. *)

From stdpp Require Import base list strings numbers gmap sets.
From S2P Require Import Prelude ParserCore Lexer Semver MacroExpand StateM MacroProc.

Local Open Scope string_scope.
Local Open Scope list_scope.
Notation length := List.length (only parsing).

(** ** Resolution *)

Section resolution.
Context {P : Type}.

(** [p]'s scopes are in the name's, and no other candidate's that are are as many. *)
Definition best_match (name : gset Z) (cands : list (gset Z * P)) (p : P) : Prop :=
  ∃ l1 s l2, cands = l1 ++ (s, p) :: l2 ∧ s ⊆ name ∧ ∀ c, c ∈ l1 ++ l2 → c.1 ⊆ name → (size c.1 < size s)%nat.

(** Two candidates share the largest number of scopes. *)
Definition best_tied (name : gset Z) (cands : list (gset Z * P)) : Prop :=
  ∃ l1 c l2 d l3, cands = l1 ++ c :: l2 ++ d :: l3 ∧ c.1 ⊆ name ∧ d.1 ⊆ name ∧ size c.1 = size d.1 ∧
    ∀ e, e ∈ cands → e.1 ⊆ name → (size e.1 <= size c.1)%nat.

Lemma resolve_complete name cands :
  match resolve_scopes name cands with
  | Ok None => ∀ c, c ∈ cands → ¬ c.1 ⊆ name
  | Ok (Some p) => best_match name cands p
  | Err _ => best_tied name cands
  end.
Proof.
  unfold resolve_scopes. pose proof (foldl_best name cands) as H.
  destruct (foldl (consider name) (None, false) cands) as [[[n p]|] tied]; unfold Best in H; cbn [fst snd] in H.
  - destruct H as (l1 & s & l2 & -> & Hs & <- & Hmax & Hlt & Ht). destruct tied.
    + destruct (proj1 Ht eq_refl) as (d & (l2a & l2b & ->)%list_elem_of_split & Hd & Hsz).
      exists l1, (s, p), l2a, d, l2b. by split_and!.
    + cbn. exists l1, s, l2. split_and!; [done|done|]. intros c [Hc|Hc]%elem_of_app Hsub; [by apply Hlt|].
      assert (size c.1 ≠ size s) as Hne by (intros E; enough (false = true) by done; apply Ht; by exists c).
      assert (c ∈ l1 ++ (s, p) :: l2) as Hin by (apply elem_of_app; right; by apply list_elem_of_further).
      specialize (Hmax c Hin Hsub). lia.
  - by destruct H as [-> H].
Qed.

Lemma best_match_unique name cands p q : best_match name cands p → best_match name cands q → p = q.
Proof.
  intros (l1 & s & l2 & E1 & Hs & H1) (l1' & s' & l2' & E2 & Hs' & H2).
  assert ((s', q) ∈ l1 ++ (s, p) :: l2) as Hq by (rewrite <-E1, E2; set_solver).
  assert ((s, p) ∈ l1' ++ (s', q) :: l2') as Hp by (rewrite <-E2, E1; set_solver).
  apply elem_of_app in Hq as [Hq|[[= -> ->]|Hq]%elem_of_cons]; [|done|];
    (apply elem_of_app in Hp as [Hp|[[= -> ->]|Hp]%elem_of_cons]; [|done|]);
    (assert (size s' < size s)%nat by (apply (H1 (s', q)); [set_solver|done]));
    (assert (size s < size s')%nat by (apply (H2 (s, p)); [set_solver|done])); lia.
Qed.

Lemma best_match_not_tied name cands p : best_match name cands p → ¬ best_tied name cands.
Proof.
  intros (l1 & s & l2 & E1 & Hs & H1) (m1 & c & m2 & d & m3 & E2 & Hc & Hd & Hsz & Hmax).
  assert ((s, p) ∈ cands) as Hin by (rewrite E1; set_solver). pose proof (Hmax _ Hin Hs) as Hle. cbn in Hle.
  assert (∀ e, e ∈ cands → e.1 ⊆ name → size e.1 = size c.1 → e = (s, p)) as Honly.
  { intros e He Hsub E. rewrite E1 in He. apply elem_of_app in He as [He|[->|He]%elem_of_cons]; [|done|];
      (assert (size e.1 < size s)%nat by (apply H1; [set_solver|done])); lia. }
  assert (c = (s, p)) as -> by (apply Honly; [rewrite E2; set_solver|done|done]).
  assert (d = (s, p)) as -> by (apply Honly; [rewrite E2; set_solver|done|done]).
  assert (length (filter (λ e, e.1 ⊆ name ∧ size s ≤ size e.1)%nat cands) = 1)%nat as L1.
  { rewrite E1, filter_app, filter_cons_True by (cbn; split; [done|lia]). rewrite length_app. cbn.
    assert (∀ l, (∀ c, c ∈ l → c ∈ l1 ++ l2) → filter (λ e : gset Z * P, e.1 ⊆ name ∧ size s ≤ size e.1)%nat l = []) as Hnil.
    { intros l Hl. induction l as [|x l IH]; [done|]. rewrite filter_cons_False; [apply IH; set_solver|].
      intros [Hx1 Hx2]. specialize (H1 x ltac:(apply Hl; set_solver) Hx1). lia. }
    rewrite !Hnil by set_solver. done. }
  rewrite E2, filter_app, filter_cons_True in L1 by (cbn; split; [done|lia]).
  rewrite filter_app, filter_cons_True in L1 by (cbn; split; [done|lia]).
  rewrite length_app in L1. cbn in L1. rewrite length_app in L1. cbn in L1. lia.
Qed.
End resolution.

(** C15. [scopes::resolve] answers exactly by the rule of sets of scopes:
    nothing when no candidate's scopes are among the name's, the candidate
    with the most scopes when it is the only one with so many, and an
    ambiguity exactly when two candidates share the maximum. *)
Theorem resolve_exact (name : gset Z) (cands : list (gset Z * nat)) :
  (resolve_scopes name cands = Ok None ↔ ∀ c, c ∈ cands → ¬ c.1 ⊆ name) ∧
  (∀ p, resolve_scopes name cands = Ok (Some p) ↔ best_match name cands p) ∧
  (resolve_scopes name cands = Err Ambiguous ↔ best_tied name cands).
Proof.
  pose proof (resolve_complete name cands) as H.
  assert (∀ p, best_match name cands p → ¬ ∀ c, c ∈ cands → ¬ c.1 ⊆ name) as Hm.
  { intros p (l1 & s & l2 & -> & Hs & _) Hn. apply (Hn (s, p)); [set_solver|done]. }
  assert (best_tied name cands → ¬ ∀ c, c ∈ cands → ¬ c.1 ⊆ name) as Ht.
  { intros (l1 & c & l2 & d & l3 & -> & Hc & _) Hn. apply (Hn c); [set_solver|done]. }
  destruct (resolve_scopes name cands) as [[p|]|[]]; split_and!; try (intros q); split; try done; try (intros [= <-]; done).
  - intros Hn. by destruct (Hm p H).
  - intros Hq. by rewrite (best_match_unique _ _ _ _ H Hq).
  - intros Htied. by destruct (best_match_not_tied _ _ _ H).
  - intros Hq. by destruct (Hm q Hq).
  - intros Htied. by destruct (Ht Htied).
  - intros Hn. by destruct (Ht H).
  - intros Hq. by destruct (best_match_not_tied _ _ _ Hq).
Qed.

Example resolves_by_size :
  resolve_scopes {[1; 2]}%Z [({[1]}%Z, 10%nat); ({[1; 2]}%Z, 20%nat); ({[3]}%Z, 30%nat)] = Ok (Some 20%nat) ∧
  resolve_scopes {[1; 2]}%Z [({[1]}%Z, 10%nat); ({[2]}%Z, 20%nat)] = Err Ambiguous.
Proof. by vm_compute. Qed.

(** ** The sandbox *)

(** A body that names no impure surface at all, aliased or not. *)
Definition names_impure (body : list Tok) : Prop :=
  Exists (λ t, tok_kind t = EFFECT_KW ∨
    tok_kind t = IDENT ∧ tok_text t ∈ ["effect"; "time"; "env"; "io"; "model"; "rand"]) body.

Lemma impure_named t rest r : impure_at t rest = Some r → names_impure [t].
Proof.
  intros H. constructor. unfold impure_at in H. destruct (skip_trivia_toks rest) as [|next after]; [done|].
  destruct (kind_eqb (tok_kind t) EFFECT_KW && _) eqn:E1.
  - left. apply andb_true_iff in E1 as [E1 _]. by apply kind_eqb_eq.
  - destruct (tok_is_ident t && _ && _) eqn:E2; [|done]. right. apply andb_true_iff in E2 as [[Ei _]%andb_true_iff En].
    apply bool_decide_eq_true in En. split; [by apply kind_eqb_eq|]. by apply list_elem_of_further.
Qed.

Lemma refused_named body r : check_proc_macro_purity body = Some r → names_impure body.
Proof.
  induction body as [|t body IH]; [done|]. cbn [check_proc_macro_purity]. destruct (impure_at t body) as [r'|] eqn:E.
  - intros _. apply impure_named, Exists_cons in E as [E|E]; [by constructor|by apply Exists_nil in E].
  - intros H. apply Exists_cons_tl, IH, H.
Qed.

Lemma expand_proc_outcomes cancelled timed_out def input :
  Forall tok_ok (md_body def) →
  ∃ r, expand_proc cancelled timed_out def input = Some r ∧
    match r with
    | PmOk out =>
        check_proc_macro_purity (md_body def) = None ∧ (text_bytes out <= PROC_MACRO_MEM_BYTES + text_bytes (md_body def))%Z ∧
        ∀ t rest, trim_trivia (md_body def) = t :: rest → tok_kind t ≠ WHILE_KW
    | PmImpure reason => check_proc_macro_purity (md_body def) = Some reason
    | PmResourceExceeded _ => check_proc_macro_purity (md_body def) = None
    | PmUnsupported | PmImpureAtRuntime _ => False
    end.
Proof.
  intros Ht. unfold expand_proc. destruct (check_proc_macro_purity (md_body def)) as [reason|] eqn:Hp; [by eexists|].
  destruct timed_out; cbn [run]; [by eexists|]. unfold worker.
  destruct (leads_run _ _ _ (walk_body_spec cancelled (md_body def) (md_params def) input new_cx new_cx_valid Ht Hp))
    as (out & cx & E & W & Hpay). rewrite E. cbn [mbind option_bind]. eexists. split; [done|].
  rewrite (wi_impure _ _ W). cbn. destruct (breach cx) as [b|] eqn:Eb; [done|]. split_and!; [done| |].
  - specialize (Hpay eq_refl). pose proof (vd_cap _ (wi_valid _ _ W) Eb). cbn in Hpay. lia.
  - intros t rest Hw Hk.
    pose proof (walk_while_spec cancelled (md_body def) (md_params def) input new_cx t rest new_cx_valid Hp Hw Hk) as H.
    unfold leads in H. rewrite E in H. by destruct H as [_ []].
Qed.

(** C24. Whatever the cancellation flag reads and whichever side wins the
    race, [expand_proc] answers on a body of tokens as the lexer makes them
    ([tok_ok]).  A body is refused before it runs exactly for the reason of the
    static check, and only when it names an impure surface; a body that names
    none is not found impure at run time either.  An accepted output has at
    most the memory cap beyond the body's own text; and a body that begins with
    [while] is stopped by a budget, never accepted. *)
Theorem sandbox_contains cancelled timed_out def input :
  Forall tok_ok (md_body def) →
  ∃ r, expand_proc cancelled timed_out def input = Some r ∧
    match r with
    | PmOk out =>
        check_proc_macro_purity (md_body def) = None ∧ (text_bytes out <= PROC_MACRO_MEM_BYTES + text_bytes (md_body def))%Z ∧
        ∀ t rest, trim_trivia (md_body def) = t :: rest → tok_kind t ≠ WHILE_KW
    | PmImpure reason => check_proc_macro_purity (md_body def) = Some reason ∧ names_impure (md_body def)
    | PmResourceExceeded _ => check_proc_macro_purity (md_body def) = None
    | PmImpureAtRuntime _ => names_impure (md_body def)
    | PmUnsupported => False
    end.
Proof.
  intros Ht. destruct (expand_proc_outcomes cancelled timed_out def input Ht) as (r & E & H). exists r.
  destruct r; try done. split; [done|]. split; [done|]. exact (refused_named _ _ H).
Qed.

(** The check at run time, which the comments of [proc.rs] call the authority on
    surfaces aliased through a [let], repeats the static one: no expansion ends
    in [ImpureAtRuntime], and a body with such an alias is accepted. *)
Theorem runtime_purity_idle cancelled timed_out def input reason :
  Forall tok_ok (md_body def) → expand_proc cancelled timed_out def input ≠ Some (PmImpureAtRuntime reason).
Proof.
  intros Ht E. destruct (expand_proc_outcomes cancelled timed_out def input Ht) as (r & E' & H).
  rewrite E in E'. by injection E' as <-.
Qed.

(** [let a = io; a.read(input)] *)
Definition aliased_body : list Tok :=
  [mkTok LET_KW "let"; mkTok IDENT "a"; mkTok EQ "="; mkTok IDENT "io"; mkTok SEMI ";"; mkTok IDENT "a"; mkTok DOT ".";
   mkTok IDENT "read"; mkTok L_PAREN "("; mkTok IDENT "input"; mkTok R_PAREN ")"].

Example alias_accepted :
  expand_proc (λ _, false) false (mkMacroDef "m" [] aliased_body true Procedural) [] = Some (PmOk aliased_body).
Proof. by vm_compute. Qed.

Definition ident (s : string) : Tok := mkTok IDENT s.
Definition repeat_body (n : string) : list Tok :=
  [ident "repeat"; mkTok L_PAREN "("; ident "input"; mkTok COMMA ","; mkTok INT_LITERAL n; mkTok R_PAREN ")"].

Lemma sandbox_contains_witness :
  expand_proc (λ _, false) false (mkMacroDef "m" [] (repeat_body "3") true Procedural) [ident "ab"] = Some (PmOk [ident "ab"; ident "ab"; ident "ab"]) ∧
  expand_proc (λ _, false) false (mkMacroDef "m" [] (repeat_body "99999999") true Procedural) [ident "ab"] = Some (PmResourceExceeded Memory) ∧
  expand_proc (λ k, k =? 100)%nat false (mkMacroDef "m" [] [mkTok WHILE_KW "while"] true Procedural) [] = Some (PmResourceExceeded Wall) ∧
  ∃ r, expand_proc (λ _, false) false (mkMacroDef "m" [] (repeat_body "3") true Procedural) [ident "ab"] = Some r.
Proof.
  split_and!; [by vm_compute..|].
  destruct (sandbox_contains (λ _, false) false (mkMacroDef "m" [] (repeat_body "3") true Procedural) [ident "ab"]) as (r & E & _).
  - cbn. repeat (apply Forall_cons; split); [split; [done|intros [_ ?]; done]..|by apply Forall_nil].
  - by exists r.
Defined.

(** ** Hygiene *)

Lemma digits_then_inj (a b : text) x y :
  Forall is_digit a → Forall is_digit b → of_ascii a +:+ "_" +:+ x = of_ascii b +:+ "_" +:+ y → a = b ∧ x = y.
Proof.
  assert (∀ c, is_digit c → Ascii.nat_of_ascii (Ascii.ascii_of_nat (Z.to_nat c)) = Z.to_nat c) as Hc.
  { intros c Hd. apply Ascii.nat_ascii_embedding. unfold is_digit in Hd. lia. }
  assert (∀ c, is_digit c → Ascii.ascii_of_nat (Z.to_nat c) ≠ Ascii.ascii_of_nat 95) as Hu.
  { intros c Hd E. apply (f_equal Ascii.nat_of_ascii) in E. rewrite (Hc c Hd) in E. change (Ascii.nat_of_ascii (Ascii.ascii_of_nat 95)) with 95%nat in E.
    unfold is_digit in Hd. lia. }
  intros Ha. revert b. induction Ha as [|c a Hd Ha IH]; intros [|d b] Hb E; cbn in E.
  - by injection E.
  - apply Forall_cons in Hb as [Hd Hb]. injection E as E1 E2. by destruct (Hu d Hd).
  - injection E as E1 E2. by destruct (Hu c Hd).
  - apply Forall_cons in Hb as [Hd' Hb]. injection E as E1 E2. destruct (IH b Hb E2) as [-> ->]. split; [|done]. f_equal.
    apply (f_equal Ascii.nat_of_ascii) in E1. rewrite !Hc in E1 by done. unfold is_digit in *. lia.
Qed.

Lemma mangle_inj i j x y : u64 i → u64 j → mangle i x = mangle j y → i = j ∧ x = y.
Proof.
  intros Hi Hj E. unfold mangle in E. injection E as E.
  destruct (digits_then_inj _ _ _ _ (display_digits i Hi) (display_digits j Hj) E) as [Ed ->]. split; [|done].
  pose proof (parse_num_display i Hi) as Pi. rewrite Ed, (parse_num_display j Hj) in Pi. by injection Pi.
Qed.

(** The names a pattern adds are neither parameters nor [_]. *)
Definition names_ok (params bound : list string) : Prop := NoDup bound ∧ Forall (λ x, x ∉ params ∧ x ≠ "_" ∧ x ≠ "") bound.

Lemma add_binding_ok params name bound : names_ok params bound → names_ok params (add_binding params name bound).
Proof.
  intros [Hd HF]. unfold add_binding. destruct (String.eqb_spec name "_"), (String.eqb_spec name ""); [done..|]. cbn [orb].
  case_bool_decide; [done|]. case_bool_decide; [done|]. split.
  - apply NoDup_app. split_and!; [done|set_solver|apply NoDup_singleton].
  - apply Forall_app. split; [done|]. apply Forall_singleton. done.
Qed.

Lemma harvest_tok_ok params body e k h : names_ok params (bound h) → names_ok params (bound (harvest_tok params body e k h)).
Proof.
  intros H. pose proof add_binding_ok as Ha.
  assert (∀ j h, names_ok params (bound h) → names_ok params (bound (bind_at params body e j h))) as Hb.
  { intros j h' Hh. unfold bind_at. destruct (_ && _); [|done]. by apply Ha. }
  assert (names_ok params (commit params body h)) by (unfold commit; destruct (pending h); auto).
  unfold harvest_tok. destruct k; cbn [bound]; auto.
  - destruct (in_struct h); [done|]. destruct (constructor_or_path _); [done|]. cbn. auto.
  - destruct (in_struct h); [|done]. by apply Hb.
Qed.

Lemma harvest_loop_ok params body e n h : names_ok params (bound h) → names_ok params (bound (harvest_loop params body e n h)).
Proof.
  revert h. induction n as [|n IH]; intros h H; cbn [harvest_loop]; [done|]. destruct (_ <? _)%nat; [|done].
  apply IH. cbn. by apply harvest_tok_ok.
Qed.

Lemma collect_ok params body : names_ok params (collect_bound_idents body params).
Proof.
  unfold collect_bound_idents. assert (names_ok params []) as H0 by by split; constructor.
  revert H0. generalize (@nil string) as bd. generalize 0%nat as i. generalize (length body) as n.
  induction n as [|n IH]; intros i bd H; cbn [collect_loop]; [done|]. destruct (negb _); [done|].
  destruct (kind_eqb _ _); [|by apply IH].
  destruct (pattern_extent _ _ _ _ _) as [j colon]. apply IH. unfold harvest_pattern_idents, commit.
  pose proof (harvest_loop_ok params body (default j colon) (default j colon - S i) (mkHarvest (S i) [] None bd) H) as Hl.
  destruct (pending _); [by apply add_binding_ok|done].
Qed.

Lemma lex_args_ok logos env cs i args toks :
  lex_args logos env cs i args = Ok toks →
  length toks = length args ∧
  ∀ k ts, toks !! k = Some ts → ∃ a l, args !! k = Some a ∧ lex_fragment logos a = Some l ∧ ts = apply_to_argument env l cs.
Proof.
  revert i toks. induction args as [|a args IH]; intros i toks; cbn [lex_args]; [intros [= <-]; by split; [|intros [] ? ?]|].
  destruct (lex_fragment logos a) as [l|] eqn:El; [|done].
  destruct (lex_args logos env cs (S i) args) as [rest|] eqn:Er; [|done]. cbn. intros [= <-].
  destruct (IH _ _ Er) as [Hl Hk]. split; [cbn; lia|]. intros [|k] ts; [intros [= <-]; by exists a, l|apply Hk].
Qed.

Lemma param_index_spec params x :
  match param_index params x with Some i => params !! i = Some x | None => x ∉ params end.
Proof.
  induction params as [|p params IH]; cbn [param_index]; [by intros ?%elem_of_nil|].
  destruct (String.eqb_spec p x) as [->|Hne]; [done|]. destruct (param_index params x); [done|].
  cbn. intros [->|?]%elem_of_cons; done.
Qed.

(** Where a token of an expansion comes from: an argument, with the caller's
    scopes, or the body, with the invocation's.  From the body come the
    parentheses around an argument, the tokens that are not identifiers,
    unchanged, and the identifiers that are no parameter, mangled when they are
    among the names. *)
Definition from_argument (logos : string → list LogosItem) (args : list string) (cs : gset Z) (st : ScopedTok) : Prop :=
  ∃ i a toks, args !! i = Some a ∧ lex_fragment logos a = Some toks ∧ st_tok st ∈ toks ∧ st_scopes st = cs.

Definition from_body (def : MacroDef) (names : list string) (intro : Z) (scopes : gset Z) (st : ScopedTok) : Prop :=
  st_scopes st = scopes ∧
  (st_tok st = mkTok L_PAREN "(" ∨ st_tok st = mkTok R_PAREN ")" ∨
   ∃ t, t ∈ md_body def ∧
     if tok_is_ident t
     then tok_text t ∉ md_params def ∧
       st_tok st = if bool_decide (tok_text t ∈ names) then mkTok IDENT (mangle intro (tok_text t)) else t
     else st_tok st = t).

Lemma expand_tok_from logos def names env args argts cs t st :
  lex_args logos env cs 0 args = Ok argts → t ∈ md_body def →
  st ∈ expand_tok (md_params def) names env argts t →
  from_argument logos args cs st ∨ from_body def names (he_intro env) (body_scopes env) st.
Proof.
  intros Hl Ht. destruct (lex_args_ok _ _ _ _ _ _ Hl) as [_ Hk]. unfold expand_tok.
  pose proof (param_index_spec (md_params def) (tok_text t)) as Hp.
  destruct (tok_is_ident t) eqn:Eid; [destruct (param_index (md_params def) (tok_text t)) as [idx|]|].
  - intros [->%list_elem_of_singleton|[Hst| ->%list_elem_of_singleton]%elem_of_app]%elem_of_app;
      [by right; split; [|left]| |by right; split; [|right; left]].
    left. destruct (argts !! idx) as [ts|] eqn:Ei; cbn [default from_option] in Hst; [|exfalso; by apply elem_of_nil in Hst].
    destruct (Hk idx ts Ei) as (a & l & Ha & Hla & ->). apply list_elem_of_fmap in Hst as (u & -> & Hu). by exists idx, a, l.
  - intros Hst. right. case_bool_decide as Hb; apply list_elem_of_singleton in Hst as ->; (split; [done|]); right; right; exists t;
      (split; [done|]); rewrite Eid; (split; [done|]); [by rewrite (bool_decide_eq_true_2 _ Hb)|by rewrite (bool_decide_eq_false_2 _ Hb)].
  - intros ->%list_elem_of_singleton. right. split; [done|]. right; right. exists t. by rewrite Eid.
Qed.

Section fresh.
Context {P : Type}.
Variables (scopes name : gset Z) (intro : Z) (cands : list (gset Z * P)).
Hypothesis Hin : intro ∈ scopes.
Hypothesis Hout : ∀ c, c ∈ cands → intro ∉ c.1.

(** A name without the fresh scope does not see the invocation's binding. *)
Lemma resolve_outside p : intro ∉ name → resolve_scopes name ((scopes, p) :: cands) = resolve_scopes name cands.
Proof.
  intros Hn. unfold resolve_scopes. cbn [foldl]. unfold consider at 2, is_subset. cbn [fst].
  rewrite (bool_decide_eq_false_2 (scopes ⊆ name)) by set_solver. done.
Qed.

(** The invocation's own names resolve to its binding. *)
Lemma resolve_inside p : resolve_scopes scopes ((scopes, p) :: cands) = Ok (Some p).
Proof.
  assert (best_match scopes ((scopes, p) :: cands) p) as Hb.
  { exists [], scopes, cands. split_and!; [done|done|]. intros c Hc Hs. apply subset_size. specialize (Hout c Hc).
    apply set_subset_inv_L_2 || (split; [done|]; intros Hs'; apply Hout, Hs', Hin). }
  pose proof (resolve_complete scopes ((scopes, p) :: cands)) as H.
  destruct (resolve_scopes scopes ((scopes, p) :: cands)) as [[q|]|].
  - by rewrite (best_match_unique _ _ _ _ Hb H).
  - destruct (H (scopes, p)); [by apply list_elem_of_here|done].
  - by destruct (best_match_not_tied _ _ _ Hb).
Qed.
End fresh.

(** An expansion keeps scopes apart.  Every token of its output is an
    argument's, with the scopes the caller gave it, or the body's, with the
    fresh scope of the invocation and the definition's; an identifier of the
    body is no parameter, and is mangled when it is among the names
    [collect_bound_idents] reports.  As the scope is fresh, a caller's name
    never resolves to one of the reported bindings, and the body's own names
    do, whatever older bindings there are. *)
Theorem expansion_hygienic logos def args gen ds cs exp gen' :
  (∀ s, s ∈ cs → (s < sg_next gen)%Z) →
  expand_scoped logos def args gen ds cs = Some (Ok exp, gen') →
  ex_intro exp = sg_next gen ∧ sg_next gen' = (sg_next gen + 1)%Z ∧ length args = arity def ∧
  NoDup (fst <$> ex_bindings exp) ∧
  (∀ st, st ∈ ex_tokens exp →
     from_argument logos args cs st ∨ from_body def (fst <$> ex_bindings exp) (ex_intro exp) ({[ex_intro exp]} ∪ ds) st) ∧
  ∀ b, b ∈ ex_bindings exp →
    b.1 ∉ md_params def ∧ b.2 = {[ex_intro exp]} ∪ ds ∧
    ∀ (p : nat) cands, (∀ c, c ∈ cands → ∀ s, s ∈ c.1 → (s < sg_next gen)%Z) →
      resolve_scopes cs ((b.2, p) :: cands) = resolve_scopes cs cands ∧ resolve_scopes b.2 ((b.2, p) :: cands) = Ok (Some p).
Proof.
  intros Hcs. unfold expand_scoped. destruct (Nat.eqb_spec (length args) (length (md_params def))) as [Ea|]; [|done]. cbn [negb].
  unfold fresh_scope. case_bool_decide as Hf; [|done]. cbn [mbind option_bind].
  set (env := mkEnv (sg_next gen) ds).
  destruct (lex_args logos env cs 0 args) as [argts|] eqn:El; [|done]. intros [= <- <-]. cbn [ex_intro sg_next ex_bindings ex_tokens].
  destruct (collect_ok (md_params def) (md_body def)) as [Hnd Hok]. set (names := collect_bound_idents (md_body def) (md_params def)) in *.
  assert (fst <$> ((λ name : string, (name, body_scopes env)) <$> names) = names) as En by (rewrite <-list_fmap_compose; apply list_fmap_id).
  rewrite En. split_and!; [done|done|done|done| |].
  - intros st (t & Hst & Ht)%list_elem_of_bind. by apply (expand_tok_from logos def names env args argts cs t st El Ht).
  - intros b (x & -> & Hx)%list_elem_of_fmap. rewrite Forall_forall in Hok. cbn [fst snd]. split_and!; [by apply Hok|done|].
    intros p cands Hc.
    assert (sg_next gen ∈ body_scopes env) as Hin by (unfold body_scopes, with_scope; cbn; set_solver).
    assert (∀ c, c ∈ cands → sg_next gen ∉ c.1) as Hout by (intros c Hcc Hs; specialize (Hc c Hcc _ Hs); lia).
    split; [|by eapply resolve_inside]. apply (resolve_outside _ _ (sg_next gen)); [done..|].
    intros Hs. specialize (Hcs _ Hs). lia.
Qed.

(** The names two invocations of one generator make never meet. *)
Theorem invocations_apart logos d1 a1 g1 ds1 cs1 e1 g1' d2 a2 g2 ds2 cs2 e2 g2' x y :
  (1 <= sg_next g1)%Z → expand_scoped logos d1 a1 g1 ds1 cs1 = Some (Ok e1, g1') → (sg_next g1' <= sg_next g2)%Z →
  expand_scoped logos d2 a2 g2 ds2 cs2 = Some (Ok e2, g2') → mangle (ex_intro e1) x ≠ mangle (ex_intro e2) y.
Proof.
  assert (∀ d a g ds cs e g', expand_scoped logos d a g ds cs = Some (Ok e, g') →
    ex_intro e = sg_next g ∧ sg_next g' = (sg_next g + 1)%Z ∧ (sg_next g + 1 < 2 ^ 32)%Z) as H.
  { intros d a g ds cs e g'. unfold expand_scoped. destruct (negb _); [done|]. unfold fresh_scope. case_bool_decide; [|done].
    cbn [mbind option_bind]. destruct (lex_args _ _ _ _ _); [|done]. by intros [= <- <-]. }
  intros Hg (Ei1 & En1 & Hb1)%H Hle (Ei2 & En2 & Hb2)%H E.
  apply mangle_inj in E as [E _]; [|split; rewrite ?Ei1, ?Ei2; lia..]. lia.
Qed.

Definition swap_let : list Tok :=
  [mkTok LET_KW "let"; mkTok WHITESPACE " "; ident "a"; mkTok EQ "="; ident "x"; mkTok SEMI ";"; ident "a"; mkTok PLUS "+"; ident "b"].

Definition swap_def : MacroDef := mkMacroDef "m" ["x"] swap_let true Declarative.

(** [m!(a)]: the caller's [a] is kept apart from the body's. *)
Example swap_expands :
  option_map (λ r, match r.1 with Ok e => Some (fst e) | Err _ => None end)
    (expand_scoped_to_source MiniLexer.mini_logos swap_def ["a"] new_scope_gen ∅ ∅) = Some (Some "let __mac_1_a=(a);__mac_1_a+b").
Proof. vm_compute. reflexivity. Qed.

Lemma expansion_hygienic_witness :
  ∃ exp gen', expand_scoped MiniLexer.mini_logos swap_def ["a"] new_scope_gen ∅ ∅ = Some (Ok exp, gen') ∧
    (fst <$> ex_bindings exp) = ["a"] ∧ ex_intro exp = 1%Z.
Proof.
  destruct (expand_scoped MiniLexer.mini_logos swap_def ["a"] new_scope_gen ∅ ∅) as [[[exp|] gen']|] eqn:E; [|by vm_compute in E..].
  exists exp, gen'. split_and!; [done|by vm_compute in E; injection E as <- _|].
  assert (∀ s : Z, s ∈ (∅ : gset Z) → (s < sg_next new_scope_gen)%Z) as H by set_solver.
  apply (expansion_hygienic MiniLexer.mini_logos swap_def ["a"] new_scope_gen ∅ ∅ exp gen' H E).
Defined.

Lemma invocations_apart_witness :
  ∃ e1 g1 e2 g2, expand_scoped MiniLexer.mini_logos swap_def ["a"] new_scope_gen ∅ ∅ = Some (Ok e1, g1) ∧
    expand_scoped MiniLexer.mini_logos swap_def ["b"] g1 ∅ ∅ = Some (Ok e2, g2) ∧ mangle (ex_intro e1) "a" ≠ mangle (ex_intro e2) "a".
Proof.
  destruct (expand_scoped MiniLexer.mini_logos swap_def ["a"] new_scope_gen ∅ ∅) as [[[e1|] g1]|] eqn:E1; [|by vm_compute in E1..].
  destruct (expand_scoped MiniLexer.mini_logos swap_def ["b"] g1 ∅ ∅) as [[[e2|] g2]|] eqn:E2.
  - exists e1, g1, e2, g2. split_and!; [done|done|]. refine (invocations_apart _ _ _ _ _ _ _ _ _ _ _ _ _ _ _ "a" "a" _ E1 (Z.le_refl _) E2). done.
  - vm_compute in E1. injection E1 as _ <-. by vm_compute in E2.
  - vm_compute in E1. injection E1 as _ <-. by vm_compute in E2.
Defined.

(** ** Registries *)

(** Whatever the order of the imported map, a package sees every exported
    macro under its bound name, when these are distinct, and its other macros
    unchanged. *)
Theorem register_use_exact pm (other : MacroRegistry) order alias_map :
  order ≡ₚ map_to_list other → NoDup ((λ kv, bound_name alias_map kv.1) <$> order) →
  (∀ k d, other !! k = Some d →
     local (register_use pm order alias_map) !! bound_name alias_map k = Some (renamed d (bound_name alias_map k))) ∧
  ∀ n, (∀ k, is_Some (other !! k) → bound_name alias_map k ≠ n) → local (register_use pm order alias_map) !! n = local pm !! n.
Proof.
  intros Hp Hnd. unfold register_use. cbn [local]. split.
  - intros k d Hk. rewrite foldl_register by done.
    assert ((k, d) ∈ order) as Hin by (rewrite Hp; by apply elem_of_map_to_list).
    destruct (list_find _ order) as [[i kv]|] eqn:E.
    + apply list_find_Some in E as (Hi & E & _). apply list_elem_of_lookup_1 in Hin as [j Hj].
      assert (i = j) as ->; [|rewrite Hi in Hj; by injection Hj as ->].
      eapply NoDup_lookup; [exact Hnd| |]; rewrite list_lookup_fmap, ?Hi, ?Hj; cbn; by rewrite ?E.
    + apply list_find_None in E. rewrite Forall_forall in E. by destruct (E _ Hin).
  - intros n Hn. rewrite foldl_register by done. destruct (list_find _ order) as [[i [k d]]|] eqn:E; [|done].
    apply list_find_Some in E as (Hi & E & _). destruct (Hn k); [|done]. exists d. apply elem_of_map_to_list. rewrite <-Hp.
    by eapply list_elem_of_lookup_2.
Qed.

Definition two_macros : MacroRegistry :=
  insert_macro (mkMacroDef "f" [] [] true Declarative) (insert_macro (mkMacroDef "g" [] [] true Declarative) ∅).

Lemma register_use_exact_witness :
  local (register_use (mkPackage ∅ ∅) (map_to_list two_macros) [("f", "h")]) !! "h" = Some (mkMacroDef "h" [] [] true Declarative).
Proof.
  refine (proj1 (register_use_exact (mkPackage ∅ ∅) two_macros (map_to_list two_macros) [("f", "h")] _ _) "f" (mkMacroDef "f" [] [] true Declarative) _).
  - done.
  - apply (bool_decide_unpack _). vm_compute. exact I.
  - vm_compute. reflexivity.
Defined.

(** Two exports aliased to one name: the last in the iteration wins. *)
Example alias_depends_on_order :
  let f := ("f", mkMacroDef "f" [] [] true Declarative) in let g := ("g", mkMacroDef "g" ["x"] [] true Declarative) in
  local (register_use (mkPackage ∅ ∅) [f; g] [("f", "h"); ("g", "h")]) !! "h"
  ≠ local (register_use (mkPackage ∅ ∅) [g; f] [("f", "h"); ("g", "h")]) !! "h".
Proof. by vm_compute. Qed.

(** A field selector is taken for the name a [let] binds. *)
Example selector_is_mangled :
  let body := [mkTok LET_KW "let"; mkTok WHITESPACE " "; ident "id"; mkTok EQ "="; ident "u"; mkTok SEMI ";"; ident "u"; mkTok DOT "."; ident "id"] in
  option_map (λ r, match r.1 with Ok e => Some (fst e) | Err _ => None end)
    (expand_scoped_to_source MiniLexer.mini_logos (mkMacroDef "m" [] body true Declarative) [] new_scope_gen ∅ ∅) =
  Some (Some "let __mac_1_id=u;u.__mac_1_id").
Proof. by vm_compute. Qed.

(** The constructor of a nested pattern is taken for a binding. *)
Example nested_constructor_is_bound :
  collect_bound_idents
    [mkTok LET_KW "let"; ident "U"; mkTok L_BRACE "{"; ident "a"; mkTok COLON ":"; ident "Some"; mkTok L_PAREN "("; ident "x";
     mkTok R_PAREN ")"; mkTok R_BRACE "}"; mkTok EQ "="; ident "u"] [] = ["Some"; "x"].
Proof. by vm_compute. Qed.

(** What follows a call is dropped. *)
Example rest_of_call_is_dropped :
  expand_proc (λ _, false) false
    (mkMacroDef "m" [] ([ident "concat"; mkTok L_PAREN "("; ident "a"; mkTok R_PAREN ")"] ++ [mkTok PLUS "+"; ident "b"]) true Procedural) []
  = Some (PmOk [ident "a"]).
Proof. by vm_compute. Qed.

(** The derived [Default] of the generator mints the reserved scope 0. *)
Example default_mints_zero : option_map fst (fresh_scope (mkScopeGen 0)) = Some 0%Z ∧ count_minted (mkScopeGen 0) = None.
Proof. done. Qed.
