(* ===== verification/MacroFormat.v ===== *)
(** * The [format!] macro

    [crates/mty-macros/src/stdlib/format.rs].  A [String] is its list of
    characters (code points); a template is walked as the bytes of its UTF-8.
    A cursor into a list is the list that is left.  The compiled token rules
    are the parameter [logos] of [Lexer].  The theorems follow. *)

From stdpp Require Import base list strings numbers gmap sets.
From S2P Require Import Prelude ParserCore Lexer IrValue Semver MacroExpand.

Local Open Scope Z_scope.
Local Open Scope list_scope.
Notation length := List.length (only parsing).

Notation rstr := (list Z) (only parsing).

(** ** Specs *)

Inductive ConvKind : Set := Display | HexLower | HexUpper | Debug | Binary | Octal.
Inductive Alignment : Set := Left | Right | Center.

Record FormatSpec : Set := mkSpec {
  fs_kind : ConvKind; fs_fill : Z; fs_align : option Alignment; fs_sign_plus : bool; fs_alternate : bool;
  fs_zero_pad : bool; fs_width : option Z; fs_precision : option Z }.

#[export] Instance ConvKind_eq_dec : EqDecision ConvKind.
Proof. solve_decision. Defined.
#[export] Instance Alignment_eq_dec : EqDecision Alignment.
Proof. solve_decision. Defined.
#[export] Instance FormatSpec_eq_dec : EqDecision FormatSpec.
Proof. solve_decision. Defined.

Inductive FormatPiece : Set :=
  | Literal (s : list Z)
  | Positional (spec : FormatSpec)
  | Named (ident : list Z) (spec : FormatSpec).

#[export] Instance FormatPiece_eq_dec : EqDecision FormatPiece.
Proof. solve_decision. Defined.

(** [ConvKind::method] *)
Definition conv_method (k : ConvKind) : rstr :=
  match k with
  | Display => lit "to_str" | HexLower => lit "to_hex_str" | HexUpper => lit "to_hex_upper_str"
  | Debug => lit "to_debug_str" | Binary => lit "to_bin_str" | Octal => lit "to_oct_str"
  end.

Definition as_runtime_str (a : Alignment) : rstr :=
  match a with Left => lit "left" | Right => lit "right" | Center => lit "center" end.

(** [FormatSpec::display] *)
Definition display_spec : FormatSpec := mkSpec Display 32 None false false false None None.

Definition is_none {A} (o : option A) : bool := match o with None => true | Some _ => false end.

Definition is_bare_conversion (s : FormatSpec) : bool :=
  (fs_fill s =? 32) && is_none (fs_align s) && negb (fs_sign_plus s) && negb (fs_alternate s) && negb (fs_zero_pad s)
  && is_none (fs_width s) && is_none (fs_precision s).

Inductive FormatExpandError : Set :=
  | NotAStringLiteral
  | UnclosedBrace (position : nat)
  | UnexpectedCloseBrace (position : nat)
  | UnsupportedSpec (spec : list Z) (position : nat)
  | BadWidth (spec : list Z) (position : nat)
  | BadPrecision (spec : list Z) (position : nat)
  | NotEnoughArgs (expected given : nat)
  | TooManyArgs (expected given : nat)
  | EmptyArgList.

(** ** Characters *)

Definition is_ascii_digit (c : Z) : bool := (48 <=? c) && (c <=? 57).
Definition is_ascii_alphabetic (c : Z) : bool := (65 <=? c) && (c <=? 90) || (97 <=? c) && (c <=? 122).

Definition is_align_char (c : Z) : bool := (c =? 60) || (c =? 62) || (c =? 94).

(** Called under [is_align_char] only. *)
Definition align_from_char (c : Z) : Alignment := if c =? 60 then Left else if c =? 62 then Right else Center.

Definition ident_char (c : Z) : bool := is_ascii_alphabetic c || is_ascii_digit c || (c =? 95).

Definition is_identifier (s : rstr) : bool :=
  match s with c :: s => (is_ascii_alphabetic c || (c =? 95)) && forallb ident_char s | [] => false end.

(** The run of digits at the front, and what follows. *)
Fixpoint digit_run (cs : rstr) : rstr * rstr :=
  match cs with
  | c :: cs' => if is_ascii_digit c then (c :: (digit_run cs').1, (digit_run cs').2) else ([], cs)
  | [] => ([], [])
  end.

(** [parse::<u32>] of a run of digits. *)
Definition parse_u32 (s : rstr) : option Z := match digits 0 s with Some n => if n <? 2 ^ 32 then Some n else None | None => None end.

(** ** The spec after the colon *)

Section spec.
Variable raw : rstr.
Variable start_pos : nat.

Definition unsupported {A} : Res FormatExpandError A := Err (UnsupportedSpec raw start_pos).

(** [[fill]align] *)
Definition take_align (cs : rstr) : Z * option Alignment * rstr :=
  match cs with
  | c0 :: c1 :: rest =>
      if is_align_char c1 then (c0, Some (align_from_char c1), rest)
      else if is_align_char c0 then (32, Some (align_from_char c0), c1 :: rest) else (32, None, cs)
  | [c0] => if is_align_char c0 then (32, Some (align_from_char c0), []) else (32, None, cs)
  | [] => (32, None, cs)
  end.

(** A flag: whether the character is next, and what follows. *)
Definition take_flag (flag : Z) (cs : rstr) : bool * rstr :=
  match cs with c :: rest => if c =? flag then (true, rest) else (false, cs) | [] => (false, cs) end.

Definition head_is (c : Z) (cs : rstr) : bool := match cs with x :: _ => x =? c | [] => false end.

(** [width] *)
Definition take_width (cs : rstr) : Res FormatExpandError (option Z * rstr) :=
  match cs with
  | c :: _ =>
      if is_ascii_digit c then
        let '(run, rest) := digit_run cs in
        if head_is 36 rest then unsupported
        else match parse_u32 run with Some w => Ok (Some w, rest) | None => Err (BadWidth raw start_pos) end
      else if c =? 42 then unsupported else Ok (None, cs)
  | [] => Ok (None, cs)
  end.

(** [.precision] *)
Definition take_precision (cs : rstr) : Res FormatExpandError (option Z * rstr) :=
  if negb (head_is 46 cs) then Ok (None, cs)
  else
    let cs := List.tl cs in
    if head_is 42 cs then unsupported
    else match cs with
         | c :: _ =>
             if is_ascii_digit c then
               let '(run, rest) := digit_run cs in
               if head_is 36 rest then unsupported
               else match parse_u32 run with Some p => Ok (Some p, rest) | None => Err (BadPrecision raw start_pos) end
             else Err (BadPrecision raw start_pos)
         | [] => Err (BadPrecision raw start_pos)
         end.

(** [type], which must end the spec. *)
Definition take_type (cs : rstr) : Res FormatExpandError ConvKind :=
  match cs with
  | [] => Ok Display
  | ty :: rest =>
      kind ← (if ty =? 120 then Ok HexLower else if ty =? 88 then Ok HexUpper else if ty =? 63 then Ok Debug
              else if ty =? 98 then Ok Binary else if ty =? 111 then Ok Octal else unsupported);
      match rest with [] => Ok kind | _ => unsupported end
  end.

Definition parse_spec : Res FormatExpandError FormatSpec :=
  let '(fill, align, cs) := take_align raw in
  let '(sign_plus, cs) := take_flag 43 cs in
  let '(alternate, cs) := take_flag 35 cs in
  let '(zero_pad, cs) := take_flag 48 cs in
  let zero_fill := zero_pad && (fill =? 32) && is_none align in
  let '(fill, align) := if zero_fill then (48, Some Right) else (fill, align) in
  '(width, cs) ← take_width cs;
  '(precision, cs) ← take_precision cs;
  kind ← take_type cs;
  Ok (mkSpec kind fill align sign_plus alternate zero_pad width precision).
End spec.

(** ** The template *)

(** The text before the first colon and, if there is one, after it. *)
Fixpoint find_colon (s : rstr) : rstr * option rstr :=
  match s with
  | c :: s => if c =? 58 then ([], Some s) else (c :: (find_colon s).1, (find_colon s).2)
  | [] => ([], None)
  end.

Definition parse_placeholder (inner : rstr) (start_pos : nat) : Res FormatExpandError FormatPiece :=
  let '(hd, spec_opt) := find_colon inner in
  if match hd with [] => false | _ => forallb is_ascii_digit hd end then Err (UnsupportedSpec hd start_pos)
  else
    spec ← match spec_opt with None | Some [] => Ok display_spec | Some raw => parse_spec raw start_pos end;
    match hd with
    | [] => Ok (Positional spec)
    | _ => if is_identifier hd then Ok (Named hd spec) else Err (UnsupportedSpec hd start_pos)
    end.

(** The bytes before the closing brace, and after it. *)
Fixpoint until_brace (bs : list Z) : option (list Z * list Z) :=
  match bs with
  | [] => None
  | b :: bs => if b =? 125 then Some ([], bs) else '(i, r) ← until_brace bs; Some (b :: i, r)
  end.

Definition flush (lit : list Z) (pieces : list FormatPiece) : list FormatPiece :=
  match lit with [] => pieces | _ => pieces ++ [Literal lit] end.

(** The walk from byte [i]: [lit] is the literal so far.  Every byte pushed on
    it is a character ([c as char]).  A step consumes a byte, so the length
    is fuel enough. *)
Fixpoint parse_from (n : nat) (i : nat) (bs : list Z) (lit : list Z) (pieces : list FormatPiece) : Res FormatExpandError (list FormatPiece) :=
  match n, bs with
  | _, [] => Ok (flush lit pieces)
  | O, _ => Ok (flush lit pieces)
  | S n, c :: rest =>
      if c =? 123 then
        if head_is 123 rest then parse_from n (i + 2) (List.tl rest) (lit ++ [123]) pieces
        else match until_brace rest with
             | None => Err (UnclosedBrace i)
             | Some (inner, rest) =>
                 piece ← parse_placeholder (decode inner) i;
                 parse_from n (i + 2 + length inner) rest [] (flush lit pieces ++ [piece])
             end
      else if c =? 125 then
        if head_is 125 rest then parse_from n (i + 2) (List.tl rest) (lit ++ [125]) pieces else Err (UnexpectedCloseBrace i)
      else parse_from n (i + 1) rest (lit ++ [c]) pieces
  end.

Definition parse_template (template : rstr) : Res FormatExpandError (list FormatPiece) :=
  parse_from (length (utf8 template)) 0 (utf8 template) [] [].

(** ** String literals *)

Fixpoint unescape (cs : rstr) : rstr :=
  match cs with
  | [] => []
  | c :: cs =>
      if c =? 92 then
        match cs with
        | [] => [92]
        | e :: cs =>
            (if e =? 110 then 10 else if e =? 116 then 9 else if e =? 114 then 13 else if e =? 48 then 0 else e) :: unescape cs
        end
      else c :: unescape cs
  end.

Definition decode_string_literal (src : rstr) : option rstr :=
  let trimmed := trim src in
  if negb (head_is 34 trimmed) || negb (head_is 34 (reverse trimmed)) || (length trimmed <? 2)%nat then None
  else Some (unescape (List.removelast (List.tl trimmed))).

Definition escape_char (c : Z) : rstr :=
  if c =? 92 then [92; 92] else if c =? 34 then [92; 34] else if c =? 10 then [92; 110] else if c =? 9 then [92; 116]
  else if c =? 13 then [92; 114] else [c].

Definition escape_for_mty_literal (s : rstr) : rstr := s ≫= escape_char.

Definition escape_char_for_mty (c : Z) : rstr :=
  if c =? 92 then [92; 92] else if c =? 39 then [92; 39] else if c =? 10 then [92; 110] else if c =? 9 then [92; 116]
  else if c =? 13 then [92; 114] else [c].

(** A string as its UTF-8, for the lexer. *)
Definition source_of (s : rstr) : string := String.string_of_list_ascii ((λ b, Ascii.ascii_of_nat (Z.to_nat b)) <$> utf8 s).

Section format.
Variable logos : string → list LogosItem.

Definition arg_is_string_literal (src : rstr) : bool :=
  match lex_fragment logos (source_of (trim src)) with
  | Some tokens =>
      match filter (λ t, tok_is_trivia t = false) tokens with [t] => kind_eqb (tok_kind t) STRING_LITERAL | _ => false end
  | None => false
  end.

(** ** The snippet *)

Definition bool_lit (b : bool) : rstr := if b then lit "true" else lit "false".
Definition precision_arg (spec : FormatSpec) : rstr := match fs_precision spec with Some p => display_u64 p | None => lit "4294967295" end.

Definition render_placeholder (recv_src : rstr) (spec : FormatSpec) : rstr :=
  if is_bare_conversion spec then lit "(" ++ recv_src ++ lit ")." ++ conv_method (fs_kind spec) ++ lit "()"
  else
    let conv := lit "(" ++ recv_src ++ lit ")." ++ conv_method (fs_kind spec) ++ lit "_spec(" ++ bool_lit (fs_sign_plus spec)
                ++ lit ", " ++ bool_lit (fs_alternate spec) ++ lit ", " ++ precision_arg spec ++ lit ")" in
    if is_none (fs_width spec) && is_none (fs_align spec) && (fs_fill spec =? 32) && negb (fs_zero_pad spec) then conv
    else
      lit "(" ++ conv ++ lit ").pad_str(" ++ display_u64 (default 0 (fs_width spec)) ++ lit ", '" ++ escape_char_for_mty (fs_fill spec)
      ++ lit "', " ++ [34] ++ match fs_align spec with Some a => as_runtime_str a | None => lit "default" end ++ [34] ++ lit ")".

Definition is_positional (p : FormatPiece) : bool := match p with Positional _ => true | _ => false end.

(** The chunks of the pieces; a positional one takes the next argument.
    [None] is the panic of an argument that is missing. *)
Fixpoint chunks (pieces : list FormatPiece) (args : list rstr) : option (list rstr) :=
  match pieces with
  | [] => Some []
  | Literal s :: pieces => rest ← chunks pieces args; Some (([34] ++ escape_for_mty_literal s ++ [34]) :: rest)
  | Positional spec :: pieces =>
      match args with
      | a :: args => rest ← chunks pieces args; Some (render_placeholder (trim a) spec :: rest)
      | [] => None
      end
  | Named ident spec :: pieces => rest ← chunks pieces args; Some (render_placeholder ident spec :: rest)
  end.

Definition join_chunks (cs : list rstr) : rstr :=
  match cs with
  | [c] => c
  | _ => foldl (λ out chunk, lit "(" ++ out ++ lit " + " ++ chunk ++ lit ")") [34; 34] cs
  end.

(** [None] is a panic. *)
Definition expand_format_call (args : list rstr) : option (Res FormatExpandError rstr) :=
  match args with
  | [] => Some (Err EmptyArgList)
  | a0 :: given =>
      let template_src := trim a0 in
      match decode_string_literal template_src with
      | None => Some (Err NotAStringLiteral)
      | Some template =>
          if negb (arg_is_string_literal template_src) then Some (Err NotAStringLiteral)
          else
            match parse_template template with
            | Err e => Some (Err e)
            | Ok pieces =>
                let pos_needed := length (List.filter is_positional pieces) in
                if (length given <? pos_needed)%nat then Some (Err (NotEnoughArgs pos_needed (length given)))
                else if (pos_needed <? length given)%nat then Some (Err (TooManyArgs pos_needed (length given)))
                else match pieces with
                     | [] => Some (Ok [34; 34])
                     | _ => cs ← chunks pieces given; Some (Ok (join_chunks cs))
                     end
            end
      end
  end.
End format.

(** ** Theorems of [format!]

    The reference printer of templates and specs, and that the parsers of
    [format.rs] are its inverse. *)

(** ** The printer *)

Definition align_char (a : Alignment) : Z := match a with Left => 60 | Right => 62 | Center => 94 end.

Definition type_chars (k : ConvKind) : list Z :=
  match k with Display => [] | HexLower => [120] | HexUpper => [88] | Debug => [63] | Binary => [98] | Octal => [111] end.

Definition flag (b : bool) (c : Z) : list Z := if b then [c] else [].

Definition print_width (w : option Z) : list Z := match w with Some w => display_u64 w | None => [] end.
Definition print_precision (p : option Z) : list Z := match p with Some p => 46 :: display_u64 p | None => [] end.
Definition print_align (s : FormatSpec) : list Z := match fs_align s with Some a => [fs_fill s; align_char a] | None => [] end.

Definition print_spec (s : FormatSpec) : list Z :=
  print_align s ++ flag (fs_sign_plus s) 43 ++ flag (fs_alternate s) 35 ++ flag (fs_zero_pad s) 48
  ++ print_width (fs_width s) ++ print_precision (fs_precision s) ++ type_chars (fs_kind s).

(** A spec the grammar can denote: no fill or zero flag without an alignment,
    no width 0 without the zero flag, and 32-bit numbers. *)
Definition u32_opt (o : option Z) : Prop := ∀ n, o = Some n → 0 <= n < 2 ^ 32.
Record normal (s : FormatSpec) : Prop := {
  nm_align : fs_align s = None → fs_fill s = 32 ∧ fs_zero_pad s = false;
  nm_width : fs_zero_pad s = false → fs_width s ≠ Some 0;
  nm_u32 : u32_opt (fs_width s) ∧ u32_opt (fs_precision s)
}.

Definition print_colon (s : FormatSpec) : list Z := match print_spec s with [] => [] | p => 58 :: p end.
Definition escape_brace (c : Z) : list Z := if c =? 123 then [123; 123] else if c =? 125 then [125; 125] else [c].

Definition print_piece (p : FormatPiece) : list Z :=
  match p with
  | Literal s => s ≫= escape_brace
  | Positional spec => [123] ++ print_colon spec ++ [125]
  | Named ident spec => [123] ++ ident ++ print_colon spec ++ [125]
  end.

Definition print_template (ps : list FormatPiece) : list Z := ps ≫= print_piece.

Notation ascii_text := (Forall (λ c : Z, 0 <= c < 128)) (only parsing).

Definition spec_ok (s : FormatSpec) : Prop := normal s ∧ 0 <= fs_fill s < 128 ∧ fs_fill s ≠ 125.

(** No two literals in a row, none empty. *)
Fixpoint pieces_ok (after_literal : bool) (ps : list FormatPiece) : Prop :=
  match ps with
  | [] => True
  | Literal s :: ps => after_literal = false ∧ s ≠ [] ∧ ascii_text s ∧ pieces_ok true ps
  | Positional spec :: ps => spec_ok spec ∧ pieces_ok false ps
  | Named ident spec :: ps => is_identifier ident = true ∧ spec_ok spec ∧ pieces_ok false ps
  end.

(** ** Numbers *)

Lemma decimal_head k n : 0 < n < 10 ^ Z.of_nat k → ∃ c s, decimal k n = c :: s ∧ 49 <= c <= 57.
Proof.
  revert n. induction k as [|k IH]; intros n Hn; [change (10 ^ Z.of_nat 0) with 1 in Hn; lia|]. cbn [decimal].
  destruct (Z.ltb_spec n 10).
  - rewrite Z.mod_small by lia. exists (48 + n), []. split; [done|lia].
  - destruct (IH (n / 10)) as (c & s & -> & Hc); [|by exists c, (s ++ [48 + n mod 10])].
    split; [apply Z.div_str_pos; lia|]. apply Z.div_lt_upper_bound; [lia|]. rewrite Nat2Z.inj_succ, Z.pow_succ_r in Hn by lia. lia.
Qed.

Lemma display_head n : 0 < n < 2 ^ 64 → ∃ c s, display_u64 n = c :: s ∧ 49 <= c <= 57.
Proof. intros H. apply decimal_head. assert (2 ^ 64 < 10 ^ 20) by done. change (10 ^ Z.of_nat 20) with (10 ^ 20). lia. Qed.

Lemma is_digit_ascii c : is_digit c → MacroFormat.is_ascii_digit c = true.
Proof. unfold is_digit, MacroFormat.is_ascii_digit. lia. Qed.

Lemma digit_run_app ds rest :
  Forall is_digit ds → match rest with c :: _ => MacroFormat.is_ascii_digit c = false | [] => True end →
  digit_run (ds ++ rest) = (ds, rest).
Proof.
  intros H Hr. induction H as [|c ds Hc H IH]; cbn [app digit_run].
  - destruct rest as [|c rest]; [done|]. cbn. by rewrite Hr.
  - by rewrite (is_digit_ascii c Hc), IH.
Qed.

Lemma parse_u32_display n : 0 <= n < 2 ^ 32 → parse_u32 (display_u64 n) = Some n.
Proof.
  intros H. unfold parse_u32. rewrite display_parse by (split; lia). by rewrite (proj2 (Z.ltb_lt n (2 ^ 32))) by lia.
Qed.

Lemma digits_nonneg acc s n : 0 <= acc → digits acc s = Some n → 0 <= n.
Proof.
  revert acc. induction s as [|c s IH]; intros acc Ha; cbn [digits]; [by intros [= <-]|].
  destruct ((48 <=? c) && (c <=? 57)) eqn:E; [|done]. destruct (_ <? _); [|done]. apply IH. lia.
Qed.

Lemma parse_u32_range s n : parse_u32 s = Some n → 0 <= n < 2 ^ 32.
Proof.
  unfold parse_u32. destruct (digits 0 s) as [m|] eqn:E; [|done]. destruct (Z.ltb_spec m (2 ^ 32)); [|done]. intros [= <-].
  split; [by eapply digits_nonneg|done].
Qed.

(** ** Specs *)

Definition hd_in (P : Z → Prop) (cs : list Z) : Prop := match cs with c :: _ => P c | [] => True end.

Lemma hd_in_app P a b : hd_in P a → hd_in P b → hd_in P (a ++ b).
Proof. by destruct a. Qed.

Lemma hd_in_impl (P Q : Z → Prop) cs : (∀ c, P c → Q c) → hd_in P cs → hd_in Q cs.
Proof. destruct cs; cbn; auto. Qed.

(** What may follow the precision, the width and the flags. *)
Definition type_head (c : Z) : Prop := c = 120 ∨ c = 88 ∨ c = 63 ∨ c = 98 ∨ c = 111.
Definition point_head (c : Z) : Prop := c = 46 ∨ type_head c.

Lemma type_hd k : hd_in type_head (type_chars k).
Proof. unfold type_head. destruct k; cbn; tauto. Qed.

Lemma precision_hd p k : hd_in point_head (print_precision p ++ type_chars k).
Proof. destruct p; cbn; [by left|]. eapply hd_in_impl; [|apply type_hd]. by right. Qed.

Lemma width_hd z w p k :
  (z = false → w ≠ Some 0) → u32_opt w →
  hd_in (λ c, (if z then 48 else 49) <= c <= 57 ∨ point_head c) (print_width w ++ print_precision p ++ type_chars k).
Proof.
  intros Hz Hw. destruct w as [w|]; cbn [print_width]; [|eapply hd_in_impl; [|apply precision_hd]; tauto].
  specialize (Hw w eq_refl). destruct (decide (w = 0)) as [->|Hne].
  - destruct z; [|by destruct Hz]. change (display_u64 0) with [48]. left. lia.
  - destruct (display_head w) as (c & s & -> & Hc); [lia|]. left. destruct z; lia.
Qed.

Lemma take_flag_print f b rest : hd_in (λ c, c ≠ f) rest → take_flag f (flag b f ++ rest) = (b, rest).
Proof.
  destruct b; cbn; [by rewrite Z.eqb_refl|]. destruct rest as [|c rest]; cbn; [done|]. intros H. by rewrite (proj2 (Z.eqb_neq c f)).
Qed.

Lemma head_is_false c cs : hd_in (λ x, x ≠ c) cs → head_is c cs = false.
Proof. destruct cs as [|x cs]; cbn; [done|]. intros H. by apply Z.eqb_neq. Qed.

Lemma digit_run_display n rest :
  0 <= n < 2 ^ 32 → hd_in (λ c, MacroFormat.is_ascii_digit c = false) rest → digit_run (display_u64 n ++ rest) = (display_u64 n, rest).
Proof. intros Hn Hr. apply digit_run_app; [apply display_digits; split; lia|by destruct rest]. Qed.

Lemma display_cons n : 0 <= n < 2 ^ 32 → ∃ c s, display_u64 n = c :: s ∧ is_digit c.
Proof.
  intros Hn. pose proof (display_digits n ltac:(split; lia)) as Hd. destruct (display_nonempty n) as (s & c & E).
  destruct (display_u64 n) as [|d t]; [by destruct s|]. apply Forall_cons in Hd as [? _]. by exists d, t.
Qed.

Lemma take_width_print raw pos w rest :
  u32_opt w → hd_in point_head rest → take_width raw pos (print_width w ++ rest) = Ok (w, rest).
Proof.
  intros Hw Hr. destruct w as [w|]; cbn [print_width app].
  - specialize (Hw w eq_refl). destruct (display_cons w Hw) as (c & s & E & Hc). unfold take_width. rewrite E at 1. cbn [app].
    rewrite (is_digit_ascii c Hc), digit_run_display; [|done|].
    2: { eapply hd_in_impl; [|exact Hr]. intros x [->|[->|[->|[->|[->| ->]]]]]; done. }
    rewrite head_is_false, parse_u32_display; [done|done|]. eapply hd_in_impl; [|exact Hr]. intros x [->|[->|[->|[->|[->| ->]]]]]; done.
  - destruct rest as [|c rest]; [done|]. cbn in Hr |- *. destruct Hr as [->|[->|[->|[->|[->| ->]]]]]; done.
Qed.

Lemma take_precision_print raw pos p rest :
  u32_opt p → hd_in type_head rest → take_precision raw pos (print_precision p ++ rest) = Ok (p, rest).
Proof.
  intros Hp Hr. destruct p as [p|]; cbn [print_precision app]; unfold take_precision.
  - specialize (Hp p eq_refl). change (negb (head_is 46 (46 :: display_u64 p ++ rest))) with false. cbv iota. cbn [List.tl].
    destruct (display_cons p Hp) as (c & s & E & Hc). rewrite head_is_false by (rewrite E; cbn; unfold is_digit in Hc; lia).
    rewrite E at 1. cbn [app]. rewrite (is_digit_ascii c Hc), digit_run_display; [|done|].
    2: { eapply hd_in_impl; [|exact Hr]. intros x [->|[->|[->|[->| ->]]]]; done. }
    rewrite head_is_false, parse_u32_display; [done|done|]. eapply hd_in_impl; [|exact Hr]. intros x [->|[->|[->|[->| ->]]]]; done.
  - rewrite head_is_false; [done|]. eapply hd_in_impl; [|exact Hr]. intros x [->|[->|[->|[->| ->]]]]; done.
Qed.

Lemma take_type_print raw pos k : take_type raw pos (type_chars k) = Ok k.
Proof. by destruct k. Qed.

Lemma take_align_print s rest :
  (fs_align s = None → fs_fill s = 32 ∧ fs_zero_pad s = false) → (fs_align s = None → Forall (λ c, is_align_char c = false) rest) →
  take_align (print_align s ++ rest) = (fs_fill s, fs_align s, rest).
Proof.
  intros H1 H2. unfold print_align. destruct (fs_align s) as [a|] eqn:E; cbn [app take_align].
  - by destruct a.
  - destruct (H1 eq_refl) as [-> _]. specialize (H2 eq_refl). destruct rest as [|c0 [|c1 rest]]; [done| |].
    + apply Forall_cons in H2 as [H0 _]. cbn. by rewrite H0.
    + apply Forall_cons in H2 as [H0 [Hx _]%Forall_cons]. cbn [app take_align]. by rewrite Hx, H0.
Qed.

(** No alignment character comes after the alignment. *)
Lemma rest_not_align s :
  u32_opt (fs_width s) → u32_opt (fs_precision s) →
  Forall (λ c, is_align_char c = false) (flag (fs_sign_plus s) 43 ++ flag (fs_alternate s) 35 ++ flag (fs_zero_pad s) 48
    ++ print_width (fs_width s) ++ print_precision (fs_precision s) ++ type_chars (fs_kind s)).
Proof.
  intros Hw Hp.
  assert (∀ n, 0 <= n < 2 ^ 32 → Forall (λ c, is_align_char c = false) (display_u64 n)) as Hd.
  { intros n Hn. eapply Forall_impl; [apply display_digits; split; lia|]. unfold is_digit, is_align_char. intros c Hc. lia. }
  rewrite !Forall_app. split_and!.
  1-3: unfold flag; case_match; repeat constructor.
  - destruct (fs_width s); [by apply Hd, Hw|constructor].
  - destruct (fs_precision s) as [p|]; [|constructor]. constructor; [done|by apply Hd, Hp].
  - destruct (fs_kind s); repeat constructor.
Qed.

(** Reading back a printed spec gives the spec. *)
Lemma parse_print_spec s pos : normal s → parse_spec (print_spec s) pos = Ok s.
Proof.
  intros [Ha Hz [Hw Hp]]. unfold parse_spec. unfold print_spec at 1. rewrite take_align_print by (auto using rest_not_align).
  pose proof (width_hd (fs_zero_pad s) (fs_width s) (fs_precision s) (fs_kind s) Hz Hw) as Hhd.
  assert (hd_in (λ c, c ≠ 43 ∧ c ≠ 35 ∧ (fs_zero_pad s = false → c ≠ 48)) (print_width (fs_width s) ++ print_precision (fs_precision s) ++ type_chars (fs_kind s))) as H3.
  { eapply hd_in_impl; [|exact Hhd]. intros c Hc. unfold point_head, type_head in Hc. destruct (fs_zero_pad s); lia. }
  set (tail := print_width (fs_width s) ++ _) in *.
  rewrite (take_flag_print 43).
  2: { destruct (fs_alternate s); [done|]. destruct (fs_zero_pad s); [done|]. eapply hd_in_impl; [|exact H3]. intros c (? & ? & ?). auto. }
  rewrite (take_flag_print 35).
  2: { destruct (fs_zero_pad s); [done|]. eapply hd_in_impl; [|exact H3]. intros c (? & ? & ?). auto. }
  assert (take_flag 48 (flag (fs_zero_pad s) 48 ++ tail) = (fs_zero_pad s, tail)) as ->.
  { destruct (fs_zero_pad s) eqn:Ez; [done|]. apply (take_flag_print 48 false). eapply hd_in_impl; [|exact H3]. intros c (? & ? & ?). auto. }
  assert (fs_zero_pad s && (fs_fill s =? 32) && is_none (fs_align s) = false) as ->.
  { destruct (fs_align s); cbn; [by rewrite andb_false_r|]. destruct (Ha eq_refl) as [_ ->]. done. }
  subst tail. rewrite take_width_print by (done || apply precision_hd). cbn [mbind Res_bind].
  rewrite take_precision_print by (done || apply type_hd). cbn. rewrite take_type_print. by destruct s.
Qed.

(** Every spec that is parsed is one the printer knows. *)
Lemma parse_spec_normal raw pos s : parse_spec raw pos = Ok s → normal s.
Proof.
  unfold parse_spec. destruct (take_align raw) as [[fill align] cs] eqn:Ea.
  destruct (take_flag 43 cs) as [sp cs1]. destruct (take_flag 35 cs1) as [alt cs2]. destruct (take_flag 48 cs2) as [z cs3] eqn:Ez.
  assert (align = None → fill = 32) as Hal.
  { revert Ea. unfold take_align. intros Ea ->. destruct raw as [|c0 [|c1 r]]; [by injection Ea| |].
    - by destruct (is_align_char c0); injection Ea.
    - destruct (is_align_char c1); [done|]. by destruct (is_align_char c0); injection Ea. }
  destruct (if z && (fill =? 32) && is_none align then (48, Some Right) else (fill, align)) as [fill' align'] eqn:Ef.
  assert (align' = None → fill' = 32 ∧ z = false) as Hal'.
  { intros ->. destruct align; [by destruct z, (fill =? 32)|]. rewrite (Hal eq_refl) in Ef. by destruct z; injection Ef as <-. }
  destruct (take_width raw pos cs3) as [[w cs4]|] eqn:Ew; [|done]. cbn.
  destruct (take_precision raw pos cs4) as [[p cs5]|] eqn:Ep; [|done]. cbn.
  destruct (take_type raw pos cs5) as [k|]; [|done]. cbn. intros [= <-]. split; cbn.
  - exact Hal'.
  - intros -> Hw0. subst w. unfold take_flag in Ez. destruct cs2 as [|c cs2]; [injection Ez as <-; by cbn in Ew|].
    destruct (Z.eqb_spec c 48) as [->|Hne]; [done|]. injection Ez as <-. unfold take_width in Ew.
    destruct (MacroFormat.is_ascii_digit c) eqn:Ec; [|by destruct (c =? 42)].
    destruct (digit_run (c :: cs2)) as [run rest] eqn:Er. destruct (head_is 36 rest); [done|].
    destruct (parse_u32 run) as [m|] eqn:Em; [|done]. injection Ew as -> <-. cbn [digit_run] in Er. rewrite Ec in Er.
    injection Er as <- <-. revert Em. unfold parse_u32. cbn [digits].
    unfold MacroFormat.is_ascii_digit in Ec. rewrite Ec. destruct (0 * 10 + (c - 48) <? 2 ^ 64); [|done].
    assert (∀ s acc, 0 < acc → ∀ n, digits acc s = Some n → 0 < n) as Hpos.
    { clear. induction s as [|x s IH]; intros acc Ha n; cbn [digits]; [by intros [= <-]|].
      destruct ((48 <=? x) && (x <=? 57)) eqn:E; [|done]. destruct (_ <? _); [|done]. apply IH. lia. }
    destruct (digits _ _) as [n|] eqn:En; [|done]. apply Hpos in En; [|lia]. destruct (n <? 2 ^ 32); [|done]. intros [= ->]. lia.
  - split; intros n ->.
    + unfold take_width in Ew. destruct cs3 as [|c r]; [done|]. destruct (MacroFormat.is_ascii_digit c); [|by destruct (c =? 42)].
      destruct (digit_run (c :: r)) as [run rest]. destruct (head_is 36 rest); [done|].
      destruct (parse_u32 run) as [m|] eqn:Em; [|done]. injection Ew as -> _. by eapply parse_u32_range.
    + unfold take_precision in Ep. destruct (negb _); [done|]. destruct (head_is 42 _); [done|]. destruct (List.tl cs4) as [|c r]; [done|].
      destruct (MacroFormat.is_ascii_digit c); [|done]. destruct (digit_run (c :: r)) as [run rest]. destruct (head_is 36 rest); [done|].
      destruct (parse_u32 run) as [m|] eqn:Em; [|done]. injection Ep as -> _. by eapply parse_u32_range.
Qed.

(** ** Templates *)

Lemma utf8_ascii s : ascii_text s → utf8 s = s.
Proof.
  induction 1 as [|c s Hc H IH]; [done|]. change (utf8 (c :: s)) with (utf8_char c ++ utf8 s). rewrite IH.
  unfold utf8_char. by rewrite (proj2 (Z.ltb_lt c 0x80)) by lia.
Qed.

Lemma decode_ascii s : ascii_text s → decode s = s.
Proof. induction 1 as [|c s Hc H IH]; [done|]. cbn [decode]. rewrite (proj2 (Z.ltb_lt c 128)) by lia. by rewrite IH. Qed.

Lemma until_brace_app inner rest : 125 ∉ inner → until_brace (inner ++ 125 :: rest) = Some (inner, rest).
Proof.
  induction inner as [|c inner IH]; cbn [app until_brace]; intros H; [done|]. apply not_elem_of_cons in H as [H1 H2].
  rewrite (proj2 (Z.eqb_neq c 125)) by congruence. by rewrite IH.
Qed.

Lemma find_colon_app hd spec : 58 ∉ hd → find_colon (hd ++ 58 :: spec) = (hd, Some spec).
Proof.
  induction hd as [|c hd IH]; cbn [app find_colon]; intros H; [done|]. apply not_elem_of_cons in H as [H1 H2].
  rewrite (proj2 (Z.eqb_neq c 58)) by congruence. by rewrite IH.
Qed.

Lemma find_colon_none hd : 58 ∉ hd → find_colon hd = (hd, None).
Proof.
  induction hd as [|c hd IH]; cbn [find_colon]; intros H; [done|]. apply not_elem_of_cons in H as [H1 H2].
  rewrite (proj2 (Z.eqb_neq c 58)) by congruence. by rewrite IH.
Qed.

(** The characters of a printed spec are ASCII, and none closes the brace. *)
Lemma print_spec_chars s : spec_ok s → Forall (λ c, 0 <= c < 128 ∧ c ≠ 125) (print_spec s).
Proof.
  intros [[Ha Hz [Hw Hp]] [Hf Hne]].
  assert (∀ n, 0 <= n < 2 ^ 32 → Forall (λ c, 0 <= c < 128 ∧ c ≠ 125) (display_u64 n)) as Hd.
  { intros n Hn. eapply Forall_impl; [apply display_digits; split; lia|]. unfold is_digit. intros c Hc. lia. }
  unfold print_spec. rewrite !Forall_app. split_and!.
  - unfold print_align. destruct (fs_align s) as [a|]; [|constructor]. repeat constructor; try lia; destruct a; cbn; lia.
  - unfold flag. case_match; repeat constructor; lia.
  - unfold flag. case_match; repeat constructor; lia.
  - unfold flag. case_match; repeat constructor; lia.
  - destruct (fs_width s); [by apply Hd, Hw|constructor].
  - destruct (fs_precision s) as [p|]; [|constructor]. constructor; [lia|by apply Hd, Hp].
  - destruct (fs_kind s); repeat constructor; lia.
Qed.

Lemma print_colon_chars s : spec_ok s → Forall (λ c, 0 <= c < 128 ∧ c ≠ 125) (print_colon s).
Proof.
  intros H%print_spec_chars. unfold print_colon. destruct (print_spec s); [constructor|]. constructor; [lia|done].
Qed.

(** A name of a placeholder. *)
Definition name_chars (hd : list Z) : Prop := Forall (λ c, 0 <= c < 128 ∧ c ≠ 125 ∧ c ≠ 58 ∧ c ≠ 123) hd.

Lemma identifier_chars ident : is_identifier ident = true → name_chars ident ∧ ident ≠ [] ∧ forallb MacroFormat.is_ascii_digit ident = false.
Proof.
  unfold is_identifier. destruct ident as [|c s]; [done|].
  unfold MacroFormat.is_ascii_digit, is_ascii_alphabetic. intros [H1 H2]%andb_true_iff. split_and!; [|done|].
  - constructor; [lia|]. apply List.Forall_forall. intros x Hx. rewrite forallb_forall in H2. specialize (H2 x Hx).
    unfold ident_char, MacroFormat.is_ascii_digit, is_ascii_alphabetic in H2. lia.
  - cbn. apply andb_false_iff. left. lia.
Qed.

(** The placeholder of a printed piece. *)
Lemma parse_placeholder_print hd spec pos :
  name_chars hd → forallb MacroFormat.is_ascii_digit hd = false ∨ hd = [] → hd = [] ∨ is_identifier hd = true → normal spec →
  parse_placeholder (hd ++ print_colon spec) pos = Ok (match hd with [] => Positional spec | _ => Named hd spec end).
Proof.
  intros Hn Hd Hi Hs. unfold parse_placeholder.
  assert (58 ∉ hd) as H58 by (intros Hin; unfold name_chars in Hn; rewrite Forall_forall in Hn; by destruct (Hn 58 Hin) as (_ & _ & ? & _)).
  pose proof (parse_print_spec spec pos Hs) as Hp.
  assert (∃ o, find_colon (hd ++ print_colon spec) = (hd, o) ∧
    match o with None | Some [] => Ok display_spec | Some raw => parse_spec raw pos end = Ok spec) as (o & -> & ->).
  { unfold print_colon. destruct (print_spec spec) as [|c p] eqn:E.
    - exists None. rewrite app_nil_r, find_colon_none by done. done.
    - exists (Some (c :: p)). by rewrite find_colon_app by done. }
  destruct hd as [|c hd]; [done|]. destruct Hd as [->|?]; [|done]. destruct Hi as [?|Hi]; [done|]. cbn [mbind Res_bind]. by rewrite Hi.
Qed.

(** The walk over a printed literal. *)
Lemma parse_literal s rest n i lt ps :
  ascii_text s → (length ((s ≫= escape_brace) ++ rest) <= n)%nat →
  ∃ n' i', (length rest <= n')%nat ∧ parse_from n i ((s ≫= escape_brace) ++ rest) lt ps = parse_from n' i' rest (lt ++ s) ps.
Proof.
  intros H. revert n i lt. induction H as [|c s Hc H IH]; intros n i lt Hn.
  - exists n, i. by rewrite app_nil_r.
  - assert ((c :: s) ≫= escape_brace = escape_brace c ++ (s ≫= escape_brace)) as E by done.
    rewrite E, <-app_assoc in Hn |- *. unfold escape_brace at 1 in Hn. unfold escape_brace at 1.
    replace (lt ++ c :: s) with ((lt ++ [c]) ++ s) by (by rewrite <-app_assoc).
    destruct (Z.eqb_spec c 123) as [->|H1]; [|destruct (Z.eqb_spec c 125) as [->|H2]].
    + destruct n as [|n]; [cbn in Hn; lia|]. destruct (IH n (i + 2)%nat (lt ++ [123])) as (n' & i' & Hn' & E'); [cbn in Hn; lia|].
      exists n', i'. split; [done|]. rewrite <-E'. done.
    + destruct n as [|n]; [cbn in Hn; lia|]. destruct (IH n (i + 2)%nat (lt ++ [125])) as (n' & i' & Hn' & E'); [cbn in Hn; lia|].
      exists n', i'. split; [done|]. rewrite <-E'. done.
    + destruct n as [|n]; [cbn in Hn; lia|]. destruct (IH n (i + 1)%nat (lt ++ [c])) as (n' & i' & Hn' & E'); [cbn in Hn; lia|].
      exists n', i'. split; [done|]. rewrite <-E'. cbn [app parse_from].
      by rewrite (proj2 (Z.eqb_neq c 123) H1), (proj2 (Z.eqb_neq c 125) H2).
Qed.

(** The walk over a printed placeholder. *)
Lemma parse_braces hd spec rest n i lt ps :
  name_chars hd → forallb MacroFormat.is_ascii_digit hd = false ∨ hd = [] → hd = [] ∨ is_identifier hd = true → spec_ok spec →
  (length ([123%Z] ++ hd ++ print_colon spec ++ [125%Z] ++ rest) <= n)%nat →
  ∃ n' i', (length rest <= n')%nat ∧
    parse_from n i ([123] ++ hd ++ print_colon spec ++ [125] ++ rest) lt ps
    = parse_from n' i' rest [] (flush lt ps ++ [match hd with [] => Positional spec | _ => Named hd spec end]).
Proof.
  intros Hn Hd Hi Hs Hlen. pose proof (print_colon_chars spec Hs) as Hc.
  rewrite (app_assoc hd) in Hlen |- *. destruct n as [|n]; [cbn in Hlen; lia|]. cbn [app] in Hlen |- *. cbn [parse_from].
  change (123 =? 123) with true. cbv iota.
  assert (125 ∉ hd ++ print_colon spec) as H125.
  { intros [Hin|Hin]%elem_of_app; [unfold name_chars in Hn; rewrite Forall_forall in Hn; by destruct (Hn 125 Hin) as (_ & ? & _)|].
    rewrite Forall_forall in Hc. by destruct (Hc 125 Hin). }
  assert (head_is 123 ((hd ++ print_colon spec) ++ 125 :: rest) = false) as ->.
  { apply head_is_false, hd_in_app; [|done]. apply hd_in_app.
    - destruct hd; [done|]. apply Forall_cons in Hn as [(? & ? & ? & ?) _]. done.
    - unfold print_colon. by destruct (print_spec spec). }
  rewrite (until_brace_app _ _ H125). rewrite decode_ascii.
  2: { apply Forall_app. split; [eapply Forall_impl; [exact Hn|]; cbn; tauto|eapply Forall_impl; [exact Hc|]; cbn; tauto]. }
  rewrite (parse_placeholder_print hd spec i Hn Hd Hi (proj1 Hs)). cbn [mbind Res_bind].
  exists n, (i + 2 + length (hd ++ print_colon spec))%nat. split; [|done]. cbn [length] in Hlen. rewrite !length_app in Hlen. cbn in Hlen. lia.
Qed.

Lemma parse_print_pieces ps n i lt acc :
  pieces_ok (match lt with [] => false | _ => true end) ps → (length (print_template ps) <= n)%nat →
  parse_from n i (print_template ps) lt acc = Ok (flush lt acc ++ ps).
Proof.
  revert n i lt acc. induction ps as [|p ps IH]; intros n i lt acc Hok Hn.
  - rewrite app_nil_r. by destruct n.
  - change (print_template (p :: ps)) with (print_piece p ++ print_template ps) in Hn |- *.
    destruct p as [s|spec|ident spec]; cbn [pieces_ok] in Hok; cbn [print_piece] in Hn |- *.
    + destruct Hok as (Hl & Hs & Ha & Hok). destruct lt; [|done].
      destruct (parse_literal s (print_template ps) n i [] acc Ha Hn) as (n' & i' & Hn' & ->). cbn [app].
      rewrite IH; [|by destruct s|done]. destruct s as [|c s]; [done|]. cbn [flush]. by rewrite <-app_assoc.
    + destruct Hok as [Hs Hok]. rewrite <-!app_assoc in Hn |- *.
      destruct (parse_braces [] spec (print_template ps) n i lt acc) as (n' & i' & Hn' & E); [constructor|by right|by left|done|done|].
      cbn [app] in E |- *. rewrite E, IH by done. cbn [flush]. by rewrite <-app_assoc.
    + destruct Hok as (Hid & Hs & Hok). destruct (identifier_chars ident Hid) as (Hc & Hne & Hdg). rewrite <-!app_assoc in Hn |- *.
      destruct (parse_braces ident spec (print_template ps) n i lt acc) as (n' & i' & Hn' & E); [done|by left|by right|done|done|].
      rewrite E, IH by done. cbn [flush]. destruct ident; [done|]. by rewrite <-app_assoc.
Qed.

Lemma pieces_ascii b ps : pieces_ok b ps → ascii_text (print_template ps).
Proof.
  revert b. induction ps as [|p ps IH]; intros b Hok; [constructor|].
  change (print_template (p :: ps)) with (print_piece p ++ print_template ps). apply Forall_app.
  destruct p as [s|spec|ident spec]; cbn [pieces_ok] in Hok; cbn [print_piece].
  - destruct Hok as (_ & _ & Ha & Hok). split; [|by eapply IH]. induction Ha as [|c s Hc Ha IHs]; [constructor|].
    change ((c :: s) ≫= escape_brace) with (escape_brace c ++ (s ≫= escape_brace)). apply Forall_app. split; [|done].
    unfold escape_brace. repeat case_match; repeat constructor; lia.
  - destruct Hok as [Hs Hok]. split; [|by eapply IH]. apply print_colon_chars in Hs. rewrite !Forall_app.
    split_and!; [repeat constructor; lia|eapply Forall_impl; [exact Hs|]; cbn; tauto|repeat constructor; lia].
  - destruct Hok as (Hid & Hs & Hok). split; [|by eapply IH]. apply print_colon_chars in Hs. destruct (identifier_chars ident Hid) as (Hc & _).
    rewrite !Forall_app. split_and!; [repeat constructor; lia|eapply Forall_impl; [exact Hc|]; cbn; tauto|
      eapply Forall_impl; [exact Hs|]; cbn; tauto|repeat constructor; lia].
Qed.

Lemma parse_print_template ps : pieces_ok false ps → parse_template (print_template ps) = Ok ps.
Proof.
  intros H. unfold parse_template. rewrite utf8_ascii by (by eapply pieces_ascii). by apply (parse_print_pieces ps _ 0%nat [] []).
Qed.

(** ** String literals *)

Definition quoted (s : list Z) : list Z := 34 :: escape_for_mty_literal s ++ [34].

Lemma unescape_escape s : unescape (escape_for_mty_literal s) = s.
Proof.
  induction s as [|c s IH]; [done|].
  change (escape_for_mty_literal (c :: s)) with (escape_char c ++ escape_for_mty_literal s). unfold escape_char.
  destruct (Z.eqb_spec c 92) as [->|H1]; [cbn; by rewrite IH|]. destruct (Z.eqb_spec c 34) as [->|H2]; [cbn; by rewrite IH|].
  destruct (Z.eqb_spec c 10) as [->|H3]; [cbn; by rewrite IH|]. destruct (Z.eqb_spec c 9) as [->|H4]; [cbn; by rewrite IH|].
  destruct (Z.eqb_spec c 13) as [->|H5]; [cbn; by rewrite IH|]. cbn [app unescape]. by rewrite (proj2 (Z.eqb_neq c 92) H1), IH.
Qed.

Lemma trim_quoted s : trim (quoted s) = quoted s.
Proof.
  apply (trim_id _ 34 34 (escape_for_mty_literal s ++ [34])); [done| |done|done].
  unfold quoted. rewrite app_comm_cons, removelast_last, reverse_cons, reverse_involutive. done.
Qed.

Lemma decode_quoted s : decode_string_literal (quoted s) = Some s.
Proof.
  unfold decode_string_literal. rewrite trim_quoted.
  assert (head_is 34 (reverse (quoted s)) = true) as ->.
  { unfold quoted. rewrite app_comm_cons, reverse_app. done. }
  assert ((length (quoted s) <? 2)%nat = false) as -> by (apply Nat.ltb_ge; unfold quoted; cbn; rewrite length_app; cbn; lia).
  unfold quoted. cbn [head_is negb orb List.tl]. change (34 =? 34) with true. cbv iota. cbn [negb orb].
  by rewrite removelast_last, unescape_escape.
Qed.

(** ** The call *)

Definition positionals (ps : list FormatPiece) : nat := length (List.filter is_positional ps).

(** What each piece becomes: a literal is quoted, the [j]-th positional
    placeholder takes the [j]-th argument, a named one its name. *)
Definition chunk_of (args : list (list Z)) (ps : list FormatPiece) (k : nat) (p : FormatPiece) (c : list Z) : Prop :=
  match p with
  | Literal s => decode_string_literal c = Some s
  | Positional spec => ∃ a, args !! positionals (take k ps) = Some a ∧ c = render_placeholder (trim a) spec
  | Named ident spec => c = render_placeholder ident spec
  end.

Lemma chunks_spec ps args :
  (positionals ps <= length args)%nat →
  ∃ cs, chunks ps args = Some cs ∧ length cs = length ps ∧ ∀ k p, ps !! k = Some p → ∃ c, cs !! k = Some c ∧ chunk_of args ps k p c.
Proof.
  revert args. induction ps as [|p ps IH]; intros args Hn; [by exists []|].
  assert (∀ (a : list Z) argt c f cs, chunks ps argt = Some cs → length cs = length ps →
    (∀ k q, ps !! k = Some q → ∃ c, cs !! k = Some c ∧ chunk_of argt ps k q c) →
    (∀ k q c, chunk_of argt ps k q c → chunk_of args (p :: ps) (S k) q c) → chunk_of args (p :: ps) 0 p c →
    f = Some (c :: cs) →
    ∃ cs0, f = Some cs0 ∧ length cs0 = length (p :: ps) ∧ ∀ k q, (p :: ps) !! k = Some q → ∃ c0, cs0 !! k = Some c0 ∧ chunk_of args (p :: ps) k q c0) as Hstep.
  { intros _ argt c f cs _ Hl Hk Hmono Hc ->. exists (c :: cs). split_and!; [done|cbn; lia|]. intros [|k] q Hq.
    - injection Hq as <-. by exists c.
    - destruct (Hk k q Hq) as (c0 & ? & ?). exists c0. split; [done|by apply Hmono]. }
  destruct p as [s|spec|ident spec]; cbn [chunks].
  - destruct (IH args) as (cs & E & Hl & Hk); [done|]. rewrite E. cbn [mbind option_bind].
    eapply (Hstep [] args _ _ cs E Hl Hk); [|apply decode_quoted|done]. by intros k [| |] c.
  - destruct args as [|a args]; [cbn in Hn; lia|]. destruct (IH args) as (cs & E & Hl & Hk); [cbn in Hn; unfold positionals; lia|].
    rewrite E. cbn [mbind option_bind]. eapply (Hstep [] args _ _ cs E Hl Hk); [|by exists a|done]. by intros k [| |] c.
  - destruct (IH args) as (cs & E & Hl & Hk); [done|]. rewrite E. cbn [mbind option_bind].
    eapply (Hstep [] args _ _ cs E Hl Hk); [|done|done]. by intros k [| |] c.
Qed.

(** ** Theorems *)

(** C30. [parse_template] reads back every template the reference printer
    writes: doubled braces, named and positional placeholders, and specs with
    fill, alignment, sign, alternate form, zero flag, width, precision and
    type; and every spec [parse_spec] accepts is printed to text it reads as
    the same spec. *)
Theorem template_roundtrip ps :
  pieces_ok false ps →
  parse_template (print_template ps) = Ok ps ∧
  ∀ raw pos s, parse_spec raw pos = Ok s → ∀ pos', parse_spec (print_spec s) pos' = Ok s.
Proof.
  intros H. split; [by apply parse_print_template|]. intros raw pos s Hs pos'. by eapply parse_print_spec, parse_spec_normal.
Qed.

(** [x={:#010x} {{{name}}}] *)
Definition hex_spec : FormatSpec := mkSpec HexLower 48 (Some Right) false true true (Some 10) None.
Definition sample : list FormatPiece :=
  [Literal (lit "x="); Positional hex_spec; Literal (lit " {"); Named (lit "name") display_spec; Literal (lit "}")].

Example parses_sample : parse_template (lit "x={:#010x} {{{name}}}") = Ok sample.
Proof. vm_compute. reflexivity. Qed.

Lemma spec_ok_display : spec_ok display_spec.
Proof. split; [split; [done|done|by split]|done]. Qed.

Lemma spec_ok_hex : spec_ok hex_spec.
Proof. split; [split; [done|done|split; [by intros n [= <-]|done]]|done]. Qed.

Lemma sample_ok : pieces_ok false sample.
Proof. cbn. split_and!; try done; try apply spec_ok_display; try apply spec_ok_hex; repeat constructor; done. Qed.

Lemma template_roundtrip_witness :
  parse_template (print_template sample) = Ok sample ∧ print_template sample = lit "x={:0>#010x} {{{name}}}".
Proof. split; [apply (template_roundtrip sample sample_ok)|vm_compute; reflexivity]. Defined.

(** [expand_format_call] on a printed template: too few or too many arguments
    are reported with the exact numbers; otherwise it emits the sum of one
    chunk a piece, the [j]-th positional placeholder with the [j]-th argument,
    and literals that decode to their text. *)
Theorem format_expands logos ps args :
  pieces_ok false ps → ps ≠ [] → arg_is_string_literal logos (quoted (print_template ps)) = true →
  let r := expand_format_call logos (quoted (print_template ps) :: args) in
  ((length args < positionals ps)%nat → r = Some (Err (NotEnoughArgs (positionals ps) (length args)))) ∧
  ((positionals ps < length args)%nat → r = Some (Err (TooManyArgs (positionals ps) (length args)))) ∧
  (length args = positionals ps →
   ∃ cs, r = Some (Ok (join_chunks cs)) ∧ length cs = length ps ∧
     ∀ k p, ps !! k = Some p → ∃ c, cs !! k = Some c ∧ chunk_of args ps k p c).
Proof.
  intros Hok Hne Hlit. cbn zeta. unfold expand_format_call. rewrite trim_quoted, decode_quoted, Hlit. cbn [negb].
  rewrite parse_print_template by done. fold (positionals ps). split_and!; intros H.
  - by rewrite (proj2 (Nat.ltb_lt _ _) H).
  - rewrite (proj2 (Nat.ltb_ge _ _)) by lia. by rewrite (proj2 (Nat.ltb_lt _ _) H).
  - rewrite !(proj2 (Nat.ltb_ge _ _)) by lia. destruct (chunks_spec ps args) as (cs & E & Hl & Hk); [lia|].
    exists cs. destruct ps; [done|]. by rewrite E.
Qed.

Lemma format_expands_witness :
  ∃ cs, expand_format_call MiniLexer.mini_logos [quoted (print_template sample); lit " 255 "] = Some (Ok (join_chunks cs)) ∧ length cs = 5%nat.
Proof.
  destruct (proj2 (proj2 (format_expands MiniLexer.mini_logos sample [lit " 255 "] sample_ok ltac:(done) ltac:(vm_compute; reflexivity))) eq_refl)
    as (cs & E & Hl & _).
  by exists cs.
Defined.

(** The bytes of a literal outside ASCII become characters one by one. *)
Example non_ascii_is_garbled : parse_template [233] = Ok [Literal [195; 169]].
Proof. vm_compute. reflexivity. Qed.

(** A literal outside ASCII is an expansion that decodes to something else. *)
Example accent_is_lost :
  option_map (λ r, match r with Ok out => decode_string_literal out | Err _ => None end)
    (expand_format_call MiniLexer.mini_logos [quoted [233]]) = Some (Some [195; 169]).
Proof. vm_compute. reflexivity. Qed.
