(* ===== verification/ClusterTls.v ===== *)
(** * The identity in a peer's certificate

    [crates/mty-runtime/src/cluster/tls.rs]: the walk over a DER certificate
    for the common name of its subject, and the check of that name against a
    claimed node id.  Bytes are numbers below 256, a cursor is the list that
    is left.  [lossy] is what [String::from_utf8_lossy] makes of bytes that
    are not UTF-8.  Building connectors and acceptors is rustls's and is not
    modelled.  A reference encoder, and what the walk reads back from its
    output, follow. *)

From stdpp Require Import base list strings numbers gmap sets.
From S2P Require Import Prelude Semver IrMethods.

Local Open Scope Z_scope.
Local Open Scope list_scope.
Notation length := List.length (only parsing).
Notation bytes := (list Z) (only parsing).

Section der.
Variable lossy : bytes → list Z.

Definition from_utf8_lossy (bs : bytes) : list Z := default (lossy bs) (utf8_decode bs).

Fixpoint be_bytes (len : Z) (bs : bytes) : Z := match bs with [] => len | b :: bs => be_bytes (Z.lor (Z.shiftl len 8) b) bs end.

(** The length and the bytes it takes. *)
Definition parse_der_length (buf : bytes) : option (Z * nat) :=
  match buf with
  | [] => None
  | first :: rest =>
      if Z.land first 0x80 =? 0 then Some (first, 1%nat)
      else
        let n := Z.to_nat (Z.land first 0x7F) in
        if (n =? 0)%nat || (4 <? n)%nat || (length rest <? n)%nat then None
        else Some (be_bytes 0 (take n rest), (1 + n)%nat)
  end.

Definition read_after_tag (buf : bytes) : option (bytes * bytes) :=
  match buf with
  | _ :: (_ :: _) as rest =>
      '(len, len_bytes) ← parse_der_length rest;
      let header := (1 + len_bytes)%nat in
      if Z.of_nat (length buf) <? Z.of_nat header + len then None
      else Some (take (Z.to_nat len) (drop header buf), drop (header + Z.to_nat len) buf)
  | _ => None
  end.

Definition read_tagged (tag : Z) (buf : bytes) : option (bytes * bytes) :=
  match buf with t :: _ => if t =? tag then read_after_tag buf else None | [] => None end.

Definition read_seq (buf : bytes) : option (bytes * bytes) := read_tagged 0x30 buf.
Definition read_set (buf : bytes) : option (bytes * bytes) := read_tagged 0x31 buf.
Definition read_tlv (buf : bytes) : option (bytes * bytes) := match buf with [] => None | _ => read_after_tag buf end.

Definition CN_OID_DER : bytes := [0x06; 0x03; 0x55; 0x04; 0x03].

Definition starts_with (s p : bytes) : bool := bool_decide (take (length p) s = p).

(** Every round of the loops reads a header of two bytes or more, so the
    length of the buffer is fuel enough. *)
Fixpoint walk_rdn_for_cn (n : nat) (cursor : bytes) : option (list Z) :=
  match n, cursor with
  | O, _ | _, [] => None
  | S n, _ =>
      '(atv_body, next) ← read_seq cursor;
      if starts_with atv_body CN_OID_DER then
        '(value_body, _) ← read_tlv (drop (length CN_OID_DER) atv_body);
        Some (from_utf8_lossy value_body)
      else walk_rdn_for_cn n next
  end.

Fixpoint walk_name_for_cn (n : nat) (cursor : bytes) : option (list Z) :=
  match n, cursor with
  | O, _ | _, [] => None
  | S n, _ =>
      '(set_body, next) ← read_set cursor;
      match walk_rdn_for_cn (length set_body) set_body with
      | Some cn => Some cn
      | None => walk_name_for_cn n next
      end
  end.

(** The walk over the fields; [found] is the name seen before. *)
Fixpoint walk_tbs (n : nat) (cursor : bytes) (found : option (list Z)) : option (list Z) :=
  match n, cursor with
  | O, _ | _, [] => found
  | S n, _ =>
      '(body, next) ← read_tlv cursor;
      match walk_name_for_cn (length body) body with
      | Some cn => match found with Some _ => Some cn | None => walk_tbs n next (Some cn) end
      | None => walk_tbs n next found
      end
  end.

Definition extract_cn_from_der (cert_der : bytes) : option (list Z) :=
  '(cert_body, _) ← read_seq cert_der;
  '(tbs_body, _) ← read_seq cert_body;
  walk_tbs (length tbs_body) tbs_body None.

Inductive TlsError : Set := IdentityMismatch (cn claimed : list Z) | BadPeerCert (why : string).

Definition cert_node_id (cert : bytes) : Res TlsError (list Z) :=
  match extract_cn_from_der cert with Some cn => Ok cn | None => Err (BadPeerCert "could not extract Subject CN from cert") end.

Definition verify_peer_identity (cert : bytes) (claimed : list Z) : Res TlsError unit :=
  actual ← cert_node_id cert;
  if bool_decide (actual = claimed) then Ok () else Err (IdentityMismatch actual claimed).
End der.

(** ** The walk finds the common name of a certificate

    A reference encoder of DER values, names and certificates, and what the
    walk of [ClusterTls] reads back from its output. *)

(** ** The encoder *)

Definition is_byte (b : Z) : Prop := 0 <= b < 256.
Definition len_of (bs : bytes) : Z := Z.of_nat (length bs).

Definition der_len (n : Z) : bytes :=
  if n <? 128 then [n]
  else if n <? 256 then [0x81; n]
  else if n <? 2 ^ 16 then [0x82; n / 256; n mod 256]
  else if n <? 2 ^ 24 then [0x83; n / 65536; n / 256 mod 256; n mod 256]
  else [0x84; n / 16777216; n / 65536 mod 256; n / 256 mod 256; n mod 256].

Definition tlv (tag : Z) (body : bytes) : bytes := tag :: der_len (len_of body) ++ body.

(** An attribute: its object identifier, the tag and the bytes of its value. *)
Record Atv : Set := mkAtv { atv_oid : list Z; atv_tag : Z; atv_value : list Z }.
Definition CN_OID : bytes := [0x55; 0x04; 0x03].

Definition atv_der (a : Atv) : bytes := tlv 0x30 (tlv 0x06 (atv_oid a) ++ tlv (atv_tag a) (atv_value a)).
Definition rdn_der (rdn : list Atv) : bytes := tlv 0x31 (rdn ≫= atv_der).
Definition name_body (name : list (list Atv)) : bytes := name ≫= rdn_der.

Definition common_name (name : list (list Atv)) : option bytes :=
  atv_value <$> head (List.filter (λ a, bool_decide (atv_oid a = CN_OID)) (mjoin name)).

(** A certificate: the fields before the issuer, between the two names, and
    after the subject, each a tag and a body, and what follows the signed part. *)
Record Cert : Set := mkCert {
  before : list (Z * list Z); issuer : list (list Atv); between : list (Z * list Z); subject : list (list Atv); after : list (Z * list Z);
  signature : list Z }.

Definition fields_der (fs : list (Z * bytes)) : bytes := fs ≫= λ f, tlv f.1 f.2.
Definition tbs_body (c : Cert) : bytes :=
  fields_der (before c ++ [(0x30, name_body (issuer c))] ++ between c ++ [(0x30, name_body (subject c))] ++ after c).
Definition cert_der (c : Cert) : bytes := tlv 0x30 (tlv 0x30 (tbs_body c) ++ signature c).

(** ** Lengths *)

Lemma land_high first : 0 <= first < 128 → Z.land first 0x80 = 0.
Proof.
  intros H. apply Z.bits_inj'. intros k Hk. rewrite Z.land_spec, Z.bits_0. destruct (decide (k = 7)) as [->|Hne].
  - rewrite (Z.bits_above_log2 first 7); [done|lia|]. destruct (decide (first = 0)) as [->|?]; [done|].
    apply Z.log2_lt_pow2; lia.
  - change 0x80 with (2 ^ 7). rewrite Z.pow2_bits_false by lia. by rewrite andb_false_r.
Qed.

Lemma lor_shift len b : 0 <= len → 0 <= b < 256 → Z.lor (Z.shiftl len 8) b = len * 256 + b.
Proof.
  intros Hl Hb. pose proof (Z.add_lor_land (Z.shiftl len 8) b) as E.
  assert (Z.land (Z.shiftl len 8) b = 0) as E0; [|rewrite E0, Z.add_0_r in E; rewrite E, Z.shiftl_mul_pow2 by lia; lia].
  apply Z.bits_inj'. intros k Hk. rewrite Z.land_spec, Z.bits_0. destruct (decide (k < 8)).
  - rewrite Z.shiftl_spec_low by lia. done.
  - rewrite (Z.bits_above_log2 b k); [by rewrite andb_false_r|lia|].
    destruct (decide (b = 0)) as [->|?]; [cbn; lia|]. enough (Z.log2 b < 8) by lia. apply Z.log2_lt_pow2; lia.
Qed.

Lemma be_bytes_cons len b bs : be_bytes len (b :: bs) = be_bytes (Z.lor (Z.shiftl len 8) b) bs.
Proof. done. Qed.

Lemma parse_der_len n rest : 0 <= n < 2 ^ 32 → parse_der_length (der_len n ++ rest) = Some (n, length (der_len n)).
Proof.
  intros H. unfold der_len.
  destruct (Z.ltb_spec n 128); [cbn [app parse_der_length]; by rewrite land_high by lia|].
  assert (∀ x, 0 <= x → 0 <= x mod 256 < 256) as Hm by (intros; apply Z.mod_pos_bound; lia).
  pose proof (Z.div_mod n 256 ltac:(lia)). pose proof (Z.div_mod (n / 256) 256 ltac:(lia)).
  pose proof (Z.div_mod (n / 256 / 256) 256 ltac:(lia)). pose proof (Z.div_mod (n / 256 / 256 / 256) 256 ltac:(lia)).
  rewrite !Z.div_div in * by lia. change (256 * 256) with 65536 in *. change (65536 * 256) with 16777216 in *.
  pose proof (Hm n ltac:(lia)). pose proof (Hm (n / 256) ltac:(apply Z.div_pos; lia)).
  pose proof (Hm (n / 65536) ltac:(apply Z.div_pos; lia)). pose proof (Z.div_pos n 16777216 ltac:(lia) ltac:(lia)).
  destruct (Z.ltb_spec n 256); [|destruct (Z.ltb_spec n (2 ^ 16)); [|destruct (Z.ltb_spec n (2 ^ 24))]];
    cbn [app parse_der_length]; (change (Z.land _ 0x80 =? 0) with false; cbv iota);
    (match goal with |- context [Z.to_nat (Z.land ?a ?b)] => let v := eval vm_compute in (Z.to_nat (Z.land a b)) in change (Z.to_nat (Z.land a b)) with v end);
    cbn [Nat.eqb Nat.ltb Nat.leb orb length take Nat.add app]; repeat (rewrite be_bytes_cons; rewrite lor_shift by lia); rewrite take_0; cbn [be_bytes]; f_equal; f_equal; lia.
Qed.

Lemma read_after_tag_tlv tag body rest : len_of body < 2 ^ 32 → read_after_tag (tlv tag body ++ rest) = Some (body, rest).
Proof.
  intros H. unfold tlv, read_after_tag. rewrite <-app_comm_cons, <-app_assoc.
  assert (0 <= len_of body < 2 ^ 32) as Hl by (unfold len_of in *; lia).
  pose proof (parse_der_len (len_of body) (body ++ rest) Hl) as Hp.
  destruct (der_len (len_of body) ++ body ++ rest) as [|x l] eqn:E; [by apply app_nil in E as [E _]; unfold der_len in E; repeat case_match|].
  rewrite Hp. cbn [mbind option_bind]. rewrite <-E.
  destruct (Z.ltb_spec (Z.of_nat (length (tag :: der_len (len_of body) ++ body ++ rest))) (Z.of_nat (1 + length (der_len (len_of body))) + len_of body)) as [Hlt|_].
  { cbn [length] in Hlt. rewrite !length_app in Hlt. unfold len_of in Hlt. lia. }
  change (1 + length (der_len (len_of body)))%nat with (S (length (der_len (len_of body)))). cbn [drop Nat.add].
  rewrite drop_app_length. assert (Z.to_nat (len_of body) = length body) as -> by (unfold len_of; lia).
  rewrite take_app_length. rewrite <-drop_drop, drop_app_length, drop_app_length. done.
Qed.

Lemma tlv_cons tag body rest : ∃ l, tlv tag body ++ rest = tag :: l.
Proof. by eexists. Qed.

Lemma read_tagged_tlv tag body rest : len_of body < 2 ^ 32 → read_tagged tag (tlv tag body ++ rest) = Some (body, rest).
Proof.
  intros H. destruct (tlv_cons tag body rest) as [l E]. unfold read_tagged. rewrite E at 1. rewrite Z.eqb_refl.
  by apply read_after_tag_tlv.
Qed.

Lemma read_tlv_tlv tag body rest : len_of body < 2 ^ 32 → read_tlv (tlv tag body ++ rest) = Some (body, rest).
Proof.
  intros H. destruct (tlv_cons tag body rest) as [l E]. unfold read_tlv. rewrite E at 1. by apply read_after_tag_tlv.
Qed.

Lemma tlv_length tag body : (length body + 2 <= length (tlv tag body))%nat.
Proof.
  unfold tlv. cbn [length]. rewrite length_app. assert (1 <= length (der_len (len_of body)))%nat; [|lia].
  unfold der_len. repeat case_match; cbn; lia.
Qed.

(** ** Names *)

Section walk.
Variable lossy : bytes → list Z.

(** All the values in an encoding are shorter than 4 GiB. *)
Definition atv_fits (a : Atv) : Prop := len_of (atv_oid a) < 2 ^ 32 ∧ len_of (atv_value a) < 2 ^ 32 ∧ len_of (tlv 0x06 (atv_oid a) ++ tlv (atv_tag a) (atv_value a)) < 2 ^ 32.
Definition name_fits (name : list (list Atv)) : Prop :=
  Forall (λ rdn, len_of (rdn ≫= atv_der) < 2 ^ 32 ∧ Forall atv_fits rdn) name.

Lemma oid_starts oid rest :
  len_of oid < 2 ^ 32 → starts_with (tlv 0x06 oid ++ rest) CN_OID_DER = bool_decide (oid = CN_OID).
Proof.
  intros Hl. unfold starts_with, tlv. rewrite <-app_comm_cons, <-app_assoc. cbn [length CN_OID_DER].
  destruct (decide (oid = CN_OID)) as [->|Hne]; [done|]. rewrite (bool_decide_eq_false_2 (oid = CN_OID) Hne).
  apply bool_decide_eq_false_2. intros E. cbn [take] in E. injection E as E.
  unfold der_len, len_of in E, Hl. destruct (Z.ltb_spec (Z.of_nat (length oid)) 128).
  - cbn [app] in E. injection E as El E. apply Hne. destruct oid as [|a [|b [|c [|d l]]]]; cbn in El; try lia. exact E.
  - repeat case_match; cbn [app] in E; injection E as E0 _; done.
Qed.

Definition named (rdn : list Atv) : option bytes := atv_value <$> head (List.filter (λ a, bool_decide (atv_oid a = CN_OID)) rdn).

Lemma walk_rdn_spec rdn n :
  Forall atv_fits rdn → (length (rdn ≫= atv_der) <= n)%nat →
  walk_rdn_for_cn lossy n (rdn ≫= atv_der) = from_utf8_lossy lossy <$> named rdn.
Proof.
  intros H. revert n. induction H as [|a rdn (Ho & Hv & Ha) H IH]; intros n Hn; [by destruct n|].
  change ((a :: rdn) ≫= atv_der) with (atv_der a ++ (rdn ≫= atv_der)) in *. rewrite length_app in Hn.
  pose proof (tlv_length 0x30 (tlv 0x06 (atv_oid a) ++ tlv (atv_tag a) (atv_value a))) as Hlen. fold (atv_der a) in Hlen.
  destruct n as [|n]; [lia|]. unfold atv_der at 1. destruct (tlv_cons 0x30 (tlv 0x06 (atv_oid a) ++ tlv (atv_tag a) (atv_value a)) (rdn ≫= atv_der)) as [l E].
  rewrite E. cbn [walk_rdn_for_cn]. rewrite <-E. unfold read_seq. rewrite read_tagged_tlv by done. cbn [mbind option_bind].
  rewrite (oid_starts _ _ Ho). unfold named. cbn [List.filter]. destruct (decide (atv_oid a = CN_OID)) as [Eo|Hne].
  - rewrite !(bool_decide_eq_true_2 _ Eo). cbn [head fmap option_fmap option_map]. rewrite Eo.
    change (tlv 6 CN_OID ++ tlv (atv_tag a) (atv_value a)) with (CN_OID_DER ++ tlv (atv_tag a) (atv_value a)).
    rewrite drop_app_length. pose proof (read_tlv_tlv (atv_tag a) (atv_value a) [] Hv) as R. rewrite app_nil_r in R. by rewrite R.
  - rewrite !(bool_decide_eq_false_2 _ Hne). apply IH. lia.
Qed.

Lemma walk_name_spec name n :
  name_fits name → (length (name_body name) <= n)%nat →
  walk_name_for_cn lossy n (name_body name) = from_utf8_lossy lossy <$> common_name name.
Proof.
  intros H. revert n. induction H as [|rdn name [Hr Ha] H IH]; intros n Hn; [by destruct n|].
  change (name_body (rdn :: name)) with (rdn_der rdn ++ name_body name) in *. rewrite length_app in Hn.
  pose proof (tlv_length 0x31 (rdn ≫= atv_der)) as Hlen. fold (rdn_der rdn) in Hlen.
  destruct n as [|n]; [lia|]. unfold rdn_der at 1. destruct (tlv_cons 0x31 (rdn ≫= atv_der) (name_body name)) as [l E].
  rewrite E. cbn [walk_name_for_cn]. rewrite <-E. unfold read_set. rewrite read_tagged_tlv by done. cbn [mbind option_bind].
  rewrite walk_rdn_spec by done. unfold common_name. change (mjoin (rdn :: name)) with (rdn ++ mjoin name). rewrite List.filter_app.
  unfold named. destruct (List.filter _ rdn) as [|a l']; cbn [app head fmap option_fmap option_map]; [apply IH; lia|done].
Qed.

(** A field that does not start like a name. *)
Definition plain (f : Z * bytes) : Prop := len_of f.2 < 2 ^ 32 ∧ match f.2 with b :: _ => b ≠ 0x31 | [] => True end.

Lemma plain_no_name f n : plain f → walk_name_for_cn lossy n f.2 = None.
Proof.
  intros [_ H]. destruct n, f.2 as [|b l]; cbn; try done. unfold read_set, read_tagged. by rewrite (proj2 (Z.eqb_neq b 0x31) H).
Qed.

Lemma walk_tbs_plain fs rest n found :
  Forall plain fs → (length (fields_der fs ++ rest) <= n)%nat →
  ∃ n', (length rest <= n')%nat ∧ walk_tbs lossy n (fields_der fs ++ rest) found = walk_tbs lossy n' rest found.
Proof.
  intros H. revert n. induction H as [|f fs Hf H IH]; intros n Hn; [by exists n|].
  change (fields_der (f :: fs)) with (tlv f.1 f.2 ++ fields_der fs) in *. rewrite <-app_assoc in Hn |- *. rewrite length_app in Hn.
  pose proof (tlv_length f.1 f.2). destruct n as [|n]; [lia|]. destruct (tlv_cons f.1 f.2 (fields_der fs ++ rest)) as [l E].
  rewrite E. cbn [walk_tbs]. rewrite <-E, read_tlv_tlv by apply Hf. cbn [mbind option_bind]. rewrite plain_no_name by done.
  apply IH. lia.
Qed.

Lemma walk_tbs_name name rest n found :
  name_fits name → len_of (name_body name) < 2 ^ 32 → (length (fields_der [(0x30%Z, name_body name)] ++ rest) <= n)%nat →
  ∃ n', (length rest <= n')%nat ∧
    walk_tbs lossy n (fields_der [(0x30, name_body name)] ++ rest) found
    = match from_utf8_lossy lossy <$> common_name name, found with
      | Some cn, Some _ => Some cn
      | Some cn, None => walk_tbs lossy n' rest (Some cn)
      | None, _ => walk_tbs lossy n' rest found
      end.
Proof.
  intros Hf Hl. change (fields_der [(0x30, name_body name)]) with (tlv 0x30 (name_body name) ++ []). rewrite app_nil_r, length_app.
  pose proof (tlv_length 0x30 (name_body name)). intros Hn. destruct n as [|n]; [lia|]. exists n. split; [lia|].
  destruct (tlv_cons 0x30 (name_body name) rest) as [l E]. rewrite E. cbn [walk_tbs]. rewrite <-E, read_tlv_tlv by done.
  cbn [mbind option_bind]. rewrite walk_name_spec by done. by destruct (from_utf8_lossy lossy <$> common_name name), found.
Qed.

Record cert_fits (c : Cert) : Prop := {
  cf_fields : Forall plain (before c ++ between c ++ after c);
  cf_issuer : name_fits (issuer c) ∧ len_of (name_body (issuer c)) < 2 ^ 32;
  cf_subject : name_fits (subject c) ∧ len_of (name_body (subject c)) < 2 ^ 32;
  cf_whole : len_of (tlv 0x30 (tbs_body c) ++ signature c) < 2 ^ 32
}.

Lemma fields_app a b : fields_der (a ++ b) = fields_der a ++ fields_der b.
Proof. apply bind_app. Qed.

Lemma extract_spec c :
  cert_fits c →
  extract_cn_from_der lossy (cert_der c)
  = from_utf8_lossy lossy <$> match common_name (subject c) with Some s => Some s | None => common_name (issuer c) end.
Proof.
  intros [Hp [Hi1 Hi2] [Hs1 Hs2] Hw]. apply Forall_app in Hp as [Hb [Hm Ha]%Forall_app].
  unfold extract_cn_from_der, cert_der, read_seq.
  pose proof (read_tagged_tlv 0x30 (tlv 0x30 (tbs_body c) ++ signature c) [] Hw) as R. rewrite app_nil_r in R. rewrite R.
  cbn [mbind option_bind].
  assert (len_of (tbs_body c) < 2 ^ 32) as Ht.
  { pose proof (tlv_length 0x30 (tbs_body c)). unfold len_of in *. rewrite length_app in Hw. lia. }
  rewrite read_tagged_tlv by done. cbn [mbind option_bind]. unfold tbs_body. rewrite !fields_app.
  destruct (walk_tbs_plain (before c) (fields_der [(0x30, name_body (issuer c))] ++ fields_der (between c)
    ++ fields_der [(0x30, name_body (subject c))] ++ fields_der (after c)) _ None Hb (le_n _)) as (n1 & Hn1 & ->).
  destruct (walk_tbs_name (issuer c) (fields_der (between c) ++ fields_der [(0x30, name_body (subject c))] ++ fields_der (after c))
    n1 None Hi1 Hi2 Hn1) as (n2 & Hn2 & ->).
  assert (∀ found n, (length (fields_der (between c) ++ fields_der [(0x30%Z, name_body (subject c))] ++ fields_der (after c)) <= n)%nat →
    walk_tbs lossy n (fields_der (between c) ++ fields_der [(0x30, name_body (subject c))] ++ fields_der (after c)) found
    = match from_utf8_lossy lossy <$> common_name (subject c) with Some cn => Some cn | None => found end) as Hrest.
  { intros found n Hn. destruct (walk_tbs_plain (between c) _ n found Hm Hn) as (n3 & Hn3 & ->).
    destruct (walk_tbs_name (subject c) _ n3 found Hs1 Hs2 Hn3) as (n4 & Hn4 & ->).
    assert (∀ f, walk_tbs lossy n4 (fields_der (after c)) f = f) as He.
    { intros f. destruct (walk_tbs_plain (after c) [] n4 f Ha) as (n5 & _ & E5); rewrite app_nil_r in *; [done|]. rewrite E5. by destruct n5. }
    destruct (common_name (subject c)), found; cbn [fmap option_fmap option_map]; by rewrite ?He. }
  destruct (common_name (issuer c)); cbn [fmap option_fmap option_map]; rewrite (Hrest _ n2 Hn2); by destruct (common_name (subject c)).
Qed.
End walk.
