(* ===== verification/ClusterWire.v ===== *)
(** * Frames between the nodes of a cluster

    [crates/mty-runtime/src/cluster/]: [address.rs], [wire.rs] and the
    reading half of [peer.rs].  The CBOR codec is the class [Cbor]; a socket
    is the bytes it still delivers and whether it then ends or breaks.  A
    string is its list of characters where it is compared with a certificate's
    name; [usize] is 64 bits wide.  The lemmas on what is read back follow. *)

From stdpp Require Import base list strings numbers pretty gmap sets.
From S2P Require Import Prelude Semver ClusterTls.

Local Open Scope Z_scope.
Local Open Scope list_scope.
Notation length := List.length (only parsing).
Notation bytes := (list Z) (only parsing).

(** ** Addresses *)

Notation NodeId := (list Z) (only parsing).
Record AgentAddr : Set := mkAddr { node : list Z; agent_type : string; agent_id : Z }.

#[export] Instance AgentAddr_eq_dec : EqDecision AgentAddr.
Proof. solve_decision. Defined.

#[export] Instance AgentAddr_countable : Countable AgentAddr.
Proof.
  refine (inj_countable' (λ a, (node a, agent_type a, agent_id a)) (λ t, mkAddr t.1.1 t.1.2 t.2) _). by intros [].
Defined.

Definition remote (n : NodeId) (agent_type : string) (id : Z) : AgentAddr := mkAddr n agent_type id.

(** ** Frames *)

Definition WIRE_VERSION : Z := 1.
Definition MAX_FRAME_BYTES : Z := 8 * 1024 * 1024.

Inductive WireFrame : Set :=
  | Hello (node_id : list Z) (version : Z)
  | Heartbeat
  | Send (from to : AgentAddr) (msg : string) (msg_bytes : list Z)
  | Ask (from to : AgentAddr) (msg : string) (msg_bytes : list Z) (correlation : Z)
  | Reply (correlation : Z) (msg_bytes : list Z)
  | Error (correlation : Z) (kind message : string)
  | Goodbye
  | MigrateSnapshot (agent_addr : AgentAddr) (target_node : list Z) (agent_type : string) (schema_hash : Z) (state : list Z)
  | MigrateAck (migrating new : AgentAddr) (route_to : list Z)
  | MigrateError (migrating : AgentAddr) (route_to : list Z) (kind message : string).

#[export] Instance WireFrame_eq_dec : EqDecision WireFrame.
Proof. solve_decision. Defined.

(** [Io]: the stream ended inside a read, or broke. *)
Inductive IoError : Set := UnexpectedEof | Broken.
Inductive WireError : Set := Io (e : IoError) | Encode (why : string) | Decode (why : string) | FrameTooLarge (n : Z).

(** [ciborium::into_writer] and [from_reader]. *)
Class Cbor : Set := {
  into_writer : WireFrame → Res string bytes;
  from_reader : bytes → Res string WireFrame
}.

(** What is written is read back. *)
Class CborOk (C : Cbor) : Prop := {
  cbor_bytes : ∀ f b, into_writer f = Ok b → Forall (λ x, 0 <= x < 256) b;
  cbor_round_trip : ∀ f b, into_writer f = Ok b → from_reader b = Ok f
}.

(** [u32::to_be_bytes] and [from_be_bytes]. *)
Definition to_be_bytes (n : Z) : bytes :=
  [Z.land (Z.shiftr n 24) 255; Z.land (Z.shiftr n 16) 255; Z.land (Z.shiftr n 8) 255; Z.land n 255].

Definition from_be_bytes (a b c d : Z) : Z := Z.lor (Z.shiftl a 24) (Z.lor (Z.shiftl b 16) (Z.lor (Z.shiftl c 8) d)).

Definition len (bs : bytes) : Z := Z.of_nat (length bs).

Section wire.
Context `{Cbor}.

Definition encode_frame (f : WireFrame) : Res WireError bytes :=
  match into_writer f with
  | Err why => Err (Encode why)
  | Ok body =>
      if MAX_FRAME_BYTES <? len body then Err (FrameTooLarge (len body))
      else Ok (to_be_bytes (Z.land (len body) (2 ^ 32 - 1)) ++ body)
  end.

Definition decode_body (body : bytes) : Res WireError WireFrame :=
  match from_reader body with Ok f => Ok f | Err why => Err (Decode why) end.

Definition decode_frame (buf : bytes) : Res WireError (WireFrame * nat) :=
  match buf with
  | a :: b :: c :: d :: rest =>
      let n := from_be_bytes a b c d in
      if MAX_FRAME_BYTES <? n then Err (FrameTooLarge n)
      else if len rest <? n then
        Err (Decode ("buffer shorter than body (need " +:+ pretty n +:+ "+4, have " +:+ pretty (len buf) +:+ ")"))
      else f ← decode_body (take (Z.to_nat n) rest); Ok (f, (4 + Z.to_nat n)%nat)
  | _ => Err (Decode "buffer shorter than length prefix")
  end.

(** ** Reading from a socket *)

Record Stream : Set := mkStream { delivers : list Z; broken : bool }.

(** [read_exact] *)
Definition read_exact (n : nat) (s : Stream) : Res IoError bytes * Stream :=
  if (length (delivers s) <? n)%nat then (Err (if broken s then Broken else UnexpectedEof), mkStream [] (broken s))
  else (Ok (take n (delivers s)), mkStream (drop n (delivers s)) (broken s)).

Definition read_frame (s : Stream) : Res WireError (option WireFrame) * Stream :=
  match read_exact 4 s with
  | (Err UnexpectedEof, s) => (Ok None, s)
  | (Err e, s) => (Err (Io e), s)
  | (Ok prefix, s) =>
      let n := match prefix with [a; b; c; d] => from_be_bytes a b c d | _ => 0 end in
      if MAX_FRAME_BYTES <? n then (Err (FrameTooLarge n), s)
      else
        match read_exact (Z.to_nat n) s with
        | (Err e, s) => (Err (Io e), s)
        | (Ok body, s) => (f ← decode_body body; Ok (Some f), s)
        end
  end.

Definition write_frame (out : bytes) (f : WireFrame) : Res WireError bytes := b ← encode_frame f; Ok (out ++ b).

Record InboundFrame : Set := mkInbound { from_node : list Z; frame : WireFrame }.

(** The reader task: the envelopes it pushes.  [room k]: the inbox still has a
    receiver at the [k]-th push.  A round reads a prefix of four bytes, so the
    bytes left are fuel enough. *)
Fixpoint reader (room : nat → bool) (peer : NodeId) (n k : nat) (s : Stream) : list InboundFrame :=
  match n with
  | O => []
  | S n =>
      match read_frame s with
      | (Ok (Some Goodbye), _) => []
      | (Ok (Some Heartbeat), s) => reader room peer n k s
      | (Ok (Some f), s) => if room k then mkInbound peer f :: reader room peer n (S k) s else []
      | (Ok None, _) | (Err _, _) => []
      end
  end.

Definition reader_task (room : nat → bool) (peer : NodeId) (s : Stream) : list InboundFrame := reader room peer (S (length (delivers s))) 0 s.

(** ** The handshake *)

Inductive PeerError : Set :=
  | PWire (e : WireError)
  | Disconnected
  | Backpressure
  | VersionMismatch (expected got : Z)
  | MissingHello
  | Identity (e : TlsError).

Variable lossy : bytes → list Z.

Definition identify (e : Res TlsError unit) : Res PeerError unit := match e with Ok _ => Ok () | Err e => Err (Identity e) end.

(** Our [Hello] is written; theirs is read and checked, with the certificates
    when the mesh requires them.  The node id of the peer and the stream. *)
Definition handshake (local : NodeId) (certs : option (list bytes)) (expected : option NodeId) (s : Stream) :
    Res PeerError (NodeId * Stream) :=
  match write_frame [] (Hello local WIRE_VERSION) with
  | Err e => Err (PWire e)
  | Ok _ =>
      match read_frame s with
      | (Err e, _) => Err (PWire e)
      | (Ok (Some (Hello node_id version)), s) =>
          if negb (version =? WIRE_VERSION) then Err (VersionMismatch WIRE_VERSION version)
          else
            match certs with
            | None => Ok (node_id, s)
            | Some [] => Err (Identity (BadPeerCert "empty cert chain"))
            | Some (leaf :: _) =>
                _ ← identify (verify_peer_identity lossy leaf node_id);
                _ ← match expected with Some e => identify (verify_peer_identity lossy leaf e) | None => Ok () end;
                Ok (node_id, s)
            end
      | (Ok _, _) => Err MissingHello
      end
  end.
End wire.

(** ** Reconnection *)

Definition RECONNECT_INITIAL_MS : Z := 100.
Definition RECONNECT_MAX_MS : Z := 30 * 1000.
Definition RECONNECT_MAX_ATTEMPTS : Z := 10.

Definition u64_max : Z := 2 ^ 64 - 1.

(** In milliseconds; [attempt] is a [u32]. *)
Definition reconnect_backoff (attempt : Z) : Z :=
  let shifted := Z.min (RECONNECT_INITIAL_MS * Z.shiftl 1 (Z.min (Z.max (attempt - 1) 0) 20)) u64_max in
  Z.min shifted RECONNECT_MAX_MS.

(** ** Frames survive the wire

    The length prefix and the body of a frame are read back from what was
    written, and a stream cut anywhere delivers the frames before the cut. *)

(** ** The length prefix *)

Lemma lor_shiftl_add a n b : 0 <= n → 0 <= b < 2 ^ n → Z.lor (Z.shiftl a n) b = a * 2 ^ n + b.
Proof.
  intros Hn Hb. pose proof (Z.add_lor_land (Z.shiftl a n) b) as E.
  assert (Z.land (Z.shiftl a n) b = 0) as E0; [|rewrite E0, Z.add_0_r in E; rewrite E, Z.shiftl_mul_pow2 by lia; lia].
  apply Z.bits_inj'. intros k Hk. rewrite Z.land_spec, Z.bits_0. destruct (decide (k < n)).
  - by rewrite Z.shiftl_spec_low by lia.
  - destruct (decide (b = 0)) as [->|?]; [by rewrite Z.bits_0, andb_false_r|].
    rewrite (Z.bits_above_log2 b k); [by rewrite andb_false_r|lia|]. enough (Z.log2 b < n) by lia. apply Z.log2_lt_pow2; lia.
Qed.

Definition prefix_value (p : bytes) : Z := match p with [a; b; c; d] => from_be_bytes a b c d | _ => 0 end.

Lemma prefix_round_trip n : 0 <= n < 2 ^ 32 → prefix_value (to_be_bytes n) = n.
Proof.
  intros H. unfold to_be_bytes, prefix_value, from_be_bytes.
  change 255 with (Z.ones 8). rewrite !Z.land_ones, !Z.shiftr_div_pow2 by lia.
  pose proof (Z.mod_pos_bound n (2 ^ 8) ltac:(lia)). pose proof (Z.mod_pos_bound (n / 2 ^ 16) (2 ^ 8) ltac:(lia)).
  pose proof (Z.mod_pos_bound (n / 2 ^ 8) (2 ^ 8) ltac:(lia)). pose proof (Z.mod_pos_bound (n / 2 ^ 24) (2 ^ 8) ltac:(lia)).
  rewrite (lor_shiftl_add (n / 2 ^ 8 mod 2 ^ 8) 8) by lia. rewrite (lor_shiftl_add (n / 2 ^ 16 mod 2 ^ 8) 16) by lia.
  rewrite (lor_shiftl_add (n / 2 ^ 24 mod 2 ^ 8) 24) by lia.
  pose proof (Z.div_mod n (2 ^ 8) ltac:(lia)). pose proof (Z.div_mod (n / 2 ^ 8) (2 ^ 8) ltac:(lia)).
  pose proof (Z.div_mod (n / 2 ^ 16) (2 ^ 8) ltac:(lia)). rewrite !Z.div_div in * by lia.
  change (2 ^ 8 * 2 ^ 8) with (2 ^ 16) in *. change (2 ^ 16 * 2 ^ 8) with (2 ^ 24) in *.
  rewrite (Z.mod_small (n / 2 ^ 24)); [lia|]. split; [apply Z.div_pos; lia|apply Z.div_lt_upper_bound; lia].
Qed.

Lemma to_be_bytes_byte n : Forall (λ x, 0 <= x < 256) (to_be_bytes n).
Proof.
  unfold to_be_bytes. change 255 with (Z.ones 8). rewrite !Z.land_ones by lia.
  repeat constructor; try apply Z.mod_pos_bound; lia.
Qed.

(** ** Frames *)

Section sound.
Context `{CborOk}.

(** What an encoded frame is. *)
Lemma encode_inv f b :
  encode_frame f = Ok b → ∃ body, into_writer f = Ok body ∧ len body <= MAX_FRAME_BYTES ∧ b = to_be_bytes (len body) ++ body.
Proof.
  unfold encode_frame. destruct (into_writer f) as [body|]; [|done]. destruct (Z.ltb_spec MAX_FRAME_BYTES (len body)) as [|Hl]; [done|].
  intros [= <-]. exists body. split; [done|]. split; [done|]. change (2 ^ 32 - 1) with (Z.ones 32).
  rewrite Z.land_ones, Z.mod_small; [done| |lia]. unfold len, MAX_FRAME_BYTES in *. lia.
Qed.

Lemma encode_bytes f b : encode_frame f = Ok b → Forall (λ x, 0 <= x < 256) b ∧ 4 <= len b <= MAX_FRAME_BYTES + 4.
Proof.
  intros (body & Hw & Hl & ->)%encode_inv. split.
  - apply Forall_app. split; [apply to_be_bytes_byte|by eapply cbor_bytes].
  - unfold len in *. rewrite length_app. change (length (to_be_bytes (Z.of_nat (length body)))) with 4%nat. lia.
Qed.

Lemma prefix_len body : len body <= MAX_FRAME_BYTES → prefix_value (to_be_bytes (len body)) = len body.
Proof. intros Hl. apply prefix_round_trip. unfold len, MAX_FRAME_BYTES in *. lia. Qed.

(** A frame at the front of a buffer is decoded, with its length. *)
Lemma decode_encode f b rest : encode_frame f = Ok b → decode_frame (b ++ rest) = Ok (f, length b).
Proof.
  intros (body & Hw & Hl & ->)%encode_inv. pose proof (prefix_len body Hl) as Hp.
  unfold to_be_bytes, prefix_value in Hp. unfold to_be_bytes, decode_frame. rewrite <-app_assoc. cbn [app]. rewrite Hp.
  destruct (Z.ltb_spec MAX_FRAME_BYTES (len body)); [lia|]. destruct (Z.ltb_spec (len (body ++ rest)) (len body)) as [Hlt|_].
  { unfold len in Hlt. rewrite length_app in Hlt. lia. }
  unfold len. rewrite Nat2Z.id, take_app_length. unfold decode_body. by rewrite (cbor_round_trip f body Hw).
Qed.

Lemma read_whole f b rest br :
  encode_frame f = Ok b → read_frame (mkStream (b ++ rest) br) = (Ok (Some f), mkStream rest br).
Proof.
  intros (body & Hw & Hl & ->)%encode_inv. pose proof (prefix_len body Hl) as Hp. unfold read_frame, read_exact. cbn [delivers broken].
  rewrite <-app_assoc. set (p := to_be_bytes (len body)) in *. assert (length p = 4%nat) as Hp4 by done.
  destruct (Nat.ltb_spec (length (p ++ body ++ rest)) 4) as [Hlt|_]; [rewrite length_app in Hlt; lia|].
  replace (take 4 (p ++ body ++ rest)) with p by (rewrite <-Hp4, take_app_length; done).
  replace (drop 4 (p ++ body ++ rest)) with (body ++ rest) by (rewrite <-Hp4, drop_app_length; done).
  fold (prefix_value p). rewrite Hp. destruct (Z.ltb_spec MAX_FRAME_BYTES (len body)); [lia|]. cbn [delivers broken].
  unfold len. rewrite Nat2Z.id. destruct (Nat.ltb_spec (length (body ++ rest)) (length body)) as [Hlt|_]; [rewrite length_app in Hlt; lia|].
  rewrite take_app_length, drop_app_length. unfold decode_body. by rewrite (cbor_round_trip f body Hw).
Qed.

(** A frame cut short is not one. *)
Lemma read_cut f b k br :
  encode_frame f = Ok b → (k < length b)%nat →
  match (read_frame (mkStream (take k b) br)).1 with Ok (Some _) => False | _ => True end.
Proof.
  intros (body & Hw & Hl & ->)%encode_inv Hk. pose proof (prefix_len body Hl) as Hp. unfold read_frame, read_exact. cbn [delivers broken].
  set (p := to_be_bytes (len body)) in *. assert (length p = 4%nat) as Hp4 by done. rewrite length_app in Hk.
  destruct (Nat.ltb_spec (length (take k (p ++ body))) 4) as [Hlt|Hge]; [by destruct br|].
  rewrite length_take, length_app in Hge. rewrite take_app_ge by lia.
  replace (take 4 (p ++ take (k - length p) body)) with p by (rewrite <-Hp4, take_app_length; done).
  replace (drop 4 (p ++ take (k - length p) body)) with (take (k - length p) body) by (rewrite <-Hp4, drop_app_length; done).
  fold (prefix_value p). rewrite Hp. destruct (Z.ltb_spec MAX_FRAME_BYTES (len body)); [lia|]. cbn [delivers broken].
  unfold len. rewrite Nat2Z.id. destruct (Nat.ltb_spec (length (take (k - length p) body)) (length body)) as [_|Hge2]; [done|].
  rewrite length_take in Hge2. lia.
Qed.

(** ** Streams *)

(** The frames whose encodings lie before the cut. *)
Fixpoint whole (k : nat) (bs : list bytes) (fs : list WireFrame) : list WireFrame :=
  match bs, fs with
  | b :: bs, f :: fs => if (length b <=? k)%nat then f :: whole (k - length b) bs fs else []
  | _, _ => []
  end.

(** What the inbox gets of a sequence of frames. *)
Fixpoint pushed (room : nat → bool) (peer : NodeId) (i : nat) (fs : list WireFrame) : list InboundFrame :=
  match fs with
  | [] | Goodbye :: _ => []
  | Heartbeat :: fs => pushed room peer i fs
  | f :: fs => if room i then mkInbound peer f :: pushed room peer (S i) fs else []
  end.

Lemma reader_whole room peer fs bs :
  Forall2 (λ f b, encode_frame f = Ok b) fs bs →
  ∀ k n i br, (length (take k (mjoin bs)) < n)%nat →
  reader room peer n i (mkStream (take k (mjoin bs)) br) = pushed room peer i (whole k bs fs).
Proof.
  induction 1 as [|f b fs bs He Hs IH]; intros k n i br Hn.
  - change (mjoin []) with (@nil Z) in *. rewrite take_nil in *. destruct n; [cbn in Hn; lia|]. by destruct br.
  - change (mjoin (b :: bs)) with (b ++ mjoin bs) in *. pose proof (encode_bytes f b He) as [_ Hb]. unfold len in Hb.
    destruct n as [|n]; [lia|]. cbn [reader whole]. destruct (Nat.leb_spec (length b) k) as [Hk|Hk].
    + rewrite take_app_ge in Hn |- * by lia. rewrite (read_whole _ _ _ _ He). rewrite length_app in Hn.
      assert (length (take (k - length b) (mjoin bs)) < n)%nat as Hn' by lia.
      destruct f; cbn [pushed]; rewrite ?IH by done; done.
    + rewrite take_app_le by lia. pose proof (read_cut f b k br He Hk) as Hc.
      destruct (read_frame (mkStream (take k b) br)) as [[[g|]|e] s]; [done|done|done].
Qed.
End sound.

(** A small codec, for examples. *)
Definition byte_ok (x : Z) : bool := (0 <=? x) && (x <? 256).
#[export] Instance tiny : Cbor := {|
  into_writer f :=
    match f with
    | Heartbeat => Ok [1]
    | Goodbye => Ok [2]
    | Hello n v => if forallb byte_ok (v :: n) then Ok (3 :: v :: n) else Err "range"
    | Reply c b => if forallb byte_ok (c :: b) then Ok (4 :: c :: b) else Err "range"
    | _ => Err "frame"
    end;
  from_reader b :=
    match b with
    | [1] => Ok Heartbeat
    | [2] => Ok Goodbye
    | 3 :: v :: n => Ok (Hello n v)
    | 4 :: c :: b => Ok (Reply c b)
    | _ => Err "bytes"
    end |}.

Lemma byte_ok_range l : forallb byte_ok l = true → Forall (λ x, 0 <= x < 256) l.
Proof. rewrite forallb_forall, Forall_forall. intros Hl x Hx%list_elem_of_In%Hl. unfold byte_ok in Hx. lia. Qed.

#[export] Instance tiny_ok : CborOk tiny.
Proof.
  split; intros f b; destruct f as [n v| | | |c l| | | | |]; cbn [into_writer tiny]; try done.
  - case_match eqn:E; [|done]. intros [= <-]. apply byte_ok_range in E. constructor; [lia|done].
  - intros [= <-]. repeat constructor; lia.
  - case_match eqn:E; [|done]. intros [= <-]. apply byte_ok_range in E. constructor; [lia|done].
  - intros [= <-]. repeat constructor; lia.
  - case_match; [|done]. by intros [= <-].
  - by intros [= <-].
  - case_match; [|done]. by intros [= <-].
  - by intros [= <-].
Qed.
