(* ===== verification/ClusterMesh.v ===== *)
(** * The mesh: routing and request correlation

    [correlation.rs] and [mesh.rs] of [crates/mty-runtime/src/cluster/].  The
    table's maps are concurrent: what runs without interference is one
    operation on one map, on the counter or on a channel.  A call of the table
    is the sequence of its operations ([Action]), and the tasks of a mesh are
    interleaved operation by operation ([mesh_step]); [register], [complete]
    and the other functions are what the calls do when nothing comes between.
    [answers] holds what was sent on the one-shot channel of each correlation
    id, [closed] the ids whose sender was dropped unused.  Sockets and TLS are
    not modelled; a [u64] does not wrap before [2^64] asks.  The invariant of
    the interleaved tasks is proved at the end. *)

From stdpp Require Import base list strings numbers gmap sets relations.
From S2P Require Import Prelude Semver ClusterTls ClusterWire.

Local Open Scope Z_scope.
Local Open Scope list_scope.
Notation length := List.length (only parsing).

(** ** Correlations *)

Record CorrelationTable : Type := mkTable {
  next_id : Z; pending : gset Z; targets : gmap Z NodeId; answers : gmap Z WireFrame; closed : gset Z }.

Definition new_table : CorrelationTable := mkTable 0 ∅ ∅ ∅ ∅.

(** The operations: on the counter, on [pending], on [targets] (also
    [DashMap::remove]), and what becomes of a sender that was taken out. *)
Definition take_id (t : CorrelationTable) : Z * CorrelationTable :=
  (next_id t + 1, mkTable (next_id t + 1) (pending t) (targets t) (answers t) (closed t)).
Definition insert_pending (id : Z) (t : CorrelationTable) : CorrelationTable :=
  mkTable (next_id t) ({[id]} ∪ pending t) (targets t) (answers t) (closed t).
Definition insert_target (id : Z) (node : NodeId) (t : CorrelationTable) : CorrelationTable :=
  mkTable (next_id t) (pending t) (<[id := node]> (targets t)) (answers t) (closed t).
Definition remove_target (id : Z) (t : CorrelationTable) : CorrelationTable :=
  mkTable (next_id t) (pending t) (delete id (targets t)) (answers t) (closed t).
Definition remove_pending (id : Z) (t : CorrelationTable) : option CorrelationTable :=
  if bool_decide (id ∈ pending t) then Some (mkTable (next_id t) (pending t ∖ {[id]}) (targets t) (answers t) (closed t)) else None.
Definition deliver (id : Z) (f : WireFrame) (t : CorrelationTable) : CorrelationTable :=
  mkTable (next_id t) (pending t) (targets t) (<[id := f]> (answers t)) (closed t).
Definition drop_sender (id : Z) (t : CorrelationTable) : CorrelationTable :=
  mkTable (next_id t) (pending t) (targets t) (answers t) ({[id]} ∪ closed t).

(** The calls, when nothing comes between their operations. *)
Definition register (t : CorrelationTable) : Z * CorrelationTable :=
  let '(id, t) := take_id t in (id, insert_pending id t).

Definition register_for_node (node : NodeId) (t : CorrelationTable) : Z * CorrelationTable :=
  let '(id, t) := register t in (id, insert_target id node t).

Definition complete (id : Z) (f : WireFrame) (t : CorrelationTable) : bool * CorrelationTable :=
  let t := remove_target id t in
  match remove_pending id t with Some t => (true, deliver id f t) | None => (false, t) end.

Definition cleanup (id : Z) (t : CorrelationTable) : CorrelationTable :=
  let t := remove_target id t in
  match remove_pending id t with Some t => drop_sender id t | None => t end.

Definition complete_all (frame_for : Z → WireFrame) (ids : list Z) (t : CorrelationTable) : CorrelationTable :=
  foldl (λ t id, (complete id (frame_for id) t).2) t ids.

Definition peer_disconnected (node : NodeId) (id : Z) : WireFrame := Error id "peer_disconnected" ("peer for node " +:+ of_ascii node +:+ " disconnected mid-ask").

(** The ids collected from the map, in the order it iterates. *)
Definition fail_targeting_node (node : NodeId) (t : CorrelationTable) : CorrelationTable :=
  complete_all (peer_disconnected node) (fst <$> filter (λ kv : Z * NodeId, kv.2 = node) (map_to_list (targets t))) t.

Definition fail_all_with (frame_for : Z → WireFrame) (t : CorrelationTable) : CorrelationTable :=
  complete_all frame_for (elements (pending t)) t.

Definition pending_count (t : CorrelationTable) : nat := size (pending t).

(** ** Routing *)

Inductive MeshError : Set :=
  | PeerDisconnected (n : list Z)
  | UnknownNode (n : list Z)
  | WouldLoopLocal (n : list Z)
  | MPeer (e : PeerError)
  | MWire (e : WireError).

Definition frame_target_node (f : WireFrame) : option NodeId :=
  match f with
  | Send _ to _ _ | Ask _ to _ _ _ => Some (node to)
  | Reply _ _ | Error _ _ _ => None
  | Hello _ _ | Heartbeat | Goodbye => None
  | MigrateSnapshot _ target_node _ _ _ => Some target_node
  | MigrateAck _ _ route_to => Some route_to
  | MigrateError _ route_to _ _ => Some route_to
  end.

Definition PEER_TX_CAPACITY : nat := 256.

(** A peer as the mesh sees it: whether its writer task is alive, and the
    frames queued for it. *)
Record Peer : Type := mkPeer { alive : bool; queue : list WireFrame }.

Record Mesh : Type := mkMesh { self_node : NodeId; peers : gmap NodeId Peer; correlations : CorrelationTable }.

Definition with_peers (m : Mesh) (ps : gmap NodeId Peer) : Mesh := mkMesh (self_node m) ps (correlations m).
Definition with_table (m : Mesh) (t : CorrelationTable) : Mesh := mkMesh (self_node m) (peers m) t.

(** [Peer::send_frame] *)
Definition send_frame (p : Peer) (f : WireFrame) : Res PeerError Peer :=
  if negb (alive p) then Err Disconnected
  else if (PEER_TX_CAPACITY <=? length (queue p))%nat then Err Backpressure
  else Ok (mkPeer true (queue p ++ [f])).

(** [Peer::send_frame_async]: [stays] is whether the writer lives until there
    is room. *)
Definition send_frame_async (stays : bool) (p : Peer) (f : WireFrame) : Res PeerError Peer :=
  if alive p && stays then Ok (mkPeer true (queue p ++ [f])) else Err Disconnected.

Definition has_peer (m : Mesh) (n : NodeId) : bool := match peers m !! n with Some p => alive p | None => false end.
Definition install_peer (n : NodeId) (p : Peer) (m : Mesh) : Mesh := with_peers m (<[n := p]> (peers m)).

(** The checks both routes make before they send. *)
Definition route_check (m : Mesh) (f : WireFrame) : Res MeshError (NodeId * Peer) :=
  match frame_target_node f with
  | None => Err (MWire (Decode "frame has no addressable target"))
  | Some to_node =>
      if bool_decide (to_node = self_node m) then Err (WouldLoopLocal to_node)
      else match peers m !! to_node with
           | None => Err (UnknownNode to_node)
           | Some peer => if negb (alive peer) then Err (PeerDisconnected to_node) else Ok (to_node, peer)
           end
  end.

Definition route_with (send : Peer → WireFrame → Res PeerError Peer) (m : Mesh) (f : WireFrame) : Res MeshError unit * Mesh :=
  match route_check m f with
  | Err e => (Err e, m)
  | Ok (to_node, peer) =>
      match send peer f with
      | Ok peer => (Ok (), with_peers m (<[to_node := peer]> (peers m)))
      | Err e => (Err (MPeer e), m)
      end
  end.

Definition route : Mesh → WireFrame → Res MeshError unit * Mesh := route_with send_frame.
Definition route_async (stays : bool) : Mesh → WireFrame → Res MeshError unit * Mesh := route_with (send_frame_async stays).

(** ** Asking *)

Inductive RouteReply : Set := RROk (msg_bytes : list Z) | RRErr (kind message : string).

(** What [rx.await] gives an ask, once its channel delivered or closed. *)
Definition end_ask (id : Z) (m : Mesh) : option (Res MeshError RouteReply) :=
  match answers (correlations m) !! id with
  | Some (Reply _ b) => Some (Ok (RROk b))
  | Some (Error _ kind message) => Some (Ok (RRErr kind message))
  | Some _ => Some (Err (MWire (Decode "unexpected reply frame")))
  | None => if bool_decide (id ∈ closed (correlations m)) then Some (Err (MWire (Decode "ask correlation oneshot closed"))) else None
  end.

(** The dialer saw the peer of [n] go. *)
Definition peer_lost (n : NodeId) (m : Mesh) : Mesh := with_table m (fail_targeting_node n (correlations m)).

Definition mesh_shutdown (cid : Z) : WireFrame := Error cid "mesh_shutdown" "cluster mesh shutting down".

Definition shutdown (m : Mesh) : Mesh := mkMesh (self_node m) ∅ (fail_all_with mesh_shutdown (correlations m)).

(** ** Tasks *)

(** The operations of the tasks.  [ACheck] is the part of [route_async] before
    its await, [APush] the await: the frame waits for room in the queue;
    [ask] is the id of the [AskGuard] that is alive.  [ATake id o] takes the
    sender out of [pending], [AFinish id o] sends [o] on it, or drops it. *)
Inductive Action : Type :=
  | AInsert (id : Z)
  | ATarget (id : Z) (n : NodeId)
  | ACheck (f : WireFrame) (ask : option Z)
  | APush (n : NodeId) (f : WireFrame) (ask : option Z)
  | AWait (id : Z)
  | ADel (id : Z)
  | ATake (id : Z) (o : option WireFrame)
  | AFinish (id : Z) (o : option WireFrame)
  | AUnpeer (n : NodeId).

(** [AskGuard::drop], and what a failed [route_async] runs. *)
Definition guard (id : Z) : list Action := [ADel id; ATake id None].
Definition on_fail (ask : option Z) : list Action := match ask with Some id => guard id | None => [] end.

(** [route_ask_impl] after it took its id. *)
Definition ask_actions (id : Z) (from to : AgentAddr) (msg : string) (msg_bytes : list Z) : list Action :=
  [AInsert id; ATarget id (node to); ACheck (Ask from to msg msg_bytes id) (Some id); AWait id].

Definition complete_actions (f : WireFrame) (id : Z) : list Action := [ADel id; ATake id (Some f)].
Definition fail_actions (frame_for : Z → WireFrame) (ids : list Z) : list Action := ids ≫= λ id, complete_actions (frame_for id) id.

(** The demux task at a frame. *)
Definition demux_actions (env : InboundFrame) : list Action :=
  match frame env with Reply c _ | Error c _ _ => complete_actions (frame env) c | _ => [] end.

Definition shutdown_actions (ids : list Z) (ns : list NodeId) : list Action := fail_actions mesh_shutdown ids ++ (AUnpeer <$> ns).

(** One operation of a task: the mesh and the rest of the task after it. *)
Inductive act (m : Mesh) : Action → list Action → Mesh → list Action → Prop :=
  | x_insert id k : act m (AInsert id) k (with_table m (insert_pending id (correlations m))) k
  | x_target id n k : act m (ATarget id n) k (with_table m (insert_target id n (correlations m))) k
  | x_check f ask k n p : route_check m f = Ok (n, p) → act m (ACheck f ask) k m (APush n f ask :: k)
  | x_refused f ask k e : route_check m f = Err e → act m (ACheck f ask) k m (on_fail ask)
  | x_push n f ask k p : peers m !! n = Some p → alive p = true → (length (queue p) < PEER_TX_CAPACITY)%nat →
      act m (APush n f ask) k (with_peers m (<[n := mkPeer true (queue p ++ [f])]> (peers m))) k
  (** the peer was replaced in the map while the frame waited *)
  | x_push_old n f ask k : act m (APush n f ask) k m k
  (** its writer ended, or the future was dropped *)
  | x_push_end n f ask k : act m (APush n f ask) k m (on_fail ask)
  | x_answered id f k : answers (correlations m) !! id = Some f → act m (AWait id) k m k
  (** the channel closed, or the future was dropped *)
  | x_gone id k : act m (AWait id) k m (guard id)
  | x_del id k : act m (ADel id) k (with_table m (remove_target id (correlations m))) k
  | x_take id o k t : remove_pending id (correlations m) = Some t → act m (ATake id o) k (with_table m t) (AFinish id o :: k)
  | x_miss id o k : remove_pending id (correlations m) = None → act m (ATake id o) k m k
  | x_send id f k : act m (AFinish id (Some f)) k (with_table m (deliver id f (correlations m))) k
  | x_close id k : act m (AFinish id None) k (with_table m (drop_sender id (correlations m))) k
  | x_unpeer n k : act m (AUnpeer n) k (with_peers m (delete n (peers m))) k.

Record Run : Type := mkRun { run_mesh : Mesh; tasks : list (list Action) }.

(** The tasks of a mesh, in any interleaving of their operations.  The ids and
    the nodes that [fail_targeting_node] and [shutdown] collect come from maps
    that others change meanwhile: they are any. *)
Inductive mesh_step : Run → Run → Prop :=
  | ms_act m m' ts1 a k k' ts2 : act m a k m' k' → mesh_step (mkRun m (ts1 ++ (a :: k) :: ts2)) (mkRun m' (ts1 ++ k' :: ts2))
  | ms_ask from to msg b m ts : node to ≠ self_node m →
      mesh_step (mkRun m ts)
        (mkRun (with_table m (take_id (correlations m)).2) (ask_actions (take_id (correlations m)).1 from to msg b :: ts))
  | ms_send f m ts : mesh_step (mkRun m ts) (mkRun m ([ACheck f None] :: ts))
  | ms_try f m ts : mesh_step (mkRun m ts) (mkRun (route m f).2 ts)
  | ms_demux env m ts : mesh_step (mkRun m ts) (mkRun m (demux_actions env :: ts))
  | ms_lost n ids m ts : mesh_step (mkRun m ts) (mkRun m (fail_actions (peer_disconnected n) ids :: ts))
  | ms_shutdown ids ns m ts : mesh_step (mkRun m ts) (mkRun m (shutdown_actions ids ns :: ts))
  | ms_install n p m ts : mesh_step (mkRun m ts) (mkRun (install_peer n p m) ts).

Definition new_mesh (n : NodeId) : Mesh := mkMesh n ∅ new_table.
Definition new_run (n : NodeId) : Run := mkRun (new_mesh n) [].

(** ** The dialer of a configured peer *)

Record Dialer : Type := mkDialer { attempt : Z; was_connected : bool }.

(** A round of the task: it watches a live peer, gives up, has connected and
    goes round at once, or pauses for some milliseconds.  [lost]: the
    supervisors were told that the node is gone. *)
Inductive Round : Type := Watch (d : Dialer) | GiveUp (lost : bool) | Again (lost : bool) (d : Dialer) | Pause (lost : bool) (ms : Z) (d : Dialer).

(** [valid]: the server name parses; [result]: the node id that the peer said
    in its handshake, and the peer, where connecting succeeds. *)
Definition dial_round (entry : NodeId) (valid : bool) (result : option (NodeId * Peer)) (d : Dialer) (m : Mesh) : Round * Mesh :=
  if has_peer m entry then (Watch (mkDialer (attempt d) true), m)
  else
    let lost := was_connected d in
    let m := if lost then peer_lost entry m else m in
    let attempt := Z.min (attempt d + 1) (2 ^ 32 - 1) in
    if negb (RECONNECT_MAX_ATTEMPTS =? 0) && (RECONNECT_MAX_ATTEMPTS <? attempt) then (GiveUp lost, m)
    else if negb valid then (GiveUp lost, m)
    else match result with
         | Some (n, p) => (Again lost (mkDialer 0 false), install_peer n p m)
         | None => (Pause lost (reconnect_backoff attempt) (mkDialer attempt false), m)
         end.

(** The pauses of a dialer that never connects, until it gives up. *)
Fixpoint pauses (n : nat) (entry : NodeId) (d : Dialer) (m : Mesh) : option (list Z) :=
  match n with
  | O => None
  | S n =>
      match dial_round entry true None d m with
      | (GiveUp _, _) => Some []
      | (Pause _ ms d, m) => l ← pauses n entry d m; Some (ms :: l)
      | _ => None
      end
  end.

(** ** Every ask is answered at most once

    The invariant of the table and the tasks under every interleaving, and what
    the failure paths do to the table. *)

(** The frame answers the ask [id]. *)
Definition answers_ask (id : Z) (f : WireFrame) : Prop :=
  match f with Reply c _ | Error c _ _ => c = id | _ => False end.

(** Who has the sender of [id]: a task that made it and has not put it in the
    table, or one that took it out and has not used it. *)
Definition holds (id : Z) (a : Action) : nat :=
  match a with AInsert i | AFinish i _ => if decide (i = id) then 1 else 0 | _ => 0 end.
Definition held (id : Z) (ts : list (list Action)) : nat := list_sum (holds id <$> mjoin ts).

Definition count (P : Prop) `{Decision P} : nat := if decide P then 1 else 0.
Definition in_table (id : Z) (t : CorrelationTable) : nat :=
  count (id ∈ pending t) + count (is_Some (answers t !! id)) + count (id ∈ closed t).

(** An action of a task that, unless the sender leaves [pending] before, waits
    for the answer or takes it out. *)
Definition keeps (id : Z) (a : Action) : Prop := match a with AWait i | ATake i _ => i = id | _ => False end.

(** The frame that a task will send answers its ask. *)
Definition sends_answer (a : Action) : Prop :=
  match a with ATake id (Some f) | AFinish id (Some f) => answers_ask id f | _ => True end.

(** A route is the last but one operation of an ask, and the wait the last;
    who puts the sender in the table waits. *)
Definition waits (ask : option Z) : list Action := match ask with Some id => [AWait id] | None => [] end.
Fixpoint shape (l : list Action) : Prop :=
  match l with
  | [] => True
  | a :: k => match a with ACheck _ ask | APush _ _ ask => k = waits ask | AWait _ => k = [] | AInsert id => AWait id ∈ k | _ => True end ∧ shape k
  end.

(** Every id taken has one sender, and it is in one place: held by a task,
    waiting, used, or dropped; what waits has a task that will see to it. *)
Record run_ok (r : Run) : Prop := {
  ro_next : 0 <= next_id (correlations (run_mesh r));
  ro_one : ∀ id, (held id (tasks r) + in_table id (correlations (run_mesh r)))%nat
                 = count (1 <= id ∧ id <= next_id (correlations (run_mesh r)));
  ro_frames : ∀ id f, answers (correlations (run_mesh r)) !! id = Some f → answers_ask id f;
  ro_sends : ∀ a, a ∈ mjoin (tasks r) → sends_answer a;
  ro_shape : ∀ l, l ∈ tasks r → shape l;
  ro_kept : ∀ id, id ∈ pending (correlations (run_mesh r)) → ∃ a, a ∈ mjoin (tasks r) ∧ keeps id a
}.

(** Where the sender of an id is: with a task, waiting in the table, used for an
    answer, or dropped. *)
Inductive Stage : Set := Held | Waiting | Answered | GivenUp.
Definition at_stage (id : Z) (r : Run) (st : Stage) : Prop :=
  match st with
  | Held => held id (tasks r) ≠ 0%nat
  | Waiting => id ∈ pending (correlations (run_mesh r))
  | Answered => is_Some (answers (correlations (run_mesh r)) !! id)
  | GivenUp => id ∈ closed (correlations (run_mesh r))
  end.

(** The table only grows: an id once answered keeps its answer. *)
Definition grows (t t' : CorrelationTable) : Prop :=
  next_id t <= next_id t' ∧ answers t ⊆ answers t' ∧ closed t ⊆ closed t'.

Lemma table_grows_refl t : grows t t.
Proof. split_and!; [lia|done|done]. Qed.

Lemma table_grows_trans t1 t2 t3 : grows t1 t2 → grows t2 t3 → grows t1 t3.
Proof. intros (? & ? & ?) (? & ? & ?). split_and!; [lia|by etransitivity|set_solver]. Qed.

Lemma held_mid id ts1 l ts2 : held id (ts1 ++ l :: ts2) = (list_sum (holds id <$> l) + held id (ts1 ++ ts2))%nat.
Proof. unfold held. rewrite !join_app. change (mjoin (l :: ts2)) with (l ++ mjoin ts2). rewrite !fmap_app, !list_sum_app. lia. Qed.

Lemma elem_mid (a : Action) ts1 l ts2 : a ∈ mjoin (ts1 ++ l :: ts2) ↔ a ∈ l ∨ a ∈ mjoin (ts1 ++ ts2).
Proof. rewrite !join_app. change (mjoin (l :: ts2)) with (l ++ mjoin ts2). rewrite !elem_of_app. tauto. Qed.

Lemma held_cons id l ts : held id (l :: ts) = (list_sum (holds id <$> l) + held id ts)%nat.
Proof. exact (held_mid id [] l ts). Qed.

Lemma elem_cons (a : Action) l ts : a ∈ mjoin (l :: ts) ↔ a ∈ l ∨ a ∈ mjoin ts.
Proof. exact (elem_mid a [] l ts). Qed.

Lemma count_true P `{Decision P} : P → count P = 1%nat.
Proof. intros. unfold count. by rewrite decide_True. Qed.
Lemma count_false P `{Decision P} : ¬ P → count P = 0%nat.
Proof. intros. unfold count. by rewrite decide_False. Qed.
Lemma count_iff P Q `{Decision P, Decision Q} : (P ↔ Q) → count P = count Q.
Proof. intros. unfold count. by rewrite (decide_ext P Q). Qed.

Lemma new_run_ok n : run_ok (new_run n).
Proof.
  split; cbn; try done.
  - intros id. change ((held id [] + in_table id new_table)%nat = count (1 <= id ∧ id <= 0)). rewrite (count_false (1 <= id ∧ id <= 0)%Z) by lia. unfold in_table, new_table. cbn [pending answers closed].
    rewrite !count_false; [done|..]; first [apply not_elem_of_empty|rewrite lookup_empty; by intros []].
  - intros a Ha. by apply elem_of_nil in Ha.
  - intros l Hl. by apply elem_of_nil in Hl.
Qed.

(** The sender is held by a task: it is in no other place. *)
Lemma held_alone r id a :
  run_ok r → a ∈ mjoin (tasks r) → holds id a = 1%nat → in_table id (correlations (run_mesh r)) = 0%nat.
Proof.
  intros Hok Ha Hh. pose proof (ro_one r Hok id) as H1. unfold held in H1.
  apply list_elem_of_split in Ha as (l1 & l2 & E). rewrite E, fmap_app, list_sum_app in H1. cbn in H1. rewrite Hh in H1.
  unfold count in H1 at 1. destruct (decide _); lia.
Qed.

(** A task goes from [l] to [l'] and leaves the table as it is. *)
Lemma quiet_ok m m' ts1 l l' ts2 :
  correlations m' = correlations m → (∀ id, list_sum (holds id <$> l') = list_sum (holds id <$> l)) →
  (∀ a, a ∈ l' → a ∈ l ∨ sends_answer a) → (shape l → shape l') →
  (∀ id a, id ∈ pending (correlations m) → a ∈ l → keeps id a → ∃ a', a' ∈ l' ∧ keeps id a') →
  run_ok (mkRun m (ts1 ++ l :: ts2)) → run_ok (mkRun m' (ts1 ++ l' :: ts2)) ∧ grows (correlations m) (correlations m').
Proof.
  intros E Hh Hs Hsh Hk [Hn Ho Hf Hse Hshape Hkept]. cbn [run_mesh tasks] in *. rewrite E. split; [|apply table_grows_refl].
  split; cbn [run_mesh tasks]; rewrite ?E; try done.
  - intros id. rewrite <-Ho. by rewrite !held_mid, Hh.
  - intros a. rewrite elem_mid. intros [[Ha| ?]%Hs|Ha]; [|done|]; apply Hse, elem_mid; auto.
  - intros x. rewrite elem_of_app, elem_of_cons. intros [Hx|[->|Hx]]; [apply Hshape; set_solver| |apply Hshape; set_solver].
    apply Hsh, Hshape. set_solver.
  - intros id Hid. destruct (Hkept id Hid) as (a & [Ha|Ha]%elem_mid & Hka).
    + destruct (Hk id a Hid Ha Hka) as (a' & ? & ?). exists a'. rewrite elem_mid. auto.
    + exists a. rewrite elem_mid. auto.
Qed.

(** A task does its next operation [a], and goes on with the rest: what the
    table must satisfy.  [new] is what the task puts before the rest. *)
Lemma table_act_ok m t' ts1 a k new ts2 :
  next_id t' = next_id (correlations m) →
  (∀ id, run_ok (mkRun m (ts1 ++ (a :: k) :: ts2)) →
     (list_sum (holds id <$> new) + in_table id t' = holds id a + in_table id (correlations m))%nat) →
  (∀ id f, answers t' !! id = Some f → answers (correlations m) !! id = Some f ∨ sends_answer a ∧ a = AFinish id (Some f)) →
  (∀ b, b ∈ new → sends_answer a → sends_answer b) → (∀ b, b ∈ new → ∃ i o, b = AFinish i o) →
  (∀ id, id ∈ pending t' → id ∈ pending (correlations m) ∧ ¬ keeps id a ∨ ∃ b, b ∈ k ∧ keeps id b) →
  grows (correlations m) t' →
  run_ok (mkRun m (ts1 ++ (a :: k) :: ts2)) →
  run_ok (mkRun (with_table m t') (ts1 ++ (new ++ k) :: ts2)) ∧ grows (correlations m) t'.
Proof.
  intros En Hc Hf Hs Hnew Hp Hg Hok. pose proof Hok as [Hn Ho Hfr Hse Hshape Hkept]. cbn [run_mesh tasks] in *.
  assert (shape (a :: k)) as Hsh by (apply Hshape; set_solver). split; [|done].
  split; cbn [run_mesh tasks with_table correlations]; rewrite ?En; try done.
  - intros id. rewrite <-Ho. rewrite !held_mid, fmap_app, list_sum_app. cbn [fmap list_fmap list_sum]. specialize (Hc id Hok).
    change (foldr Nat.add 0%nat) with list_sum in *. unfold list_sum in *. cbn [foldr] in *. lia.
  - intros id f [H|[Ha ->]]%Hf; [by apply Hfr|done].
  - intros b. rewrite elem_mid, elem_of_app. intros [[Hb|Hb]|Hb].
    + apply (Hs b Hb), Hse, elem_mid. left. by left.
    + apply Hse, elem_mid. left. by right.
    + apply Hse, elem_mid. by right.
  - intros x. rewrite elem_of_app, elem_of_cons. intros [Hx|[->|Hx]]; [apply Hshape; set_solver| |apply Hshape; set_solver].
    destruct Hsh as [_ Hk]. clear -Hk Hnew. induction new as [|b new IH]; [done|]. cbn. split.
    + destruct (Hnew b) as (i & o & ->); [by left|done].
    + apply IH. intros c Hc. apply Hnew. by right.
  - intros id [[Hid Hna]|(b & Hb & Hkb)]%Hp.
    + destruct (Hkept id Hid) as (b & [[->|Hb]%elem_of_cons|Hb]%elem_mid & Hkb); [done| |]; exists b; rewrite elem_mid, elem_of_app; auto.
    + exists b. rewrite elem_mid, elem_of_app. auto.
Qed.

Lemma table_plain_ok m t' ts1 a k ts2 :
  next_id t' = next_id (correlations m) →
  (∀ id, run_ok (mkRun m (ts1 ++ (a :: k) :: ts2)) → in_table id t' = (holds id a + in_table id (correlations m))%nat) →
  (∀ id f, answers t' !! id = Some f → answers (correlations m) !! id = Some f ∨ sends_answer a ∧ a = AFinish id (Some f)) →
  (∀ id, id ∈ pending t' → id ∈ pending (correlations m) ∧ ¬ keeps id a ∨ ∃ b, b ∈ k ∧ keeps id b) →
  grows (correlations m) t' →
  run_ok (mkRun m (ts1 ++ (a :: k) :: ts2)) →
  run_ok (mkRun (with_table m t') (ts1 ++ k :: ts2)) ∧ grows (correlations m) t'.
Proof. intros En Hc Hf Hp Hg Hok. apply (table_act_ok m t' ts1 a k []); try done; by intros b Hb%elem_of_nil. Qed.

Lemma in_table_none id t : in_table id t = 0%nat → id ∉ pending t ∧ answers t !! id = None ∧ id ∉ closed t.
Proof.
  unfold in_table, count. destruct (decide (id ∈ pending t)), (decide (is_Some (answers t !! id))), (decide (id ∈ closed t)); intros H; try lia.
  split_and!; [done| |done]. by destruct (answers t !! id) eqn:E; [destruct n0; eexists|].
Qed.

(** What waits is neither answered nor closed. *)
Lemma pending_alone r id :
  run_ok r → id ∈ pending (correlations (run_mesh r)) →
  answers (correlations (run_mesh r)) !! id = None ∧ id ∉ closed (correlations (run_mesh r)).
Proof.
  intros Hok Hid. pose proof (ro_one r Hok id) as H1. unfold in_table in H1. rewrite (count_true (id ∈ pending _)) in H1 by done.
  unfold count in H1. destruct (decide (is_Some _)) as [|Hn], (decide (id ∈ closed _)) as [|]; try (destruct (decide (1 <= id ∧ _)); lia).
  split; [|done]. destruct (answers _ !! id); [destruct Hn; by eexists|done].
Qed.

(** Another id's places are the same. *)
Lemma in_table_same id t t' :
  (id ∈ pending t ↔ id ∈ pending t') → answers t !! id = answers t' !! id → (id ∈ closed t ↔ id ∈ closed t') → in_table id t = in_table id t'.
Proof. intros H1 H2 H3. unfold in_table. rewrite (count_iff _ _ H1), (count_iff _ _ H3). by rewrite H2. Qed.

Lemma route_check_push m f n p : route_check m f = Ok (n, p) → peers m !! n = Some p ∧ alive p = true.
Proof.
  unfold route_check. destruct (frame_target_node f) as [n'|]; [|done]. case_bool_decide; [done|].
  destruct (peers m !! n') as [q|] eqn:E; [|done]. destruct (alive q) eqn:Ea; [|done]. by intros [= <- <-].
Qed.

(** A route that fails leaves the guard's cleanup to do. *)
Lemma fail_ok m ts1 a ask ts2 :
  (∀ id, holds id a = 0%nat) → (∀ id, ¬ keeps id a) →
  run_ok (mkRun m (ts1 ++ (a :: waits ask) :: ts2)) →
  run_ok (mkRun m (ts1 ++ on_fail ask :: ts2)) ∧ grows (correlations m) (correlations m).
Proof.
  intros Hh Hk. apply quiet_ok; [done| | | |].
  - intros id. destruct ask as [j|]; cbn; by rewrite Hh.
  - intros b Hb. right. destruct ask as [j|]; [|by apply elem_of_nil in Hb].
    by apply elem_of_cons in Hb as [->|[->|Hb%elem_of_nil]%elem_of_cons].
  - intros _. by destruct ask.
  - intros id b Hi Hb Hkb. apply elem_of_cons in Hb as [->|Hb]; [by destruct (Hk id)|]. destruct ask as [j|]; [|by apply elem_of_nil in Hb].
    apply list_elem_of_singleton in Hb as ->. exists (ATake j None). split; [set_solver|done].
Qed.

(** One place, and none for an id that was not taken. *)
Lemma stage_unique r id : run_ok r →
  (held id (tasks r) <= 1)%nat ∧
  if decide (1 <= id ∧ id <= next_id (correlations (run_mesh r)))
  then ∃ st, at_stage id r st ∧ ∀ st', at_stage id r st' → st' = st
  else ∀ st, ¬ at_stage id r st.
Proof.
  intros Hok. pose proof (ro_one r Hok id) as H1. unfold in_table, count in H1.
  destruct (decide (1 <= id ∧ _)) as [|];
    destruct (decide (id ∈ pending (correlations (run_mesh r)))) as [|], (decide (is_Some (answers (correlations (run_mesh r)) !! id))) as [|],
      (decide (id ∈ closed (correlations (run_mesh r)))) as [|]; try lia; (split; [lia|]).
  - exists Waiting. split; [done|]. intros [| | |] H; cbn in H; (done || lia).
  - exists Answered. split; [done|]. intros [| | |] H; cbn in H; (done || lia).
  - exists GivenUp. split; [done|]. intros [| | |] H; cbn in H; (done || lia).
  - exists Held. split; [cbn; lia|]. intros [| | |] H; cbn in H; (done || lia).
  - intros [| | |] H; cbn in H; (done || lia).
Qed.

Lemma act_ok m a k m' k' ts1 ts2 :
  act m a k m' k' → run_ok (mkRun m (ts1 ++ (a :: k) :: ts2)) →
  run_ok (mkRun m' (ts1 ++ k' :: ts2)) ∧ grows (correlations m) (correlations m').
Proof.
  intros Hact Hok. assert (shape (a :: k)) as Hsh by (apply (ro_shape _ Hok); cbn; set_solver).
  assert (a ∈ mjoin (tasks (mkRun m (ts1 ++ (a :: k) :: ts2)))) as Ha by (cbn; apply elem_mid; left; left).
  assert (∀ id, holds id a = 1%nat → in_table id (correlations m) = 0%nat) as Halone.
  { intros id Hh. exact (held_alone _ id a Hok Ha Hh). }
  assert (∀ id, id ∈ pending (correlations m) → answers (correlations m) !! id = None ∧ id ∉ closed (correlations m)) as Hpend.
  { intros id. exact (pending_alone _ id Hok). }
  set (t := correlations m) in *. destruct Hsh as [Hsa Hsk].
  destruct Hact as [id k|id n k|f ask k n p Hc|f ask k e Hc|n f ask k p Hp Hal Hroom|n f ask k|n f ask k|id f k Hans|id k
    |id k|id o k t' Ht|id o k Ht|id f k|id k|n k]; cbn [with_table correlations]; fold t.
  - (* insert *)
    apply table_plain_ok with (a := AInsert id); [done| | | | |done]; cbn [pending insert_pending].
    + intros i _. cbn. case_decide as E; [subst i|].
      * specialize (Halone id ltac:(cbn; by rewrite decide_True)). apply in_table_none in Halone as (H1 & H2 & H3).
        assert (¬ is_Some (answers t !! id)) as Hn by (rewrite H2; by intros []).
        unfold in_table. cbn. rewrite !(count_false (id ∈ closed t)), !(count_false (is_Some _)), (count_false (id ∈ pending t)), count_true by (done || set_solver). done.
      * apply in_table_same; cbn; [set_solver|done..].
    + intros i f Hf. by left.
    + intros i [->%elem_of_singleton|Hi]%elem_of_union; [right; by exists (AWait id)|left; split; [done|by intros []]].
    + split_and!; cbn; [reflexivity|done|done].
  - (* target *)
    apply table_plain_ok with (a := ATarget id n); [done| | | | |done]; cbn.
    + done.
    + intros i f. by left.
    + intros i Hi. left. split; [done|by intros []].
    + split_and!; cbn; [reflexivity|done|done].
  - (* check *)
    apply quiet_ok with (l := ACheck f ask :: k); try done.
    + intros b [->|Hb]%elem_of_cons; [by right|left; by right].
    + intros i b Hi [->|Hb]%elem_of_cons Hk; [done|]. exists b. split; [by right|done].
  - (* refused *)
    cbn in Hsa. subst k. by apply fail_ok in Hok; [|done|intros ? []].
  - (* push *)
    apply quiet_ok with (l := APush n f ask :: k); try done; [intros b Hb; left; by right|].
    intros i b Hi [->|Hb]%elem_of_cons Hk; [done|]. by exists b.
  - apply quiet_ok with (l := APush n f ask :: k); try done; [intros b Hb; left; by right|].
    intros i b Hi [->|Hb]%elem_of_cons Hk; [done|]. by exists b.
  - cbn in Hsa. subst k. by apply fail_ok in Hok; [|done|intros ? []].
  - (* answered *)
    cbn in Hsa. subst k. apply quiet_ok with (l := [AWait id]); try done; [by intros b Hb%elem_of_nil|].
    intros i b Hi [->|Hb%elem_of_nil]%elem_of_cons Hk; [|done]. cbn in Hk. subst i. fold t in Hi, Hans.
    destruct (Hpend id Hi). congruence.
  - (* gone *)
    cbn in Hsa. subst k. apply quiet_ok with (l := [AWait id]); try done.
    + intros b [->|[->|Hb%elem_of_nil]%elem_of_cons]%elem_of_cons; [by right..|done].
    + intros i b Hi [->|Hb%elem_of_nil]%elem_of_cons Hk; [|done]. exists (ATake id None). split; [set_solver|done].
  - (* del *)
    apply table_plain_ok with (a := ADel id); [done| | | | |done]; cbn.
    + done.
    + intros i f. by left.
    + intros i Hi. left. split; [done|by intros []].
    + split_and!; cbn; [reflexivity|done|done].
  - (* take *)
    unfold remove_pending in Ht. case_bool_decide as Hid; [|done]. injection Ht as <-.
    apply (table_act_ok m _ ts1 (ATake id o) k [AFinish id o]); [done| | | | | | |done]; cbn.
    + intros i _. case_decide as E; [subst i|].
      * unfold in_table. cbn. rewrite (count_false (id ∈ _ ∖ _)) by set_solver. by rewrite (count_true (id ∈ pending _)).
      * apply in_table_same; cbn; [set_solver|done..].
    + intros i f. by left.
    + intros b [->|Hb%elem_of_nil]%elem_of_cons; [done|done].
    + intros b [->|Hb%elem_of_nil]%elem_of_cons; [by eexists _, _|done].
    + intros i [Hi Hne]%elem_of_difference. left. split; [done|]. set_solver.
    + split_and!; cbn; [reflexivity|done|done].
  - (* miss *)
    unfold remove_pending in Ht. case_bool_decide as Hid; [done|].
    apply quiet_ok with (l := ATake id o :: k); try done; [intros b Hb; left; by right|].
    intros i b Hi [->|Hb]%elem_of_cons Hk; [cbn in Hk; by subst i|]. by exists b.
  - (* send *)
    specialize (Halone id ltac:(cbn; by rewrite decide_True)). apply in_table_none in Halone as (H1 & H2 & H3).
    pose proof (ro_sends _ Hok _ Ha) as Hs.
    apply table_plain_ok with (a := AFinish id (Some f)); [done| | | | |done]; cbn.
    + intros i _. case_decide as E; [subst i|].
      * assert (¬ is_Some (answers t !! id)) as Hn by (rewrite H2; by intros []).
        unfold in_table. cbn. rewrite lookup_insert_eq. rewrite (count_true (is_Some (Some f))) by done.
        fold t. rewrite !(count_false (id ∈ closed t)), (count_false (is_Some _)), !(count_false (id ∈ pending t)) by done. done.
      * apply in_table_same; cbn; [done|by rewrite lookup_insert_ne|done].
    + intros i g Hg. apply lookup_insert_Some in Hg as [[<- <-]|[_ Hg]]; [right; by split|by left].
    + intros i Hi. left. split; [done|by intros []].
    + split_and!; cbn; [reflexivity|by apply insert_subseteq|done].
  - (* close *)
    specialize (Halone id ltac:(cbn; by rewrite decide_True)). apply in_table_none in Halone as (H1 & H2 & H3).
    apply table_plain_ok with (a := AFinish id None); [done| | | | |done]; cbn.
    + intros i _. case_decide as E; [subst i|].
      * assert (¬ is_Some (answers t !! id)) as Hn by (rewrite H2; by intros []).
        unfold in_table. cbn. rewrite (count_true (id ∈ {[id]} ∪ _)) by set_solver.
        fold t. rewrite !(count_false (is_Some _)), (count_false (id ∈ closed t)), !(count_false (id ∈ pending t)) by done. done.
      * apply in_table_same; cbn; [done|done|set_solver].
    + intros i g. by left.
    + intros i Hi. left. split; [done|by intros []].
    + split_and!; cbn; [reflexivity|done|set_solver].
  - (* unpeer *)
    apply quiet_ok with (l := AUnpeer n :: k); try done; [intros b Hb; left; by right|].
    intros i b Hi [->|Hb]%elem_of_cons Hk; [done|]. by exists b.
Qed.

(** ** Steps *)

Lemma route_table send m f : correlations (route_with send m f).2 = correlations m.
Proof. unfold route_with. by repeat case_match. Qed.

(** A task starts, and holds no sender. *)
Lemma new_task_ok m m' l ts :
  correlations m' = correlations m → (∀ a, a ∈ l → sends_answer a ∧ ∀ id, holds id a = 0%nat) → shape l →
  run_ok (mkRun m ts) → run_ok (mkRun m' (l :: ts)).
Proof.
  intros E Hl Hsh [Hn Ho Hf Hse Hshape Hkept]. cbn [run_mesh tasks] in *. split; cbn [run_mesh tasks]; rewrite ?E; try done.
  - intros id. rewrite <-Ho. rewrite held_cons.
    assert (list_sum (holds id <$> l) = 0%nat) as ->; [|done].
    clear -Hl. induction l as [|a l IH]; [done|]. cbn. destruct (Hl a ltac:(left)) as [_ ->]. apply IH. intros b Hb. apply Hl. by right.
  - intros a. rewrite elem_cons. intros [Ha|Ha]; [by apply Hl|by apply Hse].
  - intros x [->|Hx]%elem_of_cons; [done|by apply Hshape].
  - intros id (a & Ha & Hk)%Hkept. exists a. rewrite elem_cons. auto.
Qed.

Lemma fail_actions_ok ff ids a :
  (∀ id, answers_ask id (ff id)) → a ∈ fail_actions ff ids → sends_answer a ∧ ∀ id, holds id a = 0%nat.
Proof. intros Hf (id & [->|[->|Hn%elem_of_nil]%elem_of_cons]%elem_of_cons & _)%list_elem_of_bind; [done|split; [apply Hf|done]|done]. Qed.

(** Tasks without a route or a wait have the shape. *)
Lemma plain_shape l : (∀ a, a ∈ l → match a with ADel _ | ATake _ _ | AUnpeer _ => True | _ => False end) → shape l.
Proof.
  induction l as [|a l IH]; intros H; [done|]. split; [|apply IH; intros b Hb; apply H; by right].
  specialize (H a ltac:(left)). by destruct a.
Qed.

Lemma fail_actions_plain ff ids a : a ∈ fail_actions ff ids → match a with ADel _ | ATake _ _ | AUnpeer _ => True | _ => False end.
Proof. by intros (id & [->|[->|Hn%elem_of_nil]%elem_of_cons]%elem_of_cons & _)%list_elem_of_bind. Qed.

(** The id of a new ask is in no place yet. *)
Lemma fresh_id r : run_ok r →
  let id := (take_id (correlations (run_mesh r))).1 in held id (tasks r) = 0%nat ∧ in_table id (correlations (run_mesh r)) = 0%nat.
Proof.
  intros [Hn Ho _ _ _ _]. cbn. specialize (Ho (next_id (correlations (run_mesh r)) + 1)). rewrite count_false in Ho by lia. lia.
Qed.

Lemma ask_ok m ts from to msg b :
  run_ok (mkRun m ts) →
  run_ok (mkRun (with_table m (take_id (correlations m)).2) (ask_actions (take_id (correlations m)).1 from to msg b :: ts)).
Proof.
  intros Hok. destruct (fresh_id _ Hok) as [F1 F2]. destruct Hok as [Hn Ho Hf Hse Hshape Hkept]. cbn [run_mesh tasks take_id fst] in *.
  set (t := correlations m) in *. split; cbn [run_mesh tasks with_table correlations take_id fst snd next_id answers]; try done.
  - lia.
  - intros id. rewrite held_cons. specialize (Ho id).
    assert (in_table id (mkTable (next_id t + 1) (pending t) (targets t) (answers t) (closed t)) = in_table id t) as -> by done.
    unfold ask_actions. cbn [fmap list_fmap holds]. change (list_sum [?x; 0; 0; 0]%nat) with (x + 0)%nat.
    destruct (decide (next_id t + 1 = id)) as [<-|Hne].
    + rewrite count_true by lia. rewrite F1, F2. done.
    + rewrite (count_iff _ (1 <= id ∧ id <= next_id t)) by lia. rewrite <-Ho. cbn. lia.
  - intros a. rewrite elem_cons. intros [Ha|Ha]; [|by apply Hse]. unfold ask_actions in Ha.
    repeat (apply elem_of_cons in Ha as [->|Ha]; [done|]). by apply elem_of_nil in Ha.
  - intros x [->|Hx]%elem_of_cons; [|by apply Hshape]. cbn. split_and!; try done. set_solver.
  - intros id (a & Ha & Hk)%Hkept. exists a. rewrite elem_cons. auto.
Qed.

Lemma mesh_step_ok r r' : mesh_step r r' → run_ok r → run_ok r' ∧ grows (correlations (run_mesh r)) (correlations (run_mesh r')).
Proof.
  intros [m m' ts1 a k k' ts2 Hact|from to msg b m ts Hne|f m ts|f m ts|env m ts|n ids m ts|ids ns m ts|n p m ts] Hok; cbn [run_mesh].
  - by eapply act_ok.
  - split; [by apply ask_ok|]. split_and!; cbn; [lia|done|done].
  - split; [|apply table_grows_refl]. apply (new_task_ok m); [done| |done|done]. by intros a ->%list_elem_of_singleton.
  - unfold route. rewrite route_table. split; [|apply table_grows_refl]. destruct Hok. by split; cbn [run_mesh tasks]; rewrite ?route_table.
  - split; [|apply table_grows_refl]. apply (new_task_ok m); [done| | |done].
    + intros a Ha. unfold demux_actions in Ha. destruct (frame env) eqn:Ef; try (by apply elem_of_nil in Ha);
        by apply elem_of_cons in Ha as [->|[->|Ha%elem_of_nil]%elem_of_cons].
    + unfold demux_actions. by destruct (frame env).
  - split; [|apply table_grows_refl]. apply (new_task_ok m); [done| | |done].
    + intros a. by apply fail_actions_ok.
    + apply plain_shape, fail_actions_plain.
  - split; [|apply table_grows_refl]. apply (new_task_ok m); [done| | |done].
    + intros a [Ha|(n & -> & _)%list_elem_of_fmap]%elem_of_app; [by eapply fail_actions_ok in Ha|done].
    + apply plain_shape. intros a [Ha|(n & -> & _)%list_elem_of_fmap]%elem_of_app; [by eapply fail_actions_plain|done].
  - split; [|apply table_grows_refl]. destruct Hok. by split.
Qed.

Lemma mesh_reachable_ok r r' : rtc mesh_step r r' → run_ok r → run_ok r' ∧ grows (correlations (run_mesh r)) (correlations (run_mesh r')).
Proof.
  induction 1 as [r|r1 r2 r3 Hs _ IH]; intros H; [split; [done|apply table_grows_refl]|].
  destruct (mesh_step_ok _ _ Hs H) as [H2 G2]. destruct (IH H2) as [H3 G3]. split; [done|by eapply table_grows_trans].
Qed.

(** *** Tasks that run without interference are the calls *)

Lemma complete_alone m f id k ts :
  rtc mesh_step (mkRun m ((complete_actions f id ++ k) :: ts)) (mkRun (with_table m (complete id f (correlations m)).2) (k :: ts)).
Proof.
  eapply rtc_l; [apply (ms_act _ _ [] _ _ _ _ (x_del _ _ _))|]. cbn [app]. unfold complete.
  destruct (remove_pending id (remove_target id (correlations m))) as [t|] eqn:E.
  - eapply rtc_l; [apply (ms_act _ _ [] _ _ _ _ (x_take (with_table m (remove_target id (correlations m))) id _ _ t E))|]. apply rtc_once. exact (ms_act _ _ [] _ _ _ _ (x_send (with_table m t) _ _ _)).
  - apply rtc_once. exact (ms_act _ _ [] _ _ _ _ (x_miss (with_table m (remove_target id (correlations m))) id _ _ E)).
Qed.

Lemma cleanup_alone m id k ts :
  rtc mesh_step (mkRun m ((guard id ++ k) :: ts)) (mkRun (with_table m (cleanup id (correlations m))) (k :: ts)).
Proof.
  eapply rtc_l; [apply (ms_act _ _ [] _ _ _ _ (x_del _ _ _))|]. cbn [app]. unfold cleanup.
  destruct (remove_pending id (remove_target id (correlations m))) as [t|] eqn:E.
  - eapply rtc_l; [apply (ms_act _ _ [] _ _ _ _ (x_take (with_table m (remove_target id (correlations m))) id _ _ t E))|]. apply rtc_once. exact (ms_act _ _ [] _ _ _ _ (x_close (with_table m t) _ _)).
  - apply rtc_once. exact (ms_act _ _ [] _ _ _ _ (x_miss (with_table m (remove_target id (correlations m))) id _ _ E)).
Qed.

Lemma register_alone m id n k ts :
  rtc mesh_step (mkRun m ((AInsert id :: ATarget id n :: k) :: ts))
    (mkRun (with_table m (insert_target id n (insert_pending id (correlations m)))) (k :: ts)).
Proof.
  eapply rtc_l; [apply (ms_act _ _ [] _ _ _ _ (x_insert _ _ _))|]. apply rtc_once. exact (ms_act _ _ [] _ _ _ _ (x_target (with_table m (insert_pending id (correlations m))) _ _ _)).
Qed.

Lemma fail_alone ff ids m k ts :
  rtc mesh_step (mkRun m ((fail_actions ff ids ++ k) :: ts)) (mkRun (with_table m (complete_all ff ids (correlations m))) (k :: ts)).
Proof.
  revert m. induction ids as [|id ids IH]; intros m; [by destruct m|].
  etrans; [apply (complete_alone m (ff id) id (fail_actions ff ids ++ k))|]. exact (IH _).
Qed.

(** What completing a list of ids does. *)
Lemma complete_all_spec ff ids t :
  let t' := complete_all ff ids t in
  next_id t' = next_id t ∧ closed t' = closed t ∧
  (∀ id, id ∈ pending t' ↔ id ∈ pending t ∧ id ∉ ids) ∧
  (∀ id, targets t' !! id = if decide (id ∈ ids) then None else targets t !! id) ∧
  ∀ id, answers t' !! id = if decide (id ∈ ids ∧ id ∈ pending t) then Some (ff id) else answers t !! id.
Proof.
  cbn zeta. unfold complete_all. revert t. induction ids as [|i ids IH]; intros t; cbn [foldl].
  { split_and!; [done|done|set_solver|done|]. intros id. rewrite decide_False; [done|set_solver]. }
  destruct (IH (complete i (ff i) t).2) as (En & Ec & Ep & Et & Ea). clear IH. unfold complete, remove_pending in *.
  cbn [remove_target pending] in *. case_bool_decide as Hi; cbn [snd next_id pending targets answers closed remove_target deliver] in *; rewrite En, Ec; (split_and!; [done|done|..]).
  - intros id. rewrite Ep. set_solver.
  - intros id. rewrite Et. destruct (decide (id = i)) as [->|Hne].
    + rewrite lookup_delete_eq, (decide_True (P := i ∈ i :: ids)) by set_solver. by destruct (decide _).
    + rewrite lookup_delete_ne by done. destruct (decide (id ∈ ids)), (decide (id ∈ i :: ids)); set_solver.
  - intros id. rewrite Ea. destruct (decide (id = i)) as [->|Hne].
    + rewrite lookup_insert_eq, decide_False by set_solver. by rewrite decide_True by set_solver.
    + rewrite lookup_insert_ne by done.
      destruct (decide (id ∈ ids ∧ id ∈ pending t ∖ {[i]})), (decide (id ∈ i :: ids ∧ id ∈ pending t)); set_solver.
  - intros id. rewrite Ep. set_solver.
  - intros id. rewrite Et. destruct (decide (id = i)) as [->|Hne].
    + rewrite lookup_delete_eq, (decide_True (P := i ∈ i :: ids)) by set_solver. by destruct (decide _).
    + rewrite lookup_delete_ne by done. destruct (decide (id ∈ ids)), (decide (id ∈ i :: ids)); set_solver.
  - intros id. rewrite Ea.
    destruct (decide (id ∈ ids ∧ id ∈ pending t)), (decide (id ∈ i :: ids ∧ id ∈ pending t)) as [[Hd ?]|]; try done; [set_solver|].
    exfalso. apply elem_of_cons in Hd as [->|?]; tauto.
Qed.

Lemma targeting_ids n (t : CorrelationTable) id :
  id ∈ fst <$> filter (λ kv : Z * NodeId, kv.2 = n) (map_to_list (targets t)) ↔ targets t !! id = Some n.
Proof.
  rewrite list_elem_of_fmap. split.
  - intros ([i n'] & -> & [Hn Hi]%list_elem_of_filter). cbn in *. subst. by apply elem_of_map_to_list.
  - intros H. exists (id, n). split; [done|]. apply list_elem_of_filter. split; [done|]. by apply elem_of_map_to_list.
Qed.

(** The loss of a peer answers exactly the asks that wait for it. *)
Lemma peer_lost_spec n m :
  (∀ id, id ∈ pending (correlations m) → answers (correlations m) !! id = None) →
  let t := correlations m in let t' := correlations (peer_lost n m) in
  ∀ id, id ∈ pending t →
    closed t' = closed t ∧
    (targets t !! id = Some n → id ∉ pending t' ∧ answers t' !! id = Some (peer_disconnected n id)) ∧
    (targets t !! id ≠ Some n → id ∈ pending t' ∧ answers t' !! id = None).
Proof.
  intros Hok. cbn zeta. intros id Hid.
  destruct (complete_all_spec (peer_disconnected n) (fst <$> filter (λ kv : Z * NodeId, kv.2 = n) (map_to_list (targets (correlations m))))
    (correlations m)) as (_ & Ec & Ep & _ & Ea).
  unfold peer_lost, fail_targeting_node. cbn [with_table correlations]. pose proof (targeting_ids n (correlations m) id) as Hti.
  split; [exact Ec|]. rewrite Ep, Ea. split; intros Ht.
  - split; [tauto|]. by rewrite decide_True by tauto.
  - split; [tauto|]. rewrite decide_False by tauto. by apply Hok.
Qed.

Lemma shutdown_spec m :
  pending (correlations (shutdown m)) = ∅ ∧
  ∀ id, id ∈ pending (correlations m) → answers (correlations (shutdown m)) !! id = Some (mesh_shutdown id).
Proof.
  destruct (complete_all_spec mesh_shutdown (elements (pending (correlations m))) (correlations m)) as (_ & _ & Ep & _ & Ea).
  unfold shutdown, fail_all_with. cbn [correlations]. split.
  - apply set_eq. intros id. rewrite Ep. set_solver.
  - intros id Hid. rewrite Ea, decide_True; [done|]. by rewrite elem_of_elements.
Qed.

(** ** The dialer *)

Lemma pauses_end n entry d m :
  has_peer m entry = false → 0 <= attempt d <= 10 → (Z.to_nat (10 - attempt d) < n)%nat →
  pauses n entry d m = Some (reconnect_backoff ∘ Z.of_nat <$> seq (Z.to_nat (attempt d) + 1) (Z.to_nat (10 - attempt d))).
Proof.
  revert d m. induction n as [|n IH]; intros d m Hp Hd Hn; [lia|]. cbn [pauses]. unfold dial_round. rewrite Hp.
  change RECONNECT_MAX_ATTEMPTS with 10. cbn [Z.eqb negb andb]. rewrite Z.min_l by lia. destruct (Z.ltb_spec 10 (attempt d + 1)) as [Hlt|Hge].
  - assert (Z.to_nat (10 - attempt d) = 0%nat) as -> by lia. by destruct (was_connected d).
  - rewrite (IH (mkDialer (attempt d + 1) false)); cbn [attempt]; [|by destruct (was_connected d)|lia|lia].
    cbn [mbind option_bind]. assert (Z.to_nat (10 - attempt d) = S (Z.to_nat (10 - (attempt d + 1)))) as -> by lia.
    cbn [seq fmap list_fmap]. assert (Z.to_nat (attempt d + 1) + 1 = S (Z.to_nat (attempt d) + 1))%nat as -> by lia.
    do 2 f_equal. cbn [compose]. f_equal. lia.
Qed.
