(* ===== verification/ClusterSupervisor.v ===== *)
(** * Supervision and placement across nodes

    [placement.rs] and [supervisor.rs] of [crates/mty-runtime/src/cluster/].
    [iter] lists a [HashMap] in the order it iterates.  Times are nanoseconds;
    every planning reads the clock once.  The text of a [Dead] state is the
    data it is formatted from.  The channel to the caller is not modelled:
    an operation answers its events.  What the histories say of the restarts
    is proved after the operations. *)

From stdpp Require Import base list strings numbers gmap sets sorting.
From S2P Require Import Prelude Semver ClusterTls ClusterWire.

Local Open Scope Z_scope.
Local Open Scope list_scope.
Notation length := List.length (only parsing).

(** ** Children *)

Inductive RestartPolicy : Set := Permanent | Transient | Temporary.
Inductive ExitReason : Set := Normal | Crashed (why : string) | ExitNoProc.
Inductive RestartStrategy : Set := OneForOne | OneForAll | RestForOne.

Record ChildSpec : Set := mkSpec { addr : AgentAddr; restart : RestartPolicy; max_restarts : Z; window_ms : Z }.

Inductive DeadReason : Set := Declined (p : RestartPolicy) (r : ExitReason) | Breaker (attempts window_ms : Z).
Inductive ChildState : Set := Running | Restarting | NoProc | Dead (why : DeadReason).

#[export] Instance RestartPolicy_eq_dec : EqDecision RestartPolicy.
Proof. solve_decision. Defined.
#[export] Instance ExitReason_eq_dec : EqDecision ExitReason.
Proof. solve_decision. Defined.
#[export] Instance DeadReason_eq_dec : EqDecision DeadReason.
Proof. solve_decision. Defined.
#[export] Instance ChildState_eq_dec : EqDecision ChildState.
Proof. solve_decision. Defined.

Definition should_restart (p : RestartPolicy) (r : ExitReason) : bool :=
  match p with
  | Permanent => true
  | Temporary => false
  | Transient => match r with Normal => false | _ => true end
  end.

Record ChildRecord : Set := mkChild { spec : ChildSpec; state : ChildState; restart_history : list Z; sequence : Z }.

Definition with_state (c : ChildRecord) (s : ChildState) : ChildRecord := mkChild (spec c) s (restart_history c) (sequence c).

(** ** Placement *)

Record PlacementContext : Type := mkCtx { available_nodes : list NodeId; current_node : option NodeId; child_count_per_node : gmap NodeId nat }.

(** The order of strings. *)
Fixpoint str_lt (a b : list Z) : bool :=
  match a, b with
  | [], _ :: _ => true
  | x :: a, y :: b => (x <? y) || (x =? y) && str_lt a b
  | _, [] => false
  end.

Definition load (ctx : PlacementContext) (n : NodeId) : nat := default 0%nat (child_count_per_node ctx !! n).

Definition better (ctx : PlacementContext) (best : option (NodeId * nat)) (n : NodeId) : option (NodeId * nat) :=
  let count := load ctx n in
  match best with
  | None => Some (n, count)
  | Some (b, c) =>
      if (count <? c)%nat then Some (n, count) else if (count =? c)%nat && str_lt n b then Some (n, count) else best
  end.

Definition least_loaded (ctx : PlacementContext) : option NodeId := fst <$> foldl (better ctx) None (available_nodes ctx).

Definition PlacementPolicy : Type := ChildSpec → PlacementContext → NodeId.

Definition or_current (ctx : PlacementContext) (o : option NodeId) : NodeId :=
  match o with Some n => n | None => default [108; 111; 99; 97; 108] (current_node ctx) end.

Definition LeastLoadedPolicy : PlacementPolicy := λ _ ctx, or_current ctx (least_loaded ctx).

Definition StickyPolicy : PlacementPolicy := λ _ ctx,
  match current_node ctx with
  | Some current => if bool_decide (current ∈ available_nodes ctx) then current else or_current ctx (least_loaded ctx)
  | None => or_current ctx (least_loaded ctx)
  end.

Definition StaticPolicy (n : NodeId) : PlacementPolicy := λ _ _, n.

(** ** The supervisor *)

Inductive SupervisorEvent : Type :=
  | RestartRequested (child : AgentAddr) (siblings : list AgentAddr) (reason : ExitReason) (placement_hint : option NodeId)
  | CircuitBreakerTripped (child : AgentAddr) (attempts window_ms : Z)
  | NodeDisconnect (n : NodeId) (lost_children : Z).

Record Inner : Type := mkInner {
  children : gmap AgentAddr ChildRecord; strategy : RestartStrategy; next_sequence : Z; nodes : list NodeId; policy : option PlacementPolicy }.

Definition with_children (s : Inner) (c : gmap AgentAddr ChildRecord) : Inner := mkInner c (strategy s) (next_sequence s) (nodes s) (policy s).

Definition new_supervisor (st : RestartStrategy) : Inner := mkInner ∅ st 0 [] None.
Definition set_placement_policy (p : PlacementPolicy) (s : Inner) : Inner := mkInner (children s) (strategy s) (next_sequence s) (nodes s) (Some p).
Definition set_available_nodes (ns : list NodeId) (s : Inner) : Inner := mkInner (children s) (strategy s) (next_sequence s) ns (policy s).

Definition add_child (sp : ChildSpec) (s : Inner) : Inner :=
  mkInner (<[addr sp := mkChild sp Running [] (next_sequence s)]> (children s)) (strategy s) (next_sequence s + 1) (nodes s) (policy s).

Definition state_of (a : AgentAddr) (s : Inner) : option ChildState := state <$> children s !! a.

Section supervisor.
Variable iter : gmap AgentAddr ChildRecord → list (AgentAddr * ChildRecord).

(** The siblings the strategy wakes; [None] returns early. *)
Definition wake_with (s : Inner) (failed : AgentAddr) : option (list AgentAddr) :=
  match strategy s with
  | OneForOne => Some []
  | OneForAll => Some (List.filter (λ k, negb (bool_decide (k = failed))) (fst <$> iter (children s)))
  | RestForOne =>
      f ← children s !! failed;
      Some ((λ kv, addr (spec kv.2)) <$>
            List.filter (λ kv, (sequence f <? sequence kv.2) && negb (bool_decide (addr (spec kv.2) = failed))) (iter (children s)))
  end.

(** Counting the load skips the children that are gone. *)
Definition child_counts (s : Inner) : gmap NodeId nat :=
  foldl (λ counts kv,
    match state kv.2 with
    | Dead _ | NoProc => counts
    | _ => let n := node (addr (spec kv.2)) in <[n := S (default 0%nat (counts !! n))]> counts
    end) ∅ (iter (children s)).

Definition is_noproc (c : ChildState) : bool := match c with NoProc => true | _ => false end.

(** Told to restart, unless unreachable. *)
Definition restarting (c : ChildRecord) : ChildRecord := if is_noproc (state c) then c else with_state c Restarting.

Definition wake (cs : gmap AgentAddr ChildRecord) (sibs : list AgentAddr) : gmap AgentAddr ChildRecord :=
  foldl (λ cs a, alter restarting a cs) cs sibs.

Definition window_ns (sp : ChildSpec) : Z := window_ms sp * 1000000.

Definition hint (s : Inner) (sp : ChildSpec) : option NodeId :=
  p ← policy s; Some (p sp (mkCtx (nodes s) (Some (node (addr sp))) (child_counts s))).

(** [plan_restart_locked] *)
Definition plan_restart (s : Inner) (failed : AgentAddr) (reason : ExitReason) (now : Z) : Inner * list SupervisorEvent :=
  match wake_with s failed, children s !! failed with
  | Some sibs, Some rec =>
      let sp := spec rec in
      if negb (should_restart (restart sp) reason)
      then (with_children s (<[failed := with_state rec (Dead (Declined (restart sp) reason))]> (children s)), [])
      else
        let history := List.filter (λ t, now - t <? window_ns sp) (restart_history rec) in
        let attempts := Z.of_nat (length history) mod 2 ^ 32 in
        if max_restarts sp <=? attempts then
          (with_children s (<[failed := mkChild sp (Dead (Breaker attempts (window_ms sp))) history (sequence rec)]> (children s)),
           [CircuitBreakerTripped failed attempts (window_ms sp)])
        else
          let rec' := restarting (mkChild sp (state rec) (history ++ [now]) (sequence rec)) in
          let s := with_children s (wake (<[failed := rec']> (children s)) sibs) in
          (s, [RestartRequested failed sibs reason (hint s sp)])
  | _, _ => (s, [])
  end.

(** The children of the node that were not yet unreachable. *)
Definition lost_children (s : Inner) (n : NodeId) : list AgentAddr :=
  (λ kv, addr (spec kv.2)) <$>
  List.filter (λ kv, bool_decide (node (addr (spec kv.2)) = n) && negb (is_noproc (state kv.2))) (iter (children s)).

Definition mark_noproc (n : NodeId) (c : ChildRecord) : ChildRecord :=
  if bool_decide (node (addr (spec c)) = n) && negb (is_noproc (state c)) then with_state c NoProc else c.

(** The plans of the lost children; [clock k] is the [k]-th reading. *)
Fixpoint plan_all (clock : nat → Z) (k : nat) (lost : list AgentAddr) (s : Inner) : Inner * list SupervisorEvent :=
  match lost with
  | [] => (s, [])
  | a :: lost =>
      let '(s, e1) := plan_restart s a ExitNoProc (clock k) in
      let '(s, e2) := plan_all clock (S k) lost s in
      (s, e1 ++ e2)
  end.

Definition on_node_disconnect (n : NodeId) (clock : nat → Z) (s : Inner) : Inner * list SupervisorEvent :=
  let lost := lost_children s n in
  let s := with_children s (mark_noproc n <$> children s) in
  match lost with
  | [] => (s, [])
  | _ => let '(s, evs) := plan_all clock 0 lost s in (s, NodeDisconnect n (Z.of_nat (length lost) mod 2 ^ 32) :: evs)
  end.

Definition on_child_exit (a : AgentAddr) (reason : ExitReason) (now : Z) (s : Inner) : Inner * list SupervisorEvent :=
  match children s !! a with
  | Some rec => plan_restart (with_children s (<[a := restarting rec]> (children s))) a reason now
  | None => (s, [])
  end.
End supervisor.

(** ** The circuit breaker and the placement of restarts

    [Reaches]: the states of a supervisor with, for every child, the times of
    the restarts requested since it was added.  The clock never goes back. *)

(** ** Least loaded *)

Lemma str_lt_irrefl a : str_lt a a = false.
Proof. induction a as [|x a IH]; [done|]. cbn. rewrite Z.ltb_irrefl, Z.eqb_refl. by rewrite IH. Qed.

Lemma str_lt_trans a b c : str_lt a b = true → str_lt b c = true → str_lt a c = true.
Proof.
  revert b c. induction a as [|x a IH]; intros [|y b] [|z c]; cbn; try done. rewrite !orb_true_iff, !andb_true_iff, !Z.ltb_lt, !Z.eqb_eq.
  intros [?|[-> ?]] [?|[-> ?]]; [left; lia|left; lia|left; lia|right]. split; [done|by eapply IH].
Qed.

Lemma str_lt_total a b : str_lt a b = true ∨ a = b ∨ str_lt b a = true.
Proof.
  revert b. induction a as [|x a IH]; intros [|y b]; cbn; [auto..|]. destruct (Z.lt_trichotomy x y) as [H|[->|H]].
  - left. apply orb_true_iff. left. by apply Z.ltb_lt.
  - rewrite Z.ltb_irrefl, Z.eqb_refl. cbn. destruct (IH b) as [?|[->|?]]; auto.
  - right; right. apply orb_true_iff. left. by apply Z.ltb_lt.
Qed.

(** The first of the least loaded nodes in the order of names. *)
Definition least (ctx : PlacementContext) (ns : list NodeId) (n : NodeId) : Prop :=
  n ∈ ns ∧ ∀ m, m ∈ ns → (load ctx n < load ctx m)%nat ∨ load ctx n = load ctx m ∧ (n = m ∨ str_lt n m = true).

Lemma better_least ctx ns :
  match foldl (better ctx) None ns with
  | None => ns = []
  | Some (n, c) => c = load ctx n ∧ least ctx ns n
  end.
Proof.
  induction ns as [|m ns IH] using rev_ind; [done|]. rewrite foldl_app. cbn [foldl].
  destruct (foldl (better ctx) None ns) as [[b c]|]; cbn [better].
  - destruct IH as (-> & Hin & Hleast).
    assert (∀ x, x ∈ ns ++ [m] ↔ x ∈ ns ∨ x = m) as Hx by (intros x; by rewrite elem_of_app, list_elem_of_singleton).
    destruct (Nat.ltb_spec (load ctx m) (load ctx b)); [|destruct (Nat.eqb_spec (load ctx m) (load ctx b)) as [E|E]; [destruct (str_lt m b) eqn:El|]]; cbn [andb].
    + split; [done|split; [apply Hx; by right|]]. intros x [Hm| ->]%Hx; [destruct (Hleast x Hm) as [?|[? ?]]; left; lia|auto].
    + split; [done|split; [apply Hx; by right|]]. intros x [Hm| ->]%Hx; [|auto]. destruct (Hleast x Hm) as [?|[? [->|?]]]; [left; lia|by auto with lia|].
      right. split; [lia|]. right. by eapply str_lt_trans.
    + split; [done|split; [apply Hx; by left|]]. intros x [Hm| ->]%Hx; [by apply Hleast|]. right. split; [done|].
      destruct (str_lt_total b m) as [?|[?|?]]; [auto|auto|congruence].
    + split; [done|split; [apply Hx; by left|]]. intros x [Hm| ->]%Hx; [by apply Hleast|]. left. lia.
  - subst ns. split; [done|]. split; [by apply list_elem_of_singleton|]. intros x ->%list_elem_of_singleton. auto.
Qed.

Lemma least_unique ctx ns n m : least ctx ns n → least ctx ns m → n = m.
Proof.
  intros [Hn H1] [Hm H2]. destruct (H1 m Hm) as [?|[? [?|A]]], (H2 n Hn) as [?|[? [?|B]]]; try done; try lia.
  pose proof (str_lt_trans _ _ _ A B) as C. by rewrite str_lt_irrefl in C.
Qed.

Lemma least_loaded_exact ctx n : least_loaded ctx = Some n ↔ least ctx (available_nodes ctx) n.
Proof.
  unfold least_loaded. pose proof (better_least ctx (available_nodes ctx)) as H.
  destruct (foldl (better ctx) None (available_nodes ctx)) as [[b c]|]; cbn.
  - destruct H as [_ H]. split; [by intros [= <-]|]. intros Hn. f_equal. by eapply least_unique.
  - rewrite H. split; [done|]. intros [Hn _]. exfalso. by apply elem_of_nil in Hn.
Qed.

(** ** The breaker *)

Section breaker.
Variable iter : gmap AgentAddr ChildRecord → list (AgentAddr * ChildRecord).

Definition requested (a : AgentAddr) (evs : list SupervisorEvent) : bool :=
  existsb (λ e, match e with RestartRequested c _ _ _ => bool_decide (c = a) | _ => false end) evs.

(** The times of the restarts of each child, oldest first. *)
Notation Log := (gmap AgentAddr (list Z)) (only parsing).
Definition log_plan (logs : Log) (a : AgentAddr) (evs : list SupervisorEvent) (now : Z) : Log :=
  if requested a evs then <[a := default [] (logs !! a) ++ [now]]> logs else logs.

Fixpoint log_all (clock : nat → Z) (k : nat) (lost : list AgentAddr) (s : Inner) (logs : Log) : Log :=
  match lost with
  | [] => logs
  | a :: lost =>
      let '(s, evs) := plan_restart iter s a ExitNoProc (clock k) in
      log_all clock (S k) lost s (log_plan logs a evs (clock k))
  end.

Definition spec_u32 (sp : ChildSpec) : Prop := 0 <= max_restarts sp < 2 ^ 32.

(** The last time is the latest the clock was read. *)
Inductive Reaches : Inner → Log → Z → Prop :=
  | R_new st t : Reaches (new_supervisor st) ∅ t
  | R_policy s logs t p : Reaches s logs t → Reaches (set_placement_policy p s) logs t
  | R_nodes s logs t ns : Reaches s logs t → Reaches (set_available_nodes ns s) logs t
  | R_add s logs t sp : Reaches s logs t → spec_u32 sp → Reaches (add_child sp s) (<[addr sp := []]> logs) t
  | R_exit s logs t a reason now :
      Reaches s logs t → t <= now →
      Reaches (on_child_exit iter a reason now s).1 (log_plan logs a (on_child_exit iter a reason now s).2 now) now
  | R_disconnect s logs t n clock :
      Reaches s logs t → t <= clock 0%nat → (∀ k, clock k <= clock (S k)) →
      Reaches (on_node_disconnect iter n clock s).1
        (log_all clock 0 (lost_children iter s n) (with_children s (mark_noproc n <$> children s)) logs)
        (clock (length (lost_children iter s n))).

Definition recent (w now : Z) (l : list Z) : list Z := List.filter (λ t, now - t <? w) l.

(** What the history of a child says of its restarts [l], at [t] or later. *)
Record history_ok (c : ChildRecord) (l : list Z) (t : Z) : Prop := {
  ho_spec : spec_u32 (spec c);
  ho_past : Forall (λ x, x <= t) l;
  ho_sorted : ∀ i j x y, l !! i = Some x → l !! j = Some y → (i <= j)%nat → x <= y;
  ho_recent : ∀ now, t <= now → recent (window_ns (spec c)) now l = recent (window_ns (spec c)) now (restart_history c);
  ho_room : Z.of_nat (length (restart_history c)) <= max_restarts (spec c);
  ho_apart : ∀ i x y, l !! i = Some x → l !! (i + Z.to_nat (max_restarts (spec c)))%nat = Some y → window_ns (spec c) <= y - x
}.

Definition all_ok (s : Inner) (logs : Log) (t : Z) : Prop :=
  ∀ a c, children s !! a = Some c → addr (spec c) = a ∧ history_ok c (default [] (logs !! a)) t.

Lemma history_later c l t t' : history_ok c l t → t <= t' → history_ok c l t'.
Proof.
  intros [H0 H1 H2 H3 H4 H5] Ht. split; [done| |done| |done|done].
  - eapply Forall_impl; [exact H1|]. cbn. lia.
  - intros now Hn. apply H3. lia.
Qed.

Lemma history_state c l t st : history_ok c l t → history_ok (with_state c st) l t.
Proof. by intros [H0 H1 H2 H3 H4 H5]. Qed.

Lemma history_restarting c l t : history_ok c l t → history_ok (restarting c) l t.
Proof. unfold restarting. destruct (is_noproc (state c)); [done|apply history_state]. Qed.

Lemma recent_times_recent w now now' l : now <= now' → recent w now' (recent w now l) = recent w now' l.
Proof.
  intros H. unfold recent. induction l as [|x l IH]; [done|]. cbn. destruct (Z.ltb_spec (now - x) w); cbn.
  - by rewrite IH.
  - rewrite IH. destruct (Z.ltb_spec (now' - x) w); [lia|done].
Qed.

Lemma recent_times_app w now a b : recent w now (a ++ b) = recent w now a ++ recent w now b.
Proof. unfold recent. by rewrite List.filter_app. Qed.

Lemma recent_length w now l : (length (recent w now l) <= length l)%nat.
Proof. unfold recent. induction l as [|x l IH]; [done|]. cbn. destruct (_ <? _); cbn; lia. Qed.

Lemma recent_all w now l : (∀ x, x ∈ l → now - x < w) → recent w now l = l.
Proof.
  unfold recent. induction l as [|x l IH]; intros H; [done|]. cbn. rewrite (proj2 (Z.ltb_lt _ _)) by (apply H; set_solver).
  f_equal. apply IH. intros y Hy. apply H. set_solver.
Qed.

(** The retained history still tells, without and with a new restart. *)
Lemma history_retain c l t now st :
  history_ok c l t → t <= now →
  history_ok (mkChild (spec c) st (recent (window_ns (spec c)) now (restart_history c)) (sequence c)) l now.
Proof.
  intros [H0 H1 H2 H3 H4 H5] Ht. split; cbn [spec restart_history]; [done| |done| | |done].
  - eapply Forall_impl; [exact H1|]. cbn. lia.
  - intros now' Hn. rewrite recent_times_recent by done. apply H3. lia.
  - pose proof (recent_length (window_ns (spec c)) now (restart_history c)). lia.
Qed.

Lemma history_push c l t now st :
  history_ok c l t → t <= now →
  Z.of_nat (length (recent (window_ns (spec c)) now (restart_history c))) < max_restarts (spec c) →
  history_ok (mkChild (spec c) st (recent (window_ns (spec c)) now (restart_history c) ++ [now]) (sequence c)) (l ++ [now]) now.
Proof.
  intros [H0 H1 H2 H3 H4 H5] Ht Hlen. rewrite Forall_forall in H1.
  assert (∀ i x, l !! i = Some x → x <= now) as Hp by (intros i x Hi; specialize (H1 x (list_elem_of_lookup_2 _ _ _ Hi)); cbn in H1; lia).
  split; cbn [spec restart_history]; [done| | | | |].
  - apply Forall_app. split; [|repeat constructor; lia]. rewrite Forall_forall. intros x Hx. specialize (H1 x Hx). cbn in H1. lia.
  - intros i j x y Hi Hj Hij. apply lookup_app_Some in Hi as [Hi|[Hli Hi]], Hj as [Hj|[Hlj Hj]].
    + by eapply H2.
    + apply list_lookup_singleton_Some in Hj as [_ <-]. by eapply Hp.
    + apply lookup_lt_Some in Hj. lia.
    + apply list_lookup_singleton_Some in Hi as [_ <-], Hj as [_ <-]. done.
  - intros now' Hn. rewrite !recent_times_app, recent_times_recent by done. f_equal. apply H3. lia.
  - rewrite length_app. cbn. lia.
  - intros i x y Hi Hj. apply lookup_app_Some in Hj as [Hj|[Hlj Hj]].
    + apply lookup_app_Some in Hi as [Hi|[Hli Hi]]; [by eapply H5|]. apply lookup_lt_Some in Hj. lia.
    + apply list_lookup_singleton_Some in Hj as [Hj <-]. set (w := window_ns (spec c)) in *.
      apply lookup_app_Some in Hi as [Hi|[Hli Hi]].
      * destruct (decide (w <= now - x)) as [|Hlt]; [done|]. exfalso.
        rewrite <-(H3 now Ht) in Hlen. rewrite <-(take_drop i l), recent_times_app, length_app in Hlen.
        rewrite (recent_all w now (drop i l)), length_drop in Hlen; [lia|].
        intros z [j Hz]%list_elem_of_lookup_1. rewrite lookup_drop in Hz. pose proof (H2 i (i + j)%nat x z Hi Hz ltac:(lia)). lia.
      * apply list_lookup_singleton_Some in Hi as [_ <-]. lia.
Qed.

Lemma wake_lookup sibs cs a : ∃ f, (f = id ∨ f = restarting) ∧ wake cs sibs !! a = f <$> cs !! a.
Proof.
  assert (∀ c, restarting (restarting c) = restarting c) as Hr.
  { intros [sp st h q]. unfold restarting. cbn. by destruct st. }
  unfold wake. revert cs. induction sibs as [|b sibs IH]; intros cs; cbn [foldl].
  - exists id. split; [by left|]. by rewrite option_fmap_id.
  - destruct (IH (alter restarting b cs)) as (f & Hf & E). rewrite E. destruct (decide (a = b)) as [->|Hne].
    + rewrite lookup_alter_eq, <-option_fmap_compose. exists restarting. split; [by right|].
      destruct (cs !! b); cbn; [|done]. destruct Hf as [->| ->]; unfold compose; [done|by rewrite Hr].
    + rewrite lookup_alter_ne by done. by exists f.
Qed.

Lemma all_later s logs t t' : all_ok s logs t → t <= t' → all_ok s logs t'.
Proof. intros H Ht a c Hc. destruct (H a c Hc) as [? ?]. split; [done|by eapply history_later]. Qed.

Lemma plan_ok s logs t a reason now :
  all_ok s logs t → t <= now →
  all_ok (plan_restart iter s a reason now).1 (log_plan logs a (plan_restart iter s a reason now).2 now) now.
Proof.
  intros Hok Ht. pose proof (all_later _ _ _ _ Hok Ht) as Hok'. unfold plan_restart.
  destruct (wake_with iter s a) as [sibs|]; [|done]. destruct (children s !! a) as [rec|] eqn:Ea; [|done].
  destruct (Hok a rec Ea) as [Hk Hh]. pose proof (ho_spec _ _ _ Hh) as Hu.
  fold (recent (window_ns (spec rec)) now (restart_history rec)).
  pose proof (recent_length (window_ns (spec rec)) now (restart_history rec)) as Hl. pose proof (ho_room _ _ _ Hh) as Hroom.
  rewrite (Z.mod_small (Z.of_nat (length (recent _ _ _)))) by (unfold spec_u32 in Hu; lia).
  destruct (negb _); [|destruct (Z.leb_spec (max_restarts (spec rec)) (Z.of_nat (length (recent (window_ns (spec rec)) now (restart_history rec)))))];
    cbn [fst snd with_children].
  - unfold log_plan. cbn [requested existsb]. intros b c Hb. cbn [with_children children] in Hb. destruct (decide (b = a)) as [->|Hne].
    + rewrite lookup_insert_eq in Hb. injection Hb as <-. split; [done|]. apply history_state. by eapply history_later.
    + rewrite lookup_insert_ne in Hb by done. by apply Hok'.
  - unfold log_plan. cbn [requested existsb orb]. intros b c Hb. cbn [with_children children] in Hb. destruct (decide (b = a)) as [->|Hne].
    + rewrite lookup_insert_eq in Hb. injection Hb as <-. split; [done|]. by eapply history_retain.
    + rewrite lookup_insert_ne in Hb by done. by apply Hok'.
  - unfold log_plan. cbn [requested existsb]. rewrite bool_decide_eq_true_2 by done. cbn [orb]. intros b c Hb. cbn [with_children children] in Hb.
    destruct (wake_lookup sibs (<[a := restarting (mkChild (spec rec) (state rec) (recent (window_ns (spec rec)) now (restart_history rec) ++ [now]) (sequence rec))]> (children s)) b)
      as (f & Hf & E). rewrite E in Hb.
    assert (∀ c0 l, addr (spec c0) = b ∧ history_ok c0 l now → addr (spec (f c0)) = b ∧ history_ok (f c0) l now) as Hfk.
    { intros c0 l [? ?]. destruct Hf as [->| ->]; [done|]. split; [unfold restarting; by destruct (is_noproc (state c0))|by apply history_restarting]. }
    destruct (decide (b = a)) as [->|Hne].
    + rewrite lookup_insert_eq in Hb. rewrite lookup_insert_eq. cbn [fmap option_fmap option_map default from_option id] in Hb |- *. injection Hb as <-. apply Hfk. split.
      * unfold restarting. cbn. by destruct (is_noproc (state rec)).
      * apply history_restarting. by eapply history_push.
    + rewrite lookup_insert_ne in Hb by done. rewrite lookup_insert_ne by done. destruct (children s !! b) as [c0|] eqn:Eb; [|done]. cbn in Hb. injection Hb as <-.
      apply Hfk. by apply Hok'.
Qed.

Lemma plan_all_ok clock k lost s logs t :
  all_ok s logs t → t <= clock k → (∀ k, clock k <= clock (S k)) →
  all_ok (plan_all iter clock k lost s).1 (log_all clock k lost s logs) (clock (k + length lost)%nat).
Proof.
  revert k s logs t. induction lost as [|a lost IH]; intros k s logs t Hok Ht Hc; cbn [plan_all log_all length].
  - rewrite Nat.add_0_r. by eapply all_later.
  - pose proof (plan_ok s logs t a ExitNoProc (clock k) Hok Ht) as H1. destruct (plan_restart iter s a ExitNoProc (clock k)) as [s1 e1]. cbn [fst snd] in H1.
    specialize (IH (S k) s1 (log_plan logs a e1 (clock k)) (clock k) H1 (Hc k) Hc). rewrite Nat.add_succ_r.
    destruct (plan_all iter clock (S k) lost s1) as [s2 e2]. exact IH.
Qed.

Lemma reaches_ok s logs t : Reaches s logs t → all_ok s logs t.
Proof.
  induction 1 as [st t|s logs t p _ IH|s logs t ns _ IH|s logs t sp _ IH Hu|s logs t a reason now _ IH Ht|s logs t n clock _ IH Ht Hc].
  - intros a c. cbn. by rewrite lookup_empty.
  - exact IH.
  - exact IH.
  - intros b c. cbn [add_child children]. destruct (decide (b = addr sp)) as [->|Hne].
    + rewrite !lookup_insert_eq. intros [= <-]. split; [done|]. cbn. split; cbn; [done|constructor|done|done|unfold spec_u32 in Hu; lia|done].
    + rewrite !lookup_insert_ne by done. apply IH.
  - unfold on_child_exit. destruct (children s !! a) as [rec|] eqn:Ea.
    2: { cbn. unfold log_plan. cbn. by eapply all_later. }
    apply (plan_ok (with_children s (<[a := restarting rec]> (children s))) logs t); [|done].
    intros b c. cbn [with_children children]. destruct (decide (b = a)) as [->|Hne].
    + rewrite lookup_insert_eq. intros [= <-]. destruct (IH a rec Ea) as [? ?]. split; [unfold restarting; by destruct (is_noproc _)|by apply history_restarting].
    + rewrite lookup_insert_ne by done. apply IH.
  - unfold on_node_disconnect. assert (all_ok (with_children s (mark_noproc n <$> children s)) logs t) as Hm.
    { intros b c. cbn [with_children children]. rewrite lookup_fmap. destruct (children s !! b) as [c0|] eqn:Eb; [|done].
      cbn. intros [= <-]. destruct (IH b c0 Eb) as [? ?]. unfold mark_noproc. destruct (_ && _); [|done]. split; [done|by apply history_state]. }
    pose proof (plan_all_ok clock 0%nat (lost_children iter s n) _ logs t Hm Ht Hc) as H. rewrite Nat.add_0_l in H.
    destruct (lost_children iter s n) as [|a lost]; [exact H|].
    destruct (plan_all iter clock 0 (a :: lost) (with_children s (mark_noproc n <$> children s))) as [s' evs]. exact H.
Qed.
End breaker.
