(* ===== verification/ClusterMigration.v ===== *)
(** * Migration of an agent between nodes

    [crates/mty-runtime/src/cluster/migration.rs], from a source node to the
    other nodes.  The hooks of the runtime are what their documentation says:
    [drain_and_snapshot] switches the agent to [Migrating], [rollback] to
    [Active], [finalize_migrated] to [Remote], and [restore] starts a live
    copy; what they answer is an argument of a step.  A step is a stretch of
    [migrate_agent] between two waits, or a frame handled, so any number of
    calls and frames interleave.  The one-shot channel of a call is [Open],
    holds its reply, or is [Closed] by the loss of its sender.  The
    invariants follow. *)

From stdpp Require Import base list strings numbers gmap sets relations fin_maps.
From S2P Require Import Prelude Semver ClusterTls ClusterWire ClusterMesh.

Local Open Scope Z_scope.
Local Open Scope list_scope.
Notation length := List.length (only parsing).

Definition MAX_MIGRATION_SNAPSHOT_BYTES : Z := 6 * 1024 * 1024.

Inductive MigrationError : Set :=
  | AgentNotFound (a : AgentAddr)
  | TargetUnreachable (n : list Z)
  | SameNode (n : list Z)
  | IncompatibleSchema (old new : Z)
  | Deadline (ms : Z)
  | Rejected (kind message : string)
  | SnapshotTooLarge (bytes limit : Z)
  | MMesh (e : MeshError)
  | Internal (why : string).

Definition diag_code (e : MigrationError) : string :=
  match e with
  | AgentNotFound _ => "MT5071" | TargetUnreachable _ => "MT5072" | SameNode _ => "MT5073" | IncompatibleSchema _ _ => "MT5060"
  | Deadline _ => "MT5074" | Rejected _ _ => "MT5075" | SnapshotTooLarge _ _ => "MT5076" | MMesh _ => "MT5077" | Internal _ => "MT5079"
  end.

Record AgentSnapshot : Set := mkSnapshot { sn_type : string; sn_hash : Z; sn_state : list Z }.
Record QueuedMessage : Set := mkQueued { qm_from : AgentAddr; qm_msg : string; qm_bytes : list Z }.
Record MigrationReport : Set := mkReport { rp_agent : AgentAddr; rp_target : list Z; rp_new : AgentAddr; rp_bytes : Z; rp_forwarded : Z }.

Record MigrationMetrics : Set := mkMetrics {
  started : Z; completed : Z; failed : Z; rolled_back : Z; bytes_shipped : Z; messages_forwarded : Z }.

Inductive PendingReply : Set := PAck (new_addr : AgentAddr) | PError (kind message : string).
Inductive Channel : Set := Open | Got (r : PendingReply) | Closed.

(** The life of an agent on the source. *)
Inductive Life : Set := Active | Migrating | Remote (new : AgentAddr).

(** Where a call of [migrate_agent] is. *)
Inductive Call : Set :=
  | CDrained (a : AgentAddr) (target : list Z) (s : AgentSnapshot)
  | CPending (a : AgentAddr) (target : list Z) (s : AgentSnapshot)
  | CWaiting (a : AgentAddr) (target : list Z) (bytes deadline : Z)
  | CDone (a : AgentAddr) (r : Res MigrationError MigrationReport).

(** The source's mesh and orchestrator, the calls with their channels, the
    lives of its agents, and the copies alive on the other nodes. *)
Record World : Type := mkWorld {
  mesh : Mesh; pendings : gmap AgentAddr nat; rewrites : gmap AgentAddr AgentAddr; metrics : MigrationMetrics;
  calls : gmap nat Call; channels : gmap nat Channel; lives : gmap AgentAddr Life; copies : gset AgentAddr }.

Definition set_mesh (m : Mesh) (w : World) : World := mkWorld m (pendings w) (rewrites w) (metrics w) (calls w) (channels w) (lives w) (copies w).
Definition set_call (k : nat) (c : Call) (w : World) : World :=
  mkWorld (mesh w) (pendings w) (rewrites w) (metrics w) (<[k := c]> (calls w)) (channels w) (lives w) (copies w).
Definition set_life (a : AgentAddr) (l : Life) (w : World) : World :=
  mkWorld (mesh w) (pendings w) (rewrites w) (metrics w) (calls w) (channels w) (<[a := l]> (lives w)) (copies w).
Definition set_metrics (f : MigrationMetrics → MigrationMetrics) (w : World) : World :=
  mkWorld (mesh w) (pendings w) (rewrites w) (f (metrics w)) (calls w) (channels w) (lives w) (copies w).
Definition add_copy (a : AgentAddr) (w : World) : World :=
  mkWorld (mesh w) (pendings w) (rewrites w) (metrics w) (calls w) (channels w) (lives w) ({[a]} ∪ copies w).

(** The sender of a channel goes unused. *)
Definition drop_sender (c : Channel) : Channel := match c with Open => Closed | c => c end.

(** [pending.remove]: the sender, taken out. *)
Definition take_pending (a : AgentAddr) (w : World) : option nat * World :=
  (pendings w !! a, mkWorld (mesh w) (delete a (pendings w)) (rewrites w) (metrics w) (calls w) (channels w) (lives w) (copies w)).

Definition set_channels (f : gmap nat Channel → gmap nat Channel) (w : World) : World :=
  mkWorld (mesh w) (pendings w) (rewrites w) (metrics w) (calls w) (f (channels w)) (lives w) (copies w).

(** [pending.remove] for its effect: a sender that was there is dropped. *)
Definition remove_pending (a : AgentAddr) (w : World) : World :=
  match take_pending a w with
  | (Some k, w) => set_channels (alter drop_sender k) w
  | (None, w) => w
  end.

(** [pending.insert]: the sender it replaces is dropped. *)
Definition insert_pending (a : AgentAddr) (k : nat) (w : World) : World :=
  let w := remove_pending a w in
  set_channels (<[k := Open]>) (mkWorld (mesh w) (<[a := k]> (pendings w)) (rewrites w) (metrics w) (calls w) (channels w) (lives w) (copies w)).

Definition add_started (m : MigrationMetrics) : MigrationMetrics :=
  mkMetrics (started m + 1) (completed m) (failed m) (rolled_back m) (bytes_shipped m) (messages_forwarded m).
Definition add_failed (m : MigrationMetrics) : MigrationMetrics :=
  mkMetrics (started m) (completed m) (failed m + 1) (rolled_back m) (bytes_shipped m) (messages_forwarded m).
Definition add_rolled_back (m : MigrationMetrics) : MigrationMetrics :=
  mkMetrics (started m) (completed m) (failed m + 1) (rolled_back m + 1) (bytes_shipped m) (messages_forwarded m).
Definition add_shipped (n : Z) (m : MigrationMetrics) : MigrationMetrics :=
  mkMetrics (started m) (completed m) (failed m) (rolled_back m) (bytes_shipped m + n) (messages_forwarded m).
Definition add_forwarded (n : Z) (m : MigrationMetrics) : MigrationMetrics :=
  mkMetrics (started m) (completed m) (failed m) (rolled_back m) (bytes_shipped m) (messages_forwarded m + n).
Definition add_completed (m : MigrationMetrics) : MigrationMetrics :=
  mkMetrics (started m) (completed m + 1) (failed m) (rolled_back m) (bytes_shipped m) (messages_forwarded m).

Definition finish (k : nat) (a : AgentAddr) (r : Res MigrationError MigrationReport) (w : World) : World := set_call k (CDone a r) w.

(** [source.rollback] and the two counters. *)
Definition roll_back (k : nat) (a : AgentAddr) (e : MigrationError) (w : World) : World :=
  finish k a (Err e) (set_metrics add_rolled_back (set_life a Active w)).

(** ** The source *)

(** Up to the end of [drain_and_snapshot], which answered [snapshot]; [None]
    when no source hook is installed. *)
Definition begin_migrate (k : nat) (a : AgentAddr) (target : NodeId) (hook : option (Res MigrationError AgentSnapshot)) (w : World) : World :=
  if bool_decide (target = self_node (mesh w)) then finish k a (Err (SameNode target)) w
  else if negb (has_peer (mesh w) target) then finish k a (Err (TargetUnreachable target)) w
  else
    match hook with
    | None => finish k a (Err (Internal "no source hook installed")) w
    | Some snapshot =>
        let w := set_metrics add_started w in
        match snapshot with
        | Err e => finish k a (Err e) (set_metrics add_failed w)
        | Ok s =>
            let w := set_life a Migrating w in
            if MAX_MIGRATION_SNAPSHOT_BYTES <? len (sn_state s)
            then roll_back k a (SnapshotTooLarge (len (sn_state s)) MAX_MIGRATION_SNAPSHOT_BYTES) w
            else set_call k (CDrained a target s) w
        end
    end.

Definition register_pending (k : nat) (w : World) : World :=
  match calls w !! k with
  | Some (CDrained a target s) => set_call k (CPending a target s) (insert_pending a k w)
  | _ => w
  end.

Definition ship (k : nat) (stays : bool) (deadline : Z) (w : World) : World :=
  match calls w !! k with
  | Some (CPending a target s) =>
      match route_async stays (mesh w) (MigrateSnapshot a target (sn_type s) (sn_hash s) (sn_state s)) with
      | (Err e, _) => roll_back k a (MMesh e) (remove_pending a w)
      | (Ok _, m) => set_call k (CWaiting a target (len (sn_state s)) deadline) (set_metrics (add_shipped (len (sn_state s))) (set_mesh m w))
      end
  | _ => w
  end.

(** The messages held back go to the new address; those the mesh takes are
    counted. *)
Fixpoint forward (new : AgentAddr) (stays : bool) (queued : list QueuedMessage) (m : Mesh) (n : Z) : Mesh * Z :=
  match queued with
  | [] => (m, n)
  | q :: queued =>
      match route_async stays m (Send (qm_from q) new (qm_msg q) (qm_bytes q)) with
      | (Ok _, m) => forward new stays queued m (n + 1)
      | (Err _, m) => forward new stays queued m n
      end
  end.

Definition set_rewrite (a new : AgentAddr) (w : World) : World :=
  mkWorld (mesh w) (pendings w) (<[a := new]> (rewrites w)) (metrics w) (calls w) (channels w) (lives w) (copies w).

(** The channel of the call delivered or closed; [queued] is what
    [drain_queued_messages] answered, an error being empty. *)
Definition on_reply (k : nat) (stays : bool) (queued : list QueuedMessage) (w : World) : World :=
  match calls w !! k, channels w !! k with
  | Some (CWaiting a target bytes _), Some (Got (PAck new)) =>
      let '(m, n) := forward new stays queued (mesh w) 0 in
      let w := set_metrics (add_forwarded n) (set_mesh m w) in
      finish k a (Ok (mkReport a target new bytes n)) (set_metrics add_completed (set_life a (Remote new) (set_rewrite a new w)))
  | Some (CWaiting a _ _ _), Some (Got (PError kind message)) => roll_back k a (Rejected kind message) w
  | Some (CWaiting a _ _ _), Some Closed => roll_back k a (Internal "migration reply channel closed") (remove_pending a w)
  | _, _ => w
  end.

(** The deadline passed before the channel was looked at. *)
Definition on_deadline (k : nat) (w : World) : World :=
  match calls w !! k with
  | Some (CWaiting a _ _ deadline) => roll_back k a (Deadline deadline) (remove_pending a w)
  | _ => w
  end.

Definition lookup_rewrite (w : World) (a : AgentAddr) : option AgentAddr := rewrites w !! a.

(** ** Frames *)

(** The reply of the source's table to a channel. *)
Definition deliver (a : AgentAddr) (r : PendingReply) (w : World) : World :=
  match take_pending a w with
  | (Some k, w) => set_channels (alter (λ c, match c with Open => Got r | c => c end) k) w
  | (None, w) => w
  end.

(** [handle_inbound] of the source: whether the frame was consumed. *)
Definition handle_reply (f : WireFrame) (w : World) : bool * World :=
  match f with
  | MigrateAck migrating new _ => (true, deliver migrating (PAck new) w)
  | MigrateError migrating _ kind message => (true, deliver migrating (PError kind message) w)
  | _ => (false, w)
  end.

Definition error_kind (e : MigrationError) : string :=
  match e with IncompatibleSchema _ _ => "schema_incompatible" | SnapshotTooLarge _ _ => "snapshot_too_large" | _ => "restore_failed" end.

(** [handle_inbound] of a target on a snapshot: the frame it sends back.
    [sink]: what [restore] answers, [None] without a sink; [text e] is the
    message of an error. *)
Definition handle_snapshot (text : MigrationError → string) (sink : option (AgentSnapshot → Res MigrationError AgentAddr)) (f : WireFrame) :
    option (WireFrame * option AgentAddr) :=
  match f with
  | MigrateSnapshot a _ agent_type schema_hash state =>
      match sink with
      | None => Some (MigrateError a (node a) "no_sink" "target has no migration sink installed", None)
      | Some restore =>
          match restore (mkSnapshot agent_type schema_hash state) with
          | Ok new => Some (MigrateAck a new (node a), Some new)
          | Err e => Some (MigrateError a (node a) (error_kind e) (text e), None)
          end
      end
  | _ => None
  end.

(** ** Steps *)

(** [sent f w]: the source's mesh queued the frame at some time. *)
Section steps.
Variable text : MigrationError → string.

(** A world and the frames in the network: snapshots on their way to a
    target, and replies on their way back.  A frame may be lost, and frames
    of different nodes overtake each other. *)
Record Net : Type := mkNet { world : World; outgoing : list WireFrame; incoming : list WireFrame }.

(** The frames that [route_async] queued between two worlds. *)
Definition shipped (w : World) (k : nat) : list WireFrame :=
  match calls w !! k with
  | Some (CPending a target s) => [MigrateSnapshot a target (sn_type s) (sn_hash s) (sn_state s)]
  | _ => []
  end.

Definition accepted (w : World) (k : nat) (stays : bool) : bool :=
  match calls w !! k with
  | Some (CPending a target s) =>
      match route_async stays (mesh w) (MigrateSnapshot a target (sn_type s) (sn_hash s) (sn_state s)) with (Ok _, _) => true | _ => false end
  | _ => false
  end.

Inductive net_step : Net → Net → Prop :=
  | ns_begin k a target hook w o i :
      calls w !! k = None → net_step (mkNet w o i) (mkNet (begin_migrate k a target hook w) o i)
  | ns_register k w o i : net_step (mkNet w o i) (mkNet (register_pending k w) o i)
  | ns_ship k stays deadline w o i :
      net_step (mkNet w o i) (mkNet (ship k stays deadline w) (o ++ if accepted w k stays then shipped w k else []) i)
  | ns_reply k stays queued w o i : net_step (mkNet w o i) (mkNet (on_reply k stays queued w) o i)
  | ns_deadline k w o i : net_step (mkNet w o i) (mkNet (on_deadline k w) o i)
  | ns_restore sink f back new w o1 o2 i :
      handle_snapshot text sink f = Some (back, new) →
      net_step (mkNet w (o1 ++ f :: o2) i) (mkNet (match new with Some n => add_copy n w | None => w end) (o1 ++ o2) (i ++ [back]))
  | ns_handle f w o i1 i2 : net_step (mkNet w o (i1 ++ f :: i2)) (mkNet (handle_reply f w).2 o (i1 ++ i2))
  | ns_lose_out f w o1 o2 i : net_step (mkNet w (o1 ++ f :: o2) i) (mkNet w (o1 ++ o2) i)
  | ns_lose_in f w o i1 i2 : net_step (mkNet w o (i1 ++ f :: i2)) (mkNet w o (i1 ++ i2))
  | ns_peers m w o i : self_node m = self_node (mesh w) → net_step (mkNet w o i) (mkNet (set_mesh m w) o i).
End steps.

Definition new_world (n : NodeId) : World := mkWorld (new_mesh n) ∅ ∅ (mkMetrics 0 0 0 0 0 0) ∅ ∅ ∅ ∅.

(** ** No migration loses an agent

    The invariants of the source, in every interleaving of calls, frames,
    losses and deadlines. *)

(** ** The invariants *)

(** The agent a call still works on, and the one whose reply it waits for. *)
Definition busy (c : Call) : option AgentAddr :=
  match c with CDrained a _ _ | CPending a _ _ | CWaiting a _ _ _ => Some a | CDone _ _ => None end.
Definition waits (c : Call) : option AgentAddr :=
  match c with CPending a _ _ | CWaiting a _ _ _ => Some a | _ => None end.

(** Every address that a reply, a life or a report names is that of a copy. *)
Definition safe (w : World) (incoming : list WireFrame) : Prop :=
  (∀ a new r, MigrateAck a new r ∈ incoming → new ∈ copies w) ∧
  (∀ k new, channels w !! k = Some (Got (PAck new)) → new ∈ copies w) ∧
  (∀ a new, lives w !! a = Some (Remote new) → new ∈ copies w) ∧
  (∀ k a r, calls w !! k = Some (CDone a (Ok r)) → rp_agent r = a ∧ rp_new r ∈ copies w).

(** A registered sender is that of a call which waits for its agent, and a
    call whose channel is open is registered. *)
Definition wired (w : World) : Prop :=
  (∀ a k, pendings w !! a = Some k → channels w !! k = Some Open ∧ ∃ c, calls w !! k = Some c ∧ waits c = Some a) ∧
  (∀ k c a, calls w !! k = Some c → waits c = Some a →
    ∃ ch, channels w !! k = Some ch ∧ (ch = Open → pendings w !! a = Some k)).

(** Only an agent that a call works on is between the two nodes. *)
Definition held (w : World) : Prop :=
  ∀ a, lives w !! a = Some Migrating → ∃ k c, calls w !! k = Some c ∧ busy c = Some a.

Definition in_flight (cs : gmap nat Call) : Z := Z.of_nat (size (filter (λ kc : nat * Call, is_Some (busy kc.2)) cs)).

Definition counted (w : World) : Prop :=
  started (metrics w) = completed (metrics w) + failed (metrics w) + in_flight (calls w) ∧
  0 <= rolled_back (metrics w) <= failed (metrics w).

(** ** What removing and delivering do *)

Lemma remove_pending_spec a w :
  remove_pending a w =
  mkWorld (mesh w) (delete a (pendings w)) (rewrites w) (metrics w) (calls w)
    (match pendings w !! a with Some k => alter drop_sender k (channels w) | None => channels w end) (lives w) (copies w).
Proof. unfold remove_pending, take_pending. by destruct (pendings w !! a). Qed.

Lemma deliver_spec a r w :
  deliver a r w =
  mkWorld (mesh w) (delete a (pendings w)) (rewrites w) (metrics w) (calls w)
    (match pendings w !! a with Some k => alter (λ c, match c with Open => Got r | c => c end) k (channels w) | None => channels w end)
    (lives w) (copies w).
Proof. unfold deliver, take_pending. by destruct (pendings w !! a). Qed.

Lemma insert_pending_spec a k w :
  insert_pending a k w =
  mkWorld (mesh w) (<[a := k]> (pendings w)) (rewrites w) (metrics w) (calls w)
    (<[k := Open]> (match pendings w !! a with Some k => alter drop_sender k (channels w) | None => channels w end)) (lives w) (copies w).
Proof. unfold insert_pending. rewrite remove_pending_spec. cbn. by rewrite insert_delete_eq. Qed.

(** ** [safe] *)

Lemma safe_call k c w i :
  safe w i → (∀ a r, c = CDone a (Ok r) → rp_agent r = a ∧ rp_new r ∈ copies w) → safe (set_call k c w) i.
Proof.
  intros (H1 & H2 & H3 & H4) Hc. split_and!; [done..|]. intros j a r. cbn [set_call calls]. destruct (decide (j = k)) as [->|].
  - rewrite lookup_insert_eq. intros [= ->]. by apply Hc.
  - rewrite lookup_insert_ne by done. apply H4.
Qed.

Lemma safe_life a l w i : safe w i → (∀ new, l = Remote new → new ∈ copies w) → safe (set_life a l w) i.
Proof.
  intros (H1 & H2 & H3 & H4) Hl. split_and!; [done..| |done]. intros b new. cbn [set_life lives]. destruct (decide (b = a)) as [->|].
  - rewrite lookup_insert_eq. intros [= ->]. by apply Hl.
  - rewrite lookup_insert_ne by done. apply H3.
Qed.

Lemma drop_sender_got k j (cs : gmap nat Channel) r : alter drop_sender k cs !! j = Some (Got r) → cs !! j = Some (Got r).
Proof.
  destruct (decide (j = k)) as [->|]; [|by rewrite lookup_alter_ne]. rewrite lookup_alter_eq.
  by destruct (cs !! k) as [[]|].
Qed.

Lemma safe_remove a w i : safe w i → safe (remove_pending a w) i.
Proof.
  intros (H1 & H2 & H3 & H4). rewrite remove_pending_spec. split_and!; [done| |done..]. intros k new. cbn [channels copies].
  destruct (pendings w !! a); [|apply H2]. intros Hg%drop_sender_got. by eapply H2.
Qed.

Lemma safe_insert a k w i : safe w i → safe (insert_pending a k w) i.
Proof.
  intros H. pose proof (safe_remove a w i H) as (H1 & H2 & H3 & H4). rewrite insert_pending_spec. rewrite remove_pending_spec in *.
  split_and!; [done| |done..]. intros j new. cbn [channels copies] in *. destruct (decide (j = k)) as [->|]; [by rewrite lookup_insert_eq|].
  rewrite lookup_insert_ne by done. apply H2.
Qed.

Lemma safe_deliver a r w i : safe w i → (∀ new, r = PAck new → new ∈ copies w) → safe (deliver a r w) i.
Proof.
  intros (H1 & H2 & H3 & H4) Hr. rewrite deliver_spec. split_and!; [done| |done..]. intros j new. cbn [channels copies].
  destruct (pendings w !! a) as [k|]; [|apply H2]. destruct (decide (j = k)) as [->|]; [|rewrite lookup_alter_ne by done; apply H2].
  rewrite lookup_alter_eq. destruct (channels w !! k) as [[]|] eqn:E; cbn; try done.
  - intros [= ->]. by apply Hr.
  - intros [= ->]. by apply (H2 k).
Qed.

Lemma safe_roll_back k a e w i : safe w i → safe (roll_back k a e w) i.
Proof. intros H. unfold roll_back, finish. apply safe_call; [|done]. by apply (safe_life a Active w i H). Qed.

Lemma safe_copy n w i : safe w i → safe (add_copy n w) i.
Proof.
  intros (H1 & H2 & H3 & H4). split_and!; cbn [add_copy copies channels lives calls].
  - intros a new r Hin. apply elem_of_union_r. by eapply H1.
  - intros k new Hk. apply elem_of_union_r. by eapply H2.
  - intros a new Hl. apply elem_of_union_r. by eapply H3.
  - intros k a r Hk. destruct (H4 k a r Hk). split; [done|]. by apply elem_of_union_r.
Qed.

Lemma safe_sub w i i' : safe w i → i' ⊆ i → safe w i'.
Proof. intros (H1 & H2 & H3 & H4) Hs. split_and!; [|done..]. intros a new r Hin. eapply H1, Hs, Hin. Qed.

(** ** [wired] *)

Lemma wired_metrics f w : wired w → wired (set_metrics f w).
Proof. exact id. Qed.
Lemma wired_life a l w : wired w → wired (set_life a l w).
Proof. exact id. Qed.

(** A call moves without touching the registrations. *)
Lemma wired_call k c w :
  wired w →
  (∀ a, pendings w !! a = Some k → waits c = Some a) →
  (∀ a, waits c = Some a → ∃ ch, channels w !! k = Some ch ∧ (ch = Open → pendings w !! a = Some k)) →
  wired (set_call k c w).
Proof.
  intros [H1 H2] Hp Hw. split; cbn [set_call pendings channels calls].
  - intros a j Hj. destruct (H1 a j Hj) as [Ho (c0 & Hc0 & Hc1)]. split; [done|]. destruct (decide (j = k)) as [->|].
    + exists c. rewrite lookup_insert_eq. split; [done|]. by apply Hp.
    + exists c0. by rewrite lookup_insert_ne.
  - intros j c0 a. destruct (decide (j = k)) as [->|]; [rewrite lookup_insert_eq; intros [= <-]; apply Hw|].
    rewrite lookup_insert_ne by done. apply H2.
Qed.

Lemma drop_sender_closed k (cs : gmap nat Channel) c : alter drop_sender k cs !! k = Some c → c ≠ Open.
Proof. rewrite lookup_alter_eq. by destruct (cs !! k) as [[]|]; intros [= <-]. Qed.

(** The registrations of two agents are of different calls. *)
Lemma wired_inj w a b k : wired w → pendings w !! a = Some k → pendings w !! b = Some k → a = b.
Proof.
  intros [H1 _] Ha Hb. destruct (H1 a k Ha) as [_ (c & Hc & E)], (H1 b k Hb) as [_ (c' & Hc' & E')]. congruence.
Qed.

(** Taking a registration out, with anything but [Open] left in its channel. *)
Lemma wired_take a (g : Channel → Channel) w :
  wired w → (∀ c, g c = Open → False) →
  wired (mkWorld (mesh w) (delete a (pendings w)) (rewrites w) (metrics w) (calls w)
    (match pendings w !! a with Some k => alter g k (channels w) | None => channels w end) (lives w) (copies w)).
Proof.
  intros Hw Hg. pose proof Hw as [H1 H2]. split; cbn [pendings channels calls].
  - intros b k [Hba Hb]%lookup_delete_Some. destruct (H1 b k Hb) as [Ho Hc]. split; [|done].
    destruct (pendings w !! a) as [k'|] eqn:Ea; [|done]. rewrite lookup_alter_ne; [done|]. intros ->. by apply Hba, (wired_inj w _ _ k Hw).
  - intros k c b Hk Hb. destruct (H2 k c b Hk Hb) as (ch & Hch & Ho). destruct (pendings w !! a) as [k'|] eqn:Ea.
    + destruct (decide (k = k')) as [->|Hne].
      * exists (g ch). rewrite lookup_alter_eq, Hch. split; [done|]. intros E. by destruct (Hg ch).
      * exists ch. rewrite lookup_alter_ne by done. split; [done|]. intros E. rewrite lookup_delete_ne; [by apply Ho|].
        intros ->. specialize (Ho E). congruence.
    + exists ch. split; [done|]. intros E. rewrite lookup_delete_ne; [by apply Ho|]. intros ->. specialize (Ho E). congruence.
Qed.

Lemma wired_remove a w : wired w → wired (remove_pending a w).
Proof. intros H. rewrite remove_pending_spec. apply wired_take; [done|by intros []]. Qed.

Lemma wired_deliver a r w : wired w → wired (deliver a r w).
Proof. intros H. rewrite deliver_spec. apply wired_take; [done|by intros []]. Qed.

(** The end of a call that is not registered. *)
Lemma wired_finish k a r w : wired w → (∀ b, pendings w !! b ≠ Some k) → wired (finish k a r w).
Proof. intros H Hn. apply wired_call; [done| |done]. intros b Hb. by destruct (Hn b). Qed.

(** A call leaves, with the registration of its agent. *)
Lemma wired_roll_back k a c e w :
  wired w → calls w !! k = Some c → waits c = Some a → wired (roll_back k a e (remove_pending a w)).
Proof.
  intros H Hc Ha. apply wired_finish; [by apply wired_metrics, wired_life, wired_remove|]. intros b.
  rewrite remove_pending_spec. cbn [set_metrics set_life pendings]. intros [Hne Hb]%lookup_delete_Some.
  destruct H as [H1 _]. destruct (H1 b k Hb) as [_ (c' & Hc' & Hb')]. congruence.
Qed.

Lemma wired_register k a target s w :
  wired w → calls w !! k = Some (CDrained a target s) → wired (set_call k (CPending a target s) (insert_pending a k w)).
Proof.
  intros H Hk. assert (∀ b, pendings w !! b ≠ Some k) as Hno.
  { intros b Hb. destruct H as [H1 _]. destruct (H1 b k Hb) as [_ (c & Hc & Hw)]. rewrite Hk in Hc. by injection Hc as <-. }
  pose proof (wired_remove a w H) as [R1 R2]. rewrite remove_pending_spec in R1, R2. rewrite insert_pending_spec. cbn [pendings channels calls] in R1, R2.
  split; cbn [set_call pendings channels calls].
  - intros b j. destruct (decide (b = a)) as [->|].
    + rewrite lookup_insert_eq. intros [= <-]. rewrite !lookup_insert_eq. split; [done|]. by eexists.
    + rewrite lookup_insert_ne by done. intros Hb. assert (j ≠ k) by (intros ->; by destruct (Hno b)).
      rewrite !lookup_insert_ne by done. apply R1. by rewrite lookup_delete_ne.
  - intros j c b. destruct (decide (j = k)) as [->|].
    + rewrite !lookup_insert_eq. intros [= <-] [= <-]. exists Open. by rewrite lookup_insert_eq.
    + rewrite !(lookup_insert_ne _ k j) by done. intros Hj Hb. destruct (R2 j c b Hj Hb) as (ch & Hch & Ho). exists ch. split; [done|].
      intros E. specialize (Ho E). apply lookup_delete_Some in Ho as [Hne Ho]. by rewrite lookup_insert_ne.
Qed.

(** ** [held] and [counted] *)

Lemma held_call k c w : held w → (∀ c0 a, calls w !! k = Some c0 → busy c0 = Some a → busy c = Some a ∨ lives w !! a ≠ Some Migrating) → held (set_call k c w).
Proof.
  intros H Hc a Ha. cbn [set_call lives calls] in *. destruct (H a Ha) as (j & c0 & Hj & Hb). destruct (decide (j = k)) as [->|].
  - exists k, c. rewrite lookup_insert_eq. split; [done|]. by destruct (Hc c0 a Hj Hb).
  - exists j, c0. by rewrite lookup_insert_ne.
Qed.

(** A call ends with its agent on one of the nodes. *)
Lemma held_finish k a l r w :
  held w → l ≠ Migrating → (∀ c0 b, calls w !! k = Some c0 → busy c0 = Some b → b = a) → held (finish k a r (set_life a l w)).
Proof.
  intros H Hl Hc b Hb. cbn [finish set_call set_life lives calls] in *. destruct (decide (b = a)) as [->|Hne].
  - rewrite lookup_insert_eq in Hb. congruence.
  - rewrite lookup_insert_ne in Hb by done. destruct (H b Hb) as (j & c0 & Hj & Hbusy). exists j, c0. rewrite lookup_insert_ne; [done|].
    intros <-. by destruct (Hc c0 b Hj Hbusy).
Qed.

Lemma in_flight_insert k c (cs : gmap nat Call) :
  in_flight (<[k := c]> cs) =
  in_flight cs - (match cs !! k with Some c0 => if busy c0 then 1 else 0 | None => 0 end) + (if busy c then 1 else 0).
Proof.
  assert (∀ d (m : gmap nat Call), m !! k = None → in_flight (<[k := d]> m) = in_flight m + (if busy d then 1 else 0)) as Hfresh.
  { intros d m Hm. unfold in_flight. destruct (busy d) as [a|] eqn:E.
    - rewrite map_filter_insert_True by (cbn; by eexists). rewrite map_size_insert_None; [lia|]. apply map_lookup_filter_None. by left.
    - rewrite map_filter_insert_not'; [lia|cbn; rewrite E; by intros []|]. intros y Hy. congruence. }
  rewrite <-insert_delete_eq, Hfresh by apply lookup_delete_eq. destruct (cs !! k) as [c0|] eqn:E.
  - rewrite <-(insert_delete_id cs k c0 E) at 2. rewrite Hfresh by apply lookup_delete_eq. lia.
  - rewrite delete_id by done. lia.
Qed.

(** ** Every step *)

Definition world_ok (w : World) (i : list WireFrame) : Prop := safe w i ∧ wired w ∧ held w ∧ counted w.

(** A call ends in an error, and the agent resumes on the source. *)
Lemma roll_back_ok k a c e w i :
  safe w i → held w → counted w → calls w !! k = Some c → busy c = Some a → wired (roll_back k a e w) → world_ok (roll_back k a e w) i.
Proof.
  intros Hs Hh [Hc Hr] Hk Hb Hw. split_and!; [by apply safe_roll_back|done| |].
  - unfold roll_back. change (finish k a (Err e) (set_metrics add_rolled_back (set_life a Active w))) with
      (set_metrics add_rolled_back (finish k a (Err e) (set_life a Active w))).
    apply (held_finish k a Active (Err e) w Hh); [done|]. congruence.
  - unfold counted, roll_back, finish. cbn [set_call set_metrics set_life metrics calls add_rolled_back started completed failed rolled_back].
    rewrite in_flight_insert, Hk, Hb. cbn. lia.
Qed.

Lemma held_remove a w : held w → held (remove_pending a w).
Proof. rewrite remove_pending_spec. exact id. Qed.
Lemma counted_remove a w : counted w → counted (remove_pending a w).
Proof. rewrite remove_pending_spec. exact id. Qed.
Lemma calls_remove a w : calls (remove_pending a w) = calls w.
Proof. by rewrite remove_pending_spec. Qed.

(** With the registration taken out first. *)
Lemma give_up_ok k a c e w i :
  world_ok w i → calls w !! k = Some c → waits c = Some a → world_ok (roll_back k a e (remove_pending a w)) i.
Proof.
  intros (Hs & Hw & Hh & Hc) Hk Hb. apply (roll_back_ok k a c).
  - by apply safe_remove.
  - by apply held_remove.
  - by apply counted_remove.
  - by rewrite calls_remove.
  - by destruct c.
  - by eapply wired_roll_back.
Qed.

Lemma begin_ok k a target hook w i :
  world_ok w i → calls w !! k = None → world_ok (begin_migrate k a target hook w) i.
Proof.
  intros (Hs & Hw & Hh & Hc & Hr) Hk.
  assert (∀ b, pendings w !! b ≠ Some k) as Hno.
  { intros b Hb. destruct Hw as [H1 _]. destruct (H1 b k Hb) as [_ (c & Hc' & _)]. congruence. }
  assert (∀ e, world_ok (finish k a (Err e) w) i) as Herr.
  { intros e. split_and!; [by apply safe_call|by apply wired_finish| |].
    - apply held_call; [done|]. intros c0 b E. congruence.
    - split; [|done]. unfold finish. cbn [set_call metrics calls]. rewrite in_flight_insert, Hk. cbn. lia. }
  unfold begin_migrate. case_bool_decide; [apply Herr|]. destruct (negb _); [apply Herr|]. destruct hook as [[s|e]|]; [| |apply Herr].
  2: { destruct (Herr e) as (S1 & W1 & H1 & _). split_and!; [done..|]. unfold counted, finish.
    cbn [set_call set_metrics metrics calls add_started add_failed started completed failed rolled_back]. rewrite in_flight_insert, Hk. cbn. lia. }
  - assert (∀ c, busy c = Some a → waits c = None → world_ok (set_call k c (set_life a Migrating (set_metrics add_started w))) i) as Hd.
    { intros c Hbusy Hwaits. split_and!.
      - apply safe_call; [by apply (safe_life a Migrating w i Hs)|]. by intros b r ->.
      - apply wired_call; [done| |congruence]. intros b Hb. by destruct (Hno b).
      - intros b Hb. cbn [set_call set_life set_metrics lives calls] in *. destruct (decide (b = a)) as [->|Hne].
        + exists k, c. by rewrite lookup_insert_eq.
        + rewrite lookup_insert_ne in Hb by done. destruct (Hh b Hb) as (j & c0 & Hj & Hb0). exists j, c0. rewrite lookup_insert_ne; [done|]. congruence.
      - unfold counted. cbn [set_call set_metrics set_life metrics calls add_started started completed failed rolled_back].
        rewrite in_flight_insert, Hk, Hbusy. cbn. lia. }
    destruct (MAX_MIGRATION_SNAPSHOT_BYTES <? len (sn_state s)); [|by apply Hd].
    destruct (Hd (CDrained a target s) eq_refl eq_refl) as (S1 & W1 & H1 & C1).
    set (e := SnapshotTooLarge (len (sn_state s)) MAX_MIGRATION_SNAPSHOT_BYTES).
    set (w1 := set_life a Migrating (set_metrics add_started w)) in *.
    assert (roll_back k a e w1 = roll_back k a e (set_call k (CDrained a target s) w1)) as ->.
    { unfold roll_back, finish, set_call. cbn [set_metrics set_life calls mesh pendings rewrites metrics channels lives copies]. by rewrite insert_insert_eq. }
    apply (roll_back_ok k a (CDrained a target s)); [done..| |done|].
    + cbn [set_call calls]. by rewrite lookup_insert_eq.
    + apply wired_finish; [exact W1|exact Hno].
Qed.

Lemma migration_register_ok k w i : world_ok w i → world_ok (register_pending k w) i.
Proof.
  intros (Hs & Hw & Hh & Hc & Hr). unfold register_pending. destruct (calls w !! k) as [[a target s| | |]|] eqn:Hk; try done.
  split_and!.
  - apply safe_call; [by apply safe_insert|done].
  - by apply wired_register.
  - apply held_call; [by rewrite insert_pending_spec|]. rewrite insert_pending_spec. cbn [calls]. rewrite Hk. intros c0 b [= <-]. auto.
  - rewrite insert_pending_spec. unfold counted. cbn [set_call metrics calls]. rewrite in_flight_insert, Hk. cbn. lia.
Qed.

Lemma ship_ok k stays deadline w i : world_ok w i → world_ok (ship k stays deadline w) i.
Proof.
  intros Hok. unfold ship. destruct (calls w !! k) as [[|a target s| |]|] eqn:Hk; try done.
  destruct (route_async _ _ _) as [[[]|e] m]; [|by eapply give_up_ok]. destruct Hok as (Hs & Hw & Hh & Hc & Hr). split_and!.
  - by apply safe_call.
  - apply wired_call; [done|..]; cbn [set_metrics set_mesh pendings channels].
    + intros b Hb. destruct Hw as [H1 _]. destruct (H1 b k Hb) as [_ (c & Hc' & Hb')]. rewrite Hk in Hc'. by injection Hc' as <-.
    + intros b [= <-]. destruct Hw as [_ H2]. by apply (H2 k _ a Hk).
  - apply held_call; [done|]. cbn [set_metrics set_mesh calls]. rewrite Hk. intros c0 b [= <-]. auto.
  - unfold counted. cbn [set_call set_metrics set_mesh metrics calls add_shipped started completed failed rolled_back].
    rewrite in_flight_insert, Hk. cbn. lia.
Qed.

Lemma deadline_ok k w i : world_ok w i → world_ok (on_deadline k w) i.
Proof.
  intros Hok. unfold on_deadline. destruct (calls w !! k) as [[| |a target b d|]|] eqn:Hk; try done. by eapply give_up_ok.
Qed.

Lemma reply_ok k stays queued w i : world_ok w i → world_ok (on_reply k stays queued w) i.
Proof.
  intros Hok. pose proof Hok as (Hs & Hw & Hh & Hc & Hr). unfold on_reply.
  destruct (calls w !! k) as [[| |a target b d|]|] eqn:Hk; try done. destruct (channels w !! k) as [[|[new|kind message]|]|] eqn:Hch; try done.
  - destruct (forward new stays queued (mesh w) 0) as [m n]. pose proof Hs as (H1 & H2 & H3 & H4). split_and!.
    + apply safe_call.
      * apply safe_life; [exact Hs|]. intros new' [= <-]. by eapply H2.
      * intros a' r [= <- <-]. split; [done|]. by eapply H2.
    + apply wired_finish; [exact Hw|]. intros b' Hb. destruct Hw as [Hp _]. destruct (Hp b' k Hb). congruence.
    + change (held (finish k a (Ok (mkReport a target new b n)) (set_life a (Remote new) w))). apply held_finish; [done|done|]. rewrite Hk. intros c0 b' [= <-]. cbn. congruence.
    + unfold counted, finish. cbn [set_call set_metrics set_mesh set_life set_rewrite metrics calls add_completed add_forwarded started completed failed rolled_back].
      rewrite in_flight_insert, Hk. cbn. lia.
  - apply (roll_back_ok k a _ _ w i Hs Hh (conj Hc Hr) Hk); [done|]. apply wired_finish; [exact Hw|].
    intros b' Hb. destruct Hw as [Hp _]. destruct (Hp b' k Hb). congruence.
  - by eapply give_up_ok.
Qed.

Lemma handle_ok f w i1 i2 : world_ok w (i1 ++ f :: i2) → world_ok (handle_reply f w).2 (i1 ++ i2).
Proof.
  intros (Hs & Hw & Hh & Hc). assert (safe w (i1 ++ i2)) as Hs' by (eapply safe_sub; [done|set_solver]).
  assert (∀ a r, (∀ new, r = PAck new → new ∈ copies w) → world_ok (deliver a r w) (i1 ++ i2)) as Hd.
  { intros a r Hr. split_and!; [by apply safe_deliver|by apply wired_deliver|by rewrite deliver_spec|by rewrite deliver_spec]. }
  destruct f as [| | | | | | | |a new route_to|]; cbn [handle_reply snd]; try done.
  - apply Hd. intros new' [= <-]. destruct Hs as [H1 _]. eapply (H1 a new route_to). set_solver.
  - by apply Hd.
Qed.

Lemma snapshot_back text sink f back new :
  handle_snapshot text sink f = Some (back, new) → ∀ a n r, back = MigrateAck a n r → new = Some n.
Proof.
  unfold handle_snapshot. destruct f; try done. destruct sink as [restore|]; [|by intros [= <- <-]].
  destruct (restore _); intros [= <- <-] ? ? ?; by intros [= <- <- <-].
Qed.

Definition net_ok (n : Net) : Prop := world_ok (world n) (incoming n).

Lemma net_step_ok text n n' : net_step text n n' → net_ok n → net_ok n'.
Proof.
  intros [k a target hook w o i Hk|k w o i|k stays d w o i|k stays queued w o i|k w o i|sink f back new w o1 o2 i Hf|f w o i1 i2|f w o1 o2 i|f w o i1 i2|m w o i Hm];
    unfold net_ok; cbn [world incoming]; intros Hok.
  - by apply begin_ok.
  - by apply migration_register_ok.
  - by apply ship_ok.
  - by apply reply_ok.
  - by apply deadline_ok.
  - destruct Hok as (Hs & Hrest). assert (safe (match new with Some n => add_copy n w | None => w end) i) as (H1 & H2 & H3 & H4).
    { destruct new; [by apply safe_copy|done]. }
    split; [|by destruct new]. split_and!; [|done..]. intros a new' r [Hin|Hin]%elem_of_app; [by eapply H1|].
    apply list_elem_of_singleton in Hin. rewrite (snapshot_back text sink f back new Hf a new' r) by done. cbn. set_solver.
  - by apply handle_ok.
  - done.
  - destruct Hok as (Hs & ?). split; [|done]. eapply safe_sub; [done|set_solver].
  - exact Hok.
Qed.

Lemma new_world_ok n : world_ok (new_world n) [].
Proof.
  split_and!.
  - split_and!; cbn; [set_solver|done..].
  - split; cbn; [done|done].
  - by intros a.
  - by cbn.
Qed.

Lemma net_reach_ok text n n' : rtc (net_step text) n n' → net_ok n → net_ok n'.
Proof. induction 1; [done|]. eauto using net_step_ok. Qed.

(** ** The messages held back *)

Definition as_send (new : AgentAddr) (q : QueuedMessage) : WireFrame := Send (qm_from q) new (qm_msg q) (qm_bytes q).

(** The peer's writer lives: every message is queued for it, in order. *)
Lemma forward_all new queued m n q :
  node new ≠ self_node m → peers m !! node new = Some (mkPeer true q) →
  forward new true queued m n =
  (with_peers m (<[node new := mkPeer true (q ++ (as_send new <$> queued))]> (peers m)), n + Z.of_nat (length queued)).
Proof.
  revert m n q. induction queued as [|x queued IH]; intros m n q Hself Hp; cbn [forward].
  - cbn [fmap list_fmap length]. rewrite app_nil_r, insert_id by done. f_equal; [by destruct m|lia].
  - unfold route_async, route_with, route_check. cbn [frame_target_node]. rewrite bool_decide_eq_false_2 by done. rewrite Hp.
    cbn [alive negb send_frame_async andb queue]. rewrite (IH _ (n + 1) (q ++ [as_send new x])).
    + cbn [with_peers peers self_node correlations fmap list_fmap]. rewrite insert_insert_eq, <-app_assoc. f_equal. cbn [length]. lia.
    + done.
    + cbn [with_peers peers]. by rewrite lookup_insert_eq.
Qed.

(** Without a peer that takes it nothing is queued, and nothing counted. *)
Lemma forward_none new stays queued m n :
  (node new = self_node m ∨ match peers m !! node new with Some p => alive p && stays = false | None => True end) →
  forward new stays queued m n = (m, n).
Proof.
  intros H. induction queued as [|x queued IH]; [done|]. cbn [forward]. unfold route_async, route_with, route_check in *. cbn [frame_target_node].
  destruct (decide (node new = self_node m)) as [E|Hne]; [by rewrite bool_decide_eq_true_2|]. rewrite bool_decide_eq_false_2 by done.
  destruct H as [|H]; [done|]. destruct (peers m !! node new) as [p|]; [|done]. destruct (alive p) eqn:Ea; cbn [negb]; [|done].
  unfold send_frame_async. rewrite Ea, H. exact IH.
Qed.
