(* ===== verification/ClusterTheorems.v ===== *)
(** * The cluster: the theorems *)

From stdpp Require Import base list strings numbers gmap sets relations.
From S2P Require Import Prelude Semver IrMethods ClusterTls ClusterWire ClusterMesh ClusterSupervisor ClusterMigration.

Local Open Scope Z_scope.
Local Open Scope list_scope.
Notation length := List.length (only parsing).
Notation bytes := (list Z) (only parsing).

(** ** The wire *)

(** C28. A stream of encoded frames, cut at any byte and then ended or broken,
    pushes exactly the frames that were whole before the cut, in order, up to
    a [Goodbye] and without the heartbeats. *)
Theorem stream_delivers `{CborOk} room peer fs bs k br :
  Forall2 (λ f b, encode_frame f = Ok b) fs bs →
  reader_task room peer (mkStream (take k (mjoin bs)) br) = pushed room peer 0 (whole k bs fs).
Proof. intros Hs. unfold reader_task. cbn [delivers]. apply reader_whole; [done|]. lia. Qed.

Lemma stream_delivers_witness :
  reader_task (λ _, true) [97] (mkStream (take 14 (mjoin [[0; 0; 0; 1; 1]; [0; 0; 0; 2; 4; 7]; [0; 0; 0; 1; 2]])) false)
  = [mkInbound [97] (Reply 7 [])].
Proof.
  apply (stream_delivers (λ _, true) [97] [Heartbeat; Reply 7 []; Goodbye] [[0; 0; 0; 1; 1]; [0; 0; 0; 2; 4; 7]; [0; 0; 0; 1; 2]] 14 false).
  repeat constructor.
Defined.

(** Decoding reads back an encoded frame at the front of any buffer, with its
    length; an encoding is bytes and no longer than the cap and its prefix. *)
Theorem frame_round_trip `{CborOk} f b rest :
  encode_frame f = Ok b →
  decode_frame (b ++ rest) = Ok (f, length b) ∧ Forall (λ x, 0 <= x < 256) b ∧ 4 <= len b <= MAX_FRAME_BYTES + 4.
Proof. intros He. split; [by apply decode_encode|by eapply encode_bytes]. Qed.

Lemma frame_round_trip_witness : decode_frame ([0; 0; 0; 3; 4; 9; 200] ++ [1; 2]) = Ok (Reply 9 [200], 7%nat).
Proof. by apply (frame_round_trip (Reply 9 [200]) [0; 0; 0; 3; 4; 9; 200] [1; 2]). Defined.

(** A peer whose handshake is accepted with a certificate has the node id
    that the certificate names: the subject's common name, or the issuer's
    where the subject has none; it is the id dialed, and its first frame said
    so with our version. *)
Theorem handshake_binds `{Cbor} lossy local c chain expected s id s' :
  cert_fits c →
  handshake lossy local (Some (cert_der c :: chain)) expected s = Ok (id, s') →
  (∃ cn, match common_name (subject c) with Some n => Some n | None => common_name (issuer c) end = Some cn ∧ id = from_utf8_lossy lossy cn) ∧
  (∀ e, expected = Some e → e = id) ∧ read_frame s = (Ok (Some (Hello id WIRE_VERSION)), s').
Proof.
  intros Hc. unfold handshake. destruct (write_frame [] _); [|done]. destruct (read_frame s) as [[[f|]|e] s1] eqn:Er; [|done|done].
  destruct f as [node version| | | | | | | | |]; try done. destruct (Z.eqb_spec version WIRE_VERSION) as [->|]; [|done]. cbn [negb].
  unfold verify_peer_identity, cert_node_id. rewrite extract_spec by done.
  destruct (match common_name (subject c) with Some n => Some n | None => common_name (issuer c) end) as [cn|]; [|done].
  cbn [fmap option_fmap option_map mbind Res_bind]. case_bool_decide as En; [|done]. cbn [identify mbind Res_bind].
  destruct expected as [e|].
  - case_bool_decide as Ee; [|done]. cbn [identify mbind Res_bind]. intros [= <- <-]. split; [by eexists|]. split; [|by subst].
    intros e' [= <-]. congruence.
  - intros [= <- <-]. split; [by eexists|]. by split.
Qed.

(** A certificate that names [n1], signed by [ca]. *)
Definition demo_name (n : list Z) : list (list Atv) := [[mkAtv [85; 4; 10] 12 [109; 116; 121]]; [mkAtv CN_OID 12 n]].
Definition demo_cert : Cert := mkCert [(160, [2; 1; 2]); (2, [1])] (demo_name [99; 97]) [(48, [23; 0])] (demo_name [110; 49]) [(48, [3; 1; 0])] [3; 1; 0].

Lemma demo_fits : cert_fits demo_cert.
Proof.
  split.
  - repeat constructor; cbn; lia || done.
  - split; [repeat constructor|]; vm_compute; done.
  - split; [repeat constructor|]; vm_compute; done.
  - by vm_compute.
Defined.

Lemma handshake_binds_witness : ∃ cn, Some [110; 49] = Some cn ∧ [110; 49] = from_utf8_lossy (λ b, b) cn.
Proof.
  destruct (handshake_binds (λ b, b) [97] demo_cert [] (Some [110; 49]) (mkStream [0; 0; 0; 4; 3; 1; 110; 49] false) [110; 49] (mkStream [] false) demo_fits)
    as [Hc _]; [by vm_compute|exact Hc].
Defined.

(** The pause before the [n]-th reconnection: 100 ms doubled each time up to
    30 s, and never less nor more. *)
Theorem backoff_doubles n :
  (1 <= n <= 9 → reconnect_backoff n = 100 * 2 ^ (n - 1)) ∧ (10 <= n → reconnect_backoff n = 30000) ∧ 100 <= reconnect_backoff n <= 30000.
Proof.
  unfold reconnect_backoff, RECONNECT_INITIAL_MS, RECONNECT_MAX_MS, u64_max. rewrite Z.shiftl_mul_pow2, Z.mul_1_l by lia.
  set (e := Z.min (Z.max (n - 1) 0) 20). assert (0 <= e <= 20) as He by lia.
  assert (∀ i j, 0 <= i <= j → 2 ^ i <= 2 ^ j) as Hmono by (intros; apply Z.pow_le_mono_r; lia).
  pose proof (Hmono 0 e ltac:(lia)). pose proof (Hmono e 20 ltac:(lia)). change (2 ^ 0) with 1 in *. change (2 ^ 20) with 1048576 in *.
  split_and!; [|intros Hn|lia..].
  - intros Hn. assert (e = n - 1) as -> by lia. pose proof (Hmono (n - 1) 8 ltac:(lia)). change (2 ^ 8) with 256 in *. lia.
  - pose proof (Hmono 9 e ltac:(lia)). change (2 ^ 9) with 512 in *. lia.
Qed.

Lemma backoff_doubles_witness : reconnect_backoff 3 = 400 ∧ reconnect_backoff 12 = 30000.
Proof. split; [apply (backoff_doubles 3)|apply (backoff_doubles 12)]; lia. Defined.

(** ** The mesh *)

(** C14. In any interleaving of the single operations, on the counter, the maps
    and the channels, of asks, given-up asks, frames, lost peers and shutdowns:
    the sender of an id handed out is in exactly one place - with one task,
    waiting in the table, used for an answer, or dropped -, an answer is about
    the id it was given for, what an ask gets it gets ever after, whatever waits
    in the table has a task that waits for its answer or will take it out, and
    the next ask gets an id that is in no place. *)
Theorem ask_answered_once n r1 r2 id :
  rtc mesh_step (new_run n) r1 → rtc mesh_step r1 r2 →
  let t := correlations (run_mesh r1) in
  (1 <= id <= next_id t → ∃ st, at_stage id r1 st ∧ ∀ st', at_stage id r1 st' → st' = st) ∧
  (ClusterMesh.held id (tasks r1) <= 1)%nat ∧
  (∀ f, answers t !! id = Some f → answers_ask id f) ∧
  (∀ res, end_ask id (run_mesh r1) = Some res → end_ask id (run_mesh r2) = Some res) ∧
  (id ∈ pending t → end_ask id (run_mesh r1) = None ∧ ∃ a, a ∈ mjoin (tasks r1) ∧ keeps id a) ∧
  ∀ st, ¬ at_stage (take_id t).1 r1 st.
Proof.
  intros H1 H2. cbn zeta. destruct (mesh_reachable_ok _ _ H1 (new_run_ok n)) as [Hok _].
  destruct (mesh_reachable_ok _ _ H2 Hok) as [Hok2 (_ & Ga & Gc)]. destruct (stage_unique r1 id Hok) as [Hh Hst]. split_and!.
  - intros Hid. by rewrite decide_True in Hst.
  - done.
  - apply (ro_frames _ Hok).
  - intros res. unfold end_ask. destruct (answers (correlations (run_mesh r1)) !! id) as [f|] eqn:E.
    { by rewrite (lookup_weaken _ _ _ _ E Ga). }
    case_bool_decide as Hcl; [|done]. intros [= <-]. pose proof (Gc id Hcl) as Hcl2.
    destruct (answers (correlations (run_mesh r2)) !! id) as [f|] eqn:E2; [|by rewrite bool_decide_eq_true_2].
    destruct (stage_unique r2 id Hok2) as [_ Hst2]. destruct (decide (1 <= id ∧ id <= next_id (correlations (run_mesh r2)))) as [Hr|Hr]; [|by destruct (Hst2 GivenUp)].
    destruct Hst2 as (st & _ & Hu). pose proof (Hu GivenUp Hcl2). assert (Answered = st) by (apply Hu; by eexists). congruence.
  - intros Hid. split; [|by apply (ro_kept _ Hok)]. unfold end_ask. destruct (pending_alone _ _ Hok Hid) as [-> Hcl].
    by rewrite bool_decide_eq_false_2.
  - pose proof (proj2 (stage_unique r1 (take_id (correlations (run_mesh r1))).1 Hok)) as Hf.
    rewrite decide_False in Hf by (cbn; lia). exact Hf.
Qed.

Definition demo_to : AgentAddr := mkAddr [98] "Echo" 1.
Definition demo_from : AgentAddr := mkAddr [97] "Main" 0.
Definition demo_mesh : Mesh := install_peer [98] (mkPeer true []) (new_mesh [97]).

(** The table with the ask [1] to [b], waiting. *)
Definition asked : Run :=
  mkRun (with_table demo_mesh (insert_target 1 [98] (ClusterMesh.insert_pending 1 (take_id new_table).2)))
    [[ACheck (Ask demo_from demo_to "ping" [] 1) (Some 1); AWait 1]].

Lemma asked_reached : rtc mesh_step (new_run [97]) asked.
Proof.
  eapply rtc_l; [apply (ms_install [98] (mkPeer true []))|]. eapply rtc_l; [by apply (ms_ask demo_from demo_to "ping" [])|].
  exact (register_alone (with_table demo_mesh (take_id new_table).2) 1 [98]
    [ACheck (Ask demo_from demo_to "ping" [] 1) (Some 1); AWait 1] []).
Qed.

(** The table after the loss of [b]. *)
Definition lost_b : Run :=
  mkRun (peer_lost [98] (run_mesh asked)) ([] :: tasks asked).

Lemma lost_b_reached : rtc mesh_step asked lost_b.
Proof.
  eapply rtc_l; [apply (ms_lost [98] [1])|]. rewrite <-(app_nil_r (fail_actions _ _)).
  exact (fail_alone (peer_disconnected [98]) [1] (run_mesh asked) [] (tasks asked)).
Qed.

Lemma ask_answered_once_witness :
  end_ask 1 (run_mesh asked) = None ∧ (∃ a, a ∈ mjoin (tasks asked) ∧ keeps 1 a) ∧
  ∀ r, rtc mesh_step lost_b r →
    end_ask 1 (run_mesh r) = Some (Ok (RRErr "peer_disconnected" "peer for node b disconnected mid-ask")).
Proof.
  destruct (ask_answered_once [97] _ _ 1 asked_reached lost_b_reached) as (_ & _ & _ & _ & Hw & _).
  destruct Hw as [Hw Hk]; [by vm_compute|]. split; [exact Hw|]. split; [exact Hk|]. intros r Hr.
  assert (rtc mesh_step (new_run [97]) lost_b) as R by (etrans; [exact asked_reached|exact lost_b_reached]).
  destruct (ask_answered_once [97] _ _ 1 R Hr) as (_ & _ & _ & Hkeep & _). apply Hkeep. by vm_compute.
Defined.

(** The mesh after a shutdown between the two inserts of [register_for_node]. *)
Definition leaked : Mesh :=
  with_table demo_mesh (insert_target 1 [98] (complete 1 (mesh_shutdown 1) (ClusterMesh.insert_pending 1 (take_id new_table).2)).2).

(** The two maps are not changed together: a shutdown between the two inserts
    of [register_for_node] answers the ask, whose target is inserted after
    that; the ask ends by its answer, without its guard, and the target stays
    for good. *)
Theorem target_outlives_ask :
  rtc mesh_step (new_run [97]) (mkRun leaked [[]; []]) ∧ pending (correlations leaked) = ∅
  ∧ end_ask 1 leaked = Some (Ok (RRErr "mesh_shutdown" "cluster mesh shutting down"))
  ∧ targets (correlations leaked) !! 1 = Some [98].
Proof.
  split; [|by vm_compute]. set (ask := Ask demo_from demo_to "ping" [] 1).
  eapply rtc_l; [apply (ms_install [98] (mkPeer true []))|]. eapply rtc_l; [by apply (ms_ask demo_from demo_to "ping" [])|].
  eapply rtc_l; [apply (ms_act _ _ [] _ _ _ _ (x_insert _ _ _))|]. eapply rtc_l; [apply (ms_shutdown [1] [])|].
  etrans; [exact (complete_alone _ (mesh_shutdown 1) 1 [] _)|].
  eapply rtc_l; [exact (ms_act _ _ [[]] _ _ _ _ (x_target _ 1 [98] [ACheck ask (Some 1); AWait 1]))|].
  eapply rtc_l; [exact (ms_act leaked leaked [[]] _ _ _ _ (x_check leaked ask (Some 1) _ [98] (mkPeer true []) eq_refl))|].
  eapply rtc_l; [exact (ms_act leaked leaked [[]] _ _ _ _ (x_push_old leaked [98] ask (Some 1) _))|].
  apply rtc_once. exact (ms_act leaked leaked [[]] _ _ _ _ (x_answered leaked 1 (mesh_shutdown 1) [] eq_refl)).
Qed.

(** The loss of a peer, when no other task comes between, answers the asks that
    wait for its node with [peer_disconnected] and leaves the others waiting; a
    shutdown answers them all with [mesh_shutdown]. *)
Theorem failures_answer n r lost id :
  rtc mesh_step (new_run n) r → let m := run_mesh r in id ∈ pending (correlations m) →
  end_ask id (peer_lost lost m) =
    (if bool_decide (targets (correlations m) !! id = Some lost)
     then Some (Ok (RRErr "peer_disconnected" ("peer for node " +:+ of_ascii lost +:+ " disconnected mid-ask"))) else None) ∧
  end_ask id (shutdown m) = Some (Ok (RRErr "mesh_shutdown" "cluster mesh shutting down")) ∧
  pending (correlations (shutdown m)) = ∅.
Proof.
  intros R m Hid. destruct (mesh_reachable_ok _ _ R (new_run_ok n)) as [Hok _].
  destruct (peer_lost_spec lost m (λ i Hi, proj1 (pending_alone _ _ Hok Hi)) id Hid) as (Hcl & H1 & H2).
  destruct (shutdown_spec m) as [H3 H4]. split_and!.
  - unfold end_ask. destruct (decide (targets (correlations m) !! id = Some lost)) as [Ht|Ht]; [rewrite (bool_decide_eq_true_2 (_ = Some lost)) by done|rewrite (bool_decide_eq_false_2 (_ = Some lost)) by done].
    + destruct (H1 Ht) as [_ ->]. done.
    + destruct (H2 Ht) as [Hpe ->]. rewrite bool_decide_eq_false_2; [done|]. rewrite Hcl. by apply (pending_alone _ _ Hok).
  - unfold end_ask. by rewrite (H4 id Hid).
  - done.
Qed.

Lemma failures_answer_witness : pending (correlations (shutdown (run_mesh asked))) = ∅.
Proof. apply (failures_answer [97] asked [98] 1 asked_reached). by vm_compute. Defined.

(** A dialer that never connects pauses ten times, for 100 ms doubled up to
    30 s, and stops for good; a round that finds its peer gone answers the
    asks that waited for it and tells the supervisors, once. *)
Theorem dialer_gives_up entry m w :
  has_peer m entry = false →
  pauses 11 entry (mkDialer 0 w) m = Some [100; 200; 400; 800; 1600; 3200; 6400; 12800; 25600; 30000] ∧
  ∀ valid result, match dial_round entry valid result (mkDialer 0 w) m with
    | (Watch _, _) => False
    | (GiveUp lost, m') => lost = w ∧ m' = if w then peer_lost entry m else m
    | (Again lost d, m') => lost = w ∧ was_connected d = false
    | (Pause lost _ d, m') => lost = w ∧ was_connected d = false ∧ m' = if w then peer_lost entry m else m
    end.
Proof.
  intros Hp. split; [rewrite pauses_end by (done || cbn; lia); by vm_compute|]. intros valid result. unfold dial_round. rewrite Hp.
  cbn [attempt was_connected]. destruct (negb _ && _), valid, result as [[]|]; cbn; auto.
Qed.

Lemma dialer_gives_up_witness : pauses 11 [98] (mkDialer 0 true) (new_mesh [97]) = Some [100; 200; 400; 800; 1600; 3200; 6400; 12800; 25600; 30000].
Proof. by apply (dialer_gives_up [98] (new_mesh [97]) true). Defined.

(** ** Supervision *)

(** C20. The circuit breaker of a child holds over all its restarts since it was
    added, by exits and by lost nodes: a restart and the [max_restarts]-th
    after it are at least the window apart; and the exit of a child that is
    not dead requests a restart exactly when the policy wants one and fewer
    than [max_restarts] were requested within the window.  (What an exit
    reported for a dead child does is [dead_child_revived].) *)
Theorem breaker_holds iter s logs t a c :
  Reaches iter s logs t → children s !! a = Some c →
  (∀ l i x y, logs !! a = Some l → l !! i = Some x → l !! (i + Z.to_nat (max_restarts (spec c)))%nat = Some y → window_ns (spec c) <= y - x) ∧
  ∀ reason now, t <= now → (∀ why, state c ≠ Dead why) →
    requested a (on_child_exit iter a reason now s).2 =
    should_restart (restart (spec c)) reason &&
    (Z.of_nat (length (recent (window_ns (spec c)) now (default [] (logs !! a)))) <? max_restarts (spec c)).
Proof.
  intros R Hc. destruct (reaches_ok iter s logs t R a c Hc) as [_ Hh]. split.
  - intros l i x y Hl Hi Hj. rewrite Hl in Hh. by eapply (ho_apart _ _ _ Hh).
  - intros reason now Ht _. rewrite (ho_recent _ _ _ Hh now Ht). pose proof (ho_spec _ _ _ Hh) as Hu. pose proof (ho_room _ _ _ Hh) as Hroom.
    pose proof (recent_length (window_ns (spec c)) now (restart_history c)) as Hl. unfold spec_u32 in Hu.
    assert (∀ c', spec (restarting c') = spec c' ∧ restart_history (restarting c') = restart_history c') as Hrs
      by (intros c'; unfold restarting; by destruct (is_noproc _)).
    unfold on_child_exit. rewrite Hc. unfold plan_restart. cbn [with_children children strategy]. rewrite lookup_insert_eq.
    destruct (Hrs c) as [-> ->]. fold (recent (window_ns (spec c)) now (restart_history c)). rewrite Z.mod_small by lia.
    assert (∃ sibs, wake_with iter (with_children s (<[a := restarting c]> (children s))) a = Some sibs) as [sibs ->].
    { unfold wake_with. cbn [with_children strategy children]. rewrite lookup_insert_eq. destruct (strategy s); by eexists. }
    destruct (should_restart _ _); cbn [negb andb]; [|done]. rewrite Z.ltb_antisym. destruct (_ <=? _); cbn [snd requested existsb negb]; [done|].
    by rewrite bool_decide_eq_true_2.
Qed.

Definition demo_spec : ChildSpec := mkSpec demo_to Permanent 1 1000.
Definition demo_child : Inner := add_child demo_spec (new_supervisor OneForOne).

Lemma breaker_holds_witness :
  requested demo_to (on_child_exit map_to_list demo_to (Crashed "e") 5 (on_child_exit map_to_list demo_to (Crashed "e") 3 demo_child).1).2 = false.
Proof.
  assert (Reaches map_to_list demo_child (<[demo_to := []]> ∅) 0) as R0 by (apply (R_add _ _ _ _ demo_spec); [constructor|by vm_compute]).
  pose proof (R_exit _ _ _ _ demo_to (Crashed "e") 3 R0 ltac:(lia)) as R1.
  destruct (breaker_holds _ _ _ _ demo_to (mkChild demo_spec Restarting [3] 0) R1) as [_ Hx]; [by vm_compute|].
  rewrite (Hx (Crashed "e") 5 ltac:(lia) ltac:(done)). by vm_compute.
Defined.

(** The siblings a failure wakes, in any order of the table: none, all the
    others, or those added after the failed child, each once. *)
Theorem siblings_exact iter s logs t a c :
  Reaches iter s logs t → (∀ m, iter m ≡ₚ map_to_list m) → children s !! a = Some c →
  ∃ sibs, wake_with iter s a = Some sibs ∧ NoDup sibs ∧
    ∀ b, b ∈ sibs ↔ b ≠ a ∧ ∃ c', children s !! b = Some c' ∧
      match strategy s with OneForOne => False | OneForAll => True | RestForOne => sequence c < sequence c' end.
Proof.
  intros R Hiter Hc. pose proof (reaches_ok iter s logs t R) as Hok.
  assert (∀ kv, kv ∈ iter (children s) ↔ children s !! kv.1 = Some kv.2) as Hin.
  { intros [k v]. rewrite (Hiter (children s)). by rewrite elem_of_map_to_list. }
  assert (NoDup (fst <$> iter (children s))) as Hnd by (rewrite (Hiter (children s)); apply NoDup_fst_map_to_list).
  unfold wake_with. rewrite Hc. destruct (strategy s); cbn [mbind option_bind]; (eexists; split; [reflexivity|]).
  - split; [constructor|]. intros b. split; [intros Hb; exfalso; by apply elem_of_nil in Hb|]. by intros (_ & c' & _ & []).
  - split; [apply NoDup_ListNoDup, List.NoDup_filter, NoDup_ListNoDup, Hnd|]. intros b. rewrite list_elem_of_In, List.filter_In, <-list_elem_of_In.
    rewrite negb_true_iff, bool_decide_eq_false, list_elem_of_fmap. split.
    + intros [([k v] & -> & Hkv%Hin) Hne]. cbn in *. eauto.
    + intros [Hne (c' & Hc' & _)]. split; [|done]. exists (b, c'). split; [done|]. by apply Hin.
  - assert (∀ f, NoDup ((λ kv : AgentAddr * ChildRecord, addr (spec kv.2)) <$> List.filter f (iter (children s)))) as Hn.
    { intros f. assert (∀ l, (∀ kv, kv ∈ l → children s !! kv.1 = Some kv.2) → NoDup (fst <$> l) → NoDup ((λ kv : AgentAddr * ChildRecord, addr (spec kv.2)) <$> List.filter f l)) as Hl.
      { clear -Hok. induction l as [|[k v] l IH]; intros Hl Hnd; [constructor|]. cbn [fmap list_fmap] in Hnd. apply NoDup_cons in Hnd as [Hk Hnd].
        assert (∀ kv, kv ∈ l → children s !! kv.1 = Some kv.2) as Hl' by (intros; apply Hl; set_solver).
        cbn [List.filter]. destruct (f (k, v)); [|by apply IH]. cbn [fmap list_fmap]. apply NoDup_cons. split; [|by apply IH].
        intros ([k' v'] & E & Hf)%list_elem_of_fmap. apply list_elem_of_In, List.filter_In in Hf as [Hf%list_elem_of_In _]. cbn in E.
        destruct (Hok k v) as [E1 _]; [apply (Hl (k, v)); set_solver|]. destruct (Hok k' v') as [E2 _]; [by apply (Hl' (k', v'))|].
        apply Hk. apply list_elem_of_fmap. exists (k', v'). split; [cbn; congruence|done]. }
      apply Hl; [|done]. intros kv. apply Hin. }
    split; [apply Hn|]. intros b. rewrite list_elem_of_fmap. split.
    + intros ([k v] & -> & Hf). apply list_elem_of_In, List.filter_In in Hf as [Hf%list_elem_of_In Ht]. apply Hin in Hf. cbn in *.
      destruct (Hok k v Hf) as [Ek _]. rewrite Ek. apply andb_true_iff in Ht as [Hlt%Z.ltb_lt Hne]. rewrite negb_true_iff, bool_decide_eq_false, Ek in Hne. eauto.
    + intros [Hne (c' & Hc' & Hlt)]. exists (b, c'). cbn. destruct (Hok b c' Hc') as [Eb _]. split; [done|]. apply list_elem_of_In, List.filter_In.
      split; [by apply list_elem_of_In, Hin|]. cbn. rewrite Eb. apply andb_true_iff. split; [by apply Z.ltb_lt|]. by rewrite negb_true_iff, bool_decide_eq_false.
Qed.

Lemma siblings_exact_witness : ∃ sibs, wake_with map_to_list demo_child demo_to = Some sibs ∧ NoDup sibs.
Proof.
  assert (Reaches map_to_list demo_child (<[demo_to := []]> ∅) 0) as R0 by (apply (R_add _ _ _ _ demo_spec); [constructor|by vm_compute]).
  destruct (siblings_exact map_to_list demo_child _ 0 demo_to (mkChild demo_spec Running [] 0) R0) as (sibs & H1 & H2 & _); [done|by vm_compute|by exists sibs].
Defined.

(** The least loaded policy answers the first by name of the available nodes
    with the fewest children, whatever the order of the list; the sticky
    policy keeps the current node where it is available. *)
Theorem placement_exact sp ctx n :
  n ∈ available_nodes ctx →
  (LeastLoadedPolicy sp ctx = n ↔ least ctx (available_nodes ctx) n) ∧
  (current_node ctx = Some n → StickyPolicy sp ctx = n) ∧
  ((∀ m, current_node ctx = Some m → m ∉ available_nodes ctx) → StickyPolicy sp ctx = LeastLoadedPolicy sp ctx).
Proof.
  intros Hn. split_and!.
  - unfold LeastLoadedPolicy, or_current. rewrite <-least_loaded_exact. destruct (least_loaded ctx) as [m|] eqn:E; [by split; [intros ->|intros [= ->]]|].
    pose proof (better_least ctx (available_nodes ctx)) as Hb. unfold least_loaded in E.
    destruct (foldl (better ctx) None (available_nodes ctx)); [done|]. rewrite Hb in Hn. exfalso. by apply elem_of_nil in Hn.
  - intros E. unfold StickyPolicy. by rewrite E, bool_decide_eq_true_2.
  - intros Hm. unfold StickyPolicy. destruct (current_node ctx) as [m|]; [|done]. rewrite bool_decide_eq_false_2; [done|by apply Hm].
Qed.

Lemma placement_exact_witness : StickyPolicy demo_spec (mkCtx [[97]; [98]] (Some [98]) ∅) = [98].
Proof. apply (placement_exact demo_spec (mkCtx [[97]; [98]] (Some [98]) ∅) [98]); [by apply list_elem_of_In; cbn; auto|done]. Defined.

(** ** Migration *)

(** C21. No migration loses an agent, whatever calls, deadlines, lost frames and
    nodes interleave: on the source it is active, or a call still works on it,
    or it is remote and its new copy was restored; a report names a restored
    copy; and the counters add up. *)
Theorem migration_loses_nothing text n net :
  rtc (net_step text) (mkNet (new_world n) [] []) net →
  let w := world net in
  (∀ a l, lives w !! a = Some l →
    match l with
    | Active => True
    | Migrating => ∃ k c, calls w !! k = Some c ∧ busy c = Some a
    | Remote new => new ∈ copies w
    end) ∧
  (∀ k a r, calls w !! k = Some (CDone a (Ok r)) → rp_agent r = a ∧ rp_new r ∈ copies w) ∧
  started (metrics w) = completed (metrics w) + failed (metrics w) + in_flight (calls w) ∧
  0 <= rolled_back (metrics w) <= failed (metrics w).
Proof.
  intros R. cbn zeta. destruct (net_reach_ok text _ _ R (new_world_ok n)) as ((H1 & H2 & H3 & H4) & _ & Hh & Hc & Hr). split_and!; [|done|done|lia|lia].
  intros a l Hl. destruct l; [done|by apply Hh|by eapply H3].
Qed.

(** Every call can end, whatever became of its frames: once its deadline
    passes, or its snapshot cannot be sent, it answers that error and its
    agent is active on the source. *)
Theorem call_ends text net k c a deadline :
  calls (world net) !! k = Some c → busy c = Some a →
  ∃ net' e, rtc (net_step text) net net' ∧ calls (world net') !! k = Some (CDone a (Err e)) ∧ lives (world net') !! a = Some Active ∧
    (e = Deadline match c with CWaiting _ _ _ d => d | _ => deadline end ∨ ∃ m, e = MMesh m).
Proof.
  intros Hc Hb.
  assert (∀ w o i t b d, calls w !! k = Some (CWaiting a t b d) →
    ∃ net' e, rtc (net_step text) (mkNet w o i) net' ∧ calls (world net') !! k = Some (CDone a (Err e)) ∧ lives (world net') !! a = Some Active ∧
      e = Deadline d) as Hwait.
  { intros w o i t b d Hk. exists (mkNet (on_deadline k w) o i), (Deadline d). split; [by eapply rtc_l; [constructor|apply rtc_refl]|].
    unfold on_deadline. rewrite Hk. cbn. by rewrite !lookup_insert_eq. }
  assert (∀ w o i t s d, calls w !! k = Some (CPending a t s) →
    ∃ net' e, rtc (net_step text) (mkNet w o i) net' ∧ calls (world net') !! k = Some (CDone a (Err e)) ∧ lives (world net') !! a = Some Active ∧
      (e = Deadline d ∨ ∃ m, e = MMesh m)) as Hpend.
  { intros w o i t s d Hk. pose proof (ns_ship text k true d w o i) as St. unfold ship in St at 1. rewrite Hk in St at 1.
    destruct (route_async true (mesh w) (MigrateSnapshot a t (sn_type s) (sn_hash s) (sn_state s))) as [[[]|e] m] eqn:Er.
    - set (w1 := set_call k _ _) in St. destruct (Hwait w1 (o ++ (if accepted w k true then shipped w k else [])) i t (len (sn_state s)) d) as (net' & e & R & Hd & Hl & He).
      + unfold w1. cbn. by rewrite lookup_insert_eq.
      + exists net', e. split; [by eapply rtc_l|]. auto.
    - eexists _, (MMesh e). split; [eapply rtc_l; [exact St|apply rtc_refl]|]. cbn. rewrite !lookup_insert_eq. eauto. }
  destruct net as [w o i]. cbn [world] in *. destruct c as [b t s|b t s|b t n0 d|b r]; cbn in Hb; try done; injection Hb as ->.
  - pose proof (ns_register text k w o i) as St. unfold register_pending in St. rewrite Hc in St.
    destruct (Hpend (set_call k (CPending a t s) (insert_pending a k w)) o i t s deadline) as (net' & e & R & Hrest); [cbn; by rewrite lookup_insert_eq|].
    exists net', e. split; [by eapply rtc_l|done].
  - by apply (Hpend w o i t s deadline).
  - destruct (Hwait w o i t n0 d Hc) as (net' & e & R & Hd & Hl & ->). exists net', (Deadline d). auto.
Qed.

(** The messages held back are queued for the new address in their order, and
    all of them counted, while its node has a live peer; otherwise none is. *)
Theorem forward_exact new queued m q :
  node new ≠ self_node m →
  (peers m !! node new = Some (mkPeer true q) →
    forward new true queued m 0 = (with_peers m (<[node new := mkPeer true (q ++ (as_send new <$> queued))]> (peers m)), Z.of_nat (length queued))) ∧
  (has_peer m (node new) = false → ∀ stays, forward new stays queued m 0 = (m, 0)).
Proof.
  intros Hne. split; [by apply forward_all|]. unfold has_peer. intros Hp stays. apply forward_none. right.
  destruct (peers m !! node new) as [p|]; [by rewrite Hp|done].
Qed.

Definition demo_agent : AgentAddr := mkAddr [97] "Echo" 1.
Definition demo_world : World := set_mesh (install_peer [98] (mkPeer true []) (new_mesh [97])) (new_world [97]).
Definition demo_snapshot : AgentSnapshot := mkSnapshot "Echo" 7 [1; 2].
Definition demo_frame : WireFrame := MigrateSnapshot demo_agent [98] "Echo" 7 [1; 2].

Definition demo_sent : World := ship 0 true 50 (register_pending 0 (begin_migrate 0 demo_agent [98] (Some (Ok demo_snapshot)) demo_world)).

Lemma demo_ships : rtc (net_step (λ _, "")) (mkNet (new_world [97]) [] []) (mkNet demo_sent [demo_frame] []).
Proof.
  eapply rtc_l; [apply (ns_peers _ (install_peer [98] (mkPeer true []) (new_mesh [97]))); reflexivity|].
  eapply rtc_l; [apply (ns_begin _ 0 demo_agent [98] (Some (Ok demo_snapshot))); reflexivity|].
  eapply rtc_l; [apply (ns_register _ 0)|]. eapply rtc_l; [apply (ns_ship _ 0 true 50)|]. apply rtc_refl.
Defined.

Lemma migration_loses_nothing_witness : ∃ k c, calls demo_sent !! k = Some c ∧ busy c = Some demo_agent.
Proof.
  destruct (migration_loses_nothing (λ _, "") [97] _ demo_ships) as [Hl _]. apply (Hl demo_agent Migrating). by vm_compute.
Defined.

Lemma call_ends_witness :
  ∃ net' e, rtc (net_step (λ _, "")) (mkNet demo_sent [demo_frame] []) net' ∧ calls (world net') !! 0%nat = Some (CDone demo_agent (Err e)).
Proof.
  destruct (call_ends (λ _, "") (mkNet demo_sent [demo_frame] []) 0%nat (CWaiting demo_agent [98] 2 50) demo_agent 50) as (net' & e & R & Hd & _); [by vm_compute..|eauto].
Defined.

Lemma forward_exact_witness :
  (forward demo_to true [mkQueued demo_agent "m1" []; mkQueued demo_agent "m2" []] (mesh demo_world) 0).2 = 2.
Proof.
  destruct (forward_exact demo_to [mkQueued demo_agent "m1" []; mkQueued demo_agent "m2" []] (mesh demo_world) []) as [H _]; [by vm_compute|].
  rewrite H; by vm_compute.
Defined.

(** ** What the model showed *)

(** A certificate without a subject common name passes as its issuer. *)
Example issuer_identifies :
  verify_peer_identity (λ b, b) (cert_der (mkCert [] (demo_name [99; 97]) [] [] [] [])) [99; 97] = Ok ().
Proof. by vm_compute. Qed.

(** A stream cut within a length prefix reads as one closed between frames. *)
Example cut_prefix_is_eof `{Cbor} : (read_frame (mkStream [0; 0; 1] false)).1 = Ok None.
Proof. reflexivity. Qed.

(** An exit reported for a child that its breaker had stopped starts it
    again. *)
Example dead_child_revived :
  let s1 := (on_child_exit map_to_list demo_to (Crashed "e") 3 demo_child).1 in
  let s2 := (on_child_exit map_to_list demo_to (Crashed "e") 5 s1).1 in
  let s3 := (on_child_exit map_to_list demo_to (Crashed "e") 2000000000 s2).1 in
  state_of demo_to s2 = Some (Dead (Breaker 1 1000)) ∧ state_of demo_to s3 = Some Restarting.
Proof. by vm_compute. Qed.

(** A deadline that passes after the target restored leaves two live copies. *)
Example two_live_copies :
  ∃ net, rtc (net_step (λ _, "")) (mkNet (new_world [97]) [] []) net ∧
    lives (world net) !! demo_agent = Some Active ∧ demo_to ∈ copies (world net).
Proof.
  exists (mkNet (on_deadline 0 (add_copy demo_to demo_sent)) [] [MigrateAck demo_agent demo_to [97]]). split; [|by vm_compute].
  etransitivity; [exact demo_ships|].
  eapply rtc_l; [apply (ns_restore _ (Some (λ _, Ok demo_to)) demo_frame (MigrateAck demo_agent demo_to [97]) (Some demo_to) demo_sent [] []); reflexivity|].
  eapply rtc_l; [apply (ns_deadline _ 0)|]. apply rtc_refl.
Qed.

(** A second call for an agent closes the channel of the first, whose failure
    then closes the second's: the target's acknowledgement is dropped. *)
Example two_calls_both_fail :
  let w1 := demo_sent in
  let w2 := ship 1 true 50 (register_pending 1 (begin_migrate 1 demo_agent [98] (Some (Ok demo_snapshot)) w1)) in
  let w3 := on_reply 0 true [] w2 in
  let w4 := (handle_reply (MigrateAck demo_agent demo_to [97]) w3).2 in
  calls (on_reply 1 true [] w4) !! 0%nat = Some (CDone demo_agent (Err (Internal "migration reply channel closed"))) ∧
  calls (on_reply 1 true [] w4) !! 1%nat = Some (CDone demo_agent (Err (Internal "migration reply channel closed"))).
Proof. by vm_compute. Qed.

(** A peer that names itself other than it is configured is dialed again at
    once, and every connection succeeds. *)
Example misnamed_peer_is_redialed :
  let round m := dial_round [98] true (Some ([99], mkPeer true [])) (mkDialer 0 false) m in
  (round (new_mesh [97])).1 = Again false (mkDialer 0 false) ∧ (round (round (new_mesh [97])).2).1 = Again false (mkDialer 0 false).
Proof. by vm_compute. Qed.
