(* ===== verification/Replay.v ===== *)
(** * Traces of a run and their replay

    [crates/mty-runtime/src/replay/]: [wire.rs], [recorder.rs], [mod.rs] and
    [replay_driver.rs].  A string is its list of characters; a [u64] of a
    trace is a [Z].  [serde_json] is the class [Serde]; the [Debug] text of a
    value is the parameter [debug].  A float is a [spec_float], which has one
    NaN.  The runtime that a replay drives is the record [Runtime]; files, the
    process-wide slot of the recorder and the printing of reports are not
    modelled. *)

From stdpp Require Import base list strings numbers pretty gmap sets.
From Stdlib Require Import SpecFloat.
From S2P Require Import Prelude Semver TyArena IrSyntax IrValue IrMethods.

Local Open Scope Z_scope.
Local Open Scope list_scope.
Notation length := List.length (only parsing).
Notation bytes := (list Z) (only parsing).
Notation rstr := (list Z) (only parsing).

(** ** The wire types *)

Definition TRACE_WIRE_VERSION : Z := 3.
Definition TRACE_MAGIC : bytes := [77; 84; 89; 84; 82; 65; 67; 69].

Inductive ReplayValue : Set :=
  | RUnit
  | RBool (b : bool)
  | RInt (value : Z) (kind : string)
  | RFloat (bits : Z) (kind : string)
  | RStr (s : list Z)
  | RChar (c : Z)
  | RDuration (n : Z)
  | RSize (n : Z)
  | RTuple (xs : list ReplayValue)
  | RArray (xs : list ReplayValue)
  | RRecord (adt : Z) (fields : list ReplayValue)
  | RVariant (adt : Z) (variant : nat) (payload : list ReplayValue)
  | ROpaque (s : list Z).

Inductive ReplayPayload : Set := POpaque (b : list Z) | PValues (vs : list ReplayValue).

Record LlmToolUse : Set := mkToolUse { tu_name : list Z; tu_id : list Z; input_json : list Z }.

Record LlmCallRef : Set := mkCall {
  turn_id : Z; lc_agent : Z; prompt : list Z; system : option (list Z); tools : list (list Z); reply : list Z; tool_uses : list LlmToolUse;
  cost_cents : Z }.

Inductive TraceEvent : Set :=
  | Spawn (agent_id : Z) (agent_type : list Z) (supervisor : option Z)
  | MessageSent (from to : Z) (msg : list Z) (payload : ReplayPayload)
  | MessageHandled (agent msg_idx : Z) (msg : list Z) (elapsed_us : Z)
  | IoRead (agent : Z) (source bytes : list Z)
  | ClockRead (agent value_ms : Z)
  | RandomRead (agent : Z) (bytes : list Z)
  | BudgetExhausted (agent : Z) (reason : list Z)
  | Exit (agent : Z) (reason : list Z)
  | LlmCall (c : LlmCallRef).

Record TraceFile : Set := mkTrace { version : Z; created_at_ms : Z; runtime_seed : Z; worker_count : Z; events : list TraceEvent }.

Definition new_trace (runtime_seed created_at_ms worker_count : Z) : TraceFile :=
  mkTrace TRACE_WIRE_VERSION created_at_ms runtime_seed worker_count [].

Definition event_kind (e : TraceEvent) : string :=
  match e with
  | Spawn _ _ _ => "spawn" | MessageSent _ _ _ _ => "message_sent" | MessageHandled _ _ _ _ => "message_handled"
  | IoRead _ _ _ => "io_read" | ClockRead _ _ => "clock_read" | RandomRead _ _ => "random_read"
  | BudgetExhausted _ _ => "budget_exhausted" | Exit _ _ => "exit" | LlmCall _ => "llm_call"
  end.

Definition event_agent (e : TraceEvent) : option Z :=
  match e with
  | Spawn agent_id _ _ => Some agent_id
  | MessageSent _ to _ _ => Some to
  | MessageHandled agent _ _ _ | IoRead agent _ _ | ClockRead agent _ | RandomRead agent _ | BudgetExhausted agent _ | Exit agent _ => Some agent
  | LlmCall c => Some (lc_agent c)
  end.

(** ** Decidable equality *)

Fixpoint ReplayValue_ind' (P : ReplayValue → Prop) (Hu : P RUnit) (Hb : ∀ b, P (RBool b)) (Hi : ∀ n k, P (RInt n k)) (Hf : ∀ n k, P (RFloat n k))
    (Hs : ∀ s, P (RStr s)) (Hc : ∀ c, P (RChar c)) (Hd : ∀ n, P (RDuration n)) (Hz : ∀ n, P (RSize n))
    (Ht : ∀ xs, Forall P xs → P (RTuple xs)) (Ha : ∀ xs, Forall P xs → P (RArray xs)) (Hr : ∀ a xs, Forall P xs → P (RRecord a xs))
    (Hv : ∀ a n xs, Forall P xs → P (RVariant a n xs)) (Ho : ∀ s, P (ROpaque s)) (v : ReplayValue) : P v :=
  let all := fix all (xs : list ReplayValue) : Forall P xs :=
    match xs with
    | [] => Forall_nil_2 P
    | x :: xs => Forall_cons_2 P x xs (ReplayValue_ind' P Hu Hb Hi Hf Hs Hc Hd Hz Ht Ha Hr Hv Ho x) (all xs)
    end in
  match v with
  | RUnit => Hu | RBool b => Hb b | RInt n k => Hi n k | RFloat n k => Hf n k | RStr s => Hs s | RChar c => Hc c | RDuration n => Hd n
  | RSize n => Hz n | RTuple xs => Ht xs (all xs) | RArray xs => Ha xs (all xs) | RRecord a xs => Hr a xs (all xs)
  | RVariant a n xs => Hv a n xs (all xs) | ROpaque s => Ho s
  end.

#[export] Instance ReplayValue_eq_dec : EqDecision ReplayValue.
Proof.
  refine (fix go (a b : ReplayValue) {struct a} : Decision (a = b) :=
    match a, b with
    | RUnit, RUnit => left eq_refl
    | RBool x, RBool y => cast_if (decide (x = y))
    | RInt x k, RInt y l => cast_if_and (decide (x = y)) (decide (k = l))
    | RFloat x k, RFloat y l => cast_if_and (decide (x = y)) (decide (k = l))
    | RStr x, RStr y => cast_if (decide (x = y))
    | RChar x, RChar y => cast_if (decide (x = y))
    | RDuration x, RDuration y => cast_if (decide (x = y))
    | RSize x, RSize y => cast_if (decide (x = y))
    | RTuple xs, RTuple ys => cast_if (@list_eq_dec _ go xs ys)
    | RArray xs, RArray ys => cast_if (@list_eq_dec _ go xs ys)
    | RRecord x xs, RRecord y ys => cast_if_and (decide (x = y)) (@list_eq_dec _ go xs ys)
    | RVariant x n xs, RVariant y m ys => cast_if_and3 (decide (x = y)) (decide (n = m)) (@list_eq_dec _ go xs ys)
    | ROpaque x, ROpaque y => cast_if (decide (x = y))
    | _, _ => right _
    end); abstract congruence.
Defined.

#[export] Instance ReplayPayload_eq_dec : EqDecision ReplayPayload.
Proof. solve_decision. Defined.
#[export] Instance LlmToolUse_eq_dec : EqDecision LlmToolUse.
Proof. solve_decision. Defined.
#[export] Instance LlmCallRef_eq_dec : EqDecision LlmCallRef.
Proof. solve_decision. Defined.
#[export] Instance TraceEvent_eq_dec : EqDecision TraceEvent.
Proof. solve_decision. Defined.

(** ** Values *)

Definition int_kind_name (k : IntKind) : string :=
  match k with
  | I8 => "I8" | I16 => "I16" | I32 => "I32" | I64 => "I64" | I128 => "I128" | U8 => "U8" | U16 => "U16" | U32 => "U32" | U64 => "U64"
  | U128 => "U128" | ISize => "ISize" | USize => "USize" | IntInfer => "IntInfer"
  end.

Definition int_kind_from_name (name : string) : IntKind :=
  if decide (name = "I8"%string) then I8 else if decide (name = "I16"%string) then I16 else if decide (name = "I32"%string) then I32
  else if decide (name = "I64"%string) then I64 else if decide (name = "I128"%string) then I128 else if decide (name = "U8"%string) then U8
  else if decide (name = "U16"%string) then U16 else if decide (name = "U32"%string) then U32 else if decide (name = "U64"%string) then U64
  else if decide (name = "U128"%string) then U128 else if decide (name = "ISize"%string) then ISize
  else if decide (name = "USize"%string) then USize else if decide (name = "IntInfer"%string) then IntInfer else I64.

Definition float_kind_name (k : FloatKind) : string := match k with F32 => "F32" | F64 => "F64" | FloatInfer => "FloatInfer" end.

Definition float_kind_from_name (name : string) : FloatKind :=
  if decide (name = "F32"%string) then F32 else if decide (name = "FloatInfer"%string) then FloatInfer else F64.

Definition sign_bit (s : bool) : Z := if s then 2 ^ 63 else 0.

(** [f64::to_bits] and [from_bits]. *)
Definition to_bits (f : f64) : Z :=
  match f with
  | S754_zero s => sign_bit s
  | S754_infinity s => sign_bit s + 2047 * 2 ^ 52
  | S754_nan => 2047 * 2 ^ 52 + 2 ^ 51
  | S754_finite s m e =>
      sign_bit s + (if Z.pos m <? 2 ^ 52 then Z.pos m else (e + 1075) * 2 ^ 52 + (Z.pos m - 2 ^ 52))
  end.

Definition from_bits (b : Z) : f64 :=
  let s := 2 ^ 63 <=? b in
  let e := b / 2 ^ 52 mod 2 ^ 11 in
  let m := b mod 2 ^ 52 in
  if e =? 2047 then if m =? 0 then S754_infinity s else S754_nan
  else if e =? 0 then match m with Z.pos m => S754_finite s m (-1074) | _ => S754_zero s end
  else match m + 2 ^ 52 with Z.pos m => S754_finite s m (e - 1075) | _ => S754_nan end.

Section values.
Variable debug : Value → rstr.

Fixpoint from_runtime_value (v : Value) : ReplayValue :=
  match v with
  | VUnit => RUnit
  | VBool b => RBool b
  | VInt n k => RInt n (int_kind_name k)
  | VFloat f k => RFloat (to_bits f) (float_kind_name k)
  | VStr s => RStr s
  | VChar c => RChar c
  | VDuration n => RDuration n
  | VSize n => RSize n
  | VTuple xs => RTuple (List.map from_runtime_value xs)
  | VArray xs => RArray (List.map from_runtime_value xs)
  | VStruct adt fields => RRecord adt (List.map from_runtime_value fields)
  | VEnum adt variant payload => RVariant adt variant (List.map from_runtime_value payload)
  | other => ROpaque (debug other)
  end.

Fixpoint to_runtime_value (v : ReplayValue) : Res string Value :=
  let all := fix all (xs : list ReplayValue) : Res string (list Value) :=
    match xs with [] => Ok [] | x :: xs => x ← to_runtime_value x; xs ← all xs; Ok (x :: xs) end in
  match v with
  | RUnit => Ok VUnit
  | RBool b => Ok (VBool b)
  | RInt value kind => Ok (VInt value (int_kind_from_name kind))
  | RFloat bits kind => Ok (VFloat (from_bits bits) (float_kind_from_name kind))
  | RStr s => Ok (VStr s)
  | RChar c => Ok (VChar c)
  | RDuration n => Ok (VDuration n)
  | RSize n => Ok (VSize n)
  | RTuple xs => xs ← all xs; Ok (VTuple xs)
  | RArray xs => xs ← all xs; Ok (VArray xs)
  | RRecord adt fields => xs ← all fields; Ok (VStruct (adt mod 2 ^ 32) xs)
  | RVariant adt variant payload => xs ← all payload; Ok (VEnum (adt mod 2 ^ 32) variant xs)
  | ROpaque s => Ok (VStr s)
  end.

Definition encode_values_payload (args : list Value) : ReplayPayload := PValues (List.map from_runtime_value args).

Definition ok_values (vs : list ReplayValue) : list Value := omap (λ v, match to_runtime_value v with Ok v => Some v | Err _ => None end) vs.
End values.

(** ** The recorder *)

Record Recorder : Type := mkRecorder { rc_seed : Z; rc_created : Z; rc_workers : Z; buffer : list TraceEvent; counters : gmap Z Z; next_llm : Z }.

Definition new_recorder (seed created workers : Z) : Recorder := mkRecorder seed created workers [] ∅ 0.

Definition push (e : TraceEvent) (r : Recorder) : Recorder :=
  mkRecorder (rc_seed r) (rc_created r) (rc_workers r) (buffer r ++ [e]) (counters r) (next_llm r).
Definition set_counter (agent n : Z) (r : Recorder) : Recorder :=
  mkRecorder (rc_seed r) (rc_created r) (rc_workers r) (buffer r) (<[agent := n]> (counters r)) (next_llm r).

Definition handled (r : Recorder) (agent : Z) : Z := default 0 (counters r !! agent).

(** A call locks more than once: it looks up or advances a counter, under the
    lock of a map's entry or as one atomic operation, and pushes its event under
    the lock of the buffer.  Calls of other threads may come in between
    ([ReplayTheorems.rec_act]); alone, a call is both in a row. *)
Definition touch_counter (agent : Z) (r : Recorder) : Recorder := set_counter agent (handled r agent) r.

(** The index, and the counter after it. *)
Definition take_msg_idx (agent : Z) (r : Recorder) : Z * Recorder :=
  let idx := handled r agent in (idx, set_counter agent ((idx + 1) mod 2 ^ 64) r).

Definition take_turn_id (r : Recorder) : Z * Recorder :=
  let id := next_llm r in
  (id, mkRecorder (rc_seed r) (rc_created r) (rc_workers r) (buffer r) (counters r) ((id + 1) mod 2 ^ 64)).

Definition record_spawn (agent : Z) (agent_type : rstr) (supervisor : option Z) (r : Recorder) : Recorder :=
  push (Spawn agent agent_type supervisor) (touch_counter agent r).

Definition record_message_sent_payload (from to : Z) (msg : rstr) (p : ReplayPayload) (r : Recorder) : Recorder := push (MessageSent from to msg p) r.
Definition record_message_sent (from to : Z) (msg : rstr) (payload : bytes) : Recorder → Recorder := record_message_sent_payload from to msg (POpaque payload).
Definition record_message_sent_structural (from to : Z) (msg : rstr) (vs : list ReplayValue) : Recorder → Recorder :=
  record_message_sent_payload from to msg (PValues vs).

Definition record_message_handled (agent : Z) (msg : rstr) (elapsed_us : Z) (r : Recorder) : Z * Recorder :=
  let '(idx, r) := take_msg_idx agent r in
  (idx, push (MessageHandled agent idx msg elapsed_us) r).

Definition record_io_read (agent : Z) (source : rstr) (b : bytes) : Recorder → Recorder := push (IoRead agent source b).
Definition record_clock_read (agent value_ms : Z) : Recorder → Recorder := push (ClockRead agent value_ms).
Definition record_random_read (agent : Z) (b : bytes) : Recorder → Recorder := push (RandomRead agent b).
Definition record_budget_exhausted (agent : Z) (reason : rstr) : Recorder → Recorder := push (BudgetExhausted agent reason).
Definition record_exit (agent : Z) (reason : rstr) : Recorder → Recorder := push (Exit agent reason).

Definition with_turn (c : LlmCallRef) (id : Z) : LlmCallRef :=
  mkCall id (lc_agent c) (prompt c) (system c) (tools c) (reply c) (tool_uses c) (cost_cents c).

(** [turn]: the id the caller passes; without one the next is allocated. *)
Definition record_llm_call (turn : option Z) (c : LlmCallRef) (r : Recorder) : Z * Recorder :=
  let '(id, r) := match turn with Some id => (id, r) | None => take_turn_id r end in
  (id, push (LlmCall (with_turn c id)) r).

Definition to_trace_file (r : Recorder) : TraceFile := mkTrace TRACE_WIRE_VERSION (rc_created r) (rc_seed r) (rc_workers r) (buffer r).

(** ** The file *)

Inductive V1TraceEvent : Set :=
  | V1Spawn (agent_id : Z) (agent_type : list Z) (supervisor : option Z)
  | V1MessageSent (from to : Z) (msg payload : list Z)
  | V1MessageHandled (agent msg_idx : Z) (msg : list Z) (elapsed_us : Z)
  | V1IoRead (agent : Z) (source bytes : list Z)
  | V1ClockRead (agent value_ms : Z)
  | V1RandomRead (agent : Z) (bytes : list Z)
  | V1BudgetExhausted (agent : Z) (reason : list Z)
  | V1Exit (agent : Z) (reason : list Z).

Record V1TraceFile : Set := mkV1 { v1_version : Z; v1_created : Z; v1_seed : Z; v1_workers : Z; v1_events : list V1TraceEvent }.

Definition lift_event (e : V1TraceEvent) : TraceEvent :=
  match e with
  | V1Spawn i t s => Spawn i t s
  | V1MessageSent from to msg payload => MessageSent from to msg (POpaque payload)
  | V1MessageHandled a i m us => MessageHandled a i m us
  | V1IoRead a s b => IoRead a s b
  | V1ClockRead a v => ClockRead a v
  | V1RandomRead a b => RandomRead a b
  | V1BudgetExhausted a r => BudgetExhausted a r
  | V1Exit a r => Exit a r
  end.

Definition into_v2 (t : V1TraceFile) : TraceFile :=
  mkTrace (v1_version t) (v1_created t) (v1_seed t) (v1_workers t) (lift_event <$> v1_events t).

(** [to_vec] of a trace, and [from_slice] at the three types read. *)
Class Serde : Set := {
  to_vec : TraceFile → Res string bytes;
  from_slice_version : bytes → Res string Z;
  from_slice_v1 : bytes → Res string V1TraceFile;
  from_slice : bytes → Res string TraceFile
}.

(** A trace that is written is read back, and its field [version] alone. *)
Class SerdeOk (S : Serde) : Prop := {
  serde_round_trip : ∀ t b, to_vec t = Ok b → from_slice b = Ok t;
  serde_version : ∀ t b, to_vec t = Ok b → from_slice_version b = Ok (version t)
}.

Inductive RecorderError : Set := SerdeError (why : string) | BadMagic | UnsupportedVersion (found supported : Z).

Section file.
Context `{Serde}.

Definition or_serde {A} (r : Res string A) : Res RecorderError A := match r with Ok a => Ok a | Err e => Err (SerdeError e) end.

Definition encode (t : TraceFile) : Res RecorderError bytes := json ← or_serde (to_vec t); Ok (TRACE_MAGIC ++ json).

Definition decode (b : bytes) : Res RecorderError TraceFile :=
  if (length b <? length TRACE_MAGIC)%nat then Err BadMagic
  else
    let rest := drop (length TRACE_MAGIC) b in
    if negb (bool_decide (take (length TRACE_MAGIC) b = TRACE_MAGIC)) then Err BadMagic
    else
      v ← or_serde (from_slice_version rest);
      if TRACE_WIRE_VERSION <? v then Err (UnsupportedVersion v TRACE_WIRE_VERSION)
      else if v =? 1 then v1 ← or_serde (from_slice_v1 rest); Ok (into_v2 v1)
      else or_serde (from_slice rest).
End file.

(** ** Walking a trace *)

Record TraceSummary : Set := mkSummary {
  sm_version : Z; sm_created_at_ms : Z; sm_runtime_seed : Z; sm_worker_count : Z; event_count : nat; agent_count : nat; spawn_count : nat; message_sent_count : nat; message_handled_count : nat; io_read_count : nat;
  clock_read_count : nat; random_read_count : nat; budget_exhausted_count : nat; exit_count : nat; llm_call_count : nat;
  total_handler_elapsed_us : Z }.

(** One counter of the pass. *)
Definition count_kind (k : string) (es : list TraceEvent) : nat := length (List.filter (λ e, bool_decide (event_kind e = k)) es).

Definition sat_add_u64 (a b : Z) : Z := Z.min (a + b) (2 ^ 64 - 1).

Definition summary (t : TraceFile) : TraceSummary :=
  let es := events t in
  let agents := foldl (λ s e, match event_agent e with Some a => {[a]} ∪ s | None => s end) (∅ : gset Z) es in
  let us := foldl (λ n e, match e with MessageHandled _ _ _ us => sat_add_u64 n us | _ => n end) 0 es in
  mkSummary (version t) (created_at_ms t) (runtime_seed t) (worker_count t) (length es) (size agents) (count_kind "spawn" es) (count_kind "message_sent" es) (count_kind "message_handled" es)
    (count_kind "io_read" es) (count_kind "clock_read" es) (count_kind "random_read" es) (count_kind "budget_exhausted" es)
    (count_kind "exit" es) (count_kind "llm_call" es) us.

Definition iter_llm_calls (t : TraceFile) : list LlmCallRef := omap (λ e, match e with LlmCall c => Some c | _ => None end) (events t).

Definition llm_call_by_turn (t : TraceFile) (id : Z) : option LlmCallRef := head (List.filter (λ c, turn_id c =? id) (iter_llm_calls t)).

(** Why a trace is not consistent. *)
Inductive Inconsistent : Set :=
  | UnspawnedTarget (from to : Z) | UnspawnedHandler (agent : Z) | OutOfOrder (agent expected got : Z) | Unspawned (kind : string) (agent : Z).

(** The loop, from event [i]. *)
Fixpoint verify_from (i : nat) (spawned : gset Z) (last : gmap Z Z) (es : list TraceEvent) : Res (nat * Inconsistent) unit :=
  match es with
  | [] => Ok ()
  | e :: es =>
      match e with
      | Spawn a _ _ => verify_from (S i) ({[a]} ∪ spawned) last es
      | MessageSent from to _ _ =>
          if bool_decide (to ∈ spawned) then verify_from (S i) spawned last es else Err (i, UnspawnedTarget from to)
      | MessageHandled a idx _ _ =>
          if bool_decide (a ∈ spawned) then
            let expected := match last !! a with Some v => v + 1 | None => 0 end in
            if idx =? expected then verify_from (S i) spawned (<[a := idx]> last) es else Err (i, OutOfOrder a expected idx)
          else Err (i, UnspawnedHandler a)
      | IoRead a _ _ | ClockRead a _ | RandomRead a _ | BudgetExhausted a _ | Exit a _ =>
          if bool_decide (a ∈ spawned) then verify_from (S i) spawned last es else Err (i, Unspawned (event_kind e) a)
      | LlmCall _ => verify_from (S i) spawned last es
      end
  end.

Definition verify_self_consistent (t : TraceFile) : Res (nat * Inconsistent) unit := verify_from 0 ∅ ∅ (events t).

(** [Replayer::step] with a handler that keeps a state. *)
Fixpoint step_from {H} (on_event : nat → TraceEvent → H → Res string H) (i : nat) (es : list TraceEvent) (h : H) : Res (nat * string) H :=
  match es with
  | [] => Ok h
  | e :: es => match on_event i e h with Ok h => step_from on_event (S i) es h | Err why => Err (i, why) end
  end.

(** ** The driver *)

(** The ids of the recorded agents, to the live ones. *)
Notation IdMap := (gmap Z Z) (only parsing).
Definition map_id (m : IdMap) (id : Z) : Z := default id (m !! id).

Section driver.
Variable debug_values : list Value → bytes.

Definition payloads_match (a b : ReplayPayload) : bool :=
  bool_decide (a = b) ||
  match a, b with
  | POpaque _, POpaque _ => true
  | POpaque ba, PValues vb | PValues vb, POpaque ba => bool_decide (debug_values (ok_values vb) = ba)
  | _, _ => false
  end.

Definition events_match (m : IdMap) (rec rep : TraceEvent) : bool :=
  match rec, rep with
  | Spawn _ t1 s1, Spawn _ t2 s2 => bool_decide (t1 = t2) && bool_decide (s1 = s2)
  | MessageSent f1 to1 m1 p1, MessageSent f2 to2 m2 p2 =>
      (if f1 =? 0 then f2 =? 0 else map_id m f1 =? f2) && (map_id m to1 =? to2) && bool_decide (m1 = m2) && payloads_match p1 p2
  | MessageHandled a1 i1 m1 _, MessageHandled a2 i2 m2 _ => (map_id m a1 =? a2) && (i1 =? i2) && bool_decide (m1 = m2)
  | IoRead a1 s1 b1, IoRead a2 s2 b2 => (map_id m a1 =? a2) && bool_decide (s1 = s2) && bool_decide (b1 = b2)
  | ClockRead a1 v1, ClockRead a2 v2 => (map_id m a1 =? a2) && (v1 =? v2)
  | RandomRead a1 b1, RandomRead a2 b2 => (map_id m a1 =? a2) && bool_decide (b1 = b2)
  | BudgetExhausted a1 r1, BudgetExhausted a2 r2 | Exit a1 r1, Exit a2 r2 => (map_id m a1 =? a2) && bool_decide (r1 = r2)
  | _, _ => false
  end.

Definition is_soft (e : TraceEvent) : bool := match e with Exit _ _ | BudgetExhausted _ _ => true | _ => false end.

Inductive Reason : Set := EndedEarly (i : nat) (kind : string) | NoMatch (kind : string) (idx : nat).
Record EventMismatch : Set := mkMismatch { index : nat; recorded : TraceEvent; replayed : option TraceEvent; reason : Reason }.

(** The first match in the rest of the replayed stream. *)
Fixpoint find_match (m : IdMap) (rec : TraceEvent) (j : nat) (rest : list TraceEvent) : option nat :=
  match rest with
  | [] => None
  | rep :: rest =>
      if bool_decide (event_kind rep = event_kind rec) && events_match m rec rep then Some j else find_match m rec (S j) rest
  end.

Fixpoint compare_from (m : IdMap) (reps : list TraceEvent) (i idx : nat) (recs : list TraceEvent) : list EventMismatch :=
  match recs with
  | [] => []
  | rec :: recs =>
      match reps !! idx with
      | None =>
          (if is_soft rec then [] else [mkMismatch i rec None (EndedEarly i (event_kind rec))]) ++ compare_from m reps (S i) idx recs
      | Some rep =>
          match find_match m rec idx (drop idx reps) with
          | Some j => compare_from m reps (S i) (S j) recs
          | None =>
              if is_soft rec then compare_from m reps (S i) idx recs
              else mkMismatch i rec (Some rep) (NoMatch (event_kind rec) idx) :: compare_from m reps (S i) (S idx) recs
          end
      end
  end.

(** The mismatches and the number of events that matched. *)
Definition compare_streams (recs reps : list TraceEvent) (m : IdMap) : list EventMismatch * nat :=
  let ms := compare_from m reps 0 0 recs in (ms, (length recs - length ms)%nat).

Definition payload_to_runtime_values (lossy : bytes → list Z) (p : ReplayPayload) : list Value :=
  match p with
  | PValues vs => ok_values vs
  | POpaque [] => []
  | POpaque b => [VStr (default (lossy b) (utf8_decode b))]
  end.

(** ** The model's turns *)

Record ProvidedTurn : Set := mkTurn { pt_reply : list Z; pt_tool_uses : list LlmToolUse; pt_cost : Z }.
Record LlmTurnReplay : Set := mkTurnReplay {
  tr_id : Z; recorded_reply : list Z; recorded_tool_uses : list LlmToolUse; live : option ProvidedTurn; live_error : option (list Z) }.
Record LlmTurnDiff : Set := mkDiff {
  df_id : Z; df_prompt : list Z; df_system : option (list Z); df_recorded : list Z; df_live : option (list Z);
  recorded_tool_names : list (list Z); live_tool_names : list (list Z); identical : bool }.

Definition same_set (xs ys : list rstr) : bool := bool_decide ((list_to_set xs : gset rstr) = list_to_set ys).

Definition replies_match (t : LlmTurnReplay) : bool :=
  match live t with Some p => bool_decide (pt_reply p = recorded_reply t) | None => false end.
Definition tool_call_set_matches (t : LlmTurnReplay) : bool :=
  match live t with Some p => same_set (tu_name <$> recorded_tool_uses t) (tu_name <$> pt_tool_uses p) | None => false end.

(** [TurnProvider::provide] *)
Notation Provider := (LlmCallRef → Res (list Z) ProvidedTurn) (only parsing).

Definition replay_turn (provide : Provider) (c : LlmCallRef) : LlmTurnReplay :=
  match provide c with
  | Ok p => mkTurnReplay (turn_id c) (reply c) (tool_uses c) (Some p) None
  | Err e => mkTurnReplay (turn_id c) (reply c) (tool_uses c) None (Some e)
  end.

(** What the driver asks of a live runtime, with its recorder: a spawn answers
    the new id or fails, an ask waits for its reply or the deadline, and
    [settle] waits and shuts down. *)
Record Runtime (R : Type) : Type := mkRuntime {
  spawn_agent : list Z → R → option Z * R; ask : Z → list Z → list Value → R → R; settle : R → R; snapshot : R → list TraceEvent }.
Arguments spawn_agent {_}. Arguments ask {_}. Arguments settle {_}. Arguments snapshot {_}.

(** One recorded event, fed again. *)
Definition feed {R} (rt : Runtime R) (lossy : bytes → list Z) (ev : TraceEvent) (st : IdMap * R) : IdMap * R :=
  match ev with
  | Spawn id agent_type _ =>
      match spawn_agent rt agent_type (st.2) with
      | (Some live, r) => (<[id := live]> (st.1), r)
      | (None, r) => (st.1, r)
      end
  | MessageSent from to msg payload =>
      if negb (from =? 0) then st
      else match st.1 !! to with
           | None => st
           | Some live => (st.1, ask rt live msg (payload_to_runtime_values lossy payload) (st.2))
           end
  | _ => st
  end.

Record ReplayReport : Type := mkReport {
  events_replayed : nat; mismatches : list EventMismatch; success : bool; llm_turn_replays : list LlmTurnReplay }.

(** [attached]: a program was; [provider]: the live one, if installed. *)
Definition replay_all {R} (rt : Runtime R) (lossy : bytes → list Z) (attached : bool) (provider : option Provider) (byte_identical : bool)
    (fresh : R) (t : TraceFile) : Res string ReplayReport :=
  if negb attached then Err "ReplayDriver: program not attached; call with_program(prog)"
  else
    let turns := match provider with
                 | Some provide => omap (λ e, match e with LlmCall c => Some (replay_turn provide c) | _ => None end) (events t)
                 | None => []
                 end in
    let st := foldl (λ st ev, feed rt lossy ev st) (∅, fresh) (events t) in
    let reps := snapshot rt (settle rt (st.2)) in
    let '(ms, n) := if byte_identical then compare_streams (events t) reps (st.1) else ([], length (events t)) in
    Ok (mkReport n ms (bool_decide (ms = []) && (0 <? n)%nat) turns).

(** ** Replaying the turns alone *)

Definition replay_llm_turns (provide : Provider) (t : TraceFile) : list LlmTurnReplay := replay_turn provide <$> iter_llm_calls t.

(** [None]: the turn is not found. *)
Definition diff_llm_turn (provide : Provider) (t : TraceFile) (id : Z) : option LlmTurnDiff :=
  c ← llm_call_by_turn t id;
  let names := tu_name <$> tool_uses c in
  Some match provide c with
       | Ok p =>
           let live_names := tu_name <$> pt_tool_uses p in
           mkDiff id (prompt c) (system c) (reply c) (Some (pt_reply p)) names live_names (bool_decide (pt_reply p = reply c) && same_set names live_names)
       | Err _ => mkDiff id (prompt c) (system c) (reply c) None names [] false
       end.
End driver.

Definition truncate (s : rstr) (max : nat) : rstr := if (length s <=? max)%nat then s else take max s ++ [8230].
