(* ===== verification/ReplayTheorems.v ===== *)
(** * Replay: the theorems

    Values and files round trip, what the recorder writes is consistent, and
    the comparison of two streams is an embedding. *)

From stdpp Require Import base list strings numbers pretty gmap sets.
From Stdlib Require Import SpecFloat.
From S2P Require Import Prelude Semver TyArena IrSyntax IrValue IrMethods Replay.

Local Open Scope Z_scope.
Local Open Scope list_scope.
Notation length := List.length (only parsing).
Notation bytes := (list Z) (only parsing).
Notation rstr := (list Z) (only parsing).

(** ** Values *)

(** A float as the interpreter has it: canonical, in binary64. *)
Definition float_ok (f : f64) : Prop :=
  match f with
  | S754_finite _ m e => Z.pos m < 2 ^ 53 ∧ -1074 <= e <= 971 ∧ (Z.pos m < 2 ^ 52 → e = -1074)
  | _ => True
  end.

Lemma bits_finite s e m :
  0 <= e < 2047 → 0 <= m < 2 ^ 52 →
  let b := sign_bit s + e * 2 ^ 52 + m in
  (2 ^ 63 <=? b) = s ∧ b / 2 ^ 52 mod 2 ^ 11 = e ∧ b mod 2 ^ 52 = m.
Proof.
  intros He Hm b. assert (b = (if s then 2 ^ 11 else 0) * 2 ^ 52 + e * 2 ^ 52 + m) as E by (unfold b, sign_bit; destruct s; lia).
  split_and!.
  - unfold b, sign_bit. destruct s; [apply Z.leb_le|apply Z.leb_gt]; lia.
  - assert (b / 2 ^ 52 = (if s then 2 ^ 11 else 0) + e) as ->.
    { rewrite E. rewrite <-Z.mul_add_distr_r, Z.div_add_l by lia. rewrite Z.div_small by lia. lia. }
    destruct s.
    + rewrite Z.add_comm. replace (e + 2 ^ 11) with (e + 1 * 2 ^ 11) by lia. rewrite Z.mod_add by lia. apply Z.mod_small. lia.
    + apply Z.mod_small. lia.
  - rewrite E, <-Z.mul_add_distr_r, Z.add_comm, Z.mod_add by lia. by apply Z.mod_small.
Qed.

Lemma bits_round_trip f : float_ok f → from_bits (to_bits f) = f.
Proof.
  destruct f as [s|s| |s m e]; intros H; cbn [to_bits].
  - by destruct s.
  - by destruct s.
  - done.
  - destruct H as (Hm & He & Hsub). destruct (Z.ltb_spec (Z.pos m) (2 ^ 52)) as [Hlt|Hge].
    + rewrite (Hsub Hlt). destruct (bits_finite s 0 (Z.pos m)) as (E1 & E2 & E3); [lia|lia|]. rewrite Z.mul_0_l, Z.add_0_r in *.
      unfold from_bits. by rewrite E1, E2, E3.
    + destruct (bits_finite s (e + 1075) (Z.pos m - 2 ^ 52)) as (E1 & E2 & E3); [lia|lia|].
      rewrite Z.add_assoc. unfold from_bits. rewrite E1, E2, E3.
      rewrite (proj2 (Z.eqb_neq (e + 1075) 2047)), (proj2 (Z.eqb_neq (e + 1075) 0)) by lia.
      replace (Z.pos m - 2 ^ 52 + 2 ^ 52) with (Z.pos m) by lia. f_equal. lia.
Qed.

Lemma bits_u64 f : float_ok f → 0 <= to_bits f < 2 ^ 64.
Proof.
  destruct f as [s|s| |s m e]; cbn [to_bits]; unfold sign_bit; [destruct s; lia|destruct s; lia|lia|].
  intros (Hm & He & _). destruct (Z.ltb_spec (Z.pos m) (2 ^ 52)); destruct s; lia.
Qed.

(** The values that are data all through. *)
Fixpoint portable (v : Value) : bool :=
  match v with
  | VTuple xs | VArray xs | VStruct _ xs | VEnum _ _ xs => forallb portable xs
  | VRef _ | VFn _ | VAgent _ | VCap _ _ | VVoid => false
  | _ => true
  end.

(** Ids of types are [u32]s, and floats are canonical. *)
Fixpoint widths_ok (v : Value) : Prop :=
  let all := fix all (xs : list Value) : Prop := match xs with [] => True | x :: xs => widths_ok x ∧ all xs end in
  match v with
  | VFloat f _ => float_ok f
  | VTuple xs | VArray xs => all xs
  | VStruct a xs | VEnum a _ xs => 0 <= a < 2 ^ 32 ∧ all xs
  | _ => True
  end.

Lemma int_kind_round_trip k : int_kind_from_name (int_kind_name k) = k.
Proof. by destruct k. Qed.

Lemma float_kind_round_trip k : float_kind_from_name (float_kind_name k) = k.
Proof. by destruct k. Qed.

(** Every value that is data all through is read back from its wire form;
    any other becomes its [Debug] text somewhere inside, and is still read. *)
Theorem value_round_trip debug v :
  (portable v = true → widths_ok v → to_runtime_value (from_runtime_value debug v) = Ok v) ∧
  ∃ v', to_runtime_value (from_runtime_value debug v) = Ok v'.
Proof.
  set (all := fix all (xs : list ReplayValue) : Res string (list Value) :=
    match xs with [] => Ok [] | x :: xs => x ← to_runtime_value x; xs ← all xs; Ok (x :: xs) end).
  set (wall := fix wall (xs : list Value) : Prop := match xs with [] => True | x :: xs => widths_ok x ∧ wall xs end).
  assert (∀ xs, Forall (λ v, (portable v = true → widths_ok v → to_runtime_value (from_runtime_value debug v) = Ok v) ∧
      ∃ v', to_runtime_value (from_runtime_value debug v) = Ok v') xs →
    (forallb portable xs = true → wall xs → all (List.map (from_runtime_value debug) xs) = Ok xs) ∧
    ∃ xs', all (List.map (from_runtime_value debug) xs) = Ok xs') as Hall.
  { induction 1 as [|x xs [Hx [x' Ex]] _ [Hxs [xs' Exs]]]; [split; [done|by exists []]|]. cbn [List.map all forallb wall]. split.
    - intros [Hp Hps]%andb_true_iff [Hw Hws]. rewrite (Hx Hp Hw). cbn [mbind Res_bind]. by rewrite (Hxs Hps Hws).
    - exists (x' :: xs'). rewrite Ex. cbn [mbind Res_bind]. by rewrite Exs. }
  induction v as [|b|n k|f k|s|c|n|n|xs IH|xs IH|a xs IH|a n xs IH|r|f|h|fam con|] using Value_rec'; cbn [from_runtime_value to_runtime_value portable widths_ok];
    fold all; fold wall; try (split; [done|by eexists]).
  - rewrite int_kind_round_trip. split; [done|by eexists].
  - rewrite float_kind_round_trip. split; [|by eexists]. intros _ Hf. by rewrite bits_round_trip.
  - destruct (Hall xs IH) as [H1 [xs' E]]. split; [intros Hp Hw; by rewrite (H1 Hp Hw)|rewrite E; by eexists].
  - destruct (Hall xs IH) as [H1 [xs' E]]. split; [intros Hp Hw; by rewrite (H1 Hp Hw)|rewrite E; by eexists].
  - destruct (Hall xs IH) as [H1 [xs' E]]. split; [|rewrite E; by eexists]. intros Hp [Ha Hw]. rewrite (H1 Hp Hw). cbn. by rewrite Z.mod_small.
  - destruct (Hall xs IH) as [H1 [xs' E]]. split; [|rewrite E; by eexists]. intros Hp [Ha Hw]. rewrite (H1 Hp Hw). cbn. by rewrite Z.mod_small.
Qed.

Definition demo_value : Value := VStruct 7 [VInt (-5) I128; VEnum 2 1 [VFloat (S754_finite true 1 (-1074)) F64]; VArray [VStr [104; 105]]].

Lemma value_round_trip_witness : to_runtime_value (from_runtime_value (λ _, []) demo_value) = Ok demo_value.
Proof. apply (value_round_trip (λ _, []) demo_value); [by vm_compute|]. cbn. repeat split; lia. Defined.

(** ** Consistency *)

(** The agent that an event needs to be spawned. *)
Definition owner (e : TraceEvent) : option Z :=
  match e with
  | Spawn _ _ _ | LlmCall _ => None
  | MessageSent _ to _ _ => Some to
  | MessageHandled a _ _ _ | IoRead a _ _ | ClockRead a _ | RandomRead a _ | BudgetExhausted a _ | Exit a _ => Some a
  end.

Definition handled_by (a : Z) (es : list TraceEvent) : Z :=
  Z.of_nat (length (List.filter (λ e, match e with MessageHandled b _ _ _ => b =? a | _ => false end) es)).

Definition spawned_in (a : Z) (es : list TraceEvent) : Prop := ∃ t s, Spawn a t s ∈ es.

(** The event [e] may follow [pre]: its agent was spawned, and a handled
    message has the number of those its agent handled before. *)
Definition follows (pre : list TraceEvent) (e : TraceEvent) : Prop :=
  (∀ a, owner e = Some a → spawned_in a pre) ∧ (∀ a idx m us, e = MessageHandled a idx m us → idx = handled_by a pre).

Definition consistent (es : list TraceEvent) : Prop := ∀ i e, es !! i = Some e → follows (take i es) e.

Definition tracks (pre : list TraceEvent) (spawned : gset Z) (last : gmap Z Z) : Prop :=
  (∀ a, a ∈ spawned ↔ spawned_in a pre) ∧ ∀ a, match last !! a with Some v => v + 1 | None => 0 end = handled_by a pre.

Lemma handled_by_app a es es' : handled_by a (es ++ es') = handled_by a es + handled_by a es'.
Proof. unfold handled_by. rewrite List.filter_app, length_app. lia. Qed.

Lemma handled_by_other a e : (∀ idx m us, e ≠ MessageHandled a idx m us) → handled_by a [e] = 0.
Proof.
  intros H. unfold handled_by. cbn. destruct e as [| |b idx m us| | | | | |]; try done. destruct (Z.eqb_spec b a) as [->|]; [|done]. by destruct (H idx m us).
Qed.

Lemma spawned_in_app a es es' : spawned_in a (es ++ es') ↔ spawned_in a es ∨ spawned_in a es'.
Proof. unfold spawned_in. setoid_rewrite elem_of_app. naive_solver. Qed.

Lemma spawned_in_one a e : spawned_in a [e] ↔ ∃ t s, e = Spawn a t s.
Proof. unfold spawned_in. setoid_rewrite list_elem_of_singleton. naive_solver. Qed.

(** An event that neither spawns nor is handled leaves the state. *)
Lemma tracks_keep pre e spawned last :
  tracks pre spawned last → (∀ a t s, e ≠ Spawn a t s) → (∀ a idx m us, e ≠ MessageHandled a idx m us) → tracks (pre ++ [e]) spawned last.
Proof.
  intros [H1 H2] Hs Hh. split; intros a.
  - rewrite H1, spawned_in_app, spawned_in_one. naive_solver.
  - rewrite H2, handled_by_app, (handled_by_other a e) by apply Hh. lia.
Qed.

Lemma tracks_spawn pre a t s spawned last : tracks pre spawned last → tracks (pre ++ [Spawn a t s]) ({[a]} ∪ spawned) last.
Proof.
  intros [H1 H2]. split; intros b.
  - rewrite elem_of_union, elem_of_singleton, H1, spawned_in_app, spawned_in_one. naive_solver.
  - rewrite H2, handled_by_app, (handled_by_other b (Spawn a t s)) by done. lia.
Qed.

Lemma tracks_handled pre a m us spawned last :
  tracks pre spawned last → tracks (pre ++ [MessageHandled a (handled_by a pre) m us]) spawned (<[a := handled_by a pre]> last).
Proof.
  intros [H1 H2]. split; intros b.
  - rewrite H1, spawned_in_app, spawned_in_one. naive_solver.
  - rewrite handled_by_app. destruct (decide (b = a)) as [->|Hne].
    + rewrite lookup_insert_eq. unfold handled_by at 3. cbn. rewrite Z.eqb_refl. cbn. lia.
    + rewrite lookup_insert_ne, H2, (handled_by_other b) by congruence. lia.
Qed.

(** One round of the loop. *)
Lemma verify_step pre spawned last e es :
  tracks pre spawned last →
  (follows pre e ∧ ∃ sp la, tracks (pre ++ [e]) sp la ∧ verify_from (length pre) spawned last (e :: es) = verify_from (S (length pre)) sp la es) ∨
  (¬ follows pre e ∧ ∃ why, verify_from (length pre) spawned last (e :: es) = Err (length pre, why)).
Proof.
  intros Ht. pose proof Ht as [H1 H2]. cbn [verify_from].
  assert (∀ a, owner e = Some a → (∀ t s, e ≠ Spawn a t s) → (∀ a idx m us, e ≠ MessageHandled a idx m us) → (∀ a t s, e ≠ Spawn a t s) →
    ∀ why, (follows pre e ∧ ∃ sp la, tracks (pre ++ [e]) sp la ∧
      (if bool_decide (a ∈ spawned) then verify_from (S (length pre)) spawned last es else Err (length pre, why)) = verify_from (S (length pre)) sp la es) ∨
    (¬ follows pre e ∧ ∃ why', (if bool_decide (a ∈ spawned) then verify_from (S (length pre)) spawned last es else Err (length pre, why)) = Err (length pre, why'))) as Hplain.
  { intros a Ho _ Hh Hs why. case_bool_decide as Ha.
    - left. split; [|exists spawned, last; split; [by apply tracks_keep|done]]. split; [|intros b idx m us E; by destruct (Hh b idx m us)].
      intros b Hb. rewrite Ho in Hb. injection Hb as <-. by apply H1.
    - right. split; [|by eexists]. intros [Hf _]. apply Ha, H1. by apply Hf. }
  destruct e as [a t s|from to m p|a idx m us|a s b|a v|a b|a r|a r|c]; try (by apply Hplain).
  - left. split; [by split|]. exists ({[a]} ∪ spawned), last. split; [by apply tracks_spawn|done].
  - case_bool_decide as Ha.
    + rewrite H2. destruct (Z.eqb_spec idx (handled_by a pre)) as [->|Hne].
      * left. split; [|eexists _, _; split; [by apply tracks_handled|done]]. split; [intros b [= <-]; by apply H1|by intros b i m' us' [= <- <- <- <-]].
      * right. split; [|by eexists]. intros [_ Hf]. by apply Hne, (Hf a idx m us).
    + right. split; [|by eexists]. intros [Hf _]. apply Ha, H1. by apply Hf.
  - left. split; [by split|]. exists spawned, last. split; [by apply tracks_keep|done].
Qed.

Lemma verify_from_spec es pre spawned last :
  tracks pre spawned last →
  match verify_from (length pre) spawned last es with
  | Ok _ => ∀ i e, es !! i = Some e → follows (pre ++ take i es) e
  | Err (n, _) => ∃ k e, n = (length pre + k)%nat ∧ es !! k = Some e ∧ ¬ follows (pre ++ take k es) e ∧
      ∀ i e', (i < k)%nat → es !! i = Some e' → follows (pre ++ take i es) e'
  end.
Proof.
  revert pre spawned last. induction es as [|e es IH]; intros pre spawned last Ht; [done|].
  destruct (verify_step pre spawned last e es Ht) as [(Hf & sp & la & Ht' & ->)|(Hf & why & ->)].
  - specialize (IH (pre ++ [e]) sp la Ht'). rewrite length_app in IH. cbn [length] in IH. rewrite Nat.add_1_r in IH.
    assert (∀ i e', (e :: es) !! S i = Some e' → follows ((pre ++ [e]) ++ take i es) e' → follows (pre ++ take (S i) (e :: es)) e') as Hs
      by (intros i e' _ H; by rewrite <-app_assoc in H).
    destruct (verify_from (S (length pre)) sp la es) as [[]|[n why]].
    + intros [|i] e' Hi; [cbn in Hi; injection Hi as <-; by rewrite take_0, app_nil_r|]. apply Hs; [done|]. by apply IH.
    + destruct IH as (k & e' & -> & Hk & Hno & Hpre). exists (S k), e'. split; [lia|]. split; [done|]. split.
      * intros H. apply Hno. by rewrite <-app_assoc.
      * intros [|i] e'' Hi He; [cbn in He; injection He as <-; by rewrite take_0, app_nil_r|]. apply Hs; [done|]. apply Hpre; [lia|done].
  - exists 0%nat, e. rewrite Nat.add_0_r, take_0, app_nil_r. split; [done|]. split; [done|]. split; [done|]. intros i e' Hi. lia.
Qed.

Lemma tracks_nil : tracks [] ∅ ∅.
Proof. split; intros a; [|done]. unfold spawned_in. setoid_rewrite elem_of_nil. set_solver. Qed.


(** ** What the recorder writes *)

Inductive RecOp : Set :=
  | OSpawn (a : Z) (t : list Z) (s : option Z)
  | OSent (from to : Z) (m : list Z) (p : ReplayPayload)
  | OHandled (a : Z) (m : list Z) (us : Z)
  | OIo (a : Z) (src b : list Z)
  | OClock (a v : Z)
  | ORandom (a : Z) (b : list Z)
  | OBudget (a : Z) (r : list Z)
  | OExit (a : Z) (r : list Z)
  | OLlm (turn : option Z) (c : LlmCallRef).

Definition apply_op (r : Recorder) (o : RecOp) : Recorder :=
  match o with
  | OSpawn a t s => record_spawn a t s r
  | OSent from to m p => record_message_sent_payload from to m p r
  | OHandled a m us => (record_message_handled a m us r).2
  | OIo a src b => record_io_read a src b r
  | OClock a v => record_clock_read a v r
  | ORandom a b => record_random_read a b r
  | OBudget a m => record_budget_exhausted a m r
  | OExit a m => record_exit a m r
  | OLlm turn c => (record_llm_call turn c r).2
  end.

Definition recorded_event (r : Recorder) (o : RecOp) : TraceEvent :=
  match o with
  | OSpawn a t s => Spawn a t s
  | OSent from to m p => MessageSent from to m p
  | OHandled a m us => MessageHandled a (handled r a) m us
  | OIo a src b => IoRead a src b
  | OClock a v => ClockRead a v
  | ORandom a b => RandomRead a b
  | OBudget a m => BudgetExhausted a m
  | OExit a m => Exit a m
  | OLlm turn c => LlmCall (with_turn c (default (next_llm r) turn))
  end.

Lemma apply_buffer r o : buffer (apply_op r o) = buffer r ++ [recorded_event r o].
Proof. by destruct o as [| | | | | | | |[]]. Qed.

(** The counter of every agent is the number of its handled messages. *)
Definition counted (r : Recorder) : Prop := ∀ a, handled r a = handled_by a (buffer r).

Lemma handled_by_bound a es : 0 <= handled_by a es <= Z.of_nat (length es).
Proof.
  unfold handled_by. split; [lia|]. apply inj_le. induction es as [|e es IH]; [done|]. cbn. destruct (match e with MessageHandled b _ _ _ => b =? a | _ => false end); cbn; lia.
Qed.

Lemma counted_step r o : counted r → Z.of_nat (length (buffer r)) + 1 < 2 ^ 64 → counted (apply_op r o).
Proof.
  intros H Hl a. rewrite apply_buffer, handled_by_app, <-(H a).
  assert (∀ b n r', handled (set_counter b n r') a = if decide (a = b) then n else handled r' a) as Hset.
  { intros b n r'. unfold handled, set_counter. cbn. destruct (decide (a = b)) as [->|]; [by rewrite lookup_insert_eq|by rewrite lookup_insert_ne]. }
  destruct o as [b t s| |b m us| | | | | |[id|] c]; cbn [recorded_event]; try (rewrite handled_by_other by done; rewrite Z.add_0_r; try done).
  - change (handled (set_counter b (handled r b) r) a = handled r a). rewrite Hset. by destruct (decide (a = b)) as [->|].
  - change (handled (set_counter b ((handled r b + 1) mod 2 ^ 64) r) a = handled r a + handled_by a [MessageHandled b (handled r b) m us]). rewrite Hset.
    unfold handled_by. cbn [List.filter]. destruct (decide (a = b)) as [->|Hne].
    + rewrite Z.eqb_refl. pose proof (handled_by_bound b (buffer r)). rewrite (H b). rewrite Z.mod_small by lia. cbn. lia.
    + rewrite (proj2 (Z.eqb_neq b a)) by congruence. cbn. lia.
Qed.

Definition run_ops (r : Recorder) (os : list RecOp) : Recorder := foldl apply_op r os.

(** Every call but a spawn and an LLM turn names an agent spawned before. *)
Definition spawned_first (os : list RecOp) : Prop :=
  ∀ i o a, os !! i = Some o →
    match o with
    | OSpawn _ _ _ | OLlm _ _ => True
    | OSent _ to _ _ => ∃ t s, OSpawn to t s ∈ take i os
    | OHandled b _ _ | OIo b _ _ | OClock b _ | ORandom b _ | OBudget b _ | OExit b _ => a = b → ∃ t s, OSpawn b t s ∈ take i os
    end.

Lemma run_spec seed created workers os :
  Z.of_nat (length os) < 2 ^ 64 →
  let r := run_ops (new_recorder seed created workers) os in
  counted r ∧ length (buffer r) = length os ∧ (∀ a t s, OSpawn a t s ∈ os → Spawn a t s ∈ buffer r) ∧ (spawned_first os → consistent (buffer r)).
Proof.
  cbn zeta. induction os as [|o os IH] using rev_ind; intros Hl.
  - split_and!; [intros a; by unfold handled; cbn|done|by intros a t s H%elem_of_nil|by intros _ i e].
  - rewrite length_app in Hl. cbn in Hl. destruct IH as (Hc & Hlen & Hsp & Hcons); [lia|]. unfold run_ops. rewrite foldl_app. cbn [foldl].
    fold (run_ops (new_recorder seed created workers) os). set (r := run_ops _ os) in *. rewrite apply_buffer. split_and!.
    + apply counted_step; [done|]. lia.
    + rewrite !length_app, Hlen. done.
    + intros a t s [Hin| <-%list_elem_of_singleton]%elem_of_app; [apply elem_of_app; left; by apply Hsp|apply elem_of_app; right; by apply list_elem_of_singleton].
    + intros Hf i e Hi. apply lookup_app_Some in Hi as [Hi|[Hge Hi]].
      * rewrite take_app_le by (apply lookup_lt_Some in Hi; lia). apply Hcons; [|done]. intros j o' a Hj.
        specialize (Hf j o' a). rewrite lookup_app_l in Hf by (by eapply lookup_lt_Some). specialize (Hf Hj).
        rewrite take_app_le in Hf by (apply lookup_lt_Some in Hj; lia). exact Hf.
      * apply list_lookup_singleton_Some in Hi as [Hi <-]. rewrite take_app_ge by lia. replace (i - length (buffer r))%nat with 0%nat by lia.
        cbn [take]. rewrite app_nil_r. assert ((os ++ [o]) !! length os = Some o) as Ho by (rewrite lookup_app_r, Nat.sub_diag by lia; done).
        assert (∀ b, (∃ t s, OSpawn b t s ∈ take (length os) (os ++ [o])) → spawned_in b (buffer r)) as Hb.
        { intros b (t & s & Hin). rewrite take_app_length in Hin. exists t, s. by apply Hsp. }
        pose proof (λ a, Hf (length os) o a Ho) as Hf'. split.
        -- intros a Ha. destruct o as [| | | | | | | |[]]; cbn in Ha; try done; injection Ha as <-; apply Hb; first [exact (Hf' 0)|exact (Hf' _ eq_refl)].
        -- intros a idx m us E. destruct o as [| |b m' us'| | | | | |[]]; cbn in E; try done. injection E as <- <- <- <-. apply Hc.
Qed.

(** ** Calls of several threads

    The first half of a call returns the event that the second will push; the
    events of the calls between their halves are [rw_open]. *)

Definition enter_call (o : RecOp) (r : Recorder) : Recorder * TraceEvent :=
  match o with
  | OSpawn a t s => (touch_counter a r, Spawn a t s)
  | OHandled a m us => let '(idx, r) := take_msg_idx a r in (r, MessageHandled a idx m us)
  | OLlm None c => let '(id, r) := take_turn_id r in (r, LlmCall (with_turn c id))
  | OLlm (Some id) c => (r, LlmCall (with_turn c id))
  | OSent from to m p => (r, MessageSent from to m p)
  | OIo a src b => (r, IoRead a src b)
  | OClock a v => (r, ClockRead a v)
  | ORandom a b => (r, RandomRead a b)
  | OBudget a m => (r, BudgetExhausted a m)
  | OExit a m => (r, Exit a m)
  end.

Record RecWorld : Type := mkRecWorld { rw_rec : Recorder; rw_open : list TraceEvent }.

(** A call enters, or the [k]-th open call pushes its event and returns. *)
Inductive RecAct : Set := AEnter (o : RecOp) | APush (k : nat).

Definition rec_act (w : RecWorld) (a : RecAct) : RecWorld :=
  match a with
  | AEnter o => let '(r, e) := enter_call o (rw_rec w) in mkRecWorld r (rw_open w ++ [e])
  | APush k =>
      match rw_open w !! k with
      | Some e => mkRecWorld (push e (rw_rec w)) (delete k (rw_open w))
      | None => w
      end
  end.

Definition rec_acts (w : RecWorld) (acts : list RecAct) : RecWorld := foldl rec_act w acts.
Definition rec_start (seed created workers : Z) : RecWorld := mkRecWorld (new_recorder seed created workers) [].

(** A call that is not interrupted is the call of the sequential model. *)
Lemma call_alone w o :
  rec_acts w [AEnter o; APush (length (rw_open w))] = mkRecWorld (apply_op (rw_rec w) o) (rw_open w).
Proof.
  destruct w as [r open]. unfold rec_acts. cbn [foldl rec_act rw_rec rw_open].
  assert (push (enter_call o r).2 (enter_call o r).1 = apply_op r o) as He by (by destruct o as [| | | | | | | |[]]).
  destruct (enter_call o r) as [r' e]. cbn in He. cbn [rw_rec rw_open].
  rewrite lookup_app_r, Nat.sub_diag by done. cbn. rewrite He. f_equal.
  by rewrite delete_middle, app_nil_r.
Qed.

(** The indices of the messages an agent handled, in the order of the events. *)
Definition indices (a : Z) (es : list TraceEvent) : list Z :=
  omap (λ e, match e with MessageHandled b idx _ _ => if b =? a then Some idx else None | _ => None end) es.

Lemma indices_app a xs ys : indices a (xs ++ ys) = indices a xs ++ indices a ys.
Proof. apply omap_app. Qed.

Lemma indices_length a es : (length (indices a es) <= length es)%nat.
Proof. unfold indices. induction es as [|e es IH]; cbn; [done|]. repeat case_match; cbn in *; lia. Qed.

Lemma indices_perm a xs ys : xs ≡ₚ ys → indices a xs ≡ₚ indices a ys.
Proof. intros H. unfold indices. by rewrite H. Qed.

(** Every index below the counter was given out once. *)
Definition numbered (w : RecWorld) : Prop :=
  ∀ a, 0 <= handled (rw_rec w) a ∧ indices a (buffer (rw_rec w) ++ rw_open w) ≡ₚ seqZ 0 (handled (rw_rec w) a).

Lemma handled_set b n r a : handled (set_counter b n r) a = if decide (a = b) then n else handled r a.
Proof. unfold handled, set_counter. cbn. destruct (decide (a = b)) as [->|]; [by rewrite lookup_insert_eq|by rewrite lookup_insert_ne]. Qed.

Lemma enter_numbered w o :
  numbered w → (∀ a, handled (rw_rec w) a + 1 < 2 ^ 64) → numbered (rec_act w (AEnter o)).
Proof.
  intros H Hl a. destruct w as [r open]. cbn [rw_rec rw_open] in *. specialize (H a) as [H0 H]. cbn [rw_rec rw_open] in *.
  unfold rec_act. cbn [rw_rec rw_open].
  destruct o as [b t s| |b m us| | | | | |[id|] c]; cbn [enter_call take_msg_idx take_turn_id rw_rec rw_open].
  all: rewrite !app_assoc, indices_app; cbn [indices omap list_omap buffer set_counter touch_counter].
  all: try (rewrite app_nil_r; unfold touch_counter; rewrite ?handled_set; (split; [|]); try done).
  - by destruct (decide (a = b)) as [->|].
  - destruct (decide (a = b)) as [->|]; done.
  - cbn. rewrite handled_set. specialize (Hl b). destruct (decide (a = b)) as [->|Hne].
    + rewrite Z.eqb_refl, Z.mod_small by lia. split; [lia|]. rewrite H.
      rewrite (seqZ_app 0 (handled r b) 1) by lia. done.
    + rewrite (proj2 (Z.eqb_neq b a)) by congruence. rewrite app_nil_r. by split.
Qed.

Lemma push_numbered w k : numbered w → numbered (rec_act w (APush k)).
Proof.
  intros H. unfold rec_act. destruct (rw_open w !! k) as [e|] eqn:E; [|done]. intros a. specialize (H a) as [H0 H].
  split; [done|]. etrans; [|exact H]. apply indices_perm. cbn [rw_rec rw_open push buffer].
  rewrite <-app_assoc. apply Permutation_app_head. symmetry. exact (delete_Permutation _ _ _ E).
Qed.

Definition entered (acts : list RecAct) : nat :=
  length (List.filter (λ a, match a with AEnter _ => true | _ => false end) acts).

Lemma numbered_bound w a : numbered w → handled (rw_rec w) a <= Z.of_nat (length (buffer (rw_rec w) ++ rw_open w)).
Proof.
  intros H. destruct (H a) as [H0 Hp]. apply Permutation_length in Hp. rewrite length_seqZ in Hp.
  pose proof (indices_length a (buffer (rw_rec w) ++ rw_open w)). lia.
Qed.

Lemma enter_events w o :
  length (buffer (rw_rec (rec_act w (AEnter o))) ++ rw_open (rec_act w (AEnter o))) = S (length (buffer (rw_rec w) ++ rw_open w)).
Proof.
  destruct w as [r open]. unfold rec_act. cbn [rw_rec rw_open].
  assert (buffer (enter_call o r).1 = buffer r) as Hb by (by destruct o as [| | | | | | | |[]]).
  destruct (enter_call o r) as [r' e]. cbn in Hb |- *. rewrite Hb, !length_app. cbn. lia.
Qed.

Lemma push_events w k :
  length (buffer (rw_rec (rec_act w (APush k))) ++ rw_open (rec_act w (APush k))) = length (buffer (rw_rec w) ++ rw_open w).
Proof.
  unfold rec_act. destruct (rw_open w !! k) as [e|] eqn:E; [|done]. cbn. rewrite <-app_assoc, !length_app. cbn.
  rewrite (length_delete _ _ ltac:(by eexists)). apply lookup_lt_Some in E. lia.
Qed.

Lemma acts_numbered w acts :
  numbered w → Z.of_nat (length (buffer (rw_rec w) ++ rw_open w) + entered acts) < 2 ^ 64 → numbered (rec_acts w acts).
Proof.
  revert w. induction acts as [|[o|k] acts IH]; intros w H Hl; [done| |]; cbn [rec_acts foldl].
  - apply IH; [apply enter_numbered; [done|]|rewrite enter_events]; unfold entered in *; cbn in Hl |- *; [|lia].
    intros a. pose proof (numbered_bound w a H). lia.
  - apply IH; [by apply push_numbered|]. rewrite push_events. exact Hl.
Qed.

(** However the calls of several threads interleave, the messages of an agent
    are numbered without gap or repetition: the indices in the trace and in the
    calls that have yet to push are those from 0 up to the agent's counter. *)
Theorem indices_distinct seed created workers acts a :
  Z.of_nat (entered acts) < 2 ^ 64 →
  let w := rec_acts (rec_start seed created workers) acts in
  indices a (buffer (rw_rec w) ++ rw_open w) ≡ₚ seqZ 0 (handled (rw_rec w) a).
Proof. intros Hl. by apply (acts_numbered (rec_start seed created workers) acts). Qed.

Lemma indices_distinct_witness :
  let w := rec_acts (rec_start 1 2 3) [AEnter (OHandled 4 [80] 10); AEnter (OHandled 4 [81] 11); APush 1] in
  indices 4 (buffer (rw_rec w) ++ rw_open w) ≡ₚ [0; 1] ∧ indices 4 (buffer (rw_rec w)) = [1].
Proof.
  split; [|by vm_compute].
  apply (indices_distinct 1 2 3 [AEnter (OHandled 4 [80] 10); AEnter (OHandled 4 [81] 11); APush 1] 4). by vm_compute.
Defined.

(** Their order is not kept: two calls for one agent that overlap may push in
    the other order, and the check then refuses the trace.  The runtime handles
    the messages of an agent one at a time. *)
Example overlap_out_of_order :
  verify_self_consistent (to_trace_file (rw_rec (rec_acts (rec_start 1 2 3)
    [AEnter (OSpawn 4 [69] None); APush 0; AEnter (OHandled 4 [80] 10); AEnter (OHandled 4 [81] 11); APush 1; APush 0])))
  ≠ Ok ().
Proof. by vm_compute. Qed.



(** ** The file *)

(** What is encoded decodes to itself when it has a version the reader takes
    as it is; a trace from a newer writer is refused by its version, and so is
    anything that does not start with the magic. *)
Theorem file_round_trip `{SerdeOk} t b :
  encode t = Ok b →
  (version t <= TRACE_WIRE_VERSION → version t ≠ 1 → decode b = Ok t) ∧
  (TRACE_WIRE_VERSION < version t → decode b = Err (UnsupportedVersion (version t) TRACE_WIRE_VERSION)) ∧
  ∀ b', take 8 b' ≠ TRACE_MAGIC → decode b' = Err BadMagic.
Proof.
  unfold encode. destruct (to_vec t) as [json|] eqn:E; [|done]. cbn [or_serde mbind Res_bind]. intros Eb.
  assert (b = TRACE_MAGIC ++ json) as -> by congruence. clear Eb.
  pose proof (serde_round_trip t json E) as Hr. pose proof (serde_version t json E) as Hv.
  assert (decode (TRACE_MAGIC ++ json) = if TRACE_WIRE_VERSION <? version t then Err (UnsupportedVersion (version t) TRACE_WIRE_VERSION)
    else if version t =? 1 then v1 ← or_serde (from_slice_v1 json); Ok (into_v2 v1) else Ok t) as Ed.
  { unfold decode. rewrite length_app, drop_app_length, take_app_length. rewrite (proj2 (Nat.ltb_ge _ _)) by lia.
    rewrite bool_decide_eq_true_2 by done. cbn [negb]. rewrite Hv. cbn [or_serde mbind Res_bind]. by rewrite Hr. }
  rewrite Ed. split_and!.
  - intros Hle Hne. rewrite (proj2 (Z.ltb_ge _ _)) by lia. by rewrite (proj2 (Z.eqb_neq _ _)).
  - intros Hlt. by rewrite (proj2 (Z.ltb_lt _ _)).
  - intros b' Hb. unfold decode. change (length TRACE_MAGIC) with 8%nat. destruct (length b' <? 8)%nat; [done|]. by rewrite bool_decide_eq_false_2.
Qed.

(** A codec that writes the four numbers of a trace without events. *)
#[export] Instance header_serde : Serde := {|
  to_vec t := match events t with [] => Ok [version t; created_at_ms t; runtime_seed t; worker_count t] | _ => Err "events" end;
  from_slice_version b := match b with v :: _ => Ok v | _ => Err "eof" end;
  from_slice_v1 b := match b with [v; c; s; w] => Ok (mkV1 v c s w []) | _ => Err "eof" end;
  from_slice b := match b with [v; c; s; w] => Ok (mkTrace v c s w []) | _ => Err "eof" end |}.

#[export] Instance header_serde_ok : SerdeOk header_serde.
Proof. split; intros [v c s w [|e es]] b; cbn; try done; by intros [= <-]. Qed.

Lemma file_round_trip_witness :
  decode (TRACE_MAGIC ++ [3; 9; 5; 1]) = Ok (mkTrace 3 9 5 1 []) ∧ decode (TRACE_MAGIC ++ [4; 9; 5; 1]) = Err (UnsupportedVersion 4 3).
Proof.
  split.
  - apply (file_round_trip (mkTrace 3 9 5 1 []) (TRACE_MAGIC ++ [3; 9; 5; 1])); [done|by vm_compute|by vm_compute].
  - apply (file_round_trip (mkTrace 4 9 5 1 []) (TRACE_MAGIC ++ [4; 9; 5; 1])); [done|by vm_compute].
Defined.

(** ** Comparing streams *)

Section compare.
Variable debug_values : list Value → bytes.
Notation matches m := (λ rec rep, events_match debug_values m rec rep = true).
Notation compare := (compare_from debug_values).

(** [xs] matches a subsequence of [ys]. *)
Inductive embeds {A B} (R : A → B → Prop) : list A → list B → Prop :=
  | em_nil ys : embeds R [] ys
  | em_skip xs y ys : embeds R xs ys → embeds R xs (y :: ys)
  | em_take x xs y ys : R x y → embeds R xs ys → embeds R (x :: xs) (y :: ys).

Lemma embeds_app_l {A B} (R : A → B → Prop) xs pre ys : embeds R xs ys → embeds R xs (pre ++ ys).
Proof. intros H. induction pre; [done|]. by apply em_skip. Qed.

Lemma embeds_tail {A B} (R : A → B → Prop) x xs ys : embeds R (x :: xs) ys → embeds R xs ys.
Proof.
  intros H. remember (x :: xs) as l eqn:E. revert x xs E. induction H as [ys|l y ys _ IH|x' l y ys _ H _]; intros x xs E; [done|..].
  - apply em_skip. by eapply IH.
  - injection E as _ <-. by apply em_skip.
Qed.

(** Skipping what does not match the first loses nothing. *)
Lemma embeds_skip_pre {A B} (R : A → B → Prop) x xs pre ys :
  (∀ y, y ∈ pre → ¬ R x y) → embeds R (x :: xs) (pre ++ ys) → embeds R (x :: xs) ys.
Proof.
  intros Hn. induction pre as [|y pre IH]; [done|]. intros H. inversion H; subst; [apply IH; [|done]; intros z Hz; apply Hn; by right|].
  exfalso. eapply Hn; [by left|done].
Qed.

Lemma events_match_kind m rec rep : events_match debug_values m rec rep = true → event_kind rep = event_kind rec.
Proof. by destruct rec, rep. Qed.

(** The search finds the first match. *)
Lemma find_match_spec m rec j l :
  match find_match debug_values m rec j l with
  | Some k => ∃ pre y post, l = pre ++ y :: post ∧ k = (j + length pre)%nat ∧ events_match debug_values m rec y = true ∧
      ∀ z, z ∈ pre → events_match debug_values m rec z ≠ true
  | None => ∀ z, z ∈ l → events_match debug_values m rec z ≠ true
  end.
Proof.
  revert j. induction l as [|y l IH]; intros j; cbn [find_match]; [by intros z Hz%elem_of_nil|].
  destruct (events_match debug_values m rec y) eqn:Em.
  - rewrite (bool_decide_eq_true_2 _ (events_match_kind m rec y Em)). cbn [andb]. exists [], y, l. split_and!; [done|cbn; lia|done|by intros z Hz%elem_of_nil].
  - rewrite andb_false_r. specialize (IH (S j)). destruct (find_match debug_values m rec (S j) l) as [k|].
    + destruct IH as (pre & y' & post & -> & -> & Hm & Hpre). exists (y :: pre), y', post. split_and!; [done|cbn; lia|done|].
      intros z [->|Hz]%elem_of_cons; [congruence|by apply Hpre].
    + intros z [->|Hz]%elem_of_cons; [congruence|by apply IH].
Qed.

Definition hard (es : list TraceEvent) : list TraceEvent := List.filter (λ e, negb (is_soft e)) es.

(** Where the search starts again after a match. *)
Lemma drop_after (reps pre : list TraceEvent) y post idx :
  drop idx reps = pre ++ y :: post → drop (S (idx + length pre)) reps = post.
Proof.
  intros E. replace (S (idx + length pre)) with (idx + S (length pre))%nat by lia. rewrite <-drop_drop, E.
  replace (pre ++ y :: post) with ((pre ++ [y]) ++ post) by (by rewrite <-app_assoc). rewrite drop_app_ge; rewrite length_app; cbn; [|lia].
  replace (S (length pre) - (length pre + 1))%nat with 0%nat by lia. done.
Qed.

Lemma compare_sound m reps i idx recs : compare m reps i idx recs = [] → embeds (matches m) (hard recs) (drop idx reps).
Proof.
  revert i idx. induction recs as [|rec recs IH]; intros i idx H; [constructor|]. cbn [compare_from] in H. unfold hard. cbn [List.filter].
  fold (hard recs). destruct (reps !! idx) as [rep|] eqn:Er.
  - pose proof (find_match_spec m rec idx (drop idx reps)) as Hf. destruct (find_match debug_values m rec idx (drop idx reps)) as [k|].
    + destruct Hf as (pre & y & post & E & -> & Hm & _). apply IH in H. rewrite (drop_after _ _ _ _ _ E) in H. rewrite E.
      apply embeds_app_l. destruct (is_soft rec); cbn [negb]; [by apply em_skip|by apply em_take].
    + destruct (is_soft rec); cbn [negb]; [by apply IH in H|done].
  - destruct (is_soft rec); cbn [negb app] in *; [by apply IH in H|done].
Qed.

Lemma compare_complete m reps i idx recs :
  Forall (λ e, is_soft e = false) recs → embeds (matches m) recs (drop idx reps) → compare m reps i idx recs = [].
Proof.
  intros Hs. revert i idx. induction Hs as [|rec recs Hr _ IH]; intros i idx H; [done|]. cbn [compare_from]. rewrite Hr.
  destruct (reps !! idx) as [rep|] eqn:Er.
  - pose proof (find_match_spec m rec idx (drop idx reps)) as Hf. destruct (find_match debug_values m rec idx (drop idx reps)) as [k|].
    + destruct Hf as (pre & y & post & E & -> & Hm & Hpre). apply IH. rewrite (drop_after _ _ _ _ _ E). rewrite E in H.
      apply embeds_skip_pre in H; [|done]. inversion H; subst; [by eapply embeds_tail|done].
    + exfalso. assert (∀ l, embeds (matches m) (rec :: recs) l → (∀ z, z ∈ l → events_match debug_values m rec z ≠ true) → False) as Hno.
      { clear. intros l H Hn. remember (rec :: recs) as xs eqn:E. induction H as [ys|l y ys _ IH|x' l y ys Hm _ _]; [done| |].
        - apply IH; [done|]. intros z Hz. apply Hn. by right.
        - injection E as -> ->. by apply (Hn y); [left|]. }
      by eapply Hno.
  - rewrite lookup_ge_None in Er. rewrite drop_ge in H by done. inversion H.
Qed.

Lemma compare_reports m reps i idx recs :
  (length (compare m reps i idx recs) <= length recs)%nat ∧
  Forall (λ x, ∃ k, index x = (i + k)%nat ∧ recs !! k = Some (recorded x) ∧ is_soft (recorded x) = false) (compare m reps i idx recs).
Proof.
  revert i idx. induction recs as [|rec recs IH]; intros i idx; [split; [done|constructor]|]. cbn [compare_from length].
  assert (∀ idx', Forall (λ x, ∃ k, index x = (i + k)%nat ∧ (rec :: recs) !! k = Some (recorded x) ∧ is_soft (recorded x) = false) (compare m reps (S i) idx' recs)) as Hl.
  { intros idx'. destruct (IH (S i) idx') as [_ H]. eapply Forall_impl; [exact H|]. intros x (k & Hi & Hk & Hs). exists (S k). split; [lia|done]. }
  assert (∀ idx', (length (compare m reps (S i) idx' recs) <= length recs)%nat) as Hn by (intros idx'; apply IH).
  destruct (reps !! idx) as [rep|].
  - destruct (find_match _ _ _ _ _) as [k|]; [split; [pose proof (Hn (S k)); lia|done]|].
    destruct (is_soft rec) eqn:Es; [split; [pose proof (Hn idx); lia|done]|]. cbn [length]. split; [pose proof (Hn (S idx)); lia|].
    constructor; [|done]. exists 0%nat. cbn. split; [lia|done].
  - destruct (is_soft rec) eqn:Es; cbn [app length]; (split; [pose proof (Hn idx); lia|]); [done|]. constructor; [|done]. exists 0%nat. cbn. split; [lia|done].
Qed.
End compare.

(** C19. The comparison finds no mismatch only when the strict events embed, in
    order, in the replayed ones; for a recording of strict events that is all
    it takes.  Each mismatch is a strict event at its place, and the count is
    the rest. *)
Theorem compare_exact debug_values recs reps m :
  let '(ms, n) := compare_streams debug_values recs reps m in
  (ms = [] → embeds (λ rec rep, events_match debug_values m rec rep = true) (hard recs) reps) ∧
  (Forall (λ e, is_soft e = false) recs → embeds (λ rec rep, events_match debug_values m rec rep = true) recs reps → ms = []) ∧
  Forall (λ x, recs !! index x = Some (recorded x) ∧ is_soft (recorded x) = false) ms ∧
  (n + length ms = length recs)%nat.
Proof.
  unfold compare_streams. destruct (compare_reports debug_values m reps 0 0 recs) as [Hl Hf]. split_and!.
  - intros H. by apply (compare_sound debug_values m reps 0 0).
  - intros Hs He. by apply compare_complete.
  - eapply Forall_impl; [exact Hf|]. by intros x (k & -> & Hk & Hs).
  - lia.
Qed.

Definition demo_events : list TraceEvent :=
  [Spawn 1 [69] None; MessageSent 0 1 [80] (PValues [RInt 4 "I64"]); MessageHandled 1 0 [80] 12; Exit 1 []].

Lemma compare_exact_witness :
  (compare_streams (λ _, []) (take 3 demo_events) [Spawn 9 [69] None; ClockRead 9 5; MessageSent 0 9 [80] (PValues [RInt 4 "I64"]); MessageHandled 9 0 [80] 7] {[1 := 9]}).1 = [].
Proof.
  pose proof (compare_exact (λ _, []) (take 3 demo_events)
    [Spawn 9 [69] None; ClockRead 9 5; MessageSent 0 9 [80] (PValues [RInt 4 "I64"]); MessageHandled 9 0 [80] 7] {[1 := 9]}) as H.
  destruct (compare_streams _ _ _ _) as [ms n]. destruct H as (_ & H & _). apply H; [by repeat constructor|].
  apply em_take; [by vm_compute|]. apply em_skip. apply em_take; [by vm_compute|]. apply em_take; [by vm_compute|]. constructor.
Defined.

(** A run that does what was recorded, under new ids of its agents. *)
Definition rename (m : gmap Z Z) (e : TraceEvent) : TraceEvent :=
  match e with
  | Spawn id t s => Spawn (map_id m id) t s
  | MessageSent from to msg p => MessageSent (if from =? 0 then 0 else map_id m from) (map_id m to) msg p
  | MessageHandled a i msg us => MessageHandled (map_id m a) i msg us
  | IoRead a s b => IoRead (map_id m a) s b
  | ClockRead a v => ClockRead (map_id m a) v
  | RandomRead a b => RandomRead (map_id m a) b
  | BudgetExhausted a r => BudgetExhausted (map_id m a) r
  | Exit a r => Exit (map_id m a) r
  | LlmCall c => LlmCall c
  end.

Definition is_llm (e : TraceEvent) : bool := match e with LlmCall _ => true | _ => false end.

Lemma rename_matches debug_values m e : is_llm e = false → events_match debug_values m e (rename m e) = true.
Proof.
  assert (∀ p, payloads_match debug_values p p = true) as Hp by (intros p; unfold payloads_match; by rewrite bool_decide_eq_true_2).
  destruct e as [a t s|from to msg p|a i msg us|a s b|a v|a b|a r|a r|c]; intros H; cbn [rename events_match];
    rewrite ?Z.eqb_refl, ?Hp, ?bool_decide_eq_true_2 by done; try done.
  destruct (from =? 0) eqn:E; [by rewrite ?Z.eqb_refl|by rewrite ?Z.eqb_refl].
Qed.

Lemma rename_all debug_values m es :
  Forall (λ e, is_llm e = false) es → Forall2 (λ rec rep, events_match debug_values m rec rep = true) es (rename m <$> es).
Proof. induction 1; [constructor|]. constructor; [by apply rename_matches|done]. Qed.

Lemma compare_Forall2 debug_values m reps i idx recs :
  Forall2 (λ rec rep, events_match debug_values m rec rep = true) recs (drop idx reps) → compare_from debug_values m reps i idx recs = [].
Proof.
  revert i idx. induction recs as [|rec recs IH]; intros i idx H; [done|]. destruct (drop idx reps) as [|rep rest] eqn:E; [by inversion H|].
  apply Forall2_cons in H as [Hm Hr]. assert (reps !! idx = Some rep) as El.
  { pose proof (lookup_drop reps idx 0) as L. rewrite E, Nat.add_0_r in L. by symmetry. }
  cbn [compare_from]. rewrite El, E. cbn [find_match]. rewrite (bool_decide_eq_true_2 _ (events_match_kind debug_values m rec rep Hm)), Hm. cbn [andb].
  apply IH. replace (S idx) with (idx + 1)%nat by lia. by rewrite <-drop_drop, E.
Qed.

Lemma llm_mismatch debug_values m reps i idx recs c :
  LlmCall c ∈ recs → compare_from debug_values m reps i idx recs ≠ [].
Proof.
  intros Hin H. apply compare_sound in H. assert (LlmCall c ∈ hard recs) as Hh.
  { apply list_elem_of_In, List.filter_In. split; [by apply list_elem_of_In|done]. }
  revert H Hh. generalize (hard recs) (drop idx reps). intros xs ys H. induction H as [ys|xs y ys _ IH|x xs y ys Hm _ IH]; intros Hh.
  - by apply elem_of_nil in Hh.
  - by apply IH.
  - apply elem_of_cons in Hh as [<-|Hh]; [done|by apply IH].
Qed.

(** With a program attached a replay answers a report.  It succeeds when the
    live runtime emits the recorded events under the new ids, on a trace that
    is not empty; but on a trace with an LLM turn it never does, whatever the
    runtime emits.  Its turns are those that are replayed alone. *)
Theorem replay_judged debug_values {R} (rt : Runtime R) lossy provider fresh t :
  let m := (foldl (λ st ev, feed rt lossy ev st) (∅, fresh) (events t)).1 in
  let live := (foldl (λ st ev, feed rt lossy ev st) (∅, fresh) (events t)).2 in
  ∃ rep, replay_all debug_values rt lossy true provider true fresh t = Ok rep ∧
    (snapshot R rt (settle R rt live) = rename m <$> events t → Forall (λ e, is_llm e = false) (events t) →
      success rep = bool_decide (events t ≠ [])) ∧
    (∀ c, LlmCall c ∈ events t → success rep = false) ∧
    llm_turn_replays rep = match provider with Some provide => replay_llm_turns provide t | None => [] end.
Proof.
  cbn zeta. unfold replay_all, compare_streams. cbn [negb]. eexists. split; [reflexivity|]. split_and!.
  - intros Hs Hl. rewrite Hs. rewrite compare_Forall2.
    + cbn [success length]. rewrite bool_decide_eq_true_2 by done. cbn [andb]. rewrite Nat.sub_0_r. by destruct (events t).
    + rewrite drop_0. by apply rename_all.
  - intros c Hc. cbn [success]. rewrite bool_decide_eq_false_2; [done|]. by apply (llm_mismatch _ _ _ _ _ _ c).
  - cbn [llm_turn_replays]. destruct provider as [provide|]; [|done]. unfold replay_llm_turns, iter_llm_calls.
    induction (events t) as [|e es IH]; [done|]. destruct e; cbn; try done. f_equal. exact IH.
Qed.

Definition demo_runtime : Runtime (list TraceEvent) := mkRuntime _
  (λ ty r, (Some (Z.of_nat (length r) + 7), r ++ [Spawn (Z.of_nat (length r) + 7) ty None]))
  (λ to msg args r, r ++ [MessageSent 0 to msg (PValues (List.map (from_runtime_value (λ _, [])) args)); MessageHandled to 0 msg 3])
  (λ r, r) (λ r, r).

Definition demo_trace : TraceFile := mkTrace 3 0 0 1 [Spawn 1 [69] None; MessageSent 0 1 [80] (PValues [RInt 4 "I64"]); MessageHandled 1 0 [80] 3].

Lemma replay_judged_witness : ∃ rep, replay_all (λ _, []) demo_runtime (λ b, b) true None true [] demo_trace = Ok rep ∧ success rep = true.
Proof.
  destruct (replay_judged (λ _, []) demo_runtime (λ b, b) None [] demo_trace) as (rep & Hr & H & _). exists rep. split; [exact Hr|].
  rewrite H; [by vm_compute|by vm_compute|by repeat constructor].
Defined.

(** The two ways to replay one turn agree: the diff of a turn is identical
    exactly when its entry among all the turns matches in its reply and in the
    set of its tools. *)
Theorem diff_agrees provide t id d :
  diff_llm_turn provide t id = Some d →
  df_id d = id ∧ ∃ tr, tr ∈ replay_llm_turns provide t ∧ tr_id tr = id ∧ identical d = replies_match tr && tool_call_set_matches tr.
Proof.
  unfold diff_llm_turn, llm_call_by_turn. destruct (List.filter _ (iter_llm_calls t)) as [|c l] eqn:E; [done|]. cbn [head mbind option_bind].
  assert (c ∈ iter_llm_calls t ∧ turn_id c = id) as [Hin Hid].
  { assert (c ∈ List.filter (λ c, turn_id c =? id) (iter_llm_calls t)) as Hc by (rewrite E; by left).
    apply list_elem_of_In, List.filter_In in Hc as [Hc Ht]. split; [by apply list_elem_of_In|by apply Z.eqb_eq]. }
  intros [= <-]. split; [by destruct (provide c)|]. exists (replay_turn provide c). split; [apply list_elem_of_fmap; by exists c|].
  unfold replay_turn, replies_match, tool_call_set_matches. destruct (provide c) as [p|e]; by split.
Qed.

Lemma diff_agrees_witness :
  let c := mkCall 5 0 [104] None [] [104; 105] [mkToolUse [115] [] []] 0 in
  let provide := λ _, Ok (mkTurn [104; 105] [mkToolUse [115] [49] []; mkToolUse [115] [50] []] 0) in
  ∃ tr, tr ∈ replay_llm_turns provide (mkTrace 3 0 0 1 [LlmCall c]) ∧ true = replies_match tr && tool_call_set_matches tr.
Proof.
  cbv zeta. set (c := mkCall 5 0 [104] None [] [104; 105] [mkToolUse [115] [] []] 0).
  destruct (diff_agrees (λ _, Ok (mkTurn [104; 105] [mkToolUse [115] [49] []; mkToolUse [115] [50] []] 0)) (mkTrace 3 0 0 1 [LlmCall c]) 5
    (mkDiff 5 [104] None [104; 105] (Some [104; 105]) [[115]] [[115]; [115]] true)) as (_ & tr & H1 & _ & H2); [by vm_compute|].
  exists tr. split; [exact H1|exact H2].
Defined.

(** The counts of a summary add up, its agents are those of the events, and
    the time is capped. *)
Theorem summary_adds_up t :
  let s := summary t in
  (spawn_count s + message_sent_count s + message_handled_count s + io_read_count s + clock_read_count s + random_read_count s
   + budget_exhausted_count s + exit_count s + llm_call_count s = event_count s)%nat ∧
  (agent_count s <= event_count s)%nat ∧ total_handler_elapsed_us s <= 2 ^ 64 - 1.
Proof.
  cbv zeta. unfold summary. cbn [spawn_count message_sent_count message_handled_count io_read_count clock_read_count random_read_count
    budget_exhausted_count exit_count llm_call_count event_count agent_count total_handler_elapsed_us]. split_and!.
  - induction (events t) as [|e es IH]; [done|]. unfold count_kind in *. cbn [List.filter length]. destruct e; cbn [event_kind]; repeat first [rewrite bool_decide_eq_true_2 by done | rewrite bool_decide_eq_false_2 by done]; cbn [length]; lia.
  - assert (∀ es (s : gset Z), (size (foldl (λ s e, match event_agent e with Some a => {[a]} ∪ s | None => s end) s es) <= size s + length es)%nat) as H.
    { induction es as [|e es IH]; intros s; cbn [foldl length]; [lia|]. pose proof (IH (match event_agent e with Some a => {[a]} ∪ s | None => s end)) as Hs.
      enough (size (match event_agent e with Some a => {[a]} ∪ s | None => s end) <= size s + 1)%nat by lia.
      destruct (event_agent e) as [a|]; [|lia]. rewrite size_union_alt, size_singleton.
      pose proof (subseteq_size (s ∖ {[a]}) s ltac:(set_solver)). lia. }
    pose proof (H (events t) ∅) as Hs. rewrite size_empty in Hs. lia.
  - assert (∀ es n, n <= 2 ^ 64 - 1 → foldl (λ n e, match e with MessageHandled _ _ _ us => sat_add_u64 n us | _ => n end) n es <= 2 ^ 64 - 1) as H.
    { induction es as [|e es IH]; intros n Hn; [done|]. cbn [foldl]. apply IH. destruct e; try done. unfold sat_add_u64. lia. }
    apply H. lia.
Qed.

(** ** What the model showed *)

(** An event that the replay lacks makes the next one, which it has, a
    mismatch too. *)
Example one_gap_two_mismatches :
  length (compare_streams (λ _, []) [ClockRead 1 5; ClockRead 1 6] [ClockRead 1 6] ∅).1 = 2%nat.
Proof. by vm_compute. Qed.

(** A soft event that the replay emits late takes the strict ones before it
    along. *)
Example soft_event_hides_strict :
  length (compare_streams (λ _, []) [Exit 1 []; ClockRead 1 6] [ClockRead 1 6; Exit 1 []] ∅).1 = 1%nat.
Proof. by vm_compute. Qed.

(** A caller's own turn id and an allocated one collide. *)
Example turn_ids_collide :
  let c := mkCall 0 0 [] None [] [] [] 0 in
  let r := (record_llm_call (Some 0) c (new_recorder 0 0 1)).2 in
  (record_llm_call None c r).1 = 0.
Proof. reflexivity. Qed.
