(* ===== verification/Reload.v ===== *)
(** * Hot reload

    [crates/mty-runtime/src/reload/]: the metadata of a replacement module
    ([wasm_loader.rs]), snapshots, schema hashes and the registry of migrations
    ([resumable.rs]), the wait for a handler to return ([condvar_drain.rs]) and
    the swap itself ([swap.rs]).  The wasm parser and the codec of snapshots
    are third party: parameters.  A byte and a [u64] are a [Z], durations are
    nanoseconds; what the clock and the busy flag show at each turn of a
    waiting loop is an argument. *)

From stdpp Require Import base list strings numbers gmap sorting.
From S2P Require Import Prelude Semver IrValue IrMethods.

Local Open Scope Z_scope.
Local Open Scope list_scope.
Notation length := List.length (only parsing).

Definition u64 (z : Z) : Z := z mod 2 ^ 64.

(** ** Snapshots and schema hashes *)

Inductive ResumableError : Set :=
  | Encode (msg : string)
  | Decode (msg : string)
  | TooLarge (bytes limit : Z).

Definition FNV_OFFSET : Z := 0xcbf29ce484222325.
Definition FNV_PRIME : Z := 0x100000001b3.

(** [h ^= u64::from(b); h = h.wrapping_mul(FNV_PRIME)] *)
Definition fnv_byte (h b : Z) : Z := u64 (Z.lxor h b * FNV_PRIME).
Definition update (h : Z) (bytes : list Z) : Z := foldl fnv_byte h bytes.

Definition bytes_of (s : string) : list Z := (λ a, Z.of_N (Ascii.N_of_ascii a)) <$> String.list_ascii_of_string s.

(** A stable sort by the names, which are compared by their bytes. *)
Definition name_le (a b : string * string) : Prop := String.le a.1 b.1.
#[export] Instance name_le_dec a b : Decision (name_le a b).
Proof. unfold name_le. apply _. Defined.
#[export] Instance name_le_total : Total name_le.
Proof. intros a b. unfold name_le. apply (total String.le). Qed.
#[export] Instance name_le_trans : Transitive name_le.
Proof. intros a b c. unfold name_le. by transitivity b.1. Qed.

Definition field_bytes (f : string * string) : list Z := bytes_of f.1 ++ [0x1f] ++ bytes_of f.2 ++ [0x1e].

Definition hash_field (h : Z) (f : string * string) : Z :=
  update (update (update (update h (bytes_of f.1)) [0x1f]) (bytes_of f.2)) [0x1e].

Definition compute_schema_hash (fields : list (string * string)) : Z :=
  foldl hash_field FNV_OFFSET (merge_sort name_le fields).

(** ** Migrations *)

Definition MigrationFn : Type := list Z → Res ResumableError (list Z).

(** [edges.iter()] goes over the map in an order of its own: the model of a
    registry is the edges in that order. *)
Notation Edges := (list ((Z * Z) * MigrationFn)) (only parsing).

Record SchemaRegistry : Type := mkRegistry { edges : gmap (Z * Z) MigrationFn }.

Definition new_registry : SchemaRegistry := mkRegistry ∅.
Definition register_raw (old_hash new_hash : Z) (f : MigrationFn) (r : SchemaRegistry) : SchemaRegistry :=
  mkRegistry (<[(old_hash, new_hash) := f]> (edges r)).
Definition edge_count (r : SchemaRegistry) : nat := size (edges r).
Definition clear (r : SchemaRegistry) : SchemaRegistry := mkRegistry ∅.

(** One pass over the edges from [cur]: a path to the goal, or the frontier
    and the hashes seen. *)
Fixpoint expand (goal cur : Z) (path : list MigrationFn) (es : Edges) (seen : list Z)
    (frontier : list (Z * list MigrationFn)) : list MigrationFn + list Z * list (Z * list MigrationFn) :=
  match es with
  | [] => inr (seen, frontier)
  | ((from, to), f) :: es =>
      if negb (from =? cur) || bool_decide (to ∈ seen) then expand goal cur path es seen frontier
      else if to =? goal then inl (path ++ [f])
      else expand goal cur path es (to :: seen) (frontier ++ [(to, path ++ [f])])
  end.

(** [None] is a loop that has not ended when the fuel has. *)
Fixpoint search (fuel : nat) (goal : Z) (es : Edges) (seen : list Z) (frontier : list (Z * list MigrationFn)) :
    option (option (list MigrationFn)) :=
  match fuel with
  | O => None
  | S fuel =>
      match frontier with
      | [] => Some None
      | (cur, path) :: frontier =>
          match expand goal cur path es seen frontier with
          | inl found => Some (Some found)
          | inr (seen, frontier) => search fuel goal es seen frontier
          end
      end
  end.

(** Every turn but the last takes an entry that one edge put there. *)
Definition chain (es : Edges) (old_hash new_hash : Z) : option (list MigrationFn) :=
  if old_hash =? new_hash then Some []
  else default None (search (2 + length es) new_hash es [old_hash] [(old_hash, [])]).

Fixpoint apply_chain (ch : list MigrationFn) (bytes : list Z) : Res ResumableError (list Z) :=
  match ch with
  | [] => Ok bytes
  | f :: ch => match f bytes with Ok b => apply_chain ch b | Err e => Err e end
  end.

Inductive SchemaCheck : Type := Direct | Migrate (ch : list MigrationFn) | Incompatible.

Definition schema_check (es : Edges) (old_hash new_hash : Z) : SchemaCheck :=
  if old_hash =? new_hash then Direct
  else match chain es old_hash new_hash with
       | Some [] | None => Incompatible
       | Some ch => Migrate ch
       end.

(** [Resumable::schema_compatible_with], the default of the trait. *)
Definition schema_compatible_with (self_hash other_hash : Z) : bool := self_hash =? other_hash.

(** ** Waiting for the handler *)

(** What one turn of a waiting loop sees: the busy flag, the time elapsed when
    it compares with the deadline, and the time elapsed when it returns. *)
Record Look : Type := mkLook { l_busy : bool; l_at : Z; l_then : Z }.

Record DrainState : Type := mkDrain { d_busy : bool; idle_at : option Z }.

Definition mark_busy (d : DrainState) : DrainState := mkDrain true None.
Definition mark_idle (now : Z) (d : DrainState) : DrainState := mkDrain false (Some now).
Definition new_signal (now : Z) : DrainState := mkDrain false (Some now).
Definition new_busy (now : Z) : DrainState := mark_busy (new_signal now).

(** [None]: still waiting after these turns. *)
Fixpoint wait_until_idle (deadline : Z) (looks : list Look) : option (Res Z Z) :=
  match looks with
  | [] => None
  | l :: looks =>
      if negb (l_busy l) then Some (Ok (l_at l))
      else if Z.max 0 (deadline - l_at l) =? 0 then Some (Err (l_then l))
      else wait_until_idle deadline looks
  end.

Fixpoint poll_gate (deadline : Z) (looks : list Look) : option (Res unit Z) :=
  match looks with
  | [] => None
  | l :: looks =>
      if negb (l_busy l) then Some (Ok (l_then l))
      else if deadline <=? l_at l then Some (Err tt)
      else poll_gate deadline looks
  end.

(** ** Modules *)

Definition SECTION_AGENT_TYPE : string := "__mty_agent_type".
Definition SECTION_SCHEMA_HASH : string := "__mty_schema_hash".
Definition WASM_MAGIC_LEN : nat := 8.

Record LoadedAgentModule : Type := mkLoaded { l_wasm : list Z; l_agent_type : string; l_schema_hash : Z }.

Inductive WasmLoadError : Set :=
  | TooShort (n : Z)
  | BadMagic (magic : list Z)
  | Parse (offset : Z) (message : string)
  | MissingSection (name : string)
  | AgentTypeNotUtf8 (why : string)
  | AgentTypeEmpty
  | SchemaHashBadLen (n : Z).

Definition load_diag_code (e : WasmLoadError) : string :=
  match e with
  | TooShort _ | BadMagic _ => "MT5066"
  | Parse _ _ => "MT5067"
  | MissingSection _ => "MT5068"
  | AgentTypeNotUtf8 _ | AgentTypeEmpty | SchemaHashBadLen _ => "MT506A"
  end.

(** A payload of the wasm parser. *)
Inductive Payload : Set := CustomSection (name : string) (data : list Z) | OtherPayload.

(** [u64::from_le_bytes] *)
Definition from_le_bytes (bs : list Z) : Z := foldr (λ b acc, b + 256 * acc) 0 bs.

Section loader.
(** The parser, its errors with their offset, and the text of a UTF-8 error. *)
Context (parse_all : list Z → list (Res (Z * string) Payload)) (utf8_error : list Z → string).

Fixpoint scan (ps : list (Res (Z * string) Payload)) (agent_type : option string) (schema_hash : option Z) :
    Res WasmLoadError (option string * option Z) :=
  match ps with
  | [] => Ok (agent_type, schema_hash)
  | Err (offset, message) :: _ => Err (Parse offset message)
  | Ok OtherPayload :: ps => scan ps agent_type schema_hash
  | Ok (CustomSection name data) :: ps =>
      '(agent_type, schema_hash) ←
        (if bool_decide (name = SECTION_AGENT_TYPE) then
           if bool_decide (data = []) then Err AgentTypeEmpty
           else match utf8_decode data with
                | None => Err (AgentTypeNotUtf8 (utf8_error data))
                | Some _ => Ok (Some (of_ascii data), schema_hash)
                end
         else if bool_decide (name = SECTION_SCHEMA_HASH) then
           if negb (length data =? 8)%nat then Err (SchemaHashBadLen (Z.of_nat (length data)))
           else Ok (agent_type, Some (from_le_bytes data))
         else Ok (agent_type, schema_hash));
      match agent_type, schema_hash with
      | Some _, Some _ => Ok (agent_type, schema_hash)
      | _, _ => scan ps agent_type schema_hash
      end
  end.

Definition load_agent_module (bytes : list Z) : Res WasmLoadError LoadedAgentModule :=
  if (length bytes <? WASM_MAGIC_LEN)%nat then Err (TooShort (Z.of_nat (length bytes)))
  else if negb (bool_decide (take 8 bytes = [0; 97; 115; 109; 1; 0; 0; 0])) then Err (BadMagic (take 8 bytes))
  else
    '(agent_type, schema_hash) ← scan (parse_all bytes) None None;
    agent_type ← ok_or (MissingSection SECTION_AGENT_TYPE) agent_type;
    schema_hash ← ok_or (MissingSection SECTION_SCHEMA_HASH) schema_hash;
    Ok (mkLoaded bytes agent_type schema_hash).

(** ** Program slots *)

Record AgentSlot : Type := mkSlot { agent_type : string; wasm : list Z; schema_hash : Z }.
Record Program : Type := mkProgram { slots : list AgentSlot }.

Definition new_program : Program := mkProgram [].

Definition type_le (a b : AgentSlot) : Prop := String.le (agent_type a) (agent_type b).
#[export] Instance type_le_dec a b : Decision (type_le a b).
Proof. unfold type_le. apply _. Defined.

(** [*existing = slot], the first slot of that type. *)
Fixpoint replace_slot (slot : AgentSlot) (ss : list AgentSlot) : option (list AgentSlot) :=
  match ss with
  | [] => None
  | s :: ss => if bool_decide (agent_type s = agent_type slot) then Some (slot :: ss)
               else (s ::.) <$> replace_slot slot ss
  end.

Definition install (slot : AgentSlot) (p : Program) : Program :=
  match replace_slot slot (slots p) with
  | Some ss => mkProgram ss
  | None => mkProgram (merge_sort type_le (slots p ++ [slot]))
  end.

Definition with_agent (p : Program) (slot : AgentSlot) : Program := install slot p.

Definition get (ty : string) (p : Program) : option AgentSlot :=
  snd <$> list_find (λ s, agent_type s = ty) (slots p).

Definition agent_count (p : Program) : nat := length (slots p).

Definition with_swapped_agent_preloaded (p : Program) (loaded : LoadedAgentModule) : Program :=
  install (mkSlot (l_agent_type loaded) (l_wasm loaded) (l_schema_hash loaded)) p.

(** ** The swap *)

Inductive InternalReason : Set :=
  | WrongDescriptor (plan desc : string)
  | WrongHash (embedded plan : Z).

Inductive ReloadError : Set :=
  | AgentNotFound (id : Z)
  | IncompatibleSchema (old new : Z)
  | DrainDeadline (d : Z)
  | Snapshot (e : ResumableError)
  | WasmLoad (e : WasmLoadError)
  | AgentTypeMismatch (requested embedded : string)
  | Internal (why : InternalReason).

Definition diag_code (e : ReloadError) : string :=
  match e with
  | AgentNotFound _ => "MT5061"
  | IncompatibleSchema _ _ => "MT5060"
  | DrainDeadline _ => "MT5062"
  | Snapshot _ => "MT5063"
  | WasmLoad _ => "MT5064"
  | AgentTypeMismatch _ _ => "MT5065"
  | Internal _ => "MT5069"
  end.

Definition map_err {E F A} (f : E → F) (r : Res E A) : Res F A := match r with Ok a => Ok a | Err e => Err (f e) end.

Definition with_swapped_agent (p : Program) (ty : string) (new_wasm : list Z) : Res ReloadError Program :=
  loaded ← map_err WasmLoad (load_agent_module new_wasm);
  if negb (bool_decide (l_agent_type loaded = ty)) then Err (AgentTypeMismatch ty (l_agent_type loaded))
  else Ok (with_swapped_agent_preloaded p loaded).

Inductive ModuleSource : Type := SameProgram | WasmBytes (bytes : list Z).

Record ReloadOptions : Type := mkOptions { deadline : Z; max_snapshot_bytes : Z }.
Definition DEFAULT_MAX_SNAPSHOT_BYTES : Z := 64 * 1024 * 1024.
Definition default_options : ReloadOptions := mkOptions (5000 * 10 ^ 6) DEFAULT_MAX_SNAPSHOT_BYTES.

Record SwapPlan : Type := mkPlan {
  agent_id : Z; p_agent_type : string; old_schema_hash : Z; new_schema_hash : Z; module : ModuleSource;
  options : ReloadOptions }.

Record ReloadReport : Type := mkReport {
  r_agent_id : Z; r_agent_type : string; r_old_hash : Z; r_new_hash : Z; state_bytes_size : Z;
  drain_elapsed_ms : Z; total_elapsed_ms : Z }.

(** The agent's state and its codec: an error is the codec's message. *)
Context {T : Type} (encode : T → Res string (list Z)) (decode : list Z → Res string T).

Definition codec_encode (v : T) : Res ResumableError (list Z) := map_err Encode (encode v).
Definition codec_decode (bs : list Z) : Res ResumableError T := map_err Decode (decode bs).

Definition encode_snapshot (v : T) (max_bytes : Z) : Res ReloadError (list Z) :=
  bytes ← map_err Snapshot (codec_encode v);
  if max_bytes <? Z.of_nat (length bytes) then Err (Snapshot (TooLarge (Z.of_nat (length bytes)) max_bytes))
  else Ok bytes.

Definition decode_snapshot (bs : list Z) : Res ReloadError T := map_err Snapshot (codec_decode bs).

Definition dry_run_swap (state : T) (old_hash new_hash : Z) (o : ReloadOptions) : Res ReloadError (list Z) :=
  if negb (old_hash =? new_hash) then Err (IncompatibleSchema old_hash new_hash)
  else encode_snapshot state (max_snapshot_bytes o).

(** What a swap reads and writes: the flags of the gate, the cell of the
    state, and the cell of the program if the caller gave one. *)
Record World : Type := mkWorld { paused : bool; busy : bool; state : T; program : option Program }.

Definition pause (w : World) : World := mkWorld true (busy w) (state w) (program w).
Definition resume (w : World) : World := mkWorld false (busy w) (state w) (program w).
Definition gate_mark_busy (w : World) : World := mkWorld (paused w) true (state w) (program w).
Definition gate_mark_idle (w : World) : World := mkWorld (paused w) false (state w) (program w).
Definition set_state (v : T) (w : World) : World := mkWorld (paused w) (busy w) v (program w).
Definition set_program (p : option Program) (w : World) : World := mkWorld (paused w) (busy w) (state w) p.

(** The check of the descriptor, the module and the schemas, before anything
    is touched: the module, and the migrations to apply. *)
Definition prepare (plan : SwapPlan) (desc_name : string) (reg : option Edges) :
    Res ReloadError (option LoadedAgentModule * option (list MigrationFn)) :=
  if negb (bool_decide (p_agent_type plan = "")) && negb (bool_decide (desc_name = p_agent_type plan))
  then Err (Internal (WrongDescriptor (p_agent_type plan) desc_name))
  else
    preloaded ← match module plan with
                | SameProgram => Ok None
                | WasmBytes bytes =>
                    loaded ← map_err WasmLoad (load_agent_module bytes);
                    if negb (bool_decide (l_agent_type loaded = p_agent_type plan))
                    then Err (AgentTypeMismatch (p_agent_type plan) (l_agent_type loaded))
                    else if negb (l_schema_hash loaded =? new_schema_hash plan)
                    then Err (Internal (WrongHash (l_schema_hash loaded) (new_schema_hash plan)))
                    else Ok (Some loaded)
                end;
    match schema_check (default [] reg) (old_schema_hash plan) (new_schema_hash plan) with
    | Direct => Ok (preloaded, None)
    | Migrate ch => Ok (preloaded, Some ch)
    | Incompatible => Err (IncompatibleSchema (old_schema_hash plan) (new_schema_hash plan))
    end.

(** The wait, on the signal if there is one. *)
Definition drain (plan : SwapPlan) (signal : bool) (looks : list Look) : option (Res ReloadError Z) :=
  let d := deadline (options plan) in
  if signal then map_err (λ _, DrainDeadline d) <$> wait_until_idle d looks
  else map_err (λ _, DrainDeadline d) <$> poll_gate d looks.

(** Pause, snapshot, swap the slot, restore, resume.  [meanwhile] is what
    others do to the state after its lock is released and before the restored
    one is written.  Answers the size of the snapshot. *)
Definition swap (plan : SwapPlan) (preloaded : option LoadedAgentModule) (migration : option (list MigrationFn))
    (meanwhile : T → T) (w : World) : World * Res ReloadError Z :=
  let w := pause w in
  match encode_snapshot (state w) (max_snapshot_bytes (options plan)) with
  | Err e => (w, Err e)
  | Ok snapshot =>
      let w := set_state (meanwhile (state w)) w in
      let w := match preloaded with
               | Some loaded => set_program ((λ p, with_swapped_agent_preloaded p loaded) <$> program w) w
               | None => w
               end in
      match (match migration with None => Ok snapshot | Some ch => map_err Snapshot (apply_chain ch snapshot) end) with
      | Err e => (w, Err e)
      | Ok final_bytes =>
          match decode_snapshot final_bytes with
          | Err e => (w, Err e)
          | Ok restored => (resume (set_state restored w), Ok (Z.of_nat (length snapshot)))
          end
      end
  end.

Definition as_millis (ns : Z) : Z := u64 (ns / 10 ^ 6).

(** [ReloadRunner::run]; [None] while it waits for the handler. *)
Definition run (plan : SwapPlan) (desc_name : string) (reg : option Edges) (signal : bool) (looks : list Look)
    (meanwhile : T → T) (total_elapsed : Z) (w : World) : option (World * Res ReloadError ReloadReport) :=
  match prepare plan desc_name reg with
  | Err e => Some (w, Err e)
  | Ok (preloaded, migration) =>
      match drain plan signal looks with
      | None => None
      | Some (Err e) => Some (w, Err e)
      | Some (Ok drain_elapsed) =>
          match swap plan preloaded migration meanwhile w with
          | (w, Err e) => Some (w, Err e)
          | (w, Ok size) =>
              Some (w, Ok (mkReport (agent_id plan) (p_agent_type plan) (old_schema_hash plan) (new_schema_hash plan)
                             size (as_millis drain_elapsed) (as_millis total_elapsed)))
          end
      end
  end.

End loader.

(** [{:#018x}] of a [u64] *)
Definition hex_digit (n : Z) : Z := if n <? 10 then 48 + n else 87 + n.
Definition hex18 (h : Z) : string :=
  "0x" +:+ of_ascii ((λ i, hex_digit (Z.land (Z.shiftr h (4 * Z.of_nat i)) 15)) <$> reverse (seq 0 16)).

(** [try_migrate]: from the codec of one shape to that of another. *)
Definition try_migrate {Old New : Type} (old_schema : Z) (decode_old : list Z → Res string Old)
    (migrate_from : Old → Res ResumableError New) (encode_new : New → Res string (list Z))
    (old_bytes : list Z) (old_hash : Z) : Res ResumableError (list Z) :=
  if negb (old_hash =? old_schema) then Err (Decode ("migrate: source snapshot hash " +:+ hex18 old_hash +:+ " doesn't match Old::SCHEMA_HASH " +:+ hex18 old_schema))
  else
    old ← codec_decode decode_old old_bytes;
    new ← migrate_from old;
    codec_encode encode_new new.

(** [SchemaRegistry::register]: the edge between two shapes. *)
Definition register {Old New : Type} (old_schema new_schema : Z) (decode_old : list Z → Res string Old)
    (migrate_from : Old → Res ResumableError New) (encode_new : New → Res string (list Z)) (r : SchemaRegistry) :
    SchemaRegistry :=
  register_raw old_schema new_schema
    (λ bytes, try_migrate old_schema decode_old migrate_from encode_new bytes old_schema) r.
