(* ===== verification/ReloadTheorems.v ===== *)
(** * Hot reload: properties

    Migration chains are shortest paths in any order of iteration; a failed
    swap changes nothing before the pause and leaves the agent paused after it;
    program slots are a finite map; schema hashes ignore the order of fields
    and see every one-byte change. *)

From Stdlib Require Import Znumtheory.
From stdpp Require Import base list strings numbers gmap sorting.
From S2P Require Import Prelude Semver IrValue IrMethods Reload.

Local Open Scope Z_scope.
Local Open Scope list_scope.
Notation length := List.length (only parsing).

(** ** The search for a chain *)

(** A walk along registered migrations. *)
Inductive walk (es : list ((Z * Z) * MigrationFn)) : Z → list MigrationFn → Z → Prop :=
  | walk_nil a : walk es a [] a
  | walk_snoc a b c f p : walk es a p b → ((b, c), f) ∈ es → walk es a (p ++ [f]) c.

Section search.
Context (es : list ((Z * Z) * MigrationFn)) (start goal : Z).

Definition closed (seen : list Z) (x : Z) : Prop := ∀ y f, ((x, y), f) ∈ es → y ∈ seen.

Definition unseen (seen : list Z) : nat := length (filter (λ e : (Z * Z) * MigrationFn, e.1.2 ∉ seen) es).

Lemma closed_mono seen seen' x : seen ⊆ seen' → closed seen x → closed seen' x.
Proof. intros Hs Hc y f Hy. by apply Hs, (Hc y f). Qed.

Lemma unseen_cons seen e : e ∈ es → e.1.2 ∉ seen → (unseen (e.1.2 :: seen) < unseen seen)%nat.
Proof.
  unfold unseen. intros He Hn.
  assert (∀ l : list ((Z * Z) * MigrationFn),
    (length (filter (λ x, x.1.2 ∉ e.1.2 :: seen) l) ≤ length (filter (λ x, x.1.2 ∉ seen) l))%nat ∧
    (e ∈ l → length (filter (λ x, x.1.2 ∉ e.1.2 :: seen) l) < length (filter (λ x, x.1.2 ∉ seen) l))%nat) as H.
  { induction l as [|x l [IH1 IH2]]; [split; [done|by intros ?%not_elem_of_nil]|].
    rewrite !filter_cons. split.
    - repeat case_decide; simpl; try lia. set_solver.
    - intros [->|Hl]%elem_of_cons.
      + rewrite decide_False by set_solver. rewrite decide_True by done. simpl. lia.
      + specialize (IH2 Hl). repeat case_decide; simpl; try lia. set_solver. }
  by apply H.
Qed.

(** What one pass over the edges out of [cur] does. *)
Lemma expand_spec cur path l seen fr :
  l ⊆ es → goal ∉ seen →
  match expand goal cur path l seen fr with
  | inl found => ∃ f, found = path ++ [f] ∧ ((cur, goal), f) ∈ es
  | inr (seen', fr') =>
      ∃ add, fr' = fr ++ add ∧ (∀ x, x ∈ seen' ↔ x ∈ seen ∨ x ∈ add.*1) ∧ goal ∉ seen' ∧
        (∀ t p, (t, p) ∈ add → ∃ f, p = path ++ [f] ∧ ((cur, t), f) ∈ es) ∧
        (∀ t f, ((cur, t), f) ∈ l → t ∈ seen') ∧
        (length add + unseen seen' ≤ unseen seen)%nat
  end.
Proof.
  revert seen fr. induction l as [|[[from to] f] l IH]; intros seen fr Hl Hg; simpl.
  { exists []. rewrite app_nil_r. simpl. repeat split; set_solver. }
  assert (l ⊆ es) as Hl' by set_solver.
  destruct (negb (from =? cur) || bool_decide (to ∈ seen)) eqn:Eskip.
  - specialize (IH seen fr Hl' Hg). destruct (expand _ _ _ l seen fr) as [found|[seen' fr']]; [done|].
    destruct IH as (add & ? & Hs & ? & ? & Hc & ?). exists add. repeat split; try done; try apply Hs.
    intros t f' [E|Ht]%elem_of_cons; [|by eapply Hc]. injection E as <- <- <-.
    apply orb_true_iff in Eskip as [Ef|Hin%bool_decide_eq_true]; [|apply Hs; by left].
    rewrite Z.eqb_refl in Ef. done.
  - apply orb_false_iff in Eskip as [Ef%negb_false_iff Hin%bool_decide_eq_false]. apply Z.eqb_eq in Ef as ->.
    destruct (Z.eqb_spec to goal) as [->|Hne]; [exists f; split; [done|set_solver]|].
    specialize (IH (to :: seen) (fr ++ [(to, path ++ [f])]) Hl' ltac:(set_solver)).
    destruct (expand _ _ _ l _ _) as [found|[seen' fr']]; [done|].
    destruct IH as (add & -> & Hs & ? & Ha & Hc & ?). exists ((to, path ++ [f]) :: add).
    pose proof (unseen_cons seen ((cur, to), f) ltac:(set_solver) Hin). simpl in *.
    split; [by rewrite <-app_assoc|]. split; [intros x; rewrite Hs; set_solver|].
    split; [done|]. split; [|split; [|lia]].
    + intros t p [E|?]%elem_of_cons; [|by apply Ha]. injection E as -> ->. exists f. split; [done|set_solver].
    + intros t f' [E|Ht]%elem_of_cons; [|by eapply Hc]. injection E as -> ->. apply Hs. set_solver.
Qed.

(** The frontier is a layer at distance [d], then what is known of the next. *)
Record layered (d : nat) (seen : list Z) (f1 f2 : list (Z * list MigrationFn)) : Prop := {
  ly_start : start ∈ seen;
  ly_goal : goal ∉ seen;
  ly_path1 t p : (t, p) ∈ f1 → walk es start p t ∧ length p = d;
  ly_path2 t p : (t, p) ∈ f2 → walk es start p t ∧ length p = S d;
  ly_seen x : x ∈ seen → x ∈ f1.*1 ∨ x ∈ f2.*1 ∨ closed seen x;
  ly_near x p : walk es start p x → (length p ≤ d)%nat → x ∈ seen ∧ (x ∈ f1.*1 ∨ closed seen x)
}.

(** The next layer becomes the current one. *)
Lemma layered_next d seen f2 : layered d seen [] f2 → layered (S d) seen f2 [].
Proof.
  intros [Hst Hg H1 H2 Hs Hn]. split; try done.
  - by intros t p ?%not_elem_of_nil.
  - intros x Hx. destruct (Hs x Hx) as [?%elem_of_nil|[?|?]]; tauto.
  - intros x p Hw Hlen.
    assert (x ∈ seen) as Hx.
    { inversion Hw as [|a b c f q Hq He]; subst; [done|]. rewrite length_app in Hlen. simpl in Hlen.
      destruct (Hn _ _ Hq ltac:(lia)) as [_ [?%elem_of_nil|Hc]]; [done|by eapply Hc]. }
    split; [done|]. destruct (Hs x Hx) as [?%elem_of_nil|[?|?]]; tauto.
Qed.

Lemma layered_pop d seen f1 f2 cur path add seen' :
  layered d seen ((cur, path) :: f1) f2 →
  (∀ x, x ∈ seen' ↔ x ∈ seen ∨ x ∈ add.*1) → goal ∉ seen' →
  (∀ t p, (t, p) ∈ add → ∃ f, p = path ++ [f] ∧ ((cur, t), f) ∈ es) →
  closed seen' cur → layered d seen' f1 (f2 ++ add).
Proof.
  intros [Hst Hg H1 H2 Hs Hn] Hseen Hg' Hadd Hcur.
  assert (seen ⊆ seen') as Hsub by (intros x ?; apply Hseen; by left).
  split; try done.
  - by apply Hsub.
  - intros t p ?. apply H1. by right.
  - intros t p [?|(f & -> & He)%Hadd]%elem_of_app; [by apply H2|].
    destruct (H1 cur path) as [Hw Hl]; [by left|]. rewrite length_app. simpl.
    split; [by eapply walk_snoc|lia].
  - intros x [Hx|Hx]%Hseen.
    + destruct (Hs x Hx) as [Hf|[Hf|Hf]].
      * apply elem_of_cons in Hf as [->|?]; [by right; right|by left].
      * right; left. rewrite fmap_app, elem_of_app. by left.
      * right; right. by eapply closed_mono.
    + right; left. rewrite fmap_app, elem_of_app. by right.
  - intros x p Hw Hl. destruct (Hn x p Hw Hl) as [Hx Hc]. split; [by apply Hsub|].
    destruct Hc as [Hf|Hf]; [|right; by eapply closed_mono].
    apply elem_of_cons in Hf as [->|?]; [by right|by left].
Qed.

(** A goal not yet seen is beyond the current layer. *)
Lemma layered_far d seen f1 f2 q : layered d seen f1 f2 → walk es start q goal → (d < length q)%nat.
Proof.
  intros H Hw. destruct (decide (d < length q)%nat); [done|]. exfalso.
  apply (ly_goal _ _ _ _ H), (ly_near _ _ _ _ H goal q Hw). lia.
Qed.

Lemma walk_closed seen q x : start ∈ seen → (∀ y, y ∈ seen → closed seen y) → walk es start q x → x ∈ seen.
Proof. intros Hst Hc Hw. induction Hw as [|a b c f p Hw IH He]; [done|]. by apply (Hc b (IH Hst) c f). Qed.

Lemma search_spec fuel d seen f1 f2 :
  layered d seen f1 f2 → (length (f1 ++ f2) + unseen seen < fuel)%nat →
  match search fuel goal es seen (f1 ++ f2) with
  | None => False
  | Some None => ∀ q, ¬ walk es start q goal
  | Some (Some p) => walk es start p goal ∧ ∀ q, walk es start q goal → (length p ≤ length q)%nat
  end.
Proof.
  revert d seen f1 f2. induction fuel as [|fuel IH]; intros d seen f1 f2 HL Hf; [lia|].
  assert (∃ d f1' f2', layered d seen f1' f2' ∧ f1 ++ f2 = f1' ++ f2' ∧ (f1' = [] → f2' = [])) as (d' & g1 & g2 & HL' & E & Hne).
  { destruct f1 as [|x f1]; [|by exists d, (x :: f1), f2].
    exists (S d), f2, []. split; [by apply layered_next|]. by rewrite app_nil_r. }
  rewrite E in *. clear E HL f1 f2 d. rename d' into d. cbn [search].
  destruct g1 as [|[cur path] g1].
  { rewrite Hne in * by done. simpl. intros q Hw.
    eapply (ly_goal _ _ _ _ HL'), walk_closed; [apply HL'| |done].
    intros y Hy. destruct (ly_seen _ _ _ _ HL' y Hy) as [?%elem_of_nil|[?%elem_of_nil|?]]; done. }
  simpl in Hf |- *. pose proof (expand_spec cur path es seen (g1 ++ g2) ltac:(done) (ly_goal _ _ _ _ HL')) as HE.
  destruct (expand goal cur path es seen (g1 ++ g2)) as [found|[seen' fr']].
  - destruct HE as (f & -> & He). destruct (ly_path1 _ _ _ _ HL' cur path) as [Hw Hl]; [by left|].
    split; [by eapply walk_snoc|]. intros q Hq. pose proof (layered_far _ _ _ _ _ HL' Hq).
    rewrite length_app. simpl. lia.
  - destruct HE as (add & -> & Hs & Hg & Ha & Hc & Hlen).
    rewrite <-app_assoc. apply (IH d seen' g1 (g2 ++ add)).
    + by eapply layered_pop.
    + rewrite !length_app in *. lia.
Qed.

End search.

Lemma search_start es old new : old ≠ new → layered es old new 0 [old] [(old, [])] [].
Proof.
  intros Hne. split.
  - set_solver.
  - set_solver.
  - intros t p [E|?%elem_of_nil]%elem_of_cons; [|done]. injection E as -> ->. split; [constructor|done].
  - by intros t p ?%elem_of_nil.
  - intros x ?. left. set_solver.
  - intros x p Hw Hl. destruct p; [|simpl in Hl; lia]. inversion Hw as [|? ? ? ? q ? ? Eq]; subst; [set_solver|].
    by destruct q.
Qed.

(** Whatever order the edges of the registry come in. *)
Lemma chain_spec es old new :
  match chain es old new with
  | None => ∀ q, ¬ walk es old q new
  | Some p => walk es old p new ∧ ∀ q, walk es old q new → (length p ≤ length q)%nat
  end.
Proof.
  unfold chain. destruct (Z.eqb_spec old new) as [->|Hne]; [split; [constructor|simpl; lia]|].
  pose proof (search_spec es old new (2 + length es) 0 [old] [(old, [])] [] (search_start es old new Hne)) as H.
  rewrite app_nil_r in H.
  assert (unseen es [old] ≤ length es)%nat by apply length_filter.
  specialize (H ltac:(simpl; lia)). by destruct (search _ _ _ _ _) as [[p|]|].
Qed.

Lemma walk_sub es es' a p b : es ⊆ es' → walk es a p b → walk es' a p b.
Proof. intros Hs H. induction H; [constructor|]. eapply walk_snoc; [done|]. by apply Hs. Qed.

(** A registered walk: every hop is an entry of the registry. *)
Definition reg_walk (r : SchemaRegistry) : Z → list MigrationFn → Z → Prop := walk (map_to_list (edges r)).

(** C22. Whatever order the registry iterates in, the chain between two hashes is
    a shortest sequence of registered migrations, and there is none only if no
    sequence leads from one to the other. *)
Theorem chain_shortest r es old new :
  es ≡ₚ map_to_list (edges r) →
  match chain es old new with
  | None => ∀ q, ¬ reg_walk r old q new
  | Some p => reg_walk r old p new ∧ ∀ q, reg_walk r old q new → (length p ≤ length q)%nat
  end.
Proof.
  intros HP. pose proof (chain_spec es old new) as H. unfold reg_walk.
  assert (∀ a p b, walk es a p b ↔ walk (map_to_list (edges r)) a p b) as E.
  { intros a p b. split; apply walk_sub; intros x; by rewrite HP. }
  destruct (chain es old new) as [p|].
  - destruct H as [Hw Hm]. split; [by apply E|]. intros q Hq. by apply Hm, E.
  - intros q Hq. by apply (H q), E.
Qed.

(** Two hops beat three, in either order of the edges. *)
Definition hop (n : Z) : MigrationFn := λ bs, Ok (bs ++ [n]).
Definition demo : SchemaRegistry :=
  register_raw 4 5 (hop 45) (register_raw 3 4 (hop 34) (register_raw 1 3 (hop 13)
    (register_raw 3 5 (hop 35) (register_raw 2 3 (hop 23) (register_raw 1 2 (hop 12) new_registry))))).

Lemma chain_shortest_witness : ∃ p, chain (map_to_list (edges demo)) 1 5 = Some p ∧ length p = 2%nat ∧ apply_chain p [0] = Ok [0; 13; 35] ∧
  ∀ q, reg_walk demo 1 q 5 → (length p ≤ length q)%nat.
Proof.
  pose proof (chain_shortest demo (map_to_list (edges demo)) 1 5 (Permutation_refl _)) as H.
  destruct (chain (map_to_list (edges demo)) 1 5) as [p|] eqn:E; [|by vm_compute in E].
  exists p. vm_compute in E. injection E as <-. destruct H as [_ H]. repeat split. exact H.
Defined.

(** The check of the schemas, in terms of the registered migrations. *)
Lemma schema_check_exact es old new :
  match schema_check es old new with
  | Direct => old = new
  | Migrate ch => old ≠ new ∧ ch ≠ [] ∧ walk es old ch new
  | Incompatible => old ≠ new ∧ ∀ q, ¬ walk es old q new
  end.
Proof.
  unfold schema_check. destruct (Z.eqb_spec old new) as [->|Hne]; [done|].
  pose proof (chain_spec es old new) as H. destruct (chain es old new) as [[|f p]|]; [|naive_solver..].
  destruct H as [H _]. exfalso. inversion H as [|? ? ? ? q ? ? E]; subst; [done|]. by destruct q.
Qed.

(** ** Waiting *)

(** The wait ends at the first turn that sees the handler idle or the deadline
    passed, and says which. *)
Lemma wait_exact d looks r :
  wait_until_idle d looks = Some r ↔
  ∃ ls l ls', looks = ls ++ l :: ls' ∧ Forall (λ l, l_busy l = true ∧ l_at l < d) ls ∧
    (l_busy l = false ∧ r = Ok (l_at l) ∨ l_busy l = true ∧ d ≤ l_at l ∧ r = Err (l_then l)).
Proof.
  revert r. induction looks as [|l looks IH]; intros r; simpl.
  { split; [done|]. intros (ls & l & ls' & E & _). by destruct ls. }
  destruct (l_busy l) eqn:Eb; simpl.
  - destruct (Z.eqb_spec (Z.max 0 (d - l_at l)) 0) as [Ez|Ez].
    + split.
      * intros [= <-]. exists [], l, looks. split_and!; [done|constructor|]. right. split_and!; [done|lia|done].
      * intros ([|l0 ls] & l1 & ls' & E & Hls & H); simpl in E.
        -- injection E as -> ->. destruct H as [[? _]|(_ & _ & ->)]; congruence.
        -- injection E as -> ->. inversion Hls as [|? ? [_ ?]]; subst. lia.
    + rewrite IH. split.
      * intros (ls & l1 & ls' & -> & Hls & H). exists (l :: ls), l1, ls'. split_and!; [done| |done].
        constructor; [split; [done|lia]|done].
      * intros ([|l0 ls] & l1 & ls' & E & Hls & H); simpl in E; injection E as -> ->.
        -- destruct H as [[? _]|(_ & ? & _)]; [congruence|lia].
        -- inversion Hls; subst. by exists ls, l1, ls'.
  - split.
    + intros [= <-]. exists [], l, looks. split_and!; [done|constructor|by left].
    + intros ([|l0 ls] & l1 & ls' & E & Hls & H); simpl in E; injection E as -> ->.
      * destruct H as [[_ ->]|(? & _)]; [done|congruence].
      * inversion Hls as [|? ? [? _]]; subst. congruence.
Qed.

(** An agent seen idle only after the deadline is still drained, in more time
    than the deadline allows. *)
Example late_idle_is_ok : wait_until_idle 50 [mkLook true 10 11; mkLook false 80 81] = Some (Ok 80).
Proof. reflexivity. Qed.

(** ** The swap *)

Section swap.
Context (parse_all : list Z → list (Res (Z * string) Payload)) (utf8_error : list Z → string).
Context {T : Type} (encode : T → Res string (list Z)) (decode : list Z → Res string T).

Notation run := (run parse_all utf8_error encode decode).
Notation prepare := (prepare parse_all utf8_error).

(** What the swap writes on each of its ends. *)
Lemma swap_exact plan pre mig meanwhile w :
  match swap encode decode plan pre mig meanwhile w with
  | (w', Ok n) => paused w' = false ∧ busy w' = busy w ∧
      ∃ bs final, encode (state w) = Ok bs ∧ Z.of_nat (length bs) ≤ max_snapshot_bytes (options plan) ∧
        apply_chain (default [] mig) bs = Ok final ∧ decode final = Ok (state w') ∧ n = Z.of_nat (length bs) ∧
        program w' = match pre with
                     | Some l => (λ p, with_swapped_agent_preloaded p l) <$> program w
                     | None => program w
                     end
  | (w', Err e) => paused w' = true ∧ busy w' = busy w ∧ (∃ r, e = Snapshot r)
  end.
Proof.
  unfold swap, encode_snapshot, codec_encode, decode_snapshot, codec_decode. simpl.
  destruct (encode (state w)) as [bs|e] eqn:Ee; simpl; [|by eauto].
  destruct (Z.ltb_spec (max_snapshot_bytes (options plan)) (Z.of_nat (length bs))); simpl; [by eauto|].
  destruct mig as [ch|]; simpl.
  - destruct (apply_chain ch bs) as [final|e] eqn:Ea; simpl.
    + destruct (decode final) as [v|e] eqn:Ed; simpl; [|destruct pre; simpl; by eauto].
      split_and!; try (by destruct pre). exists bs, final. destruct pre; simpl; by split_and!.
    + destruct pre; simpl; by eauto.
  - destruct (decode bs) as [v|e] eqn:Ed; simpl; [|destruct pre; simpl; by eauto].
    split_and!; try (by destruct pre). exists bs, bs. destruct pre; simpl; by split_and!.
Qed.

Lemma prepare_not_snapshot plan desc reg e : prepare plan desc reg = Err e → ∀ r, e ≠ Snapshot r.
Proof.
  unfold prepare, mbind, Res_bind. intros H r ->.
  repeat (case_match; simplify_eq/=; try done);
    unfold map_err, mbind, Res_bind in *; repeat (case_match; simplify_eq/=; try done).
Qed.

Lemma prepare_chain plan desc reg pre mig :
  prepare plan desc reg = Ok (pre, mig) → walk (default [] reg) (old_schema_hash plan) (default [] mig) (new_schema_hash plan).
Proof.
  unfold Reload.prepare. destruct (_ && _); [done|]. unfold mbind, Res_bind.
  destruct (match module plan with SameProgram => _ | WasmBytes _ => _ end) as [l|]; [|done].
  pose proof (schema_check_exact (default [] reg) (old_schema_hash plan) (new_schema_hash plan)) as Hc.
  destruct (schema_check _ _ _); intros [= -> <-]; simpl.
  - rewrite Hc. constructor.
  - by destruct Hc as (_ & _ & ?).
Qed.

Lemma drain_error plan signal looks e : drain plan signal looks = Some (Err e) → e = DrainDeadline (deadline (options plan)).
Proof.
  unfold drain, map_err. destruct signal; intros H; apply fmap_Some in H as ([?|?] & _ & E); by simplify_eq.
Qed.

(** C16. A reload that fails before the pause changes nothing; one that fails
    after it, which is one whose snapshot cannot be written, migrated or read,
    leaves the agent paused, and no other reload does. *)
Theorem failed_reload plan desc reg signal looks meanwhile total w w' e :
  run plan desc reg signal looks meanwhile total w = Some (w', Err e) →
  match e with
  | Snapshot _ => paused w' = true ∧ busy w' = busy w
  | _ => w' = w
  end.
Proof.
  unfold Reload.run. destruct (prepare plan desc reg) as [[pre mig]|e0] eqn:Ep.
  - destruct (drain plan signal looks) as [[dr|e0]|] eqn:Ed; [| |done].
    + pose proof (swap_exact plan pre mig meanwhile w) as Hs.
      destruct (swap _ _ plan pre mig meanwhile w) as [w1 [n|e1]]; intros [= <- <-].
      by destruct Hs as (? & ? & r & ->).
    + intros [= <- <-]. by apply drain_error in Ed as ->.
  - intros [= <- <-]. pose proof (prepare_not_snapshot _ _ _ _ Ep). destruct e0; naive_solver.
Qed.

(** A reload that succeeds leaves the agent running, with the state that
    the migrated snapshot decodes to and exactly the slot of its module
    replaced: what others wrote to the state meanwhile is gone. *)
Theorem successful_reload plan desc reg signal looks meanwhile total w w' rep :
  run plan desc reg signal looks meanwhile total w = Some (w', Ok rep) →
  ∃ pre mig bs final,
    prepare plan desc reg = Ok (pre, mig) ∧
    walk (default [] reg) (old_schema_hash plan) (default [] mig) (new_schema_hash plan) ∧
    encode (state w) = Ok bs ∧ Z.of_nat (length bs) ≤ max_snapshot_bytes (options plan) ∧
    apply_chain (default [] mig) bs = Ok final ∧ decode final = Ok (state w') ∧
    paused w' = false ∧ busy w' = busy w ∧ state_bytes_size rep = Z.of_nat (length bs) ∧
    program w' = match pre with
                 | Some l => (λ p, with_swapped_agent_preloaded p l) <$> program w
                 | None => program w
                 end.
Proof.
  unfold Reload.run. destruct (prepare plan desc reg) as [[pre mig]|e0] eqn:Ep; [|done].
  destruct (drain plan signal looks) as [[dr|e0]|] eqn:Ed; [|done..].
  pose proof (swap_exact plan pre mig meanwhile w) as Hs.
  destruct (swap _ _ plan pre mig meanwhile w) as [w1 [n|e1]]; intros [= <- <-].
  destruct Hs as (Hp & Hb & bs & final & He & Hm & Ha & Hd & -> & Hg). exists pre, mig, bs, final.
  split_and!; try done.
  by eapply prepare_chain.
Qed.

End swap.

(** A parser and a codec to run a swap with: the module's metadata is what
    follows the magic, and the state is its bytes, but 255 does not decode. *)
Definition demo_parse (_ : list Z) : list (Res (Z * string) Payload) :=
  [Ok OtherPayload; Ok (CustomSection SECTION_AGENT_TYPE [69; 99; 104; 111]);
   Ok (CustomSection SECTION_SCHEMA_HASH [5; 0; 0; 0; 0; 0; 0; 0]); Err (99, "never reached")].
Definition demo_encode (v : list Z) : Res string (list Z) := Ok v.
Definition demo_decode (bs : list Z) : Res string (list Z) := if bool_decide (255 ∈ bs) then Err "bad byte" else Ok bs.
Definition demo_wasm : list Z := [0; 97; 115; 109; 1; 0; 0; 0].
Definition demo_plan : SwapPlan := mkPlan 7 "Echo" 1 5 (WasmBytes demo_wasm) default_options.
Definition demo_run (v : list Z) (cell : option Program) :=
  run demo_parse (λ _, "") demo_encode demo_decode demo_plan "Echo" (Some (map_to_list (edges demo))) true
    [mkLook true 10 10; mkLook false 20 20] (λ v, 9 :: v) (3 * 10 ^ 6) (mkWorld false false v cell).

Lemma failed_reload_witness : ∃ w' r, demo_run [255] (Some new_program) = Some (w', Err (Snapshot r)) ∧
  paused w' = true ∧ program w' = Some (mkProgram [mkSlot "Echo" demo_wasm 5]).
Proof.
  eexists _, _. split; [vm_compute; reflexivity|].
  split; [|reflexivity].
  by apply (failed_reload demo_parse (λ _, "") demo_encode demo_decode demo_plan "Echo" (Some (map_to_list (edges demo))) true
    [mkLook true 10 10; mkLook false 20 20] (λ v, 9 :: v) (3 * 10 ^ 6) (mkWorld false false [255] (Some new_program))
    _ (Snapshot (Decode "bad byte"))).
Defined.

Lemma successful_reload_witness : ∃ w' rep, demo_run [4] (Some new_program) = Some (w', Ok rep) ∧
  state w' = [4; 13; 35] ∧ ∃ bs, demo_encode [4] = Ok bs ∧ state_bytes_size rep = Z.of_nat (length bs).
Proof.
  eexists _, _. split; [vm_compute; reflexivity|]. split; [reflexivity|].
  edestruct (successful_reload demo_parse (λ _, "") demo_encode demo_decode demo_plan "Echo" (Some (map_to_list (edges demo))) true
    [mkLook true 10 10; mkLook false 20 20] (λ v, 9 :: v) (3 * 10 ^ 6) (mkWorld false false [4] (Some new_program)))
    as (pre & mig & bs & final & _ & _ & E & _ & _ & _ & _ & _ & Hs & _); [vm_compute; reflexivity|].
  exists bs. split; [exact E|exact Hs].
Defined.

(** ** Program slots *)

Lemma replace_slot_spec slot ss :
  match replace_slot slot ss with
  | Some ss' => ∃ l s r, ss = l ++ s :: r ∧ ss' = l ++ slot :: r ∧ agent_type s = agent_type slot
  | None => agent_type slot ∉ agent_type <$> ss
  end.
Proof.
  induction ss as [|s ss IH]; simpl; [set_solver|]. case_bool_decide as E; [by exists [], s, ss|].
  destruct (replace_slot slot ss) as [ss'|]; simpl.
  - destruct IH as (l & s' & r & -> & -> & ?). by exists (s :: l), s', r.
  - set_solver.
Qed.

#[export] Instance type_le_trans : Transitive type_le.
Proof. intros a b c. unfold type_le. by transitivity (agent_type b). Qed.
#[export] Instance type_le_total : Total type_le.
Proof. intros a b. unfold type_le. apply (total String.le). Qed.

(** The slots are a map from types: one of each, in the order of the types. *)
Definition represents (p : Program) (m : gmap string AgentSlot) : Prop :=
  NoDup (agent_type <$> slots p) ∧ StronglySorted type_le (slots p) ∧
  ∀ ty s, m !! ty = Some s ↔ s ∈ slots p ∧ agent_type s = ty.

Lemma sorted_same_keys l (s s' : AgentSlot) r :
  agent_type s = agent_type s' → StronglySorted type_le (l ++ s :: r) → StronglySorted type_le (l ++ s' :: r).
Proof.
  intros E. induction l as [|x l IH]; simpl; intros H; inversion H as [|? ? Hs Hf]; subst; constructor.
  - done.
  - eapply Forall_impl; [exact Hf|]. intros y. unfold type_le. by rewrite E.
  - auto.
  - rewrite Forall_app, Forall_cons in *. unfold type_le in *. rewrite <-E. tauto.
Qed.

Lemma install_represents slot p m : represents p m → represents (install slot p) (<[agent_type slot := slot]> m).
Proof.
  intros (Hnd & Hso & Hm). unfold install. pose proof (replace_slot_spec slot (slots p)) as H.
  destruct (replace_slot slot (slots p)) as [ss|].
  - destruct H as (l & s & r & E & -> & Et). unfold represents. simpl. rewrite E in *.
    split_and!.
    + rewrite fmap_app, fmap_cons in *. by rewrite <-Et.
    + by eapply sorted_same_keys.
    + intros ty s'. destruct (decide (ty = agent_type slot)) as [->|Hne].
      * rewrite lookup_insert_eq. rewrite fmap_app, fmap_cons, NoDup_app, NoDup_cons in Hnd.
        destruct Hnd as (_ & Hl & Hr & _). rewrite elem_of_app, elem_of_cons. split; [intros [= <-]; tauto|].
        intros [[Hin|[->|Hin]] Hty]; [|done|].
        -- exfalso. apply (Hl (agent_type s')); [by apply list_elem_of_fmap_2|]. rewrite Et, Hty. by left.
        -- exfalso. apply Hr. rewrite Et, <-Hty. by apply list_elem_of_fmap_2.
      * rewrite lookup_insert_ne by done. rewrite Hm, !elem_of_app, !elem_of_cons. split.
        -- intros [[?|[->|?]] <-]; [tauto|congruence|tauto].
        -- intros [[?|[->|?]] <-]; [tauto|congruence|tauto].
  - unfold represents. simpl. pose proof (merge_sort_Permutation type_le (slots p ++ [slot])) as HP. split_and!.
    + rewrite HP, fmap_app. simpl. apply NoDup_app. split_and!; [done| |apply NoDup_singleton].
      intros x Hx ->%list_elem_of_singleton. done.
    + apply (StronglySorted_merge_sort type_le).
    + intros ty s'. rewrite HP, elem_of_app, list_elem_of_singleton. destruct (decide (ty = agent_type slot)) as [->|Hne].
      * rewrite lookup_insert_eq. split; [intros [= <-]; tauto|]. intros [[Hin| ->] Hty]; [|done].
        exfalso. apply H. rewrite <-Hty. by apply list_elem_of_fmap_2.
      * rewrite lookup_insert_ne, Hm by done. split; [tauto|]. intros [[?| ->] <-]; [tauto|done].
Qed.

Lemma get_represents p m ty : represents p m → get ty p = m !! ty.
Proof.
  intros (Hnd & _ & Hm). unfold get. destruct (list_find _ (slots p)) as [[i s]|] eqn:E; simpl.
  - apply list_find_Some in E as (Hi & Hty & _). symmetry. apply Hm. split; [by eapply list_elem_of_lookup_2|done].
  - apply list_find_None in E. rewrite Forall_forall in E. destruct (m !! ty) as [s|] eqn:El; [|done].
    apply Hm in El as [Hin Hty]. by destruct (E s Hin).
Qed.

Lemma count_represents p m : represents p m → agent_count p = size m.
Proof.
  intros (Hnd & _ & Hm). unfold agent_count. rewrite <-length_map_to_list, <-(length_fmap (λ s, (agent_type s, s)) (slots p)).
  apply Permutation_length, NoDup_Permutation.
  - apply (NoDup_fmap_1 fst). rewrite <-list_fmap_compose. done.
  - apply NoDup_map_to_list.
  - intros [ty s]. rewrite elem_of_map_to_list, Hm, list_elem_of_fmap. naive_solver.
Qed.

(** C31. However slots were installed, the program holds one slot for each type,
    in the order of the types, and a type's slot is the last installed. *)
Theorem slots_refine_map ss :
  let p := foldl with_agent new_program ss in
  let m := foldl (λ (m : gmap string AgentSlot) s, <[agent_type s := s]> m) ∅ ss in
  NoDup (agent_type <$> slots p) ∧ StronglySorted type_le (slots p) ∧ (∀ ty, get ty p = m !! ty) ∧ agent_count p = size m.
Proof.
  intros p m. assert (represents p m) as H.
  { unfold p, m. assert (represents new_program ∅) as H0.
    { split_and!; [constructor|constructor|]. intros ty s. rewrite lookup_empty. set_solver. }
    revert H0. generalize new_program, (∅ : gmap string AgentSlot).
    induction ss as [|s ss IH]; intros q n Hq; simpl; [done|]. apply IH. by apply install_represents. }
  split_and!; [apply H|apply H| |by apply count_represents]. intros ty. by apply get_represents.
Qed.

(** ** Schema hashes *)

Lemma lxor_bound a b n : 0 <= n → 0 <= a < 2 ^ n → 0 <= b < 2 ^ n → 0 <= Z.lxor a b < 2 ^ n.
Proof.
  intros Hn Ha Hb. assert (0 <= Z.lxor a b) by (apply Z.lxor_nonneg; lia). split; [done|].
  destruct (decide (Z.lxor a b = 0)) as [->|Hne]; [lia|]. apply Z.log2_lt_pow2; [lia|].
  pose proof (Z.log2_lxor a b ltac:(lia) ltac:(lia)).
  assert (∀ x, 0 <= x < 2 ^ n → x ≠ 0 → Z.log2 x < n) as L by (intros x ??; apply Z.log2_lt_pow2; lia).
  assert (a ≠ 0 ∨ b ≠ 0) as Hab.
  { destruct (decide (a = 0)) as [->|?]; [|by left]. right. intros ->. by rewrite Z.lxor_0_r in Hne. }
  assert (0 < n). { destruct (decide (n = 0)) as [->|?]; lia. }
  assert (Z.log2 a < n) by (destruct (decide (a = 0)) as [->|?]; [rewrite Z.log2_nonpos; lia|by apply L]).
  assert (Z.log2 b < n) by (destruct (decide (b = 0)) as [->|?]; [rewrite Z.log2_nonpos; lia|by apply L]).
  lia.
Qed.

(** The prime is odd: the multiplication loses nothing. *)
Lemma fnv_mul_inj x y : 0 <= x < 2 ^ 64 → 0 <= y < 2 ^ 64 → u64 (x * FNV_PRIME) = u64 (y * FNV_PRIME) → x = y.
Proof.
  unfold u64. intros Hx Hy E.
  assert ((2 ^ 64 | FNV_PRIME * (x - y))) as HD.
  { apply Z.mod_divide; [done|]. replace (FNV_PRIME * (x - y)) with (x * FNV_PRIME - y * FNV_PRIME) by lia.
    rewrite Zminus_mod, E, Z.sub_diag. done. }
  apply Gauss in HD; [|apply Zgcd_1_rel_prime; by vm_compute].
  destruct HD as [k Hk]. destruct (decide (k = 0)) as [->|?]; nia.
Qed.

Definition is_u64 (h : Z) : Prop := 0 <= h < 2 ^ 64.
Definition is_byte (b : Z) : Prop := 0 <= b < 256.

Lemma fnv_byte_range h b : is_u64 (fnv_byte h b).
Proof. apply Z.mod_pos_bound. done. Qed.

Lemma fnv_byte_inj h h' b b' :
  is_u64 h → is_u64 h' → is_byte b → is_byte b' → fnv_byte h b = fnv_byte h' b' → Z.lxor h b = Z.lxor h' b'.
Proof. unfold is_u64, is_byte. intros. apply fnv_mul_inj; [apply lxor_bound; lia..|done]. Qed.

Lemma lxor_cancel_l a b c : Z.lxor a b = Z.lxor a c → b = c.
Proof. intros E. apply (f_equal (Z.lxor a)) in E. by rewrite <-!Z.lxor_assoc, !Z.lxor_nilpotent, !Z.lxor_0_l in E. Qed.

Lemma fnv_update_inj bs h h' : is_u64 h → is_u64 h' → Forall is_byte bs → update h bs = update h' bs → h = h'.
Proof.
  unfold update. revert h h'. induction bs as [|b bs IH]; intros h h' Hh Hh' Hbs E; simpl in E; [done|].
  inversion Hbs; subst. apply IH in E; [|apply fnv_byte_range..|done].
  apply fnv_byte_inj in E; try done. rewrite !(Z.lxor_comm _ b) in E. by apply lxor_cancel_l in E.
Qed.

Lemma fnv_update_app h xs ys : update h (xs ++ ys) = update (update h xs) ys.
Proof. apply foldl_app. Qed.

Lemma fnv_update_range h bs : is_u64 h → is_u64 (update h bs).
Proof.
  unfold update. revert h. induction bs as [|b bs IH]; intros h Hh; simpl; [done|]. apply IH, fnv_byte_range.
Qed.

(** The hash is that of one string of bytes. *)
Lemma hash_fields_bytes h fs : foldl hash_field h fs = update h (fs ≫= field_bytes).
Proof.
  revert h. induction fs as [|f fs IH]; intros h; simpl; [done|]. rewrite IH. unfold hash_field, field_bytes.
  by rewrite !fnv_update_app.
Qed.

Lemma bytes_of_bytes s : Forall is_byte (bytes_of s).
Proof.
  unfold bytes_of. apply Forall_fmap, Forall_forall. intros a _. unfold is_byte. simpl.
  pose proof (Ascii.N_ascii_bounded a). lia.
Qed.

Lemma field_bytes_bytes fs : Forall is_byte (fs ≫= field_bytes).
Proof.
  induction fs as [|f fs IH]; simpl; [constructor|]. unfold field_bytes at 1.
  rewrite !Forall_app. repeat split; try apply bytes_of_bytes; try done; repeat constructor; unfold is_byte; lia.
Qed.

Lemma name_le_sort_unique fs gs : NoDup fs.*1 → fs ≡ₚ gs → StronglySorted name_le gs → merge_sort name_le fs = gs.
Proof.
  intros Hnd HP Hs. apply (StronglySorted_unique_strong name_le).
  - intros [n t] [n' t'] H1 H2 Hle Hle'. assert (n = n') as ->.
    { eapply (anti_symm String.le); [exact Hle|exact Hle']. }
    rewrite merge_sort_Permutation in H1. rewrite <-HP in H2. f_equal.
    apply list_elem_of_lookup in H1 as [i Hi], H2 as [j Hj].
    assert (i = j) as ->. { eapply (NoDup_lookup _ _ _ n' Hnd); rewrite list_lookup_fmap; [by rewrite Hi|by rewrite Hj]. }
    by simplify_eq.
  - apply (StronglySorted_merge_sort name_le).
  - done.
  - by rewrite merge_sort_Permutation.
Qed.

Lemma sorted_same_names l n t t' r :
  StronglySorted name_le (l ++ (n, t) :: r) → StronglySorted name_le (l ++ (n, t') :: r).
Proof.
  induction l as [|x l IH]; simpl; intros H; inversion H as [|? ? Hs Hf]; subst; constructor; try done; [by apply IH|].
  rewrite Forall_app, Forall_cons in *. done.
Qed.

(** C32. The hash of a shape with distinct fields does not depend on their
    order, and differs from that of a shape in which one byte of one field's
    type is another. *)
Theorem schema_hash_by_shape l n t t' r pre b b' suf fs fs' :
  NoDup (l ++ (n, t) :: r).*1 → bytes_of t = pre ++ b :: suf → bytes_of t' = pre ++ b' :: suf → b ≠ b' →
  fs ≡ₚ l ++ (n, t) :: r → fs' ≡ₚ l ++ (n, t') :: r →
  compute_schema_hash fs = compute_schema_hash (l ++ (n, t) :: r) ∧ compute_schema_hash fs ≠ compute_schema_hash fs'.
Proof.
  intros Hnd Hb Hb' Hne HP HP'. unfold compute_schema_hash. rewrite !hash_fields_bytes.
  set (g := merge_sort name_le (l ++ (n, t) :: r)).
  assert (g ≡ₚ l ++ (n, t) :: r) as Hg by apply merge_sort_Permutation.
  assert (StronglySorted name_le g) as Hgs by apply (StronglySorted_merge_sort name_le).
  assert (merge_sort name_le fs = g) as ->.
  { apply name_le_sort_unique; [by rewrite HP|by rewrite HP, Hg|done]. }
  split; [done|].
  assert ((n, t) ∈ g) as (gl & gr & Eg)%list_elem_of_split. { rewrite Hg. set_solver. }
  assert (merge_sort name_le fs' = gl ++ (n, t') :: gr) as ->.
  { apply name_le_sort_unique.
    - rewrite HP', fmap_app. simpl. by rewrite fmap_app in Hnd.
    - rewrite HP'. assert (l ++ r ≡ₚ gl ++ gr) as E.
      { rewrite Eg in Hg. rewrite <-!Permutation_middle in Hg. by apply (inj (cons _)) in Hg. }
      by rewrite <-!Permutation_middle, E.
    - rewrite Eg in Hgs. by eapply sorted_same_names. }
  rewrite Eg, !bind_app. simpl. unfold field_bytes at 2 5. simpl. rewrite Hb, Hb'.
  set (h := gl ≫= field_bytes). set (rest := gr ≫= field_bytes). intros E.
  pose proof (field_bytes_bytes gr) as Hrest.
  pose proof (bytes_of_bytes t) as Ht. rewrite Hb, Forall_app, Forall_cons in Ht. destruct Ht as (_ & Hbb & Hsuf).
  pose proof (bytes_of_bytes t') as Ht'. rewrite Hb', Forall_app, Forall_cons in Ht'. destruct Ht' as (_ & Hbb' & _).
  assert (∀ c, update FNV_OFFSET (h ++ (bytes_of n ++ 0x1f :: (pre ++ c :: suf) ++ [0x1e]) ++ rest)
            = update (fnv_byte (update FNV_OFFSET (h ++ bytes_of n ++ 0x1f :: pre)) c) (suf ++ 0x1e :: rest)) as Esplit.
  { intros c. change (update (fnv_byte ?x c) ?y) with (update x (c :: y)). rewrite <-fnv_update_app. f_equal.
    repeat (rewrite <-app_assoc || rewrite <-app_comm_cons). done. }
  assert (is_u64 FNV_OFFSET) by done.
  rewrite !Esplit in E. apply fnv_update_inj in E; [| apply fnv_byte_range.. |].
  - apply fnv_byte_inj in E; try apply fnv_update_range; try done. by apply lxor_cancel_l in E.
  - rewrite Forall_app, Forall_cons. split_and!; try done.
Qed.

Lemma schema_hash_by_shape_witness :
  compute_schema_hash [("name", "String"); ("count", "u64")] = compute_schema_hash [("count", "u64"); ("name", "String")] ∧
  compute_schema_hash [("name", "String"); ("count", "u64")] ≠ compute_schema_hash [("name", "String"); ("count", "i64")].
Proof.
  apply (schema_hash_by_shape [] "count" "u64" "i64" [("name", "String")] [] 117 105 [54; 52]
    [("name", "String"); ("count", "u64")] [("name", "String"); ("count", "i64")]).
  - simpl. apply NoDup_cons. split; [set_solver|apply NoDup_singleton].
  - reflexivity.
  - reflexivity.
  - done.
  - apply Permutation_swap.
  - apply Permutation_swap.
Defined.

(** The tests of the source. *)
Example schema_hash_separator_prevents_collision :
  compute_schema_hash [("ab", "c")] ≠ compute_schema_hash [("a", "bc")].
Proof. by vm_compute. Qed.

(** ** Modules *)

(** Sections that carry none of the metadata. *)
Definition plain (p : Res (Z * string) Payload) : Prop :=
  match p with
  | Ok (CustomSection name _) => name ≠ SECTION_AGENT_TYPE ∧ name ≠ SECTION_SCHEMA_HASH
  | Ok OtherPayload => True
  | Err _ => False
  end.

Lemma scan_plain ue ps rest ty h :
  Forall plain ps → ty = None ∨ h = None → scan ue (ps ++ rest) ty h = scan ue rest ty h.
Proof.
  intros Hp Hn. induction Hp as [|[[name data|]|] ps Hx Hps IH]; simpl; try done.
  destruct Hx as [H1 H2]. rewrite !bool_decide_false by done. simpl.
  destruct ty, h; try done; destruct Hn; done.
Qed.

(** A module is loaded from its two sections, in this order, whatever comes
    after them: sections, or bytes that do not parse. *)
Lemma load_round_trip pa ue body a b rest data s bs8 :
  pa (demo_wasm ++ body) = a ++ Ok (CustomSection SECTION_AGENT_TYPE data) :: b ++ Ok (CustomSection SECTION_SCHEMA_HASH bs8) :: rest →
  Forall plain a → Forall plain b → data ≠ [] → utf8_decode data = Some s → length bs8 = 8%nat →
  load_agent_module pa ue (demo_wasm ++ body) = Ok (mkLoaded (demo_wasm ++ body) (of_ascii data) (from_le_bytes bs8)).
Proof.
  intros Hp Ha Hb Hd Hu Hl. unfold load_agent_module.
  destruct (Nat.ltb_spec (length (demo_wasm ++ body)) WASM_MAGIC_LEN) as [H|_]; [rewrite length_app in H; cbv in H; lia|].
  rewrite bool_decide_true by done. cbn [negb].
  rewrite Hp, scan_plain by (try done; by left). simpl. rewrite (bool_decide_false (data = [])) by done. rewrite Hu. simpl.
  rewrite scan_plain by (try done; by right). simpl. by rewrite Hl.
Qed.
